(* ===== verification/_CoqProject ===== *)
-Q . S2P
Prelude.v
Conc.v
Random.v
Thread.v
Params.v
Window2Dd.v
CounterSpec.v
Counter2Dd.v
Solo2Dd.v
Counter2DdSeq.v
StackHeap.v
LifoOrder.v
Stack2Dd.v
Stack2DdSeq.v
QueueHeap.v
FifoOrder.v
Queue2Dd.v
Queue2DdSeq.v
Shared.v
SubStacks.v
Window2Dc.v
Solo2Dc.v
Stack2Dc.v
Stack2DcSeq.v
Stack2DcOpt.v
SubCounters.v
Counter2Dc.v
Counter2DcSeq.v
MultiCounter.v
FaaCounters.v
RandomStacks.v
SubQueues.v
QueueMs.v
RandomQueues.v
QueueOpt.v
OptWindow.v
OptQueue.v
OptRuns.v
Lateral.v
Rows.v
RowOrder.v
ElasticLaw.v
LawWindow.v
LawQueue.v
LawRuns.v
LawSeq.v
ElasticLpw.v
LpwWindow.v
LpwSeq.v
ElasticStack.v
ElasticStackRuns.v
ElasticStackSeq.v
SubDeques.v
Deques.v
DequeRuns.v
Deque2Dc.v
Deque2Dd.v
DequeSolo.v
Deque2DcSeq.v
TopStack.v
StrictStacks.v
RelaxAnalysis.v
