(* ===== verification/Prelude.v ===== *)
(** Verification of the 2D framework of relaxed concurrent data structures.

    * The program

    The repository implements counters, stacks, queues and deques for many threads
    that are relaxed for speed: the elements are spread over [width]
    sub-structures, and an operation may work on any sub-structure whose
    operation count lies inside a moving window of [depth] rows.  The parts
    modelled here:

    - the windows: include/2Dd-window.c (one window for puts and one for gets)
      and include/2Dc-window.c (one window for both), which choose the
      sub-structure of an operation by hopping, and shift when all are used up;
    - the structures on them: src/2Dd-counter, src/2Dd-stack, src/2Dd-queue,
      src/2Dc-counter, src/2Dc-stack, src/2Dc-stack_optimized,
      src/2Dd-queue_optimized;
    - double-ended queues with windows of their own (2Dc-window_maged.c and
      2Dd-window_maged.c): src/2Dc-deque and src/2Dd-deque;
    - elastic structures, whose width and depth change at run time:
      src/2Dd-queue_elastic-law, where the windows are the nodes of a queue of
      their own (lateral_queue.c), src/2Dd-queue_elastic-lpw, where a lateral
      queue marks the rows at which the width changes, and
      src/2Dc-stack_elastic-lpw, where a lateral stack does (lateral_stack.c);
    - what they are compared with: structures that choose among random
      sub-structures (src/multi-counter_random-relaxed,
      src/multi-counter-faa_random-relaxed, src/multi-stack_random-relaxed,
      src/stack-dra, src/multi-queue_random-relaxed, src/queue-dra), and the
      strict src/single-cas, src/single-faa, src/queue-ms, src/stack-treiber and
      src/stack-elimination;
    - include/random.h, the generator behind the random hops;
    - include/relaxation_analysis_queue.c, which measures how relaxed a structure
      is.

    A structure calls a window (a C file that is compiled into it, DS_TYPE
    being the structure), the window reads the structure's descriptors and its
    own shared variable, and the threads interact only through single atomic
    accesses to the shared memory.

    * How it is modelled

    Conc.v defines the language the C functions are translated into: programs
    ([prog]) whose steps are the accesses to shared memory ([Act]), the steps
    on thread-local variables ([Loc]) and loops ([While]).  Each atomic access
    of the C code is a step of its own; a plain copy of a structure of several
    words is one step per field, because other threads can come in between.
    [exec] runs a pool of threads according to a schedule, any interleaving
    being one; [run] runs a thread alone with a number of steps.  An access to
    NULL or to memory that was never allocated, an index out of an array, a
    division by zero, a failed assertion and signed overflow in [create_*] have
    no next step ([Fault]); [faulty] says that some thread is in that state.
    Integers are [Z] with the wrap-around of their C type ([u64], [u32], [u16]
    of this file).  A compare-and-exchange compares all fields.

    History variables (fields named so in the records: the history of the
    linearization points, the chains of nodes) are written by the steps and
    never read by a step; they only state the theorems.

    The proofs use the rely/guarantee logic of Conc.v: a [protocol] gives the
    invariant, what a thread may rely on and what it guarantees; [wp] is the
    weakest precondition of a program under it; [soundness] turns it into a
    statement on all interleavings and [twp_run] into termination of a thread
    alone.

    * Bounds

    The theorems are about executions in which no counter leaves its type; a
    protocol's [p_ok] says so of a memory.  Where the counters have 64 bits the
    bound is far away: the number of steps or calls, times the depth where the
    counter is a row, is below a number around 2^62 (2^39 steps and 2^46 calls
    for the elastic queues, whose windows may be 2^16 rows each).  Where the code
    has narrower fields it is nearer:

    - Stack2Dd: [put_count] and [get_count] have 32 bits and the windows 64; the
      theorem on interleavings is about those in which the put window stays below
      [2^32 - depth].  Beyond that its claim about the counts is false
      ([Stack2Dd.put_count_wraps]).  Stack2DdSeq: [(calls + 2) * depth < 2^32].
    - Stack2DcOpt: 32-bit rows, [depth + steps * (shift + 1) < 2^31], and
      [(calls + 3) * depth < 2^31] for one thread.
    - Stack2Dc: [initialize_global_window] truncates the depth to 16 bits, and the
      theorems are about depths below 2^16 where that matters.
    - ElasticStackRuns: executions with fewer than [2^16 - 1] windows, since the
      version has 16 bits.  ElasticStackSeq: [(calls + 3) * dm < 2^32 - 2^16] for
      the largest depth [dm], rows having 32 bits.
    - The deques: widths and relaxation bounds below 2^31, as they are computed in
      an int; Deque2DcSeq: fewer than 2^31 calls, and counts that happen to be 0
      at the start, which the code does not initialise.
    - [queue_size] and the like count in an int over the width; the widths are
      assumed to fit.

    * The files

    - Prelude, Conc, Random, Thread, Params: words and sums, the language and
      logic, random.h, the statistics, the derivation of width and depth that
      opens every [create_*].
    - Window2Dd (include/2Dd-window.c) with the interface [SubOps]/[SubLaws]
      that the structures implement, Solo2Dd the same for one thread;
      Counter2Dd, Stack2Dd, Queue2Dd the structures for any interleaving, and
      Counter2DdSeq, Stack2DdSeq, Queue2DdSeq for one thread.
    - CounterSpec: the contract of a counter.  StackHeap, QueueHeap: linked
      nodes in shared memory, for stacks and queues.  FifoOrder: the specification
      of a k-out-of-order queue and how sub-queues in rows meet it.  LifoOrder: the
      elements of many stacks in the order of their pushes.
    - Shared: memory made of a window and of sub-structures, and the classes
      [Runs], [Reads], [Couples] by which one proof serves a thread among others
      and a thread alone.  SubStacks, SubCounters, SubQueues: arrays of Treiber
      stacks, counters and Michael-Scott queues, with the rules of their steps.
    - Window2Dc (include/2Dc-window.c) and Solo2Dc; Stack2Dc, Stack2DcSeq,
      Stack2DcOpt (with src/2Dc-stack_optimized/2Dc-window_optimized.c),
      Counter2Dc, Counter2DcSeq.
    - MultiCounter, FaaCounters, RandomStacks, RandomQueues, QueueMs: the
      structures without a window.
    - TopStack (a stack of linked nodes with its elimination array), StrictStacks
      (src/stack-treiber, src/stack-elimination).
    - QueueOpt (the definitions of src/2Dd-queue_optimized), OptWindow and OptQueue
      (its functions), OptRuns (its executions and its runs for one thread).
    - Lateral (the lateral queue's memory and steps), Rows (the rows of put
      windows of changing width and depth, the invariant of the elastic queues),
      RowOrder (the same rows as the windows of a specification);
      ElasticLaw (the definitions of src/2Dd-queue_elastic-law), LawWindow and
      LawQueue (its functions), LawRuns (its executions), LawSeq (for one
      thread); ElasticLpw (the definitions of src/2Dd-queue_elastic-lpw),
      LpwWindow and LpwSeq (its functions and runs, for one thread);
      ElasticStack (the definitions of src/2Dc-stack_elastic-lpw), ElasticStackRuns
      (its executions), ElasticStackSeq (for one thread).
    - SubDeques (an array of deques that are replaced by exchanging an anchor, with
      its invariant and the rules of its steps), Deques (the functions that
      src/2Dc-deque/2Dc-deque.c and src/2Dd-deque/2Dd-deque.c share, over the class
      [Windows]; the left and right version of a function are one definition with
      the side as an argument), DequeRuns (their executions, for any instance of
      [WindowsOk]); Deque2Dc and Deque2Dd (the two structures); DequeSolo and
      Deque2DcSeq (for one thread).
    - RelaxAnalysis (include/relaxation_analysis_queue.c), in a monad of state and
      faults, since it runs under a lock.

    Definitions have the names of the C functions and fields; [f_body] is the
    body of the loop of [f], and [exec_op] the client's call.

    * The theorems

    - For one thread every structure refines its relaxed specification:
      [Queue2DdSeq.queue2Dd_k_relaxed], [Stack2DcSeq.stack2Dc_k_relaxed],
      [Stack2DcOpt.stack2Dc_opt_k_relaxed], [OptRuns.queue2Dd_opt_k_relaxed], [LawSeq.elastic_law_k_relaxed],
      [LpwSeq.elastic_lpw_k_relaxed], [ElasticStackSeq.elastic_stack_k_relaxed]
      (k-out-of-order queues and stacks), [Stack2DdSeq.stack2Dd_sequential], the counters'
      [*_sequential] (exact emptiness and the error of the estimate),
      [*_choice] (the process of the best of d random choices, whose draws are
      those of the generator from the thread's seeds),
      [Deque2DcSeq.deque2dc_sequential] (no order between the deques).  They state
      that every run ends, for every number of steps from some number on, and
      that the size functions are exact.  The state that the specification is in
      is that of the memory: for the elastic structures its windows are those of
      the memory, and they are opened and moved exactly when they are full (or,
      for the stack, when nothing reaches into them), with the dimensions that
      were set last.
    - For every interleaving the sub-structures are linearizable stacks, queues,
      deques or counters and each thread's results are those of its own operations on
      them: the theorems named [*_linearizable] and [*_exactly_once].  Replaying
      the history ([replayed], [qreplayed]) gives the memory.
    - For every interleaving nothing undefined happens, no assertion of the code
      fails, and the puts stay within the window: [Queue2Dd.queue2Dd_safe],
      [Counter2Dd.counter2Dd_safe], and the first parts of the others.
    - The measurements are right: [RelaxAnalysis.relaxation_analysis_exact], and
      [RelaxAnalysis.measured_relaxation_bounded] for the runs of the relaxed
      specifications.
    - [QueueMs.ms_queue_obstruction_free], [StrictStacks.strict_stacks_obstruction_free]:
      alone from any reachable state, a thread finishes.
    - [Random.xorshf96_invertible], [Stack2DcOpt.update_dimensions_spec].

    Theorems about one thread have the thread run alone from [create_*];
    fuel is never a bound: they say that from some number of steps on the
    result of [run] does not change.

    * What is not modelled

    - Reclamation of nodes (ssmem, [GC]): an allocation returns an address that
      is not in use, and nodes that have been unlinked keep their contents.
    - The memory model: accesses are sequentially consistent.
    - 2Dd-queue_elastic-lpw with many threads or with a depth that changes: a
      thread reads the two words of a window one after the other and may see
      words of different windows, so that the row bounds and the assertions do
      not hold; [LpwSeq.elastic_lpw_misses_element] and
      [LpwSeq.elastic_lpw_counts_overtake] run two cases in which the depth grew.
    - 2Dc-stack_elastic-lpw where a window reaches past the arrays (the bottom of
      the lateral stack has the width [max_width + 1]) or after [2^16 - 1] windows
      (the version wraps around), and its order of elements when the width
      shrinks; [ElasticStackRuns.elastic_stack_loses_element] runs such a case.
    - The order of a deque's elements across the deques of src/2Dc-deque and
      src/2Dd-deque: the window of the former does not bound it
      ([Deque2DcSeq.deque2dc_overtakes]), and a pop of the latter can answer empty
      when it is not, even with one thread ([Deque2Dd.deque2dd_false_empty]).
    - The k-segment structures and the array-based and wait-free queues, algorithms
      of others that the repository only measures against and that no modelled
      file calls; the locks and ssalloc.
    - The elastic queue's optional controller (ELASTIC_CONTROLLER).
    - The benchmark drivers, statistics and the vendored atomic operations. *)
From stdpp Require Export base tactics numbers list gmap.
From Stdlib Require Export ZArith Lia.

Open Scope Z_scope.

(** ** Machine words

    A [w]-bit unsigned integer of the C code is a [Z] in [[0, 2^w)]; every
    arithmetic operation that can leave that range is followed by the
    wrap-around of its type. *)

Definition wrap (w x : Z) : Z := x mod 2 ^ w.
Notation u64 := (wrap 64).
Notation u32 := (wrap 32).
Notation u16 := (wrap 16).
Notation u8 := (wrap 8).

(** The value of a [w]-bit pattern read as a two's complement integer. *)
Definition sign (w x : Z) : Z :=
  let y := wrap w x in if y <? 2 ^ (w - 1) then y else y - 2 ^ w.
Notation i16 := (sign 16).
Notation i32 := (sign 32).
Notation i64 := (sign 64).

Definition UINT64_MAX : Z := 2 ^ 64 - 1.

Lemma wrap_small w x : 0 <= x < 2 ^ w -> wrap w x = x.
Proof. intros; unfold wrap; apply Z.mod_small; lia. Qed.

Lemma wrap_range w x : 0 <= w -> 0 <= wrap w x < 2 ^ w.
Proof. intros; unfold wrap; apply Z.mod_pos_bound; lia. Qed.

Lemma wrap_wrap w x : 0 <= w -> wrap w (wrap w x) = wrap w x.
Proof. intros; apply wrap_small, wrap_range; lia. Qed.

Lemma wrap_add_multiple w x k : 0 <= w -> wrap w (x + k * 2 ^ w) = wrap w x.
Proof. intros; unfold wrap; apply Z.mod_add; lia. Qed.

Lemma wrap_add w a b : wrap w (wrap w a + wrap w b) = wrap w (a + b).
Proof. unfold wrap. symmetry. apply Zplus_mod. Qed.

Lemma sign_small w x : 0 < w -> - 2 ^ (w - 1) <= x < 2 ^ (w - 1) -> sign w x = x.
Proof.
  intros Hw Hx. unfold sign, wrap.
  assert (E : 2 ^ w = 2 * 2 ^ (w - 1)).
  { rewrite <- Z.pow_succ_r by lia. f_equal; lia. }
  destruct (Z.ltb_spec (x mod 2 ^ w) (2 ^ (w - 1))) as [H|H].
  - destruct (decide (0 <= x)).
    + apply Z.mod_small; lia.
    + rewrite <- (Z.mod_add x 1) in H by lia.
      rewrite Z.mod_small in H by lia. lia.
  - destruct (decide (0 <= x)).
    + rewrite Z.mod_small in H by lia. lia.
    + rewrite <- (Z.mod_add x 1) by lia. rewrite Z.mod_small by lia. lia.
Qed.

Lemma sign_range w x : 0 < w -> - 2 ^ (w - 1) <= sign w x < 2 ^ (w - 1).
Proof.
  intros Hw. unfold sign.
  pose proof (wrap_range w x ltac:(lia)).
  assert (E : 2 ^ w = 2 * 2 ^ (w - 1)).
  { rewrite <- Z.pow_succ_r by lia. f_equal; lia. }
  destruct (Z.ltb_spec (wrap w x) (2 ^ (w - 1))); lia.
Qed.

(** ** Cyclic distance

    The hop loops of all windows walk the indices [0 .. n-1] cyclically;
    [cdist n idx j] is how many hops ago the walk that is now at [idx] left
    index [j] (0 for the index visited immediately before [idx]). *)

Definition cdist (n idx j : Z) : Z := (idx - 1 - j) mod n.

Lemma cdist_range n idx j : 0 < n -> 0 <= cdist n idx j < n.
Proof. intros; unfold cdist; apply Z.mod_pos_bound; lia. Qed.

(** The successor index of the hop, with its wrap to 0. *)
Definition next_index (n idx : Z) : Z := if n <=? idx + 1 then 0 else idx + 1.

Lemma next_index_range n idx : 0 < n -> 0 <= idx < n -> 0 <= next_index n idx < n.
Proof. unfold next_index; intros; destruct (Z.leb_spec n (idx + 1)); lia. Qed.

Lemma cdist_next n idx j :
  0 <= idx < n -> 0 <= j < n ->
  (j = idx /\ cdist n (next_index n idx) j = 0) \/
  (j <> idx /\ cdist n (next_index n idx) j = cdist n idx j + 1).
Proof.
  intros Hi Hj. unfold cdist, next_index.
  destruct (Z.leb_spec n (idx + 1)) as [H|H].
  - assert (idx = n - 1) by lia; subst idx.
    destruct (decide (j = n - 1)) as [->|Hne].
    + left; split; [done|].
      replace (0 - 1 - (n - 1)) with (0 + (-1) * n) by lia.
      rewrite Z.mod_add by lia. apply Z.mod_small; lia.
    + right; split; [done|].
      rewrite <- (Z.mod_add (0 - 1 - j) 1) by lia.
      rewrite !Z.mod_small by lia. lia.
  - destruct (decide (j = idx)) as [->|Hne].
    + left; split; [done|].
      replace (idx + 1 - 1 - idx) with 0 by lia. apply Z.mod_small; lia.
    + right; split; [done|].
      destruct (decide (j < idx)).
      * rewrite !Z.mod_small by lia. lia.
      * rewrite <- (Z.mod_add (idx + 1 - 1 - j) 1) by lia.
        rewrite <- (Z.mod_add (idx - 1 - j) 1) by lia.
        rewrite !Z.mod_small by lia. lia.
Qed.

(** The last [hops] indices before [index] have [p]. *)
Definition seen (n index hops : Z) (p : Z -> Prop) : Prop :=
  forall j, 0 <= j < n -> cdist n index j < hops -> p j.

Lemma seen_none n index p : 0 < n -> seen n index 0 p.
Proof. intros Hn j Hj Hc. pose proof (cdist_range n index j). lia. Qed.
Lemma seen_next n index hops p :
  0 <= index < n -> p index -> seen n index hops p -> seen n (next_index n index) (hops + 1) p.
Proof.
  intros Hi Hp Hs j Hj Hc. destruct (cdist_next n index j Hi Hj) as [[-> _]|[_ E]]; [done|].
  apply Hs; [done|lia].
Qed.
Lemma seen_all n index hops p : seen n index hops p -> n <= hops -> forall j, 0 <= j < n -> p j.
Proof. intros Hs Hn j Hj. apply Hs; [done|]. pose proof (cdist_range n index j). lia. Qed.

(** ** Sums over the indices [0 .. n-1] *)

Definition sum_upto (f : Z -> Z) (n : Z) : Z :=
  foldr (fun i acc => f (Z.of_nat i) + acc) 0 (seq 0 (Z.to_nat n)).

Lemma sum_seq_bound f k a lo hi :
  (forall i, (a <= i < a + k)%nat -> lo <= f (Z.of_nat i) <= hi) ->
  Z.of_nat k * lo <= foldr (fun i acc => f (Z.of_nat i) + acc) 0 (seq a k) <= Z.of_nat k * hi.
Proof.
  revert a. induction k as [|k IH]; intros a H; cbn [seq foldr]; [lia|].
  pose proof (H a ltac:(lia)).
  assert (IH' := IH (S a) ltac:(intros; apply H; lia)). lia.
Qed.

Lemma sum_upto_bound f n lo hi :
  0 <= n -> (forall i, 0 <= i < n -> lo <= f i <= hi) -> n * lo <= sum_upto f n <= n * hi.
Proof.
  intros Hn H. unfold sum_upto.
  pose proof (sum_seq_bound f (Z.to_nat n) 0 lo hi). rewrite Z2Nat.id in * by lia.
  apply H0. intros i Hi. apply H. lia.
Qed.

Lemma sum_seq_ext f f' k a :
  (forall i, (a <= i < a + k)%nat -> f (Z.of_nat i) = f' (Z.of_nat i)) ->
  foldr (fun i acc => f (Z.of_nat i) + acc) 0 (seq a k) =
  foldr (fun i acc => f' (Z.of_nat i) + acc) 0 (seq a k).
Proof.
  revert a. induction k as [|k IH]; intros a H; cbn [seq foldr]; [done|].
  rewrite H by lia. f_equal. apply IH. intros; apply H; lia.
Qed.

Lemma sum_upto_ext f f' n :
  (forall i, 0 <= i < n -> f i = f' i) -> sum_upto f n = sum_upto f' n.
Proof. intros H. apply sum_seq_ext. intros i Hi. apply H. lia. Qed.

Lemma sum_upto_add f f' n :
  sum_upto (fun j => f j + f' j) n = sum_upto f n + sum_upto f' n.
Proof.
  unfold sum_upto. generalize 0%nat as a. induction (Z.to_nat n) as [|k IH]; intros a; cbn; [done|].
  rewrite IH. lia.
Qed.

Lemma sum_upto_const c n : 0 <= n -> sum_upto (fun _ => c) n = n * c.
Proof.
  intros Hn. assert (n * c <= sum_upto (fun _ => c) n <= n * c); [|lia].
  apply sum_upto_bound; [done|]. intros; cbv beta; lia.
Qed.

Lemma sum_upto_single i v n :
  0 <= i < n -> sum_upto (fun j => if j =? i then v else 0) n = v.
Proof.
  intros Hi. unfold sum_upto.
  enough (H : forall k a, (a <= Z.to_nat i < a + k)%nat ->
    foldr (fun j acc => (if Z.of_nat j =? i then v else 0) + acc) 0 (seq a k) = v)
    by (apply H; lia).
  intros k. induction k as [|k IH]; intros a Ha; cbn [seq foldr]; [lia|].
  destruct (Z.eqb_spec (Z.of_nat a) i) as [E|E].
  - assert (Hz : forall k b, (Z.to_nat i < b)%nat ->
      foldr (fun j acc => (if Z.of_nat j =? i then v else 0) + acc) 0 (seq b k) = 0).
    { intros k'. induction k' as [|k' IH']; intros b Hb; cbn [seq foldr]; [done|].
      rewrite IH' by lia. destruct (Z.eqb_spec (Z.of_nat b) i); lia. }
    rewrite Hz by lia. lia.
  - rewrite IH by lia. lia.
Qed.

Lemma sum_upto_le f f' n :
  (forall i, 0 <= i < n -> f i <= f' i) -> sum_upto f n <= sum_upto f' n.
Proof.
  intros H. unfold sum_upto.
  assert (Hk : forall k a, (forall i, (a <= i < a + k)%nat -> f (Z.of_nat i) <= f' (Z.of_nat i)) ->
    foldr (fun i acc => f (Z.of_nat i) + acc) 0 (seq a k) <=
    foldr (fun i acc => f' (Z.of_nat i) + acc) 0 (seq a k)).
  { intros k. induction k as [|k IH]; intros a Ha; cbn [seq foldr]; [lia|].
    pose proof (Ha a ltac:(lia)). pose proof (IH (S a) ltac:(intros; apply Ha; lia)). lia. }
  apply Hk. intros i Hi. apply H. lia.
Qed.

Lemma sum_upto_nonneg f n : 0 <= n -> (forall i, 0 <= i < n -> 0 <= f i) -> 0 <= sum_upto f n.
Proof.
  intros Hn H. pose proof (sum_upto_const 0 n Hn).
  pose proof (sum_upto_le (fun _ => 0) f n H). lia.
Qed.

Lemma sum_upto_succ f n : 0 <= n -> sum_upto f (n + 1) = sum_upto f n + f n.
Proof.
  intros Hn. unfold sum_upto. replace (Z.to_nat (n + 1)) with (S (Z.to_nat n)) by lia.
  rewrite seq_S, foldr_app. cbn. replace (Z.of_nat (Z.to_nat n)) with n by lia.
  generalize (seq 0 (Z.to_nat n)). intros xs. generalize (f n). intros v.
  replace (v + 0) with v by lia.
  induction xs as [|x xs IH]; cbn; lia.
Qed.

Lemma sum_upto_mono f m n :
  0 <= m <= n -> (forall i, 0 <= i < n -> 0 <= f i) -> sum_upto f m <= sum_upto f n.
Proof.
  intros Hm Hf. replace n with (m + Z.of_nat (Z.to_nat (n - m))) by lia.
  assert (Hk : (Z.to_nat (n - m) <= Z.to_nat (n - m))%nat) by lia. revert Hk.
  generalize (Z.to_nat (n - m)) at 1 3. intros k. induction k as [|k IH]; intros Hk.
  - rewrite Z.add_0_r. lia.
  - replace (m + Z.of_nat (S k)) with (m + Z.of_nat k + 1) by lia.
    rewrite sum_upto_succ by lia. specialize (Hf (m + Z.of_nat k) ltac:(lia)). lia.
Qed.

(** One term is at most the sum of non-negative ones. *)
Lemma sum_upto_term f n i :
  0 <= i < n -> (forall j, 0 <= j < n -> 0 <= f j) -> f i <= sum_upto f n.
Proof.
  intros Hi H. rewrite <- (sum_upto_single i (f i) n Hi) at 1. apply sum_upto_le.
  intros j Hj. specialize (H j Hj). destruct (Z.eqb_spec j i) as [->|]; lia.
Qed.

(** Changing one term. *)
Lemma sum_upto_bump f f' i v n :
  0 <= i < n -> (forall j, 0 <= j < n -> f' j = f j + (if j =? i then v else 0)) ->
  sum_upto f' n = sum_upto f n + v.
Proof.
  intros Hi H. rewrite (sum_upto_ext _ _ _ H), sum_upto_add, sum_upto_single; done.
Qed.

(** If all other terms are within [d] of the [i]-th one, [n] times it is
    within [d * (n - 1)] of the sum. *)
Lemma sum_upto_spread f n d i :
  0 <= n -> 0 <= i < n -> (forall j, 0 <= j < n -> Z.abs (f i - f j) <= d) ->
  Z.abs (n * f i - sum_upto f n) <= d * (n - 1).
Proof.
  intros Hn Hi H.
  assert (Hb : forall v, Z.abs v = d ->
    - n * d <= v + (n * f i - sum_upto f n) <= n * d).
  { intros v Hv.
    assert (E : sum_upto (fun j => (if j =? i then v else 0) + (f i + - f j)) n =
                v + (n * f i - sum_upto f n)).
    { rewrite sum_upto_add, sum_upto_add, sum_upto_single, sum_upto_const by done.
      assert (sum_upto f n + sum_upto (fun j => - f j) n = 0); [|lia].
      rewrite <- sum_upto_add. rewrite (sum_upto_ext _ (fun _ => 0)) by (intros; lia).
      rewrite sum_upto_const by lia. lia. }
    rewrite <- E. replace (- n * d) with (n * - d) by lia.
    apply sum_upto_bound; [done|]. intros j Hj. specialize (H j Hj).
    destruct (Z.eqb_spec j i) as [->|]; lia. }
  assert (0 <= d) by (specialize (H i Hi); lia).
  pose proof (Hb d). pose proof (Hb (- d)). nia.
Qed.

(** ** Pigeonhole

    Distinct places [(j, k)] in [d] consecutive rows of the sub-structures
    other than [i]. *)
Lemma places_bound (w d lo i : Z) (xs : list (Z * Z)) :
  0 <= i < w -> 0 <= d -> NoDup xs ->
  (forall j k, (j, k) ∈ xs -> 0 <= j < w /\ j <> i /\ lo < k <= lo + d) ->
  Z.of_nat (length xs) <= d * (w - 1).
Proof.
  intros Hi Hd Hnd Hin.
  set (rows := filter (fun j => j <> i) (seqZ 0 w)).
  set (places := rows ≫= (fun j => (fun k => (j, k)) <$> seqZ (lo + 1) d)).
  assert (Hsub : xs ⊆+ places).
  { apply NoDup_submseteq; [done|]. intros [j k] Hjk. destruct (Hin j k Hjk) as (Hj & Hne & Hk).
    apply list_elem_of_bind. exists j. split.
    - apply list_elem_of_fmap. exists k. split; [done|]. apply elem_of_seqZ. lia.
    - apply list_elem_of_filter. split; [done|]. apply elem_of_seqZ. lia. }
  apply submseteq_length in Hsub.
  assert (Hlen : forall ys, length (ys ≫= (fun j : Z => (fun k => (j, k)) <$> seqZ (lo + 1) d))
    = (length ys * Z.to_nat d)%nat).
  { intros ys. induction ys as [|y ys IH]; cbn; [done|].
    rewrite length_app, length_fmap, length_seqZ, IH. done. }
  unfold places in Hsub. rewrite Hlen in Hsub.
  assert (Hrows : (length rows < Z.to_nat w)%nat).
  { unfold rows. rewrite <- (length_seqZ 0 w). apply length_filter_lt with i.
    - apply elem_of_seqZ. lia.
    - by intros H. }
  nia.
Qed.

(** ** Filters that keep everything or nothing *)

Lemma filter_all {A} (P : A -> Prop) `{!forall x, Decision (P x)} (xs : list A) :
  (forall x, x ∈ xs -> P x) -> filter P xs = xs.
Proof.
  induction xs as [|x xs IH]; intros Hall; [done|].
  rewrite filter_cons_True by (apply Hall; set_solver). rewrite IH; [done|]. intros y Hy. apply Hall. set_solver.
Qed.

Lemma filter_none {A} (P : A -> Prop) `{!forall x, Decision (P x)} (xs : list A) :
  (forall x, x ∈ xs -> ~ P x) -> filter P xs = [].
Proof.
  induction xs as [|x xs IH]; intros Hall; [done|].
  rewrite filter_cons_False by (apply Hall; set_solver). apply IH. intros y Hy. apply Hall. set_solver.
Qed.

(** A property of all numbers up to [n], by computation. *)
Lemma prefixes_compute {X} (P : X -> bool) (f : nat -> X) n :
  forallb (fun k => P (f k)) (seq 0 (S n)) = true -> forall k, (k <= n)%nat -> P (f k) = true.
Proof. rewrite forallb_forall. intros H k Hk. apply H. apply in_seq. lia. Qed.
