(* ===== verification/Conc.v ===== *)
(** Shared-memory programs: the language the C functions are translated into,
    its interleaving semantics, and the rely/guarantee program logic with its
    soundness theorem. *)
From S2P Require Import Prelude.

Declare Scope prog_scope.
Delimit Scope prog_scope with prog.

(** ** Programs

    [prog G L A] is a C function body over shared memory [G] and the
    thread-local variables [L] of the thread that runs it, returning an [A].
    - [Loc] updates only thread-local state: no other thread can see it;
    - [Act] is ONE access to shared memory, executed atomically (a load, a
      store, a compare-and-exchange);
    - [While] is [while(1)]: the body maps the values of the loop's local
      variables to either their next values ([inl]) or a [break]/[return]
      ([inr]).
    A local or shared action that yields [None] is undefined behaviour of the
    C program: a failing [assert], an access out of the bounds of an array, a
    dereference of [NULL] or of memory that was never allocated. *)
Inductive prog (G L : Type) (A : Type) : Type :=
| Ret (a : A)
| Loc {B : Type} (f : L -> option (B * L)) (k : B -> prog G L A)
| Act {B : Type} (f : G -> L -> option (B * G * L)) (k : B -> prog G L A)
| While {B C : Type} (body : C -> prog G L (C + B)) (c : C) (k : B -> prog G L A).

Arguments Ret {G L A} a.
Arguments Loc {G L A B} f k.
Arguments Act {G L A B} f k.
Arguments While {G L A B C} body c k.

Fixpoint bind {G L A B} (p : prog G L A) (h : A -> prog G L B) : prog G L B :=
  match p with
  | Ret a => h a
  | Loc f k => Loc f (fun b => bind (k b) h)
  | Act f k => Act f (fun b => bind (k b) h)
  | While body c k => While body c (fun b => bind (k b) h)
  end.

Notation "'let*' x := p 'in' q" := (bind p (fun x => q))
  (at level 200, x pattern, p at level 100, q at level 200, right associativity) : prog_scope.
Notation "p ;;; q" := (bind p (fun _ => q))
  (at level 199, right associativity) : prog_scope.
Open Scope prog_scope.

Section primitives.
Context {G L : Type}.

(** A load from shared memory; [None] when the address is invalid. *)
Definition load {B} (f : G -> option B) : prog G L B :=
  Act (fun g l => b ← f g; Some (b, g, l)) Ret.
(** A load that cannot fail (a global variable). *)
Definition load_var {B} (f : G -> B) : prog G L B :=
  Act (fun g l => Some (f g, g, l)) Ret.
(** A store, or any atomic update of shared memory. *)
Definition update {B} (f : G -> L -> option (B * G)) : prog G L B :=
  Act (fun g l => '(b, g') ← f g l; Some (b, g', l)) Ret.
(** Reads and writes of thread-local variables. *)
Definition get {B} (f : L -> B) : prog G L B := Loc (fun l => Some (f l, l)) Ret.
Definition put (f : L -> L) : prog G L unit := Loc (fun l => Some (tt, f l)) Ret.
(** [assert(b)]. *)
Definition assert_ (b : bool) : prog G L unit :=
  Loc (fun l => if b then Some (tt, l) else None) Ret.
Definition fail {B} : prog G L B := Loc (fun _ => None) Ret.
Definition while {B C} (body : C -> prog G L (C + B)) (c : C) : prog G L B :=
  While body c Ret.
Definition continue {B C} (c : C) : prog G L (C + B) := Ret (inl c).
Definition break {B C} (b : B) : prog G L (C + B) := Ret (inr b).
(** A thread's program: the operations of a list one after the other, with
    the list of their results. *)
Fixpoint run_ops {O R} (exec : O -> prog G L R) (ops : list O) : prog G L (list R) :=
  match ops with
  | [] => Ret []
  | o :: ops' =>
      let* r := exec o in let* rs := run_ops exec ops' in Ret (r :: rs)
  end.
End primitives.

(** ** Semantics *)

Section semantics.
Context {G L : Type}.

(** Outcome of one step of one thread. *)
Inductive outcome (A : Type) : Type :=
| Done (a : A)
| Fault
| Next (p : prog G L A) (g : G) (l : L).
Arguments Done {A} a.
Arguments Fault {A}.
Arguments Next {A} p g l.

(** Entering the body of a loop once. *)
Definition unroll {A B C} (body : C -> prog G L (C + B)) (c : C)
    (k : B -> prog G L A) : prog G L A :=
  bind (body c) (fun r => match r with inl c' => While body c' k | inr b => k b end).

Definition step {A} (p : prog G L A) (g : G) (l : L) : outcome A :=
  match p with
  | Ret a => Done a
  | Loc f k => match f l with Some (b, l') => Next (k b) g l' | None => Fault end
  | Act f k => match f g l with Some (b, g', l') => Next (k b) g' l' | None => Fault end
  | While body c k => Next (unroll body c k) g l
  end.

(** A thread that runs alone, for at most [fuel] steps. *)
Inductive result (A : Type) : Type :=
| Finished (a : A) (g : G) (l : L)
| Crashed
| OutOfFuel.
Arguments Finished {A} a g l.
Arguments Crashed {A}.
Arguments OutOfFuel {A}.

Fixpoint run {A} (fuel : nat) (p : prog G L A) (g : G) (l : L) : result A :=
  match fuel with
  | O => OutOfFuel
  | S n =>
      match step p g l with
      | Done a => Finished a g l
      | Fault => Crashed
      | Next p' g' l' => run n p' g' l'
      end
  end.

(** A configuration: shared memory and, per thread, the rest of its program
    and its thread-local variables. *)
Record cfg (A : Type) := mkCfg { mem : G; pool : list (prog G L A * L) }.
Arguments mkCfg {A}.
Arguments mem {A}.
Arguments pool {A}.

Inductive cstep {A} : cfg A -> cfg A -> Prop :=
| cstep_thread g ts i p l p' g' l' :
    ts !! i = Some (p, l) ->
    step p g l = Next p' g' l' ->
    cstep (mkCfg g ts) (mkCfg g' (<[i := (p', l')]> ts)).

Inductive csteps {A} : nat -> cfg A -> cfg A -> Prop :=
| csteps_refl c : csteps 0 c c
| csteps_snoc n c1 c2 c3 : csteps n c1 c2 -> cstep c2 c3 -> csteps (S n) c1 c3.

(** Some thread's next step is undefined behaviour. *)
Definition faulty {A} (c : cfg A) : Prop :=
  exists i p l, pool c !! i = Some (p, l) /\ step p (mem c) l = Fault.

(** The executable scheduler: the thread named by each element of the
    schedule takes one step (a finished or faulty thread stays put). *)
Definition sched1 {A} (c : cfg A) (i : nat) : cfg A :=
  match pool c !! i with
  | Some (p, l) =>
      match step p (mem c) l with
      | Next p' g' l' => mkCfg g' (<[i := (p', l')]> (pool c))
      | _ => c
      end
  | None => c
  end.
Definition exec {A} (c : cfg A) (schedule : list nat) : cfg A :=
  fold_left sched1 schedule c.
End semantics.

Arguments Done {G L A} a.
Arguments Fault {G L A}.
Arguments Next {G L A} p g l.
Arguments Finished {G L A} a g l.
Arguments Crashed {G L A}.
Arguments OutOfFuel {G L A}.
Arguments mkCfg {G L A} mem pool.
Arguments mem {G L A} c.
Arguments pool {G L A} c.
Arguments cfg : clear implicits.
Arguments outcome : clear implicits.
Arguments result : clear implicits.

Lemma csteps_exec {G L A} (c : cfg G L A) (s : list nat) :
  exists n, (n <= length s)%nat /\ csteps n c (exec c s).
Proof.
  induction s as [|i s IH] using rev_ind.
  - exists 0%nat. split; [done|constructor].
  - destruct IH as (n & Hn & IH). rewrite length_app. unfold exec.
    rewrite fold_left_app. cbn. fold (exec c s).
    destruct (exec c s) as [g ts] eqn:E. unfold sched1; cbn.
    destruct (ts !! i) as [[p l]|] eqn:El; [|exists n; split; [lia|done]].
    destruct (step p g l) as [| |p' g' l'] eqn:Es;
      [exists n; split; [lia|done]..|].
    exists (S n). split; [lia|]. econstructor; [done|]. by econstructor.
Qed.

(** ** The program logic

    A protocol says how the threads share memory: [p_inv] holds between any
    two steps, thread [t] only makes changes allowed by [p_guar t], and may
    rely on the others' changes being within [p_rely t].  [p_ok] restricts
    attention to executions that stay inside a bound (no counter has wrapped);
    [p_total] asks for termination of the loops. *)
Record protocol (G : Type) := {
  p_inv : G -> Prop;
  p_rely : nat -> G -> G -> Prop;
  p_guar : nat -> G -> G -> Prop;
  p_ok : G -> Prop;
  p_total : bool;
}.
Arguments p_inv {G}. Arguments p_rely {G}. Arguments p_guar {G}.
Arguments p_ok {G}. Arguments p_total {G}.

(** The laws that make a protocol compositional. *)
Class ProtocolLaws {G} (P : protocol G) : Prop := {
  rely_refl t g : p_rely P t g g;
  rely_trans t g1 g2 g3 : p_rely P t g1 g2 -> p_rely P t g2 g3 -> p_rely P t g1 g3;
  guar_refl t g : p_guar P t g g;
  guar_rely t u g1 g2 : t <> u -> p_inv P g1 -> p_guar P u g1 g2 -> p_rely P t g1 g2;
}.

Section logic.
Context {G L : Type} (P : protocol G).

(** [wp t p Q g l]: thread [t] may run [p] when shared memory was [g] at its
    last own step (and has only been changed by the other threads since)
    and its thread-local variables are [l]; if it finishes, [Q] holds of the
    result.  A loop comes with an invariant indexed by a variant, which has
    to decrease when [p_total] is set. *)
Fixpoint wp {A} (t : nat) (p : prog G L A) (Q : A -> G -> L -> Prop)
    (g : G) (l : L) {struct p} : Prop :=
  match p with
  | Ret a => Q a g l
  | Loc f k => match f l with Some (b, l') => wp t (k b) Q g l' | None => False end
  | Act f k =>
      forall g1, p_rely P t g g1 -> p_inv P g1 -> p_ok P g1 ->
      match f g1 l with
      | Some (b, g2, l2) => p_guar P t g1 g2 /\ p_inv P g2 /\ wp t (k b) Q g2 l2
      | None => False
      end
  | @While _ _ _ B C body c k =>
      exists (J : nat -> C -> G -> L -> Prop) n,
        J n c g l /\
        forall n c g l, J n c g l ->
          wp t (body c)
             (fun r g l => match r with
                           | inl c' => exists m, (p_total P = true -> m < n)%nat /\ J m c' g l
                           | inr b => wp t (k b) Q g l
                           end) g l
  end.

Lemma wp_mono {A} t (p : prog G L A) : forall (Q Q' : A -> G -> L -> Prop) g l,
  (forall a g l, Q a g l -> Q' a g l) -> wp t p Q g l -> wp t p Q' g l.
Proof.
  induction p as [A a|A B f k IH|A B f k IH|A B C body IHb c k IHk]; intros Q Q' g l HQ; cbn.
  - apply HQ.
  - destruct (f l) as [[b l']|]; [|done]. apply IH, HQ.
  - intros H g1 Hr Hi Ho. specialize (H g1 Hr Hi Ho).
    destruct (f g1 l) as [[[b g2] l2]|]; [|done].
    destruct H as (?&?&?). split_and!; try done. eapply IH; eauto.
  - intros (J & n & H0 & HJ). exists J, n. split; [done|].
    intros m c' g' l' Hc. eapply IHb; [|apply HJ, Hc].
    intros [c''|b] ??; [done|]. cbn. apply IHk, HQ.
Qed.

Lemma wp_bind {A B} t (p : prog G L A) (h : A -> prog G L B) : forall (Q : B -> G -> L -> Prop) g l,
  wp t p (fun a g l => wp t (h a) Q g l) g l -> wp t (bind p h) Q g l.
Proof.
  induction p as [A a|A B' f k IH|A B' f k IH|A B' C body IHb c k IHk]; intros Q g l; cbn.
  - done.
  - destruct (f l) as [[b l']|]; [|done]. apply IH.
  - intros H g1 Hr Hi Ho. specialize (H g1 Hr Hi Ho).
    destruct (f g1 l) as [[[b g2] l2]|]; [|done].
    destruct H as (?&?&?). split_and!; try done. by apply IH.
  - intros (J & n & H0 & HJ). exists J, n. split; [done|].
    intros m c' g' l' Hc. eapply wp_mono; [|apply HJ, Hc].
    intros [c''|b] ??; [done|]. cbn. apply IHk.
Qed.

(** The loop rule, stated with the goal as postcondition of the exits. *)
Lemma wp_while {A B C} t (body : C -> prog G L (C + B)) (c : C) (k : B -> prog G L A)
    (Q : A -> G -> L -> Prop) (J : nat -> C -> G -> L -> Prop) n g l :
  J n c g l ->
  (forall n c g l, J n c g l ->
     wp t (body c)
        (fun r g l => match r with
                      | inl c' => exists m, (p_total P = true -> m < n)%nat /\ J m c' g l
                      | inr b => wp t (k b) Q g l
                      end) g l) ->
  wp t (While body c k) Q g l.
Proof. intros H0 HJ. cbn. by exists J, n. Qed.
End logic.

Arguments wp {G L} P {A} t p Q g l.

(** Rules for the primitives. *)
Section rules.
Context {G L : Type} (P : protocol G).
Implicit Types (g : G) (l : L).

Lemma wp_ret {A} t (a : A) (Q : A -> G -> L -> Prop) g l : Q a g l -> wp P t (Ret a) Q g l.
Proof. done. Qed.
Lemma wp_get {B} t (f : L -> B) (Q : B -> G -> L -> Prop) g l :
  Q (f l) g l -> wp P t (get f) Q g l.
Proof. done. Qed.
Lemma wp_put t (f : L -> L) (Q : unit -> G -> L -> Prop) g l :
  Q tt g (f l) -> wp P t (put f) Q g l.
Proof. done. Qed.
Lemma wp_assert t (b : bool) (Q : unit -> G -> L -> Prop) g l :
  b = true -> Q tt g l -> wp P t (assert_ b) Q g l.
Proof. by intros ->. Qed.
Lemma wp_continue {B C} t (c : C) (Q : C + B -> G -> L -> Prop) g l :
  Q (inl c) g l -> wp P t (continue c) Q g l.
Proof. done. Qed.
Lemma wp_break {B C} t (b : B) (Q : C + B -> G -> L -> Prop) g l :
  Q (inr b) g l -> wp P t (break b) Q g l.
Proof. done. Qed.
Lemma wp_load {B} t (f : G -> option B) (Q : B -> G -> L -> Prop) g l
    `{!ProtocolLaws P} :
  (forall g1, p_rely P t g g1 -> p_inv P g1 -> p_ok P g1 ->
     exists b, f g1 = Some b /\ Q b g1 l) ->
  wp P t (load f) Q g l.
Proof.
  intros H g1 Hr Hi Ho. destruct (H g1 Hr Hi Ho) as (b & -> & HQ). cbn.
  split_and!; [apply guar_refl|done|done].
Qed.
Lemma wp_load_var {B} t (f : G -> B) (Q : B -> G -> L -> Prop) g l
    `{!ProtocolLaws P} :
  (forall g1, p_rely P t g g1 -> p_inv P g1 -> p_ok P g1 -> Q (f g1) g1 l) ->
  wp P t (load_var f) Q g l.
Proof.
  intros H g1 Hr Hi Ho. cbn. split_and!; [apply guar_refl|done|by apply H].
Qed.
End rules.

(** The rule for a thread's sequence of operations: an invariant over the
    operations done so far and their results. *)
Lemma wp_run_ops_in {G L O R} (P : protocol G) t (exec : O -> prog G L R) (J : list (O * R) -> G -> L -> Prop) all :
  (forall done o ops g l, all = done.*1 ++ o :: ops -> J done g l ->
     wp P t (exec o) (fun r => J (done ++ [(o, r)])) g l) ->
  forall ops done g l, all = done.*1 ++ ops -> J done g l ->
    wp P t (run_ops exec ops)
      (fun rs g l => length rs = length ops /\ J (done ++ zip ops rs) g l) g l.
Proof.
  intros Hstep ops. induction ops as [|o ops IH]; intros done g l Hall HJ; cbn [run_ops].
  - cbn. split; [done|]. by rewrite app_nil_r.
  - apply wp_bind. eapply wp_mono; [|by apply (Hstep done o ops)].
    intros r g1 l1 HJ1. cbn. apply wp_bind.
    eapply wp_mono; [|apply IH; [|exact HJ1]]; [|by rewrite Hall, fmap_app, <- app_assoc].
    intros rs g2 l2 [Hl HJ2]. cbn. split; [lia|]. by rewrite <- app_assoc in HJ2.
Qed.

(** The same for at most [N] operations, each of them [ok]. *)
Lemma wp_run_ops_where {G L O R} (P : protocol G) t (exec : O -> prog G L R) (ok : O -> Prop) (N : nat)
    (J : list (O * R) -> G -> L -> Prop) :
  (forall done o g l, (length done < N)%nat -> ok o -> J done g l ->
     wp P t (exec o) (fun r => J (done ++ [(o, r)])) g l) ->
  forall ops done g l, Forall ok ops -> (length done + length ops <= N)%nat -> J done g l ->
    wp P t (run_ops exec ops)
      (fun rs g l => length rs = length ops /\ J (done ++ zip ops rs) g l) g l.
Proof.
  intros Hstep ops done g l Hok HN HJ.
  eapply wp_mono; [|apply (wp_run_ops_in P t exec (fun d g l => (length done <= length d)%nat /\ J d g l) (done.*1 ++ ops))];
    [| |done|done].
  { by intros rs g' l' (Hl & _ & HJ'). }
  intros d o ops' g' l' Hall [Hle HJ']. eapply wp_mono; [|apply (Hstep d o); [| |exact HJ']].
  - intros r g1 l1 HJ1. split; [rewrite length_app; lia|done].
  - apply (f_equal length) in Hall. rewrite !length_app, !length_fmap in Hall. cbn [length] in Hall. lia.
  - rewrite Forall_forall in Hok. apply Hok. apply (f_equal (drop (length done))) in Hall.
    rewrite drop_app_length', drop_app_le in Hall by (rewrite ?length_fmap; lia). rewrite Hall. set_solver.
Qed.

Lemma wp_run_ops_upto {G L O R} (P : protocol G) t (exec : O -> prog G L R) (N : nat)
    (J : list (O * R) -> G -> L -> Prop) :
  (forall done o g l, (length done < N)%nat -> J done g l ->
     wp P t (exec o) (fun r => J (done ++ [(o, r)])) g l) ->
  forall ops done g l, (length done + length ops <= N)%nat -> J done g l ->
    wp P t (run_ops exec ops)
      (fun rs g l => length rs = length ops /\ J (done ++ zip ops rs) g l) g l.
Proof.
  intros Hstep ops done g l HN HJ. apply (wp_run_ops_where P t exec (fun _ => True) N); [|by apply Forall_true|done|done].
  intros d o g1 l1 Hd _. by apply Hstep.
Qed.

Lemma wp_run_ops {G L O R} (P : protocol G) t (exec : O -> prog G L R)
    (J : list (O * R) -> G -> L -> Prop) :
  (forall done o g l, J done g l -> wp P t (exec o) (fun r => J (done ++ [(o, r)])) g l) ->
  forall ops g l, J [] g l ->
    wp P t (run_ops exec ops)
      (fun rs g l => length rs = length ops /\ J (zip ops rs) g l) g l.
Proof.
  intros Hstep ops g l HJ.
  apply (wp_run_ops_upto P t exec (length ops) J) with (done := []); [|done|done].
  intros done o g1 l1 _. apply Hstep.
Qed.

(** One symbolic-execution step on a local operation or a sequence. *)
Ltac wp_local :=
  match goal with
  | |- wp _ _ (bind _ _) _ _ _ => apply wp_bind
  | |- wp _ _ (Ret _) _ _ _ => apply wp_ret
  | |- wp _ _ (get _) _ _ _ => apply wp_get
  | |- wp _ _ (put _) _ _ _ => apply wp_put
  | |- wp _ _ (continue _) _ _ _ => apply wp_continue
  | |- wp _ _ (break _) _ _ _ => apply wp_break
  end; cbv beta iota.
Ltac wp_locals := repeat wp_local.

(** ** Soundness for interleaved executions *)

Section soundness.
Context {G L A : Type} (P : protocol G) `{!ProtocolLaws P}.
Context (Q : nat -> A -> G -> L -> Prop).

(** Every thread is at a point its [wp] covers. *)
Definition covered (c : cfg G L A) : Prop :=
  p_inv P (mem c) /\
  forall i p l, pool c !! i = Some (p, l) ->
    exists g0, p_rely P i g0 (mem c) /\ wp P i p (Q i) g0 l.

Lemma step_covered t (p p' : prog G L A) R g0 g g' l l' :
  p_rely P t g0 g -> p_inv P g -> p_ok P g -> wp P t p R g0 l ->
  step p g l = Next p' g' l' ->
  p_inv P g' /\ (g' = g \/ p_guar P t g g') /\
  exists g1, p_rely P t g1 g' /\ wp P t p' R g1 l'.
Proof.
  intros Hr Hi Ho Hwp Hs. destruct p as [a|B f k|B f k|B C body c k]; cbn in *.
  - done.
  - destruct (f l) as [[b l1]|]; [|done]. injection Hs as <- <- <-.
    split_and!; eauto.
  - specialize (Hwp g Hr Hi Ho). destruct (f g l) as [[[b g2] l2]|]; [|done].
    injection Hs as <- <- <-. destruct Hwp as (?&?&?).
    split_and!; eauto. exists g2. split; [apply rely_refl|done].
  - injection Hs as <- <- <-. split_and!; eauto.
    exists g0. split; [done|]. destruct Hwp as (J & n & H0 & HJ).
    apply wp_bind. eapply wp_mono; [|apply HJ, H0].
    intros [c'|b] g2 l2; cbn; [|done].
    intros (m & _ & Hm). by exists J, m.
Qed.

Lemma covered_no_fault c : covered c -> p_ok P (mem c) -> ~ faulty c.
Proof.
  intros [Hi Hc] Ho (i & p & l & Hl & Hf).
  destruct (Hc i p l Hl) as (g0 & Hr & Hwp).
  destruct p as [a|B f k|B f k|B C body c' k]; cbn in *; try done.
  - by destruct (f l) as [[b l1]|].
  - specialize (Hwp _ Hr Hi Ho). by destruct (f (mem c) l) as [[[b g2] l2]|].
Qed.

Lemma cstep_covered c c' :
  covered c -> p_ok P (mem c) -> cstep c c' ->
  covered c' /\ (mem c' = mem c \/ exists t, p_guar P t (mem c) (mem c')).
Proof.
  intros [Hi Hc] Ho Hs. destruct Hs as [g ts i p l p' g' l' Hl Hs]; cbn in *.
  destruct (Hc i p l Hl) as (g0 & Hr & Hwp).
  destruct (step_covered i p p' (Q i) g0 g g' l l' Hr Hi Ho Hwp Hs)
    as (Hi' & Hg & g1 & Hr1 & Hwp1).
  split; [|destruct Hg as [->|Hg]; [by left|right; eauto]].
  split; [done|]. intros j q m. cbn. rewrite list_lookup_insert.
  case_decide as Hj.
  - intros [= <- <-]. destruct Hj as [-> _]. eauto.
  - intros Hq. destruct (Hc j q m Hq) as (g2 & Hr2 & Hwp2).
    exists g2. split; [|done]. destruct Hg as [->|Hg]; [done|].
    eapply rely_trans; [done|]. eapply guar_rely; [|done..].
    intros ->. apply Hj. split; [done|]. by eapply lookup_lt_Some.
Qed.

(** [meas] bounds what [p_ok] has to exclude, and a step raises it by at
    most [delta]; so an execution of at most [n] steps from a state with
    [meas + n * delta <= limit] never leaves [p_ok]. *)
Context (meas : G -> Z) (delta limit : Z).
Context (Hdelta : 0 <= delta).
Context (Hmeas : forall t g g', p_inv P g -> p_guar P t g g' -> meas g' <= meas g + delta).
Context (Hok : forall g, p_inv P g -> meas g <= limit -> p_ok P g).

Lemma csteps_covered n c c' :
  covered c -> meas (mem c) + Z.of_nat n * delta <= limit -> csteps n c c' ->
  covered c' /\ meas (mem c') <= meas (mem c) + Z.of_nat n * delta.
Proof.
  intros Hc Hl Hs. induction Hs as [c|n c1 c2 c3 Hs IH H1].
  - split; [done|]. lia.
  - destruct IH as [Hc2 Hm2]; [done|nia|].
    destruct (cstep_covered c2 c3) as [Hc3 Hg]; [done| |done|].
    { apply Hok; [apply Hc2|nia]. }
    split; [done|]. destruct Hg as [->|[t Hg]]; [nia|].
    pose proof (Hmeas t (mem c2) (mem c3) (proj1 Hc2) Hg). nia.
Qed.

(** Soundness: the invariant holds in every reachable configuration, no
    thread is ever at an undefined behaviour, and a finished thread's
    postcondition holds of its result. *)
Theorem soundness n g0 ts c' :
  p_inv P g0 -> meas g0 + Z.of_nat n * delta <= limit ->
  (forall i p l, ts !! i = Some (p, l) -> wp P i p (Q i) g0 l) ->
  csteps n (mkCfg g0 ts) c' ->
  p_inv P (mem c') /\ ~ faulty c' /\
  (forall i a l, pool c' !! i = Some (Ret a, l) ->
     exists g1, p_rely P i g1 (mem c') /\ Q i a g1 l).
Proof.
  intros Hi Hl Hwp Hs.
  destruct (csteps_covered n (mkCfg g0 ts) c') as [Hc Hm]; [|done|done|].
  - split; [done|]. intros i p l H. exists g0. split; [apply rely_refl|by apply Hwp].
  - cbn in *. split_and!; [apply Hc| |].
    + apply covered_no_fault; [done|]. apply Hok; [apply Hc|lia].
    + intros i a l H. destruct (proj2 Hc i (Ret a) l H) as (g1 & ? & ?). eauto.
Qed.

(** The same for the executable scheduler, where [p_ok] may also depend on a
    condition [extra] that is known of every state on the way. *)
Context (extra : G -> Prop) (Hok' : forall g, p_inv P g -> meas g <= limit -> extra g -> p_ok P g).

Lemma sched1_cstep (c : cfg G L A) i : sched1 c i = c \/ cstep c (sched1 c i).
Proof.
  destruct c as [g ts]. unfold sched1; cbn. destruct (ts !! i) as [[p l]|] eqn:El; [|by left].
  destruct (step p g l) as [| |p' g' l'] eqn:Es; [by left..|]. right. by econstructor.
Qed.

Theorem soundness_along g0 ts schedule :
  let c n := exec (mkCfg g0 ts) (take n schedule) in
  p_inv P g0 -> meas g0 + Z.of_nat (length schedule) * delta <= limit ->
  (forall i p l, ts !! i = Some (p, l) -> wp P i p (Q i) g0 l) ->
  (forall n, extra (mem (c n))) ->
  let c' := exec (mkCfg g0 ts) schedule in
  p_inv P (mem c') /\ ~ faulty c' /\
  (forall i a l, pool c' !! i = Some (Ret a, l) ->
     exists g1, p_rely P i g1 (mem c') /\ Q i a g1 l).
Proof.
  intros c Hi Hl Hwp Hex c'.
  assert (H : forall n, (n <= length schedule)%nat ->
    covered (c n) /\ meas (mem (c n)) <= meas g0 + Z.of_nat n * delta).
  { induction n as [|n IH]; intros Hn.
    - split; [|change (meas g0 <= meas g0 + 0 * delta); lia]. split; [done|]. intros i p l H. exists g0. split; [apply rely_refl|by apply Hwp].
    - destruct IH as [Hc Hm]; [lia|]. destruct (lookup_lt_is_Some_2 schedule n) as [i Ei]; [lia|].
      assert (E : c (S n) = sched1 (c n) i).
      { unfold c, exec. by rewrite (take_S_r _ _ _ Ei), fold_left_app. }
      rewrite E. destruct (sched1_cstep (c n) i) as [->|Hs];
        [split; [done|rewrite Nat2Z.inj_succ, Z.mul_succ_l; lia]|].
      destruct (cstep_covered (c n) (sched1 (c n) i)) as [Hc' Hg]; [done| |done|].
      { assert (Z.of_nat n * delta <= Z.of_nat (length schedule) * delta)
          by (apply Z.mul_le_mono_nonneg_r; lia).
        apply Hok'; [apply Hc|lia|apply Hex]. }
      split; [done|]. rewrite Nat2Z.inj_succ, Z.mul_succ_l.
      destruct Hg as [->|[t Hg]]; [lia|]. pose proof (Hmeas t _ _ (proj1 Hc) Hg). lia. }
  destruct (H (length schedule) (le_n _)) as [Hc Hm]. specialize (Hex (length schedule)).
  assert (E : c (length schedule) = c') by (unfold c, c'; by rewrite firstn_all).
  rewrite E in *. split_and!; [apply Hc| |].
  - apply covered_no_fault; [done|]. apply Hok'; [apply Hc|lia|done].
  - intros i a l Hp. destruct (proj2 Hc i (Ret a) l Hp) as (g1 & ? & ?). eauto.
Qed.
End soundness.

(** ** Running alone

    Under [solo] only thread 0 takes steps and loops must terminate: its [wp]
    is then the total-correctness weakest precondition of sequential code. *)
Definition solo {G} : protocol G :=
  {| p_inv _ := True; p_ok _ := True; p_total := true;
     p_rely t g g' := t = 0%nat -> g' = g;
     p_guar t g g' := t <> 0%nat -> g' = g |}.

Notation twp p Q g l := (wp solo 0%nat p Q g l).

#[export] Instance solo_laws G : ProtocolLaws (@solo G).
Proof.
  split; cbn; [done|intros t g1 g2 g3 H1 H2 Ht; rewrite H2, H1; done|done|].
  intros t u g1 g2 Htu _ H Ht. apply H. congruence.
Qed.

(** The rules for running alone: nothing changes between two steps. *)
Section solo_rules.
Context {G L : Type}.
Implicit Types (g : G) (l : L).

Lemma twp_load {B} (f : G -> option B) (Q : B -> G -> L -> Prop) g l b :
  f g = Some b -> Q b g l -> twp (load f) Q g l.
Proof.
  intros Hf HQ. apply wp_load; [apply _|]. intros g1 Hr _ _.
  rewrite (Hr eq_refl). eauto.
Qed.
Lemma twp_load_var {B} (f : G -> B) (Q : B -> G -> L -> Prop) g l :
  Q (f g) g l -> twp (load_var f) Q g l.
Proof.
  intros HQ. apply wp_load_var; [apply _|]. intros g1 Hr _ _. by rewrite (Hr eq_refl).
Qed.
Lemma twp_act {B} (f : G -> L -> option (B * G * L)) (Q : B -> G -> L -> Prop) g l b g' l' :
  f g l = Some (b, g', l') -> Q b g' l' -> twp (Act f Ret) Q g l.
Proof. intros Hf HQ g1 Hr _ _. rewrite (Hr eq_refl), Hf. split; [by intros []|by split]. Qed.
End solo_rules.

Lemma run_more {G L A} n m (p : prog G L A) g l a g' l' :
  run n p g l = Finished a g' l' -> (n <= m)%nat -> run m p g l = Finished a g' l'.
Proof.
  revert m p g l. induction n as [|n IH]; intros m p g l; cbn; [done|].
  destruct m as [|m]; [lia|]. cbn.
  destruct (step p g l) as [| |p1 g1 l1]; [done|done|].
  intros H ?. apply IH; [done|lia].
Qed.

Section running_alone.
Context {G L : Type}.

(** The thread, running alone, finishes in a state satisfying [Q]. *)
Inductive terminates {A} (Q : A -> G -> L -> Prop) : prog G L A -> G -> L -> Prop :=
| terminates_done p a g l : step p g l = Done a -> Q a g l -> terminates Q p g l
| terminates_next p g l p' g' l' :
    step p g l = Next p' g' l' -> terminates Q p' g' l' -> terminates Q p g l.

Lemma twp_terminates_bind {A B} (p : prog G L A) : forall (h : A -> prog G L B)
    (Q : A -> G -> L -> Prop) (R : B -> G -> L -> Prop) g l,
  twp p Q g l -> (forall a g l, Q a g l -> terminates R (h a) g l) ->
  terminates R (bind p h) g l.
Proof.
  induction p as [A a|A B' f k IH|A B' f k IH|A B' C body IHb c k IHk];
    intros h Q R g l Hwp HR.
  - cbn. by apply HR.
  - cbn in Hwp |- *. destruct (f l) as [[b l']|] eqn:E; [|done].
    eapply terminates_next; [cbn; by rewrite E|]. by eapply IH.
  - cbn in Hwp |- *. specialize (Hwp g (fun _ => eq_refl) I I).
    destruct (f g l) as [[[b g'] l']|] eqn:E; [|done].
    eapply terminates_next; [cbn; by rewrite E|]. eapply IH; [apply Hwp|done].
  - destruct Hwp as (J & n & H0 & HJ). revert c g l H0.
    induction (lt_wf n) as [n _ IHn]. intros c g l H0.
    eapply terminates_next; [done|]. unfold unroll.
    eapply IHb; [apply HJ, H0|]. intros [c'|b] g1 l1; cbn.
    + intros (m & Hm & HJm). by apply (IHn m (Hm eq_refl)).
    + intros Hb. by eapply IHk.
Qed.

Lemma twp_terminates {A} (p : prog G L A) (Q : A -> G -> L -> Prop) g l :
  twp p Q g l -> terminates Q p g l.
Proof.
  revert Q g l. induction p as [A a|A B' f k IH|A B' f k IH|A B' C body IHb c k IHk];
    intros Q g l Hwp.
  - by eapply terminates_done.
  - cbn in Hwp. destruct (f l) as [[b l']|] eqn:E; [|done].
    eapply terminates_next; [cbn; by rewrite E|]. by apply IH.
  - cbn in Hwp. specialize (Hwp g (fun _ => eq_refl) I I).
    destruct (f g l) as [[[b g'] l']|] eqn:E; [|done].
    eapply terminates_next; [cbn; by rewrite E|]. apply IH, Hwp.
  - destruct Hwp as (J & n & H0 & HJ). revert c g l H0.
    induction (lt_wf n) as [n _ IHn]. intros c g l H0.
    eapply terminates_next; [done|]. unfold unroll.
    eapply twp_terminates_bind; [apply HJ, H0|]. intros [c'|b] g1 l1; cbn.
    + intros (m & Hm & HJm). by apply (IHn m (Hm eq_refl)).
    + apply IHk.
Qed.

Lemma terminates_run {A} (p : prog G L A) (Q : A -> G -> L -> Prop) g l :
  terminates Q p g l ->
  exists n a g' l', run n p g l = Finished a g' l' /\ Q a g' l'.
Proof.
  induction 1 as [p a g l Hs HQ|p g l p' g' l' Hs _ (n & a & g2 & l2 & Hr & HQ)].
  - exists 1%nat, a, g, l. cbn. by rewrite Hs.
  - exists (S n), a, g2, l2. cbn. by rewrite Hs.
Qed.

(** Enough fuel gives the result. *)
Theorem twp_run {A} (p : prog G L A) (Q : A -> G -> L -> Prop) g l :
  twp p Q g l ->
  exists n a g' l',
    (forall m, (n <= m)%nat -> run m p g l = Finished a g' l') /\ Q a g' l'.
Proof.
  intros H. destruct (terminates_run p Q g l) as (n & a & g' & l' & Hr & HQ).
  { by apply twp_terminates. }
  exists n, a, g', l'. split; [|done]. intros m Hm. by eapply run_more.
Qed.
End running_alone.

