(* ===== verification/Random.v ===== *)
(** include/random.h: Marsaglia's [xorshf96] generator ([my_random]), the
    source of every random hop, on 64-bit [unsigned long]s. *)
From S2P Require Import Prelude.

(** The three [seeds] of a thread. *)
Record seeds_t := mkSeeds { seed_x : Z; seed_y : Z; seed_z : Z }.

Definition seeds_ok (s : seeds_t) : Prop :=
  0 <= seed_x s < 2 ^ 64 /\ 0 <= seed_y s < 2 ^ 64 /\ 0 <= seed_z s < 2 ^ 64.

(** [x ^= x << k] and [x ^= x >> k] on [unsigned long]. *)
Definition xorshl (k x : Z) : Z := Z.lxor x (u64 (Z.shiftl x k)).
Definition xorshr (k x : Z) : Z := Z.lxor x (Z.shiftr x k).

Definition xorshf96 (s : seeds_t) : Z * seeds_t :=
  let x := xorshl 16 (seed_x s) in
  let x := xorshr 5 x in
  let x := xorshl 1 x in
  let t := x in
  let x := seed_y s in
  let y := seed_z s in
  let z := Z.lxor (Z.lxor t x) y in
  (z, mkSeeds x y z).

(** [my_random(&seeds[0], &seeds[1], &seeds[2]) % width]; a zero width is a
    division by zero. *)
Definition random_index (width : Z) (s : seeds_t) : option (Z * seeds_t) :=
  let '(r, s') := xorshf96 s in
  if width =? 0 then None else Some (r mod width, s').

(** The inverse generator: [x ^= x << k] is undone by repeated squaring. *)
Definition xorshf96_inv (s : seeds_t) : seeds_t :=
  let t := Z.lxor (Z.lxor (seed_z s) (seed_x s)) (seed_y s) in
  let x := xorshl 32 (xorshl 16 (xorshl 8 (xorshl 4 (xorshl 2 (xorshl 1 t))))) in
  let x := xorshr 40 (xorshr 20 (xorshr 10 (xorshr 5 x))) in
  let x := xorshl 32 (xorshl 16 x) in
  mkSeeds x (seed_x s) (seed_y s).

(** ** Bit-level lemmas *)

Lemma range_testbit n x :
  0 <= n -> 0 <= x -> (forall i, n <= i -> Z.testbit x i = false) -> x < 2 ^ n.
Proof.
  intros Hn Hx Hb. destruct (decide (x = 0)) as [->|]; [lia|].
  apply Z.log2_lt_pow2; [lia|]. destruct (decide (Z.log2 x < n)); [done|].
  specialize (Hb (Z.log2 x) ltac:(lia)). rewrite Z.bit_log2 in Hb by lia. done.
Qed.

Lemma testbit_out n x i : 0 <= x < 2 ^ n -> n <= i -> Z.testbit x i = false.
Proof.
  intros Hx Hi. destruct (decide (0 <= n)).
  - destruct (decide (x = 0)) as [->|]; [apply Z.testbit_0_l|].
    apply Z.bits_above_log2; [lia|]. enough (Z.log2 x < n) by lia.
    apply Z.log2_lt_pow2; lia.
  - rewrite Z.pow_neg_r in Hx by lia. lia.
Qed.

Lemma lxor_range n a b : 0 <= n -> 0 <= a < 2 ^ n -> 0 <= b < 2 ^ n -> 0 <= Z.lxor a b < 2 ^ n.
Proof.
  intros Hn Ha Hb. assert (0 <= Z.lxor a b) by (apply Z.lxor_nonneg; lia).
  split; [done|]. apply range_testbit; [done..|]. intros i Hi.
  rewrite Z.lxor_spec, !(testbit_out n) by done. done.
Qed.

Lemma testbit_xorshl k x i :
  0 <= k -> 0 <= i < 64 ->
  Z.testbit (xorshl k x) i = xorb (Z.testbit x i) (if i <? k then false else Z.testbit x (i - k)).
Proof.
  intros Hk Hi. unfold xorshl, wrap. rewrite Z.lxor_spec.
  rewrite Z.mod_pow2_bits_low by lia. f_equal.
  destruct (Z.ltb_spec i k).
  - by apply Z.shiftl_spec_low.
  - by rewrite Z.shiftl_spec by lia.
Qed.

Lemma testbit_xorshr k x i :
  0 <= k -> 0 <= i ->
  Z.testbit (xorshr k x) i = xorb (Z.testbit x i) (Z.testbit x (i + k)).
Proof. intros. unfold xorshr. by rewrite Z.lxor_spec, Z.shiftr_spec by lia. Qed.

Lemma xorshl_range k x : 0 <= x < 2 ^ 64 -> 0 <= xorshl k x < 2 ^ 64.
Proof. intros. apply lxor_range; [lia|done|]. apply wrap_range; lia. Qed.

Lemma xorshr_range k x : 0 <= k -> 0 <= x < 2 ^ 64 -> 0 <= xorshr k x < 2 ^ 64.
Proof.
  intros Hk Hx. apply lxor_range; [lia|done|].
  rewrite Z.shiftr_div_pow2 by lia. pose proof (Z.pow_pos_nonneg 2 k).
  split; [apply Z.div_pos; lia|]. apply Z.div_lt_upper_bound; nia.
Qed.

#[local] Hint Resolve xorshl_range xorshr_range lxor_range : core.

Lemma bits_eq_u64 a b :
  0 <= a < 2 ^ 64 -> 0 <= b < 2 ^ 64 ->
  (forall i, 0 <= i < 64 -> Z.testbit a i = Z.testbit b i) -> a = b.
Proof.
  intros Ha Hb H. apply Z.bits_inj'. intros i Hi.
  destruct (decide (i < 64)); [apply H; lia|].
  by rewrite !(testbit_out 64) by lia.
Qed.

(** Over GF(2), [(1 + S^k)^2 = 1 + S^2k]. *)
Lemma xorshl_twice k x :
  0 <= k -> 0 <= x < 2 ^ 64 -> xorshl k (xorshl k x) = xorshl (2 * k) x.
Proof.
  intros Hk Hx. apply bits_eq_u64; auto. intros i Hi.
  rewrite (testbit_xorshl (2 * k)), testbit_xorshl, testbit_xorshl by lia.
  destruct (Z.ltb_spec i k), (Z.ltb_spec i (2 * k)); try lia.
  - by destruct (Z.testbit x i).
  - rewrite testbit_xorshl by lia. destruct (Z.ltb_spec (i - k) k); [|lia].
    by destruct (Z.testbit x i), (Z.testbit x (i - k)).
  - rewrite testbit_xorshl by lia. destruct (Z.ltb_spec (i - k) k); [lia|].
    replace (i - k - k) with (i - 2 * k) by lia.
    by destruct (Z.testbit x i), (Z.testbit x (i - k)), (Z.testbit x (i - 2 * k)).
Qed.

Lemma xorshr_twice k x :
  0 <= k -> 0 <= x < 2 ^ 64 -> xorshr k (xorshr k x) = xorshr (2 * k) x.
Proof.
  intros Hk Hx. apply bits_eq_u64; auto with lia. intros i Hi.
  rewrite (testbit_xorshr (2 * k)), !testbit_xorshr by lia.
  replace (i + k + k) with (i + 2 * k) by lia.
  by destruct (Z.testbit x i), (Z.testbit x (i + k)), (Z.testbit x (i + 2 * k)).
Qed.

Lemma xorshl_out k x : 64 <= k -> 0 <= x < 2 ^ 64 -> xorshl k x = x.
Proof.
  intros Hk Hx. apply bits_eq_u64; auto. intros i Hi.
  rewrite testbit_xorshl by lia. destruct (Z.ltb_spec i k); [|lia].
  by destruct (Z.testbit x i).
Qed.

Lemma xorshr_out k x : 64 <= k -> 0 <= x < 2 ^ 64 -> xorshr k x = x.
Proof.
  intros Hk Hx. apply bits_eq_u64; auto with lia. intros i Hi.
  rewrite testbit_xorshr, (testbit_out 64 x (i + k)) by lia.
  by destruct (Z.testbit x i).
Qed.

(** ** Results *)

Lemma xorshf96_range s : seeds_ok s -> seeds_ok (snd (xorshf96 s)) /\ 0 <= fst (xorshf96 s) < 2 ^ 64.
Proof.
  intros (Hx & Hy & Hz). unfold xorshf96, seeds_ok; cbn.
  assert (0 <= xorshl 1 (xorshr 5 (xorshl 16 (seed_x s))) < 2 ^ 64) by auto with lia.
  assert (0 <= Z.lxor (Z.lxor (xorshl 1 (xorshr 5 (xorshl 16 (seed_x s)))) (seed_y s)) (seed_z s) < 2 ^ 64)
    by (apply lxor_range; auto with lia).
  done.
Qed.

Lemma xorshl_inverse_1 x : 0 <= x < 2 ^ 64 ->
  xorshl 32 (xorshl 16 (xorshl 8 (xorshl 4 (xorshl 2 (xorshl 1 (xorshl 1 x)))))) = x.
Proof.
  intros Hx. rewrite !xorshl_twice by (auto with lia).
  apply xorshl_out; [lia|done].
Qed.

Lemma xorshr_inverse_5 x : 0 <= x < 2 ^ 64 ->
  xorshr 40 (xorshr 20 (xorshr 10 (xorshr 5 (xorshr 5 x)))) = x.
Proof.
  intros Hx. rewrite !xorshr_twice by (auto with lia).
  apply xorshr_out; [lia|done].
Qed.

Lemma xorshl_inverse_16 x : 0 <= x < 2 ^ 64 -> xorshl 32 (xorshl 16 (xorshl 16 x)) = x.
Proof.
  intros Hx. rewrite !xorshl_twice by (auto with lia).
  apply xorshl_out; [lia|done].
Qed.

(** C40. The property: the generator is a permutation of the seed states, so no
    two threads' states ever merge and none collapses to the fixed point 0. *)
Theorem xorshf96_invertible s :
  seeds_ok s -> xorshf96_inv (snd (xorshf96 s)) = s.
Proof.
  intros (Hx & Hy & Hz). destruct s as [x y z]; cbn in *.
  unfold xorshf96_inv, xorshf96; cbn.
  set (t := xorshl 1 (xorshr 5 (xorshl 16 x))).
  assert (E : Z.lxor (Z.lxor (Z.lxor (Z.lxor t y) z) y) z = t).
  { apply Z.bits_inj'. intros i _. rewrite !Z.lxor_spec.
    by destruct (Z.testbit t i), (Z.testbit y i), (Z.testbit z i). }
  rewrite E. unfold t.
  rewrite xorshl_inverse_1, xorshr_inverse_5, xorshl_inverse_16 by (auto with lia).
  done.
Qed.

Lemma xorshf96_invertible_witness :
  xorshf96_inv (snd (xorshf96 (mkSeeds 123456789 362436069 521288629)))
    = mkSeeds 123456789 362436069 521288629.
Proof. apply xorshf96_invertible. unfold seeds_ok; cbn. lia. Defined.

Lemma random_index_spec width s :
  0 < width ->
  exists r s', random_index width s = Some (r, s') /\ 0 <= r < width.
Proof.
  intros Hw. unfold random_index. destruct (xorshf96 s) as [r s'].
  destruct (Z.eqb_spec width 0); [lia|]. eexists _, _. split; [done|].
  apply Z.mod_pos_bound; lia.
Qed.
