(* ===== verification/Thread.v ===== *)
(** The thread-local statistics every structure keeps
    ([my_put_cas_fail_count] and the like, [unsigned long] each). *)
From S2P Require Import Prelude.

Record stats_t := mkStats {
  my_put_cas_fail_count : Z;
  my_get_cas_fail_count : Z;
  my_null_count : Z;
  my_hop_count : Z;
  my_slide_count : Z;
  my_slide_fail_count : Z;
}.

Definition stats0 : stats_t := mkStats 0 0 0 0 0 0.

Definition inc_put_cas_fail (s : stats_t) : stats_t :=
  mkStats (u64 (my_put_cas_fail_count s + 1)) (my_get_cas_fail_count s)
    (my_null_count s) (my_hop_count s) (my_slide_count s) (my_slide_fail_count s).
Definition inc_get_cas_fail (s : stats_t) : stats_t :=
  mkStats (my_put_cas_fail_count s) (u64 (my_get_cas_fail_count s + 1))
    (my_null_count s) (my_hop_count s) (my_slide_count s) (my_slide_fail_count s).
Definition inc_null (s : stats_t) : stats_t :=
  mkStats (my_put_cas_fail_count s) (my_get_cas_fail_count s)
    (u64 (my_null_count s + 1)) (my_hop_count s) (my_slide_count s) (my_slide_fail_count s).
Definition inc_hop (s : stats_t) : stats_t :=
  mkStats (my_put_cas_fail_count s) (my_get_cas_fail_count s)
    (my_null_count s) (u64 (my_hop_count s + 1)) (my_slide_count s) (my_slide_fail_count s).
Definition inc_slide (s : stats_t) : stats_t :=
  mkStats (my_put_cas_fail_count s) (my_get_cas_fail_count s)
    (my_null_count s) (my_hop_count s) (u64 (my_slide_count s + 1)) (my_slide_fail_count s).
Definition inc_slide_fail (s : stats_t) : stats_t :=
  mkStats (my_put_cas_fail_count s) (my_get_cas_fail_count s)
    (my_null_count s) (my_hop_count s) (my_slide_count s) (u64 (my_slide_fail_count s + 1)).
