(* ===== verification/Params.v ===== *)
(** The first half of every [create_counter]/[create_stack]/[create_queue]:
    width and depth are derived from the relaxation bound according to
    [k_mode].  The structures differ in the factor [c] of the bound
    [K = c * depth * (width - 1)] and in the widths of the types of [width]
    and [depth]; each structure's file instantiates [calculate] with its own. *)
From S2P Require Import Prelude.

Record params := mkParams { p_width : Z; p_depth : Z; p_bound : Z }.

(** Unsigned division; a zero divisor is undefined behaviour. *)
Definition udiv (a b : Z) : option Z := if b =? 0 then None else Some (a / b).

Section calculate.
(** The factor; the widths in bits of [width]'s and [depth]'s types; the
    product [c * depth * (width - 1)] as the C types compute it. *)
Context (c wbits dbits : Z) (product : Z -> Z -> option Z).

(** "width parameter is fixed": shared by modes 1 and 3. *)
Definition fixed_width (width relaxation_bound : Z) : option params :=
  if width <? 2 then
    Some (mkParams 1 (wrap dbits relaxation_bound) 0)
  else
    depth ← udiv relaxation_bound (u64 (c * (width - 1)));
    let depth := wrap dbits depth in
    if depth <? 1 then
      q ← udiv relaxation_bound (u64 (c * 1));
      Some (mkParams (wrap wbits (u64 (q + 1))) 1 relaxation_bound)
    else Some (mkParams width depth relaxation_bound).

Definition calculate (num_threads width depth k_mode relaxation_bound : Z) : option params :=
  if k_mode =? 3 then
    fixed_width (wrap wbits (u64 (num_threads * width))) relaxation_bound
  else if k_mode =? 2 then
    q ← udiv relaxation_bound (u64 (c * depth));
    let width := wrap wbits (u64 (q + 1)) in
    if width <? 1 then Some (mkParams 1 (wrap dbits relaxation_bound) 0)
    else Some (mkParams width depth relaxation_bound)
  else if k_mode =? 1 then
    fixed_width width relaxation_bound
  else if k_mode =? 0 then
    relaxation_bound ← product depth width;
    Some (mkParams width depth relaxation_bound)
  else Some (mkParams width depth relaxation_bound).
End calculate.

(** The product for [uint64_t] operands. *)
Definition product_u64 (c depth width : Z) : option Z :=
  Some (u64 (u64 (c * depth) * u64 (width - 1))).
(** For the [uint32_t width], [uint64_t depth] of the 2Dd queue. *)
Definition product_u32 (depth width : Z) : option Z :=
  Some (u64 (depth * u32 (width - 1))).
(** For [uint16_t] operands, promoted to [int]: a product of 2^31 or more is a
    signed overflow; the result is converted to [uint64_t]. *)
Definition product_int (c depth width : Z) : option Z :=
  let p := c * depth * (width - 1) in
  if (- 2 ^ 31 <=? p) && (p <? 2 ^ 31) then Some (u64 p) else None.

(** ** The relaxation bound holds of the result *)

(** The argument values the derivation is meant for: they fit their types and
    the derived width and depth fit theirs. *)
Definition args_ok (c wbits dbits num_threads width depth relaxation_bound : Z) : Prop :=
  1 <= c <= 3 /\ 0 < wbits <= 64 /\ 0 < dbits <= 64 /\
  0 <= width < 2 ^ wbits /\ 1 <= num_threads /\ num_threads * width < 2 ^ wbits /\
  1 <= depth < 2 ^ dbits /\
  c * (num_threads * width) < 2 ^ 64 /\ c * depth < 2 ^ 64 /\
  0 <= relaxation_bound /\ relaxation_bound + 1 < 2 ^ wbits /\ relaxation_bound < 2 ^ dbits.

Lemma div_mul_le a b : 0 < b -> a / b * b <= a.
Proof. intros. pose proof (Z.mul_div_le a b). lia. Qed.

Lemma udiv_pos a b : 0 < b -> udiv a b = Some (a / b).
Proof. intros. unfold udiv. destruct (Z.eqb_spec b 0); [lia|done]. Qed.

Lemma div_bounds a b : 0 <= a -> 0 < b -> 0 <= a / b <= a /\ a / b * b <= a.
Proof.
  intros. split; [split|by apply div_mul_le].
  - by apply Z.div_pos.
  - apply Z.div_le_upper_bound; nia.
Qed.

Lemma fixed_width_bound c wbits dbits w rb :
  1 <= c <= 3 -> 0 < wbits <= 64 -> 0 < dbits <= 64 -> 0 <= w ->
  c * w < 2 ^ 64 -> 0 <= rb -> rb + 1 < 2 ^ wbits -> rb < 2 ^ dbits ->
  exists p, fixed_width c wbits dbits w rb = Some p /\
    1 <= p_width p /\ c * p_depth p * (p_width p - 1) <= p_bound p <= rb.
Proof.
  intros Hc Hwb Hdb Hw Hcw Hrb Hrb1 Hrb2. unfold fixed_width.
  assert (2 ^ wbits <= 2 ^ 64) by (apply Z.pow_le_mono_r; lia).
  destruct (Z.ltb_spec w 2); [eexists; split; [done|]; cbn; nia|].
  rewrite (wrap_small 64 (c * (w - 1))), (wrap_small 64 (c * 1)), !udiv_pos by nia.
  cbn [mbind option_bind].
  destruct (div_bounds rb (c * (w - 1)) ltac:(lia) ltac:(nia)).
  destruct (div_bounds rb (c * 1) ltac:(lia) ltac:(nia)).
  rewrite !(wrap_small dbits), (wrap_small 64), (wrap_small wbits) by lia.
  destruct (Z.ltb_spec (rb / (c * (w - 1))) 1);
    (eexists; split; [done|]; cbn; nia).
Qed.

(** In the three modes that derive the dimensions the derivation never
    divides by zero, and the bound of the derived structure does not exceed
    the requested one. *)
Lemma calculate_bound c wbits dbits product nt w d k rb :
  args_ok c wbits dbits nt w d rb -> 1 <= k <= 3 ->
  exists p, calculate c wbits dbits product nt w d k rb = Some p /\
    1 <= p_width p /\ c * p_depth p * (p_width p - 1) <= p_bound p <= rb.
Proof.
  intros (Hc & Hwb & Hdb & Hw & Hnt & Hntw & Hd & Hc1 & Hc2 & Hrb & Hrb1 & Hrb2) Hk.
  assert (2 ^ wbits <= 2 ^ 64) by (apply Z.pow_le_mono_r; lia).
  unfold calculate. destruct (Z.eqb_spec k 3).
  { rewrite (wrap_small 64), wrap_small by nia. apply fixed_width_bound; nia. }
  destruct (Z.eqb_spec k 2).
  { rewrite (wrap_small 64 (c * d)), udiv_pos by nia. cbn [mbind option_bind].
    destruct (div_bounds rb (c * d) ltac:(lia) ltac:(nia)).
    rewrite (wrap_small 64), (wrap_small wbits) by lia.
    destruct (Z.ltb_spec (rb / (c * d) + 1) 1); (eexists; split; [done|]; cbn; nia). }
  destruct (Z.eqb_spec k 1); [|lia]. apply fixed_width_bound; nia.
Qed.
