(* ===== verification/Window2Dd.v ===== *)
(** include/2Dd-window.c and .h: the two windows ([global_PWindow] for the
    puts, [global_GWindow] for the gets) of the static 2Dd structures, the hop
    loops that search them, and what they promise to the structures built on
    them.  The sub-structures themselves are a parameter: the interface
    [SubOps]/[SubLaws] is implemented by the counter, the stack and the
    queue. *)
From S2P Require Import Prelude Conc Random Thread.

(** ** State *)

(** The constant fields of [DS_TYPE] ([counter_t], [mstack_t], [mqueue_t]). *)
Record ds_t := mkDs {
  random_hops : Z;
  width : Z;
  depth : Z;
  relaxation_bound : Z;
  k_mode : Z;
}.

Definition ds_ok (set : ds_t) : Prop :=
  0 < width set < 2 ^ 32 /\ 0 < depth set /\ 0 <= random_hops set < 2 ^ 64.
Existing Class ds_ok.

(** Shared memory: the two windows and the sub-structures. *)
Record shared (SS : Type) := mkShared {
  global_PWindow : Z;
  global_GWindow : Z;
  subs : SS;
}.
Arguments mkShared {SS}.
Arguments global_PWindow {SS}.
Arguments global_GWindow {SS}.
Arguments subs {SS}.

Definition set_PWindow {SS} (v : Z) (g : shared SS) : shared SS :=
  mkShared v (global_GWindow g) (subs g).
Definition set_GWindow {SS} (v : Z) (g : shared SS) : shared SS :=
  mkShared (global_PWindow g) v (subs g).
Definition set_subs {SS} (s : SS) (g : shared SS) : shared SS :=
  mkShared (global_PWindow g) (global_GWindow g) s.

(** Thread-local variables. *)
Record tls := mkTls {
  thread_id : nat;
  thread_PWindow : Z;
  thread_GWindow : Z;
  thread_index : Z;
  seeds : seeds_t;
  stats : stats_t;
}.

Definition set_thread_PWindow (v : Z) (l : tls) : tls :=
  mkTls (thread_id l) v (thread_GWindow l) (thread_index l) (seeds l) (stats l).
Definition set_thread_GWindow (v : Z) (l : tls) : tls :=
  mkTls (thread_id l) (thread_PWindow l) v (thread_index l) (seeds l) (stats l).
Definition set_thread_index (v : Z) (l : tls) : tls :=
  mkTls (thread_id l) (thread_PWindow l) (thread_GWindow l) v (seeds l) (stats l).
Definition set_seeds (v : seeds_t) (l : tls) : tls :=
  mkTls (thread_id l) (thread_PWindow l) (thread_GWindow l) (thread_index l) v (stats l).
Definition count_stat (f : stats_t -> stats_t) (l : tls) : tls :=
  mkTls (thread_id l) (thread_PWindow l) (thread_GWindow l) (thread_index l) (seeds l)
    (f (stats l)).

Notation M SS := (prog (shared SS) tls).

(** ** What the window code uses of the sub-structures *)

(** [put_descriptor i] is the read [descriptor = set->put_array[i].descriptor]
    (field by field, as the C copy is not atomic), [get_descriptor i] the one
    from [get_array], [put_count_at i] the read of
    [set->put_array[i].descriptor.put_count]. *)
Class SubOps (SS D : Type) := {
  put_descriptor : Z -> M SS D;
  get_descriptor : Z -> M SS D;
  put_count_at : Z -> M SS Z;
  d_put_count : D -> Z;
  d_get_count : D -> Z;
}.

(** ** The window code *)

Section code.
Context {SS D : Type} {ops : SubOps SS D}.

(** [random_index(width)]: a thread-local draw; its parameter is a
    [uint32_t]. *)
Definition random_index (w : Z) : M SS Z :=
  Loc (fun l => '(r, s) ← Random.random_index (u32 w) (seeds l); Some (r, set_seeds s l)) Ret.

(** [initialize_global_window]. *)
Definition initialize_global_window (depth : Z) (g : shared SS) : shared SS :=
  mkShared depth depth (subs g).

(** [hop]: returns the new index and the updated [random] and [hops]. *)
Definition hop (set : ds_t) (index random hops : Z) : M SS (Z * Z * Z) :=
  put (count_stat inc_hop) ;;;
  if random <? random_hops set then
    let* index := random_index (width set) in
    Ret (index, u64 (random + 1), hops)
  else
    let hops := u64 (hops + 1) in
    let index := u64 (index + 1) in
    let index := if width set <=? index then 0 else index in
    Ret (index, random, hops).

(** [CAE(&global_PWindow.content, &thread_PWindow, &new_window)]: on failure
    the current window is written back into [thread_PWindow]. *)
Definition cae_PWindow (new_max : Z) : M SS bool :=
  Act (fun g l =>
    if decide (global_PWindow g = thread_PWindow l)
    then Some (true, set_PWindow new_max g, l)
    else Some (false, g, set_thread_PWindow (global_PWindow g) l)) Ret.
Definition cae_GWindow (new_max : Z) : M SS bool :=
  Act (fun g l =>
    if decide (global_GWindow g = thread_GWindow l)
    then Some (true, set_GWindow new_max g, l)
    else Some (false, g, set_thread_GWindow (global_GWindow g) l)) Ret.

(** [if(contention == 1) thread_index = random_index(set->width)]. *)
Definition maybe_random_index (set : ds_t) (contention : bool) : M SS unit :=
  if contention then
    let* r := random_index (width set) in put (set_thread_index r)
  else Ret tt.

(** One iteration of the [while(1)] of [put_window]. *)
Definition put_window_body (set : ds_t) '((hops, random) : Z * Z)
    : M SS (Z * Z + D) :=
  let* index := get thread_index in
  assert_ (index <? width set) ;;;
  let* descriptor := put_descriptor index in
  let* read_global := load_var global_PWindow in
  let* thread_max := get thread_PWindow in
  if negb (read_global =? thread_max) then
    put (set_thread_PWindow read_global) ;;;
    continue (0, random)
  else if d_put_count descriptor <? read_global then
    break descriptor
  else if negb (hops =? width set) then
    let* (index, random, hops) := hop set index random hops in
    put (set_thread_index index) ;;;
    continue (hops, random)
  else
    (let* gmax := load_var global_PWindow in
     if thread_max =? gmax then
       let* ok := cae_PWindow (u64 (thread_max + depth set)) in
       if ok then put (count_stat inc_slide) else Ret tt
     else Ret tt) ;;;
    let* gmax := load_var global_PWindow in
    put (set_thread_PWindow gmax) ;;;
    continue (0, random).

Definition put_window (set : ds_t) (contention : bool) : M SS D :=
  maybe_random_index set contention ;;;
  (let* tmax := get thread_PWindow in
   let* gmax := load_var global_PWindow in
   if negb (tmax =? gmax) then
     let* gmax := load_var global_PWindow in put (set_thread_PWindow gmax)
   else Ret tt) ;;;
  while (put_window_body set) (0, 0).

(** One iteration of the [while(1)] of [get_window]. *)
Definition get_window_body (set : ds_t) '((hops, random, notempty) : Z * Z * bool)
    : M SS (Z * Z * bool + D) :=
  let* index := get thread_index in
  let* descriptor := get_descriptor index in
  let* put_count := put_count_at index in
  let* read_global := load_var global_GWindow in
  let* thread_max := get thread_GWindow in
  if negb (read_global =? thread_max) then
    put (set_thread_GWindow read_global) ;;;
    continue (0, random, false)
  else if (d_get_count descriptor <? read_global)
          && negb (put_count =? d_get_count descriptor) then
    break descriptor
  else if negb (hops =? width set) then
    let notempty :=
      if negb notempty && negb (put_count =? d_get_count descriptor)
      then true else notempty in
    let* (index, random, hops) := hop set index random hops in
    put (set_thread_index index) ;;;
    continue (hops, random, notempty)
  else if notempty then
    (let* gmax := load_var global_GWindow in
     if thread_max =? gmax then
       let* ok := cae_GWindow (u64 (thread_max + depth set)) in
       if ok then put (count_stat inc_slide) else Ret tt
     else Ret tt) ;;;
    let* gmax := load_var global_GWindow in
    put (set_thread_GWindow gmax) ;;;
    continue (0, random, false)
  else break descriptor.

Definition get_window (set : ds_t) (contention : bool) : M SS D :=
  (let* gmax := load_var global_GWindow in put (set_thread_GWindow gmax)) ;;;
  maybe_random_index set contention ;;;
  (let* tmax := get thread_GWindow in
   let* gmax := load_var global_GWindow in
   if negb (tmax =? gmax) then
     let* gmax := load_var global_GWindow in put (set_thread_GWindow gmax)
   else Ret tt) ;;;
  while (get_window_body set) (0, 0, false).
End code.

(** ** What the windows rely on

    [putc]/[getc] are the current counts of sub-structure [i].  The protocol
    of the sub-structures says that they only grow. *)
Class SubProto (SS D : Type) := {
  putc : SS -> Z -> Z;
  getc : SS -> Z -> Z;
  linked : SS -> Z -> Z;
  s_inv : ds_t -> SS -> Prop;
  s_rely : nat -> SS -> SS -> Prop;
  s_guar : nat -> SS -> SS -> Prop;
  (** what a thread remembers of a descriptor it has read *)
  snap_put : Z -> D -> SS -> Prop;
  snap_get : Z -> D -> SS -> Prop;
  (** the width of the count fields *)
  s_limit : Z;
}.

Class SubProtoLaws (SS D : Type) `{proto : SubProto SS D} : Prop := {
  s_limit_le : s_limit <= 2 ^ 64;
  s_rely_refl t s : s_rely t s s;
  s_rely_trans t s1 s2 s3 : s_rely t s1 s2 -> s_rely t s2 s3 -> s_rely t s1 s3;
  s_guar_refl t s : s_guar t s s;
  s_guar_rely set t u s1 s2 : t <> u -> s_inv set s1 -> s_guar u s1 s2 -> s_rely t s1 s2;
  s_rely_putc t s1 s2 i : s_rely t s1 s2 -> putc s1 i <= putc s2 i;
  s_rely_getc t s1 s2 i : s_rely t s1 s2 -> getc s1 i <= getc s2 i;
  s_guar_putc t s1 s2 i : s_guar t s1 s2 -> putc s1 i <= putc s2 i;
  s_guar_getc t s1 s2 i : s_guar t s1 s2 -> getc s1 i <= getc s2 i;
  s_inv_counts set s i : s_inv set s -> 0 <= i < width set ->
    0 <= getc s i <= putc s i /\ putc s i <= linked s i;
  snap_put_rely t i d s1 s2 : snap_put i d s1 -> s_rely t s1 s2 -> snap_put i d s2;
  snap_get_rely t i d s1 s2 : snap_get i d s1 -> s_rely t s1 s2 -> snap_get i d s2;
}.

(** The invariant of the windows: both are multiples of the depth, the get
    window is never above the put window, and every put count lies within the
    put window. *)
Definition win_inv {SS D} `{SubProto SS D} (set : ds_t) (g : shared SS) : Prop :=
  (depth set | global_PWindow g) /\ (depth set | global_GWindow g) /\
  0 <= global_GWindow g <= global_PWindow g /\
  (forall i, 0 <= i < width set ->
     global_PWindow g - depth set <= putc (subs g) i /\
     linked (subs g) i <= global_PWindow g).

(** The thread-local variables of thread [t] are initialised: its index is in
    range (its windows and seeds may be anything). *)
Definition local_ok (set : ds_t) (t : nat) (l : tls) : Prop :=
  thread_id l = t /\ 0 <= thread_index l < width set.

(** The protocol of the whole structure. *)
Definition wprot {SS D} `{SubProto SS D} (set : ds_t) : protocol (shared SS) :=
  {| p_inv g := win_inv set g /\ s_inv set (subs g);
     p_rely t g g' :=
       global_PWindow g <= global_PWindow g' /\ global_GWindow g <= global_GWindow g' /\
       s_rely t (subs g) (subs g');
     p_guar t g g' :=
       global_PWindow g <= global_PWindow g' <= global_PWindow g + depth set /\
       global_GWindow g <= global_GWindow g' /\
       s_guar t (subs g) (subs g');
     p_ok g := global_PWindow g + depth set < s_limit;
     p_total := false |}.

(** The reads of descriptors and counts, as seen by one thread among others:
    a value read is between the value at the start and the value at the end. *)
Class SubLaws (SS D : Type) `{ops : SubOps SS D} `{proto : SubProto SS D} : Prop := {
  put_descriptor_wp set t i (Q : D -> shared SS -> tls -> Prop) g l :
    ds_ok set -> 0 <= i < width set ->
    (forall d g', p_rely (wprot set) t g g' -> p_inv (wprot set) g' ->
       snap_put i d (subs g') -> d_put_count d <= putc (subs g') i ->
       putc (subs g) i <= d_put_count d ->
       Q d g' l) ->
    wp (wprot set) t (put_descriptor i) Q g l;
  get_descriptor_wp set t i (Q : D -> shared SS -> tls -> Prop) g l :
    ds_ok set -> 0 <= i < width set ->
    (forall d g', p_rely (wprot set) t g g' -> p_inv (wprot set) g' ->
       snap_get i d (subs g') -> d_get_count d <= getc (subs g') i ->
       Q d g' l) ->
    wp (wprot set) t (get_descriptor i) Q g l;
  put_count_at_wp set t i (Q : Z -> shared SS -> tls -> Prop) g l :
    ds_ok set -> 0 <= i < width set ->
    (forall g', p_rely (wprot set) t g g' -> p_inv (wprot set) g' ->
       Q (putc (subs g') i) g' l) ->
    wp (wprot set) t (put_count_at i) Q g l;
}.

Section concurrent.
Context {SS D : Type} {ops : SubOps SS D} {proto : SubProto SS D}.
Context {plaws : SubProtoLaws SS D} {laws : SubLaws SS D}.
Context (set : ds_t) (Hset : ds_ok set).
Notation W := (wprot set).

#[export] Instance wprot_laws : ProtocolLaws W.
Proof.
  split; cbn.
  - intros t g. split_and!; [lia..|apply s_rely_refl].
  - intros t g1 g2 g3 (?&?&?) (?&?&?). split_and!; [lia..|by eapply s_rely_trans].
  - intros t g. destruct Hset as (_&?&_). split_and!; [lia..|apply s_guar_refl].
  - intros t u g1 g2 Htu [_ Hs] ((?&?)&?&?).
    split_and!; [lia..|by eapply s_guar_rely].
Qed.

Lemma wrely_trans t g1 g2 g3 :
  p_rely W t g1 g2 -> p_rely W t g2 g3 -> p_rely W t g1 g3.
Proof. apply rely_trans. Qed.
#[local] Hint Resolve wrely_trans : core.

Lemma rely_putc t g g' i : p_rely W t g g' -> putc (subs g) i <= putc (subs g') i.
Proof. intros (_&_&?). by eapply s_rely_putc. Qed.
Lemma rely_getc t g g' i : p_rely W t g g' -> getc (subs g) i <= getc (subs g') i.
Proof. intros (_&_&?). by eapply s_rely_getc. Qed.
Lemma rely_PWindow t g g' : p_rely W t g g' -> global_PWindow g <= global_PWindow g'.
Proof. by intros (?&?&?). Qed.
Lemma rely_GWindow t g g' : p_rely W t g g' -> global_GWindow g <= global_GWindow g'.
Proof. by intros (?&?&?). Qed.

(** A window above another one is at least one depth above. *)
Lemma window_gap a b : (depth set | a) -> (depth set | b) -> a < b -> a + depth set <= b.
Proof.
  intros [x ->] [y ->] ?. destruct Hset as (_&?&_).
  assert (x < y) by nia. nia.
Qed.

Lemma wp_random_index t (Q : Z -> shared SS -> tls -> Prop) g l :
  (forall r s, 0 <= r < width set -> Q r g (set_seeds s l)) ->
  wp W t (random_index (width set)) Q g l.
Proof.
  intros HQ. unfold random_index. cbn [wp]. pose proof Hset as (? & _). rewrite wrap_small by lia.
  destruct (random_index_spec (width set) (seeds l)) as (r & s & E & Hr);
    [apply Hset|]. rewrite E. cbn. by apply HQ.
Qed.

Definition with_rng (s : seeds_t) (st : stats_t) (l : tls) : tls :=
  mkTls (thread_id l) (thread_PWindow l) (thread_GWindow l) (thread_index l) s st.

(** Whichever way [hop] goes, it stays in range; a sequential hop is to the
    next index and is only taken once the random ones are used up. *)
Lemma wp_hop t index random hops (Q : Z * Z * Z -> shared SS -> tls -> Prop) g l :
  0 <= index < width set -> 0 <= hops < width set -> 0 <= random <= random_hops set ->
  (forall r s st, 0 <= r < width set -> random < random_hops set ->
     Q (r, random + 1, hops) g (with_rng s st l)) ->
  (forall st, random = random_hops set ->
     Q (next_index (width set) index, random, hops + 1) g (with_rng (seeds l) st l)) ->
  wp W t (hop set index random hops) Q g l.
Proof.
  intros Hi Hh Hr HQr HQs. destruct Hset as (Hw&_&Hrh). unfold hop. wp_locals.
  destruct (Z.ltb_spec random (random_hops set)) as [Hlt|Hge].
  - wp_locals. apply wp_random_index. intros r s Hrr. wp_locals.
    rewrite wrap_small by lia. by apply HQr.
  - wp_locals. rewrite !wrap_small by lia.
    change (if width set <=? index + 1 then 0 else index + 1)
      with (next_index (width set) index). apply HQs. lia.
Qed.

Lemma wp_cae_PWindow t v (Q : bool -> shared SS -> tls -> Prop) g l :
  (forall g1, p_rely W t g g1 -> p_inv W g1 -> p_ok W g1 ->
     global_PWindow g1 = thread_PWindow l ->
     p_guar W t g1 (set_PWindow v g1) /\ p_inv W (set_PWindow v g1) /\
     Q true (set_PWindow v g1) l) ->
  (forall g1, p_rely W t g g1 ->
     Q false g1 (set_thread_PWindow (global_PWindow g1) l)) ->
  wp W t (cae_PWindow v) Q g l.
Proof.
  intros Hok Hno g1 R1 I1 O1. destruct (decide _) as [E|E].
  - by apply Hok.
  - split; [apply (guar_refl (P := W))|split; [done|by apply Hno]].
Qed.

Lemma wp_cae_GWindow t v (Q : bool -> shared SS -> tls -> Prop) g l :
  (forall g1, p_rely W t g g1 -> p_inv W g1 -> p_ok W g1 ->
     global_GWindow g1 = thread_GWindow l ->
     p_guar W t g1 (set_GWindow v g1) /\ p_inv W (set_GWindow v g1) /\
     Q true (set_GWindow v g1) l) ->
  (forall g1, p_rely W t g g1 ->
     Q false g1 (set_thread_GWindow (global_GWindow g1) l)) ->
  wp W t (cae_GWindow v) Q g l.
Proof.
  intros Hok Hno g1 R1 I1 O1. destruct (decide _) as [E|E].
  - by apply Hok.
  - split; [apply (guar_refl (P := W))|split; [done|by apply Hno]].
Qed.

Lemma wp_maybe_random_index t b (Q : unit -> shared SS -> tls -> Prop) g l :
  local_ok set t l ->
  (forall l', local_ok set t l' -> thread_PWindow l' = thread_PWindow l ->
     thread_GWindow l' = thread_GWindow l -> Q tt g l') ->
  wp W t (maybe_random_index set b) Q g l.
Proof.
  intros [Ht Hi] HQ. unfold maybe_random_index. destruct b; wp_locals; [|by apply HQ].
  apply wp_random_index. intros r s Hr. wp_locals. by apply HQ.
Qed.

(** *** [put_window] *)

(** The loop invariant: the last [hops] indices before the current one have
    been seen full for the thread's window. *)
Definition put_loop (t : nat) (g0 : shared SS) '((hops, random) : Z * Z)
    (g : shared SS) (l : tls) : Prop :=
  local_ok set t l /\ p_rely W t g0 g /\
  0 <= hops <= width set /\ 0 <= random <= random_hops set /\
  (0 < hops -> random = random_hops set) /\
  (forall j, 0 <= j < width set -> cdist (width set) (thread_index l) j < hops ->
     thread_PWindow l <= putc (subs g) j).

(** What a caller of [put_window] knows of the descriptor it gets. *)
Definition put_window_post (t : nat) (g0 : shared SS) (d : D) (g : shared SS) (l : tls) : Prop :=
  local_ok set t l /\ p_rely W t g0 g /\ p_inv W g /\ p_ok W g /\
  snap_put (thread_index l) d (subs g) /\ d_put_count d < global_PWindow g.

Lemma put_loop_start t g0 random g l :
  local_ok set t l -> p_rely W t g0 g -> 0 <= random <= random_hops set ->
  put_loop t g0 (0, random) g l.
Proof.
  intros Hl ??. pose proof Hset as (?&?&?).
  split; [done|split; [done|]]. split_and!; try lia. intros j Hj Hd.
  pose proof (cdist_range (width set) (thread_index l) j). lia.
Qed.

Lemma put_loop_random t g0 hops random g l r s st :
  put_loop t g0 (hops, random) g l -> 0 <= r < width set -> random < random_hops set ->
  put_loop t g0 (hops, random + 1) g (set_thread_index r (with_rng s st l)).
Proof.
  intros ([Ht Hi] & HR & Hh & Hr & Hhr & Hseen) Hrr Hlt.
  split; [done|split; [done|]]. cbn. split_and!; try lia.
  intros j Hj Hc. pose proof (cdist_range (width set) r j). lia.
Qed.

Lemma put_loop_next t g0 hops random g l s st :
  put_loop t g0 (hops, random) g l -> hops <> width set -> random = random_hops set ->
  thread_PWindow l <= putc (subs g) (thread_index l) ->
  put_loop t g0 (hops + 1, random) g
    (set_thread_index (next_index (width set) (thread_index l)) (with_rng s st l)).
Proof.
  intros ([Ht Hi] & HR & Hh & Hr & Hhr & Hseen) Hne Hrh Hfull.
  split; [split; [done|by apply next_index_range; [lia|]]|split; [done|]].
  cbn. split_and!; try lia. intros j Hj Hc.
  destruct (cdist_next (width set) (thread_index l) j Hi Hj) as [[-> _]|[_ E]]; [done|].
  apply Hseen; [done|lia].
Qed.

Lemma put_loop_rely t g0 c g g' l :
  put_loop t g0 c g l -> p_rely W t g g' -> put_loop t g0 c g' l.
Proof.
  destruct c as [hops random]. intros (Hl & HR & Hh & Hr & Hhr & Hseen) R.
  split; [done|split; [eauto|]]. split_and!; try done; try lia.
  intros j Hj Hc. specialize (Hseen j Hj Hc). pose proof (rely_putc _ _ _ j R). lia.
Qed.

(** A window shift by the thread itself, from a full window. *)
Lemma shift_PWindow_step t g :
  p_inv W g -> p_ok W g ->
  (forall j, 0 <= j < width set -> global_PWindow g <= putc (subs g) j) ->
  let g' := set_PWindow (u64 (global_PWindow g + depth set)) g in
  p_guar W t g g' /\ p_inv W g' /\ p_rely W t g g'.
Proof.
  intros [(HdP & HdG & HG & Hc) Hs] Ho Hfull. cbn in Ho |- *.
  pose proof Hset as (Hw & Hd & _). pose proof s_limit_le.
  rewrite wrap_small by lia.
  split_and!; try lia; try apply s_guar_refl; try apply s_rely_refl; [|done].
  split_and!; cbn; try done; try lia.
  - by apply Z.divide_add_r.
  - intros i Hi. specialize (Hc i Hi). specialize (Hfull i Hi). lia.
Qed.

Lemma put_window_body_wp t g0 hops random (Q : D -> shared SS -> tls -> Prop) g l :
  put_loop t g0 (hops, random) g l ->
  (forall d g l, put_window_post t g0 d g l -> Q d g l) ->
  wp W t (put_window_body set (hops, random))
    (fun r g l => match r with inl c => put_loop t g0 c g l | inr d => Q d g l end) g l.
Proof.
  intros HJ HQ. pose proof HJ as (Hl & HR & Hh & Hr & Hhr & _). pose proof Hl as [Ht Hi].
  cbn [put_window_body].
  wp_locals. apply wp_assert; [lia|]. wp_local.
  apply put_descriptor_wp; [done..|]. intros d g1 R1 I1 Sd Hd1 Hd2.
  wp_local. apply wp_load_var; [apply _|]. intros g2 R2 I2 O2. wp_locals.
  assert (HR2 : p_rely W t g0 g2) by eauto.
  pose proof (rely_putc _ _ _ (thread_index l) R2).
  destruct (Z.eqb_spec (global_PWindow g2) (thread_PWindow l)) as [Heq|Hne]; cbn [negb].
  2: { wp_locals. by apply put_loop_start. }
  destruct (Z.ltb_spec (d_put_count d) (global_PWindow g2)) as [Hlt|Hge].
  { wp_locals. apply HQ. do 4 (split; [done|]). split; [|done].
    destruct R2 as (?&?&R2). by eapply snap_put_rely. }
  assert (HJ2 : put_loop t g0 (hops, random) g2 l) by (eapply put_loop_rely; eauto).
  destruct (Z.eqb_spec hops (width set)) as [->|Hhw]; cbn [negb].
  - wp_locals. apply wp_load_var; [apply _|]. intros g3 R3 I3 O3.
    assert (HR3 : p_rely W t g0 g3) by eauto.
    assert (Hend : forall g' l', p_rely W t g0 g' -> local_ok set t l' ->
      wp W t (let* gmax := load_var global_PWindow in
              put (set_thread_PWindow gmax);;; continue (0, random))
        (fun r g l => match r with inl c => put_loop t g0 c g l | inr d => Q d g l end) g' l').
    { intros g' l' HR' Hl'. wp_local. apply wp_load_var; [apply _|].
      intros g5 R5 _ _. wp_locals. apply put_loop_start; eauto. }
    destruct (Z.eqb_spec (thread_PWindow l) (global_PWindow g3)) as [Heq3|]; [|by apply Hend].
    wp_local. apply wp_cae_PWindow.
    + intros g4 R4 I4 O4 Heq4.
      destruct (shift_PWindow_step t g4 I4 O4) as (Hg & HI & HRs).
      { intros j Hj. rewrite Heq4.
        pose proof (rely_putc _ _ _ j R3). pose proof (rely_putc _ _ _ j R4).
        destruct HJ2 as (_&_&_&_&_&Hseen).
        enough (thread_PWindow l <= putc (subs g2) j) by lia.
        apply Hseen; [done|apply cdist_range; lia]. }
      rewrite <- Heq4. split; [done|split; [done|]]. wp_locals.
      apply Hend; [eauto|done].
    + intros g4 R4. wp_locals. apply Hend; [eauto|done].
  - wp_locals. apply wp_hop; [done|lia|done|..].
    + intros r s st Hrr Hlt. wp_locals. by apply put_loop_random.
    + intros st Hrh. wp_locals. apply put_loop_next; [done..|lia].
Qed.

Lemma put_window_wp t b (Q : D -> shared SS -> tls -> Prop) g l :
  local_ok set t l -> (forall d g' l', put_window_post t g d g' l' -> Q d g' l') ->
  wp W t (put_window set b) Q g l.
Proof.
  intros Hl HQ. unfold put_window. wp_local.
  apply wp_maybe_random_index; [done|]. intros l1 Hl1 _ _. wp_locals.
  apply wp_load_var; [apply _|]. intros g1 R1 _ _.
  assert (Hloop : forall g' l', p_rely W t g g' -> local_ok set t l' ->
    wp W t (while (put_window_body set) (0, 0)) Q g' l').
  { intros g' l' R' L'. apply (wp_while W t _ _ _ _ (fun _ c => put_loop t g c) 0%nat).
    - destruct Hset as (_&_&?). apply put_loop_start; [done|done|lia].
    - intros n [hops random] g'' l'' HJ.
      eapply wp_mono; [|apply (put_window_body_wp t g hops random Q); [done|done]].
      intros [c|d] ???; [|done]. by exists 0%nat. }
  destruct (Z.eqb_spec (thread_PWindow l1) (global_PWindow g1)); cbn [negb].
  - wp_locals. by apply Hloop.
  - wp_local. apply wp_load_var; [apply _|]. intros g2 R2 _ _. wp_locals.
    apply Hloop; [eauto|done].
Qed.

(** *** [get_window] *)

(** Everything put before [g0] has been taken by [g]. *)
Definition drained (g0 g : shared SS) : Prop :=
  forall j, 0 <= j < width set -> putc (subs g0) j <= getc (subs g) j.

(** The loop invariant: [notempty] is evidence that the put window is above
    the thread's get window; without it, all that was in the last [hops]
    sub-structures when the call started has been taken. *)
Definition get_loop (t : nat) (g0 : shared SS) '((hops, random, notempty) : Z * Z * bool)
    (g : shared SS) (l : tls) : Prop :=
  local_ok set t l /\ p_rely W t g0 g /\
  0 <= hops <= width set /\ 0 <= random <= random_hops set /\
  (0 < hops -> random = random_hops set) /\
  (if notempty then thread_GWindow l < global_PWindow g
   else forall j, 0 <= j < width set -> cdist (width set) (thread_index l) j < hops ->
     putc (subs g0) j <= getc (subs g) j).

(** What a caller of [get_window] knows: either the descriptor was inside
    the window and its sub-structure not empty, or the search found every
    sub-structure empty. *)
Definition get_window_post (t : nat) (g0 : shared SS) (d : D) (g : shared SS) (l : tls) : Prop :=
  local_ok set t l /\ p_rely W t g0 g /\ p_inv W g /\ p_ok W g /\
  snap_get (thread_index l) d (subs g) /\
  ((d_get_count d < global_GWindow g /\ d_get_count d < putc (subs g) (thread_index l)) \/
   drained g0 g).

Lemma get_loop_start t g0 random g l :
  local_ok set t l -> p_rely W t g0 g -> 0 <= random <= random_hops set ->
  get_loop t g0 (0, random, false) g l.
Proof.
  intros Hl ??. pose proof Hset as (?&?&?).
  split; [done|split; [done|]]. split_and!; try lia. intros j Hj Hd.
  pose proof (cdist_range (width set) (thread_index l) j). lia.
Qed.

Lemma get_loop_rely t g0 c g g' l :
  get_loop t g0 c g l -> p_rely W t g g' -> get_loop t g0 c g' l.
Proof.
  destruct c as [[hops random] notempty]. intros (Hl & HR & Hh & Hr & Hhr & Hseen) R.
  split; [done|split; [eauto|]]. split_and!; try done; try lia.
  destruct notempty.
  - pose proof (rely_PWindow _ _ _ R). lia.
  - intros j Hj Hc. specialize (Hseen j Hj Hc). pose proof (rely_getc _ _ _ j R). lia.
Qed.

Lemma get_loop_random t g0 hops random ne g l r s st :
  get_loop t g0 (hops, random, ne) g l -> 0 <= r < width set -> random < random_hops set ->
  get_loop t g0 (hops, random + 1, ne) g (set_thread_index r (with_rng s st l)).
Proof.
  intros ([Ht Hi] & HR & Hh & Hr & Hhr & Hseen) Hrr Hlt.
  split; [done|split; [done|]]. cbn. split_and!; try lia.
  destruct ne; [done|]. intros j Hj Hc. pose proof (cdist_range (width set) r j). lia.
Qed.

Lemma get_loop_next t g0 hops random ne g l s st :
  get_loop t g0 (hops, random, ne) g l -> hops <> width set -> random = random_hops set ->
  (ne = false -> putc (subs g0) (thread_index l) <= getc (subs g) (thread_index l)) ->
  get_loop t g0 (hops + 1, random, ne) g
    (set_thread_index (next_index (width set) (thread_index l)) (with_rng s st l)).
Proof.
  intros ([Ht Hi] & HR & Hh & Hr & Hhr & Hseen) Hne Hrh Hempty.
  split; [split; [done|by apply next_index_range; [lia|]]|split; [done|]].
  cbn. split_and!; try lia. destruct ne; [done|]. intros j Hj Hc.
  destruct (cdist_next (width set) (thread_index l) j Hi Hj) as [[-> _]|[_ E]]; [by apply Hempty|].
  apply Hseen; [done|lia].
Qed.

(** Seeing a non-empty sub-structure outside the window is evidence that
    the get window may be shifted. *)
Lemma get_loop_notempty t g0 hops random ne g l :
  get_loop t g0 (hops, random, ne) g l -> thread_GWindow l < global_PWindow g ->
  get_loop t g0 (hops, random, true) g l.
Proof. intros (Hl & HR & Hh & Hr & Hhr & Hseen) ?. do 5 (split; [done|]). done. Qed.

Lemma shift_GWindow_step t g :
  p_inv W g -> p_ok W g -> global_GWindow g < global_PWindow g ->
  let g' := set_GWindow (u64 (global_GWindow g + depth set)) g in
  p_guar W t g g' /\ p_inv W g' /\ p_rely W t g g'.
Proof.
  intros [(HdP & HdG & HG & Hc) Hs] Ho Hlt. cbn in Ho |- *.
  pose proof Hset as (Hw & Hd & _). pose proof s_limit_le.
  pose proof (window_gap _ _ HdG HdP Hlt).
  rewrite wrap_small by lia.
  split_and!; try lia; try apply s_guar_refl; try apply s_rely_refl; [|done].
  split_and!; cbn; try done; try lia. by apply Z.divide_add_r.
Qed.

(** The shift branch of [get_window], up to the end of the iteration. *)
Lemma get_shift_wp t g0 random (Q : D -> shared SS -> tls -> Prop) g l :
  local_ok set t l -> p_rely W t g0 g -> 0 <= random <= random_hops set ->
  thread_GWindow l < global_PWindow g ->
  wp W t
    ((let* gmax := load_var global_GWindow in
      if thread_GWindow l =? gmax then
        let* ok := cae_GWindow (u64 (thread_GWindow l + depth set)) in
        if ok then put (count_stat inc_slide) else Ret tt
      else Ret tt) ;;;
     let* gmax := load_var global_GWindow in
     put (set_thread_GWindow gmax) ;;;
     continue (0, random, false))
    (fun r g l => match r with inl c => get_loop t g0 c g l | inr d => Q d g l end) g l.
Proof.
  intros Hl HR Hr Hlt. wp_locals. apply wp_load_var; [apply _|]. intros g3 R3 I3 O3.
  pose proof (rely_PWindow _ _ _ R3).
  assert (Hend : forall g' l', p_rely W t g0 g' -> local_ok set t l' ->
    wp W t (let* gmax := load_var global_GWindow in
            put (set_thread_GWindow gmax);;; continue (0, random, false))
      (fun r g l => match r with inl c => get_loop t g0 c g l | inr d => Q d g l end) g' l').
  { intros g' l' HR' Hl'. wp_local. apply wp_load_var; [apply _|].
    intros g5 R5 _ _. wp_locals. apply get_loop_start; eauto. }
  destruct (Z.eqb_spec (thread_GWindow l) (global_GWindow g3)) as [Heq3|]; [|apply Hend; eauto].
  wp_local. apply wp_cae_GWindow.
  - intros g4 R4 I4 O4 Heq4. pose proof (rely_PWindow _ _ _ R4).
    destruct (shift_GWindow_step t g4 I4 O4) as (Hg & HI & HRs); [lia|].
    rewrite <- Heq4. split; [done|split; [done|]]. wp_locals. apply Hend; [|done].
    eapply wrely_trans; [|done]. eauto.
  - intros g4 R4. wp_locals. apply Hend; [eauto|done].
Qed.

Lemma get_window_body_wp t g0 hops random ne (Q : D -> shared SS -> tls -> Prop) g l :
  get_loop t g0 (hops, random, ne) g l ->
  (forall d g l, get_window_post t g0 d g l -> Q d g l) ->
  wp W t (get_window_body set (hops, random, ne))
    (fun r g l => match r with inl c => get_loop t g0 c g l | inr d => Q d g l end) g l.
Proof.
  intros HJ HQ. pose proof HJ as (Hl & HR & Hh & Hr & Hhr & _). pose proof Hl as [Ht Hi].
  cbn [get_window_body]. wp_locals.
  apply get_descriptor_wp; [done..|]. intros d g1 R1 I1 Sd Hd1.
  wp_local. apply put_count_at_wp; [done..|]. intros g2 R2 I2.
  wp_local. apply wp_load_var; [apply _|]. intros g3 R3 I3 O3. wp_locals.
  assert (HR3 : p_rely W t g0 g3) by eauto.
  assert (HR2 : p_rely W t g0 g2) by eauto.
  assert (R23 : p_rely W t g1 g3) by eauto.
  pose proof (rely_putc _ _ _ (thread_index l) R3).
  pose proof (rely_getc _ _ _ (thread_index l) R2).
  pose proof (rely_getc _ _ _ (thread_index l) R3).
  pose proof (rely_putc _ _ _ (thread_index l) HR2).
  pose proof (s_inv_counts set (subs g2) (thread_index l) (proj2 I2) Hi).
  assert (Sd3 : snap_get (thread_index l) d (subs g3))
    by (destruct R23 as (?&?&?); by eapply snap_get_rely).
  set (pc := putc (subs g2) (thread_index l)) in *.
  destruct (Z.eqb_spec (global_GWindow g3) (thread_GWindow l)) as [Heq|Hne]; cbn [negb].
  2: { wp_locals. by apply get_loop_start. }
  assert (HJ3 : get_loop t g0 (hops, random, ne) g3 l) by (eapply get_loop_rely; eauto).
  assert (Hpc : d_get_count d <= pc) by lia.
  assert (HpP : pc <= global_PWindow g3).
  { pose proof (s_inv_counts set (subs g3) (thread_index l) (proj2 I3) Hi).
    destruct I3 as [(_&_&_&Hc) _]. specialize (Hc _ Hi). lia. }
  destruct ((d_get_count d <? global_GWindow g3) && negb (pc =? d_get_count d)) eqn:Ev.
  { apply andb_prop in Ev as [E1 E2]. wp_locals. apply HQ.
    do 5 (split; [done|]). left. lia. }
  set (nonempty := negb (pc =? d_get_count d)) in *.
  assert (Hfull : nonempty = true -> thread_GWindow l < global_PWindow g3) by (unfold nonempty in *; lia).
  assert (Hempty : nonempty = false ->
    putc (subs g0) (thread_index l) <= getc (subs g3) (thread_index l)) by (unfold nonempty in *; lia).
  destruct (Z.eqb_spec hops (width set)) as [->|Hhw]; cbn [negb].
  - destruct ne.
    + apply get_shift_wp; [done..|]. apply HJ3.
    + wp_locals. apply HQ. do 5 (split; [done|]). right.
      intros j Hj. apply HJ3; [done|apply cdist_range; lia].
  - set (ne' := if negb ne && nonempty then true else ne).
    assert (HJ' : get_loop t g0 (hops, random, ne') g3 l).
    { unfold ne'. destruct ne, nonempty; cbn; try done. by eapply get_loop_notempty; auto. }
    wp_locals. apply wp_hop; [done|lia|done|..].
    + intros r s st Hrr Hlt. wp_locals. by apply get_loop_random.
    + intros st Hrh. wp_locals. apply get_loop_next; [done..|].
      unfold ne'. by destruct ne, nonempty.
Qed.

Lemma get_window_wp t b (Q : D -> shared SS -> tls -> Prop) g l :
  local_ok set t l -> (forall d g' l', get_window_post t g d g' l' -> Q d g' l') ->
  wp W t (get_window set b) Q g l.
Proof.
  intros Hl HQ. unfold get_window. wp_locals.
  apply wp_load_var; [apply _|]. intros g0 R0 _ _. wp_locals.
  apply wp_maybe_random_index; [done|]. intros l1 Hl1 _ _. wp_locals.
  apply wp_load_var; [apply _|]. intros g1 R1 _ _.
  assert (Hloop : forall g' l', p_rely W t g g' -> local_ok set t l' ->
    wp W t (while (get_window_body set) (0, 0, false)) Q g' l').
  { intros g' l' R' L'. apply (wp_while W t _ _ _ _ (fun _ c => get_loop t g c) 0%nat).
    - destruct Hset as (_&_&?). apply get_loop_start; [done|done|lia].
    - intros n [[hops random] ne] g'' l'' HJ.
      eapply wp_mono; [|apply (get_window_body_wp t g hops random ne Q); [done|done]].
      intros [c|d] ???; [|done]. by exists 0%nat. }
  destruct (Z.eqb_spec (thread_GWindow l1) (global_GWindow g1)); cbn [negb].
  - wp_locals. apply Hloop; [eauto|done].
  - wp_local. apply wp_load_var; [apply _|]. intros g2 R2 _ _. wp_locals.
    apply Hloop; [eauto|done].
Qed.

(** *** Whole executions *)

(** Any number of threads, each running any sequence of operations. *)
Context {O R : Type} (exec : O -> M SS R).

Definition clients (opss : list (list O)) (ls : list tls) : list (M SS (list R) * tls) :=
  zip (run_ops exec <$> opss) ls.

(** The operations keep a per-thread account [J] of what they did. *)
Context (J : nat -> list (O * R) -> shared SS -> tls -> Prop).
Context (HJ : forall t done o g l, J t done g l -> local_ok set t l ->
  wp W t (exec o) (fun r g l => local_ok set t l /\ J t (done ++ [(o, r)]) g l) g l).

Definition account i (os : list O) (rs : list R) g l : Prop := length rs = length os /\ J i (zip os rs) g l.

Lemma clients_wp g0 opss ls :
  (forall i l, ls !! i = Some l -> local_ok set i l) ->
  (forall i l, ls !! i = Some l -> J i [] g0 l) ->
  forall i p l, clients opss ls !! i = Some (p, l) ->
    wp W i p (fun rs g l => forall os, opss !! i = Some os -> account i os rs g l) g0 l.
Proof.
  intros Hls HJ0 i p l Hp. unfold clients in Hp.
  apply lookup_zip_with_Some in Hp as (p' & l' & [= <- <-] & Hp & Hl).
  rewrite list_lookup_fmap in Hp. destruct (opss !! i) as [os|] eqn:Eo; [|done].
  injection Hp as <-. eapply wp_mono; [|apply (wp_run_ops W i exec
    (fun done g l => local_ok set i l /\ J i done g l))].
  - intros rs g2 l2 [Hlen [_ HJr]] os' [= ->]. by split.
  - intros done o g1 l1 [Hl1 HJ1]. by apply HJ.
  - split; [by apply Hls|by apply HJ0].
Qed.

(** As long as no count can leave its type. *)
Lemma window_soundness_along g0 opss ls schedule :
  let c n := Conc.exec (mkCfg g0 (clients opss ls)) (take n schedule) in
  let c' := Conc.exec (mkCfg g0 (clients opss ls)) schedule in
  p_inv W g0 ->
  (forall n, (n <= length schedule)%nat -> global_PWindow (mem (c n)) + depth set < s_limit) ->
  (forall i l, ls !! i = Some l -> local_ok set i l) ->
  (forall i l, ls !! i = Some l -> J i [] g0 l) ->
  p_inv W (mem c') /\ ~ faulty c' /\
  (forall i rs l os, pool c' !! i = Some (Ret rs, l) -> opss !! i = Some os ->
     exists g1, p_rely W i g1 (mem c') /\ account i os rs g1 l).
Proof.
  intros c c' Hi Hlim Hls HJ0.
  destruct (soundness_along W (fun i rs g l => forall os, opss !! i = Some os -> account i os rs g l)
    (fun _ => 0) 0 0 ltac:(done) ltac:(done) (fun g : shared SS => global_PWindow g + depth set < s_limit)
    (fun _ _ _ H => H) g0 (clients opss ls) schedule Hi ltac:(cbn; lia)) as (HI & HF & HQ).
  - by apply clients_wp.
  - intros n. destruct (decide (n <= length schedule)%nat) as [Hn|Hn]; [by apply Hlim|].
    specialize (Hlim (length schedule) (le_n _)). unfold c in Hlim. by rewrite take_ge in Hlim |- * by lia.
  - split; [done|split; [done|]]. intros i rs l os Hp Ho. destruct (HQ i rs l Hp) as (g1 & R1 & HQ1).
    exists g1. split; [done|by apply HQ1].
Qed.

(** For instance if the schedule is short. *)
Lemma window_soundness g0 opss ls schedule :
  let c' := Conc.exec (mkCfg g0 (clients opss ls)) schedule in
  p_inv W g0 ->
  global_PWindow g0 + (Z.of_nat (length schedule) + 1) * depth set < s_limit ->
  (forall i l, ls !! i = Some l -> local_ok set i l) ->
  (forall i l, ls !! i = Some l -> J i [] g0 l) ->
  p_inv W (mem c') /\ ~ faulty c' /\
  (forall i rs l os, pool c' !! i = Some (Ret rs, l) -> opss !! i = Some os ->
     length rs = length os /\
     exists g1, p_rely W i g1 (mem c') /\ J i (zip os rs) g1 l).
Proof.
  intros c' Hi Hlim Hls HJ0.
  destruct (csteps_exec (mkCfg g0 (clients opss ls)) schedule) as (n & Hn & Hsteps).
  fold c' in Hsteps. pose proof Hset as (_ & Hdep & _).
  destruct (soundness W (fun i rs g l => forall os, opss !! i = Some os -> account i os rs g l)
    global_PWindow (depth set) (s_limit - 1 - depth set)) with (n := n) (g0 := g0)
    (ts := clients opss ls) (c' := c') as (HI & HF & HQ); try done.
  - lia.
  - intros t g g' _ (?&_&_). lia.
  - intros g _ Hg. cbn. lia.
  - nia.
  - by apply clients_wp.
  - split; [done|split; [done|]]. intros i rs l os Hp Ho.
    destruct (HQ i rs l Hp) as (g1 & R1 & HQ1). destruct (HQ1 os Ho) as [Hlen HJ1].
    split; [done|]. by exists g1.
Qed.
End concurrent.

(** The thread-local variables of thread [i] when it starts. *)
Definition tls0 (i : nat) : tls := mkTls i 0 0 0 (mkSeeds 1 2 3) stats0.

Lemma tls0_ok set n :
  0 < width set ->
  forall i l, (tls0 <$> seq 0 n) !! i = Some l -> local_ok set i l.
Proof.
  intros Hw i l Hl. rewrite list_lookup_fmap in Hl.
  destruct (seq 0 n !! i) as [j|] eqn:E; [|done]. apply lookup_seq in E as [-> _].
  injection Hl as <-. split; cbn; lia.
Qed.
