(* ===== verification/CounterSpec.v ===== *)
(** What a counter promises to its user: the operations, an ordinary counter as
    the reference for a sequential run, and the account of a thread's results
    in terms of the updates it made for a concurrent one. *)
From S2P Require Import Prelude.

(** A client's call. *)
Inductive op := Increment | Decrement.

(** An update of sub-counter [i]. *)
Inductive cevent := Inc (i : Z) | Dec (i : Z).

#[export] Instance cevent_eq_dec : EqDecision cevent.
Proof. solve_decision. Defined.

(** ** The reference: an ordinary counter *)

(** Its value after an operation, and the outputs [out] of a sequence of
    operations. *)
Definition count_step (n : Z) (o : op) : Z :=
  match o with Increment => n + 1 | Decrement => if n =? 0 then 0 else n - 1 end.

Fixpoint ref_run (out : Z -> op -> Z) (n : Z) (ops : list op) : list Z :=
  match ops with [] => [] | o :: ops => out n o :: ref_run out (count_step n o) ops end.

Definition ref_value (ops : list op) : Z := fold_left count_step ops 0.

(** With [VALIDATESIZE] an operation says whether it did something. *)
Definition did (n : Z) (o : op) : Z :=
  match o with Increment => 1 | Decrement => if n =? 0 then 0 else 1 end.

Lemma ref_value_le ops : 0 <= ref_value ops <= Z.of_nat (length ops).
Proof.
  unfold ref_value. induction ops as [|o ops IH] using rev_ind; cbn; [lia|].
  rewrite fold_left_app, length_app. cbn. unfold count_step at 1 3.
  destruct o; [lia|]. destruct (Z.eqb_spec (fold_left count_step ops 0) 0); lia.
Qed.

Lemma ref_run_snoc out n ops o :
  ref_run out n (ops ++ [o]) = ref_run out n ops ++ [out (fold_left count_step ops n) o].
Proof. revert n. induction ops as [|o' ops IH]; intros n; cbn; [done|]. by rewrite IH. Qed.

(** The operations [done] and their results, by the reference; [n] is the
    value they lead to. *)
Definition ref_account (out : Z -> op -> Z) (R : Z -> Z -> Prop)
    (done : list (op * Z)) (n : Z) : Prop :=
  Forall2 R done.*2 (ref_run out 0 done.*1) /\ n = ref_value done.*1.

Lemma ref_account_nil out R : ref_account out R [] 0.
Proof. by split. Qed.

Lemma ref_account_snoc out R done n o r :
  ref_account out R done n -> R r (out n o) ->
  ref_account out R (done ++ [(o, r)]) (count_step n o).
Proof.
  unfold ref_account, ref_value. intros [HF ->] Hr. rewrite !fmap_app. cbn. split.
  - rewrite ref_run_snoc. apply Forall2_app; [done|]. by constructor.
  - by rewrite fold_left_app.
Qed.

Lemma ref_account_le out R done n :
  ref_account out R done n -> 0 <= n <= Z.of_nat (length done).
Proof. intros [_ ->]. pose proof (ref_value_le done.*1). by rewrite length_fmap in *. Qed.

(** ** The account of a thread *)

(** With [VALIDATESIZE] a successful operation returns 1. *)
Definition result_ok (validatesize : bool) (r : Z) : Prop := validatesize = true -> r = 1.

(** [explains w P done evs]: the results of the operations [done] are exactly
    what the events [evs] (newest first), updates of [w] sub-counters, account
    for; [P] holds of the result of a successful operation. *)
Inductive explains (w : Z) (P : Z -> Prop) : list (op * Z) -> list cevent -> Prop :=
| explains_nil : explains w P [] []
| explains_inc done evs r i :
    explains w P done evs -> 0 <= i < w -> P r ->
    explains w P (done ++ [(Increment, r)]) (Inc i :: evs)
| explains_dec done evs r i :
    explains w P done evs -> 0 <= i < w -> P r ->
    explains w P (done ++ [(Decrement, r)]) (Dec i :: evs)
| explains_empty done evs :
    explains w P done evs -> explains w P (done ++ [(Decrement, 0)]) evs.
