(* ===== verification/Counter2Dd.v ===== *)
(** src/2Dd-counter/2Dd-counter.c: the relaxed counter made of [width]
    sub-counters, each a pair of a get and a put count. *)
From S2P Require Import Prelude Conc Random Thread Params Window2Dd CounterSpec.

(** ** State *)

Record descriptor_t := mkDesc { get_count : Z; put_count : Z }.

#[export] Instance descriptor_eq_dec : EqDecision descriptor_t.
Proof. solve_decision. Defined.

(** [get_array = put_array]: one array.  The history variable [hist] has the
    successful updates, newest first; it is only written, by the step that
    changes a sub-counter. *)
Record counters := mkCounters {
  array : list descriptor_t;
  hist : list (nat * cevent);
}.

Notation state := (shared counters).
Notation MC := (prog state tls).

Definition lookup_desc (i : Z) (g : state) : option descriptor_t :=
  array (subs g) !! Z.to_nat i.

(** ** Operations *)

(** The copy of a descriptor is one load per field. *)
Definition read_descriptor (i : Z) : MC descriptor_t :=
  let* gc := load (fun g => get_count <$> lookup_desc i g) in
  let* pc := load (fun g => put_count <$> lookup_desc i g) in
  Ret (mkDesc gc pc).

#[export] Instance counter_ops : SubOps counters descriptor_t :=
  {| put_descriptor := read_descriptor;
     get_descriptor := read_descriptor;
     put_count_at i := load (fun g => put_count <$> lookup_desc i g);
     d_put_count := put_count;
     d_get_count := get_count |}.

(** [CAE(&set->array[i].descriptor, &descriptor, &new_descriptor)]. *)
Definition cae_descriptor (i : Z) (d new : descriptor_t) (e : cevent) : MC bool :=
  Act (fun g l =>
    cur ← lookup_desc i g;
    if decide (cur = d) then
      Some (true,
            set_subs (mkCounters (<[Z.to_nat i := new]> (array (subs g)))
                                 ((thread_id l, e) :: hist (subs g))) g, l)
    else Some (false, g, l)) Ret.

Definition increment_body (validatesize : bool) (set : ds_t) (contention : bool)
    : MC (bool + Z) :=
  let* descriptor := put_window set contention in
  let new_descriptor := mkDesc (get_count descriptor) (u64 (put_count descriptor + 1)) in
  let* index := get thread_index in
  let* ok := cae_descriptor index descriptor new_descriptor (Inc index) in
  if ok then
    if validatesize then break 1
    else break (u64 (u64 (put_count new_descriptor - get_count new_descriptor) * width set))
  else
    put (count_stat inc_put_cas_fail) ;;;
    continue true.

Definition increment (validatesize : bool) (set : ds_t) : MC Z :=
  while (increment_body validatesize set) false.

Definition decrement_body (validatesize : bool) (set : ds_t) (contention : bool)
    : MC (bool + Z) :=
  let* descriptor := get_window set contention in
  if 0 <? u64 (put_count descriptor - get_count descriptor) then
    let new_descriptor := mkDesc (u64 (get_count descriptor + 1)) (put_count descriptor) in
    let* index := get thread_index in
    let* ok := cae_descriptor index descriptor new_descriptor (Dec index) in
    if ok then
      if validatesize then break 1
      else break (u64 (u64 (put_count new_descriptor - get_count new_descriptor) * width set))
    else
      put (count_stat inc_get_cas_fail) ;;;
      continue true
  else
    put (count_stat inc_null) ;;;
    break 0.

Definition decrement (validatesize : bool) (set : ds_t) : MC Z :=
  while (decrement_body validatesize set) false.

(** [counter_size]: the loop over [i < set->width], one descriptor at a time. *)
Definition counter_size (set : ds_t) : MC Z :=
  while (fun '(i, size) =>
    if i <? width set then
      let* descriptor := read_descriptor i in
      continue (u64 (i + 1), u64 (size + u64 (put_count descriptor - get_count descriptor)))
    else break size) (0, 0).

(** A client's call. *)
Definition exec_op (validatesize : bool) (set : ds_t) (o : op) : MC Z :=
  match o with
  | Increment => increment validatesize set
  | Decrement => decrement validatesize set
  end.

(** ** Protocol *)

Definition put_of (s : counters) (i : Z) : Z :=
  from_option put_count 0 (array s !! Z.to_nat i).
Definition get_of (s : counters) (i : Z) : Z :=
  from_option get_count 0 (array s !! Z.to_nat i).

(** Number of occurrences of an event in the history. *)
Definition count_ev (e : cevent) (h : list (nat * cevent)) : Z :=
  Z.of_nat (length (filter (fun x => x.2 = e) h)).

(** The events of thread [t]. *)
Definition events_of (t : nat) (h : list (nat * cevent)) : list cevent :=
  (filter (fun x => x.1 = t) h).*2.

(** Every sub-counter is exactly what the history says. *)
Definition counters_inv (set : ds_t) (s : counters) : Prop :=
  Z.of_nat (length (array s)) = width set /\
  (forall i, 0 <= i < width set ->
     put_of s i = count_ev (Inc i) (hist s) /\ get_of s i = count_ev (Dec i) (hist s) /\
     get_of s i <= put_of s i).

Definition grows (s s' : counters) : Prop :=
  (forall i, put_of s i <= put_of s' i) /\ (forall i, get_of s i <= get_of s' i).

#[export] Instance counter_proto : SubProto counters descriptor_t :=
  {| putc := put_of;
     getc := get_of;
     linked := put_of;
     s_inv := counters_inv;
     s_rely t s s' := grows s s' /\ events_of t (hist s') = events_of t (hist s);
     s_guar t s s' := grows s s' /\
       (forall u, u <> t -> events_of u (hist s') = events_of u (hist s));
     snap_put i d s := 0 <= get_count d <= put_count d /\ put_count d <= put_of s i;
     snap_get i d s := 0 <= get_count d <= put_count d /\ put_count d <= put_of s i;
     s_limit := 2 ^ 64 |}.

Lemma count_ev_nonneg e h : 0 <= count_ev e h.
Proof. unfold count_ev. lia. Qed.

#[export] Instance counter_proto_laws : SubProtoLaws counters descriptor_t.
Proof.
  split; cbn; try done; unfold grows.
  - intros t s1 s2 s3 [[] ->] [[] ->]. split; [|done].
    split; intros; etrans; eauto.
  - intros set t u s1 s2 Htu _ [? H]. split; [done|]. by apply H.
  - intros t s1 s2 i [[] _]. eauto.
  - intros t s1 s2 i [[] _]. eauto.
  - intros t s1 s2 i [[] _]. eauto.
  - intros t s1 s2 i [[] _]. eauto.
  - intros set s i (_ & H) Hi. specialize (H i Hi). pose proof (count_ev_nonneg (Dec i) (hist s)).
    lia.
  - intros t i d s1 s2 [] [[Hp _] _]. specialize (Hp i). lia.
  - intros t i d s1 s2 [] [[Hp _] _]. specialize (Hp i). lia.
Qed.

Section lookups.
Context (set : ds_t).
Implicit Types (g : state) (i : Z).

Lemma counter_lookup_desc_inv g i :
  counters_inv set (subs g) -> 0 <= i < width set ->
  exists d, lookup_desc i g = Some d /\
    put_count d = put_of (subs g) i /\ get_count d = get_of (subs g) i.
Proof.
  intros [Hlen _] Hi. unfold lookup_desc, put_of, get_of.
  destruct (lookup_lt_is_Some_2 (array (subs g)) (Z.to_nat i)) as [d E]; [lia|].
  exists d. by rewrite E.
Qed.

Lemma wp_counter_load_put t i (Q : Z -> state -> tls -> Prop) g l :
  ds_ok set -> 0 <= i < width set ->
  (forall g', p_rely (wprot set) t g g' -> p_inv (wprot set) g' -> Q (put_of (subs g') i) g' l) ->
  wp (wprot set) t (load (fun g => put_count <$> lookup_desc i g)) Q g l.
Proof.
  intros Hset Hi HQ. apply wp_load; [apply _|]. intros g1 R1 I1 O1.
  destruct (counter_lookup_desc_inv g1 i (proj2 I1) Hi) as (d & E & Ep & _).
  exists (put_count d). rewrite E. split; [done|]. rewrite Ep. by apply HQ.
Qed.

Lemma wp_counter_load_get t i (Q : Z -> state -> tls -> Prop) g l :
  ds_ok set -> 0 <= i < width set ->
  (forall g', p_rely (wprot set) t g g' -> p_inv (wprot set) g' -> Q (get_of (subs g') i) g' l) ->
  wp (wprot set) t (load (fun g => get_count <$> lookup_desc i g)) Q g l.
Proof.
  intros Hset Hi HQ. apply wp_load; [apply _|]. intros g1 R1 I1 O1.
  destruct (counter_lookup_desc_inv g1 i (proj2 I1) Hi) as (d & E & _ & Eg).
  exists (get_count d). rewrite E. split; [done|]. rewrite Eg. by apply HQ.
Qed.

(** Both fields of a copied descriptor are values the sub-counter had, the
    put count the later one. *)
Lemma wp_counter_read_descriptor t i (Q : descriptor_t -> state -> tls -> Prop) g l :
  ds_ok set -> 0 <= i < width set ->
  (forall d g', p_rely (wprot set) t g g' -> p_inv (wprot set) g' ->
     put_of (subs g) i <= put_count d <= put_of (subs g') i ->
     get_of (subs g) i <= get_count d <= get_of (subs g') i ->
     0 <= get_count d <= put_count d ->
     Q d g' l) ->
  wp (wprot set) t (read_descriptor i) Q g l.
Proof.
  intros Hset Hi HQ. unfold read_descriptor. wp_local.
  apply wp_counter_load_get; [done..|]. intros g1 R1 I1. wp_local.
  apply wp_counter_load_put; [done..|]. intros g2 R2 I2. wp_local.
  pose proof (rely_putc set _ _ _ i R1). pose proof (rely_putc set _ _ _ i R2).
  pose proof (rely_getc set _ _ _ i R1). pose proof (rely_getc set _ _ _ i R2).
  pose proof (s_inv_counts set (subs g1) i (proj2 I1) Hi).
  cbn [putc getc linked counter_proto] in *.
  apply HQ; [by eapply wrely_trans|done|cbn; lia..].
Qed.
End lookups.

#[export] Instance counter_laws : SubLaws counters descriptor_t.
Proof.
  split; cbn [put_descriptor get_descriptor put_count_at counter_ops].
  - intros set t i Q g l Hset Hi HQ. apply wp_counter_read_descriptor; [done..|].
    intros d g' R I' Hp Hg Hd. apply HQ; try done; cbn; lia.
  - intros set t i Q g l Hset Hi HQ. apply wp_counter_read_descriptor; [done..|].
    intros d g' R I' Hp Hg Hd. apply HQ; try done; cbn; lia.
  - intros set t i Q g l Hset Hi HQ. by apply wp_counter_load_put.
Qed.

(** ** The compare-and-exchange step *)

Section cae.
Context (set : ds_t) (Hset : ds_ok set).

(** The effect of a successful update on the history functions. *)
Lemma count_ev_cons e x h :
  count_ev e (x :: h) = count_ev e h + (if decide (x.2 = e) then 1 else 0).
Proof.
  unfold count_ev. rewrite filter_cons. destruct (decide (x.2 = e)); cbn [length]; lia.
Qed.

Lemma counter_events_of_cons t u e h :
  events_of t ((u, e) :: h) = if decide (u = t) then e :: events_of t h else events_of t h.
Proof. unfold events_of. rewrite filter_cons. cbn. by destruct (decide (u = t)). Qed.

Definition apply_event (e : cevent) (d : descriptor_t) : descriptor_t :=
  match e with
  | Inc _ => mkDesc (get_count d) (put_count d + 1)
  | Dec _ => mkDesc (get_count d + 1) (put_count d)
  end.
Definition event_index (e : cevent) : Z := match e with Inc i | Dec i => i end.

Definition apply_counters (t : nat) (e : cevent) (s : counters) (d : descriptor_t) : counters :=
  mkCounters (<[Z.to_nat (event_index e) := apply_event e d]> (array s)) ((t, e) :: hist s).

Lemma put_of_apply t e s d i :
  0 <= event_index e -> 0 <= i -> array s !! Z.to_nat (event_index e) = Some d ->
  put_of (apply_counters t e s d) i =
  put_of s i + (if decide (e = Inc i) then 1 else 0).
Proof.
  intros He Hi Hd. unfold put_of, apply_counters; cbn.
  rewrite list_lookup_insert. case_decide as Hc.
  - destruct Hc as [Hc _]. assert (event_index e = i) by lia. subst i. rewrite Hd; cbn.
    destruct e; cbn in *; case_decide; try done; lia.
  - case_decide as E; [|lia]. subst e. cbn in *. exfalso. apply Hc.
    split; [done|by eapply lookup_lt_Some].
Qed.

Lemma get_of_apply t e s d i :
  0 <= event_index e -> 0 <= i -> array s !! Z.to_nat (event_index e) = Some d ->
  get_of (apply_counters t e s d) i =
  get_of s i + (if decide (e = Dec i) then 1 else 0).
Proof.
  intros He Hi Hd. unfold get_of, apply_counters; cbn.
  rewrite list_lookup_insert. case_decide as Hc.
  - destruct Hc as [Hc _]. assert (event_index e = i) by lia. subst i. rewrite Hd; cbn.
    destruct e; cbn in *; case_decide; try done; lia.
  - case_decide as E; [|lia]. subst e. cbn in *. exfalso. apply Hc.
    split; [done|by eapply lookup_lt_Some].
Qed.

(** What the update must be justified by: room in the put window, or
    something to take. *)
Definition event_allowed (g : state) (e : cevent) (d : descriptor_t) : Prop :=
  match e with
  | Inc _ => put_count d < global_PWindow g
  | Dec _ => get_count d < put_count d
  end.

Lemma apply_step t e g d :
  p_inv (wprot set) g -> 0 <= event_index e < width set ->
  lookup_desc (event_index e) g = Some d -> event_allowed g e d ->
  let g' := set_subs (apply_counters t e (subs g) d) g in
  p_guar (wprot set) t g g' /\ p_inv (wprot set) g'.
Proof.
  intros [(HdP & HdG & HG & Hc) [Hlen Hs]] Hi Hd Hal. pose proof Hset as (Hw & Hdep & _).
  unfold lookup_desc in Hd.
  assert (Hp : forall i, 0 <= i -> put_of (apply_counters t e (subs g) d) i =
    put_of (subs g) i + (if decide (e = Inc i) then 1 else 0))
    by (intros; by apply put_of_apply; [lia|..]).
  assert (Hg : forall i, 0 <= i -> get_of (apply_counters t e (subs g) d) i =
    get_of (subs g) i + (if decide (e = Dec i) then 1 else 0))
    by (intros; by apply get_of_apply; [lia|..]).
  assert (Hneg : forall i s, i < 0 -> put_of s i = put_of s 0 /\ get_of s i = get_of s 0)
    by (intros i s ?; unfold put_of, get_of; by replace (Z.to_nat i) with (Z.to_nat 0) by lia).
  assert (Ed : put_count d = put_of (subs g) (event_index e) /\
               get_count d = get_of (subs g) (event_index e))
    by (unfold put_of, get_of; by rewrite Hd).
  split.
  - split; [cbn; lia|split; [cbn; lia|]]. split; [split|].
    + intros i. destruct (decide (0 <= i)).
      * cbn [subs set_subs]. rewrite Hp by done. case_decide; lia.
      * cbn [subs set_subs]. rewrite !(proj1 (Hneg i _ ltac:(lia))), Hp by done. case_decide; lia.
    + intros i. destruct (decide (0 <= i)).
      * cbn [subs set_subs]. rewrite Hg by done. case_decide; lia.
      * cbn [subs set_subs]. rewrite !(proj2 (Hneg i _ ltac:(lia))), Hg by done. case_decide; lia.
    + intros u Hu. change (events_of u ((t, e) :: hist (subs g)) = events_of u (hist (subs g))).
      rewrite counter_events_of_cons. by case_decide.
  - split.
    + split_and!; cbn; try done; try lia. intros i Hii. rewrite Hp by lia.
      specialize (Hc i Hii). cbn in Hc. case_decide as E; [|lia]. subst e. cbn in *. lia.
    + split; cbn; [by rewrite length_insert|]. intros i Hii.
      change (hist (apply_counters t e (subs g) d)) with ((t, e) :: hist (subs g)).
      rewrite Hp, Hg, !count_ev_cons by lia. cbn [snd].
      destruct (Hs i Hii) as (-> & -> & Hle).
      split_and!; [done|done|]. case_decide as E1; case_decide as E2; try lia.
      subst e. cbn in *. destruct (Hs i Hii) as (E1' & E2' & _). lia.
Qed.

Lemma wp_cae t i d new e (Q : bool -> state -> tls -> Prop) g l :
  0 <= i < width set -> thread_id l = t -> event_index e = i -> new = apply_event e d ->
  event_allowed g e d ->
  (forall g1, p_rely (wprot set) t g g1 ->
     Q true (set_subs (apply_counters t e (subs g1) d) g1) l) ->
  (forall g1, p_rely (wprot set) t g g1 -> Q false g1 l) ->
  wp (wprot set) t (cae_descriptor i d new e) Q g l.
Proof.
  intros Hi Ht He Hn Hal Hok Hno g1 R1 I1 O1.
  destruct (counter_lookup_desc_inv set g1 i (proj2 I1) Hi) as (cur & E & _).
  rewrite E. cbn [mbind option_bind].
  destruct (decide (cur = d)) as [->|Hne].
  - subst. destruct (apply_step (thread_id l) e g1 d I1 Hi E) as [Hg HI].
    { destruct e; cbn in *; [|done]. destruct R1; lia. }
    split; [exact Hg|split; [exact HI|]]. by apply Hok.
  - split; [apply (guar_refl (P := wprot set))|split; [done|by apply Hno]].
Qed.
End cae.

(** ** The operations, among other threads *)

Section operations.
Context (set : ds_t) (Hset : ds_ok set) (validatesize : bool).
Notation W := (wprot set).
Notation mine t g := (events_of t (hist (subs g))).

Lemma counter_rely_mine t g g' : p_rely W t g g' -> mine t g' = mine t g.
Proof. by intros (_ & _ & _ & ?). Qed.

Lemma mine_apply t e g d :
  mine t (set_subs (apply_counters t e (subs g) d) g) = e :: mine t g.
Proof.
  change (events_of t ((t, e) :: hist (subs g)) = e :: events_of t (hist (subs g))).
  rewrite counter_events_of_cons. by rewrite decide_True.
Qed.

(** [increment] adds exactly one [Inc] event of its thread. *)
Lemma increment_wp t (Q : Z -> state -> tls -> Prop) g l :
  local_ok set t l ->
  (forall r g' l' i, local_ok set t l' -> 0 <= i < width set ->
     mine t g' = Inc i :: mine t g -> (validatesize = true -> r = 1) -> Q r g' l') ->
  wp W t (increment validatesize set) Q g l.
Proof.
  intros Hl HQ.
  apply (wp_while W t _ _ _ _ (fun _ _ g1 l1 => local_ok set t l1 /\ mine t g1 = mine t g) 0%nat);
    [done|].
  intros n c g1 l1 [Hl1 Hm1]. unfold increment_body. wp_local.
  apply put_window_wp; [done..|].
  intros d g2 l2 ([Ht2 Hi2] & R2 & I2 & O2 & [[Hd0 Hd] _] & Hlt). wp_locals.
  cbn [wprot p_ok s_limit counter_proto] in O2. pose proof Hset as (_ & Hdep & _).
  pose proof (counter_rely_mine _ _ _ R2) as Hm2. rewrite Hm1 in Hm2.
  apply (wp_cae set Hset t (thread_index l2) d _ (Inc (thread_index l2)));
    [done|done|done| |done|..].
  - cbn in Hlt |- *. by rewrite wrap_small by lia.
  - intros g3 R3. assert (Hm3 := mine_apply t (Inc (thread_index l2)) g3 d).
    rewrite (counter_rely_mine _ _ _ R3), Hm2 in Hm3.
    destruct validatesize eqn:Ev; wp_locals; by eapply HQ.
  - intros g3 R3. wp_locals. exists 0%nat. split; [done|].
    split; [done|]. by rewrite (counter_rely_mine _ _ _ R3).
Qed.

(** [decrement] adds exactly one [Dec] event of its thread, or returns 0
    and adds none. *)
Lemma decrement_wp t (Q : Z -> state -> tls -> Prop) g l :
  local_ok set t l ->
  (forall r g' l' i, local_ok set t l' -> 0 <= i < width set ->
     mine t g' = Dec i :: mine t g -> (validatesize = true -> r = 1) -> Q r g' l') ->
  (forall g' l', local_ok set t l' -> mine t g' = mine t g -> Q 0 g' l') ->
  wp W t (decrement validatesize set) Q g l.
Proof.
  intros Hl HQ HQ0.
  apply (wp_while W t _ _ _ _ (fun _ _ g1 l1 => local_ok set t l1 /\ mine t g1 = mine t g) 0%nat);
    [done|].
  intros n c g1 l1 [Hl1 Hm1]. unfold decrement_body. wp_local.
  apply get_window_wp; [done..|].
  intros d g2 l2 ([Ht2 Hi2] & R2 & [(_&_&_&Hw) _] & O2 & [[Hd0 Hd] Hdp] & _).
  cbn [wprot p_ok s_limit counter_proto] in O2. pose proof Hset as (_ & Hdep & _).
  specialize (Hw _ Hi2). cbn in Hw.
  pose proof (counter_rely_mine _ _ _ R2) as Hm2. rewrite Hm1 in Hm2.
  rewrite wrap_small by lia.
  destruct (Z.ltb_spec 0 (put_count d - get_count d)) as [Hpos|Hz].
  - wp_locals.
    apply (wp_cae set Hset t (thread_index l2) d _ (Dec (thread_index l2)));
      [done|done|done| |cbn; lia|..].
    + cbn. by rewrite wrap_small by lia.
    + intros g3 R3. assert (Hm3 := mine_apply t (Dec (thread_index l2)) g3 d).
      rewrite (counter_rely_mine _ _ _ R3), Hm2 in Hm3.
      destruct validatesize eqn:Ev; wp_locals; by eapply HQ.
    + intros g3 R3. wp_locals. exists 0%nat. split; [done|].
      split; [done|]. by rewrite (counter_rely_mine _ _ _ R3).
  - wp_locals. by apply HQ0.
Qed.
End operations.

(** ** Creation *)

(** [create_counter]: the windows are the zero-initialised globals, no call
    sets them; [random_hops] is 2. *)
Definition create_counter (num_threads width depth k_mode relaxation_bound : Z)
    : option (ds_t * state) :=
  p ← calculate 2 64 64 (product_u64 2) num_threads width depth k_mode relaxation_bound;
  let set := mkDs 2 (p_width p) (p_depth p) (p_bound p) k_mode in
  Some (set, mkShared 0 0
               (mkCounters (replicate (Z.to_nat (p_width p)) (mkDesc 0 0)) [])).

Lemma create_counter_inv nt w d k rb set g :
  create_counter nt w d k rb = Some (set, g) -> ds_ok set -> p_inv (wprot set) g.
Proof.
  unfold create_counter. destruct (calculate _ _ _ _ _ _ _ _ _) as [p|]; [|done].
  intros [= <- <-] (Hw & Hd & _). cbn in Hw, Hd.
  assert (Hlk : forall i, 0 <= i < p_width p ->
    replicate (Z.to_nat (p_width p)) (mkDesc 0 0) !! Z.to_nat i = Some (mkDesc 0 0))
    by (intros; apply lookup_replicate; split; [done|lia]).
  split.
  - split_and!; cbn; try apply Z.divide_0_r; try lia.
    intros i Hi. cbn. unfold put_of; cbn. rewrite Hlk by done. cbn. lia.
  - split; cbn; [rewrite length_replicate; lia|].
    intros i Hi. unfold put_of, get_of; cbn. by rewrite Hlk by done.
Qed.

(** ** Results *)

Section theorems.
Context (nt w d k rb : Z) (validatesize : bool) (set : ds_t) (g0 : state).
Context (Hcreate : create_counter nt w d k rb = Some (set, g0)) (Hset : ds_ok set).
Context (opss : list (list op)) (ls : list tls) (schedule : list nat).
Context (Hls : forall i l, ls !! i = Some l -> local_ok set i l).
Context (Hbound : (Z.of_nat (length schedule) + 1) * depth set < 2 ^ 64).

Let final := exec (mkCfg g0 (clients (exec_op validatesize set) opss ls)) schedule.

Lemma counter_run :
  p_inv (wprot set) (mem final) /\ ~ faulty final /\
  (forall i rs l os, pool final !! i = Some (Ret rs, l) -> opss !! i = Some os ->
     length rs = length os /\
     explains (width set) (result_ok validatesize) (zip os rs) (events_of i (hist (subs (mem final))))).
Proof.
  destruct (window_soundness set Hset (exec_op validatesize set)
    (fun t done g _ => explains (width set) (result_ok validatesize) done (events_of t (hist (subs g)))))
    with (g0 := g0) (opss := opss) (ls := ls) (schedule := schedule) as (HI & HF & HQ).
  - intros t done o g l HJ Hl. destruct o; cbn [exec_op].
    + apply (increment_wp set Hset); [done|]. intros r g' l' i Hl' Hi Hm Hr.
      split; [done|]. rewrite Hm. by constructor.
    + apply (decrement_wp set Hset); [done|..].
      * intros r g' l' i Hl' Hi Hm Hr. split; [done|]. rewrite Hm. by constructor.
      * intros g' l' Hl' Hm. split; [done|]. rewrite Hm. by constructor.
  - by eapply create_counter_inv.
  - revert Hcreate. unfold create_counter.
    destruct (calculate _ _ _ _ _ _ _ _ _); [|done]. intros [= <- <-]. cbn in *. lia.
  - done.
  - intros i l _. revert Hcreate. unfold create_counter.
    destruct (calculate _ _ _ _ _ _ _ _ _); [|done]. intros [= <- <-]. constructor.
  - split; [done|split; [done|]]. intros i rs l os Hp Ho.
    destruct (HQ i rs l os Hp Ho) as (Hlen & g1 & R1 & HJ1). split; [done|].
    destruct R1 as (_ & _ & _ & E). rewrite <- E in HJ1. exact HJ1.
Qed.

(** C24. In every interleaving no thread ever fails an assertion, indexes out of
    the array or divides by zero; and in every reachable state the put count of every sub-counter lies within
    the put window; so any two differ by at most the depth, and [width]
    times any of them is within [depth * (width - 1)] of the number of
    increments. *)
Theorem counter2Dd_safe :
  let s := subs (mem final) in
  ~ faulty final /\
  (forall i, 0 <= i < width set ->
     global_PWindow (mem final) - depth set <= put_of s i <= global_PWindow (mem final)) /\
  (forall i j, 0 <= i < width set -> 0 <= j < width set ->
     Z.abs (put_of s i - put_of s j) <= depth set) /\
  (forall i, 0 <= i < width set ->
     Z.abs (width set * put_of s i - sum_upto (put_of s) (width set))
       <= depth set * (width set - 1)).
Proof.
  destruct counter_run as [[(_ & _ & _ & Hc) _] [Hnf _]]. cbn [putc linked counter_proto] in Hc.
  assert (Hd : forall i j, 0 <= i < width set -> 0 <= j < width set ->
    Z.abs (put_of (subs (mem final)) i - put_of (subs (mem final)) j) <= depth set).
  { intros i j Hi Hj. pose proof (Hc i Hi). pose proof (Hc j Hj). lia. }
  split; [done|split; [done|split; [done|]]]. intros i Hi.
  apply sum_upto_spread; [lia|done|]. intros j Hj. by apply Hd.
Qed.

(** C20. Refinement: every sub-counter holds exactly the updates of the history,
    and each finished thread's results are accounted for, one by one and in
    program order, by that thread's events: every call that does not return
    the empty answer 0 took effect exactly once. *)
Theorem counter2Dd_exactly_once :
  let s := subs (mem final) in
  (forall i, 0 <= i < width set ->
     put_of s i = count_ev (Inc i) (hist s) /\ get_of s i = count_ev (Dec i) (hist s) /\
     get_of s i <= put_of s i) /\
  (forall i rs l os, pool final !! i = Some (Ret rs, l) -> opss !! i = Some os ->
     length rs = length os /\
     explains (width set) (result_ok validatesize) (zip os rs) (events_of i (hist s))).
Proof. destruct counter_run as ([_ [_ Hs]] & _ & HQ). by split. Qed.
End theorems.

(** ** A concrete execution

    Two threads, two sub-counters of depth 3; the threads alternate. *)

Definition example_set : ds_t := mkDs 2 2 3 6 0.
Definition example_mem : state := mkShared 0 0 (mkCounters (replicate 2 (mkDesc 0 0)) []).
Definition example_ops : list (list op) := [[Increment; Decrement]; [Increment]].
Definition example_schedule : list nat := mjoin (replicate 300 [0; 1]%nat).

(** Both threads run to completion in this schedule. *)
Example counter_example_finishes :
  let final := exec (mkCfg example_mem (clients (exec_op true example_set) example_ops
                                          (tls0 <$> seq 0 2))) example_schedule in
  (fun pl => match pl.1 with Ret rs => Some rs | _ => None end) <$> pool final
    = [Some [1; 1]; Some [1]] /\
  array (subs (mem final)) = [mkDesc 1 1; mkDesc 0 1].
Proof. vm_compute. split; reflexivity. Qed.

Lemma counter_example_set_ok : ds_ok example_set.
Proof. unfold ds_ok; cbn; lia. Qed.

Lemma counter2Dd_safe_witness :
  let s := subs (mem (exec (mkCfg example_mem (clients (exec_op true example_set) example_ops
                              (tls0 <$> seq 0 2))) example_schedule)) in
  Z.abs (put_of s 0 - put_of s 1) <= 3.
Proof.
  refine (proj1 (proj2 (proj2 (counter2Dd_safe 1 2 3 0 0 true example_set example_mem
    eq_refl counter_example_set_ok example_ops (tls0 <$> seq 0 2) example_schedule _ _))) 0 1 _ _).
  - apply tls0_ok. reflexivity.
  - vm_compute. reflexivity.
  - cbn; lia.
  - cbn; lia.
Defined.

Lemma counter2Dd_exactly_once_witness :
  explains 2 (result_ok true) [(Increment, 1); (Decrement, 1)]
    (events_of 0 (hist (subs (mem (exec (mkCfg example_mem
       (clients (exec_op true example_set) example_ops (tls0 <$> seq 0 2))) example_schedule))))).
Proof.
  refine (proj2 (proj2 (counter2Dd_exactly_once 1 2 3 0 0 true example_set example_mem
    eq_refl counter_example_set_ok example_ops (tls0 <$> seq 0 2) example_schedule _ _)
    0%nat [1; 1] _ [Increment; Decrement] _ _)).
  - apply tls0_ok. reflexivity.
  - vm_compute. reflexivity.
  - vm_compute. reflexivity.
  - reflexivity.
Defined.
