(* ===== verification/Solo2Dd.v ===== *)
(** include/2Dd-window.c for a thread that runs alone: [put_window] and
    [get_window] terminate, and the windows then bound both the put and the
    get counts.  The clients are again behind an interface, [SubSolo]. *)
From S2P Require Import Prelude Conc Random Thread Window2Dd.

(** [exact_put i d s]: [d] is the current descriptor of put array [i]. *)
Class SubExact (SS D : Type) := {
  exact_put : Z -> D -> SS -> Prop;
  exact_get : Z -> D -> SS -> Prop;
}.

(** Without interference a read returns the current value. *)
Class SubSolo (SS D : Type) `{ops : SubOps SS D} `{proto : SubProto SS D}
    `{ex : SubExact SS D} : Prop := {
  put_descriptor_twp set i (Q : D -> shared SS -> tls -> Prop) g l :
    0 <= i < width set -> s_inv set (subs g) ->
    (forall d, exact_put i d (subs g) -> d_put_count d = putc (subs g) i -> Q d g l) ->
    twp (put_descriptor i) Q g l;
  get_descriptor_twp set i (Q : D -> shared SS -> tls -> Prop) g l :
    0 <= i < width set -> s_inv set (subs g) ->
    (forall d, exact_get i d (subs g) -> d_get_count d = getc (subs g) i -> Q d g l) ->
    twp (get_descriptor i) Q g l;
  put_count_at_twp set i (Q : Z -> shared SS -> tls -> Prop) g l :
    0 <= i < width set -> s_inv set (subs g) ->
    Q (putc (subs g) i) g l -> twp (put_count_at i) Q g l;
}.

(** The full window invariant: the get counts lie within the get window too. *)
Definition seq_inv {SS D} `{SubProto SS D} (set : ds_t) (g : shared SS) : Prop :=
  p_inv (wprot set) g /\
  forall i, 0 <= i < width set ->
    global_GWindow g - depth set <= getc (subs g) i <= global_GWindow g.

(** Nothing to take anywhere. *)
Definition all_empty {SS D} `{SubProto SS D} (set : ds_t) (s : SS) : Prop :=
  forall j, 0 <= j < width set -> putc s j = getc s j.

Section solo.
Context {SS D : Type} {ops : SubOps SS D} {proto : SubProto SS D} {ex : SubExact SS D}.
Context {plaws : SubProtoLaws SS D} {solo_sub : SubSolo SS D}.
Context (set : ds_t) (Hset : ds_ok set).
Implicit Types (g : shared SS) (l : tls).

Lemma twp_random_index (Q : Z -> shared SS -> tls -> Prop) g l :
  (forall r s, 0 <= r < width set -> Q r g (set_seeds s l)) ->
  twp (random_index (width set)) Q g l.
Proof.
  intros HQ. unfold random_index. cbn [wp]. pose proof Hset as (? & _).
  rewrite wrap_small by lia.
  destruct (random_index_spec (width set) (seeds l)) as (r & s & E & Hr);
    [lia|]. rewrite E. cbn. by apply HQ.
Qed.

Lemma twp_hop index random hops (Q : Z * Z * Z -> shared SS -> tls -> Prop) g l :
  0 <= index < width set -> 0 <= hops < width set -> 0 <= random <= random_hops set ->
  (forall r s st, 0 <= r < width set -> random < random_hops set ->
     Q (r, random + 1, hops) g (with_rng s st l)) ->
  (forall st, random = random_hops set ->
     Q (next_index (width set) index, random, hops + 1) g (with_rng (seeds l) st l)) ->
  twp (hop set index random hops) Q g l.
Proof.
  intros Hi Hh Hr HQr HQs. destruct Hset as (Hw&_&Hrh). unfold hop. wp_locals.
  destruct (Z.ltb_spec random (random_hops set)) as [Hlt|Hge].
  - wp_locals. apply twp_random_index. intros r s Hrr. wp_locals.
    rewrite wrap_small by lia. by apply HQr.
  - wp_locals. rewrite !wrap_small by lia.
    change (if width set <=? index + 1 then 0 else index + 1)
      with (next_index (width set) index). apply HQs. lia.
Qed.

Lemma twp_maybe_random_index b (Q : unit -> shared SS -> tls -> Prop) g l :
  local_ok set 0 l ->
  (forall l', local_ok set 0 l' -> thread_PWindow l' = thread_PWindow l ->
     thread_GWindow l' = thread_GWindow l -> Q tt g l') ->
  twp (maybe_random_index set b) Q g l.
Proof.
  intros [Ht Hi] HQ. unfold maybe_random_index. destruct b; wp_locals; [|by apply HQ].
  apply twp_random_index. intros r s Hr. wp_locals. by apply HQ.
Qed.

(** ** [put_window] *)

(** Where the put window can be: where it was, or one depth further if every
    sub-structure was full. *)
Definition put_moved g (P : Z) : Prop :=
  P = global_PWindow g \/
  (P = global_PWindow g + depth set /\
   forall j, 0 <= j < width set -> global_PWindow g <= putc (subs g) j).

Definition put_variant g (P hops random : Z) : nat :=
  Z.to_nat ((if P =? global_PWindow g then width set + 1 else 0) +
            (random_hops set - random) + (width set - hops)).

Definition put_solo_loop g (n : nat) '((hops, random) : Z * Z) g1 l1 : Prop :=
  local_ok set 0 l1 /\ g1 = set_PWindow (thread_PWindow l1) g /\
  put_moved g (thread_PWindow l1) /\
  0 <= hops <= width set /\ 0 <= random <= random_hops set /\
  (0 < hops -> random = random_hops set) /\
  (forall j, 0 <= j < width set -> cdist (width set) (thread_index l1) j < hops ->
     thread_PWindow l1 <= putc (subs g) j) /\
  n = put_variant g (thread_PWindow l1) hops random.

Lemma seq_inv_PWindow g P :
  seq_inv set g -> put_moved g P -> seq_inv set (set_PWindow P g).
Proof.
  pose proof Hset as (Hw & Hd & _).
  intros [[(HdP & HdG & HG & Hc) Hs] Hg] [->|[-> Hfull]]; (split; [|done]); (split; [|done]).
  - by destruct g.
  - split_and!; cbn; try done; try lia.
    + by apply Z.divide_add_r.
    + intros i Hi. specialize (Hc i Hi). specialize (Hfull i Hi). lia.
Qed.

Lemma put_body_twp g (Q : D -> shared SS -> tls -> Prop) n c g1 l1 :
  seq_inv set g -> global_PWindow g + depth set < s_limit ->
  put_solo_loop g n c g1 l1 ->
  (forall d P l', local_ok set 0 l' -> thread_PWindow l' = P -> put_moved g P ->
     exact_put (thread_index l') d (subs g) -> d_put_count d = putc (subs g) (thread_index l') ->
     d_put_count d < P -> Q d (set_PWindow P g) l') ->
  twp (put_window_body set c)
    (fun r g2 l2 => match r with
       | inl c' => exists m, (m < n)%nat /\ put_solo_loop g m c' g2 l2
       | inr d => Q d g2 l2 end) g1 l1.
Proof.
  destruct c as [hops random].
  intros HI Hlim ([Ht Hi] & -> & HP & Hh & Hr & Hhr & Hseen & Hn) HQ.
  pose proof Hset as (Hw & Hd & Hrh). pose proof s_limit_le.
  pose proof (proj1 (proj2 (proj2 (proj2 (proj1 (proj1 HI)))) (thread_index l1) Hi)).
  cbn [put_window_body]. wp_locals. apply wp_assert; [lia|]. wp_locals.
  apply (put_descriptor_twp set); [done|apply HI|]. intros d Hd1 Hd2. wp_locals.
  apply twp_load_var. wp_locals. cbn [global_PWindow set_PWindow].
  rewrite Z.eqb_refl. cbn [negb].
  destruct (Z.ltb_spec (d_put_count d) (thread_PWindow l1)) as [Hlt|Hge].
  { wp_locals. by apply HQ. }
  cbn [subs set_PWindow] in Hd2.
  destruct (Z.eqb_spec hops (width set)) as [->|Hhw]; cbn [negb].
  - assert (Hfull : forall j, 0 <= j < width set -> thread_PWindow l1 <= putc (subs g) j).
    { intros j Hj. apply Hseen; [done|apply cdist_range; lia]. }
    assert (HPeq : thread_PWindow l1 = global_PWindow g).
    { destruct HP as [|[HP _]]; [done|]. pose proof (s_inv_counts set (subs g) _ (proj2 (proj1 HI)) Hi).
      destruct HI as [[(_&_&_&Hc) _] _]. specialize (Hc _ Hi). lia. }
    wp_locals. apply twp_load_var. cbn [global_PWindow set_PWindow]. rewrite Z.eqb_refl.
    wp_locals. rewrite HPeq in *. rewrite wrap_small by (destruct HI as [[(_&_&?&_) _] _]; lia).
    eapply twp_act; [by rewrite decide_True|]. wp_locals.
    apply twp_load_var. wp_locals. cbn [global_PWindow set_PWindow].
    eexists. split; [|split_and!; try done; cbn]; cbn; try lia.
    + rewrite Hn. unfold put_variant. cbn.
      destruct (Z.eqb_spec (global_PWindow g) (global_PWindow g)); [|done].
      destruct (Z.eqb_spec (global_PWindow g + depth set) (global_PWindow g)); lia.
    + right. done.
    + intros j Hj Hc. pose proof (cdist_range (width set) (thread_index l1) j). lia.
  - wp_locals. apply twp_hop; [done|lia|done|..].
    + intros r s st Hrr Hlt. wp_locals. eexists. split; [|split_and!; try done; cbn]; cbn; try lia.
      * rewrite Hn. unfold put_variant. destruct (_ =? _); lia.
      * intros j Hj Hc. pose proof (cdist_range (width set) r j). lia.
    + intros st Hrd. wp_locals. eexists. split; [|split_and!; try done; cbn]; cbn; try lia.
      * rewrite Hn. unfold put_variant. destruct (_ =? _); lia.
      * split; [done|]. apply next_index_range; lia.
      * intros j Hj Hc.
        destruct (cdist_next (width set) (thread_index l1) j Hi Hj) as [[-> _]|[_ E]]; [lia|].
        apply Hseen; [done|lia].
Qed.

Lemma put_window_twp b (Q : D -> shared SS -> tls -> Prop) g l :
  seq_inv set g -> global_PWindow g + depth set < s_limit -> local_ok set 0 l ->
  (forall d P l', local_ok set 0 l' -> thread_PWindow l' = P -> put_moved g P ->
     exact_put (thread_index l') d (subs g) -> d_put_count d = putc (subs g) (thread_index l') ->
     d_put_count d < P -> Q d (set_PWindow P g) l') ->
  twp (put_window set b) Q g l.
Proof.
  intros HI Hlim Hl HQ. unfold put_window. wp_local.
  apply twp_maybe_random_index; [done|]. intros l1 Hl1 _ _. wp_locals.
  apply twp_load_var. pose proof Hset as (Hw & Hd & Hrh).
  assert (Hloop : forall l', thread_PWindow l' = global_PWindow g -> local_ok set 0 l' ->
    twp (while (put_window_body set) (0, 0)) Q g l').
  { intros l' E L'. eapply (wp_while solo 0%nat _ _ _ _ (put_solo_loop g)).
    - split_and!; try done; try lia; [rewrite E; by destruct g|by left|].
      intros j Hj Hc. pose proof (cdist_range (width set) (thread_index l') j). lia.
    - intros n c g1 l2 HJ. eapply wp_mono; [|by eapply put_body_twp].
      intros [c'|d] ??; [|done]. intros (m & Hm & HJ'). by exists m. }
  destruct (Z.eqb_spec (thread_PWindow l1) (global_PWindow g)); cbn [negb]; wp_locals.
  - by apply Hloop.
  - apply twp_load_var. wp_locals. by apply Hloop.
Qed.

(** ** [get_window] *)

(** Where the get window can be: where it was, or one depth further if some
    non-empty sub-structure was used up and every other one was used up or
    empty. *)
Definition get_moved g (G : Z) : Prop :=
  G = global_GWindow g \/
  (G = global_GWindow g + depth set /\
   (forall j, 0 <= j < width set -> getc (subs g) j = putc (subs g) j \/
      global_GWindow g <= getc (subs g) j) /\
   exists j, 0 <= j < width set /\ getc (subs g) j = global_GWindow g /\
     global_GWindow g < putc (subs g) j).

Definition get_variant g (G hops random : Z) : nat :=
  Z.to_nat ((if G =? global_GWindow g then width set + 1 else 0) +
            (random_hops set - random) + (width set - hops)).

Definition get_solo_loop g (n : nat) '((hops, random, ne) : Z * Z * bool) g1 l1 : Prop :=
  local_ok set 0 l1 /\ g1 = set_GWindow (thread_GWindow l1) g /\
  get_moved g (thread_GWindow l1) /\
  0 <= hops <= width set /\ 0 <= random <= random_hops set /\
  (0 < hops -> random = random_hops set) /\
  (if ne : bool then exists j, 0 <= j < width set /\
                 thread_GWindow l1 <= getc (subs g) j < putc (subs g) j
   else forall j, 0 <= j < width set -> cdist (width set) (thread_index l1) j < hops ->
     getc (subs g) j = putc (subs g) j) /\
  (forall j, 0 <= j < width set -> cdist (width set) (thread_index l1) j < hops ->
     getc (subs g) j = putc (subs g) j \/ thread_GWindow l1 <= getc (subs g) j) /\
  n = get_variant g (thread_GWindow l1) hops random.

Lemma seq_inv_GWindow g G :
  seq_inv set g -> get_moved g G -> seq_inv set (set_GWindow G g).
Proof.
  pose proof Hset as (Hw & Hd & _).
  intros [[(HdP & HdG & HG & Hc) Hs] Hg] [->|(-> & Hused & j & Hj & Hne)].
  { by destruct g. }
  pose proof (Hc j Hj). pose proof (s_inv_counts set (subs g) j Hs Hj).
  pose proof (window_gap set Hset _ _ HdG HdP ltac:(lia)).
  split; [split; [|done]; split_and!|]; cbn; try done; try lia.
  - by apply Z.divide_add_r.
  - intros i Hi. specialize (Hg i Hi). specialize (Hc i Hi). specialize (Hused i Hi).
    pose proof (s_inv_counts set (subs g) i Hs Hi). lia.
Qed.

Definition get_result g (d : D) (G : Z) l' : Prop :=
  local_ok set 0 l' /\ get_moved g G /\
  exact_get (thread_index l') d (subs g) /\ d_get_count d = getc (subs g) (thread_index l') /\
  ((d_get_count d < G /\ d_get_count d < putc (subs g) (thread_index l')) \/
   all_empty set (subs g)).

(** The shift branch. *)
Lemma get_shift_twp g (Q : D -> shared SS -> tls -> Prop) n random l1 :
  seq_inv set g -> global_PWindow g < s_limit ->
  get_solo_loop g n (width set, random, true) (set_GWindow (thread_GWindow l1) g) l1 ->
  twp
    ((let* gmax := load_var global_GWindow in
      if thread_GWindow l1 =? gmax then
        let* ok := cae_GWindow (u64 (thread_GWindow l1 + depth set)) in
        if ok then put (count_stat inc_slide) else Ret tt
      else Ret tt) ;;;
     let* gmax := load_var global_GWindow in
     put (set_thread_GWindow gmax) ;;;
     continue (0, random, false))
    (fun r g2 l2 => match r with
       | inl c' => exists m, (m < n)%nat /\ get_solo_loop g m c' g2 l2
       | inr d => Q d g2 l2 end) (set_GWindow (thread_GWindow l1) g) l1.
Proof.
  intros HI Hlim ([Ht Hi] & _ & HG & Hh & Hr & Hhr & Hne & Hseen & Hn).
  pose proof Hset as (Hw & Hd & Hrh). pose proof s_limit_le.
  assert (Hused : forall j, 0 <= j < width set -> getc (subs g) j = putc (subs g) j \/
    thread_GWindow l1 <= getc (subs g) j).
  { intros j Hj. apply Hseen; [done|apply cdist_range; lia]. }
  destruct Hne as (k & Hk & Hk1). pose proof HI as [[(HdP & HdG & HGP & Hc) Hs] Hg].
  assert (HGeq : thread_GWindow l1 = global_GWindow g).
  { destruct HG as [|(HG & _ & j & Hj & Hj')]; [done|].
    destruct (Hused j Hj); lia. }
  wp_locals. apply twp_load_var. cbn [global_GWindow set_GWindow]. rewrite Z.eqb_refl.
  pose proof (Hc k Hk). pose proof (Hg k Hk). pose proof (s_inv_counts set (subs g) k Hs Hk).
  pose proof (window_gap set Hset _ _ HdG HdP ltac:(lia)).
  wp_locals. rewrite HGeq in *. rewrite wrap_small by lia.
  eapply twp_act; [by rewrite decide_True|]. wp_locals.
  apply twp_load_var. wp_locals. cbn [global_GWindow set_GWindow].
  eexists. split; [|split_and!; try done; cbn]; cbn; try lia.
  - rewrite Hn. unfold get_variant. cbn.
    destruct (Z.eqb_spec (global_GWindow g) (global_GWindow g)); [|done].
    destruct (Z.eqb_spec (global_GWindow g + depth set) (global_GWindow g)); lia.
  - right. split_and!; [done|done|]. exists k. split; [done|lia].
  - intros j Hj Hc'. pose proof (cdist_range (width set) (thread_index l1) j). lia.
  - intros j Hj Hc'. pose proof (cdist_range (width set) (thread_index l1) j). lia.
Qed.

Lemma get_body_twp g (Q : D -> shared SS -> tls -> Prop) n c g1 l1 :
  seq_inv set g -> global_PWindow g < s_limit ->
  get_solo_loop g n c g1 l1 ->
  (forall d G l', get_result g d G l' -> Q d (set_GWindow G g) l') ->
  twp (get_window_body set c)
    (fun r g2 l2 => match r with
       | inl c' => exists m, (m < n)%nat /\ get_solo_loop g m c' g2 l2
       | inr d => Q d g2 l2 end) g1 l1.
Proof.
  destruct c as [[hops random] ne].
  intros HI Hlim HJ HQ. pose proof HJ as ([Ht Hi] & -> & HG & Hh & Hr & Hhr & Hne & Hseen & Hn).
  pose proof Hset as (Hw & Hd & Hrh).
  cbn [get_window_body]. wp_locals.
  apply (get_descriptor_twp set); [done|apply HI|]. intros d Hd1 Hd2. wp_locals.
  apply (put_count_at_twp set); [done|apply HI|]. wp_locals.
  apply twp_load_var. wp_locals. cbn [global_GWindow subs set_GWindow] in *.
  rewrite Z.eqb_refl, Hd2. cbn [negb].
  pose proof (s_inv_counts set (subs g) (thread_index l1) (proj2 (proj1 HI)) Hi).
  destruct ((getc (subs g) (thread_index l1) <? thread_GWindow l1) &&
            negb (putc (subs g) (thread_index l1) =? getc (subs g) (thread_index l1))) eqn:Ev.
  { apply andb_prop in Ev as [E1 E2]. wp_locals. apply HQ. split_and!; try done. left. lia. }
  set (nonempty := negb (putc (subs g) (thread_index l1) =? getc (subs g) (thread_index l1))) in *.
  assert (Hfull : nonempty = true -> thread_GWindow l1 <= getc (subs g) (thread_index l1)
    < putc (subs g) (thread_index l1)) by (unfold nonempty in *; lia).
  assert (Hemp : nonempty = false -> getc (subs g) (thread_index l1) =
    putc (subs g) (thread_index l1)) by (unfold nonempty in *; lia).
  clearbody nonempty. clear Ev.
  destruct (Z.eqb_spec hops (width set)) as [->|Hhw]; cbn [negb].
  - destruct ne; [by apply get_shift_twp|].
    wp_locals. apply HQ. split_and!; try done. right. intros j Hj.
    symmetry. apply Hne; [done|apply cdist_range; lia].
  - set (ne' := if negb ne && nonempty then true else ne).
    assert (Hne' : if ne' then exists j, 0 <= j < width set /\
        thread_GWindow l1 <= getc (subs g) j < putc (subs g) j
      else nonempty = false /\
        forall j, 0 <= j < width set -> cdist (width set) (thread_index l1) j < hops ->
          getc (subs g) j = putc (subs g) j).
    { unfold ne'. destruct ne; cbn; [done|]. destruct nonempty; cbn; [|done]. eauto. }
    wp_locals. apply twp_hop; [done|lia|done|..].
    + intros r s st Hrr Hlt. wp_locals. eexists. split; [|split_and!; try done; cbn]; cbn; try lia.
      * rewrite Hn. unfold get_variant. destruct (_ =? _); lia.
      * destruct ne'; [done|]. intros j Hj Hc. pose proof (cdist_range (width set) r j). lia.
      * intros j Hj Hc. pose proof (cdist_range (width set) r j). lia.
    + intros st Hrd. wp_locals. eexists. split; [|split_and!; try done; cbn]; cbn; try lia.
      * rewrite Hn. unfold get_variant. destruct (_ =? _); lia.
      * split; [done|]. apply next_index_range; lia.
      * destruct ne'; [done|]. destruct Hne' as [Hno Hne']. intros j Hj Hc.
        destruct (cdist_next (width set) (thread_index l1) j Hi Hj) as [[-> _]|[_ E]]; [auto|].
        apply Hne'; [done|lia].
      * intros j Hj Hc.
        destruct (cdist_next (width set) (thread_index l1) j Hi Hj) as [[-> _]|[_ E]].
        -- destruct nonempty; [right; lia|left; auto].
        -- apply Hseen; [done|lia].
Qed.

Lemma get_window_twp b (Q : D -> shared SS -> tls -> Prop) g l :
  seq_inv set g -> global_PWindow g < s_limit -> local_ok set 0 l ->
  (forall d G l', get_result g d G l' -> Q d (set_GWindow G g) l') ->
  twp (get_window set b) Q g l.
Proof.
  intros HI Hlim Hl HQ. unfold get_window. wp_locals.
  apply twp_load_var. wp_locals.
  apply twp_maybe_random_index; [done|]. intros l1 Hl1 _ E1. cbn in E1. wp_locals.
  apply twp_load_var. pose proof Hset as (Hw & Hd & Hrh).
  rewrite E1, Z.eqb_refl. cbn [negb]. wp_locals.
  eapply (wp_while solo 0%nat _ _ _ _ (get_solo_loop g)).
  - split_and!; try done; try lia; [rewrite E1; by destruct g|by left|..];
      intros j Hj Hc; pose proof (cdist_range (width set) (thread_index l1) j); lia.
  - intros n c g1 l2 HJ. eapply wp_mono; [|by eapply get_body_twp].
    intros [c'|d] ??; [|done]. intros (m & Hm & HJ'). by exists m.
Qed.
End solo.
