(* ===== verification/Counter2DdSeq.v ===== *)
(** The 2Dd counter used by one thread: it terminates, it is empty exactly
    when an ordinary counter is, [counter_size] is exact, and the estimate
    returned without [VALIDATESIZE] is off by at most the relaxation bound. *)
From S2P Require Import Prelude Conc Random Thread Params Window2Dd Solo2Dd CounterSpec Counter2Dd.

#[export] Instance counter_exact : SubExact counters descriptor_t :=
  {| exact_put i d s := array s !! Z.to_nat i = Some d;
     exact_get i d s := array s !! Z.to_nat i = Some d |}.

Lemma counter_read_descriptor_twp set i (Q : descriptor_t -> state -> tls -> Prop) g l :
  0 <= i < width set -> counters_inv set (subs g) ->
  (forall d, lookup_desc i g = Some d ->
     put_count d = put_of (subs g) i -> get_count d = get_of (subs g) i -> Q d g l) ->
  twp (read_descriptor i) Q g l.
Proof.
  intros Hi HI HQ. destruct (counter_lookup_desc_inv set g i HI Hi) as (d & E & Ep & Eg).
  unfold read_descriptor. wp_local. eapply twp_load; [by rewrite E|]. wp_local.
  eapply twp_load; [by rewrite E|]. wp_local. destruct d. by apply HQ.
Qed.

#[export] Instance counter_solo : SubSolo counters descriptor_t.
Proof.
  split; cbn [put_descriptor get_descriptor put_count_at counter_ops].
  - intros set i Q g l Hi HI HQ. apply (counter_read_descriptor_twp set); [done..|].
    intros d E Ep Eg. by apply HQ.
  - intros set i Q g l Hi HI HQ. apply (counter_read_descriptor_twp set); [done..|].
    intros d E Ep Eg. by apply HQ.
  - intros set i Q g l Hi HI HQ. destruct (counter_lookup_desc_inv set g i HI Hi) as (d & E & Ep & Eg).
    eapply twp_load; [by rewrite E|]. by rewrite Ep.
Qed.

(** The number of increments not yet decremented. *)
Definition total (set : ds_t) (g : state) : Z :=
  sum_upto (fun i => put_of (subs g) i - get_of (subs g) i) (width set).

Section sequential.
Context (set : ds_t) (Hset : ds_ok set) (validatesize : bool).

Lemma total_nonneg g : counters_inv set (subs g) -> 0 <= total set g.
Proof.
  intros [_ H]. pose proof Hset as (? & _). apply sum_upto_nonneg; [lia|].
  intros i Hi. specialize (H i Hi). lia.
Qed.

Lemma total_zero_iff g :
  counters_inv set (subs g) -> total set g = 0 <-> all_empty set (subs g).
Proof.
  intros [_ H]. split.
  - intros Ht i Hi. cbn. pose proof (H i Hi) as (_ & _ & ?).
    pose proof (sum_upto_term (fun i => put_of (subs g) i - get_of (subs g) i) (width set) i Hi).
    unfold total in Ht. cbv beta in *. enough (put_of (subs g) i - get_of (subs g) i <= 0) by lia.
    rewrite <- Ht. apply H1. intros j Hj. specialize (H j Hj). lia.
  - intros Hemp. unfold total. rewrite (sum_upto_ext _ (fun _ => 0)).
    + pose proof Hset as (? & _). rewrite sum_upto_const; lia.
    + intros i Hi. specialize (Hemp i Hi). cbn in Hemp. lia.
Qed.

(** One update: the invariant and the total after it. *)
Lemma seq_apply t e g d :
  seq_inv set g -> 0 <= event_index e < width set ->
  lookup_desc (event_index e) g = Some d ->
  match e with
  | Inc i => put_of (subs g) i < global_PWindow g
  | Dec i => get_of (subs g) i < global_GWindow g /\ get_of (subs g) i < put_of (subs g) i
  end ->
  let g' := set_subs (apply_counters t e (subs g) d) g in
  seq_inv set g' /\
  put_of (subs g') (event_index e) = put_of (subs g) (event_index e)
    + (match e with Inc _ => 1 | Dec _ => 0 end) /\
  get_of (subs g') (event_index e) = get_of (subs g) (event_index e)
    + (match e with Inc _ => 0 | Dec _ => 1 end) /\
  total set g' = total set g + (match e with Inc _ => 1 | Dec _ => -1 end).
Proof.
  intros [HI Hg] Hi Hd Hal.
  destruct (counter_lookup_desc_inv set g _ (proj2 HI) Hi) as (d' & E & Ep & Eg).
  assert (d' = d) as -> by congruence.
  destruct (apply_step set Hset t e g d HI Hi Hd) as [_ HI']; [destruct e; cbn in *; lia|].
  unfold lookup_desc in Hd.
  pose proof (fun j Hj => put_of_apply t e (subs g) d j (proj1 Hi) Hj Hd) as Hp.
  pose proof (fun j Hj => get_of_apply t e (subs g) d j (proj1 Hi) Hj Hd) as Hgt.
  split; [split; [done|]|].
  - intros i Hii. specialize (Hg i Hii). cbn in *. rewrite Hgt by lia.
    case_decide as E'; [subst e; cbn in *|]; lia.
  - cbn [subs set_subs]. rewrite Hp, Hgt by lia.
    split; [destruct e; cbn; case_decide; congruence || lia|].
    split; [destruct e; cbn; case_decide; congruence || lia|].
    apply (sum_upto_bump _ _ (event_index e)); [done|]. intros j Hj. cbn [subs set_subs].
    rewrite Hp, Hgt by lia.
    destruct e as [i|i]; cbn; destruct (Z.eqb_spec j i) as [->|Hne];
      repeat case_decide; try lia; congruence.
Qed.

(** The deviation of one sub-counter's estimate. *)
Lemma estimate_spread g i :
  seq_inv set g -> 0 <= i < width set ->
  Z.abs (width set * (put_of (subs g) i - get_of (subs g) i) - total set g)
    <= 2 * depth set * (width set - 1).
Proof.
  intros [[(_ & _ & _ & Hc) _] Hg] Hi. cbn in Hc, Hg.
  pose proof (sum_upto_spread (fun i => put_of (subs g) i - get_of (subs g) i)
    (width set) (2 * depth set) i) as Hs. cbv beta in Hs.
  apply Hs; [lia|done|]. intros j Hj.
  pose proof (Hc i Hi). pose proof (Hc j Hj). pose proof (Hg i Hi). pose proof (Hg j Hj). lia.
Qed.

(** A result: 1 with [VALIDATESIZE], the estimate without. *)
Definition good_result (g : state) (r : Z) : Prop :=
  if validatesize then r = 1
  else Z.abs (r - total set g) <= 2 * depth set * (width set - 1).

Lemma estimate_result g i d :
  seq_inv set g -> 0 <= i < width set ->
  width set * global_PWindow g < 2 ^ 64 ->
  put_count d = put_of (subs g) i -> get_count d = get_of (subs g) i ->
  Z.abs (u64 (u64 (put_count d - get_count d) * width set) - total set g)
    <= 2 * depth set * (width set - 1).
Proof.
  intros HI Hi Hlim Ep Eg. pose proof Hset as (Hw & _).
  pose proof (estimate_spread g i HI Hi). destruct HI as [[(_ & _ & HG & Hc) [_ Hs]] _].
  specialize (Hc i Hi). cbn in Hc. destruct (Hs i Hi) as (_ & E & ?).
  pose proof (count_ev_nonneg (Dec i) (hist (subs g))). rewrite Ep, Eg.
  rewrite (wrap_small 64 (_ - _)), wrap_small by nia. rewrite Z.mul_comm. done.
Qed.

Lemma cae_twp i d new e (Q : bool -> state -> tls -> Prop) g l :
  lookup_desc i g = Some d -> event_index e = i -> new = apply_event e d ->
  Q true (set_subs (apply_counters (thread_id l) e (subs g) d) g) l ->
  twp (cae_descriptor i d new e) Q g l.
Proof.
  intros E Ei -> HQ. subst i. eapply twp_act; [|exact HQ].
  rewrite E. cbn [mbind option_bind]. by rewrite decide_True.
Qed.

Lemma increment_twp (Q : Z -> state -> tls -> Prop) g l :
  seq_inv set g -> width set * (global_PWindow g + depth set) < 2 ^ 64 -> local_ok set 0 l ->
  (forall r g' l', seq_inv set g' -> local_ok set 0 l' ->
     global_PWindow g' <= global_PWindow g + depth set ->
     total set g' = total set g + 1 -> good_result g' r -> Q r g' l') ->
  twp (increment validatesize set) Q g l.
Proof.
  intros HI Hlim Hl HQ. pose proof Hset as (Hw & Hd & _).
  assert (HP0 : 0 <= global_PWindow g) by (destruct HI as [[(_&_&?&_) _] _]; lia).
  apply (wp_while solo 0%nat _ _ _ _ (fun _ _ g1 l1 => g1 = g /\ l1 = l) 0%nat); [done|].
  intros n c g1 l1 [-> ->]. unfold increment_body. wp_local.
  apply (put_window_twp set Hset); [done|cbn; nia|done|].
  intros d P l1 [Ht1 Hi1] _ HP Ed Ec Hlt.
  assert (HP' : P <= global_PWindow g + depth set) by (destruct HP as [->|[-> _]]; lia).
  pose proof (seq_inv_PWindow set Hset g P HI HP) as HI1.
  set (g1 := set_PWindow P g) in *. cbn in Ed, Ec, Hlt.
  change (subs g1) with (subs g) in *.
  assert (HPlim : P < 2 ^ 64) by nia.
  assert (Hput : 0 <= put_of (subs g) (thread_index l1)).
  { destruct HI as [[_ [_ Hs]] _]. destruct (Hs _ Hi1) as (E & _).
    pose proof (count_ev_nonneg (Inc (thread_index l1)) (hist (subs g))). lia. }
  wp_locals.
  apply (cae_twp (thread_index l1) d _ (Inc (thread_index l1))); [done|done|..].
  { cbn. rewrite wrap_small; [done|]. lia. }
  destruct (seq_apply (thread_id l1) (Inc (thread_index l1)) g1 d HI1 Hi1 Ed) as (HI2 & Ep2 & Eg2 & Et2).
  { cbn. lia. }
  set (g2 := set_subs _ g1) in *. cbn [event_index] in Ep2, Eg2.
  change (subs g1) with (subs g) in Ep2, Eg2.
  assert (Ew : u64 (put_count d + 1) = put_of (subs g2) (thread_index l1)).
  { rewrite wrap_small; rewrite ?Ep2, Ec; lia. }
  destruct (counter_lookup_desc_inv set g1 _ (proj2 (proj1 HI1)) Hi1) as (d' & E' & _ & Eg').
  assert (d' = d) as -> by (unfold lookup_desc in E'; cbn in E'; congruence).
  change (subs g1) with (subs g) in Eg'.
  assert (Hres : forall r, (if validatesize then r = 1 else
     r = u64 (u64 (u64 (put_count d + 1) - get_count d) * width set)) -> Q r g2 l1).
  { intros r Hr. apply HQ; [done|by split|cbn; lia|exact Et2|].
    unfold good_result. destruct validatesize; [done|]. subst r.
    apply (estimate_result g2 (thread_index l1) (mkDesc (get_count d) (u64 (put_count d + 1))) HI2 Hi1);
      [cbn; nia|done|cbn [get_count]; lia]. }
  destruct validatesize; wp_locals; by apply Hres.
Qed.

Lemma decrement_twp (Q : Z -> state -> tls -> Prop) g l :
  seq_inv set g -> width set * global_PWindow g < 2 ^ 64 -> local_ok set 0 l ->
  (forall r g' l', seq_inv set g' -> local_ok set 0 l' ->
     global_PWindow g' = global_PWindow g -> 0 < total set g ->
     total set g' = total set g - 1 -> good_result g' r -> Q r g' l') ->
  (forall g' l', seq_inv set g' -> local_ok set 0 l' ->
     global_PWindow g' = global_PWindow g -> total set g = 0 -> total set g' = 0 -> Q 0 g' l') ->
  twp (decrement validatesize set) Q g l.
Proof.
  intros HI Hlim Hl HQ HQ0. pose proof Hset as (Hw & Hd & _).
  assert (HP0 : 0 <= global_PWindow g) by (destruct HI as [[(_&_&?&_) _] _]; lia).
  apply (wp_while solo 0%nat _ _ _ _ (fun _ _ g1 l1 => g1 = g /\ l1 = l) 0%nat); [done|].
  intros n c g1 l1 [-> ->]. unfold decrement_body. wp_local.
  apply (get_window_twp set Hset); [done|cbn; nia|done|].
  intros d G l1 ([Ht1 Hi1] & HG & Ed & Ec & Hcase).
  pose proof (seq_inv_GWindow set Hset g G HI HG) as HI1.
  set (g1 := set_GWindow G g) in *. cbn in Ed, Ec, Hcase.
  destruct (counter_lookup_desc_inv set g1 _ (proj2 (proj1 HI1)) Hi1) as (d' & E' & Ep' & Eg').
  assert (d' = d) as -> by (unfold lookup_desc in E'; cbn in E'; congruence).
  change (put_of (subs g1)) with (put_of (subs g)) in *.
  change (get_of (subs g1)) with (get_of (subs g)) in *.
  pose proof HI as [[(_ & _ & _ & Hc) [_ Hs]] _]. specialize (Hc _ Hi1). cbn in Hc.
  destruct (Hs _ Hi1) as (_ & Egc & Hle).
  pose proof (count_ev_nonneg (Dec (thread_index l1)) (hist (subs g))).
  rewrite wrap_small by nia.
  destruct (Z.ltb_spec 0 (put_count d - get_count d)) as [Hpos|Hz].
  - destruct Hcase as [[Hlt Hne]|Hemp].
    2: { specialize (Hemp _ Hi1). cbn in Hemp. lia. }
    wp_locals. apply (cae_twp (thread_index l1) d _ (Dec (thread_index l1))); [done|done|..].
    { cbn. rewrite wrap_small by nia. done. }
    destruct (seq_apply (thread_id l1) (Dec (thread_index l1)) g1 d HI1 Hi1 Ed) as (HI2 & Ep2 & Eg2 & Et2).
    { cbn. lia. }
    set (g2 := set_subs _ g1) in *. cbn [event_index] in Ep2, Eg2.
    change (put_of (subs g1)) with (put_of (subs g)) in *.
    change (get_of (subs g1)) with (get_of (subs g)) in *.
    change (total set g1) with (total set g) in *.
    pose proof (total_nonneg g2 (proj2 (proj1 HI2))).
    assert (Hres : forall r, (if validatesize then r = 1 else
       r = u64 (u64 (put_count d - u64 (get_count d + 1)) * width set)) -> Q r g2 l1).
    { intros r Hr. apply HQ; [done|by split|done|lia|lia|].
      unfold good_result. destruct validatesize; [done|]. subst r.
      apply (estimate_result g2 (thread_index l1) (mkDesc (u64 (get_count d + 1)) (put_count d)) HI2 Hi1);
        [cbn; nia|cbn [put_count]; lia|cbn [get_count]]. rewrite wrap_small by nia. lia. }
    destruct validatesize; wp_locals; by apply Hres.
  - destruct Hcase as [[Hlt Hne]|Hemp]; [lia|].
    wp_locals. assert (Et : total set g = 0) by (apply total_zero_iff; [apply HI|done]).
    by apply HQ0.
Qed.

(** [counter_size] is exact. *)
Lemma counter_size_twp (Q : Z -> state -> tls -> Prop) g l :
  counters_inv set (subs g) -> total set g < 2 ^ 64 ->
  Q (total set g) g l -> twp (counter_size set) Q g l.
Proof.
  intros HI Hlim HQ. pose proof Hset as (Hw & _). pose proof HI as [_ Hs].
  set (f i := put_of (subs g) i - get_of (subs g) i).
  assert (Hf : forall j, 0 <= j < width set -> 0 <= f j)
    by (intros j Hj; specialize (Hs j Hj); unfold f; lia).
  eapply (wp_while solo 0%nat _ _ _ _ (fun n '(i, size) g1 l1 => g1 = g /\ l1 = l /\
    0 <= i <= width set /\ size = sum_upto f i /\ n = Z.to_nat (width set - i))).
  - split_and!; try done; lia.
  - intros n [i size] g1 l1 (-> & -> & Hi & -> & ->).
    destruct (Z.ltb_spec i (width set)) as [Hlt|Hge].
    + wp_locals. apply (counter_read_descriptor_twp set); [lia|done|]. intros d _ Ep Eg. wp_locals.
      pose proof (Hf i ltac:(lia)) as Hfi. rewrite Ep, Eg. fold (f i).
      pose proof (sum_upto_succ f i ltac:(lia)) as Esucc.
      pose proof (sum_upto_mono f (i + 1) (width set) ltac:(lia) Hf) as Hmono.
      pose proof (sum_upto_nonneg f i ltac:(lia) ltac:(intros; apply Hf; lia)).
      change (sum_upto f (width set)) with (total set g) in Hmono.
      rewrite (wrap_small 64 (f i)), !wrap_small by lia.
      eexists. split; [|split_and!; try done]; lia.
    + wp_locals. by replace i with (width set) in * by lia.
Qed.
End sequential.

(** ** Whole runs *)

Section runs.
Context (nt w d k rb : Z) (set : ds_t) (g0 : state).
Context (Hcreate : create_counter nt w d k rb = Some (set, g0)) (Hset : ds_ok set).
Context (ops : list op) (l0 : tls) (Hl0 : local_ok set 0 l0).
Context (Hbound : width set * ((Z.of_nat (length ops) + 1) * depth set) < 2 ^ 64).

Lemma counter_create_seq_inv : seq_inv set g0 /\ global_PWindow g0 = 0 /\ total set g0 = 0.
Proof.
  pose proof (create_counter_inv _ _ _ _ _ _ _ Hcreate Hset) as HI.
  pose proof Hset as (Hw & Hd & _). revert Hcreate. unfold create_counter.
  destruct (calculate _ _ _ _ _ _ _ _ _) as [p|]; [|done]. intros [= <- <-]. cbn in Hw, Hd.
  assert (Hlk : forall i, 0 <= i < p_width p ->
    replicate (Z.to_nat (p_width p)) (mkDesc 0 0) !! Z.to_nat i = Some (mkDesc 0 0))
    by (intros; apply lookup_replicate; split; [done|lia]).
  split; [split; [done|]|split; [done|]].
  - intros i Hi. cbn. unfold get_of; cbn. rewrite Hlk by done. cbn. cbn in Hd. lia.
  - unfold total; cbn. rewrite (sum_upto_ext _ (fun _ => 0)).
    + rewrite sum_upto_const; lia.
    + intros i Hi. unfold put_of, get_of; cbn. by rewrite Hlk.
Qed.

(** What holds after the operations [done], with their results. *)
Definition seq_account (out : Z -> op -> Z) (R : Z -> Z -> Prop)
    (done : list (op * Z)) (g : state) (l : tls) : Prop :=
  ref_account out R done (total set g) /\ seq_inv set g /\ local_ok set 0 l /\
  global_PWindow g <= Z.of_nat (length done) * depth set.

Lemma seq_account_snoc out R done o r g g' l l' :
  seq_account out R done g l -> R r (out (total set g) o) ->
  seq_inv set g' -> local_ok set 0 l' -> global_PWindow g' <= global_PWindow g + depth set ->
  total set g' = count_step (total set g) o ->
  seq_account out R (done ++ [(o, r)]) g' l'.
Proof.
  intros (HA & HI & Hl & HP) Hr HI' Hl' HP' Ht'. unfold seq_account. rewrite Ht', length_app.
  cbn [length]. split_and!; [by apply ref_account_snoc|done|done|lia].
Qed.

(** The results of a run, against the reference outputs. *)
Lemma seq_run validatesize (out : Z -> op -> Z) (R : Z -> Z -> Prop) :
  (forall g r, good_result set validatesize g r ->
     forall n o, total set g = count_step n o -> (o = Decrement -> n <> 0) -> R r (out n o)) ->
  R 0 (out 0 Decrement) ->
  exists n rs g l,
    (forall m, (n <= m)%nat -> run m (run_ops (exec_op validatesize set) ops) g0 l0 = Finished rs g l) /\
    Forall2 R rs (ref_run out 0 ops) /\ seq_inv set g /\ total set g = ref_value ops /\
    local_ok set 0 l.
Proof.
  intros HR HR0. destruct counter_create_seq_inv as (HI0 & HP0 & Ht0).
  pose proof Hset as (Hw & Hd & _).
  destruct (twp_run (run_ops (exec_op validatesize set) ops) (fun rs g l =>
      length rs = length ops /\ seq_account out R ([] ++ zip ops rs) g l) g0 l0)
    as (n & rs & g & l & Hrun & Hlen & HJ).
  - apply (wp_run_ops_upto solo 0%nat (exec_op validatesize set) (length ops) (seq_account out R));
      [|cbn; lia|].
    2: { split; [rewrite Ht0; apply ref_account_nil|]. cbn. split_and!; (done || lia). }
    intros done o g l Hlt HJ. pose proof HJ as (_ & HI & Hl & HP).
    assert (Hlim : width set * (global_PWindow g + depth set) < 2 ^ 64) by nia.
    destruct o; cbn [exec_op].
    + apply (increment_twp set Hset); [done|done|done|]. intros r g' l' HI' Hl' HP' Ht' Hr.
      eapply seq_account_snoc; try done. by eapply HR.
    + apply (decrement_twp set Hset); [done|nia|done|..].
      * intros r g' l' HI' Hl' HP' Hpos Ht' Hr.
        assert (E : total set g' = count_step (total set g) Decrement)
          by (cbn; destruct (Z.eqb_spec (total set g) 0); lia).
        eapply seq_account_snoc; try done; [|lia]. eapply HR; [done..|]. intros _. lia.
      * intros g' l' HI' Hl' HP' Hz Ht'. eapply seq_account_snoc; try done; [by rewrite Hz|lia|].
        rewrite Hz. cbn. lia.
  - exists n, rs, g, l. split; [done|]. cbn [app] in HJ. destruct HJ as ([HF Ht] & HI & Hl & _).
    rewrite fst_zip in HF, Ht by lia. rewrite snd_zip in HF by lia. done.
Qed.

(** C22. Used by one thread the relaxed counter is a counter up to its relaxation: built
    with [VALIDATESIZE] every run terminates, an operation fails exactly when an
    ordinary counter is empty, and [counter_size] then returns the exact value;
    without [VALIDATESIZE] each operation returns an estimate of the value, [width]
    times that of one sub-counter, that is off by at most [2 * depth * (width - 1)],
    which in the modes 1, 2 and 3 is within the relaxation bound the counter was
    created for. *)
Theorem counter2Dd_sequential :
  (exists n rs g l,
    (forall m, (n <= m)%nat -> run m (run_ops (exec_op true set) ops) g0 l0 = Finished rs g l) /\
    rs = ref_run did 0 ops /\
    exists n' g' l', forall m, (n' <= m)%nat ->
      run m (counter_size set) g l = Finished (ref_value ops) g' l') /\
  (exists n rs g l,
    (forall m, (n <= m)%nat -> run m (run_ops (exec_op false set) ops) g0 l0 = Finished rs g l) /\
    Forall2 (fun r v => Z.abs (r - v) <= 2 * depth set * (width set - 1)) rs
      (ref_run count_step 0 ops)) /\
  (args_ok 2 64 64 nt w d rb -> 1 <= k <= 3 ->
   2 * depth set * (width set - 1) <= relaxation_bound set <= rb).
Proof.
  split; [|split].
  - destruct (seq_run true did eq) as (n & rs & g & l & Hrun & HF & HI & Ht & Hl).
    + unfold good_result. intros g r -> n o _ Ho. destruct o; cbn; [done|].
      destruct (Z.eqb_spec n 0); [by destruct (Ho eq_refl)|done].
    + done.
    + exists n, rs, g, l. split; [done|]. split; [by apply list_eq_Forall2|].
      destruct (twp_run (counter_size set) (fun r _ _ => r = total set g) g l)
        as (n' & r & g' & l' & Hrun' & ->).
      * apply (counter_size_twp set Hset); [apply HI| |done]. rewrite Ht.
        pose proof Hset as (? & ? & _). pose proof (ref_value_le ops). nia.
      * exists n', g', l'. intros m Hm. rewrite <- Ht. by apply Hrun'.
  - destruct (seq_run false count_step (fun r v => Z.abs (r - v) <= 2 * depth set * (width set - 1)))
      as (n & rs & g & l & Hrun & HF & _).
    + unfold good_result. intros g r Hr n o Ht _. by rewrite <- Ht.
    + cbn. pose proof Hset as (? & ? & _). nia.
    + by exists n, rs, g, l.
  - intros Hargs Hk.
    destruct (calculate_bound 2 64 64 (product_u64 2) nt w d k rb Hargs Hk) as (p & E & Hp).
    revert Hcreate. unfold create_counter. rewrite E. intros [= <- _]. cbn. lia.
Qed.
End runs.

(** ** Concrete runs *)

Definition example_seq_ops : list op := [Increment; Increment; Decrement; Decrement; Decrement].

Lemma counter2Dd_sequential_witness :
  (exists n rs g l,
    (forall m, (n <= m)%nat -> run m (run_ops (exec_op true (mkDs 2 2 3 6 1)) example_seq_ops)
      example_mem (tls0 0) = Finished rs g l) /\
    rs = [1; 1; 1; 1; 0] /\
    exists n' g' l', forall m, (n' <= m)%nat ->
      run m (counter_size (mkDs 2 2 3 6 1)) g l = Finished 0 g' l') /\
  (exists n rs g l,
    (forall m, (n <= m)%nat -> run m (run_ops (exec_op false (mkDs 2 2 3 6 1)) example_seq_ops)
      example_mem (tls0 0) = Finished rs g l) /\
    Forall2 (fun r v => Z.abs (r - v) <= 6) rs [1; 2; 1; 0; 0]) /\
  (args_ok 2 64 64 1 2 3 6 -> 1 <= 1 <= 3 -> 2 * 3 * (2 - 1) <= 6 <= 6).
Proof.
  apply (counter2Dd_sequential 1 2 3 1 6 (mkDs 2 2 3 6 1) example_mem eq_refl).
  - unfold ds_ok; cbn; lia.
  - split; cbn; lia.
  - vm_compute. reflexivity.
Defined.
