(* ===== verification/StackHeap.v ===== *)
(** The linked nodes of the stacks ([node_t] with [key], [val], [next]) in
    shared memory: allocation, publication by a compare-and-exchange, and the
    chains hanging off the descriptors.

    Nodes come from ssmem/ssalloc, of which only this is used: an allocation
    returns a non-null address that no node in use has.  Freed nodes keep
    their contents, as ssmem only reuses memory no thread can still refer to. *)
From S2P Require Import Prelude.

(** ** Allocation *)

Class Allocator (N : Type) := {
  alloc_addr : gmap Z N -> Z;
  alloc_addr_ok h : alloc_addr h <> 0 /\ h !! alloc_addr h = None;
}.

(** A concrete allocator, for examples: the address after the largest one. *)
Definition bump_addr {N} (h : gmap Z N) : Z :=
  1 + foldr (fun p m => Z.max p.1 m) 0 (map_to_list h).

Lemma bump_addr_ok {N} (h : gmap Z N) : bump_addr h <> 0 /\ h !! bump_addr h = None.
Proof.
  unfold bump_addr. set (f := fun (p : Z * N) m => Z.max p.1 m).
  assert (Hb : forall xs, 0 <= foldr f 0 xs /\ forall p, In p xs -> p.1 <= foldr f 0 xs).
  { intros xs. induction xs as [|x xs [IH0 IH]]; cbn [foldr]; [done|].
    change (f x (foldr f 0 xs)) with (Z.max x.1 (foldr f 0 xs)).
    split; [lia|]. intros p [->|Hp]; [lia|]. specialize (IH p Hp). lia. }
  destruct (Hb (map_to_list h)) as [H0 H]. split; [lia|].
  destruct (h !! (1 + foldr f 0 (map_to_list h))) as [n|] eqn:E; [|done].
  apply elem_of_map_to_list in E. apply list_elem_of_In in E. specialize (H _ E). cbn in H. lia.
Qed.

Definition bump_allocator (N : Type) : Allocator N :=
  {| alloc_addr := bump_addr; alloc_addr_ok := bump_addr_ok |}.

(** ** Nodes *)

Record node_t := mkNode { key : Z; val : Z; next : Z }.

(** What the chains need of a node type: some stacks' nodes have more fields;
    [n_pos n k] is what the other fields of a node with [k] elements below it
    satisfy. *)
Class NodeOps (N : Type) := { n_val : N -> Z; n_next : N -> Z; n_pos : N -> Z -> Prop }.
#[export] Instance node_ops : NodeOps node_t :=
  {| n_val := val; n_next := next; n_pos _ _ := True |}.

(** The heap; [priv] is the ghost owner of the nodes not yet published. *)
Record memory_of (N : Type) := mkMem { nodes : gmap Z N; priv : gmap Z nat }.
Arguments mkMem {N}.
Arguments nodes {N}.
Arguments priv {N}.
Notation memory := (memory_of node_t).

Section heap.
Context {N : Type} {nops : NodeOps N}.
Notation memory := (memory_of N).

Definition published (m : memory) (a : Z) : Prop :=
  is_Some (nodes m !! a) /\ priv m !! a = None.

Definition mem_ok (m : memory) : Prop :=
  nodes m !! 0 = None /\ forall a t, priv m !! a = Some t -> is_Some (nodes m !! a).

(** The pointer is NULL or to a published node. *)
Definition ptr_ok (m : memory) (a : Z) : Prop := a = 0 \/ published m a.

(** The values of the nodes linked from [p], first one first. *)
Fixpoint chain (m : memory) (p : Z) (vs : list Z) : Prop :=
  match vs with
  | [] => p = 0
  | v :: vs => p <> 0 /\ priv m !! p = None /\
      exists n, nodes m !! p = Some n /\ n_val n = v /\ n_pos n (Z.of_nat (length vs)) /\
        chain m (n_next n) vs
  end.

(** *** What each thread may do, and what it may rely on *)

Definition keeps (m m' : memory) (o : option nat) : Prop :=
  forall a n, nodes m !! a = Some n -> priv m !! a = o ->
    nodes m' !! a = Some n /\ priv m' !! a = o.

Definition mem_rely (t : nat) (m m' : memory) : Prop :=
  keeps m m' None /\ keeps m m' (Some t).
Definition mem_guar (t : nat) (m m' : memory) : Prop :=
  keeps m m' None /\ forall u, u <> t -> keeps m m' (Some u).

Lemma keeps_refl m o : keeps m m o.
Proof. by intros a n. Qed.
Lemma keeps_trans m1 m2 m3 o : keeps m1 m2 o -> keeps m2 m3 o -> keeps m1 m3 o.
Proof. intros H1 H2 a n E P. destruct (H1 a n E P). by apply H2. Qed.
#[local] Hint Resolve keeps_refl : core.

Lemma mem_rely_refl t m : mem_rely t m m.
Proof. by split. Qed.
Lemma mem_rely_trans t m1 m2 m3 : mem_rely t m1 m2 -> mem_rely t m2 m3 -> mem_rely t m1 m3.
Proof. intros [] []. split; by eapply keeps_trans. Qed.
Lemma mem_guar_refl t m : mem_guar t m m.
Proof. by split. Qed.
Lemma mem_guar_rely t u m m' : t <> u -> mem_guar u m m' -> mem_rely t m m'.
Proof. intros ? [H1 H2]. split; [done|by apply H2]. Qed.
#[local] Hint Resolve mem_rely_refl mem_guar_refl : core.

Lemma ptr_ok_keeps m m' a : keeps m m' None -> ptr_ok m a -> ptr_ok m' a.
Proof.
  intros H [->|[[n E] P]]; [by left|right]. destruct (H a n E P). by split.
Qed.

Lemma chain_keeps m m' p vs : keeps m m' None -> chain m p vs -> chain m' p vs.
Proof.
  intros H. revert p. induction vs as [|v vs IH]; intros p; cbn; [done|].
  intros (? & P & n & E & ? & ? & Hc). destruct (H p n E P) as [E' P'].
  split_and!; try done. exists n. split_and!; auto.
Qed.

Lemma chain_ptr_ok m p vs : chain m p vs -> ptr_ok m p.
Proof.
  destruct vs; cbn; [by left|]. intros (? & P & n & E & _). right. by split.
Qed.

(** A published non-null pointer can be followed. *)
Lemma ptr_ok_node m a : ptr_ok m a -> a <> 0 -> exists n, nodes m !! a = Some n /\ priv m !! a = None.
Proof. intros [?|[[n E] P]] ?; [done|]. eauto. Qed.

Lemma chain_cons m p n vs :
  chain m p vs -> p <> 0 -> nodes m !! p = Some n ->
  exists vs', vs = n_val n :: vs' /\ chain m (n_next n) vs'.
Proof.
  destruct vs as [|v vs]; cbn; [done|]. intros (_ & _ & n' & E & <- & _ & Hc) _ E'.
  assert (n' = n) as -> by congruence. eauto.
Qed.

Lemma chain_pos m p n vs :
  chain m p vs -> p <> 0 -> nodes m !! p = Some n -> n_pos n (Z.of_nat (length vs) - 1).
Proof.
  destruct vs as [|v vs]; cbn [chain]; [done|]. intros (_ & _ & n' & E & _ & Hpos & _) _ E'.
  assert (n' = n) as -> by congruence.
  by replace (Z.of_nat (length (v :: vs)) - 1) with (Z.of_nat (length vs)) by (cbn [length]; lia).
Qed.

(** The pointers of a published chain are to published nodes. *)
Lemma chain_next_ok m p n vs :
  chain m p vs -> p <> 0 -> nodes m !! p = Some n -> ptr_ok m (n_next n).
Proof. intros Hc Hp E. destruct (chain_cons m p n vs Hc Hp E) as (? & _ & ?). by eapply chain_ptr_ok. Qed.

(** *** The three steps of a node's life *)

Definition mem_alloc (t : nat) (a : Z) (n : N) (m : memory) : memory :=
  mkMem (<[a := n]> (nodes m)) (<[a := t]> (priv m)).
Definition mem_write (a : Z) (n : N) (m : memory) : memory :=
  mkMem (<[a := n]> (nodes m)) (priv m).
Definition mem_publish (a : Z) (m : memory) : memory :=
  mkMem (nodes m) (delete a (priv m)).

Lemma mem_alloc_ok t a n m :
  mem_ok m -> a <> 0 -> nodes m !! a = None ->
  let m' := mem_alloc t a n m in
  mem_ok m' /\ keeps m m' None /\ forall u, keeps m m' (Some u).
Proof.
  intros [H0 Hp] Ha E. cbn.
  assert (Hk : forall o, keeps m (mem_alloc t a n m) o).
  { intros o b nb Eb Pb. assert (a <> b) by congruence.
    cbn. by rewrite !lookup_insert_ne. }
  split_and!; auto. split; cbn.
  - by rewrite lookup_insert_ne.
  - intros b u. destruct (decide (a = b)) as [->|]; [intros _; rewrite lookup_insert_eq; eauto|].
    rewrite !lookup_insert_ne by done. eauto.
Qed.

Lemma mem_write_ok t a n m :
  mem_ok m -> priv m !! a = Some t ->
  let m' := mem_write a n m in mem_ok m' /\ mem_guar t m m'.
Proof.
  intros [H0 Hp] Pa. cbn. assert (a <> 0) by (intros ->; destruct (Hp _ _ Pa); congruence).
  split; split; cbn.
  - by rewrite lookup_insert_ne.
  - intros b u Pb. destruct (decide (a = b)) as [->|]; [rewrite lookup_insert_eq; eauto|].
    rewrite lookup_insert_ne by done. eauto.
  - intros b nb Eb Pb. assert (a <> b) by congruence. cbn. by rewrite lookup_insert_ne.
  - intros u Hu b nb Eb Pb. assert (a <> b) by congruence. cbn. by rewrite lookup_insert_ne.
Qed.

Lemma mem_publish_ok t a m :
  mem_ok m -> priv m !! a = Some t ->
  let m' := mem_publish a m in mem_ok m' /\ mem_guar t m m'.
Proof.
  intros [H0 Hp] Pa. cbn. split; split; cbn.
  - done.
  - intros b u Pb. apply lookup_delete_Some in Pb as [_ Pb]. eauto.
  - intros b nb Eb Pb. assert (a <> b) by congruence. cbn. by rewrite lookup_delete_ne.
  - intros u Hu b nb Eb Pb. assert (a <> b) by congruence. cbn. by rewrite lookup_delete_ne.
Qed.

Lemma chain_publish m a n vs :
  mem_ok m -> is_Some (priv m !! a) -> nodes m !! a = Some n -> chain m (n_next n) vs ->
  n_pos n (Z.of_nat (length vs)) -> chain (mem_publish a m) a (n_val n :: vs).
Proof.
  intros [H0 Hp] [t Pa] E Hc Hpos. cbn. rewrite lookup_delete_eq.
  split; [congruence|split; [done|]]. exists n. split_and!; try done.
  eapply chain_keeps; [|done]. apply (mem_publish_ok t a m); [by split|done].
Qed.
End heap.
#[export] Hint Resolve keeps_refl mem_rely_refl mem_guar_refl : core.

(** ** The history of the sub-stacks

    One event per successful push or pop, newest first: the abstract state of
    sub-stack [i] is what replaying its events on an empty list gives. *)
Inductive event := Push (i v : Z) | Pop (i v : Z).

#[export] Instance event_eq_dec : EqDecision event.
Proof. solve_decision. Defined.

Definition event_index (e : event) : Z := match e with Push i _ | Pop i _ => i end.

Fixpoint contents (i : Z) (h : list (nat * event)) : list Z :=
  match h with
  | [] => []
  | (_, Push j v) :: h => if decide (j = i) then v :: contents i h else contents i h
  | (_, Pop j _) :: h => if decide (j = i) then tail (contents i h) else contents i h
  end.

(** Every pop took the value on top of its sub-stack. *)
Fixpoint legal (h : list (nat * event)) : Prop :=
  match h with
  | [] => True
  | (_, Push _ _) :: h => legal h
  | (_, Pop i v) :: h => head (contents i h) = Some v /\ legal h
  end.

(** The number of pushes to, and pops from, sub-stack [i]. *)
Definition is_push (i : Z) (x : nat * event) : bool :=
  match x.2 with Push j _ => bool_decide (j = i) | _ => false end.
Definition is_pop (i : Z) (x : nat * event) : bool :=
  match x.2 with Pop j _ => bool_decide (j = i) | _ => false end.
Fixpoint count (p : nat * event -> bool) (h : list (nat * event)) : Z :=
  match h with [] => 0 | x :: h => (if p x then 1 else 0) + count p h end.

Definition events_of (t : nat) (h : list (nat * event)) : list event :=
  (filter (fun x => x.1 = t) h).*2.

Lemma events_of_cons t u e h :
  events_of t ((u, e) :: h) = if decide (u = t) then e :: events_of t h else events_of t h.
Proof. unfold events_of. rewrite filter_cons. cbn. by destruct (decide (u = t)). Qed.

Lemma count_nonneg p h : 0 <= count p h.
Proof. induction h as [|x h IH]; cbn; [lia|]. destruct (p x); lia. Qed.

Lemma contents_length i h :
  legal h -> Z.of_nat (length (contents i h)) = count (is_push i) h - count (is_pop i) h.
Proof.
  induction h as [|[t [j v|j v]] h IH]; cbn; [done|..].
  - intros Hl. unfold is_push at 1, is_pop at 1; cbn. fold (is_push i) (is_pop i).
    rewrite bool_decide_decide.
    specialize (IH Hl). destruct (decide (j = i)); cbn [length]; lia.
  - intros [Hv Hl]. unfold is_push at 1, is_pop at 1; cbn. fold (is_push i) (is_pop i).
    rewrite bool_decide_decide.
    specialize (IH Hl). destruct (decide (j = i)) as [->|]; cbn; [|lia].
    destruct (contents i h); cbn in *; [done|lia].
Qed.

(** Conservation: the values of a sub-stack and those popped from it are the
    values pushed to it. *)
Fixpoint pushed (i : Z) (h : list (nat * event)) : list Z :=
  match h with
  | [] => []
  | (_, Push j v) :: h => if decide (j = i) then v :: pushed i h else pushed i h
  | _ :: h => pushed i h
  end.
Fixpoint popped (i : Z) (h : list (nat * event)) : list Z :=
  match h with
  | [] => []
  | (_, Pop j v) :: h => if decide (j = i) then v :: popped i h else popped i h
  | _ :: h => popped i h
  end.

Lemma contents_permutation i h :
  legal h -> Permutation (pushed i h) (contents i h ++ popped i h).
Proof.
  induction h as [|[t [j v|j v]] h IH]; cbn; [done|..].
  - intros Hl. destruct (decide (j = i)); cbn; [constructor|]; auto.
  - intros [Hv Hl]. destruct (decide (j = i)) as [->|]; [|auto].
    rewrite (IH Hl). destruct (contents i h); cbn in *; [done|].
    injection Hv as ->. apply Permutation_middle.
Qed.
