(* ===== verification/LifoOrder.v ===== *)
(** The order of pushes over an array of stacks: the elements of all sub-stacks in
    one list, the newest first, from which a pop takes the newest element of its
    sub-stack.  An element is its sub-stack, its row and what else is kept of
    it. *)
From S2P Require Import Prelude.
From Stdlib Require Import Sorted.

Notation on i xs := (filter (fun x => x.1.1 = i) xs).

Section order.
Context {X : Type}.
Implicit Types (x y : Z * Z * X) (xs : list (Z * Z * X)).

(** Taking the newest element of sub-stack [i] away. *)
Fixpoint drop_top (i : Z) (xs : list (Z * Z * X)) : list (Z * Z * X) :=
  match xs with
  | [] => []
  | x :: xs => if decide (x.1.1 = i) then xs else x :: drop_top i xs
  end.

Lemma drop_top_same i xs : on i (drop_top i xs) = tail (on i xs).
Proof.
  induction xs as [|x xs IH]; [done|]. cbn [drop_top]. rewrite (filter_cons _ x xs).
  destruct (decide (x.1.1 = i)) as [E|E]; [done|]. by rewrite filter_cons_False.
Qed.

Lemma drop_top_other i j xs : j <> i -> on j (drop_top i xs) = on j xs.
Proof.
  intros Hne. induction xs as [|x xs IH]; [done|]. cbn [drop_top].
  destruct (decide (x.1.1 = i)) as [E|E].
  - by rewrite filter_cons_False by congruence.
  - rewrite !filter_cons. by rewrite IH.
Qed.

(** The newest element of sub-stack [i], in the push order. *)
Lemma drop_top_split i x rest xs :
  on i xs = x :: rest ->
  exists pre post, xs = pre ++ x :: post /\ (forall y, y ∈ pre -> y.1.1 <> i) /\
    drop_top i xs = pre ++ post.
Proof.
  induction xs as [|y xs IH]; cbn [drop_top]; [done|]. rewrite filter_cons.
  destruct (decide (y.1.1 = i)) as [E|E].
  - intros [= -> _]. exists [], xs. split_and!; [done|by intros y' ?%elem_of_nil|done].
  - intros H. destruct (IH H) as (pre & post & -> & Hpre & ->). exists (y :: pre), post.
    split_and!; [done| |done]. intros y' [->|Hy]%elem_of_cons; auto.
Qed.

(** The push order has as many elements as the sub-stacks together. *)
Lemma on_total w xs :
  0 <= w -> (forall x, x ∈ xs -> 0 <= x.1.1 < w) ->
  sum_upto (fun i => Z.of_nat (length (on i xs))) w = Z.of_nat (length xs).
Proof.
  intros Hw. induction xs as [|x xs IH]; intros Hr.
  - rewrite (sum_upto_ext _ (fun _ => 0)), sum_upto_const by (done || lia). cbn. lia.
  - rewrite (sum_upto_bump (fun i => Z.of_nat (length (on i xs))) _ x.1.1 1).
    + rewrite IH by (intros y Hy; apply Hr; by right). cbn [length]. lia.
    + apply Hr. by left.
    + intros j Hj. rewrite filter_cons. destruct (Z.eqb_spec j x.1.1) as [E|E].
      * rewrite decide_True by done. cbn [length]. lia.
      * rewrite decide_False by congruence. lia.
Qed.

End order.

Lemma sorted_remove {Y} (R : Y -> Y -> Prop) pre x post :
  StronglySorted R (pre ++ x :: post) ->
  StronglySorted R (pre ++ post) /\ forall y, y ∈ pre -> R y x.
Proof.
  induction pre as [|z pre IH]; cbn; intros Hs; apply StronglySorted_inv in Hs as [Hs Hf].
  - split; [done|]. by intros y ?%elem_of_nil.
  - destruct (IH Hs) as [H1 H2]. rewrite Forall_forall in Hf. split.
    + constructor; [done|]. apply Forall_forall. intros y Hy. apply Hf. set_solver.
    + intros y [->|Hy]%elem_of_cons; [|by apply H2]. apply Hf. set_solver.
Qed.
