(* ===== verification/Stack2Dd.v ===== *)
(** src/2Dd-stack/2Dd-stack.c: the relaxed stack made of [width] Treiber
    stacks, each a descriptor (top node, put count, get count) updated by one
    compare-and-exchange. *)
From S2P Require Import Prelude Conc Random Thread Params Window2Dd StackHeap.

(** ** State *)

Record descriptor_t := mkDesc { node : Z; put_count : Z; get_count : Z }.

#[export] Instance descriptor_eq_dec : EqDecision descriptor_t.
Proof. solve_decision. Defined.

(** [get_array = put_array]: one array.  [hist] is the history variable. *)
Record stacks := mkStacks {
  array : list descriptor_t;
  heap : memory;
  hist : list (nat * event);
}.

Notation state := (shared stacks).
Notation MS := (prog state tls).

Definition lookup_desc (i : Z) (g : state) : option descriptor_t :=
  array (subs g) !! Z.to_nat i.
Definition lookup_node (a : Z) (g : state) : option node_t := nodes (heap (subs g)) !! a.

Definition set_heap (m : memory) (g : state) : state :=
  set_subs (mkStacks (array (subs g)) m (hist (subs g))) g.

(** ** Operations *)

Section code.
Context {A : Allocator node_t}.

(** The copy of a descriptor is one load per field. *)
Definition read_descriptor (i : Z) : MS descriptor_t :=
  let* n := load (fun g => node <$> lookup_desc i g) in
  let* pc := load (fun g => put_count <$> lookup_desc i g) in
  let* gc := load (fun g => get_count <$> lookup_desc i g) in
  Ret (mkDesc n pc gc).

#[export] Instance stack_ops : SubOps stacks descriptor_t :=
  {| put_descriptor := read_descriptor;
     get_descriptor := read_descriptor;
     put_count_at i := load (fun g => put_count <$> lookup_desc i g);
     d_put_count := put_count;
     d_get_count := get_count |}.

(** [create_node]: the node is private to the thread until it is pushed. *)
Definition create_node (k v nxt : Z) : MS Z :=
  Act (fun g l =>
    let m := heap (subs g) in
    let a := alloc_addr (nodes m) in
    Some (a, set_heap (mem_alloc (thread_id l) a (mkNode k v nxt) m) g, l)) Ret.

(** [n->next = p]. *)
Definition store_next (a p : Z) : MS unit :=
  update (fun g _ =>
    n ← lookup_node a g;
    Some (tt, set_heap (mem_write a (mkNode (key n) (val n) p) (heap (subs g))) g)).

(** [CAE(&set->array[i].descriptor, &d, &new)]; on success the history records
    the push of [new.node] or the pop of [d.node]. *)
Definition do_cae (i : Z) (d new : descriptor_t) (is_push : bool) : MS bool :=
  Act (fun g l =>
    cur ← lookup_desc i g;
    if decide (cur = d) then
      let m := heap (subs g) in
      let v a := from_option val 0 (nodes m !! a) in
      Some (true,
            set_subs (mkStacks (<[Z.to_nat i := new]> (array (subs g)))
                        (if is_push then mem_publish (node new) m else m)
                        ((thread_id l, if is_push then Push i (v (node new))
                                       else Pop i (v (node d))) :: hist (subs g))) g, l)
    else Some (false, g, l)) Ret.

Definition push_body (set : ds_t) (new_node : Z) (contention : bool) : MS (bool + Z) :=
  let* descriptor := put_window set contention in
  store_next new_node (node descriptor) ;;;
  let new_descriptor :=
    mkDesc new_node (u32 (put_count descriptor + 1)) (get_count descriptor) in
  let* index := get thread_index in
  let* ok := do_cae index descriptor new_descriptor true in
  if ok then break 1
  else
    put (count_stat inc_put_cas_fail) ;;;
    continue true.

Definition push (set : ds_t) (k v : Z) : MS Z :=
  let* new_node := create_node k v 0 in
  while (push_body set new_node) false.

Definition pop_body (set : ds_t) (contention : bool) : MS (bool + Z) :=
  let* descriptor := get_window set contention in
  if negb (node descriptor =? 0) then
    let* nxt := load (fun g => next <$> lookup_node (node descriptor) g) in
    let new_descriptor :=
      mkDesc nxt (put_count descriptor) (u32 (get_count descriptor + 1)) in
    let* index := get thread_index in
    let* ok := do_cae index descriptor new_descriptor false in
    if ok then
      let* node_val := load (fun g => val <$> lookup_node (node descriptor) g) in
      break node_val
    else
      put (count_stat inc_get_cas_fail) ;;;
      continue true
  else
    put (count_stat inc_null) ;;;
    break 0.

Definition pop (set : ds_t) : MS Z := while (pop_body set) false.

(** [stack_size]: the loop over the sub-stacks, and over the nodes of each. *)
Definition stack_size (set : ds_t) : MS Z :=
  while (fun '(i, size) =>
    if i <? width set then
      let* n := load (fun g => node <$> lookup_desc i g) in
      let* size := while (fun '(n, size) =>
        if negb (n =? 0) then
          let* nxt := load (fun g => next <$> lookup_node n g) in
          continue (nxt, u64 (size + 1))
        else break size) (n, size) in
      continue (u64 (i + 1), size)
    else break size) (0, 0).

(** A client's call. *)
Inductive op := DoPush (k v : Z) | DoPop.

Definition exec_op (set : ds_t) (o : op) : MS Z :=
  match o with DoPush k v => push set k v | DoPop => pop set end.

Definition create_stack (num_threads width depth k_mode relaxation_bound : Z)
    : option (ds_t * state) :=
  p ← calculate 3 64 64 (product_u64 3) num_threads width depth k_mode relaxation_bound;
  let set := mkDs 2 (p_width p) (p_depth p) (p_bound p) k_mode in
  Some (set, mkShared 0 0
               (mkStacks (replicate (Z.to_nat (p_width p)) (mkDesc 0 0 0)) (mkMem ∅ ∅) [])).
End code.

(** ** Protocol *)

Definition put_of (s : stacks) (i : Z) : Z :=
  from_option put_count 0 (array s !! Z.to_nat i).
Definition get_of (s : stacks) (i : Z) : Z :=
  from_option get_count 0 (array s !! Z.to_nat i).

(** Every sub-stack is exactly what the history says. *)
Definition stacks_inv (set : ds_t) (s : stacks) : Prop :=
  Z.of_nat (length (array s)) = width set /\ mem_ok (heap s) /\ legal (hist s) /\
  forall i d, 0 <= i -> array s !! Z.to_nat i = Some d ->
    chain (heap s) (node d) (contents i (hist s)) /\
    put_count d = count (is_push i) (hist s) /\ get_count d = count (is_pop i) (hist s).

Definition grows (s s' : stacks) : Prop :=
  (forall i, put_of s i <= put_of s' i) /\ (forall i, get_of s i <= get_of s' i).

Definition snapshot (i : Z) (d : descriptor_t) (s : stacks) : Prop :=
  ptr_ok (heap s) (node d) /\ 0 <= get_count d /\ 0 <= put_count d <= put_of s i.

#[export] Instance stack_proto : SubProto stacks descriptor_t :=
  {| putc := put_of;
     getc := get_of;
     linked := put_of;
     s_inv := stacks_inv;
     s_rely t s s' := grows s s' /\ mem_rely t (heap s) (heap s') /\
       events_of t (hist s') = events_of t (hist s);
     s_guar t s s' := grows s s' /\ mem_guar t (heap s) (heap s') /\
       (forall u, u <> t -> events_of u (hist s') = events_of u (hist s));
     snap_put := snapshot;
     snap_get := snapshot;
     s_limit := 2 ^ 32 |}.

Lemma sub_counts set s i d :
  stacks_inv set s -> 0 <= i -> array s !! Z.to_nat i = Some d ->
  0 <= get_count d <= put_count d /\
  Z.of_nat (length (contents i (hist s))) = put_count d - get_count d.
Proof.
  intros (_ & _ & Hl & H) Hi Hd. destruct (H i d Hi Hd) as (_ & -> & ->).
  pose proof (contents_length i (hist s) Hl). pose proof (count_nonneg (is_pop i) (hist s)). lia.
Qed.

Lemma stack_lookup_desc_inv set (g : state) i :
  stacks_inv set (subs g) -> 0 <= i < width set ->
  exists d, lookup_desc i g = Some d /\ put_count d = put_of (subs g) i /\
    get_count d = get_of (subs g) i.
Proof.
  intros (Hlen & _) Hi. unfold lookup_desc, put_of, get_of.
  destruct (lookup_lt_is_Some_2 (array (subs g)) (Z.to_nat i)) as [d E]; [lia|].
  exists d. by rewrite E.
Qed.

Lemma snapshot_rely t i d s1 s2 : snapshot i d s1 -> s_rely t s1 s2 -> snapshot i d s2.
Proof.
  intros (Hp & ? & ?) ((Hc & _) & (Hk & _) & _). specialize (Hc i).
  split; [by eapply ptr_ok_keeps|]. lia.
Qed.

#[export] Instance stack_proto_laws : SubProtoLaws stacks descriptor_t.
Proof.
  split; cbn; try done; unfold grows.
  - intros t s1 s2 s3 ([] & ? & ->) ([] & ? & ->). split_and!; [intros; etrans; eauto..| |done].
    by eapply mem_rely_trans.
  - intros set t u s1 s2 Htu _ (? & ? & H). split_and!; try apply H0; [by eapply mem_guar_rely|by apply H].
  - intros t s1 s2 i ([] & _). eauto.
  - intros t s1 s2 i ([] & _). eauto.
  - intros t s1 s2 i ([] & _). eauto.
  - intros t s1 s2 i ([] & _). eauto.
  - intros set s i Hs Hi.
    destruct (stack_lookup_desc_inv set (mkShared 0 0 s) i Hs Hi) as (d & E & Ep & Eg).
    cbn in Ep, Eg. pose proof (sub_counts set s i d Hs (proj1 Hi) E). lia.
  - intros t i d s1 s2 Hs Hr. by eapply (snapshot_rely t).
  - intros t i d s1 s2 Hs Hr. by eapply (snapshot_rely t).
Qed.

(** ** Reads *)

Section reads.
Context {A : Allocator node_t} (set : ds_t) (Hset : ds_ok set).
Notation W := (wprot set).

Lemma wp_load_desc {B} (f : descriptor_t -> B) t i (Q : B -> state -> tls -> Prop) g l :
  0 <= i < width set ->
  (forall g' d, p_rely W t g g' -> p_inv W g' -> lookup_desc i g' = Some d ->
     put_count d = put_of (subs g') i -> get_count d = get_of (subs g') i -> Q (f d) g' l) ->
  wp W t (load (fun g => f <$> lookup_desc i g)) Q g l.
Proof.
  intros Hi HQ. apply wp_load; [apply _|]. intros g1 R1 I1 O1.
  destruct (stack_lookup_desc_inv set g1 i (proj2 I1) Hi) as (d & E & Ep & Eg).
  exists (f d). rewrite E. split; [done|]. by apply HQ.
Qed.

Lemma desc_ptr_ok g i d :
  p_inv W g -> 0 <= i -> lookup_desc i g = Some d -> ptr_ok (heap (subs g)) (node d).
Proof.
  intros [_ (_ & _ & _ & H)] Hi E. eapply chain_ptr_ok. by apply (H i d Hi E).
Qed.

Lemma rely_ptr_ok t g g' a :
  p_rely W t g g' -> ptr_ok (heap (subs g)) a -> ptr_ok (heap (subs g')) a.
Proof. intros (_ & _ & _ & (Hk & _) & _). by apply ptr_ok_keeps. Qed.

Lemma wp_stack_read_descriptor t i (Q : descriptor_t -> state -> tls -> Prop) g l :
  0 <= i < width set ->
  (forall d g', p_rely W t g g' -> p_inv W g' -> snapshot i d (subs g') ->
     put_of (subs g) i <= put_count d -> get_count d <= get_of (subs g') i -> Q d g' l) ->
  wp W t (read_descriptor i) Q g l.
Proof.
  intros Hi HQ. unfold read_descriptor. wp_local.
  apply wp_load_desc; [done|]. intros g1 d1 R1 I1 E1 _ _. wp_local.
  apply wp_load_desc; [done|]. intros g2 d2 R2 I2 E2 Ep2 _. wp_local.
  apply wp_load_desc; [done|]. intros g3 d3 R3 I3 E3 _ Eg3. wp_local.
  pose proof (rely_putc set _ _ _ i R1). pose proof (rely_putc set _ _ _ i R2).
  pose proof (rely_putc set _ _ _ i R3). cbn [putc linked stack_proto] in *.
  pose proof (sub_counts set (subs g2) i d2 (proj2 I2) (proj1 Hi) E2).
  pose proof (sub_counts set (subs g3) i d3 (proj2 I3) (proj1 Hi) E3).
  assert (R13 := wrely_trans set Hset t g1 g2 g3 R2 R3).
  apply HQ; [exact (wrely_trans set Hset t g g1 g3 R1 R13)|done| |cbn [put_count]; lia|cbn [get_count]; lia].
  split; cbn [node put_count get_count]; [|lia].
  eapply rely_ptr_ok; [exact R13|]. eapply desc_ptr_ok; [exact I1|apply Hi|exact E1].
Qed.
End reads.

#[export] Instance stack_laws {A : Allocator node_t} : SubLaws stacks descriptor_t.
Proof.
  split; cbn [put_descriptor get_descriptor put_count_at stack_ops].
  - intros set t i Q g l Hset Hi HQ. apply wp_stack_read_descriptor; [done..|].
    intros d g' R I' Hs Hp Hg. apply HQ; try done. apply Hs.
  - intros set t i Q g l Hset Hi HQ. apply wp_stack_read_descriptor; [done..|].
    intros d g' R I' Hs Hp Hg. by apply HQ.
  - intros set t i Q g l Hset Hi HQ. apply wp_load_desc; [done..|].
    intros g' d R I' E Ep Eg. rewrite Ep. by apply HQ.
Qed.

(** ** The steps that change shared memory *)

Section steps.
Context {A : Allocator node_t} (set : ds_t) (Hset : ds_ok set).
Notation W := (wprot set).

Lemma stacks_inv_heap s m :
  stacks_inv set s -> mem_ok m -> keeps (heap s) m None ->
  stacks_inv set (mkStacks (array s) m (hist s)).
Proof.
  intros (Hlen & _ & Hl & H) Hm Hk. split_and!; try done. intros i d Hi Hd.
  destruct (H i d Hi Hd) as (? & ? & ?). split_and!; try done. by eapply chain_keeps.
Qed.

(** A change of the thread's own private nodes. *)
Lemma heap_step t m g :
  p_inv W g -> mem_ok m -> mem_guar t (heap (subs g)) m ->
  p_guar W t g (set_heap m g) /\ p_inv W (set_heap m g).
Proof.
  intros [Hw Hs] Hm Hg. pose proof Hset as (_ & ? & _). split.
  - split; [cbn; lia|split; [cbn; lia|]]. by split.
  - split; [exact Hw|]. apply stacks_inv_heap; [done..|apply Hg].
Qed.

(** Own private changes that keep what the thread itself relies on. *)
Lemma heap_rely t m g :
  mem_rely t (heap (subs g)) m -> p_rely W t g (set_heap m g).
Proof. intros H. split; [cbn; lia|split; [cbn; lia|]]. by split. Qed.

Lemma wp_stack_create_node t k v nxt (Q : Z -> state -> tls -> Prop) g l :
  thread_id l = t ->
  (forall a g', p_rely W t g g' -> priv (heap (subs g')) !! a = Some t ->
     lookup_node a g' = Some (mkNode k v nxt) -> Q a g' l) ->
  wp W t (create_node k v nxt) Q g l.
Proof.
  intros Ht HQ g1 R1 I1 _. rewrite Ht. cbv zeta.
  set (a := alloc_addr (nodes (heap (subs g1)))).
  destruct (alloc_addr_ok (nodes (heap (subs g1)))) as [Ha Hfresh]. fold a in Ha, Hfresh.
  pose proof (proj1 (proj2 (proj2 I1))) as Hmok.
  destruct (mem_alloc_ok t a (mkNode k v nxt) _ Hmok Ha Hfresh) as (Hm & Hk & Hku).
  destruct (heap_step t _ g1 I1 Hm) as [Hg HI]; [by split|].
  split; [done|split; [done|]]. apply HQ.
  - apply (wrely_trans set Hset t g g1 _ R1), heap_rely. by split.
  - apply lookup_insert_eq.
  - apply lookup_insert_eq.
Qed.

Lemma rely_own t g g' a n :
  p_rely W t g g' -> priv (heap (subs g)) !! a = Some t -> lookup_node a g = Some n ->
  priv (heap (subs g')) !! a = Some t /\ lookup_node a g' = Some n.
Proof. intros (_ & _ & _ & (_ & Hk) & _) P E. by destruct (Hk a n E P). Qed.

Lemma rely_published t g g' a n :
  p_rely W t g g' -> priv (heap (subs g)) !! a = None -> lookup_node a g = Some n ->
  priv (heap (subs g')) !! a = None /\ lookup_node a g' = Some n.
Proof. intros (_ & _ & _ & (Hk & _) & _) P E. by destruct (Hk a n E P). Qed.

(** Writing a private node's [next]: the other facts the thread knows (about
    published memory and the counts) stay true. *)
Lemma wp_store_next t a p k v q (Q : unit -> state -> tls -> Prop) g l :
  priv (heap (subs g)) !! a = Some t -> lookup_node a g = Some (mkNode k v q) ->
  (forall g', p_rely W t g g' -> 
     let g2 := set_heap (mem_write a (mkNode k v p) (heap (subs g'))) g' in
     keeps (heap (subs g')) (heap (subs g2)) None ->
     priv (heap (subs g2)) !! a = Some t -> lookup_node a g2 = Some (mkNode k v p) -> Q tt g2 l) ->
  wp W t (store_next a p) Q g l.
Proof.
  intros Pa Ea HQ g1 R1 I1 _. destruct (rely_own t g g1 a _ R1 Pa Ea) as [P1 E1].
  rewrite E1. cbn [mbind option_bind key val].
  destruct (mem_write_ok t a (mkNode k v p) _ (proj1 (proj2 (proj2 I1))) P1) as [Hm Hg].
  destruct (heap_step t _ g1 I1 Hm Hg) as [HG HI].
  split; [exact HG|split; [exact HI|]]. apply HQ; [done|apply Hg|exact P1|apply lookup_insert_eq].
Qed.

(** What justifies a successful compare-and-exchange: for a push, a private
    node linked to the old top and room in the put window; for a pop, the
    next of the old top. *)
Definition cae_allowed (t : nat) (g : state) (d new : descriptor_t) (push : bool) (v : Z) : Prop :=
  if push then
    (exists k, priv (heap (subs g)) !! node new = Some t /\
       lookup_node (node new) g = Some (mkNode k v (node d))) /\
    put_count new = u32 (put_count d + 1) /\ get_count new = get_count d /\
    put_count d < global_PWindow g
  else
    node d <> 0 /\ (exists k, lookup_node (node d) g = Some (mkNode k v (node new))) /\
    put_count new = put_count d /\ get_count new = u32 (get_count d + 1).

Definition after_cae (t : nat) (i : Z) (new : descriptor_t) (push : bool) (v : Z) (g : state) : state :=
  set_subs (mkStacks (<[Z.to_nat i := new]> (array (subs g)))
    (if push then mem_publish (node new) (heap (subs g)) else heap (subs g))
    ((t, if push then Push i v else Pop i v) :: hist (subs g))) g.

Lemma count_cons p x h : count p (x :: h) = (if p x then 1 else 0) + count p h.
Proof. done. Qed.

(** The counts move as the event says, without wrapping. *)
Lemma cae_counts t g i d new push v :
  p_inv W g -> p_ok W g -> 0 <= i < width set -> lookup_desc i g = Some d ->
  cae_allowed t g d new push v ->
  put_count new = put_count d + (if push then 1 else 0) /\
  get_count new = get_count d + (if push then 0 else 1) /\
  put_count new <= global_PWindow g.
Proof.
  intros [(_ & _ & _ & Hc) Hs] Ho Hi Hd Hal. cbn in Ho. pose proof Hset as (_ & Hdep & _).
  destruct (sub_counts set _ i d Hs (proj1 Hi) Hd) as [Hgp Hlen]. specialize (Hc i Hi).
  destruct (stack_lookup_desc_inv set g i Hs Hi) as (d' & E & Ep & _).
  assert (d' = d) as -> by congruence. cbn [putc linked stack_proto] in Hc.
  destruct push; cbn in Hal.
  - destruct Hal as (_ & -> & -> & ?). rewrite wrap_small by lia. lia.
  - destruct Hal as (Hn & [k E'] & -> & ->).
    destruct Hs as (_ & _ & _ & H). destruct (H i d (proj1 Hi) Hd) as (Hch & _).
    destruct (chain_cons _ _ _ _ Hch Hn E') as (vs & Evs & _). rewrite Evs in Hlen.
    cbn in Hlen. rewrite wrap_small by lia. lia.
Qed.

Lemma after_cae_sub t g i d new push v :
  p_inv W g -> p_ok W g -> 0 <= i < width set -> lookup_desc i g = Some d ->
  cae_allowed t g d new push v ->
  let s' := subs (after_cae t i new push v g) in
  mem_ok (heap s') /\ mem_guar t (heap (subs g)) (heap s') /\ legal (hist s') /\
  chain (heap s') (node new) (contents i (hist s')).
Proof.
  intros [_ (Hlen & Hm & Hl & H)] _ Hi Hd Hal. destruct (H i d (proj1 Hi) Hd) as (Hch & _ & _).
  destruct push; cbn in Hal |- *; rewrite decide_True by done.
  - destruct Hal as ([k [P E]] & _).
    destruct (mem_publish_ok t (node new) _ Hm P) as [Hm' Hg]. split_and!; try done.
    exact (chain_publish (heap (subs g)) (node new) (mkNode k v (node d)) _ Hm (ex_intro _ t P) E Hch I).
  - destruct Hal as (Hn & [k E] & _).
    destruct (chain_cons _ _ _ _ Hch Hn E) as (vs & Evs & Hc). rewrite Evs. by split_and!.
Qed.

Lemma after_cae_counts t g i d new push v j :
  p_inv W g -> p_ok W g -> 0 <= i < width set -> lookup_desc i g = Some d ->
  cae_allowed t g d new push v ->
  let s' := subs (after_cae t i new push v g) in
  let here := decide (Z.to_nat i = Z.to_nat j) in
  put_of s' j = put_of (subs g) j + (if here then if push then 1 else 0 else 0) /\
  get_of s' j = get_of (subs g) j + (if here then if push then 0 else 1 else 0).
Proof.
  intros HI Ho Hi Hd Hal.
  destruct (cae_counts t g i d new push v HI Ho Hi Hd Hal) as (Ep & Eg & _).
  unfold lookup_desc in Hd. cbn. unfold put_of, get_of; cbn. rewrite list_lookup_insert.
  assert (Hlt : (Z.to_nat i < length (array (subs g)))%nat) by (by eapply lookup_lt_Some).
  destruct (decide (Z.to_nat i = Z.to_nat j)) as [E|E].
  - rewrite decide_True by done. rewrite <- E, Hd. cbn. lia.
  - rewrite decide_False by (by intros [? _]). lia.
Qed.

Lemma cae_guar t g i d new push v :
  p_inv W g -> p_ok W g -> 0 <= i < width set -> lookup_desc i g = Some d ->
  cae_allowed t g d new push v ->
  p_guar W t g (after_cae t i new push v g).
Proof.
  intros HI Ho Hi Hd Hal. pose proof Hset as (_ & Hdep & _).
  assert (Hcnt := fun j => after_cae_counts t g i d new push v j HI Ho Hi Hd Hal).
  destruct (after_cae_sub t g i d new push v HI Ho Hi Hd Hal) as (_ & Hmg & _).
  split; [cbn; lia|split; [cbn; lia|split; [split|split; [done|]]]].
  - intros j. destruct (Hcnt j) as [-> _]. destruct (decide _), push; lia.
  - intros j. destruct (Hcnt j) as [_ ->]. destruct (decide _), push; lia.
  - intros u Hu. unfold after_cae; cbn [subs set_subs hist].
    rewrite events_of_cons. by rewrite decide_False.
Qed.

Lemma cae_inv t g i d new push v :
  p_inv W g -> p_ok W g -> 0 <= i < width set -> lookup_desc i g = Some d ->
  cae_allowed t g d new push v ->
  p_inv W (after_cae t i new push v g).
Proof.
  intros HI Ho Hi Hd Hal.
  destruct (cae_counts t g i d new push v HI Ho Hi Hd Hal) as (Ep & Eg & Hle).
  assert (Hcnt := fun j => after_cae_counts t g i d new push v j HI Ho Hi Hd Hal).
  destruct (after_cae_sub t g i d new push v HI Ho Hi Hd Hal) as (Hm & [Hk _] & Hl & Hch).
  destruct HI as [(HdP & HdG & HG & Hc) Hs]. pose proof Hs as (Hlen & _ & _ & H).
  destruct (stack_lookup_desc_inv set g i Hs Hi) as (d' & E & Epd & _).
  assert (d' = d) as -> by congruence.
  split; [do 3 (split; [done|])|split; [|split; [exact Hm|split; [exact Hl|]]]].
  - intros j Hj. cbn [putc linked stack_proto]. destruct (Hcnt j) as [-> _].
    specialize (Hc j Hj). cbn [putc linked stack_proto] in Hc. cbn [global_PWindow after_cae set_subs].
    destruct (decide _) as [Eij|_]; [|lia]. assert (i = j) as -> by lia. destruct push; lia.
  - cbn. by rewrite length_insert.
  - intros j dj Hj Hdj. cbn [after_cae set_subs subs array hist] in Hdj.
    rewrite list_lookup_insert in Hdj. destruct (H i d (proj1 Hi) Hd) as (_ & E1 & E2).
    destruct (decide (i = j)) as [->|Hne].
    + assert (Hlt : (Z.to_nat j < length (array (subs g)))%nat) by (by eapply lookup_lt_Some).
      rewrite decide_True in Hdj by done. injection Hdj as <-.
      split; [exact Hch|]. cbn [after_cae set_subs subs hist]. rewrite !count_cons.
      destruct push; cbn; rewrite bool_decide_true by done; lia.
    + rewrite decide_False in Hdj by (intros [? _]; lia).
      destruct (H j dj Hj Hdj) as (Hcj & E3 & E4).
      assert (Econt : contents j (hist (subs (after_cae t i new push v g))) = contents j (hist (subs g)))
        by (destruct push; cbn; by rewrite decide_False).
      rewrite Econt. split; [by eapply chain_keeps|]. cbn [after_cae set_subs subs hist].
      rewrite !count_cons. destruct push; cbn; rewrite bool_decide_false by done; lia.
Qed.

Lemma wp_do_cae t i d new push v (Q : bool -> state -> tls -> Prop) g l :
  0 <= i < width set -> thread_id l = t ->
  (forall g', p_rely W t g g' -> p_inv W g' -> lookup_desc i g' = Some d ->
     cae_allowed t g' d new push v) ->
  (forall g', p_rely W t g g' -> Q true (after_cae t i new push v g') l) ->
  (forall g', p_rely W t g g' -> Q false g' l) ->
  wp W t (do_cae i d new push) Q g l.
Proof.
  intros Hi Ht Hal Hok Hno g1 R1 I1 O1.
  destruct (stack_lookup_desc_inv set g1 i (proj2 I1) Hi) as (cur & E & _).
  rewrite E. cbn [mbind option_bind]. destruct (decide (cur = d)) as [->|Hne].
  - specialize (Hal g1 R1 I1 E).
    assert (Ev : (if push then Push i (from_option val 0 (nodes (heap (subs g1)) !! node new))
                  else Pop i (from_option val 0 (nodes (heap (subs g1)) !! node d))) =
                 (if push then Push i v else Pop i v)).
    { unfold cae_allowed, lookup_node in Hal. destruct push.
      - destruct Hal as ((k & _ & ->) & _). done.
      - destruct Hal as (_ & [k ->] & _). done. }
    cbv zeta. rewrite Ev, Ht. fold (after_cae t i new push v g1).
    split; [by eapply cae_guar|split; [by eapply cae_inv|by apply Hok]].
  - split; [apply (guar_refl (P := W))|split; [done|by apply Hno]].
Qed.
End steps.

(** ** The operations, among other threads *)

Section operations.
Context {A : Allocator node_t} (set : ds_t) (Hset : ds_ok set).
Notation W := (wprot set).
Notation mine t g := (events_of t (hist (subs g))).

Lemma stack_rely_mine t g g' : p_rely W t g g' -> mine t g' = mine t g.
Proof. by intros (_ & _ & _ & _ & ?). Qed.

Lemma mine_after t i new push v g :
  mine t (after_cae t i new push v g) = (if push then Push i v else Pop i v) :: mine t g.
Proof. unfold after_cae; cbn [subs set_subs hist]. rewrite events_of_cons. by rewrite decide_True. Qed.

(** The loop invariant of [push]: its node is still its own. *)
Definition push_loop (t : nat) (k v a : Z) (evs : list event) (g : state) (l : tls) : Prop :=
  local_ok set t l /\ mine t g = evs /\ priv (heap (subs g)) !! a = Some t /\
  exists q, lookup_node a g = Some (mkNode k v q).

Lemma push_loop_rely t k v a evs g g' l :
  push_loop t k v a evs g l -> p_rely W t g g' -> push_loop t k v a evs g' l.
Proof.
  intros (Hl & Hm & P & q & E) R. destruct (rely_own set t g g' a _ R P E) as [P' E'].
  split; [done|split; [by rewrite (stack_rely_mine _ _ _ R)|split; [done|by exists q]]].
Qed.

Lemma push_body_wp t k v a evs (Q : Z -> state -> tls -> Prop) c g l :
  push_loop t k v a evs g l ->
  (forall g' l' i, local_ok set t l' -> 0 <= i < width set ->
     mine t g' = Push i v :: evs -> Q 1 g' l') ->
  wp W t (push_body set a c)
    (fun r g l => match r with inl _ => push_loop t k v a evs g l | inr b => Q b g l end) g l.
Proof.
  intros HJ HQ. unfold push_body. wp_local.
  apply put_window_wp; [done|apply HJ|].
  intros d g2 l2 ([Ht2 Hi2] & R2 & _ & _ & _ & Hlt). cbn [d_put_count stack_ops] in Hlt. wp_local.
  pose proof (push_loop_rely t k v a evs g g2 l HJ R2) as (_ & Hm2 & P2 & q & E2).
  eapply (wp_store_next set Hset); [done..|]. intros g3 R3 g4 _ P4 E4.
  assert (Hm4 : mine t g4 = evs) by (rewrite <- Hm2; exact (stack_rely_mine t g2 g3 R3)).
  assert (HP4 : global_PWindow g2 <= global_PWindow g4) by (by destruct R3).
  wp_locals. apply (wp_do_cae set Hset t (thread_index l2) d _ true v); [done|done|..].
  - intros g5 R5 I5 E5. destruct (rely_own set t g4 g5 a _ R5 P4 E4) as [P5 E5'].
    cbn. split; [by exists k|]. split; [done|split; [done|]]. destruct R5; lia.
  - intros g5 R5. wp_locals. apply (HQ _ _ (thread_index l2)); [done|done|].
    by rewrite mine_after, (stack_rely_mine _ _ _ R5), Hm4.
  - intros g5 R5. wp_locals. apply (push_loop_rely t k v a evs g4); [|done].
    split; [done|split; [done|split; [done|by eexists]]].
Qed.

(** [push] returns 1 after exactly one [Push] of its value. *)
Lemma push_wp t k v (Q : Z -> state -> tls -> Prop) g l :
  local_ok set t l ->
  (forall g' l' i, local_ok set t l' -> 0 <= i < width set ->
     mine t g' = Push i v :: mine t g -> Q 1 g' l') ->
  wp W t (push set k v) Q g l.
Proof.
  intros Hl HQ. unfold push. wp_local.
  apply (wp_stack_create_node set Hset); [apply Hl|]. intros a g1 R1 P1 E1.
  apply (wp_while W t _ _ _ _ (fun _ _ => push_loop t k v a (mine t g)) 0%nat).
  - split; [done|split; [by apply stack_rely_mine|split; [done|by eexists]]].
  - intros n c g2 l2 HJ. eapply wp_mono; [|by apply (push_body_wp t k v a (mine t g) Q)].
    intros [c'|r] g3 l3 H; [by exists 0%nat|exact H].
Qed.

Lemma pop_body_wp t evs (Q : Z -> state -> tls -> Prop) c g l :
  local_ok set t l -> mine t g = evs ->
  (forall v g' l' i, local_ok set t l' -> 0 <= i < width set ->
     mine t g' = Pop i v :: evs -> Q v g' l') ->
  (forall g' l', local_ok set t l' -> mine t g' = evs -> Q 0 g' l') ->
  wp W t (pop_body set c)
    (fun r g l => match r with inl _ => local_ok set t l /\ mine t g = evs
                  | inr b => Q b g l end) g l.
Proof.
  intros Hl Hm HQ HQ0. unfold pop_body. wp_local.
  apply get_window_wp; [done|done|].
  intros d g2 l2 (Hl2 & R2 & _ & _ & [Hptr _] & _).
  assert (Hm2 : mine t g2 = evs) by (rewrite <- Hm; by apply stack_rely_mine).
  destruct (Z.eqb_spec (node d) 0) as [Hz|Hnz]; cbn [negb]; wp_locals; [by apply HQ0|].
  destruct (ptr_ok_node _ _ Hptr Hnz) as (nd & E2 & P2).
  apply wp_load; [apply _|]. intros g3 R3 _ _.
  destruct (rely_published set t g2 g3 (node d) nd R3 P2 E2) as [P3 E3].
  exists (next nd). rewrite E3. split; [done|]. wp_locals.
  apply (wp_do_cae set Hset t (thread_index l2) d _ false (val nd)); [apply Hl2|apply Hl2|..].
  - intros g4 R4 I4 E4. destruct (rely_published set t g3 g4 (node d) nd R4 P3 E3) as [P5 E5].
    cbn. split; [done|]. split; [exists (key nd); rewrite E5; by destruct nd|done].
  - intros g4 R4. destruct (rely_published set t g3 g4 (node d) nd R4 P3 E3) as [P5 E5].
    set (g5 := after_cae t (thread_index l2) _ false (val nd) g4).
    assert (Hm5 : mine t g5 = Pop (thread_index l2) (val nd) :: evs).
    { unfold g5. by rewrite mine_after, (stack_rely_mine _ _ _ R4), (stack_rely_mine _ _ _ R3), Hm2. }
    wp_local. apply wp_load; [apply _|]. intros g6 R6 _ _.
    destruct (rely_published set t g5 g6 (node d) nd R6 P5 E5) as [_ E6].
    exists (val nd). rewrite E6. split; [done|]. wp_local.
    apply (HQ _ _ _ (thread_index l2)); [done|apply Hl2|]. by rewrite (stack_rely_mine _ _ _ R6).
  - intros g4 R4. wp_locals. split; [done|].
    by rewrite (stack_rely_mine _ _ _ R4), (stack_rely_mine _ _ _ R3).
Qed.

(** [pop] takes exactly one value and returns it, or returns 0. *)
Lemma pop_wp t (Q : Z -> state -> tls -> Prop) g l :
  local_ok set t l ->
  (forall v g' l' i, local_ok set t l' -> 0 <= i < width set ->
     mine t g' = Pop i v :: mine t g -> Q v g' l') ->
  (forall g' l', local_ok set t l' -> mine t g' = mine t g -> Q 0 g' l') ->
  wp W t (pop set) Q g l.
Proof.
  intros Hl HQ HQ0. unfold pop.
  apply (wp_while W t _ _ _ _ (fun _ _ g' l' => local_ok set t l' /\ mine t g' = mine t g) 0%nat);
    [done|].
  intros n c g2 l2 [Hl2 Hm2]. eapply wp_mono; [|by apply (pop_body_wp t (mine t g) Q)].
  intros [c'|r] g3 l3 H; [by exists 0%nat|exact H].
Qed.
End operations.

Lemma create_stack_inv nt w d k rb set g :
  create_stack nt w d k rb = Some (set, g) -> ds_ok set -> p_inv (wprot set) g.
Proof.
  unfold create_stack. destruct (calculate _ _ _ _ _ _ _ _ _) as [p|]; [|done].
  intros [= <- <-] (Hw & Hd & _). cbn in Hw, Hd.
  split.
  - do 2 (split; [apply Z.divide_0_r|]). split; [done|]. intros i Hi. cbn. unfold put_of; cbn.
    cbn in Hi. rewrite lookup_replicate_2 by lia. cbn. lia.
  - split; cbn; [rewrite length_replicate; lia|]. split; [by split|split; [done|]].
    intros i d' Hi H. apply lookup_replicate in H as [-> _]. done.
Qed.

(** ** Results *)

(** [explains done evs]: the results of the operations [done] are exactly what
    the events [evs] (newest first) account for. *)
Inductive explains (set : ds_t) : list (op * Z) -> list event -> Prop :=
| explains_nil : explains set [] []
| explains_push done evs k v i :
    explains set done evs -> 0 <= i < width set ->
    explains set (done ++ [(DoPush k v, 1)]) (Push i v :: evs)
| explains_pop done evs v i :
    explains set done evs -> 0 <= i < width set ->
    explains set (done ++ [(DoPop, v)]) (Pop i v :: evs)
| explains_empty done evs :
    explains set done evs -> explains set (done ++ [(DoPop, 0)]) evs.

Section theorems.
Context {A : Allocator node_t}.
Context (nt w d k rb : Z) (set : ds_t) (g0 : state).
Context (Hcreate : create_stack nt w d k rb = Some (set, g0)) (Hset : ds_ok set).
Context (opss : list (list op)) (ls : list tls) (schedule : list nat).
Context (Hls : forall i l, ls !! i = Some l -> local_ok set i l).
Let reached n := exec (mkCfg g0 (clients (exec_op set) opss ls)) (take n schedule).
Let final := exec (mkCfg g0 (clients (exec_op set) opss ls)) schedule.
(** The put counts are 32-bit and the put window is not: they only follow the window
    up to [2 ^ 32]. *)
Context (Hbound : forall n, (n <= length schedule)%nat -> global_PWindow (mem (reached n)) + depth set < 2 ^ 32).

Lemma stack_run :
  p_inv (wprot set) (mem final) /\ ~ faulty final /\
  (forall i rs l os, pool final !! i = Some (Ret rs, l) -> opss !! i = Some os ->
     length rs = length os /\
     explains set (zip os rs) (events_of i (hist (subs (mem final))))).
Proof.
  assert (H0 : hist (subs g0) = []).
  { revert Hcreate. unfold create_stack.
    destruct (calculate _ _ _ _ _ _ _ _ _); [|done]. by intros [= _ <-]. }
  destruct (window_soundness_along set Hset (exec_op set)
    (fun t done g _ => explains set done (events_of t (hist (subs g)))))
    with (g0 := g0) (opss := opss) (ls := ls) (schedule := schedule) as (HI & HF & HQ).
  - intros t done o g l HJ Hl. destruct o; cbn [exec_op].
    + apply (push_wp set Hset); [done|]. intros g' l' i Hl' Hi Hm.
      split; [done|]. rewrite Hm. by constructor.
    + apply (pop_wp set Hset); [done|..].
      * intros v g' l' i Hl' Hi Hm. split; [done|]. rewrite Hm. by constructor.
      * intros g' l' Hl' Hm. split; [done|]. rewrite Hm. by constructor.
  - by eapply create_stack_inv.
  - exact Hbound.
  - done.
  - intros i l _. rewrite H0. constructor.
  - split; [done|split; [done|]]. intros i rs l os Hp Ho.
    destruct (HQ i rs l os Hp Ho) as (g1 & R1 & Hlen & HJ1). split; [done|].
    destruct R1 as (_ & _ & _ & _ & E). rewrite <- E in HJ1. exact HJ1.
Qed.

(** C9. In every interleaving in which the put window, a 64-bit variable, stays below
    [2 ^ 32 - depth] ([put_count] is a [uint32_t] and wraps around there, see
    [put_count_wraps] below), no thread dereferences NULL or unallocated memory, indexes
    out of the array, divides by zero or fails an assertion.  Each sub-stack's
    nodes hold what replaying the history of successful operations leaves
    there, every pop in it took the top of its sub-stack, nothing is lost or
    duplicated; the put counts stay inside the put window, so any two differ by
    at most [depth]; and the results of each finished thread are explained by
    its own events in program order. *)
Theorem stack2Dd_linearizable :
  let s := subs (mem final) in
  ~ faulty final /\
  legal (hist s) /\
  (forall i, 0 <= i < width set -> exists dsc, array s !! Z.to_nat i = Some dsc /\
     chain (heap s) (node dsc) (contents i (hist s)) /\
     Permutation (pushed i (hist s)) (contents i (hist s) ++ popped i (hist s))) /\
  (forall i j, 0 <= i < width set -> 0 <= j < width set ->
     global_PWindow (mem final) - depth set <= put_of s i <= global_PWindow (mem final) /\
     Z.abs (put_of s i - put_of s j) <= depth set) /\
  (forall i rs l os, pool final !! i = Some (Ret rs, l) -> opss !! i = Some os ->
     length rs = length os /\ explains set (zip os rs) (events_of i (hist s))).
Proof.
  destruct stack_run as ([(_ & _ & _ & Hc) Hs] & Hnf & HQ). pose proof Hs as (Hlen & _ & Hl & H).
  cbn [putc linked stack_proto] in Hc. split; [apply Hnf|split; [done|split; [|split; [|done]]]].
  - intros i Hi. destruct (stack_lookup_desc_inv set _ i Hs Hi) as (dsc & E & _). exists dsc.
    split; [done|split; [by apply (H i dsc (proj1 Hi))|by apply contents_permutation]].
  - intros i j Hi Hj. pose proof (Hc i Hi). pose proof (Hc j Hj). lia.
Qed.
End theorems.

(** ** A concrete execution: two threads, two sub-stacks of depth 3 *)

Definition example_set : ds_t := mkDs 2 2 3 9 0.
Definition example_mem : state :=
  mkShared 0 0 (mkStacks (replicate 2 (mkDesc 0 0 0)) (mkMem ∅ ∅) []).
Definition example_ops : list (list op) := [[DoPush 1 11; DoPop]; [DoPush 2 22; DoPop; DoPop]].
Definition example_schedule : list nat := mjoin (replicate 300 [0; 1]%nat).
Definition example_final : cfg state tls (list Z) :=
  exec (mkCfg example_mem (clients (exec_op (A := bump_allocator node_t) example_set) example_ops
                             (tls0 <$> seq 0 2))) example_schedule.

(** Both threads run to completion in this schedule. *)
Example stack_example_finishes :
  (fun pl => match pl.1 with Ret rs => Some rs | _ => None end) <$> pool example_final
    = [Some [1; 0]; Some [1; 22; 11]] /\
  array (subs (mem example_final)) = [mkDesc 0 1 1; mkDesc 0 1 1].
Proof. vm_compute. split; reflexivity. Qed.

Lemma stack_example_set_ok : ds_ok example_set.
Proof. unfold ds_ok; cbn; lia. Qed.

(** Beyond that the counts do not follow the window: from a memory in which the window
    is above [2 ^ 32], a push resets the count of its sub-stack. *)
Definition high_mem : state :=
  mkShared (2 ^ 32 + 2) (2 ^ 32 - 1) (mkStacks (replicate 2 (mkDesc 0 (2 ^ 32 - 1) (2 ^ 32 - 1))) (mkMem ∅ ∅) []).
Example put_count_wraps :
  match run 200 (exec_op (A := bump_allocator node_t) example_set (DoPush 1 11)) high_mem (tls0 0) with
  | Finished r g _ => (r, put_count <$> array (subs g), global_PWindow g) = (1, [0; 2 ^ 32 - 1], 2 ^ 32 + 2)
  | _ => False
  end.
Proof. vm_compute. reflexivity. Qed.

Lemma example_window_below n :
  (n <= length example_schedule)%nat ->
  (global_PWindow (mem (exec (mkCfg example_mem (clients (exec_op (A := bump_allocator node_t) example_set) example_ops
     (tls0 <$> seq 0 2))) (take n example_schedule))) + 3 <? 2 ^ 32) = true.
Proof.
  revert n. apply (prefixes_compute (fun c : cfg state tls (list Z) => global_PWindow (mem c) + 3 <? 2 ^ 32)
    (fun n => exec (mkCfg example_mem (clients (exec_op (A := bump_allocator node_t) example_set) example_ops
     (tls0 <$> seq 0 2))) (take n example_schedule))). vm_compute. reflexivity.
Qed.

Lemma stack2Dd_linearizable_witness :
  Z.abs (put_of (subs (mem example_final)) 0 - put_of (subs (mem example_final)) 1) <= 3 /\
  explains example_set [(DoPush 2 22, 1); (DoPop, 22); (DoPop, 11)]
    (events_of 1 (hist (subs (mem example_final)))).
Proof.
  destruct (stack2Dd_linearizable (A := bump_allocator node_t)
    1 2 3 0 0 example_set example_mem eq_refl stack_example_set_ok example_ops (tls0 <$> seq 0 2)
    example_schedule) as (_ & _ & _ & Hput & Hex).
  - apply tls0_ok. reflexivity.
  - intros n Hn. apply Z.ltb_lt, example_window_below, Hn.
  - split; [apply (Hput 0 1); cbn; lia|].
    refine (proj2 (Hex 1%nat [1; 22; 11] _ [DoPush 2 22; DoPop; DoPop] _ _)); vm_compute; reflexivity.
Defined.
