(* ===== verification/Stack2DdSeq.v ===== *)
(** The 2Dd stack used by one thread: every run terminates, a pop answers
    "empty" only when every value pushed has been popped, and [stack_size] is
    exact. *)
From S2P Require Import Prelude Conc Random Thread Params Window2Dd Solo2Dd StackHeap Stack2Dd.

#[export] Instance stack_exact : SubExact stacks descriptor_t :=
  {| exact_put i d s := array s !! Z.to_nat i = Some d;
     exact_get i d s := array s !! Z.to_nat i = Some d |}.

Lemma stack_read_descriptor_twp set i (Q : descriptor_t -> state -> tls -> Prop) g l :
  0 <= i < width set -> stacks_inv set (subs g) ->
  (forall d, lookup_desc i g = Some d ->
     put_count d = put_of (subs g) i -> get_count d = get_of (subs g) i -> Q d g l) ->
  twp (read_descriptor i) Q g l.
Proof.
  intros Hi HI HQ. destruct (stack_lookup_desc_inv set g i HI Hi) as (d & E & Ep & Eg).
  unfold read_descriptor. wp_local. eapply twp_load; [by rewrite E|].
  wp_local. eapply twp_load; [by rewrite E|]. wp_local.
  eapply twp_load; [by rewrite E|]. wp_local. destruct d. by apply HQ.
Qed.

#[export] Instance stack_solo {A : Allocator node_t} : SubSolo stacks descriptor_t.
Proof.
  split; cbn [put_descriptor get_descriptor put_count_at stack_ops].
  - intros set i Q g l Hi HI HQ. apply (stack_read_descriptor_twp set); [done..|].
    intros d E Ep Eg. by apply HQ.
  - intros set i Q g l Hi HI HQ. apply (stack_read_descriptor_twp set); [done..|].
    intros d E Ep Eg. by apply HQ.
  - intros set i Q g l Hi HI HQ. destruct (stack_lookup_desc_inv set g i HI Hi) as (d & E & Ep & Eg).
    eapply twp_load; [by rewrite E|]. by rewrite Ep.
Qed.

(** What a run by one thread may answer, with the history it leaves: a pop
    returns the top of some sub-stack, or 0 when all are empty. *)
Inductive seq_run (set : ds_t) : list (op * Z) -> list (nat * event) -> Prop :=
| seq_nil : seq_run set [] []
| seq_push done h k v i :
    seq_run set done h -> 0 <= i < width set ->
    seq_run set (done ++ [(DoPush k v, 1)]) ((0%nat, Push i v) :: h)
| seq_pop done h v i :
    seq_run set done h -> 0 <= i < width set -> head (contents i h) = Some v ->
    seq_run set (done ++ [(DoPop, v)]) ((0%nat, Pop i v) :: h)
| seq_empty done h :
    seq_run set done h -> (forall i, 0 <= i < width set -> contents i h = []) ->
    seq_run set (done ++ [(DoPop, 0)]) h.

Section sequential.
Context {A : Allocator node_t} (set : ds_t) (Hset : ds_ok set).
Notation W := (wprot set).
Notation history g := (hist (subs g)).

Lemma seq_inv_heap m g :
  seq_inv set g -> mem_ok m -> keeps (heap (subs g)) m None -> seq_inv set (set_heap m g).
Proof.
  intros [[HW Hs] Hg] Hm Hk. split; [split|].
  - exact HW.
  - by apply stacks_inv_heap.
  - exact Hg.
Qed.

Lemma do_cae_twp i d new push v (Q : bool -> state -> tls -> Prop) g l :
  lookup_desc i g = Some d -> cae_allowed (thread_id l) g d new push v ->
  Q true (after_cae (thread_id l) i new push v g) l ->
  twp (do_cae i d new push) Q g l.
Proof.
  intros E Hal HQ. eapply twp_act; [|exact HQ].
  rewrite E. cbn [mbind option_bind]. rewrite decide_True by done. cbv zeta.
  unfold cae_allowed, lookup_node in Hal. unfold after_cae. destruct push.
  - by destruct Hal as ((k & _ & ->) & _).
  - by destruct Hal as (_ & [k ->] & _).
Qed.

(** The full window invariant after an update. *)
Lemma seq_inv_cae t g i d new push v :
  seq_inv set g -> global_PWindow g + depth set < 2 ^ 32 -> 0 <= i < width set ->
  lookup_desc i g = Some d -> cae_allowed t g d new push v ->
  (if push then True else get_of (subs g) i < global_GWindow g) ->
  seq_inv set (after_cae t i new push v g).
Proof.
  intros [HI Hg] Ho Hi Hd Hal Hroom. split; [by eapply cae_inv|].
  intros j Hj. specialize (Hg j Hj). cbn [getc linked stack_proto] in *.
  destruct (after_cae_counts set Hset t g i d new push v j HI Ho Hi Hd Hal) as [_ ->].
  cbn [global_GWindow after_cae set_subs].
  destruct (decide _) as [E|_]; [|lia]. assert (i = j) as -> by lia. destruct push; lia.
Qed.

(** A sub-stack's top node is NULL exactly when it is empty. *)
Lemma null_iff_empty g i d :
  stacks_inv set (subs g) -> 0 <= i -> lookup_desc i g = Some d ->
  node d = 0 <-> put_count d = get_count d.
Proof.
  intros Hs Hi Hd. destruct (sub_counts set _ i d Hs Hi Hd) as [_ Hlen].
  destruct Hs as (_ & _ & _ & H). destruct (H i d Hi Hd) as (Hc & _).
  destruct (contents i (history g)) as [|v vs]; cbn in Hc, Hlen; [split; [lia|done]|].
  destruct Hc as (? & _). split; [done|lia].
Qed.

Lemma all_empty_contents g i :
  stacks_inv set (subs g) -> all_empty set (subs g) -> 0 <= i < width set ->
  contents i (history g) = [].
Proof.
  intros Hs Hemp Hi. destruct (stack_lookup_desc_inv set g i Hs Hi) as (d & E & Ep & Eg).
  destruct (sub_counts set _ i d Hs (proj1 Hi) E) as [_ Hlen].
  specialize (Hemp i Hi). cbn in Hemp. apply length_zero_iff_nil. lia.
Qed.

Lemma create_node_twp k v nxt (Q : Z -> state -> tls -> Prop) g l :
  seq_inv set g -> thread_id l = 0%nat ->
  (forall a g', seq_inv set g' -> global_PWindow g' = global_PWindow g ->
     history g' = history g -> array (subs g') = array (subs g) ->
     priv (heap (subs g')) !! a = Some 0%nat ->
     lookup_node a g' = Some (mkNode k v nxt) -> Q a g' l) ->
  twp (create_node k v nxt) Q g l.
Proof.
  intros HI Ht HQ. unfold create_node. eapply twp_act; [by cbv zeta|]. rewrite Ht.
  set (a := alloc_addr (nodes (heap (subs g)))).
  destruct (alloc_addr_ok (nodes (heap (subs g)))) as [Ha Hfresh]. fold a in Ha, Hfresh.
  pose proof (proj1 (proj2 (proj2 (proj1 HI)))) as Hmok.
  destruct (mem_alloc_ok 0 a (mkNode k v nxt) _ Hmok Ha Hfresh) as (Hm & Hk & _).
  apply HQ; try done; [by apply seq_inv_heap|apply lookup_insert_eq..].
Qed.

Lemma push_twp k v (Q : Z -> state -> tls -> Prop) g l :
  seq_inv set g -> global_PWindow g + 2 * depth set < 2 ^ 32 -> local_ok set 0 l ->
  (forall g' l' i, seq_inv set g' -> local_ok set 0 l' -> 0 <= i < width set ->
     global_PWindow g' <= global_PWindow g + depth set ->
     history g' = (0%nat, Push i v) :: history g -> Q 1 g' l') ->
  twp (push set k v) Q g l.
Proof.
  intros HI Hlim Hl HQ. pose proof Hset as (Hw & Hd & _). unfold push. wp_local.
  apply create_node_twp; [done|apply Hl|]. intros a g1 HI1 EP1 Eh1 Ea1 P1 E1.
  apply (wp_while solo 0%nat _ _ _ _ (fun _ _ g' l' => g' = g1 /\ l' = l) 0%nat); [done|].
  intros n c g' l' [-> ->]. unfold push_body. wp_local.
  apply (put_window_twp set Hset); [done|cbn; lia|done|].
  intros d P l2 Hl2 _ HP Ed Ec Hlt. cbn [d_put_count stack_ops exact_put stack_exact] in *.
  pose proof (seq_inv_PWindow set Hset g1 P HI1 HP) as HI2.
  assert (HP' : P <= global_PWindow g + depth set) by (destruct HP as [->|[-> _]]; lia).
  set (g2 := set_PWindow P g1) in *. wp_local.
  eapply twp_act; [cbn; unfold lookup_node in *; cbn; by rewrite E1|]. wp_locals.
  destruct (mem_write_ok 0 a (mkNode k v (node d)) _ (proj1 (proj2 (proj2 (proj1 HI2)))) P1)
    as [Hm [Hk _]].
  pose proof (seq_inv_heap _ g2 HI2 Hm Hk) as HI3.
  set (g3 := set_heap _ g2) in *. destruct Hl2 as [Ht2 Hi2].
  assert (Hal : cae_allowed (thread_id l2) g3 d
    (mkDesc a (u32 (put_count d + 1)) (get_count d)) true v).
  { rewrite Ht2. cbn. split; [|split; [done|split; [done|cbn; lia]]].
    exists k. split; [exact P1|apply lookup_insert_eq]. }
  apply (do_cae_twp _ _ _ _ v); [exact Ed|exact Hal|]. wp_locals.
  apply (HQ _ _ (thread_index l2)); [|done|done|cbn; lia|].
  - eapply seq_inv_cae; [exact HI3|cbn; lia|done|exact Ed|exact Hal|done].
  - cbn. rewrite Ht2, Eh1. done.
Qed.

Lemma pop_twp (Q : Z -> state -> tls -> Prop) g l :
  seq_inv set g -> global_PWindow g + depth set < 2 ^ 32 -> local_ok set 0 l ->
  (forall v g' l' i, seq_inv set g' -> local_ok set 0 l' -> 0 <= i < width set ->
     global_PWindow g' = global_PWindow g -> head (contents i (history g)) = Some v ->
     history g' = (0%nat, Pop i v) :: history g -> Q v g' l') ->
  (forall g' l', seq_inv set g' -> local_ok set 0 l' ->
     global_PWindow g' = global_PWindow g -> history g' = history g ->
     (forall i, 0 <= i < width set -> contents i (history g) = []) -> Q 0 g' l') ->
  twp (pop set) Q g l.
Proof.
  intros HI Hlim Hl HQ HQ0. pose proof Hset as (Hw & Hd & _). unfold pop.
  apply (wp_while solo 0%nat _ _ _ _ (fun _ _ g' l' => g' = g /\ l' = l) 0%nat); [done|].
  intros n c g' l' [-> ->]. unfold pop_body. wp_local.
  apply (get_window_twp set Hset); [done|cbn; lia|done|].
  intros d G l2 (Hl2 & HG & Ed & Ec & Hcase).
  cbn [d_get_count stack_ops exact_get stack_exact getc putc linked stack_proto] in *.
  pose proof (seq_inv_GWindow set Hset g G HI HG) as HI2. destruct Hl2 as [Ht2 Hi2].
  pose proof (proj2 (proj1 HI)) as Hs.
  pose proof (null_iff_empty g _ d Hs (proj1 Hi2) Ed) as Hnull.
  destruct (stack_lookup_desc_inv set g _ Hs Hi2) as (d' & E' & Ep & _).
  assert (d' = d) as -> by (unfold lookup_desc in E'; congruence).
  destruct (Z.eqb_spec (node d) 0) as [Hz|Hnz]; cbn [negb]; wp_locals.
  { apply HQ0; try done. intros i Hi. destruct Hcase as [Hcase|Hemp]; [lia|].
    by apply all_empty_contents. }
  destruct Hcase as [[Hlt Hne]|Hemp].
  2: { specialize (Hemp _ Hi2). cbn in Hemp. lia. }
  destruct Hs as (_ & _ & _ & H). destruct (H _ d (proj1 Hi2) Ed) as (Hch & _).
  destruct (ptr_ok_node _ _ (chain_ptr_ok _ _ _ Hch) Hnz) as (nd & E2 & P2).
  eapply twp_load; [unfold lookup_node; cbn; by rewrite E2|]. wp_locals.
  assert (Hal : cae_allowed (thread_id l2) (set_GWindow G g) d
    (mkDesc (next nd) (put_count d) (u32 (get_count d + 1))) false (val nd)).
  { cbn. split; [done|]. split; [exists (key nd); unfold lookup_node; cbn; by destruct nd|done]. }
  apply (do_cae_twp _ _ _ _ (val nd)); [exact Ed|exact Hal|]. wp_locals.
  eapply twp_load; [unfold lookup_node; cbn; by rewrite E2|]. wp_locals.
  apply (HQ _ _ _ (thread_index l2)); [|done|done|done| |cbn; by rewrite Ht2].
  - eapply seq_inv_cae; [exact HI2|cbn; lia|done|exact Ed|exact Hal|cbn; lia].
  - destruct (chain_cons _ _ _ _ Hch Hnz E2) as (vs & -> & _). done.
Qed.

(** ** [stack_size] *)

Definition stack_total (h : list (nat * event)) (n : Z) : Z :=
  sum_upto (fun i => Z.of_nat (length (contents i h))) n.

(** Following one chain counts its nodes. *)
Lemma chain_loop_twp g l vs (Q : Z -> state -> tls -> Prop) p size :
  chain (heap (subs g)) p vs -> 0 <= size -> size + Z.of_nat (length vs) < 2 ^ 64 ->
  Q (size + Z.of_nat (length vs)) g l ->
  twp (while (fun '(n, size) =>
        if negb (n =? 0) then
          let* nxt := load (fun g => next <$> lookup_node n g) in
          continue (nxt, u64 (size + 1))
        else break size) (p, size)) Q g l.
Proof.
  intros Hc Hs Hlim HQ.
  apply (wp_while solo 0%nat _ _ _ _ (fun n '(p, sz) g1 l1 => g1 = g /\ l1 = l /\
    exists ws, chain (heap (subs g)) p ws /\ n = length ws /\ size <= sz /\
      sz + Z.of_nat (length ws) = size + Z.of_nat (length vs)) (length vs)).
  - split; [done|split; [done|]]. exists vs. split_and!; try done; lia.
  - intros n [q sz] g1 l1 (-> & -> & ws & Hcw & -> & Hle & Heq).
    destruct (Z.eqb_spec q 0) as [->|Hq]; cbn [negb].
    + destruct ws as [|w ws]; [|by destruct Hcw]. wp_locals. cbn in Heq.
      by replace sz with (size + Z.of_nat (length vs)) by lia.
    + destruct ws as [|w ws]; [by cbn in Hcw|]. destruct Hcw as (_ & _ & nd & E & _ & _ & Hcw).
      wp_local. eapply twp_load; [unfold lookup_node; by rewrite E|]. wp_locals.
      cbn [length] in *. exists (length ws). split; [lia|]. split; [done|split; [done|]].
      exists ws. rewrite wrap_small by lia. split_and!; try done; lia.
Qed.

Lemma stack_size_twp (Q : Z -> state -> tls -> Prop) g l :
  stacks_inv set (subs g) -> stack_total (history g) (width set) < 2 ^ 64 ->
  Q (stack_total (history g) (width set)) g l -> twp (stack_size set) Q g l.
Proof.
  intros Hs Hlim HQ. pose proof Hset as (Hw & _). unfold stack_total in *.
  set (f i := Z.of_nat (length (contents i (history g)))) in *.
  assert (Hf : forall j, 0 <= j < width set -> 0 <= f j) by (intros j _; unfold f; lia).
  eapply (wp_while solo 0%nat _ _ _ _ (fun n '(i, size) g1 l1 => g1 = g /\ l1 = l /\
    0 <= i <= width set /\ size = sum_upto f i /\ n = Z.to_nat (width set - i))).
  - split_and!; try done; lia.
  - intros n [i size] g1 l1 (-> & -> & Hi & -> & ->).
    destruct (Z.ltb_spec i (width set)) as [Hlt|Hge].
    + destruct (stack_lookup_desc_inv set g i Hs ltac:(lia)) as (d & E & _).
      destruct Hs as (_ & _ & _ & H). destruct (H i d ltac:(lia) E) as (Hc & _).
      wp_local. eapply twp_load; [by rewrite E|]. wp_local.
      pose proof (sum_upto_succ f i ltac:(lia)) as Esucc.
      pose proof (sum_upto_mono f (i + 1) (width set) ltac:(lia) Hf) as Hmono.
      pose proof (sum_upto_nonneg f i ltac:(lia) ltac:(intros; apply Hf; lia)).
      eapply chain_loop_twp; [exact Hc|lia|fold (f i); lia|]. fold (f i). wp_locals.
      rewrite wrap_small by lia. eexists. split; [|split_and!; try done]; lia.
    + wp_locals. by replace i with (width set) in * by lia.
Qed.

Lemma stack_total_bound g :
  seq_inv set g -> 0 <= stack_total (history g) (width set) <= width set * global_PWindow g.
Proof.
  intros [[(_ & _ & HG & Hc) Hs] _]. pose proof Hset as (Hw & _).
  rewrite <- (Z.mul_0_r (width set)) at 1. apply sum_upto_bound; [lia|]. intros i Hi. split; [lia|].
  specialize (Hc i Hi). cbn [putc linked stack_proto] in Hc.
  destruct (stack_lookup_desc_inv set g i Hs Hi) as (d & E & Ep & Eg).
  destruct (sub_counts set _ i d Hs (proj1 Hi) E) as [? ->]. lia.
Qed.
End sequential.

(** ** Whole runs *)

Section runs.
Context {A : Allocator node_t}.
Context (nt w d k rb : Z) (set : ds_t) (g0 : state).
Context (Hcreate : create_stack nt w d k rb = Some (set, g0)) (Hset : ds_ok set).
Context (ops : list op) (l0 : tls) (Hl0 : local_ok set 0 l0).
Context (Hbound : (Z.of_nat (length ops) + 2) * depth set < 2 ^ 32).

Lemma stack_create_seq_inv : seq_inv set g0 /\ global_PWindow g0 = 0 /\ hist (subs g0) = [].
Proof.
  pose proof (create_stack_inv _ _ _ _ _ _ _ Hcreate Hset) as HI.
  pose proof Hset as (Hw & Hd & _). revert Hcreate. unfold create_stack.
  destruct (calculate _ _ _ _ _ _ _ _ _) as [p|]; [|done]. intros [= <- <-]. cbn in Hw, Hd.
  split; [split; [done|]|by split].
  intros i Hi. cbn. unfold get_of; cbn. cbn in Hi. rewrite lookup_replicate_2 by lia. cbn. lia.
Qed.

Definition seq_account (done : list (op * Z)) (g : state) (l : tls) : Prop :=
  seq_run set done (hist (subs g)) /\ seq_inv set g /\ local_ok set 0 l /\
  global_PWindow g <= Z.of_nat (length done) * depth set.

(** C21. The relaxed stack used by one thread, for [(calls + 2) * depth < 2 ^ 32]
    (the counts of the sub-stacks are 32-bit): every run terminates; a pop returns
    the top of one of the sub-stacks, and "empty" only if the whole stack is
    empty; [stack_size] terminates and is exact. *)
Theorem stack2Dd_sequential :
  exists n rs g l,
    (forall m, (n <= m)%nat -> run m (run_ops (exec_op set) ops) g0 l0 = Finished rs g l) /\
    length rs = length ops /\ seq_run set (zip ops rs) (hist (subs g)) /\
    exists n' g' l', forall m, (n' <= m)%nat ->
      run m (stack_size set) g l = Finished (stack_total (hist (subs g)) (width set)) g' l'.
Proof.
  destruct stack_create_seq_inv as (HI0 & HP0 & Hh0). pose proof Hset as (Hw & Hd & _).
  destruct (twp_run (run_ops (exec_op set) ops) (fun rs g l =>
      length rs = length ops /\ seq_account ([] ++ zip ops rs) g l) g0 l0)
    as (n & rs & g & l & Hrun & Hlen & Hrs & HI & Hl & HP).
  - apply (wp_run_ops_upto solo 0%nat (exec_op set) (length ops) seq_account);
      [|cbn; lia|split_and!; [rewrite Hh0; constructor|done|done|cbn; lia]].
    intros done o g l Hlt (Hrs & HI & Hl & HP).
    destruct o as [k' v|]; cbn [exec_op].
    + apply (push_twp set Hset); [done|nia|done|]. intros g' l' i HI' Hl' Hi HP' Hh.
      split; [rewrite Hh; by constructor|split; [done|split; [done|]]].
      rewrite length_app; cbn [length]. lia.
    + apply (pop_twp set Hset); [done|nia|done|..].
      * intros v g' l' i HI' Hl' Hi HP' Hv Hh.
        split; [rewrite Hh; by constructor|split; [done|split; [done|]]].
        rewrite length_app; cbn [length]. lia.
      * intros g' l' HI' Hl' HP' Hh Hemp.
        split; [rewrite Hh; by constructor|split; [done|split; [done|]]].
        rewrite length_app; cbn [length]. lia.
  - exists n, rs, g, l. split_and!; [done..|]. cbn [app] in *.
    destruct (twp_run (stack_size set) (fun r _ _ => r = stack_total (hist (subs g)) (width set)) g l)
      as (n' & r & g' & l' & Hrun' & ->); [|by exists n', g', l'].
    apply (stack_size_twp set Hset); [apply HI| |done].
    pose proof (stack_total_bound set Hset g HI). rewrite length_zip_with in HP.
    assert (global_PWindow g < 2 ^ 32) by nia. nia.
Qed.
End runs.

Lemma stack2Dd_sequential_witness :
  exists n rs g l,
    (forall m, (n <= m)%nat ->
       run m (run_ops (exec_op (A := bump_allocator node_t) example_set)
                [DoPush 1 11; DoPush 2 22; DoPop; DoPop; DoPop])
         example_mem (tls0 0) = Finished rs g l) /\
    length rs = 5%nat /\
    seq_run example_set (zip [DoPush 1 11; DoPush 2 22; DoPop; DoPop; DoPop] rs) (hist (subs g)) /\
    exists n' g' l', forall m, (n' <= m)%nat ->
      run m (stack_size example_set) g l = Finished (stack_total (hist (subs g)) 2) g' l'.
Proof.
  apply (stack2Dd_sequential (A := bump_allocator node_t) 1 2 3 0 0 example_set example_mem
    eq_refl stack_example_set_ok [DoPush 1 11; DoPush 2 22; DoPop; DoPop; DoPop] (tls0 0)).
  - split; cbn; lia.
  - vm_compute. reflexivity.
Defined.
