(* ===== verification/QueueHeap.v ===== *)
(** The linked nodes of the queues in shared memory: a sub-queue is a list of
    nodes that only grows at its end, each node's [next] being set once; the
    descriptors (or head and tail pointers) walk along it.

    Allocation is as in StackHeap: a fresh non-null address; dequeued nodes
    keep their contents. *)
From S2P Require Import Prelude StackHeap.

(** [qtag] is what else the nodes of some queues hold. *)
Record qnode_of (X : Type) := mkQnodeOf { qnext : Z; qkey : Z; qval : Z; qtag : X }.
Arguments mkQnodeOf {X}.
Arguments qnext {X}.
Arguments qkey {X}.
Arguments qval {X}.
Arguments qtag {X}.
Notation qnode_t := (qnode_of unit).
Notation mkQnode n k v := (mkQnodeOf n k v tt).

(** The heap; [qpriv] is the ghost owner of the nodes not yet linked. *)
Record qmemory_of (X : Type) := mkQmem { qnodes : gmap Z (qnode_of X); qpriv : gmap Z nat }.
Arguments mkQmem {X}.
Arguments qnodes {X}.
Arguments qpriv {X}.
Notation qmemory := (qmemory_of unit).

Section heap.
Context {X : Type}.
Notation qmemory := (qmemory_of X).
Notation qnode_t := (qnode_of X).

Definition qmem_ok (m : qmemory) : Prop :=
  qnodes m !! 0 = None /\ forall a t, qpriv m !! a = Some t -> is_Some (qnodes m !! a).

(** The nodes of a sub-queue, oldest first: each is linked to the next one. *)
Definition qlist (m : qmemory) (L : list Z) : Prop :=
  forall k a, L !! k = Some a ->
    a <> 0 /\ qpriv m !! a = None /\
    exists n, qnodes m !! a = Some n /\ qnext n = default 0 (L !! S k).

(** No node is in two places. *)
Definition qdisjoint (Ls : list (list Z)) : Prop :=
  forall i j L L' k k' a, Ls !! i = Some L -> Ls !! j = Some L' ->
    L !! k = Some a -> L' !! k' = Some a -> i = j /\ k = k'.

(** What every step does to the nodes: a linked node keeps its contents and,
    once set, its [next]; a private node of thread [t] is left alone. *)
Definition qkeeps (m m' : qmemory) : Prop :=
  forall a n, qnodes m !! a = Some n -> qpriv m !! a = None ->
    exists n', qnodes m' !! a = Some n' /\ qpriv m' !! a = None /\
      qval n' = qval n /\ qtag n' = qtag n /\ (qnext n <> 0 -> qnext n' = qnext n).
Definition qowns (t : nat) (m m' : qmemory) : Prop :=
  forall a n, qnodes m !! a = Some n -> qpriv m !! a = Some t ->
    qnodes m' !! a = Some n /\ qpriv m' !! a = Some t.

Definition qmem_rely (t : nat) (m m' : qmemory) : Prop := qkeeps m m' /\ qowns t m m'.
Definition qmem_guar (t : nat) (m m' : qmemory) : Prop :=
  qkeeps m m' /\ forall u, u <> t -> qowns u m m'.

Lemma qkeeps_refl m : qkeeps m m.
Proof. intros a n E P. by exists n. Qed.
Lemma qkeeps_trans m1 m2 m3 : qkeeps m1 m2 -> qkeeps m2 m3 -> qkeeps m1 m3.
Proof.
  intros H1 H2 a n E P. destruct (H1 a n E P) as (n2 & E2 & P2 & V2 & T2 & N2).
  destruct (H2 a n2 E2 P2) as (n3 & E3 & P3 & V3 & T3 & N3). exists n3.
  split_and!; [done|done|congruence|congruence|]. intros Hn. rewrite N3; [by apply N2|]. by rewrite N2.
Qed.
Lemma qmem_rely_refl t m : qmem_rely t m m.
Proof. split; [apply qkeeps_refl|]. by intros a n. Qed.
Lemma qmem_rely_trans t m1 m2 m3 : qmem_rely t m1 m2 -> qmem_rely t m2 m3 -> qmem_rely t m1 m3.
Proof.
  intros [K1 O1] [K2 O2]. split; [by eapply qkeeps_trans|].
  intros a n E P. destruct (O1 a n E P). by apply O2.
Qed.
Lemma qmem_guar_refl t m : qmem_guar t m m.
Proof. split; [apply qkeeps_refl|]. by intros u _ a n. Qed.
Lemma qmem_guar_rely t u m m' : t <> u -> qmem_guar u m m' -> qmem_rely t m m'.
Proof. intros ? [H1 H2]. split; [done|by apply H2]. Qed.
#[local] Hint Resolve qmem_rely_refl qmem_guar_refl qkeeps_refl : core.

Lemma qlist_node m L k a :
  qlist m L -> L !! k = Some a ->
  a <> 0 /\ exists n, qnodes m !! a = Some n /\ qpriv m !! a = None /\ qnext n = default 0 (L !! S k).
Proof. intros H E. destruct (H k a E) as (? & ? & n & ? & ?). eauto 10. Qed.

(** The [next] of a node says whether the list goes on after it. *)
Lemma qlist_next m L k a n :
  qlist m L -> L !! k = Some a -> qnodes m !! a = Some n ->
  if qnext n =? 0 then length L = S k else L !! S k = Some (qnext n).
Proof.
  intros H E En. destruct (H k a E) as (_ & _ & n' & En' & Hn). assert (n' = n) as -> by congruence.
  destruct (L !! S k) as [b|] eqn:Eb; cbn in Hn; rewrite Hn.
  - destruct (H (S k) b Eb) as (Hb & _). destruct (Z.eqb_spec b 0); [done|done].
  - apply lookup_ge_None in Eb. apply lookup_lt_Some in E. cbn. lia.
Qed.

(** A list none of whose nodes changed is still one. *)
Lemma qlist_same m m' L :
  qlist m L -> (forall a, a ∈ L -> qnodes m' !! a = qnodes m !! a /\ (qpriv m !! a = None -> qpriv m' !! a = None)) ->
  qlist m' L.
Proof.
  intros H Hs k a E. destruct (H k a E) as (? & P & n & En & Hn).
  destruct (Hs a) as [E1 P1]; [by eapply list_elem_of_lookup_2|].
  split_and!; [done|by apply P1|]. exists n. by rewrite E1.
Qed.

(** *** The steps of a node's life *)

Definition qmem_alloc (t : nat) (a : Z) (n : qnode_t) (m : qmemory) : qmemory :=
  mkQmem (<[a := n]> (qnodes m)) (<[a := t]> (qpriv m)).

(** Linking the private node [b] after [a]. *)
Definition qmem_link (a b : Z) (m : qmemory) : qmemory :=
  mkQmem (alter (fun n => mkQnodeOf b (qkey n) (qval n) (qtag n)) a (qnodes m)) (delete b (qpriv m)).

Lemma qmem_alloc_ok t a n m :
  qmem_ok m -> a <> 0 -> qnodes m !! a = None ->
  let m' := qmem_alloc t a n m in
  qmem_ok m' /\ qkeeps m m' /\ (forall u, qowns u m m') /\
  (forall L, qlist m L -> qlist m' L).
Proof.
  intros [H0 Hp] Ha E. cbn.
  assert (Hne : forall b nb, qnodes m !! b = Some nb -> a <> b) by congruence.
  split_and!.
  - split; cbn; [by rewrite lookup_insert_ne|]. intros b u.
    destruct (decide (a = b)) as [->|]; [intros _; rewrite lookup_insert_eq; eauto|].
    rewrite !lookup_insert_ne by done. eauto.
  - intros b nb Eb Pb. exists nb. cbn. rewrite !lookup_insert_ne by eauto. done.
  - intros u b nb Eb Pb. cbn. by rewrite !lookup_insert_ne by eauto.
  - intros L HL. eapply qlist_same; [done|]. intros b Hb.
    apply list_elem_of_lookup in Hb as [k Hk]. destruct (HL k b Hk) as (_ & Pb & nb & Eb & _).
    cbn. rewrite !lookup_insert_ne by eauto. done.
Qed.

Lemma qmem_link_ok t a b n nb m :
  qmem_ok m -> qnodes m !! a = Some n -> qpriv m !! a = None -> qnext n = 0 ->
  qnodes m !! b = Some nb -> qpriv m !! b = Some t ->
  let m' := qmem_link a b m in qmem_ok m' /\ qmem_guar t m m'.
Proof.
  intros [H0 Hp] Ea Pa Hn Eb Pb. cbn. assert (a <> b) by congruence.
  split; split; cbn.
  - rewrite lookup_alter_ne; [done|]. congruence.
  - intros c u Pc. apply lookup_delete_Some in Pc as [_ Pc].
    destruct (Hp _ _ Pc) as [nc Ec]. destruct (decide (a = c)) as [->|]; [congruence|].
    rewrite lookup_alter_ne by done. eauto.
  - intros c nc Ec Pc. destruct (decide (a = c)) as [<-|].
    + assert (nc = n) as -> by congruence. eexists. cbn. rewrite lookup_alter, Ea.
      rewrite decide_True by done. cbn. rewrite lookup_delete_ne by congruence. done.
    + exists nc. cbn. rewrite lookup_alter_ne, lookup_delete_ne by congruence. done.
  - intros u Hu c nc Ec Pc. cbn. rewrite lookup_alter_ne, lookup_delete_ne by congruence. done.
Qed.

Lemma qlist_link m a b nb L :
  qlist m L -> last L = Some a -> a ∉ take (length L - 1) L ->
  qnodes m !! b = Some nb -> qnext nb = 0 -> b <> 0 -> b ∉ L ->
  qlist (qmem_link a b m) (L ++ [b]).
Proof.
  intros H Hlast Hnd Eb Hb0 Hb Hbn k c Hc. apply last_Some in Hlast as [L' ->].
  rewrite length_app in Hnd. cbn in Hnd. replace (length L' + 1 - 1)%nat with (length L') in Hnd by lia.
  rewrite take_app_length in Hnd.
  apply lookup_app_Some in Hc as [Hc|[Hk Hc]].
  - destruct (H k c Hc) as (Hc0 & Pc & n & En & Hn).
    assert (b <> c) by (intros ->; apply Hbn; by eapply list_elem_of_lookup_2).
    split; [done|split; [cbn; by rewrite lookup_delete_ne|]].
    apply lookup_app_Some in Hc as [Hc|[Hk Hc]].
    + assert (a <> c) by (intros ->; apply Hnd; by eapply list_elem_of_lookup_2).
      exists n. cbn. rewrite lookup_alter_ne by done. split; [done|]. rewrite Hn. f_equal.
      pose proof (lookup_lt_Some _ _ _ Hc). rewrite (lookup_app_l (L' ++ [a]) [b]); [done|].
      rewrite length_app; cbn; lia.
    + apply list_lookup_singleton_Some in Hc as [Hk2 <-].
      assert (k = length L') as -> by lia. cbn. rewrite lookup_alter, decide_True, En by done.
      eexists. split; [done|]. cbn.
      replace (S (length L')) with (length (L' ++ [a])) by (rewrite length_app; cbn; lia).
      rewrite lookup_app_r, Nat.sub_diag by done. done.
  - apply list_lookup_singleton_Some in Hc as [Hk2 <-].
    split; [done|split; [cbn; apply lookup_delete_eq|]]. exists nb.
    assert (a <> b).
    { intros ->. apply Hbn, elem_of_app. right. by apply list_elem_of_singleton. }
    cbn. rewrite lookup_alter_ne by done. split; [done|]. rewrite Hb0.
    rewrite lookup_ge_None_2; [done|]. rewrite !length_app. rewrite length_app in Hk. cbn [length] in *. lia.
Qed.

(** A store to an own private node that is not linked. *)
Definition qmem_write (a : Z) (f : X -> X) (m : qmemory) : qmemory :=
  mkQmem (alter (fun n => mkQnodeOf (qnext n) (qkey n) (qval n) (f (qtag n))) a (qnodes m)) (qpriv m).

Lemma qmem_write_ok t a f m :
  qmem_ok m -> qpriv m !! a = Some t ->
  let m' := qmem_write a f m in
  qmem_ok m' /\ qmem_guar t m m' /\ (forall L, qlist m L -> qlist m' L).
Proof.
  intros [H0 Hp] Pa. cbn.
  assert (Ha : a <> 0) by (intros ->; destruct (Hp _ _ Pa); congruence).
  split_and!; [split|split|]; cbn.
  - by rewrite lookup_alter_ne.
  - intros b u Pb. destruct (Hp _ _ Pb) as [nb Eb]. destruct (decide (a = b)) as [->|].
    + rewrite lookup_alter_eq, Eb. eauto.
    + rewrite lookup_alter_ne by done. eauto.
  - intros b nb Eb Pb. assert (a <> b) by congruence. exists nb. cbn. by rewrite lookup_alter_ne.
  - intros u Hu b nb Eb Pb. assert (a <> b) by congruence. cbn. by rewrite lookup_alter_ne.
  - intros L HL. eapply qlist_same; [done|]. intros b Hb.
    apply list_elem_of_lookup in Hb as [k Hk]. destruct (HL k b Hk) as (_ & Pb & _).
    assert (a <> b) by congruence. cbn. by rewrite lookup_alter_ne.
Qed.
End heap.
#[export] Hint Resolve qmem_rely_refl qmem_guar_refl qkeeps_refl : core.

(** ** The history of the sub-queues

    [Nothing i] is the observation that sub-queue [i] was empty.  One event per linked node and per successful dequeue, newest first; [k]
    is the position of the element in its sub-queue, from 1. *)
Inductive qevent := Enq (i k v : Z) | Deq (i k v : Z) | Nothing (i : Z).

#[export] Instance qevent_eq_dec : EqDecision qevent.
Proof. solve_decision. Defined.

Notation qhist := (list (nat * qevent)).

(** The elements enqueued to and dequeued from sub-queue [i], oldest first. *)
Fixpoint enqs (i : Z) (h : qhist) : list (Z * Z) :=
  match h with
  | [] => []
  | (_, Enq j k v) :: h => if decide (j = i) then enqs i h ++ [(k, v)] else enqs i h
  | _ :: h => enqs i h
  end.
Fixpoint deqs (i : Z) (h : qhist) : list (Z * Z) :=
  match h with
  | [] => []
  | (_, Deq j k v) :: h => if decide (j = i) then deqs i h ++ [(k, v)] else deqs i h
  | _ :: h => deqs i h
  end.
(** What is in sub-queue [i]: the events replayed on an empty list. *)
Fixpoint qcontents (i : Z) (h : qhist) : list (Z * Z) :=
  match h with
  | [] => []
  | (_, Enq j k v) :: h => if decide (j = i) then qcontents i h ++ [(k, v)] else qcontents i h
  | (_, Deq j _ _) :: h => if decide (j = i) then tail (qcontents i h) else qcontents i h
  | (_, Nothing _) :: h => qcontents i h
  end.

(** Positions are consecutive, and every dequeue took the oldest element of
    its sub-queue. *)
Fixpoint qlegal (h : qhist) : Prop :=
  match h with
  | [] => True
  | (_, Enq i k _) :: h => k = Z.of_nat (length (enqs i h)) + 1 /\ qlegal h
  | (_, Deq i k v) :: h => head (qcontents i h) = Some (k, v) /\ qlegal h
  | (_, Nothing i) :: h => qcontents i h = [] /\ qlegal h
  end.

(** A client's call. *)
Inductive op := Enqueue (k v : Z) | Dequeue.

(** FIFO: what was dequeued, followed by what is there, is what was enqueued,
    in the same order. *)
Lemma enqs_deqs i h : qlegal h -> enqs i h = deqs i h ++ qcontents i h.
Proof.
  induction h as [|[t [j k v|j k v|j]] h IH]; cbn; [done|..].
  - intros [_ Hl]. destruct (decide (j = i)); [|auto]. rewrite (IH Hl). by rewrite app_assoc.
  - intros [Hv Hl]. destruct (decide (j = i)) as [->|]; [|auto].
    rewrite (IH Hl). destruct (qcontents i h) as [|x xs]; cbn in *; [done|].
    injection Hv as ->. by rewrite <- app_assoc.
  - intros [_ Hl]. auto.
Qed.

Lemma qcontents_drop i h :
  qlegal h -> qcontents i h = drop (length (deqs i h)) (enqs i h).
Proof. intros Hl. by rewrite (enqs_deqs i h Hl), drop_app_length. Qed.

Lemma enqs_position i h n kv :
  qlegal h -> enqs i h !! n = Some kv -> kv.1 = Z.of_nat n + 1.
Proof.
  induction h as [|[t [j k v|j k v|j]] h IH]; cbn; [done|..].
  - intros [-> Hl]. destruct (decide (j = i)) as [->|]; [|auto].
    intros [H|[Hn H]]%lookup_app_Some; [auto|].
    apply list_lookup_singleton_Some in H as [Hz <-]. cbn. lia.
  - intros [_ Hl]. auto.
  - intros [_ Hl]. auto.
Qed.

Lemma elem_of_enqs i h k v :
  (k, v) ∈ enqs i h <-> exists t, (t, Enq i k v) ∈ h.
Proof.
  induction h as [|[t [j k' v'|j k' v'|j]] h IH]; cbn.
  - split; [by intros ?%elem_of_nil|by intros [t ?%elem_of_nil]].
  - destruct (decide (j = i)) as [->|Hne].
    + rewrite elem_of_app, list_elem_of_singleton, IH. split.
      * intros [[u Hu]|E]; [exists u; set_solver|]. exists t. injection E as -> ->. set_solver.
      * intros [u Hu]. apply elem_of_cons in Hu as [E|Hu]; [right; congruence|]. left. eauto.
    + rewrite IH. split; intros [u Hu]; exists u; [set_solver|].
      apply elem_of_cons in Hu as [E|Hu]; [congruence|done].
  - rewrite IH. split; intros [u Hu]; exists u; set_solver.
  - rewrite IH. split; intros [u Hu]; exists u; set_solver.
Qed.

Lemma elem_of_deqs i h k v :
  (k, v) ∈ deqs i h <-> exists t, (t, Deq i k v) ∈ h.
Proof.
  induction h as [|[t [j k' v'|j k' v'|j]] h IH]; cbn.
  - split; [by intros ?%elem_of_nil|by intros [t ?%elem_of_nil]].
  - rewrite IH. split; intros [u Hu]; exists u; set_solver.
  - destruct (decide (j = i)) as [->|Hne].
    + rewrite elem_of_app, list_elem_of_singleton, IH. split.
      * intros [[u Hu]|E]; [exists u; set_solver|]. exists t. injection E as -> ->. set_solver.
      * intros [u Hu]. apply elem_of_cons in Hu as [E|Hu]; [right; congruence|]. left. eauto.
    + rewrite IH. split; intros [u Hu]; exists u; [set_solver|].
      apply elem_of_cons in Hu as [E|Hu]; [congruence|done].
  - rewrite IH. split; intros [u Hu]; exists u; set_solver.
Qed.

(** An element whose position has been passed by the dequeues is dequeued. *)
Lemma position_dequeued i h k v :
  qlegal h -> (k, v) ∈ enqs i h -> k <= Z.of_nat (length (deqs i h)) -> (k, v) ∈ deqs i h.
Proof.
  intros Hl [n Hn]%list_elem_of_lookup Hk. pose proof (enqs_position i h n _ Hl Hn) as E. cbn in E.
  rewrite (enqs_deqs i h Hl) in Hn. rewrite lookup_app_l in Hn by lia.
  by eapply list_elem_of_lookup_2.
Qed.

Definition qevents_of (t : nat) (h : qhist) : list qevent :=
  (filter (fun x => x.1 = t) h).*2.

Lemma qevents_of_cons t u e h :
  qevents_of t ((u, e) :: h) = if decide (u = t) then e :: qevents_of t h else qevents_of t h.
Proof. unfold qevents_of. rewrite filter_cons. cbn. by destruct (decide (u = t)). Qed.

Section subqueue.
Context {X : Type}.
Notation qmemory := (qmemory_of X).
Notation qnode_t := (qnode_of X).
Implicit Types (m : qmemory) (n : qnode_t).

(** ** One sub-queue

    [L] are its nodes since the creation, the first one a dummy; [p] is the
    position of the tail pointer, [g] that of the head pointer.  At most one
    node is linked behind the tail. *)
Record subq (m : qmemory) (h : qhist) (i : Z) (L : list Z) (p g : nat) : Prop := mkSubq {
  sq_list : qlist m L;
  sq_pos : (g <= p < length L)%nat;
  sq_pending : (length L <= p + 2)%nat;
  sq_enqs : length L = S (length (enqs i h));
  sq_deqs : length (deqs i h) = g;
  sq_vals : forall k x, L !! S k = Some x ->
    exists n, qnodes m !! x = Some n /\ enqs i h !! k = Some (Z.of_nat (S k), qval n);
}.

(** Nothing that concerns sub-queue [i] has changed. *)
Lemma subq_same m m' h h' i L p g :
  subq m h i L p g ->
  (forall a, a ∈ L -> qnodes m' !! a = qnodes m !! a /\ (qpriv m !! a = None -> qpriv m' !! a = None)) ->
  enqs i h' = enqs i h -> deqs i h' = deqs i h ->
  subq m' h' i L p g.
Proof.
  intros [] Hs E1 E2. split; rewrite ?E1, ?E2; try done; [by eapply qlist_same|].
  intros k x Hk. destruct (sq_vals0 k x Hk) as (n & En & Hv). exists n.
  destruct (Hs x) as [-> _]; [by eapply list_elem_of_lookup_2|]. done.
Qed.

Lemma qmem_link_same a b m (L : list Z) :
  a ∉ L -> b ∉ L -> forall x, x ∈ L ->
  qnodes (qmem_link a b m) !! x = qnodes m !! x /\
  (qpriv m !! x = None -> qpriv (qmem_link a b m) !! x = None).
Proof.
  intros Ha Hb x Hx. assert (a <> x) by (by intros ->). assert (b <> x) by (by intros ->).
  cbn. by rewrite lookup_alter_ne, lookup_delete_ne.
Qed.

Lemma qnodes_link_val a b m x n :
  qnodes m !! x = Some n -> exists n', qnodes (qmem_link a b m) !! x = Some n' /\ qval n' = qval n /\ qtag n' = qtag n.
Proof.
  intros E. cbn. destruct (decide (a = x)) as [->|].
  - rewrite lookup_alter_eq, E. by eexists.
  - rewrite lookup_alter_ne by done. by exists n.
Qed.

(** An enqueue. *)
Lemma subq_link m h t i L p g a b nb :
  subq m h i L p g -> NoDup L -> last L = Some a -> length L = S p ->
  qnodes m !! b = Some nb -> qnext nb = 0 -> b <> 0 -> b ∉ L ->
  subq (qmem_link a b m) ((t, Enq i (Z.of_nat (length L)) (qval nb)) :: h) i (L ++ [b]) p g.
Proof.
  intros [] Hnd Hlast Hlen Eb Hb0 Hb Hbn.
  pose proof Hlast as [L' HL']%last_Some. 
  split; cbn; rewrite ?decide_True by done.
  - eapply qlist_link; try done. rewrite HL', length_app. cbn.
    replace (length L' + 1 - 1)%nat with (length L') by lia. rewrite take_app_length.
    rewrite HL' in Hnd. apply NoDup_app in Hnd as (_ & Hd & _). intros Ha.
    apply (Hd _ Ha). by apply list_elem_of_singleton.
  - rewrite length_app; cbn. lia.
  - rewrite length_app; cbn. lia.
  - rewrite !length_app; cbn. lia.
  - done.
  - intros k x [Hk|[Hk Hx]]%lookup_app_Some.
    + destruct (sq_vals0 k x Hk) as (n & En & Hv).
      destruct (qnodes_link_val a b m x n En) as (n' & En' & Ev & _).
      exists n'. split; [done|]. rewrite Ev. by apply lookup_app_l_Some.
    + apply list_lookup_singleton_Some in Hx as [Hk2 <-].
      destruct (qnodes_link_val a b m b nb Eb) as (n' & En' & Ev & _).
      exists n'. split; [done|]. rewrite Ev, lookup_app_r by lia.
      replace (k - length (enqs i h))%nat with 0%nat by lia. cbn. do 2 f_equal. lia.
Qed.

(** The tail pointer moves to a linked node. *)
Lemma subq_advance m h i L p g :
  subq m h i L p g -> (S p < length L)%nat -> subq m h i L (S p) g.
Proof. intros [] ?. split; try done; lia. Qed.

(** The value at a position. *)
Lemma subq_val m h i L p g b n :
  subq m h i L p g -> L !! S g = Some b -> qnodes m !! b = Some n -> qlegal h ->
  head (qcontents i h) = Some (Z.of_nat (S g), qval n).
Proof.
  intros [] Hb En Hl. destruct (sq_vals0 g b Hb) as (n' & En' & Hv).
  assert (n' = n) as -> by congruence. rewrite qcontents_drop by done.
  rewrite sq_deqs0. destruct (drop g (enqs i h)) as [|x xs] eqn:Ed.
  - assert (Hl0 := f_equal length Ed). rewrite length_drop in Hl0. cbn in Hl0.
    apply lookup_lt_Some in Hv. lia.
  - assert (H0 : drop g (enqs i h) !! 0%nat = Some (Z.of_nat (S g), qval n))
      by (by rewrite lookup_drop, Nat.add_0_r).
    by rewrite Ed in H0.
Qed.

(** A dequeue. *)
Lemma subq_take m h t i L p g b n :
  subq m h i L p g -> L !! S g = Some b -> qnodes m !! b = Some n -> (g < p)%nat ->
  subq m ((t, Deq i (Z.of_nat (S g)) (qval n)) :: h) i L p (S g).
Proof.
  intros [] Hb En Hlt. split; cbn; rewrite ?decide_True by done; try done; [lia|].
  rewrite length_app; cbn. lia.
Qed.

Lemma qdisjoint_nodup Ls i L : qdisjoint Ls -> Ls !! i = Some L -> NoDup L.
Proof.
  intros Hd Hi. apply NoDup_alt. intros k k' a Hk Hk'.
  by destruct (Hd i i L L k k' a Hi Hi Hk Hk').
Qed.

Lemma qdisjoint_link Ls i L b :
  qdisjoint Ls -> Ls !! i = Some L -> (forall j L', Ls !! j = Some L' -> b ∉ L') ->
  qdisjoint (<[i := L ++ [b]]> Ls).
Proof.
  intros Hd Hi Hb j1 j2 L1 L2 k1 k2 a H1 H2 E1 E2.
  assert (Hcase : forall j L' k, <[i := L ++ [b]]> Ls !! j = Some L' -> L' !! k = Some a ->
    (exists L0, Ls !! j = Some L0 /\ L0 !! k = Some a) \/
    (j = i /\ k = length L /\ a = b)).
  { intros j L' k Hj Ek. rewrite list_lookup_insert in Hj. case_decide as Hc.
    - destruct Hc as [-> _]. injection Hj as <-.
      apply lookup_app_Some in Ek as [Ek|[Hk Ek]]; [left; eauto|right].
      apply list_lookup_singleton_Some in Ek as [? <-]. split_and!; [done|lia|done].
    - left; eauto. }
  destruct (Hcase j1 L1 k1 H1 E1) as [(L3 & H3 & E3)|(? & ? & ?)];
    destruct (Hcase j2 L2 k2 H2 E2) as [(L4 & H4 & E4)|(? & ? & ?)];
    subst.
  - by eapply Hd.
  - exfalso. apply (Hb j1 L3 H3). by eapply list_elem_of_lookup_2.
  - exfalso. apply (Hb j2 L4 H4). by eapply list_elem_of_lookup_2.
  - done.
Qed.
End subqueue.
