(* ===== verification/FifoOrder.v ===== *)
(** The order in which the elements of several FIFO queues were enqueued, as far
    as it can be told from their windows: an element of an earlier window is
    older, and so is one before it in its own sub-queue.  Used for the queues
    whose windows only move up. *)
From S2P Require Import Prelude QueueHeap.
From Stdlib Require Import Sorted.

(** The elements in the queue, with their places, oldest enqueue first. *)
Fixpoint fifo (h : qhist) : list (Z * Z * Z) :=
  match h with
  | [] => []
  | (_, Enq i k v) :: h => fifo h ++ [(i, k, v)]
  | (_, Deq i k _) :: h => filter (fun x => x.1 <> (i, k)) (fifo h)
  | (_, Nothing _) :: h => fifo h
  end.

Section order.
(** The number of the window a place is in. *)
Context (wn : Z * Z -> Z).

(** [x] was enqueued before [y]: in no later window, and before it in its own
    sub-queue. *)
Definition older (x y : Z * Z * Z) : Prop :=
  wn x.1 <= wn y.1 /\ (x.1.1 = y.1.1 -> x.1.2 < y.1.2).

Lemma sorted_split xs x :
  StronglySorted older xs -> x ∈ xs ->
  exists pre post, xs = pre ++ x :: post /\ (forall y, y ∈ pre -> older y x) /\
    filter (fun y => y.1 <> x.1) xs = pre ++ post.
Proof.
  intros Hs Hx. apply list_elem_of_split in Hx as (pre & post & ->). exists pre, post.
  assert (Hpre : (forall y, y ∈ pre -> older y x) /\ (forall y, y ∈ post -> older x y)).
  { induction pre as [|z pre IH]; cbn in Hs.
    - split; [by intros y ?%elem_of_nil|]. apply StronglySorted_inv in Hs as [_ Hf].
      by apply Forall_forall.
    - apply StronglySorted_inv in Hs as [Hs Hf]. destruct (IH Hs) as [H1 H2]. split; [|done].
      intros y [->|Hy]%elem_of_cons; [|by apply H1].
      rewrite Forall_forall in Hf. apply Hf. set_solver. }
  destruct Hpre as [H1 H2]. split; [done|split; [done|]].
  rewrite filter_app, filter_cons_False by (by intros H).
  f_equal; apply filter_all; intros y Hy E.
  - destruct (H1 y Hy) as [_ Ho]. rewrite E in Ho. specialize (Ho eq_refl). lia.
  - destruct (H2 y Hy) as [_ Ho]. rewrite E in Ho. specialize (Ho eq_refl). lia.
Qed.

Lemma sorted_filter (P : Z * Z * Z -> Prop) `{!forall x, Decision (P x)} xs :
  StronglySorted older xs -> StronglySorted older (filter P xs).
Proof.
  induction 1 as [|x xs Hs IH Hf]; [constructor|]. rewrite filter_cons.
  destruct (decide (P x)); [|done]. constructor; [done|].
  rewrite Forall_forall in Hf |- *. intros y Hy. apply Hf.
  apply list_elem_of_filter in Hy as [_ Hy]. done.
Qed.

Lemma sorted_snoc xs x :
  StronglySorted older xs -> (forall y, y ∈ xs -> older y x) -> StronglySorted older (xs ++ [x]).
Proof.
  induction 1 as [|y xs Hs IH Hf]; intros Hx; cbn; [repeat constructor|].
  constructor; [apply IH; intros z Hz; apply Hx; set_solver|].
  apply Forall_app. split; [done|]. constructor; [|done]. apply Hx. set_solver.
Qed.

Lemma sorted_nodup xs : StronglySorted older xs -> NoDup xs.*1.
Proof.
  induction 1 as [|x xs Hs IH Hf]; [constructor|]. cbn. constructor; [|done].
  intros Hx. apply list_elem_of_fmap in Hx as (y & E & Hy).
  rewrite Forall_forall in Hf. destruct (Hf y Hy) as [_ Ho]. rewrite E in Ho.
  specialize (Ho eq_refl). lia.
Qed.

(** The enqueue order lists exactly what is in the [w] sub-queues. *)
Definition fifo_ok (w : Z) (h : qhist) : Prop :=
  StronglySorted older (fifo h) /\
  forall i k v, (i, k, v) ∈ fifo h <-> 0 <= i < w /\ (k, v) ∈ qcontents i h.

Lemma fifo_ok_nil w : fifo_ok w [].
Proof.
  split; [constructor|]. intros i k v. cbn. split.
  - by intros ?%elem_of_nil.
  - by intros [_ ?%elem_of_nil].
Qed.

Lemma fifo_ok_snoc w h t i k v :
  fifo_ok w h -> 0 <= i < w -> (forall y, y ∈ fifo h -> older y (i, k, v)) ->
  fifo_ok w ((t, Enq i k v) :: h).
Proof.
  intros [Hsort Hin] Hi Hold. split; cbn; [by apply sorted_snoc|].
  intros j k' v'. rewrite elem_of_app, Hin, list_elem_of_singleton.
  destruct (decide (i = j)) as [->|Hne].
  - rewrite elem_of_app, list_elem_of_singleton. split.
    + intros [[? ?]|[= -> ->]]; tauto.
    + intros [? [?|[= -> ->]]]; tauto.
  - split; [intros [?|[= -> _ _]]; [done|done]|by left].
Qed.

(** What a dequeue takes out, and what was there before it. *)
Lemma fifo_ok_remove w h t i k v :
  qlegal h -> fifo_ok w h -> 0 <= i < w -> head (qcontents i h) = Some (k, v) ->
  exists pre post, fifo h = pre ++ (i, k, v) :: post /\ fifo ((t, Deq i k v) :: h) = pre ++ post /\
    (forall y, y ∈ pre -> older y (i, k, v)) /\ NoDup pre.*1 /\ fifo_ok w ((t, Deq i k v) :: h).
Proof.
  intros Hlg [Hsort Hin] Hi Hhead.
  destruct (qcontents i h) as [|kv rest] eqn:Econt; [done|]. injection Hhead as ->.
  assert (Hx : (i, k, v) ∈ fifo h) by (apply Hin; rewrite Econt; set_solver).
  destruct (sorted_split _ _ Hsort Hx) as (pre & post & Efifo & Hold & Efil).
  exists pre, post. cbn in Efil |- *. split; [done|split; [done|split; [done|split]]].
  { pose proof (sorted_nodup _ Hsort) as Hnd. rewrite Efifo, fmap_app in Hnd.
    by apply NoDup_app in Hnd as (? & _). }
  split; [by apply sorted_filter|].
  intros j k' v'. cbn. rewrite list_elem_of_filter, Hin. cbn.
  assert (Hfirst : forall k' v', (k', v') ∈ rest -> k' <> k).
  { intros k2 v2 Hr.
    assert (Hnd : forall n m kv1 kv2, qcontents i h !! n = Some kv1 ->
      qcontents i h !! m = Some kv2 -> kv1.1 = kv2.1 -> n = m).
    { intros n m kv1 kv2 H1 H2 E. rewrite qcontents_drop, lookup_drop in H1, H2 by done.
      apply enqs_position in H1, H2; [|done..]. lia. }
    apply list_elem_of_lookup in Hr as [n Hn]. intros ->.
    pose proof (Hnd 0%nat (S n) (k, v) (k, v2)) as Hz. rewrite Econt in Hz.
    specialize (Hz eq_refl Hn eq_refl). done. }
  destruct (decide (i = j)) as [->|Hne].
  - rewrite Econt. cbn. rewrite elem_of_cons. split.
    + intros (Hn & Hj & [[= -> ->]|Hr]); [done|done].
    + intros [Hj Hr]. split; [|tauto]. intros [= ->]. by eapply Hfirst.
  - split; [tauto|]. intros ?. split; [congruence|done].
Qed.
End order.

(** Renumbering the windows. *)
Lemma fifo_ok_ext (wn wn' : Z * Z -> Z) w h :
  fifo_ok wn w h -> (forall x, x ∈ fifo h -> wn' x.1 = wn x.1) -> fifo_ok wn' w h.
Proof.
  intros [Hsort Hin] Hext. split; [|done]. clear Hin.
  induction Hsort as [|x xs Hs IH Hf]; [constructor|].
  constructor; [apply IH; intros y Hy; apply Hext; set_solver|].
  rewrite Forall_forall in Hf |- *. intros y Hy. destruct (Hf y Hy) as [H1 H2].
  split; [|done]. rewrite !Hext by set_solver. done.
Qed.

(** Where the elements of a sub-queue are. *)
Lemma qcontents_place (h : qhist) i k v :
  qlegal h -> (k, v) ∈ qcontents i h ->
  Z.of_nat (length (deqs i h)) < k <= Z.of_nat (length (enqs i h)).
Proof.
  intros Hlg [n Hn]%list_elem_of_lookup.
  assert (He : enqs i h !! (length (deqs i h) + n)%nat = Some (k, v)).
  { rewrite (enqs_deqs i _ Hlg), lookup_app_r by lia.
    by replace (length (deqs i h) + n - length (deqs i h))%nat with n by lia. }
  pose proof (enqs_position i _ _ _ Hlg He) as Ek. cbn in Ek. apply lookup_lt_Some in He. lia.
Qed.

(** It has as many elements as the sub-queues together. *)
Lemma fifo_length wn w h :
  qlegal h -> fifo_ok wn w h -> Z.of_nat (length (fifo h)) = sum_upto (fun i => Z.of_nat (length (qcontents i h))) w.
Proof.
  intros Hlg [Hsort Hin]. set (place (i : nat) (kv : Z * Z) := (Z.of_nat i, kv.1, kv.2)).
  set (all := seq 0 (Z.to_nat w) ≫= (fun i => place i <$> qcontents (Z.of_nat i) h)).
  assert (Hperm : Permutation (fifo h) all).
  { apply NoDup_Permutation.
    - apply (NoDup_fmap_1 fst). by apply (sorted_nodup wn).
    - apply NoDup_bind; [| |apply NoDup_seq].
      + intros i j x _ _ (kv & -> & _)%list_elem_of_fmap (kv' & [= E _ _] & _)%list_elem_of_fmap. lia.
      + intros i _. apply NoDup_fmap_2; [by intros [k v] [k' v'] [= -> ->]|].
        apply NoDup_alt. intros n m kv H1 H2. rewrite qcontents_drop, lookup_drop in H1, H2 by done.
        apply enqs_position in H1, H2; [lia|done..].
    - intros [[i k] v]. rewrite Hin. unfold all. rewrite list_elem_of_bind. split.
      + intros [Hi Hkv]. exists (Z.to_nat i). split; [|apply elem_of_seq; lia].
        apply list_elem_of_fmap. exists (k, v). unfold place. rewrite Z2Nat.id by lia. done.
      + intros (j & (kv & [= -> -> ->] & Hkv)%list_elem_of_fmap & Hj%elem_of_seq). destruct kv. split; [lia|done]. }
  rewrite (Permutation_length Hperm). unfold all, sum_upto. clear Hperm all Hin Hsort. generalize 0%nat as a.
  induction (Z.to_nat w) as [|n IH]; intros a; cbn [seq mbind list_bind foldr]; [done|].
  rewrite length_app, length_fmap, Nat2Z.inj_add. f_equal. apply IH.
Qed.

(** ** Windows of a fixed depth *)

(** The number of the window, of the given depth, that a position is in. *)
Definition winno (depth k : Z) : Z := (k - 1) / depth.

Lemma winno_in depth W k : 0 < depth -> (depth | W) -> W - depth < k <= W -> winno depth k = W / depth - 1.
Proof.
  intros Hd [n ->] Hk. unfold winno. rewrite Z.div_mul by lia.
  symmetry. apply Z.div_unique with (k - 1 - depth * (n - 1)); nia.
Qed.

Lemma winno_le depth W k : 0 < depth -> (depth | W) -> k <= W -> winno depth k <= W / depth - 1.
Proof.
  intros Hd [n ->] Hk. unfold winno. rewrite Z.div_mul by lia.
  enough ((k - 1) / depth < n) by lia. apply Z.div_lt_upper_bound; nia.
Qed.

Lemma winno_bound depth W k :
  0 < depth -> (depth | W) -> winno depth k <= W / depth - 1 -> k <= W.
Proof.
  intros Hd [n ->] Hk. unfold winno in Hk. rewrite Z.div_mul in Hk by lia.
  destruct (decide (k <= n * depth)); [done|].
  assert (n <= (k - 1) / depth) by (apply Z.div_le_lower_bound; nia). lia.
Qed.

Section fixed.
Context (w d : Z) (Hd : 0 < d) (h : qhist) (Hlg : qlegal h).
Notation puts i := (Z.of_nat (length (enqs i h))).
Notation gets i := (Z.of_nat (length (deqs i h))).

(** The window of a place is that of its row. *)
Definition fifo_in : qhist -> Prop := fifo_ok (fun p => winno d p.2) w.

Lemma fifo_in_nothing t i : fifo_in h -> fifo_in ((t, Nothing i) :: h).
Proof. done. Qed.

Lemma fixed_enq t i v P :
  fifo_in h -> 0 <= i < w -> (d | P) -> (forall j, 0 <= j < w -> puts j <= P) -> P - d <= puts i < P ->
  fifo_in ((t, Enq i (puts i + 1) v) :: h).
Proof.
  intros Hff Hi HP Hle Hroom.
  apply fifo_ok_snoc; [done|done|]. intros [[j k] v'] Hy. apply Hff in Hy as [Hj Hy].
  pose proof (qcontents_place h j k v' Hlg Hy) as Hk. specialize (Hle j Hj). split; cbn.
  - rewrite (winno_in d P (puts i + 1)) by (done || lia). apply winno_le; [done|done|lia].
  - intros ->. lia.
Qed.

(** A dequeue from the window up to [G] takes one of the [d * (w - 1) + 1] oldest
    elements. *)
Lemma fixed_deq t i k v G :
  fifo_in h -> 0 <= i < w -> (d | G) -> (forall j, 0 <= j < w -> G - d <= gets j) -> gets i < G ->
  head (qcontents i h) = Some (k, v) -> k = gets i + 1 ->
  exists pre post, (fifo h).*2 = pre ++ v :: post /\ Z.of_nat (length pre) <= d * (w - 1) /\
    (fifo ((t, Deq i k v) :: h)).*2 = pre ++ post /\ fifo_in ((t, Deq i k v) :: h).
Proof.
  intros Hff Hi HG Hge Hroom Hhead Hk.
  destruct (fifo_ok_remove _ _ _ t i k v Hlg Hff Hi Hhead) as (pre & post & E1 & E2 & Hold & Hnd & Hff').
  exists pre.*2, post.*2. rewrite E1, E2, !fmap_app. split; [done|split; [|split; [done|done]]].
  rewrite length_fmap, <- (length_fmap fst pre).
  apply (places_bound w d (G - d) i); [done|lia|done|].
  intros j k' Hjk. apply list_elem_of_fmap in Hjk as ([[j' k''] v'] & [= -> ->] & Hy).
  assert (Hyin : (j', k'', v') ∈ fifo h) by (rewrite E1; set_solver).
  apply Hff in Hyin as [Hj Hyc]. pose proof (qcontents_place h j' k'' v' Hlg Hyc) as Hpl.
  destruct (Hold _ Hy) as [Hwin Hsame]. cbn in Hwin, Hsame. specialize (Hge j' Hj) as Hgej.
  split; [done|]. split.
  - intros ->. specialize (Hsame eq_refl). lia.
  - rewrite (winno_in d G k) in Hwin by (done || (specialize (Hge i Hi); lia)).
    pose proof (winno_bound _ _ _ Hd HG Hwin). lia.
Qed.
End fixed.

(** ** The specification: a k-out-of-order queue *)

Inductive kq_run (bound : Z) : list (op * Z) -> list Z -> Prop :=
| kq_nil : kq_run bound [] []
| kq_enq done q key v :
    kq_run bound done q -> kq_run bound (done ++ [(Enqueue key v, 1)]) (q ++ [v])
| kq_deq done pre v post :
    kq_run bound done (pre ++ v :: post) -> Z.of_nat (length pre) <= bound ->
    kq_run bound (done ++ [(Dequeue, v)]) (pre ++ post)
| kq_empty done :
    kq_run bound done [] -> kq_run bound (done ++ [(Dequeue, 0)]) [].
