(* ===== verification/Queue2Dd.v ===== *)
(** src/2Dd-queue/2Dd-queue.c: the relaxed queue made of [width] Michael-Scott
    queues, whose head and tail pointers are descriptors with a count, in
    [get_array] and [put_array]. *)
From S2P Require Import Prelude Conc Random Thread Params Window2Dd StackHeap QueueHeap.

(** ** State *)

(** [put_count] and [get_count] are the same word (a union). *)
Record descriptor_t := mkDesc { node : Z; count : Z }.

#[export] Instance descriptor_eq_dec : EqDecision descriptor_t.
Proof. solve_decision. Defined.

(** [links] (the nodes of each sub-queue since its creation) and [hist] are
    history variables: written, never read. *)
Record queues := mkQueues {
  put_array : list descriptor_t;
  get_array : list descriptor_t;
  heap : qmemory;
  links : list (list Z);
  hist : qhist;
}.

Notation state := (shared queues).
Notation MQ := (prog state tls).

Definition lookup_put (i : Z) (g : state) : option descriptor_t :=
  put_array (subs g) !! Z.to_nat i.
Definition lookup_get (i : Z) (g : state) : option descriptor_t :=
  get_array (subs g) !! Z.to_nat i.
Definition lookup_node (a : Z) (g : state) : option qnode_t := qnodes (heap (subs g)) !! a.

(** ** Operations *)

Section code.
Context {A : Allocator qnode_t}.

(** The copy of a descriptor is one load per word, in the order of the struct. *)
Definition read_put (i : Z) : MQ descriptor_t :=
  let* n := load (fun g => node <$> lookup_put i g) in
  let* c := load (fun g => count <$> lookup_put i g) in
  Ret (mkDesc n c).
Definition read_get (i : Z) : MQ descriptor_t :=
  let* n := load (fun g => node <$> lookup_get i g) in
  let* c := load (fun g => count <$> lookup_get i g) in
  Ret (mkDesc n c).

#[export] Instance queue_ops : SubOps queues descriptor_t :=
  {| put_descriptor := read_put;
     get_descriptor := read_get;
     put_count_at i := load (fun g => count <$> lookup_put i g);
     d_put_count := count;
     d_get_count := count |}.

(** [create_node(key, val, NULL)]: private until it is linked. *)
Definition create_node (k v nxt : Z) : MQ Z :=
  Act (fun g l =>
    let s := subs g in
    let a := alloc_addr (qnodes (heap s)) in
    Some (a, set_subs (mkQueues (put_array s) (get_array s)
                         (qmem_alloc (thread_id l) a (mkQnode nxt k v) (heap s))
                         (links s) (hist s)) g, l)) Ret.

Definition load_next (a : Z) : MQ Z := load (fun g => qnext <$> lookup_node a g).
Definition load_val (a : Z) : MQ Z := load (fun g => qval <$> lookup_node a g).

(** Linking [b] after [a] in sub-queue [i], with the history. *)
Definition link_node (t : nat) (i a b : Z) (s : queues) : queues :=
  let v := from_option qval 0 (qnodes (heap s) !! b) in
  let L := default [] (links s !! Z.to_nat i) in
  mkQueues (put_array s) (get_array s) (qmem_link a b (heap s))
    (<[Z.to_nat i := L ++ [b]]> (links s))
    ((t, Enq i (Z.of_nat (length L)) v) :: hist s).

(** [enq_cas(&tail->next, new_node)]: [CAS(&tail->next, NULL, new_node)];
    [i], the thread's index, is for the history. *)
Definition enq_cas (i tail new_node : Z) : MQ bool :=
  Act (fun g l =>
    n ← lookup_node tail g;
    if decide (qnext n = 0) then
      Some (true, set_subs (link_node (thread_id l) i tail new_node (subs g)) g, l)
    else Some (false, g, l)) Ret.

(** [CAE(&set->put_array[i].descriptor, &d, &new)]. *)
Definition put_cae (i : Z) (d new : descriptor_t) : MQ bool :=
  update (fun g _ =>
    cur ← lookup_put i g;
    let s := subs g in
    if decide (cur = d) then
      Some (true, set_subs (mkQueues (<[Z.to_nat i := new]> (put_array s)) (get_array s)
                              (heap s) (links s) (hist s)) g)
    else Some (false, g)).

(** [deq_cae]: the same on [get_array]; on success the history records the
    dequeue of [new.node]. *)
Definition take_node (t : nat) (i : Z) (new : descriptor_t) (s : queues) : queues :=
  mkQueues (put_array s) (<[Z.to_nat i := new]> (get_array s)) (heap s) (links s)
    ((t, Deq i (count new) (from_option qval 0 (qnodes (heap s) !! node new))) :: hist s).
Definition deq_cae (i : Z) (d new : descriptor_t) : MQ bool :=
  Act (fun g l =>
    cur ← lookup_get i g;
    if decide (cur = d) then
      Some (true, set_subs (take_node (thread_id l) i new (subs g)) g, l)
    else Some (false, g, l)) Ret.

(** One iteration; leaving the loop gives the last two descriptors. *)
Definition enqueue_body (set : ds_t) (new_node : Z) (contention : bool)
    : MQ (bool + descriptor_t * descriptor_t) :=
  let* descriptor := put_window set contention in
  let tail := node descriptor in
  let new_descriptor := mkDesc new_node (u64 (count descriptor + 1)) in
  let* nxt := load_next tail in
  if nxt =? 0 then
    let* index := get thread_index in
    let* c := load (fun g => count <$> lookup_put index g) in
    let* max := get thread_PWindow in
    if max <=? c then continue contention
    else
      let* index := get thread_index in
      let* ok := enq_cas index tail new_node in
      if ok then break (descriptor, new_descriptor)
      else put (count_stat inc_put_cas_fail) ;;; continue true
  else
    let* nxt := load_next tail in
    let* index := get thread_index in
    let* ok := put_cae index descriptor (mkDesc nxt (count new_descriptor)) in
    put (count_stat inc_put_cas_fail) ;;;
    continue (if ok then contention else true).

Definition enqueue (set : ds_t) (k v : Z) : MQ Z :=
  let* new_node := create_node k v 0 in
  let* (descriptor, new_descriptor) := while (enqueue_body set new_node) false in
  let* index := get thread_index in
  let* _ := put_cae index descriptor new_descriptor in
  Ret 1.

Definition dequeue_body (set : ds_t) (contention : bool) : MQ (bool + Z) :=
  let* deq_descriptor := get_window set contention in
  let head := node deq_descriptor in
  let* index := get thread_index in
  let* enq_descriptor := read_put index in
  let tail := node enq_descriptor in
  if head =? tail then
    let* nxt := load_next head in
    if nxt =? 0 then
      put (count_stat inc_null) ;;;
      break 0
    else
      let* nxt := load_next tail in
      let* index := get thread_index in
      let* ok := put_cae index enq_descriptor (mkDesc nxt (u64 (count enq_descriptor + 1))) in
      put (count_stat inc_get_cas_fail) ;;;
      continue (if ok then contention else true)
  else
    let* nxt := load_next head in
    let* index := get thread_index in
    let* ok := deq_cae index deq_descriptor (mkDesc nxt (u64 (count deq_descriptor + 1))) in
    if ok then
      let* nxt := load_next head in
      let* val := load_val nxt in
      break val
    else
      put (count_stat inc_get_cas_fail) ;;;
      continue true.

Definition dequeue (set : ds_t) : MQ Z := while (dequeue_body set) false.

(** [queue_size]: [int q] counts the sub-queues. *)
Definition queue_size (set : ds_t) : MQ Z :=
  while (fun '(q, size) =>
    if q <? width set then
      let* head := load (fun g => node <$> lookup_get q g) in
      let* tail := load (fun g => node <$> lookup_put q g) in
      let* size := while (fun '(head, size) =>
        if negb (head =? tail) then
          let* head := load_next head in
          continue (head, u64 (size + 1))
        else break size) (head, size) in
      continue (q + 1, size)
    else break size) (0, 0).

Definition exec_op (set : ds_t) (o : op) : MQ Z :=
  match o with Enqueue k v => enqueue set k v | Dequeue => dequeue set end.

(** The loop of [create_queue] over the sub-queues: one dummy node each. *)
Fixpoint alloc_dummies (n : nat) (h : gmap Z qnode_t) : list Z * gmap Z qnode_t :=
  match n with
  | O => ([], h)
  | S n =>
      let a := alloc_addr h in
      let '(nodes, h') := alloc_dummies n (<[a := mkQnode 0 0 0]> h) in
      (a :: nodes, h')
  end.

Definition create_queue (num_threads width depth k_mode relaxation_bound : Z)
    : option (ds_t * state) :=
  p ← calculate 1 32 64 product_u32 num_threads width depth k_mode relaxation_bound;
  let set := mkDs 2 (p_width p) (p_depth p) (p_bound p) k_mode in
  let '(nodes, h) := alloc_dummies (Z.to_nat (p_width p)) ∅ in
  let array := (fun a => mkDesc a 0) <$> nodes in
  Some (set, initialize_global_window (p_depth p)
               (mkShared 0 0 (mkQueues array array (mkQmem h ∅) ((fun a => [a]) <$> nodes) []))).
End code.

(** ** Protocol *)

Definition put_of (s : queues) (i : Z) : Z :=
  from_option count 0 (put_array s !! Z.to_nat i).
Definition get_of (s : queues) (i : Z) : Z :=
  from_option count 0 (get_array s !! Z.to_nat i).
Definition links_of (s : queues) (i : Z) : list Z := default [] (links s !! Z.to_nat i).
(** Node [a] is the [k]-th of sub-queue [i], counting from the dummy. *)
Definition at_pos (s : queues) (i : Z) (k : nat) (a : Z) : Prop := links_of s i !! k = Some a.

(** The descriptors of sub-queue [i] are at the positions [p] and [g] that
    their counts say. *)
Record sub_at (s : queues) (i : Z) (p g : nat) (a b : Z) : Prop := mkSubAt {
  sa_put : put_array s !! Z.to_nat i = Some (mkDesc a (Z.of_nat p));
  sa_get : get_array s !! Z.to_nat i = Some (mkDesc b (Z.of_nat g));
  sa_puta : at_pos s i p a;
  sa_geta : at_pos s i g b;
  sa_subq : subq (heap s) (hist s) i (links_of s i) p g;
}.

Definition queues_inv (set : ds_t) (s : queues) : Prop :=
  Z.of_nat (length (put_array s)) = width set /\ Z.of_nat (length (get_array s)) = width set /\
  Z.of_nat (length (links s)) = width set /\
  qmem_ok (heap s) /\ qdisjoint (links s) /\ qlegal (hist s) /\
  forall i, 0 <= i < width set -> exists p g a b, sub_at s i p g a b.

(** What every step preserves. *)
Record evolves (s s' : queues) : Prop := mkEvolves {
  ev_put i : put_of s i <= put_of s' i;
  ev_get i : get_of s i <= get_of s' i;
  ev_links i : links_of s i `prefix_of` links_of s' i;
  ev_heap : qkeeps (heap s) (heap s');
  ev_hist : hist s `suffix_of` hist s';
}.

Definition untouched (t : nat) (s s' : queues) : Prop :=
  qowns t (heap s) (heap s') /\ qevents_of t (hist s') = qevents_of t (hist s).

#[export] Instance queue_proto : SubProto queues descriptor_t :=
  {| putc := put_of;
     getc := get_of;
     linked s i := Z.of_nat (length (links_of s i)) - 1;
     s_inv := queues_inv;
     s_rely t s s' := evolves s s' /\ untouched t s s';
     s_guar t s s' := evolves s s' /\ forall u, u <> t -> untouched u s s';
     snap_put i d s := exists k, at_pos s i k (node d) /\ Z.of_nat k <= count d <= put_of s i;
     snap_get i d s := exists k, at_pos s i k (node d) /\ Z.of_nat k <= count d <= get_of s i;
     s_limit := 2 ^ 64 |}.

Lemma q2d_evolves_refl s : evolves s s.
Proof. by split. Qed.
Lemma q2d_evolves_trans s1 s2 s3 : evolves s1 s2 -> evolves s2 s3 -> evolves s1 s3.
Proof.
  intros [] []. split; [intros i; etrans; eauto..| |by etrans]. by eapply qkeeps_trans.
Qed.
Lemma q2d_untouched_refl t s : untouched t s s.
Proof. split; [by intros a n|done]. Qed.

Lemma q2d_at_pos_evolves s s' i k a : evolves s s' -> at_pos s i k a -> at_pos s' i k a.
Proof. intros [] H. eapply prefix_lookup_Some; [exact H|apply ev_links0]. Qed.

Lemma sub_at_counts s i p g a b :
  sub_at s i p g a b -> put_of s i = Z.of_nat p /\ get_of s i = Z.of_nat g /\
    (g <= p < length (links_of s i))%nat /\ (length (links_of s i) <= p + 2)%nat.
Proof.
  intros [Ep Eg _ _ Hq]. unfold put_of, get_of. rewrite Ep, Eg. cbn.
  split_and!; try done; apply Hq.
Qed.

#[export] Instance queue_proto_laws : SubProtoLaws queues descriptor_t.
Proof.
  split; cbn [s_limit s_rely s_guar s_inv putc getc linked snap_put snap_get queue_proto].
  - done.
  - intros t s. split; [apply q2d_evolves_refl|apply q2d_untouched_refl].
  - intros t s1 s2 s3 [E1 [O1 H1]] [E2 [O2 H2]]. split; [by eapply q2d_evolves_trans|].
    split; [|by rewrite H2]. intros a n E P. destruct (O1 a n E P). by apply O2.
  - intros t s. split; [apply q2d_evolves_refl|intros u _; apply q2d_untouched_refl].
  - intros set t u s1 s2 Htu _ [? H]. split; [done|]. by apply H.
  - intros t s1 s2 i [[] _]. done.
  - intros t s1 s2 i [[] _]. done.
  - intros t s1 s2 i [[] _]. done.
  - intros t s1 s2 i [[] _]. done.
  - intros set s i (_&_&_&_&_&_&H) Hi. destruct (H i Hi) as (p & g & a & b & Hs).
    destruct (sub_at_counts _ _ _ _ _ _ Hs) as (-> & -> & ? & ?). lia.
  - intros t i d s1 s2 (k & Hk & ?) [Hev _]. exists k. split; [by eapply q2d_at_pos_evolves|].
    pose proof (ev_put _ _ Hev i). lia.
  - intros t i d s1 s2 (k & Hk & ?) [Hev _]. exists k. split; [by eapply q2d_at_pos_evolves|].
    pose proof (ev_get _ _ Hev i). lia.
Qed.

(** ** Reads *)

Section reads.
Context {A : Allocator qnode_t} (set : ds_t) (Hset : ds_ok set).
Notation W := (wprot set).
Implicit Types (g : state).

Lemma inv_sub_at g i :
  p_inv W g -> 0 <= i < width set -> exists p gp a b, sub_at (subs g) i p gp a b.
Proof. intros [_ (_&_&_&_&_&_&H)] Hi. by apply H. Qed.

Lemma rely_at_pos t g g' i k a :
  p_rely W t g g' -> at_pos (subs g) i k a -> at_pos (subs g') i k a.
Proof. intros (_ & _ & Hev & _). by apply q2d_at_pos_evolves. Qed.

(** Following [next] from a node of a sub-queue. *)
Lemma at_pos_next g i k a :
  p_inv W g -> 0 <= i < width set -> at_pos (subs g) i k a ->
  exists n, lookup_node a g = Some n /\
    if qnext n =? 0 then length (links_of (subs g) i) = S k
    else at_pos (subs g) i (S k) (qnext n).
Proof.
  intros HI Hi Hk. destruct (inv_sub_at g i HI Hi) as (p & gp & a' & b & []).
  destruct (qlist_node _ _ _ _ (sq_list _ _ _ _ _ _ sa_subq0) Hk) as (_ & n & En & _).
  exists n. split; [done|].
  exact (qlist_next _ _ _ _ _ (sq_list _ _ _ _ _ _ sa_subq0) Hk En).
Qed.

Lemma at_pos_nonnull g i k a :
  p_inv W g -> 0 <= i < width set -> at_pos (subs g) i k a -> a <> 0.
Proof.
  intros HI Hi Hk. destruct (inv_sub_at g i HI Hi) as (p & gp & a' & b & []).
  by destruct (qlist_node _ _ _ _ (sq_list _ _ _ _ _ _ sa_subq0) Hk).
Qed.

Lemma q2d_at_pos_inj g i k k' a :
  p_inv W g -> 0 <= i < width set -> at_pos (subs g) i k a -> at_pos (subs g) i k' a -> k = k'.
Proof.
  intros [_ (_&_&_&_&Hd&_&_)] Hi Hk Hk'. unfold at_pos, links_of in *.
  destruct (links (subs g) !! Z.to_nat i) as [L|] eqn:E; [|done].
  by destruct (Hd _ _ _ _ _ _ _ E E Hk Hk').
Qed.

Lemma wp_load_next t i k a (Q : Z -> state -> tls -> Prop) g l :
  0 <= i < width set -> at_pos (subs g) i k a ->
  (forall g', p_rely W t g g' -> p_inv W g' -> length (links_of (subs g') i) = S k -> Q 0 g' l) ->
  (forall b g', p_rely W t g g' -> p_inv W g' -> b <> 0 -> at_pos (subs g') i (S k) b -> Q b g' l) ->
  wp W t (load_next a) Q g l.
Proof.
  intros Hi Hk HQ0 HQ. apply wp_load; [apply _|]. intros g1 R1 I1 _.
  destruct (at_pos_next g1 i k a I1 Hi (rely_at_pos _ _ _ _ _ _ R1 Hk)) as (n & En & Hn).
  exists (qnext n). rewrite En. split; [done|].
  destruct (Z.eqb_spec (qnext n) 0) as [->|Hnz]; [by apply HQ0|by apply HQ].
Qed.

(** Loading [next] when it is known to be there. *)
Lemma wp_load_next_known t i k a b (Q : Z -> state -> tls -> Prop) g l :
  0 <= i < width set -> at_pos (subs g) i k a -> at_pos (subs g) i (S k) b ->
  (forall g', p_rely W t g g' -> p_inv W g' -> Q b g' l) ->
  wp W t (load_next a) Q g l.
Proof.
  intros Hi Hk Hk1 HQ. apply (wp_load_next t i k); [done..| |].
  - intros g' R I Hlen. apply rely_at_pos with (1 := R) in Hk1.
    apply lookup_lt_Some in Hk1. lia.
  - intros b' g' R I _ Hb'. apply rely_at_pos with (1 := R) in Hk1.
    unfold at_pos in *. assert (b' = b) as -> by congruence. by apply HQ.
Qed.

Lemma wp_queue_load_put {B} (f : descriptor_t -> B) t i (Q : B -> state -> tls -> Prop) g l :
  0 <= i < width set ->
  (forall g' a p, p_rely W t g g' -> p_inv W g' -> at_pos (subs g') i p a ->
     put_of (subs g') i = Z.of_nat p -> Q (f (mkDesc a (Z.of_nat p))) g' l) ->
  wp W t (load (fun g => f <$> lookup_put i g)) Q g l.
Proof.
  intros Hi HQ. apply wp_load; [apply _|]. intros g1 R1 I1 O1.
  destruct (inv_sub_at g1 i I1 Hi) as (p & gp & a & b & Hs).
  pose proof (sub_at_counts _ _ _ _ _ _ Hs) as (Ep & _). destruct Hs.
  eexists. unfold lookup_put. rewrite sa_put0. split; [done|]. by apply HQ.
Qed.

Lemma wp_queue_load_get {B} (f : descriptor_t -> B) t i (Q : B -> state -> tls -> Prop) g l :
  0 <= i < width set ->
  (forall g' a p, p_rely W t g g' -> p_inv W g' -> at_pos (subs g') i p a ->
     get_of (subs g') i = Z.of_nat p -> Q (f (mkDesc a (Z.of_nat p))) g' l) ->
  wp W t (load (fun g => f <$> lookup_get i g)) Q g l.
Proof.
  intros Hi HQ. apply wp_load; [apply _|]. intros g1 R1 I1 O1.
  destruct (inv_sub_at g1 i I1 Hi) as (p & gp & a & b & Hs).
  pose proof (sub_at_counts _ _ _ _ _ _ Hs) as (_ & Eg & _). destruct Hs.
  eexists. unfold lookup_get. rewrite sa_get0. split; [done|]. by apply HQ.
Qed.

(** The node of a copied descriptor is at most as far as its count. *)
Lemma wp_read_put t i (Q : descriptor_t -> state -> tls -> Prop) g l :
  0 <= i < width set ->
  (forall d k g', p_rely W t g g' -> p_inv W g' -> at_pos (subs g') i k (node d) ->
     put_of (subs g) i <= Z.of_nat k -> Z.of_nat k <= count d <= put_of (subs g') i -> Q d g' l) ->
  wp W t (read_put i) Q g l.
Proof.
  intros Hi HQ. unfold read_put. wp_local.
  apply wp_queue_load_put; [done|]. intros g1 a1 p1 R1 I1 H1 E1. wp_local.
  apply wp_queue_load_put; [done|]. intros g2 a2 p2 R2 I2 H2 E2. wp_local. cbn [node count].
  pose proof (rely_putc set _ _ _ i R1). pose proof (rely_putc set _ _ _ i R2).
  cbn [putc queue_proto] in *.
  apply (HQ _ p1); [exact (wrely_trans set Hset _ _ _ _ R1 R2)|done| |cbn [count]; lia..].
  by eapply rely_at_pos.
Qed.

Lemma wp_read_get t i (Q : descriptor_t -> state -> tls -> Prop) g l :
  0 <= i < width set ->
  (forall d k g', p_rely W t g g' -> p_inv W g' -> at_pos (subs g') i k (node d) ->
     Z.of_nat k <= count d <= get_of (subs g') i -> Q d g' l) ->
  wp W t (read_get i) Q g l.
Proof.
  intros Hi HQ. unfold read_get. wp_local.
  apply wp_queue_load_get; [done|]. intros g1 a1 p1 R1 I1 H1 E1. wp_local.
  apply wp_queue_load_get; [done|]. intros g2 a2 p2 R2 I2 H2 E2. wp_local. cbn [node count].
  pose proof (rely_getc set _ _ _ i R2). cbn [getc queue_proto] in *.
  apply (HQ _ p1); [exact (wrely_trans set Hset _ _ _ _ R1 R2)|done| |cbn [count]; lia].
  by eapply rely_at_pos.
Qed.
End reads.

#[export] Instance queue_laws {A : Allocator qnode_t} : SubLaws queues descriptor_t.
Proof.
  split; cbn [put_descriptor get_descriptor put_count_at queue_ops].
  - intros set t i Q g l Hset Hi HQ. apply wp_read_put; [done..|].
    intros d k g' R I' Hk Hle Hc. apply HQ; [done|done|by exists k|cbn; lia..].
  - intros set t i Q g l Hset Hi HQ. apply wp_read_get; [done..|].
    intros d k g' R I' Hk Hc. apply HQ; [done|done|by exists k|cbn; lia..].
  - intros set t i Q g l Hset Hi HQ. apply wp_queue_load_put; [done..|].
    intros g' a p R I' Hk E. cbn [count]. rewrite <- E. by apply HQ.
Qed.

(** ** The steps that change shared memory *)

Section steps.
Context {A : Allocator qnode_t} (set : ds_t) (Hset : ds_ok set).
Notation W := (wprot set).
Implicit Types (g : state).

Lemma q2d_links_lookup s i :
  queues_inv set s -> 0 <= i < width set -> links s !! Z.to_nat i = Some (links_of s i).
Proof.
  intros (_ & _ & Hlen & _) Hi. unfold links_of.
  destruct (lookup_lt_is_Some_2 (links s) (Z.to_nat i)) as [L E]; [lia|]. by rewrite E.
Qed.

(** A step on the sub-structures only, from the obligations it leaves. *)
Lemma step_guar t g s :
  evolves (subs g) s -> (forall u, u <> t -> untouched u (subs g) s) ->
  p_guar W t g (set_subs s g).
Proof. intros He Hu. pose proof Hset as (_ & ? & _). by split_and!; cbn; try lia. Qed.

Lemma step_inv g s :
  p_inv W g -> queues_inv set s ->
  (forall i, 0 <= i < width set -> put_of (subs g) i <= put_of s i /\
     Z.of_nat (length (links_of s i)) - 1 <= global_PWindow g) ->
  p_inv W (set_subs s g).
Proof.
  intros [(HdP & HdG & HG & Hc) _] Hs Hn. split; [|done].
  do 3 (split; [done|]). intros i Hi. specialize (Hc i Hi). specialize (Hn i Hi).
  cbn [putc linked queue_proto subs set_subs global_PWindow] in *. lia.
Qed.

Lemma step_rely t g s :
  evolves (subs g) s -> untouched t (subs g) s -> p_rely W t g (set_subs s g).
Proof. intros He Hu. by split_and!; cbn; try lia. Qed.

(** *** Allocation *)

Definition with_heap (m : qmemory) (s : queues) : queues :=
  mkQueues (put_array s) (get_array s) m (links s) (hist s).

Lemma create_step t k v g :
  p_inv W g ->
  let a := alloc_addr (qnodes (heap (subs g))) in
  let s' := with_heap (qmem_alloc t a (mkQnode 0 k v) (heap (subs g))) (subs g) in
  evolves (subs g) s' /\ (forall u, untouched u (subs g) s') /\ p_inv W (set_subs s' g).
Proof.
  intros I1. cbv zeta. set (a := alloc_addr (qnodes (heap (subs g)))).
  destruct (alloc_addr_ok (qnodes (heap (subs g)))) as [Ha Hfresh]. fold a in Ha, Hfresh.
  pose proof I1 as [_ (Hl1 & Hl2 & Hl3 & Hm & Hd & Hlg & H)].
  destruct (qmem_alloc_ok t a (mkQnode 0 k v) _ Hm Ha Hfresh) as (Hm' & Hk & Hown & Hql).
  set (s' := with_heap _ _).
  assert (Hev : evolves (subs g) s') by (by split).
  split; [done|split; [by intros u|]]. apply step_inv; [done| |].
  - do 6 (split; [done|]). intros i Hi. destruct (H i Hi) as (p & gp & a' & b & Hs).
    exists p, gp, a', b. destruct Hs. split; try done.
    eapply subq_same; [exact sa_subq0| |done|done]. intros x Hx.
    apply list_elem_of_lookup in Hx as [j Hj].
    destruct (sq_list _ _ _ _ _ _ sa_subq0 j x Hj) as (_ & P & n & En & _).
    assert (a <> x) by (intros ->; congruence). cbn. by rewrite !lookup_insert_ne.
  - intros i Hi. destruct I1 as [(_ & _ & _ & Hc) _]. specialize (Hc i Hi). cbn in Hc.
    split; [done|apply Hc].
Qed.

Lemma wp_queue_create_node t k v (Q : Z -> state -> tls -> Prop) g l :
  thread_id l = t ->
  (forall a g', p_rely W t g g' -> qpriv (heap (subs g')) !! a = Some t ->
     lookup_node a g' = Some (mkQnode 0 k v) -> Q a g' l) ->
  wp W t (create_node k v 0) Q g l.
Proof.
  intros Ht HQ g1 R1 I1 _. rewrite Ht. cbv zeta.
  destruct (create_step t k v g1 I1) as (Hev & Hun & HI).
  split; [by apply step_guar|split; [done|]]. apply HQ.
  - apply (wrely_trans set Hset t g g1 _ R1), step_rely; [done|apply Hun].
  - apply lookup_insert_eq.
  - apply lookup_insert_eq.
Qed.

(** *** Linking *)

Lemma links_of_insert s i j L :
  0 <= i -> (Z.to_nat i < length (links s))%nat ->
  links_of (mkQueues (put_array s) (get_array s) (heap s) (<[Z.to_nat i := L]> (links s)) (hist s)) j =
    if decide (Z.to_nat i = Z.to_nat j) then L else links_of s j.
Proof.
  intros Hi Hlt. unfold links_of; cbn. rewrite list_lookup_insert.
  destruct (decide (Z.to_nat i = Z.to_nat j)); [by rewrite decide_True|].
  rewrite decide_False; [done|]. by intros [? _].
Qed.

Lemma links_of_link t i a b s j :
  queues_inv set s -> 0 <= i < width set ->
  links_of (link_node t i a b s) j =
    if decide (Z.to_nat i = Z.to_nat j) then links_of s i ++ [b] else links_of s j.
Proof.
  intros Hs Hi. pose proof (q2d_links_lookup s i Hs Hi) as E.
  unfold link_node, links_of at 1; cbn. rewrite list_lookup_insert.
  pose proof (lookup_lt_Some _ _ _ E).
  destruct (decide (Z.to_nat i = Z.to_nat j)); [by rewrite decide_True|].
  rewrite decide_False; [done|]. by intros [? _].
Qed.

(** The node [b] may be linked after [a], the [k]-th of sub-queue [i]. *)
Record linkable (t : nat) (i : Z) (k : nat) (a b : Z) (n nb : qnode_t) (s : queues) : Prop := {
  lk_pos : at_pos s i k a;
  lk_tail : Z.of_nat k <= put_of s i;
  lk_a : qnodes (heap s) !! a = Some n;
  lk_last : qnext n = 0;
  lk_b : qnodes (heap s) !! b = Some nb;
  lk_priv : qpriv (heap s) !! b = Some t;
  lk_next : qnext nb = 0;
}.

Lemma q2d_private_not_linked s t b j L :
  queues_inv set s -> qpriv (heap s) !! b = Some t -> links s !! j = Some L -> b ∉ L.
Proof.
  intros (_ & _ & Hlen & _ & _ & _ & H) Pb HL Hb.
  pose proof (lookup_lt_Some _ _ _ HL).
  destruct (H (Z.of_nat j)) as (p & g & a & b' & []); [lia|].
  apply list_elem_of_lookup in Hb as [k Hk].
  unfold links_of in sa_subq0. rewrite Nat2Z.id, HL in sa_subq0.
  destruct (sq_list _ _ _ _ _ _ sa_subq0 k b Hk) as (_ & P & _). congruence.
Qed.

Lemma link_inv t i k a b n nb s :
  queues_inv set s -> 0 <= i < width set -> linkable t i k a b n nb s ->
  queues_inv set (link_node t i a b s).
Proof.
  intros HI Hi []. pose proof HI as (Hl1 & Hl2 & Hl3 & Hm & Hd & Hlg & H).
  assert (HLi := q2d_links_lookup s i HI Hi).
  destruct (H i Hi) as (p0 & g0 & a0 & b0 & Hs0). pose proof (sa_subq _ _ _ _ _ _ Hs0) as Hq0.
  assert (Hlast : length (links_of s i) = S k).
  { pose proof (qlist_next _ _ _ _ _ (sq_list _ _ _ _ _ _ Hq0) lk_pos0 lk_a0) as E.
    by rewrite lk_last0, Z.eqb_refl in E. }
  destruct (qlist_node _ _ _ _ (sq_list _ _ _ _ _ _ Hq0) lk_pos0) as (_ & n' & En' & Pa & _).
  destruct (qmem_link_ok t a b n nb (heap s)) as [Hm' _]; [done..|].
  assert (Hb0 : b <> 0) by (intros ->; destruct Hm; congruence).
  assert (Hnot : forall j L, links s !! j = Some L -> b ∉ L)
    by (intros j L HL; by eapply q2d_private_not_linked).
  pose proof HLi as HLi'. unfold link_node.
  rewrite HLi. cbn [default from_option]. rewrite lk_b0. cbn [from_option].
  split_and!; cbn [put_array get_array links heap hist]; try done.
  - by rewrite length_insert.
  - by apply qdisjoint_link.
  - split; [|done]. pose proof (sq_enqs _ _ _ _ _ _ Hq0). unfold id. lia.
  - intros j Hj. destruct (H j Hj) as (p & g & aj & bj & Hs). exists p, g, aj, bj.
    assert (Elk := links_of_link t i a b s j HI Hi).
    unfold link_node in Elk. rewrite HLi in Elk. cbn [default from_option] in Elk.
    rewrite lk_b0 in Elk. cbn [from_option] in Elk.
    destruct Hs. destruct (decide (i = j)) as [->|Hne].
    + rewrite decide_True in Elk by done.
      split; try done; unfold at_pos; rewrite ?Elk; try by apply lookup_app_l_Some.
      apply subq_link with (p := p) (g := g); try done.
      * by eapply qdisjoint_nodup.
      * by rewrite last_lookup, Hlast.
      * pose proof (sq_pos _ _ _ _ _ _ sa_subq0).
        unfold put_of in lk_tail0. rewrite sa_put0 in lk_tail0. cbn in lk_tail0. lia.
      * by eapply Hnot.
    + rewrite decide_False in Elk by lia. split; try done; unfold at_pos; rewrite ?Elk; try done.
      eapply subq_same; [exact sa_subq0| |cbn; by rewrite decide_False|done].
      apply qmem_link_same.
      * intros Ha. apply list_elem_of_lookup in Ha as [k' Hk'].
        destruct (Hd _ _ _ _ _ _ _ HLi' (q2d_links_lookup s j HI Hj) lk_pos0 Hk'). lia.
      * eapply Hnot. by apply q2d_links_lookup.
Qed.

Lemma q2d_link_node_eq t i k a b n nb s :
  queues_inv set s -> 0 <= i < width set -> linkable t i k a b n nb s ->
  link_node t i a b s =
    mkQueues (put_array s) (get_array s) (qmem_link a b (heap s))
      (<[Z.to_nat i := links_of s i ++ [b]]> (links s))
      ((t, Enq i (Z.of_nat (S k)) (qval nb)) :: hist s).
Proof.
  intros HI Hi []. assert (HLi := q2d_links_lookup s i HI Hi).
  destruct HI as (_ & _ & _ & _ & _ & _ & H).
  destruct (H i Hi) as (p0 & g0 & a0 & b0 & Hs0). pose proof (sa_subq _ _ _ _ _ _ Hs0) as Hq0.
  pose proof (qlist_next _ _ _ _ _ (sq_list _ _ _ _ _ _ Hq0) lk_pos0 lk_a0) as E.
  rewrite lk_last0, Z.eqb_refl in E.
  unfold link_node. rewrite HLi, lk_b0. cbn [default from_option]. unfold id. by rewrite E.
Qed.

Lemma link_changes t i k a b n nb s :
  queues_inv set s -> 0 <= i < width set -> linkable t i k a b n nb s ->
  let s' := link_node t i a b s in
  evolves s s' /\ (forall u, u <> t -> untouched u s s') /\
  at_pos s' i (S k) b /\
  qevents_of t (hist s') = Enq i (Z.of_nat (S k)) (qval nb) :: qevents_of t (hist s).
Proof.
  intros HI Hi Hlk. pose proof Hlk as []. cbv zeta.
  assert (Elk := fun j => links_of_link t i a b s j HI Hi).
  pose proof HI as (_ & _ & _ & Hm & _ & _ & H).
  destruct (H i Hi) as (p0 & g0 & a0 & b0 & Hs0). pose proof (sa_subq _ _ _ _ _ _ Hs0) as Hq0.
  destruct (qlist_node _ _ _ _ (sq_list _ _ _ _ _ _ Hq0) lk_pos0) as (_ & n' & En' & Pa & _).
  destruct (qmem_link_ok t a b n nb (heap s)) as [_ [Hk Ho]]; [done..|].
  pose proof (qlist_next _ _ _ _ _ (sq_list _ _ _ _ _ _ Hq0) lk_pos0 lk_a0) as E.
  rewrite lk_last0, Z.eqb_refl in E.
  split_and!.
  - split; try done.
    + intros j. rewrite Elk. destruct (decide _) as [Eij|]; [|done].
      unfold links_of at 1. rewrite <- Eij. apply prefix_app_r. done.
    + rewrite (q2d_link_node_eq _ _ _ _ _ _ _ _ HI Hi Hlk). by eexists [_].
  - intros u Hu. split; [by apply Ho|].
    rewrite (q2d_link_node_eq _ _ _ _ _ _ _ _ HI Hi Hlk). cbn [hist].
    rewrite qevents_of_cons. by rewrite decide_False.
  - unfold at_pos. rewrite Elk, decide_True by done. rewrite <- E.
    rewrite lookup_app_r, Nat.sub_diag by done. done.
  - rewrite (q2d_link_node_eq _ _ _ _ _ _ _ _ HI Hi Hlk). cbn [hist].
    rewrite qevents_of_cons. by rewrite decide_True.
Qed.

Lemma q2d_link_step t i k a b n nb g :
  p_inv W g -> 0 <= i < width set -> linkable t i k a b n nb (subs g) ->
  Z.of_nat k < global_PWindow g ->
  let g' := set_subs (link_node t i a b (subs g)) g in
  p_guar W t g g' /\ p_inv W g'.
Proof.
  intros HI Hi Hlk Hroom. destruct (link_changes _ _ _ _ _ _ _ _ (proj2 HI) Hi Hlk) as (He & Hu & _).
  split; [by apply step_guar|]. apply step_inv; [done|eapply link_inv; [apply HI|done..]|].
  intros j Hj. split; [apply (ev_put _ _ He)|].
  rewrite (links_of_link t i a b (subs g) j (proj2 HI) Hi).
  destruct (decide _) as [Eij|_].
  - pose proof (lk_pos _ _ _ _ _ _ _ _ Hlk) as Hp. rewrite length_app; cbn [length].
    pose proof Hlk as []. destruct HI as [_ HI]. destruct HI as (_ & _ & _ & _ & _ & _ & H).
    destruct (H i Hi) as (p0 & g0 & a0 & b0 & Hs0). pose proof (sa_subq _ _ _ _ _ _ Hs0) as Hq0.
    pose proof (qlist_next _ _ _ _ _ (sq_list _ _ _ _ _ _ Hq0) lk_pos0 lk_a0) as E.
    rewrite lk_last0, Z.eqb_refl in E. lia.
  - destruct HI as [(_ & _ & _ & Hc) _]. apply (Hc j Hj).
Qed.

Lemma wp_enq_cas t i k a b key v (Q : bool -> state -> tls -> Prop) g l :
  0 <= i < width set -> thread_id l = t ->
  at_pos (subs g) i k a -> Z.of_nat k <= put_of (subs g) i -> Z.of_nat k < global_PWindow g ->
  qpriv (heap (subs g)) !! b = Some t -> lookup_node b g = Some (mkQnode 0 key v) ->
  (forall g' g1, p_rely W t g g1 -> evolves (subs g1) (subs g') ->
     at_pos (subs g') i (S k) b ->
     qevents_of t (hist (subs g')) =
       Enq i (Z.of_nat (S k)) v :: qevents_of t (hist (subs g1)) -> Q true g' l) ->
  (forall g', p_rely W t g g' -> Q false g' l) ->
  wp W t (enq_cas i a b) Q g l.
Proof.
  intros Hi Ht Hk Hkp Hroom Pb Eb Hok Hno g1 R1 I1 O1.
  pose proof (rely_at_pos _ _ _ _ _ _ _ R1 Hk) as Hk1.
  destruct (at_pos_next set g1 i k a I1 Hi Hk1) as (n & En & _).
  rewrite En. cbn [mbind option_bind]. destruct (decide (qnext n = 0)) as [Hn|Hn].
  - pose proof R1 as (HP & _ & Hev & Hown & _). destruct (Hown b _ Eb Pb) as [Eb1 Pb1].
    pose proof (ev_put _ _ Hev i).
    assert (Hlk : linkable t i k a b n (mkQnode 0 key v) (subs g1)) by (split; try done; lia).
    rewrite Ht. destruct (q2d_link_step t i k a b n (mkQnode 0 key v) g1 I1 Hi Hlk) as [HG HI]; [lia|].
    destruct (link_changes _ _ _ _ _ _ _ _ (proj2 I1) Hi Hlk) as (He & _ & Hb & Hm).
    split; [exact HG|split; [exact HI|]]. by apply (Hok _ g1).
  - split; [apply (guar_refl (P := W))|split; [done|by apply Hno]].
Qed.

(** *** Moving the tail pointer *)

Definition with_put (i : Z) (new : descriptor_t) (s : queues) : queues :=
  mkQueues (<[Z.to_nat i := new]> (put_array s)) (get_array s) (heap s) (links s) (hist s).

Lemma put_of_with_put i new s j :
  (Z.to_nat i < length (put_array s))%nat ->
  put_of (with_put i new s) j =
    if decide (Z.to_nat i = Z.to_nat j) then count new else put_of s j.
Proof.
  intros Hlt. unfold put_of, with_put; cbn. rewrite list_lookup_insert.
  destruct (decide (Z.to_nat i = Z.to_nat j)); [by rewrite decide_True|].
  rewrite decide_False; [done|]. by intros [? _].
Qed.

(** The descriptor of the tail, when its node is the [k]-th. *)
Lemma put_is_tail g i k d :
  p_inv W g -> 0 <= i < width set -> lookup_put i g = Some d -> at_pos (subs g) i k (node d) ->
  count d = Z.of_nat k /\ put_of (subs g) i = Z.of_nat k.
Proof.
  intros HI Hi E Hk. destruct (inv_sub_at set g i HI Hi) as (p & gp & a & b & Hs).
  destruct (sub_at_counts _ _ _ _ _ _ Hs) as (Ep & _). destruct Hs.
  unfold lookup_put in E. rewrite E in sa_put0. injection sa_put0 as ->. cbn in *.
  assert (k = p) as -> by (exact (q2d_at_pos_inj set g i k p _ HI Hi Hk sa_puta0)). done.
Qed.

Lemma advance_step t i k b d g :
  p_inv W g -> p_ok W g -> 0 <= i < width set -> lookup_put i g = Some d ->
  at_pos (subs g) i k (node d) -> at_pos (subs g) i (S k) b ->
  let s' := with_put i (mkDesc b (u64 (count d + 1))) (subs g) in
  let g' := set_subs s' g in
  p_guar W t g g' /\ p_inv W g' /\ p_rely W t g g' /\ put_of (subs g') i = Z.of_nat (S k).
Proof.
  intros HI Ho Hi Hd Ha Hb. cbn in Ho. pose proof Hset as (_ & Hdep & _).
  destruct (put_is_tail g i k d HI Hi Hd Ha) as [Ec Ep].
  pose proof HI as [(_ & _ & _ & Hc) (Hl1 & Hl2 & Hl3 & Hm & Hdj & Hlg & H)].
  specialize (Hc i Hi). cbn [putc linked queue_proto] in Hc.
  assert (Hlt : (Z.to_nat i < length (put_array (subs g)))%nat) by lia.
  assert (Hlen : (S k < length (links_of (subs g) i))%nat) by (by eapply lookup_lt_Some).
  rewrite Ec, wrap_small by lia. replace (Z.of_nat k + 1) with (Z.of_nat (S k)) by lia.
  set (s' := with_put i (mkDesc b (Z.of_nat (S k))) (subs g)).
  assert (Hput : forall j, put_of s' j =
    if decide (Z.to_nat i = Z.to_nat j) then Z.of_nat (S k) else put_of (subs g) j)
    by (intros j; by apply put_of_with_put).
  assert (Hev : evolves (subs g) s').
  { split; try done. intros j. rewrite Hput. destruct (decide _) as [E|]; [|done].
    unfold put_of in *. rewrite <- E. lia. }
  assert (Hun : forall u, untouched u (subs g) s') by (intros u; by split).
  split; [by apply step_guar|split; [|split; [by apply step_rely|]]].
  - apply step_inv; [done| |].
    + split; [by cbn; rewrite length_insert|do 5 (split; [done|])]. intros j Hj.
      destruct (H j Hj) as (p & gp & aj & bj & Hs). destruct (sub_at_counts _ _ _ _ _ _ Hs) as (Epj & _).
      destruct Hs. destruct (decide (i = j)) as [->|Hne].
      * assert (p = k) as -> by lia. exists (S k), gp, b, bj. split; try done.
        { cbn. by rewrite list_lookup_insert_eq. }
        by apply subq_advance.
      * exists p, gp, aj, bj. split; try done. cbn. rewrite list_lookup_insert_ne by lia. done.
    + intros j Hj. split; [apply Hev|]. destruct HI as [(_ & _ & _ & Hc') _]. apply (Hc' j Hj).
  - cbn [subs set_subs]. by rewrite Hput, decide_True.
Qed.

Lemma wp_put_cae t i k b d (Q : bool -> state -> tls -> Prop) g l :
  0 <= i < width set ->
  at_pos (subs g) i k (node d) -> at_pos (subs g) i (S k) b -> Z.of_nat k <= put_of (subs g) i ->
  (forall ok g', p_rely W t g g' ->
     (count d = Z.of_nat k -> Z.of_nat (S k) <= put_of (subs g') i) -> Q ok g' l) ->
  wp W t (put_cae i d (mkDesc b (u64 (count d + 1)))) Q g l.
Proof.
  intros Hi Ha Hb Hkp HQ g1 R1 I1 O1.
  pose proof (rely_at_pos _ _ _ _ _ _ _ R1 Ha) as Ha1.
  pose proof (rely_at_pos _ _ _ _ _ _ _ R1 Hb) as Hb1.
  destruct (inv_sub_at set g1 i I1 Hi) as (p & gp & a' & b' & Hs).
  pose proof (sub_at_counts _ _ _ _ _ _ Hs) as (Ep & _). pose proof Hs as [].
  unfold lookup_put at 1. rewrite sa_put0. cbn [mbind option_bind].
  destruct (decide (mkDesc a' (Z.of_nat p) = d)) as [Ed|Hne].
  - destruct (advance_step t i k b d g1 I1 O1 Hi) as (HG & HI & HR & Hput);
      [unfold lookup_put; by rewrite sa_put0, Ed|done|done|].
    split; [exact HG|split; [exact HI|]]. apply HQ; [exact (wrely_trans set Hset _ _ _ _ R1 HR)|].
    intros _. by rewrite <- Hput.
  - split; [apply (guar_refl (P := W))|split; [done|]]. apply HQ; [done|]. intros Ec.
    assert (Hkp1 : Z.of_nat k <= Z.of_nat p).
    { rewrite <- Ep. destruct R1 as (_ & _ & Hev & _). pose proof (ev_put _ _ Hev i). lia. }
    destruct (decide (p = k)) as [->|]; [|lia]. exfalso. apply Hne.
    unfold at_pos in *. rewrite sa_puta0 in Ha1. destruct d as [nd cd]; cbn in *. congruence.
Qed.

(** *** Moving the head pointer *)

Definition taken (t : nat) (i : Z) (k : nat) (b v : Z) (s : queues) : queues :=
  mkQueues (put_array s) (<[Z.to_nat i := mkDesc b (Z.of_nat (S k))]> (get_array s)) (heap s)
    (links s) ((t, Deq i (Z.of_nat (S k)) v) :: hist s).

Lemma get_of_taken t i k b v s j :
  (Z.to_nat i < length (get_array s))%nat ->
  get_of (taken t i k b v s) j =
    if decide (Z.to_nat i = Z.to_nat j) then Z.of_nat (S k) else get_of s j.
Proof.
  intros Hlt. unfold get_of, taken; cbn. rewrite list_lookup_insert.
  destruct (decide (Z.to_nat i = Z.to_nat j)); [by rewrite decide_True|].
  rewrite decide_False; [done|]. by intros [? _].
Qed.

Lemma taken_inv t i k a b n s :
  queues_inv set s -> 0 <= i < width set ->
  get_array s !! Z.to_nat i = Some (mkDesc a (Z.of_nat k)) -> Z.of_nat k < put_of s i ->
  at_pos s i (S k) b -> qnodes (heap s) !! b = Some n ->
  queues_inv set (taken t i k b (qval n) s).
Proof.
  intros HI Hi Eg Hlt Hb En. pose proof HI as (Hl1 & Hl2 & Hl3 & Hm & Hdj & Hlg & H).
  split_and!; try done; [by cbn; rewrite length_insert| |].
  - cbn. destruct (H i Hi) as (p & gp & a' & b' & []). rewrite Eg in sa_get0.
    injection sa_get0 as -> E. assert (gp = k) as -> by lia.
    split; [|done]. by eapply subq_val.
  - intros j Hj. destruct (H j Hj) as (p & gp & aj & bj & Hs).
    destruct (sub_at_counts _ _ _ _ _ _ Hs) as (Ep & _). destruct Hs.
    destruct (decide (i = j)) as [->|Hne].
    + rewrite Eg in sa_get0. injection sa_get0 as -> E. assert (gp = k) as -> by lia.
      exists p, (S k), aj, b. split; try done.
      { cbn. rewrite list_lookup_insert_eq; [done|]. by eapply lookup_lt_Some. }
      eapply subq_take; [exact sa_subq0|done|done|lia].
    + exists p, gp, aj, bj. split; try done; [cbn; rewrite list_lookup_insert_ne by lia; done|].
      eapply subq_same; [exact sa_subq0|done|done|cbn; by rewrite decide_False].
Qed.

Lemma taken_changes t i k a b v s :
  0 <= i -> get_array s !! Z.to_nat i = Some (mkDesc a (Z.of_nat k)) ->
  let s' := taken t i k b v s in
  evolves s s' /\ (forall u, u <> t -> untouched u s s') /\
  qevents_of t (hist s') = Deq i (Z.of_nat (S k)) v :: qevents_of t (hist s).
Proof.
  intros Hi Eg. cbv zeta. pose proof (lookup_lt_Some _ _ _ Eg) as Hlt. split_and!.
  - split; try done.
    + intros j. rewrite get_of_taken by done. destruct (decide _) as [E|]; [|done].
      unfold get_of. rewrite <- E, Eg. cbn. lia.
    + by eexists [_].
  - intros u Hu. split; [by intros ? ?|]. cbn [taken hist]. rewrite qevents_of_cons.
    by rewrite decide_False.
  - cbn [taken hist]. rewrite qevents_of_cons. by rewrite decide_True.
Qed.

Lemma wp_deq_cae t i k d b (Q : bool -> state -> tls -> Prop) g l :
  0 <= i < width set -> thread_id l = t ->
  at_pos (subs g) i k (node d) -> at_pos (subs g) i (S k) b -> Z.of_nat k < put_of (subs g) i ->
  (forall g' g1 v n, p_rely W t g g1 -> evolves (subs g1) (subs g') ->
     lookup_node b g' = Some n -> qpriv (heap (subs g')) !! b = None -> qval n = v ->
     qevents_of t (hist (subs g')) =
       Deq i (Z.of_nat (S k)) v :: qevents_of t (hist (subs g1)) -> Q true g' l) ->
  (forall g', p_rely W t g g' -> Q false g' l) ->
  wp W t (deq_cae i d (mkDesc b (u64 (count d + 1)))) Q g l.
Proof.
  intros Hi Ht Ha Hb Hkp Hok Hno g1 R1 I1 O1. cbn in O1. pose proof Hset as (_ & Hdep & _).
  pose proof (rely_at_pos _ _ _ _ _ _ _ R1 Ha) as Ha1.
  pose proof (rely_at_pos _ _ _ _ _ _ _ R1 Hb) as Hb1.
  destruct (inv_sub_at set g1 i I1 Hi) as (p & gp & a' & b' & Hs). pose proof Hs as [].
  unfold lookup_get. rewrite sa_get0. cbn [mbind option_bind].
  destruct (decide (mkDesc b' (Z.of_nat gp) = d)) as [<-|Hne].
  - cbn [node] in Ha1. assert (gp = k) as -> by exact (q2d_at_pos_inj set g1 i _ _ _ I1 Hi sa_geta0 Ha1).
    assert (Hkp1 : Z.of_nat k < put_of (subs g1) i).
    { destruct R1 as (_ & _ & Hev & _). pose proof (ev_put _ _ Hev i). lia. }
    destruct (qlist_node _ _ _ _ (sq_list _ _ _ _ _ _ sa_subq0) Hb1) as (_ & n & En & Pn & _).
    assert (Hp : put_of (subs g1) i <= global_PWindow g1).
    { pose proof (s_inv_counts set (subs g1) i (proj2 I1) Hi) as Hcnt.
      destruct I1 as [(_ & _ & _ & Hc) _]. specialize (Hc i Hi).
      cbn [putc getc linked queue_proto] in *. lia. }
    unfold take_node. cbn [node count]. rewrite En, wrap_small by lia. cbn [from_option].
    replace (Z.of_nat k + 1) with (Z.of_nat (S k)) by lia.
    rewrite Ht. fold (taken t i k b (qval n) (subs g1)).
    destruct (taken_changes t i k b' b (qval n) (subs g1) (proj1 Hi) sa_get0) as (He & Hu & Hm).
    split; [by apply step_guar|split; [apply step_inv; [done|by eapply taken_inv; [apply I1|done..]|]|]].
    + intros j Hj. split; [apply He|]. destruct I1 as [(_ & _ & _ & Hc) _]. apply (Hc j Hj).
    + by apply (Hok _ g1 (qval n) n).
  - split; [apply (guar_refl (P := W))|split; [done|by apply Hno]].
Qed.
End steps.

(** ** The operations, among other threads *)

Section operations.
Context {A : Allocator qnode_t} (set : ds_t) (Hset : ds_ok set).
Notation W := (wprot set).
Notation mine t g := (qevents_of t (hist (subs g))).

Lemma queue_rely_mine t g g' : p_rely W t g g' -> mine t g' = mine t g.
Proof. by intros (_ & _ & _ & _ & ?). Qed.

(** The elements enqueued by the thread are behind the tail pointer: their
    enqueue is complete. *)
Definition settled (t : nat) (s : queues) : Prop :=
  forall i k v, Enq i k v ∈ qevents_of t (hist s) -> 0 <= i < width set /\ k <= put_of s i.

Lemma settled_rely t g g' : settled t (subs g) -> p_rely W t g g' -> settled t (subs g').
Proof.
  intros Hs R i k v Hin. rewrite (queue_rely_mine _ _ _ R) in Hin. destruct (Hs i k v Hin).
  split; [done|]. destruct R as (_ & _ & Hev & _). pose proof (ev_put _ _ Hev i). lia.
Qed.

(** While the thread's node is its own. *)
Definition enq_loop (t : nat) (s0 : queues) (key v a : Z) (g : state) (l : tls) : Prop :=
  local_ok set t l /\ evolves s0 (subs g) /\ mine t g = qevents_of t (hist s0) /\ qpriv (heap (subs g)) !! a = Some t /\
  lookup_node a g = Some (mkQnode 0 key v) /\ settled t (subs g).

Lemma enq_loop_rely t s0 key v a g g' l :
  enq_loop t s0 key v a g l -> p_rely W t g g' -> enq_loop t s0 key v a g' l.
Proof.
  intros (Hl & He & Hm & P & E & Hs) R. pose proof R as (_ & _ & Hev & Ho & _).
  split; [done|split; [by eapply q2d_evolves_trans|split; [by rewrite (queue_rely_mine _ _ _ R)|]]].
  destruct (Ho a _ E P) as [E' P']. split_and!; [done|done|by eapply settled_rely].
Qed.

(** After the link: what the last compare-and-exchange of [enqueue] needs. *)
Definition enq_linked (t : nat) (s0 : queues) (v a : Z) (s : queues)
    (d : descriptor_t) (i : Z) : Prop :=
  exists k, evolves s0 s /\ 0 <= i < width set /\ at_pos s i k (node d) /\ at_pos s i (S k) a /\
    count d = Z.of_nat k /\ Z.of_nat k <= put_of s i /\
    qevents_of t (hist s) = Enq i (Z.of_nat (S k)) v :: qevents_of t (hist s0) /\
    forall j k v, Enq j k v ∈ qevents_of t (hist s0) -> 0 <= j < width set /\ k <= put_of s j.

Lemma enqueue_body_wp t s0 key v a (Q : descriptor_t * descriptor_t -> state -> tls -> Prop) c g l :
  enq_loop t s0 key v a g l ->
  (forall d g' l', local_ok set t l' -> enq_linked t s0 v a (subs g') d (thread_index l') ->
     Q (d, mkDesc a (u64 (count d + 1))) g' l') ->
  wp W t (enqueue_body set a c)
    (fun r g l => match r with inl _ => enq_loop t s0 key v a g l | inr b => Q b g l end) g l.
Proof.
  intros HJ HQ. unfold enqueue_body. wp_local.
  apply put_window_wp; [done|apply HJ|].
  intros d g2 l2 (Hl2 & R2 & _ & _ & (k & Hk & Hkc) & Hlt).
  cbn [d_put_count queue_ops] in Hlt. wp_local. pose proof Hl2 as [Ht2 Hi2].
  assert (HJ2 : enq_loop t s0 key v a g2 l2).
  { destruct (enq_loop_rely _ _ _ _ _ _ _ _ HJ R2) as (_ & HJ'). by split. }
  apply (wp_load_next set Hset t (thread_index l2) k); [done|done| |].
  - intros g3 R3 I3 Hlen. cbn [Z.eqb]. wp_locals.
    apply (wp_queue_load_put set Hset); [done|]. intros g4 a4 p4 R4 I4 _ Ep4. wp_locals. cbn [count].
    assert (HJ4 : enq_loop t s0 key v a g4 l2) by (do 2 (eapply enq_loop_rely; [|done]); done).
    destruct (Z.leb_spec (thread_PWindow l2) (Z.of_nat p4)) as [|Hroom]; [by wp_locals|].
    wp_locals. assert (R24 := wrely_trans set Hset _ _ _ _ R3 R4).
    assert (Hk4 : at_pos (subs g4) (thread_index l2) k (node d)) by (by eapply rely_at_pos).
    pose proof R24 as (HP24 & _ & Hev24 & _).
    pose proof (ev_put _ _ Hev24 (thread_index l2)).
    pose proof HJ4 as (_ & He4 & Hm4 & P4 & E4 & Hset4).
    (* the copied count is the position of the copied node *)
    assert (Hck : count d = Z.of_nat k).
    { destruct (inv_sub_at set g3 _ I3 Hi2) as (p & gp & ? & ? & Hs).
      destruct (sub_at_counts _ _ _ _ _ _ Hs) as (Ep & _ & ? & _).
      destruct R3 as (_ & _ & Hev3 & _). pose proof (ev_put _ _ Hev3 (thread_index l2)). lia. }
    apply (wp_enq_cas set Hset t (thread_index l2) k _ _ key v); try done; [lia|lia|..].
    + intros g6 g5 R5 Hev Hb Hm. wp_locals. apply HQ; [done|].
      assert (Hk5 : at_pos (subs g5) (thread_index l2) k (node d)) by (by eapply rely_at_pos).
      pose proof R5 as (_ & _ & Hev5 & _).
      exists k. split; [by do 2 (eapply q2d_evolves_trans; [done|])|split; [done|]].
      split; [by eapply q2d_at_pos_evolves|split; [done|split; [done|]]].
      pose proof (ev_put _ _ Hev5 (thread_index l2)). pose proof (ev_put _ _ Hev (thread_index l2)).
      split; [lia|]. rewrite Hm, (queue_rely_mine _ _ _ R5), Hm4. split; [done|].
      intros j k' v' Hin. rewrite <- Hm4 in Hin. destruct (Hset4 j k' v' Hin).
      split; [done|]. pose proof (ev_put _ _ Hev5 j). pose proof (ev_put _ _ Hev j). lia.
    + intros g5 R5. wp_locals. exact (enq_loop_rely _ _ _ _ _ _ _ _ HJ4 R5).
  - intros b g3 R3 I3 Hb0 Hb. destruct (Z.eqb_spec b 0) as [|_]; [done|]. wp_local.
    assert (Hk3 : at_pos (subs g3) (thread_index l2) k (node d)) by (by eapply rely_at_pos).
    apply (wp_load_next_known set Hset t (thread_index l2) k _ b); [done..|]. intros g4 R4 I4.
    wp_locals. cbn [count]. assert (R24 := wrely_trans set Hset _ _ _ _ R3 R4).
    assert (HJ4 : enq_loop t s0 key v a g4 l2) by (by eapply enq_loop_rely).
    pose proof R24 as (_ & _ & Hev24 & _). pose proof (ev_put _ _ Hev24 (thread_index l2)).
    apply (wp_put_cae set Hset t (thread_index l2) k); [done| | |lia|].
    + eapply rely_at_pos; [exact R4|done].
    + eapply rely_at_pos; [exact R4|done].
    + intros ok g5 R5 _. wp_locals. exact (enq_loop_rely _ _ _ _ _ _ _ _ HJ4 R5).
Qed.

(** [enqueue] returns 1 after linking its value exactly once, and by then the
    tail pointer is past it. *)
Lemma enqueue_wp t key v (Q : Z -> state -> tls -> Prop) g l :
  local_ok set t l -> settled t (subs g) ->
  (forall g' l' i k, local_ok set t l' -> 0 <= i < width set ->
     mine t g' = Enq i k v :: mine t g -> settled t (subs g') ->
     evolves (subs g) (subs g') -> Q 1 g' l') ->
  wp W t (enqueue set key v) Q g l.
Proof.
  intros Hl Hs HQ. unfold enqueue. wp_local.
  apply (wp_queue_create_node set Hset); [apply Hl|]. intros a g1 R1 P1 E1. wp_local.
  apply (wp_while W t _ _ _ _ (fun _ _ => enq_loop t (subs g) key v a) 0%nat).
  { split; [done|split; [by destruct R1 as (_ & _ & ? & _)|split; [by apply queue_rely_mine|]]].
    split; [done|split; [done|by eapply settled_rely]]. }
  intros n c g2 l2 HJ.
  eapply wp_mono; [|apply (enqueue_body_wp t (subs g) key v a
    (fun r g l => wp W t (let '(descriptor, new_descriptor) := r in
       let* index := get thread_index in
       let* _ := put_cae index descriptor new_descriptor in Ret 1) Q g l)); [done|]].
  { intros [c'|r] g3 l3 H; [by exists 0%nat|exact H]. }
  clear g2 l2 HJ. intros d g2 l2 [Ht2 Hi2] (k & He & Hi & Ha & Hb & Hc & Hkp & Hm & Hold). wp_locals.
  apply (wp_put_cae set Hset t (thread_index l2) k); [done..|].
  intros ok g3 R3 Hadv. wp_locals.
  pose proof R3 as (_ & _ & Hev & _).
  apply (HQ _ _ (thread_index l2) (Z.of_nat (S k)));
    [done|done|by rewrite (queue_rely_mine _ _ _ R3)| |by eapply q2d_evolves_trans].
  intros j k' v' Hin. rewrite (queue_rely_mine _ _ _ R3), Hm in Hin.
  apply elem_of_cons in Hin as [[= -> -> ->]|Hin]; [split; [done|by apply Hadv]|].
  destruct (Hold j k' v' Hin). split; [done|]. pose proof (ev_put _ _ Hev j). lia.
Qed.

(** An iteration of [dequeue]: before it, what was put by then may still be
    there. *)
Definition deq_loop (t : nat) (g0 : state) (g : state) (l : tls) : Prop :=
  local_ok set t l /\ p_rely W t g0 g.

Lemma dequeue_body_wp t g0 (Q : Z -> state -> tls -> Prop) c g l :
  deq_loop t g0 g l ->
  (forall v g' g1 l' i k, local_ok set t l' -> 0 <= i < width set -> p_rely W t g0 g1 ->
     evolves (subs g1) (subs g') -> mine t g' = Deq i k v :: mine t g0 -> Q v g' l') ->
  (forall g' l', local_ok set t l' -> p_rely W t g0 g' -> p_inv W g' -> drained set g0 g' -> Q 0 g' l') ->
  wp W t (dequeue_body set c)
    (fun r g l => match r with inl _ => deq_loop t g0 g l | inr b => Q b g l end) g l.
Proof.
  intros [Hl HR0] HQ HQ0. unfold dequeue_body. wp_local.
  apply get_window_wp; [done|done|].
  intros d g1 l1 (Hl1 & R1 & I1 & _ & (k & Hk & Hkc) & Hcase). pose proof Hl1 as [Ht1 Hi1].
  pose proof (s_inv_counts set (subs g1) (thread_index l1) (proj2 I1) Hi1) as Hcnt.
  cbn [d_get_count queue_ops putc getc linked queue_proto] in Hcase, Hcnt. wp_locals.
  assert (R01 := wrely_trans set Hset _ _ _ _ HR0 R1).
  apply (wp_read_put set Hset); [done|]. intros e k2 g2 R2 I2 Hk2 Hk2le Hk2c. wp_locals.
  assert (R02 := wrely_trans set Hset _ _ _ _ R01 R2).
  assert (Hk' : at_pos (subs g2) (thread_index l1) k (node d))
    by (eapply rely_at_pos; [exact R2|done]).
  destruct (Z.eqb_spec (node d) (node e)) as [Heq|Hne].
  - (* head = tail: the copied count was the position of both *)
    rewrite <- Heq in Hk2. assert (k2 = k) as -> by exact (q2d_at_pos_inj set g2 _ _ _ _ I2 Hi1 Hk2 Hk').
    assert (Hdr : drained set g g1) by (destruct Hcase as [[? ?]|]; [lia|done]).
    wp_local. apply (wp_load_next set Hset t (thread_index l1) k); [done|done| |].
    + intros g3 R3 I3 _. wp_locals. assert (R03 := wrely_trans set Hset _ _ _ _ R02 R3).
      apply HQ0; [done|done|done|]. intros j Hj. specialize (Hdr j Hj). cbn in Hdr |- *.
      pose proof (rely_putc set _ _ _ j HR0). pose proof (rely_getc set _ _ _ j R2).
      pose proof (rely_getc set _ _ _ j R3). cbn [putc getc queue_proto] in *. lia.
    + intros b g3 R3 _ Hb0 Hb. destruct (Z.eqb_spec b 0) as [|_]; [done|]. wp_local.
      assert (Hk3 : at_pos (subs g3) (thread_index l1) k (node e))
        by (rewrite <- Heq; eapply rely_at_pos; [exact R3|done]).
      apply (wp_load_next_known set Hset t (thread_index l1) k _ b); [done..|]. intros g4 R4 _.
      assert (R24 := wrely_trans set Hset _ _ _ _ R3 R4).
      pose proof R24 as (_ & _ & Hev24 & _). pose proof (ev_put _ _ Hev24 (thread_index l1)).
      wp_locals. apply (wp_put_cae set Hset t (thread_index l1) k); [done| | |lia|].
      * eapply rely_at_pos; [exact R4|done].
      * eapply rely_at_pos; [exact R4|done].
      * intros ok g5 R5 _. wp_locals. split; [done|].
        apply (wrely_trans set Hset _ _ _ _ R02), (wrely_trans set Hset _ _ _ _ R24), R5.
  - (* head behind tail: there is a next node *)
    assert (Hlt : (k < k2)%nat).
    { destruct (decide (k = k2)) as [->|]; [unfold at_pos in *; congruence|]. lia. }
    destruct (links_of (subs g2) (thread_index l1) !! S k) as [b|] eqn:Hb.
    2: { apply lookup_ge_None in Hb. apply lookup_lt_Some in Hk2. lia. }
    wp_local. apply (wp_load_next_known set Hset t (thread_index l1) k _ b); [done..|].
    intros g3 R3 _. wp_locals.
    assert (Hk3 : at_pos (subs g3) (thread_index l1) k (node d))
      by (eapply rely_at_pos; [exact R3|done]).
    assert (Hb3 : at_pos (subs g3) (thread_index l1) (S k) b)
      by (eapply rely_at_pos; [exact R3|done]).
    pose proof R3 as (_ & _ & Hev3 & _). pose proof (ev_put _ _ Hev3 (thread_index l1)).
    assert (R03 := wrely_trans set Hset _ _ _ _ R02 R3).
    apply (wp_deq_cae set Hset t (thread_index l1) k); [done|done|done|done|lia|..].
    + intros g5 g4 v n R4 Hev En Pn Hv Hm. wp_locals.
      assert (Hk4 : at_pos (subs g4) (thread_index l1) k (node d))
        by (eapply rely_at_pos; [exact R4|done]).
      assert (Hb4 : at_pos (subs g4) (thread_index l1) (S k) b)
        by (eapply rely_at_pos; [exact R4|done]).
      apply (wp_load_next_known set Hset t (thread_index l1) k _ b);
        [done|by eapply q2d_at_pos_evolves|by eapply q2d_at_pos_evolves|].
      intros g6 R6 _. wp_local. apply wp_load; [apply _|]. intros g7 R7 _ _.
      assert (R57 := wrely_trans set Hset _ _ _ _ R6 R7).
      pose proof R57 as (_ & _ & [_ _ _ Hheap _] & _).
      destruct (Hheap b n En Pn) as (n7 & E7 & _ & V7 & _).
      exists v. unfold lookup_node. rewrite E7. split; [cbn; congruence|]. wp_local.
      assert (R04 := wrely_trans set Hset _ _ _ _ R03 R4).
      apply (HQ _ _ g4 _ (thread_index l1) (Z.of_nat (S k))); [done|done|done| |].
      * eapply q2d_evolves_trans; [exact Hev|]. by destruct R57 as (_ & _ & ? & _).
      * by rewrite (queue_rely_mine _ _ _ R57), Hm, (queue_rely_mine _ _ _ R04).
    + intros g4 R4. wp_locals. split; [done|]. exact (wrely_trans set Hset _ _ _ _ R03 R4).
Qed.

(** [dequeue] returns the value of exactly one [Deq] event, or 0 when
    everything whose enqueue was complete at the call has been dequeued. *)
Lemma dequeue_wp t (Q : Z -> state -> tls -> Prop) g l :
  local_ok set t l ->
  (forall v g' g1 l' i k, local_ok set t l' -> 0 <= i < width set -> p_rely W t g g1 ->
     evolves (subs g1) (subs g') -> mine t g' = Deq i k v :: mine t g -> Q v g' l') ->
  (forall g' l', local_ok set t l' -> p_rely W t g g' -> p_inv W g' -> drained set g g' -> Q 0 g' l') ->
  wp W t (dequeue set) Q g l.
Proof.
  intros Hl HQ HQ0. unfold dequeue.
  apply (wp_while W t _ _ _ _ (fun _ _ => deq_loop t g) 0%nat).
  { split; [done|apply (rely_refl (P := W))]. }
  intros n c g2 l2 HJ. eapply wp_mono; [|by apply (dequeue_body_wp t g Q)].
  intros [c'|r] g3 l3 H; [by exists 0%nat|exact H].
Qed.
End operations.

(** ** Creation *)

Section creation.
Context {A : Allocator qnode_t}.

Lemma q2d_alloc_dummies_spec n : forall h nodes h',
  alloc_dummies n h = (nodes, h') ->
  length nodes = n /\ NoDup nodes /\ h ⊆ h' /\
  (forall a, a ∈ nodes -> a <> 0 /\ h !! a = None /\ h' !! a = Some (mkQnode 0 0 0)) /\
  (h !! 0 = None -> h' !! 0 = None).
Proof.
  induction n as [|n IH]; intros h nodes h' E; cbn in E.
  { injection E as <- <-. split_and!; try done; [constructor|by intros a ?%elem_of_nil]. }
  destruct (alloc_addr_ok h) as [Ha Hfresh].
  destruct (alloc_dummies n _) as [ns h1] eqn:E1. injection E as <- <-.
  destruct (IH _ _ _ E1) as (Hlen & Hnd & Hsub & Hin & H0).
  assert (Hnot : alloc_addr h ∉ ns).
  { intros Hi. destruct (Hin _ Hi) as (_ & E & _). by rewrite lookup_insert_eq in E. }
  split_and!; [cbn; lia|by constructor| | |].
  - etrans; [|exact Hsub]. by apply insert_subseteq.
  - intros a [->|Hi]%elem_of_cons.
    + split_and!; [done|done|]. eapply lookup_weaken; [|exact Hsub]. apply lookup_insert_eq.
    + destruct (Hin a Hi) as (? & E & ?). split_and!; [done| |done].
      destruct (decide (a = alloc_addr h)) as [->|]; [done|]. by rewrite lookup_insert_ne in E.
  - intros Hz. apply H0. by rewrite lookup_insert_ne.
Qed.

Lemma create_queue_inv nt w d k rb set g :
  create_queue nt w d k rb = Some (set, g) -> ds_ok set ->
  p_inv (wprot set) g /\ global_PWindow g = depth set /\ global_GWindow g = depth set /\
  hist (subs g) = [] /\ forall i, get_of (subs g) i = 0.
Proof.
  unfold create_queue. destruct (calculate _ _ _ _ _ _ _ _ _) as [p|]; [|done].
  cbn [mbind option_bind].
  destruct (alloc_dummies _ _) as [ns h] eqn:E. intros [= <- <-] (Hw & Hd & _). cbn in Hw, Hd.
  destruct (q2d_alloc_dummies_spec _ _ _ _ E) as (Hlen & Hnd & _ & Hin & H0).
  assert (Hns : forall i, 0 <= i < p_width p -> exists a, ns !! Z.to_nat i = Some a).
  { intros i Hi. apply lookup_lt_is_Some_2. lia. }
  assert (Hsub : forall i, 0 <= i < p_width p -> exists a,
    sub_at (mkQueues ((fun a => mkDesc a 0) <$> ns) ((fun a => mkDesc a 0) <$> ns) (mkQmem h ∅)
              ((fun a => [a]) <$> ns) []) i 0 0 a a).
  { intros i Hi. destruct (Hns i Hi) as [a Ea]. exists a.
    assert (EL : links_of (mkQueues ((fun a => mkDesc a 0) <$> ns) ((fun a => mkDesc a 0) <$> ns)
      (mkQmem h ∅) ((fun a => [a]) <$> ns) []) i = [a])
      by (unfold links_of; cbn; by rewrite list_lookup_fmap, Ea).
    split; cbn [put_array get_array heap hist];
      [by rewrite list_lookup_fmap, Ea|by rewrite list_lookup_fmap, Ea|unfold at_pos; by rewrite EL..|].
    rewrite EL. destruct (Hin a) as (? & _ & Eh); [by eapply list_elem_of_lookup_2|].
    split; try done; [|cbn; lia|cbn; lia].
    intros j x Hj. apply list_lookup_singleton_Some in Hj as [-> <-].
    split; [done|split; [done|]]. by exists (mkQnode 0 0 0). }
  split; [split|split; [done|split; [done|split; [done|]]]].
  - unfold win_inv. cbn [initialize_global_window global_PWindow global_GWindow subs depth width].
    split_and!; [apply Z.divide_refl..|lia|lia|]. intros i Hi. destruct (Hsub i Hi) as [a Hs].
    destruct (sub_at_counts _ _ _ _ _ _ Hs) as (Ep & _ & _ & Hl).
    cbn [putc linked queue_proto global_PWindow subs depth]. rewrite Ep. cbn in Hl. lia.
  - cbn [initialize_global_window subs]. split_and!; cbn [put_array get_array links heap hist width];
      rewrite ?length_fmap; try lia; [split; [by apply H0|done]| |done|].
    + intros i j L L' k1 k2 a Hi Hj Hk1 Hk2. rewrite list_lookup_fmap in Hi, Hj.
      destruct (ns !! i) as [x|] eqn:Ei; [|done]. destruct (ns !! j) as [y|] eqn:Ej; [|done].
      injection Hi as <-. injection Hj as <-.
      apply list_lookup_singleton_Some in Hk1 as [-> <-].
      apply list_lookup_singleton_Some in Hk2 as [-> <-].
      split; [|done]. by eapply NoDup_lookup.
    + intros i Hi. destruct (Hsub i Hi) as [a Hs]. by exists 0%nat, 0%nat, a, a.
  - intros i. unfold get_of; cbn. rewrite list_lookup_fmap. by destruct (ns !! Z.to_nat i).
Qed.
End creation.

(** ** Results *)

(** Every element the events enqueued has been dequeued in [h]. *)
Definition own_taken (h : qhist) (evs : list qevent) : Prop :=
  forall i k v, Enq i k v ∈ evs -> (k, v) ∈ deqs i h.

(** [explains set h done evs]: the results of a thread's operations [done]
    are exactly what its events [evs] (newest first) in the history [h]
    account for; it was told "empty" only once its own elements were gone. *)
Inductive explains (set : ds_t) (h : qhist) : list (op * Z) -> list qevent -> Prop :=
| explains_nil : explains set h [] []
| explains_enq done evs key v i k :
    explains set h done evs -> 0 <= i < width set ->
    explains set h (done ++ [(Enqueue key v, 1)]) (Enq i k v :: evs)
| explains_deq done evs v i k :
    explains set h done evs -> 0 <= i < width set ->
    explains set h (done ++ [(Dequeue, v)]) (Deq i k v :: evs)
| explains_empty done evs :
    explains set h done evs -> own_taken h evs ->
    explains set h (done ++ [(Dequeue, 0)]) evs.

Lemma explains_later set h h' done evs :
  h `suffix_of` h' -> explains set h done evs -> explains set h' done evs.
Proof.
  intros [h1 ->] H. induction H as [| | |done evs H IH Ht]; try by constructor.
  constructor; [done|]. intros i k v Hin. destruct (proj1 (elem_of_deqs i h k v) (Ht i k v Hin)) as [t Hd].
  apply elem_of_deqs. exists t. apply elem_of_app. by right.
Qed.

(** From the counts to the history: what is drained has been dequeued. *)
Lemma drained_own_taken set t g g' :
  queues_inv set (subs g') -> evolves (subs g) (subs g') -> settled set t (subs g) ->
  drained set g g' -> own_taken (hist (subs g')) (qevents_of t (hist (subs g))).
Proof.
  intros (_ & _ & _ & _ & _ & Hlg & H) Hev Hs Hdr i k v Hin.
  destruct (Hs i k v Hin) as [Hi Hk]. specialize (Hdr i Hi). cbn in Hdr.
  destruct (H i Hi) as (p & gp & a & b & Hsub). destruct (sub_at_counts _ _ _ _ _ _ Hsub) as (_ & Eg & _).
  pose proof (sq_deqs _ _ _ _ _ _ (sa_subq _ _ _ _ _ _ Hsub)) as Ed.
  apply position_dequeued; [done| |lia].
  apply elem_of_enqs. exists t. destruct Hev as [_ _ _ _ [h1 ->]]. apply elem_of_app. right.
  unfold qevents_of in Hin. apply list_elem_of_fmap in Hin as ([u e] & E & Hf).
  apply list_elem_of_filter in Hf as [Hu Hf]. cbn in *. by subst.
Qed.

Section theorems.
Context {A : Allocator qnode_t}.
Context (nt w d k rb : Z) (set : ds_t) (g0 : state).
Context (Hcreate : create_queue nt w d k rb = Some (set, g0)) (Hset : ds_ok set).
Context (opss : list (list op)) (ls : list tls) (schedule : list nat).
Context (Hls : forall i l, ls !! i = Some l -> local_ok set i l).
Context (Hbound : (Z.of_nat (length schedule) + 2) * depth set < 2 ^ 64).

Let final := exec (mkCfg g0 (clients (exec_op set) opss ls)) schedule.

Lemma queue_run :
  p_inv (wprot set) (mem final) /\ ~ faulty final /\
  (forall i rs l os, pool final !! i = Some (Ret rs, l) -> opss !! i = Some os ->
     length rs = length os /\
     explains set (hist (subs (mem final))) (zip os rs) (qevents_of i (hist (subs (mem final))))).
Proof.
  destruct (create_queue_inv _ _ _ _ _ _ _ Hcreate Hset) as (HI0 & HP0 & _ & Hh0 & _).
  destruct (window_soundness set Hset (exec_op set)
    (fun t done g _ => settled set t (subs g) /\
       explains set (hist (subs g)) done (qevents_of t (hist (subs g)))))
    with (g0 := g0) (opss := opss) (ls := ls) (schedule := schedule) as (HI & HF & HQ).
  - intros t done o g l [Hs HJ] Hl. destruct o as [key v|]; cbn [exec_op].
    + apply (enqueue_wp set Hset); [done|done|]. intros g' l' i k' Hl' Hi Hm Hs' Hev.
      split; [done|split; [done|]]. rewrite Hm.
      constructor; [eapply explains_later; [apply (ev_hist _ _ Hev)|exact HJ]|done].
    + apply (dequeue_wp set Hset); [done|..].
      * intros v g' g1 l' i k' Hl' Hi R1 Hev Hm. split; [done|].
        pose proof R1 as (_ & _ & Hev1 & _).
        assert (Hm1 := queue_rely_mine set t g g1 R1). split.
        -- intros j k2 v2 Hin. rewrite Hm in Hin. apply elem_of_cons in Hin as [?|Hin]; [done|].
           destruct (Hs j k2 v2 Hin). split; [done|].
           pose proof (ev_put _ _ Hev1 j). pose proof (ev_put _ _ Hev j). lia.
        -- rewrite Hm. constructor; [|done]. eapply explains_later; [|exact HJ].
           etrans; [apply (ev_hist _ _ Hev1)|apply (ev_hist _ _ Hev)].
      * intros g' l' Hl' R' I' Hdr. split; [done|]. pose proof R' as (_ & _ & Hev & _).
        split; [by eapply settled_rely|]. rewrite (queue_rely_mine set t g g' R').
        constructor; [eapply explains_later; [apply (ev_hist _ _ Hev)|exact HJ]|].
        eapply drained_own_taken; [apply I'|done..].
  - done.
  - rewrite HP0. cbn [s_limit queue_proto]. lia.
  - done.
  - intros i l _. split; [intros ? ? ?; rewrite Hh0; by intros ?%elem_of_nil|rewrite Hh0; constructor].
  - split; [done|split; [done|]]. intros i rs l os Hp Ho.
    destruct (HQ i rs l os Hp Ho) as (Hlen & g1 & R1 & _ & HJ1). split; [done|].
    pose proof R1 as (_ & _ & Hev & _ & E). rewrite <- E in HJ1.
    eapply explains_later; [apply (ev_hist _ _ Hev)|exact HJ1].
Qed.

(** C8. Refinement: every interleaving is a run of [width] FIFO queues.  For each
    sub-queue, what was dequeued followed by what its nodes still hold is
    what was enqueued, in that order; and the results of every finished
    thread are explained by its own events in program order: an enqueue took
    effect exactly once, a dequeue returned the value of exactly one of them,
    and "empty" was only answered once the thread's own elements were gone. *)
Theorem queue2Dd_linearizable :
  let s := subs (mem final) in
  qlegal (hist s) /\
  (forall i, 0 <= i < width set ->
     enqs i (hist s) = deqs i (hist s) ++ qcontents i (hist s) /\
     exists p g a b, sub_at s i p g a b) /\
  (forall i rs l os, pool final !! i = Some (Ret rs, l) -> opss !! i = Some os ->
     length rs = length os /\
     explains set (hist s) (zip os rs) (qevents_of i (hist s))).
Proof.
  destruct queue_run as ([_ Hs] & _ & HQ). pose proof Hs as (_ & _ & _ & _ & _ & Hlg & H).
  split; [done|split; [|done]]. intros i Hi. split; [by apply enqs_deqs|by apply H].
Qed.

(** C23. In every interleaving no thread dereferences NULL or unallocated memory,
    indexes out of an array, divides by zero or fails an assertion; and the
    put counts of the sub-queues, a pending enqueue included, stay inside the
    put window. *)
Theorem queue2Dd_safe :
  ~ faulty final /\
  forall i, 0 <= i < width set ->
    global_PWindow (mem final) - depth set <= put_of (subs (mem final)) i /\
    Z.of_nat (length (enqs i (hist (subs (mem final))))) <= global_PWindow (mem final) /\
    0 <= get_of (subs (mem final)) i <= put_of (subs (mem final)) i.
Proof.
  destruct queue_run as [HI [Hnf _]]. split; [done|]. intros i Hi. pose proof HI as [(_ & _ & _ & Hc) Hs].
  specialize (Hc i Hi). cbn [putc linked queue_proto] in Hc.
  destruct (inv_sub_at set _ i HI Hi) as (p & g & a & b & Hsub).
  destruct (sub_at_counts _ _ _ _ _ _ Hsub) as (-> & -> & ? & _).
  pose proof (sq_enqs _ _ _ _ _ _ (sa_subq _ _ _ _ _ _ Hsub)).
  destruct (sub_at_counts _ _ _ _ _ _ Hsub) as (Ep & _). lia.
Qed.
End theorems.

(** ** A concrete execution: two threads, two sub-queues of depth 3 *)

Definition example_set : ds_t := mkDs 2 2 3 3 0.
Definition example_mem : state :=
  let s := alloc_dummies (A := bump_allocator qnode_t) 2 ∅ in
  let array := (fun a => mkDesc a 0) <$> s.1 in
  mkShared 3 3 (mkQueues array array (mkQmem s.2 ∅) ((fun a => [a]) <$> s.1) []).
Definition example_ops : list (list op) :=
  [[Enqueue 1 11; Dequeue]; [Enqueue 2 22; Dequeue; Dequeue]].
Definition example_schedule : list nat := mjoin (replicate 300 [0; 1]%nat).
Definition example_final : cfg state tls (list Z) :=
  exec (mkCfg example_mem (clients (exec_op (A := bump_allocator qnode_t) example_set) example_ops
                             (tls0 <$> seq 0 2))) example_schedule.

(** Both threads run to completion in this schedule. *)
Example queue_example_finishes :
  (fun pl => match pl.1 with Ret rs => Some rs | _ => None end) <$> pool example_final
    = [Some [1; 11]; Some [1; 22; 0]] /\
  count <$> get_array (subs (mem example_final)) = [2; 0].
Proof. vm_compute. split; reflexivity. Qed.

Lemma queue_example_set_ok : ds_ok example_set.
Proof. unfold ds_ok; cbn; lia. Qed.

Lemma queue2Dd_linearizable_witness :
  explains example_set (hist (subs (mem example_final)))
    [(Enqueue 2 22, 1); (Dequeue, 22); (Dequeue, 0)]
    (qevents_of 1 (hist (subs (mem example_final)))).
Proof.
  refine (proj2 (proj2 (proj2 (queue2Dd_linearizable (A := bump_allocator qnode_t)
    1 2 3 0 0 example_set example_mem _ queue_example_set_ok example_ops (tls0 <$> seq 0 2)
    example_schedule _ _)) 1%nat [1; 22; 0] _ [Enqueue 2 22; Dequeue; Dequeue] _ _)).
  - vm_compute. reflexivity.
  - apply tls0_ok. reflexivity.
  - vm_compute. reflexivity.
  - vm_compute. reflexivity.
  - reflexivity.
Defined.

Lemma queue2Dd_safe_witness :
  global_PWindow (mem example_final) - 3 <= put_of (subs (mem example_final)) 0.
Proof.
  refine (proj1 (proj2 (queue2Dd_safe (A := bump_allocator qnode_t)
    1 2 3 0 0 example_set example_mem _ queue_example_set_ok example_ops (tls0 <$> seq 0 2)
    example_schedule _ _) 0 _)).
  - vm_compute. reflexivity.
  - apply tls0_ok. reflexivity.
  - vm_compute. reflexivity.
  - cbn; lia.
Defined.
