(* ===== verification/Queue2DdSeq.v ===== *)
(** The 2Dd queue used by one thread refines a k-out-of-order FIFO queue with
    [k = depth * (width - 1)]: a dequeue returns one of the [k + 1] oldest
    elements, and "empty" only when the queue is empty. *)
From S2P Require Import Prelude Conc Random Thread Params Window2Dd Solo2Dd StackHeap QueueHeap.
From S2P Require Import FifoOrder Queue2Dd.

(** ** Reads without interference *)

#[export] Instance queue_exact : SubExact queues descriptor_t :=
  {| exact_put i d s := put_array s !! Z.to_nat i = Some d;
     exact_get i d s := get_array s !! Z.to_nat i = Some d |}.

Section reads.
Context (set : ds_t).
Implicit Types (g : state) (l : tls).

Lemma read_put_twp i d (Q : descriptor_t -> state -> tls -> Prop) g l :
  lookup_put i g = Some d -> Q d g l -> twp (read_put i) Q g l.
Proof.
  intros E HQ. unfold read_put. wp_local. eapply twp_load; [by rewrite E|].
  wp_local. eapply twp_load; [by rewrite E|]. wp_local. by destruct d.
Qed.

Lemma read_get_twp i d (Q : descriptor_t -> state -> tls -> Prop) g l :
  lookup_get i g = Some d -> Q d g l -> twp (read_get i) Q g l.
Proof.
  intros E HQ. unfold read_get. wp_local. eapply twp_load; [by rewrite E|].
  wp_local. eapply twp_load; [by rewrite E|]. wp_local. by destruct d.
Qed.

Lemma sub_at_lookup g i p gp a b :
  sub_at (subs g) i p gp a b ->
  lookup_put i g = Some (mkDesc a (Z.of_nat p)) /\ lookup_get i g = Some (mkDesc b (Z.of_nat gp)).
Proof. by intros []. Qed.

Lemma load_next_twp i p gp a b k x (Q : Z -> state -> tls -> Prop) g l :
  sub_at (subs g) i p gp a b -> at_pos (subs g) i k x ->
  Q (default 0 (links_of (subs g) i !! S k)) g l -> twp (load_next x) Q g l.
Proof.
  intros Hs Hk HQ.
  destruct (qlist_node _ _ _ _ (sq_list _ _ _ _ _ _ (sa_subq _ _ _ _ _ _ Hs)) Hk)
    as (_ & n & En & _ & Hn).
  eapply twp_load; [unfold lookup_node; by rewrite En|]. by rewrite Hn.
Qed.
End reads.

#[export] Instance queue_solo {A : Allocator qnode_t} : SubSolo queues descriptor_t.
Proof.
  split; cbn [put_descriptor get_descriptor put_count_at queue_ops];
    intros set i Q g l Hi (_&_&_&_&_&_&H) HQ; destruct (H i Hi) as (p & gp & a & b & Hs);
    destruct (sub_at_lookup g _ _ _ _ _ Hs) as [E1 E2];
    destruct (sub_at_counts _ _ _ _ _ _ Hs) as (Ep & Eg & _).
  - eapply read_put_twp; [exact E1|]. apply HQ; [exact E1|done].
  - eapply read_get_twp; [exact E2|]. apply HQ; [exact E2|done].
  - eapply twp_load; [by rewrite E1|]. cbn [count]. rewrite <- Ep. exact HQ.
Qed.

(** ** The state between operations *)

(** No enqueue is pending. *)
Definition complete (set : ds_t) (s : queues) : Prop :=
  forall i, 0 <= i < width set -> Z.of_nat (length (links_of s i)) = put_of s i + 1.

Notation fifo_in set := (FifoOrder.fifo_in (width set) (depth set)).

Definition seq_ok (set : ds_t) (g : state) : Prop :=
  seq_inv set g /\ complete set (subs g) /\ fifo_in set (hist (subs g)).

Section sequential.
Context {A : Allocator qnode_t} (set : ds_t) (Hset : ds_ok set).
Notation W := (wprot set).
Notation history g := (hist (subs g)).
Implicit Types (g : state) (l : tls).

Lemma complete_enqs g i :
  queues_inv set (subs g) -> complete set (subs g) -> 0 <= i < width set ->
  Z.of_nat (length (enqs i (history g))) = put_of (subs g) i.
Proof.
  intros (_&_&_&_&_&_&H) Hc Hi. destruct (H i Hi) as (p & gp & a & b & Hs).
  pose proof (sq_enqs _ _ _ _ _ _ (sa_subq _ _ _ _ _ _ Hs)). specialize (Hc i Hi). lia.
Qed.

(** *** The enqueue order after each event *)

Lemma seq_deqs g i :
  queues_inv set (subs g) -> 0 <= i < width set -> Z.of_nat (length (deqs i (history g))) = get_of (subs g) i.
Proof.
  intros (_&_&_&_&_&_&H) Hi. destruct (H i Hi) as (p & gp & a & b & Hs).
  destruct (sub_at_counts _ _ _ _ _ _ Hs) as (_ & Eg & _).
  pose proof (sq_deqs _ _ _ _ _ _ (sa_subq _ _ _ _ _ _ Hs)). lia.
Qed.

Lemma fifo_ok_enq g t i v P :
  seq_ok set g -> 0 <= i < width set -> (depth set | P) ->
  (forall j, 0 <= j < width set -> put_of (subs g) j <= P) ->
  P - depth set <= put_of (subs g) i < P ->
  fifo_in set ((t, Enq i (put_of (subs g) i + 1) v) :: history g).
Proof.
  intros ([[_ Hs] _] & Hc & Hff) Hi HP Hle Hroom. pose proof Hset as (_ & Hd & _).
  pose proof (fun j => complete_enqs g j Hs Hc) as He. rewrite <- He by done.
  apply (fixed_enq _ _ Hd _ (proj1 (proj2 (proj2 (proj2 (proj2 (proj2 Hs)))))) t i v P); [done|done|done| |by rewrite He].
  intros j Hj. rewrite He by done. by apply Hle.
Qed.

(** A dequeue takes one of the [depth * (width - 1) + 1] oldest elements. *)
Lemma fifo_ok_deq g t i k v G :
  seq_ok set g -> 0 <= i < width set -> (depth set | G) ->
  (forall j, 0 <= j < width set -> G - depth set <= get_of (subs g) j) ->
  get_of (subs g) i < G -> head (qcontents i (history g)) = Some (k, v) ->
  k = get_of (subs g) i + 1 ->
  exists pre post, (fifo (history g)).*2 = pre ++ v :: post /\
    Z.of_nat (length pre) <= depth set * (width set - 1) /\
    (fifo ((t, Deq i k v) :: history g)).*2 = pre ++ post /\
    fifo_in set ((t, Deq i k v) :: history g).
Proof.
  intros ([[_ Hs] _] & _ & Hff) Hi HG Hge Hroom Hhead ->. pose proof Hset as (Hw & Hd & _).
  pose proof (fun j => seq_deqs g j Hs) as He.
  apply (fixed_deq _ _ Hd _ (proj1 (proj2 (proj2 (proj2 (proj2 (proj2 Hs)))))) t i _ v G); [done|done|done|..|done|by rewrite He].
  - intros j Hj. rewrite He by done. by apply Hge.
  - by rewrite He.
Qed.

(** *** The operations *)

Lemma fifo_empty g :
  seq_ok set g -> all_empty set (subs g) -> fifo (history g) = [].
Proof.
  intros ([[_ Hs] _] & Hc & _ & Hin) Hemp.
  destruct (fifo (history g)) as [|[[i k] v] xs]; [done|]. exfalso.
  destruct (proj1 (Hin i k v) ltac:(set_solver)) as [Hi Hk].
  pose proof Hs as (_&_&_&_&_&Hlg&_). pose proof (qcontents_place _ i k v Hlg Hk) as Hpl. rewrite (seq_deqs g i Hs Hi) in Hpl.
  rewrite (complete_enqs g i Hs Hc Hi) in Hpl. specialize (Hemp i Hi). cbn in Hemp. lia.
Qed.

(** A sub-queue's state when no enqueue is pending. *)
Lemma complete_sub g i :
  queues_inv set (subs g) -> complete set (subs g) -> 0 <= i < width set ->
  exists p gp a b, sub_at (subs g) i p gp a b /\ length (links_of (subs g) i) = S p /\
    put_of (subs g) i = Z.of_nat p /\ get_of (subs g) i = Z.of_nat gp /\ (gp <= p)%nat.
Proof.
  intros (_&_&_&_&_&_&H) Hc Hi. destruct (H i Hi) as (p & gp & a & b & Hs).
  destruct (sub_at_counts _ _ _ _ _ _ Hs) as (Ep & Eg & ? & _). specialize (Hc i Hi).
  exists p, gp, a, b. split_and!; try done; lia.
Qed.

Lemma seq_inv_same g s :
  seq_inv set g -> p_inv W (set_subs s g) -> (forall i, 0 <= i < width set -> get_of s i = get_of (subs g) i) ->
  seq_inv set (set_subs s g).
Proof.
  intros [_ Hg] HI He. split; [done|]. intros i Hi. specialize (Hg i Hi).
  cbn [getc queue_proto subs set_subs global_GWindow] in *. by rewrite He.
Qed.

(** After the link and the tail update no enqueue is pending. *)
Lemma complete_enqueue g i p a x b gp t e :
  queues_inv set (subs g) -> complete set (subs g) -> 0 <= i < width set ->
  sub_at (subs g) i p gp x b -> Z.of_nat p + 1 < 2 ^ 64 ->
  complete set (with_put i (mkDesc a (u64 (Z.of_nat p + 1)))
    (mkQueues (put_array (subs g)) (get_array (subs g)) (qmem_link x a (heap (subs g)))
       (<[Z.to_nat i := links_of (subs g) i ++ [a]]> (links (subs g))) ((t, e) :: history g))).
Proof.
  intros Hs Hc Hi Hsub Hlim j Hj. pose proof Hsub as [Eput _ _ _ _].
  destruct (sub_at_counts _ _ _ _ _ _ Hsub) as (Ep & _). pose proof (Hc i Hi) as Hci. specialize (Hc j Hj).
  rewrite put_of_with_put by (by eapply lookup_lt_Some). unfold links_of; cbn [with_put links count].
  rewrite list_lookup_insert. pose proof (lookup_lt_Some _ _ _ (q2d_links_lookup set _ i Hs Hi)).
  rewrite wrap_small by lia.
  destruct (decide (Z.to_nat i = Z.to_nat j)) as [E|E].
  - rewrite decide_True by done. cbn [default from_option]. unfold id. rewrite length_app.
    cbn [length]. unfold links_of in Hci. unfold id in Hci. lia.
  - rewrite decide_False by (by intros [? _]). exact Hc.
Qed.

Lemma enqueue_twp key v (Q : Z -> state -> tls -> Prop) g l :
  seq_ok set g -> global_PWindow g + 2 * depth set < 2 ^ 64 -> local_ok set 0 l ->
  (forall g' l', seq_ok set g' -> local_ok set 0 l' ->
     global_PWindow g' <= global_PWindow g + depth set ->
     (fifo (history g')).*2 = (fifo (history g)).*2 ++ [v] -> Q 1 g' l') ->
  twp (enqueue set key v) Q g l.
Proof.
  intros (HI & Hcmp & Hff) Hlim Hl HQ. pose proof Hset as (Hw & Hd & _). unfold enqueue. wp_local.
  destruct (create_step set 0 key v g (proj1 HI)) as (Hev1 & _ & HI1).
  set (a := alloc_addr _) in *. set (s1 := with_heap _ _) in *.
  eapply twp_act; [cbv zeta; rewrite (proj1 Hl); reflexivity|].
  fold (with_heap (qmem_alloc 0 a (mkQnode 0 key v) (heap (subs g))) (subs g)). fold a s1.
  set (g1 := set_subs s1 g) in *.
  assert (HI1' : seq_inv set g1) by (by apply seq_inv_same).
  wp_local. apply (wp_while solo 0%nat _ _ _ _ (fun _ _ g' l' => g' = g1 /\ l' = l) 0%nat); [done|].
  intros n c g' l' [-> ->]. unfold enqueue_body. wp_local.
  apply (put_window_twp set Hset); [done|cbn; lia|done|].
  intros d P l2 [Ht2 Hi2] EP HP Ed Ec Hlt. cbn [exact_put queue_exact] in Ed.
  pose proof (seq_inv_PWindow set Hset g1 P HI1' HP) as HI2.
  assert (HP' : P <= global_PWindow g + depth set) by (destruct HP as [->|[-> _]]; cbn; lia).
  set (g2 := set_PWindow P g1) in *.
  destruct (complete_sub g2 (thread_index l2) (proj2 (proj1 HI2)) Hcmp Hi2)
    as (p & gp & x & b & Hs & Hlen & Ep & Eg & Hgp).
  pose proof (sa_puta _ _ _ _ _ _ Hs) as Hx.
  assert (d = mkDesc x (Z.of_nat p)) as -> by (destruct Hs; cbn in *; congruence).
  cbn [d_put_count queue_ops count node] in *. wp_locals.
  eapply load_next_twp; [exact Hs|exact Hx|].
  rewrite (lookup_ge_None_2 (links_of (subs g2) (thread_index l2))) by lia. cbn [default from_option Z.eqb].
  unfold id. cbn [Z.eqb]. wp_locals.
  destruct (sub_at_lookup g2 _ _ _ _ _ Hs) as [El _].
  eapply twp_load; [by rewrite El|]. wp_locals. cbn [count].
  rewrite EP. destruct (Z.leb_spec P (Z.of_nat p)) as [|_]; [lia|]. wp_locals.
  (* the link *)
  destruct (qlist_node _ _ _ _ (sq_list _ _ _ _ _ _ (sa_subq _ _ _ _ _ _ Hs)) Hx)
    as (_ & nx & Enx & _ & Hnx). rewrite lookup_ge_None_2 in Hnx by lia. cbn in Hnx.
  assert (Hlk : linkable 0 (thread_index l2) p x a nx (mkQnode 0 key v) (subs g2)).
  { split; [done|lia|done|done|apply lookup_insert_eq|apply lookup_insert_eq|done]. }
  destruct (q2d_link_step set Hset 0 (thread_index l2) p x a nx (mkQnode 0 key v) g2 (proj1 HI2) Hi2 Hlk)
    as [_ HI3]; [cbn; lia|].
  destruct (link_changes set 0 (thread_index l2) p x a nx (mkQnode 0 key v) (subs g2)
    (proj2 (proj1 HI2)) Hi2 Hlk) as (Hev3 & _ & Ha3 & _).
  pose proof (q2d_link_node_eq set 0 (thread_index l2) p x a nx (mkQnode 0 key v) (subs g2)
    (proj2 (proj1 HI2)) Hi2 Hlk) as Elink.
  eapply twp_act; [unfold lookup_node; rewrite Enx; cbn [mbind option_bind];
    rewrite decide_True by done; by rewrite Ht2|].
  rewrite Elink in HI3, Hev3, Ha3 |- *. set (s3 := mkQueues _ _ _ _ _) in *.
  set (g3 := set_subs s3 g2) in *. wp_locals.
  (* the tail *)
  assert (Hx3 : at_pos (subs g3) (thread_index l2) p x) by (by eapply q2d_at_pos_evolves).
  destruct (advance_step set Hset 0 (thread_index l2) p a (mkDesc x (Z.of_nat p)) g3 HI3)
    as (_ & HI4 & _ & Hput4); [cbn; lia|done|exact El|done|done|].
  cbn [count] in HI4, Hput4.
  eapply twp_act; [cbv beta; change (lookup_put (thread_index l2) g3) with (lookup_put (thread_index l2) g2); rewrite El; cbn [mbind option_bind]; by rewrite decide_True|].
  fold (with_put (thread_index l2) (mkDesc a (u64 (Z.of_nat p + 1))) (subs g3)). wp_locals.
  set (s4 := with_put _ _ _) in *.
  assert (Ehist : hist s4 = (0%nat, Enq (thread_index l2) (put_of (subs g) (thread_index l2) + 1) v) :: history g).
  { change (hist s4) with (hist s3). unfold s3; cbn [hist].
    change (put_of (subs g)) with (put_of (subs g2)). rewrite Ep. do 3 f_equal. lia. }
  change (set_subs s4 g3) with (set_subs s4 g2) in *.
  apply HQ; [|done|cbn; lia|].
  - split; [|split].
    + by apply seq_inv_same.
    + apply (complete_enqueue g2 (thread_index l2) p a x b gp 0 (Enq (thread_index l2) (Z.of_nat (S p)) v));
        [apply HI2|exact Hcmp|exact Hi2|exact Hs|lia].
    + cbn [subs set_subs]. rewrite Ehist.
      destruct HI2 as [[(HdP & _ & _ & Hc2) Hs2] _].
      apply (fifo_ok_enq g 0 _ v P); [by split|done|done| |].
      * intros j Hj. pose proof (s_inv_counts set (subs g2) j Hs2 Hj) as Hcj.
        specialize (Hc2 j Hj). cbn [putc getc linked queue_proto] in Hcj, Hc2.
        change (put_of (subs g)) with (put_of (subs g2)). cbn [global_PWindow g2 set_PWindow] in Hc2. lia.
      * specialize (Hc2 _ Hi2). cbn [putc linked queue_proto] in Hc2.
        change (put_of (subs g)) with (put_of (subs g2)). cbn [global_PWindow g2 set_PWindow] in Hc2. lia.
  - cbn [subs set_subs]. rewrite Ehist. cbn. by rewrite fmap_app.
Qed.

Lemma dequeue_twp (Q : Z -> state -> tls -> Prop) g l :
  seq_ok set g -> global_PWindow g + depth set < 2 ^ 64 -> local_ok set 0 l ->
  (forall v pre post g' l', seq_ok set g' -> local_ok set 0 l' ->
     global_PWindow g' = global_PWindow g ->
     (fifo (history g)).*2 = pre ++ v :: post ->
     Z.of_nat (length pre) <= depth set * (width set - 1) ->
     (fifo (history g')).*2 = pre ++ post -> Q v g' l') ->
  (forall g' l', seq_ok set g' -> local_ok set 0 l' ->
     global_PWindow g' = global_PWindow g -> history g' = history g ->
     fifo (history g) = [] -> Q 0 g' l') ->
  twp (dequeue set) Q g l.
Proof.
  intros HS Hlim Hl HQ HQ0. pose proof HS as (HI & Hcmp & Hff). pose proof Hset as (Hw & Hd & _).
  apply (wp_while solo 0%nat _ _ _ _ (fun _ _ g' l' => g' = g /\ l' = l) 0%nat); [done|].
  intros n c g' l' [-> ->]. unfold dequeue_body. wp_local.
  apply (get_window_twp set Hset); [done|cbn; lia|done|].
  intros d G l2 (Hl2 & HG & Ed & Ec & Hcase). pose proof Hl2 as [Ht2 Hi2].
  cbn [d_get_count queue_ops exact_get queue_exact getc putc queue_proto] in *.
  pose proof (seq_inv_GWindow set Hset g G HI HG) as HI2. set (g2 := set_GWindow G g) in *.
  destruct (complete_sub g2 (thread_index l2) (proj2 (proj1 HI2)) Hcmp Hi2)
    as (p & gp & x & b & Hs & Hlen & Ep & Eg & Hgp).
  destruct (sub_at_lookup g2 _ _ _ _ _ Hs) as [Elp Elg].
  assert (d = mkDesc b (Z.of_nat gp)) as -> by (unfold lookup_get in Elg; cbn in *; congruence).
  cbn [count node] in *. pose proof (sa_puta _ _ _ _ _ _ Hs) as Hx.
  pose proof (sa_geta _ _ _ _ _ _ Hs) as Hb. wp_locals.
  eapply read_put_twp; [exact Elp|]. wp_locals. cbn [node].
  destruct (Z.eqb_spec b x) as [->|Hbx].
  - assert (gp = p) as -> by exact (q2d_at_pos_inj set g2 _ _ _ _ (proj1 HI2) Hi2 Hb Hx).
    wp_local. eapply load_next_twp; [exact Hs|exact Hx|].
    rewrite lookup_ge_None_2 by lia. cbn [default from_option]. unfold id. cbn [Z.eqb]. wp_locals.
    change (put_of (subs g2)) with (put_of (subs g)) in Ep.
    assert (Hemp : all_empty set (subs g)) by (destruct Hcase as [[? ?]|]; [lia|done]).
    apply HQ0; [by split|done|done|done|]. by apply fifo_empty.
  - assert (Hlt : (gp < p)%nat).
    { destruct (decide (gp = p)) as [->|]; [unfold at_pos in *; congruence|lia]. }
    destruct (lookup_lt_is_Some_2 (links_of (subs g2) (thread_index l2)) (S gp)) as [y Hy]; [lia|].
    assert (Hroom : Z.of_nat gp < G).
    { destruct Hcase as [[? ?]|Hemp]; [done|]. specialize (Hemp _ Hi2). cbn in Hemp.
      change (put_of (subs g2)) with (put_of (subs g)) in Ep.
      change (get_of (subs g2)) with (get_of (subs g)) in Eg. lia. }
    wp_local. eapply load_next_twp; [exact Hs|exact Hb|]. rewrite Hy. cbn [default from_option].
    unfold id. wp_locals.
    destruct (qlist_node _ _ _ _ (sq_list _ _ _ _ _ _ (sa_subq _ _ _ _ _ _ Hs)) Hy)
      as (_ & ny & Eny & _).
    assert (Hput : put_of (subs g) (thread_index l2) < 2 ^ 64 - 1).
    { pose proof (s_inv_counts set (subs g) _ (proj2 (proj1 HI)) Hi2).
      destruct HI as [[(_&_&_&Hc) _] _]. specialize (Hc _ Hi2).
      cbn [putc getc linked queue_proto] in *. lia. }
    change (put_of (subs g2)) with (put_of (subs g)) in Ep.
    change (get_of (subs g2)) with (get_of (subs g)) in Eg.
    eapply twp_act.
    { rewrite Elg. cbn [mbind option_bind]. rewrite decide_True by done.
      unfold take_node. cbn [count node]. rewrite Eny. cbn [from_option].
      rewrite wrap_small by lia. replace (Z.of_nat gp + 1) with (Z.of_nat (S gp)) by lia.
      rewrite Ht2. fold (taken 0 (thread_index l2) gp y (qval ny) (subs g2)). reflexivity. }
    cbv beta iota. wp_locals. set (s3 := taken _ _ _ _ _ _).
    assert (Hinv3 : queues_inv set s3).
    { eapply taken_inv; [apply HI2|done|exact Elg|cbn; lia|exact Hy|exact Eny]. }
    destruct (taken_changes 0 (thread_index l2) gp b y (qval ny) (subs g2) (proj1 Hi2) Elg)
      as (Hev3 & _ & _). fold s3 in Hev3.
    destruct (proj2 (proj2 (proj2 (proj2 (proj2 (proj2 Hinv3))))) _ Hi2) as (p3 & gp3 & x3 & b3 & Hs3).
    eapply load_next_twp; [exact Hs3|exact Hb|].
    change (links_of (subs (set_subs s3 g2)) (thread_index l2)) with (links_of (subs g2) (thread_index l2)).
    rewrite Hy. cbn [default from_option]. unfold id. cbv beta. wp_local.
    eapply (twp_load _ _ _ _ (qval ny));
      [change (lookup_node y (set_subs s3 g2)) with (qnodes (heap (subs g2)) !! y); by rewrite Eny|].
    wp_local.
    assert (Hhead : head (qcontents (thread_index l2) (history g)) = Some (Z.of_nat (S gp), qval ny)).
    { eapply subq_val; [apply Hs|done|done|apply HI]. }
    destruct HI2 as [[(_ & HdG & _ & _) _] Hg2].
    destruct (fifo_ok_deq g 0 (thread_index l2) (Z.of_nat (S gp)) (qval ny) G HS Hi2)
      as (pre & post & E1 & Hb1 & E2 & Hff2); [done| |lia|done|lia|].
    { intros j Hj. specialize (Hg2 j Hj). cbn in Hg2. cbn. lia. }
    apply (HQ _ pre post); [|done|done|done|done|exact E2].
    split; [split|split; [|done]].
    + apply step_inv; [|done|].
      * by apply (seq_inv_GWindow set Hset g G HI HG).
      * intros j Hj. split; [apply Hev3|]. destruct HI as [[(_&_&_&Hc) _] _]. apply (Hc j Hj).
    + intros j Hj. specialize (Hg2 j Hj).
      change (global_GWindow (set_subs s3 g2)) with G. change (global_GWindow g2) with G in Hg2.
      change (getc (subs (set_subs s3 g2)) j) with (get_of s3 j).
      change (getc (subs g2) j) with (get_of (subs g2) j) in Hg2. unfold s3. rewrite get_of_taken by (by eapply lookup_lt_Some).
      destruct (decide _) as [E|]; [|exact Hg2]. assert (thread_index l2 = j) as <- by lia.
      change (get_of (subs g2)) with (get_of (subs g)) in Hg2. lia.
    + intros j Hj. apply (Hcmp j Hj).
Qed.

(** *** [queue_size] *)

Definition queue_total (s : queues) (n : Z) : Z := sum_upto (fun i => put_of s i - get_of s i) n.

Lemma size_loop_twp i p gp a b (Q : Z -> state -> tls -> Prop) size g l :
  0 <= i < width set -> p_inv W g -> sub_at (subs g) i p gp a b ->
  0 <= size -> size + Z.of_nat (p - gp) < 2 ^ 64 ->
  Q (size + Z.of_nat (p - gp)) g l ->
  twp (while (fun '(head, size) =>
        if negb (head =? a) then
          let* head := load_next head in
          continue (head, u64 (size + 1))
        else break size) (b, size)) Q g l.
Proof.
  intros Hi HI Hs H0 Hlim HQ. destruct (sub_at_counts _ _ _ _ _ _ Hs) as (_ & _ & Hpos & _).
  apply (wp_while solo 0%nat _ _ _ _ (fun n '(x, sz) g1 l1 => g1 = g /\ l1 = l /\
    exists k, at_pos (subs g) i k x /\ (gp <= k <= p)%nat /\ n = (p - k)%nat /\
      sz = size + Z.of_nat (k - gp)) (p - gp)%nat).
  - split; [done|split; [done|]]. exists gp. split_and!; [apply Hs|lia..].
  - intros n [x sz] g1 l1 (-> & -> & k & Hk & Hkp & -> & ->).
    destruct (Z.eqb_spec x a) as [->|Hne]; cbn [negb].
    + assert (k = p) as -> by exact (q2d_at_pos_inj set g _ _ _ _ HI Hi Hk (sa_puta _ _ _ _ _ _ Hs)).
      wp_locals. exact HQ.
    + assert (k <> p) by (intros ->; pose proof (sa_puta _ _ _ _ _ _ Hs); unfold at_pos in *; congruence).
      destruct (lookup_lt_is_Some_2 (links_of (subs g) i) (S k)) as [y Hy]; [lia|].
      wp_local. eapply load_next_twp; [exact Hs|exact Hk|]. rewrite Hy. cbn [default from_option].
      unfold id. wp_locals. exists (p - S k)%nat. split; [lia|]. split; [done|split; [done|]].
      exists (S k). rewrite wrap_small by lia. split_and!; [exact Hy|lia..].
Qed.

Lemma queue_size_twp (Q : Z -> state -> tls -> Prop) g l :
  p_inv W g -> queue_total (subs g) (width set) < 2 ^ 64 ->
  Q (queue_total (subs g) (width set)) g l -> twp (queue_size set) Q g l.
Proof.
  intros HI Hlim HQ. pose proof Hset as (Hw & _). unfold queue_total in *.
  set (f i := put_of (subs g) i - get_of (subs g) i) in *.
  assert (Hf : forall j, 0 <= j < width set -> 0 <= f j).
  { intros j Hj. pose proof (s_inv_counts set (subs g) j (proj2 HI) Hj) as Hc. cbn in Hc.
    unfold f. lia. }
  eapply (wp_while solo 0%nat _ _ _ _ (fun n '(i, size) g1 l1 => g1 = g /\ l1 = l /\
    0 <= i <= width set /\ size = sum_upto f i /\ n = Z.to_nat (width set - i))).
  - split_and!; try done; lia.
  - intros n [i size] g1 l1 (-> & -> & Hi & -> & ->).
    destruct (Z.ltb_spec i (width set)) as [Hlt|Hge].
    + destruct (inv_sub_at set g i HI ltac:(lia)) as (p & gp & a & b & Hs).
      destruct (sub_at_lookup g _ _ _ _ _ Hs) as [Elp Elg].
      destruct (sub_at_counts _ _ _ _ _ _ Hs) as (Ep & Eg & Hpos & _).
      wp_local. eapply twp_load; [by rewrite Elg|]. wp_local.
      eapply twp_load; [by rewrite Elp|]. wp_local. cbn [node].
      pose proof (sum_upto_succ f i ltac:(lia)) as Esucc.
      pose proof (sum_upto_mono f (i + 1) (width set) ltac:(lia) Hf) as Hmono.
      pose proof (sum_upto_nonneg f i ltac:(lia) ltac:(intros; apply Hf; lia)).
      assert (Efi : f i = Z.of_nat (p - gp)) by (unfold f; lia).
      eapply size_loop_twp; [|exact HI|exact Hs|lia|lia|]; [lia|]. wp_locals.
      eexists. split; [|split_and!; try done]; lia.
    + wp_locals. by replace i with (width set) in * by lia.
Qed.
End sequential.

(** ** Whole runs *)

Section runs.
Context {A : Allocator qnode_t}.
Context (nt w d k rb : Z) (set : ds_t) (g0 : state).
Context (Hcreate : create_queue nt w d k rb = Some (set, g0)) (Hset : ds_ok set).
Context (ops : list op) (l0 : tls) (Hl0 : local_ok set 0 l0).
Context (Hbound : width set * ((Z.of_nat (length ops) + 3) * depth set) < 2 ^ 64).

Definition seq_account (done : list (op * Z)) (g : state) (l : tls) : Prop :=
  kq_run (depth set * (width set - 1)) done (fifo (hist (subs g))).*2 /\
  seq_ok set g /\ local_ok set 0 l /\
  global_PWindow g <= (Z.of_nat (length done) + 1) * depth set.

Lemma create_seq_ok : seq_account [] g0 l0.
Proof.
  destruct (create_queue_inv _ _ _ _ _ _ _ Hcreate Hset) as (HI & HP & HG & Hh & Hget).
  pose proof Hset as (Hw & Hd & _).
  assert (Hall : forall i, 0 <= i < width set -> exists p, put_of (subs g0) i = Z.of_nat p /\
    length (links_of (subs g0) i) = 1%nat /\ (p < 1)%nat).
  { intros i Hi. destruct (inv_sub_at set g0 i HI Hi) as (p & gp & a & b & Hs).
    destruct (sub_at_counts _ _ _ _ _ _ Hs) as (Ep & _ & ? & _).
    pose proof (sq_enqs _ _ _ _ _ _ (sa_subq _ _ _ _ _ _ Hs)) as E. rewrite Hh in E. cbn in E.
    exists p. split_and!; [done|done|lia]. }
  split; [rewrite Hh; constructor|split; [|split; [done|rewrite HP; cbn; lia]]].
  split; [split; [done|]|split].
  - intros i Hi. cbn [getc queue_proto]. rewrite Hget, HG. lia.
  - intros i Hi. destruct (Hall i Hi) as (p & Ep & El & Hp). rewrite El, Ep. lia.
  - rewrite Hh. apply fifo_ok_nil.
Qed.

(** The abstract queue has as many elements as [queue_size] counts. *)
Lemma queue_total_fifo g : seq_ok set g -> queue_total (subs g) (width set) = Z.of_nat (length (fifo (hist (subs g)))).
Proof.
  intros ([[_ Hs] _] & Hc & Hff). pose proof Hs as (_&_&_&_&_&Hlg&_).
  rewrite (fifo_length _ _ _ Hlg Hff). apply sum_upto_ext. intros i Hi.
  pose proof (complete_enqs set g i Hs Hc Hi) as He. pose proof (seq_deqs set g i Hs Hi) as Hd.
  rewrite (enqs_deqs i _ Hlg), length_app in He. lia.
Qed.

(** C1. Refinement of the k-out-of-order queue: for one thread, every run
    terminates; a dequeue returns one of the [depth * (width - 1) + 1] oldest
    elements, and 0 for an empty queue only when the queue is empty; the bound
    is within the relaxation bound the queue was created for in the modes 1,
    2 and 3; [queue_size] returns the number of its elements. *)
Theorem queue2Dd_k_relaxed :
  exists n rs g l q,
    (forall m, (n <= m)%nat -> run m (run_ops (exec_op set) ops) g0 l0 = Finished rs g l) /\
    length rs = length ops /\
    kq_run (depth set * (width set - 1)) (zip ops rs) q /\
    (args_ok 1 32 64 nt w d rb -> 1 <= k <= 3 ->
     depth set * (width set - 1) <= relaxation_bound set <= rb) /\
    exists n' g' l', forall m, (n' <= m)%nat ->
      run m (queue_size set) g l = Finished (Z.of_nat (length q)) g' l'.
Proof.
  pose proof Hset as (Hw & Hd & _).
  destruct (twp_run (run_ops (exec_op set) ops) (fun rs g l =>
      length rs = length ops /\ seq_account ([] ++ zip ops rs) g l) g0 l0)
    as (n & rs & g & l & Hrun & Hlen & Hrs & HS & Hl & HP).
  - apply (wp_run_ops_upto solo 0%nat (exec_op set) (length ops) seq_account);
      [|cbn; lia|apply create_seq_ok].
    intros done o g l Hlt (Hrs & HS & Hl & HP).
    assert (Hlim : global_PWindow g + 2 * depth set < 2 ^ 64) by nia.
    destruct o as [k' v|]; cbn [exec_op].
    + apply (enqueue_twp set Hset); [done|done|done|]. intros g' l' HS' Hl' HP' E.
      split; [rewrite E; by constructor|split; [done|split; [done|]]].
      rewrite length_app; cbn [length]. lia.
    + apply (dequeue_twp set Hset); [done|lia|done|..].
      * intros v pre post g' l' HS' Hl' HP' E1 Hb E2.
        split; [rewrite E2; constructor; [by rewrite E1 in Hrs|done]|split; [done|split; [done|]]].
        rewrite length_app; cbn [length]. lia.
      * intros g' l' HS' Hl' HP' Eh E0.
        split; [rewrite Eh, E0; rewrite E0 in Hrs; by constructor|split; [done|split; [done|]]].
        rewrite length_app; cbn [length]. lia.
  - exists n, rs, g, l, (fifo (hist (subs g))).*2. split_and!; [done|done|done|..].
    + intros Hargs Hk.
      destruct (calculate_bound 1 32 64 product_u32 nt w d k rb Hargs Hk) as (p & E & Hp).
      revert Hcreate. unfold create_queue. rewrite E. cbn [mbind option_bind].
      destruct (alloc_dummies _ _). intros [= <- _]. cbn. lia.
    + pose proof HS as (HI & _).
      destruct (twp_run (queue_size set) (fun r _ _ => r = queue_total (subs g) (width set)) g l)
        as (n' & r & g' & l' & Hrun' & ->); [|exists n', g', l'; by rewrite length_fmap, <- queue_total_fifo].
      apply (queue_size_twp set Hset); [apply HI| |done].
      cbn [app] in HP. rewrite length_zip_with in HP.
      assert (Hle : queue_total (subs g) (width set) <= width set * global_PWindow g).
      { apply sum_upto_bound with (lo := 0); [lia|]. intros i Hi.
        pose proof (s_inv_counts set (subs g) i (proj2 (proj1 HI)) Hi) as Hc.
        destruct HI as [[(_ & _ & _ & Hc') _] _]. specialize (Hc' i Hi).
        cbn [putc getc linked queue_proto] in *. lia. }
      assert (global_PWindow g <= (Z.of_nat (length ops) + 1) * depth set) by nia.
      nia.
Qed.
End runs.

Definition example_seq_ops : list op :=
  [Enqueue 1 11; Enqueue 2 22; Enqueue 3 33; Dequeue; Dequeue; Dequeue; Dequeue].

Lemma queue2Dd_k_relaxed_witness :
  exists n rs g l q,
    (forall m, (n <= m)%nat ->
       run m (run_ops (exec_op (A := bump_allocator qnode_t) (mkDs 2 2 3 3 1)) example_seq_ops)
         example_mem (tls0 0) = Finished rs g l) /\
    length rs = 7%nat /\
    kq_run (3 * (2 - 1)) (zip example_seq_ops rs) q /\
    (args_ok 1 32 64 1 2 3 3 -> 1 <= 1 <= 3 -> 3 * (2 - 1) <= 3 <= 3) /\
    exists n' g' l', forall m, (n' <= m)%nat ->
      run m (queue_size (mkDs 2 2 3 3 1)) g l = Finished (Z.of_nat (length q)) g' l'.
Proof.
  apply (queue2Dd_k_relaxed (A := bump_allocator qnode_t) 1 2 3 1 3 (mkDs 2 2 3 3 1) example_mem).
  - vm_compute. reflexivity.
  - unfold ds_ok; cbn; lia.
  - split; cbn; lia.
  - vm_compute. reflexivity.
Defined.
