(* ===== verification/Shared.v ===== *)
(** What the structures other than the 2Dd ones are put together from: shared
    memory made of a window and the sub-structures, the thread-local
    variables, the protocol of the whole from the protocols of the parts, and
    the rules that serve both for a thread among others and for a thread that
    runs alone. *)
From S2P Require Import Prelude Conc Random Thread.

(** ** State *)

(** [window] is the structure's window ([unit] for a structure without). *)
Record shared (W SS : Type) := mkShared { window : W; subs : SS }.
Arguments mkShared {W SS}.
Arguments window {W SS}.
Arguments subs {W SS}.

Definition set_window {W SS} (w : W) (g : shared W SS) : shared W SS := mkShared w (subs g).
Definition set_subs {W SS} (s : SS) (g : shared W SS) : shared W SS := mkShared (window g) s.

(** Thread-local variables: [thread_Window] is the thread's copy of the
    window, of whatever type that is. *)
Record tls (W : Type) := mkTls {
  thread_id : nat;
  thread_Window : W;
  thread_index : Z;
  seeds : seeds_t;
  stats : stats_t;
}.
Arguments mkTls {W}.
Arguments thread_id {W}.
Arguments thread_Window {W}.
Arguments thread_index {W}.
Arguments seeds {W}.
Arguments stats {W}.

Definition set_thread_Window {W} (v : W) (l : tls W) : tls W :=
  mkTls (thread_id l) v (thread_index l) (seeds l) (stats l).
Definition set_thread_index {W} (v : Z) (l : tls W) : tls W :=
  mkTls (thread_id l) (thread_Window l) v (seeds l) (stats l).
Definition set_seeds {W} (v : seeds_t) (l : tls W) : tls W :=
  mkTls (thread_id l) (thread_Window l) (thread_index l) v (stats l).
Definition count_stat {W} (f : stats_t -> stats_t) (l : tls W) : tls W :=
  mkTls (thread_id l) (thread_Window l) (thread_index l) (seeds l) (f (stats l)).

Notation M W SS := (prog (shared W SS) (tls W)).

(** [random_index(width)], its parameter a [bits]-bit unsigned integer. *)
Definition random_index {W SS V} (bits w : Z) : prog (shared W SS) (tls V) Z :=
  Loc (fun l => '(r, s) ← Random.random_index (wrap bits w) (seeds l); Some (r, set_seeds s l)) Ret.

(** The thread's index into an array of [w] sub-structures is in range. *)
Definition index_ok {W} (w : Z) (t : nat) (l : tls W) : Prop :=
  thread_id l = t /\ 0 <= thread_index l < w.

(** Only the random generator and the statistics have changed. *)
Definition with_rng {W} (s : seeds_t) (st : stats_t) (l : tls W) : tls W :=
  mkTls (thread_id l) (thread_Window l) (thread_index l) s st.

(** ** Protocols *)

(** The window and the sub-structures each keep their own protocol. *)
Definition joint {W SS} (P : protocol W) (Q : protocol SS) : protocol (shared W SS) :=
  {| p_inv g := p_inv P (window g) /\ p_inv Q (subs g);
     p_rely t g g' := p_rely P t (window g) (window g') /\ p_rely Q t (subs g) (subs g');
     p_guar t g g' := p_guar P t (window g) (window g') /\ p_guar Q t (subs g) (subs g');
     p_ok g := p_ok P (window g) /\ p_ok Q (subs g);
     p_total := false |}.

#[export] Instance joint_laws {W SS} (P : protocol W) (Q : protocol SS) :
  ProtocolLaws P -> ProtocolLaws Q -> ProtocolLaws (joint P Q).
Proof.
  intros HP HQ. split; cbn.
  - intros t g. split; apply rely_refl.
  - intros t g1 g2 g3 [] []. split; by eapply rely_trans.
  - intros t g. split; apply guar_refl.
  - intros t u g1 g2 Htu [] []. split; by eapply guar_rely.
Qed.

(** In place of a window: state on which nothing depends. *)
Definition no_window {W} : protocol W :=
  {| p_inv _ := True; p_rely _ _ _ := True; p_guar _ _ _ := True; p_ok _ := True;
     p_total := false |}.

#[export] Instance no_window_laws {W} : ProtocolLaws (no_window (W := W)).
Proof. by split. Qed.

(** Thread 0 runs alone, in a state where the invariant of [B] holds, and must
    terminate. *)
Definition alone {G} (B : protocol G) : protocol G :=
  {| p_inv := p_inv B;
     p_rely t g g' := t = 0%nat -> g' = g;
     p_guar t g g' := (t = 0%nat -> p_guar B t g g') /\ (t <> 0%nat -> g' = g);
     p_ok _ := True;
     p_total := true |}.

#[export] Instance alone_laws {G} (B : protocol G) : ProtocolLaws B -> ProtocolLaws (alone B).
Proof.
  intros HB. split; cbn.
  - done.
  - intros t g1 g2 g3 H1 H2 Ht. by rewrite H2, H1.
  - intros t g. split; [intros _; apply guar_refl|done].
  - intros t u g1 g2 Htu _ [_ H] Ht. apply H. congruence.
Qed.

(** [Runs P B t]: what thread [t] proves of the protocol [B] holds of [P],
    which is [B] itself or [alone B]. *)
Class Runs {G} (P B : protocol G) (t : nat) : Prop := {
  runs_laws :: ProtocolLaws P;
  runs_inv g : p_inv P g -> p_inv B g;
  runs_inv_back g : p_inv B g -> p_inv P g;
  runs_rely g g' : p_rely P t g g' -> p_rely B t g g';
  runs_guar g g' : p_guar B t g g' -> p_guar P t g g';
}.

#[export] Instance runs_self {G} (B : protocol G) t : ProtocolLaws B -> Runs B B t.
Proof. by split. Qed.

#[export] Instance runs_alone {G} (B : protocol G) : ProtocolLaws B -> Runs (alone B) B 0.
Proof.
  intros HB. split; cbn; try done.
  - apply _.
  - intros g g' H. rewrite (H eq_refl). apply rely_refl.
Qed.

(** [Reads P B t]: what thread [t] learns from its own loads under [B] holds
    under [P]. *)
Class Reads {G} (P B : protocol G) (t : nat) : Prop := {
  reads_laws : ProtocolLaws P;
  reads_inv g : p_inv P g -> p_inv B g;
  reads_rely g g' : p_rely P t g g' -> p_rely B t g g';
}.

(** [Couples P B C t]: the invariant of [P] is that of [B] and in addition [C],
    which relates the parts of [B] to each other; a step of [B] is one of [P] if
    it preserves [C]. *)
Class Couples {G} (P B : protocol G) (C : G -> Prop) (t : nat) : Prop := {
  couples_reads : Reads P B t;
  couples_inv g : p_inv P g -> C g;
  couples_back g : p_inv B g -> C g -> p_inv P g;
  couples_guar g g' : p_guar B t g g' -> p_guar P t g g';
}.

#[export] Instance runs_reads {G} (P B : protocol G) t : Runs P B t -> Reads P B t.
Proof. intros []. by split. Qed.
#[export] Instance runs_couples {G} (P B : protocol G) t : Runs P B t -> Couples P B (fun _ => True) t.
Proof. intros H. split; [apply _|done|intros g Hg _; by apply H|apply H]. Qed.

Definition coupled {G} (B : protocol G) (C : G -> Prop) : protocol G :=
  {| p_inv g := p_inv B g /\ C g; p_rely := p_rely B; p_guar := p_guar B; p_ok := p_ok B;
     p_total := false |}.

#[export] Instance coupled_laws {G} (B : protocol G) C : ProtocolLaws B -> ProtocolLaws (coupled B C).
Proof.
  intros HB. split; cbn; [apply rely_refl|apply rely_trans|apply guar_refl|].
  intros t u g1 g2 Htu [HI _]. by apply guar_rely.
Qed.
#[export] Instance couples_self {G} (B : protocol G) C t : ProtocolLaws B -> Couples (coupled B C) B C t.
Proof. intros HB. split; [split; [apply _|by intros g []|done]|by intros g []|done|done]. Qed.
#[export] Instance couples_alone {G} (B : protocol G) C : ProtocolLaws B -> Couples (alone (coupled B C)) B C 0.
Proof.
  intros HB. split; [split; [apply _|by intros g []|]|by intros g []|done|].
  - cbn. intros g g' H. rewrite (H eq_refl). apply rely_refl.
  - cbn. intros g g' H. by split.
Qed.

(** The bound a thread relies on at the next step: among others it is part of
    what it may assume; alone it has to be shown of the present state. *)
Definition within {G} (P B : protocol G) (t : nat) (g : G) : Prop :=
  forall g', p_rely P t g g' -> p_inv P g' -> p_ok P g' -> p_ok B g'.

Lemma within_self {G} (B : protocol G) t g : within B B t g.
Proof. by intros g'. Qed.
Lemma within_alone {G} (B : protocol G) g : p_ok B g -> within (alone B) B 0 g.
Proof. intros H g' R _ _. by rewrite (R eq_refl). Qed.
Lemma within_rely {G} (P B : protocol G) t {laws : ProtocolLaws P} g g' :
  within P B t g -> p_rely P t g g' -> within P B t g'.
Proof. intros H R g'' R' I' O'. apply H; [by apply (rely_trans (P := P) t g g' g'')|done..]. Qed.
#[export] Hint Resolve within_self within_alone : core.

(** The thread alone runs to the end, and the invariant of [B] holds there. *)
Lemma alone_solo {G L A} (B : protocol G) (p : prog G L A) :
  forall (Q : A -> G -> L -> Prop) g l,
  p_inv B g -> wp (alone B) 0 p Q g l ->
  wp solo 0 p (fun a g l => Q a g l /\ p_inv B g) g l.
Proof.
  induction p as [A a|A B' f k IH|A B' f k IH|A B' C body IHb c k IHk]; intros Q g l HI; cbn.
  - by split.
  - destruct (f l) as [[b l']|]; [|done]. by apply IH.
  - intros H g1 R _ _. rewrite (R eq_refl) in *. specialize (H g (fun _ => eq_refl) HI I).
    destruct (f g l) as [[[b g2] l2]|]; [|done]. destruct H as ([Hg _] & HI2 & H).
    split; [by intros []|split; [done|]]. by apply IH.
  - intros (J & n & H0 & HJ). exists (fun n c g l => J n c g l /\ p_inv B g), n.
    split; [done|]. intros m c' g' l' [Hc HI'].
    eapply wp_mono; [|apply IHb; [done|apply HJ, Hc]].
    intros [c''|b] g2 l2 [H HI2].
    + destruct H as (m' & Hm & H). by exists m'.
    + by apply IHk.
Qed.

Lemma alone_run {G L A} (B : protocol G) (p : prog G L A) (Q : A -> G -> L -> Prop) g l :
  p_inv B g -> wp (alone B) 0 p Q g l ->
  exists n a g' l',
    (forall m, (n <= m)%nat -> run m p g l = Finished a g' l') /\ Q a g' l' /\ p_inv B g'.
Proof.
  intros HI H. destruct (twp_run p _ g l (alone_solo B p Q g l HI H))
    as (n & a & g' & l' & Hr & HQ & HI'). by exists n, a, g', l'.
Qed.

(** ** Rules *)

Section rules.
Context {W SS V : Type} (P : protocol (shared W SS)) (t : nat).
Implicit Types (g : shared W SS) (l : tls V).

Lemma wp_shared_random bits w (Q : Z -> shared W SS -> tls V -> Prop) g l :
  0 < w < 2 ^ bits ->
  (forall r s, 0 <= r < w -> Q r g (set_seeds s l)) ->
  wp P t (random_index bits w) Q g l.
Proof.
  intros Hw HQ. unfold random_index. cbn [wp]. rewrite wrap_small by lia.
  destruct (random_index_spec w (seeds l)) as (r & s & E & Hr); [lia|].
  rewrite E. cbn. by apply HQ.
Qed.

(** The same, with what is drawn. *)
Lemma wp_shared_draw w (Q : Z -> shared W SS -> tls V -> Prop) g l :
  0 < w < 2 ^ 64 ->
  (forall r s, Random.random_index w (seeds l) = Some (r, s) -> 0 <= r < w ->
     Q r g (set_seeds s l)) ->
  wp P t (random_index 64 w) Q g l.
Proof.
  intros Hw HQ. unfold random_index. cbn [wp]. rewrite wrap_small by lia.
  destruct (random_index_spec w (seeds l)) as (r & s & E & Hr); [lia|].
  rewrite E. cbn. by apply HQ.
Qed.
End rules.

(** [drawn w s js s']: the random indices [js] below [w] are drawn one after
    the other from the seeds [s]. *)
Inductive drawn (w : Z) (s : seeds_t) : list Z -> seeds_t -> Prop :=
| drawn_nil : drawn w s [] s
| drawn_snoc js s1 r s2 :
    drawn w s js s1 -> Random.random_index w s1 = Some (r, s2) -> drawn w s (js ++ [r]) s2.

Lemma drawn_one w s r s' : Random.random_index w s = Some (r, s') -> drawn w s [r] s'.
Proof. intros E. apply (drawn_snoc w s [] s); [constructor|done]. Qed.

(** ** Whole executions *)

Section executions.
Context {W SS V O R : Type} (exec : O -> prog (shared W SS) (tls V) R).

(** Any number of threads, each running [init] and then any sequence of
    operations. *)
Definition clients_from (init : prog (shared W SS) (tls V) unit) (opss : list (list O)) (ls : list (tls V)) :
    list (prog (shared W SS) (tls V) (list R) * tls V) :=
  zip ((fun os => init ;;; run_ops exec os) <$> opss) ls.
Definition clients (opss : list (list O)) (ls : list (tls V)) : list (prog (shared W SS) (tls V) (list R) * tls V) :=
  zip (run_ops exec <$> opss) ls.

(** The operations that are [ok] keep a per-thread account [J] of what they did;
    [extra] is known of every state on the way. *)
Lemma clients_soundness_along (P : protocol (shared W SS)) {laws : ProtocolLaws P} (ok : O -> Prop)
    (J : nat -> list (O * R) -> shared W SS -> tls V -> Prop)
    (meas : shared W SS -> Z) (delta limit : Z) init (extra : shared W SS -> Prop) g0 opss ls schedule :
  let c n := Conc.exec (mkCfg g0 (clients_from init opss ls)) (take n schedule) in
  let c' := Conc.exec (mkCfg g0 (clients_from init opss ls)) schedule in
  (forall t done o g l, ok o -> J t done g l ->
     wp P t (exec o) (fun r g l => J t (done ++ [(o, r)]) g l) g l) ->
  0 <= delta -> (forall t g g', p_inv P g -> p_guar P t g g' -> meas g' <= meas g + delta) ->
  (forall g, p_inv P g -> meas g <= limit -> extra g -> p_ok P g) ->
  (forall n, extra (mem (c n))) ->
  p_inv P g0 -> meas g0 + Z.of_nat (length schedule) * delta <= limit ->
  (forall i l, ls !! i = Some l -> wp P i init (fun _ => J i []) g0 l) -> Forall (Forall ok) opss ->
  p_inv P (mem c') /\ ~ faulty c' /\
  (forall i rs l os, pool c' !! i = Some (Ret rs, l) -> opss !! i = Some os ->
     length rs = length os /\
     exists g1, p_rely P i g1 (mem c') /\ J i (zip os rs) g1 l).
Proof.
  intros c c' HJ Hdelta Hmeas Hok Hex Hi Hlim HJ0 Hops.
  destruct (soundness_along P (fun i rs g l => forall os, opss !! i = Some os ->
      length rs = length os /\ J i (zip os rs) g l)
    meas delta limit Hdelta Hmeas extra Hok g0 (clients_from init opss ls) schedule) as (HI & HF & HQ); try done.
  - intros i p l Hp. unfold clients_from in Hp.
    apply lookup_zip_with_Some in Hp as (p' & l' & [= <- <-] & Hp & Hl).
    rewrite list_lookup_fmap in Hp. destruct (opss !! i) as [os|] eqn:Eo; [|done].
    injection Hp as <-. apply wp_bind. eapply wp_mono; [|by apply HJ0]. intros [] g1 l1 HJ1.
    eapply wp_mono; [|apply (wp_run_ops_where P i exec ok (length os) (J i)) with (done := [])].
    + intros rs g2 l2 [Hlen HJr] os' [= <-]. by split.
    + intros done o g2 l2 _ Ho HJ2. by apply HJ.
    + rewrite Forall_lookup in Hops. by apply (Hops i).
    + done.
    + done.
  - split; [done|split; [done|]]. intros i rs l os Hp Ho.
    destruct (HQ i rs l Hp) as (g1 & R1 & HQ1). destruct (HQ1 os Ho) as [Hlen HJ1].
    split; [done|]. by exists g1.
Qed.

Context (P : protocol (shared W SS)) {laws : ProtocolLaws P}.
Context (J : nat -> list (O * R) -> shared W SS -> tls V -> Prop).
Context (HJ : forall t done o g l, J t done g l ->
  wp P t (exec o) (fun r g l => J t (done ++ [(o, r)]) g l) g l).
Context (meas : shared W SS -> Z) (delta limit : Z) (Hdelta : 0 <= delta).
Context (Hmeas : forall t g g', p_inv P g -> p_guar P t g g' -> meas g' <= meas g + delta).
Context (Hok : forall g, p_inv P g -> meas g <= limit -> p_ok P g).

Lemma clients_soundness g0 opss ls schedule :
  let c' := Conc.exec (mkCfg g0 (clients opss ls)) schedule in
  p_inv P g0 -> meas g0 + Z.of_nat (length schedule) * delta <= limit ->
  (forall i l, ls !! i = Some l -> J i [] g0 l) ->
  p_inv P (mem c') /\ ~ faulty c' /\
  (forall i rs l os, pool c' !! i = Some (Ret rs, l) -> opss !! i = Some os ->
     length rs = length os /\
     exists g1, p_rely P i g1 (mem c') /\ J i (zip os rs) g1 l).
Proof.
  intros c' ? ? HJ0. apply (clients_soundness_along P (fun _ => True) J meas delta limit (Ret tt) (fun _ => True));
    try done.
  - intros t done o g l _. apply HJ.
  - intros g HI Hm _. by apply Hok.
  - rewrite Forall_forall. intros os _. by apply Forall_true.
Qed.
End executions.

(** The thread-local variables of thread [i] when it starts: all are
    zero-initialised but the seeds. *)
Definition tls0 {W} (w : W) (i : nat) : tls W := mkTls i w 0 (mkSeeds 1 2 3) stats0.

Lemma tls0_lookup {W} (w : W) n i l :
  (tls0 w <$> seq 0 n) !! i = Some l -> l = tls0 w i.
Proof.
  rewrite list_lookup_fmap. destruct (seq 0 n !! i) as [j|] eqn:E; [|done].
  apply lookup_seq in E as [-> _]. by intros [= <-].
Qed.
