(* ===== verification/SubStacks.v ===== *)
(** An array of Treiber stacks: the part the relaxed stacks have in common.
    Each array entry is a descriptor (the top node, with what else the
    structure keeps in it) that a push or a pop replaces by one
    compare-and-exchange.  The steps on it and their rules are here; which
    sub-stack an operation chooses is up to the structures. *)
From S2P Require Import Prelude Conc Random Thread StackHeap Shared.

(** [d_node] is the top; [d_ok d n]: the rest of [d] is right for a sub-stack
    of [n] elements. *)
Class Desc (D : Type) := { d_node : D -> Z; d_ok : D -> Z -> Prop }.

(** The history variable [hist] has one event per successful operation. *)
Record stacks (D N : Type) := mkStacks {
  array : list D;
  heap : memory_of N;
  hist : list (nat * event);
}.
Arguments mkStacks {D N}.
Arguments array {D N}.
Arguments heap {D N}.
Arguments hist {D N}.

Definition lookup_desc {W D N} (i : Z) (g : shared W (stacks D N)) : option D :=
  array (subs g) !! Z.to_nat i.
Definition lookup_node {W D N} (a : Z) (g : shared W (stacks D N)) : option N :=
  nodes (heap (subs g)) !! a.
Definition set_heap {W D N} (m : memory_of N) (g : shared W (stacks D N)) : shared W (stacks D N) :=
  set_subs (mkStacks (array (subs g)) m (hist (subs g))) g.

(** ** The steps *)

Section code.
Context {W V D N : Type} `{EqDecision D} `{Desc D} {nops : NodeOps N} {A : Allocator N}.
Notation M := (prog (shared W (stacks D N)) (tls V)).

(** An allocation with the node's fields set: the node is private to the
    thread until it is pushed. *)
Definition alloc_node (n : N) : M Z :=
  Act (fun g l =>
    let m := heap (subs g) in
    let a := alloc_addr (nodes m) in
    Some (a, set_heap (mem_alloc (thread_id l) a n m) g, l)) Ret.

(** A store to fields of the node at [a]. *)
Definition store_node (a : Z) (f : N -> N) : M unit :=
  update (fun g _ =>
    n ← lookup_node a g;
    Some (tt, set_heap (mem_write a (f n) (heap (subs g))) g)).

Definition load_node {B} (f : N -> B) (a : Z) : M B := load (fun g => f <$> lookup_node a g).
Definition load_desc {B} (f : D -> B) (i : Z) : M B := load (fun g => f <$> lookup_desc i g).

(** [CAE(&array[i], &d, &new)]; on success the history records the push of
    [new]'s node or the pop of [d]'s. *)
Definition cae_desc (i : Z) (d new : D) (is_push : bool) : M bool :=
  Act (fun g l =>
    cur ← lookup_desc i g;
    if decide (cur = d) then
      let m := heap (subs g) in
      let v a := from_option n_val 0 (nodes m !! a) in
      Some (true,
            set_subs (mkStacks (<[Z.to_nat i := new]> (array (subs g)))
                        (if is_push then mem_publish (d_node new) m else m)
                        ((thread_id l, if is_push then Push i (v (d_node new))
                                       else Pop i (v (d_node d))) :: hist (subs g))) g, l)
    else Some (false, g, l)) Ret.

(** The size loop every stack has: over the sub-stacks, and over the nodes of
    each. *)
Definition stacks_size (w : Z) : M Z :=
  while (fun '(i, size) =>
    if i <? w then
      let* n := load_desc d_node i in
      let* size := while (fun '(n, size) =>
        if negb (n =? 0) then
          let* nxt := load_node n_next n in
          continue (nxt, u64 (size + 1))
        else break size) (n, size) in
      continue (u64 (i + 1), size)
    else break size) (0, 0).
End code.

(** ** Protocol *)

Section protocol.
Context {D N : Type} `{Desc D} {nops : NodeOps N}.
Notation stacks := (stacks D N).

(** Every sub-stack is exactly what the history says. *)
Definition stacks_inv (w : Z) (s : stacks) : Prop :=
  Z.of_nat (length (array s)) = w /\ mem_ok (heap s) /\ legal (hist s) /\
  forall i d, 0 <= i -> array s !! Z.to_nat i = Some d ->
    chain (heap s) (d_node d) (contents i (hist s)) /\
    d_ok d (Z.of_nat (length (contents i (hist s)))).

(** [limit] bounds the number of successful operations. *)
Definition sprot (w limit : Z) : protocol stacks :=
  {| p_inv := stacks_inv w;
     p_rely t s s' := mem_rely t (heap s) (heap s') /\ hist s `suffix_of` hist s' /\
       events_of t (hist s') = events_of t (hist s);
     p_guar t s s' := mem_guar t (heap s) (heap s') /\ hist s `suffix_of` hist s' /\
       (forall u, u <> t -> events_of u (hist s') = events_of u (hist s)) /\
       Z.of_nat (length (hist s')) <= Z.of_nat (length (hist s)) + 1;
     p_ok s := Z.of_nat (length (hist s)) < limit;
     p_total := false |}.

#[export] Instance sprot_laws w limit : ProtocolLaws (sprot w limit).
Proof.
  split; cbn.
  - done.
  - intros t s1 s2 s3 (? & ? & ->) (? & ? & ->). split_and!; [by eapply mem_rely_trans|by etrans|done].
  - intros t s. split_and!; [done..|lia].
  - intros t u s1 s2 Htu _ (? & ? & Hu & _). split_and!; [by eapply mem_guar_rely|done|by apply Hu].
Qed.

Lemma sub_lookup w (s : stacks) i :
  stacks_inv w s -> 0 <= i < w -> exists d, array s !! Z.to_nat i = Some d.
Proof. intros [Hlen _] Hi. apply lookup_lt_is_Some_2. lia. Qed.

Lemma sub_inv w (s : stacks) i d :
  stacks_inv w s -> 0 <= i -> array s !! Z.to_nat i = Some d ->
  chain (heap s) (d_node d) (contents i (hist s)) /\
  d_ok d (Z.of_nat (length (contents i (hist s)))).
Proof. intros (_ & _ & _ & Hi). apply Hi. Qed.

Lemma count_le_length p (h : list (nat * event)) : StackHeap.count p h <= Z.of_nat (length h).
Proof. induction h as [|x h IH]; cbn [StackHeap.count length]; [lia|]. destruct (p x); lia. Qed.

Lemma contents_bound i (h : list (nat * event)) :
  legal h -> Z.of_nat (length (contents i h)) <= Z.of_nat (length h).
Proof.
  intros Hl. rewrite contents_length by done.
  pose proof (count_le_length (is_push i) h). pose proof (count_nonneg (is_pop i) h). lia.
Qed.

(** A private change of the heap. *)
Lemma sub_inv_heap w (s : stacks) m :
  stacks_inv w s -> mem_ok m -> keeps (heap s) m None ->
  stacks_inv w (mkStacks (array s) m (hist s)).
Proof.
  intros (Hlen & _ & Hl & Hi) Hm Hk. split_and!; try done. intros i d Hi' Hd.
  destruct (Hi i d Hi' Hd). split; [by eapply chain_keeps|done].
Qed.

(** What justifies replacing descriptor [d] by [new]: a private node linked to
    the old top, or the node after the top. *)
Definition cae_allowed (t : nat) (i : Z) (d new : D) (push : bool) (v : Z) (s : stacks) : Prop :=
  let len := Z.of_nat (length (contents i (hist s))) in
  if push then
    (exists n, priv (heap s) !! d_node new = Some t /\ nodes (heap s) !! d_node new = Some n /\
       n_val n = v /\ n_next n = d_node d /\ n_pos n len) /\ d_ok new (len + 1)
  else
    d_node d <> 0 /\
    (exists n, nodes (heap s) !! d_node d = Some n /\ n_val n = v /\ n_next n = d_node new) /\
    (0 < len -> d_ok new (len - 1)).

Definition after_cae (t : nat) (i : Z) (new : D) (push : bool) (v : Z) (s : stacks) : stacks :=
  mkStacks (<[Z.to_nat i := new]> (array s))
    (if push then mem_publish (d_node new) (heap s) else heap s)
    ((t, if push then Push i v else Pop i v) :: hist s).

(** One compare-and-exchange keeps the invariant. *)
Lemma cae_step w limit t i d new push v s :
  stacks_inv w s -> 0 <= i < w -> array s !! Z.to_nat i = Some d ->
  cae_allowed t i d new push v s ->
  stacks_inv w (after_cae t i new push v s) /\
  p_guar (sprot w limit) t s (after_cae t i new push v s).
Proof.
  intros Hs Hi Hd Hal. pose proof Hs as (Hlen & Hm & Hl & Hinv).
  destruct (Hinv i d (proj1 Hi) Hd) as [Hch Hok].
  set (s' := after_cae t i new push v s).
  assert (Hnew : mem_ok (heap s') /\ mem_guar t (heap s) (heap s') /\ legal (hist s') /\
    chain (heap s') (d_node new) (contents i (hist s')) /\
    d_ok new (Z.of_nat (length (contents i (hist s'))))).
  { destruct push; cbn in Hal |- *; rewrite decide_True by done.
    - destruct Hal as ((n & P & E & <- & En & Hpos) & Hok').
      destruct (mem_publish_ok t (d_node new) _ Hm P) as [Hm' Hg].
      rewrite <- En in Hch. split_and!; try done.
      + exact (chain_publish (heap s) (d_node new) n _ Hm (ex_intro _ t P) E Hch Hpos).
      + cbn [length]. by rewrite Nat2Z.inj_succ, <- Z.add_1_r.
    - destruct Hal as (Hn & (n & E & <- & En) & Hok').
      destruct (chain_cons _ _ _ _ Hch Hn E) as (vs & Evs & Hc). rewrite En in Hc.
      rewrite Evs in *. split_and!; try done. cbn [tail length] in *.
      replace (Z.of_nat (length vs)) with (Z.of_nat (S (length vs)) - 1) by lia.
      apply Hok'. lia. }
  destruct Hnew as (Hm' & Hg & Hl' & Hch' & Hok').
  split; [split_and!|split_and!].
  - cbn. by rewrite length_insert.
  - done.
  - done.
  - intros j dj Hj Hdj. cbn [s' after_cae array hist] in Hdj. rewrite list_lookup_insert in Hdj.
    destruct (decide (i = j)) as [->|Hne].
    + rewrite decide_True in Hdj by (split; [done|by eapply lookup_lt_Some]). by injection Hdj as <-.
    + rewrite decide_False in Hdj by (intros [? _]; lia).
      assert (Econt : contents j (hist s') = contents j (hist s))
        by (unfold s'; destruct push; cbn; by rewrite decide_False).
      rewrite Econt. destruct (Hinv j dj Hj Hdj). split; [|done]. by eapply chain_keeps; [apply Hg|].
  - done.
  - by exists [(t, if push then Push i v else Pop i v)].
  - intros u Hu. cbn [s' after_cae hist]. rewrite events_of_cons. by rewrite decide_False.
  - cbn [s' after_cae hist length]. lia.
Qed.
End protocol.

(** ** Rules *)

Section rules.
Context {W V D N : Type} `{EqDecision D} `{Desc D} {nops : NodeOps N} {A : Allocator N}.
Context (WP : protocol W) {wlaws : ProtocolLaws WP} (w limit : Z).
Notation B := (joint WP (sprot w limit)).
Context (P : protocol (shared W (stacks D N))) (t : nat) {runs : Runs P B t}.
Implicit Types (g : shared W (stacks D N)) (l : tls V) (s : stacks D N).

(** A change of the sub-stacks only. *)
Lemma subs_step g s :
  p_inv P g -> stacks_inv w s -> p_guar (sprot w limit) t (subs g) s ->
  p_guar P t g (set_subs s g) /\ p_inv P (set_subs s g).
Proof.
  intros HI Hs Hg. pose proof (runs_inv (B := B) g HI) as [Hw _]. split.
  - apply (runs_guar (B := B)). split; [apply guar_refl|exact Hg].
  - apply (runs_inv_back (B := B)). by split.
Qed.

Lemma inv_stacks g : p_inv P g -> stacks_inv w (subs g).
Proof. intros HI. apply (runs_inv (B := B) g HI). Qed.

Lemma own_rely g g' a n :
  p_rely P t g g' -> priv (heap (subs g)) !! a = Some t -> lookup_node a g = Some n ->
  priv (heap (subs g')) !! a = Some t /\ lookup_node a g' = Some n.
Proof.
  intros R Pa E. apply (runs_rely (B := B)) in R as (_ & (_ & Hk) & _). by destruct (Hk a n E Pa).
Qed.

Lemma published_rely g g' a n :
  p_rely P t g g' -> priv (heap (subs g)) !! a = None -> lookup_node a g = Some n ->
  priv (heap (subs g')) !! a = None /\ lookup_node a g' = Some n.
Proof.
  intros R Pa E. apply (runs_rely (B := B)) in R as (_ & (Hk & _) & _). by destruct (Hk a n E Pa).
Qed.

Lemma mine_rely g g' :
  p_rely P t g g' -> events_of t (hist (subs g')) = events_of t (hist (subs g)).
Proof. intros R. by apply (runs_rely (B := B)) in R as (_ & _ & _ & ?). Qed.

Lemma ptr_ok_rely g g' a :
  p_rely P t g g' -> ptr_ok (heap (subs g)) a -> ptr_ok (heap (subs g')) a.
Proof. intros R. apply (runs_rely (B := B)) in R as (_ & (Hk & _) & _). by apply ptr_ok_keeps. Qed.

Lemma top_ptr_ok g i d :
  p_inv P g -> 0 <= i -> lookup_desc i g = Some d -> ptr_ok (heap (subs g)) (d_node d).
Proof. intros HI Hi E. eapply chain_ptr_ok, sub_inv; [by apply inv_stacks|done..]. Qed.

Lemma wp_desc_field {R} (f : D -> R) i (Q : R -> shared W (stacks D N) -> tls V -> Prop) g l :
  0 <= i < w ->
  (forall g' d, p_rely P t g g' -> p_inv P g' -> p_ok P g' -> lookup_desc i g' = Some d ->
     Q (f d) g' l) ->
  wp P t (load_desc f i) Q g l.
Proof.
  intros Hi HQ. apply wp_load; [apply _|]. intros g1 R1 I1 O1.
  destruct (sub_lookup w (subs g1) i (inv_stacks g1 I1) Hi) as [d E].
  exists (f d). unfold lookup_desc. rewrite E. split; [done|]. by apply HQ.
Qed.

(** A load from a published node. *)
Lemma wp_load_node {R} (f : N -> R) a n (Q : R -> shared W (stacks D N) -> tls V -> Prop) g l :
  priv (heap (subs g)) !! a = None -> lookup_node a g = Some n ->
  (forall g', p_rely P t g g' -> p_inv P g' -> priv (heap (subs g')) !! a = None ->
     lookup_node a g' = Some n -> Q (f n) g' l) ->
  wp P t (load_node f a) Q g l.
Proof.
  intros Pa E HQ. apply wp_load; [apply _|]. intros g1 R1 I1 _.
  destruct (published_rely g g1 a n R1 Pa E) as [P1 E1].
  exists (f n). rewrite E1. split; [done|]. by apply HQ.
Qed.

Lemma wp_alloc_node n (Q : Z -> shared W (stacks D N) -> tls V -> Prop) g l :
  thread_id l = t ->
  (forall a g1, p_rely P t g g1 -> p_inv P g1 ->
     let g2 := set_heap (mem_alloc t a n (heap (subs g1))) g1 in
     p_inv P g2 -> mem_rely t (heap (subs g1)) (heap (subs g2)) ->
     priv (heap (subs g2)) !! a = Some t -> lookup_node a g2 = Some n -> Q a g2 l) ->
  wp P t (alloc_node n) Q g l.
Proof.
  intros Ht HQ g1 R1 I1 _. rewrite Ht. cbv zeta.
  set (a := alloc_addr (nodes (heap (subs g1)))).
  destruct (alloc_addr_ok (nodes (heap (subs g1)))) as [Ha Hfresh]. fold a in Ha, Hfresh.
  pose proof (inv_stacks g1 I1) as Hs.
  destruct (mem_alloc_ok t a n _ (proj1 (proj2 Hs)) Ha Hfresh) as (Hm & Hk & Hku).
  destruct (subs_step g1 (mkStacks (array (subs g1)) (mem_alloc t a n (heap (subs g1)))
    (hist (subs g1))) I1) as [Hg HI].
  { by apply sub_inv_heap. }
  { split_and!; cbn; [by split|done|done|lia]. }
  split; [exact Hg|split; [exact HI|]].
  apply (HQ a g1 R1 I1); [exact HI|by split|apply lookup_insert_eq..].
Qed.

(** A store to an own private node. *)
Lemma wp_store_node a f n (Q : unit -> shared W (stacks D N) -> tls V -> Prop) g l :
  priv (heap (subs g)) !! a = Some t -> lookup_node a g = Some n ->
  (forall g1, p_rely P t g g1 -> p_inv P g1 -> lookup_node a g1 = Some n ->
     let g2 := set_heap (mem_write a (f n) (heap (subs g1))) g1 in
     p_inv P g2 -> keeps (heap (subs g1)) (heap (subs g2)) None ->
     priv (heap (subs g2)) !! a = Some t -> lookup_node a g2 = Some (f n) -> Q tt g2 l) ->
  wp P t (store_node a f) Q g l.
Proof.
  intros Pa E HQ g1 R1 I1 _. destruct (own_rely g g1 a n R1 Pa E) as [P1 E1].
  rewrite E1. cbn [mbind option_bind]. pose proof (inv_stacks g1 I1) as Hs.
  destruct (mem_write_ok t a (f n) _ (proj1 (proj2 Hs)) P1) as [Hm Hg].
  destruct (subs_step g1 (mkStacks (array (subs g1)) (mem_write a (f n) (heap (subs g1)))
    (hist (subs g1))) I1) as [HG HI].
  { apply sub_inv_heap; [done..|apply Hg]. }
  { split_and!; cbn; [done..|lia]. }
  split; [exact HG|split; [exact HI|]].
  apply (HQ g1 R1 I1 E1); [exact HI|apply Hg|exact P1|apply lookup_insert_eq].
Qed.

(** The compare-and-exchange of a descriptor. *)
Lemma wp_cae_desc i d new push v (Q : bool -> shared W (stacks D N) -> tls V -> Prop) g l :
  0 <= i < w -> thread_id l = t ->
  (forall g', p_rely P t g g' -> p_inv P g' -> p_ok P g' -> lookup_desc i g' = Some d ->
     cae_allowed t i d new push v (subs g')) ->
  (forall g', p_rely P t g g' -> p_inv P g' -> lookup_desc i g' = Some d ->
     let g2 := set_subs (after_cae t i new push v (subs g')) g' in p_inv P g2 -> Q true g2 l) ->
  (forall g', p_rely P t g g' -> p_inv P g' -> lookup_desc i g' <> Some d -> Q false g' l) ->
  wp P t (cae_desc i d new push) Q g l.
Proof.
  intros Hi Ht Hal Hok Hno g1 R1 I1 O1. pose proof (inv_stacks g1 I1) as Hs.
  destruct (sub_lookup w (subs g1) i Hs Hi) as [cur E].
  assert (E' : lookup_desc i g1 = Some cur) by exact E. rewrite E'. cbn [mbind option_bind].
  destruct (decide (cur = d)) as [->|Hne].
  - specialize (Hal g1 R1 I1 O1 E').
    assert (Ev : (if push then Push i (from_option n_val 0 (nodes (heap (subs g1)) !! d_node new))
                  else Pop i (from_option n_val 0 (nodes (heap (subs g1)) !! d_node d))) =
                 (if push then Push i v else Pop i v)).
    { unfold cae_allowed in Hal. destruct push.
      - destruct Hal as ((n & _ & -> & Hv & _ & _) & _). cbn. by rewrite Hv.
      - destruct Hal as (_ & (n & -> & Hv & _) & _). cbn. by rewrite Hv. }
    cbv zeta. rewrite Ev, Ht. fold (after_cae t i new push v (subs g1)).
    destruct (cae_step w limit t i d new push v (subs g1) Hs Hi E Hal) as [Hs2 Hg2].
    destruct (subs_step g1 _ I1 Hs2 Hg2) as [HG HI].
    split; [exact HG|split; [exact HI|]]. by apply Hok.
  - split; [apply (guar_refl (P := P))|split; [done|]]. apply Hno; [done..|]. congruence.
Qed.

(** ** [stacks_size], for a thread alone *)

Definition stacks_total (h : list (nat * event)) (n : Z) : Z :=
  sum_upto (fun i => Z.of_nat (length (contents i h))) n.

Context (still : forall g g', p_rely P t g g' -> g' = g).

Lemma chain_loop_wp g l vs (Q : Z -> shared W (stacks D N) -> tls V -> Prop) p size :
  p_inv P g -> chain (heap (subs g)) p vs -> 0 <= size ->
  size + Z.of_nat (length vs) < 2 ^ 64 ->
  Q (size + Z.of_nat (length vs)) g l ->
  wp P t (while (fun '(n, size) =>
        if negb (n =? 0) then
          let* nxt := load_node n_next n in
          continue (nxt, u64 (size + 1))
        else break size) (p, size)) Q g l.
Proof.
  intros HI Hc Hs Hlim HQ.
  apply (wp_while P t _ _ _ _ (fun n '(p, sz) g1 l1 => g1 = g /\ l1 = l /\
    exists ws, chain (heap (subs g)) p ws /\ n = length ws /\ size <= sz /\
      sz + Z.of_nat (length ws) = size + Z.of_nat (length vs)) (length vs)).
  - split; [done|split; [done|]]. exists vs. split_and!; try done; lia.
  - intros n [q sz] g1 l1 (-> & -> & ws & Hcw & -> & Hle & Heq).
    destruct (Z.eqb_spec q 0) as [->|Hq]; cbn [negb].
    + destruct ws as [|x ws]; [|by destruct Hcw]. wp_locals. cbn in Heq.
      by replace sz with (size + Z.of_nat (length vs)) by lia.
    + destruct ws as [|x ws]; [by cbn in Hcw|]. destruct Hcw as (_ & Px & nd & E & _ & _ & Hcw).
      wp_local. eapply wp_load_node; [done|exact E|]. intros g2 R2 _ _ _.
      rewrite (still g g2 R2). wp_locals.
      cbn [length] in *. exists (length ws). split; [lia|]. split; [done|split; [done|]].
      exists ws. rewrite wrap_small by lia. split_and!; try done; lia.
Qed.

Lemma stacks_size_wp (Q : Z -> shared W (stacks D N) -> tls V -> Prop) g l :
  0 < w < 2 ^ 63 -> p_inv P g -> stacks_total (hist (subs g)) w < 2 ^ 64 ->
  Q (stacks_total (hist (subs g)) w) g l -> wp P t (stacks_size w) Q g l.
Proof.
  intros Hw HI Hlim HQ. unfold stacks_total in *.
  set (f i := Z.of_nat (length (contents i (hist (subs g))))) in *.
  assert (Hf : forall j, 0 <= j < w -> 0 <= f j) by (intros j _; unfold f; lia).
  eapply (wp_while P t _ _ _ _ (fun n '(i, size) g1 l1 => g1 = g /\ l1 = l /\
    0 <= i <= w /\ size = sum_upto f i /\ n = Z.to_nat (w - i))).
  - split_and!; try done; lia.
  - intros n [i size] g1 l1 (-> & -> & Hi & -> & ->).
    destruct (Z.ltb_spec i w) as [Hlt|Hge].
    + wp_local. apply wp_desc_field; [lia|]. intros g2 d R2 _ _ E. rewrite (still g g2 R2) in *.
      destruct (sub_inv w (subs g) i d (inv_stacks g HI) (proj1 Hi) E) as [Hc _]. wp_local.
      pose proof (sum_upto_succ f i ltac:(lia)) as Esucc.
      pose proof (sum_upto_mono f (i + 1) w ltac:(lia) Hf) as Hmono.
      pose proof (sum_upto_nonneg f i ltac:(lia) ltac:(intros; apply Hf; lia)).
      eapply chain_loop_wp; [done|exact Hc|lia|fold (f i); lia|]. fold (f i). wp_locals.
      rewrite wrap_small by lia. eexists. split; [|split_and!; try done]; lia.
    + wp_locals. by replace i with w in * by lia.
Qed.
End rules.

(** There are at most as many elements as operations. *)
Lemma stacks_total_bound (h : list (nat * event)) w :
  0 <= w -> 0 <= stacks_total h w <= Z.of_nat (length h).
Proof.
  intros Hw. split; [apply sum_upto_nonneg; [done|intros; lia]|].
  unfold stacks_total. induction h as [|[t e] h IH].
  - cbn. rewrite (sum_upto_ext _ (fun _ => 0)), sum_upto_const by (done || lia). lia.
  - set (f i := Z.of_nat (length (contents i h))) in *.
    assert (Hle : forall i, Z.of_nat (length (contents i ((t, e) :: h)))
      <= f i + (if i =? event_index e then 1 else 0)).
    { intros i. unfold f. destruct e as [j v|j v]; cbn [contents event_index];
        destruct (decide (j = i)) as [->|Hne]; rewrite ?Z.eqb_refl;
        try (destruct (contents i h); cbn [tail length]; lia); destruct (i =? j); lia. }
    pose proof (sum_upto_le _ _ w (fun i _ => Hle i)) as Hs. cbn beta in Hs.
    rewrite sum_upto_add in Hs by lia. cbn [length].
    assert (sum_upto (fun i => if i =? event_index e then 1 else 0) w <= 1); [|lia].
    destruct (decide (0 <= event_index e < w)); [rewrite sum_upto_single by done; lia|].
    rewrite (sum_upto_ext _ (fun _ => 0)), sum_upto_const; [lia|done|].
    intros i Hi. destruct (Z.eqb_spec i (event_index e)); [lia|done].
Qed.

(** ** What a stack promises *)

(** A client's call. *)
Inductive op := DoPush (k v : Z) | DoPop.

(** [explains w done evs]: the results of the operations [done] are exactly
    what the events [evs] (newest first), on [w] sub-stacks, account for. *)
Inductive explains (w : Z) : list (op * Z) -> list event -> Prop :=
| explains_nil : explains w [] []
| explains_push done evs k v i :
    explains w done evs -> 0 <= i < w ->
    explains w (done ++ [(DoPush k v, 1)]) (Push i v :: evs)
| explains_pop done evs v i :
    explains w done evs -> 0 <= i < w ->
    explains w (done ++ [(DoPop, v)]) (Pop i v :: evs)
| explains_empty done evs :
    explains w done evs -> explains w (done ++ [(DoPop, 0)]) evs.

(** The state of the sub-stacks in terms of the history: each is what
    replaying its pushes and pops leaves there, every pop took the top, and
    the values left and those popped are the values pushed. *)
Definition replayed {D N} `{Desc D} {nops : NodeOps N} (w : Z) (s : stacks D N) : Prop :=
  legal (hist s) /\
  forall i, 0 <= i < w -> exists d, array s !! Z.to_nat i = Some d /\
    chain (heap s) (d_node d) (contents i (hist s)) /\
    d_ok d (Z.of_nat (length (contents i (hist s)))) /\
    Permutation (pushed i (hist s)) (contents i (hist s) ++ popped i (hist s)).

Lemma stacks_replayed {D N} `{Desc D} {nops : NodeOps N} w (s : stacks D N) :
  stacks_inv w s -> replayed w s.
Proof.
  intros Hs. pose proof Hs as (_ & _ & Hl & _). split; [done|]. intros i Hi.
  destruct (sub_lookup w s i Hs Hi) as [d E]. exists d.
  destruct (sub_inv w s i d Hs (proj1 Hi) E) as [Hc Hok].
  split; [done|split; [done|split; [done|by apply contents_permutation]]].
Qed.
