(* ===== verification/Window2Dc.v ===== *)
(** include/2Dc-window.c and .h: the single window of the 2Dc structures, which
    moves up when all sub-structures are full for it and down when all are
    empty for it, and the hop loops that search it.  The sub-structures are a
    parameter, as are the widths of the integer types, which the optimized
    variant of the file changes (Stack2DcOpt.v). *)
From S2P Require Import Prelude Conc Random Thread Shared.

(** ** State *)

(** The fields of [DS_TYPE] ([counter_t], [mstack_t]). *)
Record ds_t := mkDs {
  random_hops : Z;
  width : Z;
  depth : Z;
  shift : Z;
  relaxation_bound : Z;
  k_mode : Z;
}.

(** [window_t]. *)
Record window_t := mkWindow { max : Z; version : Z }.

#[export] Instance window_eq_dec : EqDecision window_t.
Proof. solve_decision. Defined.

(** The integer types of the local variables [hops] and [random] of a window
    function.  [hop] reads them through pointers to its own parameter types;
    [above random hops] is what the bytes that follow [random] in memory
    contribute to the value [hop] reads: 0 when the types agree. *)
Record hop_types := mkHopTypes {
  hops_bits : Z;
  random_bits : Z;
  above : Z -> Z -> Z;
}.

(** The integer types of the window. *)
Record types := mkTypes {
  row_bits : Z;
  version_bits : Z;
  put_types : hop_types;
  get_types : hop_types;
}.

(** 2Dc-window.c: everything is [uint64_t] but the [uint16_t hops, random] of
    [get_window], which are passed to a [hop] that expects [uint64_t]s. *)
Definition types_2Dc (above : Z -> Z -> Z) : types :=
  mkTypes 64 64 (mkHopTypes 64 64 (fun _ _ => 0)) (mkHopTypes 16 16 above).

(** What the window code uses of the sub-structures: the copy
    [descriptor = set->set_array[i].descriptor], field by field, and the field
    [count] of it. *)
Class SubOps (SS D : Type) := {
  read_descriptor : Z -> M window_t SS D;
  d_count : D -> Z;
}.

(** ** The window code *)

Section code.
Context {SS D : Type} {ops : SubOps SS D} (T : types).
Notation M := (M window_t SS).

(** The random hop is taken if the value read through the pointer is small. *)
Definition hop_random (H : hop_types) (set : ds_t) (random hops : Z) : bool :=
  random + 2 ^ random_bits H * above H random hops <? random_hops set.

(** [hop]: returns the new index and the updated [random] and [hops]. *)
Definition hop (H : hop_types) (set : ds_t) (index random hops : Z) : M (Z * Z * Z) :=
  put (count_stat inc_hop) ;;;
  if hop_random H set random hops then
    let* index := random_index 16 (width set) in
    Ret (index, wrap (random_bits H) (random + 1), hops)
  else
    let hops := wrap (hops_bits H) (hops + 1) in
    let index := u64 (index + 1) in
    let index := if width set <=? index then 0 else index in
    Ret (index, random, hops).

(** [read_window]: an atomic load of the whole window. *)
Definition read_window : M unit :=
  let* w := load_var window in put (set_thread_Window w).

(** [CAE(&global_Window.content, &thread_Window, &new_window)]. *)
Definition cae_window (new_window : window_t) : M bool :=
  Act (fun g l =>
    if decide (window g = thread_Window l)
    then Some (true, set_window new_window g, l)
    else Some (false, g, set_thread_Window (window g) l)) Ret.

(** [if(thread_Window.version == global_Window.content.version && guard)] and
    the compare-and-exchange under it. *)
Definition shift_window (guard : bool) (new_window : window_t) : M unit :=
  let* tversion := get (fun l => version (thread_Window l)) in
  let* gversion := load_var (fun g => version (window g)) in
  if (tversion =? gversion) && guard then
    let* ok := cae_window new_window in
    if ok then
      put (set_thread_Window new_window) ;;;
      put (count_stat inc_slide)
    else
      read_window ;;;
      put (count_stat inc_slide_fail)
  else Ret tt.

(** What both functions do before their loops. *)
Definition enter_window (set : ds_t) (contention : bool) : M unit :=
  (let* tversion := get (fun l => version (thread_Window l)) in
   let* gversion := load_var (fun g => version (window g)) in
   if negb (tversion =? gversion) then read_window else Ret tt) ;;;
  if contention then
    let* r := random_index 16 (width set) in put (set_thread_index r)
  else Ret tt.

(** One iteration of the [while(1)] of [put_window]. *)
Definition put_window_body (set : ds_t) '((hops, random) : Z * Z) : M (Z * Z + D) :=
  let* index := get thread_index in
  let* descriptor := read_descriptor index in
  let* gversion := load_var (fun g => version (window g)) in
  let* tw := get thread_Window in
  if negb (gversion =? version tw) then
    read_window ;;;
    continue (0, random)
  else if d_count descriptor <? max tw then
    break descriptor
  else if negb (hops =? width set) then
    let* (index, random, hops) := hop (put_types T) set index random hops in
    put (set_thread_index index) ;;;
    continue (hops, random)
  else
    shift_window true
      (mkWindow (wrap (row_bits T) (max tw + shift set))
                (wrap (version_bits T) (version tw + 1))) ;;;
    continue (0, random).

Definition put_window (set : ds_t) (contention : bool) : M D :=
  enter_window set contention ;;;
  while (put_window_body set) (0, 0).

(** One iteration of the [while(1)] of [get_window]. *)
Definition get_window_body (set : ds_t) '((hops, random, empty) : Z * Z * bool)
    : M (Z * Z * bool + D) :=
  let* index := get thread_index in
  let* descriptor := read_descriptor index in
  let* gversion := load_var (fun g => version (window g)) in
  let* tw := get thread_Window in
  if negb (gversion =? version tw) then
    read_window ;;;
    continue (0, random, true)
  else if max tw <? u64 (d_count descriptor + depth set) then
    break descriptor
  else if negb (hops =? width set) then
    let empty := if 0 <? d_count descriptor then false else empty in
    let* (index, random, hops) := hop (get_types T) set index random hops in
    put (set_thread_index index) ;;;
    continue (hops, random, empty)
  else if (empty : bool) then
    break descriptor
  else
    let new_window := mkWindow (wrap (row_bits T) (max tw - shift set))
                               (wrap (version_bits T) (version tw + 1)) in
    shift_window (depth set <=? max new_window) new_window ;;;
    continue (0, random, true).

Definition get_window (set : ds_t) (contention : bool) : M D :=
  enter_window set contention ;;;
  while (get_window_body set) (0, 0, true).

(** [initialize_global_window(uint16_t depth)]. *)
Definition initialize_global_window (depth : Z) : window_t := mkWindow (u16 depth) 1.
End code.

(** ** Well-formedness *)

Definition ds_ok (set : ds_t) : Prop :=
  0 < width set < 2 ^ 16 /\ 1 <= shift set <= depth set /\ depth set < 2 ^ 31 /\
  0 <= random_hops set < 2 ^ 8.

Definition hop_types_ok (H : hop_types) : Prop :=
  16 <= hops_bits H /\ 8 <= random_bits H /\ forall r h, 0 <= above H r h.

Class TypesOk (T : types) : Prop := {
  row_bits_ok : 32 <= row_bits T <= 64;
  version_bits_ok : 0 < version_bits T;
  put_types_ok : hop_types_ok (put_types T);
  get_types_ok : hop_types_ok (get_types T);
}.

Lemma types_2Dc_ok above : (forall r h, 0 <= above r h) -> TypesOk (types_2Dc above).
Proof. intros H. by split; cbn; try lia; split_and!. Qed.

(** Once a linear hop was taken no random one follows. *)
Definition hops_last (H : hop_types) (set : ds_t) : Prop :=
  forall r h, 0 <= r -> 0 <= h -> hop_random H set r h = false -> hop_random H set r (h + 1) = false.

(** The rows the window stops at: [depth], [depth + shift], ... *)
Definition row_ok (set : ds_t) (m : Z) : Prop := exists k, 0 <= k /\ m = depth set + k * shift set.

(** The protocol of the window. *)
Definition wprot (T : types) (set : ds_t) : protocol window_t :=
  {| p_inv w := row_ok set (max w) /\ max w < 2 ^ row_bits T;
     p_rely _ _ _ := True;
     p_guar _ w w' := max w' <= max w + shift set;
     p_ok w := max w + shift set < 2 ^ row_bits T;
     p_total := false |}.

(** A thread's copy of the window was read from it, or is still 0. *)
Definition copy_ok (T : types) (set : ds_t) (w : window_t) : Prop :=
  max w = 0 \/ (row_ok set (max w) /\ max w < 2 ^ row_bits T).

Definition local_ok (T : types) (set : ds_t) (t : nat) (l : tls window_t) : Prop :=
  index_ok (width set) t l /\ copy_ok T set (thread_Window l).

(** ** What the window relies on *)

(** [sprot2 set] is the protocol of the sub-structures, [cnt s i] the present
    count of sub-structure [i]; [snap] is what a thread knows of a descriptor
    it read a while ago, [exact] says that it is the present one. *)
Class SubProto (SS D : Type) := {
  sprot2 : ds_t -> protocol SS;
  cnt : SS -> Z -> Z;
  snap : Z -> D -> SS -> Prop;
  exact : Z -> D -> SS -> Prop;
}.

Notation prot2 T set := (joint (wprot T set) (sprot2 set)).
Notation still P t := (forall g g', p_rely P t g g' -> g' = g).

Class SubLaws (SS D : Type) `{ops : SubOps SS D} `{proto : SubProto SS D} : Prop := {
  sprot2_laws set :: ProtocolLaws (sprot2 set);
  snap_rely set t i d s s' : snap i d s -> p_rely (sprot2 set) t s s' -> snap i d s';
  cnt_nonneg set s i : p_inv (sprot2 set) s -> 0 <= i < width set -> 0 <= cnt s i;
  read_descriptor_wp T set P t (runs : Runs P (prot2 T set) t) i
      (Q : D -> shared window_t SS -> tls window_t -> Prop) g l :
    0 <= i < width set ->
    (forall d g', p_rely P t g g' -> p_inv P g' -> snap i d (subs g') ->
       (still P t -> exact i d (subs g) /\ d_count d = cnt (subs g) i) -> Q d g' l) ->
    wp P t (read_descriptor i) Q g l;
}.

#[export] Instance wprot_laws T set : ds_ok set -> ProtocolLaws (wprot T set).
Proof. intros (_ & Hs & _). split; cbn; try done. intros _ w. lia. Qed.
Existing Class ds_ok.

Section rules.
Context {SS D : Type} {ops : SubOps SS D} {proto : SubProto SS D} {laws : SubLaws SS D}.
Context (T : types) {Tok : TypesOk T} (set : ds_t) {Hset : ds_ok set}.
Context (P : protocol (shared window_t SS)) (t : nat) {runs : Runs P (prot2 T set) t}.
Implicit Types (g : shared window_t SS) (l : tls window_t).

Lemma inv_window g : p_inv P g -> row_ok set (max (window g)) /\ max (window g) < 2 ^ row_bits T.
Proof. intros HI. apply (runs_inv (B := prot2 T set) g HI). Qed.

Lemma inv_subs g : p_inv P g -> p_inv (sprot2 set) (subs g).
Proof. intros HI. apply (runs_inv (B := prot2 T set) g HI). Qed.

Lemma rely_snap g g' i d : p_rely P t g g' -> snap i d (subs g) -> snap i d (subs g').
Proof.
  intros R Hs. apply (runs_rely (B := prot2 T set)) in R as [_ R]. by eapply snap_rely.
Qed.

Lemma prely_trans g1 g2 g3 : p_rely P t g1 g2 -> p_rely P t g2 g3 -> p_rely P t g1 g3.
Proof. apply (rely_trans (P := P)). Qed.

(** [hop] takes a random step or the next one in order. *)
Lemma wp_hop2c (H : hop_types) index random hops
    (Q : Z * Z * Z -> shared window_t SS -> tls window_t -> Prop) g l :
  hop_types_ok H ->
  0 <= index < width set -> 0 <= hops < width set -> 0 <= random <= random_hops set ->
  (forall r s st, 0 <= r < width set -> random < random_hops set ->
     hop_random H set random hops = true -> Q (r, random + 1, hops) g (with_rng s st l)) ->
  (forall st, hop_random H set random hops = false ->
     Q (next_index (width set) index, random, hops + 1) g (with_rng (seeds l) st l)) ->
  wp P t (hop H set index random hops) Q g l.
Proof.
  intros (Hhb & Hrb & Hab) Hi Hh Hr HQr HQs. destruct Hset as (Hw & _ & _ & Hrh).
  assert (2 ^ 16 <= 2 ^ hops_bits H) by (apply Z.pow_le_mono_r; lia).
  assert (2 ^ 8 <= 2 ^ random_bits H) by (apply Z.pow_le_mono_r; lia).
  unfold hop. wp_locals. destruct (hop_random H set random hops) eqn:E.
  - assert (random < random_hops set).
    { unfold hop_random in E. apply Z.ltb_lt in E. pose proof (Hab random hops). nia. }
    wp_locals. apply wp_shared_random; [lia|]. intros r s Hrr. wp_locals.
    rewrite wrap_small by lia. by apply HQr.
  - wp_locals. rewrite (wrap_small (hops_bits H)), (wrap_small 64) by lia.
    change (if width set <=? index + 1 then 0 else index + 1)
      with (next_index (width set) index). by apply HQs.
Qed.

Lemma wp_read_window (Q : unit -> shared window_t SS -> tls window_t -> Prop) g l :
  (forall g', p_rely P t g g' -> p_inv P g' -> Q tt g' (set_thread_Window (window g') l)) ->
  wp P t read_window Q g l.
Proof.
  intros HQ. unfold read_window. wp_local. apply wp_load_var; [apply _|]. intros g1 R1 I1 _.
  wp_locals. by apply HQ.
Qed.

(** A change of the window only. *)
Lemma window_step w g :
  p_inv P g -> row_ok set (max w) -> max w < 2 ^ row_bits T -> max w <= max (window g) + shift set ->
  p_guar P t g (set_window w g) /\ p_inv P (set_window w g).
Proof.
  intros HI Hr Hb Hg. pose proof (inv_subs g HI) as Hs. split.
  - apply (runs_guar (B := prot2 T set)). split; [exact Hg|apply guar_refl].
  - apply (runs_inv_back (B := prot2 T set)). by split.
Qed.

(** The three ways an attempt to shift can end: it moves the window from the
    thread's copy to [w]; it fails and the thread gets the present window; or
    nothing happens. *)
Lemma wp_shift_window (guard : bool) w
    (Q : unit -> shared window_t SS -> tls window_t -> Prop) g l :
  (guard = true -> forall g1, p_rely P t g g1 -> p_inv P g1 -> p_ok P g1 ->
     window g1 = thread_Window l ->
     row_ok set (max w) /\ max w < 2 ^ row_bits T /\ max w <= max (window g1) + shift set) ->
  (forall g1 st, guard = true -> p_rely P t g g1 -> p_inv P g1 -> window g1 = thread_Window l ->
     p_inv P (set_window w g1) ->
     Q tt (set_window w g1) (with_rng (seeds l) st (set_thread_Window w l))) ->
  (forall g1 g2 st, guard = true -> p_rely P t g g1 -> window g1 <> thread_Window l ->
     p_rely P t g1 g2 -> p_inv P g2 ->
     Q tt g2 (with_rng (seeds l) st (set_thread_Window (window g2) l))) ->
  (forall g1, p_rely P t g g1 ->
     guard = false \/ version (window g1) <> version (thread_Window l) -> Q tt g1 l) ->
  wp P t (shift_window guard w) Q g l.
Proof.
  intros Hal Hok Hno Hskip. unfold shift_window. wp_locals.
  apply wp_load_var; [apply _|]. intros g1 R1 I1 _.
  destruct (Z.eqb_spec (version (thread_Window l)) (version (window g1))) as [Ev|Ev];
    [destruct guard; cbn [andb]|].
  - wp_local. intros g2 R2 I2 O2. assert (R12 := prely_trans g g1 g2 R1 R2).
    destruct (decide (window g2 = thread_Window l)) as [Ew|Ew].
    + destruct (Hal eq_refl g2 R12 I2 O2 Ew) as (H1 & H2 & H3).
      destruct (window_step w g2 I2 H1 H2 H3) as [HG HI].
      split; [exact HG|split; [exact HI|]]. wp_locals.
      exact (Hok g2 (inc_slide (stats l)) eq_refl R12 I2 Ew HI).
    + split; [apply (guar_refl (P := P))|split; [done|]]. wp_locals.
      apply wp_read_window. intros g3 R3 I3. wp_locals.
      exact (Hno g2 g3 (inc_slide_fail (stats l)) eq_refl R12 Ew R3 I3).
  - wp_locals. apply Hskip; [done|by left].
  - cbn [andb]. wp_locals. apply Hskip; [done|by right].
Qed.

Lemma wp_enter_window c (Q : unit -> shared window_t SS -> tls window_t -> Prop) g l :
  index_ok (width set) t l ->
  (forall g' l', index_ok (width set) t l' -> p_rely P t g g' -> p_inv P g' ->
     (thread_Window l' = window g' \/ thread_Window l' = thread_Window l /\
        exists g1, p_rely P t g g1 /\ version (window g1) = version (thread_Window l)) ->
     Q tt g' l') ->
  wp P t (enter_window set c) Q g l.
Proof.
  intros Hl HQ. pose proof Hset as (Hw & _). unfold enter_window. wp_locals.
  apply wp_load_var; [apply _|]. intros g1 R1 I1 _.
  assert (Htail : forall g' l', index_ok (width set) t l' -> p_rely P t g g' -> p_inv P g' ->
    (thread_Window l' = window g' \/ thread_Window l' = thread_Window l /\
        exists g1, p_rely P t g g1 /\ version (window g1) = version (thread_Window l)) ->
    wp P t (if c then let* r := random_index 16 (width set) in put (set_thread_index r)
            else Ret tt) Q g' l').
  { intros g' l' [Ht' Hi'] R' I' Hwin. destruct c; wp_locals; [|by apply HQ].
    apply wp_shared_random; [lia|]. intros r s Hr. wp_locals. by apply HQ. }
  destruct (Z.eqb_spec (version (thread_Window l)) (version (window g1))) as [E|E]; cbn [negb].
  - wp_locals. apply Htail; [done..|]. right. split; [done|]. by exists g1.
  - apply wp_read_window. intros g2 R2 I2. apply Htail; [done| |done|by left].
    by apply (prely_trans g g1).
Qed.
End rules.

(** ** The loops

    One iteration of each loop, with the four things it can do. *)

(** A hop from [index]: the new index and the updated variables. *)
Definition hopped (H : hop_types) (set : ds_t) (index random hops : Z) (index' random' hops' : Z) : Prop :=
  (hop_random H set random hops = true /\ 0 <= index' < width set /\
   0 <= random < random_hops set /\ random' = random + 1 /\ hops' = hops) \/
  (hop_random H set random hops = false /\ index' = next_index (width set) index /\
   random' = random /\ hops' = hops + 1).

(** The new windows of a shift up and of a shift down. *)
Definition window_up (T : types) (set : ds_t) (w : window_t) : window_t :=
  mkWindow (wrap (row_bits T) (max w + shift set)) (wrap (version_bits T) (version w + 1)).
Definition window_down (T : types) (set : ds_t) (w : window_t) : window_t :=
  mkWindow (wrap (row_bits T) (max w - shift set)) (wrap (version_bits T) (version w + 1)).

Section bodies.
Context {SS D : Type} {ops : SubOps SS D} {proto : SubProto SS D} {laws : SubLaws SS D}.
Context (T : types) {Tok : TypesOk T} (set : ds_t) {Hset : ds_ok set}.
Context (P : protocol (shared window_t SS)) (t : nat) {runs : Runs P (prot2 T set) t}.
Implicit Types (g : shared window_t SS) (l : tls window_t).

(** The start of both bodies: the descriptor read, and the window in sync. *)
Lemma wp_read_synced {C R} (body : D -> window_t -> M window_t SS (C + R)) (c : C)
    (Q : C + R -> shared window_t SS -> tls window_t -> Prop) g l :
  index_ok (width set) t l ->
  (forall g1 g', p_rely P t g g1 -> version (window g1) <> version (thread_Window l) ->
     p_rely P t g g' -> p_inv P g' -> Q (inl c) g' (set_thread_Window (window g') l)) ->
  (forall d g', p_rely P t g g' -> p_inv P g' -> snap (thread_index l) d (subs g') ->
     (still P t -> exact (thread_index l) d (subs g) /\
        d_count d = cnt (subs g) (thread_index l)) ->
     version (window g') = version (thread_Window l) -> wp P t (body d (thread_Window l)) Q g' l) ->
  wp P t (let* descriptor := read_descriptor (thread_index l) in
          let* gversion := load_var (fun g => version (window g)) in
          let* tw := get thread_Window in
          if negb (gversion =? version tw) then read_window ;;; continue c
          else body descriptor tw) Q g l.
Proof.
  intros Hl Hsync Hbody. wp_local. apply (read_descriptor_wp T set P t runs); [apply Hl|].
  intros d g1 R1 I1 Hs He. wp_local. apply wp_load_var; [apply _|]. intros g2 R2 I2 _.
  assert (R12 := prely_trans T set P t g g1 g2 R1 R2). wp_local. wp_local.
  destruct (Z.eqb_spec (version (window g2)) (version (thread_Window l))) as [E|E]; cbn [negb].
  - apply (Hbody d); [done..| |done|done]. by apply (rely_snap T set P t g1).
  - wp_local. apply (wp_read_window T set P t). intros g3 R3 I3. wp_locals.
    apply (Hsync g2 g3 R12 E); [|done]. by apply (prely_trans T set P t g g2).
Qed.

Lemma put_body_wp hops random
    (Q : Z * Z + D -> shared window_t SS -> tls window_t -> Prop) g l :
  index_ok (width set) t l -> 0 <= hops <= width set -> 0 <= random <= random_hops set ->
  (forall g1 g', p_rely P t g g1 -> version (window g1) <> version (thread_Window l) ->
     p_rely P t g g' -> p_inv P g' ->
     Q (inl (0, random)) g' (set_thread_Window (window g') l)) ->
  (forall d g', p_rely P t g g' -> p_inv P g' -> snap (thread_index l) d (subs g') ->
     (still P t -> exact (thread_index l) d (subs g) /\
        d_count d = cnt (subs g) (thread_index l)) ->
     version (window g') = version (thread_Window l) ->
     if d_count d <? max (thread_Window l) then Q (inr d) g' l
     else if negb (hops =? width set) then
       forall index' random' hops' s st,
         hopped (put_types T) set (thread_index l) random hops index' random' hops' ->
         Q (inl (hops', random')) g' (set_thread_index index' (with_rng s st l))
     else wp P t (shift_window true (window_up T set (thread_Window l)))
            (fun _ g l => Q (inl (0, random)) g l) g' l) ->
  wp P t (put_window_body T set (hops, random)) Q g l.
Proof.
  intros Hl Hh Hr Hsync Hcase. unfold put_window_body. wp_local. wp_local.
  apply (wp_read_synced (fun descriptor tw => _)); [done|done|]. intros d g1 R1 I1 Hs He Hv.
  specialize (Hcase d g1 R1 I1 Hs He Hv).
  destruct (d_count d <? max (thread_Window l)); [by wp_locals|].
  destruct (Z.eqb_spec hops (width set)) as [Ew|Ew]; cbn [negb] in *.
  - wp_local. eapply wp_mono; [|exact Hcase]. intros [] g2 l2 HQ. by wp_locals.
  - wp_local. eapply (wp_hop2c set P t); [apply Tok|apply Hl|lia|lia|..].
    + intros r s st Hrr Hlt E. wp_locals. apply Hcase. left. split_and!; (done || lia).
    + intros st E. wp_locals. apply (Hcase _ _ _ (seeds l) st). by right.
Qed.
End bodies.

(** ** Among other threads *)

Section concurrent.
Context {SS D : Type} {ops : SubOps SS D} {proto : SubProto SS D} {laws : SubLaws SS D}.
Context (T : types) {Tok : TypesOk T} (set : ds_t) {Hset : ds_ok set} (t : nat).
Notation B := (prot2 T set).
Implicit Types (g : shared window_t SS) (l : tls window_t).

(** What a caller knows of the descriptor it gets. *)
Definition window_post (g0 : shared window_t SS) (d : D) g l : Prop :=
  local_ok T set t l /\ p_rely B t g0 g /\ p_inv B g /\ snap (thread_index l) d (subs g).

Lemma rely_set_window g g1 w : p_rely B t g g1 -> p_rely B t g (set_window w g1).
Proof. intros [_ Hs]. split; [exact I|exact Hs]. Qed.

Lemma copy_window g : p_inv B g -> copy_ok T set (window g).
Proof. intros [Hw _]. right. exact Hw. Qed.

Lemma row_ok_up m : row_ok set m -> row_ok set (m + shift set).
Proof. intros (k & Hk & ->). exists (k + 1). lia. Qed.

Lemma row_ok_range m : row_ok set m -> depth set <= m.
Proof. intros (k & Hk & ->). destruct Hset as (_ & ? & _). nia. Qed.

(** A row from which one can go down without passing [depth] is not the
    lowest. *)
Lemma row_ok_down m : row_ok set m -> depth set < m -> depth set <= m - shift set /\ row_ok set (m - shift set).
Proof.
  intros (k & Hk & ->) Hlt. destruct Hset as (_ & ? & _). assert (1 <= k) by nia.
  split; [nia|]. exists (k - 1). split; [lia|]. lia.
Qed.

Lemma row_ok_down_guard m : row_ok set m -> depth set <= m - shift set -> row_ok set (m - shift set).
Proof. intros Hr Hge. apply row_ok_down; [done|]. destruct Hset as (_ & ? & _). lia. Qed.

Lemma hopped_index H index random hops index' random' hops' :
  0 <= index < width set -> hopped H set index random hops index' random' hops' ->
  0 <= index' < width set.
Proof.
  intros Hi [(_ & ? & _)|(_ & -> & _)]; [done|]. apply next_index_range; [|done].
  destruct Hset as (? & _). lia.
Qed.

Lemma hopped_range H index random hops index' random' hops' :
  0 <= hops < width set -> 0 <= random <= random_hops set ->
  hopped H set index random hops index' random' hops' ->
  0 <= hops' <= width set /\ 0 <= random' <= random_hops set.
Proof. intros Hh Hr [(_ & _ & ? & -> & ->)|(_ & _ & -> & ->)]; lia. Qed.

(** The loop invariant of both functions. *)
Definition hop_loop (g0 : shared window_t SS) (hops random : Z) g l : Prop :=
  local_ok T set t l /\ p_rely B t g0 g /\
  0 <= hops <= width set /\ 0 <= random <= random_hops set.

Lemma wp_enter_local c (Q : unit -> shared window_t SS -> tls window_t -> Prop) g l :
  local_ok T set t l ->
  (forall g' l', local_ok T set t l' -> p_rely B t g g' -> Q tt g' l') ->
  wp B t (enter_window set c) Q g l.
Proof.
  intros [Hi Hc] HQ. apply (wp_enter_window T set B t); [done|].
  intros g' l' Hi' R' I' Hw. apply HQ; [|done]. split; [done|].
  destruct Hw as [->|[-> _]]; [by apply copy_window|done].
Qed.

Lemma hop_loop_start g0 g l :
  local_ok T set t l -> p_rely B t g0 g -> hop_loop g0 0 0 g l.
Proof. intros Hl R. destruct Hset as (? & _ & _ & ?). split_and!; (done || lia). Qed.

Lemma hop_loop_sync g0 hops random g g' l :
  hop_loop g0 hops random g l -> p_rely B t g g' -> p_inv B g' ->
  hop_loop g0 0 random g' (set_thread_Window (window g') l).
Proof.
  intros ([Hi _] & R0 & ? & ?) R I'. split_and!; try lia.
  - split; [done|]. cbn. by apply copy_window.
  - by apply (prely_trans T set B t g0 g g').
Qed.

Lemma hop_loop_hop H g0 hops random g g' l index' random' hops' s st :
  hop_loop g0 hops random g l -> hops <> width set -> p_rely B t g g' ->
  hopped H set (thread_index l) random hops index' random' hops' ->
  hop_loop g0 hops' random' g' (set_thread_index index' (with_rng s st l)).
Proof.
  intros ([[Ht Hi] Hc] & R0 & Hh & Hr) Hne R Hhop.
  destruct (hopped_range H _ random hops _ random' hops' ltac:(lia) Hr Hhop).
  split; [|split_and!; try lia; by apply (prely_trans T set B t g0 g g')].
  split; [|done]. split; [done|]. by eapply hopped_index.
Qed.

(** An attempt to shift ends with a good copy of the window. *)
Lemma wp_shift_local g0 (guard : bool) w g l
    (Q : unit -> shared window_t SS -> tls window_t -> Prop) random hops :
  hop_loop g0 hops random g l ->
  (guard = true -> forall g1, p_inv B g1 -> p_ok B g1 -> window g1 = thread_Window l ->
     row_ok set (max w) /\ max w < 2 ^ row_bits T /\ max w <= max (window g1) + shift set) ->
  (forall g' l', hop_loop g0 0 random g' l' -> Q tt g' l') ->
  wp B t (shift_window guard w) Q g l.
Proof.
  intros (Hl & R0 & Hh & Hr) Hal HQ. destruct Hl as [Hi Hc].
  assert (Hst : forall g' l', index_ok (width set) t l' -> copy_ok T set (thread_Window l') ->
    p_rely B t g g' -> hop_loop g0 0 random g' l').
  { intros g' l' Hi' Hc' R'. split_and!; try done; try lia.
    by apply (prely_trans T set B t g0 g g'). }
  apply (wp_shift_window T set B t).
  - intros Hg g1 _ I1 O1 E. by apply (Hal Hg g1).
  - intros g1 st Hg R1 I1 E I2. apply HQ, Hst; [done| |by apply rely_set_window].
    apply (copy_window (set_window w g1)), I2.
  - intros g1 g2 st _ R1 _ R2 I2. apply HQ, Hst; [done|by apply (copy_window g2)|].
    by apply (prely_trans T set B t g g1 g2).
  - intros g1 R1 _. by apply HQ, Hst.
Qed.

Lemma put_window2_wp c (Q : D -> shared window_t SS -> tls window_t -> Prop) g l :
  local_ok T set t l ->
  (forall d g' l', window_post g d g' l' -> Q d g' l') ->
  wp B t (put_window T set c) Q g l.
Proof.
  intros Hl HQ. unfold put_window. wp_local. apply wp_enter_local; [done|].
  intros g1 l1 Hl1 R1.
  apply (wp_while B t _ _ _ _ (fun _ '(hops, random) => hop_loop g hops random) 0%nat).
  - by apply hop_loop_start.
  - intros n [hops random] g2 l2 HJ. pose proof HJ as (Hl2 & R2 & Hh & Hr).
    apply (put_body_wp T set B t hops random); [apply Hl2|done|done|..].
    + intros _ g' _ _ R' I'. exists 0%nat. split; [done|]. by eapply hop_loop_sync.
    + intros d g' R' I' Hs _ Hv. destruct (d_count d <? max (thread_Window l2)); [|
        destruct (Z.eqb_spec hops (width set)); cbn [negb]].
      * apply wp_ret, HQ. split; [done|]. split; [|done]. by apply (prely_trans T set B t g g2 g').
      * apply (wp_shift_local g true _ g' l2 _ random hops).
        -- split; [done|]. split; [by apply (prely_trans T set B t g g2 g')|done].
        -- intros _ g3 I3 [O3 _] E. cbn in O3. pose proof (inv_window T set B t g3 I3) as [Hrow _].
           rewrite <- E. pose proof (row_ok_range _ Hrow). destruct Hset as (_ & ? & _).
           cbn. rewrite wrap_small by lia. split; [by apply row_ok_up|lia].
        -- intros g3 l3 HJ3. by exists 0%nat.
      * intros index' random' hops' s st Hhop. exists 0%nat. split; [done|].
        by eapply hop_loop_hop.
Qed.
End concurrent.

(** ** [get_window] *)

(** How the two variants of [get_window] differ: when a descriptor is inside
    the window, and whether the lower end of the window is guarded by the
    condition of the shift or asserted. *)
Record get_variant := mkVariant {
  in_window : ds_t -> window_t -> Z -> bool;
  guarded : bool;
}.

Definition get_guard (T : types) (V : get_variant) (set : ds_t) (w : window_t) : bool :=
  if guarded V then depth set <=? max (window_down T set w) else true.

(** 2Dc-window.c. *)
Definition variant_2Dc : get_variant :=
  mkVariant (fun set tw count => max tw <? u64 (count + depth set)) true.

(** One iteration of the loop of [get_window]: the rule that either variant's
    loop body satisfies. *)
Definition get_body_ok {SS D} {ops : SubOps SS D} {proto : SubProto SS D} (T : types)
    (V : get_variant) (set : ds_t)
    (body : Z * Z * bool -> M window_t SS (Z * Z * bool + D)) : Prop :=
  forall P t (runs : Runs P (prot2 T set) t) hops random empty
    (Q : Z * Z * bool + D -> shared window_t SS -> tls window_t -> Prop) g l,
  index_ok (width set) t l -> 0 <= hops <= width set -> 0 <= random <= random_hops set ->
  (forall g1 g', p_rely P t g g1 -> version (window g1) <> version (thread_Window l) ->
     p_rely P t g g' -> p_inv P g' ->
     Q (inl (0, random, true)) g' (set_thread_Window (window g') l)) ->
  (forall d g', p_rely P t g g' -> p_inv P g' -> snap (thread_index l) d (subs g') ->
     (still P t -> exact (thread_index l) d (subs g) /\
        d_count d = cnt (subs g) (thread_index l)) ->
     version (window g') = version (thread_Window l) ->
     if in_window V set (thread_Window l) (d_count d) then Q (inr d) g' l
     else if negb (hops =? width set) then
       forall index' random' hops' s st,
         hopped (get_types T) set (thread_index l) random hops index' random' hops' ->
         Q (inl (hops', random', if 0 <? d_count d then false else empty)) g'
           (set_thread_index index' (with_rng s st l))
     else if (empty : bool) then Q (inr d) g' l
     else
       (guarded V = false -> depth set <= max (window_down T set (thread_Window l))) /\
       wp P t (shift_window (get_guard T V set (thread_Window l))
                 (window_down T set (thread_Window l)))
         (fun _ g l => Q (inl (0, random, true)) g l) g' l) ->
  wp P t (body (hops, random, empty)) Q g l.

Lemma get_window_body_ok {SS D} {ops : SubOps SS D} {proto : SubProto SS D}
    {laws : SubLaws SS D} T {Tok : TypesOk T} set {Hset : ds_ok set} :
  get_body_ok T variant_2Dc set (get_window_body (SS := SS) (D := D) T set).
Proof.
  intros P t runs hops random empty Q g l Hl Hh Hr Hsync Hcase.
  unfold get_window_body. wp_local. wp_local.
  apply (wp_read_synced T set P t (fun descriptor tw => _)); [done|done|].
  intros d g1 R1 I1 Hs He Hv. specialize (Hcase d g1 R1 I1 Hs He Hv).
  cbn [in_window guarded variant_2Dc] in Hcase.
  destruct (max (thread_Window l) <? u64 (d_count d + depth set)); [by wp_locals|].
  destruct (Z.eqb_spec hops (width set)) as [Ew|Ew]; cbn [negb] in *; [destruct empty|].
  - by wp_locals.
  - destruct Hcase as [_ Hcase]. wp_local. eapply wp_mono; [|exact Hcase].
    intros [] g2 l2 HQ. by wp_locals.
  - wp_local. eapply (wp_hop2c set P t); [apply Tok|apply Hl|lia|lia|..].
    + intros r s st Hrr Hlt E. wp_locals. apply Hcase. left. split_and!; (done || lia).
    + intros st E. wp_locals. apply (Hcase _ _ _ (seeds l) st). by right.
Qed.

(** Among other threads: a variant that asserts must only ever try to go down
    from above the lowest row. *)
Definition assert_ok (T : types) (V : get_variant) (set : ds_t) : Prop :=
  guarded V = true \/ forall tw c, copy_ok T set tw -> 0 < c -> in_window V set tw c = false ->
    depth set <= max (window_down T set tw).

Section get_concurrent.
Context {SS D : Type} {ops : SubOps SS D} {proto : SubProto SS D} {laws : SubLaws SS D}.
Context (T : types) {Tok : TypesOk T} (set : ds_t) {Hset : ds_ok set} (t : nat).
Context (V : get_variant) (body : Z * Z * bool -> M window_t SS (Z * Z * bool + D)).
Context (Hbody : get_body_ok T V set body) (Hassert : assert_ok T V set).
Notation B := (prot2 T set).
Implicit Types (g : shared window_t SS) (l : tls window_t).

Lemma window_down_row g :
  p_inv B g -> get_guard T V set (window g) = true ->
  (guarded V = false -> depth set <= max (window_down T set (window g))) ->
  row_ok set (max (window_down T set (window g))) /\
  max (window_down T set (window g)) < 2 ^ row_bits T /\
  max (window_down T set (window g)) <= max (window g) + shift set.
Proof.
  intros HI Hg Ha. pose proof (inv_window T set B t g HI) as [Hr Hb].
  pose proof (row_ok_range set _ Hr). destruct Hset as (_ & ? & _).
  assert (E : max (window_down T set (window g)) = max (window g) - shift set)
    by (cbn; apply wrap_small; lia).
  assert (depth set <= max (window_down T set (window g))).
  { unfold get_guard in Hg. destruct (guarded V); [by apply Z.leb_le|by apply Ha]. }
  rewrite E in *. split; [by apply row_ok_down_guard|lia].
Qed.

Lemma get_window2_wp c (Q : D -> shared window_t SS -> tls window_t -> Prop) g l :
  local_ok T set t l ->
  (forall d g' l', window_post T set t g d g' l' -> Q d g' l') ->
  wp B t (enter_window set c ;;; while body (0, 0, true)) Q g l.
Proof.
  intros Hl HQ. wp_local. apply (wp_enter_local T set); [done|]. intros g1 l1 Hl1 R1.
  apply (wp_while B t _ _ _ _ (fun _ '(hops, random, empty) g2 l2 =>
    hop_loop T set t g hops random g2 l2 /\
    (guarded V = false -> empty = false ->
       depth set <= max (window_down T set (thread_Window l2)))) 0%nat).
  - split; [by apply hop_loop_start|done].
  - intros n [[hops random] empty] g2 l2 [HJ Hemp]. pose proof HJ as (Hl2 & R2 & Hh & Hr).
    apply (Hbody B t _ hops random empty); [apply Hl2|done|done|..].
    + intros _ g' _ _ R' I'. exists 0%nat. split; [done|]. split; [by eapply hop_loop_sync|done].
    + intros d g' R' I' Hs _ Hv.
      assert (Hret : window_post T set t g d g' l2).
      { split; [done|]. split; [|done]. by apply (prely_trans T set B t g g2 g'). }
      destruct (in_window V set (thread_Window l2) (d_count d)) eqn:Ein; [by apply wp_ret, HQ|].
      destruct (Z.eqb_spec hops (width set)) as [Ew|Ew]; cbn [negb]; [destruct empty|].
      * by apply wp_ret, HQ.
      * split; [intros Hg; by apply Hemp|].
        apply (wp_shift_local T set t g _ _ g' l2 _ random hops).
        -- split; [apply Hl2|]. split; [by apply (prely_trans T set B t g g2 g')|done].
        -- intros Hg g3 I3 _ E. rewrite <- E in *. apply window_down_row; [done|done|].
           intros Hf. by apply Hemp.
        -- intros g3 l3 HJ3. exists 0%nat. by split.
      * intros index' random' hops' s st Hhop. exists 0%nat. split; [done|].
        split; [by eapply hop_loop_hop|]. cbn. intros Hf He.
        destruct (Z.ltb_spec 0 (d_count d)); [|by apply Hemp].
        destruct Hassert as [?|Ha]; [congruence|]. eapply Ha; [apply Hl2|done|exact Ein].
Qed.
End get_concurrent.
