(* ===== verification/Solo2Dc.v ===== *)
(** include/2Dc-window.c for a thread that runs alone: [put_window] and
    [get_window] terminate, every count stays within the window, a descriptor
    returned for a get is inside the window unless all sub-structures are
    empty, and one call shifts the window at most once. *)
From S2P Require Import Prelude Conc Random Thread Shared Window2Dc.

(** Every count lies in the window. *)
Definition counts_in {SS D} `{SubProto SS D} (set : ds_t) (g : shared window_t SS) : Prop :=
  forall i, 0 <= i < width set ->
    max (window g) - depth set <= cnt (subs g) i <= max (window g).

Definition seq_inv {SS D} `{SubProto SS D} (T : types) (set : ds_t) (g : shared window_t SS) : Prop :=
  p_inv (prot2 T set) g /\ counts_in set g.

(** Nothing to take anywhere. *)
Definition all_empty {SS D} `{SubProto SS D} (set : ds_t) (s : SS) : Prop :=
  forall j, 0 <= j < width set -> cnt s j = 0.

(** The thread's copy of the window is the window, or visibly outdated; a copy
    that is still 0 may agree with the window in its version while nothing has
    been put. *)
Definition in_sync {SS D} `{SubProto SS D} (set : ds_t) (g : shared window_t SS) (l : tls window_t) : Prop :=
  version (thread_Window l) <> version (window g) \/
  thread_Window l = window g \/
  (max (thread_Window l) = 0 /\ all_empty set (subs g)).

(** Where the window can be after a call. *)
Definition moved_up {SS D} `{SubProto SS D} (T : types) (set : ds_t) (g : shared window_t SS) (w : window_t) : Prop :=
  w = window g \/
  (w = window_up T set (window g) /\
   forall j, 0 <= j < width set -> max (window g) <= cnt (subs g) j).
Definition moved_down {SS D} `{SubProto SS D} (T : types) (set : ds_t) (g : shared window_t SS) (w : window_t) : Prop :=
  w = window g \/
  (w = window_down T set (window g) /\ depth set < max (window g) /\
   forall j, 0 <= j < width set -> cnt (subs g) j <= max (window g) - depth set).

Section solo.
Context {SS D : Type} {ops : SubOps SS D} {proto : SubProto SS D} {laws : SubLaws SS D}.
Context (T : types) {Tok : TypesOk T} (set : ds_t) {Hset : ds_ok set}.
Notation B := (prot2 T set).
Notation A := (alone B).
Implicit Types (g : shared window_t SS) (l : tls window_t).

(** After a hop: either no linear hop has been made, or one more index has
    been seen. *)
Lemma seen_hop H index random hops index' random' hops' p :
  0 <= index < width set -> 0 <= hops ->
  (0 < hops -> hop_random H set random hops = false) ->
  hops_last H set -> hopped H set index random hops index' random' hops' ->
  0 <= random -> seen (width set) index hops p -> p index ->
  seen (width set) index' hops' p /\ (0 < hops' -> hop_random H set random' hops' = false).
Proof.
  intros Hi Hh Hlin Hlast Hhop Hr Hs Hp.
  destruct Hhop as [(E & _ & _ & _ & ->)|(E & -> & -> & ->)].
  - assert (hops = 0) as ->.
    { destruct (decide (0 < hops)); [|lia]. rewrite Hlin in E by done. done. }
    split; [apply seen_none; lia|lia].
  - split; [by apply seen_next|]. intros _. by apply Hlast.
Qed.

Lemma still_alone : still A 0.
Proof. intros g g' R. by apply R. Qed.

(** The window moved up, or down, is again right for the same counts. *)
Lemma seq_inv_up g w :
  seq_inv T set g -> max (window g) + shift set < 2 ^ row_bits T -> moved_up T set g w ->
  seq_inv T set (set_window w g).
Proof.
  intros [HI Hc] Hlim [->|[-> Hfull]]; [by destruct g|].
  pose proof HI as [[Hrow _] Hs]. pose proof (row_ok_range set _ Hrow).
  destruct Hset as (_ & ? & _).
  assert (E : max (window_up T set (window g)) = max (window g) + shift set)
    by (cbn; apply wrap_small; lia).
  split; [split; [split|exact Hs]|].
  - cbn [set_window window]. rewrite E. by apply row_ok_up.
  - cbn [set_window window]. by rewrite E.
  - intros i Hi. cbn [set_window window subs]. rewrite E.
    specialize (Hc i Hi). specialize (Hfull i Hi). lia.
Qed.

Lemma window_down_max g :
  p_inv B g -> depth set < max (window g) ->
  max (window_down T set (window g)) = max (window g) - shift set /\
  depth set <= max (window g) - shift set /\ row_ok set (max (window g) - shift set).
Proof.
  intros [[Hrow Hb] _] Hlt. destruct (row_ok_down set _ Hrow Hlt). destruct Hset as (_ & ? & _).
  split; [cbn; apply wrap_small; lia|done].
Qed.

Lemma seq_inv_down g w :
  seq_inv T set g -> moved_down T set g w -> seq_inv T set (set_window w g).
Proof.
  intros [HI Hc] [->|(-> & Hlt & Hlow)]; [by destruct g|].
  pose proof HI as [[Hrow Hb] Hs]. destruct (window_down_max g HI Hlt) as (E & Hge & Hr).
  destruct Hset as (_ & ? & _).
  split; [split; [split|exact Hs]|].
  - cbn [set_window window]. by rewrite E.
  - cbn [set_window window]. rewrite E. lia.
  - intros i Hi. cbn [set_window window subs]. rewrite E.
    specialize (Hc i Hi). specialize (Hlow i Hi). lia.
Qed.

Lemma enter_alone c (Q : unit -> shared window_t SS -> tls window_t -> Prop) g l :
  p_inv B g -> index_ok (width set) 0 l -> in_sync set g l ->
  (forall l', index_ok (width set) 0 l' -> in_sync set g l' ->
     version (thread_Window l') = version (window g) -> Q tt g l') ->
  wp A 0 (enter_window set c) Q g l.
Proof.
  intros HI Hl Hsync HQ. apply (wp_enter_window T set A 0); [done|].
  intros g' l' Hi' R' _ Hw. rewrite (still_alone g g' R') in *.
  destruct Hw as [E|[E (g1 & R1 & Ev)]].
  - apply HQ; [done| |by rewrite E]. right. left. done.
  - rewrite (still_alone g g1 R1) in Ev. apply HQ; [done| |by rewrite E].
    unfold in_sync. by rewrite E.
Qed.
(** ** [put_window] *)

Definition loop_variant g w l (hops random : Z) : nat :=
  Z.to_nat (((if decide (thread_Window l = w) then 0 else 1) +
             (if decide (w = window g) then 1 else 0)) * (width set + 1) +
            (random_hops set - random) + (width set - hops)).

(** The thread's copy is the window [w], or still 0 with nothing put. *)
Definition copy_state g w l : Prop :=
  version (thread_Window l) = version w /\
  (thread_Window l = w \/
   (w = window g /\ max (thread_Window l) = 0 /\ all_empty set (subs g))).

Definition put_alone_loop g (n : nat) '((hops, random) : Z * Z) g1 l1 : Prop :=
  exists w, g1 = set_window w g /\ moved_up T set g w /\ copy_state g w l1 /\
    index_ok (width set) 0 l1 /\ 0 <= hops <= width set /\ 0 <= random <= random_hops set /\
    (0 < hops -> hop_random (put_types T) set random hops = false) /\
    seen (width set) (thread_index l1) hops (fun j => max (thread_Window l1) <= cnt (subs g) j) /\
    n = loop_variant g w l1 hops random.

Context (Hputs : hops_last (put_types T) set) (Hgets : hops_last (get_types T) set).

Lemma loop_variant_hop H g w l hops random index' random' hops' s st :
  0 <= hops < width set -> 0 <= random <= random_hops set ->
  hopped H set (thread_index l) random hops index' random' hops' ->
  (loop_variant g w (set_thread_index index' (with_rng s st l)) hops' random'
    < loop_variant g w l hops random)%nat.
Proof.
  intros Hh Hr Hhop. unfold loop_variant. cbn [thread_Window set_thread_index with_rng].
  destruct Hhop as [(_ & _ & ? & -> & ->)|(_ & _ & -> & ->)];
    repeat case_decide; lia.
Qed.

(** A shift attempt that leaves the copy in sync ends an outer round. *)
Lemma loop_variant_round g w w' l l' hops random :
  0 <= hops <= width set -> 0 <= random <= random_hops set ->
  thread_Window l' = w' ->
  (thread_Window l <> w /\ w' = w) \/ (w = window g /\ w' <> window g) ->
  (loop_variant g w' l' 0 random < loop_variant g w l hops random)%nat.
Proof.
  intros Hh Hr E Hcase. unfold loop_variant. rewrite E. destruct Hset as (? & _).
  rewrite (decide_True (P := w' = w')) by done.
  destruct Hcase as [[Hne ->]|[-> Hne]].
  - rewrite (decide_False (P := thread_Window l = w)) by done. case_decide; lia.
  - rewrite (decide_False (P := w' = window g)), (decide_True (P := window g = window g)) by done.
    case_decide; lia.
Qed.

(** A move of the window changes it. *)
Lemma window_up_neq g : max (window g) + shift set < 2 ^ row_bits T -> p_inv B g ->
  window_up T set (window g) <> window g.
Proof.
  intros Hlim [[Hrow _] _] E. pose proof (row_ok_range set _ Hrow). destruct Hset as (_ & ? & _).
  apply (f_equal max) in E. cbn in E. rewrite wrap_small in E by lia. lia.
Qed.

Lemma put_shift_alone g w l hops random
    (Q : unit -> shared window_t SS -> tls window_t -> Prop) :
  seq_inv T set g -> max (window g) + shift set < 2 ^ row_bits T -> moved_up T set g w ->
  copy_state g w l -> index_ok (width set) 0 l -> hops = width set ->
  0 <= random <= random_hops set ->
  seen (width set) (thread_index l) hops (fun j => max (thread_Window l) <= cnt (subs g) j) ->
  (forall m g' l', (m < loop_variant g w l hops random)%nat ->
     put_alone_loop g m (0, random) g' l' -> Q tt g' l') ->
  wp A 0 (shift_window true (window_up T set (thread_Window l))) Q (set_window w g) l.
Proof.
  intros HI Hlim Hup [Hv Hcopy] Hl Hh Hr Hseen HQ. pose proof HI as [HB Hc].
  pose proof (seen_all _ _ _ _ Hseen ltac:(lia)) as Hfull. cbn beta in Hfull.
  pose proof HB as [[Hrow _] _]. pose proof (row_ok_range set _ Hrow).
  pose proof Hset as (Hw & Hs & _).
  assert (Hsync : thread_Window l = w -> w = window g).
  { intros E. destruct Hup as [?|[-> _]]; [done|]. rewrite E in Hfull.
    specialize (Hfull 0 ltac:(lia)). specialize (Hc 0 ltac:(lia)). cbn in Hfull.
    rewrite wrap_small in Hfull by lia. lia. }
  assert (Hdone : forall w' g' l' , g' = set_window w' g -> thread_Window l' = w' ->
    moved_up T set g w' -> index_ok (width set) 0 l' ->
    (thread_Window l <> w /\ w' = w) \/ (w = window g /\ w' <> window g) -> Q tt g' l').
  { intros w' g' l' -> Ew Hm Hi' Hcase. eapply HQ.
    - apply (loop_variant_round g w w' l l' hops random); [lia|done|done|done].
    - exists w'. assert (copy_state g w' l') by (split; [by rewrite Ew|by left]).
      do 6 (split; [done || lia|]). split; [lia|]. split; [apply seen_none; lia|done]. }
  apply (wp_shift_window T set A 0).
  - intros _ g1 R1 _ _ E. rewrite (still_alone _ _ R1) in *. cbn [window set_window] in *.
    symmetry in E. pose proof (Hsync E) as ->. rewrite E.
    cbn [max window_up]. rewrite wrap_small by lia. split; [by apply row_ok_up|lia].
  - intros g1 st _ R1 _ E _. rewrite (still_alone _ _ R1) in *. cbn [window set_window] in *.
    symmetry in E. pose proof (Hsync E) as ->. apply (Hdone (window_up T set (window g))).
    + rewrite E. by destruct g.
    + cbn. by rewrite E.
    + right. split; [done|]. rewrite E in Hfull. exact Hfull.
    + exact Hl.
    + right. split; [done|by apply window_up_neq].
  - intros g1 g2 st _ R1 Hne R2 _. rewrite (still_alone _ _ R2), (still_alone _ _ R1) in *.
    cbn [window set_window] in *. apply (Hdone w); try done. left. by split.
  - intros g1 R1 Hcase. rewrite (still_alone _ _ R1) in *. cbn [window set_window] in *.
    destruct Hcase as [?|?]; [done|]. congruence.
Qed.

Lemma put_window_alone c (Q : D -> shared window_t SS -> tls window_t -> Prop) g l :
  seq_inv T set g -> max (window g) + shift set < 2 ^ row_bits T ->
  index_ok (width set) 0 l -> in_sync set g l ->
  (forall d w l', index_ok (width set) 0 l' -> thread_Window l' = w -> moved_up T set g w ->
     exact (thread_index l') d (subs g) -> d_count d = cnt (subs g) (thread_index l') ->
     d_count d < max w -> Q d (set_window w g) l') ->
  wp A 0 (put_window T set c) Q g l.
Proof.
  intros HI Hlim Hl Hsync HQ. pose proof Hset as (Hw & Hs & _ & Hrh). unfold put_window. wp_local.
  apply enter_alone; [apply HI|done|done|]. intros l1 Hl1 Hsync1 Hv1.
  eapply (wp_while A 0 _ _ _ _ (put_alone_loop g)).
  { exists (window g). split_and!; try done; try lia; [by destruct g|by left| |apply seen_none; lia].
    split; [done|]. destruct Hsync1 as [?|[?|[]]]; [done|by left|by right]. }
  intros n [hops random] g1 l2 (w & -> & Hup & Hcopy & Hl2 & Hh & Hr & Hlin & Hseen & ->).
  apply (put_body_wp T set A 0 hops random); [done|done|done|..].
  { intros g1 g' R1 Hne. rewrite (still_alone _ _ R1) in Hne. cbn in Hne.
    by rewrite (proj1 Hcopy) in Hne. }
  intros d g' R' _ _ He _. rewrite (still_alone _ _ R'). destruct (He still_alone) as [Hex Ec].
  cbn [subs set_window] in Hex, Ec.
  destruct (Z.ltb_spec (d_count d) (max (thread_Window l2))) as [Hlt|Hge]; [|
    destruct (Z.eqb_spec hops (width set)) as [Ew|Ew]; cbn [negb]].
  - wp_local. destruct Hcopy as [_ [Ew|(-> & Hz & Hemp)]].
    + apply HQ; try done. by rewrite <- Ew.
    + exfalso. specialize (Hemp _ (proj2 Hl2)). lia.
  - eapply put_shift_alone; [done..|]. intros m g2 l3 Hm HJ. by exists m.
  - intros index' random' hops' s st Hhop.
    exists (loop_variant g w (set_thread_index index' (with_rng s st l2)) hops' random').
    split; [intros _; eapply (loop_variant_hop _ g w l2); [lia|done|exact Hhop]|].
    destruct (seen_hop _ _ _ _ _ _ _ _ (proj2 Hl2) (proj1 Hh) Hlin Hputs Hhop (proj1 Hr) Hseen)
      as [Hs' Hlin']; [lia|].
    destruct (hopped_range set _ _ random hops _ _ _ ltac:(lia) Hr Hhop).
    exists w. do 3 (split; [done|]). split; [|done].
    split; [apply Hl2|]. exact (hopped_index set _ _ _ _ _ _ _ (proj2 Hl2) Hhop).
Qed.
(** ** [get_window] *)

(** Without wrap-around, [in_window] is the comparison it is meant to be. *)
Definition in_window_ok (V : get_variant) : Prop :=
  forall tw c, row_ok set (max tw) -> max tw + depth set < 2 ^ row_bits T -> 0 <= c <= max tw ->
    in_window V set tw c = (max tw - depth set <? c).

Context (V : get_variant) (body : Z * Z * bool -> M window_t SS (Z * Z * bool + D)).
Context (Hbody : get_body_ok T V set body) (Hin : in_window_ok V).

(** What has been seen of an index passed. *)
Definition get_seen g w l (empty : bool) (j : Z) : Prop :=
  (thread_Window l = w -> cnt (subs g) j <= max w - depth set) /\
  (empty = true -> cnt (subs g) j = 0).

Definition get_alone_loop g (n : nat) '((hops, random, empty) : Z * Z * bool) g1 l1 : Prop :=
  exists w, g1 = set_window w g /\ moved_down T set g w /\ copy_state g w l1 /\
    index_ok (width set) 0 l1 /\ 0 <= hops <= width set /\ 0 <= random <= random_hops set /\
    (0 < hops -> hop_random (get_types T) set random hops = false) /\
    seen (width set) (thread_index l1) hops (get_seen g w l1 empty) /\
    (empty = false -> exists j, 0 <= j < width set /\ 0 < cnt (subs g) j) /\
    n = loop_variant g w l1 hops random.

(** A descriptor outside of the window: the window has not moved yet. *)
Lemma outside_window g w l c :
  seq_inv T set g -> max (window g) + depth set < 2 ^ row_bits T -> moved_down T set g w ->
  copy_state g w l -> index_ok (width set) 0 l -> c = cnt (subs g) (thread_index l) ->
  in_window V set (thread_Window l) c = false ->
  w = window g /\ (thread_Window l = w -> c <= max w - depth set) /\
  (thread_Window l = w \/ all_empty set (subs g)).
Proof.
  intros HI Hlim Hdown [_ Hcopy] [_ Hi] -> Ein. pose proof HI as [HB Hc]. specialize (Hc _ Hi).
  destruct (seq_inv_down g w HI Hdown) as [[[Hrow _] _] Hc'].
  specialize (Hc' _ Hi). cbn in Hrow, Hc'. destruct Hset as (_ & Hs & _).
  assert (Hw : max w <= max (window g)).
  { destruct Hdown as [->|(-> & Hlt & _)]; [done|].
    destruct (window_down_max g HB Hlt) as [-> _]. lia. }
  pose proof (cnt_nonneg set (subs g) _ (proj2 HB) Hi) as Hnn.
  destruct Hcopy as [E|(-> & _ & Hemp)].
  - rewrite E, Hin in Ein by (done || lia). apply Z.ltb_ge in Ein.
    split; [|split; [done|by left]].
    destruct Hdown as [?|(-> & Hlt & _)]; [done|]. exfalso.
    destruct (window_down_max g HB Hlt) as [Em _]. lia.
  - split; [done|]. split; [|by right]. intros E. rewrite E, Hin in Ein by (done || lia).
    by apply Z.ltb_ge.
Qed.

Lemma get_shift_alone g l random hops
    (Q : unit -> shared window_t SS -> tls window_t -> Prop) :
  seq_inv T set g -> thread_Window l = window g ->
  index_ok (width set) 0 l -> hops = width set -> 0 <= random <= random_hops set ->
  seen (width set) (thread_index l) hops (get_seen g (window g) l false) ->
  (exists j, 0 <= j < width set /\ 0 < cnt (subs g) j) ->
  (forall m g' l', (m < loop_variant g (window g) l hops random)%nat ->
     get_alone_loop g m (0, random, true) g' l' -> Q tt g' l') ->
  (guarded V = false -> depth set <= max (window_down T set (thread_Window l))) /\
  wp A 0 (shift_window (get_guard T V set (thread_Window l))
            (window_down T set (thread_Window l))) Q g l.
Proof.
  intros HI E Hl Hh Hr Hseen (j & Hj & Hpos) HQ. pose proof HI as [HB Hc].
  pose proof (seen_all _ _ _ _ Hseen ltac:(lia)) as Hlow.
  assert (Hlow' : forall i, 0 <= i < width set -> cnt (subs g) i <= max (window g) - depth set)
    by (intros i Hi; by apply (Hlow i Hi)).
  pose proof Hset as (Hw & Hs & _). specialize (Hlow' j Hj) as Hlt.
  destruct (window_down_max g HB ltac:(lia)) as (Em & Hge & Hrow).
  pose proof HB as [[_ Hb] _]. cbn in Hb.
  rewrite E. split; [intros _; lia|].
  assert (Hguard : get_guard T V set (window g) = true).
  { unfold get_guard. destruct (guarded V); [|done]. apply Z.leb_le. lia. }
  rewrite Hguard. apply (wp_shift_window T set A 0).
  - intros _ g1 R1 _ _ _. rewrite (still_alone _ _ R1), Em. split; [done|lia].
  - intros g1 st _ R1 _ _ _. rewrite (still_alone _ _ R1).
    match goal with |- Q tt _ ?l' =>
      apply (HQ (loop_variant g (window_down T set (window g)) l' 0 random)) end.
    + apply loop_variant_round; [lia|done|done|].
      right. split; [done|]. intros E'. apply (f_equal max) in E'. lia.
    + exists (window_down T set (window g)). split; [done|]. split.
      { right. split; [done|]. split; [lia|done]. }
      split; [split; [done|by left]|]. split; [done|]. do 2 (split; [lia|]). split; [lia|].
      split; [apply seen_none; lia|done].
  - intros g1 g2 st _ R1 Hne. rewrite (still_alone _ _ R1) in Hne. congruence.
  - intros g1 R1 [?|Hne]; [done|]. rewrite (still_alone _ _ R1) in Hne. congruence.
Qed.

Lemma get_window_alone c (Q : D -> shared window_t SS -> tls window_t -> Prop) g l :
  seq_inv T set g -> max (window g) + depth set < 2 ^ row_bits T ->
  index_ok (width set) 0 l -> in_sync set g l ->
  (forall d w l', index_ok (width set) 0 l' -> in_sync set (set_window w g) l' ->
     moved_down T set g w ->
     exact (thread_index l') d (subs g) -> d_count d = cnt (subs g) (thread_index l') ->
     max w - depth set < d_count d \/ all_empty set (subs g) -> Q d (set_window w g) l') ->
  wp A 0 (enter_window set c ;;; while body (0, 0, true)) Q g l.
Proof.
  intros HI Hlim Hl Hsync HQ. pose proof Hset as (Hw & Hs & _ & Hrh). wp_local.
  apply enter_alone; [apply HI|done|done|]. intros l1 Hl1 Hsync1 Hv1.
  eapply (wp_while A 0 _ _ _ _ (get_alone_loop g)).
  { exists (window g). split; [by destruct g|]. split; [by left|]. split.
    { split; [done|]. destruct Hsync1 as [?|[?|[]]]; [done|by left|by right]. }
    split; [done|]. do 2 (split; [lia|]). split; [lia|]. by split; [apply seen_none; lia|]. }
  intros n [[hops random] empty] g1 l2
    (w & -> & Hdown & Hcopy & Hl2 & Hh & Hr & Hlin & Hseen & Hne & ->).
  apply (Hbody A 0%nat _ hops random empty); [done|done|done|..].
  { intros g1 g' R1 Hv. rewrite (still_alone _ _ R1) in Hv. cbn in Hv.
    by rewrite (proj1 Hcopy) in Hv. }
  intros d g' R' _ _ He _. rewrite (still_alone _ _ R'). destruct (He still_alone) as [Hex Ec].
  cbn [subs set_window] in Hex, Ec.
  assert (Hret : in_sync set (set_window w g) l2).
  { destruct Hcopy as [? [?|(? & ? & ?)]]; right; [by left|right; done]. }
  destruct (in_window V set (thread_Window l2) (d_count d)) eqn:Ein.
  { wp_local. apply HQ; try done. destruct Hcopy as [_ [E|(_ & _ & ?)]]; [left|by right].
    destruct (seq_inv_down g w HI Hdown) as [[[Hrow _] _] Hc']. cbn in Hrow, Hc'.
    specialize (Hc' _ (proj2 Hl2)). cbn in Hc'.
    assert (max w <= max (window g)).
    { destruct Hdown as [->|(-> & Hlt & _)]; [done|].
      destruct (window_down_max g (proj1 HI) Hlt) as [-> _]. lia. }
    pose proof (cnt_nonneg set (subs g) _ (proj2 (proj1 HI)) (proj2 Hl2)).
    rewrite E, Hin in Ein by (done || lia). by apply Z.ltb_lt. }
  destruct (outside_window g w l2 (d_count d) HI Hlim Hdown Hcopy Hl2 Ec Ein)
    as (-> & Hout & Hcase).
  destruct (Z.eqb_spec hops (width set)) as [Ew|Ew]; cbn [negb]; [destruct empty|].
  - (* the empty answer *)
    wp_local. apply HQ; try done. right. intros j Hj.
    by apply (seen_all _ _ _ _ Hseen ltac:(lia) j Hj).
  - assert (E : thread_Window l2 = window g).
    { destruct Hcase as [?|Hemp]; [done|]. destruct (Hne eq_refl) as (j & Hj & Hpos).
      specialize (Hemp j Hj). lia. }
    replace (set_window (window g) g) with g in * by (by destruct g).
    eapply get_shift_alone; try done; [by apply Hne|].
    intros m g2 l3 Hm HJ. by exists m.
  - intros index' random' hops' s st Hhop.
    exists (loop_variant g (window g) (set_thread_index index' (with_rng s st l2)) hops' random').
    split; [intros _; eapply (loop_variant_hop _ g _ l2); [lia|done|exact Hhop]|].
    set (empty' := if 0 <? d_count d then false else empty).
    assert (Hseen' : seen (width set) (thread_index l2) hops (get_seen g (window g) l2 empty')).
    { intros j Hj Hd. destruct (Hseen j Hj Hd) as [H1 H2]. split; [done|].
      unfold empty'. destruct (0 <? d_count d); [done|exact H2]. }
    assert (Hhere : get_seen g (window g) l2 empty' (thread_index l2)).
    { split; [intros E; rewrite <- Ec; by apply Hout|]. unfold empty'.
      pose proof (cnt_nonneg set (subs g) _ (proj2 (proj1 HI)) (proj2 Hl2)).
      destruct (Z.ltb_spec 0 (d_count d)); [done|]. lia. }
    destruct (seen_hop _ _ _ _ _ _ _ _ (proj2 Hl2) (proj1 Hh) Hlin Hgets Hhop (proj1 Hr) Hseen' Hhere)
      as [Hs' Hlin'].
    destruct (hopped_range set _ _ random hops _ _ _ ltac:(lia) Hr Hhop).
    exists (window g). do 3 (split; [done|]).
    split; [split; [apply Hl2|]; exact (hopped_index set _ _ _ _ _ _ _ (proj2 Hl2) Hhop)|].
    do 4 (split; [done|]). split; [|done]. unfold empty'.
    destruct (Z.ltb_spec 0 (d_count d)); [|done]. intros _. exists (thread_index l2).
    split; [apply Hl2|lia].
Qed.
End solo.

Lemma in_window_2Dc above set : ds_ok set -> in_window_ok (types_2Dc above) set variant_2Dc.
Proof.
  intros (_ & Hs & Hd & _) tw c Hrow Hlim Hc. cbn in Hlim |- *.
  rewrite wrap_small by lia.
  destruct (Z.ltb_spec (max tw) (c + depth set)), (Z.ltb_spec (max tw - depth set) c); lia.
Qed.

(** ** The interface of the window to the structures built on it *)

Class WindowOps (SS D : Type) := {
  w_put_window : ds_t -> bool -> M window_t SS D;
  w_get_window : ds_t -> bool -> M window_t SS D;
}.

Class WindowLaws (T : types) (SS D : Type) `{ops : SubOps SS D} `{proto : SubProto SS D}
    `{wops : WindowOps SS D} : Prop := {
  window_types_ok :: TypesOk T;
  w_put_window_wp set (Hset : ds_ok set) t c (Q : D -> shared window_t SS -> tls window_t -> Prop) g l :
    local_ok T set t l ->
    (forall d g' l', window_post T set t g d g' l' -> Q d g' l') ->
    wp (prot2 T set) t (w_put_window set c) Q g l;
  w_get_window_wp set (Hset : ds_ok set) t c (Q : D -> shared window_t SS -> tls window_t -> Prop) g l :
    local_ok T set t l ->
    (forall d g' l', window_post T set t g d g' l' -> Q d g' l') ->
    wp (prot2 T set) t (w_get_window set c) Q g l;
  w_put_window_alone set (Hset : ds_ok set) c
      (Q : D -> shared window_t SS -> tls window_t -> Prop) g l :
    seq_inv T set g -> max (window g) + shift set < 2 ^ row_bits T ->
    index_ok (width set) 0 l -> in_sync set g l ->
    (forall d w l', index_ok (width set) 0 l' -> thread_Window l' = w -> moved_up T set g w ->
       exact (thread_index l') d (subs g) -> d_count d = cnt (subs g) (thread_index l') ->
       d_count d < max w -> Q d (set_window w g) l') ->
    wp (alone (prot2 T set)) 0 (w_put_window set c) Q g l;
  w_get_window_alone set (Hset : ds_ok set) c
      (Q : D -> shared window_t SS -> tls window_t -> Prop) g l :
    hops_last (get_types T) set ->
    seq_inv T set g -> max (window g) + depth set < 2 ^ row_bits T ->
    index_ok (width set) 0 l -> in_sync set g l ->
    (forall d w l', index_ok (width set) 0 l' -> in_sync set (set_window w g) l' ->
       moved_down T set g w ->
       exact (thread_index l') d (subs g) -> d_count d = cnt (subs g) (thread_index l') ->
       max w - depth set < d_count d \/ all_empty set (subs g) -> Q d (set_window w g) l') ->
    wp (alone (prot2 T set)) 0 (w_get_window set c) Q g l;
}.

(** 2Dc-window.c implements it, whatever lies above [random]. *)
Section window_2Dc.
Context {SS D : Type} {ops : SubOps SS D} {proto : SubProto SS D} {laws : SubLaws SS D}.
Context (above : Z -> Z -> Z) (Habove : forall r h, 0 <= above r h).
Notation T := (types_2Dc above).

Definition window_2Dc : WindowOps SS D :=
  {| w_put_window := put_window T; w_get_window := get_window T |}.

Lemma window_2Dc_laws : WindowLaws T SS D (wops := window_2Dc).
Proof.
  pose proof (types_2Dc_ok above Habove) as Tok. split; cbn [w_put_window w_get_window window_2Dc].
  - done.
  - intros set Hset t c Q g l. by apply put_window2_wp.
  - intros set Hset t c Q g l. apply (get_window2_wp T set t variant_2Dc).
    + by apply get_window_body_ok.
    + by left.
  - intros set Hset c Q g l. apply put_window_alone; [done|done|by intros r h].
  - intros set Hset c Q g l Hlast. apply (get_window_alone T set Hlast variant_2Dc (get_window_body T set)).
    + by apply get_window_body_ok.
    + by apply in_window_2Dc.
Qed.
End window_2Dc.
