(* ===== verification/Stack2Dc.v ===== *)
(** src/2Dc-stack/2Dc-stack.c: the relaxed stack made of [width] Treiber stacks
    under one window.  The operations are stated over the interface of the
    window, as 2Dc-stack_optimized.c has the same ones over its own window. *)
From S2P Require Import Prelude Conc Random Thread Params StackHeap Shared SubStacks.
From S2P Require Import Window2Dc Solo2Dc.

(** ** State *)

Record descriptor_t := mkDesc { node : Z; count : Z }.

#[export] Instance descriptor_eq_dec : EqDecision descriptor_t.
Proof. solve_decision. Defined.

(** The count is the number of elements. *)
#[export] Instance descriptor_desc : Desc descriptor_t :=
  {| d_node := node; d_ok d n := count d = n |}.

Notation stacks2 := (stacks descriptor_t node_t).
Notation state := (shared window_t stacks2).
Notation MS := (M window_t stacks2).

(** ** Operations *)

(** The copy of a descriptor is one load per field. *)
Definition read_stack_descriptor (i : Z) : MS descriptor_t :=
  let* n := load_desc node i in
  let* c := load_desc count i in
  Ret (mkDesc n c).

#[export] Instance stack_ops : SubOps stacks2 descriptor_t :=
  {| read_descriptor := read_stack_descriptor; d_count := count |}.

Section code.
Context {A : Allocator node_t} {wops : WindowOps stacks2 descriptor_t}.

Definition create_node (k v nxt : Z) : MS Z := alloc_node (mkNode k v nxt).

(** [new_node->next = p]. *)
Definition store_next (a p : Z) : MS unit := store_node a (fun n => mkNode (key n) (val n) p).

Definition stack_cae (i : Z) (d new : descriptor_t) (push : bool) : MS bool := cae_desc i d new push.

Definition push_body (set : ds_t) (new_node : Z) (contention : bool) : MS (bool + Z) :=
  let* descriptor := w_put_window set contention in
  store_next new_node (node descriptor) ;;;
  let new_descriptor := mkDesc new_node (u64 (count descriptor + 1)) in
  let* index := get thread_index in
  let* ok := stack_cae index descriptor new_descriptor true in
  if ok then break 1
  else
    put (count_stat inc_put_cas_fail) ;;;
    continue true.

Definition push (set : ds_t) (k v : Z) : MS Z :=
  let* new_node := create_node k v 0 in
  while (push_body set new_node) false.

Definition pop_body (set : ds_t) (contention : bool) : MS (bool + Z) :=
  let* descriptor := w_get_window set contention in
  if negb (node descriptor =? 0) then
    let* nxt := load_node next (node descriptor) in
    let new_descriptor := mkDesc nxt (u64 (count descriptor - 1)) in
    let* index := get thread_index in
    let* ok := stack_cae index descriptor new_descriptor false in
    if ok then
      let* node_val := load_node val (node descriptor) in
      break node_val
    else
      put (count_stat inc_get_cas_fail) ;;;
      continue true
  else
    put (count_stat inc_null) ;;;
    break 0.

Definition pop (set : ds_t) : MS Z := while (pop_body set) false.

Definition stack_size (set : ds_t) : MS Z := stacks_size (width set).

Definition exec_op (set : ds_t) (o : op) : MS Z :=
  match o with DoPush k v => push set k v | DoPop => pop set end.
End code.

Definition empty_stacks (w : Z) : stacks2 :=
  mkStacks (replicate (Z.to_nat w) (mkDesc 0 0)) (mkMem ∅ ∅) [].

(** [create_stack]; [initialize_global_window] takes the depth as a
    [uint16_t]. *)
Definition create_stack (num_threads width depth k_mode relaxation_bound : Z)
    : option (ds_t * state) :=
  p ← calculate 2 64 64 (product_u64 2) num_threads width depth k_mode relaxation_bound;
  let shift := if 1 <? p_depth p / 2 then p_depth p / 2 else 1 in
  let set := mkDs 2 (p_width p) (p_depth p) shift (p_bound p) k_mode in
  Some (set, mkShared (initialize_global_window (p_depth p)) (empty_stacks (p_width p))).

(** ** Protocol *)

#[export] Instance stack_proto : SubProto stacks2 descriptor_t :=
  {| sprot2 set := sprot (width set) (2 ^ 63);
     cnt s i := Z.of_nat (length (contents i (hist s)));
     snap i d s := ptr_ok (heap s) (node d);
     exact i d s := array s !! Z.to_nat i = Some d |}.

#[export] Instance stack_laws : SubLaws stacks2 descriptor_t.
Proof.
  split.
  - intros set. apply sprot_laws.
  - intros set t i d s s' Hs ((Hk & _) & _). by eapply ptr_ok_keeps.
  - intros set s i _ _. cbn. lia.
  - intros T set P t runs i Q g l Hi HQ. cbn [read_descriptor stack_ops].
    unfold read_stack_descriptor. wp_local.
    apply (wp_desc_field (wprot T set) (width set) (2 ^ 63) P t); [done|].
    intros g1 d1 R1 I1 _ E1. wp_local.
    apply (wp_desc_field (wprot T set) (width set) (2 ^ 63) P t); [done|].
    intros g2 d2 R2 I2 _ E2. wp_local. apply HQ; [by apply (rely_trans (P := P) t g g1 g2)|done|..].
    + eapply (ptr_ok_rely (wprot T set) (width set) (2 ^ 63) P t); [exact R2|].
      exact (top_ptr_ok (wprot T set) (width set) (2 ^ 63) P t g1 i d1 I1 (proj1 Hi) E1).
    + intros Hst. rewrite (Hst g1 g2 R2) in *. rewrite (Hst g g1 R1) in *.
      assert (d2 = d1) as -> by congruence.
      pose proof (runs_inv (B := prot2 T set) g I1) as [_ Hinv].
      destruct (sub_inv (width set) (subs g) i d1 Hinv (proj1 Hi) E1) as [_ Hok].
      by destruct d1.
Qed.

(** ** The operations, among other threads *)

Section operations.
Context {A : Allocator node_t} (T : types) {wops : WindowOps stacks2 descriptor_t}.
Context {wlaws : WindowLaws T stacks2 descriptor_t} (set : ds_t) {Hset : ds_ok set} (t : nat).
Notation B := (prot2 T set).
Notation WP := (wprot T set).
Notation mine g := (events_of t (hist (subs g))).
Implicit Types (g : state) (l : tls window_t).

Lemma count_new c n : c = n -> 0 <= n < 2 ^ 63 -> u64 (c + 1) = n + 1.
Proof. intros -> ?. apply wrap_small. lia. Qed.

Lemma count_less c n : c = n -> 0 < n < 2 ^ 63 -> u64 (c - 1) = n - 1.
Proof. intros -> ?. apply wrap_small. lia. Qed.

(** The number of elements of a sub-stack, from the descriptor. *)
Lemma stack2_len P (runs : Runs P B t) g i d :
  p_inv P g -> 0 <= i -> lookup_desc i g = Some d ->
  count d = Z.of_nat (length (contents i (hist (subs g)))).
Proof.
  intros HI Hi E. pose proof (runs_inv (B := B) g HI) as [_ Hinv].
  exact (proj2 (sub_inv (width set) (subs g) i d Hinv Hi E)).
Qed.

Lemma stack2_limit P (runs : Runs P B t) g i :
  p_inv P g -> p_ok B g -> Z.of_nat (length (contents i (hist (subs g)))) < 2 ^ 63.
Proof.
  intros HI [_ Ho]. cbn in Ho. pose proof (runs_inv (B := B) g HI) as [_ (_ & _ & Hl & _)].
  pose proof (contents_bound i _ Hl). lia.
Qed.

(** What a successful compare-and-exchange needs. *)
Lemma push_allowed P (runs : Runs P B t) g i d a k v :
  p_inv P g -> p_ok B g -> 0 <= i -> lookup_desc i g = Some d ->
  priv (heap (subs g)) !! a = Some t -> lookup_node a g = Some (mkNode k v (node d)) ->
  cae_allowed t i d (mkDesc a (u64 (count d + 1))) true v (subs g).
Proof.
  intros HI Ho Hi E Pa Ea. split.
  - exists (mkNode k v (node d)). by split_and!.
  - cbn. apply count_new; [by eapply stack2_len|]. split; [lia|]. by eapply stack2_limit.
Qed.

Lemma pop_allowed P (runs : Runs P B t) g i d nd :
  p_inv P g -> p_ok B g -> 0 <= i -> lookup_desc i g = Some d ->
  node d <> 0 -> lookup_node (node d) g = Some nd ->
  cae_allowed t i d (mkDesc (next nd) (u64 (count d - 1))) false (val nd) (subs g).
Proof.
  intros HI Ho Hi E Hn En. split; [done|]. split; [by exists nd|]. intros Hpos.
  cbn. apply count_less; [by eapply stack2_len|]. split; [lia|]. by eapply stack2_limit.
Qed.

(** The loop invariant of [push]: its node is still its own. *)
Definition push_loop (v a : Z) (evs : list event) g l : Prop :=
  local_ok T set t l /\ mine g = evs /\ priv (heap (subs g)) !! a = Some t /\
  exists k q, lookup_node a g = Some (mkNode k v q).

Lemma push2_body_wp v a evs (Q : Z -> state -> tls window_t -> Prop) c g l :
  push_loop v a evs g l ->
  (forall g' l' i, local_ok T set t l' -> 0 <= i < width set ->
     mine g' = Push i v :: evs -> Q 1 g' l') ->
  wp B t (push_body set a c)
    (fun r g l => match r with inl _ => push_loop v a evs g l | inr b => Q b g l end) g l.
Proof.
  intros (Hl & Hm & Pa & k & q & Ea) HQ. unfold push_body. wp_local.
  apply (w_put_window_wp set Hset); [done|]. intros d g2 l2 (Hl2 & R2 & I2 & _). wp_local.
  destruct (own_rely WP (width set) (2 ^ 63) B t g g2 a _ R2 Pa Ea) as [P2 E2].
  pose proof (mine_rely WP (width set) (2 ^ 63) B t g g2 R2) as Em2.
  eapply (wp_store_node WP (width set) (2 ^ 63) B t); [exact P2|exact E2|].
  intros g3 R3 I3 E3 g4 I4 Hk4 P4 E4. cbn [key val] in E4.
  pose proof (mine_rely WP (width set) (2 ^ 63) B t g2 g3 R3) as Em3.
  wp_locals. apply (wp_cae_desc WP (width set) (2 ^ 63) B t _ _ _ _ v); [apply Hl2|apply Hl2|..].
  - intros g5 R5 I5 O5 E5.
    destruct (own_rely WP (width set) (2 ^ 63) B t g4 g5 a _ R5 P4 E4) as [P5 E5'].
    exact (push_allowed B _ g5 _ d a k v I5 O5 (proj1 (proj2 (proj1 Hl2))) E5 P5 E5').
  - intros g5 R5 I5 E5 g6 _. wp_locals. apply (HQ _ _ (thread_index l2)); [done|apply Hl2|].
    pose proof (mine_rely WP (width set) (2 ^ 63) B t g4 g5 R5) as Em5.
    unfold g6, after_cae. cbn [subs set_subs hist]. rewrite events_of_cons, decide_True by done.
    rewrite Em5, <- Hm, <- Em2, <- Em3. done.
  - intros g5 R5 _ _. wp_locals.
    destruct (own_rely WP (width set) (2 ^ 63) B t g4 g5 a _ R5 P4 E4) as [P5 E5'].
    pose proof (mine_rely WP (width set) (2 ^ 63) B t g4 g5 R5) as Em5.
    split; [done|]. split; [rewrite Em5, <- Hm, <- Em2, <- Em3; done|].
    split; [exact P5|]. by eexists _, _.
Qed.

(** [push] returns 1 after exactly one [Push] of its value. *)
Lemma push2_wp k v (Q : Z -> state -> tls window_t -> Prop) g l :
  local_ok T set t l ->
  (forall g' l' i, local_ok T set t l' -> 0 <= i < width set ->
     mine g' = Push i v :: mine g -> Q 1 g' l') ->
  wp B t (push set k v) Q g l.
Proof.
  intros Hl HQ. unfold push. wp_local.
  apply (wp_alloc_node WP (width set) (2 ^ 63) B t); [apply Hl|].
  intros a g1 R1 I1 g2 I2 Hk P2 E2.
  apply (wp_while B t _ _ _ _ (fun _ _ => push_loop v a (mine g)) 0%nat).
  - split; [done|]. split; [apply (mine_rely WP (width set) (2 ^ 63) B t g g1 R1)|].
    split; [exact P2|]. by eexists _, _.
  - intros n c g3 l3 HJ. eapply wp_mono; [|by apply (push2_body_wp v a (mine g) Q)].
    intros [c'|r] g4 l4 H4; [by exists 0%nat|exact H4].
Qed.

Lemma pop2_body_wp evs (Q : Z -> state -> tls window_t -> Prop) c g l :
  local_ok T set t l -> mine g = evs ->
  (forall v g' l' i, local_ok T set t l' -> 0 <= i < width set ->
     mine g' = Pop i v :: evs -> Q v g' l') ->
  (forall g' l', local_ok T set t l' -> mine g' = evs -> Q 0 g' l') ->
  wp B t (pop_body set c)
    (fun r g l => match r with inl _ => local_ok T set t l /\ mine g = evs
                  | inr b => Q b g l end) g l.
Proof.
  intros Hl Hm HQ HQ0. unfold pop_body. wp_local.
  apply (w_get_window_wp set Hset); [done|]. intros d g2 l2 (Hl2 & R2 & I2 & Hptr).
  pose proof (mine_rely WP (width set) (2 ^ 63) B t g g2 R2) as Em2.
  destruct (Z.eqb_spec (node d) 0) as [Hz|Hnz]; cbn [negb]; wp_locals.
  { apply HQ0; [done|]. by rewrite Em2. }
  destruct (ptr_ok_node _ _ Hptr Hnz) as (nd & E2 & P2).
  eapply (wp_load_node WP (width set) (2 ^ 63) B t); [exact P2|exact E2|].
  intros g3 R3 I3 P3 E3.
  pose proof (mine_rely WP (width set) (2 ^ 63) B t g2 g3 R3) as Em3. wp_locals.
  apply (wp_cae_desc WP (width set) (2 ^ 63) B t _ _ _ _ (val nd)); [apply Hl2|apply Hl2|..].
  - intros g4 R4 I4 O4 E4.
    destruct (published_rely WP (width set) (2 ^ 63) B t g3 g4 _ _ R4 P3 E3) as [P5 E5].
    exact (pop_allowed B _ g4 _ d nd I4 O4 (proj1 (proj2 (proj1 Hl2))) E4 Hnz E5).
  - intros g4 R4 I4 E4 g5 I5.
    destruct (published_rely WP (width set) (2 ^ 63) B t g3 g4 _ _ R4 P3 E3) as [P4 E4'].
    pose proof (mine_rely WP (width set) (2 ^ 63) B t g3 g4 R4) as Em4.
    wp_local. eapply (wp_load_node WP (width set) (2 ^ 63) B t); [exact P4|exact E4'|].
    intros g6 R6 _ _ _. wp_locals.
    pose proof (mine_rely WP (width set) (2 ^ 63) B t g5 g6 R6) as Em6.
    apply (HQ _ _ _ (thread_index l2)); [done|apply Hl2|]. rewrite Em6.
    unfold g5, after_cae. cbn [subs set_subs hist]. rewrite events_of_cons, decide_True by done.
    by rewrite Em4, Em3, Em2, Hm.
  - intros g4 R4 _ _. wp_locals. split; [done|].
    pose proof (mine_rely WP (width set) (2 ^ 63) B t g3 g4 R4) as Em4.
    by rewrite Em4, Em3, Em2.
Qed.

(** [pop] takes exactly one value and returns it, or returns 0. *)
Lemma pop2_wp (Q : Z -> state -> tls window_t -> Prop) g l :
  local_ok T set t l ->
  (forall v g' l' i, local_ok T set t l' -> 0 <= i < width set ->
     mine g' = Pop i v :: mine g -> Q v g' l') ->
  (forall g' l', local_ok T set t l' -> mine g' = mine g -> Q 0 g' l') ->
  wp B t (pop set) Q g l.
Proof.
  intros Hl HQ HQ0. unfold pop.
  apply (wp_while B t _ _ _ _ (fun _ _ g' l' => local_ok T set t l' /\ mine g' = mine g) 0%nat);
    [done|].
  intros n c g2 l2 [Hl2 Hm2]. eapply wp_mono; [|by apply (pop2_body_wp (mine g) Q)].
  intros [c'|r] g3 l3 H3; [by exists 0%nat|exact H3].
Qed.
End operations.

(** ** Results *)

(** Every reachable state, over any window that keeps the interface. *)
Section executions.
Context {A : Allocator node_t} (T : types) {wops : WindowOps stacks2 descriptor_t}.
Context {wlaws : WindowLaws T stacks2 descriptor_t} (set : ds_t) {Hset : ds_ok set}.
Notation B := (prot2 T set).
Context (g0 : state) (HI0 : p_inv B g0) (Hh0 : hist (subs g0) = []).
Context (opss : list (list op)) (ls : list (tls window_t)) (schedule : list nat).
Context (Hls : forall i l, ls !! i = Some l -> local_ok T set i l).
Context (Hbound : max (window g0) + Z.of_nat (length schedule) * (shift set + 1)
                    < 2 ^ (row_bits T - 1)).

Let final := exec (mkCfg g0 (clients (exec_op set) opss ls)) schedule.

Lemma stack2_run :
  p_inv B (mem final) /\ ~ faulty final /\
  (forall i rs l os, pool final !! i = Some (Ret rs, l) -> opss !! i = Some os ->
     length rs = length os /\
     explains (width set) (zip os rs) (events_of i (hist (subs (mem final))))).
Proof.
  pose proof Hset as (Hw & Hs & Hd & _). pose proof (row_bits_ok (T := T)) as Hrb.
  assert (E : 2 ^ row_bits T = 2 * 2 ^ (row_bits T - 1))
    by (rewrite <- Z.pow_succ_r by lia; f_equal; lia).
  assert (2 ^ 31 <= 2 ^ (row_bits T - 1)) by (apply Z.pow_le_mono_r; lia).
  assert (2 ^ (row_bits T - 1) <= 2 ^ 63) by (apply Z.pow_le_mono_r; lia).
  destruct (clients_soundness (exec_op set) B
    (fun t done (g : state) l => local_ok T set t l /\ explains (width set) done (events_of t (hist (subs g)))))
    with (meas := fun g : state => max (window g) + Z.of_nat (length (hist (subs g))))
      (delta := shift set + 1) (limit := 2 ^ (row_bits T - 1) - 1)
      (g0 := g0) (opss := opss) (ls := ls) (schedule := schedule) as (HI & HF & HQ); try done.
  - intros t done o g l [Hl HJ]. destruct o; cbn [exec_op].
    + apply (push2_wp T set t); [done|]. intros g' l' i Hl' Hi Hm.
      split; [done|]. rewrite Hm. by constructor.
    + apply (pop2_wp T set t); [done|..].
      * intros v g' l' i Hl' Hi Hm. split; [done|]. rewrite Hm. by constructor.
      * intros g' l' Hl' Hm. split; [done|]. rewrite Hm. by constructor.
  - lia.
  - intros t g g' _ [Hgw Hgs]. cbn in Hgw. destruct Hgs as (_ & _ & _ & Hlen). lia.
  - intros g [[Hrow _] _] Hm. pose proof (row_ok_range set _ Hrow). cbn. lia.
  - rewrite Hh0. cbn [length]. lia.
  - intros i l Hl. split; [by apply Hls|]. rewrite Hh0. constructor.
  - split; [done|split; [done|]]. intros i rs l os Hp Ho.
    destruct (HQ i rs l os Hp Ho) as (Hlen & g1 & R1 & _ & HJ1). split; [done|].
    destruct R1 as [_ (_ & _ & E1)]. rewrite <- E1 in HJ1. exact HJ1.
Qed.
End executions.

Lemma lookup_replicate_inv {C} n (x y : C) i : replicate n x !! i = Some y -> y = x.
Proof. intros H. by apply lookup_replicate in H as [-> _]. Qed.

Lemma empty_stacks_inv w : 0 <= w -> stacks_inv w (empty_stacks w).
Proof.
  intros Hw. split_and!; cbn; try done.
  - rewrite length_replicate. lia.
  - intros i d _ E. by apply lookup_replicate_inv in E as ->.
Qed.

Lemma create_stack_spec above nt w d k rb set g :
  create_stack nt w d k rb = Some (set, g) -> ds_ok set -> depth set < 2 ^ 16 ->
  p_inv (prot2 (types_2Dc above) set) g /\ hist (subs g) = [] /\ window g = mkWindow (depth set) 1.
Proof.
  unfold create_stack. destruct (calculate _ _ _ _ _ _ _ _ _) as [p|]; [|done].
  intros [= <- <-] (Hw & Hs & _) Hd. cbn in Hw, Hs, Hd.
  assert (E : initialize_global_window (p_depth p) = mkWindow (p_depth p) 1).
  { unfold initialize_global_window. rewrite wrap_small; [done|]. lia. }
  rewrite E. split; [|done]. split; cbn [window subs].
  - cbn [p_inv wprot row_bits types_2Dc max depth]. split; [exists 0; cbn; lia|lia].
  - apply empty_stacks_inv. cbn. lia.
Qed.

(** Executions of the stack as 2Dc-stack.c creates it. *)
Section theorems.
Context {A : Allocator node_t} (above : Z -> Z -> Z) (Habove : forall r h, 0 <= above r h).
Context (nt w d k rb : Z) (set : ds_t) (g0 : state).
Context (Hcreate : create_stack nt w d k rb = Some (set, g0)) (Hset : ds_ok set).
Context (Hdepth : depth set < 2 ^ 16).
Context (opss : list (list op)) (ls : list (tls window_t)) (schedule : list nat).
Context (Hls : forall i l, ls !! i = Some l -> local_ok (types_2Dc above) set i l).
Context (Hbound : depth set + Z.of_nat (length schedule) * (shift set + 1) < 2 ^ 63).

Let final := exec (mkCfg g0 (clients (exec_op (wops := window_2Dc above) set) opss ls)) schedule.

Lemma stack2Dc_run :
  p_inv (prot2 (types_2Dc above) set) (mem final) /\ ~ faulty final /\
  (forall i rs l os, pool final !! i = Some (Ret rs, l) -> opss !! i = Some os ->
     length rs = length os /\
     explains (width set) (zip os rs) (events_of i (hist (subs (mem final))))).
Proof.
  destruct (create_stack_spec above nt w d k rb set g0 Hcreate Hset Hdepth) as (HI & Hh & Hw).
  pose proof (window_2Dc_laws (SS := stacks2) (D := descriptor_t) above Habove) as Hlaws.
  apply (stack2_run (types_2Dc above) set g0); [done|done|done|]. by rewrite Hw.
Qed.

(** C14. In every interleaving no thread dereferences NULL or unallocated memory,
    indexes out of the array or divides by zero, and the window only ever stops
    at the rows [depth], [depth + shift], [depth + 2 * shift], ...  Each
    sub-stack's nodes and count are what replaying the history of successful
    operations leaves there, every pop in it took the top of its sub-stack,
    nothing is lost or duplicated, and the results of each finished thread are
    explained by its own events in program order. *)
Theorem stack2Dc_linearizable :
  ~ faulty final /\ row_ok set (max (window (mem final))) /\ replayed (width set) (subs (mem final)) /\
  (forall i rs l os, pool final !! i = Some (Ret rs, l) -> opss !! i = Some os ->
     length rs = length os /\
     explains (width set) (zip os rs) (events_of i (hist (subs (mem final))))).
Proof.
  destruct stack2Dc_run as (HI & Hnf & HQ). split; [apply Hnf|split; [apply HI|split; [|done]]].
  apply stacks_replayed, HI.
Qed.
End theorems.

(** ** A concrete execution: two threads, two sub-stacks of depth 3, with
    [hops] stored right above [random] *)

Definition example_above (random hops : Z) : Z := Z.max 0 hops.
Definition example_set : ds_t := mkDs 2 2 3 1 6 0.
Definition example_mem : state := mkShared (mkWindow 3 1) (empty_stacks 2).
Definition example_ops : list (list op) := [[DoPush 1 11; DoPop]; [DoPush 2 22; DoPop; DoPop]].
Definition example_schedule : list nat := mjoin (replicate 300 [0; 1]%nat).
Definition example_final : cfg state (tls window_t) (list Z) :=
  exec (mkCfg example_mem (clients (exec_op (A := bump_allocator node_t)
          (wops := window_2Dc example_above) example_set) example_ops
          (tls0 (mkWindow 0 0) <$> seq 0 2))) example_schedule.

(** Both threads run to completion in this schedule. *)
Example stack2Dc_example_finishes :
  (fun pl => match pl.1 with Ret rs => Some rs | _ => None end) <$> pool example_final
    = [Some [1; 11]; Some [1; 22; 0]] /\
  array (subs (mem example_final)) = [mkDesc 0 0; mkDesc 0 0].
Proof. vm_compute. split; reflexivity. Qed.

Lemma example2c_set_ok : ds_ok example_set.
Proof. unfold ds_ok; cbn; lia. Qed.

Lemma tls0_local_ok T set n :
  0 < width set -> forall i l, (tls0 (mkWindow 0 0) <$> seq 0 n) !! i = Some l -> local_ok T set i l.
Proof.
  intros Hw i l H. apply tls0_lookup in H as ->. split; [split; cbn; lia|by left].
Qed.

Lemma stack2Dc_linearizable_witness :
  row_ok example_set (max (window (mem example_final))) /\
  explains 2 [(DoPush 2 22, 1); (DoPop, 22); (DoPop, 0)]
    (events_of 1 (hist (subs (mem example_final)))).
Proof.
  destruct (stack2Dc_linearizable (A := bump_allocator node_t)
    example_above ltac:(unfold example_above; lia) 1 2 3 0 0 example_set example_mem eq_refl
    example2c_set_ok ltac:(cbn; lia) example_ops (tls0 (mkWindow 0 0) <$> seq 0 2)
    example_schedule) as (_ & Hrow & _ & Hex).
  - apply tls0_local_ok. reflexivity.
  - vm_compute. reflexivity.
  - split; [exact Hrow|].
    refine (proj2 (Hex 1%nat [1; 22; 0] _ [DoPush 2 22; DoPop; DoPop] _ _)); vm_compute; reflexivity.
Defined.
