(* ===== verification/Stack2DcSeq.v ===== *)
(** The 2Dc stack used by one thread refines a k-out-of-order stack with
    [k = (2 * depth - 1) * (width - 1)]: a pop returns one of the [k + 1]
    newest elements, and "empty" only when the stack is empty. *)
From S2P Require Import Prelude Conc Random Thread Params StackHeap LifoOrder Shared SubStacks.
From S2P Require Import Window2Dc Solo2Dc Stack2Dc.
From Stdlib Require Import Sorted.

(** ** The specification: a k-out-of-order stack, newest element first *)

Inductive ks_run (bound : Z) : list (op * Z) -> list Z -> Prop :=
| ks_nil : ks_run bound [] []
| ks_push done q k v :
    ks_run bound done q -> ks_run bound (done ++ [(DoPush k v, 1)]) (v :: q)
| ks_pop done pre v post :
    ks_run bound done (pre ++ v :: post) -> Z.of_nat (length pre) <= bound ->
    ks_run bound (done ++ [(DoPop, v)]) (pre ++ post)
| ks_empty done :
    ks_run bound done [] -> ks_run bound (done ++ [(DoPop, 0)]) [].

(** ** The push order *)

(** The elements in the stack as (sub-stack, level, value), newest first. *)
Fixpoint lifo (h : list (nat * event)) : list (Z * Z * Z) :=
  match h with
  | [] => []
  | (_, Push i v) :: h => (i, Z.of_nat (length (contents i h)) + 1, v) :: lifo h
  | (_, Pop i _) :: h => drop_top i (lifo h)
  end.

(** The elements of one sub-stack with their levels. *)
Fixpoint rows (i : Z) (vs : list Z) : list (Z * Z * Z) :=
  match vs with
  | [] => []
  | v :: vs => (i, Z.of_nat (length vs) + 1, v) :: rows i vs
  end.

Lemma lifo_rows h i : legal h -> on i (lifo h) = rows i (contents i h).
Proof.
  induction h as [|[t [j v|j v]] h IH]; cbn [lifo contents legal]; [done|..].
  - intros Hl. rewrite filter_cons. cbn [fst]. destruct (decide (j = i)) as [->|Hne]; [|by apply IH].
    cbn [rows]. by rewrite IH.
  - intros [Hv Hl]. destruct (decide (j = i)) as [->|Hne].
    + rewrite drop_top_same, IH by done. by destruct (contents i h).
    + rewrite drop_top_other by done. by apply IH.
Qed.

Lemma rows_level i vs x : x ∈ rows i vs -> 1 <= x.1.2 <= Z.of_nat (length vs).
Proof.
  induction vs as [|v vs IH]; cbn [rows length]; [by intros ?%elem_of_nil|].
  intros [->|Hx]%elem_of_cons; cbn; [lia|]. specialize (IH Hx). lia.
Qed.

Lemma lifo_level h x :
  legal h -> x ∈ lifo h -> 1 <= x.1.2 <= Z.of_nat (length (contents x.1.1 h)).
Proof.
  intros Hl Hx. apply (rows_level x.1.1). rewrite <- lifo_rows by done.
  by apply list_elem_of_filter.
Qed.

(** [x] is newer than [y] in another sub-stack: it lies less than [depth]
    levels below. *)
Definition above_of (depth : Z) (x y : Z * Z * Z) : Prop :=
  x.1.1 <> y.1.1 -> y.1.2 < x.1.2 + depth.

Record lifo_ok (set : ds_t) (h : list (nat * event)) : Prop := {
  lo_sorted : StronglySorted (above_of (depth set)) (lifo h);
  lo_nodup : NoDup (lifo h).*1;
  lo_range : forall x, x ∈ lifo h -> 0 <= x.1.1 < width set;
}.

Lemma lifo_ok_push set t h i v m :
  lifo_ok set h -> legal h -> 0 <= i < width set ->
  (forall j, 0 <= j < width set -> m - depth set <= Z.of_nat (length (contents j h)) <= m) ->
  lifo_ok set ((t, Push i v) :: h).
Proof.
  intros [Hs Hn Hr] Hl Hi Hc. cbn [lifo]. split; cbn [lifo].
  - constructor; [done|]. apply Forall_forall. intros y Hy _. cbn.
    pose proof (lifo_level h y Hl Hy). pose proof (Hc _ (Hr y Hy)). specialize (Hc i Hi). lia.
  - rewrite fmap_cons. constructor; [|done]. intros Hx.
    apply list_elem_of_fmap in Hx as (y & E & Hy). pose proof (lifo_level h y Hl Hy) as Hlev.
    rewrite <- E in Hlev. cbn in Hlev. lia.
  - intros x [->|Hx]%elem_of_cons; [done|by apply Hr].
Qed.

(** A pop inside the window takes one of the newest elements. *)
Lemma lifo_ok_pop set t h i v m :
  lifo_ok set h -> legal h -> 0 <= i < width set -> 1 <= depth set ->
  head (contents i h) = Some v ->
  (forall j, 0 <= j < width set -> m - depth set <= Z.of_nat (length (contents j h)) <= m) ->
  m - depth set < Z.of_nat (length (contents i h)) ->
  lifo_ok set ((t, Pop i v) :: h) /\
  exists pre post, (lifo h).*2 = pre ++ v :: post /\
    (lifo ((t, Pop i v) :: h)).*2 = pre ++ post /\
    Z.of_nat (length pre) <= (2 * depth set - 1) * (width set - 1).
Proof.
  intros [Hs Hn Hr] Hl Hi Hd Hv Hc Hin. destruct (contents i h) as [|v' vs] eqn:Ec; [done|].
  injection Hv as ->. assert (Eon : on i (lifo h) = (i, Z.of_nat (length vs) + 1, v) :: rows i vs)
    by (rewrite lifo_rows, Ec; done).
  destruct (drop_top_split i _ _ _ Eon) as (pre & post & El & Hpre & Edrop).
  rewrite El in Hs, Hn. destruct (sorted_remove _ _ _ _ Hs) as [Hs' Hab].
  split; [split; cbn [lifo]; rewrite Edrop|].
  - done.
  - rewrite fmap_app in Hn |- *. cbn in Hn. apply NoDup_app in Hn as (H1 & H2 & H3).
    apply NoDup_cons in H3 as [_ H3]. apply NoDup_app. split_and!; [done| |done].
    intros x Hx Hx'. eapply H2; [exact Hx|]. by right.
  - intros x Hx. apply Hr. rewrite El. apply elem_of_app in Hx as [?|?]; set_solver.
  - exists pre.*2, post.*2. split; [by rewrite El, fmap_app|].
    split; [cbn [lifo]; by rewrite Edrop, fmap_app|]. rewrite length_fmap.
    rewrite <- (length_fmap fst pre).
    apply (places_bound (width set) (2 * depth set - 1) (Z.of_nat (length vs) + 1 - depth set) i);
      [done|lia| |].
    + rewrite fmap_app in Hn. by apply NoDup_app in Hn as [? _].
    + intros j k Hjk. apply list_elem_of_fmap in Hjk as ([[j' k'] v'] & [= -> ->] & Hy).
      assert (Hyin : (j', k', v') ∈ lifo h) by (rewrite El; set_solver).
      pose proof (lifo_level h _ Hl Hyin) as Hlev. pose proof (Hr _ Hyin) as Hj. cbn in Hlev, Hj.
      specialize (Hab _ Hy (Hpre _ Hy)). cbn in Hab. pose proof (Hc _ Hj).
      split; [done|split; [by apply (Hpre _ Hy)|]]. cbn [length] in Hin. lia.
Qed.

(** An empty stack has no elements in the push order. *)
Lemma lifo_empty set h :
  lifo_ok set h -> legal h ->
  (forall j, 0 <= j < width set -> Z.of_nat (length (contents j h)) = 0) -> lifo h = [].
Proof.
  intros [_ _ Hr] Hl Hemp. destruct (lifo h) as [|x xs] eqn:E; [done|]. exfalso.
  assert (Hx : x ∈ lifo h) by (rewrite E; set_solver).
  pose proof (lifo_level h x Hl Hx). rewrite <- E in Hr. specialize (Hr x Hx).
  specialize (Hemp _ Hr). lia.
Qed.

(** ** The operations, for a thread alone *)

Section operations.
Context {A : Allocator node_t} (T : types) {wops : WindowOps stacks2 descriptor_t}.
Context {wlaws : WindowLaws T stacks2 descriptor_t} (set : ds_t) {Hset : ds_ok set}.
Context (Hgets : hops_last (get_types T) set).
Notation B := (prot2 T set).
Notation AB := (alone B).
Notation WP := (wprot T set).
Notation history g := (hist (subs g)).
Implicit Types (g : state) (l : tls window_t).

(** What holds between two operations. *)
Record seq_ok g l : Prop := mkSeqOk {
  so_inv : seq_inv T set g;
  so_lifo : lifo_ok set (history g);
  so_index : index_ok (width set) 0 l;
  so_sync : in_sync set g l;
}.

(** Only nodes private to the thread have changed. *)
Lemma seq_inv_heap2 g m : seq_inv T set g -> p_inv B (set_heap m g) -> seq_inv T set (set_heap m g).
Proof. intros [_ Hc] HI. by split. Qed.

Lemma stack2_exact g i d :
  seq_inv T set g -> 0 <= i < width set -> lookup_desc i g = Some d ->
  chain (heap (subs g)) (node d) (contents i (history g)) /\ legal (history g).
Proof.
  intros [[_ Hs] _] Hi E. pose proof Hs as (_ & _ & Hl & _).
  split; [|done]. by apply (sub_inv (width set) (subs g) i d Hs (proj1 Hi)).
Qed.

(** The counts after an event. *)
Lemma counts_in_push g i v s :
  counts_in set g -> 0 <= i < width set -> hist s = (0%nat, Push i v) :: history g ->
  Z.of_nat (length (contents i (history g))) < max (window g) ->
  counts_in set (set_subs s g).
Proof.
  intros Hc Hi E Hlt j Hj. specialize (Hc j Hj). cbn [cnt stack_proto subs set_subs window] in *.
  rewrite E. cbn [contents]. destruct (decide (i = j)) as [->|]; [cbn [length]|]; lia.
Qed.

Lemma counts_in_pop g i v s :
  counts_in set g -> 0 <= i < width set -> hist s = (0%nat, Pop i v) :: history g ->
  max (window g) - depth set < Z.of_nat (length (contents i (history g))) ->
  counts_in set (set_subs s g).
Proof.
  intros Hc Hi E Hlt j Hj. specialize (Hc j Hj). cbn [cnt stack_proto subs set_subs window] in *.
  rewrite E. cbn [contents]. destruct (decide (i = j)) as [->|]; [|lia].
  destruct (contents j (history g)); cbn [tail length] in *; lia.
Qed.

Lemma push_alone k v (Q : Z -> state -> tls window_t -> Prop) g l :
  seq_ok g l -> max (window g) + 2 * shift set < 2 ^ row_bits T ->
  Z.of_nat (length (history g)) < 2 ^ 63 ->
  (forall g' l' i, seq_ok g' l' -> max (window g') <= max (window g) + shift set ->
     history g' = (0%nat, Push i v) :: history g -> Q 1 g' l') ->
  wp AB 0 (push set k v) Q g l.
Proof.
  intros [HI Hlo Hl Hsync] Hlim Hlen HQ. pose proof Hset as (Hw & Hs & _). unfold push. wp_local.
  apply (wp_alloc_node WP (width set) (2 ^ 63) AB 0); [apply Hl|].
  intros a g1 R1 _ g2 I2 _ P2 E2. unfold g2 in *. rewrite (still_alone T set _ _ R1) in *.
  clear g1 R1 g2. set (g2 := set_heap _ g) in *.
  assert (HI2 : seq_inv T set g2) by (by apply seq_inv_heap2).
  apply (wp_while AB 0 _ _ _ _ (fun _ _ g' l' => g' = g2 /\ l' = l) 0%nat); [done|].
  intros n c g' l' [-> ->]. unfold push_body. wp_local.
  apply (w_put_window_alone set Hset); [done|cbn; lia|done|exact Hsync|].
  intros d w l2 Hl2 Ew Hup Hex Ec Hlt. wp_local.
  pose proof (seq_inv_up T set g2 w HI2 ltac:(cbn; lia) Hup) as HI3.
  assert (Hmax : max w <= max (window g) + shift set).
  { destruct Hup as [->|[-> _]]; [cbn; lia|]. pose proof HI as [[[Hrow _] _] _].
    pose proof (row_ok_range set _ Hrow). cbn. rewrite wrap_small by lia. lia. }
  set (g3 := set_window w g2) in *.
  eapply (wp_store_node WP (width set) (2 ^ 63) AB 0); [exact P2|exact E2|].
  intros g' R4 _ _ g4 I4 _ P4 E4. unfold g4 in *. rewrite (still_alone T set _ _ R4) in *.
  clear g' R4 g4. set (g4 := set_heap _ g3) in *. cbn [key val] in E4.
  pose proof (seq_inv_heap2 g3 _ HI3 I4) as HI4. fold g4 in HI4.
  wp_locals. apply (wp_cae_desc WP (width set) (2 ^ 63) AB 0 _ _ _ _ v); [apply Hl2|apply Hl2|..].
  - intros g5 R5 I5 _ E5. rewrite (still_alone T set _ _ R5) in *.
    apply (push_allowed T set 0 AB _ g4 _ d a k v); try done; [|apply Hl2].
    split; cbn; lia.
  - intros g5 R5 _ E5 g6 I6. unfold g6 in *. rewrite (still_alone T set _ _ R5) in *. wp_locals.
    pose proof HI4 as [[_ (_ & _ & Hleg & _)] Hc4].
    apply (HQ _ _ (thread_index l2)); [|cbn; lia|done]. split.
    + split; [exact I6|]. apply (counts_in_push g4 (thread_index l2) v); [done|apply Hl2|done|].
      rewrite Ec in Hlt. exact Hlt.
    + eapply (lifo_ok_push set 0 (history g4)); [done|done|apply Hl2|]. intros j Hj.
      apply (Hc4 j Hj).
    + done.
    + right. left. done.
  - intros g5 R5 _ Hne. rewrite (still_alone T set _ _ R5) in Hne. by destruct Hne.
Qed.

Lemma pop_alone (Q : Z -> state -> tls window_t -> Prop) g l :
  seq_ok g l -> max (window g) + depth set < 2 ^ row_bits T ->
  Z.of_nat (length (history g)) < 2 ^ 63 ->
  (forall v i pre post g' l', seq_ok g' l' -> max (window g') <= max (window g) ->
     history g' = (0%nat, Pop i v) :: history g ->
     (lifo (history g)).*2 = pre ++ v :: post -> (lifo (history g')).*2 = pre ++ post ->
     Z.of_nat (length pre) <= (2 * depth set - 1) * (width set - 1) -> Q v g' l') ->
  (forall g' l', seq_ok g' l' -> max (window g') <= max (window g) -> history g' = history g ->
     lifo (history g) = [] -> Q 0 g' l') ->
  wp AB 0 (pop set) Q g l.
Proof.
  intros [HI Hlo Hl Hsync] Hlim Hlen HQ HQ0. pose proof Hset as (Hw & Hs & Hd & _).
  pose proof (row_bits_ok (T := T)) as Hrb. unfold pop.
  apply (wp_while AB 0 _ _ _ _ (fun _ _ g' l' => g' = g /\ l' = l) 0%nat); [done|].
  intros n c g' l' [-> ->]. unfold pop_body. wp_local.
  apply (w_get_window_alone set Hset); [done..|].
  intros d w l2 Hl2 Hsync2 Hdown Hex Ec Hcase.
  pose proof (seq_inv_down T set g w HI Hdown) as HI2.
  assert (Hmax : max w <= max (window g)).
  { destruct Hdown as [->|(-> & Hlt & _)]; [lia|].
    destruct (window_down_max T set g (proj1 HI) Hlt) as [-> _]. lia. }
  set (g2 := set_window w g) in *.
  destruct (stack2_exact g2 _ d HI2 (proj2 Hl2) Hex) as [Hch Hleg].
  cbn [d_count stack_ops cnt stack_proto] in Ec, Hcase.
  destruct (Z.eqb_spec (node d) 0) as [Hz|Hnz]; cbn [negb]; wp_locals.
  { assert (Hlow : count d = 0).
    { rewrite Hz in Hch. destruct (contents (thread_index l2) (history g2)) eqn:E; [|by destruct Hch].
      rewrite Ec. change (history g) with (history g2). by rewrite E. }
    apply HQ0; [by split|done|done|].
    apply (lifo_empty set (history g)); [done|done|]. intros j Hj.
    destruct Hcase as [Hgt|Hemp]; [|by apply Hemp].
    exfalso. destruct HI2 as [[[Hrow _] _] _]. pose proof (row_ok_range set _ Hrow) as Hge.
    cbn in Hge. lia. }
  destruct (ptr_ok_node _ _ (chain_ptr_ok _ _ _ Hch) Hnz) as (nd & E2 & P2).
  destruct (chain_cons _ _ _ _ Hch Hnz E2) as (vs & Econt & _). cbn [n_val node_ops] in Econt.
  assert (Hin : max w - depth set < Z.of_nat (length (contents (thread_index l2) (history g2)))).
  { destruct Hcase as [Hgt|Hemp]; [change (history g2) with (history g); by rewrite <- Ec|]. specialize (Hemp _ (proj2 Hl2)).
    cbn in Hemp. change (history g) with (history g2) in Hemp. rewrite Econt in Hemp. done. }
  eapply (wp_load_node WP (width set) (2 ^ 63) AB 0); [exact P2|exact E2|].
  intros g' R3 _ _ _. rewrite (still_alone T set _ _ R3). clear g' R3. wp_locals.
  apply (wp_cae_desc WP (width set) (2 ^ 63) AB 0 _ _ _ _ (val nd)); [apply Hl2|apply Hl2|..].
  - intros g4 R4 I4 _ E4. rewrite (still_alone T set _ _ R4) in *.
    apply (pop_allowed T set 0 AB _ g2); try done; [|apply Hl2]. split; cbn; [|lia].
    destruct HI as [[_ _] _]. lia.
  - intros g4 R4 _ E4 g5 I5. unfold g5 in *. rewrite (still_alone T set _ _ R4) in *.
    wp_local.
    eapply (wp_load_node WP (width set) (2 ^ 63) AB 0); [exact P2|exact E2|].
    intros g6 R6 _ _ _. rewrite (still_alone T set _ _ R6). wp_locals.
    destruct (lifo_ok_pop set 0 (history g2) (thread_index l2) (val nd) (max w))
      as (Hlo' & pre & post & Epre & Epost & Hb);
      [done|done|apply Hl2|lia|by rewrite Econt|by apply HI2|done|].
    eapply (HQ _ (thread_index l2) pre post); [|done|done|exact Epre|exact Epost|exact Hb].
    split.
    + split; [exact I5|].
      apply (counts_in_pop g2 (thread_index l2) (val nd)); [apply HI2|apply Hl2|done|exact Hin].
    + exact Hlo'.
    + done.
    + destruct Hsync2 as [?|[?|[_ Hemp]]]; [by left|by right; left|].
      exfalso. specialize (Hemp _ (proj2 Hl2)). cbn in Hemp.
      change (history g) with (history g2) in Hemp. rewrite Econt in Hemp. done.
  - intros g4 R4 _ Hne. rewrite (still_alone T set _ _ R4) in Hne. by destruct Hne.
Qed.
End operations.

(** ** Whole runs *)

Lemma rows_length i vs : length (rows i vs) = length vs.
Proof. induction vs as [|v vs IH]; cbn; [done|by rewrite IH]. Qed.

Lemma lifo_total set h :
  0 <= width set -> lifo_ok set h -> legal h ->
  stacks_total h (width set) = Z.of_nat (length (lifo h)).
Proof.
  intros Hw [_ _ Hr] Hl. rewrite <- (on_total (width set)) by done.
  apply sum_upto_ext. intros i Hi. by rewrite lifo_rows, rows_length by done.
Qed.

Section runs.
Context {A : Allocator node_t} (T : types) {wops : WindowOps stacks2 descriptor_t}.
Context {wlaws : WindowLaws T stacks2 descriptor_t} (set : ds_t) {Hset : ds_ok set}.
Context (Hgets : hops_last (get_types T) set).
Notation B := (prot2 T set).
Context (g0 : state) (HI0 : p_inv B g0) (Hh0 : hist (subs g0) = []).
Context (Hmax0 : max (window g0) = depth set).
Context (ops : list op) (l0 : tls window_t).
Context (Hl0 : index_ok (width set) 0 l0) (Hsync0 : in_sync set g0 l0).
Context (Hbound : (Z.of_nat (length ops) + 3) * depth set < 2 ^ (row_bits T - 1)).

Definition seq_account (done : list (op * Z)) (g : state) (l : tls window_t) : Prop :=
  ks_run ((2 * depth set - 1) * (width set - 1)) done (lifo (hist (subs g))).*2 /\
  seq_ok T set g l /\
  max (window g) <= depth set + Z.of_nat (length done) * shift set /\
  Z.of_nat (length (hist (subs g))) <= Z.of_nat (length done).

Lemma seq_account0 : seq_account [] g0 l0.
Proof.
  pose proof Hset as (_ & Hs & _).
  split; [rewrite Hh0; constructor|]. split; [|rewrite Hh0, Hmax0; cbn; lia]. split.
  - split; [done|]. intros i Hi. cbn. rewrite Hh0, Hmax0. cbn. lia.
  - rewrite Hh0. split; [constructor|constructor|by intros x ?%elem_of_nil].
  - done.
  - done.
Qed.

Lemma stack2_runs :
  exists n rs g l,
    (forall m, (n <= m)%nat -> run m (run_ops (exec_op set) ops) g0 l0 = Finished rs g l) /\
    length rs = length ops /\ seq_account (zip ops rs) g l.
Proof.
  pose proof Hset as (Hw & Hs & Hd & _). pose proof (row_bits_ok (T := T)) as Hrb.
  assert (E : 2 ^ row_bits T = 2 * 2 ^ (row_bits T - 1))
    by (rewrite <- Z.pow_succ_r by lia; f_equal; lia).
  assert (2 ^ (row_bits T - 1) <= 2 ^ 63) by (apply Z.pow_le_mono_r; lia).
  destruct (alone_run B (run_ops (exec_op set) ops) (fun rs g l =>
      length rs = length ops /\ seq_account ([] ++ zip ops rs) g l) g0 l0)
    as (n & rs & g & l & Hrun & [Hlen Hacc] & _); [done| |by exists n, rs, g, l].
  apply (wp_run_ops_upto (alone B) 0%nat (exec_op set) (length ops) seq_account);
    [|cbn; lia|apply seq_account0].
  intros done o g l Hlt (Hrs & Hok & Hm & Hlen).
  assert (Hlen' : forall o' r, Z.of_nat (length (done ++ [(o', r)] : list (op * Z)))
    = Z.of_nat (length done) + 1) by (intros; rewrite length_app; cbn [length]; lia).
  destruct o as [k' v|]; cbn [exec_op].
  - apply (push_alone T set); [done|nia|nia|]. intros g' l' i Hok' Hm' Eh.
    unfold seq_account. rewrite Hlen'. split; [|split; [done|split; [lia|]]].
    + rewrite Eh. cbn. by constructor.
    + rewrite Eh. cbn [length]. lia.
  - apply (pop_alone T set Hgets); [done|nia|nia|..].
    + intros v i pre post g' l' Hok' Hm' Eh Epre Epost Hb. rewrite Epre in Hrs.
      unfold seq_account. rewrite Hlen', Epost. split; [by constructor|].
      split; [done|split; [lia|]]. rewrite Eh. cbn [length]. lia.
    + intros g' l' Hok' Hm' Eh Eemp. rewrite Eemp in Hrs.
      unfold seq_account. rewrite Hlen', Eh, Eemp. split; [by constructor|].
      split; [done|split; [lia|]]. lia.
Qed.

Lemma stack2_size_exact done g l :
  seq_account done g l -> Z.of_nat (length done) < 2 ^ 63 ->
  exists n g' l', forall m, (n <= m)%nat ->
    run m (stack_size set) g l = Finished (Z.of_nat (length (lifo (hist (subs g))))) g' l'.
Proof.
  clear ops l0 Hl0 Hsync0 Hbound g0 HI0 Hh0 Hmax0.
  intros (_ & [[HI _] Hlo Hl _] & _ & Hlen) Hlim. pose proof Hset as (Hw & _).
  pose proof HI as [_ (_ & _ & Hleg & _)].
  assert (Et := lifo_total set _ ltac:(lia) Hlo Hleg).
  assert (Hle : forall h, (length (lifo h) <= length h)%nat).
  { intros h. induction h as [|[t [i v|i v]] h IH]; cbn; [done|lia|].
    assert (length (drop_top i (lifo h)) <= length (lifo h))%nat; [|lia].
    generalize (lifo h). intros xs. induction xs as [|x xs IHx]; cbn; [done|].
    case_decide; cbn; lia. }
  specialize (Hle (hist (subs g))).
  destruct (alone_run B (stack_size set)
    (fun r _ _ => r = Z.of_nat (length (lifo (hist (subs g))))) g l)
    as (n & r & g' & l' & Hrun & -> & _); [done| |by exists n, g', l'].
  unfold stack_size. rewrite <- Et.
  apply (stacks_size_wp (wprot T set) (width set) (2 ^ 63) (alone B) 0 (still_alone T set));
    [lia|done|lia|done].
Qed.
End runs.

(** ** The stack as 2Dc-stack.c creates it *)

(** C13. Refinement of the k-out-of-order stack: for one thread, every run
    terminates; a pop returns one of the [(2 * depth - 1) * (width - 1) + 1]
    newest elements, and 0 for an empty stack only when the stack is empty;
    the bound is within the relaxation bound the stack was created for in the
    modes 1, 2 and 3; [stack_size] then returns the number of elements.  The
    thread's variables are zero-initialised, up to its index and seeds; the
    bytes above [random] may be anything that does not let a random hop follow
    a linear one. *)
Theorem stack2Dc_k_relaxed {A : Allocator node_t} above nt w d k rb set g0 ops l0 :
  (forall r h, 0 <= above r h) -> hops_last (get_types (types_2Dc above)) set ->
  create_stack nt w d k rb = Some (set, g0) -> ds_ok set -> depth set < 2 ^ 16 ->
  index_ok (width set) 0 l0 -> thread_Window l0 = mkWindow 0 0 ->
  (Z.of_nat (length ops) + 3) * depth set < 2 ^ 63 ->
  exists n rs g l q,
    (forall m, (n <= m)%nat ->
       run m (run_ops (exec_op (wops := window_2Dc above) set) ops) g0 l0 = Finished rs g l) /\
    length rs = length ops /\
    ks_run ((2 * depth set - 1) * (width set - 1)) (zip ops rs) q /\
    (args_ok 2 64 64 nt w d rb -> 1 <= k <= 3 ->
     (2 * depth set - 1) * (width set - 1) <= relaxation_bound set <= rb) /\
    exists n' g' l', forall m, (n' <= m)%nat ->
      run m (stack_size set) g l = Finished (Z.of_nat (length q)) g' l'.
Proof.
  intros Habove Hlast Hcreate Hset Hdepth Hl0 Hw0 Hbound.
  destruct (create_stack_spec above nt w d k rb set g0 Hcreate Hset Hdepth) as (HI & Hh & Hw).
  pose proof (window_2Dc_laws (SS := stacks2) (D := descriptor_t) above Habove) as Hlaws.
  pose proof Hset as (Hwd & Hs & _).
  destruct (stack2_runs (types_2Dc above) (wops := window_2Dc above) set Hlast g0 HI Hh
    ltac:(by rewrite Hw) ops l0 Hl0)
    as (n & rs & g & l & Hrun & Hlen & Hacc).
  - left. rewrite Hw, Hw0. cbn. lia.
  - exact Hbound.
  - exists n, rs, g, l, (lifo (hist (subs g))).*2.
    split; [done|split; [done|split; [apply Hacc|split]]].
    + intros Hargs Hk.
      destruct (calculate_bound 2 64 64 (product_u64 2) nt w d k rb Hargs Hk) as (p & E & Hp).
      revert Hcreate. unfold create_stack. rewrite E. intros [= <- _]. cbn. lia.
    + rewrite length_fmap. apply (stack2_size_exact (types_2Dc above) set (zip ops rs)); [done|].
      rewrite length_zip_with. nia.
Qed.

Definition example_seq_ops : list op :=
  [DoPush 1 11; DoPush 2 22; DoPush 3 33; DoPop; DoPop; DoPop; DoPop].

Lemma stack2Dc_k_relaxed_witness :
  exists n rs g l q,
    (forall m, (n <= m)%nat ->
       run m (run_ops (exec_op (A := bump_allocator node_t) (wops := window_2Dc example_above)
                (mkDs 2 2 3 1 6 1)) example_seq_ops)
         example_mem (tls0 (mkWindow 0 0) 0) = Finished rs g l) /\
    length rs = 7%nat /\
    ks_run ((2 * 3 - 1) * (2 - 1)) (zip example_seq_ops rs) q /\
    (args_ok 2 64 64 1 2 3 6 -> 1 <= 1 <= 3 -> (2 * 3 - 1) * (2 - 1) <= 6 <= 6) /\
    exists n' g' l', forall m, (n' <= m)%nat ->
      run m (stack_size (mkDs 2 2 3 1 6 1)) g l = Finished (Z.of_nat (length q)) g' l'.
Proof.
  apply (stack2Dc_k_relaxed (A := bump_allocator node_t) example_above 1 2 3 1 6
    (mkDs 2 2 3 1 6 1) example_mem example_seq_ops (tls0 (mkWindow 0 0) 0)).
  - unfold example_above; lia.
  - intros r h Hr Hh. unfold hop_random, example_above. cbn.
    rewrite !Z.ltb_ge. lia.
  - reflexivity.
  - unfold ds_ok; cbn; lia.
  - cbn; lia.
  - split; cbn; lia.
  - reflexivity.
  - vm_compute. reflexivity.
Defined.
