(* ===== verification/Stack2DcOpt.v ===== *)
(** src/2Dc-stack_optimized: 2Dc-window_optimized.c, the window of 2Dc-window.c
    with narrower types and an assertion where the original has a guard, and
    2Dc-stack_optimized.c, the stack over it. *)
From S2P Require Import Prelude Conc Random Thread Params StackHeap Shared SubStacks.
From S2P Require Import Window2Dc Solo2Dc Stack2Dc Stack2DcSeq.

(** ** The window *)

(** types.h: [row_t] 32 bits, [version_t], [width_t] and [depth_t] 16 bits; the
    local variables are [width_t hops] and [uint8_t random], as [hop] expects. *)
Definition hop_types_opt : hop_types := mkHopTypes 16 8 (fun _ _ => 0).
Definition types_opt : types := mkTypes 32 16 hop_types_opt hop_types_opt.

Section code.
Context {SS D : Type} {ops : SubOps SS D}.
Notation M := (M window_t SS).

Definition put_window (set : ds_t) (contention : bool) : M D :=
  Window2Dc.put_window types_opt set contention.

(** One iteration of the [while(1)] of [get_window]; both exits are [break]s to
    the [return descriptor]. *)
Definition get_window_body (set : ds_t) '((hops, random, empty) : Z * Z * bool)
    : M (Z * Z * bool + D) :=
  let* index := get thread_index in
  let* descriptor := read_descriptor index in
  let* gversion := load_var (fun g => version (window g)) in
  let* tw := get thread_Window in
  if negb (gversion =? version tw) then
    read_window ;;;
    continue (0, random, true)
  else if u32 (max tw - depth set) <? d_count descriptor then
    break descriptor
  else if negb (hops =? width set) then
    let empty := if 0 <? d_count descriptor then false else empty in
    let* (index, random, hops) := hop hop_types_opt set index random hops in
    put (set_thread_index index) ;;;
    continue (hops, random, empty)
  else if (empty : bool) then
    break descriptor
  else
    let new_window := mkWindow (u32 (max tw - shift set)) (u16 (version tw + 1)) in
    assert_ (depth set <=? max new_window) ;;;
    shift_window true new_window ;;;
    continue (0, random, true).

Definition get_window (set : ds_t) (contention : bool) : M D :=
  enter_window set contention ;;;
  while (get_window_body set) (0, 0, true).
End code.

Definition variant_opt : get_variant :=
  mkVariant (fun set tw count => u32 (max tw - depth set) <? count) false.

#[export] Instance types_opt_ok : TypesOk types_opt.
Proof. by split; cbn; try lia; split_and!. Qed.

Section window_opt.
Context {SS D : Type} {ops : SubOps SS D} {proto : SubProto SS D} {laws : SubLaws SS D}.

Lemma get_window_opt_body_ok set {Hset : ds_ok set} :
  get_body_ok types_opt variant_opt set (get_window_body (SS := SS) (D := D) set).
Proof.
  intros P t runs hops random empty Q g l Hl Hh Hr Hsync Hcase.
  unfold get_window_body. wp_local. wp_local.
  apply (wp_read_synced types_opt set P t (fun descriptor tw => _)); [done|done|].
  intros d g1 R1 I1 Hs He Hv. specialize (Hcase d g1 R1 I1 Hs He Hv).
  cbn [in_window guarded variant_opt] in Hcase.
  destruct (u32 (max (thread_Window l) - depth set) <? d_count d); [by wp_locals|].
  destruct (Z.eqb_spec hops (width set)) as [Ew|Ew]; cbn [negb] in *; [destruct empty|].
  - by wp_locals.
  - destruct Hcase as [Ha Hcase]. wp_local. apply wp_assert.
    { apply Z.leb_le. by apply Ha. }
    wp_local. eapply wp_mono; [|exact Hcase]. intros [] g2 l2 HQ. by wp_locals.
  - wp_local. eapply (wp_hop2c set P t); [apply types_opt_ok|apply Hl|lia|lia|..].
    + intros r s st Hrr Hlt E. wp_locals. apply Hcase. left. split_and!; (done || lia).
    + intros st E. wp_locals. apply (Hcase _ _ _ (seeds l) st). by right.
Qed.

(** The assertion holds even of a copy of the window that is still 0. *)
Lemma assert_opt set : ds_ok set -> assert_ok types_opt variant_opt set.
Proof.
  intros Hset. pose proof Hset as (_ & Hs & Hd & _). right. intros tw c Hcopy Hc Hin.
  cbn in Hin |- *. apply Z.ltb_ge in Hin.
  destruct Hcopy as [Ez|[Hrow Hb]].
  - rewrite Ez. replace (0 - shift set) with (2 ^ 32 - shift set + (-1) * 2 ^ 32) by lia.
    rewrite wrap_add_multiple, wrap_small by lia. lia.
  - pose proof (row_ok_range set _ Hrow). cbn in Hb. rewrite wrap_small in Hin by lia.
    destruct (row_ok_down set _ Hrow ltac:(lia)) as [? _]. rewrite wrap_small by lia. lia.
Qed.

Lemma in_window_opt set : ds_ok set -> in_window_ok types_opt set variant_opt.
Proof.
  intros Hset tw c Hrow Hlim Hc. pose proof (row_ok_range set _ Hrow).
  destruct Hset as (_ & Hs & Hd & _). cbn in Hlim |- *. by rewrite wrap_small by lia.
Qed.

Definition window_opt : WindowOps SS D :=
  {| w_put_window := put_window; w_get_window := get_window |}.

Lemma window_opt_laws : WindowLaws types_opt SS D (wops := window_opt).
Proof.
  split; cbn [w_put_window w_get_window window_opt].
  - apply _.
  - intros set Hset t c Q g l. by apply put_window2_wp.
  - intros set Hset t c Q g l. apply (get_window2_wp types_opt set t variant_opt).
    + by apply get_window_opt_body_ok.
    + by apply assert_opt.
  - intros set Hset c Q g l. apply put_window_alone; [apply _|done|by intros r h].
  - intros set Hset c Q g l Hlast.
    apply (get_window_alone types_opt set Hlast variant_opt (get_window_body set)).
    + by apply get_window_opt_body_ok.
    + by apply in_window_opt.
Qed.
End window_opt.

(** ** The stack *)

Definition create_node {A : Allocator node_t} (k v nxt : Z) : MS Z := Stack2Dc.create_node k v nxt.
Definition stack_cae (i : Z) (d new : descriptor_t) (push : bool) : MS bool :=
  Stack2Dc.stack_cae i d new push.
Definition push {A : Allocator node_t} (set : ds_t) (k v : Z) : MS Z :=
  Stack2Dc.push (wops := window_opt) set k v.
Definition pop (set : ds_t) : MS Z := Stack2Dc.pop (wops := window_opt) set.
Definition stack_size (set : ds_t) : MS Z := stacks_size (width set).
Definition exec_op {A : Allocator node_t} (set : ds_t) (o : op) : MS Z :=
  match o with DoPush k v => push set k v | DoPop => pop set end.

(** [create_stack]: the entries of the array past [width], up to [max_width],
    are not initialised and never read. *)
Definition create_stack (num_threads width depth max_width k_mode relaxation_bound : Z)
    : option (ds_t * state) :=
  p ← calculate 2 16 16 (product_int 2) num_threads width depth k_mode relaxation_bound;
  let set := mkDs 2 (p_width p) (p_depth p) (u16 (Z.shiftr (p_depth p + 1) 1))
               (p_bound p) k_mode in
  Some (set, mkShared (mkWindow (p_depth p) 1) (empty_stacks (p_width p))).

(** [update_depth] and [update_width] on the fields of the structure: a loop
    until the compare-and-exchange succeeds. *)
Definition set_depth (v : Z) (set : ds_t) : ds_t :=
  mkDs (random_hops set) (width set) v (shift set) (relaxation_bound set) (k_mode set).
Definition set_width (v : Z) (set : ds_t) : ds_t :=
  mkDs (random_hops set) v (depth set) (shift set) (relaxation_bound set) (k_mode set).

Definition cae_field (f : ds_t -> Z) (upd : Z -> ds_t -> ds_t) (old new : Z)
    : prog ds_t unit (bool * Z) :=
  Act (fun set l =>
    if decide (f set = old) then Some ((true, old), upd new set, l)
    else Some ((false, f set), set, l)) Ret.

Definition update_depth (new : Z) : prog ds_t unit Z :=
  let* old_depth := load_var depth in
  while (fun old_depth =>
    let* (ok, old_depth) := cae_field depth set_depth old_depth new in
    if (ok : bool) then break old_depth else continue old_depth) old_depth.

Definition update_width (new : Z) : prog ds_t unit Z :=
  let* old_width := load_var width in
  let* now := load_var width in
  assert_ (new <=? now) ;;;
  while (fun old_width =>
    let* (ok, old_width) := cae_field width set_width old_width new in
    if (ok : bool) then break old_width else continue old_width) old_width.

Lemma create_stack_opt_spec nt w d mw k rb set g :
  create_stack nt w d mw k rb = Some (set, g) -> ds_ok set ->
  p_inv (prot2 types_opt set) g /\ hist (subs g) = [] /\ window g = mkWindow (depth set) 1.
Proof.
  unfold create_stack. destruct (calculate _ _ _ _ _ _ _ _ _) as [p|]; [|done].
  intros [= <- <-] (Hw & Hs & Hd & _). cbn in Hw, Hs, Hd.
  split; [|done]. split; cbn [window subs].
  - cbn [p_inv wprot row_bits types_opt max depth]. split; [exists 0; cbn; lia|lia].
  - apply empty_stacks_inv. cbn. lia.
Qed.

(** ** Results *)

Section theorems.
Context {A : Allocator node_t} (nt w d mw k rb : Z) (set : ds_t) (g0 : state).
Context (Hcreate : create_stack nt w d mw k rb = Some (set, g0)) (Hset : ds_ok set).
Context (opss : list (list op)) (ls : list (tls window_t)) (schedule : list nat).
Context (Hls : forall i l, ls !! i = Some l -> local_ok types_opt set i l).
Context (Hbound : depth set + Z.of_nat (length schedule) * (shift set + 1) < 2 ^ 31).

Let final := exec (mkCfg g0 (clients (exec_op set) opss ls)) schedule.

Lemma stack2Dc_opt_run :
  p_inv (prot2 types_opt set) (mem final) /\ ~ faulty final /\
  (forall i rs l os, pool final !! i = Some (Ret rs, l) -> opss !! i = Some os ->
     length rs = length os /\
     explains (width set) (zip os rs) (events_of i (hist (subs (mem final))))).
Proof.
  destruct (create_stack_opt_spec nt w d mw k rb set g0 Hcreate Hset) as (HI & Hh & Hw).
  pose proof (window_opt_laws (SS := stacks2) (D := descriptor_t)) as Hlaws.
  apply (stack2_run types_opt (wops := window_opt) set g0); [done|done|done|]. by rewrite Hw.
Qed.

(** C18. In every interleaving [assert(new_window.max >= set->depth)] holds, as
    nothing else goes wrong: no thread dereferences NULL or unallocated memory
    or indexes out of the array; although the versions of the window wrap
    around at 2^16.  Every interleaving is a run of [width] ordinary stacks, and
    the results of each finished thread are explained by its own events in
    program order. *)
Theorem stack2Dc_opt_linearizable :
  ~ faulty final /\ row_ok set (max (window (mem final))) /\ replayed (width set) (subs (mem final)) /\
  (forall i rs l os, pool final !! i = Some (Ret rs, l) -> opss !! i = Some os ->
     length rs = length os /\
     explains (width set) (zip os rs) (events_of i (hist (subs (mem final))))).
Proof.
  destruct stack2Dc_opt_run as (HI & HF & HQ). split; [done|split; [apply HI|split; [|done]]].
  apply stacks_replayed, HI.
Qed.
End theorems.

(** C15. Refinement of the k-out-of-order stack by the optimized stack, for one
    thread: every run terminates, a pop returns one of the
    [(2 * depth - 1) * (width - 1) + 1] newest elements, "empty" is only
    answered when the stack is empty, the bound is within the relaxation bound
    asked for, and [stack_size] is exact. *)
Theorem stack2Dc_opt_k_relaxed {A : Allocator node_t} nt w d mw k rb set g0 ops l0 :
  create_stack nt w d mw k rb = Some (set, g0) -> ds_ok set ->
  index_ok (width set) 0 l0 -> thread_Window l0 = mkWindow 0 0 ->
  (Z.of_nat (length ops) + 3) * depth set < 2 ^ 31 ->
  exists n rs g l q,
    (forall m, (n <= m)%nat -> run m (run_ops (exec_op set) ops) g0 l0 = Finished rs g l) /\
    length rs = length ops /\
    ks_run ((2 * depth set - 1) * (width set - 1)) (zip ops rs) q /\
    (args_ok 2 16 16 nt w d rb -> 1 <= k <= 3 ->
     (2 * depth set - 1) * (width set - 1) <= relaxation_bound set <= rb) /\
    exists n' g' l', forall m, (n' <= m)%nat ->
      run m (stack_size set) g l = Finished (Z.of_nat (length q)) g' l'.
Proof.
  intros Hcreate Hset Hl0 Hw0 Hbound.
  destruct (create_stack_opt_spec nt w d mw k rb set g0 Hcreate Hset) as (HI & Hh & Hw).
  pose proof (window_opt_laws (SS := stacks2) (D := descriptor_t)) as Hlaws.
  pose proof Hset as (Hwd & Hs & _).
  destruct (stack2_runs types_opt (wops := window_opt) set ltac:(by intros r h) g0 HI Hh
    ltac:(by rewrite Hw) ops l0 Hl0)
    as (n & rs & g & l & Hrun & Hlen & Hacc).
  - left. rewrite Hw, Hw0. cbn. lia.
  - exact Hbound.
  - exists n, rs, g, l, (lifo (hist (subs g))).*2.
    split; [done|split; [done|split; [apply Hacc|split]]].
    + intros Hargs Hk.
      destruct (calculate_bound 2 16 16 (product_int 2) nt w d k rb Hargs Hk) as (p & E & Hp).
      revert Hcreate. unfold create_stack. rewrite E. intros [= <- _]. cbn. lia.
    + rewrite length_fmap. apply (stack2_size_exact types_opt set (zip ops rs)); [done|].
      rewrite length_zip_with. nia.
Qed.

(** C19. [update_depth] replaces the depth and returns the old one, and changes
    nothing else; [update_width] does so for a width that is not larger, and
    fails its assertion for a larger one. *)
Theorem update_dimensions_spec new set :
  (exists n, forall m, (n <= m)%nat ->
     run m (update_depth new) set tt = Finished (depth set) (set_depth new set) tt) /\
  (new <= width set -> exists n, forall m, (n <= m)%nat ->
     run m (update_width new) set tt = Finished (width set) (set_width new set) tt) /\
  (width set < new -> exists n, forall m, (n <= m)%nat ->
     run m (update_width new) set tt = Crashed).
Proof.
  assert (Hmore : forall (p : prog ds_t unit Z) n r, (forall m, run (n + m) p set tt = r) ->
    exists n', forall m, (n' <= m)%nat -> run m p set tt = r).
  { intros p n r H. exists n. intros m Hm. replace m with (n + (m - n))%nat by lia. apply H. }
  split; [|split].
  - apply (Hmore _ 4%nat). intros m. cbn. unfold cae_field. cbn. by rewrite decide_True.
  - intros Hle. apply (Hmore _ 6%nat). intros m. cbn. rewrite (proj2 (Z.leb_le _ _) Hle). cbn.
    by rewrite decide_True.
  - intros Hlt. apply (Hmore _ 4%nat). intros m. cbn. by rewrite (proj2 (Z.leb_gt _ _) Hlt).
Qed.

(** ** Concrete executions *)

Definition opt_set : ds_t := mkDs 2 2 3 2 6 1.
Definition opt_mem : state := mkShared (mkWindow 3 1) (empty_stacks 2).
Definition opt_final : cfg state (tls window_t) (list Z) :=
  exec (mkCfg opt_mem (clients (exec_op (A := bump_allocator node_t) opt_set) example_ops
                         (tls0 (mkWindow 0 0) <$> seq 0 2))) example_schedule.

Lemma opt_set_ok : ds_ok opt_set.
Proof. unfold ds_ok; cbn; lia. Qed.

Lemma stack2Dc_opt_linearizable_witness :
  ~ faulty opt_final /\ row_ok opt_set (max (window (mem opt_final))) /\ replayed 2 (subs (mem opt_final)).
Proof.
  destruct (stack2Dc_opt_linearizable (A := bump_allocator node_t) 1 2 3 2 1 6 opt_set
    opt_mem eq_refl opt_set_ok example_ops (tls0 (mkWindow 0 0) <$> seq 0 2) example_schedule) as (H1 & H2 & H3 & _).
  - apply tls0_local_ok. reflexivity.
  - vm_compute. reflexivity.
  - exact (conj H1 (conj H2 H3)).
Defined.

Lemma stack2Dc_opt_k_relaxed_witness :
  exists n rs g l q,
    (forall m, (n <= m)%nat ->
       run m (run_ops (exec_op (A := bump_allocator node_t) opt_set) example_seq_ops)
         opt_mem (tls0 (mkWindow 0 0) 0) = Finished rs g l) /\
    length rs = 7%nat /\
    ks_run ((2 * 3 - 1) * (2 - 1)) (zip example_seq_ops rs) q /\
    (args_ok 2 16 16 1 2 3 6 -> 1 <= 1 <= 3 -> (2 * 3 - 1) * (2 - 1) <= 6 <= 6) /\
    exists n' g' l', forall m, (n' <= m)%nat ->
      run m (stack_size opt_set) g l = Finished (Z.of_nat (length q)) g' l'.
Proof.
  apply (stack2Dc_opt_k_relaxed (A := bump_allocator node_t) 1 2 3 2 1 6 opt_set opt_mem
    example_seq_ops (tls0 (mkWindow 0 0) 0)).
  - reflexivity.
  - apply opt_set_ok.
  - split; cbn; lia.
  - reflexivity.
  - vm_compute. reflexivity.
Defined.

Lemma update_dimensions_spec_witness :
  exists n, forall m, (n <= m)%nat -> run m (update_width 1) opt_set tt = Finished 2 (set_width 1 opt_set) tt.
Proof. apply (proj1 (proj2 (update_dimensions_spec 1 opt_set))). cbn. lia. Defined.

(** The depth cannot be changed while the stack is in use: the window and
    [set->shift] are not adjusted to it, and the next pop that has to move the
    window fails the assertion. *)
Example update_depth_aborts_pop :
  exists g l, run 100 (push (A := bump_allocator node_t) opt_set 1 11) opt_mem (tls0 (mkWindow 0 0) 0)
    = Finished 1 g l /\
  run 1000 (pop (set_depth 8 opt_set)) g l = Crashed.
Proof. eexists _, _. split; [vm_compute; reflexivity|vm_compute; reflexivity]. Qed.
