(* ===== verification/SubCounters.v ===== *)
(** An array of counters: the part the relaxed counters have in common.  Each
    entry is a descriptor that an increment or a decrement replaces by one
    compare-and-exchange; which entry an operation chooses is up to the
    structures. *)
From S2P Require Import Prelude Conc Random Thread Shared CounterSpec.

(** [count_ok d n]: [d] represents the count [n]. *)
Class CountDesc (D : Type) := { count_ok : D -> Z -> Prop }.

(** The history variable [hist] has one event per successful operation. *)
Record counters (D : Type) := mkCounters { array : list D; hist : list (nat * cevent) }.
Arguments mkCounters {D}.
Arguments array {D}.
Arguments hist {D}.

(** The value of counter [i] after the history, newest event first. *)
Fixpoint value (i : Z) (h : list (nat * cevent)) : Z :=
  match h with
  | [] => 0
  | (_, Inc j) :: h => value i h + (if j =? i then 1 else 0)
  | (_, Dec j) :: h => value i h - (if j =? i then 1 else 0)
  end.

Definition cevents_of (t : nat) (h : list (nat * cevent)) : list cevent :=
  (filter (fun x => x.1 = t) h).*2.

Definition lookup_count {W D} (i : Z) (g : shared W (counters D)) : option D :=
  array (subs g) !! Z.to_nat i.

(** ** The steps *)

Section code.
Context {W D : Type} `{EqDecision D}.
Notation M := (M W (counters D)).

Definition load_count {B} (f : D -> B) (i : Z) : M B := load (fun g => f <$> lookup_count i g).

(** An atomic read-modify-write of entry [i], recorded as an event: [f] gives
    the new entry, or nothing when the compare fails. *)
Definition update_count (i : Z) (f : D -> option D) (inc : bool) : M bool :=
  Act (fun g l =>
    cur ← lookup_count i g;
    match f cur with
    | Some new =>
        Some (true,
              set_subs (mkCounters (<[Z.to_nat i := new]> (array (subs g)))
                          ((thread_id l, if inc then Inc i else Dec i) :: hist (subs g))) g, l)
    | None => Some (false, g, l)
    end) Ret.

(** [CAE(&array[i], &d, &new)]. *)
Definition cae_count (i : Z) (d new : D) (inc : bool) : M bool :=
  update_count i (fun cur => if decide (cur = d) then Some new else None) inc.

(** The size loop every counter has: the sum of the counts. *)
Definition counters_size (f : D -> Z) (w : Z) : M Z :=
  while (fun '(i, size) =>
    if i <? w then
      let* c := load_count f i in
      continue (u64 (i + 1), u64 (size + u64 c))
    else break size) (0, 0).
End code.

(** ** Protocol *)

Section protocol.
Context {D : Type} `{CountDesc D}.
Notation counters := (counters D).

Definition counters_inv (w : Z) (s : counters) : Prop :=
  Z.of_nat (length (array s)) = w /\
  forall i d, 0 <= i -> array s !! Z.to_nat i = Some d -> count_ok d (value i (hist s)).

Definition cprot (w limit : Z) : protocol counters :=
  {| p_inv := counters_inv w;
     p_rely t s s' := hist s `suffix_of` hist s' /\ cevents_of t (hist s') = cevents_of t (hist s);
     p_guar t s s' := hist s `suffix_of` hist s' /\
       (forall u, u <> t -> cevents_of u (hist s') = cevents_of u (hist s)) /\
       Z.of_nat (length (hist s')) <= Z.of_nat (length (hist s)) + 1;
     p_ok s := Z.of_nat (length (hist s)) < limit;
     p_total := false |}.

#[export] Instance cprot_laws w limit : ProtocolLaws (cprot w limit).
Proof.
  split; cbn.
  - done.
  - intros t s1 s2 s3 (? & ->) (? & ->). split; [by etrans|done].
  - intros t s. split_and!; [done..|lia].
  - intros t u s1 s2 Htu _ (? & Hu & _). split; [done|by apply Hu].
Qed.

Lemma count_lookup w (s : counters) i :
  counters_inv w s -> 0 <= i < w -> exists d, array s !! Z.to_nat i = Some d.
Proof. intros [Hlen _] Hi. apply lookup_lt_is_Some_2. lia. Qed.

Lemma value_bound i (h : list (nat * cevent)) : Z.abs (value i h) <= Z.of_nat (length h).
Proof.
  induction h as [|[t [j|j]] h IH]; cbn [value length]; [lia|..]; destruct (j =? i); lia.
Qed.

Definition after_count (t : nat) (i : Z) (new : D) (inc : bool) (s : counters) : counters :=
  mkCounters (<[Z.to_nat i := new]> (array s)) ((t, if inc then Inc i else Dec i) :: hist s).

Definition delta (inc : bool) : Z := if inc then 1 else -1.

Lemma value_after t i new inc s j :
  value j (hist (after_count t i new inc s)) =
  value j (hist s) + (if i =? j then delta inc else 0).
Proof. unfold delta. destruct inc; cbn; destruct (i =? j); lia. Qed.

Lemma cevents_of_cons t u e (h : list (nat * cevent)) :
  cevents_of t ((u, e) :: h) = if decide (u = t) then e :: cevents_of t h else cevents_of t h.
Proof. unfold cevents_of. rewrite filter_cons. cbn. by destruct (decide (u = t)). Qed.

Lemma after_count_step w limit t i d new inc s :
  counters_inv w s -> 0 <= i < w -> array s !! Z.to_nat i = Some d ->
  count_ok new (value i (hist s) + delta inc) ->
  counters_inv w (after_count t i new inc s) /\
  p_guar (cprot w limit) t s (after_count t i new inc s).
Proof.
  intros [Hlen Hinv] Hi Hd Hok. split; [split|split_and!].
  - cbn. by rewrite length_insert.
  - intros j dj Hj Hdj. rewrite value_after. cbn [after_count array] in Hdj.
    rewrite list_lookup_insert in Hdj.
    destruct (Z.eqb_spec i j) as [->|Hne].
    + rewrite decide_True in Hdj by (split; [done|by eapply lookup_lt_Some]).
      injection Hdj as <-. exact Hok.
    + rewrite decide_False in Hdj by (intros [? _]; lia). rewrite Z.add_0_r. by apply Hinv.
  - by exists [(t, if inc then Inc i else Dec i)].
  - intros u Hu. cbn [after_count hist]. rewrite cevents_of_cons. by rewrite decide_False.
  - cbn. lia.
Qed.
End protocol.

(** ** Rules *)

Section rules.
Context {W D : Type} `{EqDecision D} `{CountDesc D}.
Context (WP : protocol W) {wlaws : ProtocolLaws WP} (w limit : Z).
Notation B := (joint WP (cprot w limit)).
Context (P : protocol (shared W (counters D))) (t : nat) {runs : Runs P B t}.
Implicit Types (g : shared W (counters D)) (l : tls W).

Lemma inv_counters g : p_inv P g -> counters_inv w (subs g).
Proof. intros HI. apply (runs_inv (B := B) g HI). Qed.

Lemma counters_mine g g' :
  p_rely P t g g' -> cevents_of t (hist (subs g')) = cevents_of t (hist (subs g)).
Proof. intros R. by apply (runs_rely (B := B)) in R as (_ & _ & ?). Qed.

Lemma counters_step g s :
  p_inv P g -> counters_inv w s -> p_guar (cprot w limit) t (subs g) s ->
  p_guar P t g (set_subs s g) /\ p_inv P (set_subs s g).
Proof.
  intros HI Hs Hg. pose proof (runs_inv (B := B) g HI) as [Hw _]. split.
  - apply (runs_guar (B := B)). split; [apply guar_refl|exact Hg].
  - apply (runs_inv_back (B := B)). by split.
Qed.

Lemma wp_load_count {R} (f : D -> R) i (Q : R -> shared W (counters D) -> tls W -> Prop) g l :
  0 <= i < w ->
  (forall g' d, p_rely P t g g' -> p_inv P g' -> p_ok P g' -> lookup_count i g' = Some d ->
     count_ok d (value i (hist (subs g'))) -> Q (f d) g' l) ->
  wp P t (load_count f i) Q g l.
Proof.
  intros Hi HQ. apply wp_load; [apply _|]. intros g1 R1 I1 O1.
  pose proof (inv_counters g1 I1) as Hs. destruct (count_lookup w (subs g1) i Hs Hi) as [d E].
  exists (f d). unfold lookup_count. rewrite E. split; [done|]. apply HQ; try done.
  exact (proj2 Hs i d (proj1 Hi) E).
Qed.

Lemma wp_update_count i f inc (Q : bool -> shared W (counters D) -> tls W -> Prop) g l :
  0 <= i < w -> thread_id l = t ->
  (forall g' d new, p_rely P t g g' -> p_inv P g' -> p_ok P g' -> lookup_count i g' = Some d ->
     f d = Some new -> count_ok d (value i (hist (subs g'))) ->
     count_ok new (value i (hist (subs g')) + delta inc) /\
     let g2 := set_subs (after_count t i new inc (subs g')) g' in p_inv P g2 -> Q true g2 l) ->
  (forall g' d, p_rely P t g g' -> p_inv P g' -> lookup_count i g' = Some d -> f d = None ->
     Q false g' l) ->
  wp P t (update_count i f inc) Q g l.
Proof.
  intros Hi Ht Hok Hno g1 R1 I1 O1. pose proof (inv_counters g1 I1) as Hs.
  destruct (count_lookup w (subs g1) i Hs Hi) as [cur E].
  assert (E' : lookup_count i g1 = Some cur) by exact E. rewrite E'. cbn [mbind option_bind].
  destruct (f cur) as [new|] eqn:Ef.
  - destruct (Hok g1 cur new R1 I1 O1 E' Ef (proj2 Hs i cur (proj1 Hi) E)) as [Hal HQ].
    rewrite Ht. fold (after_count t i new inc (subs g1)).
    destruct (after_count_step w limit t i cur new inc (subs g1) Hs Hi E Hal) as [Hs2 Hg2].
    destruct (counters_step g1 _ I1 Hs2 Hg2) as [HG HI].
    split; [exact HG|split; [exact HI|]]. by apply HQ.
  - split; [apply (guar_refl (P := P))|split; [done|]]. by eapply Hno.
Qed.

Lemma wp_cae_count i d new inc (Q : bool -> shared W (counters D) -> tls W -> Prop) g l :
  0 <= i < w -> thread_id l = t ->
  (forall g', p_rely P t g g' -> p_inv P g' -> p_ok P g' -> lookup_count i g' = Some d ->
     count_ok d (value i (hist (subs g'))) ->
     count_ok new (value i (hist (subs g')) + delta inc)) ->
  (forall g', p_rely P t g g' -> p_inv P g' -> lookup_count i g' = Some d ->
     let g2 := set_subs (after_count t i new inc (subs g')) g' in p_inv P g2 -> Q true g2 l) ->
  (forall g', p_rely P t g g' -> p_inv P g' -> lookup_count i g' <> Some d -> Q false g' l) ->
  wp P t (cae_count i d new inc) Q g l.
Proof.
  intros Hi Ht Hal Hok Hno. apply wp_update_count; [done|done|..].
  - intros g' cur new' R' I' O' E Ef Hd. destruct (decide (cur = d)) as [->|]; [|done].
    injection Ef as <-. split; [by apply Hal|by apply Hok].
  - intros g' cur R' I' E Ef. destruct (decide (cur = d)) as [->|Hne]; [done|].
    apply Hno; [done..|]. congruence.
Qed.

Lemma mine_after_count g i new inc :
  cevents_of t (hist (after_count t i new inc (subs g))) =
  (if inc then Inc i else Dec i) :: cevents_of t (hist (subs g)).
Proof. unfold after_count; cbn [hist]. rewrite cevents_of_cons. by rewrite decide_True. Qed.

(** ** [counters_size], for a thread alone *)

Definition counters_total (h : list (nat * cevent)) (n : Z) : Z := sum_upto (fun i => value i h) n.

Context (still : forall g g', p_rely P t g g' -> g' = g).

(** The sum is the total modulo 2^64, the values being added as unsigned
    integers. *)
Lemma counters_size_wp (f : D -> Z) (Q : Z -> shared W (counters D) -> tls W -> Prop) g l :
  0 < w < 2 ^ 63 -> p_inv P g -> (forall d n, count_ok d n -> f d = n) ->
  Q (u64 (counters_total (hist (subs g)) w)) g l -> wp P t (counters_size f w) Q g l.
Proof.
  intros Hw HI Hf HQ. unfold counters_total in *.
  set (v i := value i (hist (subs g))) in *.
  eapply (wp_while P t _ _ _ _ (fun n '(i, size) g1 l1 => g1 = g /\ l1 = l /\
    0 <= i <= w /\ size = u64 (sum_upto v i) /\ n = Z.to_nat (w - i))).
  - split_and!; try done; lia.
  - intros n [i size] g1 l1 (-> & -> & Hi & -> & ->).
    destruct (Z.ltb_spec i w) as [Hlt|Hge].
    + wp_local. apply wp_load_count; [lia|]. intros g2 d R2 _ _ _ Hd.
      rewrite (still g g2 R2) in *. rewrite (Hf _ _ Hd). fold (v i). wp_locals.
      rewrite wrap_add, <- sum_upto_succ, wrap_small by lia.
      eexists. split; [|split_and!; try done]; lia.
    + wp_locals. by replace i with w in * by lia.
Qed.
End rules.
