(* ===== verification/Counter2Dc.v ===== *)
(** src/2Dc-counter/2Dc-counter.c: the relaxed counter made of [width]
    sub-counters under one window.  Used by any number of threads every call
    that succeeds takes effect exactly once; used by one thread it is a
    counter, and its estimates are off by at most [depth * (width - 1)]. *)
From S2P Require Import Prelude Conc Random Thread Params Shared CounterSpec SubCounters.
From S2P Require Import Window2Dc Solo2Dc.

(** ** State *)

Record descriptor_t := mkDesc { count : Z }.

#[export] Instance descriptor_eq_dec : EqDecision descriptor_t.
Proof. solve_decision. Defined.

#[export] Instance descriptor_count : CountDesc descriptor_t :=
  {| count_ok d n := count d = n /\ 0 <= n |}.

Notation counters2 := (counters descriptor_t).
Notation state := (shared window_t counters2).
Notation MC := (M window_t counters2).

(** ** Operations *)

(** The descriptor is one word: its copy is one load. *)
#[export] Instance counter2_ops : SubOps counters2 descriptor_t :=
  {| read_descriptor := load_count id; d_count := count |}.

Section code.
Context {wops : WindowOps counters2 descriptor_t} (validatesize : bool).

Definition increment_body (set : ds_t) (contention : bool) : MC (bool + Z) :=
  let* descriptor := w_put_window set contention in
  let new_descriptor := mkDesc (u64 (count descriptor + 1)) in
  let* index := get thread_index in
  let* ok := cae_count index descriptor new_descriptor true in
  if ok then
    if validatesize then break 1
    else break (u64 (count new_descriptor * width set))
  else
    put (count_stat inc_put_cas_fail) ;;;
    continue true.

Definition increment (set : ds_t) : MC Z := while (increment_body set) false.

Definition decrement_body (set : ds_t) (contention : bool) : MC (bool + Z) :=
  let* descriptor := w_get_window set contention in
  if 0 <? count descriptor then
    let new_descriptor := mkDesc (u64 (count descriptor - 1)) in
    let* index := get thread_index in
    let* ok := cae_count index descriptor new_descriptor false in
    if ok then
      if validatesize then break 1
      else break (u64 (count new_descriptor * width set))
    else
      put (count_stat inc_get_cas_fail) ;;;
      continue true
  else
    put (count_stat inc_null) ;;;
    break 0.

Definition decrement (set : ds_t) : MC Z := while (decrement_body set) false.

Definition counter_size (set : ds_t) : MC Z := counters_size count (width set).

Definition exec_op (set : ds_t) (o : op) : MC Z :=
  match o with Increment => increment set | Decrement => decrement set end.
End code.

(** [create_counter]: the window starts with the version 0. *)
Definition create_counter (num_threads width depth k_mode relaxation_bound : Z)
    : option (ds_t * state) :=
  p ← calculate 2 64 64 (product_u64 2) num_threads width depth k_mode relaxation_bound;
  let shift := if 1 <? p_depth p / 2 then p_depth p / 2 else 1 in
  let set := mkDs 2 (p_width p) (p_depth p) shift (p_bound p) k_mode in
  Some (set, mkShared (mkWindow (p_depth p) 0)
               (mkCounters (replicate (Z.to_nat (p_width p)) (mkDesc 0)) [])).

(** ** Protocol *)

#[export] Instance counter2_proto : SubProto counters2 descriptor_t :=
  {| sprot2 set := cprot (width set) (2 ^ 63);
     cnt s i := value i (hist s);
     snap _ _ _ := True;
     exact i d s := array s !! Z.to_nat i = Some d |}.

#[export] Instance counter2_laws : SubLaws counters2 descriptor_t.
Proof.
  split.
  - intros set. apply cprot_laws.
  - done.
  - intros set s i Hs Hi. destruct (count_lookup (width set) s i Hs Hi) as [d E].
    by destruct (proj2 Hs i d (proj1 Hi) E).
  - intros T set P t runs i Q g l Hi HQ.
    apply (wp_load_count (wprot T set) (width set) (2 ^ 63) P t); [done|].
    intros g1 d R1 I1 _ E [Hd _]. apply HQ; [done..|].
    intros Hst. by rewrite (Hst g g1 R1) in *.
Qed.

(** ** The operations, among other threads *)

Section operations.
Context (T : types) {wops : WindowOps counters2 descriptor_t}.
Context {wlaws : WindowLaws T counters2 descriptor_t} (set : ds_t) {Hset : ds_ok set} (t : nat).
Context (validatesize : bool).
Notation B := (prot2 T set).
Notation WP := (wprot T set).
Notation mine g := (cevents_of t (hist (subs g))).
Implicit Types (g : state) (l : tls window_t).

(** What a successful update stores. *)
Lemma count_inc d n : count_ok d n -> n < 2 ^ 63 -> count_ok (mkDesc (u64 (count d + 1))) (n + delta true).
Proof. intros [E Hn] Hlt. unfold delta. split; cbn; [rewrite wrap_small by lia|]; lia. Qed.

Lemma count_dec d n : count_ok d n -> n < 2 ^ 63 -> 0 < count d ->
  count_ok (mkDesc (u64 (count d - 1))) (n + delta false).
Proof. intros [E Hn] Hlt Hp. unfold delta. split; cbn; [rewrite wrap_small by lia|]; lia. Qed.

Lemma value_limit g i : p_ok B g -> value i (hist (subs g)) < 2 ^ 63.
Proof. intros [_ Ho]. cbn in Ho. pose proof (value_bound i (hist (subs g))). lia. Qed.

(** The compare-and-exchange of both operations, and what follows it. *)
Lemma counter2_cas_wp inc r d (Q : bool + Z -> state -> tls window_t -> Prop) (f : stats_t -> stats_t) g l :
  local_ok T set t l -> (inc = false -> 0 < count d) ->
  (forall g' i, 0 <= i < width set -> mine g' = (if inc : bool then Inc i else Dec i) :: mine g ->
     Q (inr (if validatesize then 1 else r)) g' l) ->
  (forall g' l', local_ok T set t l' -> mine g' = mine g -> Q (inl true) g' l') ->
  wp B t (let* index := get thread_index in
          let* ok := cae_count index d (mkDesc (u64 (count d + delta inc))) inc in
          if ok then if validatesize then break 1 else break r
          else put (count_stat f) ;;; continue true) Q g l.
Proof.
  intros Hl Hpos HQ HQ'. wp_locals.
  apply (wp_cae_count WP (width set) (2 ^ 63) B t); [apply Hl|apply Hl|..].
  - intros g1 _ _ O1 _ Hok. pose proof (value_limit g1 (thread_index l) O1) as Hlim.
    destruct inc; [by apply count_inc|by apply count_dec; [..|apply Hpos]].
  - intros g1 R1 I1 E1 g2 I2.
    assert (Hm : mine g2 = (if inc then Inc (thread_index l) else Dec (thread_index l)) :: mine g).
    { unfold g2. cbn [subs set_subs]. rewrite mine_after_count.
      by rewrite (counters_mine WP (width set) (2 ^ 63) B t g g1 R1). }
    destruct validatesize eqn:Ev; wp_locals; (eapply HQ; [apply Hl|exact Hm]).
  - intros g1 R1 _ _. wp_locals. apply HQ'; [done|].
    by rewrite (counters_mine WP (width set) (2 ^ 63) B t g g1 R1).
Qed.

(** [increment] adds exactly one [Inc] event of its thread. *)
Lemma increment2_wp (Q : Z -> state -> tls window_t -> Prop) g l :
  local_ok T set t l ->
  (forall r g' l' i, local_ok T set t l' -> 0 <= i < width set ->
     mine g' = Inc i :: mine g -> result_ok validatesize r -> Q r g' l') ->
  wp B t (increment validatesize set) Q g l.
Proof.
  intros Hl HQ.
  apply (wp_while B t _ _ _ _ (fun _ _ g1 l1 => local_ok T set t l1 /\ mine g1 = mine g) 0%nat);
    [done|].
  intros n c g1 l1 [Hl1 Hm1]. unfold increment_body. wp_local.
  apply (w_put_window_wp set Hset); [done|]. intros d g2 l2 (Hl2 & R2 & I2 & _).
  pose proof (counters_mine WP (width set) (2 ^ 63) B t g1 g2 R2) as Hm2. rewrite Hm1 in Hm2.
  apply (counter2_cas_wp true _ d); [done|done|..].
  - intros g3 i Hi Hm3. rewrite Hm2 in Hm3. eapply HQ; [done|exact Hi|exact Hm3|].
    by intros ->.
  - intros g3 l3 Hl3 Hm3. exists 0%nat. split; [done|]. by rewrite Hm3.
Qed.

(** [decrement] adds exactly one [Dec] event of its thread, or returns 0 and
    adds none. *)
Lemma decrement2_wp (Q : Z -> state -> tls window_t -> Prop) g l :
  local_ok T set t l ->
  (forall r g' l' i, local_ok T set t l' -> 0 <= i < width set ->
     mine g' = Dec i :: mine g -> result_ok validatesize r -> Q r g' l') ->
  (forall g' l', local_ok T set t l' -> mine g' = mine g -> Q 0 g' l') ->
  wp B t (decrement validatesize set) Q g l.
Proof.
  intros Hl HQ HQ0.
  apply (wp_while B t _ _ _ _ (fun _ _ g1 l1 => local_ok T set t l1 /\ mine g1 = mine g) 0%nat);
    [done|].
  intros n c g1 l1 [Hl1 Hm1]. unfold decrement_body. wp_local.
  apply (w_get_window_wp set Hset); [done|]. intros d g2 l2 (Hl2 & R2 & I2 & _).
  pose proof (counters_mine WP (width set) (2 ^ 63) B t g1 g2 R2) as Hm2. rewrite Hm1 in Hm2.
  destruct (Z.ltb_spec 0 (count d)) as [Hpos|Hz]; [|wp_locals; by apply HQ0].
  apply (counter2_cas_wp false _ d); [done|done|..].
  - intros g3 i Hi Hm3. rewrite Hm2 in Hm3. eapply HQ; [done|exact Hi|exact Hm3|].
    by intros ->.
  - intros g3 l3 Hl3 Hm3. exists 0%nat. split; [done|]. by rewrite Hm3.
Qed.
End operations.

(** ** Creation *)

Lemma create_counter2_spec above nt w d k rb set g :
  create_counter nt w d k rb = Some (set, g) -> ds_ok set ->
  p_inv (prot2 (types_2Dc above) set) g /\ hist (subs g) = [] /\ window g = mkWindow (depth set) 0.
Proof.
  unfold create_counter. destruct (calculate _ _ _ _ _ _ _ _ _) as [p|]; [|done].
  intros [= <- <-] (Hw & Hs & Hd & _). cbn in Hw, Hs, Hd. split; [|done]. split; cbn [window subs].
  - cbn [p_inv wprot row_bits types_2Dc max depth]. split; [exists 0; cbn; lia|lia].
  - split; cbn; [rewrite length_replicate; lia|]. intros i d' _ E.
    apply lookup_replicate in E as [-> _]. by split.
Qed.

(** ** Every interleaving *)

Section theorems.
Context (above : Z -> Z -> Z) (Habove : forall r h, 0 <= above r h).
Context (nt w d k rb : Z) (validatesize : bool) (set : ds_t) (g0 : state).
Context (Hcreate : create_counter nt w d k rb = Some (set, g0)) (Hset : ds_ok set).
Context (opss : list (list op)) (ls : list (tls window_t)) (schedule : list nat).
Context (Hls : forall i l, ls !! i = Some l -> local_ok (types_2Dc above) set i l).
Context (Hbound : depth set + Z.of_nat (length schedule) * (shift set + 1) < 2 ^ 63).
Notation T := (types_2Dc above).

Let final := exec (mkCfg g0 (clients (exec_op (wops := window_2Dc above) validatesize set) opss ls)) schedule.

Lemma counter2_run :
  p_inv (prot2 T set) (mem final) /\ ~ faulty final /\
  (forall i rs l os, pool final !! i = Some (Ret rs, l) -> opss !! i = Some os ->
     length rs = length os /\
     explains (width set) (result_ok validatesize) (zip os rs)
       (cevents_of i (hist (subs (mem final))))).
Proof.
  destruct (create_counter2_spec above nt w d k rb set g0 Hcreate Hset) as (HI & Hh & Hw).
  pose proof (window_2Dc_laws (SS := counters2) (D := descriptor_t) above Habove) as Hlaws.
  pose proof Hset as (_ & Hs & Hd & _).
  destruct (clients_soundness (exec_op (wops := window_2Dc above) validatesize set) (prot2 T set)
    (fun t done (g : state) l => local_ok T set t l /\
       explains (width set) (result_ok validatesize) done (cevents_of t (hist (subs g)))))
    with (meas := fun g : state => max (window g) + Z.of_nat (length (hist (subs g))))
      (delta := shift set + 1) (limit := 2 ^ 63 - 1)
      (g0 := g0) (opss := opss) (ls := ls) (schedule := schedule) as (HI' & HF & HQ); try done.
  - intros t done o g l [Hl HJ]. destruct o; cbn [exec_op].
    + apply (increment2_wp T set t); [done|]. intros r g' l' i Hl' Hi Hm Hr.
      split; [done|]. rewrite Hm. by constructor.
    + apply (decrement2_wp T set t); [done|..].
      * intros r g' l' i Hl' Hi Hm Hr. split; [done|]. rewrite Hm. by constructor.
      * intros g' l' Hl' Hm. split; [done|]. rewrite Hm. by constructor.
  - lia.
  - intros t g g' _ [Hgw Hgs]. cbn in Hgw. destruct Hgs as (_ & _ & Hlen). lia.
  - intros g [[Hrow _] _] Hm. pose proof (row_ok_range set _ Hrow). cbn. lia.
  - rewrite Hh, Hw. cbn [length max]. lia.
  - intros i l Hl. split; [by apply Hls|]. rewrite Hh. constructor.
  - split; [done|split; [done|]]. intros i rs l os Hp Ho.
    destruct (HQ i rs l os Hp Ho) as (Hlen & g1 & R1 & _ & HJ1). split; [done|].
    destruct R1 as [_ (_ & E1)]. rewrite <- E1 in HJ1. exact HJ1.
Qed.

(** C16. Every interleaving is a run of [width] ordinary counters: no thread fails;
    in every reachable state each sub-counter holds exactly the updates of the
    history and is not negative, and each finished thread's results are
    accounted for, one by one and in program order, by that thread's events:
    every call that does not return the empty answer 0 took effect exactly
    once. *)
Theorem counter2Dc_exactly_once :
  ~ faulty final /\
  (forall i, 0 <= i < width set -> exists c,
     array (subs (mem final)) !! Z.to_nat i = Some (mkDesc c) /\
     c = value i (hist (subs (mem final))) /\ 0 <= c) /\
  (forall i rs l os, pool final !! i = Some (Ret rs, l) -> opss !! i = Some os ->
     length rs = length os /\
     explains (width set) (result_ok validatesize) (zip os rs)
       (cevents_of i (hist (subs (mem final))))).
Proof.
  destruct counter2_run as ([_ Hs] & HF & HQ). split; [done|split; [|done]]. intros i Hi.
  destruct (count_lookup (width set) _ i Hs Hi) as [[c] E].
  destruct (proj2 Hs i _ (proj1 Hi) E) as [Ec Hc]. cbn in Ec. exists c. split; [done|lia].
Qed.
End theorems.

(** ** Concrete executions: two threads, two sub-counters of depth 3 *)

Definition example_above (random hops : Z) : Z := Z.max 0 hops.
Definition example_set : ds_t := mkDs 2 2 3 1 6 0.
Definition example_mem : state :=
  mkShared (mkWindow 3 0) (mkCounters (replicate 2 (mkDesc 0)) []).
Definition example_run (opss : list (list op)) (schedule : list nat) : cfg state (tls window_t) (list Z) :=
  exec (mkCfg example_mem (clients (exec_op (wops := window_2Dc example_above) true example_set)
          opss (tls0 (mkWindow 0 0) <$> seq 0 2))) schedule.
Definition example_ops : list (list op) := [[Increment; Decrement]; [Increment]].
Definition example_schedule : list nat := mjoin (replicate 300 [0; 1]%nat).

Example counter2Dc_example_finishes :
  let final := example_run example_ops example_schedule in
  (fun pl => match pl.1 with Ret rs => Some rs | _ => None end) <$> pool final
    = [Some [1; 1]; Some [1]] /\
  array (subs (mem final)) = [mkDesc 1; mkDesc 0].
Proof. vm_compute. split; reflexivity. Qed.

(** The window starts with the version that the zero-initialised copy of a
    thread has.  A thread whose first operation is a [decrement] takes its copy
    for the window: here it gets the empty answer 0 after another thread has
    finished two increments, with nothing going on at the same time. *)
Example counter2Dc_spurious_empty :
  let final := example_run [[Increment; Increment]; [Decrement]]
    (replicate 100 0%nat ++ replicate 100 1%nat) in
  (fun pl => match pl.1 with Ret rs => Some rs | _ => None end) <$> pool final
    = [Some [1; 1]; Some [0]] /\
  array (subs (mem final)) = [mkDesc 0; mkDesc 2].
Proof. vm_compute. split; reflexivity. Qed.

Lemma counter2Dc_exactly_once_witness :
  explains 2 (result_ok true) [(Increment, 1); (Decrement, 1)]
    (cevents_of 0 (hist (subs (mem (example_run example_ops example_schedule))))).
Proof.
  refine (proj2 (proj2 (proj2 (counter2Dc_exactly_once
    example_above ltac:(unfold example_above; lia) 1 2 3 0 0 true example_set example_mem eq_refl
    ltac:(unfold ds_ok; cbn; lia) example_ops (tls0 (mkWindow 0 0) <$> seq 0 2)
    example_schedule _ _)) 0%nat [1; 1] _ [Increment; Decrement] _ _)).
  - intros i l H. apply tls0_lookup in H as ->. split; [split; cbn; lia|by left].
  - vm_compute. reflexivity.
  - vm_compute. reflexivity.
  - reflexivity.
Defined.
