(* ===== verification/Counter2DcSeq.v ===== *)
(** The 2Dc counter used by one thread: it terminates, it is empty exactly when
    an ordinary counter is, [counter_size] is exact, and the estimate returned
    without [VALIDATESIZE] is off by at most [depth * (width - 1)]. *)
From S2P Require Import Prelude Conc Random Thread Params Shared CounterSpec SubCounters.
From S2P Require Import Window2Dc Solo2Dc Counter2Dc.

(** ** The operations, for a thread alone *)

Section operations.
Context (T : types) {wops : WindowOps counters2 descriptor_t}.
Context {wlaws : WindowLaws T counters2 descriptor_t} (set : ds_t) {Hset : ds_ok set}.
Context (validatesize : bool) (Hgets : hops_last (get_types T) set).
Notation B := (prot2 T set).
Notation AB := (alone B).
Notation WP := (wprot T set).
Notation history g := (hist (subs g)).
Notation total g := (counters_total (hist (subs g)) (width set)).
Implicit Types (g : state) (l : tls window_t).

(** What holds between two operations. *)
Definition seq_ok g l : Prop :=
  seq_inv T set g /\ index_ok (width set) 0 l /\ in_sync set g l.

(** A result: 1 with [VALIDATESIZE], an estimate of the total without. *)
Definition good_result (n r : Z) : Prop :=
  if validatesize then r = 1 else Z.abs (r - n) <= depth set * (width set - 1).

Lemma value_nonneg g i : seq_inv T set g -> 0 <= i < width set -> 0 <= value i (history g).
Proof. intros [[_ Hs] _] Hi. exact (cnt_nonneg (SS := counters2) set (subs g) i Hs Hi). Qed.

Lemma total_nonneg2 g : seq_inv T set g -> 0 <= total g.
Proof.
  intros HI. pose proof Hset as (Hw & _). apply sum_upto_nonneg; [lia|]. intros i Hi.
  by apply value_nonneg.
Qed.

Lemma total_zero2 g : seq_inv T set g -> total g = 0 <-> all_empty set (subs g).
Proof.
  intros HI. pose proof Hset as (Hw & _). split.
  - intros Ht i Hi. cbn. pose proof (value_nonneg g i HI Hi).
    pose proof (sum_upto_term (fun i => value i (history g)) (width set) i Hi) as Hle.
    cbv beta in Hle. enough (value i (history g) <= 0) by lia.
    unfold counters_total in Ht. rewrite <- Ht. apply Hle. intros j Hj. by apply value_nonneg.
  - intros Hemp. unfold counters_total. rewrite (sum_upto_ext _ (fun _ => 0)).
    + rewrite sum_upto_const; lia.
    + intros i Hi. by apply Hemp.
Qed.

(** One successful update inside the window. *)
Lemma seq_update g i new (inc : bool) :
  seq_inv T set g -> 0 <= i < width set ->
  let g' := set_subs (after_count 0 i new inc (subs g)) g in
  p_inv B g' ->
  (if inc then value i (history g) < max (window g)
   else max (window g) - depth set < value i (history g)) ->
  seq_inv T set g' /\ total g' = total g + delta inc /\
  value i (history g') = value i (history g) + delta inc.
Proof.
  intros HI Hi g' HI' Hcase. pose proof HI as [_ Hc].
  split; [split; [done|]|split].
  - intros j Hj. specialize (Hc j Hj). cbn [cnt counter2_proto] in *. unfold g'.
    cbn [window set_subs subs]. rewrite value_after. unfold delta.
    destruct (Z.eqb_spec i j) as [<-|_]; destruct inc; lia.
  - unfold counters_total. apply (sum_upto_bump _ _ i); [done|]. intros j Hj. unfold g'.
    cbn [subs set_subs]. rewrite value_after.
    destruct (Z.eqb_spec i j), (Z.eqb_spec j i); subst; try lia; congruence.
  - unfold g'. cbn [subs set_subs]. rewrite value_after. by rewrite Z.eqb_refl.
Qed.

(** The deviation of one sub-counter's estimate. *)
Lemma estimate2_spread g i :
  seq_inv T set g -> 0 <= i < width set ->
  Z.abs (width set * value i (history g) - total g) <= depth set * (width set - 1).
Proof.
  intros [_ Hc] Hi. pose proof Hset as (Hw & _).
  apply (sum_upto_spread (fun i => value i (history g))); [lia|done|]. intros j Hj.
  pose proof (Hc i Hi) as H1. pose proof (Hc j Hj) as H2. cbn in H1, H2. lia.
Qed.

Lemma estimate2_result g i c :
  seq_inv T set g -> 0 <= i < width set -> width set * max (window g) < 2 ^ 64 ->
  c = value i (history g) -> Z.abs (u64 (c * width set) - total g) <= depth set * (width set - 1).
Proof.
  intros HI Hi Hlim ->. pose proof (estimate2_spread g i HI Hi).
  pose proof (value_nonneg g i HI Hi). destruct HI as [_ Hc]. specialize (Hc i Hi). cbn in Hc.
  pose proof Hset as (Hw & _). rewrite wrap_small by nia. by rewrite Z.mul_comm.
Qed.

(** The compare-and-exchange of both operations, and what follows it. *)
Lemma counter2_cas_alone (inc : bool) d (Q : bool + Z -> state -> tls window_t -> Prop) (f : stats_t -> stats_t) g l :
  seq_inv T set g -> index_ok (width set) 0 l -> width set * max (window g) < 2 ^ 64 ->
  Z.of_nat (length (history g)) < 2 ^ 63 ->
  exact (thread_index l) d (subs g) -> count d = value (thread_index l) (history g) ->
  (if inc then count d < max (window g)
   else max (window g) - depth set < count d /\ 0 < count d) ->
  (forall g' r, seq_inv T set g' -> window g' = window g -> total g' = total g + delta inc ->
     (length (history g') = S (length (history g))) ->
     good_result (total g') r -> Q (inr r) g' l) ->
  wp AB 0 (let* index := get thread_index in
          let* ok := cae_count index d (mkDesc (u64 (count d + delta inc))) inc in
          if ok then if validatesize then break 1
                     else break (u64 (u64 (count d + delta inc) * width set))
          else put (count_stat f) ;;; continue true) Q g l.
Proof.
  intros HI Hl Hlim Hlen Hex Hc Hcase HQ. pose proof Hset as (Hw & Hs & Hd & _).
  assert (Hpos : inc = false -> 0 < count d) by (destruct inc; [done|lia]).
  pose proof (value_nonneg g _ HI (proj2 Hl)) as Hnn.
  pose proof (value_bound (thread_index l) (history g)) as Hvb.
  wp_locals. apply (wp_cae_count WP (width set) (2 ^ 63) AB 0); [apply Hl|apply Hl|..].
  - intros g1 R1 _ _ _ Hok. rewrite (still_alone T set _ _ R1) in *.
    destruct inc; [apply count_inc; [done|lia]|apply count_dec; [done|lia|by apply Hpos]].
  - intros g1 R1 _ E1 g2 I2. unfold g2 in *. rewrite (still_alone T set _ _ R1) in *.
    destruct (seq_update g (thread_index l) (mkDesc (u64 (count d + delta inc))) inc HI (proj2 Hl) I2)
      as (HI2 & Ht2 & Hv2).
    { rewrite <- Hc. destruct inc; [done|apply Hcase]. }
    set (g3 := set_subs _ g) in *.
    assert (Hu : u64 (count d + delta inc) = value (thread_index l) (history g3)).
    { rewrite Hv2, Hc. apply wrap_small. unfold delta. destruct inc; [|specialize (Hpos eq_refl)]; lia. }
    assert (Hr : good_result (total g3)
      (if validatesize then 1 else u64 (u64 (count d + delta inc) * width set))).
    { unfold good_result. destruct validatesize; [done|].
      apply (estimate2_result g3 (thread_index l)); [done|apply Hl|done|done]. }
    destruct validatesize; wp_locals; (apply HQ; [done|done|done|done|exact Hr]).
  - intros g1 R1 _ Hne. rewrite (still_alone T set _ _ R1) in Hne. by destruct Hne.
Qed.

Lemma increment2_alone (Q : Z -> state -> tls window_t -> Prop) g l :
  seq_ok g l -> width set * (max (window g) + shift set) < 2 ^ 64 ->
  max (window g) + shift set < 2 ^ row_bits T -> Z.of_nat (length (history g)) < 2 ^ 63 ->
  (forall r g' l', seq_ok g' l' -> max (window g') <= max (window g) + shift set ->
     length (history g') = S (length (history g)) ->
     total g' = total g + 1 -> good_result (total g') r -> Q r g' l') ->
  wp AB 0 (increment validatesize set) Q g l.
Proof.
  intros (HI & Hl & Hsync) Hlim Hrow Hlen HQ. pose proof Hset as (Hw & Hs & _). unfold increment.
  apply (wp_while AB 0 _ _ _ _ (fun _ _ g' l' => g' = g /\ l' = l) 0%nat); [done|].
  intros n c g' l' [-> ->]. unfold increment_body. wp_local.
  apply (w_put_window_alone set Hset); [done|done|done|done|].
  intros d w l2 Hl2 Ew Hup Hex Ec Hlt.
  pose proof (seq_inv_up T set g w HI Hrow Hup) as HI2.
  assert (Hmax : max w <= max (window g) + shift set).
  { destruct Hup as [->|[-> _]]; [lia|]. pose proof HI as [[[Hr _] _] _].
    pose proof (row_ok_range set _ Hr). cbn. rewrite wrap_small by lia. lia. }
  apply (counter2_cas_alone true d); [done|done|cbn; nia|done|done|done|done|].
  intros g' r HI' Hw' Ht' Hlen' Hr. apply HQ; [|by rewrite Hw'|exact Hlen'|exact Ht'|done].
  split; [done|split; [done|]]. right. left. by rewrite Hw', Ew.
Qed.

Lemma decrement2_alone (Q : Z -> state -> tls window_t -> Prop) g l :
  seq_ok g l -> width set * max (window g) < 2 ^ 64 ->
  max (window g) + depth set < 2 ^ row_bits T -> Z.of_nat (length (history g)) < 2 ^ 63 ->
  (forall r g' l', seq_ok g' l' -> max (window g') <= max (window g) ->
     length (history g') = S (length (history g)) ->
     0 < total g -> total g' = total g - 1 -> good_result (total g') r -> Q r g' l') ->
  (forall g' l', seq_ok g' l' -> max (window g') <= max (window g) ->
     history g' = history g -> total g = 0 -> Q 0 g' l') ->
  wp AB 0 (decrement validatesize set) Q g l.
Proof.
  intros (HI & Hl & Hsync) Hlim Hrow Hlen HQ HQ0. pose proof Hset as (Hw & Hs & Hd & _).
  unfold decrement.
  apply (wp_while AB 0 _ _ _ _ (fun _ _ g' l' => g' = g /\ l' = l) 0%nat); [done|].
  intros n c g' l' [-> ->]. unfold decrement_body. wp_local.
  apply (w_get_window_alone set Hset); [done..|].
  intros d w l2 Hl2 Hsync2 Hdown Hex Ec Hcase.
  pose proof (seq_inv_down T set g w HI Hdown) as HI2.
  assert (Hmax : max w <= max (window g)).
  { destruct Hdown as [->|(-> & Hlt & _)]; [lia|].
    destruct (window_down_max T set g (proj1 HI) Hlt) as [-> _]. lia. }
  assert (Hge : depth set <= max w) by (destruct HI2 as [[[Hr _] _] _]; by apply row_ok_range).
  cbn [d_count counter2_ops cnt counter2_proto] in Ec, Hcase.
  destruct (Z.ltb_spec 0 (count d)) as [Hpos|Hz].
  - assert (Hne : ~ all_empty set (subs g)).
    { intros Hemp. specialize (Hemp _ (proj2 Hl2)). cbn in Hemp. lia. }
    destruct Hcase as [Hin|?]; [|done].
    apply (counter2_cas_alone false d); [done|done|cbn; nia|done|done|done|done|].
    intros g' r HI' Hw' Ht' Hlen' Hr. unfold delta in Ht'.
    assert (0 <= total g') by (by apply total_nonneg2).
    apply HQ; [|by rewrite Hw'|exact Hlen'|cbn in Ht'; lia|cbn in Ht'; lia|done].
    split; [done|split; [done|]].
    destruct Hsync2 as [?|[?|[_ ?]]]; [left; by rewrite Hw'|right; left; by rewrite Hw'|done].
  - wp_locals. destruct Hcase as [?|Hemp]; [lia|].
    apply HQ0; [by split|done|done|]. by apply total_zero2.
Qed.
End operations.

(** ** The counter as 2Dc-counter.c creates it *)

Section runs.
Context (above : Z -> Z -> Z) (Habove : forall r h, 0 <= above r h).
Context (nt w d k rb : Z) (set : ds_t) (g0 : state).
Context (Hlast : hops_last (get_types (types_2Dc above)) set).
Context (Hcreate : create_counter nt w d k rb = Some (set, g0)) (Hset : ds_ok set).
Context (ops : list op) (l0 : tls window_t) (Hl0 : index_ok (width set) 0 l0).
Context (Hw0 : thread_Window l0 = mkWindow 0 0).
Context (Hbound : width set * ((Z.of_nat (length ops) + 3) * depth set) < 2 ^ 63).
Notation T := (types_2Dc above).
Notation exec vs := (exec_op (wops := window_2Dc above) vs set).

(** What holds after the operations [done], with their results. *)
Definition counter2_account out R (done : list (op * Z)) (g : state) (l : tls window_t) : Prop :=
  ref_account out R done (counters_total (hist (subs g)) (width set)) /\ seq_ok T set g l /\
  max (window g) <= depth set + Z.of_nat (length done) * shift set /\
  Z.of_nat (length (hist (subs g))) <= Z.of_nat (length done).

Lemma counter2_ops_few : Z.of_nat (length ops) < 2 ^ 63.
Proof.
  pose proof Hset as (Hw & Hs & _).
  assert (Z.of_nat (length ops) + 3 <= (Z.of_nat (length ops) + 3) * depth set) by nia. nia.
Qed.

Lemma counter2_account0 out R : counter2_account out R [] g0 l0.
Proof.
  destruct (create_counter2_spec above nt w d k rb set g0 Hcreate Hset) as (HI & Hh & Hw).
  pose proof Hset as (Hwd & Hs & _). unfold counter2_account. rewrite Hh, Hw. split; [|split].
  - unfold counters_total. rewrite (sum_upto_ext _ (fun _ => 0)), sum_upto_const by (done || lia).
    rewrite Z.mul_0_r. apply ref_account_nil.
  - split; [split; [done|]|split; [done|]].
    + intros i Hi. cbn. rewrite Hh, Hw. cbn. lia.
    + right. right. rewrite Hw0. split; [done|]. intros i Hi. cbn. by rewrite Hh.
  - cbn. lia.
Qed.

Lemma counter2_seq_run validatesize (out : Z -> op -> Z) (R : Z -> Z -> Prop) :
  (forall n o, (o = Decrement -> n <> 0) -> forall r, good_result set validatesize (count_step n o) r ->
     R r (out n o)) ->
  R 0 (out 0 Decrement) ->
  exists n rs g l,
    (forall m, (n <= m)%nat -> run m (run_ops (exec validatesize) ops) g0 l0 = Finished rs g l) /\
    length rs = length ops /\ counter2_account out R (zip ops rs) g l.
Proof.
  intros HR HR0. pose proof Hset as (Hw & Hs & Hd & _).
  pose proof (window_2Dc_laws (SS := counters2) (D := descriptor_t) above Habove) as Hlaws.
  destruct (create_counter2_spec above nt w d k rb set g0 Hcreate Hset) as (HI & _ & _).
  destruct (alone_run (prot2 T set) (run_ops (exec validatesize) ops) (fun rs g l =>
      length rs = length ops /\ counter2_account out R ([] ++ zip ops rs) g l) g0 l0)
    as (n & rs & g & l & Hrun & [Hlen Hacc] & _); [done| |by exists n, rs, g, l].
  apply (wp_run_ops_upto (alone (prot2 T set)) 0%nat (exec validatesize) (length ops)
    (counter2_account out R)); [|cbn; lia|apply counter2_account0].
  intros done o g l Hlt (HA & Hok & Hm & Hlen).
  assert (Hlen' : forall o' r, Z.of_nat (length (done ++ [(o', r)] : list (op * Z)))
    = Z.of_nat (length done) + 1) by (intros; rewrite length_app; cbn [length]; lia).
  assert (Hm2 : max (window g) + depth set <= (Z.of_nat (length ops) + 3) * depth set) by nia.
  assert (Hlim : (Z.of_nat (length ops) + 3) * depth set < 2 ^ 63) by nia.
  assert (Hlim2 : width set * (max (window g) + depth set) < 2 ^ 63) by nia.
  assert (0 <= max (window g)).
  { destruct Hok as ([[[Hr _] _] _] & _). pose proof (row_ok_range set _ Hr). lia. }
  destruct o; cbn [exec_op].
  - apply (increment2_alone T set); [done|nia|cbn; lia|nia|].
    intros r g' l' Hok' Hm' Eh Ht Hr. unfold counter2_account. rewrite Hlen', Ht, Eh.
    split; [|split; [done|lia]]. apply (ref_account_snoc out R done _ Increment); [done|].
    apply HR; [done|]. cbn [count_step]. by rewrite <- Ht.
  - apply (decrement2_alone T set validatesize Hlast); [done|nia|cbn; lia|nia|..].
    + intros r g' l' Hok' Hm' Eh Hpos Ht Hr. unfold counter2_account. rewrite Hlen', Eh.
      assert (E : counters_total (hist (subs g')) (width set) =
                  count_step (counters_total (hist (subs g)) (width set)) Decrement).
      { cbn. destruct (Z.eqb_spec (counters_total (hist (subs g)) (width set)) 0); lia. }
      rewrite E. split; [|split; [done|lia]].
      apply (ref_account_snoc out R done _ Decrement); [done|]. apply HR; [lia|]. by rewrite <- E.
    + intros g' l' Hok' Hm' Eh Hz. unfold counter2_account. rewrite Hlen', Eh.
      split; [|split; [done|lia]].
      assert (E : counters_total (hist (subs g)) (width set) =
                  count_step (counters_total (hist (subs g)) (width set)) Decrement)
        by (by rewrite Hz).
      rewrite E at 1. apply (ref_account_snoc out R done _ Decrement); [done|]. by rewrite Hz.
Qed.

Lemma counter2_size_exact out R done g l :
  counter2_account out R done g l -> Z.of_nat (length done) < 2 ^ 63 ->
  exists n g' l', forall m, (n <= m)%nat ->
    run m (counter_size set) g l = Finished (ref_value done.*1) g' l'.
Proof.
  intros ([_ Ht] & [HI _] & _ & Hlen) Hlim. pose proof Hset as (Hw & _).
  pose proof (ref_value_le done.*1) as Hle. rewrite length_fmap in Hle.
  destruct (alone_run (prot2 T set) (counter_size set) (fun r _ _ => r = ref_value done.*1) g l)
    as (n & r & g' & l' & Hrun & -> & _); [apply HI| |by exists n, g', l'].
  unfold counter_size. rewrite <- Ht.
  apply (counters_size_wp (wprot T set) (width set) (2 ^ 63) (alone (prot2 T set)) 0
    (still_alone T set)); [lia|apply HI|by intros d' n [? _]|]. apply wrap_small. lia.
Qed.

(** C17. Used by one thread the relaxed counter is a counter up to its relaxation: built
    with [VALIDATESIZE] every run terminates, an operation fails exactly when an
    ordinary counter is empty, and [counter_size] then returns the exact value (the
    thread's copy of the window starts with the version the window has, but only
    while nothing has been put); without [VALIDATESIZE] each operation returns an
    estimate of the value that is off by at most [depth * (width - 1)], half of the
    relaxation bound the counter is created for in the modes 1, 2 and 3. *)
Theorem counter2Dc_sequential :
  (exists n rs g l,
    (forall m, (n <= m)%nat -> run m (run_ops (exec true) ops) g0 l0 = Finished rs g l) /\
    rs = ref_run did 0 ops /\
    exists n' g' l', forall m, (n' <= m)%nat ->
      run m (counter_size set) g l = Finished (ref_value ops) g' l') /\
  (exists n rs g l,
    (forall m, (n <= m)%nat -> run m (run_ops (exec false) ops) g0 l0 = Finished rs g l) /\
    Forall2 (fun r v => Z.abs (r - v) <= depth set * (width set - 1)) rs
      (ref_run count_step 0 ops)) /\
  (args_ok 2 64 64 nt w d rb -> 1 <= k <= 3 ->
   2 * (depth set * (width set - 1)) <= relaxation_bound set <= rb).
Proof.
  split; [|split].
  - destruct (counter2_seq_run true did eq) as (n & rs & g & l & Hrun & Hlen & HA).
    + intros n o Ho r ->. destruct o; cbn; [done|].
      destruct (Z.eqb_spec n 0); [by destruct (Ho eq_refl)|done].
    + done.
    + exists n, rs, g, l. split; [done|]. pose proof HA as ([HF _] & _).
      rewrite fst_zip, snd_zip in HF by lia. split; [by apply list_eq_Forall2|].
      pose proof Hset as (Hw & Hs & _).
      destruct (counter2_size_exact _ _ _ g l HA) as (n' & g' & l' & Hrun').
      * pose proof counter2_ops_few. rewrite length_zip_with. lia.
      * exists n', g', l'. by rewrite fst_zip in Hrun' by lia.
  - destruct (counter2_seq_run false count_step
      (fun r v => Z.abs (r - v) <= depth set * (width set - 1))) as (n & rs & g & l & Hrun & Hlen & HA).
    + done.
    + cbn. pose proof Hset as (? & ? & _). nia.
    + exists n, rs, g, l. split; [done|]. pose proof HA as ([HF _] & _).
      by rewrite fst_zip, snd_zip in HF by lia.
  - intros Hargs Hk.
    destruct (calculate_bound 2 64 64 (product_u64 2) nt w d k rb Hargs Hk) as (p & E & Hp).
    revert Hcreate. unfold create_counter. rewrite E. intros [= <- _]. cbn. lia.
Qed.
End runs.

(** ** Concrete runs *)

Definition example_seq_ops : list op := [Increment; Increment; Decrement; Decrement; Decrement].

Lemma example2c_hops_last set :
  random_hops set = 2 -> hops_last (get_types (types_2Dc example_above)) set.
Proof.
  intros E r h Hr Hh. unfold hop_random, example_above. cbn. rewrite E, !Z.ltb_ge. lia.
Qed.

Lemma counter2Dc_sequential_witness :
  (exists n rs g l,
    (forall m, (n <= m)%nat ->
       run m (run_ops (exec_op (wops := window_2Dc example_above) true (mkDs 2 2 3 1 6 1)) example_seq_ops)
         example_mem (tls0 (mkWindow 0 0) 0) = Finished rs g l) /\
    rs = [1; 1; 1; 1; 0] /\
    exists n' g' l', forall m, (n' <= m)%nat ->
      run m (counter_size (mkDs 2 2 3 1 6 1)) g l = Finished 0 g' l') /\
  (exists n rs g l,
    (forall m, (n <= m)%nat ->
       run m (run_ops (exec_op (wops := window_2Dc example_above) false (mkDs 2 2 3 1 6 1)) example_seq_ops)
         example_mem (tls0 (mkWindow 0 0) 0) = Finished rs g l) /\
    Forall2 (fun r v => Z.abs (r - v) <= 3 * (2 - 1)) rs [1; 2; 1; 0; 0]) /\
  (args_ok 2 64 64 1 2 3 6 -> 1 <= 1 <= 3 -> 2 * (3 * (2 - 1)) <= 6 <= 6).
Proof.
  apply (counter2Dc_sequential example_above ltac:(unfold example_above; lia) 1 2 3 1 6
    (mkDs 2 2 3 1 6 1) example_mem ltac:(by apply example2c_hops_last) eq_refl
    ltac:(unfold ds_ok; cbn; lia) example_seq_ops (tls0 (mkWindow 0 0) 0)).
  - split; cbn; lia.
  - reflexivity.
  - vm_compute. reflexivity.
Defined.
