(* ===== verification/MultiCounter.v ===== *)
(** src/multi-counter_random-relaxed: [width] sub-counters without a window; an
    operation works on a sub-counter drawn at random, or, with [NUM_CHOICES],
    on the best of as many draws. *)
From S2P Require Import Prelude Conc Random Thread Shared CounterSpec SubCounters.

(** ** State *)

(** [descriptor_t], and the two fields of [index_t]. *)
Record descriptor_t := mkDesc { count : Z; version : Z }.

#[export] Instance descriptor_eq_dec : EqDecision descriptor_t.
Proof. solve_decision. Defined.

#[export] Instance descriptor_count : CountDesc descriptor_t :=
  {| count_ok d n := count d = n /\ 0 <= n |}.

(** [counter_t] without the array. *)
Record counter_t := mkCounter { width : Z }.

Notation counters3 := (counters descriptor_t).
Notation state := (shared unit counters3).
Notation MC := (M unit counters3).

(** ** Operations *)

(** [NUM_CHOICES], if it is defined, and [VALIDATESIZE]. *)
Section code.
Context (num_choices : option Z) (validatesize : bool).

(** [random_index(set)]. *)
Definition random_index (set : counter_t) : MC Z := Shared.random_index 64 (width set).

(** The loop [for(i=1; i < NUM_CHOICES; i++)] of both functions; [better] says
    when the second descriptor replaces the first. *)
Definition choose (better : Z -> Z -> bool) (n : Z) (set : counter_t) (descriptor : descriptor_t)
    : MC descriptor_t :=
  while (fun '(i, descriptor) =>
    if i <? n then
      let* index2 := random_index set in
      let* version2 := load_count version index2 in
      let* count2 := load_count count index2 in
      let descriptor2 := mkDesc count2 version2 in
      if better (count descriptor2) (count descriptor) then
        put (set_thread_index index2) ;;;
        continue (i64 (i + 1), descriptor2)
      else continue (i64 (i + 1), descriptor)
    else break descriptor) (1, descriptor).

(** The count is read twice. *)
Definition get_increment_index (n : Z) (set : counter_t) : MC descriptor_t :=
  let* r := random_index set in
  put (set_thread_index r) ;;;
  let* index := get thread_index in
  let* version := load_count version index in
  let* _ := load_count count index in
  let* count := load_count count index in
  choose Z.ltb n set (mkDesc count version).

Definition get_decrement_index (n : Z) (set : counter_t) : MC descriptor_t :=
  let* r := random_index set in
  put (set_thread_index r) ;;;
  let* index := get thread_index in
  let* version := load_count version index in
  let* count := load_count count index in
  choose Z.gtb n set (mkDesc count version).

(** [CAS(&set->array[i].count, old, new)]: only the count is compared and
    replaced. *)
Definition cas_count (i old new : Z) (inc : bool) : MC bool :=
  update_count i (fun cur => if decide (count cur = old) then Some (mkDesc new (version cur)) else None) inc.

Definition increment_body (set : counter_t) (_ : unit) : MC (unit + Z) :=
  match num_choices with
  | Some n =>
      let* descriptor := get_increment_index n set in
      let new_descriptor := mkDesc (i64 (count descriptor + 1)) (u64 (version descriptor + 1)) in
      let* index := get thread_index in
      let* ok := cae_count index descriptor new_descriptor true in
      if ok then break (u64 (count new_descriptor * width set))
      else put (count_stat inc_put_cas_fail) ;;; continue tt
  | None =>
      let* r := random_index set in
      put (set_thread_index r) ;;;
      let* index := get thread_index in
      let* count := load_count count index in
      let* ok := cas_count index count (i64 (count + 1)) true in
      if ok then break (u64 (i64 (count + 1) * width set))
      else put (count_stat inc_put_cas_fail) ;;; continue tt
  end.

Definition increment (set : counter_t) : MC Z := while (increment_body set) tt.

Definition decrement_body (set : counter_t) (_ : unit) : MC (unit + Z) :=
  match num_choices with
  | Some n =>
      let* descriptor := get_decrement_index n set in
      if count descriptor =? 0 then
        put (count_stat inc_null) ;;;
        break 0
      else
        let new_descriptor := mkDesc (i64 (count descriptor - 1)) (u64 (version descriptor + 1)) in
        let* index := get thread_index in
        let* ok := cae_count index descriptor new_descriptor false in
        if ok then
          if validatesize then break 1
          else break (u64 (count new_descriptor * width set))
        else put (count_stat inc_get_cas_fail) ;;; continue tt
  | None =>
      let* r := random_index set in
      put (set_thread_index r) ;;;
      let* index := get thread_index in
      let* count := load_count count index in
      if negb (count =? 0) then
        let* ok := cas_count index count (i64 (count - 1)) false in
        if ok then
          if validatesize then break 1
          else break (u64 (i64 (count - 1) * width set))
        else put (count_stat inc_get_cas_fail) ;;; continue tt
      else
        put (count_stat inc_null) ;;;
        break 0
  end.

Definition decrement (set : counter_t) : MC Z := while (decrement_body set) tt.

Definition counter_size (set : counter_t) : MC Z := counters_size count (width set).

Definition exec_op (set : counter_t) (o : op) : MC Z :=
  match o with Increment => increment set | Decrement => decrement set end.
End code.

(** [create_counter]: [calloc], and the counts set to 0. *)
Definition create_counter (width : Z) : counter_t * state :=
  (mkCounter width, mkShared tt (mkCounters (replicate (Z.to_nat width) (mkDesc 0 0)) [])).

Definition choices_ok (num_choices : option Z) : Prop :=
  forall n, num_choices = Some n -> n < 2 ^ 63.

(** How many indices an operation draws. *)
Definition draws (num_choices : option Z) : nat :=
  match num_choices with Some n => Z.to_nat (Z.max 1 n) | None => 1%nat end.

(** The values of the sub-counters. *)
Definition values (g : state) : list Z := count <$> array (subs g).

(** ** The choice process

    The values [vs] of a set of counters; an operation draws [k] indices [js] from the
    seeds [s], which leaves the seeds [s'], and increments the smallest of their
    counters or decrements the greatest. *)
Inductive choice_step (k : nat) (validatesize : bool) (s s' : seeds_t) : op -> Z -> list Z -> list Z -> Prop :=
| choice_inc vs js i v :
    drawn (Z.of_nat (length vs)) s js s' -> length js = k -> i ∈ js -> vs !! Z.to_nat i = Some v ->
    (forall j v', j ∈ js -> vs !! Z.to_nat j = Some v' -> v <= v') ->
    choice_step k validatesize s s' Increment (u64 ((v + 1) * Z.of_nat (length vs))) vs
      (<[Z.to_nat i := v + 1]> vs)
| choice_dec vs js i v :
    drawn (Z.of_nat (length vs)) s js s' -> length js = k -> i ∈ js -> vs !! Z.to_nat i = Some v -> 0 < v ->
    (forall j v', j ∈ js -> vs !! Z.to_nat j = Some v' -> v' <= v) ->
    choice_step k validatesize s s' Decrement
      (if validatesize then 1 else u64 ((v - 1) * Z.of_nat (length vs))) vs
      (<[Z.to_nat i := v - 1]> vs)
| choice_empty vs js :
    drawn (Z.of_nat (length vs)) s js s' -> length js = k ->
    (forall j v', j ∈ js -> vs !! Z.to_nat j = Some v' -> v' <= 0) ->
    choice_step k validatesize s s' Decrement 0 vs vs.

(** From the seeds [s0] and the values [vs0] to the seeds [s] and the values [vs]. *)
Inductive choice_run (k : nat) (validatesize : bool) (s0 : seeds_t) (vs0 : list Z) : list (op * Z) -> seeds_t -> list Z -> Prop :=
| choice_run_nil : choice_run k validatesize s0 vs0 [] s0 vs0
| choice_run_snoc done s vs o r s' vs' :
    choice_run k validatesize s0 vs0 done s vs -> choice_step k validatesize s s' o r vs vs' ->
    choice_run k validatesize s0 vs0 (done ++ [(o, r)]) s' vs'.

(** ** The operations, for a thread among others and for one alone *)

Section operations.
Context (set : counter_t) (Hw : 0 < width set < 2 ^ 63).
Notation WP := (no_window (W := unit)).
Notation B := (joint WP (cprot (width set) (2 ^ 62))).
Context (P : protocol state) (t : nat) {runs : Runs P B t}.
Notation still := (forall g g', p_rely P t g g' -> g' = g).
Notation mine g := (cevents_of t (hist (subs g))).
Implicit Types (g : state) (l : tls unit).

Lemma load_entry {R} (f : descriptor_t -> R) i (Q : R -> state -> tls unit -> Prop) g l :
  0 <= i < width set ->
  (forall g' d, p_rely P t g g' -> p_inv P g' -> lookup_count i g' = Some d -> Q (f d) g' l) ->
  wp P t (load_count f i) Q g l.
Proof.
  intros Hi HQ. apply (wp_load_count WP (width set) (2 ^ 62) P t); [done|].
  intros g' d R' I' _ E _. by apply HQ.
Qed.

Lemma draw (Q : Z -> state -> tls unit -> Prop) g l :
  (forall r s, Random.random_index (width set) (seeds l) = Some (r, s) -> 0 <= r < width set ->
     Q r g (set_seeds s l)) ->
  wp P t (random_index set) Q g l.
Proof. intros HQ. apply wp_shared_draw; [lia|done]. Qed.

(** The thread's index is that of the best among the sub-counters drawn, for
    a thread alone. *)
Definition best_of (better : Z -> Z -> bool) (js : list Z) (d : descriptor_t) g l : Prop :=
  thread_id l = t /\ 0 <= thread_index l < width set /\
  (still -> lookup_count (thread_index l) g = Some d /\ thread_index l ∈ js /\
     forall j d', j ∈ js -> lookup_count j g = Some d' -> better (count d') (count d) = false).

Lemma choose_wp better n d (Q : descriptor_t -> state -> tls unit -> Prop) s0 js g l :
  (forall a b c, better a b = false -> better c b = true -> better a c = false) ->
  (forall a, better a a = false) -> n < 2 ^ 63 ->
  drawn (width set) s0 js (seeds l) -> length js = 1%nat -> best_of better js d g l ->
  (forall d' g' l' js', p_rely P t g g' -> p_inv P g' ->
     drawn (width set) s0 js' (seeds l') -> length js' = draws (Some n) ->
     best_of better js' d' g' l' -> Q d' g' l') ->
  p_inv P g -> wp P t (choose better n set d) Q g l.
Proof.
  intros Htr Hirr Hn63 Hdr Hlen Hbest HQ HI. unfold choose.
  apply (wp_while P t _ _ _ _ (fun m '(i, d1) g1 l1 => p_rely P t g g1 /\ p_inv P g1 /\ 1 <= i /\
    m = Z.to_nat (n - i) /\ i <= Z.max 1 n /\
    exists js1, drawn (width set) s0 js1 (seeds l1) /\ length js1 = Z.to_nat i /\ best_of better js1 d1 g1 l1)
    (Z.to_nat (n - 1))).
  { split; [apply (rely_refl (P := P))|]. do 2 (split; [done|]). split; [done|]. split; [lia|]. by exists js. }
  intros m [i d1] g1 l1 (R1 & I1 & Hi & -> & Him & js1 & Hdr1 & Hlen1 & Ht1 & Hi1 & Hb1).
  destruct (Z.ltb_spec i n) as [Hlt|Hge]; [|wp_locals; apply (HQ d1 g1 l1 js1); try done; unfold draws; rewrite Hlen1; f_equal; lia].
  wp_local. apply draw. intros r s E Hr. wp_local.
  apply load_entry; [done|]. intros g2 d2 R2 I2 E2. wp_local.
  apply load_entry; [done|]. intros g3 d3 R3 I3 E3. wp_locals.
  assert (R13 : p_rely P t g g3).
  { apply (rely_trans (P := P) t g g1 g3); [done|]. by apply (rely_trans (P := P) t g1 g2 g3). }
  assert (Hstill : still -> g3 = g1 /\ d3 = d2 /\ lookup_count r g1 = Some d2).
  { intros Hst. rewrite (Hst _ _ R3), (Hst _ _ R2) in *. split; [done|]. split; [congruence|done]. }
  rewrite sign_small by lia. cbn [count version].
  destruct (better (count d3) (count d1)) eqn:Eb.
  - wp_locals. exists (Z.to_nat (n - (i + 1))). split; [lia|]. split; [done|split; [done|split; [lia|split; [done|split; [lia|]]]]].
    exists (js1 ++ [r]). split; [by eapply drawn_snoc|]. split; [rewrite length_app; cbn; lia|]. split; [done|split; [done|]]. intros Hst.
    destruct (Hstill Hst) as (-> & -> & Er). destruct (Hb1 Hst) as (E1 & Hin & Hall).
    cbn [thread_index set_thread_index]. split; [by destruct d2|]. split; [set_solver|].
    intros j d' [Hj|Hj%list_elem_of_singleton]%elem_of_app Ed'.
    + eapply Htr; [by apply (Hall j d')|done].
    + subst j. assert (d' = d2) as -> by congruence. apply Hirr.
  - wp_locals. exists (Z.to_nat (n - (i + 1))). split; [lia|]. split; [done|split; [done|split; [lia|split; [done|split; [lia|]]]]].
    exists (js1 ++ [r]). split; [by eapply drawn_snoc|]. split; [rewrite length_app; cbn; lia|]. split; [done|split; [done|]]. intros Hst.
    destruct (Hstill Hst) as (-> & -> & Er). destruct (Hb1 Hst) as (E1 & Hin & Hall).
    cbn [thread_index set_seeds]. split; [done|]. split; [set_solver|].
    intros j d' [Hj|Hj%list_elem_of_singleton]%elem_of_app Ed'; [by apply (Hall j d')|].
    subst j. assert (d' = d2) as -> by congruence. done.
Qed.

Lemma best_start better r (d : descriptor_t) g l :
  thread_id l = t -> 0 <= r < width set -> thread_index l = r -> (forall a, better a a = false) ->
  (still -> lookup_count r g = Some d) -> best_of better [r] d g l.
Proof.
  intros Ht Hr <- Hirr Hd. split; [done|split; [done|]]. intros Hst. specialize (Hd Hst).
  split; [done|]. split; [set_solver|]. intros j d' Hj%list_elem_of_singleton Ed'. subst j.
  assert (d' = d) as -> by congruence. apply Hirr.
Qed.

(** [get_increment_index] gives the smallest of the counts drawn. *)
Lemma get_increment_index_wp n (Q : descriptor_t -> state -> tls unit -> Prop) g l :
  thread_id l = t -> n < 2 ^ 63 ->
  (forall d g' l' js, p_rely P t g g' -> p_inv P g' -> drawn (width set) (seeds l) js (seeds l') ->
     length js = draws (Some n) -> best_of Z.ltb js d g' l' -> Q d g' l') ->
  wp P t (get_increment_index n set) Q g l.
Proof.
  intros Ht Hn63 HQ. unfold get_increment_index. wp_local. apply draw. intros r s E Hr. wp_locals.
  cbn [thread_index set_thread_index]. apply load_entry; [done|]. intros g1 d1 R1 I1 E1. wp_local.
  apply load_entry; [done|]. intros g2 d2 R2 I2 E2. wp_local.
  apply load_entry; [done|]. intros g3 d3 R3 I3 E3.
  assert (R13 : p_rely P t g g3).
  { apply (rely_trans (P := P) t g g1 g3); [done|]. by apply (rely_trans (P := P) t g1 g2 g3). }
  apply (choose_wp Z.ltb n _ Q (seeds l) [r]); try done.
  - intros a b c. rewrite !Z.ltb_ge, Z.ltb_lt. lia.
  - intros a. apply Z.ltb_irrefl.
  - by apply drawn_one.
  - apply (best_start _ r); try done; [intros a; apply Z.ltb_irrefl|]. intros Hst.
    rewrite (Hst _ _ R3), (Hst _ _ R2), (Hst _ _ R1) in *.
    assert (d3 = d1) as -> by congruence. by destruct d1.
  - intros d' g' l' js' R' I' Hd Hlen Hb. apply (HQ d' g' l' js'); try done.
    by apply (rely_trans (P := P) t g g3 g').
Qed.

(** [get_decrement_index] gives the greatest. *)
Lemma get_decrement_index_wp n (Q : descriptor_t -> state -> tls unit -> Prop) g l :
  thread_id l = t -> n < 2 ^ 63 ->
  (forall d g' l' js, p_rely P t g g' -> p_inv P g' -> drawn (width set) (seeds l) js (seeds l') ->
     length js = draws (Some n) -> best_of Z.gtb js d g' l' -> Q d g' l') ->
  wp P t (get_decrement_index n set) Q g l.
Proof.
  intros Ht Hn63 HQ. unfold get_decrement_index. wp_local. apply draw. intros r s E Hr. wp_locals.
  cbn [thread_index set_thread_index]. apply load_entry; [done|]. intros g1 d1 R1 I1 E1. wp_local.
  apply load_entry; [done|]. intros g2 d2 R2 I2 E2.
  assert (R12 : p_rely P t g g2) by (by apply (rely_trans (P := P) t g g1 g2)).
  assert (Hirr : forall a, (a >? a) = false).
  { intros a. rewrite Z.gtb_ltb. apply Z.ltb_irrefl. }
  apply (choose_wp Z.gtb n _ Q (seeds l) [r]); try done.
  - intros a b c. rewrite !Z.gtb_ltb, !Z.ltb_ge, Z.ltb_lt. lia.
  - by apply drawn_one.
  - apply (best_start _ r); try done. intros Hst.
    rewrite (Hst _ _ R2), (Hst _ _ R1) in *.
    assert (d2 = d1) as -> by congruence. by destruct d1.
  - intros d' g' l' js' R' I' Hd Hlen Hb. apply (HQ d' g' l' js'); try done.
    by apply (rely_trans (P := P) t g g2 g').
Qed.

(** A retry is only possible among other threads. *)
Definition retry_ok : Prop := p_total P = true -> still.

Lemma retry_never (m : nat) : retry_ok -> ~ still -> p_total P = true -> (m < m)%nat.
Proof. intros Hr Hns Htot. destruct (Hns (Hr Htot)). Qed.

Lemma value_limit3 g i : p_ok B g -> value i (hist (subs g)) < 2 ^ 62.
Proof.
  intros [_ Ho]. cbn in Ho.
  pose proof (value_bound i (hist (subs g))). lia.
Qed.

Lemma values_lookup g i d : lookup_count i g = Some d -> values g !! Z.to_nat i = Some (count d).
Proof. intros E. unfold values. rewrite list_lookup_fmap. unfold lookup_count in E. by rewrite E. Qed.

Lemma values_inv g i v :
  values g !! Z.to_nat i = Some v -> exists d, lookup_count i g = Some d /\ count d = v.
Proof.
  unfold values. rewrite list_lookup_fmap. unfold lookup_count.
  destruct (array (subs g) !! Z.to_nat i) as [d|]; [|done]. intros [= <-]. by exists d.
Qed.

Lemma values_length g : p_inv P g -> Z.of_nat (length (values g)) = width set.
Proof.
  intros HI. unfold values. rewrite length_fmap.
  by apply (inv_counters WP (width set) (2 ^ 62) P t g HI).
Qed.

Lemma values_after g i new inc :
  values (set_subs (after_count t i new inc (subs g)) g) = <[Z.to_nat i := count new]> (values g).
Proof. unfold values. cbn. by rewrite list_fmap_insert. Qed.

(** What is known after a successful update of a sub-counter that held [c]. *)
Definition updated (inc : bool) (c : Z) i g g' : Prop :=
  p_inv P g' /\ 0 <= i < width set /\
  mine g' = (if inc then Inc i else Dec i) :: mine g /\
  i64 (c + delta inc) = c + delta inc /\ 0 <= c /\
  (still -> hist (subs g') = (t, if inc then Inc i else Dec i) :: hist (subs g) /\
            values g' = <[Z.to_nat i := c + delta inc]> (values g)).

Lemma updated_after inc i d new g1 g :
  p_inv P g1 -> 0 <= i < width set -> p_ok B g1 -> p_rely P t g g1 ->
  count_ok d (value i (hist (subs g1))) -> (inc = false -> count d <> 0) ->
  count new = i64 (count d + delta inc) ->
  let g2 := set_subs (after_count t i new inc (subs g1)) g1 in
  count_ok new (value i (hist (subs g1)) + delta inc) /\ (p_inv P g2 -> updated inc (count d) i g g2).
Proof.
  intros I1 Hi O1 R1 [Hd Hnn] Hpos En g2. pose proof (value_limit3 g1 i O1) as Hlim.
  assert (E : i64 (count d + delta inc) = count d + delta inc).
  { apply sign_small; [lia|]. unfold delta. destruct inc; lia. }
  rewrite E in En. split.
  - split; [lia|]. unfold delta in *. destruct inc; [lia|specialize (Hpos eq_refl); lia].
  - intros I2. split; [done|split; [done|split; [|split; [done|split; [lia|]]]]].
    + unfold g2. cbn [subs set_subs]. rewrite mine_after_count.
      by rewrite (counters_mine WP (width set) (2 ^ 62) P t g g1 R1).
    + intros Hst. unfold g2. rewrite values_after, En, (Hst _ _ R1). done.
Qed.

(** Both compare-and-exchanges. *)
Lemma counter3_cae_wp inc d (Q : bool -> state -> tls unit -> Prop) v g l :
  within P B t g -> 0 <= thread_index l < width set -> thread_id l = t ->
  (inc = false -> count d <> 0) ->
  (still -> lookup_count (thread_index l) g = Some d) ->
  (forall g', updated inc (count d) (thread_index l) g g' -> Q true g' l) ->
  (forall g', p_inv P g' -> ~ still -> p_rely P t g g' -> Q false g' l) ->
  wp P t (cae_count (thread_index l) d (mkDesc (i64 (count d + delta inc)) v) inc) Q g l.
Proof.
  intros Hin Hi Ht Hpos Hst HQ HQ'.
  apply (wp_update_count WP (width set) (2 ^ 62) P t); [done|done|..].
  - intros g1 d1 new R1 I1 O1 E1 Ef Hd. destruct (decide (d1 = d)) as [->|]; [|done].
    injection Ef as <-.
    destruct (updated_after inc (thread_index l) d (mkDesc (i64 (count d + delta inc)) v) g1 g
      I1 Hi (Hin g1 R1 I1 O1) R1 Hd Hpos eq_refl) as [Hok Hup].
    split; [exact Hok|]. intros g2 I2. by apply HQ, Hup.
  - intros g1 d1 R1 I1 E1 Ef. apply HQ'; [done| |done]. intros Hs.
    rewrite (Hs _ _ R1), (Hst Hs) in E1. injection E1 as <-. by rewrite decide_True in Ef.
Qed.

Lemma counter3_cas_wp inc c (Q : bool -> state -> tls unit -> Prop) g l :
  within P B t g -> 0 <= thread_index l < width set -> thread_id l = t ->
  (inc = false -> c <> 0) ->
  (still -> exists d, lookup_count (thread_index l) g = Some d /\ count d = c) ->
  (forall g', updated inc c (thread_index l) g g' -> Q true g' l) ->
  (forall g', p_inv P g' -> ~ still -> p_rely P t g g' -> Q false g' l) ->
  wp P t (cas_count (thread_index l) c (i64 (c + delta inc)) inc) Q g l.
Proof.
  intros Hin Hi Ht Hpos Hst HQ HQ'. unfold cas_count.
  apply (wp_update_count WP (width set) (2 ^ 62) P t); [done|done|..].
  - intros g1 d new R1 I1 O1 E1 Ef Hd. destruct (decide (count d = c)) as [<-|]; [|done].
    injection Ef as <-.
    destruct (updated_after inc (thread_index l) d (mkDesc (i64 (count d + delta inc)) (version d)) g1 g
      I1 Hi (Hin g1 R1 I1 O1) R1 Hd Hpos eq_refl) as [Hok Hup].
    split; [exact Hok|]. intros g2 I2. by apply HQ, Hup.
  - intros g1 d R1 I1 E1 Ef. apply HQ'; [done| |done].
    intros Hs. rewrite (Hs _ _ R1) in E1. destruct (Hst Hs) as (d' & Ed' & Ec).
    assert (d' = d) as -> by congruence. by rewrite decide_True in Ef.
Qed.

(** The choice an operation makes, for a thread alone. *)
Lemma best_values better js d g l :
  still -> best_of better js d g l ->
  thread_index l ∈ js /\ values g !! Z.to_nat (thread_index l) = Some (count d) /\
  forall j v, j ∈ js -> values g !! Z.to_nat j = Some v -> better v (count d) = false.
Proof.
  intros Hst (_ & _ & Hb). destruct (Hb Hst) as (E & Hin & Hall). split; [done|].
  split; [by apply values_lookup|]. intros j v Hj Hv.
  destruct (values_inv g j v Hv) as (d' & E' & <-). by apply (Hall j).
Qed.

(** What an operation did: its event, and, for a thread alone, its choice. *)
Definition did_op num_choices validatesize (s s' : seeds_t) (o : op) (r : Z) g g' : Prop :=
  p_inv P g' /\
  (exists i, 0 <= i < width set /\
     mine g' = (match o with Increment => Inc i | Decrement => Dec i end) :: mine g /\
     (still -> hist (subs g') =
        (t, match o with Increment => Inc i | Decrement => Dec i end) :: hist (subs g))) /\
  (still -> choice_step (draws num_choices) validatesize s s' o r (values g) (values g')).

Lemma did_increment num_choices validatesize s s' js d g g1 g' l :
  drawn (width set) s js s' -> length js = draws num_choices -> p_inv P g1 -> p_rely P t g g1 -> best_of Z.ltb js d g1 l ->
  updated true (count d) (thread_index l) g1 g' ->
  did_op num_choices validatesize s s' Increment (u64 (i64 (count d + 1) * width set)) g g'.
Proof.
  intros Hdr Hlen I1 R1 Hb (I' & Hi & Hm & Ei & Hnn & Hst). unfold delta in *.
  rewrite (counters_mine WP (width set) (2 ^ 62) P t g g1 R1) in Hm.
  split; [done|split].
  - exists (thread_index l). split; [done|split; [done|]]. intros Hs.
    rewrite <- (Hs _ _ R1). by apply Hst.
  - intros Hs. destruct (best_values _ _ _ _ _ Hs Hb) as (Hin & Ev & Hall).
    destruct (Hst Hs) as [_ ->]. rewrite Ei, <- (values_length g1 I1), (Hs _ _ R1) in *.
    apply (choice_inc _ _ _ _ _ js); [done..|]. intros j v Hj Hv. specialize (Hall j v Hj Hv).
    apply Z.ltb_ge in Hall. lia.
Qed.

Lemma did_decrement num_choices validatesize s s' js d g g1 g' l :
  drawn (width set) s js s' -> length js = draws num_choices -> p_inv P g1 -> p_rely P t g g1 -> best_of Z.gtb js d g1 l ->
  count d <> 0 -> updated false (count d) (thread_index l) g1 g' ->
  did_op num_choices validatesize s s' Decrement
    (if validatesize then 1 else u64 (i64 (count d - 1) * width set)) g g'.
Proof.
  intros Hdr Hlen I1 R1 Hb Hnz (I' & Hi & Hm & Ei & Hnn & Hst). unfold delta in *.
  change (count d + -1) with (count d - 1) in *.
  rewrite (counters_mine WP (width set) (2 ^ 62) P t g g1 R1) in Hm.
  split; [done|split].
  - exists (thread_index l). split; [done|split; [done|]]. intros Hs.
    rewrite <- (Hs _ _ R1). by apply Hst.
  - intros Hs. destruct (best_values _ _ _ _ _ Hs Hb) as (Hin & Ev & Hall).
    destruct (Hst Hs) as [_ ->]. rewrite Ei, <- (values_length g1 I1), (Hs _ _ R1) in *.
    apply (choice_dec _ _ _ _ _ js); [done|done|done|done|lia|]. intros j v Hj Hv. specialize (Hall j v Hj Hv).
    rewrite Z.gtb_ltb in Hall. apply Z.ltb_ge in Hall. lia.
Qed.

(** The empty answer: for a thread alone all draws are empty. *)
Definition did_nothing num_choices validatesize (s s' : seeds_t) g g' : Prop :=
  p_inv P g' /\ mine g' = mine g /\ (still -> hist (subs g') = hist (subs g)) /\
  (still -> choice_step (draws num_choices) validatesize s s' Decrement 0 (values g) (values g')).

(** Between the tries of a call the seeds are those of its begin, for a thread alone. *)
Lemma did_op_from num_choices validatesize s1 s s' o r g g' :
  (still -> s1 = s) -> did_op num_choices validatesize s1 s' o r g g' -> did_op num_choices validatesize s s' o r g g'.
Proof. intros E (HI & Hi & Hc). split; [done|split; [done|]]. intros Hs. rewrite <- (E Hs). by apply Hc. Qed.
Lemma did_nothing_from num_choices validatesize s1 s s' g g' :
  (still -> s1 = s) -> did_nothing num_choices validatesize s1 s' g g' -> did_nothing num_choices validatesize s s' g g'.
Proof. intros E (HI & Hm & Hh & Hc). do 3 (split; [done|]). intros Hs. rewrite <- (E Hs). by apply Hc. Qed.

Lemma did_empty num_choices validatesize s s' js d g g1 l :
  drawn (width set) s js s' -> length js = draws num_choices -> p_inv P g1 -> p_rely P t g g1 -> best_of Z.gtb js d g1 l ->
  count d = 0 -> did_nothing num_choices validatesize s s' g g1.
Proof.
  intros Hdr Hlen I1 R1 Hb Hz. split; [done|].
  split; [by apply (counters_mine WP (width set) (2 ^ 62) P t)|].
  split; [intros Hs; by rewrite (Hs _ _ R1)|].
  intros Hs. destruct (best_values _ _ _ _ _ Hs Hb) as (Hin & Ev & Hall).
  rewrite <- (values_length g1 I1) in Hdr. rewrite (Hs _ _ R1) in *. apply (choice_empty _ _ _ _ _ js); [done|done|]. intros j v Hj Hv.
  specialize (Hall j v Hj Hv). rewrite Z.gtb_ltb, Hz in Hall. by apply Z.ltb_ge in Hall.
Qed.

(** One draw is a choice of one. *)
Lemma best_of_one better r d g g1 l :
  (forall a, better a a = false) -> thread_id l = t -> 0 <= r < width set -> thread_index l = r ->
  p_rely P t g g1 -> lookup_count r g1 = Some d -> best_of better [r] d g1 l.
Proof. intros Hirr Ht Hr Ei R1 E. by apply (best_start _ r). Qed.

Lemma increment3_wp num_choices validatesize (Q : Z -> state -> tls unit -> Prop) g l :
  choices_ok num_choices -> retry_ok -> within P B t g -> thread_id l = t -> p_inv P g ->
  (forall r g' l', thread_id l' = t -> did_op num_choices validatesize (seeds l) (seeds l') Increment r g g' -> Q r g' l') ->
  wp P t (increment num_choices set) Q g l.
Proof.
  intros Hn Hretry Hin Ht HI HQ.
  apply (wp_while P t _ _ _ _ (fun _ _ g1 l1 => p_inv P g1 /\ thread_id l1 = t /\ p_rely P t g g1 /\ (still -> seeds l1 = seeds l)) 0%nat);
    [by split; [|split; [|split; [apply (rely_refl (P := P))|]]]|].
  intros m [] g1 l1 (I1 & Ht1 & R1 & Hsd). unfold increment_body.
  destruct num_choices as [n|] eqn:En; wp_local.
  - apply get_increment_index_wp; [done|by apply Hn|].
    intros d g2 l2 js R2 I2 Hdr Hlen Hb. pose proof Hb as (Ht2 & Hi2 & Hb'). wp_locals.
    pose proof (rely_trans (P := P) t g g1 g2 R1 R2) as R12.
    pose proof (within_rely P B t g g2 Hin R12) as Hin2.
    apply (counter3_cae_wp true); [done|done|done|done|by intros ?; apply Hb'|..].
    + intros g3 Hup. wp_locals. apply HQ; [done|]. apply (did_op_from _ _ _ _ _ _ _ _ _ Hsd). by eapply did_increment.
    + intros g3 I3 Hns R3. wp_locals. exists m. split; [by apply retry_never|].
      split; [done|split; [done|split; [|by intros ?]]]. by apply (rely_trans (P := P) t g g2 g3).
  - apply draw. intros r s E Hr. wp_locals. cbn [thread_index set_thread_index].
    apply load_entry; [done|]. intros g2 d2 R2 I2 E2. wp_local.
    pose proof (rely_trans (P := P) t g g1 g2 R1 R2) as R12.
    pose proof (within_rely P B t g g2 Hin R12) as Hin2.
    apply (counter3_cas_wp true (count d2)) with (l := set_thread_index r (set_seeds s l1));
      [done|done|done|done|by intros ?; exists d2|..].
    + intros g3 Hup. wp_locals. apply HQ; [done|]. apply (did_op_from _ _ _ _ _ _ _ _ _ Hsd).
      eapply (did_increment _ _ _ _ [r] d2); [by apply drawn_one|done|exact I2|done| |exact Hup].
      eapply best_of_one; [intros a; apply Z.ltb_irrefl|done|done|done|exact R2|done].
    + intros g3 I3 Hns R3. wp_locals. exists m. split; [by apply retry_never|].
      split; [done|split; [done|split; [|by intros ?]]]. by apply (rely_trans (P := P) t g g2 g3).
Qed.

Lemma decrement3_wp num_choices validatesize (Q : Z -> state -> tls unit -> Prop) g l :
  choices_ok num_choices -> retry_ok -> within P B t g -> thread_id l = t -> p_inv P g ->
  (forall r g' l', thread_id l' = t -> did_op num_choices validatesize (seeds l) (seeds l') Decrement r g g' ->
     result_ok validatesize r -> Q r g' l') ->
  (forall g' l', thread_id l' = t -> did_nothing num_choices validatesize (seeds l) (seeds l') g g' -> Q 0 g' l') ->
  wp P t (decrement num_choices validatesize set) Q g l.
Proof.
  intros Hn Hretry Hin Ht HI HQ HQ0.
  assert (Hirr : forall a, (a >? a) = false).
  { intros a. rewrite Z.gtb_ltb. apply Z.ltb_irrefl. }
  apply (wp_while P t _ _ _ _ (fun _ _ g1 l1 => p_inv P g1 /\ thread_id l1 = t /\ p_rely P t g g1 /\ (still -> seeds l1 = seeds l)) 0%nat);
    [by split; [|split; [|split; [apply (rely_refl (P := P))|]]]|].
  intros m [] g1 l1 (I1 & Ht1 & R1 & Hsd). unfold decrement_body.
  assert (Hres : forall x, result_ok validatesize (if validatesize then 1 else x)) by (by intros x ->).
  destruct num_choices as [n|] eqn:En; wp_local.
  - apply get_decrement_index_wp; [done|by apply Hn|].
    intros d g2 l2 js R2 I2 Hdr Hlen Hb. pose proof Hb as (Ht2 & Hi2 & Hb').
    pose proof (rely_trans (P := P) t g g1 g2 R1 R2) as R12.
    pose proof (within_rely P B t g g2 Hin R12) as Hin2.
    destruct (Z.eqb_spec (count d) 0) as [Hz|Hnz]; wp_locals.
    { apply HQ0; [done|]. apply (did_nothing_from _ _ _ _ _ _ _ Hsd). by eapply did_empty. }
    apply (counter3_cae_wp false); [done|done|done|done|by intros ?; apply Hb'|..].
    + intros g3 Hup.
      assert (Hd : did_op (Some n) validatesize (seeds l) (seeds l2) Decrement
        (if validatesize then 1 else u64 (i64 (count d - 1) * width set)) g g3)
        by (apply (did_op_from _ _ _ _ _ _ _ _ _ Hsd); by eapply did_decrement).
      specialize (Hres (u64 (i64 (count d - 1) * width set))).
      destruct validatesize; wp_locals; by apply HQ.
    + intros g3 I3 Hns R3. wp_locals. exists m. split; [by apply retry_never|].
      split; [done|split; [done|split; [|by intros ?]]]. by apply (rely_trans (P := P) t g g2 g3).
  - apply draw. intros r s E Hr. wp_locals. cbn [thread_index set_thread_index].
    apply load_entry; [done|]. intros g2 d2 R2 I2 E2.
    pose proof (rely_trans (P := P) t g g1 g2 R1 R2) as R12.
    pose proof (within_rely P B t g g2 Hin R12) as Hin2.
    assert (Hb : best_of Z.gtb [r] d2 g2 (set_thread_index r (set_seeds s l1)))
      by (eapply best_of_one; [done|done|done|done|exact R2|done]).
    destruct (Z.eqb_spec (count d2) 0) as [Hz|Hnz]; cbn [negb]; wp_locals.
    { apply HQ0; [done|]. apply (did_nothing_from _ _ _ _ _ _ _ Hsd). eapply (did_empty None _ _ _ [r]); [by apply drawn_one|done..]. }
    apply (counter3_cas_wp false (count d2)) with (l := set_thread_index r (set_seeds s l1));
      [done|done|done|done|by intros ?; exists d2|..].
    + intros g3 Hup.
      assert (Hd : did_op None validatesize (seeds l) s Decrement
        (if validatesize then 1 else u64 (i64 (count d2 - 1) * width set)) g g3)
        by (apply (did_op_from _ _ _ _ _ _ _ _ _ Hsd); eapply (did_decrement None _ _ _ [r]); [by apply drawn_one|done..]).
      specialize (Hres (u64 (i64 (count d2 - 1) * width set))).
      destruct validatesize; wp_locals; by apply HQ.
    + intros g3 I3 Hns R3. wp_locals. exists m. split; [by apply retry_never|].
      split; [done|split; [done|split; [|by intros ?]]]. by apply (rely_trans (P := P) t g g2 g3).
Qed.
End operations.

(** ** Creation *)

Lemma create_counter3_inv w g :
  0 <= w -> (create_counter w).2 = g ->
  p_inv (joint (no_window (W := unit)) (cprot w (2 ^ 62))) g /\ hist (subs g) = [].
Proof.
  intros Hw <-. split; [|done]. split; [done|]. split; cbn.
  - rewrite length_replicate. lia.
  - intros i d _ E. apply lookup_replicate in E as [-> _]. by split.
Qed.

(** ** Every interleaving *)

Section theorems.
Context (num_choices : option Z) (Hn : choices_ok num_choices).
Context (w : Z) (Hw : 0 < w < 2 ^ 63) (validatesize : bool).
Notation set := (mkCounter w).
Notation B := (joint (no_window (W := unit)) (cprot w (2 ^ 62))).

Section concurrent.
Context (opss : list (list op)) (ls : list (tls unit)) (schedule : list nat).
Context (Hls : forall i l, ls !! i = Some l -> thread_id l = i).
Context (Hbound : Z.of_nat (length schedule) < 2 ^ 62).

Let final := exec (mkCfg (create_counter w).2
  (clients (exec_op num_choices validatesize set) opss ls)) schedule.

(** C37. Each finished thread's results are accounted for, one by one and in
    program order, by that thread's events; every call that does not return
    the empty answer 0 took effect exactly once; in every reachable state each
    sub-counter holds exactly the updates made to it and is not negative; no
    thread fails.  [increment] returns an estimate even with [VALIDATESIZE]. *)
Theorem multi_counter_exactly_once :
  ~ faulty final /\
  (forall i, 0 <= i < w -> exists d,
     array (subs (mem final)) !! Z.to_nat i = Some d /\
     count d = value i (hist (subs (mem final))) /\ 0 <= count d) /\
  (forall i rs l os, pool final !! i = Some (Ret rs, l) -> opss !! i = Some os ->
     length rs = length os /\
     explains w (fun _ => True) (zip os rs) (cevents_of i (hist (subs (mem final))))).
Proof.
  destruct (create_counter3_inv w _ ltac:(lia) eq_refl) as [HI Hh].
  destruct (clients_soundness (exec_op num_choices validatesize set) B
    (fun t done (g : state) l => p_inv B g /\ thread_id l = t /\
       explains w (fun _ => True) done (cevents_of t (hist (subs g)))))
    with (meas := fun g : state => Z.of_nat (length (hist (subs g))))
      (delta := 1) (limit := 2 ^ 62 - 1)
      (g0 := (create_counter w).2) (opss := opss) (ls := ls) (schedule := schedule)
    as (HI' & HF & HQ); try done.
  - intros t done o g l (HIg & Hl & HJ). destruct o; cbn [exec_op].
    + apply (increment3_wp set Hw B t num_choices validatesize); try done.
      intros r g' l' Hl' (HIg' & (i & Hi & Hm & _) & _).
      split; [done|split; [done|]]. rewrite Hm. by constructor.
    + apply (decrement3_wp set Hw B t num_choices); try done.
      * intros r g' l' Hl' (HIg' & (i & Hi & Hm & _) & _) _.
        split; [done|split; [done|]]. rewrite Hm. by constructor.
      * intros g' l' Hl' (HIg' & Hm & _). split; [done|split; [done|]]. rewrite Hm. by constructor.
  - intros t g g' _ [_ (_ & _ & Hlen)]. lia.
  - intros g _ Hm. cbn. lia.
  - rewrite Hh. cbn [length]. lia.
  - intros i l Hl. split; [done|split; [by apply Hls|]]. rewrite Hh. constructor.
  - fold final in HI', HF, HQ. split; [done|split].
    + destruct HI' as [_ Hs]. intros i Hi.
      destruct (count_lookup w _ i Hs Hi) as [d E]. exists d.
      destruct (proj2 Hs i _ (proj1 Hi) E) as [Ec Hc]. split; [done|lia].
    + intros i rs l os Hp Ho.
      destruct (HQ i rs l os Hp Ho) as (Hlen & g1 & R1 & _ & _ & HJ1). split; [done|].
      destruct R1 as [_ (_ & E1)]. rewrite <- E1 in HJ1. exact HJ1.
Qed.
End concurrent.

(** [counter_size] is the sum of the values, for a thread alone. *)
Lemma multi_counter_size g l :
  p_inv B g -> exists n g' l', forall m, (n <= m)%nat ->
    run m (counter_size set) g l
      = Finished (u64 (sum_upto (fun i => default 0 (values g !! Z.to_nat i)) w)) g' l'.
Proof.
  intros HI. set (r0 := u64 _).
  destruct (alone_run B (counter_size set) (fun r _ _ => r = r0) g l)
    as (n & r & g' & l' & Hrun & -> & _); [done| |by exists n, g', l'].
  apply (counters_size_wp (no_window (W := unit)) w (2 ^ 62) (alone B) 0%nat);
    [by intros g1 g2 R; apply R|done|done|by intros d n [? _]|].
  unfold r0, counters_total. f_equal. apply sum_upto_ext. intros i Hi. pose proof HI as [_ Hs].
  destruct (count_lookup w _ i Hs Hi) as [d E].
  destruct (proj2 Hs i d (proj1 Hi) E) as [<- _]. unfold values.
  rewrite list_lookup_fmap, E. done.
Qed.

(** C36. Refinement, for one thread: every run terminates and is a run of the choice
    process on the values of the sub-counters in memory: with the [NUM_CHOICES]
    indices (one without it) that the generator yields from the thread's seeds, an
    increment works on the smallest, a decrement on the greatest of their
    sub-counters, and 0 is answered for an empty counter only if all those are empty;
    [counter_size] then returns the sum of all. *)
Theorem multi_counter_choice ops l0 :
  thread_id l0 = 0%nat -> Z.of_nat (length ops) < 2 ^ 62 ->
  exists n rs g l vs,
    (forall m, (n <= m)%nat ->
       run m (run_ops (exec_op num_choices validatesize set) ops) (create_counter w).2 l0
         = Finished rs g l) /\
    length rs = length ops /\
    choice_run (draws num_choices) validatesize (seeds l0) (replicate (Z.to_nat w) 0) (zip ops rs) (seeds l) vs /\
    count <$> array (subs g) = vs /\
    exists n' g' l', forall m, (n' <= m)%nat ->
      run m (counter_size set) g l
        = Finished (u64 (sum_upto (fun i => default 0 (vs !! Z.to_nat i)) w)) g' l'.
Proof.
  intros Hl0 Hlim. destruct (create_counter3_inv w _ ltac:(lia) eq_refl) as [HI0 Hh0].
  destruct (alone_run B (run_ops (exec_op num_choices validatesize set) ops) (fun rs g l =>
      length rs = length ops /\
      (choice_run (draws num_choices) validatesize (seeds l0) (replicate (Z.to_nat w) 0) ([] ++ zip ops rs) (seeds l) (values g) /\
       p_inv B g /\ thread_id l = 0%nat /\ (length (hist (subs g)) <= length ([] ++ zip ops rs))%nat))
      (create_counter w).2 l0)
    as (n & rs & g & l & Hrun & (Hlen & Hch & HI & Hl & Hlh) & _); [done| |].
  - apply (wp_run_ops_upto (alone B) 0%nat (exec_op num_choices validatesize set) (length ops)
      (fun done g l => choice_run (draws num_choices) validatesize (seeds l0) (replicate (Z.to_nat w) 0) done (seeds l) (values g) /\
         p_inv B g /\ thread_id l = 0%nat /\ (length (hist (subs g)) <= length done)%nat));
      [|cbn; lia|].
    2: { split; [|split; [done|split; [done|rewrite Hh0; cbn; lia]]].
         unfold values, create_counter; cbn. rewrite fmap_replicate. constructor. }
    intros done o g l Hlt (Hch & HI & Hl & Hlh).
    assert (Hwithin : within (alone B) B 0%nat g) by (apply within_alone; split; [exact I|cbn; lia]).
    assert (Hst : forall g g', p_rely (alone B) 0%nat g g' -> g' = g) by (intros g1 g2 R; by apply R).
    assert (Hretry : retry_ok (alone B) 0%nat) by (intros _; exact Hst).
    destruct o; cbn [exec_op].
    + apply (increment3_wp set Hw (alone B) 0%nat num_choices validatesize); try done.
      intros r g' l' Hl' (HI' & (i & _ & _ & Hh) & Hc). specialize (Hh Hst). specialize (Hc Hst).
      split; [by econstructor|]. split; [done|split; [done|]].
      rewrite Hh, length_app. cbn [length]. lia.
    + apply (decrement3_wp set Hw (alone B) 0%nat num_choices); try done.
      * intros r g' l' Hl' (HI' & (i & _ & _ & Hh) & Hc) _. specialize (Hh Hst). specialize (Hc Hst).
        split; [by econstructor|]. split; [done|split; [done|]].
        rewrite Hh, length_app. cbn [length]. lia.
      * intros g' l' Hl' (HI' & _ & Hh & Hc). specialize (Hh Hst). specialize (Hc Hst).
        split; [by econstructor|]. split; [done|split; [done|]].
        rewrite Hh, length_app. cbn [length]. lia.
  - exists n, rs, g, l, (values g). split; [done|split; [done|split; [exact Hch|split; [done|]]]].
    apply (multi_counter_size g l HI).
Qed.
End theorems.

(** ** Concrete executions: two sub-counters, two choices *)

Definition example_ops : list (list op) := [[Increment; Decrement]; [Increment]].
Definition example_schedule : list nat := mjoin (replicate 60 [0; 1]%nat).
Definition example_final : cfg state (tls unit) (list Z) :=
  exec (mkCfg (create_counter 2).2
    (clients (exec_op (Some 2) true (mkCounter 2)) example_ops (tls0 tt <$> seq 0 2))) example_schedule.

Example multi_counter_example_finishes :
  (fun pl => match pl.1 with Ret rs => Some rs | _ => None end) <$> pool example_final
    = [Some [2; 1]; Some [2]] /\
  array (subs (mem example_final)) = [mkDesc 0 2; mkDesc 1 1].
Proof. vm_compute. split; reflexivity. Qed.

Lemma multi_counter_exactly_once_witness :
  explains 2 (fun _ => True) [(Increment, 2); (Decrement, 1)]
    (cevents_of 0 (hist (subs (mem example_final)))).
Proof.
  refine (proj2 (proj2 (proj2 (multi_counter_exactly_once (Some 2) _ 2 ltac:(lia) true
    example_ops (tls0 tt <$> seq 0 2) example_schedule _ _)) 0%nat [2; 1] _
    [Increment; Decrement] _ _)).
  - intros n [= <-]. lia.
  - intros i l H. by apply tls0_lookup in H as ->.
  - vm_compute. reflexivity.
  - vm_compute. reflexivity.
  - reflexivity.
Defined.

Lemma multi_counter_choice_witness :
  exists n rs g l vs,
    (forall m, (n <= m)%nat ->
       run m (run_ops (exec_op (Some 2) true (mkCounter 2)) [Increment; Increment; Decrement])
         (create_counter 2).2 (tls0 tt 0) = Finished rs g l) /\
    length rs = 3%nat /\
    choice_run 2 true (mkSeeds 1 2 3) [0; 0] (zip [Increment; Increment; Decrement] rs) (seeds l) vs /\
    count <$> array (subs g) = vs /\
    exists n' g' l', forall m, (n' <= m)%nat ->
      run m (counter_size (mkCounter 2)) g l
        = Finished (u64 (sum_upto (fun i => default 0 (vs !! Z.to_nat i)) 2)) g' l'.
Proof.
  apply (multi_counter_choice (Some 2) ltac:(intros n [= <-]; lia) 2 ltac:(lia) true
    [Increment; Increment; Decrement] (tls0 tt 0)).
  - reflexivity.
  - vm_compute. reflexivity.
Defined.
