(* ===== verification/FaaCounters.v ===== *)
(** The counters whose operations never find them empty:
    src/multi-counter-faa_random-relaxed (fetch-and-add on one of [width]
    sub-counters), src/single-cas and src/single-faa (one atomic variable). *)
From S2P Require Import Prelude Conc Random Thread Shared CounterSpec SubCounters.

(** ** State *)

(** An [int64_t count] (next to an unused [version]), or the atomic variable. *)
Record index_t := mkIndex { count : Z }.

#[export] Instance index_eq_dec : EqDecision index_t.
Proof. solve_decision. Defined.

#[export] Instance index_count : CountDesc index_t := {| count_ok d n := count d = n |}.

Notation counters4 := (counters index_t).
Notation state := (shared unit counters4).
Notation MC := (M unit counters4).

(** Atomically adds [v] to entry [i]; [v] is 1 or -1. *)
Definition fetch_add (i : Z) (inc : bool) : MC Z :=
  Act (fun g l =>
    cur ← lookup_count i g;
    Some (count cur,
          set_subs (mkCounters
            (<[Z.to_nat i := mkIndex (i64 (count cur + delta inc))]> (array (subs g)))
            ((thread_id l, if inc then Inc i else Dec i) :: hist (subs g))) g, l)) Ret.

Definition counter_state (w : Z) : state :=
  mkShared tt (mkCounters (replicate (Z.to_nat w) (mkIndex 0)) []).

(** ** multi-counter-faa_random-relaxed *)

Module MultiFaa.
(** [counter_t] without the array. *)
Record counter_t := mkCounter { width : Z }.

Definition random_index (set : counter_t) : MC Z := Shared.random_index 64 (width set).

(** Both return 1, with and without [VALIDATESIZE]. *)
Definition increment (set : counter_t) : MC Z :=
  let* r := random_index set in
  put (set_thread_index r) ;;;
  let* index := get thread_index in
  let* _ := fetch_add index true in
  Ret 1.

Definition decrement (set : counter_t) : MC Z :=
  let* r := random_index set in
  put (set_thread_index r) ;;;
  let* index := get thread_index in
  let* _ := fetch_add index false in
  Ret 1.

Definition counter_size (set : counter_t) : MC Z := counters_size count (width set).

Definition exec_op (set : counter_t) (o : op) : MC Z :=
  match o with Increment => increment set | Decrement => decrement set end.

Definition create_counter (width : Z) : counter_t * state := (mkCounter width, counter_state width).
End MultiFaa.

(** ** single-cas and single-faa *)

Module Single.
Definition create : state := counter_state 1.

(** [atomic_compare_exchange_weak(ptr, &oldValue, newValue)]: it may fail
    although the values are equal, whenever [spurious] says so; when it fails
    [oldValue] becomes the present value. *)
Definition cas_weak (spurious : state -> tls unit -> bool) (oldValue newValue : Z) (inc : bool)
    : MC (bool * Z) :=
  Act (fun g l =>
    cur ← lookup_count 0 g;
    if decide (count cur = oldValue) then
      if spurious g l then Some ((false, count cur), g, l)
      else Some ((true, oldValue),
             set_subs (mkCounters (<[0%nat := mkIndex newValue]> (array (subs g)))
                         ((thread_id l, if inc then Inc 0 else Dec 0) :: hist (subs g))) g, l)
    else Some ((false, count cur), g, l)) Ret.

Section code.
Context (spurious : state -> tls unit -> bool).

Definition inc_cas : MC Z :=
  let* oldValue := load_count count 0 in
  while (fun '(oldValue, newValue) =>
    let* (ok, oldValue) := cas_weak spurious oldValue newValue true in
    if (ok : bool) then break oldValue
    else
      put (count_stat inc_put_cas_fail) ;;;
      continue (oldValue, i64 (oldValue + 1))) (oldValue, i64 (oldValue + 1)).

Definition dec_cas : MC Z :=
  let* oldValue := load_count count 0 in
  while (fun '(oldValue, newValue) =>
    let* (ok, oldValue) := cas_weak spurious oldValue newValue false in
    if (ok : bool) then break newValue
    else
      put (count_stat inc_get_cas_fail) ;;;
      continue (oldValue, i64 (oldValue - 1))) (oldValue, i64 (oldValue - 1)).

Definition exec_cas (o : op) : MC Z := match o with Increment => inc_cas | Decrement => dec_cas end.
End code.

Definition inc_faa : MC Z := fetch_add 0 true.
Definition dec_faa : MC Z := fetch_add 0 false.
(** [ptr] is the address [create] returned. *)
Definition read_faa (ptr : Z) : MC Z := if negb (ptr =? 0) then load_count count 0 else Ret 0.
Definition read_cas (ptr : Z) : MC Z := if negb (ptr =? 0) then load_count count 0 else Ret 0.

Definition exec_faa (o : op) : MC Z := match o with Increment => inc_faa | Decrement => dec_faa end.
End Single.

(** ** Rules *)

Section rules.
Context (w : Z) (t : nat).
Notation B := (joint (no_window (W := unit)) (cprot w (2 ^ 62))).
Implicit Types (g : state) (l : tls unit).

Lemma faa_value_limit g i : p_ok B g -> Z.abs (value i (hist (subs g))) < 2 ^ 62.
Proof. intros [_ Ho]. cbn in Ho. pose proof (value_bound i (hist (subs g))). lia. Qed.

(** One atomic update of entry [i]. *)
Lemma faa_update g i d (inc : bool) :
  p_inv B g -> p_ok B g -> 0 <= i < w -> lookup_count i g = Some d ->
  let s := after_count t i (mkIndex (i64 (count d + delta inc))) inc (subs g) in
  count d = value i (hist (subs g)) /\ i64 (count d + delta inc) = count d + delta inc /\
  p_guar B t g (set_subs s g) /\ p_inv B (set_subs s g).
Proof.
  intros HI HO Hi E s. pose proof (faa_value_limit g i HO) as Hlim. pose proof HI as [_ Hs].
  pose proof (proj2 Hs i d (proj1 Hi) E) as Hd. cbn in Hd.
  assert (Ei : i64 (count d + delta inc) = count d + delta inc).
  { apply sign_small; [lia|]. unfold delta. destruct inc; lia. }
  split; [done|split; [done|]].
  destruct (after_count_step w (2 ^ 62) t i d (mkIndex (i64 (count d + delta inc))) inc (subs g)
    Hs Hi E) as [Hs2 Hg2]; [cbn; lia|].
  split; [split; [done|exact Hg2]|]. by split.
Qed.

Lemma wp_fetch_add i (inc : bool) (Q : Z -> state -> tls unit -> Prop) g l :
  0 <= i < w -> thread_id l = t ->
  (forall g' s, p_rely B t g g' -> p_inv B (set_subs s g') ->
     hist s = (t, if inc then Inc i else Dec i) :: hist (subs g') ->
     Q (value i (hist (subs g'))) (set_subs s g') l) ->
  wp B t (fetch_add i inc) Q g l.
Proof.
  intros Hi Ht HQ g1 R1 I1 O1. pose proof I1 as [_ Hs].
  destruct (count_lookup w (subs g1) i Hs Hi) as [d E].
  assert (E' : lookup_count i g1 = Some d) by exact E. rewrite E'. cbn [mbind option_bind].
  destruct (faa_update g1 i d inc I1 O1 Hi E') as (Hd & Hi64 & HG & HI).
  rewrite Ht. fold (after_count t i (mkIndex (i64 (count d + delta inc))) inc (subs g1)).
  split; [exact HG|split; [exact HI|]]. cbn [wp]. rewrite Hd. apply HQ; [done| |done].
  by rewrite <- Hd.
Qed.

(** An operation of the multi-counter. *)
Lemma faa_op_wp o (Q : Z -> state -> tls unit -> Prop) g l :
  0 < w < 2 ^ 63 -> thread_id l = t ->
  (forall g' l' i, thread_id l' = t -> 0 <= i < w ->
     cevents_of t (hist (subs g')) =
       (match o with Increment => Inc i | Decrement => Dec i end) :: cevents_of t (hist (subs g)) ->
     Q 1 g' l') ->
  wp B t (MultiFaa.exec_op (MultiFaa.mkCounter w) o) Q g l.
Proof.
  intros Hw Ht HQ. assert (Hop : forall inc : bool,
    inc = (match o with Increment => true | Decrement => false end) ->
    wp B t (let* r := MultiFaa.random_index (MultiFaa.mkCounter w) in
            put (set_thread_index r) ;;;
            let* index := get thread_index in
            let* _ := fetch_add index inc in
            Ret 1) Q g l).
  { intros inc Einc. wp_local. apply wp_shared_random; [cbn; lia|]. intros r s Hr. wp_locals.
    apply (wp_fetch_add r inc); [done|done|]. intros g' s' [_ (_ & E)] _ Eh. wp_local.
    apply (HQ _ _ r); [done|done|]. cbn [subs set_subs].
    rewrite Eh, cevents_of_cons, decide_True, E, Einc by done. by destruct o. }
  destruct o; [by apply (Hop true)|by apply (Hop false)].
Qed.
End rules.

Lemma counter_state_inv w :
  0 <= w -> p_inv (joint (no_window (W := unit)) (cprot w (2 ^ 62))) (counter_state w).
Proof.
  intros Hw. split; [done|]. split; cbn; [rewrite length_replicate; lia|].
  intros i d _ E. by apply lookup_replicate in E as [-> _].
Qed.

(** ** multi-counter-faa: every interleaving *)

Section multi.
Context (w : Z) (Hw : 0 < w < 2 ^ 63).
Context (opss : list (list op)) (ls : list (tls unit)) (schedule : list nat).
Context (Hls : forall i l, ls !! i = Some l -> thread_id l = i).
Context (Hbound : Z.of_nat (length schedule) < 2 ^ 62).
Notation B := (joint (no_window (W := unit)) (cprot w (2 ^ 62))).

Let final := exec (mkCfg (MultiFaa.create_counter w).2
  (clients (MultiFaa.exec_op (MultiFaa.mkCounter w)) opss ls)) schedule.

(** C38. No thread fails, every call takes effect exactly once, on one sub-counter,
    and returns 1; the sub-counters hold the updates made to them (and can be
    negative), and [counter_size] of the state reached, by a thread alone, is
    the number of increments less that of decrements, modulo 2^64. *)
Theorem multi_counter_faa_exact :
  ~ faulty final /\
  (forall i, 0 <= i < w ->
     array (subs (mem final)) !! Z.to_nat i = Some (mkIndex (value i (hist (subs (mem final)))))) /\
  (forall i rs l os, pool final !! i = Some (Ret rs, l) -> opss !! i = Some os ->
     length rs = length os /\
     explains w (eq 1) (zip os rs) (cevents_of i (hist (subs (mem final))))) /\
  (forall l, exists n g' l', forall m, (n <= m)%nat ->
     run m (MultiFaa.counter_size (MultiFaa.mkCounter w)) (mem final) l =
       Finished (u64 (counters_total (hist (subs (mem final))) w)) g' l').
Proof.
  destruct (clients_soundness (MultiFaa.exec_op (MultiFaa.mkCounter w)) B
    (fun t done (g : state) l => thread_id l = t /\
       explains w (eq 1) done (cevents_of t (hist (subs g)))))
    with (meas := fun g : state => Z.of_nat (length (hist (subs g))))
      (delta := 1) (limit := 2 ^ 62 - 1)
      (g0 := (MultiFaa.create_counter w).2) (opss := opss) (ls := ls) (schedule := schedule)
    as (HI & HF & HQ); try done.
  - intros t done o g l [Hl HJ].
    apply (faa_op_wp w t); [done|done|]. intros g' l' i Hl' Hi Hm.
    split; [done|]. rewrite Hm. destruct o; by constructor.
  - intros t g g' _ [_ (_ & _ & Hlen)]. lia.
  - intros g _ Hm. cbn. lia.
  - apply (counter_state_inv w). lia.
  - cbn [hist subs MultiFaa.create_counter counter_state snd length]. lia.
  - intros i l Hl. split; [by apply Hls|constructor].
  - fold final in HI, HF, HQ. split; [done|split; [|split]].
    + pose proof HI as [_ Hs]. intros i Hi. destruct (count_lookup w _ i Hs Hi) as [[d] E].
      rewrite E. f_equal. f_equal. exact (proj2 Hs i _ (proj1 Hi) E).
    + intros i rs l os Hp Ho.
      destruct (HQ i rs l os Hp Ho) as (Hlen & g1 & R1 & _ & HJ1). split; [done|].
      destruct R1 as [_ (_ & E1)]. rewrite <- E1 in HJ1. exact HJ1.
    + intros l. set (r0 := u64 _).
      destruct (alone_run B (MultiFaa.counter_size (MultiFaa.mkCounter w)) (fun r _ _ => r = r0) (mem final) l)
        as (n & r & g' & l' & Hrun & -> & _); [done| |by exists n, g', l'].
      apply (counters_size_wp (no_window (W := unit)) w (2 ^ 62) (alone B) 0%nat);
        [by intros g1 g2 R; apply R|done|done|done|done].
Qed.
End multi.

(** [decrement] of an empty counter makes it negative and reports success. *)
Example multi_counter_faa_negative :
  exists g l, run 20 (MultiFaa.decrement (MultiFaa.mkCounter 2)) (MultiFaa.create_counter 2).2 (tls0 tt 0)
    = Finished 1 g l /\
  exists g' l', run 40 (MultiFaa.counter_size (MultiFaa.mkCounter 2)) g l = Finished UINT64_MAX g' l'.
Proof.
  eexists _, _. split; [vm_compute; reflexivity|]. eexists _, _. vm_compute. reflexivity.
Qed.

(** ** single-cas and single-faa: every interleaving *)

(** [linear out t done h]: the results of the operations [done] of thread [t]
    are those of one counter that goes through the history [h] (newest event
    first), [out] giving the result from the value before the operation. *)
Inductive linear (out : op -> Z -> Z) (t : nat) : list (op * Z) -> list (nat * cevent) -> Prop :=
| linear_nil : linear out t [] []
| linear_other done h u e : linear out t done h -> u <> t -> linear out t done ((u, e) :: h)
| linear_inc done h :
    linear out t done h ->
    linear out t (done ++ [(Increment, out Increment (value 0 h))]) ((t, Inc 0) :: h)
| linear_dec done h :
    linear out t done h ->
    linear out t (done ++ [(Decrement, out Decrement (value 0 h))]) ((t, Dec 0) :: h).

(** Other threads' events come in between. *)
Lemma linear_rely out t done h h' :
  linear out t done h -> h `suffix_of` h' -> cevents_of t h' = cevents_of t h ->
  linear out t done h'.
Proof.
  intros Hl [es ->]. induction es as [|[u e] es IH]; [done|].
  change (((u, e) :: es) ++ h) with ((u, e) :: (es ++ h)). rewrite cevents_of_cons.
  assert (Hge : forall es' : list (nat * cevent), (length (cevents_of t h) <= length (cevents_of t (es' ++ h)))%nat).
  { intros es'. unfold cevents_of. rewrite filter_app, fmap_app, length_app. lia. }
  case_decide as Hu.
  - intros E. apply (f_equal length) in E. cbn [length] in E. specialize (Hge es). lia.
  - intros E. by apply linear_other; [apply IH|].
Qed.

Section single.
Context (out : op -> Z -> Z) (exec_op : op -> MC Z).
Notation B := (joint (no_window (W := unit)) (cprot 1 (2 ^ 62))).
Notation event_of o := (match o with Increment => Inc 0 | Decrement => Dec 0 end).

(** What is asked of an operation: it takes effect at one point of time, and
    returns what a single counter does there. *)
Definition atomic_op : Prop :=
  forall t o (Q : Z -> state -> tls unit -> Prop) g l, thread_id l = t ->
  (forall g' l' s h, thread_id l' = t -> p_rely B t g g' -> hist (subs g') = h ->
     hist s = (t, event_of o) :: h -> Q (out o (value 0 h)) (set_subs s g') l') ->
  wp B t (exec_op o) Q g l.

Context (Hop : atomic_op).
Context (opss : list (list op)) (ls : list (tls unit)) (schedule : list nat).
Context (Hls : forall i l, ls !! i = Some l -> thread_id l = i).
Context (Hbound : Z.of_nat (length schedule) < 2 ^ 62).

Let final := exec (mkCfg Single.create (clients exec_op opss ls)) schedule.

Lemma single_run :
  ~ faulty final /\
  array (subs (mem final)) = [mkIndex (value 0 (hist (subs (mem final))))] /\
  (forall i rs l os, pool final !! i = Some (Ret rs, l) -> opss !! i = Some os ->
     length rs = length os /\ linear out i (zip os rs) (hist (subs (mem final)))).
Proof.
  destruct (clients_soundness exec_op B
    (fun t done (g : state) l => thread_id l = t /\ linear out t done (hist (subs g))))
    with (meas := fun g : state => Z.of_nat (length (hist (subs g))))
      (delta := 1) (limit := 2 ^ 62 - 1)
      (g0 := Single.create) (opss := opss) (ls := ls) (schedule := schedule)
    as (HI & HF & HQ); try done.
  - intros t done o g l [Hl HJ]. apply Hop; [done|].
    intros g' l' s h Hl' [_ [Hsuf E]] Eh Es. split; [done|]. cbn [subs set_subs].
    rewrite Es. rewrite Eh in Hsuf, E.
    pose proof (linear_rely out t done _ _ HJ Hsuf E) as HJ'.
    destruct o; by constructor.
  - intros t g g' _ [_ (_ & _ & Hlen)]. lia.
  - intros g _ Hm. cbn. lia.
  - apply (counter_state_inv 1). lia.
  - cbn [hist subs Single.create counter_state length]. lia.
  - intros i l Hl. split; [by apply Hls|constructor].
  - fold final in HI, HF, HQ. split; [done|split].
    + destruct HI as [_ [Hlen Hs]].
      destruct (array (subs (mem final))) as [|[c] [|? ?]]; cbn [length] in Hlen; try lia.
      specialize (Hs 0 (mkIndex c) ltac:(lia) eq_refl). cbn in Hs. by rewrite Hs.
    + intros i rs l os Hp Ho.
      destruct (HQ i rs l os Hp Ho) as (Hlen & g1 & R1 & _ & HJ1). split; [done|].
      destruct R1 as [_ [Hsuf E]]. by eapply linear_rely.
Qed.
End single.

Definition out_faa (o : op) (n : Z) : Z := n.
Definition out_cas (o : op) (n : Z) : Z := match o with Increment => n | Decrement => n - 1 end.

Lemma faa_atomic : atomic_op out_faa Single.exec_faa.
Proof.
  intros t o Q g l Ht HQ.
  assert (Hgo : forall inc : bool, (if inc then Inc 0 else Dec 0) =
      (match o with Increment => Inc 0 | Decrement => Dec 0 end) ->
    wp (joint (no_window (W := unit)) (cprot 1 (2 ^ 62))) t (fetch_add 0 inc) Q g l).
  { intros inc E. apply (wp_fetch_add 1 t 0 inc); [lia|done|]. intros g' s R' _ Eh.
    apply (HQ g' l s (hist (subs g'))); [done|done|done|]. by rewrite Eh, E. }
  destruct o; [by apply (Hgo true)|by apply (Hgo false)].
Qed.

(** The loop of both operations of single-cas. *)
Lemma cas_loop_wp spurious t (inc : bool) (ret : Z -> Z -> Z) (stat : stats_t -> stats_t)
    (Q : Z -> state -> tls unit -> Prop) g l :
  thread_id l = t ->
  (forall g' l' s, thread_id l' = t ->
     p_rely (joint (no_window (W := unit)) (cprot 1 (2 ^ 62))) t g g' ->
     hist s = (t, if inc then Inc 0 else Dec 0) :: hist (subs g') ->
     Q (ret (value 0 (hist (subs g'))) (value 0 (hist (subs g')) + delta inc)) (set_subs s g') l') ->
  wp (joint (no_window (W := unit)) (cprot 1 (2 ^ 62))) t
    (let* oldValue := load_count count 0 in
     while (fun '(oldValue, newValue) =>
       let* (ok, oldValue) := Single.cas_weak spurious oldValue newValue inc in
       if (ok : bool) then break (ret oldValue newValue)
       else
         put (count_stat stat) ;;;
         continue (oldValue, i64 (oldValue + delta inc))) (oldValue, i64 (oldValue + delta inc))) Q g l.
Proof.
  set (B := joint _ _). intros Ht HQ. wp_local.
  apply (wp_load_count (no_window (W := unit)) 1 (2 ^ 62) B t); [lia|].
  intros g1 d1 R1 _ _ _ _.
  apply (wp_while B t _ _ _ _ (fun _ '(oldValue, newValue) g2 l2 => thread_id l2 = t /\
    p_rely B t g g2 /\ newValue = i64 (oldValue + delta inc)) 0%nat); [done|].
  intros m [oldValue newValue] g2 l2 (Ht2 & R2 & ->). wp_local.
  intros g3 R3 I3 O3. pose proof I3 as [_ Hs].
  destruct (count_lookup 1 (subs g3) 0 Hs ltac:(lia)) as [d E].
  assert (E' : lookup_count 0 g3 = Some d) by exact E. rewrite E'. cbn [mbind option_bind].
  assert (R13 : p_rely B t g g3) by (by apply (rely_trans (P := B) t g g2 g3)).
  destruct (decide (count d = oldValue)) as [<-|Hne].
  - destruct (spurious g3 l2).
    + split; [apply (guar_refl (P := B))|split; [done|]]. cbn [wp]. wp_locals.
      exists 0%nat. split; [done|split; [done|split; [exact R13|done]]].
    + destruct (faa_update 1 t g3 0 d inc I3 O3 ltac:(lia) E') as (Hd & Ei & HG & HI).
      rewrite Ht2. fold (after_count t 0 (mkIndex (i64 (count d + delta inc))) inc (subs g3)).
      split; [exact HG|split; [exact HI|]]. cbn [wp]. wp_locals. rewrite Ei, Hd.
      by apply HQ.
  - split; [apply (guar_refl (P := B))|split; [done|]]. cbn [wp]. wp_locals.
    exists 0%nat. split; [done|split; [done|split; [exact R13|done]]].
Qed.

Lemma cas_atomic spurious : atomic_op out_cas (Single.exec_cas spurious).
Proof.
  intros t o Q g l Ht HQ. destruct o; cbn [Single.exec_cas].
  - apply (cas_loop_wp spurious t true (fun old _ => old)); [done|]. intros g' l' s Hl' R' Eh.
    by apply (HQ g' l' s (hist (subs g'))).
  - apply (cas_loop_wp spurious t false (fun _ new => new)); [done|]. intros g' l' s Hl' R' Eh.
    by apply (HQ g' l' s (hist (subs g'))).
Qed.

Section single_theorems.
Context (opss : list (list op)) (ls : list (tls unit)) (schedule : list nat).
Context (Hls : forall i l, ls !! i = Some l -> thread_id l = i).
Context (Hbound : Z.of_nat (length schedule) < 2 ^ 62).

(** What both promise: the atomic variable goes through one history of increments
    and decrements, and each finished thread's results are, in program order,
    [out] of the values the variable had right before its operations. *)
Definition linearized (exec_op : op -> prog state (tls unit) Z) (out : op -> Z -> Z) : Prop :=
  let final := exec (mkCfg Single.create (clients exec_op opss ls)) schedule in
  ~ faulty final /\
  array (subs (mem final)) = [mkIndex (value 0 (hist (subs (mem final))))] /\
  (forall i rs l os, pool final !! i = Some (Ret rs, l) -> opss !! i = Some os ->
     length rs = length os /\ linear out i (zip os rs) (hist (subs (mem final)))).

(** C39. Linearizability of single-faa and single-cas: in every interleaving the
    atomic variable goes through one history of increments and decrements, and
    each finished thread's results are, in program order, determined by the
    values the variable had right before its operations: single-faa returns these
    values, single-cas, whenever its weak compare-and-exchange fails spuriously,
    the value before an increment and the value after a decrement. *)
Theorem single_counters_linearizable :
  linearized Single.exec_faa out_faa /\ forall spurious, linearized (Single.exec_cas spurious) out_cas.
Proof.
  split; [|intros spurious]; apply single_run; try done; [apply faa_atomic|apply cas_atomic].
Qed.
End single_theorems.

(** ** Concrete executions *)

Definition example_ops : list (list op) := [[Increment; Decrement]; [Decrement]].
Definition example_schedule : list nat := mjoin (replicate 40 [0; 1]%nat).

Example faa_example_finishes :
  let final := exec (mkCfg Single.create (clients Single.exec_faa example_ops (tls0 tt <$> seq 0 2)))
    example_schedule in
  (fun pl => match pl.1 with Ret rs => Some rs | _ => None end) <$> pool final
    = [Some [0; 0]; Some [1]] /\
  array (subs (mem final)) = [mkIndex (-1)].
Proof. vm_compute. split; reflexivity. Qed.

Lemma tls0_ids n : forall i l, (tls0 tt <$> seq 0 n) !! i = Some l -> thread_id l = i.
Proof. intros i l H. by apply tls0_lookup in H as ->. Qed.

Lemma multi_counter_faa_exact_witness :
  explains 2 (eq 1) [(Increment, 1); (Decrement, 1)]
    (cevents_of 0 (hist (subs (mem (exec (mkCfg (MultiFaa.create_counter 2).2
       (clients (MultiFaa.exec_op (MultiFaa.mkCounter 2)) example_ops (tls0 tt <$> seq 0 2)))
       example_schedule))))).
Proof.
  refine (proj2 (proj1 (proj2 (proj2 (multi_counter_faa_exact 2 ltac:(lia) example_ops
    (tls0 tt <$> seq 0 2) example_schedule _ _))) 0%nat [1; 1] _ [Increment; Decrement] _ _)).
  - apply tls0_ids.
  - vm_compute. reflexivity.
  - vm_compute. reflexivity.
  - reflexivity.
Defined.

(** With a compare-and-exchange that never fails spuriously. *)
Lemma single_counters_linearizable_witness :
  linear out_faa 0 [(Increment, 0); (Decrement, 0)]
    (hist (subs (mem (exec (mkCfg Single.create (clients Single.exec_faa example_ops
       (tls0 tt <$> seq 0 2))) example_schedule)))) /\
  linear out_cas 1 [(Decrement, 1)]
    (hist (subs (mem (exec (mkCfg Single.create (clients (Single.exec_cas (fun _ _ => false))
       [[Increment; Increment]; [Decrement]] (tls0 tt <$> seq 0 2)))
       (replicate 8 0%nat ++ replicate 20 1%nat ++ replicate 20 0%nat))))).
Proof.
  split.
  - refine (proj2 (proj2 (proj2 (proj1 (single_counters_linearizable example_ops (tls0 tt <$> seq 0 2)
      example_schedule _ _))) 0%nat [0; 0] _ [Increment; Decrement] _ _)).
    + apply tls0_ids.
    + vm_compute. reflexivity.
    + vm_compute. reflexivity.
    + reflexivity.
  - refine (proj2 (proj2 (proj2 (proj2 (single_counters_linearizable [[Increment; Increment]; [Decrement]]
      (tls0 tt <$> seq 0 2) (replicate 8 0%nat ++ replicate 20 1%nat ++ replicate 20 0%nat) _ _)
      (fun _ _ => false))) 1%nat [1] _ [Decrement] _ _)).
    + apply tls0_ids.
    + vm_compute. reflexivity.
    + vm_compute. reflexivity.
    + reflexivity.
Defined.
