(* ===== verification/RandomStacks.v ===== *)
(** src/multi-stack_random-relaxed and src/stack-dra: [width] Treiber stacks
    without a window; an operation works on a sub-stack drawn at random, or,
    with [NUM_CHOICES], on the best of as many draws by the timestamps of the
    top nodes.  The two differ only in the timestamp a push gives its node. *)
From S2P Require Import Prelude Conc Random Thread StackHeap Shared SubStacks.

(** ** State *)

Record tnode_t := mkTnode { key : Z; val : Z; timestamp : Z; next : Z }.

(** An entry of the array. *)
Record index_t := mkIndex { node : Z }.

#[export] Instance index_eq_dec : EqDecision index_t.
Proof. solve_decision. Defined.

#[export] Instance index_desc : Desc index_t := {| d_node := node; d_ok _ _ := True |}.

(** [descriptor_t]: what [get_push_index] and [get_pop_index] return. *)
Record descriptor_t := mkDesc { dnode : Z; index : Z }.

(** [mstack_t] without the array. *)
Record mstack_t := mkStack { width : Z }.

Notation tstacks := (stacks index_t tnode_t).

(** ** Operations *)

Section code.
Context {W : Type} {A : Allocator tnode_t} {nops : NodeOps tnode_t}.
Notation MT := (M W tstacks).
(** The timestamp of a new node, from the node it is to be linked to; and
    [NUM_CHOICES]. *)
Context (stamp : Z -> MT Z) (num_choices : option Z).

Definition random_index (set : mstack_t) : MT Z := Shared.random_index 64 (width set).

(** The timestamp is not initialised here; [push] sets it. *)
Definition create_node (k v nxt : Z) : MT Z := alloc_node (mkTnode k v 0 nxt).

Definition stack_cae (i p new : Z) (push : bool) : MT bool :=
  cae_desc i (mkIndex p) (mkIndex new) push.

Definition get_push_index (n : Z) (set : mstack_t) : MT descriptor_t :=
  let* index := random_index set in
  let* p := load_desc node index in
  if p =? 0 then Ret (mkDesc p index)
  else
    while (fun '(i, index, p) =>
      if i <? n then
        let* index2 := random_index set in
        let* p2 := load_desc node index2 in
        if p2 =? 0 then break (mkDesc p2 index2)
        else
          let* timestamp2 := load_node timestamp p2 in
          let* timestamp := load_node timestamp p in
          if timestamp2 <? timestamp then continue (i64 (i + 1), index2, p2)
          else continue (i64 (i + 1), index, p)
      else break (mkDesc p index)) (1, index, p).

Definition get_pop_index (n : Z) (set : mstack_t) : MT descriptor_t :=
  let* index := random_index set in
  let* p := load_desc node index in
  while (fun '(i, index, p) =>
    if i <? n then
      let* index2 := random_index set in
      let* p2 := load_desc node index2 in
      if p =? 0 then continue (i64 (i + 1), index2, p2)
      else if p2 =? 0 then continue (i64 (i + 1), index, p)
      else
        let* timestamp2 := load_node timestamp p2 in
        let* timestamp := load_node timestamp p in
        if timestamp2 >? timestamp then continue (i64 (i + 1), index2, p2)
        else continue (i64 (i + 1), index, p)
    else break (mkDesc p index)) (1, index, p).

(** The choice at the head of both loops. *)
Definition choose (get_index : Z -> mstack_t -> MT descriptor_t) (set : mstack_t) : MT descriptor_t :=
  match num_choices with
  | Some n => get_index n set
  | None =>
      let* index := random_index set in
      let* p := load_desc node index in
      Ret (mkDesc p index)
  end.

Definition push_body (set : mstack_t) (new_node : Z) (_ : unit) : MT (unit + Z) :=
  let* d := choose get_push_index set in
  store_node new_node (fun n => mkTnode (key n) (val n) (timestamp n) (dnode d)) ;;;
  let* ts := stamp (dnode d) in
  store_node new_node (fun n => mkTnode (key n) (val n) ts (next n)) ;;;
  let* ok := stack_cae (index d) (dnode d) new_node true in
  if ok then break 1
  else put (count_stat inc_put_cas_fail) ;;; continue tt.

Definition push (set : mstack_t) (k v : Z) : MT Z :=
  let* new_node := create_node k v 0 in
  while (push_body set new_node) tt.

Definition pop_body (set : mstack_t) (_ : unit) : MT (unit + Z) :=
  let* d := choose get_pop_index set in
  if negb (dnode d =? 0) then
    let* nxt := load_node next (dnode d) in
    let* ok := stack_cae (index d) (dnode d) nxt false in
    if ok then
      let* node_val := load_node val (dnode d) in
      break node_val
    else put (count_stat inc_get_cas_fail) ;;; continue tt
  else
    put (count_stat inc_null) ;;;
    break 0.

Definition pop (set : mstack_t) : MT Z := while (pop_body set) tt.

Definition stack_size (set : mstack_t) : MT Z := stacks_size (width set).

Definition exec_op (set : mstack_t) (o : op) : MT Z :=
  match o with DoPush k v => push set k v | DoPop => pop set end.

(** [create_stack]. *)
Definition create_stack (width : Z) (w : W) : mstack_t * shared W tstacks :=
  (mkStack width,
   mkShared w (mkStacks (replicate (Z.to_nat width) (mkIndex 0)) (mkMem ∅ ∅) [])).
End code.

(** multi-stack_random-relaxed: [getticks()] reads the cycle counter.  The
    window is the number of readings taken; the [n]-th reading is [ticks n],
    whatever that is. *)
Definition getticks (ticks : nat -> Z) : M nat tstacks Z :=
  Act (fun g l => Some (ticks (window g), set_window (S (window g)) g, l)) Ret.

Definition stamp_multi (ticks : nat -> Z) (p : Z) : M nat tstacks Z := getticks ticks.

(** stack-dra: one more than the timestamp of the node below. *)
Definition stamp_dra (p : Z) : M unit tstacks Z :=
  if negb (p =? 0) then
    let* ts := load_node timestamp p in
    Ret (u64 (ts + 1))
  else Ret 0.

(** What timestamps say: nothing in the multi-stack; the number of elements
    below in stack-dra. *)
Definition node_ops_with (pos : Z -> Z -> Prop) : NodeOps tnode_t :=
  {| n_val := val; n_next := next; n_pos n k := pos (timestamp n) k |}.

(** src/stack-dra: its functions are those above, with its timestamps. *)
Module Dra.
Section code.
Context {A : Allocator tnode_t}.
#[local] Instance dra_node_ops : NodeOps tnode_t := node_ops_with eq.
Notation MT := (M unit tstacks).

Definition random_index : mstack_t -> MT Z := RandomStacks.random_index.
Definition create_node : Z -> Z -> Z -> MT Z := RandomStacks.create_node.
Definition stack_cae : Z -> Z -> Z -> bool -> MT bool := RandomStacks.stack_cae.
Definition get_push_index : Z -> mstack_t -> MT descriptor_t := RandomStacks.get_push_index.
Definition get_pop_index : Z -> mstack_t -> MT descriptor_t := RandomStacks.get_pop_index.
Definition push (num_choices : option Z) : mstack_t -> Z -> Z -> MT Z :=
  RandomStacks.push stamp_dra num_choices.
Definition pop (num_choices : option Z) : mstack_t -> MT Z := RandomStacks.pop num_choices.
Definition stack_size : mstack_t -> MT Z := RandomStacks.stack_size.
Definition create_stack (width : Z) : mstack_t * shared unit tstacks :=
  RandomStacks.create_stack width tt.
Definition exec_op (num_choices : option Z) (set : mstack_t) (o : op) : MT Z :=
  match o with DoPush k v => push num_choices set k v | DoPop => pop num_choices set end.
End code.
End Dra.

(** ** Choices *)

Section choices.
Context {W : Type}.
Implicit Types (g : shared W tstacks).

(** The timestamp on top of sub-stack [i]. *)
Definition top_stamp g (i : Z) : option Z :=
  d ← lookup_desc i g;
  if node d =? 0 then None else timestamp <$> lookup_node (node d) g.

(** Sub-stack [i] is the best of [js] for a push: empty, or with the oldest
    top; and for a pop: all are empty, or it has the newest top. *)
Definition best_push g (js : list Z) (i : Z) : Prop :=
  i ∈ js /\
  match top_stamp g i with
  | None => True
  | Some ts => forall j, j ∈ js -> exists ts', top_stamp g j = Some ts' /\ ts <= ts'
  end.
Definition best_pop g (js : list Z) (i : Z) : Prop :=
  i ∈ js /\
  match top_stamp g i with
  | None => forall j, j ∈ js -> top_stamp g j = None
  | Some ts => forall j ts', j ∈ js -> top_stamp g j = Some ts' -> ts' <= ts
  end.

(** How many sub-stacks are drawn: a push stops at the first empty one. *)
Definition draws (num_choices : option Z) : nat :=
  match num_choices with Some n => Z.to_nat (Z.max 1 n) | None => 1%nat end.
Definition choices_ok (num_choices : option Z) : Prop :=
  forall n, num_choices = Some n -> n < 2 ^ 63.
End choices.

(** ** The operations, for a thread among others and for one alone *)

Section operations.
Context {W : Type} {A : Allocator tnode_t} (pos : Z -> Z -> Prop).
#[local] Instance pos_node_ops : NodeOps tnode_t := node_ops_with pos.
Context (set : mstack_t) (Hw : 0 < width set < 2 ^ 63).
Notation WP := (no_window (W := W)).
Notation B := (joint WP (sprot (width set) (2 ^ 62))).
Context (P : protocol (shared W tstacks)) (t : nat) {runs : Runs P B t}.
Notation still := (forall g g', p_rely P t g g' -> g' = g).
Notation mine g := (events_of t (hist (subs g))).
Implicit Types (g : shared W tstacks) (l : tls W).

Lemma tdraw (Q : Z -> shared W tstacks -> tls W -> Prop) g l :
  (forall r s, Random.random_index (width set) (seeds l) = Some (r, s) -> 0 <= r < width set ->
     Q r g (set_seeds s l)) ->
  wp P t (random_index set) Q g l.
Proof. intros HQ. apply wp_shared_draw; [lia|done]. Qed.

Lemma tload_desc i (Q : Z -> shared W tstacks -> tls W -> Prop) g l :
  0 <= i < width set ->
  (forall g' p, p_rely P t g g' -> p_inv P g' -> lookup_desc i g' = Some (mkIndex p) ->
     ptr_ok (heap (subs g')) p -> Q p g' l) ->
  wp P t (load_desc node i) Q g l.
Proof.
  intros Hi HQ. apply (wp_desc_field WP (width set) (2 ^ 62) P t); [done|].
  intros g' [p] R' I' _ E. apply HQ; [done..|].
  exact (top_ptr_ok WP (width set) (2 ^ 62) P t g' i _ I' (proj1 Hi) E).
Qed.

Lemma tload_node {R} (f : tnode_t -> R) p (Q : R -> shared W tstacks -> tls W -> Prop) g l :
  ptr_ok (heap (subs g)) p -> p <> 0 ->
  (forall g' n, p_rely P t g g' -> p_inv P g' -> lookup_node p g' = Some n ->
     ptr_ok (heap (subs g')) p -> Q (f n) g' l) ->
  wp P t (load_node f p) Q g l.
Proof.
  intros Hp Hnz HQ. destruct (ptr_ok_node _ _ Hp Hnz) as (n & E & P0).
  eapply (wp_load_node WP (width set) (2 ^ 62) P t); [exact P0|exact E|].
  intros g' R' I' P' E'. apply (HQ g' n R' I' E').
  exact (ptr_ok_rely WP (width set) (2 ^ 62) P t g g' p R' Hp).
Qed.

Lemma trely_ptr g g' p : p_rely P t g g' -> ptr_ok (heap (subs g)) p -> ptr_ok (heap (subs g')) p.
Proof. apply (ptr_ok_rely WP (width set) (2 ^ 62) P t). Qed.

Lemma trely_trans g1 g2 g3 : p_rely P t g1 g2 -> p_rely P t g2 g3 -> p_rely P t g1 g3.
Proof. apply (rely_trans (P := P)). Qed.

(** [js] was drawn from the seeds [s] in the state [g] and [i] chosen. *)
Definition chose (early : bool) (best : shared W tstacks -> list Z -> Z -> Prop) (k : nat) (s : seeds_t) (js : list Z) (s' : seeds_t) g (i : Z) : Prop :=
  drawn (width set) s js s' /\
  Forall (fun j => 0 <= j < width set) js /\
  (length js = k \/ early = true /\ (length js <= k)%nat /\ top_stamp g i = None) /\
  best g js i.

(** What the choice of a descriptor guarantees: the index is in range, the
    node was on top there; for a thread alone it still is, and it is the best
    of those drawn. *)
Definition chosen (early : bool) (best : shared W tstacks -> list Z -> Z -> Prop) (k : nat) (s0 : seeds_t) g0 (d : descriptor_t) g l : Prop :=
  p_rely P t g0 g /\ p_inv P g /\ thread_id l = t /\ 0 <= index d < width set /\
  ptr_ok (heap (subs g)) (dnode d) /\
  (still -> lookup_desc (index d) g = Some (mkIndex (dnode d)) /\
     exists js, chose early best k s0 js (seeds l) g (index d)).

Lemma top_stamp_eq g i p :
  lookup_desc i g = Some (mkIndex p) ->
  top_stamp g i = if p =? 0 then None else timestamp <$> lookup_node p g.
Proof. intros E. unfold top_stamp. by rewrite E. Qed.

(** The loop invariant of both functions, with the draws so far. *)
Definition choice_loop (best : shared W tstacks -> list Z -> Z -> Prop) (n : Z) (s0 : seeds_t) g0 (m : nat)
    '((i, index, p) : Z * Z * Z) g l : Prop :=
  p_rely P t g0 g /\ p_inv P g /\ thread_id l = t /\ 0 <= index < width set /\
  ptr_ok (heap (subs g)) p /\ 1 <= i <= Z.max 1 n /\ m = Z.to_nat (n - i) /\
  (still -> lookup_desc index g = Some (mkIndex p) /\
     exists js, drawn (width set) s0 js (seeds l) /\ Forall (fun j => 0 <= j < width set) js /\ length js = Z.to_nat i /\ best g js index).

Lemma choice_exit early best n s0 g0 m i index p g l :
  choice_loop best n s0 g0 m (i, index, p) g l -> n <= i ->
  chosen early best (draws (Some n)) s0 g0 (mkDesc p index) g l.
Proof.
  intros (R & HI & Ht & Hi & Hp & Hin & _ & Hst) Hge. do 5 (split; [done|]). intros Hs.
  destruct (Hst Hs) as (E & js & Hdr & Hr & Hlen & Hb). split; [done|]. exists js. unfold draws.
  assert (i = Z.max 1 n) as <- by lia. split; [done|]. split; [done|]. split; [by left|done].
Qed.

(** One more draw that does not change the choice, or does. *)
Lemma choice_next (best : shared W tstacks -> list Z -> Z -> Prop) n s0 g0 i index p g1 l1 r s g2 p2 g3
    index' p' :
  choice_loop best n s0 g0 (Z.to_nat (n - i)) (i, index, p) g1 l1 -> i < n -> n < 2 ^ 63 ->
  Random.random_index (width set) (seeds l1) = Some (r, s) ->
  0 <= r < width set -> p_rely P t g1 g2 -> lookup_desc r g2 = Some (mkIndex p2) ->
  p_rely P t g2 g3 -> p_inv P g3 ->
  (index' = index /\ p' = p \/ index' = r /\ p' = p2 /\ ptr_ok (heap (subs g2)) p2) ->
  (still -> forall js, lookup_desc index g3 = Some (mkIndex p) ->
     lookup_desc r g3 = Some (mkIndex p2) -> best g3 js index -> best g3 (js ++ [r]) index') ->
  choice_loop best n s0 g0 (Z.to_nat (n - (i + 1))) (i64 (i + 1), index', p') g3 (set_seeds s l1).
Proof.
  intros (R & HI & Ht & Hi & Hp & Hin & _ & Hst) Hlt Hn Er Hr R2 E2 R3 I3 Hcase Hbest.
  rewrite sign_small by lia.
  split; [by apply (trely_trans g0 g1 g3); [|apply (trely_trans g1 g2 g3)]|].
  split; [done|].
  split; [done|].
  split; [by destruct Hcase as [[-> _]|(-> & _)]|].
  split.
  { destruct Hcase as [[_ ->]|(_ & -> & Hp2)]; [|by apply (trely_ptr g2 g3)].
    apply (trely_ptr g1 g3); [by apply (trely_trans g1 g2 g3)|done]. }
  split; [lia|]. split; [lia|]. intros Hs. destruct (Hst Hs) as (E & js & Hdr & Hjs & Hlen & Hb).
  rewrite (Hs _ _ R3) in *. rewrite (Hs _ _ R2) in *. split.
  - by destruct Hcase as [[-> ->]|(-> & -> & _)].
  - exists (js ++ [r]). split; [by eapply drawn_snoc|]. split; [apply Forall_app; split; [done|by apply Forall_singleton]|].
    split; [rewrite length_app; cbn; lia|]. by apply Hbest.
Qed.

Lemma choice_start (best : shared W tstacks -> list Z -> Z -> Prop) n s0 g0 r p g l :
  drawn (width set) s0 [r] (seeds l) ->
  p_rely P t g0 g -> p_inv P g -> thread_id l = t -> 0 <= r < width set ->
  lookup_desc r g = Some (mkIndex p) -> ptr_ok (heap (subs g)) p -> best g [r] r ->
  choice_loop best n s0 g0 (Z.to_nat (n - 1)) (1, r, p) g l.
Proof.
  intros Hdr R HI Ht Hr E Hp Hb. do 5 (split; [done|]). split; [lia|]. split; [done|]. intros _.
  split; [done|]. exists [r]. split; [done|]. split; [by apply Forall_singleton|done].
Qed.

Lemma best_push_one g r : best_push g [r] r.
Proof.
  split; [set_solver|]. destruct (top_stamp g r) as [ts|] eqn:E; [|done].
  intros j Hj%list_elem_of_singleton. subst j. exists ts. split; [done|lia].
Qed.

Lemma best_pop_one g r : best_pop g [r] r.
Proof.
  split; [set_solver|]. destruct (top_stamp g r) as [ts|] eqn:E.
  - intros j ts' Hj%list_elem_of_singleton E'. subst j. rewrite E in E'. injection E' as <-. lia.
  - intros j Hj%list_elem_of_singleton. by subst j.
Qed.

(** The next draw's top, and, if both are there, the two timestamps. *)
Lemma best_push_empty g js index r :
  best_push g js index -> top_stamp g r = None -> best_push g (js ++ [r]) r.
Proof. intros _ E. split; [set_solver|]. by rewrite E. Qed.

Lemma best_push_snoc g js index r ts ts2 :
  best_push g js index -> top_stamp g index = Some ts -> top_stamp g r = Some ts2 ->
  best_push g (js ++ [r]) (if ts2 <? ts then r else index).
Proof.
  intros [Hin Hb] E E2. rewrite E in Hb. destruct (Z.ltb_spec ts2 ts) as [Hlt|Hge].
  - split; [set_solver|]. rewrite E2. intros j [Hj|Hj%list_elem_of_singleton]%elem_of_app.
    + destruct (Hb j Hj) as (ts' & E' & ?). exists ts'. split; [done|lia].
    + subst j. exists ts2. split; [done|lia].
  - split; [set_solver|]. rewrite E. intros j [Hj|Hj%list_elem_of_singleton]%elem_of_app.
    + by apply Hb.
    + subst j. by exists ts2.
Qed.

Lemma best_pop_skip g js index r ts :
  best_pop g js index -> top_stamp g index = Some ts -> top_stamp g r = None ->
  best_pop g (js ++ [r]) index.
Proof.
  intros [Hin Hb] E E2. split; [set_solver|]. rewrite E in *.
  intros j ts' [Hj|Hj%list_elem_of_singleton]%elem_of_app E'; [by eapply Hb|]. congruence.
Qed.

Lemma best_pop_first g js index r :
  best_pop g js index -> top_stamp g index = None -> best_pop g (js ++ [r]) r.
Proof.
  intros [Hin Hb] E. rewrite E in Hb. split; [set_solver|].
  destruct (top_stamp g r) as [ts|] eqn:E2.
  - intros j ts' [Hj|Hj%list_elem_of_singleton]%elem_of_app E'; [specialize (Hb j Hj); congruence|].
    subst j. rewrite E2 in E'. injection E' as <-. lia.
  - intros j [Hj|Hj%list_elem_of_singleton]%elem_of_app; [by apply Hb|]. by subst j.
Qed.

Lemma best_pop_snoc g js index r ts ts2 :
  best_pop g js index -> top_stamp g index = Some ts -> top_stamp g r = Some ts2 ->
  best_pop g (js ++ [r]) (if ts2 >? ts then r else index).
Proof.
  intros [Hin Hb] E E2. rewrite E in Hb. rewrite Z.gtb_ltb.
  destruct (Z.ltb_spec ts ts2) as [Hlt|Hge].
  - split; [set_solver|]. rewrite E2. intros j ts' [Hj|Hj%list_elem_of_singleton]%elem_of_app E'.
    + specialize (Hb j ts' Hj E'). lia.
    + subst j. rewrite E2 in E'. injection E' as <-. lia.
  - split; [set_solver|]. rewrite E. intros j ts' [Hj|Hj%list_elem_of_singleton]%elem_of_app E'.
    + by apply (Hb j ts' Hj).
    + subst j. rewrite E2 in E'. injection E' as <-. lia.
Qed.

(** The timestamps of two tops that have just been read. *)
Lemma top_stamps g i p n :
  lookup_desc i g = Some (mkIndex p) -> p <> 0 -> lookup_node p g = Some n ->
  top_stamp g i = Some (timestamp n).
Proof. intros E Hnz En. rewrite (top_stamp_eq g i p E). destruct (Z.eqb_spec p 0); [done|]. by rewrite En. Qed.

Lemma top_stamp_null g i : lookup_desc i g = Some (mkIndex 0) -> top_stamp g i = None.
Proof. intros E. by rewrite (top_stamp_eq g i 0 E). Qed.

Lemma get_push_index_wp n (Q : descriptor_t -> shared W tstacks -> tls W -> Prop) g l :
  thread_id l = t -> n < 2 ^ 63 ->
  (forall d g' l', chosen true best_push (draws (Some n)) (seeds l) g d g' l' -> Q d g' l') ->
  wp P t (get_push_index n set) Q g l.
Proof.
  intros Ht Hn HQ. unfold get_push_index. wp_local. apply tdraw. intros r s Er Hr. pose proof (drawn_one _ _ _ _ Er) as Hd1. wp_local.
  apply tload_desc; [done|]. intros g1 p R1 I1 E1 Hp1.
  destruct (Z.eqb_spec p 0) as [->|Hnz].
  { wp_local. apply HQ. do 5 (split; [done|]). intros _. split; [done|]. exists [r].
    split; [done|]. split; [by apply Forall_singleton|]. split; [|apply best_push_one].
    right. split; [done|split; [unfold draws; cbn; lia|by apply top_stamp_null]]. }
  eapply (wp_while P t _ _ _ _ (fun m '(i, index, p) g l0 =>
    choice_loop best_push n (seeds l) _ m (i, index, p) g l0 /\ p <> 0)).
  { split; [|exact Hnz]. apply (choice_start best_push n (seeds l) g r p); try done. apply best_push_one. }
  intros m [[i index] q] g2 l2 [HJ Hq]. pose proof HJ as (R02 & I2 & Ht2 & Hi2 & Hp2 & Hin & -> & Hst2).
  destruct (Z.ltb_spec i n) as [Hlt|Hge]; [|wp_local; apply HQ; by eapply choice_exit].
  wp_local. apply tdraw. intros r2 s2 Er2 Hr2. wp_local.
  apply tload_desc; [done|]. intros g3 p2 R3 I3 E3 Hp3.
  assert (R03 : p_rely P t g g3) by (by apply (trely_trans g g2 g3)).
  destruct (Z.eqb_spec p2 0) as [->|Hnz2].
  { wp_local. apply HQ. do 5 (split; [done|]). intros Hs. split; [done|].
    destruct (Hst2 Hs) as (_ & js & Hdr & Hjs & Hlen & Hb). exists (js ++ [r2]).
    split; [by eapply drawn_snoc|].
    split; [apply Forall_app; split; [done|by apply Forall_singleton]|]. split.
    { right. split; [done|split; [rewrite length_app, Hlen; unfold draws; cbn; lia|]].
      by apply top_stamp_null. }
    eapply best_push_empty; [|by apply top_stamp_null].
    by rewrite (Hs _ _ R3). }
  wp_local. apply tload_node; [done|done|]. intros g4 n2 R4 I4 En2 Hp4. wp_local.
  apply tload_node; [|done|].
  { by apply (trely_ptr g2 g4); [apply (trely_trans g2 g3 g4)|]. }
  intros g5 n1 R5 I5 En1 _.
  assert (Hbest : still -> forall js, lookup_desc index g5 = Some (mkIndex q) ->
    lookup_desc r2 g5 = Some (mkIndex p2) -> best_push g5 js index ->
    best_push g5 (js ++ [r2]) (if timestamp n2 <? timestamp n1 then r2 else index)).
  { intros Hs js Eq Ep Hb. rewrite <- (Hs _ _ R5) in En2. apply best_push_snoc; [done|..].
    - by eapply top_stamps.
    - by eapply top_stamps. }
  assert (R35 : p_rely P t g3 g5) by (by apply (trely_trans g3 g4 g5)).
  destruct (timestamp n2 <? timestamp n1); wp_local;
    (exists (Z.to_nat (n - (i + 1))); split; [lia|]; split; [|done]).
  - eapply (choice_next best_push n (seeds l) g i index q g2 l2 r2 s2 g3 p2); try done. right. by split_and!.
  - eapply (choice_next best_push n (seeds l) g i index q g2 l2 r2 s2 g3 p2); try done. by left.
Qed.

Lemma get_pop_index_wp n (Q : descriptor_t -> shared W tstacks -> tls W -> Prop) g l :
  thread_id l = t -> n < 2 ^ 63 ->
  (forall d g' l', chosen false best_pop (draws (Some n)) (seeds l) g d g' l' -> Q d g' l') ->
  wp P t (get_pop_index n set) Q g l.
Proof.
  intros Ht Hn HQ. unfold get_pop_index. wp_local. apply tdraw. intros r s Er Hr. pose proof (drawn_one _ _ _ _ Er) as Hd1. wp_local.
  apply tload_desc; [done|]. intros g1 p R1 I1 E1 Hp1.
  eapply (wp_while P t _ _ _ _ (fun m '(i, index, p) g l0 =>
    choice_loop best_pop n (seeds l) _ m (i, index, p) g l0)).
  { apply (choice_start best_pop n (seeds l) g r p); try done. apply best_pop_one. }
  intros m [[i index] q] g2 l2 HJ. pose proof HJ as (R02 & I2 & Ht2 & Hi2 & Hp2 & Hin & -> & Hst2).
  destruct (Z.ltb_spec i n) as [Hlt|Hge]; [|wp_local; apply HQ; by eapply choice_exit].
  wp_local. apply tdraw. intros r2 s2 Er2 Hr2. wp_local.
  apply tload_desc; [done|]. intros g3 p2 R3 I3 E3 Hp3.
  destruct (Z.eqb_spec q 0) as [->|Hnq]; [|destruct (Z.eqb_spec p2 0) as [->|Hnz2]].
  - wp_local. exists (Z.to_nat (n - (i + 1))). split; [lia|].
    eapply (choice_next best_pop n (seeds l) g i index 0 g2 l2 r2 s2 g3 p2); try done.
    + apply (rely_refl (P := P)).
    + right. by split_and!.
    + intros _ js E0 _ Hb. eapply best_pop_first; [done|]. by apply top_stamp_null.
  - wp_local. exists (Z.to_nat (n - (i + 1))). split; [lia|].
    eapply (choice_next best_pop n (seeds l) g i index q g2 l2 r2 s2 g3 0); try done.
    + apply (rely_refl (P := P)).
    + by left.
    + intros Hs js E0 E2 Hb. destruct (top_stamp g3 index) as [ts|] eqn:Ets.
      * by eapply best_pop_skip; [|exact Ets|apply top_stamp_null].
      * destruct (Hst2 Hs) as (Eq & _). rewrite (top_stamp_eq _ _ _ E0) in Ets.
        destruct (Z.eqb_spec q 0); [done|].
        assert (Hq3 : ptr_ok (heap (subs g3)) q) by (by apply (trely_ptr g2 g3)).
        destruct (ptr_ok_node _ _ Hq3 Hnq) as (nq & Enq & _).
        unfold lookup_node in Ets. by rewrite Enq in Ets.
  - wp_local. apply tload_node; [done|done|]. intros g4 n2 R4 I4 En2 Hp4. wp_local.
    apply tload_node; [|done|].
    { by apply (trely_ptr g2 g4); [apply (trely_trans g2 g3 g4)|]. }
    intros g5 n1 R5 I5 En1 _.
    assert (Hbest : still -> forall js, lookup_desc index g5 = Some (mkIndex q) ->
      lookup_desc r2 g5 = Some (mkIndex p2) -> best_pop g5 js index ->
      best_pop g5 (js ++ [r2]) (if timestamp n2 >? timestamp n1 then r2 else index)).
    { intros Hs js Eq Ep Hb. rewrite <- (Hs _ _ R5) in En2. apply best_pop_snoc; [done|..].
      - by eapply top_stamps.
      - by eapply top_stamps. }
    assert (R35 : p_rely P t g3 g5) by (by apply (trely_trans g3 g4 g5)).
    destruct (timestamp n2 >? timestamp n1); wp_local;
      (exists (Z.to_nat (n - (i + 1))); split; [lia|]).
    + eapply (choice_next best_pop n (seeds l) g i index q g2 l2 r2 s2 g3 p2); try done. right. by split_and!.
    + eapply (choice_next best_pop n (seeds l) g i index q g2 l2 r2 s2 g3 p2); try done. by left.
Qed.

Lemma choose_desc_wp num_choices early best get_index (Q : descriptor_t -> shared W tstacks -> tls W -> Prop) g l :
  choices_ok num_choices -> thread_id l = t -> (forall g r, best g [r] r) ->
  (forall n (Q : descriptor_t -> shared W tstacks -> tls W -> Prop),
     num_choices = Some n -> n < 2 ^ 63 ->
     (forall d g' l', chosen early best (draws (Some n)) (seeds l) g d g' l' -> Q d g' l') ->
     wp P t (get_index n set) Q g l) ->
  (forall d g' l', chosen early best (draws num_choices) (seeds l) g d g' l' -> Q d g' l') ->
  wp P t (choose num_choices get_index set) Q g l.
Proof.
  intros Hn Ht Hone Hget HQ. unfold choose. destruct num_choices as [n|].
  - apply (Hget n Q); [done|by apply Hn|exact HQ].
  - wp_local. apply tdraw. intros r s Er Hr. pose proof (drawn_one _ _ _ _ Er) as Hd1. wp_local.
    apply tload_desc; [done|]. intros g1 p R1 I1 E1 Hp1. wp_local. apply HQ.
    do 5 (split; [done|]). intros _. split; [done|]. exists [r]. split; [done|]. split; [by apply Forall_singleton|]. split; [by left|apply Hone].
Qed.

(** *** Timestamps *)

(** What is known of the timestamp [ts] computed from node [p]; it implies
    [pos] if [p] is still on top when the new node is pushed. *)
Record stamp_laws (stamp : Z -> M W tstacks Z) (good : Z -> Z -> shared W tstacks -> Prop) : Prop := {
  good_keeps p ts g g' :
    keeps (heap (subs g)) (heap (subs g')) None -> good p ts g -> good p ts g';
  good_pos p ts g i :
    p_inv B g -> p_ok B g -> 0 <= i -> lookup_desc i g = Some (mkIndex p) -> good p ts g ->
    pos ts (Z.of_nat (length (contents i (hist (subs g)))));
  stamp_wp p (Q : Z -> shared W tstacks -> tls W -> Prop) g l :
    p_inv P g -> ptr_ok (heap (subs g)) p ->
    (forall ts g1 g', p_rely P t g g1 -> p_inv P g' -> subs g' = subs g1 -> good p ts g' ->
       Q ts g' l) ->
    wp P t (stamp p) Q g l;
}.

(** Among other threads, or alone with a history that is short enough. *)
Record mode : Prop := {
  mode_still : p_total P = true -> still;
  mode_ok : p_total P = false -> forall g, p_ok P g -> p_ok B g;
}.
Definition fits g : Prop := p_total P = true -> p_ok B g.

Lemma fits_ok g g1 : mode -> fits g -> p_rely P t g g1 -> p_ok P g1 -> p_ok B g1.
Proof.
  intros Hm Hf R O. unfold fits in Hf. destruct (p_total P) eqn:E.
  - rewrite (mode_still Hm E g g1 R). by apply Hf.
  - by apply (mode_ok Hm E).
Qed.

Lemma fits_same g g1 : mode -> fits g -> hist (subs g1) = hist (subs g) -> fits g1.
Proof. intros Hm Hf E Ht. specialize (Hf Ht). cbn in *. by rewrite E. Qed.

Lemma fits_rely g g1 : mode -> fits g -> p_rely P t g g1 -> fits g1.
Proof. intros Hm Hf R Ht. rewrite (mode_still Hm Ht g g1 R). by apply Hf. Qed.

Lemma desc_retry_never (m : nat) : mode -> ~ still -> p_total P = true -> (m < m)%nat.
Proof. intros Hm Hns Ht. destruct (Hns (mode_still Hm Ht)). Qed.

Lemma tkeeps g g' : p_rely P t g g' -> keeps (heap (subs g)) (heap (subs g')) None.
Proof. intros R. apply (runs_rely (B := B)) in R as (_ & (Hk & _) & _). exact Hk. Qed.

Lemma trely_mine g g' : p_rely P t g g' -> mine g' = mine g.
Proof. apply (mine_rely WP (width set) (2 ^ 62) P t). Qed.

Lemma trely_own g g' a n :
  p_rely P t g g' -> priv (heap (subs g)) !! a = Some t -> lookup_node a g = Some n ->
  priv (heap (subs g')) !! a = Some t /\ lookup_node a g' = Some n.
Proof. apply (own_rely WP (width set) (2 ^ 62) P t). Qed.

(** What an operation did: its event; [g1] is the state it chose from. *)
Definition chose_from early best k (s s' : seeds_t) g i : Prop :=
  exists g1 js, p_inv P g1 /\ hist (subs g1) = hist (subs g) /\ chose early best k s js s' g1 i.
Definition did_event early best k (s s' : seeds_t) (e : event) g g' : Prop :=
  p_inv P g' /\ 0 <= event_index e < width set /\ mine g' = e :: mine g /\
  (still -> hist (subs g') = (t, e) :: hist (subs g) /\ chose_from early best k s s' g (event_index e)).
Notation did_push num_choices := (did_event true best_push (draws num_choices)).
Notation did_pop num_choices := (did_event false best_pop (draws num_choices)).

(** A push owns its node until it succeeds. *)
Definition push_loop (v a : Z) (s0 : seeds_t) g0 g l : Prop :=
  thread_id l = t /\ (still -> seeds l = s0) /\ p_inv P g /\ fits g /\ mine g = mine g0 /\
  (still -> hist (subs g) = hist (subs g0)) /\ priv (heap (subs g)) !! a = Some t /\
  exists k ts q, lookup_node a g = Some (mkTnode k v ts q).

(** The compare-and-exchange of a push. *)
Lemma push_cae_wp num_choices v a p ts k i good s0 g0 (Q : bool -> shared W tstacks -> tls W -> Prop) g l :
  (forall g g', keeps (heap (subs g)) (heap (subs g')) None -> good p ts g -> good p ts g') ->
  (forall g, p_inv B g -> p_ok B g -> lookup_desc i g = Some (mkIndex p) -> good p ts g ->
     pos ts (Z.of_nat (length (contents i (hist (subs g)))))) ->
  mode -> 0 <= i < width set -> good p ts g ->
  thread_id l = t -> fits g -> mine g = mine g0 -> (still -> hist (subs g) = hist (subs g0)) ->
  priv (heap (subs g)) !! a = Some t -> lookup_node a g = Some (mkTnode k v ts p) ->
  (still -> lookup_desc i g = Some (mkIndex p)) ->
  (still -> chose_from true best_push (draws num_choices) s0 (seeds l) g0 i) ->
  (forall g', did_push num_choices s0 (seeds l) (Push i v) g0 g' -> Q true g' l) ->
  (forall g', (~ still -> push_loop v a s0 g0 g' l) -> ~ still -> Q false g' l) ->
  wp P t (stack_cae i p a true) Q g l.
Proof.
  intros Hkeeps Hpos Hm Hi Hg Ht Hf Hmine Hst Pa Ea Hdesc Hch HQ HQ'.
  apply (wp_cae_desc WP (width set) (2 ^ 62) P t _ _ _ _ v); [done|done|..].
  - intros g1 R1 I1 O1 E1. destruct (trely_own g g1 a _ R1 Pa Ea) as [P1 Ea1].
    split; [|done]. exists (mkTnode k v ts p). split; [exact P1|split; [exact Ea1|]].
    split; [done|split; [done|]]. apply (Hpos g1); [|by eapply fits_ok|done|].
    + by apply (runs_inv (B := B)).
    + by apply (Hkeeps g g1); [apply tkeeps|].
  - intros g1 R1 I1 E1 g2 I2. apply HQ. split; [done|split; [done|split]].
    + unfold g2, after_cae. cbn [subs set_subs hist]. rewrite events_of_cons, decide_True by done.
      by rewrite (trely_mine g g1 R1), Hmine.
    + intros Hs. split; [|by apply Hch]. unfold g2, after_cae. cbn [subs set_subs hist].
      by rewrite (Hs _ _ R1), Hst.
  - intros g1 R1 I1 Hne. destruct (trely_own g g1 a _ R1 Pa Ea) as [P1 Ea1]. apply HQ'.
    + intros Hns. split; [done|split; [done|split; [done|split; [by eapply fits_rely|]]]].
      split; [by rewrite (trely_mine g g1 R1), Hmine|].
      split; [intros Hs; by rewrite (Hs _ _ R1), Hst|]. split; [done|]. by exists k, ts, p.
    + intros Hs. apply Hne. rewrite (Hs _ _ R1). by apply Hdesc.
Qed.

Lemma tpush_body_wp stamp good num_choices v a s0 g0 m
    (Q : unit + Z -> shared W tstacks -> tls W -> Prop) g l :
  stamp_laws stamp good -> mode -> choices_ok num_choices -> push_loop v a s0 g0 g l ->
  (forall i g' l', thread_id l' = t -> did_push num_choices s0 (seeds l') (Push i v) g0 g' -> Q (inr 1) g' l') ->
  (forall g' l', push_loop v a s0 g0 g' l' -> (p_total P = true -> m < m)%nat -> Q (inl tt) g' l') ->
  wp P t (push_body stamp num_choices set a tt) Q g l.
Proof.
  intros Hl Hm Hn (Ht & Hsd & HI & Hf & Hmine & Hst & Pa & k & ts0 & q0 & Ea) HQ HQ'.
  unfold push_body. wp_local.
  apply (choose_desc_wp num_choices true best_push); [done|done|intros; apply best_push_one|..].
  { intros n Q' _ Hn63 HQ''. by apply get_push_index_wp. }
  intros [p i] g1 l1 (R1 & I1 & Ht1 & Hi1 & Hp1 & Hc1). cbn [dnode index] in *. wp_local.
  destruct (trely_own g g1 a _ R1 Pa Ea) as [P1 E1].
  eapply (wp_store_node WP (width set) (2 ^ 62) P t); [exact P1|exact E1|].
  intros g2 R2 I2 E2 g3 I3 K3 P3 E3. cbn [key val timestamp] in E3. wp_local.
  assert (R12 : p_rely P t g g2) by (by apply (trely_trans g g1 g2)).
  assert (Hp3 : ptr_ok (heap (subs g3)) p).
  { apply (ptr_ok_keeps (heap (subs g2))); [exact K3|]. by apply (trely_ptr g1 g2). }
  apply (stamp_wp _ _ Hl p); [exact I3|exact Hp3|]. intros ts g4 g5 R4 I5 E45 Hg5. wp_local.
  destruct (trely_own g3 g4 a _ R4 P3 E3) as [P4 E4].
  assert (P5 : priv (heap (subs g5)) !! a = Some t) by (by rewrite E45).
  assert (E5 : lookup_node a g5 = Some (mkTnode k v ts0 p))
    by (unfold lookup_node in *; by rewrite E45).
  eapply (wp_store_node WP (width set) (2 ^ 62) P t); [exact P5|exact E5|].
  intros g6 R6 I6 E6 g7 I7 K7 P7 E7. cbn [key val next] in E7. wp_local.
  assert (Hm7 : mine g7 = mine g0).
  { change (mine g7) with (mine g6). rewrite (trely_mine g5 g6 R6), E45.
    rewrite (trely_mine g3 g4 R4). change (mine g3) with (mine g2).
    by rewrite (trely_mine g g2 R12). }
  assert (Hs7 : still -> hist (subs g7) = hist (subs g) /\ array (subs g7) = array (subs g1)).
  { intros Hs. unfold g7. cbn [subs set_heap set_subs hist array]. rewrite (Hs _ _ R6), E45, (Hs _ _ R4).
    unfold g3. cbn [subs set_heap set_subs hist array]. by rewrite (Hs _ _ R2), (Hs _ _ R1). }
  assert (Hf7 : fits g7).
  { intros Htot. destruct (Hs7 (mode_still Hm Htot)) as [Eh _]. by apply (fits_same g). }
  eapply (push_cae_wp num_choices v a p ts k i good s0 g0); try done.
  - intros g8 g9. apply (good_keeps _ _ Hl).
  - intros g8 I8 O8 E8 Hg8. apply (good_pos _ _ Hl p); [done|done|apply Hi1|done|done].
  - apply (good_keeps _ _ Hl p ts g6 g7 K7). by apply (good_keeps _ _ Hl p ts g5 g6); [apply tkeeps|].
  - intros Hs. destruct (Hs7 Hs) as [-> _]. by apply Hst.
  - intros Hs. destruct (Hs7 Hs) as [_ Earr]. destruct (Hc1 Hs) as [Ed _].
    unfold lookup_desc in *. by rewrite Earr.
  - intros Hs. destruct (Hc1 Hs) as (_ & js & Hjs). rewrite (Hsd Hs) in Hjs. exists g1, js. split; [done|split; [|done]].
    by rewrite (Hs _ _ R1), Hst.
  - intros g8 Hd. wp_local. by apply (HQ i).
  - intros g8 HL Hns. wp_locals. apply HQ'; [by apply HL|by apply desc_retry_never].
Qed.

(** [push] returns 1 after exactly one [Push] of its value. *)
Lemma tpush_wp stamp good num_choices k v (Q : Z -> shared W tstacks -> tls W -> Prop) g l :
  stamp_laws stamp good -> mode -> choices_ok num_choices -> thread_id l = t -> fits g ->
  (forall i g' l', thread_id l' = t -> did_push num_choices (seeds l) (seeds l') (Push i v) g g' -> Q 1 g' l') ->
  wp P t (push stamp num_choices set k v) Q g l.
Proof.
  intros Hl Hm Hn Ht Hf HQ. unfold push, create_node. wp_local.
  apply (wp_alloc_node WP (width set) (2 ^ 62) P t); [done|].
  intros a g1 R1 I1 g2 I2 Hk P2 E2.
  apply (wp_while P t _ _ _ _ (fun _ _ => push_loop v a (seeds l) g) 0%nat).
  - split; [done|split; [done|split; [done|split]]].
    + apply (fits_same g1); [done|by eapply fits_rely|done].
    + split; [apply (trely_mine g g1 R1)|]. split; [|split; [done|by exists k, 0, 0]].
      intros Hs. change (hist (subs g2)) with (hist (subs g1)). by rewrite (Hs _ _ R1).
  - intros m [] g3 l3 HJ. apply (tpush_body_wp stamp good num_choices v a (seeds l) g m); try done.
    intros g4 l4 HJ4 Hmm. by exists m.
Qed.

(** The empty answer: nothing was changed; for a thread alone all sub-stacks
    drawn were empty. *)
Definition did_nothing num_choices (s s' : seeds_t) g g' : Prop :=
  p_inv P g' /\ mine g' = mine g /\
  (still -> hist (subs g') = hist (subs g) /\
     exists js, drawn (width set) s js s' /\ Forall (fun j => 0 <= j < width set) js /\ length js = draws num_choices /\
       forall j, j ∈ js -> top_stamp g' j = None).

Lemma tpop_body_wp num_choices s0 g0 m (Q : unit + Z -> shared W tstacks -> tls W -> Prop) g l :
  mode -> choices_ok num_choices -> thread_id l = t -> (still -> seeds l = s0) -> p_rely P t g0 g ->
  (forall i v g' l', thread_id l' = t -> did_pop num_choices s0 (seeds l') (Pop i v) g0 g' -> Q (inr v) g' l') ->
  (forall g' l', thread_id l' = t -> did_nothing num_choices s0 (seeds l') g0 g' -> Q (inr 0) g' l') ->
  (forall g' l', thread_id l' = t -> (still -> seeds l' = s0) -> p_rely P t g0 g' -> (p_total P = true -> m < m)%nat ->
     Q (inl tt) g' l') ->
  wp P t (pop_body num_choices set tt) Q g l.
Proof.
  intros Hm Hn Ht Hsd R0 HQ HQ0 HQ'. unfold pop_body. wp_local.
  apply (choose_desc_wp num_choices false best_pop); [done|done|intros; apply best_pop_one|..].
  { intros n Q' _ Hn63 HQ''. by apply get_pop_index_wp. }
  intros [p i] g1 l1 (R1 & I1 & Ht1 & Hi1 & Hp1 & Hc1). cbn [dnode index] in *.
  assert (R01 : p_rely P t g0 g1) by (by apply (trely_trans g0 g g1)).
  destruct (Z.eqb_spec p 0) as [->|Hnz]; cbn [negb]; wp_local.
  { wp_locals. apply HQ0; [done|]. split; [done|split; [by apply trely_mine|]].
    intros Hs. split; [by rewrite (Hs _ _ R01)|]. destruct (Hc1 Hs) as (E & js & Hdr & Hjs & Hlen & _ & Hb). rewrite (Hsd Hs) in Hdr.
    exists js. split; [done|]. split; [done|]. split; [by destruct Hlen as [?|[? _]]|].
    rewrite (top_stamp_null _ _ E) in Hb. exact Hb. }
  apply tload_node; [done|done|]. intros g2 n R2 I2 En Hp2. wp_local.
  assert (R02 : p_rely P t g0 g2) by (by apply (trely_trans g0 g1 g2)).
  apply (wp_cae_desc WP (width set) (2 ^ 62) P t _ _ _ _ (val n)); [done|done|..].
  - intros g3 R3 I3 O3 E3. split; [done|]. split; [|done]. exists n.
    assert (Hn3 : lookup_node p g3 = Some n); [|by split_and!].
    destruct (ptr_ok_node _ _ Hp2 Hnz) as (n' & E' & Pn).
    apply (published_rely WP (width set) (2 ^ 62) P t g2 g3 p n R3 Pn En).
  - intros g3 R3 I3 E3 g4 I4. wp_local.
    assert (Hp4 : ptr_ok (heap (subs g4)) p) by (by apply (trely_ptr g2 g3)).
    destruct (ptr_ok_node _ _ Hp2 Hnz) as (n' & E' & Pn).
    destruct (published_rely WP (width set) (2 ^ 62) P t g2 g3 p n R3 Pn En) as [P3 En3].
    eapply (wp_load_node WP (width set) (2 ^ 62) P t); [exact P3|exact En3|].
    intros g5 R5 I5 _ _. wp_local. apply (HQ i); [done|]. split; [done|split; [done|split]].
    + rewrite (trely_mine g4 g5 R5). unfold g4, after_cae. cbn [subs set_subs hist].
      rewrite events_of_cons, decide_True by done. rewrite (trely_mine g2 g3 R3).
      by rewrite (trely_mine g0 g2 R02).
    + intros Hs. split.
      * rewrite (Hs _ _ R5). unfold g4, after_cae. cbn [subs set_subs hist].
        by rewrite (Hs _ _ R3), (Hs _ _ R02).
      * destruct (Hc1 Hs) as (_ & js & Hjs). rewrite (Hsd Hs) in Hjs. exists g1, js. split; [done|split; [|done]].
        by rewrite (Hs _ _ R1), (Hs _ _ R0).
  - intros g3 R3 I3 Hne. wp_locals. assert (Hns : ~ still).
    { intros Hs. apply Hne. rewrite (Hs _ _ R3), (Hs _ _ R2). by apply Hc1. }
    apply HQ'; [done|by intros ?|by apply (trely_trans g0 g2 g3)|by apply desc_retry_never].
Qed.

(** [pop] takes exactly one value and returns it, or returns 0. *)
Lemma tpop_wp num_choices (Q : Z -> shared W tstacks -> tls W -> Prop) g l :
  mode -> choices_ok num_choices -> thread_id l = t ->
  (forall i v g' l', thread_id l' = t -> did_pop num_choices (seeds l) (seeds l') (Pop i v) g g' -> Q v g' l') ->
  (forall g' l', thread_id l' = t -> did_nothing num_choices (seeds l) (seeds l') g g' -> Q 0 g' l') ->
  wp P t (pop num_choices set) Q g l.
Proof.
  intros Hm Hn Ht HQ HQ0. unfold pop.
  apply (wp_while P t _ _ _ _ (fun _ _ g' l' => thread_id l' = t /\ (still -> seeds l' = seeds l) /\ p_rely P t g g') 0%nat).
  - split; [done|split; [done|]]. apply (rely_refl (P := P)).
  - intros m [] g2 l2 (Ht2 & Hsd2 & R2). apply (tpop_body_wp num_choices (seeds l) g m); try done.
    intros g3 l3 Ht3 Hsd3 R3 Hmm. by exists m.
Qed.
End operations.

(** ** Whole executions *)

Section executions.
Context {W : Type} {A : Allocator tnode_t} (pos : Z -> Z -> Prop).
#[local] Instance pos_node_ops2 : NodeOps tnode_t := node_ops_with pos.
Context (stamp : Z -> M W tstacks Z) (good : Z -> Z -> shared W tstacks -> Prop).
Context (num_choices : option Z) (Hn : choices_ok num_choices).
Context (w : Z) (Hw : 0 < w < 2 ^ 63) (w0 : W).
Notation set := (mkStack w).
Notation B := (joint (no_window (W := W)) (sprot w (2 ^ 62))).
Notation g0 := (create_stack w w0).2.
Context (Hstamp : forall P t, Runs P B t -> stamp_laws pos set P t stamp good).

Lemma create_tstack_inv : p_inv B g0.
Proof.
  split; [done|]. split_and!; cbn; try done.
  - rewrite length_replicate. lia.
  - intros i d _ E. by apply lookup_replicate in E as [-> _].
Qed.

Section concurrent.
Context (opss : list (list op)) (ls : list (tls W)) (schedule : list nat).
Context (Hls : forall i l, ls !! i = Some l -> thread_id l = i).
Context (Hbound : Z.of_nat (length schedule) < 2 ^ 62).

Let final := exec (mkCfg g0 (clients (exec_op stamp num_choices set) opss ls)) schedule.

Lemma random_stack_run :
  p_inv B (mem final) /\ ~ faulty final /\
  (forall i rs l os, pool final !! i = Some (Ret rs, l) -> opss !! i = Some os ->
     length rs = length os /\ explains w (zip os rs) (events_of i (hist (subs (mem final))))).
Proof.
  destruct (clients_soundness (exec_op stamp num_choices set) B
    (fun t done (g : shared W tstacks) l => thread_id l = t /\
       explains w done (events_of t (hist (subs g)))))
    with (meas := fun g : shared W tstacks => Z.of_nat (length (hist (subs g))))
      (delta := 1) (limit := 2 ^ 62 - 1)
      (g0 := g0) (opss := opss) (ls := ls) (schedule := schedule) as (HI & HF & HQ); try done.
  - intros t done o g l [Hl HJ].
    assert (Hm : mode pos set B t) by (split; [done|intros _ g'; done]).
    destruct o as [k v|]; cbn [exec_op].
    + apply (tpush_wp pos set Hw B t stamp good num_choices); try done; [by apply Hstamp, _|].
      intros i g' l' Hl' (_ & Hi & He & _). split; [done|]. rewrite He. by constructor.
    + apply (tpop_wp pos set Hw B t num_choices); try done.
      * intros i v g' l' Hl' (_ & Hi & He & _). split; [done|]. rewrite He. by constructor.
      * intros g' l' Hl' (_ & He & _). split; [done|]. rewrite He. by constructor.
  - intros t g g' _ [_ (_ & _ & _ & Hlen)]. lia.
  - intros g _ Hm. cbn. lia.
  - apply create_tstack_inv.
  - cbn [create_stack snd subs hist length]. lia.
  - intros i l Hl. split; [by apply Hls|constructor].
  - split; [done|split; [done|]]. intros i rs l os Hp Ho.
    destruct (HQ i rs l os Hp Ho) as (Hlen & g1 & R1 & _ & HJ1). split; [done|].
    destruct R1 as [_ (_ & _ & E1)]. rewrite <- E1 in HJ1. exact HJ1.
Qed.
End concurrent.

(** One thread: every run terminates and is accounted for by the history,
    which then has only its events; the size is exact.  [J] is what the choices
    give in terms of the history. *)
Context (s0 : seeds_t) (J : list (op * Z) -> list (nat * event) -> seeds_t -> Prop) (J_nil : J [] [] s0).
Notation k := (draws num_choices).
Context (J_push : forall done g s js s' i key v,
  J done (hist (subs g)) s -> p_inv B g -> chose set true best_push k s js s' g i -> 0 <= i < w ->
  J (done ++ [(DoPush key v, 1)]) ((0%nat, Push i v) :: hist (subs g)) s').
Context (J_pop : forall done g s js s' i v,
  J done (hist (subs g)) s -> p_inv B g -> chose set false best_pop k s js s' g i -> 0 <= i < w ->
  J (done ++ [(DoPop, v)]) ((0%nat, Pop i v) :: hist (subs g)) s').
Context (J_empty : forall done g s js s',
  J done (hist (subs g)) s -> p_inv B g -> drawn w s js s' -> Forall (fun j => 0 <= j < w) js -> length js = k ->
  (forall j, j ∈ js -> top_stamp g j = None) -> J (done ++ [(DoPop, 0)]) (hist (subs g)) s').

Lemma random_stack_alone ops l0 :
  thread_id l0 = 0%nat -> seeds l0 = s0 -> Z.of_nat (length ops) < 2 ^ 62 ->
  exists n rs g l,
    (forall m, (n <= m)%nat ->
       run m (run_ops (exec_op stamp num_choices set) ops) g0 l0 = Finished rs g l) /\
    length rs = length ops /\ p_inv B g /\
    explains w (zip ops rs) (hist (subs g)).*2 /\ J (zip ops rs) (hist (subs g)) (seeds l) /\
    exists n' g' l', forall m, (n' <= m)%nat ->
      run m (stack_size set) g l = Finished (stacks_total (hist (subs g)) w) g' l'.
Proof.
  intros Hl0 Hs0 Hlim.
  destruct (alone_run B (run_ops (exec_op stamp num_choices set) ops) (fun rs g l =>
      length rs = length ops /\
      (explains w ([] ++ zip ops rs) (hist (subs g)).*2 /\ J ([] ++ zip ops rs) (hist (subs g)) (seeds l) /\
       p_inv B g /\ thread_id l = 0%nat /\
       (length (hist (subs g)) <= length ([] ++ zip ops rs))%nat)) g0 l0)
    as (n & rs & g & l & Hrun & (Hlen & Hex & HJ & HI & Hl & Hlh) & _); [apply create_tstack_inv| |].
  - apply (wp_run_ops_upto (alone B) 0%nat (exec_op stamp num_choices set) (length ops)
      (fun done g l => explains w done (hist (subs g)).*2 /\ J done (hist (subs g)) (seeds l) /\
         p_inv B g /\ thread_id l = 0%nat /\
         (length (hist (subs g)) <= length done)%nat)); [|cbn; lia|].
    2: { split; [constructor|]. split; [rewrite Hs0; exact J_nil|]. split; [apply create_tstack_inv|]. split; [done|]. cbn. lia. }
    intros done o g l Hlt (Hex & HJ & HI & Hl & Hlh).
    assert (Hst : forall g g', p_rely (alone B) 0%nat g g' -> g' = g) by (intros g1 g2 R; by apply R).
    assert (Hm : mode pos set (alone B) 0%nat) by (split; [by intros _|done]).
    assert (Hf : fits pos set (alone B) g) by (intros _; split; [exact I|cbn; lia]).
    assert (Hlen' : forall o' r, length (done ++ [(o', r)] : list (op * Z)) = S (length done))
      by (intros; rewrite length_app; cbn [length]; lia).
    destruct o as [k v|]; cbn [exec_op].
    + apply (tpush_wp pos set Hw (alone B) 0%nat stamp good num_choices); try done; [by apply Hstamp, _|].
      intros i g' l' Hl' (HI' & Hi & _ & Hh).
      destruct (Hh Hst) as [Hh' (g1 & js & I1 & Eh & Hc)].
      rewrite Hlen', Hh', <- Eh in *. split; [by constructor|]. split; [by eapply J_push|]. split; [done|split; [done|]]. cbn [length]. lia.
    + apply (tpop_wp pos set Hw (alone B) 0%nat num_choices); try done.
      * intros i v g' l' Hl' (HI' & Hi & _ & Hh).
        destruct (Hh Hst) as [Hh' (g1 & js & I1 & Eh & Hc)].
        rewrite Hlen', Hh', <- Eh in *. split; [by constructor|]. split; [by eapply J_pop|]. split; [done|split; [done|]]. cbn [length]. lia.
      * intros g' l' Hl' (HI' & _ & Hh). destruct (Hh Hst) as [Hh' (js & Hdr & Hjs & Hk & Hnone)].
        rewrite Hlen'. split; [rewrite Hh'; by constructor|].
        split; [eapply J_empty; [by rewrite Hh'|done|exact Hdr|done..]|]. rewrite Hh'. split; [done|split; [done|]]. lia.
  - exists n, rs, g, l. do 5 (split; [done|]).
    destruct (alone_run B (stack_size set) (fun r _ _ => r = stacks_total (hist (subs g)) w) g l)
      as (n' & r & g' & l' & Hrun' & -> & _); [done| |by exists n', g', l'].
    apply (stacks_size_wp (no_window (W := W)) w (2 ^ 62) (alone B) 0%nat);
      [by intros g1 g2 R; apply R|done|done| |done].
    pose proof (stacks_total_bound (hist (subs g)) w ltac:(lia)) as Hb.
    cbn [app] in Hlh. rewrite length_zip_with in Hlh. lia.
Qed.
End executions.

(** ** The timestamps of the two structures *)

Section stamps.
Context {A : Allocator tnode_t} (set : mstack_t).
Notation B := (joint (no_window (W := nat)) (sprot (width set) (2 ^ 62))).

Lemma stamp_multi_laws ticks (P : protocol (shared nat tstacks)) t :
  let nops := node_ops_with (fun _ _ => True) in
  Runs P B t -> stamp_laws (fun _ _ => True) set P t (stamp_multi ticks) (fun _ _ _ => True).
Proof.
  intros nops runs. split; [done|done|].
  intros p Q g l _ Hp HQ g1 R1 I1 _. cbn [mbind option_bind].
  assert (I2 : p_inv P (set_window (S (window g1)) g1)).
  { apply (runs_inv_back (B := B)). by apply (runs_inv (B := B)) in I1. }
  split; [|split; [exact I2|]].
  - apply (runs_guar (B := B)). split; [done|apply (guar_refl (P := sprot _ _))].
  - by apply (HQ _ g1).
Qed.

(** In stack-dra a timestamp is the number of elements below. *)
#[local] Instance height_node_ops : NodeOps tnode_t := node_ops_with eq.
Notation B1 := (joint (no_window (W := unit)) (sprot (width set) (2 ^ 62))).
Notation height i h := (Z.of_nat (length (contents i h))).

Definition good_dra (p ts : Z) (g : shared unit tstacks) : Prop :=
  p = 0 /\ ts = 0 \/
  p <> 0 /\ exists n, lookup_node p g = Some n /\ priv (heap (subs g)) !! p = None /\
    ts = u64 (timestamp n + 1).

(** The top's timestamp is one less than the height. *)
Lemma top_height (g : shared unit tstacks) i p :
  p_inv B1 g -> 0 <= i -> lookup_desc i g = Some (mkIndex p) ->
  if p =? 0 then height i (hist (subs g)) = 0
  else exists n, lookup_node p g = Some n /\ timestamp n = height i (hist (subs g)) - 1.
Proof.
  intros [_ Hs] Hi E. destruct (sub_inv _ _ i _ Hs Hi E) as [Hc _]. cbn [d_node index_desc node] in Hc.
  destruct (Z.eqb_spec p 0) as [->|Hp].
  - destruct (contents i (hist (subs g))); [done|]. by destruct Hc.
  - destruct (ptr_ok_node _ _ (chain_ptr_ok _ _ _ Hc) Hp) as (n & En & _).
    exists n. split; [exact En|]. exact (chain_pos _ _ _ _ Hc Hp En).
Qed.

Lemma stamp_dra_laws (P : protocol (shared unit tstacks)) t :
  Runs P B1 t -> stamp_laws eq set P t stamp_dra good_dra.
Proof.
  intros runs. split.
  - intros p ts g g' Hk [?|(Hp & n & E & Pn & ->)]; [by left|right]. split; [done|].
    destruct (Hk p n E Pn). by exists n.
  - intros p ts g i HI [_ HO] Hi E Hg. pose proof (top_height g i p HI Hi E) as Ht.
    cbn [p_ok sprot] in HO.
    pose proof (contents_bound i (hist (subs g)) (proj1 (proj2 (proj2 (proj2 HI))))) as Hb.
    destruct Hg as [[-> ->]|(Hp & n & En & _ & ->)]; [exact (eq_sym Ht)|].
    rewrite (proj2 (Z.eqb_neq _ _) Hp) in Ht. destruct Ht as (n' & En' & Ets).
    assert (n' = n) as -> by congruence. rewrite Ets, wrap_small; lia.
  - intros p Q g l HI Hp HQ. unfold stamp_dra.
    destruct (Z.eqb_spec p 0) as [->|Hnz]; cbn [negb].
    + apply wp_ret. apply (HQ 0 g); [apply (rely_refl (P := P))|done|done|by left].
    + wp_local. apply (tload_node eq set P t); [done|done|]. intros g1 n R1 I1 E1 Hp1. wp_local.
      apply (HQ _ g1); [done..|]. right. split; [done|]. exists n.
      destruct (ptr_ok_node _ _ Hp1 Hnz) as (n' & _ & Pn). done.
Qed.
End stamps.

(** ** Theorems *)

(** The history of one thread's run of stack-dra in terms of the heights of
    the sub-stacks, and the seeds after it.  The indices [js] are those that the
    generator yields from the seeds: a push goes to a lowest of the sub-stacks drawn
    (or to an empty one, without drawing further), a pop takes from a highest, and 0
    is answered if all those drawn are empty. *)
Inductive dra_run (w : Z) (k : nat) (s0 : seeds_t) : list (op * Z) -> list (nat * event) -> seeds_t -> Prop :=
| dra_nil : dra_run w k s0 [] [] s0
| dra_push done h s key v js s' i :
    dra_run w k s0 done h s -> drawn w s js s' -> i ∈ js ->
    (length js = k \/ (length js <= k)%nat /\ contents i h = []) ->
    (forall j, j ∈ js -> (length (contents i h) <= length (contents j h))%nat) ->
    dra_run w k s0 (done ++ [(DoPush key v, 1)]) ((0%nat, Push i v) :: h) s'
| dra_pop done h s v js s' i :
    dra_run w k s0 done h s -> drawn w s js s' -> i ∈ js -> length js = k ->
    (forall j, j ∈ js -> (length (contents j h) <= length (contents i h))%nat) ->
    dra_run w k s0 (done ++ [(DoPop, v)]) ((0%nat, Pop i v) :: h) s'
| dra_empty done h s js s' :
    dra_run w k s0 done h s -> drawn w s js s' -> length js = k ->
    (forall j, j ∈ js -> contents j h = []) ->
    dra_run w k s0 (done ++ [(DoPop, 0)]) h s'.

Section theorems.
Context {A : Allocator tnode_t} (num_choices : option Z) (Hn : choices_ok num_choices).
Context (w : Z) (Hw : 0 < w < 2 ^ 63).
Notation set := (mkStack w).

Definition multi_exec (ticks : nat -> Z) : op -> M nat tstacks Z :=
  exec_op (nops := node_ops_with (fun _ _ => True)) (stamp_multi ticks) num_choices set.
Definition dra_exec : op -> M unit tstacks Z := Dra.exec_op num_choices set.

(** Multi-stack: in every interleaved execution no access is invalid, every
    sub-stack is a stack, every value pushed is popped at most once, and each
    thread's results are those of its own pushes and pops. *)
Lemma multi_stack_run ticks opss ls schedule :
  (forall i l, ls !! i = Some l -> thread_id l = i) ->
  Z.of_nat (length schedule) < 2 ^ 62 ->
  let final := exec (mkCfg (create_stack w 0%nat).2 (clients (multi_exec ticks) opss ls)) schedule in
  ~ faulty final /\
  replayed (nops := node_ops_with (fun _ _ => True)) w (subs (mem final)) /\
  (forall i rs l os, pool final !! i = Some (Ret rs, l) -> opss !! i = Some os ->
     length rs = length os /\ explains w (zip os rs) (events_of i (hist (subs (mem final))))).
Proof.
  intros Hls Hb final.
  destruct (random_stack_run (fun _ _ => True) (stamp_multi ticks) (fun _ _ _ => True)
    num_choices Hn w Hw 0%nat (fun P t r => stamp_multi_laws set ticks P t r) opss ls schedule Hls Hb)
    as ([_ HI] & HF & HR).
  split; [exact HF|split; [|exact HR]]. exact (stacks_replayed w _ HI).
Qed.

(** stack-dra: the same, and every node's timestamp is the number of elements
    below it in its sub-stack. *)
Lemma stack_dra_run opss ls schedule :
  (forall i l, ls !! i = Some l -> thread_id l = i) ->
  Z.of_nat (length schedule) < 2 ^ 62 ->
  let final := exec (mkCfg (Dra.create_stack w).2 (clients dra_exec opss ls)) schedule in
  ~ faulty final /\
  replayed (nops := node_ops_with eq) w (subs (mem final)) /\
  (forall i rs l os, pool final !! i = Some (Ret rs, l) -> opss !! i = Some os ->
     length rs = length os /\ explains w (zip os rs) (events_of i (hist (subs (mem final))))).
Proof.
  intros Hls Hb final.
  destruct (random_stack_run eq stamp_dra good_dra
    num_choices Hn w Hw tt (fun P t r => stamp_dra_laws set P t r) opss ls schedule Hls Hb)
    as ([_ HI] & HF & HR).
  split; [exact HF|split; [|exact HR]]. exact (stacks_replayed w _ HI).
Qed.

(** C35. Both stacks: in every interleaved execution, whatever the cycle counter of
    the multi-stack reads, no access is invalid, every sub-stack is a stack, every
    value pushed is popped at most once, and each thread's results are those of its
    own pushes and pops; in stack-dra every node's timestamp is the number of
    elements below it in its sub-stack. *)
Theorem random_stacks_linearizable ticks opss ls ls' schedule :
  (forall i l, ls !! i = Some l -> thread_id l = i) ->
  (forall i l, ls' !! i = Some l -> thread_id l = i) ->
  Z.of_nat (length schedule) < 2 ^ 62 ->
  let multi := exec (mkCfg (create_stack w 0%nat).2 (clients (multi_exec ticks) opss ls)) schedule in
  let dra := exec (mkCfg (Dra.create_stack w).2 (clients dra_exec opss ls')) schedule in
  (~ faulty multi /\ replayed (nops := node_ops_with (fun _ _ => True)) w (subs (mem multi)) /\
   (forall i rs l os, pool multi !! i = Some (Ret rs, l) -> opss !! i = Some os ->
      length rs = length os /\ explains w (zip os rs) (events_of i (hist (subs (mem multi)))))) /\
  (~ faulty dra /\ replayed (nops := node_ops_with eq) w (subs (mem dra)) /\
   (forall i rs l os, pool dra !! i = Some (Ret rs, l) -> opss !! i = Some os ->
      length rs = length os /\ explains w (zip os rs) (events_of i (hist (subs (mem dra)))))).
Proof. intros Hls Hls' Hb multi dra. split; [by apply multi_stack_run|by apply stack_dra_run]. Qed.

(** The heights the timestamps stand for. *)
Lemma top_stamp_height (g : shared unit tstacks) i :
  p_inv (joint (no_window (W := unit))
    (sprot (nops := node_ops_with eq) w (2 ^ 62))) g -> 0 <= i < w ->
  top_stamp g i = match length (contents i (hist (subs g))) with
                  | O => None | S n => Some (Z.of_nat n) end.
Proof.
  intros HI Hi. pose proof HI as [_ Hs]. destruct (sub_lookup w _ i Hs Hi) as [[p] E].
  pose proof (top_height set g i p HI (proj1 Hi) E) as Ht. rewrite (top_stamp_eq g i p E).
  destruct (Z.eqb_spec p 0).
  - by destruct (length (contents i (hist (subs g)))).
  - destruct Ht as (n' & -> & Ets). cbn [fmap option_fmap option_map]. rewrite Ets.
    destruct (length (contents i (hist (subs g)))) eqn:Elen; [|f_equal; lia].
    destruct (sub_inv w _ i _ Hs (proj1 Hi) E) as [Hc _].
    destruct (contents i (hist (subs g))); [by cbn in Hc|done].
Qed.

(** C34. stack-dra, for one thread: every run terminates, is a run of the choice
    process on the heights with the sub-stacks that the generator draws from the
    thread's seeds, the nodes hold what the pushes and pops left, and [stack_size]
    then returns the number of elements. *)
Theorem stack_dra_choice ops l0 :
  thread_id l0 = 0%nat -> Z.of_nat (length ops) < 2 ^ 62 ->
  exists n rs g l,
    (forall m, (n <= m)%nat -> run m (run_ops dra_exec ops) (Dra.create_stack w).2 l0 = Finished rs g l) /\
    length rs = length ops /\
    explains w (zip ops rs) (hist (subs g)).*2 /\ replayed (nops := node_ops_with eq) w (subs g) /\
    dra_run w (draws num_choices) (seeds l0) (zip ops rs) (hist (subs g)) (seeds l) /\
    exists n' g' l', forall m, (n' <= m)%nat ->
      run m (Dra.stack_size set) g l
        = Finished (stacks_total (hist (subs g)) w) g' l'.
Proof.
  intros Hl0 Hlim.
  destruct (random_stack_alone eq stamp_dra good_dra num_choices Hn w Hw tt
    (fun P t r => stamp_dra_laws set P t r) (seeds l0) (dra_run w (draws num_choices) (seeds l0)) (dra_nil _ _ _)) with (ops := ops) (l0 := l0)
    as (n & rs & g & l & Hrun & Hlen & [_ HI] & Hex & HJ & Hsize); try done.
  - intros ds g s js s' i key v HJ HI (Hdr & Hjs & Hk & Hin & Hb) Hi.
    pose proof (fun j Hj => top_stamp_height g j HI (proj1 (Forall_forall _ _) Hjs j Hj)) as Ht.
    apply (dra_push w _ _ ds _ s key v js s' i); try done.
    + destruct Hk as [?|(_ & ? & Hk)]; [by left|right]. split; [done|]. rewrite (Ht i Hin) in Hk.
      by destruct (contents i (hist (subs g))).
    + intros j Hj. rewrite (Ht i Hin) in Hb.
      destruct (length (contents i (hist (subs g)))) as [|hi]; [lia|].
      destruct (Hb j Hj) as (ts & Ets & Hle). rewrite (Ht j Hj) in Ets.
      destruct (length (contents j (hist (subs g)))); [done|]. injection Ets as <-. lia.
  - intros ds g s js s' i v HJ HI (Hdr & Hjs & [Hk|[? _]] & Hin & Hb) Hi; [|done].
    pose proof (fun j Hj => top_stamp_height g j HI (proj1 (Forall_forall _ _) Hjs j Hj)) as Ht.
    apply (dra_pop w _ _ ds _ s v js s' i); try done. intros j Hj. rewrite (Ht i Hin) in Hb.
    destruct (length (contents i (hist (subs g)))) as [|hi].
    + specialize (Hb j Hj). rewrite (Ht j Hj) in Hb.
      by destruct (length (contents j (hist (subs g)))).
    + pose proof (fun ts => Hb j ts Hj) as Hbj. rewrite (Ht j Hj) in Hbj.
      destruct (length (contents j (hist (subs g)))) as [|hj]; [lia|].
      specialize (Hbj (Z.of_nat hj) eq_refl). lia.
  - intros ds g s js s' HJ HI Hdr Hjs Hk Hb.
    apply (dra_empty w _ _ ds _ s js s'); try done. intros j Hj. specialize (Hb j Hj).
    rewrite (top_stamp_height g j HI (proj1 (Forall_forall _ _) Hjs j Hj)) in Hb.
    by destruct (contents j (hist (subs g))).
  - exists n, rs, g, l. do 3 (split; [done|]). split; [exact (stacks_replayed (nops := node_ops_with eq) w _ HI)|]. by split.
Qed.
End theorems.

(** ** Concrete executions: two threads, two sub-stacks, two choices *)

Definition example_ops : list (list op) :=
  [[DoPush 1 10; DoPop]; [DoPush 2 20; DoPush 3 30]].
Definition example_schedule : list nat := mjoin (replicate 120 [0; 1]%nat).
#[local] Instance example_allocator : Allocator tnode_t := bump_allocator tnode_t.

Definition example_multi : cfg (shared nat tstacks) (tls nat) (list Z) :=
  exec (mkCfg (create_stack 2 0%nat).2
    (clients (multi_exec (Some 2) 2 (fun n => 7 * Z.of_nat n)) example_ops (tls0 0%nat <$> seq 0 2)))
    example_schedule.
Definition example_dra : cfg (shared unit tstacks) (tls unit) (list Z) :=
  exec (mkCfg (Dra.create_stack 2).2
    (clients (dra_exec (Some 2) 2) example_ops (tls0 tt <$> seq 0 2))) example_schedule.

Example random_stacks_example_finishes :
  (fun pl => match pl.1 with Ret rs => Some rs | _ => None end) <$> pool example_multi
    = [Some [1; 10]; Some [1; 1]] /\
  (fun pl => match pl.1 with Ret rs => Some rs | _ => None end) <$> pool example_dra
    = [Some [1; 10]; Some [1; 1]].
Proof. vm_compute. split; reflexivity. Qed.

Lemma random_stacks_linearizable_witness :
  explains 2 [(DoPush 1 10, 1); (DoPop, 10)] (events_of 0 (hist (subs (mem example_multi)))) /\
  replayed (nops := node_ops_with eq) 2 (subs (mem example_dra)).
Proof.
  destruct (random_stacks_linearizable (Some 2) ltac:(intros n [= <-]; lia) 2 ltac:(lia)
    (fun n => 7 * Z.of_nat n) example_ops (tls0 0%nat <$> seq 0 2) (tls0 tt <$> seq 0 2) example_schedule)
    as [(_ & _ & Hmulti) (_ & Hdra & _)].
  - intros i l H. by apply tls0_lookup in H as ->.
  - intros i l H. by apply tls0_lookup in H as ->.
  - vm_compute. reflexivity.
  - split; [|exact Hdra].
    refine (proj2 (Hmulti 0%nat [1; 10] _ [DoPush 1 10; DoPop] _ _)); [vm_compute; reflexivity|reflexivity].
Defined.

Lemma stack_dra_choice_witness :
  exists n rs g l,
    (forall m, (n <= m)%nat ->
       run m (run_ops (dra_exec (Some 2) 2) [DoPush 1 10; DoPush 2 20; DoPop])
         (Dra.create_stack 2).2 (tls0 tt 0) = Finished rs g l) /\
    length rs = 3%nat /\
    explains 2 (zip [DoPush 1 10; DoPush 2 20; DoPop] rs) (hist (subs g)).*2 /\
    replayed (nops := node_ops_with eq) 2 (subs g) /\
    dra_run 2 2 (mkSeeds 1 2 3) (zip [DoPush 1 10; DoPush 2 20; DoPop] rs) (hist (subs g)) (seeds l) /\
    exists n' g' l', forall m, (n' <= m)%nat ->
      run m (Dra.stack_size (mkStack 2)) g l
        = Finished (stacks_total (hist (subs g)) 2) g' l'.
Proof.
  apply (stack_dra_choice (Some 2) ltac:(intros n [= <-]; lia) 2 ltac:(lia)
    [DoPush 1 10; DoPush 2 20; DoPop] (tls0 tt 0)).
  - reflexivity.
  - vm_compute. reflexivity.
Defined.
