(* ===== verification/SubQueues.v ===== *)
(** An array of Michael-Scott queues: the part the queues have in common.
    Each sub-queue is a list of linked nodes; an entry of [put_array] holds its
    tail pointer, which may lag one node behind, an entry of [get_array] its
    head pointer, to the last node dequeued.  The steps on them and their rules
    are here; which sub-queue an operation chooses is up to the structures. *)
From S2P Require Import Prelude Conc Random Thread StackHeap QueueHeap Shared.

(** An array entry: [qd_node] is the pointer; [qd_put_ok d p], [qd_get_ok d p]:
    the rest of [d] is right for a tail, a head pointer to the [p]-th node. *)
Class QDesc (D : Type) := {
  qd_node : D -> Z;
  qd_put_ok : D -> nat -> Prop;
  qd_get_ok : D -> nat -> Prop;
}.

(** [tag_ok i k x]: [x] is what the [k]-th node of sub-queue [i] holds next to
    its value. *)
Class QTag (X : Type) := { tag_ok : Z -> nat -> X -> Prop }.
#[export] Instance unit_tag : QTag unit := {| tag_ok _ _ _ := True |}.

(** [links] (the nodes of each sub-queue since its creation), [tails] (the
    positions of the tail pointers in them), [puts] (what each entry of
    [put_array] has held) and [hist] are history variables: written, never
    read. *)
Record queues (D X : Type) := mkQueues {
  put_array : list D;
  get_array : list D;
  heap : qmemory_of X;
  links : list (list Z);
  tails : list nat;
  puts : list (list D);
  hist : qhist;
}.
Arguments mkQueues {D X}.
Arguments put_array {D X}.
Arguments get_array {D X}.
Arguments heap {D X}.
Arguments links {D X}.
Arguments tails {D X}.
Arguments puts {D X}.
Arguments hist {D X}.

Definition lookup_put {W D X} (i : Z) (g : shared W (queues D X)) : option D :=
  put_array (subs g) !! Z.to_nat i.
Definition lookup_get {W D X} (i : Z) (g : shared W (queues D X)) : option D :=
  get_array (subs g) !! Z.to_nat i.
Definition lookup_node {W D X} (a : Z) (g : shared W (queues D X)) : option (qnode_of X) :=
  qnodes (heap (subs g)) !! a.

Definition with_heap {D X} (m : qmemory_of X) (s : queues D X) : queues D X :=
  mkQueues (put_array s) (get_array s) m (links s) (tails s) (puts s) (hist s).
Definition with_put {D X} (i : Z) (new : D) (s : queues D X) : queues D X :=
  mkQueues (<[Z.to_nat i := new]> (put_array s)) (get_array s) (heap s) (links s)
    (alter S (Z.to_nat i) (tails s)) (alter (fun ds => ds ++ [new]) (Z.to_nat i) (puts s)) (hist s).
Definition with_event {D X} (x : nat * qevent) (s : queues D X) : queues D X :=
  mkQueues (put_array s) (get_array s) (heap s) (links s) (tails s) (puts s) (x :: hist s).

(** ** The steps *)

Section code.
Context {W V D X : Type} `{EqDecision D} {qd : QDesc D} {A : Allocator (qnode_of X)}.
Notation M := (prog (shared W (queues D X)) (tls V)).

(** An allocation with the node's fields set: private until it is linked. *)
Definition alloc_node (n : qnode_of X) : M Z :=
  Act (fun g l =>
    let m := heap (subs g) in
    let a := alloc_addr (qnodes m) in
    Some (a, set_subs (with_heap (qmem_alloc (thread_id l) a n m) (subs g)) g, l)) Ret.

(** A store to what a node holds next to its value. *)
Definition store_tag (a : Z) (x : X) : M unit :=
  update (fun g _ =>
    _ ← lookup_node a g;
    Some (tt, set_subs (with_heap (qmem_write a (fun _ => x) (heap (subs g))) (subs g)) g)).

Definition load_node {B} (f : qnode_of X -> B) (a : Z) : M B := load (fun g => f <$> lookup_node a g).
Definition load_next (a : Z) : M Z := load_node qnext a.
Definition load_val (a : Z) : M Z := load_node qval a.
Definition load_put {B} (f : D -> B) (i : Z) : M B := load (fun g => f <$> lookup_put i g).
Definition load_get {B} (f : D -> B) (i : Z) : M B := load (fun g => f <$> lookup_get i g).

(** A load of the [next] of a node that was the head of sub-queue [i]: NULL
    is recorded as the observation that the sub-queue is empty. *)
Definition load_head_next (i a : Z) : M Z :=
  Act (fun g l =>
    n ← lookup_node a g;
    Some (qnext n,
          if qnext n =? 0 then set_subs (with_event (thread_id l, Nothing i) (subs g)) g else g, l)) Ret.

(** [CAS(&a->next, NULL, b)]; [i], the sub-queue, is for the history. *)
Definition link_node (t : nat) (i a b : Z) (s : queues D X) : queues D X :=
  let v := from_option qval 0 (qnodes (heap s) !! b) in
  let L := default [] (links s !! Z.to_nat i) in
  mkQueues (put_array s) (get_array s) (qmem_link a b (heap s))
    (<[Z.to_nat i := L ++ [b]]> (links s)) (tails s) (puts s)
    ((t, Enq i (Z.of_nat (length L)) v) :: hist s).
Definition cas_next (i a b : Z) : M bool :=
  Act (fun g l =>
    n ← lookup_node a g;
    if decide (qnext n = 0) then
      Some (true, set_subs (link_node (thread_id l) i a b (subs g)) g, l)
    else Some (false, g, l)) Ret.

(** [CAE(&put_array[i], &d, &new)]. *)
Definition cae_put (i : Z) (d new : D) : M bool :=
  update (fun g _ =>
    cur ← lookup_put i g;
    if decide (cur = d) then Some (true, set_subs (with_put i new (subs g)) g)
    else Some (false, g)).

(** [CAE(&get_array[i], &d, &new)]; on success the history records the
    dequeue of [new]'s node. *)
Definition take_node (t : nat) (i : Z) (new : D) (s : queues D X) : queues D X :=
  mkQueues (put_array s) (<[Z.to_nat i := new]> (get_array s)) (heap s) (links s) (tails s) (puts s)
    ((t, Deq i (Z.of_nat (S (length (deqs i (hist s)))))
           (from_option qval 0 (qnodes (heap s) !! qd_node new))) :: hist s).
Definition cae_get (i : Z) (d new : D) : M bool :=
  Act (fun g l =>
    cur ← lookup_get i g;
    if decide (cur = d) then
      Some (true, set_subs (take_node (thread_id l) i new (subs g)) g, l)
    else Some (false, g, l)) Ret.

(** The size loops that follow each sub-queue from its head to its end. *)
Definition queues_size (w : Z) : M Z :=
  while (fun '(i, size) =>
    if i <? w then
      let* n := load_get qd_node i in
      let* size := while (fun '(n, size) =>
        let* nxt := load_next n in
        if negb (nxt =? 0) then
          let* n := load_next n in
          continue (n, u64 (size + 1))
        else break size) (n, size) in
      continue (u64 (i + 1), size)
    else break size) (0, 0).

(** Those that follow it from its head to its tail. *)
Definition queues_span (w : Z) : M Z :=
  while (fun '(i, size) =>
    if i <? w then
      let* head := load_get qd_node i in
      let* tail := load_put qd_node i in
      let* size := while (fun '(head, size) =>
        if negb (head =? tail) then
          let* head := load_next head in
          continue (head, u64 (size + 1))
        else break size) (head, size) in
      continue (u64 (i + 1), size)
    else break size) (0, 0).
End code.

(** ** Protocol *)

Section protocol.
Context {D X : Type} {qd : QDesc D} {qt : QTag X}.
Notation queues := (queues D X).
Implicit Types (s : queues).

Definition links_of s (i : Z) : list Z := default [] (links s !! Z.to_nat i).
(** Node [a] is the [k]-th of sub-queue [i], counting from the dummy. *)
Definition at_pos s (i : Z) (k : nat) (a : Z) : Prop := links_of s i !! k = Some a.
(** The positions of the tail and the head pointer. *)
Definition tail_pos s (i : Z) : nat := default 0%nat (tails s !! Z.to_nat i).
Definition head_pos s (i : Z) : nat := length (deqs i (hist s)).
Definition puts_of s (i : Z) : list D := default [] (puts s !! Z.to_nat i).

Record sub_at s (i : Z) (dp dg : D) : Prop := mkSubAt {
  sa_put : put_array s !! Z.to_nat i = Some dp;
  sa_get : get_array s !! Z.to_nat i = Some dg;
  sa_puta : at_pos s i (tail_pos s i) (qd_node dp);
  sa_geta : at_pos s i (head_pos s i) (qd_node dg);
  sa_putok : qd_put_ok dp (tail_pos s i);
  sa_getok : qd_get_ok dg (head_pos s i);
  sa_putlen : length (puts_of s i) = S (tail_pos s i);
  sa_putlast : puts_of s i !! tail_pos s i = Some dp;
  sa_subq : subq (heap s) (hist s) i (links_of s i) (tail_pos s i) (head_pos s i);
  sa_tags : forall k a n, at_pos s i k a -> qnodes (heap s) !! a = Some n -> tag_ok i k (qtag n);
}.

Definition queues_inv (w : Z) s : Prop :=
  Z.of_nat (length (put_array s)) = w /\ Z.of_nat (length (get_array s)) = w /\
  Z.of_nat (length (links s)) = w /\ Z.of_nat (length (tails s)) = w /\
  qmem_ok (heap s) /\ qdisjoint (links s) /\ qlegal (hist s) /\
  forall i, 0 <= i < w -> exists dp dg, sub_at s i dp dg.

(** What every step preserves. *)
Record evolves s s' : Prop := mkEvolves {
  ev_tail i : (tail_pos s i <= tail_pos s' i)%nat;
  ev_links i : links_of s i `prefix_of` links_of s' i;
  ev_puts i : puts_of s i `prefix_of` puts_of s' i;
  ev_heap : qkeeps (heap s) (heap s');
  ev_hist : hist s `suffix_of` hist s';
}.

Definition untouched (t : nat) s s' : Prop :=
  qowns t (heap s) (heap s') /\ qevents_of t (hist s') = qevents_of t (hist s).

(** [limit] bounds the number of events. *)
Definition qprot (w limit : Z) : protocol queues :=
  {| p_inv := queues_inv w;
     p_rely t s s' := evolves s s' /\ untouched t s s';
     p_guar t s s' := evolves s s' /\ (forall u, u <> t -> untouched u s s') /\
       Z.of_nat (length (hist s')) <= Z.of_nat (length (hist s)) + 1;
     p_ok s := Z.of_nat (length (hist s)) < limit;
     p_total := false |}.

Lemma evolves_refl s : evolves s s.
Proof. by split. Qed.
Lemma evolves_trans s1 s2 s3 : evolves s1 s2 -> evolves s2 s3 -> evolves s1 s3.
Proof.
  intros [] []. split; [|intros i; etrans; eauto|intros i; etrans; eauto| |by etrans].
  - intros i. specialize (ev_tail0 i). specialize (ev_tail1 i). lia.
  - by eapply qkeeps_trans.
Qed.
Lemma untouched_refl t s : untouched t s s.
Proof. split; [by intros a n|done]. Qed.

#[export] Instance qprot_laws w limit : ProtocolLaws (qprot w limit).
Proof.
  split; cbn.
  - intros t s. split; [apply evolves_refl|apply untouched_refl].
  - intros t s1 s2 s3 [E1 [O1 H1]] [E2 [O2 H2]]. split; [by eapply evolves_trans|].
    split; [|by rewrite H2]. intros a n E P. destruct (O1 a n E P). by apply O2.
  - intros t s. split; [apply evolves_refl|]. split; [intros u _; apply untouched_refl|lia].
  - intros t u s1 s2 Htu _ (? & H & _). split; [done|]. by apply H.
Qed.

Lemma deqs_suffix i (h h' : qhist) :
  h `suffix_of` h' -> (length (deqs i h) <= length (deqs i h'))%nat.
Proof.
  intros [h1 ->]. induction h1 as [|[t [j k v|j k v|j]] h1 IH]; cbn; try done.
  destruct (decide (j = i)); rewrite ?length_app; cbn; lia.
Qed.

Lemma ev_head s s' i : evolves s s' -> (head_pos s i <= head_pos s' i)%nat.
Proof. intros []. by apply deqs_suffix. Qed.

Lemma at_pos_evolves s s' i k a : evolves s s' -> at_pos s i k a -> at_pos s' i k a.
Proof. intros [] H. eapply prefix_lookup_Some; [exact H|apply ev_links0]. Qed.

Lemma links_lookup w s i :
  queues_inv w s -> 0 <= i < w -> links s !! Z.to_nat i = Some (links_of s i).
Proof.
  intros (_ & _ & Hlen & _) Hi. unfold links_of.
  destruct (lookup_lt_is_Some_2 (links s) (Z.to_nat i)) as [L E]; [lia|]. by rewrite E.
Qed.

Lemma tails_lookup w s i :
  queues_inv w s -> 0 <= i < w -> tails s !! Z.to_nat i = Some (tail_pos s i).
Proof.
  intros (_ & _ & _ & Hlen & _) Hi. unfold tail_pos.
  destruct (lookup_lt_is_Some_2 (tails s) (Z.to_nat i)) as [p E]; [lia|]. by rewrite E.
Qed.

Lemma at_pos_inj w s i k k' a :
  queues_inv w s -> 0 <= i < w -> at_pos s i k a -> at_pos s i k' a -> k = k'.
Proof.
  intros HI Hi Hk Hk'. pose proof (links_lookup w s i HI Hi) as E.
  destruct HI as (_&_&_&_&_&Hd&_). by destruct (Hd _ _ _ _ _ _ _ E E Hk Hk').
Qed.

Lemma sub_positions w s i :
  queues_inv w s -> 0 <= i < w ->
  (head_pos s i <= tail_pos s i < length (links_of s i))%nat /\
  (length (links_of s i) <= tail_pos s i + 2)%nat /\
  length (links_of s i) = S (head_pos s i + length (qcontents i (hist s))).
Proof.
  intros (_&_&_&_&_&_&Hl&H) Hi. destruct (H i Hi) as (dp & dg & []). destruct sa_subq0.
  split; [done|split; [done|]]. rewrite sq_enqs. f_equal.
  by rewrite (enqs_deqs i _ Hl), length_app.
Qed.

Lemma enqs_events i (h : qhist) : (length (enqs i h) <= length h)%nat.
Proof.
  induction h as [|[t [j k v|j k v|j]] h IH]; cbn; try lia. destruct (decide (j = i)); rewrite ?length_app; cbn; lia.
Qed.

(** Every node but the dummy is from an event. *)
Lemma links_bound w s i :
  queues_inv w s -> 0 <= i < w -> (length (links_of s i) <= S (length (hist s)))%nat.
Proof.
  intros (_&_&_&_&_&_&_&H) Hi. destruct (H i Hi) as (dp & dg & []).
  pose proof (sq_enqs _ _ _ _ _ _ sa_subq0). pose proof (enqs_events i (hist s)). lia.
Qed.

(** Following [next] from a node of a sub-queue. *)
Lemma at_pos_node w s i k a :
  queues_inv w s -> 0 <= i < w -> at_pos s i k a ->
  a <> 0 /\ exists n, qnodes (heap s) !! a = Some n /\ qpriv (heap s) !! a = None /\
    tag_ok i k (qtag n) /\
    if qnext n =? 0 then length (links_of s i) = S k else at_pos s i (S k) (qnext n).
Proof.
  intros HI Hi Hk. pose proof HI as (_&_&_&_&_&_&_&H). destruct (H i Hi) as (dp & dg & []).
  destruct (qlist_node _ _ _ _ (sq_list _ _ _ _ _ _ sa_subq0) Hk) as (Hnz & n & En & Pn & _).
  split; [done|]. exists n. split; [done|split; [done|split; [by eapply sa_tags0|]]].
  exact (qlist_next _ _ _ _ _ (sq_list _ _ _ _ _ _ sa_subq0) Hk En).
Qed.

Lemma private_not_linked w s t b j L :
  queues_inv w s -> qpriv (heap s) !! b = Some t -> links s !! j = Some L -> b ∉ L.
Proof.
  intros HI Pb HL Hb. pose proof HI as (_ & _ & Hlen & _).
  pose proof (lookup_lt_Some _ _ _ HL). apply list_elem_of_lookup in Hb as [k Hk].
  destruct (at_pos_node w s (Z.of_nat j) k b HI) as (_ & n & _ & P & _); [lia| |congruence].
  unfold at_pos, links_of. by rewrite Nat2Z.id, HL.
Qed.
End protocol.

(** ** What each step does to the sub-queues *)

Section steps.
Context {D X : Type} `{EqDecision D} {qd : QDesc D} {qt : QTag X} (w limit : Z).
Notation queues := (queues D X).
Implicit Types (s : queues).
Notation inv := (queues_inv w).
Notation guar := (p_guar (qprot w limit)).

(** *** Changes of private nodes *)

Lemma qheap_step t s m :
  inv s -> qmem_ok m -> qmem_guar t (heap s) m ->
  (forall a n, qnodes (heap s) !! a = Some n -> qpriv (heap s) !! a = None ->
     qnodes m !! a = Some n /\ qpriv m !! a = None) ->
  inv (with_heap m s) /\ guar t s (with_heap m s).
Proof.
  intros HI Hm [Hk Ho] Hs. pose proof HI as (? & ? & ? & ? & ? & ? & ? & H). split.
  - do 7 (split; [done|]). intros i Hi. destruct (H i Hi) as (dp & dg & []). exists dp, dg.
    assert (Hn : forall k a, at_pos s i k a -> qnodes m !! a = qnodes (heap s) !! a /\ qpriv m !! a = None).
    { intros k a Hka. destruct (at_pos_node w s i k a HI Hi Hka) as (_ & n & En & Pn & _).
      destruct (Hs a n En Pn) as [-> ->]. done. }
    split; try done.
    + eapply subq_same; [exact sa_subq0| |done|done]. intros a Ha.
      apply list_elem_of_lookup in Ha as [k Hka]. cbn [with_heap heap].
      destruct (Hn k a Hka) as [-> ?]. done.
    + intros k a n Hka En. cbn in En. rewrite (proj1 (Hn k a Hka)) in En. by eapply sa_tags0.
  - split; [by split|]. split; [|cbn; lia]. intros u Hu. split; [by apply Ho|done].
Qed.

(** *** Observing that a sub-queue is empty *)

Lemma nothing_step t s i :
  inv s -> 0 <= i < w -> length (links_of s i) = S (head_pos s i) ->
  inv (with_event (t, Nothing i) s) /\ guar t s (with_event (t, Nothing i) s).
Proof.
  intros HI Hi Hlen. destruct (sub_positions w s i HI Hi) as (_ & _ & Hc).
  pose proof HI as (? & ? & ? & ? & ? & ? & ? & H). split.
  - do 6 (split; [done|]). split; [split; [|done]|].
    + destruct (qcontents i (hist s)); [done|cbn in Hc; lia].
    + intros j Hj. destruct (H j Hj) as (dp & dg & []). exists dp, dg. split; try done.
      eapply subq_same; [exact sa_subq0|done|done|done].
  - split; [split; try done; by eexists [_]|]. split; [|cbn; lia]. intros u Hu.
    split; [by intros a n|]. cbn [with_event hist]. by rewrite qevents_of_cons, decide_False.
Qed.

(** *** Linking *)

(** The node [b] may be linked after [a], the [k]-th of sub-queue [i]. *)
Record linkable (t : nat) (i : Z) (k : nat) (a b : Z) (n nb : qnode_of X) s : Prop := {
  lk_pos : at_pos s i k a;
  lk_tail : (k <= tail_pos s i)%nat;
  lk_a : qnodes (heap s) !! a = Some n;
  lk_last : qnext n = 0;
  lk_b : qnodes (heap s) !! b = Some nb;
  lk_priv : qpriv (heap s) !! b = Some t;
  lk_next : qnext nb = 0;
  lk_tag : tag_ok i (S k) (qtag nb);
}.

Definition linked (t : nat) (i : Z) (a b : Z) (nb : qnode_of X) s : queues :=
  mkQueues (put_array s) (get_array s) (qmem_link a b (heap s))
    (<[Z.to_nat i := links_of s i ++ [b]]> (links s)) (tails s) (puts s)
    ((t, Enq i (Z.of_nat (length (links_of s i))) (qval nb)) :: hist s).

Lemma link_node_eq t i k a b n nb s :
  inv s -> 0 <= i < w -> linkable t i k a b n nb s ->
  link_node t i a b s = linked t i a b nb s /\ length (links_of s i) = S k /\ tail_pos s i = k.
Proof.
  intros HI Hi []. pose proof (links_lookup w s i HI Hi) as HL.
  destruct (sub_positions w s i HI Hi) as ([_ ?] & ? & _).
  destruct (at_pos_node w s i k a HI Hi lk_pos0) as (_ & n' & En & _ & _ & Hn).
  assert (n' = n) as -> by congruence. rewrite lk_last0, Z.eqb_refl in Hn.
  split; [|split; [done|lia]]. unfold link_node, linked. rewrite HL, lk_b0. cbn [default from_option].
  done.
Qed.

Lemma links_of_linked t i a b nb s j :
  inv s -> 0 <= i < w ->
  links_of (linked t i a b nb s) j =
    if decide (Z.to_nat i = Z.to_nat j) then links_of s i ++ [b] else links_of s j.
Proof.
  intros HI Hi. pose proof (lookup_lt_Some _ _ _ (links_lookup w s i HI Hi)).
  unfold linked, links_of at 1; cbn. rewrite list_lookup_insert.
  destruct (decide (Z.to_nat i = Z.to_nat j)); [by rewrite decide_True|].
  rewrite decide_False; [done|]. by intros [? _].
Qed.

Lemma linked_sub t i k a b n nb s j dp dg :
  inv s -> 0 <= i < w -> linkable t i k a b n nb s -> 0 <= j < w ->
  sub_at s j dp dg -> sub_at (linked t i a b nb s) j dp dg.
Proof.
  intros HI Hi Hlk Hj Hs. pose proof Hlk as []. pose proof Hs as [].
  destruct (link_node_eq t i k a b n nb s HI Hi Hlk) as (_ & Hlen & Htail).
  assert (Elk := links_of_linked t i a b nb s j HI Hi).
  pose proof HI as (_ & _ & _ & _ & Hm & Hd & _ & _).
  assert (Hnot : forall j', 0 <= j' < w -> b ∉ links_of s j').
  { intros j' Hj'. eapply private_not_linked; [done|done|]. by eapply links_lookup. }
  assert (Hb0 : b <> 0) by (intros ->; destruct Hm; congruence).
  assert (Hpos : forall k' a', at_pos s j k' a' -> at_pos (linked t i a b nb s) j k' a').
  { intros k' a' H'. unfold at_pos in *. rewrite Elk. destruct (decide _) as [E|]; [|done].
    apply lookup_app_l_Some. replace i with j by lia. done. }
  assert (Hhead : head_pos (linked t i a b nb s) j = head_pos s j) by done.
  split; rewrite ?Hhead; try done; [by apply Hpos|by apply Hpos|..].
  - destruct (decide (i = j)) as [->|Hne].
    + rewrite decide_True in Elk by done. rewrite Elk. apply subq_link; try done.
      * eapply qdisjoint_nodup; [exact Hd|]. by apply (links_lookup w).
      * by rewrite last_lookup, Hlen.
      * rewrite Hlen. change (tail_pos (linked t j a b nb s) j) with (tail_pos s j). lia.
      * by apply Hnot.
    + rewrite decide_False in Elk by lia. rewrite Elk.
      eapply subq_same; [exact sa_subq0| |cbn; by rewrite decide_False|done].
      apply qmem_link_same; [|by apply Hnot]. intros Ha.
      apply list_elem_of_lookup in Ha as [k' Hk'].
      destruct (Hd _ _ _ _ _ _ _ (links_lookup w s i HI Hi) (links_lookup w s j HI Hj) lk_pos0 Hk'). lia.
  - intros k' a' n' Hk' En'. unfold at_pos in Hk'. rewrite Elk in Hk'.
    assert (Hold : at_pos s j k' a' -> tag_ok j k' (qtag n')).
    { intros Hold. destruct (at_pos_node w s j k' a' HI Hj Hold) as (_ & n0 & En0 & _ & Ht & _).
      destruct (qnodes_link_val a b (heap s) a' n0 En0) as (n1 & En1 & _ & <-) in Ht.
      cbn [linked heap] in En'. by assert (n1 = n') as -> by congruence. }
    destruct (decide _) as [E|]; [|by apply Hold].
    assert (i = j) as -> by lia.
    apply lookup_app_Some in Hk' as [Hk'|[Hge Hk']]; [by apply Hold|].
    apply list_lookup_singleton_Some in Hk' as [Hk' <-].
    assert (k' = S k) as -> by lia.
    destruct (qnodes_link_val a b (heap s) b nb lk_b0) as (n1 & En1 & _ & Et).
    cbn [linked heap] in En'. assert (n1 = n') as <- by congruence. by rewrite Et.
Qed.

Lemma link_step t i k a b n nb s :
  inv s -> 0 <= i < w -> linkable t i k a b n nb s ->
  let s' := linked t i a b nb s in
  inv s' /\ guar t s s' /\ at_pos s' i (S k) b.
Proof.
  intros HI Hi Hlk s'. pose proof Hlk as [].
  destruct (link_node_eq t i k a b n nb s HI Hi Hlk) as (_ & Hlen & _).
  destruct (at_pos_node w s i k a HI Hi lk_pos0) as (_ & n' & En & Pn & _).
  assert (n' = n) as -> by congruence.
  pose proof HI as (? & ? & ? & ? & Hm & Hd & Hlg & H).
  destruct (qmem_link_ok t a b n nb (heap s)) as [Hm' [Hk Ho]]; [done..|].
  assert (Elk := fun j => links_of_linked t i a b nb s j HI Hi).
  split; [|split; [split; [|split; [|cbn; lia]]|]].
  - do 2 (split; [done|]). split; [cbn; by rewrite length_insert|]. split; [done|split; [done|]].
    split; [|split; [split; [|done]|]].
    + cbn. apply qdisjoint_link; [done|by apply (links_lookup w)|].
      intros j L HL. by eapply private_not_linked.
    + rewrite Hlen. destruct (H i Hi) as (dp & dg & []). destruct sa_subq0. lia.
    + intros j Hj. destruct (H j Hj) as (dp & dg & Hs). exists dp, dg. by eapply linked_sub.
  - split; try done; [|by eexists [_]]. intros j. unfold s'. rewrite Elk.
    destruct (decide _) as [E|]; [|done]. unfold links_of. rewrite <- E. by apply prefix_app_r.
  - intros u Hu. split; [by apply Ho|]. cbn [s' linked hist]. by rewrite qevents_of_cons, decide_False.
  - unfold at_pos, s'. rewrite Elk, decide_True by done. rewrite lookup_app_r by lia.
    by replace (S k - length (links_of s i))%nat with 0%nat by lia.
Qed.

(** *** Moving the tail pointer *)

Lemma tail_pos_with_put i new s j :
  inv s -> 0 <= i < w ->
  tail_pos (with_put i new s) j =
    if decide (Z.to_nat i = Z.to_nat j) then S (tail_pos s i) else tail_pos s j.
Proof.
  intros HI Hi. pose proof (tails_lookup w s i HI Hi) as E. unfold tail_pos, with_put; cbn.
  rewrite list_lookup_alter. destruct (decide (Z.to_nat i = Z.to_nat j)) as [_|]; [|done].
  unfold tail_pos in E. by rewrite E.
Qed.

Lemma puts_of_with_put i new s j :
  inv s -> 0 <= i < w ->
  puts_of (with_put i new s) j =
    if decide (Z.to_nat i = Z.to_nat j) then puts_of s i ++ [new] else puts_of s j.
Proof.
  intros (_&_&_&_&_&_&_&H) Hi. destruct (H i Hi) as (dp & dg & []).
  unfold puts_of, with_put in *; cbn. rewrite list_lookup_alter.
  destruct (decide (Z.to_nat i = Z.to_nat j)) as [_|]; [|done].
  by destruct (puts s !! Z.to_nat i).
Qed.

Lemma put_step t i k d new s :
  inv s -> 0 <= i < w -> put_array s !! Z.to_nat i = Some d ->
  at_pos s i k (qd_node d) -> at_pos s i (S k) (qd_node new) ->
  (qd_put_ok d k -> qd_put_ok new (S k)) ->
  let s' := with_put i new s in
  inv s' /\ guar t s s' /\ (forall u, untouched u s s') /\ tail_pos s' i = S k.
Proof.
  intros HI Hi Hd Ha Hb Hok s'. pose proof HI as (Hlp & ? & ? & Hlt & ? & ? & ? & H).
  assert (Htl := fun j => tail_pos_with_put i new s j HI Hi). fold s' in Htl.
  assert (Hpu := fun j => puts_of_with_put i new s j HI Hi). fold s' in Hpu.
  assert (Htk : tail_pos s i = k).
  { destruct (H i Hi) as (dp & dg & []). assert (dp = d) as -> by congruence.
    by eapply at_pos_inj. }
  split; [|split; [split; [|split; [|cbn; lia]]|split; [done|]]].
  - split; [cbn; by rewrite length_insert|]. do 2 (split; [done|]).
    split; [cbn; by rewrite length_alter|]. do 3 (split; [done|]).
    intros j Hj. destruct (H j Hj) as (dp & dg & []). destruct (decide (i = j)) as [->|Hne].
    + assert (dp = d) as -> by congruence. exists new, dg.
      specialize (Htl j). rewrite decide_True, Htk in Htl by done.
      specialize (Hpu j). rewrite decide_True in Hpu by done.
      split; rewrite ?Htl; try done.
      * unfold s'; cbn. rewrite list_lookup_insert_eq; [done|lia].
      * apply Hok. by rewrite <- Htk.
      * rewrite Hpu, length_app, sa_putlen0. cbn. lia.
      * rewrite Hpu. replace (S k) with (length (puts_of s j)) by lia. by rewrite list_lookup_middle.
      * rewrite <- Htk. apply subq_advance; [exact sa_subq0|]. rewrite Htk. by eapply lookup_lt_Some.
    + exists dp, dg. specialize (Htl j). rewrite decide_False in Htl by lia.
      specialize (Hpu j). rewrite decide_False in Hpu by lia.
      split; rewrite ?Htl, ?Hpu; try done. unfold s'; cbn. by rewrite list_lookup_insert_ne by lia.
  - split; try done.
    + intros j. rewrite Htl. destruct (decide _) as [E|]; [|done]. unfold tail_pos. rewrite <- E. lia.
    + intros j. rewrite Hpu. destruct (decide _) as [E|]; [|done].
      replace (puts_of s j) with (puts_of s i) by (unfold puts_of; by rewrite E). by apply prefix_app_r.
  - intros u _. by split.
  - rewrite Htl, decide_True by done. by rewrite Htk.
Qed.

(** *** Moving the head pointer *)

Definition taken (t : nat) (i : Z) (k : nat) (new : D) (v : Z) s : queues :=
  mkQueues (put_array s) (<[Z.to_nat i := new]> (get_array s)) (heap s) (links s) (tails s) (puts s)
    ((t, Deq i (Z.of_nat (S k)) v) :: hist s).

Lemma head_pos_taken t i k new v s j :
  head_pos (taken t i k new v s) j = if decide (i = j) then S (head_pos s j) else head_pos s j.
Proof.
  unfold head_pos; cbn. destruct (decide (i = j)); [|done]. rewrite length_app; cbn; lia.
Qed.

Lemma take_step t i k d new n s :
  inv s -> 0 <= i < w -> get_array s !! Z.to_nat i = Some d ->
  at_pos s i k (qd_node d) -> at_pos s i (S k) (qd_node new) -> (k < tail_pos s i)%nat ->
  qnodes (heap s) !! qd_node new = Some n -> (qd_get_ok d k -> qd_get_ok new (S k)) ->
  let s' := taken t i k new (qval n) s in
  take_node t i new s = s' /\ inv s' /\ guar t s s'.
Proof.
  intros HI Hi Hd Ha Hb Hlt En Hok s'. pose proof HI as (? & Hlg & ? & ? & ? & ? & Hl & H).
  assert (Hk : head_pos s i = k).
  { destruct (H i Hi) as (dp & dg & []). assert (dg = d) as -> by congruence.
    by eapply at_pos_inj. }
  assert (Hh := fun j => head_pos_taken t i k new (qval n) s j). fold s' in Hh.
  split; [|split; [|split; [|split; [|cbn; lia]]]].
  - unfold take_node. rewrite En. cbn [from_option]. fold (head_pos s i). by rewrite Hk.
  - split; [done|]. split; [cbn; by rewrite length_insert|]. do 4 (split; [done|]).
    split; [split; [|done]|].
    + destruct (H i Hi) as (dp & dg & []). rewrite Hk in sa_subq0. by eapply subq_val.
    + intros j Hj. destruct (H j Hj) as (dp & dg & []). specialize (Hh j).
      destruct (decide (i = j)) as [->|Hne].
      * assert (dg = d) as -> by congruence. exists dp, new.
        split; rewrite ?Hh, ?Hk; try done.
        { unfold s'; cbn. rewrite list_lookup_insert_eq; [done|lia]. }
        { apply Hok. by rewrite <- Hk. }
        { rewrite Hk in sa_subq0. by eapply subq_take. }
      * exists dp, dg. split; rewrite ?Hh; try done; [unfold s'; cbn; by rewrite list_lookup_insert_ne by lia|].
        eapply subq_same; [exact sa_subq0|done|done|cbn; by rewrite decide_False].
  - split; try done. by eexists [_].
  - intros u Hu. split; [by intros a x|]. cbn [s' taken hist]. by rewrite qevents_of_cons, decide_False.
Qed.
End steps.

(** ** Rules *)

(** What a thread learns from its loads. *)
Section reading.
Context {W V D X : Type} `{EqDecision D} {qd : QDesc D} {qt : QTag X} {A : Allocator (qnode_of X)}.
Context (WP : protocol W) {wlaws : ProtocolLaws WP} (w limit : Z).
Notation B := (joint WP (qprot w limit)).
Context (P : protocol (shared W (queues D X))) (t : nat) {reads : Reads P B t}.
Implicit Types (g : shared W (queues D X)) (l : tls V) (s : queues D X).

#[local] Instance plaws : ProtocolLaws P := reads_laws (B := B) (t := t).

Lemma qinv g : p_inv P g -> queues_inv w (subs g).
Proof. intros HI. apply (reads_inv (B := B) g HI). Qed.

Lemma qevolves g g' : p_rely P t g g' -> evolves (subs g) (subs g').
Proof. intros R. by apply (reads_rely (B := B)) in R as (_ & ? & _). Qed.

Lemma qmine g g' :
  p_rely P t g g' -> qevents_of t (hist (subs g')) = qevents_of t (hist (subs g)).
Proof. intros R. by apply (reads_rely (B := B)) in R as (_ & _ & _ & ?). Qed.

Lemma qrely_at_pos g g' i k a : p_rely P t g g' -> at_pos (subs g) i k a -> at_pos (subs g') i k a.
Proof. intros R. apply at_pos_evolves. by apply qevolves. Qed.
Lemma qrely_tail g g' i : p_rely P t g g' -> (tail_pos (subs g) i <= tail_pos (subs g') i)%nat.
Proof. intros R. by apply (ev_tail _ _ (qevolves g g' R)). Qed.
Lemma qrely_head g g' i : p_rely P t g g' -> (head_pos (subs g) i <= head_pos (subs g') i)%nat.
Proof. intros R. apply ev_head. by apply qevolves. Qed.

(** A private node of the thread. *)
Definition owned (a : Z) (n : qnode_of X) g : Prop :=
  qpriv (heap (subs g)) !! a = Some t /\ lookup_node a g = Some n.

Lemma owned_rely a n g g' : p_rely P t g g' -> owned a n g -> owned a n g'.
Proof.
  intros R [Pa E]. apply (reads_rely (B := B)) in R as (_ & _ & Ho & _). by destruct (Ho a n E Pa).
Qed.

Lemma wp_qload_put {R} (f : D -> R) i (Q : R -> shared W (queues D X) -> tls V -> Prop) g l :
  0 <= i < w ->
  (forall g' d, p_rely P t g g' -> p_inv P g' -> lookup_put i g' = Some d ->
     at_pos (subs g') i (tail_pos (subs g') i) (qd_node d) ->
     qd_put_ok d (tail_pos (subs g') i) -> Q (f d) g' l) ->
  wp P t (load_put f i) Q g l.
Proof.
  intros Hi HQ. apply wp_load; [apply _|]. intros g1 R1 I1 O1.
  pose proof (qinv g1 I1) as (_&_&_&_&_&_&_&H). destruct (H i Hi) as (dp & dg & []).
  exists (f dp). unfold lookup_put. rewrite sa_put0. split; [done|]. by apply HQ.
Qed.

Lemma wp_qload_get {R} (f : D -> R) i (Q : R -> shared W (queues D X) -> tls V -> Prop) g l :
  0 <= i < w ->
  (forall g' d, p_rely P t g g' -> p_inv P g' -> lookup_get i g' = Some d ->
     at_pos (subs g') i (head_pos (subs g') i) (qd_node d) ->
     qd_get_ok d (head_pos (subs g') i) -> Q (f d) g' l) ->
  wp P t (load_get f i) Q g l.
Proof.
  intros Hi HQ. apply wp_load; [apply _|]. intros g1 R1 I1 O1.
  pose proof (qinv g1 I1) as (_&_&_&_&_&_&_&H). destruct (H i Hi) as (dp & dg & []).
  exists (f dg). unfold lookup_get. rewrite sa_get0. split; [done|]. by apply HQ.
Qed.

(** A load from a node of a sub-queue. *)
Lemma wp_qload_node {R} (f : qnode_of X -> R) i k a (Q : R -> shared W (queues D X) -> tls V -> Prop) g l :
  0 <= i < w -> at_pos (subs g) i k a ->
  (forall g' n, p_rely P t g g' -> p_inv P g' -> lookup_node a g' = Some n -> tag_ok i k (qtag n) ->
     (if qnext n =? 0 then length (links_of (subs g') i) = S k else at_pos (subs g') i (S k) (qnext n)) ->
     Q (f n) g' l) ->
  wp P t (load_node f a) Q g l.
Proof.
  intros Hi Hk HQ. apply wp_load; [apply _|]. intros g1 R1 I1 _.
  destruct (at_pos_node w (subs g1) i k a (qinv g1 I1) Hi (qrely_at_pos _ _ _ _ _ R1 Hk))
    as (_ & n & En & _ & Ht & Hn).
  exists (f n). unfold lookup_node. rewrite En. split; [done|]. by apply HQ.
Qed.

Lemma wp_qload_next i k a (Q : Z -> shared W (queues D X) -> tls V -> Prop) g l :
  0 <= i < w -> at_pos (subs g) i k a ->
  (forall g', p_rely P t g g' -> p_inv P g' -> length (links_of (subs g') i) = S k -> Q 0 g' l) ->
  (forall b g', p_rely P t g g' -> p_inv P g' -> b <> 0 -> at_pos (subs g') i (S k) b -> Q b g' l) ->
  wp P t (load_next a) Q g l.
Proof.
  intros Hi Hk HQ0 HQ. apply (wp_qload_node qnext i k); [done..|]. intros g1 n R1 I1 _ _ Hn.
  destruct (Z.eqb_spec (qnext n) 0) as [->|Hnz]; [by apply HQ0|by apply HQ].
Qed.

(** Loading [next] when it is known to be there. *)
Lemma wp_qload_next_known i k a b (Q : Z -> shared W (queues D X) -> tls V -> Prop) g l :
  0 <= i < w -> at_pos (subs g) i k a -> at_pos (subs g) i (S k) b ->
  (forall g', p_rely P t g g' -> p_inv P g' -> Q b g' l) ->
  wp P t (load_next a) Q g l.
Proof.
  intros Hi Hk Hk1 HQ. apply (wp_qload_next i k); [done..| |].
  - intros g' R I Hlen. apply (qrely_at_pos _ _ _ _ _ R) in Hk1. apply lookup_lt_Some in Hk1. lia.
  - intros b' g' R I _ Hb'. apply (qrely_at_pos _ _ _ _ _ R) in Hk1.
    unfold at_pos in *. assert (b' = b) as -> by congruence. by apply HQ.
Qed.

(** The value of a node of a sub-queue does not change. *)
Lemma wp_qload_val i k a n (Q : Z -> shared W (queues D X) -> tls V -> Prop) g l :
  0 <= i < w -> p_inv P g -> at_pos (subs g) i k a -> lookup_node a g = Some n ->
  (forall g', p_rely P t g g' -> p_inv P g' -> Q (qval n) g' l) ->
  wp P t (load_val a) Q g l.
Proof.
  intros Hi HI Hk En HQ. apply wp_load; [apply _|]. intros g1 R1 I1 _.
  destruct (at_pos_node w (subs g) i k a (qinv g HI) Hi Hk) as (_ & n' & En' & Pn & _).
  unfold lookup_node in *. assert (n' = n) as -> by congruence.
  destruct (ev_heap _ _ (qevolves g g1 R1) a n En Pn) as (n1 & -> & _ & Ev & _).
  exists (qval n1). split; [done|]. rewrite Ev. by apply HQ.
Qed.

(** What a step of the thread on the sub-queues did to its own events. *)
Definition did (evs : list qevent) g g' : Prop :=
  p_inv P g' /\ evolves (subs g) (subs g') /\
  qevents_of t (hist (subs g')) = evs ++ qevents_of t (hist (subs g)).

Lemma did_rely evs g g1 g' : p_rely P t g g1 -> did evs g1 g' -> did evs g g'.
Proof.
  intros R (HI & He & Hm). split; [done|split]; [|by rewrite Hm, (qmine g g1 R)].
  eapply evolves_trans; [by apply qevolves|done].
Qed.

Lemma did_nothing g g' : p_rely P t g g' -> p_inv P g' -> did [] g g'.
Proof. intros R HI. split; [done|split]; [by apply qevolves|by apply qmine]. Qed.

Lemma did_then evs evs' g g1 g' : did evs g g1 -> did evs' g1 g' -> did (evs' ++ evs) g g'.
Proof.
  intros (_ & He & Hm) (HI & He' & Hm'). split; [done|split]; [by eapply evolves_trans|].
  by rewrite Hm', Hm, app_assoc.
Qed.

(** What an operation did: its events, some of them observations; for a thread
    alone nothing else has happened. *)
Definition did_op (evs : list qevent) g g' : Prop :=
  did evs g g' /\ ((forall g g', p_rely P t g g' -> g' = g) ->
    hist (subs g') = ((fun e => (t, e)) <$> evs) ++ hist (subs g)).

(** An operation of a thread alone that made one event. *)
Lemma did_op_event e g g' :
  (forall g g', p_rely P t g g' -> g' = g) -> did_op [e] g g' ->
  p_inv P g' /\ evolves (subs g) (subs g') /\ hist (subs g') = (t, e) :: hist (subs g).
Proof. intros Hs [(HI & He & _) Hh]. split; [done|split; [done|]]. exact (Hh Hs). Qed.

Lemma did_op_nil g g' : p_rely P t g g' -> p_inv P g' -> did_op [] g g'.
Proof.
  intros R HI. split; [by apply did_nothing|]. intros Hs. by rewrite (Hs g g' R).
Qed.

Lemma did_op_then evs evs' g g1 g' : did_op evs g g1 -> did_op evs' g1 g' -> did_op (evs' ++ evs) g g'.
Proof.
  intros [D1 H1] [D2 H2]. split; [by eapply did_then|]. intros Hs.
  by rewrite (H2 Hs), (H1 Hs), fmap_app, app_assoc.
Qed.

Lemma did_op_rely evs g g1 g' : did_op evs g g1 -> p_rely P t g1 g' -> p_inv P g' -> did_op evs g g'.
Proof. intros H1 R HI. exact (did_op_then evs [] g g1 g' H1 (did_op_nil g1 g' R HI)). Qed.

Lemma did_op_step evs evs' g0 g g1 g' :
  did_op evs' g0 g -> p_rely P t g g1 -> did evs g1 g' ->
  ((forall g g', p_rely P t g g' -> g' = g) ->
    hist (subs g') = ((fun e => (t, e)) <$> evs) ++ hist (subs g1)) -> did_op (evs ++ evs') g0 g'.
Proof.
  intros D0 R D1 H1. apply (did_op_then evs' evs g0 g g' D0). split.
  - by apply (did_rely evs g g1).
  - intros Hs. by rewrite (H1 Hs), (Hs g g1 R).
Qed.

End reading.

(** The steps, where the sub-queues are coupled to the rest of the memory by
    [C]; it does not look into the nodes and the history of operations. *)
Section coupled_rules.
Context {W V D X : Type} `{EqDecision D} {qd : QDesc D} {qt : QTag X} {A : Allocator (qnode_of X)}.
Context (WP : protocol W) {wlaws : ProtocolLaws WP} (w limit : Z).
Notation B := (joint WP (qprot w limit)).
Context (P : protocol (shared W (queues D X))) (t : nat) (C : shared W (queues D X) -> Prop) {couples : Couples P B C t}.
Context (Hheap : forall g m, C g -> C (set_subs (with_heap m (subs g)) g)).
Context (Hevent : forall g i, C g -> C (set_subs (with_event (t, Nothing i) (subs g)) g)).
Implicit Types (g : shared W (queues D X)) (l : tls V) (s : queues D X).
Notation owned := (owned t).
Notation did := (did P t).
#[local] Instance creads : Reads P B t := couples_reads (C := C).
#[local] Instance claws : ProtocolLaws P := reads_laws (B := B) (t := t).

(** A change of the sub-queues only. *)
Lemma qstep g s :
  p_inv P g -> queues_inv w s -> p_guar (qprot w limit) t (subs g) s -> C (set_subs s g) ->
  p_guar P t g (set_subs s g) /\ p_inv P (set_subs s g).
Proof.
  intros HI Hs Hg HC. pose proof (reads_inv (B := B) g HI) as [Hw _]. split.
  - apply (couples_guar (B := B) (C := C)). split; [apply guar_refl|exact Hg].
  - apply (couples_back (B := B) (C := C)); [by split|done].
Qed.

Lemma wp_qalloc_c n (Q : Z -> shared W (queues D X) -> tls V -> Prop) g l :
  thread_id l = t ->
  (forall a g1 m, p_rely P t g g1 -> p_inv P g1 ->
     let g2 := set_subs (with_heap m (subs g1)) g1 in
     p_inv P g2 -> evolves (subs g1) (subs g2) -> untouched t (subs g1) (subs g2) ->
     owned a n g2 -> Q a g2 l) ->
  wp P t (alloc_node n) Q g l.
Proof.
  intros Ht HQ g1 R1 I1 _. rewrite Ht. cbv zeta.
  set (a := alloc_addr (qnodes (heap (subs g1)))).
  destruct (alloc_addr_ok (qnodes (heap (subs g1)))) as [Ha Hfresh]. fold a in Ha, Hfresh.
  pose proof ((qinv WP w limit P t) g1 I1) as Hs. pose proof Hs as (_ & _ & _ & _ & Hm & _).
  destruct (qmem_alloc_ok t a n _ Hm Ha Hfresh) as (Hm' & Hk & Hown & _).
  destruct (qheap_step w limit t (subs g1) (qmem_alloc t a n (heap (subs g1))) Hs Hm') as [Hs' Hg].
  { split; [done|]. by intros u _. }
  { intros b nb Eb Pb. assert (a <> b) by congruence. cbn. by rewrite !lookup_insert_ne. }
  destruct (qstep g1 _ I1 Hs' Hg (Hheap _ _ (couples_inv (B := B) (C := C) g1 I1))) as [HG HI]. split; [exact HG|split; [exact HI|]].
  eapply HQ; [exact R1|exact I1|exact HI|apply Hg|by split|].
  split; cbn; apply lookup_insert_eq.
Qed.

Lemma wp_qstore_tag_c a n x (Q : unit -> shared W (queues D X) -> tls V -> Prop) g l :
  owned a n g ->
  (forall g1 m, p_rely P t g g1 -> p_inv P g1 ->
     let g2 := set_subs (with_heap m (subs g1)) g1 in
     p_inv P g2 -> evolves (subs g1) (subs g2) ->
     owned a (mkQnodeOf (qnext n) (qkey n) (qval n) x) g2 -> Q tt g2 l) ->
  wp P t (store_tag a x) Q g l.
Proof.
  intros Ho HQ g1 R1 I1 _. pose proof ((owned_rely WP w limit P t) a n g g1 R1 Ho) as [Pa Ea].
  rewrite Ea. cbn [mbind option_bind].
  pose proof ((qinv WP w limit P t) g1 I1) as Hs. pose proof Hs as (_ & _ & _ & _ & Hm & _).
  destruct (qmem_write_ok t a (fun _ => x) _ Hm Pa) as (Hm' & Hg & _).
  destruct (qheap_step w limit t (subs g1) (qmem_write a (fun _ => x) (heap (subs g1))) Hs Hm' Hg) as [Hs' Hg'].
  { intros b nb Eb Pb. assert (a <> b) by congruence. cbn. by rewrite lookup_alter_ne. }
  destruct (qstep g1 _ I1 Hs' Hg' (Hheap _ _ (couples_inv (B := B) (C := C) g1 I1))) as [HG HI]. split; [exact HG|split; [exact HI|]].
  eapply HQ; [exact R1|exact I1|exact HI|apply Hg'|].
  unfold lookup_node in Ea. split; [exact Pa|]. unfold lookup_node; cbn.
  by rewrite lookup_alter_eq, Ea.
Qed.

(** The load of the [next] of a head, with the observation. *)
Lemma wp_load_head_next_c i k a (Q : Z -> shared W (queues D X) -> tls V -> Prop) g l :
  0 <= i < w -> thread_id l = t -> at_pos (subs g) i k a -> (k <= head_pos (subs g) i)%nat ->
  (forall g1 g', p_rely P t g g1 -> p_inv P g1 -> did [Nothing i] g1 g' ->
     g' = set_subs (with_event (t, Nothing i) (subs g1)) g1 -> qcontents i (hist (subs g1)) = [] ->
     length (links_of (subs g1) i) = S k -> Q 0 g' l) ->
  (forall b g', p_rely P t g g' -> p_inv P g' -> b <> 0 -> at_pos (subs g') i (S k) b -> Q b g' l) ->
  wp P t (load_head_next i a) Q g l.
Proof.
  intros Hi Ht Hk Hkh HQ0 HQ g1 R1 I1 _. pose proof ((qinv WP w limit P t) g1 I1) as Hs.
  pose proof ((qrely_at_pos WP w limit P t) _ _ _ _ _ R1 Hk) as Hk1. pose proof ((qrely_head WP w limit P t) _ _ i R1) as Hh.
  destruct (at_pos_node w (subs g1) i k a Hs Hi Hk1) as (_ & n & En & _ & _ & Hn).
  unfold lookup_node. rewrite En. cbn [mbind option_bind].
  destruct (Z.eqb_spec (qnext n) 0) as [E0|Hnz].
  - destruct (sub_positions w (subs g1) i Hs Hi) as (Hp & _ & Hc).
    assert (Hlen : length (links_of (subs g1) i) = S (head_pos (subs g1) i)) by lia.
    destruct (nothing_step w limit t (subs g1) i Hs Hi Hlen) as [Hs' Hg]. rewrite Ht.
    destruct (qstep g1 _ I1 Hs' Hg (Hevent _ _ (couples_inv (B := B) (C := C) g1 I1))) as [HG HI]. split; [exact HG|split; [exact HI|]].
    rewrite E0. apply (HQ0 g1 _ R1 I1); [|done| |done].
    + split; [exact HI|split; [apply Hg|]]. cbn [subs set_subs with_event hist]. by rewrite qevents_of_cons, decide_True.
    + destruct (qcontents i (hist (subs g1))); [done|cbn in Hc; lia].
  - split; [apply (guar_refl (P := P))|split; [done|]]. by apply HQ.
Qed.

(** The link of the own node [b]. *)
Lemma wp_cas_next_c i k a b n (Q : bool -> shared W (queues D X) -> tls V -> Prop) g l :
  0 <= i < w -> thread_id l = t -> at_pos (subs g) i k a -> (k <= tail_pos (subs g) i)%nat ->
  owned b n g -> qnext n = 0 -> tag_ok i (S k) (qtag n) ->
  (forall g1, p_rely P t g g1 -> p_inv P g1 -> p_ok P g1 -> length (links_of (subs g1) i) = S k ->
     tail_pos (subs g1) i = k -> C (set_subs (linked t i a b n (subs g1)) g1)) ->
  (forall g1 g', p_rely P t g g1 -> p_inv P g1 -> did [Enq i (Z.of_nat (S k)) (qval n)] g1 g' ->
     g' = set_subs (linked t i a b n (subs g1)) g1 -> length (links_of (subs g1) i) = S k ->
     at_pos (subs g') i (S k) b -> tail_pos (subs g1) i = k -> Q true g' l) ->
  (forall g', p_rely P t g g' -> p_inv P g' -> (S k < length (links_of (subs g') i))%nat -> Q false g' l) ->
  wp P t (cas_next i a b) Q g l.
Proof.
  intros Hi Ht Hk Hkt Ho Hn0 Htag HC HQ HQ' g1 R1 I1 O1. pose proof ((qinv WP w limit P t) g1 I1) as Hs.
  pose proof ((qrely_at_pos WP w limit P t) _ _ _ _ _ R1 Hk) as Hk1. pose proof ((qrely_tail WP w limit P t) _ _ i R1) as Htl.
  destruct (at_pos_node w (subs g1) i k a Hs Hi Hk1) as (_ & na & En & _ & _ & Hn).
  unfold lookup_node at 1. rewrite En. cbn [mbind option_bind].
  destruct (decide (qnext na = 0)) as [E0|Hnz].
  - destruct ((owned_rely WP w limit P t) b n g g1 R1 Ho) as [Pb Eb].
    assert (Hlk : linkable t i k a b na n (subs g1)) by (split; try done; lia).
    destruct (link_node_eq w t i k a b na n (subs g1) Hs Hi Hlk) as (Eq & Hlen & Htail).
    destruct (link_step w limit t i k a b na n (subs g1) Hs Hi Hlk) as (Hs' & Hg & Hpos).
    rewrite Ht, Eq. destruct (qstep g1 _ I1 Hs' Hg (HC g1 R1 I1 O1 Hlen Htail)) as [HG HI].
    split; [exact HG|split; [exact HI|]]. apply (HQ g1 _ R1 I1); [|done|done|done|done].
    split; [exact HI|split; [apply Hg|]]. cbn [subs set_subs linked hist]. by rewrite qevents_of_cons, decide_True, Hlen.
  - split; [apply (guar_refl (P := P))|split; [done|]]. apply HQ'; [done..|].
    rewrite (proj2 (Z.eqb_neq _ _) Hnz) in Hn. by eapply lookup_lt_Some.
Qed.

(** Moving the tail pointer on by one node: afterwards it has, whoever did. *)
Lemma wp_cae_put_c i k d new (Q : bool -> shared W (queues D X) -> tls V -> Prop) g l :
  0 <= i < w -> at_pos (subs g) i k (qd_node d) -> at_pos (subs g) i (S k) (qd_node new) ->
  (forall g', p_rely P t g g' -> p_inv P g' -> p_ok P g' -> qd_put_ok d k -> qd_put_ok new (S k)) ->
  (forall g1, p_rely P t g g1 -> p_inv P g1 -> p_ok P g1 -> lookup_put i g1 = Some d ->
     tail_pos (subs g1) i = k -> at_pos (subs g1) i (S k) (qd_node new) ->
     C (set_subs (with_put i new (subs g1)) g1)) ->
  (forall g1, p_rely P t g g1 -> p_inv P g1 -> p_ok P g1 -> lookup_put i g1 = Some d ->
     tail_pos (subs g1) i = k -> let g' := set_subs (with_put i new (subs g1)) g1 in
     p_inv P g' -> evolves (subs g1) (subs g') -> tail_pos (subs g') i = S k -> Q true g' l) ->
  (forall g', p_rely P t g g' -> p_inv P g' -> lookup_put i g' <> Some d -> Q false g' l) ->
  wp P t (cae_put i d new) Q g l.
Proof.
  intros Hi Ha Hb Hok HC HQ HQ' g1 R1 I1 O1. pose proof ((qinv WP w limit P t) g1 I1) as Hs.
  pose proof ((qrely_at_pos WP w limit P t) _ _ _ _ _ R1 Ha) as Ha1. pose proof ((qrely_at_pos WP w limit P t) _ _ _ _ _ R1 Hb) as Hb1.
  pose proof Hs as (_&_&_&_&_&_&_&H). destruct (H i Hi) as (dp & dg & Hsub).
  pose proof (sa_put _ _ _ _ Hsub) as Ep. unfold lookup_put at 1. rewrite Ep. cbn [mbind option_bind].
  destruct (decide (dp = d)) as [->|Hne].
  - destruct (put_step w limit t i k d new (subs g1) Hs Hi Ep Ha1 Hb1 (Hok g1 R1 I1 O1))
      as (Hs' & Hg & _ & Htl).
    assert (Hk : tail_pos (subs g1) i = k)
      by (eapply at_pos_inj; [exact Hs|exact Hi|exact (sa_puta _ _ _ _ Hsub)|exact Ha1]).
    destruct (qstep g1 _ I1 Hs' Hg (HC g1 R1 I1 O1 Ep Hk Hb1)) as [HG HI].
    split; [exact HG|split; [exact HI|]]. by apply (HQ g1); [| | | | |exact HI|apply Hg|].
  - split; [apply (guar_refl (P := P))|split; [done|]]. apply HQ'; [done..|].
    unfold lookup_put. congruence.
Qed.

(** Taking the node after the head. *)
Lemma wp_cae_get_c i k d new (Q : bool -> shared W (queues D X) -> tls V -> Prop) g l :
  0 <= i < w -> thread_id l = t -> at_pos (subs g) i k (qd_node d) ->
  (forall g1, p_rely P t g g1 -> p_inv P g1 -> p_ok P g1 -> lookup_get i g1 = Some d ->
     head_pos (subs g1) i = k ->
     (k < tail_pos (subs g1) i)%nat /\ at_pos (subs g1) i (S k) (qd_node new) /\
     (qd_get_ok d k -> qd_get_ok new (S k)) /\
     forall v, C (set_subs (taken t i k new v (subs g1)) g1)) ->
  (forall g1 g' n, p_rely P t g g1 -> p_inv P g1 -> lookup_get i g1 = Some d ->
     head_pos (subs g1) i = k -> lookup_node (qd_node new) g1 = Some n ->
     did [Deq i (Z.of_nat (S k)) (qval n)] g1 g' ->
     g' = set_subs (taken t i k new (qval n) (subs g1)) g1 -> Q true g' l) ->
  (forall g', p_rely P t g g' -> p_inv P g' -> lookup_get i g' <> Some d -> Q false g' l) ->
  wp P t (cae_get i d new) Q g l.
Proof.
  intros Hi Ht Ha Hok HQ HQ' g1 R1 I1 O1. pose proof ((qinv WP w limit P t) g1 I1) as Hs.
  pose proof ((qrely_at_pos WP w limit P t) _ _ _ _ _ R1 Ha) as Ha1.
  pose proof Hs as (_&_&_&_&_&_&_&H). destruct (H i Hi) as (dp & dg & Hsub).
  pose proof (sa_get _ _ _ _ Hsub) as Eg. unfold lookup_get at 1. rewrite Eg. cbn [mbind option_bind].
  destruct (decide (dg = d)) as [->|Hne].
  - assert (Hk : head_pos (subs g1) i = k)
      by (eapply at_pos_inj; [exact Hs|exact Hi|exact (sa_geta _ _ _ _ Hsub)|exact Ha1]).
    destruct (Hok g1 R1 I1 O1 Eg Hk) as (Hlt & Hb1 & Hgo & HC).
    destruct (at_pos_node w (subs g1) i (S k) _ Hs Hi Hb1) as (_ & n & En & _).
    destruct (take_step w limit t i k d new n (subs g1) Hs Hi Eg Ha1 Hb1 Hlt En Hgo)
      as (Eq & Hs' & Hg).
    rewrite Ht, Eq. destruct (qstep g1 _ I1 Hs' Hg (HC _)) as [HG HI].
    split; [exact HG|split; [exact HI|]]. apply (HQ g1 _ n R1 I1); [exact Eg|exact Hk|exact En| |done].
    split; [exact HI|split; [apply Hg|]]. cbn [subs set_subs taken hist]. by rewrite qevents_of_cons, decide_True.
  - split; [apply (guar_refl (P := P))|split; [done|]]. apply HQ'; [done..|].
    unfold lookup_get. congruence.
Qed.

End coupled_rules.

(** The same where they are not. *)
Section rules.
Context {W V D X : Type} `{EqDecision D} {qd : QDesc D} {qt : QTag X} {A : Allocator (qnode_of X)}.
Context (WP : protocol W) {wlaws : ProtocolLaws WP} (w limit : Z).
Notation B := (joint WP (qprot w limit)).
Context (P : protocol (shared W (queues D X))) (t : nat) {runs : Runs P B t}.
Implicit Types (g : shared W (queues D X)) (l : tls V) (s : queues D X).
Notation owned := (owned t).
Notation did := (did P t).
Notation anything := (fun _ : shared W (queues D X) => True).

Lemma wp_qalloc n (Q : Z -> shared W (queues D X) -> tls V -> Prop) g l :
  thread_id l = t ->
  (forall a g1 m, p_rely P t g g1 -> p_inv P g1 ->
     let g2 := set_subs (with_heap m (subs g1)) g1 in
     p_inv P g2 -> evolves (subs g1) (subs g2) -> owned a n g2 -> Q a g2 l) ->
  wp P t (alloc_node n) Q g l.
Proof.
  intros Ht HQ. apply (wp_qalloc_c WP w limit P t anything); try done.
  intros a g1 m R1 I1 g2 I2 He _. by apply HQ.
Qed.

Lemma wp_qstore_tag a n x (Q : unit -> shared W (queues D X) -> tls V -> Prop) g l :
  owned a n g ->
  (forall g1 m, p_rely P t g g1 -> p_inv P g1 ->
     let g2 := set_subs (with_heap m (subs g1)) g1 in
     p_inv P g2 -> evolves (subs g1) (subs g2) ->
     owned a (mkQnodeOf (qnext n) (qkey n) (qval n) x) g2 -> Q tt g2 l) ->
  wp P t (store_tag a x) Q g l.
Proof. by apply (wp_qstore_tag_c WP w limit P t anything). Qed.

(** The load of the [next] of a head, with the observation. *)
Lemma wp_load_head_next i k a (Q : Z -> shared W (queues D X) -> tls V -> Prop) g l :
  0 <= i < w -> thread_id l = t -> at_pos (subs g) i k a -> (k <= head_pos (subs g) i)%nat ->
  (forall g1 g', p_rely P t g g1 -> did [Nothing i] g1 g' ->
     subs g' = with_event (t, Nothing i) (subs g1) -> qcontents i (hist (subs g1)) = [] ->
     length (links_of (subs g1) i) = S k -> Q 0 g' l) ->
  (forall b g', p_rely P t g g' -> p_inv P g' -> b <> 0 -> at_pos (subs g') i (S k) b -> Q b g' l) ->
  wp P t (load_head_next i a) Q g l.
Proof.
  intros Hi Ht Hk Hkh HQ. apply (wp_load_head_next_c WP w limit P t anything (fun _ _ _ => I) i k); try done.
  intros g1 g' R1 _ HD E. apply (HQ g1 g'); try done. by rewrite E.
Qed.

(** The link of the own node [b]. *)
Lemma wp_cas_next i k a b n (Q : bool -> shared W (queues D X) -> tls V -> Prop) g l :
  0 <= i < w -> thread_id l = t -> at_pos (subs g) i k a -> (k <= tail_pos (subs g) i)%nat ->
  owned b n g -> qnext n = 0 -> tag_ok i (S k) (qtag n) ->
  (forall g1 g', p_rely P t g g1 -> did [Enq i (Z.of_nat (S k)) (qval n)] g1 g' ->
     subs g' = linked t i a b n (subs g1) -> length (links_of (subs g1) i) = S k ->
     at_pos (subs g') i (S k) b -> tail_pos (subs g1) i = k -> Q true g' l) ->
  (forall g', p_rely P t g g' -> p_inv P g' -> (S k < length (links_of (subs g') i))%nat -> Q false g' l) ->
  wp P t (cas_next i a b) Q g l.
Proof.
  intros Hi Ht Hk Hkt Ho Hn Htag HQ. apply (wp_cas_next_c WP w limit P t anything i k a b n); try done.
  intros g1 g' R _ HD E. apply (HQ g1 g'); try done. by rewrite E.
Qed.

(** Moving the tail pointer on by one node: afterwards it has, whoever did. *)
Lemma wp_cae_put i k d new (Q : bool -> shared W (queues D X) -> tls V -> Prop) g l :
  0 <= i < w -> at_pos (subs g) i k (qd_node d) -> at_pos (subs g) i (S k) (qd_node new) ->
  (forall g', p_rely P t g g' -> p_inv P g' -> p_ok P g' -> qd_put_ok d k -> qd_put_ok new (S k)) ->
  (forall g1, p_rely P t g g1 -> p_inv P g1 -> lookup_put i g1 = Some d -> tail_pos (subs g1) i = k ->
     let g' := set_subs (with_put i new (subs g1)) g1 in
     p_inv P g' -> evolves (subs g1) (subs g') -> tail_pos (subs g') i = S k -> Q true g' l) ->
  (forall g', p_rely P t g g' -> p_inv P g' -> lookup_put i g' <> Some d -> Q false g' l) ->
  wp P t (cae_put i d new) Q g l.
Proof.
  intros Hi Ha Hb Hok HQ HQ'. apply (wp_cae_put_c WP w limit P t anything i k d new); try done.
  intros g1 R1 I1 _. by apply HQ.
Qed.

(** Taking the node after the head. *)
Lemma wp_cae_get i k d new (Q : bool -> shared W (queues D X) -> tls V -> Prop) g l :
  0 <= i < w -> thread_id l = t ->
  at_pos (subs g) i k (qd_node d) -> at_pos (subs g) i (S k) (qd_node new) ->
  (k < tail_pos (subs g) i)%nat ->
  (forall g', p_rely P t g g' -> p_inv P g' -> p_ok P g' -> qd_get_ok d k -> qd_get_ok new (S k)) ->
  (forall g1 g' n, p_rely P t g g1 -> lookup_get i g1 = Some d -> head_pos (subs g1) i = k ->
     lookup_node (qd_node new) g1 = Some n ->
     did [Deq i (Z.of_nat (S k)) (qval n)] g1 g' ->
     subs g' = taken t i k new (qval n) (subs g1) -> Q true g' l) ->
  (forall g', p_rely P t g g' -> p_inv P g' -> lookup_get i g' <> Some d -> Q false g' l) ->
  wp P t (cae_get i d new) Q g l.
Proof.
  intros Hi Ht Ha Hb Hlt Hok HQ. apply (wp_cae_get_c WP w limit P t anything i k d new); try done.
  - intros g1 R1 I1 O1 E1 Hk. pose proof (qrely_tail WP w limit P t g g1 i R1).
    split; [lia|split; [by apply (qrely_at_pos WP w limit P t g)|split; [by apply (Hok g1)|done]]].
  - intros g1 g' n R1 _ E1 Hk En HD E. apply (HQ g1 g' n); try done. by rewrite E.
Qed.
End rules.

(** ** What a queue promises *)

(** [explains w done evs]: the results of a thread's operations [done] are
    exactly what its events [evs] (newest first), on [w] sub-queues, account
    for; an observation that a sub-queue was empty need not have become a
    result. *)
Inductive explains (w : Z) : list (op * Z) -> list qevent -> Prop :=
| explains_nil : explains w [] []
| explains_enq done evs key v i k :
    explains w done evs -> 0 <= i < w ->
    explains w (done ++ [(Enqueue key v, 1)]) (Enq i k v :: evs)
| explains_deq done evs v i k :
    explains w done evs -> 0 <= i < w ->
    explains w (done ++ [(Dequeue, v)]) (Deq i k v :: evs)
| explains_empty done evs i :
    explains w done evs -> 0 <= i < w ->
    explains w (done ++ [(Dequeue, 0)]) (Nothing i :: evs)
| explains_observed done evs i :
    explains w done evs -> 0 <= i < w -> explains w done (Nothing i :: evs).

(** The values of the nodes behind [a], in order. *)
Fixpoint qchain {X} (m : qmemory_of X) (a : Z) (vs : list Z) : Prop :=
  exists n, qnodes m !! a = Some n /\
  match vs with
  | [] => qnext n = 0
  | v :: vs => qnext n <> 0 /\ (exists n', qnodes m !! qnext n = Some n' /\ qval n' = v) /\
      qchain m (qnext n) vs
  end.

(** The state of the sub-queues in terms of the history: each is what
    replaying its events leaves there, every dequeue took the oldest element,
    a sub-queue observed empty was, and the elements enqueued are those
    dequeued followed by those there, in the same order. *)
Definition qreplayed {D X} {qd : QDesc D} (w : Z) (s : queues D X) : Prop :=
  qlegal (hist s) /\
  forall i, 0 <= i < w -> exists d, get_array s !! Z.to_nat i = Some d /\
    qchain (heap s) (qd_node d) (qcontents i (hist s)).*2 /\
    enqs i (hist s) = deqs i (hist s) ++ qcontents i (hist s).

Section replay.
Context {D X : Type} {qd : QDesc D} {qt : QTag X} (w : Z).
Implicit Types (s : queues D X).

Lemma at_pos_chain s i n : forall k a,
  queues_inv w s -> 0 <= i < w -> at_pos s i k a -> (n = length (enqs i (hist s)) - k)%nat ->
  qchain (heap s) a (drop k (enqs i (hist s))).*2.
Proof.
  intros k a HI Hi. revert k a. induction n as [|n IH]; intros k a Hk Hn.
  all: destruct (at_pos_node w s i k a HI Hi Hk) as (_ & nd & End & _ & _ & Hnext).
  all: pose proof HI as (_&_&_&_&_&_&_&H); destruct (H i Hi) as (dp & dg & Hsub).
  all: destruct (sa_subq _ _ _ _ Hsub).
  - rewrite drop_ge by lia. exists nd. split; [done|].
    destruct (Z.eqb_spec (qnext nd) 0); [done|]. apply lookup_lt_Some in Hnext. lia.
  - destruct (Z.eqb_spec (qnext nd) 0) as [|Hnz]; [lia|].
    destruct (sq_vals k (qnext nd) Hnext) as (n' & En' & Ev).
    rewrite (drop_S _ _ _ Ev). cbn. exists nd. split; [done|split; [done|split]].
    + by exists n'.
    + apply IH; [done|lia].
Qed.

Lemma queues_replayed s : queues_inv w s -> qreplayed w s.
Proof.
  intros HI. pose proof HI as (_&_&_&_&_&_&Hl&H). split; [done|]. intros i Hi.
  destruct (H i Hi) as (dp & dg & Hsub). exists dg. split; [apply Hsub|].
  split; [|by apply enqs_deqs]. rewrite (qcontents_drop i _ Hl).
  eapply at_pos_chain; [done..|apply (sa_geta _ _ _ _ Hsub)|done].
Qed.

(** There are at most as many elements as events. *)
Definition queues_total (h : qhist) (n : Z) : Z :=
  sum_upto (fun i => Z.of_nat (length (qcontents i h))) n.

Lemma queues_total_bound (h : qhist) n : 0 <= n -> 0 <= queues_total h n <= Z.of_nat (length h).
Proof.
  intros Hn. split; [apply sum_upto_nonneg; [done|intros; lia]|].
  unfold queues_total. induction h as [|[t e] h IH].
  - cbn. rewrite (sum_upto_ext _ (fun _ => 0)), sum_upto_const by (done || lia). lia.
  - set (f i := Z.of_nat (length (qcontents i h))) in *.
    set (j := match e with Enq i _ _ | Deq i _ _ | Nothing i => i end).
    assert (Hle : forall i, Z.of_nat (length (qcontents i ((t, e) :: h)))
      <= f i + (if i =? j then 1 else 0)).
    { intros i. unfold f, j. destruct e as [i' k v|i' k v|i']; cbn [qcontents];
        try destruct (decide (i' = i)) as [->|Hne]; rewrite ?Z.eqb_refl;
        rewrite ?length_app; try (destruct (qcontents i h); cbn [tail length]; lia);
        destruct (i =? _); cbn [length]; lia. }
    pose proof (sum_upto_le _ _ n (fun i _ => Hle i)) as Hs. cbn beta in Hs.
    rewrite sum_upto_add in Hs by lia. cbn [length].
    assert (sum_upto (fun i => if i =? j then 1 else 0) n <= 1); [|lia].
    destruct (decide (0 <= j < n)); [rewrite sum_upto_single by done; lia|].
    rewrite (sum_upto_ext _ (fun _ => 0)), sum_upto_const; [lia|done|].
    intros i Hi. destruct (Z.eqb_spec i j); [lia|done].
Qed.
End replay.

Lemma queues_total_enq t i k v (h : qhist) w :
  0 <= i < w -> queues_total ((t, Enq i k v) :: h) w = queues_total h w + 1.
Proof.
  intros Hi. apply (sum_upto_bump _ _ i); [done|]. intros j Hj. cbn.
  destruct (Z.eqb_spec j i) as [->|]; [rewrite decide_True by done; rewrite length_app; cbn; lia|].
  rewrite decide_False by lia. lia.
Qed.

Lemma queues_total_deq t i k v (h : qhist) w :
  0 <= i < w -> qcontents i h <> [] -> queues_total ((t, Deq i k v) :: h) w = queues_total h w - 1.
Proof.
  intros Hi Hne. apply (sum_upto_bump _ _ i (-1)); [done|]. intros j Hj. cbn.
  destruct (Z.eqb_spec j i) as [->|]; [rewrite decide_True by done|rewrite decide_False by lia; lia].
  destruct (qcontents i h); [done|cbn; lia].
Qed.

(** ** [queues_size] and [queues_span], for a thread alone *)

Section size.
Context {W V D X : Type} `{EqDecision D} {qd : QDesc D} {qt : QTag X} {A : Allocator (qnode_of X)}.
Context (WP : protocol W) {wlaws : ProtocolLaws WP} (w limit : Z).
Notation B := (joint WP (qprot w limit)).
Context (P : protocol (shared W (queues D X))) (t : nat) {reads : Reads P B t}.
#[local] Instance slaws : ProtocolLaws P := reads_laws (B := B) (t := t).
Context (still : forall g g', p_rely P t g g' -> g' = g).
Implicit Types (g : shared W (queues D X)) (l : tls V).

(** From the [k]-th node to the end of its sub-queue. *)
Lemma qchain_loop_wp g l i k a size (Q : Z -> shared W (queues D X) -> tls V -> Prop) :
  p_inv P g -> 0 <= i < w -> at_pos (subs g) i k a -> 0 <= size ->
  size + Z.of_nat (length (links_of (subs g) i)) < 2 ^ 64 ->
  Q (size + Z.of_nat (length (links_of (subs g) i)) - Z.of_nat k - 1) g l ->
  wp P t (while (fun '(n, size) =>
        let* nxt := load_next n in
        if negb (nxt =? 0) then
          let* n := load_next n in
          continue (n, u64 (size + 1))
        else break size) (a, size)) Q g l.
Proof.
  intros HI Hi Hk Hs Hlim HQ. set (len := length (links_of (subs g) i)) in *.
  apply (wp_while P t _ _ _ _ (fun n '(a, sz) g1 l1 => g1 = g /\ l1 = l /\
    exists j, at_pos (subs g) i j a /\ (k <= j < len)%nat /\ n = (len - j)%nat /\
      sz = size + Z.of_nat j - Z.of_nat k) (len - k)%nat).
  - split; [done|split; [done|]]. exists k. split; [done|]. split; [|lia].
    split; [lia|]. by eapply lookup_lt_Some.
  - intros n [b sz] g1 l1 (-> & -> & j & Hj & Hjk & -> & ->). wp_local.
    apply (wp_qload_next WP w limit P t i j); [done|done|..].
    + intros g1 R1 _ Hlen. rewrite (still g g1 R1) in *. cbn [negb Z.eqb]. wp_locals.
      replace (size + Z.of_nat j - Z.of_nat k) with (size + Z.of_nat len - Z.of_nat k - 1) by (fold len in Hlen; lia).
      exact HQ.
    + intros c g1 R1 _ Hc Hcj. rewrite (still g g1 R1) in *.
      rewrite (proj2 (Z.eqb_neq _ _) Hc). cbn [negb]. wp_local.
      apply (wp_qload_next_known WP w limit P t i j b c); [done..|].
      intros g2 R2 _. rewrite (still g g2 R2). wp_locals.
      assert (Hlt : (S j < len)%nat) by (by eapply lookup_lt_Some).
      rewrite wrap_small by lia. exists (len - S j)%nat. split; [lia|]. split; [done|split; [done|]].
      exists (S j). split; [done|]. split; [lia|]. split; [done|lia].
Qed.

Lemma queues_size_wp (Q : Z -> shared W (queues D X) -> tls V -> Prop) g l :
  0 < w < 2 ^ 63 -> p_inv P g -> Z.of_nat (length (hist (subs g))) < 2 ^ 62 ->
  Q (queues_total (hist (subs g)) w) g l -> wp P t (queues_size w) Q g l.
Proof.
  intros Hw HI Hlim HQ. unfold queues_total in *.
  set (f i := Z.of_nat (length (qcontents i (hist (subs g))))) in *.
  assert (Hf : forall j, 0 <= j < w -> 0 <= f j) by (intros j _; unfold f; lia).
  pose proof (proj2 (queues_total_bound (hist (subs g)) w ltac:(lia))) as Hb.
  unfold queues_total in Hb. fold f in Hb.
  pose proof (qinv WP w limit P t g HI) as Hs.
  eapply (wp_while P t _ _ _ _ (fun n '(i, size) g1 l1 => g1 = g /\ l1 = l /\
    0 <= i <= w /\ size = sum_upto f i /\ n = Z.to_nat (w - i))).
  - split_and!; try done; lia.
  - intros n [i size] g1 l1 (-> & -> & Hi & -> & ->).
    destruct (Z.ltb_spec i w) as [Hlt|Hge].
    + wp_local. apply (wp_qload_get WP w limit P t); [lia|]. intros g2 d R2 _ E Hk _.
      rewrite (still g g2 R2) in *. wp_local.
      pose proof (sum_upto_succ f i ltac:(lia)) as Esucc.
      pose proof (sum_upto_mono f (i + 1) w ltac:(lia) Hf) as Hmono.
      pose proof (sum_upto_nonneg f i ltac:(lia) ltac:(intros; apply Hf; lia)).
      destruct (sub_positions w (subs g) i Hs ltac:(lia)) as (_ & _ & Hlen).
      assert (Hdeq : (length (deqs i (hist (subs g))) <= length (hist (subs g)))%nat).
      { clear. induction (hist (subs g)) as [|[u [j k v|j k v|j]] h IH]; cbn; try lia.
        destruct (decide (j = i)); rewrite ?length_app; cbn; lia. }
      assert (Hfi : f i = Z.of_nat (length (qcontents i (hist (subs g))))) by done.
      unfold head_pos in Hlen.
      eapply (qchain_loop_wp g _ i); [done|lia|exact Hk|done|lia|]. wp_locals. unfold head_pos.
      replace (sum_upto f i + Z.of_nat (length (links_of (subs g) i))
        - Z.of_nat (length (deqs i (hist (subs g)))) - 1) with (sum_upto f (i + 1)) by lia.
      rewrite wrap_small by lia. eexists. split; [|split_and!; try done]; lia.
    + wp_locals. by replace i with w in * by lia.
Qed.

(** From the [k]-th node to the [p]-th. *)
Lemma qspan_loop_wp g l i k a p b size (Q : Z -> shared W (queues D X) -> tls V -> Prop) :
  p_inv P g -> 0 <= i < w -> at_pos (subs g) i k a -> at_pos (subs g) i p b -> (k <= p)%nat -> 0 <= size ->
  size + Z.of_nat (p - k) < 2 ^ 64 -> Q (size + Z.of_nat (p - k)) g l ->
  wp P t (while (fun '(head, size) =>
        if negb (head =? b) then
          let* head := load_next head in
          continue (head, u64 (size + 1))
        else break size) (a, size)) Q g l.
Proof.
  intros HI Hi Hk Hp Hkp Hs Hlim HQ.
  apply (wp_while P t _ _ _ _ (fun n '(a, sz) g1 l1 => g1 = g /\ l1 = l /\
    exists j, at_pos (subs g) i j a /\ (k <= j <= p)%nat /\ n = (p - j)%nat /\
      sz = size + Z.of_nat (j - k)) (p - k)%nat).
  - split; [done|split; [done|]]. exists k. rewrite Nat.sub_diag. split; [done|lia].
  - intros n [c sz] g1 l1 (-> & -> & j & Hj & Hjk & -> & ->).
    destruct (Z.eqb_spec c b) as [->|Hne]; cbn [negb].
    + assert (j = p) as -> by (eapply (at_pos_inj w (subs g)); [by apply (qinv WP w limit P t)|done..]).
      wp_locals. exact HQ.
    + assert (j <> p) by (intros ->; unfold at_pos in *; congruence).
      destruct (lookup_lt_is_Some_2 (links_of (subs g) i) (S j)) as [c' Hc'].
      { apply lookup_lt_Some in Hp. lia. }
      wp_local. apply (wp_qload_next_known WP w limit P t i j c c'); [done..|].
      intros g2 R2 _. rewrite (still g g2 R2). wp_locals. rewrite wrap_small by lia.
      exists (p - S j)%nat. split; [lia|]. split; [done|split; [done|]]. exists (S j). split; [done|lia].
Qed.

Lemma queues_span_wp (Q : Z -> shared W (queues D X) -> tls V -> Prop) g l :
  0 < w < 2 ^ 63 -> p_inv P g -> Z.of_nat (length (hist (subs g))) < 2 ^ 62 ->
  (forall i, 0 <= i < w -> length (links_of (subs g) i) = S (tail_pos (subs g) i)) ->
  Q (queues_total (hist (subs g)) w) g l -> wp P t (queues_span w) Q g l.
Proof.
  intros Hw HI Hlim Hse HQ. unfold queues_total in *.
  set (f i := Z.of_nat (length (qcontents i (hist (subs g))))) in *.
  assert (Hf : forall j, 0 <= j < w -> 0 <= f j) by (intros j _; unfold f; lia).
  pose proof (proj2 (queues_total_bound (hist (subs g)) w ltac:(lia))) as Hb.
  unfold queues_total in Hb. fold f in Hb.
  apply (wp_while P t _ _ _ _ (fun n '(i, size) g1 l1 => g1 = g /\ l1 = l /\
    0 <= i <= w /\ size = sum_upto f i /\ n = Z.to_nat (w - i)) (Z.to_nat w)).
  - split_and!; try done; lia.
  - intros n [i size] g1 l1 (-> & -> & Hi & -> & ->).
    destruct (Z.ltb_spec i w) as [Hlt|Hge]; [|wp_locals; by replace i with w in * by lia].
    wp_local. apply (wp_qload_get WP w limit P t); [lia|]. intros g2 d R2 _ _ Hd _. rewrite (still g g2 R2) in *. wp_local.
    apply (wp_qload_put WP w limit P t); [lia|]. intros g3 e R3 _ _ He _. rewrite (still g g3 R3) in *. wp_local.
    pose proof (sum_upto_succ f i ltac:(lia)) as Esucc.
    pose proof (sum_upto_mono f (i + 1) w ltac:(lia) Hf) as Hmono.
    pose proof (sum_upto_nonneg f i ltac:(lia) ltac:(intros; apply Hf; lia)).
    destruct (sub_positions w (subs g) i) as (Hpos & _ & Hlen); [by apply (qinv WP w limit P t)|lia|].
    assert (Hfi : f i = Z.of_nat (tail_pos (subs g) i - head_pos (subs g) i)).
    { unfold f. specialize (Hse i ltac:(lia)). lia. }
    apply (qspan_loop_wp g _ i (head_pos (subs g) i) (qd_node d) (tail_pos (subs g) i) (qd_node e));
      [done|lia|exact Hd|exact He|lia|done|lia|]. wp_locals.
    rewrite <- Hfi. replace (sum_upto f i + f i) with (sum_upto f (i + 1)) by lia.
    rewrite wrap_small by lia. eexists. split; [|split_and!; try done]; lia.
Qed.
End size.

(** ** Creation *)

(** The loop of the constructors over sub-queues [i], [i + 1], ...: a dummy node
    each, with [next] set to NULL and the rest as in [junk]. *)
Fixpoint alloc_dummies {X} {A : Allocator (qnode_of X)} (junk : nat -> qnode_of X) (i n : nat)
    (h : gmap Z (qnode_of X)) : list Z * gmap Z (qnode_of X) :=
  match n with
  | O => ([], h)
  | S n =>
      let a := alloc_addr h in
      let d := junk i in
      let '(nodes, h') := alloc_dummies junk (S i) n
        (<[a := mkQnodeOf 0 (qkey d) (qval d) (qtag d)]> h) in
      (a :: nodes, h')
  end.

Section creation.
Context {D X : Type} {qd : QDesc D} {qt : QTag X} {A : Allocator (qnode_of X)}.
Context (junk : nat -> qnode_of X).
Notation dummy i := (mkQnodeOf 0 (qkey (junk i)) (qval (junk i)) (qtag (junk i))).

Lemma alloc_dummies_spec n : forall i h nodes h',
  alloc_dummies junk i n h = (nodes, h') ->
  length nodes = n /\ NoDup nodes /\ h ⊆ h' /\
  (forall k a, nodes !! k = Some a -> a <> 0 /\ h !! a = None /\ h' !! a = Some (dummy (i + k)%nat)) /\
  (h !! 0 = None -> h' !! 0 = None).
Proof.
  induction n as [|n IH]; intros i h nodes h' E; cbn [alloc_dummies] in E.
  { injection E as <- <-. split_and!; try done. constructor. }
  destruct (alloc_addr_ok h) as [Ha Hfresh].
  destruct (alloc_dummies junk (S i) n _) as [ns h1] eqn:E1. injection E as <- <-.
  destruct (IH _ _ _ _ E1) as (Hlen & Hnd & Hsub & Hin & H0).
  assert (Hnot : alloc_addr h ∉ ns).
  { intros [k Hk]%list_elem_of_lookup. destruct (Hin k _ Hk) as (_ & E & _). by rewrite lookup_insert_eq in E. }
  split_and!; [cbn; lia|by constructor| | |].
  - etrans; [|exact Hsub]. by apply insert_subseteq.
  - intros [|k] a Hk.
    + injection Hk as <-. split_and!; [done|done|]. rewrite Nat.add_0_r.
      eapply lookup_weaken; [|exact Hsub]. apply lookup_insert_eq.
    + destruct (Hin k a Hk) as (? & E & ?). rewrite Nat.add_succ_r. split_and!; [done| |done].
      destruct (decide (a = alloc_addr h)) as [->|]; [by rewrite lookup_insert_eq in E|].
      by rewrite lookup_insert_ne in E.
  - intros Hz. apply H0. by rewrite lookup_insert_ne.
Qed.

(** Sub-queues of a dummy node each. *)
Definition created (put get : Z -> D) (n : nat) : queues D X :=
  let '(nodes, h) := alloc_dummies junk 0 n ∅ in
  mkQueues (put <$> nodes) (get <$> nodes) (mkQmem h ∅) ((fun a => [a]) <$> nodes) (replicate n 0%nat)
    ((fun a => [put a]) <$> nodes) [].

Lemma created_at put get n i :
  0 <= i < Z.of_nat n -> let s := created put get n in
  hist s = [] /\ exists a, puts_of s i = [put a] /\ get_array s !! Z.to_nat i = Some (get a) /\
    tail_pos s i = 0%nat /\ links_of s i = [a].
Proof.
  intros Hi. unfold created. destruct (alloc_dummies _ _ _ _) as [ns h] eqn:E.
  destruct (alloc_dummies_spec _ _ _ _ _ E) as (Hlen & _). split; [done|].
  destruct (lookup_lt_is_Some_2 ns (Z.to_nat i)) as [a Ea]; [lia|]. exists a.
  unfold puts_of, tail_pos, links_of. cbn [puts get_array tails links].
  rewrite !list_lookup_fmap, Ea, lookup_replicate_2 by lia. done.
Qed.

Lemma created_inv put get w :
  0 <= w ->
  (forall a, qd_node (put a) = a /\ qd_node (get a) = a /\ qd_put_ok (put a) 0 /\ qd_get_ok (get a) 0) ->
  (forall i, tag_ok (Z.of_nat i) 0 (qtag (junk i))) ->
  queues_inv w (created put get (Z.to_nat w)).
Proof.
  intros Hw Hpg Htag. unfold created. destruct (alloc_dummies _ _ _ _) as [ns h] eqn:E.
  destruct (alloc_dummies_spec _ _ _ _ _ E) as (Hlen & Hnd & _ & Hin & H0).
  split_and!; cbn [put_array get_array links tails heap hist];
    rewrite ?length_fmap, ?length_replicate; try lia; [split; [by apply H0|done]| |done|].
  - intros i j L L' k1 k2 a Hi Hj Hk1 Hk2. rewrite list_lookup_fmap in Hi, Hj.
    destruct (ns !! i) as [x|] eqn:Ei; [|done]. destruct (ns !! j) as [y|] eqn:Ej; [|done].
    injection Hi as <-. injection Hj as <-.
    apply list_lookup_singleton_Some in Hk1 as [-> <-].
    apply list_lookup_singleton_Some in Hk2 as [-> <-].
    split; [|done]. by eapply NoDup_lookup.
  - intros i Hi. destruct (lookup_lt_is_Some_2 ns (Z.to_nat i)) as [a Ea]; [lia|].
    exists (put a), (get a). destruct (Hpg a) as (Ep & Eg & Hp & Hg).
    destruct (Hin _ a Ea) as (Ha0 & _ & Eh). cbn [Nat.add] in Eh.
    match goal with |- sub_at ?s _ _ _ =>
      assert (EL : links_of s i = [a]) by (unfold links_of; cbn; by rewrite list_lookup_fmap, Ea);
      assert (Et : tail_pos s i = 0%nat)
        by (unfold tail_pos; cbn; by rewrite lookup_replicate_2 by lia);
      assert (Epu : puts_of s i = [put a]) by (unfold puts_of; cbn; by rewrite list_lookup_fmap, Ea)
    end.
    split; rewrite ?Et, ?Epu; unfold at_pos; rewrite ?EL, ?Ep, ?Eg; cbn [put_array get_array heap hist];
      try done; [by rewrite list_lookup_fmap, Ea|by rewrite list_lookup_fmap, Ea|..].
    + split; cbn; try done; try lia. intros k x Hk.
      apply list_lookup_singleton_Some in Hk as [-> <-].
      split; [done|split; [done|]]. by eexists.
    + intros k x n Hk En. apply list_lookup_singleton_Some in Hk as [-> <-].
      cbn in En. rewrite Eh in En. injection En as <-. cbn [qtag]. replace i with (Z.of_nat (Z.to_nat i)) at 1 by lia.
      apply Htag.
Qed.
End creation.
