(* ===== verification/QueueMs.v ===== *)
(** src/queue-ms (queue-lockfree.c, queue-ms.c, intset.c): the Michael-Scott
    queue, as one sub-queue. *)
From S2P Require Import Prelude Conc Random Thread StackHeap QueueHeap Shared SubQueues.

(** ** State *)

(** The [tail] and the [head] field of [queue_t]: entry 0 of the arrays. *)
#[export] Instance ptr_desc : QDesc Z :=
  {| qd_node d := d; qd_put_ok _ _ := True; qd_get_ok _ _ := True |}.

Notation msqueue := (queues Z unit).
Notation state := (shared unit msqueue).
Notation MQ := (M unit msqueue).

(** ** Operations *)

Section code.
Context {A : Allocator (qnode_of unit)}.

Definition queue_new_node (key val next : Z) : MQ Z := alloc_node (mkQnode next key val).

(** [queue_ms_find]: not implemented. *)
Definition queue_ms_find (key : Z) : MQ Z := Ret 1.

Definition insert_body (node : Z) (_ : unit) : MQ (unit + Z) :=
  let* tail := load_put id 0 in
  let* next := load_next tail in
  let* tail' := load_put id 0 in
  if tail =? tail' then
    if next =? 0 then
      let* ok := cas_next 0 tail node in
      if ok then break tail else continue tt
    else
      let* _ := cae_put 0 tail next in
      continue tt
  else continue tt.

Definition queue_ms_insert (key val : Z) : MQ Z :=
  let* node := queue_new_node key val 0 in
  let* tail := while (insert_body node) tt in
  let* _ := cae_put 0 tail node in
  Ret 1.

(** Leaving the loop: 0 is returned, or the node [next] was taken. *)
Definition delete_body (_ : unit) : MQ (unit + option Z) :=
  let* head := load_get id 0 in
  let* tail := load_put id 0 in
  let* next := load_head_next 0 head in
  let* head' := load_get id 0 in
  if head =? head' then
    if head =? tail then
      if next =? 0 then break None
      else
        let* _ := cae_put 0 tail next in
        continue tt
    else
      let* ok := cae_get 0 head next in
      if ok then break (Some next) else continue tt
  else continue tt.

Definition queue_ms_delete : MQ Z :=
  let* r := while delete_body tt in
  match r with
  | None => Ret 0
  | Some next => load_val next
  end.

(** [int size]. *)
Definition queue_size : MQ Z :=
  let* node := load_get id 0 in
  while (fun '(node, size) =>
    let* nxt := load_next node in
    if negb (nxt =? 0) then
      let* node := load_next node in
      continue (node, i32 (size + 1))
    else break size) (node, 0).

(** intset.c. *)
Definition queue_contains (key : Z) : MQ Z := queue_ms_find key.
Definition queue_add (key val : Z) : MQ Z := queue_ms_insert key val.
Definition queue_remove : MQ Z := queue_ms_delete.

Definition exec_op (o : op) : MQ Z :=
  match o with Enqueue k v => queue_add k v | Dequeue => queue_remove end.

(** [queue_new]: one dummy node, whose key and value are not initialised. *)
Definition queue_new (key val : Z) : state :=
  let a := alloc_addr (∅ : gmap Z (qnode_of unit)) in
  mkShared tt (mkQueues [a] [a] (mkQmem {[ a := mkQnode 0 key val ]} ∅) [[a]] [0%nat] [[a]] []).
End code.

(** ** The operations, for a thread among others and for one alone *)

Section operations.
Context {A : Allocator (qnode_of unit)}.
Notation WP := (no_window (W := unit)).
Notation B := (joint WP (qprot 1 (2 ^ 62))).
Context (P : protocol state) (t : nat) {runs : Runs P B t}.
Notation still := (forall g g', p_rely P t g g' -> g' = g).
Context (alone_still : p_total P = true -> still).
Notation mine g := (qevents_of t (hist (subs g))).
Implicit Types (g : state) (l : tls unit).

(** How far the tail pointer is from the end: it bounds the iterations of a
    thread alone. *)
Definition lag g : nat := (length (links_of (subs g) 0) - tail_pos (subs g) 0)%nat.

Lemma lag_after g g' k :
  (tail_pos (subs g) 0 = k)%nat -> (k < length (links_of (subs g) 0))%nat ->
  links_of (subs g') 0 = links_of (subs g) 0 -> tail_pos (subs g') 0 = S k -> (lag g' < lag g)%nat.
Proof. unfold lag. intros H1 H2 H3 H4. rewrite H3, H4, H1. lia. Qed.

Notation did_op_nil := (did_op_nil WP 1 (2 ^ 62) P t).
Notation did_op_then := (did_op_then P t).
Notation did_op_rely := (did_op_rely WP 1 (2 ^ 62) P t).
Notation did_op_step := (did_op_step WP 1 (2 ^ 62) P t).
Notation did_op := (did_op P t).

(** Reading the tail pointer: its node and position. *)
Lemma wp_tail (Q : Z -> state -> tls unit -> Prop) g l :
  (forall g' a, p_rely P t g g' -> p_inv P g' -> at_pos (subs g') 0 (tail_pos (subs g') 0) a ->
     lookup_put 0 g' = Some a -> Q a g' l) ->
  wp P t (load_put id 0) Q g l.
Proof.
  intros HQ. apply (wp_qload_put WP 1 (2 ^ 62) P t); [lia|]. intros g' d R' I' E Hp _. by apply HQ.
Qed.

Lemma wp_head (Q : Z -> state -> tls unit -> Prop) g l :
  (forall g' a, p_rely P t g g' -> p_inv P g' -> at_pos (subs g') 0 (head_pos (subs g') 0) a ->
     lookup_get 0 g' = Some a -> Q a g' l) ->
  wp P t (load_get id 0) Q g l.
Proof.
  intros HQ. apply (wp_qload_get WP 1 (2 ^ 62) P t); [lia|]. intros g' d R' I' E Hp _. by apply HQ.
Qed.

(** Helping: the tail pointer at the [k]-th node is moved on. *)
Lemma wp_help k a b g l (Q : bool -> state -> tls unit -> Prop) :
  at_pos (subs g) 0 k a -> at_pos (subs g) 0 (S k) b ->
  (forall ok g', did_op [] g g' -> (forall n x, owned t n x g -> owned t n x g') ->
     (still -> lookup_put 0 g = Some a -> (lag g' < lag g)%nat) -> Q ok g' l) ->
  wp P t (cae_put 0 a b) Q g l.
Proof.
  intros Ha Hb HQ. apply (wp_cae_put WP 1 (2 ^ 62) P t 0 k); try done.
  - intros g1 R1 I1 E1 Ek g2 I2 He2 Etl. apply HQ.
    + apply (did_op_then [] [] g g1 g2); [by apply did_op_nil|].
      split; [done|]. done.
    + intros n x Ho. by apply (owned_rely WP 1 (2 ^ 62) P t n x g g1 R1).
    + intros Hs _. pose proof (Hs g g1 R1). subst g1. apply (lag_after g g2 k); [exact Ek| |done|exact Etl].
      by eapply lookup_lt_Some.
  - intros g1 R1 I1 Hne. apply HQ.
    + by apply did_op_nil.
    + intros n x. by apply (owned_rely WP 1 (2 ^ 62) P t).
    + intros Hs E. destruct Hne. by rewrite (Hs g g1 R1).
Qed.

(** While the new node is the thread's own. *)
Definition insert_loop (key v a : Z) g0 (n : nat) g l : Prop :=
  thread_id l = t /\ p_inv P g /\ did_op [] g0 g /\ owned t a (mkQnode 0 key v) g /\
  (p_total P = true -> (lag g <= n)%nat).

(** After the link: what the last compare-and-exchange needs. *)
Definition inserted (v a : Z) g0 (tail : Z) g l : Prop :=
  thread_id l = t /\ exists k, did_op [Enq 0 (Z.of_nat (S k)) v] g0 g /\
    at_pos (subs g) 0 k tail /\ at_pos (subs g) 0 (S k) a.

Lemma insert_body_wp key v a g0 n (Q : unit + Z -> state -> tls unit -> Prop) g l :
  insert_loop key v a g0 n g l ->
  (forall tail g' l', inserted v a g0 tail g' l' -> Q (inr tail) g' l') ->
  (forall m g' l', (p_total P = true -> (m < n)%nat) -> insert_loop key v a g0 m g' l' -> Q (inl tt) g' l') ->
  wp P t (insert_body a tt) Q g l.
Proof.
  intros (Ht & HI & Hd & Ho & Hn) HQ HQ'. unfold insert_body. wp_local.
  apply wp_tail. intros g1 b R1 I1 Hb E1. set (k := tail_pos (subs g1) 0) in *. wp_local.
  assert (Hretry : forall g', p_rely P t g g' -> p_inv P g' -> ~ still -> Q (inl tt) g' l).
  { intros g' R' I' Hns. apply (HQ' (lag g')); [intros Htot; by destruct (Hns (alone_still Htot))|].
    split; [done|split; [done|split; [by apply (did_op_rely [] g0 g g')|split; [|done]]]].
    by apply (owned_rely WP 1 (2 ^ 62) P t _ _ g g' R'). }
  assert (Hkeep : forall g', p_rely P t g g' -> owned t a (mkQnode 0 key v) g').
  { intros g' R'. by apply (owned_rely WP 1 (2 ^ 62) P t _ _ g g' R'). }
  apply (wp_qload_next WP 1 (2 ^ 62) P t 0 k); [lia|done|..].
  - intros g2 R2 I2 Hlen2. wp_local. apply wp_tail. intros g3 b' R3 I3 Hb' E3.
    assert (R03 : p_rely P t g g3) by (apply (rely_trans (P := P) t g g1); [|apply (rely_trans (P := P) t g1 g2)]; done).
    destruct (Z.eqb_spec b b') as [<-|Hne].
    2: { wp_locals. apply Hretry; [done..|]. intros Hs.
         rewrite (Hs _ _ R3), (Hs _ _ R2) in E3. congruence. }
    cbn [Z.eqb]. wp_local.
    assert (R13 : p_rely P t g1 g3) by (by apply (rely_trans (P := P) t g1 g2)).
    assert (Hb3 : at_pos (subs g3) 0 k b) by (by apply (qrely_at_pos WP 1 (2 ^ 62) P t g1 g3)).
    apply (wp_cas_next WP 1 (2 ^ 62) P t 0 k b a (mkQnode 0 key v)); try done; [| by apply Hkeep|..].
    + apply (qrely_tail WP 1 (2 ^ 62) P t g1 g3 0 R13).
    + intros g4 g5 R4 D5 E5 Hlen5 Ha5 Htl. wp_locals. apply HQ. split; [done|]. exists k.
      assert (R04 : p_rely P t g g4) by (by apply (rely_trans (P := P) t g g3)).
      split; [|split; [|done]].
      * apply (did_op_step _ [] g0 g g4 g5 Hd R04 D5). intros _. rewrite E5.
        cbn [linked hist]. by rewrite Hlen5.
      * destruct D5 as (_ & He & _). eapply at_pos_evolves; [exact He|].
        by apply (qrely_at_pos WP 1 (2 ^ 62) P t g3 g4).
    + intros g4 R4 I4 Hlt. wp_locals. apply Hretry; [by apply (rely_trans (P := P) t g g3)|done|].
      intros Hs. rewrite (Hs _ _ R4), (Hs _ _ R3) in Hlt. lia.
  - intros c g2 R2 I2 Hc Hc2. wp_local. apply wp_tail. intros g3 b' R3 I3 Hb' E3.
    assert (R13 : p_rely P t g1 g3) by (by apply (rely_trans (P := P) t g1 g2)).
    assert (R03 : p_rely P t g g3) by (by apply (rely_trans (P := P) t g g1)).
    destruct (Z.eqb_spec b b') as [<-|Hne].
    2: { wp_locals. apply Hretry; [done..|]. intros Hs.
         rewrite (Hs _ _ R3), (Hs _ _ R2) in E3. congruence. }
    rewrite (proj2 (Z.eqb_neq _ _) Hc). wp_local.
    apply (wp_help k b c); [by apply (qrely_at_pos WP 1 (2 ^ 62) P t g1 g3)|
      by apply (qrely_at_pos WP 1 (2 ^ 62) P t g2 g3)|].
    intros ok g4 D4 Ho4 Hlag. wp_locals. apply (HQ' (lag g4)).
    + intros Htot. specialize (Hlag (alone_still Htot) E3). specialize (Hn Htot).
      rewrite (alone_still Htot _ _ R03) in Hlag. lia.
    + split; [done|split; [apply D4|split; [|split; [by apply Ho4, Hkeep|done]]]].
      destruct D4 as [D4 H4]. by apply (did_op_step [] [] g0 g g3 g4 Hd R03 D4).
Qed.

(** [queue_ms_insert] returns 1 after exactly one [Enq] of its value. *)
Lemma insert_wp key v (Q : Z -> state -> tls unit -> Prop) g l :
  thread_id l = t -> p_inv P g ->
  (forall k g' l', thread_id l' = t -> did_op [Enq 0 k v] g g' -> Q 1 g' l') ->
  wp P t (queue_ms_insert key v) Q g l.
Proof.
  intros Ht HI HQ. unfold queue_ms_insert, queue_new_node. wp_local.
  apply (wp_qalloc WP 1 (2 ^ 62) P t); [done|]. intros a g1 m R1 I1 g2 I2 He2 Ho2. wp_local.
  eapply (wp_while P t _ _ _ _ (fun n _ => insert_loop key v a g n) (lag g2)).
  { split; [done|split; [done|split; [|split; [done|done]]]].
    apply (did_op_step [] [] g g g1 g2); [by apply did_op_nil; [apply (rely_refl (P := P))|]|done| |done].
    split; [done|split; [done|done]]. }
  intros n [] g3 l3 HJ. apply (insert_body_wp key v a g n); [done|..].
  - intros tail g4 l4 (Ht4 & k & D4 & Hk & Hk'). wp_local.
    apply (wp_help k tail a); [done..|]. intros ok g5 D5 _ _. wp_locals.
    apply (HQ (Z.of_nat (S k))); [done|]. by apply (did_op_then _ [] g g4 g5).
  - intros m' g4 l4 Hm HJ4. by exists m'.
Qed.

(** While a deletion has only made observations. *)
Definition delete_loop g0 (n : nat) g l : Prop :=
  thread_id l = t /\ p_inv P g /\
  (exists obs, did_op (replicate obs (Nothing 0)) g0 g /\ (still -> obs = 0%nat)) /\
  (p_total P = true -> (lag g <= n)%nat).

Lemma delete_body_wp g0 n (Q : unit + option Z -> state -> tls unit -> Prop) g l :
  delete_loop g0 n g l ->
  (forall obs g' l', thread_id l' = t -> did_op (replicate (S obs) (Nothing 0)) g0 g' ->
     (still -> obs = 0%nat) -> Q (inr None) g' l') ->
  (forall obs k v a nd g' l', thread_id l' = t ->
     did_op (Deq 0 k v :: replicate obs (Nothing 0)) g0 g' -> (still -> obs = 0%nat) ->
     at_pos (subs g') 0 (Z.to_nat k) a -> lookup_node a g' = Some nd -> qval nd = v ->
     Q (inr (Some a)) g' l') ->
  (forall m g' l', (p_total P = true -> (m < n)%nat) -> delete_loop g0 m g' l' -> Q (inl tt) g' l') ->
  wp P t (delete_body tt) Q g l.
Proof.
  intros (Ht & HI & (obs & Hd & Hobs) & Hn) HQ0 HQ HQ'. unfold delete_body. wp_local.
  apply wp_head. intros g1 b R1 I1 Hb E1. set (k := head_pos (subs g1) 0) in *. wp_local.
  apply wp_tail. intros g2 c R2 I2 Hc E2. set (p := tail_pos (subs g2) 0) in *. wp_local.
  assert (R02 : p_rely P t g g2) by (by apply (rely_trans (P := P) t g g1)).
  assert (Hb2 : at_pos (subs g2) 0 k b) by (by apply (qrely_at_pos WP 1 (2 ^ 62) P t g1 g2)).
  assert (Hkp : (k <= p)%nat).
  { pose proof (qrely_head WP 1 (2 ^ 62) P t g1 g2 0 R2).
    destruct (sub_positions 1 (subs g2) 0 (qinv WP 1 (2 ^ 62) P t g2 I2)) as [? _]; [lia|].
    fold k in H. fold p in H0. lia. }
  assert (Hretry : forall obs' g', did_op (replicate obs' (Nothing 0)) g0 g' -> ~ still ->
    Q (inl tt) g' l).
  { intros obs' g' D Hns. apply (HQ' (lag g')); [intros Htot; by destruct (Hns (alone_still Htot))|].
    split; [done|split; [apply D|split; [|done]]]. exists obs'. split; [exact D|by intros ?]. }
  apply (wp_load_head_next WP 1 (2 ^ 62) P t 0 k); [lia|done|done| |..].
  { apply (qrely_head WP 1 (2 ^ 62) P t g1 g2 0 R2). }
  - intros g3 g4 R3 D4 E4 Hnil Hlen. wp_local. apply wp_head. intros g5 b' R5 I5 Hb' E5.
    assert (R03 : p_rely P t g g3) by (by apply (rely_trans (P := P) t g g2)).
    assert (D05 : did_op (replicate (S obs) (Nothing 0)) g0 g5).
    { apply (did_op_rely _ g0 g4 g5); [|done|done].
      apply (did_op_step [Nothing 0] (replicate obs (Nothing 0)) g0 g g3 g4 Hd R03 D4).
      intros _. by rewrite E4. }
    destruct (Z.eqb_spec b b') as [<-|Hne].
    2: { wp_locals. apply (Hretry (S obs)); [done|]. intros Hs.
         assert (Hg : lookup_get 0 g4 = lookup_get 0 g3) by (unfold lookup_get; by rewrite E4).
         rewrite (Hs _ _ R5), Hg, (Hs _ _ R3), (Hs _ _ R2) in E5. congruence. }
    assert (Hp : p = k).
    { pose proof (qrely_tail WP 1 (2 ^ 62) P t g2 g3 0 R3). fold p in H.
      assert (I3 : queues_inv 1 (subs g3)).
      { destruct D4 as (I4 & _). pose proof (qinv WP 1 (2 ^ 62) P t g4 I4) as I4'. rewrite E4 in I4'.
        destruct I4' as (?&?&?&?&?&?&[_ ?]&H'). split_and!; try done. intros i Hi.
        destruct (H' i Hi) as (dp & dg & []). exists dp, dg. split; try done.
        eapply subq_same; [exact sa_subq|done|done|done]. }
      destruct (sub_positions 1 (subs g3) 0 I3) as [Hpos _]; [lia|]. lia. }
    assert (Ecb : c = b) by (rewrite Hp in Hc; unfold at_pos in *; congruence).
    rewrite Ecb, Z.eqb_refl. cbn [Z.eqb]. wp_locals. by apply (HQ0 obs).
  - intros nxt g3 R3 I3 Hnz Hn3. wp_local. apply wp_head. intros g4 b' R4 I4 Hb' E4.
    assert (R24 : p_rely P t g2 g4) by (by apply (rely_trans (P := P) t g2 g3)).
    assert (R04 : p_rely P t g g4) by (by apply (rely_trans (P := P) t g g2)).
    destruct (Z.eqb_spec b b') as [<-|Hne].
    2: { wp_locals. apply (Hretry obs); [by apply (did_op_rely _ g0 g g4)|]. intros Hs.
         rewrite (Hs _ _ R4), (Hs _ _ R3), (Hs _ _ R2) in E4. congruence. }
    assert (Hn4 : at_pos (subs g4) 0 (S k) nxt) by (by apply (qrely_at_pos WP 1 (2 ^ 62) P t g3 g4)).
    assert (Hb4 : at_pos (subs g4) 0 k b) by (by apply (qrely_at_pos WP 1 (2 ^ 62) P t g2 g4)).
    destruct (Z.eqb_spec b c) as [Ebc|Hne].
    + rewrite (proj2 (Z.eqb_neq _ _) Hnz). wp_local. rewrite <- Ebc.
      apply (wp_help k b nxt); [done..|]. intros ok g5 D5 _ Hlag. wp_locals. apply (HQ' (lag g5)).
      * intros Htot. assert (Ep : lookup_put 0 g4 = Some b).
        { rewrite (alone_still Htot _ _ R24), Ebc. exact E2. }
        specialize (Hlag (alone_still Htot) Ep). specialize (Hn Htot).
        rewrite (alone_still Htot _ _ R04) in Hlag. lia.
      * split; [done|split; [apply D5|split; [|done]]]. exists obs. split; [|done].
        destruct D5 as [D5 H5]. by apply (did_op_step [] _ g0 g g4 g5 Hd R04 D5).
    + wp_local.
      assert (Hkp' : (k < p)%nat).
      { destruct (decide (k = p)) as [E|]; [|lia]. rewrite <- E in Hc. unfold at_pos in *. congruence. }
      apply (wp_cae_get WP 1 (2 ^ 62) P t 0 k b nxt); try done.
      * pose proof (qrely_tail WP 1 (2 ^ 62) P t g2 g4 0 R24). fold p in H. lia.
      * intros g5 g6 nd R5 E5 Hh En D6 E6. wp_locals.
        apply (HQ obs (Z.of_nat (S k)) (qval nd) nxt nd); [done| |done|..|done].
        -- apply (did_op_step [_] (replicate obs (Nothing 0)) g0 g g5 g6 Hd); [|exact D6|].
           ++ by apply (rely_trans (P := P) t g g4).
           ++ intros _. by rewrite E6.
        -- rewrite Nat2Z.id. destruct D6 as (_ & He & _). eapply at_pos_evolves; [exact He|].
           by apply (qrely_at_pos WP 1 (2 ^ 62) P t g4 g5).
        -- unfold lookup_node in *. by rewrite E6.
      * intros g5 R5 I5 Hne'. wp_locals. apply (Hretry obs).
        -- apply (did_op_rely _ g0 g g5 Hd); [by apply (rely_trans (P := P) t g g4)|done].
        -- intros Hs. apply Hne'. rewrite (Hs _ _ R5), (Hs _ _ R24), (Hs _ _ R2). exact E1.
Qed.

(** [queue_ms_delete] returns the value of exactly one [Deq], or 0 after
    observing the queue empty. *)
Lemma delete_wp (Q : Z -> state -> tls unit -> Prop) g l :
  thread_id l = t -> p_inv P g ->
  (forall obs g' l', thread_id l' = t -> did_op (replicate (S obs) (Nothing 0)) g g' ->
     (still -> obs = 0%nat) -> Q 0 g' l') ->
  (forall obs k v g' l', thread_id l' = t ->
     did_op (Deq 0 k v :: replicate obs (Nothing 0)) g g' -> (still -> obs = 0%nat) -> Q v g' l') ->
  wp P t queue_ms_delete Q g l.
Proof.
  intros Ht HI HQ0 HQ. unfold queue_ms_delete. wp_local.
  eapply (wp_while P t _ _ _ _ (fun n _ => delete_loop g n) (lag g)).
  { split; [done|split; [done|split; [|done]]]. exists 0%nat. split; [|done].
    by apply did_op_nil; [apply (rely_refl (P := P))|]. }
  intros n [] g1 l1 HJ. apply (delete_body_wp g n); [done|..].
  - intros obs g2 l2 Ht2 D2 Hobs. wp_locals. by apply (HQ0 obs).
  - intros obs k v a nd g2 l2 Ht2 D2 Hobs Ha En Ev. wp_local.
    apply (wp_qload_val WP 1 (2 ^ 62) P t 0 (Z.to_nat k) a nd); try done; [apply D2|].
    intros g3 R3 I3. rewrite Ev. apply (HQ obs k); [done| |done]. by apply (did_op_rely _ g g2 g3).
  - intros m g2 l2 Hm HJ2. by exists m.
Qed.
End operations.

(** ** Creation *)

Lemma queue_new_inv {A : Allocator (qnode_of unit)} key val :
  p_inv (joint (no_window (W := unit)) (qprot 1 (2 ^ 62))) (queue_new key val).
Proof.
  split; [done|]. unfold queue_new; cbn. set (a := alloc_addr ∅).
  pose proof (alloc_addr_ok (∅ : gmap Z (qnode_of unit))) as [Ha _]. fold a in Ha.
  split_and!; cbn; try done.
  - split; cbn; [by rewrite lookup_singleton_ne|done].
  - intros i j L L' k k' x Hi Hj Hk Hk'. destruct i, j; try done. cbn in *.
    injection Hi as <-. injection Hj as <-. by destruct k, k'.
  - intros i Hi. assert (i = 0) as -> by lia. exists a, a. split; try done; cbn.
    split; unfold links_of, tail_pos, head_pos; cbn; try done; try (change (Z.to_nat 0) with 0%nat; cbn; unfold id; lia).
    intros k x Hk. destruct k; [|done]. cbn in Hk. injection Hk as <-.
    split; [done|split; [done|]]. exists (mkQnode 0 key val). split; [apply lookup_insert_eq|done].
Qed.

(** ** The sequential queue *)

Definition fifo_step (q : list Z) (o : op) : Z * list Z :=
  match o, q with
  | Enqueue _ v, _ => (1, q ++ [v])
  | Dequeue, [] => (0, [])
  | Dequeue, v :: q => (v, q)
  end.

Fixpoint fifo (q : list Z) (ops : list op) : list Z * list Z :=
  match ops with
  | [] => ([], q)
  | o :: ops => let '(r, q) := fifo_step q o in let '(rs, q) := fifo q ops in (r :: rs, q)
  end.

Lemma fifo_snoc ops o : forall q,
  fifo q (ops ++ [o]) =
    let '(rs, q1) := fifo q ops in let '(r, q2) := fifo_step q1 o in (rs ++ [r], q2).
Proof.
  induction ops as [|o1 ops IH]; intros q; cbn [app fifo].
  - by destruct (fifo_step q o).
  - destruct (fifo_step q o1) as [r1 q1]. rewrite IH. destruct (fifo q1 ops) as [rs q2].
    by destruct (fifo_step q2 o).
Qed.

(** ** Theorems *)

Section theorems.
Context {A : Allocator (qnode_of unit)} (key val : Z).
Notation B := (joint (no_window (W := unit)) (qprot 1 (2 ^ 62))).
Context (opss : list (list op)) (ls : list (tls unit)) (schedule : list nat).
Context (Hls : forall i l, ls !! i = Some l -> thread_id l = i).
Context (Hbound : Z.of_nat (length schedule) < 2 ^ 62 - 1).

Let final := exec (mkCfg (queue_new key val) (clients exec_op opss ls)) schedule.

Lemma explains_observations done evs n :
  explains 1 done evs -> explains 1 done (replicate n (Nothing 0) ++ evs).
Proof. intros H. induction n; [done|]. cbn. constructor; [done|lia]. Qed.

Lemma ms_queue_run :
  p_inv B (mem final) /\ ~ faulty final /\
  (forall i rs l os, pool final !! i = Some (Ret rs, l) -> opss !! i = Some os ->
     length rs = length os /\ explains 1 (zip os rs) (qevents_of i (hist (subs (mem final))))).
Proof.
  destruct (clients_soundness exec_op B
    (fun t done (g : state) l => thread_id l = t /\ p_inv B g /\
       explains 1 done (qevents_of t (hist (subs g)))))
    with (meas := fun g : state => Z.of_nat (length (hist (subs g))))
      (delta := 1) (limit := 2 ^ 62 - 1)
      (g0 := queue_new key val) (opss := opss) (ls := ls) (schedule := schedule) as (HI & HF & HQ); try done.
  - intros t done o g l (Hl & HI & HJ).
    assert (Hs : p_total B = true -> forall g g', p_rely B t g g' -> g' = g) by done.
    destruct o as [k v|]; cbn [exec_op queue_add queue_remove].
    + apply (insert_wp B t Hs); [done|done|]. intros p g' l' Hl' [(HI' & _ & He) _].
      split; [done|split; [done|]]. rewrite He. constructor; [done|lia].
    + apply (delete_wp B t Hs); [done|done|..].
      * intros obs g' l' Hl' [(HI' & _ & He) _] _. split; [done|split; [done|]]. rewrite He.
        constructor; [|lia]. by apply explains_observations.
      * intros obs p v g' l' Hl' [(HI' & _ & He) _] _. split; [done|split; [done|]]. rewrite He.
        constructor; [|lia]. by apply explains_observations.
  - intros t g g' _ [_ (_ & _ & Hlen)]. lia.
  - intros g _ Hm. split; [done|]. cbn in *. lia.
  - apply queue_new_inv.
  - cbn. lia.
  - intros i l Hl. split; [by apply Hls|split; [apply queue_new_inv|constructor]].
  - split; [done|split; [done|]]. intros i rs l os Hp Ho.
    destruct (HQ i rs l os Hp Ho) as (Hlen & g1 & R1 & _ & _ & HJ1). split; [done|].
    destruct R1 as [_ (_ & _ & E1)]. rewrite <- E1 in HJ1. exact HJ1.
Qed.

(** C27. Linearizability: in every interleaved execution no access is invalid; the
    history of linked nodes, taken nodes and empty answers is one of a FIFO
    queue whose elements are the nodes behind the head; and each thread's
    results are, in order, those of its own events in that history. *)
Theorem ms_queue_linearizable :
  ~ faulty final /\ qreplayed 1 (subs (mem final)) /\
  (forall i rs l os, pool final !! i = Some (Ret rs, l) -> opss !! i = Some os ->
     length rs = length os /\ explains 1 (zip os rs) (qevents_of i (hist (subs (mem final))))).
Proof.
  destruct ms_queue_run as ([_ HI] & HF & HQ). split; [done|split; [|done]].
  by apply queues_replayed.
Qed.

(** [queue_size], for a thread alone. *)
Lemma queue_size_wp (Q : Z -> state -> tls unit -> Prop) g l :
  p_inv B g -> Z.of_nat (length (qcontents 0 (hist (subs g)))) < 2 ^ 31 ->
  Q (Z.of_nat (length (qcontents 0 (hist (subs g))))) g l ->
  wp (alone B) 0 queue_size Q g l.
Proof.
  intros HI Hlim HQ. unfold queue_size. wp_local.
  assert (still : forall g g', p_rely (alone B) 0%nat g g' -> g' = g) by (intros g1 g2 R; by apply R).
  destruct (sub_positions 1 (subs g) 0 (proj2 HI)) as (_ & _ & Hlen); [lia|].
  set (len := length (links_of (subs g) 0)) in *. set (k := head_pos (subs g) 0) in *.
  apply (wp_head (alone B) 0). intros g1 a R1 I1 Ha E1. rewrite (still g g1 R1) in *.
  eapply (wp_while (alone B) 0 _ _ _ _ (fun n '(a, sz) g1 l1 => g1 = g /\ l1 = l /\
    exists j, at_pos (subs g) 0 j a /\ (k <= j < len)%nat /\ n = (len - j)%nat /\
      sz = Z.of_nat j - Z.of_nat k) (len - k)%nat).
  - split; [done|split; [done|]]. exists k. split; [done|]. split; [|lia].
    split; [lia|]. by eapply lookup_lt_Some.
  - intros n [b sz] g2 l1 (-> & -> & j & Hj & Hjk & -> & ->). wp_local.
    apply (wp_qload_next (no_window (W := unit)) 1 (2 ^ 62) (alone B) 0 0 j); [lia|done|..].
    + intros g2 R2 _ Hl2. rewrite (still g g2 R2) in *. cbn [negb Z.eqb]. wp_locals.
      fold len in Hl2.
      by replace (Z.of_nat j - Z.of_nat k) with (Z.of_nat (length (qcontents 0 (hist (subs g))))) by lia.
    + intros c g2 R2 _ Hc Hcj. rewrite (still g g2 R2) in *.
      rewrite (proj2 (Z.eqb_neq _ _) Hc). cbn [negb]. wp_local.
      apply (wp_qload_next_known (no_window (W := unit)) 1 (2 ^ 62) (alone B) 0 0 j b c); [lia|done..|].
      intros g3 R3 _. rewrite (still g g3 R3). wp_locals.
      assert (Hlt : (S j < len)%nat) by (by eapply lookup_lt_Some).
      rewrite sign_small by lia. exists (len - S j)%nat. split; [lia|]. split; [done|split; [done|]].
      exists (S j). split; [done|]. split; [lia|]. split; [done|lia].
Qed.

(** C28. Obstruction freedom: from the memory that any interleaved execution has
    reached, operations half done included, a thread that runs alone finishes
    any operations, with the results of the sequential queue that starts with
    the elements behind the head; and [queue_size] is exact. *)
Theorem ms_queue_obstruction_free ops l0 :
  thread_id l0 = 0%nat ->
  exists q a, lookup_get 0 (mem final) = Some a /\ qchain (heap (subs (mem final))) a q /\
  exists n g l,
    (forall m, (n <= m)%nat ->
       run m (run_ops exec_op ops) (mem final) l0 = Finished (fifo q ops).1 g l) /\
    (Z.of_nat (length (fifo q ops).2) < 2 ^ 31 ->
     exists n' g' l', forall m, (n' <= m)%nat ->
       run m queue_size g l = Finished (Z.of_nat (length (fifo q ops).2)) g' l').
Proof.
  intros Hl0. destruct ms_queue_run as (HI0 & _ & _).
  destruct (queues_replayed 1 _ (proj2 HI0)) as [_ Hrep].
  destruct (Hrep 0 ltac:(lia)) as (a & Ea & Hch & _).
  set (q := (qcontents 0 (hist (subs (mem final)))).*2) in *. exists q, a.
  split; [exact Ea|split; [exact Hch|]].
  assert (still : forall g g', p_rely (alone B) 0%nat g g' -> g' = g) by (intros g1 g2 R; by apply R).
  assert (Hs : p_total (alone B) = true -> forall g g', p_rely (alone B) 0%nat g g' -> g' = g) by done.
  destruct (alone_run B (run_ops exec_op ops) (fun rs g l =>
      length rs = length ops /\ thread_id l = 0%nat /\
      fifo q (([] : list (op * Z)) ++ zip ops rs).*1 =
        ((([] : list (op * Z)) ++ zip ops rs).*2, (qcontents 0 (hist (subs g))).*2)) (mem final) l0)
    as (n & rs & g & l & Hrun & (Hlen & Hl & Hf) & HI); [done| |].
  - apply (wp_mono _ _ _ (fun rs g l => length rs = length ops /\
      (thread_id l = 0%nat /\ p_inv B g /\
       fifo q (([] : list (op * Z)) ++ zip ops rs).*1 =
        ((([] : list (op * Z)) ++ zip ops rs).*2, (qcontents 0 (hist (subs g))).*2))));
      [by intros ? ? ? (? & ? & ? & ?)|].
    apply (wp_run_ops (alone B) 0%nat exec_op (fun done g l => thread_id l = 0%nat /\ p_inv B g /\
       fifo q done.*1 = (done.*2, (qcontents 0 (hist (subs g))).*2))); [|done].
    intros done o g l (Hl & HI & Hf).
    assert (Hsnoc : forall r q', fifo_step (qcontents 0 (hist (subs g))).*2 o = (r, q') ->
      fifo q ((done ++ [(o, r)]).*1) = ((done ++ [(o, r)]).*2, q')).
    { intros r q' E. rewrite !fmap_app. cbn [fmap list_fmap fst snd]. by rewrite fifo_snoc, Hf, E. }
    destruct o as [k v|]; cbn [exec_op queue_add queue_remove].
    + apply (insert_wp (alone B) 0 Hs); [done|done|]. intros p g' l' Hl' [(HI' & _) Hh].
      split; [done|split; [done|]]. apply Hsnoc. rewrite (Hh still).
      cbn [fmap list_fmap app qcontents]. by rewrite decide_True, fmap_app.
    + apply (delete_wp (alone B) 0 Hs); [done|done|..].
      * intros obs g' l' Hl' [(HI' & _) Hh] Hobs. rewrite (Hobs still) in Hh.
        split; [done|split; [done|]]. apply Hsnoc. specialize (Hh still). cbn [replicate fmap list_fmap app] in Hh.
        pose proof HI' as [_ (_&_&_&_&_&_&Hlegal&_)]. rewrite Hh in Hlegal |- *. cbn [qlegal qcontents] in Hlegal |- *.
        by destruct Hlegal as [-> _].
      * intros obs p v g' l' Hl' [(HI' & _) Hh] Hobs. rewrite (Hobs still) in Hh.
        split; [done|split; [done|]]. apply Hsnoc. specialize (Hh still). cbn [replicate fmap list_fmap app] in Hh.
        pose proof HI' as [_ (_&_&_&_&_&_&Hlegal&_)]. rewrite Hh in Hlegal |- *. cbn [qlegal qcontents] in Hlegal |- *. rewrite decide_True by done.
        destruct Hlegal as [Hhd _]. destruct (qcontents 0 (hist (subs g))) as [|[k' v'] q']; [done|].
        cbn in Hhd. by injection Hhd as -> ->.
  - cbn [app] in Hf. rewrite fst_zip, snd_zip in Hf by lia. rewrite Hf. cbn [fst snd].
    exists n, g, l. split; [done|]. rewrite length_fmap. intros Hsz.
    destruct (alone_run B queue_size (fun r _ _ => r = Z.of_nat (length (qcontents 0 (hist (subs g))))) g l)
      as (n' & r & g' & l' & Hrun' & -> & _); [done| |by exists n', g', l'].
    by apply queue_size_wp.
Qed.
End theorems.

(** ** Concrete executions: two threads *)

#[local] Instance example_allocator : Allocator (qnode_of unit) := bump_allocator (qnode_of unit).
Definition example_ops : list (list op) := [[Enqueue 1 10; Dequeue; Dequeue]; [Dequeue; Enqueue 2 20]].
Definition example_final (n : nat) : cfg state (tls unit) (list Z) :=
  exec (mkCfg (queue_new 0 0) (clients exec_op example_ops (tls0 tt <$> seq 0 2)))
    (mjoin (replicate n [0; 1]%nat)).

Example ms_queue_example_finishes :
  (fun pl => match pl.1 with Ret rs => Some rs | _ => None end) <$> pool (example_final 60)
    = [Some [1; 10; 20]; Some [0; 1]].
Proof. vm_compute. reflexivity. Qed.

Lemma ms_queue_linearizable_witness :
  explains 1 [(Enqueue 1 10, 1); (Dequeue, 10); (Dequeue, 20)]
    (qevents_of 0 (hist (subs (mem (example_final 60))))).
Proof.
  refine (proj2 (proj2 (proj2 (ms_queue_linearizable 0 0 example_ops (tls0 tt <$> seq 0 2)
    (mjoin (replicate 60 [0; 1]%nat)) _ _)) 0%nat [1; 10; 20] _ [Enqueue 1 10; Dequeue; Dequeue] _ _)).
  - intros i l H. by apply tls0_lookup in H as ->.
  - vm_compute. reflexivity.
  - vm_compute. reflexivity.
  - reflexivity.
Defined.

(** After 12 steps a node is linked and the tail pointer lags behind. *)
Lemma ms_queue_obstruction_free_witness :
  exists q a, lookup_get 0 (mem (example_final 6)) = Some a /\
    qchain (heap (subs (mem (example_final 6)))) a q /\
  exists n g l,
    (forall m, (n <= m)%nat ->
       run m (run_ops exec_op [Dequeue; Enqueue 3 30]) (mem (example_final 6)) (tls0 tt 0)
         = Finished (fifo q [Dequeue; Enqueue 3 30]).1 g l) /\
    (Z.of_nat (length (fifo q [Dequeue; Enqueue 3 30]).2) < 2 ^ 31 ->
     exists n' g' l', forall m, (n' <= m)%nat ->
       run m queue_size g l = Finished (Z.of_nat (length (fifo q [Dequeue; Enqueue 3 30]).2)) g' l').
Proof.
  apply (ms_queue_obstruction_free 0 0 example_ops (tls0 tt <$> seq 0 2)
    (mjoin (replicate 6 [0; 1]%nat))).
  - intros i l H. by apply tls0_lookup in H as ->.
  - vm_compute. reflexivity.
  - reflexivity.
Defined.
