(* ===== verification/RandomQueues.v ===== *)
(** src/multi-queue_random-relaxed and src/queue-dra: [width] Michael-Scott
    queues without a window; an operation works on a sub-queue drawn at random,
    or, with [NUM_CHOICES], on the best of as many draws by the timestamps or
    counts of the nodes.  The two differ only in what an enqueue stores there. *)
From S2P Require Import Prelude Conc Random Thread StackHeap QueueHeap Shared SubQueues.

(** ** State *)

(** An entry of the arrays.  The nodes hold the timestamp, or count, next to
    their value. *)
Record index_t := mkIndex { node : Z }.

#[export] Instance index_eq_dec : EqDecision index_t.
Proof. solve_decision. Defined.

#[export] Instance index_desc : QDesc index_t :=
  {| qd_node := node; qd_put_ok _ _ := True; qd_get_ok _ _ := True |}.

(** [descriptor_t]: what [get_enqueue_index] and [get_dequeue_index] return. *)
Record descriptor_t := mkDesc { dnode : Z; index : Z }.

(** [mqueue_t] without the arrays. *)
Record mqueue_t := mkQueue { width : Z }.

Notation mqueues := (queues index_t Z).

(** ** Operations *)

Section code.
Context {W : Type} {A : Allocator (qnode_of Z)}.
Notation MT := (M W mqueues).
(** The timestamp of a new node, from the tail it is to be linked to; and
    [NUM_CHOICES]. *)
Context (stamp : Z -> MT Z) (num_choices : option Z).

Definition random_index (set : mqueue_t) : MT Z := Shared.random_index 64 (width set).

(** The timestamp is not initialised here; [enqueue] sets it. *)
Definition create_node (k v nxt : Z) : MT Z := alloc_node (mkQnodeOf nxt k v 0).

Definition enq_cae (i tail new_node : Z) : MT bool := cas_next i tail new_node.
Definition deq_cae (i p new : Z) : MT bool := cae_get i (mkIndex p) (mkIndex new).

Definition get_enqueue_index (n : Z) (set : mqueue_t) : MT descriptor_t :=
  let* index := random_index set in
  let* p := load_put node index in
  if p =? 0 then Ret (mkDesc p index)
  else
    while (fun '(i, index, p) =>
      if i <? n then
        let* index2 := random_index set in
        let* p2 := load_put node index2 in
        if p2 =? 0 then break (mkDesc p2 index2)
        else
          let* timestamp2 := load_node qtag p2 in
          let* timestamp := load_node qtag p in
          if timestamp2 <? timestamp then continue (i64 (i + 1), index2, p2)
          else continue (i64 (i + 1), index, p)
      else break (mkDesc p index)) (1, index, p).

Definition get_dequeue_index (n : Z) (set : mqueue_t) : MT descriptor_t :=
  let* index := random_index set in
  let* p := load_get node index in
  while (fun '(i, index, p) =>
    if i <? n then
      let* index2 := random_index set in
      let* p2 := load_get node index2 in
      let* nxt := load_next p in
      if nxt =? 0 then continue (i64 (i + 1), index2, p2)
      else
        let* nxt2 := load_next p2 in
        if nxt2 =? 0 then continue (i64 (i + 1), index, p)
        else
          let* timestamp2 := load_node qtag p2 in
          let* timestamp := load_node qtag p in
          if timestamp2 <? timestamp then continue (i64 (i + 1), index2, p2)
          else continue (i64 (i + 1), index, p)
    else break (mkDesc p index)) (1, index, p).

(** The choice at the head of both loops. *)
Definition choose (get_index : Z -> mqueue_t -> MT descriptor_t) (load_index : Z -> MT Z)
    (set : mqueue_t) : MT descriptor_t :=
  match num_choices with
  | Some n => get_index n set
  | None =>
      let* index := random_index set in
      let* p := load_index index in
      Ret (mkDesc p index)
  end.

Definition enqueue_body (set : mqueue_t) (new_node : Z) (_ : unit) : MT (unit + descriptor_t) :=
  let* d := choose get_enqueue_index (load_put node) set in
  let* ts := stamp (dnode d) in
  store_tag new_node ts ;;;
  let* nxt := load_next (dnode d) in
  if nxt =? 0 then
    let* ok := enq_cae (index d) (dnode d) new_node in
    if ok then break d
    else put (count_stat inc_put_cas_fail) ;;; continue tt
  else
    let* nxt := load_next (dnode d) in
    let* _ := cae_put (index d) (mkIndex (dnode d)) (mkIndex nxt) in
    put (count_stat inc_put_cas_fail) ;;; continue tt.

Definition enqueue (set : mqueue_t) (k v : Z) : MT Z :=
  let* new_node := create_node k v 0 in
  let* d := while (enqueue_body set new_node) tt in
  let* _ := cae_put (index d) (mkIndex (dnode d)) (mkIndex new_node) in
  Ret 1.

Definition dequeue_body (set : mqueue_t) (_ : unit) : MT (unit + Z) :=
  let* d := choose get_dequeue_index (load_get node) set in
  let head := dnode d in
  let* tail := load_put node (index d) in
  if head =? tail then
    let* nxt := load_head_next (index d) head in
    if nxt =? 0 then
      put (count_stat inc_null) ;;;
      break 0
    else
      let* nxt := load_next tail in
      let* _ := cae_put (index d) (mkIndex tail) (mkIndex nxt) in
      continue tt
  else
    let* nxt := load_next head in
    let* ok := deq_cae (index d) head nxt in
    if ok then
      let* nxt := load_next head in
      let* val := load_val nxt in
      break val
    else continue tt.

Definition dequeue (set : mqueue_t) : MT Z := while (dequeue_body set) tt.

Definition queue_size (set : mqueue_t) : MT Z := queues_size (width set).

Definition exec_op (set : mqueue_t) (o : op) : MT Z :=
  match o with Enqueue k v => enqueue set k v | Dequeue => dequeue set end.

(** The nodes of [create_queue] are initialised only in their [next]; [junk] is
    what the rest holds. *)
Definition create_queue (junk : nat -> qnode_of Z) (width : Z) (w : W) : mqueue_t * shared W mqueues :=
  (mkQueue width, mkShared w (created junk mkIndex mkIndex (Z.to_nat width))).
End code.

(** multi-queue_random-relaxed: [getticks()] reads the cycle counter.  The
    window is the number of readings taken; the [n]-th reading is [ticks n],
    whatever that is. *)
Definition stamp_multi (ticks : nat -> Z) (p : Z) : M nat mqueues Z :=
  Act (fun g l => Some (ticks (window g), set_window (S (window g)) g, l)) Ret.

(** queue-dra: one more than the count of the tail. *)
Definition stamp_dra (p : Z) : M unit mqueues Z :=
  let* count := load_node qtag p in
  Ret (u64 (count + 1)).

(** src/queue-dra: its functions are those above, with its counts. *)
Module Dra.
Section code.
Context {A : Allocator (qnode_of Z)}.
Notation MT := (M unit mqueues).

Definition random_index : mqueue_t -> MT Z := RandomQueues.random_index.
Definition create_node : Z -> Z -> Z -> MT Z := RandomQueues.create_node.
Definition enq_cae : Z -> Z -> Z -> MT bool := RandomQueues.enq_cae.
Definition deq_cae : Z -> Z -> Z -> MT bool := RandomQueues.deq_cae.
Definition get_enqueue_index : Z -> mqueue_t -> MT descriptor_t := RandomQueues.get_enqueue_index.
Definition get_dequeue_index : Z -> mqueue_t -> MT descriptor_t := RandomQueues.get_dequeue_index.
Definition enqueue (num_choices : option Z) : mqueue_t -> Z -> Z -> MT Z :=
  RandomQueues.enqueue stamp_dra num_choices.
Definition dequeue (num_choices : option Z) : mqueue_t -> MT Z := RandomQueues.dequeue num_choices.
Definition queue_size : mqueue_t -> MT Z := RandomQueues.queue_size.
Definition create_queue (junk : nat -> qnode_of Z) (width : Z) : mqueue_t * shared unit mqueues :=
  RandomQueues.create_queue junk width tt.
Definition exec_op (num_choices : option Z) (set : mqueue_t) (o : op) : MT Z :=
  match o with Enqueue k v => enqueue num_choices set k v | Dequeue => dequeue num_choices set end.
End code.
End Dra.

(** ** Choices *)

Section choices.
Context {W : Type} (key : shared W mqueues -> Z -> option Z).
Implicit Types (g : shared W mqueues).

(** Sub-queue [i] is the best of [js]: its key is the smallest, where those
    without one do not count if any has one. *)
Definition best g (js : list Z) (i : Z) : Prop :=
  i ∈ js /\
  match key g i with
  | None => forall j, j ∈ js -> key g j = None
  | Some ts => forall j ts', j ∈ js -> key g j = Some ts' -> ts <= ts'
  end.

Lemma best_one g r : best g [r] r.
Proof.
  split; [set_solver|]. destruct (key g r) as [ts|] eqn:E.
  - intros j ts' Hj%list_elem_of_singleton E'. subst j. rewrite E in E'. injection E' as <-. lia.
  - intros j Hj%list_elem_of_singleton. by subst j.
Qed.

Lemma best_first g js index r : best g js index -> key g index = None -> best g (js ++ [r]) r.
Proof.
  intros [Hin Hb] E. rewrite E in Hb. split; [set_solver|]. destruct (key g r) as [ts|] eqn:E2.
  - intros j ts' [Hj|Hj%list_elem_of_singleton]%elem_of_app E'; [specialize (Hb j Hj); congruence|].
    subst j. rewrite E2 in E'. injection E' as <-. lia.
  - intros j [Hj|Hj%list_elem_of_singleton]%elem_of_app; [by apply Hb|]. by subst j.
Qed.

Lemma best_skip g js index r ts :
  best g js index -> key g index = Some ts -> key g r = None -> best g (js ++ [r]) index.
Proof.
  intros [Hin Hb] E E2. split; [set_solver|]. rewrite E in *.
  intros j ts' [Hj|Hj%list_elem_of_singleton]%elem_of_app E'; [by eapply Hb|]. congruence.
Qed.

Lemma best_snoc g js index r ts ts2 :
  best g js index -> key g index = Some ts -> key g r = Some ts2 ->
  best g (js ++ [r]) (if ts2 <? ts then r else index).
Proof.
  intros [Hin Hb] E E2. rewrite E in Hb. destruct (Z.ltb_spec ts2 ts) as [Hlt|Hge].
  - split; [set_solver|]. rewrite E2. intros j ts' [Hj|Hj%list_elem_of_singleton]%elem_of_app E'.
    + specialize (Hb j ts' Hj E'). lia.
    + subst j. rewrite E2 in E'. injection E' as <-. lia.
  - split; [set_solver|]. rewrite E. intros j ts' [Hj|Hj%list_elem_of_singleton]%elem_of_app E'.
    + by apply (Hb j ts' Hj).
    + subst j. rewrite E2 in E'. injection E' as <-. lia.
Qed.
End choices.

(** What an enqueue compares: the timestamps of the tails; and a dequeue:
    those of the heads that have a successor. *)
Definition tail_key {W} (g : shared W mqueues) (i : Z) : option Z :=
  d ← lookup_put i g; n ← lookup_node (node d) g; Some (qtag n).
Definition head_key {W} (g : shared W mqueues) (i : Z) : option Z :=
  d ← lookup_get i g; n ← lookup_node (node d) g;
  if qnext n =? 0 then None else Some (qtag n).

(** How many sub-queues are drawn. *)
Definition draws (num_choices : option Z) : nat :=
  match num_choices with Some n => Z.to_nat (Z.max 1 n) | None => 1%nat end.
Definition choices_ok (num_choices : option Z) : Prop :=
  forall n, num_choices = Some n -> n < 2 ^ 63.

(** ** The operations, for a thread among others and for one alone *)

Section operations.
Context {W : Type} {A : Allocator (qnode_of Z)} (tags : Z -> nat -> Z -> Prop).
#[local] Instance node_tags : QTag Z := {| tag_ok := tags |}.
Context (set : mqueue_t) (Hw : 0 < width set < 2 ^ 63).
Notation WP := (no_window (W := W)).
Notation B := (joint WP (qprot (width set) (2 ^ 62))).
Context (P : protocol (shared W mqueues)) (t : nat) {runs : Runs P B t}.
Notation still := (forall g g', p_rely P t g g' -> g' = g).
Notation mine g := (qevents_of t (hist (subs g))).
Implicit Types (g : shared W mqueues) (l : tls W).

Lemma mrely_trans g1 g2 g3 : p_rely P t g1 g2 -> p_rely P t g2 g3 -> p_rely P t g1 g3.
Proof. apply (rely_trans (P := P)). Qed.
Lemma mrely_pos g g' i k a : p_rely P t g g' -> at_pos (subs g) i k a -> at_pos (subs g') i k a.
Proof. apply (qrely_at_pos WP (width set) (2 ^ 62) P t). Qed.

Lemma mdraw (Q : Z -> shared W mqueues -> tls W -> Prop) g l :
  (forall r s, Random.random_index (width set) (seeds l) = Some (r, s) -> 0 <= r < width set -> Q r g (set_seeds s l)) ->
  wp P t (random_index set) Q g l.
Proof. intros HQ. by apply wp_shared_draw; [lia|]. Qed.

(** Both choices, over the pointers [look] at the positions [pos] that [load]
    reads, by [key]. *)
Section choosing.
Context (look : Z -> shared W mqueues -> option index_t) (pos : mqueues -> Z -> nat).
Context (load : Z -> M W mqueues Z) (key : shared W mqueues -> Z -> option Z).
Context (Hload : forall i (Q : Z -> shared W mqueues -> tls W -> Prop) g l,
  0 <= i < width set ->
  (forall g' p, p_rely P t g g' -> p_inv P g' -> look i g' = Some (mkIndex p) ->
     at_pos (subs g') i (pos (subs g') i) p -> Q p g' l) -> wp P t (load i) Q g l).
Context (Hpos : forall g g' i, p_rely P t g g' -> (pos (subs g) i <= pos (subs g') i)%nat).

(** The index is in range and the pointer was there; for a thread alone it
    still is, and the index is the best of those drawn from the seeds [s0]. *)
Definition chosen (k : nat) (s0 : seeds_t) g0 (d : descriptor_t) g l : Prop :=
  p_rely P t g0 g /\ p_inv P g /\ thread_id l = t /\ 0 <= index d < width set /\
  (exists p, at_pos (subs g) (index d) p (dnode d) /\ (p <= pos (subs g) (index d))%nat) /\
  (still -> look (index d) g = Some (mkIndex (dnode d)) /\
     exists js, drawn (width set) s0 js (seeds l) /\ Forall (fun j => 0 <= j < width set) js /\ length js = k /\
       best key g js (index d)).

(** The loop invariant of both functions. *)
Definition choice_loop (n : Z) (s0 : seeds_t) g0 (m : nat) '((i, index, p) : Z * Z * Z) g l : Prop :=
  chosen (Z.to_nat i) s0 g0 (mkDesc p index) g l /\ 1 <= i <= Z.max 1 n /\ m = Z.to_nat (n - i).

Lemma qchoice_exit n s0 g0 m i index p g l :
  choice_loop n s0 g0 m (i, index, p) g l -> n <= i -> chosen (draws (Some n)) s0 g0 (mkDesc p index) g l.
Proof. intros (Hc & Hi & _) Hge. unfold draws. by replace (Z.max 1 n) with i by lia. Qed.

(** Reading the pointer of a drawn sub-queue. *)
Lemma qchoice_start s0 g0 r p g l :
  drawn (width set) s0 [r] (seeds l) ->
  p_rely P t g0 g -> p_inv P g -> thread_id l = t -> 0 <= r < width set ->
  look r g = Some (mkIndex p) -> at_pos (subs g) r (pos (subs g) r) p -> chosen 1 s0 g0 (mkDesc p r) g l.
Proof.
  intros Hdr R HI Ht Hr E Hp. do 4 (split; [done|]). split; [by exists (pos (subs g) r)|].
  intros _. split; [done|]. exists [r]. split; [done|]. split; [by apply Forall_singleton|split; [done|apply best_one]].
Qed.

(** One more draw that does not change the choice, or does. *)
Lemma qchoice_next n s0 g0 i index p g1 l1 r s g2 p2 g3 index' p' :
  choice_loop n s0 g0 (Z.to_nat (n - i)) (i, index, p) g1 l1 -> i < n -> n < 2 ^ 63 ->
  Random.random_index (width set) (seeds l1) = Some (r, s) ->
  0 <= r < width set -> p_rely P t g1 g2 -> look r g2 = Some (mkIndex p2) ->
  at_pos (subs g2) r (pos (subs g2) r) p2 -> p_rely P t g2 g3 -> p_inv P g3 ->
  (index' = index /\ p' = p \/ index' = r /\ p' = p2) ->
  (still -> forall js, look index g3 = Some (mkIndex p) -> look r g3 = Some (mkIndex p2) ->
     best key g3 js index -> best key g3 (js ++ [r]) index') ->
  choice_loop n s0 g0 (Z.to_nat (n - (i + 1))) (i64 (i + 1), index', p') g3 (set_seeds s l1).
Proof.
  intros ((R & HI & Ht & Hi & (k & Hk & Hkp) & Hst) & Hin & _) Hlt Hn Er Hr R2 E2 Hp2 R3 I3 Hcase Hbest.
  cbn [dnode RandomQueues.index] in *. rewrite sign_small by lia.
  assert (R13 : p_rely P t g1 g3) by (by apply (mrely_trans g1 g2 g3)).
  split; [|split; [lia|done]].
  split; [by apply (mrely_trans g0 g1 g3)|]. do 2 (split; [done|]).
  cbn [dnode RandomQueues.index].
  split; [by destruct Hcase as [[-> _]|[-> _]]|]. split.
  - destruct Hcase as [[-> ->]|[-> ->]].
    + exists k. split; [by apply (mrely_pos g1 g3)|]. pose proof (Hpos g1 g3 index R13). lia.
    + exists (pos (subs g2) r). split; [by apply (mrely_pos g2 g3)|]. by apply Hpos.
  - intros Hs. destruct (Hst Hs) as (E & js & Hdr & Hjs & Hlen & Hb).
    rewrite (Hs _ _ R3) in *. rewrite (Hs _ _ R2) in *. split.
    + by destruct Hcase as [[-> ->]|[-> ->]].
    + exists (js ++ [r]). split; [by eapply drawn_snoc|]. split; [apply Forall_app; split; [done|by apply Forall_singleton]|].
      split; [rewrite length_app, Hlen; cbn; lia|]. by apply Hbest.
Qed.

Lemma choose_one_wp (Q : descriptor_t -> shared W mqueues -> tls W -> Prop) g l :
  thread_id l = t ->
  (forall d g' l', chosen 1 (seeds l) g d g' l' -> Q d g' l') ->
  wp P t (let* index := random_index set in let* p := load index in Ret (mkDesc p index)) Q g l.
Proof.
  intros Ht HQ. wp_local. apply mdraw. intros r s Er Hr. pose proof (drawn_one _ _ _ _ Er) as Hd1. wp_local. apply Hload; [done|].
  intros g1 p R1 I1 E1 Hp1. wp_local. apply HQ. by apply qchoice_start.
Qed.
End choosing.

Notation chosen_put := (chosen lookup_put tail_pos tail_key).
Notation chosen_get := (chosen lookup_get head_pos head_key).

Lemma mload_put i (Q : Z -> shared W mqueues -> tls W -> Prop) g l :
  0 <= i < width set ->
  (forall g' p, p_rely P t g g' -> p_inv P g' -> lookup_put i g' = Some (mkIndex p) ->
     at_pos (subs g') i (tail_pos (subs g') i) p -> Q p g' l) ->
  wp P t (load_put node i) Q g l.
Proof.
  intros Hi HQ. apply (wp_qload_put WP (width set) (2 ^ 62) P t); [done|].
  intros g' [p] R' I' E Hp _. by apply HQ.
Qed.
Lemma mload_get i (Q : Z -> shared W mqueues -> tls W -> Prop) g l :
  0 <= i < width set ->
  (forall g' p, p_rely P t g g' -> p_inv P g' -> lookup_get i g' = Some (mkIndex p) ->
     at_pos (subs g') i (head_pos (subs g') i) p -> Q p g' l) ->
  wp P t (load_get node i) Q g l.
Proof.
  intros Hi HQ. apply (wp_qload_get WP (width set) (2 ^ 62) P t); [done|].
  intros g' [p] R' I' E Hp _. by apply HQ.
Qed.

(** Loading a field of a node that a pointer has been at. *)
Lemma mload_node {R} (f : qnode_of Z -> R) i k a (Q : R -> shared W mqueues -> tls W -> Prop) g l :
  0 <= i < width set -> at_pos (subs g) i k a ->
  (forall g' n, p_rely P t g g' -> p_inv P g' -> lookup_node a g' = Some n ->
     Q (f n) g' l) ->
  wp P t (load_node f a) Q g l.
Proof.
  intros Hi Hk HQ. apply (wp_qload_node WP (width set) (2 ^ 62) P t f i k); [done..|].
  intros g' n R' I' En _ _. by apply HQ.
Qed.

Lemma pos_nonnull g i k a : p_inv P g -> 0 <= i < width set -> at_pos (subs g) i k a -> a <> 0.
Proof.
  intros HI Hi Hk.
  by destruct (at_pos_node (width set) (subs g) i k a (qinv WP (width set) (2 ^ 62) P t g HI) Hi Hk).
Qed.

Lemma get_enqueue_index_wp n (Q : descriptor_t -> shared W mqueues -> tls W -> Prop) g l :
  thread_id l = t -> n < 2 ^ 63 ->
  (forall d g' l', chosen_put (draws (Some n)) (seeds l) g d g' l' -> Q d g' l') ->
  wp P t (get_enqueue_index n set) Q g l.
Proof.
  intros Ht Hn HQ. unfold get_enqueue_index. wp_local. apply mdraw. intros r s Er Hr. pose proof (drawn_one _ _ _ _ Er) as Hd1. wp_local.
  apply mload_put; [done|]. intros g1 p R1 I1 E1 Hp1.
  rewrite (proj2 (Z.eqb_neq _ _) (pos_nonnull g1 r _ p I1 Hr Hp1)).
  eapply (wp_while P t _ _ _ _ (fun m '(i, index, p) g l0 =>
    choice_loop lookup_put tail_pos tail_key n (seeds l) _ m (i, index, p) g l0)).
  { split; [by apply (qchoice_start lookup_put tail_pos tail_key (seeds l) g r p)|]. split; [lia|done]. }
  intros m [[i index] q] g2 l2 HJ.
  pose proof HJ as ((R02 & I2 & Ht2 & Hi2 & (k & Hk & _) & _) & Hin & ->). cbn [dnode RandomQueues.index] in *.
  destruct (Z.ltb_spec i n) as [Hlt|Hge]; [|wp_local; apply HQ; by eapply qchoice_exit].
  wp_local. apply mdraw. intros r2 s2 Er2 Hr2. wp_local.
  apply mload_put; [done|]. intros g3 p2 R3 I3 E3 Hp3.
  rewrite (proj2 (Z.eqb_neq _ _) (pos_nonnull g3 r2 _ p2 I3 Hr2 Hp3)). wp_local.
  apply (mload_node qtag r2 (tail_pos (subs g3) r2)); [done|done|]. intros g4 n2 R4 I4 En2. wp_local.
  assert (R24 : p_rely P t g2 g4) by (by apply (mrely_trans g2 g3 g4)).
  apply (mload_node qtag index k); [done|by apply (mrely_pos g2 g4)|]. intros g5 n1 R5 I5 En1.
  assert (Hbest : still -> forall js, lookup_put index g5 = Some (mkIndex q) ->
    lookup_put r2 g5 = Some (mkIndex p2) -> best tail_key g5 js index ->
    best tail_key g5 (js ++ [r2]) (if qtag n2 <? qtag n1 then r2 else index)).
  { intros Hs js Eq Ep Hb. rewrite <- (Hs _ _ R5) in En2. apply best_snoc; [done|..]; unfold tail_key.
    - rewrite Eq. cbn [mbind option_bind node]. by rewrite En1.
    - rewrite Ep. cbn [mbind option_bind node]. by rewrite En2. }
  assert (R35 : p_rely P t g3 g5) by (by apply (mrely_trans g3 g4 g5)).
  destruct (qtag n2 <? qtag n1); wp_local; (exists (Z.to_nat (n - (i + 1))); split; [lia|]).
  - eapply (qchoice_next lookup_put tail_pos tail_key
      (fun g g' i => qrely_tail WP (width set) (2 ^ 62) P t g g' i)
      n (seeds l) g i index q g2 l2 r2 s2 g3 p2 g5); try done. by right.
  - eapply (qchoice_next lookup_put tail_pos tail_key
      (fun g g' i => qrely_tail WP (width set) (2 ^ 62) P t g g' i)
      n (seeds l) g i index q g2 l2 r2 s2 g3 p2 g5); try done. by left.
Qed.

Lemma get_dequeue_index_wp n (Q : descriptor_t -> shared W mqueues -> tls W -> Prop) g l :
  thread_id l = t -> n < 2 ^ 63 ->
  (forall d g' l', chosen_get (draws (Some n)) (seeds l) g d g' l' -> Q d g' l') ->
  wp P t (get_dequeue_index n set) Q g l.
Proof.
  intros Ht Hn HQ. unfold get_dequeue_index. wp_local. apply mdraw. intros r s Er Hr. pose proof (drawn_one _ _ _ _ Er) as Hd1. wp_local.
  apply mload_get; [done|]. intros g1 p R1 I1 E1 Hp1.
  assert (Hmono := fun g g' i => qrely_head WP (width set) (2 ^ 62) P t g g' i).
  eapply (wp_while P t _ _ _ _ (fun m '(i, index, p) g l0 =>
    choice_loop lookup_get head_pos head_key n (seeds l) _ m (i, index, p) g l0)).
  { split; [by apply (qchoice_start lookup_get head_pos head_key (seeds l) g r p)|]. split; [lia|done]. }
  intros m [[i index] q] g2 l2 HJ.
  pose proof HJ as ((R02 & I2 & Ht2 & Hi2 & (k & Hk & _) & _) & Hin & ->). cbn [dnode RandomQueues.index] in *.
  destruct (Z.ltb_spec i n) as [Hlt|Hge]; [|wp_local; apply HQ; by eapply qchoice_exit].
  wp_local. apply mdraw. intros r2 s2 Er2 Hr2. wp_local.
  apply mload_get; [done|]. intros g3 p2 R3 I3 E3 Hp3. wp_local.
  apply (mload_node qnext index k); [done|by apply (mrely_pos g2 g3)|]. intros g4 n1 R4 I4 En1.
  assert (Hk1 : forall g, lookup_get index g = Some (mkIndex q) -> lookup_node q g = Some n1 ->
    head_key g index = if qnext n1 =? 0 then None else Some (qtag n1)).
  { intros g' Eq En. unfold head_key. rewrite Eq. cbn [mbind option_bind node]. by rewrite En. }
  assert (R34 : p_rely P t g3 g4) by done.
  destruct (Z.eqb_spec (qnext n1) 0) as [E0|Hnz].
  { wp_local. exists (Z.to_nat (n - (i + 1))). split; [lia|].
    eapply (qchoice_next lookup_get head_pos head_key Hmono n (seeds l) g i index q g2 l2 r2 s2 g3 p2 g4); try done; [by right|].
    intros Hs js Eq Ep Hb. eapply best_first; [done|]. by apply Hk1. }
  wp_local. apply (mload_node qnext r2 (head_pos (subs g3) r2)); [done|by apply (mrely_pos g3 g4)|].
  intros g5 n2 R5 I5 En2.
  assert (R35 : p_rely P t g3 g5) by (by apply (mrely_trans g3 g4 g5)).
  assert (Hk2 : forall g, lookup_get r2 g = Some (mkIndex p2) -> lookup_node p2 g = Some n2 ->
    head_key g r2 = if qnext n2 =? 0 then None else Some (qtag n2)).
  { intros g' Eq En. unfold head_key. rewrite Eq. cbn [mbind option_bind node]. by rewrite En. }
  destruct (Z.eqb_spec (qnext n2) 0) as [E0|Hnz2].
  { wp_local. exists (Z.to_nat (n - (i + 1))). split; [lia|].
    eapply (qchoice_next lookup_get head_pos head_key Hmono n (seeds l) g i index q g2 l2 r2 s2 g3 p2 g5); try done; [by left|].
    intros Hs js Eq Ep Hb. rewrite <- (Hs _ _ R5) in En1.
    eapply best_skip; [done|by apply Hk1|by apply Hk2]. }
  wp_local. apply (mload_node qtag r2 (head_pos (subs g3) r2)); [done|by apply (mrely_pos g3 g5)|].
  intros g6 n2' R6 I6 En2'. wp_local.
  assert (R36 : p_rely P t g3 g6) by (by apply (mrely_trans g3 g5 g6)).
  assert (R26 : p_rely P t g2 g6) by (by apply (mrely_trans g2 g3 g6)).
  apply (mload_node qtag index k); [done|by apply (mrely_pos g2 g6)|]. intros g7 n1' R7 I7 En1'.
  assert (R37 : p_rely P t g3 g7) by (by apply (mrely_trans g3 g6 g7)).
  assert (Hbest : still -> forall js, lookup_get index g7 = Some (mkIndex q) ->
    lookup_get r2 g7 = Some (mkIndex p2) -> best head_key g7 js index ->
    best head_key g7 (js ++ [r2]) (if qtag n2' <? qtag n1' then r2 else index)).
  { intros Hs js Eq Ep Hb.
    assert (E : g7 = g4 /\ g7 = g5 /\ g7 = g6).
    { rewrite (Hs _ _ R7), (Hs _ _ R6), (Hs _ _ R5). done. }
    destruct E as (E4 & E5 & E6). rewrite <- E4 in En1. rewrite <- E5 in En2. rewrite <- E6 in En2'.
    assert (n1' = n1) as -> by congruence. assert (n2' = n2) as -> by congruence.
    eapply best_snoc; [done|by apply Hk1|by apply Hk2]. }
  destruct (qtag n2' <? qtag n1'); wp_local; (exists (Z.to_nat (n - (i + 1))); split; [lia|]).
  - eapply (qchoice_next lookup_get head_pos head_key Hmono n (seeds l) g i index q g2 l2 r2 s2 g3 p2 g7); try done. by right.
  - eapply (qchoice_next lookup_get head_pos head_key Hmono n (seeds l) g i index q g2 l2 r2 s2 g3 p2 g7); try done. by left.
Qed.

Lemma choose_put_wp num_choices (Q : descriptor_t -> shared W mqueues -> tls W -> Prop) g l :
  choices_ok num_choices -> thread_id l = t ->
  (forall d g' l', chosen_put (draws num_choices) (seeds l) g d g' l' -> Q d g' l') ->
  wp P t (choose num_choices get_enqueue_index (load_put node) set) Q g l.
Proof.
  intros Hn Ht HQ. unfold choose. destruct num_choices as [n|].
  - apply get_enqueue_index_wp; [done|by apply Hn|done].
  - by apply (choose_one_wp lookup_put tail_pos (load_put node) tail_key mload_put).
Qed.

Lemma choose_get_wp num_choices (Q : descriptor_t -> shared W mqueues -> tls W -> Prop) g l :
  choices_ok num_choices -> thread_id l = t ->
  (forall d g' l', chosen_get (draws num_choices) (seeds l) g d g' l' -> Q d g' l') ->
  wp P t (choose num_choices get_dequeue_index (load_get node) set) Q g l.
Proof.
  intros Hn Ht HQ. unfold choose. destruct num_choices as [n|].
  - apply get_dequeue_index_wp; [done|by apply Hn|done].
  - by apply (choose_one_wp lookup_get head_pos (load_get node) head_key mload_get).
Qed.

(** *** Timestamps *)

(** A timestamp computed from the [k]-th node suits the next one. *)
Definition stamp_ok (stamp : Z -> M W mqueues Z) : Prop :=
  forall i k p (Q : Z -> shared W mqueues -> tls W -> Prop) g l,
  0 <= i < width set -> p_inv P g -> at_pos (subs g) i k p ->
  (forall ts g1 g', p_rely P t g g1 -> p_inv P g' -> subs g' = subs g1 -> tags i (S k) ts -> Q ts g' l) ->
  wp P t (stamp p) Q g l.

Context (alone_still : p_total P = true -> still).
Notation did_op := (did_op P t).

(** No tail pointer lags behind; a thread alone then never has to help. *)
Definition settled g : Prop :=
  forall i, 0 <= i < width set -> length (links_of (subs g) i) = S (tail_pos (subs g) i).

Lemma settled_eq g g' :
  links (subs g') = links (subs g) -> tails (subs g') = tails (subs g) -> settled g -> settled g'.
Proof. unfold settled, links_of, tail_pos. by intros -> ->. Qed.

(** [i] was chosen from a state with the history of [g]. *)
Definition chose_from (key : shared W mqueues -> Z -> option Z) (k : nat) (s s' : seeds_t) g i : Prop :=
  exists g1 js, p_inv P g1 /\ hist (subs g1) = hist (subs g) /\ (p_total P = true -> settled g1) /\
    drawn (width set) s js s' /\ Forall (fun j => 0 <= j < width set) js /\ length js = k /\ best key g1 js i.

Lemma chosen_from look pos key k s0 s1 g g0 d g1 l1 :
  chosen look pos key k s1 g d g1 l1 -> (p_total P = true -> s1 = s0) -> did_op [] g0 g -> p_total P = true ->
  (p_total P = true -> settled g) -> chose_from key k s0 (seeds l1) g0 (index d).
Proof.
  intros (R & HI & _ & _ & _ & Hst) Hsd [_ Hh] Htot Hset. pose proof (alone_still Htot) as Hs.
  destruct (Hst Hs) as (_ & js & Hdr & Hjs & Hlen & Hb). rewrite (Hsd Htot) in Hdr.
  exists g1, js. split; [done|]. rewrite (Hs _ _ R). split; [by apply Hh|]. split; [exact Hset|].
  by rewrite (Hs _ _ R) in *.
Qed.

(** While the new node is the thread's own. *)
Definition enqueue_loop (key v a : Z) (s0 : seeds_t) g0 g l : Prop :=
  thread_id l = t /\ (p_total P = true -> seeds l = s0) /\ p_inv P g /\ did_op [] g0 g /\ (p_total P = true -> settled g) /\
  exists x, owned t a (mkQnodeOf 0 key v x) g.

(** After the link. *)
Definition enqueued num_choices (v a : Z) (s0 : seeds_t) g0 (d : descriptor_t) g l : Prop :=
  thread_id l = t /\ 0 <= index d < width set /\ exists k,
  did_op [Enq (index d) (Z.of_nat (S k)) v] g0 g /\
  at_pos (subs g) (index d) k (dnode d) /\ at_pos (subs g) (index d) (S k) a /\
  (p_total P = true -> chose_from tail_key (draws num_choices) s0 (seeds l) g0 (index d)) /\
  (still -> lookup_put (index d) g = Some (mkIndex (dnode d))) /\
  (p_total P = true -> forall i, 0 <= i < width set ->
      length (links_of (subs g) i) = (tail_pos (subs g) i + if decide (index d = i) then 2 else 1)%nat).

(** A thread alone does not need another iteration. *)
Lemma not_needed (m : nat) g : (p_total P = true -> settled g) -> (still -> settled g -> False) ->
  p_total P = true -> (m < m)%nat.
Proof. intros Hs H Ht. destruct (H (alone_still Ht) (Hs Ht)). Qed.

Lemma qenqueue_body_wp stamp num_choices key v a s0 g0 m
    (Q : unit + descriptor_t -> shared W mqueues -> tls W -> Prop) g l :
  stamp_ok stamp -> choices_ok num_choices -> enqueue_loop key v a s0 g0 g l ->
  (forall d g' l', enqueued num_choices v a s0 g0 d g' l' -> Q (inr d) g' l') ->
  (forall g' l', enqueue_loop key v a s0 g0 g' l' -> (p_total P = true -> m < m)%nat -> Q (inl tt) g' l') ->
  wp P t (enqueue_body stamp num_choices set a tt) Q g l.
Proof.
  intros Hstamp Hn (Ht & Hsd & HI & Hd & Hset & x & Ho) HQ HQ'. unfold enqueue_body. wp_local.
  apply choose_put_wp; [done|done|]. intros [p i] g1 l1 Hc.
  pose proof Hc as (R1 & I1 & Ht1 & Hi & (k & Hk & Hkt) & Hst). cbn [dnode RandomQueues.index] in *. wp_local.
  apply (Hstamp i k); [done|done|done|]. intros ts g2 g3 R2 I3 E3 Hts. wp_local.
  assert (R02 : p_rely P t g g2) by (by apply (mrely_trans g g1 g2)).
  assert (D3 : did_op [] g0 g3).
  { pose proof (did_op_rely WP (width set) (2 ^ 62) P t [] g0 g g2 Hd R02) as D2.
    destruct Hd as [(_ & Hev & Hm) Hh]. pose proof (qevolves WP (width set) (2 ^ 62) P t g g2 R02).
    split; [split; [done|split]|].
    - rewrite E3. by eapply evolves_trans.
    - rewrite E3. rewrite (qmine WP (width set) (2 ^ 62) P t g g2 R02). exact Hm.
    - intros Hs. rewrite E3, (Hs _ _ R02). by apply Hh. }
  assert (Ho3 : owned t a (mkQnodeOf 0 key v x) g3).
  { destruct (owned_rely WP (width set) (2 ^ 62) P t a _ g g2 R02 Ho) as [Pa Ea].
    unfold owned, lookup_node in *. by rewrite E3. }
  apply (wp_qstore_tag WP (width set) (2 ^ 62) P t a (mkQnodeOf 0 key v x) ts); [exact Ho3|].
  intros g4 mm R4 I4 g5 I5 He5 Ho5. cbn [qnext qkey qval] in Ho5. wp_local.
  assert (D5 : did_op [] g0 g5).
  { apply (did_op_step WP (width set) (2 ^ 62) P t [] [] g0 g3 g4 g5 D3 R4); [by split|done]. }
  assert (Hk5 : at_pos (subs g5) i k p).
  { eapply at_pos_evolves; [exact He5|]. apply (mrely_pos g3 g4 _ _ _ R4).
    rewrite E3. by apply (mrely_pos g1 g2). }
  assert (Hkt5 : (k <= tail_pos (subs g5) i)%nat).
  { pose proof (ev_tail _ _ He5 i). pose proof (qrely_tail WP (width set) (2 ^ 62) P t g3 g4 i R4).
    pose proof (qrely_tail WP (width set) (2 ^ 62) P t g1 g2 i R2). rewrite E3 in *. lia. }
  assert (Hsame : still -> put_array (subs g5) = put_array (subs g1) /\
    links (subs g5) = links (subs g) /\ tails (subs g5) = tails (subs g)).
  { intros Hs. unfold g5. cbn [subs set_subs with_heap links tails put_array].
    rewrite (Hs _ _ R4), E3, (Hs _ _ R2), (Hs _ _ R1). done. }
  assert (Hset5 : p_total P = true -> settled g5).
  { intros Htot. destruct (Hsame (alone_still Htot)) as (_ & El & Et).
    by apply (settled_eq g g5 El Et), Hset. }
  assert (Hlook5 : still -> lookup_put i g5 = Some (mkIndex p)).
  { intros Hs. unfold lookup_put. destruct (Hsame Hs) as [-> _]. by apply Hst. }
  assert (Htail5 : still -> tail_pos (subs g5) i = k).
  { intros Hs. pose proof (qinv WP (width set) (2 ^ 62) P t g5 I5) as HI5.
    pose proof HI5 as (_&_&_&_&_&_&_&H). destruct (H i Hi) as (dp & dg & []).
    pose proof (Hlook5 Hs) as E. unfold lookup_put in E. assert (dp = mkIndex p) as -> by congruence.
    by eapply at_pos_inj. }
  assert (Hretry : forall g' st, did_op [] g0 g' -> owned t a (mkQnodeOf 0 key v ts) g' ->
    (p_total P = true -> settled g') -> (still -> settled g5 -> False) ->
    Q (inl tt) g' (count_stat st l1)).
  { intros g' st D' O' S' Hno. apply HQ'.
    - split; [done|split; [|split; [apply D'|split; [done|split; [done|by exists ts]]]]].
      intros Htot. destruct (Hno (alone_still Htot) (Hset5 Htot)).
    - by apply (not_needed m g5). }
  apply (wp_qload_next WP (width set) (2 ^ 62) P t i k); [done|done|..].
  - intros g6 R6 I6 Hlen6. cbn [Z.eqb]. wp_local.
    apply (wp_cas_next WP (width set) (2 ^ 62) P t i k p a (mkQnodeOf 0 key v ts)); try done.
    + by apply (mrely_pos g5 g6).
    + pose proof (qrely_tail WP (width set) (2 ^ 62) P t g5 g6 i R6). lia.
    + by apply (owned_rely WP (width set) (2 ^ 62) P t a _ g5 g6).
    + intros g7 g8 R7 D8 E8 Hlen7 Ha8 Htl7. wp_local. apply HQ.
      assert (R57 : p_rely P t g5 g7) by (by apply (mrely_trans g5 g6 g7)).
      split; [done|split; [done|]]. exists k. cbn [dnode RandomQueues.index].
      split; [|split; [|split; [done|split; [|split]]]].
      * apply (did_op_step WP (width set) (2 ^ 62) P t _ [] g0 g5 g7 g8 D5 R57 D8).
        intros _. rewrite E8. cbn [linked hist]. by rewrite Hlen7.
      * destruct D8 as (_ & He & _). eapply at_pos_evolves; [exact He|]. by apply (mrely_pos g5 g7).
      * intros Htot. by apply (chosen_from _ _ _ _ _ _ g g0 _ g1 l1 Hc Hsd Hd Htot Hset).
      * intros Hs. unfold lookup_put. rewrite E8, (Hs _ _ R57). by apply Hlook5.
      * intros Htot j Hj. rewrite E8, (alone_still Htot _ _ R57).
        rewrite (links_of_linked (width set)); [|by apply (qinv WP (width set) (2 ^ 62) P t)|done].
        change (tail_pos (linked t i p a _ (subs g5)) j) with (tail_pos (subs g5) j).
        pose proof (Hset5 Htot j Hj) as Ej. destruct (decide (i = j)) as [->|Hne].
        -- rewrite decide_True by done. rewrite length_app. cbn [length]. lia.
        -- rewrite decide_False by lia. lia.
    + intros g7 R7 I7 Hlt. wp_locals.
      assert (R57 : p_rely P t g5 g7) by (by apply (mrely_trans g5 g6 g7)).
      apply Hretry.
      * by apply (did_op_rely WP (width set) (2 ^ 62) P t [] g0 g5 g7).
      * by apply (owned_rely WP (width set) (2 ^ 62) P t a _ g5 g7).
      * intros Htot. rewrite (alone_still Htot _ _ R57). by apply Hset5.
      * intros Hs Hse. rewrite (Hs _ _ R57) in Hlt. rewrite (Hs _ _ R6) in Hlen6. lia.
  - intros c g6 R6 I6 Hc0 Hc6. rewrite (proj2 (Z.eqb_neq _ _) Hc0). wp_local.
    apply (wp_qload_next_known WP (width set) (2 ^ 62) P t i k p c); [done|by apply (mrely_pos g5 g6)|done|].
    intros g7 R7 I7. wp_local.
    assert (R57 : p_rely P t g5 g7) by (by apply (mrely_trans g5 g6 g7)).
    assert (Hno : still -> settled g5 -> False).
    { intros Hs Hse. apply lookup_lt_Some in Hc6. rewrite (Hs _ _ R6), (Hse i Hi), (Htail5 Hs) in Hc6. lia. }
    apply (wp_cae_put WP (width set) (2 ^ 62) P t i k); try done.
    + by apply (mrely_pos g5 g7).
    + by apply (mrely_pos g6 g7).
    + intros g8 R8 I8 E8 Htl8 g9 I9 He9 Htl9. wp_locals.
      assert (R58 : p_rely P t g5 g8) by (by apply (mrely_trans g5 g7 g8)).
      apply Hretry; [| | |exact Hno].
      * apply (did_op_step WP (width set) (2 ^ 62) P t [] [] g0 g5 g8 g9 D5 R58); [by split|done].
      * by destruct (owned_rely WP (width set) (2 ^ 62) P t a _ g5 g8 R58 Ho5).
      * intros Htot. destruct (Hno (alone_still Htot) (Hset5 Htot)).
    + intros g8 R8 I8 Hne. wp_locals.
      assert (R58 : p_rely P t g5 g8) by (by apply (mrely_trans g5 g7 g8)).
      apply Hretry; [| | |exact Hno].
      * by apply (did_op_rely WP (width set) (2 ^ 62) P t [] g0 g5 g8).
      * by apply (owned_rely WP (width set) (2 ^ 62) P t a _ g5 g8).
      * intros Htot. destruct (Hno (alone_still Htot) (Hset5 Htot)).
Qed.

(** [enqueue] returns 1 after exactly one [Enq] of its value. *)
Lemma qenqueue_wp stamp num_choices key v (Q : Z -> shared W mqueues -> tls W -> Prop) g l :
  stamp_ok stamp -> choices_ok num_choices -> thread_id l = t -> p_inv P g ->
  (p_total P = true -> settled g) ->
  (forall i k g' l', thread_id l' = t -> 0 <= i < width set -> did_op [Enq i k v] g g' ->
     (p_total P = true -> chose_from tail_key (draws num_choices) (seeds l) (seeds l') g i) -> (p_total P = true -> settled g') ->
     Q 1 g' l') ->
  wp P t (enqueue stamp num_choices set key v) Q g l.
Proof.
  intros Hstamp Hn Ht HI Hset HQ. unfold enqueue, create_node. wp_local.
  apply (wp_qalloc WP (width set) (2 ^ 62) P t); [done|]. intros a g1 m R1 I1 g2 I2 He2 Ho2. wp_local.
  eapply (wp_while P t _ _ _ _ (fun _ _ => enqueue_loop key v a (seeds l) g) 0%nat).
  { split; [done|split; [done|split; [done|split; [|split; [|by exists 0]]]]].
    - apply (did_op_step WP (width set) (2 ^ 62) P t [] [] g g g1 g2); [|done| |done].
      + apply (did_op_nil WP (width set) (2 ^ 62) P t); [apply (rely_refl (P := P))|done].
      + by split.
    - intros Htot. apply (settled_eq g1 g2); [done..|]. rewrite (alone_still Htot _ _ R1). by apply Hset. }
  intros n [] g3 l3 HJ. apply (qenqueue_body_wp stamp num_choices key v a (seeds l) g n); [done|done|done|..].
  - intros d g4 l4 (Ht4 & Hi & k & D4 & Hk & Hk' & Hch & Hst & Hlag). wp_local.
    apply (wp_cae_put WP (width set) (2 ^ 62) P t (index d) k); try done.
    + intros g5 R5 I5 E5 Htl5 g6 I6 He6 Htl6. wp_locals. apply (HQ (index d) (Z.of_nat (S k))); try done.
      * apply (did_op_step WP (width set) (2 ^ 62) P t [] _ g g4 g5 g6 D4 R5); [by split|done].
      * intros Htot i Hi6. pose proof (alone_still Htot _ _ R5) as E. subst g5.
        specialize (Hlag Htot i Hi6).
        change (links_of (subs g6) i) with (links_of (subs g4) i).
        change (tail_pos (subs g6) i) with (tail_pos (with_put (index d) (mkIndex a) (subs g4)) i).
        rewrite (tail_pos_with_put (width set)); [|by apply (qinv WP (width set) (2 ^ 62) P t)|done].
        destruct (decide (index d = i)) as [->|Hne].
        -- rewrite decide_True by done. lia.
        -- rewrite decide_False by lia. lia.
    + intros g5 R5 I5 Hne. wp_locals. apply (HQ (index d) (Z.of_nat (S k))); try done.
      * by apply (did_op_rely WP (width set) (2 ^ 62) P t _ g g4 g5).
      * intros Htot. destruct Hne. rewrite (alone_still Htot _ _ R5). by apply Hst, alone_still.
  - intros g4 l4 HJ4 Hm. by exists n.
Qed.

(** Observations of empty sub-queues. *)
Definition observations (obs : list qevent) : Prop :=
  Forall (fun e => exists i, 0 <= i < width set /\ e = Nothing i) obs.

(** While a dequeue has only made observations. *)
Definition dequeue_loop (s0 : seeds_t) g0 g l : Prop :=
  thread_id l = t /\ (p_total P = true -> seeds l = s0) /\ p_inv P g /\ (p_total P = true -> settled g) /\
  exists obs, observations obs /\ did_op obs g0 g /\ (still -> obs = []).

Lemma qdequeue_body_wp num_choices s0 g0 m (Q : unit + Z -> shared W mqueues -> tls W -> Prop) g l :
  choices_ok num_choices -> dequeue_loop s0 g0 g l ->
  (forall obs i g' l', thread_id l' = t -> observations obs -> 0 <= i < width set ->
     did_op (Nothing i :: obs) g0 g' -> (still -> obs = []) ->
     (p_total P = true -> chose_from head_key (draws num_choices) s0 (seeds l') g0 i) ->
     (p_total P = true -> settled g') -> Q (inr 0) g' l') ->
  (forall obs i k v g' l', thread_id l' = t -> observations obs -> 0 <= i < width set ->
     did_op (Deq i k v :: obs) g0 g' -> (still -> obs = []) ->
     (p_total P = true -> chose_from head_key (draws num_choices) s0 (seeds l') g0 i) ->
     (p_total P = true -> settled g') -> Q (inr v) g' l') ->
  (forall g' l', dequeue_loop s0 g0 g' l' -> (p_total P = true -> m < m)%nat -> Q (inl tt) g' l') ->
  wp P t (dequeue_body num_choices set tt) Q g l.
Proof.
  intros Hn (Ht & Hsd & HI & Hset & obs & Hobs & Hd & Hobs0) HQ0 HQ HQ'. unfold dequeue_body. wp_local.
  apply choose_get_wp; [done|done|]. intros [b i] g1 l1 Hc.
  pose proof Hc as (R1 & I1 & Ht1 & Hi & (k & Hk & Hkh) & Hst). cbn [dnode RandomQueues.index] in *. wp_local.
  assert (Hch : p_total P = true -> chose_from head_key (draws num_choices) s0 (seeds l1) g0 i).
  { intros Htot. specialize (Hobs0 (alone_still Htot)). subst obs.
    by apply (chosen_from _ _ _ _ _ _ g g0 _ g1 l1 Hc Hsd Hd Htot Hset). }
  apply mload_put; [done|]. intros g2 c R2 I2 E2 Hc2. set (p := tail_pos (subs g2) i) in *.
  assert (R02 : p_rely P t g g2) by (by apply (mrely_trans g g1 g2)).
  assert (Hb2 : at_pos (subs g2) i k b) by (by apply (mrely_pos g1 g2)).
  pose proof (qrely_head WP (width set) (2 ^ 62) P t g1 g2 i R2) as Hh2.
  assert (Hkp : (k <= p)%nat).
  { destruct (sub_positions (width set) (subs g2) i (qinv WP (width set) (2 ^ 62) P t g2 I2) Hi) as [? _].
    fold p in H. lia. }
  assert (Hset2 : p_total P = true -> settled g2).
  { intros Htot. rewrite (alone_still Htot _ _ R02). by apply Hset. }
  assert (Hk2 : still -> head_pos (subs g2) i = k).
  { intros Hs. pose proof (qinv WP (width set) (2 ^ 62) P t g2 I2) as HI2.
    pose proof HI2 as (_&_&_&_&_&_&_&H). destruct (H i Hi) as (dp & dg & []).
    destruct (Hst Hs) as [E _]. unfold lookup_get in E. rewrite <- (Hs _ _ R2) in E.
    assert (dg = mkIndex b) as -> by congruence. by eapply at_pos_inj. }
  assert (Hretry : forall g', did_op obs g0 g' -> (p_total P = true -> settled g') ->
    (still -> settled g2 -> False) -> Q (inl tt) g' l1).
  { intros g' D' S' Hno. apply HQ'; [|by apply (not_needed m g2)].
    split; [done|split; [|split; [apply D'|split; [done|by exists obs]]]].
    intros Htot. destruct (Hno (alone_still Htot) (Hset2 Htot)). }
  destruct (Z.eqb_spec b c) as [<-|Hne].
  - assert (p = k) as Hpk by (eapply at_pos_inj; [by apply (qinv WP (width set) (2 ^ 62) P t)|exact Hi|exact Hc2|done]).
    wp_local. apply (wp_load_head_next WP (width set) (2 ^ 62) P t i k); [done|done|done|lia|..].
    + intros g3 g4 R3 D4 E4 _ _. cbn [Z.eqb]. wp_locals.
      apply (HQ0 obs i); [done|done|done| |done|done|].
      * apply (did_op_step WP (width set) (2 ^ 62) P t [_] obs g0 g g3 g4 Hd); [by apply (mrely_trans g g2 g3)|done|].
        intros _. by rewrite E4.
      * intros Htot. apply (settled_eq g3 g4); [by rewrite E4..|].
        rewrite (alone_still Htot _ _ R3). by apply Hset2.
    + intros nxt g3 R3 I3 Hnz Hn3. rewrite (proj2 (Z.eqb_neq _ _) Hnz). wp_local.
      apply (wp_qload_next_known WP (width set) (2 ^ 62) P t i k b nxt); [done|by apply (mrely_pos g2 g3)|done|].
      intros g4 R4 I4. wp_local.
      assert (R04 : p_rely P t g g4) by (by apply (mrely_trans g g2 g4); [|apply (mrely_trans g2 g3 g4)]).
      assert (Hno : still -> settled g2 -> False).
      { intros Hs Hse. apply lookup_lt_Some in Hn3. rewrite (Hs _ _ R3), (Hse i Hi) in Hn3. fold p in Hn3. lia. }
      apply (wp_cae_put WP (width set) (2 ^ 62) P t i k); try done.
      * by apply (mrely_pos g2 g4); [apply (mrely_trans g2 g3 g4)|].
      * by apply (mrely_pos g3 g4).
      * intros g5 R5 I5 E5 Htl5 g6 I6 He6 Htl6. wp_locals. apply Hretry; [| |exact Hno].
        -- apply (did_op_step WP (width set) (2 ^ 62) P t [] obs g0 g g5 g6 Hd);
             [by apply (mrely_trans g g4 g5)|by split|done].
        -- intros Htot. destruct (Hno (alone_still Htot) (Hset2 Htot)).
      * intros g5 R5 I5 Hne. wp_locals. apply Hretry; [| |exact Hno].
        -- by apply (did_op_rely WP (width set) (2 ^ 62) P t obs g0 g g5 Hd); [apply (mrely_trans g g4 g5)|].
        -- intros Htot. destruct (Hno (alone_still Htot) (Hset2 Htot)).
  - wp_local. assert (Hlt : (k < p)%nat).
    { destruct (decide (k = p)) as [E|]; [|lia]. rewrite <- E in Hc2. unfold at_pos in *. congruence. }
    apply (wp_qload_next WP (width set) (2 ^ 62) P t i k); [done|done|..].
    { intros g3 R3 I3 Hlen3. exfalso. pose proof (qrely_tail WP (width set) (2 ^ 62) P t g2 g3 i R3) as H.
      destruct (sub_positions (width set) (subs g3) i (qinv WP (width set) (2 ^ 62) P t g3 I3) Hi) as [? _].
      fold p in H. lia. }
    intros nxt g3 R3 I3 Hnz Hn3. wp_local.
    assert (R03 : p_rely P t g g3) by (by apply (mrely_trans g g2 g3)).
    assert (Hb3 : at_pos (subs g3) i k b) by (by apply (mrely_pos g2 g3)).
    apply (wp_cae_get WP (width set) (2 ^ 62) P t i k); try done.
    { pose proof (qrely_tail WP (width set) (2 ^ 62) P t g2 g3 i R3) as H. fold p in H. lia. }
    + intros g4 g5 n R4 E4 Hh4 En4 D5 E5. cbn [node] in En4. wp_local.
      assert (R04 : p_rely P t g g4) by (by apply (mrely_trans g g3 g4)).
      pose proof D5 as (I5 & He5 & _).
      assert (Hb5 : at_pos (subs g5) i k b).
      { eapply at_pos_evolves; [exact He5|]. by apply (mrely_pos g3 g4). }
      assert (Hn5 : at_pos (subs g5) i (S k) nxt).
      { eapply at_pos_evolves; [exact He5|]. by apply (mrely_pos g3 g4). }
      assert (En5 : lookup_node nxt g5 = Some n) by (unfold lookup_node in *; by rewrite E5).
      apply (wp_qload_next_known WP (width set) (2 ^ 62) P t i k b nxt); [done..|].
      intros g6 R6 I6. wp_local.
      destruct (ev_heap _ _ (qevolves WP (width set) (2 ^ 62) P t g5 g6 R6) nxt n En5) as (n6 & En6 & _ & Ev6 & _).
      { by destruct (at_pos_node (width set) (subs g5) i (S k) nxt (qinv WP (width set) (2 ^ 62) P t g5 I5) Hi Hn5)
          as (_ & n' & _ & ? & _). }
      apply (wp_qload_val WP (width set) (2 ^ 62) P t i (S k) nxt n6); [done|done|by apply (mrely_pos g5 g6)|done|].
      intros g7 R7 I7. wp_locals. rewrite Ev6.
      assert (R57 : p_rely P t g5 g7) by (by apply (mrely_trans g5 g6 g7)).
      apply (HQ obs i (Z.of_nat (S k))); [done|done|done| |done|done|].
      * apply (did_op_rely WP (width set) (2 ^ 62) P t _ g0 g5 g7); [|done|done].
        apply (did_op_step WP (width set) (2 ^ 62) P t [_] obs g0 g g4 g5 Hd R04 D5). intros _. by rewrite E5.
      * intros Htot. rewrite (alone_still Htot _ _ R57). apply (settled_eq g4 g5); [by rewrite E5..|].
        rewrite (alone_still Htot _ _ R04). by apply Hset.
    + intros g4 R4 I4 Hne4. wp_locals.
      assert (R04 : p_rely P t g g4) by (by apply (mrely_trans g g3 g4)).
      apply Hretry.
      * by apply (did_op_rely WP (width set) (2 ^ 62) P t obs g0 g g4 Hd).
      * intros Htot. rewrite (alone_still Htot _ _ R04). by apply Hset.
      * intros Hs _. apply Hne4. rewrite (Hs _ _ R4), (Hs _ _ R3), (Hs _ _ R2). by apply Hst.
Qed.

(** [dequeue] returns the value of exactly one [Deq], or 0 after observing a
    sub-queue empty. *)
Lemma qdequeue_wp num_choices (Q : Z -> shared W mqueues -> tls W -> Prop) g l :
  choices_ok num_choices -> thread_id l = t -> p_inv P g -> (p_total P = true -> settled g) ->
  (forall obs i g' l', thread_id l' = t -> observations obs -> 0 <= i < width set ->
     did_op (Nothing i :: obs) g g' -> (still -> obs = []) ->
     (p_total P = true -> chose_from head_key (draws num_choices) (seeds l) (seeds l') g i) ->
     (p_total P = true -> settled g') -> Q 0 g' l') ->
  (forall obs i k v g' l', thread_id l' = t -> observations obs -> 0 <= i < width set ->
     did_op (Deq i k v :: obs) g g' -> (still -> obs = []) ->
     (p_total P = true -> chose_from head_key (draws num_choices) (seeds l) (seeds l') g i) ->
     (p_total P = true -> settled g') -> Q v g' l') ->
  wp P t (dequeue num_choices set) Q g l.
Proof.
  intros Hn Ht HI Hset HQ0 HQ. unfold dequeue.
  eapply (wp_while P t _ _ _ _ (fun _ _ => dequeue_loop (seeds l) g) 0%nat).
  { split; [done|split; [done|split; [done|split; [done|]]]]. exists []. split; [constructor|split; [|done]].
    apply (did_op_nil WP (width set) (2 ^ 62) P t); [apply (rely_refl (P := P))|done]. }
  intros n [] g1 l1 HJ. apply (qdequeue_body_wp num_choices (seeds l) g n); [done|done|done|done|].
  intros g2 l2 HJ2 Hm. by exists n.
Qed.
End operations.

(** ** Whole executions *)

Section executions.
Context {W : Type} {A : Allocator (qnode_of Z)} (tags : Z -> nat -> Z -> Prop).
#[local] Instance node_tags2 : QTag Z := {| tag_ok := tags |}.
Context (stamp : Z -> M W mqueues Z) (num_choices : option Z) (Hn : choices_ok num_choices).
Context (w : Z) (Hw : 0 < w < 2 ^ 63) (w0 : W).
Notation set := (mkQueue w).
Notation B := (joint (no_window (W := W)) (qprot w (2 ^ 62))).
Context (junk : nat -> qnode_of Z) (Hjunk : forall i, tags (Z.of_nat i) 0 (qtag (junk i))).
Notation g0 := (create_queue junk w w0).2.
Context (Hstamp : forall P t, Runs P B t -> stamp_ok tags set P t stamp).

Lemma create_mqueue_inv : p_inv B g0.
Proof. split; [done|]. apply (created_inv junk); [lia|by intros a|exact Hjunk]. Qed.

Lemma create_settled : settled set g0.
Proof.
  intros i Hi. cbn [create_queue snd subs width] in *. unfold created.
  destruct (alloc_dummies _ _ _ _) as [ns h] eqn:E.
  destruct (alloc_dummies_spec _ _ _ _ _ _ E) as (Hlen & _).
  destruct (lookup_lt_is_Some_2 ns (Z.to_nat i)) as [a Ea]; [lia|].
  unfold links_of, tail_pos; cbn. rewrite list_lookup_fmap, Ea, lookup_replicate_2 by lia. done.
Qed.

Lemma explains_observing obs done evs :
  observations set obs -> explains w done evs -> explains w done (obs ++ evs).
Proof. intros Ho H. induction Ho as [|e obs (i & Hi & ->)]; [done|]. cbn. by constructor. Qed.

Section concurrent.
Context (opss : list (list op)) (ls : list (tls W)) (schedule : list nat).
Context (Hls : forall i l, ls !! i = Some l -> thread_id l = i).
Context (Hbound : Z.of_nat (length schedule) < 2 ^ 62 - 1).

Let final := exec (mkCfg g0 (clients (exec_op stamp num_choices set) opss ls)) schedule.

Lemma random_queue_run :
  p_inv B (mem final) /\ ~ faulty final /\
  (forall i rs l os, pool final !! i = Some (Ret rs, l) -> opss !! i = Some os ->
     length rs = length os /\ explains w (zip os rs) (qevents_of i (hist (subs (mem final))))).
Proof.
  destruct (clients_soundness (exec_op stamp num_choices set) B
    (fun t done (g : shared W mqueues) l => thread_id l = t /\ p_inv B g /\
       explains w done (qevents_of t (hist (subs g)))))
    with (meas := fun g : shared W mqueues => Z.of_nat (length (hist (subs g))))
      (delta := 1) (limit := 2 ^ 62 - 1)
      (g0 := g0) (opss := opss) (ls := ls) (schedule := schedule) as (HI & HF & HQ); try done.
  - intros t done o g l (Hl & HI & HJ).
    assert (Hs : p_total B = true -> forall g g', p_rely B t g g' -> g' = g) by done.
    destruct o as [k v|]; cbn [exec_op].
    + apply (qenqueue_wp tags set Hw B t Hs stamp num_choices); try done; [by apply Hstamp, _|].
      intros i p g' l' Hl' Hi [(HI' & _ & He) _] _ _. split; [done|split; [done|]]. rewrite He. by constructor.
    + apply (qdequeue_wp tags set Hw B t Hs num_choices); try done.
      * intros obs i g' l' Hl' Ho Hi [(HI' & _ & He) _] _ _ _. split; [done|split; [done|]]. rewrite He.
        constructor; [|done]. by apply explains_observing.
      * intros obs i p v g' l' Hl' Ho Hi [(HI' & _ & He) _] _ _ _. split; [done|split; [done|]]. rewrite He.
        constructor; [|done]. by apply explains_observing.
  - intros t g g' _ [_ (_ & _ & Hlen)]. lia.
  - intros g _ Hm. split; [done|]. cbn [p_ok qprot] in *. lia.
  - apply create_mqueue_inv.
  - unfold create_queue, created. destruct (alloc_dummies _ _ _ _). cbn. lia.
  - intros i l Hl. split; [by apply Hls|split; [apply create_mqueue_inv|]].
    unfold create_queue, created. destruct (alloc_dummies _ _ _ _). constructor.
  - split; [done|split; [done|]]. intros i rs l os Hp Ho.
    destruct (HQ i rs l os Hp Ho) as (Hlen & g1 & R1 & _ & _ & HJ1). split; [done|].
    destruct R1 as [_ (_ & _ & E1)]. rewrite <- E1 in HJ1. exact HJ1.
Qed.
End concurrent.

(** One thread: every run terminates and is accounted for by the history,
    which then has one event per operation; the size is exact.  [J] is what the
    choices give in terms of the history. *)
Context (s0 : seeds_t) (J : list (op * Z) -> list (nat * qevent) -> seeds_t -> Prop) (J_nil : J [] [] s0).
Notation k := (draws num_choices).
Context (J_enq : forall done g s js s' i p key v, J done (hist (subs g)) s -> p_inv B g -> settled set g ->
  drawn w s js s' -> Forall (fun j => 0 <= j < w) js -> length js = k -> best tail_key g js i ->
  J (done ++ [(Enqueue key v, 1)]) ((0%nat, Enq i p v) :: hist (subs g)) s').
Context (J_deq : forall done g s js s' i p v, J done (hist (subs g)) s -> p_inv B g -> settled set g ->
  drawn w s js s' -> Forall (fun j => 0 <= j < w) js -> length js = k -> best head_key g js i ->
  (p, v) ∈ qcontents i (hist (subs g)) ->
  J (done ++ [(Dequeue, v)]) ((0%nat, Deq i p v) :: hist (subs g)) s').
Context (J_empty : forall done g s js s' i, J done (hist (subs g)) s -> p_inv B g -> settled set g ->
  drawn w s js s' -> Forall (fun j => 0 <= j < w) js -> length js = k -> best head_key g js i ->
  qcontents i (hist (subs g)) = [] ->
  J (done ++ [(Dequeue, 0)]) ((0%nat, Nothing i) :: hist (subs g)) s').

(** What holds of one thread between its operations. *)
Let alone_inv (done : list (op * Z)) (g : shared W mqueues) (l : tls W) : Prop :=
  explains w done (hist (subs g)).*2 /\ J done (hist (subs g)) (seeds l) /\
  p_inv B g /\ settled set g /\ thread_id l = 0%nat /\ length (hist (subs g)) = length done.

Lemma random_queue_alone_op done o g l :
  alone_inv done g l ->
  wp (alone B) 0 (exec_op stamp num_choices set o)
    (fun r g' l' => alone_inv (done ++ [(o, r)]) g' l') g l.
Proof.
  intros (Hex & HJ & HI & Hset & Hl & Hlh).
  assert (Hst : forall g g', p_rely (alone B) 0%nat g g' -> g' = g) by (intros g1 g2 R; by apply R).
  assert (Hst' : p_total (alone B) = true -> forall g g', p_rely (alone B) 0%nat g g' -> g' = g) by done.
  unfold alone_inv. destruct o as [key v|]; cbn [exec_op].
  - apply (qenqueue_wp tags set Hw (alone B) 0%nat Hst' stamp num_choices); try done; [by apply Hstamp, _|].
    intros i p g' l' Hl' Hi [(HI' & _) Hh] Hc Hset'.
    destruct (Hc eq_refl) as (g1 & js & I1 & Eh & Hset1 & Hdr & Hjs & Hk & Hb).
    specialize (Hh Hst). cbn [fmap list_fmap app] in Hh. rewrite Hh. rewrite <- Eh in *. cbn [fmap list_fmap snd length].
    rewrite length_app. split_and!; [apply explains_enq; [exact Hex|exact Hi]|apply (J_enq done g1 (seeds l) js (seeds l') i p key v); by try apply Hset1|done|by apply Hset'|done|cbn; lia].
  - apply (qdequeue_wp tags set Hw (alone B) 0%nat Hst' num_choices); try done.
    + intros obs i g' l' Hl' _ Hi [(HI' & _) Hh] Hobs Hc Hset'. rewrite (Hobs Hst) in Hh.
      destruct (Hc eq_refl) as (g1 & js & I1 & Eh & Hset1 & Hdr & Hjs & Hk & Hb).
      specialize (Hh Hst). cbn [fmap list_fmap app] in Hh. pose proof HI' as [_ (_&_&_&_&_&_&Hlg&_)].
      rewrite Hh in *. rewrite <- Eh in *. cbn [fmap list_fmap snd length qlegal] in *.
      rewrite length_app.
      split_and!; [apply explains_empty; [exact Hex|exact Hi]|apply (J_empty done g1 (seeds l) js (seeds l') i); try done; [by apply Hset1|by destruct Hlg]|done|by apply Hset'|done|cbn; lia].
    + intros obs i p v g' l' Hl' _ Hi [(HI' & _) Hh] Hobs Hc Hset'. rewrite (Hobs Hst) in Hh.
      destruct (Hc eq_refl) as (g1 & js & I1 & Eh & Hset1 & Hdr & Hjs & Hk & Hb).
      specialize (Hh Hst). cbn [fmap list_fmap app] in Hh. pose proof HI' as [_ (_&_&_&_&_&_&Hlg&_)].
      rewrite Hh in *. rewrite <- Eh in *. cbn [fmap list_fmap snd length qlegal] in *.
      rewrite length_app. destruct Hlg as [Hhd _].
      split_and!; [apply explains_deq; [exact Hex|exact Hi]|apply (J_deq done g1 (seeds l) js (seeds l') i p v); try done; [by apply Hset1|by apply head_Some_elem_of]
        |done|by apply Hset'|done|cbn; lia].
Qed.

Lemma random_queue_alone ops l0 :
  thread_id l0 = 0%nat -> seeds l0 = s0 -> Z.of_nat (length ops) < 2 ^ 62 ->
  exists n rs g l,
    (forall m, (n <= m)%nat ->
       run m (run_ops (exec_op stamp num_choices set) ops) g0 l0 = Finished rs g l) /\
    length rs = length ops /\ p_inv B g /\
    explains w (zip ops rs) (hist (subs g)).*2 /\ J (zip ops rs) (hist (subs g)) (seeds l) /\
    exists n' g' l', forall m, (n' <= m)%nat ->
      run m (queue_size set) g l = Finished (queues_total (hist (subs g)) w) g' l'.
Proof.
  intros Hl0 Hs0 Hlim.
  destruct (alone_run B (run_ops (exec_op stamp num_choices set) ops) (fun rs g l =>
      length rs = length ops /\ alone_inv ([] ++ zip ops rs) g l) g0 l0)
    as (n & rs & g & l & Hrun & (Hlen & Hex & HJ & HI & Hset & Hl & Hlh) & _); [apply create_mqueue_inv| |].
  - apply (wp_run_ops (alone B) 0%nat (exec_op stamp num_choices set) alone_inv).
    { intros done o g l HJ. by apply random_queue_alone_op. }
    assert (Eh : hist (subs g0) = []).
    { unfold create_queue, created. by destruct (alloc_dummies _ _ _ _). }
    unfold alone_inv. rewrite Eh.
    split_and!; [constructor|by rewrite Hs0|apply create_mqueue_inv|apply create_settled|done|done].
  - exists n, rs, g, l. do 5 (split; [done|]).
    destruct (alone_run B (queue_size set) (fun r _ _ => r = queues_total (hist (subs g)) w) g l)
      as (n' & r & g' & l' & Hrun' & -> & _); [done| |by exists n', g', l'].
    apply (queues_size_wp (no_window (W := W)) w (2 ^ 62) (alone B) 0%nat);
      [by intros g1 g2 R; apply R|done|done| |done].
    cbn [app] in Hlh. rewrite length_zip_with in Hlh. lia.
Qed.
End executions.

(** ** The timestamps of the two structures *)

Section stamps.
Context {A : Allocator (qnode_of Z)} (set : mqueue_t) (Hw : 0 < width set < 2 ^ 63).

(** Timestamps carry no meaning of their own. *)
Notation any := (fun (_ : Z) (_ : nat) (_ : Z) => True).

Lemma stamp_multi_ok ticks (P : protocol (shared nat mqueues)) t :
  Runs P (joint (no_window (W := nat)) (qprot (qt := node_tags any) (width set) (2 ^ 62))) t ->
  stamp_ok any set P t (stamp_multi ticks).
Proof.
  intros runs i k p Q g l _ _ _ HQ g1 R1 I1 _. cbn [mbind option_bind].
  set (B := joint (no_window (W := nat)) (qprot (qt := node_tags any) (width set) (2 ^ 62))) in *.
  assert (I2 : p_inv P (set_window (S (window g1)) g1)).
  { apply (runs_inv_back (B := B)). by apply (runs_inv (B := B)) in I1. }
  split; [|split; [exact I2|]].
  - apply (runs_guar (B := B)). split; [done|apply (guar_refl (P := qprot (qt := node_tags any) (width set) (2 ^ 62)))].
  - by apply (HQ _ g1).
Qed.

(** In queue-dra the count of a sub-queue's [k]-th node is [k] more, modulo
    [2 ^ 64], than what its dummy's happened to be. *)
Context (base : Z -> Z).
Definition counts (i : Z) (k : nat) (x : Z) : Prop := x = u64 (base i + Z.of_nat k).
Notation B1 := (joint (no_window (W := unit)) (qprot (qt := node_tags counts) (width set) (2 ^ 62))).

Lemma stamp_dra_ok (P : protocol (shared unit mqueues)) t :
  Runs P B1 t -> stamp_ok counts set P t stamp_dra.
Proof.
  intros runs i k p Q g l Hi HI Hk HQ. unfold stamp_dra. wp_local.
  apply (wp_qload_node (qt := node_tags counts) (no_window (W := unit)) (width set) (2 ^ 62) P t qtag i k);
    [done..|].
  intros g1 n R1 I1 _ Htag _. wp_locals. apply (HQ _ g1); [done|done|done|].
  cbn in Htag. rewrite Htag. unfold counts, u64, wrap. rewrite Zplus_mod_idemp_l. f_equal. lia.
Qed.

(** What the choices compare, in terms of the history. *)
Lemma tail_key_count (g : shared unit mqueues) i :
  p_inv B1 g -> settled set g -> 0 <= i < width set ->
  tail_key g i = Some (u64 (base i + Z.of_nat (length (enqs i (hist (subs g)))))).
Proof.
  intros [_ HI] Hset Hi. pose proof HI as (_&_&_&_&_&_&_&H). destruct (H i Hi) as (dp & dg & Hsub).
  unfold tail_key, lookup_put. rewrite (sa_put _ _ _ _ Hsub). cbn [mbind option_bind].
  destruct (at_pos_node (qt := node_tags counts) _ _ _ _ _ HI Hi (sa_puta _ _ _ _ Hsub))
    as (_ & n & En & _ & Ht & _).
  cbn [qd_node index_desc] in En. unfold lookup_node. rewrite En. cbn. f_equal. cbn in Ht. rewrite Ht.
  pose proof (sq_enqs _ _ _ _ _ _ (sa_subq _ _ _ _ Hsub)). specialize (Hset i Hi).
  by replace (tail_pos (subs g) i) with (length (enqs i (hist (subs g)))) by lia.
Qed.

Lemma head_key_count (g : shared unit mqueues) i :
  p_inv B1 g -> 0 <= i < width set ->
  head_key g i = match qcontents i (hist (subs g)) with
                 | [] => None
                 | _ => Some (u64 (base i + Z.of_nat (length (deqs i (hist (subs g))))))
                 end.
Proof.
  intros [_ HI] Hi. pose proof HI as (_&_&_&_&_&_&_&H). destruct (H i Hi) as (dp & dg & Hsub).
  unfold head_key, lookup_get. rewrite (sa_get _ _ _ _ Hsub). cbn [mbind option_bind].
  destruct (at_pos_node (qt := node_tags counts) _ _ _ _ _ HI Hi (sa_geta _ _ _ _ Hsub))
    as (_ & n & En & _ & Ht & Hnext).
  cbn [qd_node index_desc] in En. unfold lookup_node. rewrite En. cbn [mbind option_bind].
  destruct (sub_positions (qt := node_tags counts) _ _ i HI Hi) as (_ & _ & Hlen).
  cbn in Ht. rewrite Ht. destruct (Z.eqb_spec (qnext n) 0).
  - rewrite Hlen in Hnext. destruct (qcontents i (hist (subs g))); [done|cbn in Hnext; lia].
  - apply lookup_lt_Some in Hnext. rewrite Hlen in Hnext.
    destruct (qcontents i (hist (subs g))); [cbn in Hnext; lia|done].
Qed.
End stamps.

(** ** Theorems *)

(** The history of one thread's run of queue-dra and the seeds after it: of the [k]
    sub-queues that the generator draws from the seeds, an enqueue goes to one with
    the smallest count of enqueues, a dequeue takes from one with the smallest count
    of dequeues among those not empty, and 0 is answered if all are empty.  The
    counts of sub-queue [i] start at [base i] and wrap around. *)
Inductive qdra_run (w : Z) (k : nat) (base : Z -> Z) (s0 : seeds_t) : list (op * Z) -> list (nat * qevent) -> seeds_t -> Prop :=
| qdra_nil : qdra_run w k base s0 [] [] s0
| qdra_enq done h s key v js s' i p :
    qdra_run w k base s0 done h s -> drawn w s js s' -> length js = k -> i ∈ js ->
    (forall j, j ∈ js -> u64 (base i + Z.of_nat (length (enqs i h))) <=
                    u64 (base j + Z.of_nat (length (enqs j h)))) ->
    qdra_run w k base s0 (done ++ [(Enqueue key v, 1)]) ((0%nat, Enq i p v) :: h) s'
| qdra_deq done h s v js s' i p :
    qdra_run w k base s0 done h s -> drawn w s js s' -> length js = k -> i ∈ js ->
    (p, v) ∈ qcontents i h ->
    (forall j, j ∈ js -> qcontents j h <> [] ->
       u64 (base i + Z.of_nat (length (deqs i h))) <= u64 (base j + Z.of_nat (length (deqs j h)))) ->
    qdra_run w k base s0 (done ++ [(Dequeue, v)]) ((0%nat, Deq i p v) :: h) s'
| qdra_empty done h s js s' i :
    qdra_run w k base s0 done h s -> drawn w s js s' -> length js = k -> i ∈ js ->
    (forall j, j ∈ js -> qcontents j h = []) ->
    qdra_run w k base s0 (done ++ [(Dequeue, 0)]) ((0%nat, Nothing i) :: h) s'.

Section theorems.
Context {A : Allocator (qnode_of Z)} (num_choices : option Z) (Hn : choices_ok num_choices).
Context (w : Z) (Hw : 0 < w < 2 ^ 63) (junk : nat -> qnode_of Z).
Notation set := (mkQueue w).

Definition multi_exec (ticks : nat -> Z) : op -> M nat mqueues Z :=
  exec_op (stamp_multi ticks) num_choices set.
Definition dra_exec : op -> M unit mqueues Z := Dra.exec_op num_choices set.

(** Multi-queue: in every interleaved execution no access is invalid, every
    sub-queue is a FIFO queue whose elements are the nodes behind its head, and
    each thread's results are those of its own enqueues, dequeues and
    observations of an empty sub-queue. *)
Lemma multi_queue_run ticks opss ls schedule :
  (forall i l, ls !! i = Some l -> thread_id l = i) ->
  Z.of_nat (length schedule) < 2 ^ 62 - 1 ->
  let final := exec (mkCfg (create_queue junk w 0%nat).2 (clients (multi_exec ticks) opss ls)) schedule in
  ~ faulty final /\ qreplayed w (subs (mem final)) /\
  (forall i rs l os, pool final !! i = Some (Ret rs, l) -> opss !! i = Some os ->
     length rs = length os /\ explains w (zip os rs) (qevents_of i (hist (subs (mem final))))).
Proof.
  intros Hls Hb final.
  destruct (random_queue_run (fun _ _ _ => True) (stamp_multi ticks) num_choices Hn w Hw 0%nat junk
    ltac:(done) (fun P t r => stamp_multi_ok set ticks P t r) opss ls schedule Hls Hb)
    as ([_ HI] & HF & HR).
  split; [exact HF|split; [|exact HR]].
  exact (queues_replayed (qt := node_tags (fun _ _ _ => True)) w _ HI).
Qed.

Context (Hjunk : forall i, 0 <= qtag (junk i) < 2 ^ 64).
Notation base := (fun i => qtag (junk (Z.to_nat i))).

Lemma junk_counts i : counts base (Z.of_nat i) 0 (qtag (junk i)).
Proof. unfold counts. rewrite Nat2Z.id, Z.add_0_r, wrap_small; [done|apply Hjunk]. Qed.

(** queue-dra: the same, and every node's count is its position. *)
Lemma queue_dra_run opss ls schedule :
  (forall i l, ls !! i = Some l -> thread_id l = i) ->
  Z.of_nat (length schedule) < 2 ^ 62 - 1 ->
  let final := exec (mkCfg (Dra.create_queue junk w).2 (clients dra_exec opss ls)) schedule in
  ~ faulty final /\ qreplayed w (subs (mem final)) /\
  (forall i k a n, 0 <= i < w -> at_pos (subs (mem final)) i k a -> lookup_node a (mem final) = Some n ->
     qtag n = u64 (qtag (junk (Z.to_nat i)) + Z.of_nat k)) /\
  (forall i rs l os, pool final !! i = Some (Ret rs, l) -> opss !! i = Some os ->
     length rs = length os /\ explains w (zip os rs) (qevents_of i (hist (subs (mem final))))).
Proof.
  intros Hls Hb final.
  destruct (random_queue_run (counts base) stamp_dra num_choices Hn w Hw tt junk
    junk_counts (fun P t r => stamp_dra_ok set base P t r) opss ls schedule Hls Hb)
    as ([_ HI] & HF & HR).
  split; [exact HF|split; [exact (queues_replayed (qt := node_tags (counts base)) w _ HI)|split; [|exact HR]]].
  intros i k a n Hi Hk En. pose proof HI as (_&_&_&_&_&_&_&H). destruct (H i Hi) as (dp & dg & Hsub).
  exact (sa_tags _ _ _ _ Hsub k a n Hk En).
Qed.

(** C33. Both queues: in every interleaved execution, whatever the cycle counter of
    the multi-queue reads, no access is invalid, every sub-queue is a FIFO queue
    whose elements are the nodes behind its head, and each thread's results are
    those of its own enqueues, dequeues and observations of an empty sub-queue; in
    queue-dra every node's count is its position, modulo [2^64], from the count the
    dummy node happens to have. *)
Theorem random_queues_linearizable ticks opss ls ls' schedule :
  (forall i l, ls !! i = Some l -> thread_id l = i) ->
  (forall i l, ls' !! i = Some l -> thread_id l = i) ->
  Z.of_nat (length schedule) < 2 ^ 62 - 1 ->
  let multi := exec (mkCfg (create_queue junk w 0%nat).2 (clients (multi_exec ticks) opss ls)) schedule in
  let dra := exec (mkCfg (Dra.create_queue junk w).2 (clients dra_exec opss ls')) schedule in
  (~ faulty multi /\ qreplayed w (subs (mem multi)) /\
   (forall i rs l os, pool multi !! i = Some (Ret rs, l) -> opss !! i = Some os ->
      length rs = length os /\ explains w (zip os rs) (qevents_of i (hist (subs (mem multi)))))) /\
  (~ faulty dra /\ qreplayed w (subs (mem dra)) /\
   (forall i k a n, 0 <= i < w -> at_pos (subs (mem dra)) i k a -> lookup_node a (mem dra) = Some n ->
      qtag n = u64 (qtag (junk (Z.to_nat i)) + Z.of_nat k)) /\
   (forall i rs l os, pool dra !! i = Some (Ret rs, l) -> opss !! i = Some os ->
      length rs = length os /\ explains w (zip os rs) (qevents_of i (hist (subs (mem dra)))))).
Proof. intros Hls Hls' Hb multi dra. split; [by apply multi_queue_run|by apply queue_dra_run]. Qed.

(** C32. queue-dra, for one thread: every run terminates, is a run of the choice
    process on the counts with the sub-queues that the generator draws from the
    thread's seeds, the nodes behind each head hold what the enqueues and dequeues
    left, and [queue_size] then returns the number of elements. *)
Theorem queue_dra_choice ops l0 :
  thread_id l0 = 0%nat -> Z.of_nat (length ops) < 2 ^ 62 ->
  exists n rs g l,
    (forall m, (n <= m)%nat -> run m (run_ops dra_exec ops) (Dra.create_queue junk w).2 l0 = Finished rs g l) /\
    length rs = length ops /\ qreplayed w (subs g) /\
    qdra_run w (draws num_choices) base (seeds l0) (zip ops rs) (hist (subs g)) (seeds l) /\
    exists n' g' l', forall m, (n' <= m)%nat ->
      run m (Dra.queue_size set) g l = Finished (queues_total (hist (subs g)) w) g' l'.
Proof.
  intros Hl0 Hlim.
  destruct (random_queue_alone (counts base) stamp_dra num_choices Hn w Hw tt junk junk_counts
    (fun P t r => stamp_dra_ok set base P t r) (seeds l0) (qdra_run w (draws num_choices) base (seeds l0)) (qdra_nil _ _ _ _))
    with (ops := ops) (l0 := l0)
    as (n & rs & g & l & Hrun & Hlen & [_ HI] & _ & HJ & Hsize); try done.
  - intros ds g s js s' i p key v HJ HI Hset Hdr Hjs Hk [Hin Hb].
    pose proof (fun j Hj => tail_key_count set base g j HI Hset (proj1 (Forall_forall _ _) Hjs j Hj)) as Ht.
    apply (qdra_enq _ _ _ _ ds _ s key v js s' i p); try done. intros j Hj. rewrite (Ht i Hin) in Hb.
    exact (Hb j _ Hj (Ht j Hj)).
  - intros ds g s js s' i p v HJ HI Hset Hdr Hjs Hk [Hin Hb] Hv.
    pose proof (fun j Hj => head_key_count set base g j HI (proj1 (Forall_forall _ _) Hjs j Hj)) as Ht.
    apply (qdra_deq _ _ _ _ ds _ s v js s' i p); try done. intros j Hj Hne. rewrite (Ht i Hin) in Hb.
    specialize (Ht j Hj). destruct (qcontents i (hist (subs g))); [by apply elem_of_nil in Hv|].
    destruct (qcontents j (hist (subs g))); [done|]. exact (Hb j _ Hj Ht).
  - intros ds g s js s' i HJ HI Hset Hdr Hjs Hk [Hin Hb] Hnil.
    pose proof (fun j Hj => head_key_count set base g j HI (proj1 (Forall_forall _ _) Hjs j Hj)) as Ht.
    apply (qdra_empty _ _ _ _ ds _ s js s' i); try done. intros j Hj. rewrite (Ht i Hin), Hnil in Hb.
    specialize (Hb j Hj). rewrite (Ht j Hj) in Hb. by destruct (qcontents j (hist (subs g))).
  - exists n, rs, g, l. do 2 (split; [done|]).
    split; [exact (queues_replayed (qt := node_tags (counts base)) w _ HI)|]. by split.
Qed.
End theorems.

(** ** Concrete executions: two threads, two sub-queues, two choices *)

Definition example_ops : list (list op) :=
  [[Enqueue 1 10; Dequeue]; [Enqueue 2 20; Enqueue 3 30]].
Definition example_schedule : list nat := mjoin (replicate 120 [0; 1]%nat).
Definition example_junk (i : nat) : qnode_of Z := mkQnodeOf 0 0 0 (Z.of_nat i).
#[local] Instance example_allocator : Allocator (qnode_of Z) := bump_allocator (qnode_of Z).

Definition example_multi : cfg (shared nat mqueues) (tls nat) (list Z) :=
  exec (mkCfg (create_queue example_junk 2 0%nat).2
    (clients (multi_exec (Some 2) 2 (fun n => 7 * Z.of_nat n)) example_ops (tls0 0%nat <$> seq 0 2)))
    example_schedule.
Definition example_dra : cfg (shared unit mqueues) (tls unit) (list Z) :=
  exec (mkCfg (Dra.create_queue example_junk 2).2
    (clients (dra_exec (Some 2) 2) example_ops (tls0 tt <$> seq 0 2))) example_schedule.

Example random_queues_example_finishes :
  (fun pl => match pl.1 with Ret rs => Some rs | _ => None end) <$> pool example_multi
    = [Some [1; 10]; Some [1; 1]] /\
  (fun pl => match pl.1 with Ret rs => Some rs | _ => None end) <$> pool example_dra
    = [Some [1; 10]; Some [1; 1]].
Proof. vm_compute. split; reflexivity. Qed.

(** Dummy counts the linearizability and the choice of queue-dra are run with:
    0 everywhere. *)
Definition zeroed (_ : nat) : qnode_of Z := mkQnodeOf 0 0 0 0.

Lemma random_queues_linearizable_witness :
  explains 2 [(Enqueue 1 10, 1); (Dequeue, 10)] (qevents_of 0 (hist (subs (mem
    (exec (mkCfg (create_queue zeroed 2 0%nat).2
      (clients (multi_exec (Some 2) 2 (fun n => 7 * Z.of_nat n)) example_ops (tls0 0%nat <$> seq 0 2))) example_schedule))))) /\
  qreplayed 2 (subs (mem (exec (mkCfg (Dra.create_queue zeroed 2).2
      (clients (dra_exec (Some 2) 2) example_ops (tls0 tt <$> seq 0 2))) example_schedule))).
Proof.
  destruct (random_queues_linearizable (Some 2) ltac:(intros n [= <-]; lia) 2 ltac:(lia) zeroed
    ltac:(intros i; cbn [zeroed qtag]; lia)
    (fun n => 7 * Z.of_nat n) example_ops (tls0 0%nat <$> seq 0 2) (tls0 tt <$> seq 0 2) example_schedule)
    as [(_ & _ & Hmulti) (_ & Hdra & _)].
  - intros i l H. by apply tls0_lookup in H as ->.
  - intros i l H. by apply tls0_lookup in H as ->.
  - vm_compute. reflexivity.
  - split; [|exact Hdra].
    refine (proj2 (Hmulti 0%nat [1; 10] _ [Enqueue 1 10; Dequeue] _ _)); [vm_compute; reflexivity|reflexivity].
Defined.

Lemma queue_dra_choice_witness :
  exists n rs g l,
    (forall m, (n <= m)%nat ->
       run m (run_ops (dra_exec (Some 2) 2) [Enqueue 1 10; Enqueue 2 20; Dequeue])
         (Dra.create_queue zeroed 2).2 (tls0 tt 0) = Finished rs g l) /\
    length rs = 3%nat /\ qreplayed 2 (subs g) /\
    qdra_run 2 2 (fun _ => 0) (mkSeeds 1 2 3) (zip [Enqueue 1 10; Enqueue 2 20; Dequeue] rs) (hist (subs g)) (seeds l) /\
    exists n' g' l', forall m, (n' <= m)%nat ->
      run m (Dra.queue_size (mkQueue 2)) g l = Finished (queues_total (hist (subs g)) 2) g' l'.
Proof.
  apply (queue_dra_choice (Some 2) ltac:(intros n [= <-]; lia) 2 ltac:(lia) zeroed
    ltac:(intros i; cbn [zeroed qtag]; lia) [Enqueue 1 10; Enqueue 2 20; Dequeue] (tls0 tt 0)).
  - reflexivity.
  - vm_compute. reflexivity.
Defined.
