(* ===== verification/QueueOpt.v ===== *)
(** src/2Dd-queue_optimized: the 2Dd queue with its own windows, of which the
    threads keep copies (2Dd-queue_optimized.c, 2Dd-window_optimized.c).  A
    dequeue need not look at a tail when the thread's put window is above its get
    window. *)
From S2P Require Import Prelude Conc Random Thread Params StackHeap QueueHeap Shared SubQueues.

(** ** State *)

(** An entry of the arrays; the count is [put_count] or [get_count]. *)
Record descriptor_t := mkDesc { dnode : Z; dcount : Z }.

#[export] Instance descriptor_eq_dec : EqDecision descriptor_t.
Proof. solve_decision. Defined.
(** The counts are the positions in the sub-queue. *)
#[export] Instance descriptor_desc : QDesc descriptor_t :=
  {| qd_node := dnode; qd_put_ok d p := dcount d = Z.of_nat p; qd_get_ok d p := dcount d = Z.of_nat p |}.

(** [mqueue_t] without the arrays. *)
Record mqueue_t := mkQueue { random_hops : Z; relaxation_bound : Z; depth : Z; width : Z; k_mode : Z }.

(** [global_PWindow], [global_GWindow]: a [window_t] is its [max]. *)
Record globals := mkGlobals { global_PWindow : Z; global_GWindow : Z }.

(** The thread-local variables of the windows. *)
Record windows := mkWindows {
  thread_PWindow : Z;
  thread_GWindow : Z;
  thread_depth : Z;
  thread_width : Z;
  thread_put_index : Z;
  thread_get_index : Z;
}.

Notation oqueues := (queues descriptor_t unit).
Notation ostate := (shared globals oqueues).
Notation MO := (prog ostate (tls windows)).

Definition set_PWindow (v : Z) (w : windows) : windows :=
  mkWindows v (thread_GWindow w) (thread_depth w) (thread_width w) (thread_put_index w) (thread_get_index w).
Definition set_GWindow (v : Z) (w : windows) : windows :=
  mkWindows (thread_PWindow w) v (thread_depth w) (thread_width w) (thread_put_index w) (thread_get_index w).
Definition set_put_index (i : Z) (w : windows) : windows :=
  mkWindows (thread_PWindow w) (thread_GWindow w) (thread_depth w) (thread_width w) i (thread_get_index w).
Definition set_get_index (i : Z) (w : windows) : windows :=
  mkWindows (thread_PWindow w) (thread_GWindow w) (thread_depth w) (thread_width w) (thread_put_index w) i.
Definition upd (f : windows -> windows) (l : tls windows) : tls windows :=
  set_thread_Window (f (thread_Window l)) l.

(** ** Operations *)

Section code.
Context {A : Allocator (qnode_of unit)}.

Definition my (f : windows -> Z) : MO Z := get (fun l => f (thread_Window l)).
Definition load_P : MO Z := load_var (fun g => global_PWindow (window g)).
Definition load_G : MO Z := load_var (fun g => global_GWindow (window g)).

(** *** 2Dd-window_optimized.c *)

Definition random_index (w : Z) : MO Z := Shared.random_index 16 w.

(** Returns the new index, [random] and [hops]. *)
Definition hop (set : mqueue_t) (index random hops w : Z) : MO (Z * Z * Z) :=
  put (count_stat inc_hop) ;;;
  if random <? random_hops set then
    let* index := random_index w in
    Ret (index, u16 (random + 1), hops)
  else
    let hops := u16 (hops + 1) in
    let index := u16 (index + 1) in
    Ret (if w <=? index then 0 else index, random, hops).

(** The copy of a descriptor is not atomic. *)
Definition read_put (i : Z) : MO descriptor_t :=
  let* n := load_put dnode i in
  let* c := load_put dcount i in
  Ret (mkDesc n c).
Definition read_get (i : Z) : MO descriptor_t :=
  let* n := load_get dnode i in
  let* c := load_get dcount i in
  Ret (mkDesc n c).

(** [CAE(&global_PWindow.content, &thread_PWindow, &new_window)] and what follows a
    success; on failure the thread's copy is overwritten with the real window. *)
Definition cae_PWindow (new : Z) : MO unit :=
  let* ok := Act (fun g l =>
    let w := window g in
    if decide (global_PWindow w = thread_PWindow (thread_Window l)) then
      Some (true, set_window (mkGlobals new (global_GWindow w)) g, l)
    else Some (false, g, upd (set_PWindow (global_PWindow w)) l)) Ret in
  if (ok : bool) then put (count_stat inc_slide) ;;; put (upd (set_PWindow new)) else Ret tt.
Definition cae_GWindow (new : Z) : MO unit :=
  let* ok := Act (fun g l =>
    let w := window g in
    if decide (global_GWindow w = thread_GWindow (thread_Window l)) then
      Some (true, set_window (mkGlobals (global_PWindow w) new) g, l)
    else Some (false, g, upd (set_GWindow (global_GWindow w)) l)) Ret in
  if (ok : bool) then put (count_stat inc_slide) ;;; put (upd (set_GWindow new)) else Ret tt.

Definition put_window_body (set : mqueue_t) '((hops, random) : Z * Z) : MO (Z * Z + descriptor_t) :=
  let* index := my thread_put_index in
  let* descriptor := read_put index in
  let* gmax := load_P in
  let* max := my thread_PWindow in
  if negb (max =? gmax) then
    put (upd (set_PWindow gmax)) ;;; continue (0, random)
  else if dcount descriptor <? max then
    put (upd (set_get_index index)) ;;; break descriptor
  else
    let* w := my thread_width in
    if hops <? w then
      let* (index, random, hops) := hop set index random hops w in
      put (upd (set_put_index index)) ;;;
      continue (hops, random)
    else
      (let* gmax := load_P in
       if max =? gmax then
         let* d := my thread_depth in cae_PWindow (u64 (max + d))
       else Ret tt) ;;;
      continue (0, random).

Definition put_window (set : mqueue_t) (contention : bool) : MO descriptor_t :=
  (if contention then
     let* w := my thread_width in
     let* r := random_index w in put (upd (set_put_index r))
   else Ret tt) ;;;
  (let* gmax := load_P in put (upd (set_PWindow gmax))) ;;;
  while (put_window_body set) (0, 0).

Definition get_window_body (set : mqueue_t) '((hops, random, notempty) : Z * Z * bool)
    : MO (Z * Z * bool + descriptor_t) :=
  let* index := my thread_get_index in
  let* descriptor := read_get index in
  let* max := my thread_GWindow in
  let* pmax := my thread_PWindow in
  let* put_count := (if max <? pmax then
      let* d := my thread_depth in Ret (u64 (pmax - d))
    else load_put dcount index) in
  let* gmax := load_G in
  if negb (max =? gmax) then
    put (upd (set_GWindow gmax)) ;;; continue (0, random, false)
  else if (dcount descriptor <? max) && (dcount descriptor <? put_count) then break descriptor
  else
    let* w := my thread_width in
    if negb (hops =? w) then
      let notempty := if dcount descriptor <? put_count then true else notempty in
      let* (index, random, hops) := hop set index random hops w in
      put (upd (set_get_index index)) ;;;
      continue (hops, random, notempty)
    else
      let* shift := (if (notempty : bool) then Ret true
        else let* gp := load_P in Ret (negb (max =? gp))) in
      if (shift : bool) then
        (let* d := my thread_depth in
         let* gmax := load_G in
         if max =? gmax then cae_GWindow (u64 (max + d)) else Ret tt) ;;;
        continue (0, random, false)
      else break descriptor.

Definition get_window (set : mqueue_t) (contention : bool) : MO descriptor_t :=
  (if contention then
     let* w := my thread_width in
     let* r := random_index w in put (upd (set_get_index r))
   else Ret tt) ;;;
  (let* gmax := load_G in put (upd (set_GWindow gmax))) ;;;
  let* descriptor := while (get_window_body set) (0, 0, false) in
  put (upd (fun w => set_put_index (thread_get_index w) w)) ;;;
  Ret descriptor.

(** [ds_thread_init], which each thread calls first. *)
Definition ds_thread_init (set : mqueue_t) : MO unit :=
  put (upd (fun w => mkWindows (thread_PWindow w) (thread_GWindow w) (depth set) (width set)
    (thread_put_index w) (thread_get_index w))).

(** *** 2Dd-queue_optimized.c *)

Definition create_node (key val next : Z) : MO Z := alloc_node (mkQnode next key val).

Definition enq_cae (i tail new_node : Z) : MO bool := cas_next i tail new_node.
Definition deq_cae (i : Z) (d new : descriptor_t) : MO bool := cae_get i d new.

Definition enqueue_body (set : mqueue_t) (new_node : Z) (contention : bool)
    : MO (bool + descriptor_t * descriptor_t) :=
  let* descriptor := put_window set contention in
  let* max := my thread_PWindow in
  let* gmax := my thread_GWindow in
  assert_ (gmax <=? max) ;;;
  assert_ (dcount descriptor <? max) ;;;
  let tail := dnode descriptor in
  let* index := my thread_put_index in
  let* c := load_put dcount index in
  if max <=? c then continue contention
  else
    let count := u64 (dcount descriptor + 1) in
    let* next := load_next tail in
    if next =? 0 then
      let* ok := enq_cae index tail new_node in
      if ok then break (descriptor, mkDesc new_node count)
      else put (count_stat inc_put_cas_fail) ;;; continue true
    else
      let* next := load_next tail in
      let* ok := cae_put index descriptor (mkDesc next count) in
      put (count_stat inc_put_cas_fail) ;;;
      continue (if ok then contention else true).

Definition enqueue (set : mqueue_t) (key val : Z) : MO Z :=
  let* new_node := create_node key val 0 in
  let* (descriptor, new_descriptor) := while (enqueue_body set new_node) false in
  let* index := my thread_put_index in
  let* _ := cae_put index descriptor new_descriptor in
  Ret 1.

(** From the label [safe_deq] on. *)
Definition safe_deq (index : Z) (descriptor : descriptor_t) : MO (bool + Z) :=
  let* next := load_next (dnode descriptor) in
  let* ok := deq_cae index descriptor (mkDesc next (u64 (dcount descriptor + 1))) in
  if ok then
    let* val := load_val next in
    break val
  else put (count_stat inc_get_cas_fail) ;;; continue true.

Definition dequeue_body (set : mqueue_t) (contention : bool) : MO (bool + Z) :=
  let* descriptor := get_window set contention in
  let head := dnode descriptor in
  let* index := my thread_get_index in
  let* enq_descriptor := read_put index in
  let* pmax := my thread_PWindow in
  let* gmax := my thread_GWindow in
  if gmax <? pmax then safe_deq index descriptor
  else if head =? dnode enq_descriptor then
    let* next := load_head_next index head in
    if next =? 0 then
      put (count_stat inc_null) ;;; break 0
    else
      let* next := load_next (dnode enq_descriptor) in
      let* ok := cae_put index enq_descriptor (mkDesc next (u64 (dcount enq_descriptor + 1))) in
      continue (if ok then contention else true)
  else safe_deq index descriptor.

Definition dequeue (set : mqueue_t) : MO Z :=
  (let* gmax := load_P in put (upd (set_PWindow gmax))) ;;;
  while (dequeue_body set) false.

Definition queue_size (set : mqueue_t) : MO Z :=
  queues_span (width set).

Definition initialize_global_window (depth : Z) : option globals :=
  if depth =? 0 then None else Some (mkGlobals depth depth).

(** [create_queue]; [None]: signed overflow, division by zero or a failed
    assertion. *)
Definition create_queue (junk : nat -> qnode_of unit)
    (num_threads width depth k_mode relaxation_bound : Z) : option (mqueue_t * ostate) :=
  p ← calculate 1 16 16 (product_int 1) num_threads width depth k_mode relaxation_bound;
  w ← initialize_global_window (p_depth p);
  Some (mkQueue 2 (p_bound p) (p_depth p) (p_width p) k_mode,
    mkShared w (created junk (fun a => mkDesc a 0) (fun a => mkDesc a 0) (Z.to_nat (p_width p)))).

Definition exec_op (set : mqueue_t) (o : op) : MO Z :=
  match o with Enqueue k v => enqueue set k v | Dequeue => dequeue set end.
End code.

(** A thread's variables are zero when it starts. *)
Definition windows0 : windows := mkWindows 0 0 0 0 0 0.
