(* ===== verification/OptWindow.v ===== *)
(** The windows of the optimized 2Dd queue: their invariant, and what
    [put_window] and [get_window] promise to the operations, for a thread among
    others and for a thread that runs alone. *)
From S2P Require Import Prelude Conc Random Thread StackHeap QueueHeap Shared SubQueues QueueOpt.

(** ** Protocol *)

Section protocol.
Context (set : mqueue_t).
Notation w := (width set).
Notation d := (depth set).

Definition set_ok : Prop := 1 <= w < 2 ^ 16 /\ 1 <= d < 2 ^ 16 /\ 0 <= random_hops set < 2 ^ 16 - 1.

(** The windows move up, the get window never above the put window. *)
Definition windows_ok (x : globals) : Prop :=
  (d | global_PWindow x) /\ (d | global_GWindow x) /\ d <= global_GWindow x <= global_PWindow x.
Definition up (x x' : globals) : Prop :=
  global_PWindow x <= global_PWindow x' /\ global_GWindow x <= global_GWindow x'.
Definition win_prot : protocol globals :=
  {| p_inv := windows_ok; p_rely _ := up; p_guar _ := up; p_ok _ := True; p_total := false |}.
#[export] Instance win_prot_laws : ProtocolLaws win_prot.
Proof. split; cbn; unfold up; intros; lia. Qed.

Definition opt_base : protocol ostate := joint win_prot (qprot w (2 ^ 62)).

(** The nodes are in the put window or below it, and every sub-queue reaches up to
    it. *)
Definition opt (g : ostate) : Prop :=
  forall i, 0 <= i < w ->
    global_PWindow (window g) - d <= Z.of_nat (tail_pos (subs g) i) /\
    Z.of_nat (length (links_of (subs g) i)) <= global_PWindow (window g) + 1.
End protocol.

Section windows.
Context {A : Allocator (qnode_of unit)}.
Context (set : mqueue_t) (Hset : set_ok set).
Notation w := (width set).
Notation depth := (depth set).
Notation rh := (random_hops set).
Notation base := (opt_base set).
Notation opt := (opt set).
Context (P : protocol ostate) (t : nat) {couples : Couples P base opt t}.
Implicit Types (g : ostate) (l : tls windows).
Notation PW g := (global_PWindow (window g)).
Notation GW g := (global_GWindow (window g)).
Notation tl g i := (Z.of_nat (tail_pos (subs g) i)).
Notation hd g i := (Z.of_nat (head_pos (subs g) i)).
Notation tP l := (thread_PWindow (thread_Window l)).
Notation tG l := (thread_GWindow (thread_Window l)).
Notation put_i l := (thread_put_index (thread_Window l)).
Notation get_i l := (thread_get_index (thread_Window l)).
Notation still := (forall g g', p_rely P t g g' -> g' = g).
Context (alone_still : p_total P = true -> still).

(** The numbers are far from overflowing.  Among others this is part of what the
    thread may assume; alone it has to be shown. *)
Definition sized g : Prop := Z.of_nat (length (hist (subs g))) < 2 ^ 62.
Context (Hmode : still \/ forall g, p_ok P g -> p_ok base g).

#[local] Instance oreads : Reads P base t := couples_reads (C := opt).
#[local] Instance olaws : ProtocolLaws P := reads_laws (B := base) (t := t).

Notation sub_rule f := (f (win_prot set) w (2 ^ 62) P t) (only parsing).

Lemma inv_opt g : p_inv P g -> opt g.
Proof. apply (couples_inv (B := base) (C := opt)). Qed.
Lemma opt_inv_subs g : p_inv P g -> queues_inv w (subs g).
Proof. intros HI. by apply (reads_inv (B := base) g HI). Qed.
Lemma inv_windows g : p_inv P g -> windows_ok set (window g).
Proof. intros HI. by apply (reads_inv (B := base) g HI). Qed.

Lemma opt_sized_ok g : p_ok P g -> (still -> sized g) -> sized g.
Proof. intros O Hs. destruct Hmode as [Hst|Hok]; [by apply Hs|]. by destruct (Hok g O). Qed.

Lemma positions g i :
  p_inv P g -> 0 <= i < w ->
  hd g i <= tl g i < Z.of_nat (length (links_of (subs g) i)) /\
  Z.of_nat (length (links_of (subs g) i)) <= Z.of_nat (length (hist (subs g))) + 1.
Proof.
  intros HI Hi. pose proof (opt_inv_subs g HI) as Hs. destruct (sub_positions w (subs g) i Hs Hi) as (? & _ & _).
  pose proof (links_bound w (subs g) i Hs Hi). lia.
Qed.

Lemma PW_bound g : p_inv P g -> sized g -> PW g < 2 ^ 62 + 2 ^ 16.
Proof.
  intros HI Hs. destruct Hset as (Hw & Hd & _). destruct (inv_opt g HI 0 ltac:(lia)) as [? _].
  destruct (positions g 0 HI ltac:(lia)). unfold sized in Hs. lia.
Qed.

(** *** What happens meanwhile *)

(** From [g] to [g'] there were steps of the others and own steps other than
    operations on the sub-queues' contents. *)
Record leads g g' : Prop := mkLeads {
  ld_inv : p_inv P g';
  ld_subs : evolves (subs g) (subs g');
  ld_mine : untouched t (subs g) (subs g');
  ld_up : up (window g) (window g');
}.

Lemma opt_leads_rely g g' : p_rely P t g g' -> p_inv P g' -> leads g g'.
Proof. intros R I. apply (reads_rely (B := base)) in R as [Hu [Es Eu]]. by split. Qed.
Lemma leads_refl g : p_inv P g -> leads g g.
Proof. apply opt_leads_rely, (rely_refl (P := P)). Qed.
Lemma opt_leads_trans g1 g2 g3 : leads g1 g2 -> leads g2 g3 -> leads g1 g3.
Proof.
  intros [I1 E1 [O1 Q1] [? ?]] [I2 E2 [O2 Q2] [? ?]]. split; [done|by eapply evolves_trans| |unfold up; lia].
  split; [|by rewrite Q2]. intros a n En Pn. destruct (O1 a n En Pn). by apply O2.
Qed.
Lemma opt_leads_then g1 g2 g3 : leads g1 g2 -> p_rely P t g2 g3 -> p_inv P g3 -> leads g1 g3.
Proof. intros L R I. eapply opt_leads_trans; [exact L|by apply opt_leads_rely]. Qed.

Lemma opt_leads_at_pos g g' i k a : leads g g' -> at_pos (subs g) i k a -> at_pos (subs g') i k a.
Proof. intros []. by apply at_pos_evolves. Qed.
Lemma opt_leads_tail g g' i : leads g g' -> tl g i <= tl g' i.
Proof. intros [_ E _ _]. pose proof (ev_tail _ _ E i). lia. Qed.
Lemma leads_head g g' i : leads g g' -> hd g i <= hd g' i.
Proof. intros [_ E _ _]. pose proof (ev_head _ _ i E). lia. Qed.
Lemma opt_leads_owned g g' a n : leads g g' -> owned t a n g -> owned t a n g'.
Proof. intros [_ _ [Ho _] _] [Pa Ea]. by destruct (Ho a n Ea Pa). Qed.

(** *** The thread-local variables *)

Definition thread_ok g l : Prop :=
  thread_id l = t /\ thread_depth (thread_Window l) = depth /\ thread_width (thread_Window l) = w /\
  0 <= put_i l < w /\ 0 <= get_i l < w /\ 0 <= tP l <= PW g /\ 0 <= tG l <= GW g.

Lemma opt_thread_ok_leads g g' l : leads g g' -> thread_ok g l -> thread_ok g' l.
Proof. intros [_ _ _ [? ?]] (? & ? & ? & ? & ? & ? & ?). unfold thread_ok. do 5 (split; [done|]). lia. Qed.

Lemma opt_my_wp f (Q : Z -> ostate -> tls windows -> Prop) g l :
  Q (f (thread_Window l)) g l -> wp P t (my f) Q g l.
Proof. done. Qed.

Lemma load_P_wp (Q : Z -> ostate -> tls windows -> Prop) g l :
  (forall g', p_rely P t g g' -> p_inv P g' -> Q (PW g') g' l) -> wp P t load_P Q g l.
Proof. intros HQ. apply wp_load_var; [apply _|]. intros g1 R1 I1 _. by apply HQ. Qed.
Lemma load_G_wp (Q : Z -> ostate -> tls windows -> Prop) g l :
  (forall g', p_rely P t g g' -> p_inv P g' -> Q (GW g') g' l) -> wp P t load_G Q g l.
Proof. intros HQ. apply wp_load_var; [apply _|]. intros g1 R1 I1 _. by apply HQ. Qed.

Lemma opt_random_wp (Q : Z -> ostate -> tls windows -> Prop) g l :
  (forall r s, 0 <= r < w -> Q r g (with_rng s (stats l) l)) -> wp P t (random_index w) Q g l.
Proof. destruct Hset as [? _]. intros HQ. apply wp_shared_random; [lia|]. intros r s Hr. by apply HQ. Qed.

Lemma opt_hop_wp index random hops (Q : Z * Z * Z -> ostate -> tls windows -> Prop) g l :
  0 <= index < w -> 0 <= random <= rh -> 0 <= hops < w ->
  (forall r s st, 0 <= r < w -> random < rh -> Q (r, random + 1, hops) g (with_rng s st l)) ->
  (forall s st, random = rh -> Q (next_index w index, random, hops + 1) g (with_rng s st l)) ->
  wp P t (hop set index random hops w) Q g l.
Proof.
  destruct Hset as (Hw & _ & Hrh). intros Hi Hr Hh HQ HQ'. unfold hop. wp_locals.
  destruct (Z.ltb_spec random rh) as [Hlt|Hge].
  - wp_local. apply opt_random_wp. intros r s Hrw. wp_locals. rewrite (wrap_small 16 (random + 1)) by lia. by apply HQ.
  - wp_locals. rewrite (wrap_small 16 (hops + 1)), (wrap_small 16 (index + 1)) by lia. apply HQ'. lia.
Qed.

(** *** Reading a descriptor *)

(** [d] was read from [put_array], [k] is the position of its node; the count
    may be that of a later one. *)
Definition put_read g (i : Z) (k : nat) (d : descriptor_t) : Prop :=
  at_pos (subs g) i k (dnode d) /\ Z.of_nat k <= dcount d <= tl g i /\
  (tail_pos (subs g) i = k -> lookup_put i g = Some d).
(** The same for [get_array]. *)
Definition get_read g (i : Z) (k : nat) (d : descriptor_t) : Prop :=
  at_pos (subs g) i k (dnode d) /\ Z.of_nat k <= dcount d <= hd g i.

Lemma opt_put_read_leads g g' i k d :
  p_inv P g -> 0 <= i < w -> leads g g' -> put_read g i k d -> put_read g' i k d.
Proof.
  intros HI Hi L (Hk & Hle & Hd). pose proof (opt_leads_tail g g' i L).
  split; [by eapply opt_leads_at_pos|split; [lia|]]. intros Ht. specialize (Hd ltac:(lia)).
  destruct (opt_inv_subs g HI) as (_&_&_&_&_&_&_&Hq). destruct (Hq i Hi) as (dp & dg & Hs).
  destruct (opt_inv_subs g' (ld_inv _ _ L)) as (_&_&_&_&_&_&_&Hq'). destruct (Hq' i Hi) as (dp' & dg' & Hs').
  pose proof (prefix_lookup_Some _ _ _ _ (sa_putlast _ _ _ _ Hs) (ev_puts _ _ (ld_subs _ _ L) i)) as E.
  replace (tail_pos (subs g) i) with (tail_pos (subs g') i) in E by lia.
  rewrite (sa_putlast _ _ _ _ Hs') in E. unfold lookup_put in *. rewrite (sa_put _ _ _ _ Hs) in Hd.
  rewrite (sa_put _ _ _ _ Hs'). congruence.
Qed.

Lemma opt_get_read_leads g g' i k d : leads g g' -> get_read g i k d -> get_read g' i k d.
Proof.
  intros L (Hk & Hr). pose proof (leads_head g g' i L). split; [by eapply opt_leads_at_pos|lia].
Qed.

Lemma opt_put_read_wp i (Q : descriptor_t -> ostate -> tls windows -> Prop) g l :
  0 <= i < w ->
  (forall g' k d, p_rely P t g g' -> p_inv P g' -> put_read g' i k d -> tl g i <= Z.of_nat k -> Q d g' l) ->
  wp P t (read_put i) Q g l.
Proof.
  intros Hi HQ. unfold read_put. wp_local. apply ((sub_rule wp_qload_put) dnode i); [done|].
  intros g1 d1 R1 I1 E1 Hk1 Hc1. wp_local. apply ((sub_rule wp_qload_put) dcount i); [done|].
  intros g2 d2 R2 I2 E2 Hk2 Hc2. wp_locals. pose proof (opt_leads_rely g1 g2 R2 I2) as L2.
  cbn [qd_node qd_put_ok descriptor_desc] in *.
  pose proof (opt_leads_tail g1 g2 i L2). pose proof (opt_leads_tail g g1 i (opt_leads_rely _ _ R1 I1)).
  pose proof (opt_leads_at_pos _ _ _ _ _ L2 Hk1) as Hk12.
  apply (HQ g2 (tail_pos (subs g1) i)); [by apply (rely_trans (P := P) t g g1 g2)|done| |lia].
  split; [done|split; cbn [dcount dnode]; [lia|]]. intros Et. rewrite Et in Hk2. unfold at_pos in *.
  rewrite E2. destruct d2 as [n2 c2]. cbn [dnode dcount] in *. congruence.
Qed.

Lemma opt_get_read_wp i (Q : descriptor_t -> ostate -> tls windows -> Prop) g l :
  0 <= i < w ->
  (forall g' k d, p_rely P t g g' -> p_inv P g' -> get_read g' i k d -> hd g i <= dcount d ->
     (still -> lookup_get i g' = Some d) -> Q d g' l) ->
  wp P t (read_get i) Q g l.
Proof.
  intros Hi HQ. unfold read_get. wp_local. apply ((sub_rule wp_qload_get) dnode i); [done|].
  intros g1 d1 R1 I1 E1 Hk1 Hc1. wp_local. apply ((sub_rule wp_qload_get) dcount i); [done|].
  intros g2 d2 R2 I2 E2 Hk2 Hc2. wp_locals. pose proof (opt_leads_rely g1 g2 R2 I2) as L2.
  cbn [qd_node qd_get_ok descriptor_desc] in *.
  pose proof (leads_head g1 g2 i L2). pose proof (leads_head g g1 i (opt_leads_rely _ _ R1 I1)).
  apply (HQ g2 (head_pos (subs g1) i)); [by apply (rely_trans (P := P) t g g1 g2)|done|..]; cbn [dcount].
  - split; [by apply (opt_leads_at_pos g1 g2)|]. cbn [dcount]. lia.
  - lia.
  - intros Hs. rewrite (Hs _ _ R2) in *. assert (d2 = d1) as -> by congruence. by destruct d1.
Qed.

(** The count of the entry of [put_array]. *)
Lemma opt_put_count_wp i (Q : Z -> ostate -> tls windows -> Prop) g l :
  0 <= i < w -> (forall g', p_rely P t g g' -> p_inv P g' -> Q (tl g' i) g' l) ->
  wp P t (load_put dcount i) Q g l.
Proof.
  intros Hi HQ. apply ((sub_rule wp_qload_put) dcount i); [done|]. intros g1 d R1 I1 _ _ Hc.
  cbn [qd_put_ok descriptor_desc] in Hc. rewrite Hc. by apply HQ.
Qed.

(** *** [put_window] *)

(** A change of the thread's variables. *)
Ltac thread_step H :=
  destruct H as (? & ? & ? & ? & ? & ? & ?); unfold thread_ok, upd; cbn; split_and!; solve [done|lia].

(** A thread alone shifts at most once: after that every sub-queue has room.
    Before, [n] bounds the hops to come. *)
Definition put_alone g0 (n : nat) (hops random : Z) g l : Prop :=
  subs g = subs g0 /\ GW g = GW g0 /\ tP l = PW g /\
  (PW g = PW g0 /\ (Z.to_nat (w - hops + rh - random) < n)%nat \/
   PW g = PW g0 + depth /\ tl g (put_i l) < PW g).

Definition put_loop g0 (n : nat) '((hops, random) : Z * Z) g l : Prop :=
  thread_ok g l /\ leads g0 g /\ tG l <= tP l /\
  0 <= hops <= w /\ 0 <= random <= rh /\ (0 < hops -> random = rh) /\
  seen w (put_i l) hops (fun j => tP l <= tl g j) /\
  (still -> put_alone g0 n hops random g l).

(** What [put_window] returns: an entry with room in the thread's put window. *)
Definition put_window_post g0 (d : descriptor_t) g l : Prop :=
  leads g0 g /\ thread_ok g l /\ tG l <= tP l /\ dcount d < tP l /\
  exists p, put_read g (put_i l) p d /\
    (still -> tail_pos (subs g) (put_i l) = p /\ subs g = subs g0 /\ GW g = GW g0 /\ tP l = PW g /\
       (PW g = PW g0 \/ PW g = PW g0 + depth)).

Lemma opt_put_loop_leads g0 n c g g' l :
  put_loop g0 n c g l -> leads g g' -> (still -> g' = g) -> put_loop g0 n c g' l.
Proof.
  destruct c as [hops random]. intros (Hok & L & Hle & Hh & Hr & Hhr & Hseen & Hst) L' Hs.
  split; [by eapply opt_thread_ok_leads|split; [by eapply opt_leads_trans|]]. do 4 (split; [done|]). split.
  - intros j Hj Hc. specialize (Hseen j Hj Hc). cbv beta in *. pose proof (opt_leads_tail g g' j L'). lia.
  - intros Hs'. rewrite (Hs Hs'). by apply Hst.
Qed.

(** A hop from a sub-queue that is full. *)
Lemma opt_put_hop_wp g0 n hops random (Q : Z * Z + descriptor_t -> ostate -> tls windows -> Prop) g l :
  put_loop g0 n (hops, random) g l -> hops < w -> tP l <= tl g (put_i l) ->
  (forall m c g' l', put_loop g0 m c g' l' -> (p_total P = true -> (m < n)%nat) -> Q (inl c) g' l') ->
  wp P t (let* (index, random, hops) := hop set (put_i l) random hops w in
          put (upd (set_put_index index)) ;;; continue (hops, random)) Q g l.
Proof.
  intros (Hok & L & Hle & Hh & Hr & Hhr & Hseen & Hst) Hlt Hfull HQ. pose proof Hok as (_ & Hd & Ew & Hi & Hg & HP & HG).
  assert (Hend : forall r hops' random' s st, 0 <= r < w -> 0 <= hops' <= w -> 0 <= random' <= rh ->
    (0 < hops' -> random' = rh) -> seen w r hops' (fun j => tP l <= tl g j) ->
    hops' + random' = hops + random + 1 ->
    Q (inl (hops', random')) g (upd (set_put_index r) (with_rng s st l))).
  { intros r hops' random' s st Hr' Hh' Hrr Hhr' Hs' Em. apply (HQ (Nat.pred n)).
    - split; [thread_step Hok|]. split; [done|split; [exact Hle|]].
      do 4 (split; [done|]). intros Hs. destruct (Hst Hs) as (E1 & E2 & E3 & [[E4 ?]|[_ ?]]); [|lia].
      do 3 (split; [done|]). left. split; [done|lia].
    - intros Htot. destruct (Hst (alone_still Htot)) as (_ & _ & E3 & [[_ ?]|[_ ?]]); lia. }
  wp_local. apply opt_hop_wp; [done|done|lia|..].
  - intros r s st Hrw Hlt'. wp_locals.
    assert (hops = 0) as -> by (destruct (decide (0 < hops)); [specialize (Hhr ltac:(lia))|]; lia).
    apply Hend; [done|lia|lia|lia|apply seen_none; lia|lia].
  - intros s st Er. wp_locals. apply Hend; [apply next_index_range; lia|lia|lia|lia|by apply seen_next|lia].
Qed.

(** The shift itself: afterwards the thread's copy is the put window. *)
Lemma cae_P_wp (Q : unit -> ostate -> tls windows -> Prop) g l :
  p_inv P g -> thread_ok g l -> (still -> sized g) -> (forall j, 0 <= j < w -> tP l <= tl g j) ->
  (forall g' l', leads g g' -> thread_id l' = t -> thread_Window l' = set_PWindow (PW g') (thread_Window l) ->
     (still -> subs g' = subs g /\ GW g' = GW g /\ (tP l = PW g -> PW g' = PW g + depth)) -> Q tt g' l') ->
  wp P t (cae_PWindow (u64 (tP l + depth))) Q g l.
Proof.
  intros HI (Ht & _ & _ & _ & _ & HP & _) Hsz Hall HQ g1 R1 I1 O1. pose proof (opt_leads_rely g g1 R1 I1) as L1.
  destruct Hset as (Hw & Hd & _).
  destruct (decide (PW g1 = tP l)) as [E|Hne]; [rewrite decide_True by done|rewrite decide_False by done]; cbv zeta.
  - assert (Hsz1 : sized g1) by (apply opt_sized_ok; [done|intros Hs; rewrite (Hs _ _ R1); by apply Hsz]).
    pose proof (PW_bound g1 I1 Hsz1). rewrite wrap_small by lia.
    destruct (inv_windows g1 I1) as (D1 & D2 & HG1).
    set (g2 := set_window _ g1). assert (Hup : up (window g1) (window g2)) by (unfold up; cbn; lia).
    assert (Hb2 : p_inv base g2).
    { split; [|exact (opt_inv_subs g1 I1)]. unfold windows_ok, g2. cbn [set_window window global_PWindow global_GWindow]. rewrite <- E.
      split; [apply Z.divide_add_r; [done|apply Z.divide_refl]|split; [done|cbn; lia]]. }
    assert (HC2 : opt g2).
    { intros j Hj. destruct (inv_opt g1 I1 j Hj). pose proof (opt_leads_tail _ _ j L1). specialize (Hall j Hj). cbn in *. lia. }
    assert (I2 : p_inv P g2) by (by apply (couples_back (B := base) (C := opt))).
    split; [|split; [exact I2|]].
    + apply (couples_guar (B := base) (C := opt)). split; [exact Hup|apply (guar_refl (P := qprot w (2 ^ 62)))].
    + wp_locals. apply HQ; [|done|done|].
      * eapply opt_leads_trans; [exact L1|]. by split; [|apply evolves_refl|apply untouched_refl|].
      * intros Hs. rewrite <- (Hs _ _ R1). cbn. split; [done|split; [done|]]. lia.
  - split; [apply (guar_refl (P := P))|split; [exact I1|]]. wp_locals. apply HQ; [done|done|done|].
    intros Hs. rewrite (Hs _ _ R1) in *. done.
Qed.

Lemma opt_put_window_body_wp g0 n hops random (Q : Z * Z + descriptor_t -> ostate -> tls windows -> Prop) g l :
  (still -> sized g0) -> put_loop g0 n (hops, random) g l ->
  (forall d g' l', put_window_post g0 d g' l' -> Q (inr d) g' l') ->
  (forall m c g' l', put_loop g0 m c g' l' -> (p_total P = true -> (m < n)%nat) -> Q (inl c) g' l') ->
  wp P t (put_window_body set (hops, random)) Q g l.
Proof.
  intros Hsz HJ HQ HQ'. pose proof HJ as (Hok & L & Hle & Hh & Hr & Hhr & Hseen & Hst). pose proof (ld_inv _ _ L) as HI.
  pose proof Hok as (Ht & Ed & Ew & Hi & Hgi & HP & HG). set (i := put_i l) in *.
  unfold put_window_body. wp_local. apply opt_my_wp. fold i. wp_local. apply opt_put_read_wp; [done|].
  intros g1 p d R1 I1 Hd1 Hdp. wp_local. apply load_P_wp. intros g2 R2 I2. wp_local. apply opt_my_wp.
  pose proof (opt_leads_rely g1 g2 R2 I2) as L12. pose proof (opt_leads_trans _ _ _ (opt_leads_rely g g1 R1 I1) L12) as L2.
  assert (Hst2 : still -> g2 = g) by (intros Hs; by rewrite (Hs _ _ R2), (Hs _ _ R1)).
  pose proof (opt_put_read_leads g1 g2 i p d I1 Hi L12 Hd1) as Hd2. pose proof (opt_leads_trans _ _ _ L L2) as L02.
  pose proof (ld_up _ _ L2) as [Hup1 Hup2].
  pose proof (opt_put_loop_leads _ _ _ _ _ _ HJ L2 Hst2) as HJ2.
  destruct (Z.eqb_spec (tP l) (PW g2)) as [E|Hne]; cbn [negb].
  2: { wp_locals. assert (Hno : still -> False) by (intros Hs; destruct (Hst Hs) as (_ & _ & ? & _); rewrite (Hst2 Hs) in Hne; done).
    apply (HQ' n); [|by intros Htot; destruct (Hno (alone_still Htot))].
    destruct HJ2 as (Hok2 & _). split; [thread_step Hok2|]. split; [done|]. cbn.
    destruct Hset as (? & ? & ?). split; [lia|split; [lia|split; [lia|split; [lia|split]]]].
    - apply seen_none. lia.
    - intros Hs. destruct (Hno Hs). }
  destruct (Z.ltb_spec (dcount d) (tP l)) as [Hlt|Hge].
  - wp_locals. apply HQ. split; [done|]. destruct HJ2 as (Hok2 & _).
    split; [thread_step Hok2|]. split; [done|split; [done|]]. exists p. split; [exact Hd2|].
    intros Hs. destruct (Hst Hs) as (E1 & E2 & E3 & E4). cbn. fold i. rewrite (Hst2 Hs).
    split; [|split; [done|split; [done|split; [done|]]]].
    + destruct Hd1 as (_ & Hd1 & _). rewrite (Hs _ _ R1) in Hd1. lia.
    + destruct E4 as [[? _]|[? _]]; [by left|by right].
  - wp_local. apply opt_my_wp. rewrite Ew.
    assert (Hfull : tP l <= tl g2 i) by (destruct Hd2 as (_ & ? & _); lia).
    destruct (Z.ltb_spec hops w) as [Hlt|Hge']; [by apply (opt_put_hop_wp g0 n hops random)|].
    assert (hops = w) as -> by lia. wp_local. wp_local. apply load_P_wp. intros g3 R3 I3.
    pose proof (opt_leads_rely g2 g3 R3 I3) as L3. pose proof (opt_leads_trans _ _ _ L2 L3) as L23.
    assert (Hst3 : still -> g3 = g) by (intros Hs; by rewrite (Hs _ _ R3), (Hst2 Hs)).
    pose proof (opt_put_loop_leads _ _ _ _ _ _ HJ L23 Hst3) as (Hok3 & L03 & _ & _ & _ & _ & Hseen3 & Hst3').
    pose proof (ld_up _ _ L3) as [? ?].
    destruct (Z.eqb_spec (tP l) (PW g3)) as [E3|Hne].
    2: { wp_locals. assert (Hno : still -> False) by (intros Hs; destruct (Hst Hs) as (_ & _ & ? & _); rewrite (Hst3 Hs) in Hne; done).
      apply (HQ' n); [|by intros Htot; destruct (Hno (alone_still Htot))].
      destruct Hset as (? & ? & ?). split; [done|split; [done|split; [done|split; [lia|split; [lia|split; [lia|split]]]]]].
      - apply seen_none. lia.
      - intros Hs. destruct (Hno Hs). }
    assert (Hbefore : still -> subs g = subs g0 /\ GW g = GW g0 /\ PW g = PW g0 /\ (0 < n)%nat).
    { intros Hs. destruct (Hst Hs) as (E1 & E2 & E4 & [[E5 ?]|[_ Hlt]]); [split_and!; try done; lia|].
      rewrite (Hst2 Hs) in Hfull. fold i in Hlt. lia. }
    wp_local. apply opt_my_wp. rewrite Ed. apply cae_P_wp; [done|done| | |].
    + intros Hs. destruct (Hbefore Hs) as (E1 & _). rewrite (Hst3 Hs). unfold sized. rewrite E1. by apply Hsz.
    + by apply (seen_all w (put_i l) w).
    + intros g4 l4 L4 Ht4 Ew4 Hs4. wp_locals. pose proof (ld_up _ _ L4) as [? ?]. destruct Hset as (? & ? & ?).
      destruct Hok3 as (_ & _ & _ & _ & _ & ? & ?).
      apply (HQ' (Nat.pred n)).
      * split; [unfold thread_ok; rewrite Ew4; cbn; split_and!; done || lia|].
        split; [by eapply opt_leads_trans|]. rewrite Ew4. cbn [set_PWindow thread_PWindow thread_GWindow thread_put_index].
        split; [lia|split; [lia|split; [lia|split; [lia|split]]]]; [apply seen_none; lia|].
        intros Hs. destruct (Hbefore Hs) as (E1 & E2 & E4 & _). destruct (Hs4 Hs) as (F1 & F2 & F3).
        unfold put_alone. rewrite Ew4, F1, F2, (Hst3 Hs). cbn. rewrite (Hst3 Hs) in E3, F3. specialize (F3 E3).
        split; [done|split; [done|split; [done|right]]]. split; [lia|]. fold i.
        destruct (inv_opt g HI i Hi). destruct (positions g i HI Hi). lia.
      * intros Htot. destruct (Hbefore (alone_still Htot)) as (_ & _ & _ & ?). lia.
Qed.

Lemma opt_put_window_wp contention (Q : descriptor_t -> ostate -> tls windows -> Prop) g l :
  p_inv P g -> thread_ok g l -> (still -> sized g) ->
  (forall d g' l', put_window_post g d g' l' -> Q d g' l') ->
  wp P t (put_window set contention) Q g l.
Proof.
  intros HI Hok Hs HQ. pose proof Hset as (Hw & _ & Hrh). unfold put_window.
  assert (Hloop : forall l1, thread_ok g l1 -> wp P t ((let* gmax := load_P in put (upd (set_PWindow gmax))) ;;;
      while (put_window_body set) (0, 0)) Q g l1).
  { intros l1 Hok1. wp_local. wp_local. apply load_P_wp. intros g1 R1 I1. wp_local.
    pose proof (opt_leads_rely g g1 R1 I1) as L1. pose proof (opt_thread_ok_leads _ _ _ L1 Hok1) as Hok'.
    pose proof Hok' as (_ & Ed & Ew & Hi & Hgi & HP & HG). destruct (inv_windows g1 I1) as (_ & _ & HGP).
    eapply (wp_while P t _ _ _ _ (fun n c => put_loop g n c)).
    - split; [clear - Hok'; thread_step Hok'|]. split; [done|]. cbn [upd set_thread_Window thread_Window set_PWindow thread_PWindow thread_GWindow].
      split; [lia|split; [lia|split; [lia|split; [lia|split]]]]; [apply seen_none; lia|].
      intros Hst. rewrite (Hst _ _ R1). unfold put_alone. cbn. split; [done|split; [done|split; [done|left]]].
      split; [done|]. instantiate (1 := S (Z.to_nat (w + rh))). lia.
    - intros n [hops random] g3 l3 HJ. apply (opt_put_window_body_wp g n hops random); [done|done|..].
      + intros d g4 l4 Hp. by apply HQ.
      + intros m c g4 l4 HJ4 Hm. by exists m. }
  wp_local. destruct contention; [|wp_local; by apply Hloop].
  wp_local. apply opt_my_wp. destruct Hok as (? & ? & Ew & ? & ? & ? & ?). rewrite Ew. wp_local. apply opt_random_wp. intros r s Hr. wp_local.
  apply Hloop. unfold thread_ok. cbn. split_and!; solve [done|lia].
Qed.

(** *** [get_window] *)

(** For a thread alone: a sub-queue from which the get window lets nothing out. *)
Definition get_stuck g (j : Z) : Prop := GW g <= hd g j \/ GW g = PW g /\ hd g j = tl g j.

(** For a thread alone the sub-queues are used up to the get window. *)
Definition drained g : Prop := forall j, 0 <= j < w -> GW g - depth <= hd g j <= GW g.

(** The put window is [(PW g - GW g) / depth] shifts away, between which there are
    hops. *)
Definition get_alone g0 (n : nat) (hops random : Z) (notempty : bool) g l : Prop :=
  subs g = subs g0 /\ PW g = PW g0 /\ tP l = PW g /\ tG l = GW g /\ drained g /\
  seen w (get_i l) hops (get_stuck g) /\
  (Z.to_nat ((PW g - GW g) * (w + rh + 1) + (w - hops) + (rh - random)) < n)%nat.

Definition get_loop g0 (n : nat) '((hops, random, notempty) : Z * Z * bool) g l : Prop :=
  thread_ok g l /\ leads g0 g /\ depth <= tP l < 2 ^ 63 /\
  0 <= hops <= w /\ 0 <= random <= rh /\ (0 < hops -> random = rh) /\
  (notempty = true -> tG l < PW g) /\
  (still -> get_alone g0 n hops random notempty g l).

(** What [get_window] returns: an entry with an element, or one of the get window
    when that was the put window. *)
Definition get_window_post g0 (d : descriptor_t) g l : Prop :=
  leads g0 g /\ thread_ok g l /\ depth <= tP l < 2 ^ 63 /\
  exists p, get_read g (get_i l) p d /\ (dcount d < tl g (get_i l) \/ tP l <= tG l) /\
    (still -> lookup_get (get_i l) g = Some d /\ subs g = subs g0 /\ PW g = PW g0 /\ tP l = PW g /\ tG l = GW g /\
       drained g /\
       (dcount d < GW g /\ dcount d < tl g (get_i l) \/
        GW g = PW g /\ forall j, 0 <= j < w -> hd g j = tl g j)).

Lemma opt_get_loop_leads g0 n c g g' l :
  get_loop g0 n c g l -> leads g g' -> (still -> g' = g) -> get_loop g0 n c g' l.
Proof.
  destruct c as [[hops random] notempty]. intros (Hok & L & Hd & Hh & Hr & Hhr & Hne & Hst) L' Hs.
  pose proof (ld_up _ _ L') as [? ?].
  split; [by eapply opt_thread_ok_leads|split; [by eapply opt_leads_trans|]]. do 4 (split; [done|]). split.
  - intros E. specialize (Hne E). lia.
  - intros Hs'. rewrite (Hs Hs'). by apply Hst.
Qed.

(** Starting over with the current get window. *)
Lemma get_loop_again g0 n random g l' :
  thread_ok g l' -> leads g0 g -> depth <= tP l' < 2 ^ 63 -> 0 <= random <= rh ->
  (still -> subs g = subs g0 /\ PW g = PW g0 /\ tP l' = PW g /\ tG l' = GW g /\ drained g /\
     (Z.to_nat ((PW g - GW g) * (w + rh + 1) + w + (rh - random)) < n)%nat) ->
  get_loop g0 n (0, random, false) g l'.
Proof.
  intros Hok L Hd Hr Hst. destruct Hset as (? & ? & ?).
  split; [done|split; [done|split; [done|split; [lia|split; [done|split; [lia|split; [done|]]]]]]].
  intros Hs. destruct (Hst Hs) as (E1 & E2 & E3 & E4 & E5 & Hn). split_and!; try done.
  - apply seen_none. lia.
  - lia.
Qed.

Lemma opt_get_hop_wp g0 n hops random (notempty notempty' : bool) (Q : Z * Z * bool + descriptor_t -> ostate -> tls windows -> Prop) g l :
  get_loop g0 n (hops, random, notempty) g l -> hops <> w -> (notempty' = true -> tG l < PW g) ->
  (still -> get_stuck g (get_i l)) ->
  (forall m c g' l', get_loop g0 m c g' l' -> (p_total P = true -> (m < n)%nat) -> Q (inl c) g' l') ->
  wp P t (let* (index, random, hops) := hop set (get_i l) random hops w in
          put (upd (set_get_index index)) ;;; continue (hops, random, notempty')) Q g l.
Proof.
  intros (Hok & L & Hd & Hh & Hr & Hhr & _ & Hst) Hlt Hne Hstuck HQ. pose proof Hok as (_ & _ & _ & Hpi & Hi & _).
  destruct (inv_windows g (ld_inv _ _ L)) as (_ & _ & HGP). destruct Hset as (Hw & _ & Hrh).
  assert (Hend : forall r hops' random' s st, 0 <= r < w -> 0 <= hops' <= w -> 0 <= random' <= rh ->
    (0 < hops' -> random' = rh) -> (still -> seen w r hops' (get_stuck g)) ->
    hops' + random' = hops + random + 1 ->
    Q (inl (hops', random', notempty')) g (upd (set_get_index r) (with_rng s st l))).
  { intros r hops' random' s st Hr' Hh' Hrr Hhr' Hs' Em. apply (HQ (Nat.pred n)).
    - split; [clear - Hok Hr'; thread_step Hok|]. split; [done|split; [exact Hd|]].
      do 4 (split; [done|]). intros Hs. destruct (Hst Hs) as (E1 & E2 & E3 & E4 & E5 & _ & Hn).
      split_and!; try done; [by apply Hs'|nia].
    - intros Htot. destruct (Hst (alone_still Htot)) as (_ & _ & _ & _ & _ & _ & Hn). lia. }
  wp_local. apply opt_hop_wp; [done|done|lia|..].
  - intros r s st Hrw Hlt'. wp_locals.
    assert (hops = 0) as -> by (destruct (decide (0 < hops)); [specialize (Hhr ltac:(lia))|]; lia).
    apply Hend; [done|lia|lia|lia|intros _; apply seen_none; lia|lia].
  - intros s st Er. wp_locals. apply Hend; [apply next_index_range; lia|lia|lia|lia| |lia].
    intros Hs. apply seen_next; [done|by apply Hstuck|]. destruct (Hst Hs) as (_ & _ & _ & _ & _ & Hseen & _). done.
Qed.

(** The shift itself; the put window is above the thread's get window. *)
Lemma cae_G_wp (Q : unit -> ostate -> tls windows -> Prop) g l :
  p_inv P g -> thread_ok g l -> (still -> sized g) -> tG l < PW g ->
  (forall g' l', leads g g' -> thread_id l' = t -> thread_Window l' = set_GWindow (GW g') (thread_Window l) ->
     (still -> subs g' = subs g /\ PW g' = PW g /\ (tG l = GW g -> GW g' = GW g + depth)) -> Q tt g' l') ->
  wp P t (cae_GWindow (u64 (tG l + depth))) Q g l.
Proof.
  intros HI (Ht & _ & _ & _ & _ & _ & HG) Hsz Hlt HQ g1 R1 I1 O1. pose proof (opt_leads_rely g g1 R1 I1) as L1.
  destruct Hset as (Hw & Hd & _). pose proof (ld_up _ _ L1) as [HupP _].
  destruct (decide (GW g1 = tG l)) as [E|Hne]; [rewrite decide_True by done|rewrite decide_False by done]; cbv zeta.
  - assert (Hsz1 : sized g1) by (apply opt_sized_ok; [done|intros Hs; rewrite (Hs _ _ R1); by apply Hsz]).
    pose proof (PW_bound g1 I1 Hsz1). destruct (inv_windows g1 I1) as ([a Ea] & [b Eb] & HG1).
    rewrite wrap_small by lia.
    set (g2 := set_window _ g1). assert (Hup : up (window g1) (window g2)) by (unfold up; cbn; lia).
    assert (Hb2 : p_inv base g2).
    { split; [|exact (opt_inv_subs g1 I1)]. unfold windows_ok, g2. cbn [set_window window global_PWindow global_GWindow].
      split; [by exists a|split; [exists (b + 1); cbn; nia|]]. cbn. assert (b < a) by nia. split; nia. }
    assert (HC2 : opt g2) by exact (inv_opt g1 I1).
    assert (I2 : p_inv P g2) by (by apply (couples_back (B := base) (C := opt))).
    split; [|split; [exact I2|]].
    + apply (couples_guar (B := base) (C := opt)). split; [exact Hup|apply (guar_refl (P := qprot w (2 ^ 62)))].
    + wp_locals. apply HQ; [|done|done|].
      * eapply opt_leads_trans; [exact L1|]. by split; [|apply evolves_refl|apply untouched_refl|].
      * intros Hs. rewrite <- (Hs _ _ R1). cbn. split; [done|split; [done|]]. lia.
  - split; [apply (guar_refl (P := P))|split; [exact I1|]]. wp_locals. apply HQ; [done|done|done|].
    intros Hs. rewrite (Hs _ _ R1) in *. done.
Qed.

(** The bound on the puts in the thread's sub-queue. *)
Lemma bound_wp (Q : Z -> ostate -> tls windows -> Prop) g l :
  p_inv P g -> thread_ok g l -> depth <= tP l < 2 ^ 63 ->
  (forall g' pc, p_rely P t g g' -> p_inv P g' -> pc <= tl g' (get_i l) ->
     (tG l < tP l /\ pc = tP l - depth \/ tP l <= tG l /\ pc = tl g' (get_i l)) -> Q pc g' l) ->
  wp P t (if tG l <? tP l then let* d := my thread_depth in Ret (u64 (tP l - d))
          else load_put dcount (get_i l)) Q g l.
Proof.
  intros HI (_ & Ed & _ & _ & Hi & HP & _) Hd HQ. destruct Hset as (? & ? & ?).
  destruct (Z.ltb_spec (tG l) (tP l)) as [Hlt|Hge].
  - wp_local. apply opt_my_wp. wp_locals. rewrite Ed, wrap_small by lia.
    destruct (inv_opt g HI _ Hi). apply HQ; [apply (rely_refl (P := P))|done|lia|by left].
  - apply opt_put_count_wp; [done|]. intros g1 R1 I1. apply HQ; [done..|by right].
Qed.

(** The shift from a get window that is used up. *)
Lemma opt_get_shift_wp g0 n random notempty (Q : Z * Z * bool + descriptor_t -> ostate -> tls windows -> Prop) g l :
  (still -> sized g0) -> get_loop g0 n (w, random, notempty) g l -> tG l < PW g -> (still -> get_stuck g (get_i l)) ->
  (forall m c g' l', get_loop g0 m c g' l' -> (p_total P = true -> (m < n)%nat) -> Q (inl c) g' l') ->
  wp P t ((let* d := my thread_depth in
           let* gmax := load_G in
           if tG l =? gmax then cae_GWindow (u64 (tG l + d)) else Ret tt) ;;;
          continue (0, random, false)) Q g l.
Proof.
  intros Hsz (Hok & L & Hd & _ & Hr & _ & _ & Hst) Hlt Hstuck HQ. pose proof Hset as (Hw & Hd16 & Hrh).
  pose proof Hok as (_ & Ed & _). wp_local. wp_local. apply opt_my_wp. rewrite Ed. wp_local. apply load_G_wp. intros g1 R1 I1.
  pose proof (opt_leads_rely g g1 R1 I1) as L1. pose proof (opt_leads_trans _ _ _ L L1) as L01. pose proof (ld_up _ _ L1) as [? ?].
  pose proof (opt_thread_ok_leads _ _ _ L1 Hok) as Hok1.
  assert (Hno : tG l <> GW g1 -> still -> False).
  { intros Hne Hs. destruct (Hst Hs) as (_ & _ & _ & E & _). rewrite (Hs _ _ R1) in Hne. done. }
  destruct (Z.eqb_spec (tG l) (GW g1)) as [E|Hne].
  2: { wp_locals. apply (HQ n); [|by intros Htot; destruct (Hno Hne (alone_still Htot))].
    apply get_loop_again; [done|done|done|done|]. intros Hs. destruct (Hno Hne Hs). }
  apply cae_G_wp; [done|done| |lia|].
  { intros Hs. destruct (Hst Hs) as (E1 & _). unfold sized. rewrite (Hs _ _ R1), E1. by apply Hsz. }
  intros g2 l2 L2 Ht2 Ew2 Hs2. wp_locals. pose proof (ld_up _ _ L2) as [? ?].
  destruct (inv_windows g2 (ld_inv _ _ L2)) as (_ & _ & HGP2).
  assert (Hnat : still -> (Z.to_nat ((PW g2 - GW g2) * (w + rh + 1) + w + (rh - random)) < Nat.pred n)%nat /\
    subs g2 = subs g0 /\ PW g2 = PW g0 /\ tP l = PW g2 /\ drained g2).
  { intros Hs. destruct (Hst Hs) as (E1 & E2 & E3 & E4 & E5 & Hseen & Hn). destruct (Hs2 Hs) as (F1 & F2 & F3).
    rewrite (Hs _ _ R1) in *. specialize (F3 E). split; [nia|]. split; [congruence|]. split; [congruence|].
    split; [congruence|]. intros j Hj. pose proof (seen_all _ _ _ _ Hseen (Z.le_refl _) j Hj) as Hj'.
    specialize (E5 j Hj). unfold get_stuck in Hj'. rewrite F1. lia. }
  apply (HQ (Nat.pred n)).
  - apply get_loop_again; [|by eapply opt_leads_trans| |done|].
    + clear - Hok1 Ht2 Ew2 HGP2 Hd Hd16 H1 H2. destruct Hok1 as (? & ? & ? & ? & ? & ? & ?).
      unfold thread_ok. rewrite Ew2. cbn. split_and!; solve [done|lia].
    + by rewrite Ew2.
    + intros Hs. destruct (Hnat Hs) as (? & ? & ? & ? & ?). rewrite Ew2. done.
  - intros Htot. destruct (Hnat (alone_still Htot)) as (? & _). lia.
Qed.

Lemma opt_get_window_body_wp g0 n hops random notempty (Q : Z * Z * bool + descriptor_t -> ostate -> tls windows -> Prop) g l :
  (still -> sized g0) -> get_loop g0 n (hops, random, notempty) g l ->
  (forall d g' l', get_window_post g0 d g' l' -> Q (inr d) g' l') ->
  (forall m c g' l', get_loop g0 m c g' l' -> (p_total P = true -> (m < n)%nat) -> Q (inl c) g' l') ->
  wp P t (get_window_body set (hops, random, notempty)) Q g l.
Proof.
  intros Hsz HJ HQ HQ'. pose proof HJ as (Hok & L & Hd & Hh & Hr & Hhr & Hne & Hst). pose proof (ld_inv _ _ L) as HI.
  pose proof Hok as (_ & Ed & Ew & Hpi & Hi & HP & HG). set (i := get_i l) in *.
  unfold get_window_body. wp_local. apply opt_my_wp. fold i. wp_local. apply opt_get_read_wp; [done|].
  intros g1 p d R1 I1 Hd1 Hdh Hl1. wp_local. apply opt_my_wp. wp_local. apply opt_my_wp. wp_local.
  pose proof (opt_leads_rely g g1 R1 I1) as L1.
  apply bound_wp; [done|by eapply opt_thread_ok_leads|done|]. fold i. intros g2 pc R2 I2 Hpc Hcase. wp_local.
  apply load_G_wp. intros g3 R3 I3. pose proof (opt_leads_then _ _ _ L1 R2 I2) as L2. pose proof (opt_leads_then _ _ _ L2 R3 I3) as L3.
  assert (Hst3 : still -> g3 = g) by (intros Hs; by rewrite (Hs _ _ R3), (Hs _ _ R2), (Hs _ _ R1)).
  pose proof (opt_get_loop_leads _ _ _ _ _ _ HJ L3 Hst3) as HJ3. pose proof (opt_leads_rely g2 g3 R3 I3) as L23.
  pose proof (opt_get_read_leads g1 g3 i p d (opt_leads_then _ _ _ (opt_leads_rely _ _ R2 I2) R3 I3) Hd1) as Hd3.
  pose proof (opt_leads_tail g2 g3 i L23) as Ht3. pose proof (ld_up _ _ L3) as [? ?].
  destruct HJ3 as (Hok3 & L03 & _ & _ & _ & _ & Hne3 & Hst3').
  destruct (inv_opt g3 I3 i Hi) as [Hlo Hhi]. destruct (positions g3 i I3 Hi) as [[? ?] _].
  destruct (Z.eqb_spec (tG l) (GW g3)) as [EG|Hneq]; cbn [negb].
  2: { wp_locals. assert (Hno : still -> False).
    { intros Hs. destruct (Hst Hs) as (_ & _ & _ & E & _). rewrite (Hst3 Hs) in Hneq. done. }
    apply (HQ' n); [|by intros Htot; destruct (Hno (alone_still Htot))].
    apply get_loop_again; [clear - Hok3 HG H0; thread_step Hok3|done|done|done|]. intros Hs. destruct (Hno Hs). }
  (* What a thread alone learns. *)
  assert (Halone : still -> subs g3 = subs g0 /\ PW g3 = PW g0 /\ tP l = PW g3 /\ drained g3 /\ lookup_get i g3 = Some d /\
    dcount d = hd g3 i /\ (tG l < tP l \/ GW g3 = PW g3 /\ pc = tl g3 i)).
  { intros Hs. destruct (Hst3' Hs) as (E1 & E2 & E3 & E4 & E5 & _). destruct Hd3 as (_ & Hd3).
    rewrite (Hst3 Hs) in *. rewrite (Hs _ _ R2), (Hs _ _ R1) in *. specialize (Hl1 Hs).
    destruct (inv_windows g HI) as (_ & _ & ?). split_and!; try done; [lia|].
    destruct Hcase as [[? _]|[? ->]]; [by left|right; split; [lia|done]]. }
  destruct (_ && _) eqn:E.
  - apply andb_prop in E as [E1%Z.ltb_lt E2%Z.ltb_lt]. wp_locals. apply HQ.
    split; [done|split; [done|split; [done|]]]. exists p. fold i. split; [done|]. split; [left; lia|].
    intros Hs. destruct (Halone Hs) as (F1 & F2 & F3 & F4 & F5 & F6 & _). do 6 (split; [done|]). left. lia.
  - assert (Hstuck : still -> get_stuck g3 i).
    { intros Hs. destruct (Halone Hs) as (F1 & F2 & F3 & F4 & F5 & F6 & F7). unfold get_stuck.
      destruct (Z.ltb_spec (dcount d) (tG l)) as [Hlt|]; [|left; lia]. cbn [andb] in E. apply Z.ltb_ge in E.
      destruct F7 as [Hlt'|[F7 ->]]; [|right; split; [done|lia]]. exfalso.
      destruct Hcase as [[_ ->]|[? _]]; [|lia]. destruct (inv_windows g3 I3) as ([a Ea] & [b Eb] & ?).
      destruct Hset as (_ & Hd16 & _). assert (b < a) by nia. nia. }
    assert (Hne' : forall ne, ne = (if dcount d <? pc then true else notempty) -> ne = true -> tG l < PW g3).
    { intros ne -> Hne'. destruct (Z.ltb_spec (dcount d) pc) as [Hlt|]; [|by apply Hne3].
      rewrite andb_true_r in E. apply Z.ltb_ge in E. destruct (inv_opt g2 I2 i Hi) as [_ ?].
      destruct (positions g2 i I2 Hi) as [[_ ?] _]. pose proof (ld_up _ _ L23) as [? _]. lia. }
    wp_local. apply opt_my_wp. rewrite Ew. destruct (Z.eqb_spec hops w) as [->|Hnw]; cbn [negb].
    + wp_local. assert (Hgo : forall g4, p_rely P t g3 g4 -> p_inv P g4 -> tG l < PW g4 ->
        wp P t ((let* d := my thread_depth in
           let* gmax := load_G in
           if tG l =? gmax then cae_GWindow (u64 (tG l + d)) else Ret tt) ;;;
          continue (0, random, false)) Q g4 l).
      { intros g4 R4 I4 Hlt. pose proof (opt_leads_then _ _ _ L3 R4 I4) as L4.
        assert (Hst4 : still -> g4 = g) by (intros Hs; by rewrite (Hs _ _ R4), (Hst3 Hs)).
        apply (opt_get_shift_wp g0 n random notempty); [done|by apply (opt_get_loop_leads _ _ _ g)|done| |done].
        intros Hs. rewrite (Hs _ _ R4). by apply Hstuck. }
      destruct notempty; [wp_local; apply Hgo; [apply (rely_refl (P := P))|done|by apply Hne3]|].
      wp_local. apply load_P_wp. intros g4 R4 I4. wp_local. pose proof (opt_leads_rely g3 g4 R4 I4) as L4.
      pose proof (opt_thread_ok_leads _ _ _ L4 Hok3) as Hok4. pose proof Hok4 as (_ & _ & _ & _ & _ & HP4 & HG4).
      destruct (inv_windows g4 I4) as (_ & _ & HGP4). pose proof (ld_up _ _ L4) as [? ?].
      destruct (Z.eqb_spec (tG l) (PW g4)) as [EP|HneP]; cbn [negb]; [|apply Hgo; [done|done|lia]].
      wp_locals. apply HQ. split; [by eapply opt_leads_trans|split; [done|split; [done|]]]. exists p. fold i.
      split; [by apply (opt_get_read_leads g3)|]. split; [right; lia|]. intros Hs. rewrite (Hs _ _ R4) in *.
      destruct (Halone Hs) as (F1 & F2 & F3 & F4 & F5 & F6 & _). do 6 (split; [done|]). right. split; [lia|].
      intros j Hj. destruct (Hst3' Hs) as (_ & _ & _ & _ & _ & Hseen & _).
      pose proof (seen_all _ _ _ _ Hseen (Z.le_refl _) j Hj) as Hj'. destruct (inv_opt g3 I3 j Hj).
      destruct (positions g3 j I3 Hj). unfold get_stuck in Hj'. lia.
    + apply (opt_get_hop_wp g0 n hops random notempty); [|done|by apply Hne'|done|done].
      by apply (opt_get_loop_leads _ _ _ g).
Qed.

Lemma opt_get_window_wp contention (Q : descriptor_t -> ostate -> tls windows -> Prop) g l :
  p_inv P g -> thread_ok g l -> depth <= tP l < 2 ^ 63 -> (still -> sized g /\ drained g /\ tP l = PW g) ->
  (forall d g' l', get_window_post g d g' l' -> Q d g' l') ->
  wp P t (get_window set contention) Q g l.
Proof.
  intros HI Hok Hd Hs HQ. pose proof Hset as (Hw & _ & Hrh). unfold get_window.
  assert (Hloop : forall l1, thread_ok g l1 -> tP l1 = tP l -> wp P t ((let* gmax := load_G in put (upd (set_GWindow gmax))) ;;;
      let* descriptor := while (get_window_body set) (0, 0, false) in
      put (upd (fun w => set_put_index (thread_get_index w) w)) ;;; Ret descriptor) Q g l1).
  { intros l1 Hok1 EP. wp_local. wp_local. apply load_G_wp. intros g1 R1 I1. wp_local. wp_local.
    pose proof (opt_leads_rely g g1 R1 I1) as L1. pose proof (opt_thread_ok_leads _ _ _ L1 Hok1) as Hok'.
    eapply (wp_while P t _ _ _ _ (fun n c => get_loop g n c)).
    - apply get_loop_again; [clear - Hok'; thread_step Hok'|done|cbn; lia|lia|].
      intros Hst. rewrite (Hst _ _ R1). destruct (Hs Hst) as (_ & ? & ?). cbn. split_and!; try done; [congruence|].
      apply Nat.lt_succ_diag_r.
    - intros n [[hops random] notempty] g3 l3 HJ. apply (opt_get_window_body_wp g n hops random notempty);
        [by intros; apply Hs|done|..].
      + intros d g4 l4 (L4 & Hok4 & Hd4 & p & Hp). wp_locals. apply HQ.
        split; [done|split; [clear - Hok4; thread_step Hok4|split; [done|]]]. by exists p.
      + intros m c g4 l4 HJ4 Hm. by exists m. }
  wp_local. destruct contention; [|wp_local; by apply Hloop].
  wp_local. apply opt_my_wp. pose proof Hok as (_ & _ & Ew & _). rewrite Ew. wp_local. apply opt_random_wp. intros r s Hr. wp_local.
  apply Hloop; [|done]. clear - Hok Hr. thread_step Hok.
Qed.
End windows.
