(* ===== verification/OptQueue.v ===== *)
(** The operations of the optimized 2Dd queue, for a thread among others and for a
    thread that runs alone. *)
From S2P Require Import Prelude Conc Random Thread StackHeap QueueHeap Shared SubQueues QueueOpt OptWindow.

Section operations.
Context {A : Allocator (qnode_of unit)}.
Context (set : mqueue_t) (Hset : set_ok set).
Notation w := (width set).
Notation depth := (depth set).
Notation base := (opt_base set).
Notation opt := (opt set).
Context (P : protocol ostate) (t : nat) {couples : Couples P base opt t}.
Implicit Types (g : ostate) (l : tls windows).
Notation PW g := (global_PWindow (window g)).
Notation GW g := (global_GWindow (window g)).
Notation tl g i := (Z.of_nat (tail_pos (subs g) i)).
Notation hd g i := (Z.of_nat (head_pos (subs g) i)).
Notation tP l := (thread_PWindow (thread_Window l)).
Notation tG l := (thread_GWindow (thread_Window l)).
Notation put_i l := (thread_put_index (thread_Window l)).
Notation get_i l := (thread_get_index (thread_Window l)).
Notation still := (forall g g', p_rely P t g g' -> g' = g).
Context (alone_still : p_total P = true -> still).
Context (Hmode : still \/ forall g, p_ok P g -> p_ok base g).

#[local] Instance oreads : Reads P base t := couples_reads (C := opt).
#[local] Instance olaws : ProtocolLaws P := reads_laws (B := base) (t := t).

Notation sub_rule f := (f (win_prot set) w (2 ^ 62) P t) (only parsing).
Notation sub_step f := (f (win_prot set) _ w (2 ^ 62) P t opt) (only parsing).
Notation leads := (leads P t).
Notation thread_ok := (thread_ok set t).
Notation drained := (drained set).
Notation inv_opt := (inv_opt set P t).
Notation opt_inv_subs := (opt_inv_subs set P t).

(** *** The coupling does not look at the nodes and the observations *)

Lemma opt_with_heap g m : opt g -> opt (set_subs (with_heap m (subs g)) g).
Proof. done. Qed.
Lemma opt_with_nothing g i : opt g -> opt (set_subs (with_event (t, Nothing i) (subs g)) g).
Proof. done. Qed.

Lemma opt_leads_did g g' : leads g g' -> (still -> hist (subs g') = hist (subs g)) -> did_op P t [] g g'.
Proof. intros [I E [_ Em] _] Hs. split; [by split|done]. Qed.

(** The entry that was read is that of its node. *)
Lemma put_position g i k d :
  p_inv P g -> 0 <= i < w -> put_read g i k d -> tail_pos (subs g) i = k ->
  lookup_put i g = Some d /\ dcount d = Z.of_nat k.
Proof.
  intros HI Hi (_ & _ & Hd) Ht. specialize (Hd Ht). split; [done|].
  destruct (opt_inv_subs g HI) as (_&_&_&_&_&_&_&Hq). destruct (Hq i Hi) as (dp & dg & Hs).
  pose proof (sa_put _ _ _ _ Hs) as Ep. unfold lookup_put in Hd. assert (dp = d) as -> by congruence.
  pose proof (sa_putok _ _ _ _ Hs) as Hc. cbn in Hc. lia.
Qed.
Lemma opt_get_position g i p d :
  p_inv P g -> 0 <= i < w -> lookup_get i g = Some d -> at_pos (subs g) i p (dnode d) ->
  head_pos (subs g) i = p /\ dcount d = Z.of_nat p.
Proof.
  intros HI Hi E Hk. destruct (opt_inv_subs g HI) as (_&_&_&_&_&_&_&Hq). destruct (Hq i Hi) as (dp & dg & Hs).
  pose proof (sa_geta _ _ _ _ Hs) as Hg. pose proof (sa_get _ _ _ _ Hs) as E'. unfold lookup_get in E.
  assert (dg = d) as -> by congruence. pose proof (sa_getok _ _ _ _ Hs) as Hc. cbn in Hc.
  rewrite (at_pos_inj w _ _ _ _ _ (opt_inv_subs g HI) Hi Hg Hk) in *. done.
Qed.

(** The next count does not wrap. *)
Lemma next_count i k b g :
  p_inv P g -> p_ok P g -> (still -> sized g) -> 0 <= i < w -> at_pos (subs g) i (S k) b ->
  u64 (Z.of_nat k + 1) = Z.of_nat (S k).
Proof.
  intros HI O Hs Hi Hb. pose proof (opt_sized_ok set P t Hmode g O Hs) as Hsz. unfold sized in Hsz.
  destruct (positions set P t g i HI Hi) as [_ ?]. apply lookup_lt_Some in Hb. rewrite wrap_small; lia.
Qed.

(** *** [enqueue] *)

(** Between the operations of a thread alone. *)
Definition settled g : Prop := forall j, 0 <= j < w -> length (links_of (subs g) j) = S (tail_pos (subs g) j).
Definition quiet g : Prop := settled g /\ drained g.
Definition room g : Prop := Z.of_nat (length (hist (subs g))) + 1 < 2 ^ 62.
Definition moved g0 g : Prop := PW g = PW g0 \/ PW g = PW g0 + depth.

(** While the new node is the thread's own. *)
Definition enqueue_loop (key v a : Z) g0 g l : Prop :=
  thread_ok g l /\ leads g0 g /\ owned t a (mkQnode 0 key v) g /\
  (still -> quiet g /\ room g /\ hist (subs g) = hist (subs g0) /\ PW g = PW g0 /\ GW g = GW g0).

(** After the link. *)
Definition enqueued (v a : Z) g0 (d new : descriptor_t) g l : Prop :=
  let i := put_i l in
  thread_ok g l /\ exists p,
  did_op P t [Enq i (Z.of_nat (S p)) v] g0 g /\
  at_pos (subs g) i p (dnode d) /\ at_pos (subs g) i (S p) a /\
  new = mkDesc a (u64 (dcount d + 1)) /\
  (still -> sized g /\ lookup_put i g = Some d /\ GW g = GW g0 /\ moved g0 g /\ drained g /\ Z.of_nat p < PW g /\
     forall j, 0 <= j < w -> length (links_of (subs g) j) =
       (tail_pos (subs g) j + if decide (i = j) then 2 else 1)%nat).

(** The link of the new node. *)
Lemma opt_enqueue_link_wp key v a g0 p d (Q : bool -> ostate -> tls windows -> Prop) g l :
  let i := put_i l in
  thread_ok g l -> leads g0 g -> owned t a (mkQnode 0 key v) g -> put_read g i p d -> dcount d < tP l ->
  (still -> quiet g /\ room g /\ hist (subs g) = hist (subs g0) /\ moved g0 g /\ GW g = GW g0 /\ tail_pos (subs g) i = p) ->
  (forall g', enqueued v a g0 d (mkDesc a (u64 (dcount d + 1))) g' l -> Q true g' l) ->
  (forall g', thread_ok g' l -> leads g0 g' -> owned t a (mkQnode 0 key v) g' -> (still -> False) -> Q false g' l) ->
  wp P t (enq_cae i (dnode d) a) Q g l.
Proof.
  intros i Hok L Ho Hd Hlt Hst HQ HQ'. pose proof (ld_inv _ _ _ _ L) as HI.
  pose proof Hok as (Ht & _ & _ & Hi & _ & HP & _). fold i in Hi. pose proof Hd as (Hk & Hc & Hdl).
  unfold enq_cae. apply ((sub_step wp_cas_next_c) i p (dnode d) a (mkQnode 0 key v)); try done; [lia|..].
  - intros g1 R1 I1 O1 Hlen Htl. pose proof (opt_leads_rely set P t g g1 R1 I1) as L1. intros j Hj.
    cbn [set_subs window subs]. change (tail_pos (linked _ _ _ _ _ _) j) with (tail_pos (subs g1) j).
    destruct (inv_opt g1 I1 j Hj) as [? ?]. split; [done|]. pose proof (ld_up _ _ _ _ L1) as [? ?].
    rewrite (links_of_linked w) by (by apply opt_inv_subs || lia). destruct (decide _) as [Ej|]; [|done].
    rewrite length_app. cbn [length]. lia.
  - intros g1 g2 R1 I1 D E2 Hlen Ha2 Htl. pose proof (opt_leads_rely set P t g g1 R1 I1) as L1.
    destruct D as (I2 & He2 & Em2). apply HQ.
    split; [rewrite E2; exact (opt_thread_ok_leads set P t _ _ _ L1 Hok)|]. exists p. fold i. split_and!.
    + apply (did_op_step (win_prot set) w (2 ^ 62) P t [Enq i (Z.of_nat (S p)) v] [] g0 g g1 g2); [|done|by split|].
      * apply opt_leads_did; [done|]. intros Hs. by apply Hst.
      * intros _. rewrite E2. cbn [subs set_subs linked hist]. by rewrite Hlen.
    + rewrite E2 in He2 |- *. apply (at_pos_evolves (subs g1)); [done|]. exact (opt_leads_at_pos P t _ _ _ _ _ L1 Hk).
    + done.
    + done.
    + intros Hs. destruct (Hst Hs) as ((Hq & Hdr) & Hr & Eh & Hm & EG & Et). rewrite (Hs _ _ R1) in *. rewrite E2.
      destruct (put_position g i p d HI Hi Hd Et) as [El Ec]. cbn [set_subs window subs].
      split; [unfold sized, room in *; cbn [set_subs subs linked hist length]; lia|].
      split; [exact El|split; [done|split; [done|split; [exact Hdr|split; [lia|]]]]].
      intros j Hj. rewrite (links_of_linked w) by (by apply opt_inv_subs || lia).
      change (tail_pos (linked t i (dnode d) a (mkQnode 0 key v) (subs g)) j) with (tail_pos (subs g) j).
      specialize (Hq j Hj). destruct (decide (i = j)) as [<-|].
      * rewrite decide_True by done. rewrite length_app. cbn. lia.
      * rewrite decide_False by lia. lia.
  - intros g1 R1 I1 Hlt1. pose proof (opt_leads_rely set P t g g1 R1 I1) as L1. apply HQ'.
    + exact (opt_thread_ok_leads set P t _ _ _ L1 Hok).
    + exact (opt_leads_trans P t _ _ _ L L1).
    + exact (opt_leads_owned P t _ _ _ _ L1 Ho).
    + intros Hs. destruct (Hst Hs) as ((Hq & _) & _ & _ & _ & _ & Et). rewrite (Hs _ _ R1) in Hlt1.
      specialize (Hq i Hi). lia.
Qed.

(** The tail pointer of sub-queue [i] moves on. *)
Lemma opt_cae_put_wp i d b p (Q : bool -> ostate -> tls windows -> Prop) g l :
  p_inv P g -> (still -> sized g) -> 0 <= i < w -> at_pos (subs g) i p (dnode d) -> at_pos (subs g) i (S p) b ->
  let new := mkDesc b (u64 (dcount d + 1)) in
  (forall g1, p_rely P t g g1 -> lookup_put i g1 = Some d -> tail_pos (subs g1) i = p ->
     let g2 := set_subs (with_put i new (subs g1)) g1 in
     leads g g2 -> tail_pos (subs g2) i = S p -> Q true g2 l) ->
  (forall g1, p_rely P t g g1 -> p_inv P g1 -> lookup_put i g1 <> Some d -> Q false g1 l) ->
  wp P t (cae_put i d new) Q g l.
Proof.
  intros HI Hsz Hi Hp Hb new HQ HQ'. apply ((sub_step wp_cae_put_c) i p d new); try done.
  - intros g1 R1 I1 O1 Hc. cbn in Hc |- *. rewrite Hc. apply (next_count i p b g1); try done.
    + intros Hs. rewrite (Hs _ _ R1). by apply Hsz.
    + exact (opt_leads_at_pos P t _ _ _ _ _ (opt_leads_rely set P t _ _ R1 I1) Hb).
  - intros g1 R1 I1 O1 E1 Htl Hb1 j Hj. cbn [set_subs window subs].
    change (links_of (with_put i new (subs g1)) j) with (links_of (subs g1) j).
    rewrite (tail_pos_with_put w) by (done || by apply opt_inv_subs). destruct (inv_opt g1 I1 j Hj).
    destruct (decide _) as [Ej|]; [|done]. assert (i = j) as <- by lia. lia.
  - intros g1 R1 I1 O1 E1 Htl g2 I2 He2 Htl2. apply HQ; try done.
    eapply opt_leads_trans; [by apply (opt_leads_rely set)|]. split; [done|done|by split|]. unfold up. cbn. lia.
Qed.

Lemma opt_enqueued_rely v a g0 d new g g' l :
  enqueued v a g0 d new g l -> p_rely P t g g' -> p_inv P g' -> enqueued v a g0 d new g' l.
Proof.
  intros (Hok & p & D & Hk & Ha & En & Hst) R I.
  pose proof (opt_leads_rely set P t g g' R I) as L. split; [exact (opt_thread_ok_leads set P t _ _ _ L Hok)|].
  exists p. split; [by apply ((sub_rule did_op_rely) _ g0 g g')|].
  split; [exact (opt_leads_at_pos P t _ _ _ _ _ L Hk)|split; [exact (opt_leads_at_pos P t _ _ _ _ _ L Ha)|]].
  split; [done|]. intros Hs. rewrite (Hs _ _ R). by apply Hst.
Qed.

(** What follows a failed attempt; a thread alone does not fail. *)
Lemma enqueue_retry_wp key v a g0 c (Q : bool + descriptor_t * descriptor_t -> ostate -> tls windows -> Prop) g l :
  thread_ok g l -> leads g0 g -> owned t a (mkQnode 0 key v) g -> (still -> False) ->
  (forall c g' l', enqueue_loop key v a g0 g' l' -> (p_total P = true -> False) -> Q (inl c) g' l') ->
  Q (inl c) g (count_stat inc_put_cas_fail l).
Proof.
  intros Hok L Ho Hno HQ. apply HQ; [|by intros Htot; destruct (Hno (alone_still Htot))].
  split; [exact Hok|split; [done|split; [done|]]]. intros Hs. destruct (Hno Hs).
Qed.

Lemma opt_enqueue_body_wp key v a g0 contention
    (Q : bool + descriptor_t * descriptor_t -> ostate -> tls windows -> Prop) g l :
  enqueue_loop key v a g0 g l ->
  (forall d new g' l', enqueued v a g0 d new g' l' -> Q (inr (d, new)) g' l') ->
  (forall c g' l', enqueue_loop key v a g0 g' l' -> (p_total P = true -> False) -> Q (inl c) g' l') ->
  wp P t (enqueue_body set a contention) Q g l.
Proof.
  intros (Hok & L & Ho & Hst) HQ HQ'. pose proof (ld_inv _ _ _ _ L) as HI. unfold enqueue_body. wp_local.
  apply (opt_put_window_wp set Hset P t alone_still Hmode); [done|done| |].
  { intros Hs. destruct (Hst Hs) as (_ & Hr & _). unfold sized, room in *. lia. }
  intros d g1 l1 (L1 & Hok1 & Hle1 & Hlt & p & Hd1 & Hs1). pose proof (ld_inv _ _ _ _ L1) as I1.
  pose proof Hok1 as (_ & _ & _ & Hi & _). set (i := put_i l1) in *.
  assert (Hquiet : still -> quiet g1 /\ room g1 /\ hist (subs g1) = hist (subs g0) /\ moved g0 g1 /\ GW g1 = GW g0 /\
    tail_pos (subs g1) i = p).
  { intros Hs. destruct (Hst Hs) as ((Hq & Hdr) & Hr & Eh & EP & EG). destruct (Hs1 Hs) as (Et & Es & EG1 & _ & Hm).
    unfold quiet, settled, OptWindow.drained, room, moved in *. rewrite Es, EG1, <- EP. split_and!; try done. by rewrite <- Es. }
  pose proof (opt_leads_trans P t _ _ _ L L1) as L01. pose proof (opt_leads_owned P t _ _ _ _ L1 Ho) as Ho1.
  wp_local. apply (opt_my_wp P t). wp_local. apply (opt_my_wp P t). wp_local. apply wp_assert; [by apply Z.leb_le|]. wp_local.
  apply wp_assert; [by apply Z.ltb_lt|]. wp_local. apply (opt_my_wp P t). fold i. wp_local.
  apply (opt_put_count_wp set P t i); [done|]. intros g2 R2 I2. pose proof (opt_leads_rely set P t g1 g2 R2 I2) as L2.
  destruct (Z.leb_spec (tP l1) (tl g2 i)) as [Hfull|Hroom].
  { wp_local. assert (Hno : still -> False).
    { intros Hs. destruct (Hquiet Hs) as (_ & _ & _ & _ & _ & Et). rewrite (Hs _ _ R2) in Hfull.
      destruct (put_position g1 i p d I1 Hi Hd1 Et). lia. }
    apply HQ'; [|by intros Htot; destruct (Hno (alone_still Htot))].
    split; [exact (opt_thread_ok_leads set P t _ _ _ L2 Hok1)|split; [exact (opt_leads_trans P t _ _ _ L01 L2)|]].
    split; [exact (opt_leads_owned P t _ _ _ _ L2 Ho1)|]. intros Hs. destruct (Hno Hs). }
  wp_local. apply ((sub_rule wp_qload_next) i p); [done|exact (opt_leads_at_pos P t _ _ _ _ _ L2 (proj1 Hd1))|..].
  - intros g3 R3 I3 Hlen3. cbn [Z.eqb]. wp_local. pose proof (opt_leads_then set P t _ _ _ L2 R3 I3) as L3.
    apply (opt_enqueue_link_wp key v a g0 p d _ g3 l1).
    + exact (opt_thread_ok_leads set P t _ _ _ L3 Hok1).
    + exact (opt_leads_trans P t _ _ _ L01 L3).
    + exact (opt_leads_owned P t _ _ _ _ L3 Ho1).
    + exact (opt_put_read_leads set P t _ _ _ _ _ I1 Hi L3 Hd1).
    + done.
    + intros Hs. rewrite (Hs _ _ R3), (Hs _ _ R2). by apply Hquiet.
    + intros g4 HE. wp_locals. by apply HQ.
    + intros g4 Hok4 L4 Ho4 Hno. wp_locals. by apply (enqueue_retry_wp key v a g0).
  - intros b g3 R3 I3 Hb0 Hb3. rewrite (proj2 (Z.eqb_neq _ _) Hb0). wp_local.
    pose proof (opt_leads_then set P t _ _ _ L2 R3 I3) as L3.
    assert (Hno : still -> False).
    { intros Hs. destruct (Hquiet Hs) as ((Hq & _) & _ & _ & _ & _ & Et). specialize (Hq i Hi).
      rewrite (Hs _ _ R3), (Hs _ _ R2) in Hb3. apply lookup_lt_Some in Hb3. lia. }
    apply ((sub_rule wp_qload_next_known) i p _ b); [done|exact (opt_leads_at_pos P t _ _ _ _ _ L3 (proj1 Hd1))|done|].
    intros g4 R4 I4. wp_local. pose proof (opt_leads_then set P t _ _ _ L3 R4 I4) as L4.
    assert (Hend : forall ok g5, leads g1 g5 -> wp P t (put (count_stat inc_put_cas_fail) ;;;
        continue (if ok : bool then contention else true)) Q g5 l1).
    { intros ok g5 L5. wp_locals. apply (enqueue_retry_wp key v a g0); try done.
      - exact (opt_thread_ok_leads set P t _ _ _ L5 Hok1).
      - exact (opt_leads_trans P t _ _ _ L01 L5).
      - exact (opt_leads_owned P t _ _ _ _ L5 Ho1). }
    apply (opt_cae_put_wp i d b p); [done|by intros Hs; destruct (Hno Hs)|done| | |..].
    + exact (opt_leads_at_pos P t _ _ _ _ _ L4 (proj1 Hd1)).
    + exact (opt_leads_at_pos P t _ _ _ _ _ (opt_leads_rely set P t _ _ R4 I4) Hb3).
    + intros g5 _ _ _ g6 L6 _. apply (Hend true). exact (opt_leads_trans P t _ _ _ L4 L6).
    + intros g5 R5 I5 _. apply (Hend false). exact (opt_leads_then set P t _ _ _ L4 R5 I5).
Qed.

(** For a thread alone: the element is the last of its sub-queue, in the put
    window. *)
Definition enqueued_alone g0 g (i k : Z) : Prop :=
  quiet g /\ GW g = GW g0 /\ moved g0 g /\ k = tl g i /\ PW g - depth < k <= PW g.

Lemma opt_enqueue_finish_wp v a g0 d new (Q : Z -> ostate -> tls windows -> Prop) g l :
  enqueued v a g0 d new g l -> p_inv P g ->
  (forall i k g' l', thread_ok g' l' -> 0 <= i < w -> did_op P t [Enq i k v] g0 g' ->
     (still -> enqueued_alone g0 g' i k) -> Q 1 g' l') ->
  wp P t (let* index := my thread_put_index in let* _ := cae_put index d new in Ret 1) Q g l.
Proof.
  intros (Hok & p & D & Hk & Ha & -> & Hst) HI HQ. pose proof Hok as (_ & _ & _ & Hi & _).
  set (i := put_i l) in *. wp_local. apply (opt_my_wp P t). fold i. wp_local.
  apply (opt_cae_put_wp i d a p); [done|by intros Hs; apply Hst|done|done|done|..].
  - intros g1 R1 E1 Htl1 g2 L2 Htl2. wp_locals. apply (HQ i (Z.of_nat (S p))); [|done|..].
    + exact (opt_thread_ok_leads set P t _ _ _ L2 Hok).
    + apply (did_op_then P t _ [] g0 g g2 D). apply opt_leads_did; [done|]. intros Hs. by rewrite <- (Hs _ _ R1).
    + intros Hs. pose proof (Hs _ _ R1) as Eg. subst g1. destruct (Hst Hs) as (_ & Ed & EG & Hm & Hdr & Hlt & Hse).
      unfold g2 in *. cbn [set_subs window subs] in Htl2. split; [split|split; [done|split; [done|split]]].
      * intros j Hj. cbn [set_subs subs]. change (links_of (with_put _ _ (subs g)) j) with (links_of (subs g) j).
        rewrite Hse, (tail_pos_with_put w) by (done || by apply opt_inv_subs). destruct (decide (i = j)) as [<-|].
        -- rewrite decide_True by done. lia.
        -- rewrite decide_False by lia. lia.
      * exact Hdr.
      * cbn [set_subs subs]. by rewrite Htl2.
      * cbn [set_subs window]. destruct (inv_opt g HI i Hi). lia.
  - intros g1 R1 I1 Hne. wp_locals. apply (HQ i (Z.of_nat (S p))); [|done|..].
    + exact (opt_thread_ok_leads set P t _ _ _ (opt_leads_rely set P t g g1 R1 I1) Hok).
    + by apply ((sub_rule did_op_rely) _ g0 g g1).
    + intros Hs. destruct Hne. rewrite (Hs _ _ R1). by apply Hst.
Qed.

Lemma opt_enqueue_wp key v (Q : Z -> ostate -> tls windows -> Prop) g l :
  p_inv P g -> thread_ok g l -> (still -> quiet g /\ room g) ->
  (forall i k g' l', thread_ok g' l' -> 0 <= i < w -> did_op P t [Enq i k v] g g' ->
     (still -> enqueued_alone g g' i k) -> Q 1 g' l') ->
  wp P t (enqueue set key v) Q g l.
Proof.
  intros HI Hok Hst HQ. pose proof Hok as [Ht _]. unfold enqueue, create_node. wp_local.
  apply ((sub_step wp_qalloc_c) opt_with_heap); [done|]. intros a g1 m R1 I1 g2 I2 He2 Hu2 Ho2. wp_local.
  assert (L2 : leads g g2).
  { eapply opt_leads_trans; [by apply (opt_leads_rely set)|]. split; [done|done|done|]. unfold up. cbn. lia. }
  eapply (wp_while P t _ _ _ _ (fun _ _ => enqueue_loop key v a g) 0%nat).
  - split; [exact (opt_thread_ok_leads set P t _ _ _ L2 Hok)|split; [done|split; [done|]]].
    intros Hs. destruct (Hst Hs) as (Hq & Hr). unfold g2. rewrite (Hs _ _ R1). cbn. done.
  - intros n c g3 l3 HJ. apply (opt_enqueue_body_wp key v a g c); [done|..].
    + intros d new g4 l4 HE. wp_local. cbv beta iota. apply (opt_enqueue_finish_wp v a g d new); [done| |done].
      by destruct HE as (_ & p & ((? & _) & _) & _).
    + intros c' g4 l4 HJ4 Hn. exists 0%nat. split; [|done]. intros Htot. destruct (Hn Htot).
Qed.

(** *** [dequeue] *)

Lemma opt_safe_deq_wp g0 p d (Q : bool + Z -> ostate -> tls windows -> Prop) g l :
  let i := get_i l in
  thread_ok g l -> leads g0 g -> get_read g i p d -> (p < tail_pos (subs g) i)%nat ->
  (still -> sized g /\ hist (subs g) = hist (subs g0) /\ lookup_get i g = Some d) ->
  (forall v g' l', thread_ok g' l' -> did_op P t [Deq i (Z.of_nat (S p)) v] g0 g' ->
     (still -> exists new, g' = set_subs (taken t i p new v (subs g)) g) -> Q (inr v) g' l') ->
  (forall g' l', thread_ok g' l' -> leads g0 g' -> thread_Window l' = thread_Window l -> (still -> False) ->
     Q (inl true) g' l') ->
  wp P t (safe_deq i d) Q g l.
Proof.
  intros i Hok L Hd Hpt Hst HQ HQ'. pose proof (ld_inv _ _ _ _ L) as HI.
  pose proof Hok as (Ht & _ & _ & _ & Hi & _). fold i in Hi. destruct Hd as (Hk & Hkh).
  destruct (lookup_lt_is_Some_2 (links_of (subs g) i) (S p)) as [b Hkb].
  { destruct (positions set P t g i HI Hi) as [[_ ?] _]. lia. }
  unfold safe_deq. wp_local. apply ((sub_rule wp_qload_next_known) i p _ b); [done|done|done|].
  intros g1 R1 I1. wp_local. pose proof (opt_leads_rely set P t g g1 R1 I1) as L1.
  set (new := mkDesc b (u64 (dcount d + 1))).
  unfold deq_cae. apply ((sub_step wp_cae_get_c) i p d new); [done|done|by apply (opt_leads_at_pos P t g)|..].
  - intros g2 R2 I2 O2 E2 Hp2. pose proof (opt_leads_then set P t _ _ _ L1 R2 I2) as L2.
    pose proof (opt_leads_tail P t _ _ i L2). pose proof (opt_leads_at_pos P t _ _ _ _ _ L2 Hkb) as Hkb2.
    split; [lia|split; [done|split; [|intros v; exact (inv_opt g2 I2)]]].
    intros Hc. cbn in Hc |- *. rewrite Hc. apply (next_count i p b g2); try done.
    intros Hs. rewrite (Hs _ _ R2), (Hs _ _ R1). by apply Hst.
  - intros g2 g3 n R2 I2 E2 Hp2 En D E3. wp_local. pose proof (opt_leads_then set P t _ _ _ L1 R2 I2) as L2.
    pose proof D as (I3 & He3 & _).
    apply ((sub_rule wp_qload_val) i (S p) b n); [done|done| | |].
    + rewrite E3. exact (opt_leads_at_pos P t _ _ _ _ _ L2 Hkb).
    + by rewrite E3.
    + intros g4 R4 I4. wp_locals. apply HQ.
      * apply (opt_thread_ok_leads set P t g3 g4); [by apply (opt_leads_rely set)|]. rewrite E3.
        exact (opt_thread_ok_leads set P t _ _ _ L2 Hok).
      * apply ((sub_rule did_op_rely) _ g0 g3 g4); [|done|done].
        apply ((sub_rule did_op_step) [Deq i (Z.of_nat (S p)) (qval n)] [] g0 g2 g2 g3); [|apply (rely_refl (P := P))|exact D|].
        -- apply opt_leads_did; [exact (opt_leads_trans P t _ _ _ L L2)|]. intros Hs. rewrite (Hs _ _ R2), (Hs _ _ R1). by apply Hst.
        -- intros _. by rewrite E3.
      * intros Hs. rewrite (Hs _ _ R4), E3, (Hs _ _ R2), (Hs _ _ R1). by exists new.
  - intros g2 R2 I2 Hne. wp_locals. pose proof (opt_leads_then set P t _ _ _ L1 R2 I2) as L2. apply HQ'.
    + exact (opt_thread_ok_leads set P t _ _ _ L2 Hok).
    + exact (opt_leads_trans P t _ _ _ L L2).
    + done.
    + intros Hs. apply Hne. rewrite (Hs _ _ R2), (Hs _ _ R1). by apply Hst.
Qed.

(** For a thread alone: the element is the first of its sub-queue, in the get
    window; or there is none. *)
Definition dequeued_alone g0 g (i v : Z) : Prop :=
  let k := head_pos (subs g0) i in
  quiet g /\ PW g = PW g0 /\ (k < tail_pos (subs g0) i)%nat /\ (exists new, subs g = taken t i k new v (subs g0)) /\
  (forall j, 0 <= j < w -> GW g - depth <= hd g0 j) /\ hd g0 i < GW g.
Definition empty_alone g0 g (i : Z) : Prop :=
  quiet g /\ PW g = PW g0 /\ subs g = with_event (t, Nothing i) (subs g0) /\
  forall j, 0 <= j < w -> tail_pos (subs g0) j = head_pos (subs g0) j.

(** What a thread alone knows between two iterations of [dequeue]. *)
Definition dequeue_alone g0 g l : Prop :=
  quiet g /\ sized g /\ subs g = subs g0 /\ PW g = PW g0 /\ tP l = PW g.

Definition dequeue_loop g0 g l : Prop :=
  thread_ok g l /\ leads g0 g /\ depth <= tP l < 2 ^ 63 /\ (still -> dequeue_alone g0 g l).

Lemma opt_dequeued_alone_intro g0 g l i p new v :
  dequeue_alone g0 g l -> 0 <= i < w -> (p < tail_pos (subs g) i)%nat -> head_pos (subs g) i = p -> Z.of_nat p < GW g ->
  dequeued_alone g0 (set_subs (taken t i p new v (subs g)) g) i v.
Proof.
  intros ((Hq & Hdr) & _ & Es & EP & _) Hi Hlt <- HG. unfold dequeued_alone. cbn [set_subs window subs]. rewrite <- Es.
  split; [split|split; [done|split; [done|split; [by exists new|split; [|done]]]]].
  - intros j Hj. cbn [set_subs subs]. change (links_of (taken _ _ _ _ _ _) j) with (links_of (subs g) j). by apply Hq.
  - intros j Hj. specialize (Hdr j Hj). cbn [set_subs window subs]. rewrite head_pos_taken.
    destruct (decide (i = j)) as [<-|]; lia.
  - intros j Hj. specialize (Hdr j Hj). lia.
Qed.

Lemma opt_dequeue_body_wp g0 contention (Q : bool + Z -> ostate -> tls windows -> Prop) g l :
  dequeue_loop g0 g l ->
  (forall i k v g' l', thread_ok g' l' -> 0 <= i < w -> did_op P t [Deq i k v] g0 g' ->
     (still -> dequeued_alone g0 g' i v) -> Q (inr v) g' l') ->
  (forall i g' l', thread_ok g' l' -> 0 <= i < w -> did_op P t [Nothing i] g0 g' ->
     (still -> empty_alone g0 g' i) -> Q (inr 0) g' l') ->
  (forall c g' l', dequeue_loop g0 g' l' -> (p_total P = true -> False) -> Q (inl c) g' l') ->
  wp P t (dequeue_body set contention) Q g l.
Proof.
  intros (Hok & L & Hd0 & Hst) HQ HQ0 HQ'. pose proof (ld_inv _ _ _ _ L) as HI. unfold dequeue_body. wp_local.
  apply (opt_get_window_wp set Hset P t alone_still Hmode); [done|done|done| |].
  { intros Hs. destruct (Hst Hs) as ((_ & ?) & ? & _ & _ & ?). done. }
  intros d g1 l1 (L1 & Hok1 & Hd1' & p & Hd1 & Hor & Hs1).
  pose proof (ld_inv _ _ _ _ L1) as I1. pose proof Hok1 as (Ht1 & _ & _ & _ & Hi & _). set (i := get_i l1) in *.
  pose proof (opt_leads_trans P t _ _ _ L L1) as L01.
  assert (Hquiet : still -> dequeue_alone g0 g1 l1 /\ lookup_get i g1 = Some d /\ head_pos (subs g1) i = p /\
    dcount d = Z.of_nat p /\ tG l1 = GW g1 /\
    (dcount d < GW g1 /\ dcount d < tl g1 i \/ GW g1 = PW g1 /\ forall j, 0 <= j < w -> hd g1 j = tl g1 j)).
  { intros Hs. destruct (Hst Hs) as ((Hq & _) & Hsz & E1 & E2 & _).
    destruct (Hs1 Hs) as (Ed & F1 & F2 & F3 & F4 & F5 & F6).
    destruct (opt_get_position g1 i p d I1 Hi Ed (proj1 Hd1)) as [? ?].
    unfold dequeue_alone, quiet, settled, sized in *. rewrite F1, F2 in *. by split_and!. }
  assert (Hretry : forall c g2 l2, leads g1 g2 -> thread_id l2 = t -> thread_Window l2 = thread_Window l1 ->
    (still -> False) -> Q (inl c) g2 l2).
  { intros c g2 l2 L2 Ht2 El Hno. apply HQ'; [|by intros Htot; destruct (Hno (alone_still Htot))].
    pose proof (opt_thread_ok_leads set P t _ _ _ L2 Hok1) as Hok2. unfold dequeue_loop, OptWindow.thread_ok in *. rewrite El.
    split; [split; [done|apply Hok2]|split; [exact (opt_leads_trans P t _ _ _ L01 L2)|split; [done|]]]. intros Hs. destruct (Hno Hs). }
  (* The dequeue itself, when there is a next node. *)
  assert (Hsafe : forall g3, leads g1 g3 -> (still -> g3 = g1) -> (p < tail_pos (subs g3) i)%nat ->
    wp P t (safe_deq i d) Q g3 l1).
  { intros g3 L3 Hst3 Hlt. apply (opt_safe_deq_wp g0 p d).
    - exact (opt_thread_ok_leads set P t _ _ _ L3 Hok1).
    - exact (opt_leads_trans P t _ _ _ L01 L3).
    - exact (opt_get_read_leads P t _ _ _ _ _ L3 Hd1).
    - done.
    - intros Hs. rewrite (Hst3 Hs). destruct (Hquiet Hs) as ((_ & Hsz & Es & _) & Ed & _). by rewrite Es in *.
    - intros v g4 l4 Hok4 D4 Hs4. apply (HQ i (Z.of_nat (S p)) v); [done|done|done|]. intros Hs.
      destruct (Hs4 Hs) as (new & ->). rewrite (Hst3 Hs) in *. destruct (Hquiet Hs) as (Ha & _ & Hp & Ec & _ & Hcase).
      apply (opt_dequeued_alone_intro g0 g1 l1 i p new v); try done.
      destruct Hcase as [[? _]|[_ Hall]]; [lia|]. specialize (Hall i Hi). lia.
    - intros g4 l4 Hok4 L4 El Hno. apply HQ'; [|by intros Htot; destruct (Hno (alone_still Htot))].
      unfold dequeue_loop. rewrite El. split; [done|split; [done|split; [done|]]]. intros Hs. destruct (Hno Hs). }
  wp_local. apply (opt_my_wp P t). fold i. wp_local. apply (opt_put_read_wp set P t i); [done|].
  intros g2 q e R2 I2 He2 Hqt. pose proof (opt_leads_rely set P t g1 g2 R2 I2) as L2.
  assert (Hst2 : still -> g2 = g1) by (intros Hs; by rewrite (Hs _ _ R2)).
  wp_local. apply (opt_my_wp P t). wp_local. apply (opt_my_wp P t). destruct Hd1 as (Hk1 & Hkh1).
  pose proof (opt_leads_tail P t _ _ i L2) as Htl. pose proof (leads_head P t _ _ i L2) as Hhl.
  destruct (positions set P t g1 i I1 Hi) as [[? _] _].
  destruct (Z.ltb_spec (tG l1) (tP l1)) as [Hlt|Hge]; [apply Hsafe; [done|done|lia]|].
  pose proof (opt_leads_at_pos P t _ _ _ _ _ L2 Hk1) as Hk2. destruct He2 as (Hq2 & Hqc & _).
  destruct (Z.eqb_spec (dnode d) (dnode e)) as [En|Hne].
  - rewrite En in Hk2. pose proof (at_pos_inj w _ _ _ _ _ (opt_inv_subs g2 I2) Hi Hk2 Hq2) as <-. wp_local.
    apply ((sub_step wp_load_head_next_c) opt_with_nothing i p); [done|done|by rewrite En|lia|..].
    + intros g3 g4 R3 I3 D4 E4 Hc4 Hlen4. cbn [Z.eqb]. wp_locals.
      pose proof (opt_leads_then set P t _ _ _ L2 R3 I3) as L3. apply (HQ0 i); [|done| |].
      * rewrite E4. exact (opt_thread_ok_leads set P t _ _ _ L3 Hok1).
      * apply ((sub_rule did_op_step) [Nothing i] [] g0 g3 g3 g4); [|apply (rely_refl (P := P))|exact D4|by intros _; rewrite E4].
        apply opt_leads_did; [exact (opt_leads_trans P t _ _ _ L01 L3)|]. intros Hs. destruct (Hquiet Hs) as ((_ & _ & Es & _) & _).
        by rewrite (Hs _ _ R3), (Hst2 Hs), Es.
      * intros Hs. destruct (Hquiet Hs) as ((Hq & _ & Es & EP & _) & _ & Hp & Ec & _ & Hcase).
        rewrite E4, (Hs _ _ R3), (Hst2 Hs). unfold empty_alone. cbn [set_subs window subs]. rewrite <- Es.
        rewrite (Hst2 Hs) in Hqc. destruct Hcase as [[_ Hlt]|[_ Hall]]; [lia|].
        split; [exact Hq|split; [done|split; [done|]]]. intros j Hj. specialize (Hall j Hj). lia.
    + intros b g3 R3 I3 Hb0 Hb3. rewrite (proj2 (Z.eqb_neq _ _) Hb0). wp_local.
      pose proof (opt_leads_then set P t _ _ _ L2 R3 I3) as L3. rewrite En in *.
      assert (Hno : still -> False).
      { intros Hs. destruct (Hquiet Hs) as (((Hq & _) & _) & _ & Hp & Ec & _ & Hcase). specialize (Hq i Hi).
        rewrite (Hs _ _ R3), (Hst2 Hs) in Hb3. rewrite (Hst2 Hs) in Hqc. apply lookup_lt_Some in Hb3.
        destruct Hcase as [[_ Hlt]|[_ Hall]]; [|specialize (Hall i Hi)]; lia. }
      apply ((sub_rule wp_qload_next_known) i p _ b); [done|exact (opt_leads_at_pos P t _ _ _ _ _ L3 Hk1)|done|].
      intros g4 R4 I4. wp_local. pose proof (opt_leads_then set P t _ _ _ L3 R4 I4) as L4.
      apply (opt_cae_put_wp i e b p); [done|by intros Hs; destruct (Hno Hs)|done| | |..].
      * exact (opt_leads_at_pos P t _ _ _ _ _ L4 Hk1).
      * exact (opt_leads_at_pos P t _ _ _ _ _ (opt_leads_rely set P t _ _ R4 I4) Hb3).
      * intros g5 _ _ _ g6 L6 _. wp_locals. apply Hretry; [exact (opt_leads_trans P t _ _ _ L4 L6)|done|done|done].
      * intros g5 R5 I5 _. wp_locals. apply Hretry; [exact (opt_leads_then set P t _ _ _ L4 R5 I5)|done|done|done].
  - assert (p <> q) by (intros <-; unfold at_pos in *; congruence). apply Hsafe; [done|done|lia].
Qed.

Lemma opt_dequeue_wp (Q : Z -> ostate -> tls windows -> Prop) g l :
  p_inv P g -> thread_ok g l -> (still -> quiet g /\ sized g) ->
  (forall i k v g' l', thread_ok g' l' -> 0 <= i < w -> did_op P t [Deq i k v] g g' ->
     (still -> dequeued_alone g g' i v) -> Q v g' l') ->
  (forall i g' l', thread_ok g' l' -> 0 <= i < w -> did_op P t [Nothing i] g g' ->
     (still -> empty_alone g g' i) -> Q 0 g' l') ->
  wp P t (dequeue set) Q g l.
Proof.
  intros HI Hok Hst HQ HQ0. unfold dequeue. wp_local. wp_local. apply wp_load_var; [apply _|]. intros g1 R1 I1 O1.
  wp_local. pose proof (opt_leads_rely set P t g g1 R1 I1) as L1. pose proof (opt_thread_ok_leads set P t _ _ _ L1 Hok) as Hok1.
  assert (Hsz : sized g1) by (apply (opt_sized_ok set P t Hmode); [done|intros Hs; rewrite (Hs _ _ R1); by apply Hst]).
  pose proof (PW_bound set Hset P t g1 I1 Hsz). destruct (inv_windows set P t g1 I1) as (_ & _ & ?).
  destruct Hset as (_ & ? & _).
  eapply (wp_while P t _ _ _ _ (fun _ _ => dequeue_loop g) 0%nat).
  - destruct Hok1 as (? & ? & ? & ? & ? & ? & ?). split; [unfold OptWindow.thread_ok; cbn; split_and!; solve [done|lia]|split; [done|split; [cbn; lia|]]].
    intros Hs. destruct (Hst Hs) as (Hq & _). unfold dequeue_alone. rewrite (Hs _ _ R1) in *. done.
  - intros n c g3 l3 HJ. apply (opt_dequeue_body_wp g c); [done|done|done|].
    intros c' g4 l4 HJ4 Hn. exists 0%nat. split; [|done]. intros Htot. destruct (Hn Htot).
Qed.
End operations.
