(* ===== verification/OptRuns.v ===== *)
(** The executions of the optimized 2Dd queue: any number of threads, and one
    thread, for which it is a k-out-of-order queue with [k = depth * (width - 1)]. *)
From S2P Require Import Prelude Conc Random Thread Params StackHeap QueueHeap FifoOrder Shared SubQueues QueueOpt OptWindow OptQueue.

(** ** Creation *)

Section creation.
Context {A : Allocator (qnode_of unit)} (junk : nat -> qnode_of unit).

Lemma opt_create_queue_inv nt w d k rb set g :
  create_queue junk nt w d k rb = Some (set, g) -> set_ok set ->
  p_inv (coupled (opt_base set) (opt set)) g /\ hist (subs g) = [] /\ quiet set g /\
  (args_ok 1 16 16 nt w d rb -> 1 <= k <= 3 -> depth set * (width set - 1) <= relaxation_bound set <= rb).
Proof.
  unfold create_queue. destruct (calculate _ _ _ _ _ _ _ _ _) as [p|] eqn:Ecalc; [|done]. cbn [mbind option_bind].
  unfold initialize_global_window. destruct (p_depth p =? 0); [done|]. cbn [mbind option_bind].
  intros [= <- <-] (Hw & Hd & _). cbn [width depth relaxation_bound] in *.
  set (g := mkShared _ _). pose proof (created_at junk (fun a => mkDesc a 0) (fun a => mkDesc a 0) (Z.to_nat (p_width p))) as Hat.
  assert (Hall : forall i, 0 <= i < p_width p -> tail_pos (subs g) i = 0%nat /\ length (links_of (subs g) i) = 1%nat /\
    head_pos (subs g) i = 0%nat).
  { intros i Hi. destruct (Hat i) as (Eh & a & _ & _ & Et & El); [lia|]. unfold head_pos, g. cbn [subs].
    rewrite Eh, Et, El. done. }
  destruct (Hat 0) as (Eh & _); [lia|].
  split; [split; [split|]|split; [exact Eh|split; [split|]]].
  - unfold windows_ok. cbn. split; [apply Z.divide_refl|split; [apply Z.divide_refl|cbn; lia]].
  - apply (created_inv junk); [cbn; lia|by intros a|done].
  - intros i Hi. destruct (Hall i Hi) as (-> & -> & _). cbn. lia.
  - intros i Hi. destruct (Hall i Hi) as (-> & -> & _). done.
  - intros i Hi. destruct (Hall i Hi) as (_ & _ & ->). cbn. lia.
  - intros Hargs Hk. destruct (calculate_bound 1 16 16 (product_int 1) nt w d k rb Hargs Hk) as (p' & E & Hp).
    assert (p' = p) as -> by congruence. lia.
Qed.

Lemma opt_init_wp (P : protocol ostate) t set (Q : unit -> ostate -> tls windows -> Prop) g l :
  set_ok set -> windows_ok set (window g) -> thread_id l = t -> thread_Window l = windows0 ->
  (forall l', thread_ok set t g l' -> Q tt g l') -> wp P t (ds_thread_init set) Q g l.
Proof.
  intros (Hw & Hd & _) (_ & _ & HG) Ht E HQ. apply HQ. unfold thread_ok, upd. cbn. rewrite E. cbn.
  split_and!; solve [done|lia].
Qed.
End creation.

(** ** Concurrent executions *)

Section runs.
Context {A : Allocator (qnode_of unit)}.
Context (set : mqueue_t) (Hset : set_ok set).
Notation w := (width set).
Notation base := (opt_base set).
Notation opt := (opt set).
Notation B := (coupled base opt).

(** What is known of a thread among others between its calls. *)
Definition explained (t : nat) (done : list (op * Z)) (g : ostate) (l : tls windows) : Prop :=
  p_inv B g /\ thread_ok set t g l /\ explains w done (qevents_of t (hist (subs g))).

(** A thread among others may see any step. *)
Lemma not_still t g : p_inv B g -> ~ forall g g', p_rely B t g g' -> g' = g.
Proof.
  intros _ Hs.
  assert (E : set_window (mkGlobals (global_PWindow (window g) + 1) (global_GWindow (window g))) g = g).
  { apply Hs. split; [cbn; unfold up; cbn; lia|apply (rely_refl (P := qprot w (2 ^ 62)))]. }
  apply (f_equal (fun g => global_PWindow (window g))) in E. cbn in E. lia.
Qed.

Lemma opt_explained_op t done o g l :
  explained t done g l -> wp B t (exec_op set o) (fun r g l => explained t (done ++ [(o, r)]) g l) g l.
Proof.
  intros (HI & Hok & HJ). unfold explained.
  assert (Hp : p_total B = true -> forall g g', p_rely B t g g' -> g' = g) by done.
  assert (Hmode : (forall g g', p_rely B t g g' -> g' = g) \/ forall g, p_ok B g -> p_ok base g) by (by right).
  pose proof (not_still t g HI) as Hno. destruct o as [k v|]; cbn [exec_op].
  - apply (opt_enqueue_wp set Hset B t Hp Hmode k v); [done|done|by intros ?%Hno|].
    intros i p g' l' Hok' Hi [(HI' & _ & He) _] _. split; [done|split; [done|]]. rewrite He. by constructor.
  - apply (opt_dequeue_wp set Hset B t Hp Hmode); [done|done|by intros ?%Hno|..].
    + intros i p v g' l' Hok' Hi [(HI' & _ & He) _] _. split; [done|split; [done|]]. rewrite He. by constructor.
    + intros i g' l' Hok' Hi [(HI' & _ & He) _] _. split; [done|split; [done|]]. rewrite He. by constructor.
Qed.
End runs.

(** C7. The optimized 2Dd queue: in every interleaved execution no access is invalid
    and no assertion fails, the get window never overtakes the put window, the
    elements enqueued in each sub-queue reach up to the put window and not beyond
    it, every sub-queue is a FIFO queue whose elements are the nodes behind its
    head, and every thread's results are those of its own events. *)
Theorem queue2Dd_opt_linearizable {A : Allocator (qnode_of unit)} junk nt wd d k rb set g0 opss ls schedule :
  create_queue junk nt wd d k rb = Some (set, g0) -> set_ok set ->
  (forall i l, ls !! i = Some l -> thread_id l = i /\ thread_Window l = windows0) ->
  Z.of_nat (length schedule) < 2 ^ 62 - 1 ->
  let final := exec (mkCfg g0 (clients_from (exec_op set) (ds_thread_init set) opss ls)) schedule in
  let s := subs (mem final) in
  let PW := global_PWindow (window (mem final)) in
  ~ faulty final /\ qreplayed (width set) s /\ global_GWindow (window (mem final)) <= PW /\
  (forall i, 0 <= i < width set -> PW - depth set <= Z.of_nat (length (enqs i (hist s))) <= PW) /\
  (forall i rs l os, pool final !! i = Some (Ret rs, l) -> opss !! i = Some os ->
     length rs = length os /\ explains (width set) (zip os rs) (qevents_of i (hist s))).
Proof.
  intros Hc Hset Hls Hb final s PW. set (B := coupled (opt_base set) (opt set)).
  destruct (opt_create_queue_inv _ _ _ _ _ _ _ _ Hc Hset) as (HI & Hh & _ & _).
  destruct (clients_soundness_along (exec_op set) B (fun _ => True) (explained set)
    (fun g => Z.of_nat (length (hist (subs g)))) 1 (2 ^ 62 - 1) (ds_thread_init set) (fun _ => True) g0 opss ls schedule)
    as (HI' & HF & HQ); try done.
  - intros t done o g l _. by apply opt_explained_op.
  - intros t g g' _ [_ (_ & _ & H)]. exact H.
  - intros g _ Hm _. split; [done|]. cbn. lia.
  - rewrite Hh. cbn [length]. lia.
  - intros i l Hl. destruct (Hls i l Hl) as [Ht E].
    apply opt_init_wp; [done|apply HI|done|done|]. intros l' Hok'. split; [done|split; [done|]]. rewrite Hh. constructor.
  - rewrite Forall_forall. intros os _. by apply Forall_true.
  - destruct HI' as [[HW Hs] HO]. split; [exact HF|split; [by apply queues_replayed|split; [apply HW|split]]].
    + intros i Hi. destruct (HO i Hi) as [H1 H2]. destruct (sub_positions _ _ i Hs Hi) as ([_ H3] & _ & _).
      pose proof Hs as (_&_&_&_&_&_&_&H). destruct (H i Hi) as (dp & dg & Hsub).
      pose proof (sq_enqs _ _ _ _ _ _ (sa_subq _ _ _ _ Hsub)). subst PW s final. lia.
    + intros i rs l os Hp Ho. destruct (HQ i rs l os Hp Ho) as (Hlen & g1 & [_ (_ & _ & E)] & (_ & _ & HJ)).
      split; [done|]. rewrite <- E in HJ. exact HJ.
Qed.

(** ** One thread *)

Section sequential.
Context {A : Allocator (qnode_of unit)}.
Context (set : mqueue_t) (Hset : set_ok set).
Notation w := (width set).
Notation depth := (depth set).
Notation base := (opt_base set).
Notation opt := (opt set).
Notation B := (coupled base opt).
Notation history g := (hist (subs g)).
Notation alone_rely := (p_rely (alone B) 0%nat).
Implicit Types (g : ostate) (l : tls windows).
#[local] Instance sreads : Reads (alone B) base 0 := couples_reads (C := opt).

Definition seq_ok g : Prop := p_inv B g /\ quiet set g /\ fifo_in w depth (history g).

Lemma opt_alone_still : forall g g', alone_rely g g' -> g' = g.
Proof. intros g g' R. by apply R. Qed.

Lemma seq_subs g : p_inv B g -> queues_inv w (subs g).
Proof. by intros [[_ ?] _]. Qed.

(** Without a pending enqueue the counts are those of the events. *)
Lemma seq_enqs g i : seq_ok g -> 0 <= i < w -> tail_pos (subs g) i = length (enqs i (history g)).
Proof.
  intros (HI & (Hq & _) & _) Hi. destruct (seq_subs g HI) as (_&_&_&_&_&_&_&H). destruct (H i Hi) as (dp & dg & Hs).
  pose proof (sq_enqs _ _ _ _ _ _ (sa_subq _ _ _ _ Hs)). specialize (Hq i Hi). lia.
Qed.

Lemma opt_spec_enqueue g g' i k v :
  seq_ok g -> did_op (alone B) 0 [Enq i k v] g g' -> 0 <= i < w -> enqueued_alone set g g' i k ->
  seq_ok g' /\ fifo (history g') = fifo (history g) ++ [(i, k, v)].
Proof.
  intros HS (HI' & He & Eh)%did_op_event Hi (Hq' & _ & Hm & Ek & Hk); [|exact opt_alone_still].
  pose proof HS as (HI & (Hq & _) & Hff). rewrite Eh. cbn [fifo]. split; [|done].
  pose proof (seq_subs g HI) as Hs. pose proof Hs as (_&_&_&_&_&_&Hlg&_).
  pose proof (seq_subs g' HI') as (_&_&_&_&_&_&Hlg'&_). rewrite Eh in Hlg'. destruct Hlg' as [Ek' _].
  split; [done|split; [done|]]. rewrite Eh, Ek'. destruct Hset as (? & ? & _).
  apply (fixed_enq w depth ltac:(lia) _ Hlg 0%nat i v (global_PWindow (window g'))); [done|done|apply HI'| |lia].
  intros j Hj. destruct HI as [_ HO]. destruct (HO j Hj) as [_ Hlen]. rewrite (Hq j Hj) in Hlen.
  rewrite <- (seq_enqs g j HS Hj). unfold moved in Hm. lia.
Qed.

Lemma opt_spec_dequeue g g' i k v :
  seq_ok g -> did_op (alone B) 0 [Deq i k v] g g' -> 0 <= i < w -> dequeued_alone set 0 g g' i v ->
  seq_ok g' /\ exists pre post, (fifo (history g)).*2 = pre ++ v :: post /\
    Z.of_nat (length pre) <= depth * (w - 1) /\ (fifo (history g')).*2 = pre ++ post.
Proof.
  intros HS (HI' & He & Eh)%did_op_event Hi (Hq' & EP & Hlt & (new & Es) & Hge & HG); [|exact opt_alone_still].
  pose proof HS as (HI & (Hq & _) & Hff). pose proof (seq_subs g HI) as (_&_&_&_&_&_&Hlg&_).
  pose proof (seq_subs g' HI') as (_&_&_&_&_&_&Hlg'&_). rewrite Eh in Hlg'. destruct Hlg' as [Hhd _].
  assert (Ek : k = Z.of_nat (length (deqs i (history g))) + 1).
  { rewrite Es in Eh. cbn in Eh. injection Eh as <-. unfold head_pos. lia. }
  destruct Hset as (? & ? & _).
  destruct (fixed_deq w depth ltac:(lia) _ Hlg 0%nat i k v (global_GWindow (window g')) Hff Hi) as (pre & post & E1 & Hle & E2 & Hff').
  - apply HI'.
  - exact Hge.
  - exact HG.
  - exact Hhd.
  - exact Ek.
  - rewrite Eh. split; [split; [done|split; [done|by rewrite Eh]]|]. by exists pre, post.
Qed.

Lemma opt_spec_empty g g' i :
  seq_ok g -> did_op (alone B) 0 [Nothing i] g g' -> 0 <= i < w -> empty_alone set 0 g g' i ->
  seq_ok g' /\ fifo (history g) = [] /\ fifo (history g') = [].
Proof.
  intros HS (HI' & He & Eh)%did_op_event Hi (Hq' & EP & Es & Hall); [|exact opt_alone_still].
  pose proof HS as (HI & (Hq & _) & Hff). pose proof (seq_subs g HI) as Hs.
  assert (E0 : fifo (history g) = []).
  { destruct (fifo (history g)) as [|[[j k] v] xs] eqn:E; [done|]. exfalso.
    destruct Hff as [_ Hin]. destruct (proj1 (Hin j k v)) as [Hj Hk]; [rewrite E; set_solver|].
    destruct (sub_positions w (subs g) j Hs Hj) as (_ & _ & Hlen). rewrite (Hq j Hj), (Hall j Hj) in Hlen.
    destruct (qcontents j (history g)); [by apply elem_of_nil in Hk|cbn in Hlen; lia]. }
  rewrite Eh. cbn [fifo]. split; [|done]. split; [done|split; [done|]]. rewrite Eh. exact Hff.
Qed.

(** *** Whole runs *)

Definition seq_account (done : list (op * Z)) g l : Prop :=
  kq_run (depth * (w - 1)) done (fifo (history g)).*2 /\
  Z.of_nat (length (fifo (history g))) = queues_total (history g) w /\
  seq_ok g /\ thread_ok set 0 g l /\ (length (history g) <= length done)%nat.

Lemma opt_seq_account_op done o g l :
  Z.of_nat (length done) + 1 < 2 ^ 62 -> seq_account done g l ->
  wp (alone B) 0 (exec_op set o) (fun r g l => seq_account (done ++ [(o, r)]) g l) g l.
Proof.
  intros Hlim (Hrun & Htot & HS & Hok & Hh). pose proof HS as (HI & Hq & _).
  pose proof (fun _ : p_total (alone B) = true => opt_alone_still) as Hst.
  assert (Hmode : (forall g g', alone_rely g g' -> g' = g) \/ forall g, p_ok (alone B) g -> p_ok base g)
    by (left; exact opt_alone_still).
  destruct o as [key v|]; cbn [exec_op].
  - apply (opt_enqueue_wp set Hset (alone B) 0 Hst Hmode key v); [done|done|by intros _; split; [|unfold room; lia]|].
    intros i k g' l' Hok' Hi D Ha. destruct (opt_spec_enqueue g g' i k v HS D Hi (Ha opt_alone_still)) as [HS' E].
    apply did_op_event in D as (_ & _ & Eh); [|exact opt_alone_still]. unfold seq_account. rewrite E, fmap_app, !length_app. split_and!; try done.
    + by constructor.
    + rewrite Eh, queues_total_enq by done. cbn [length]. lia.
    + rewrite Eh. cbn. lia.
  - apply (opt_dequeue_wp set Hset (alone B) 0 Hst Hmode); [done|done|by intros _; split; [|unfold sized; lia]|..].
    + intros i k v g' l' Hok' Hi D Ha.
      destruct (opt_spec_dequeue g g' i k v HS D Hi (Ha opt_alone_still)) as (HS' & pre & post & E1 & Hle & E2).
      apply did_op_event in D as (HI' & _ & Eh); [|exact opt_alone_still]. unfold seq_account. rewrite length_app. split_and!; try done.
      * rewrite E2. rewrite E1 in Hrun. by constructor.
      * apply (f_equal length) in E1, E2. rewrite length_fmap, length_app in E1, E2. cbn [length] in E1.
        pose proof (seq_subs g' HI') as (_&_&_&_&_&_&Hlg&_). rewrite Eh in Hlg. destruct Hlg as [Hhd _].
        rewrite Eh, queues_total_deq; [rewrite Eh in E2; lia|done|]. intros E. by rewrite E in Hhd.
      * rewrite Eh. cbn. lia.
    + intros i g' l' Hok' Hi D Ha. destruct (opt_spec_empty g g' i HS D Hi (Ha opt_alone_still)) as (HS' & E1 & E2).
      apply did_op_event in D as (_ & _ & Eh); [|exact opt_alone_still]. rewrite E1 in Hrun, Htot.
      unfold seq_account. rewrite E2, length_app. split_and!; try done.
      * by constructor.
      * rewrite Eh. exact Htot.
      * rewrite Eh. cbn. lia.
Qed.

Lemma opt_queue_size_alone (Q : Z -> ostate -> tls windows -> Prop) g l :
  p_inv B g -> quiet set g -> Z.of_nat (length (history g)) < 2 ^ 62 ->
  Q (queues_total (history g) w) g l -> wp (alone B) 0 (queue_size set) Q g l.
Proof.
  intros HI (Hq & _) Hlim HQ. pose proof Hset as (Hw & _).
  apply (queues_span_wp (win_prot set) w (2 ^ 62) (alone B) 0%nat); [exact opt_alone_still|lia|done..].
Qed.
End sequential.

(** C6. For one thread the optimized 2Dd queue refines a k-out-of-order queue with
    [k = depth * (width - 1)]: every run terminates, each dequeue returns one of
    the [k + 1] oldest elements, and 0 for an empty queue only when the queue is
    empty; [k] is within the relaxation bound the queue was created for in the
    modes 1, 2 and 3; [queue_size] is exact. *)
Theorem queue2Dd_opt_k_relaxed {A : Allocator (qnode_of unit)} junk nt wd d k rb set g0 ops l0 :
  create_queue junk nt wd d k rb = Some (set, g0) -> set_ok set ->
  thread_id l0 = 0%nat -> thread_Window l0 = windows0 -> Z.of_nat (length ops) + 1 < 2 ^ 62 ->
  exists n rs g l q,
    (forall m, (n <= m)%nat ->
       run m (ds_thread_init set ;;; run_ops (exec_op set) ops) g0 l0 = Finished rs g l) /\
    length rs = length ops /\
    kq_run (depth set * (width set - 1)) (zip ops rs) q /\
    (args_ok 1 16 16 nt wd d rb -> 1 <= k <= 3 ->
     depth set * (width set - 1) <= relaxation_bound set <= rb) /\
    exists n' g' l', forall m, (n' <= m)%nat ->
      run m (queue_size set) g l = Finished (Z.of_nat (length q)) g' l'.
Proof.
  intros Hc Hset Ht0 Hw0 Hlim. destruct (opt_create_queue_inv _ _ _ _ _ _ _ _ Hc Hset) as (HI & Hh & Hq & Hbound).
  set (B := coupled (opt_base set) (opt set)).
  destruct (alone_run B (ds_thread_init set ;;; run_ops (exec_op set) ops) (fun rs g l =>
      length rs = length ops /\ seq_account set ([] ++ zip ops rs) g l) g0 l0 HI)
    as (n & rs & g & l & Hrun & (Hlen & Hr & Htot & (HI' & Hq' & _) & _ & Hhl) & _).
  { apply wp_bind. apply opt_init_wp; [done|apply HI|done|done|]. intros l1 Hok1.
    apply (wp_run_ops_upto (alone B) 0 (exec_op set) (length ops) (seq_account set)) with (done := []).
    - intros done o g l Hlt HJ. apply (opt_seq_account_op set Hset); [lia|done].
    - cbn. lia.
    - unfold seq_account. rewrite Hh. destruct Hset as (? & _). split; [constructor|split; [|split; [|split; [done|cbn; lia]]]].
      + unfold queues_total. cbn. rewrite sum_upto_const by lia. lia.
      + split; [done|split; [done|]]. rewrite Hh. apply fifo_ok_nil. }
  exists n, rs, g, l, (fifo (hist (subs g))).*2. split; [done|split; [done|split; [done|split; [done|]]]].
  rewrite length_fmap. cbn [app] in Hhl. rewrite length_zip_with in Hhl.
  destruct (alone_run B (queue_size set) (fun r _ _ => r = queues_total (hist (subs g)) (width set)) g l HI')
    as (n' & r & g' & l' & Hrun' & -> & _).
  { apply (opt_queue_size_alone set Hset); [done|done|lia|done]. }
  exists n', g', l'. intros m' Hm. rewrite Htot. by apply Hrun'.
Qed.

(** ** Examples *)

Section examples.
#[local] Instance node_allocator : Allocator (qnode_of unit) := bump_allocator _.

Definition zeroed : nat -> qnode_of unit := fun _ => mkQnode 0 0 0.
(** Three sub-queues, depth 2. *)
Definition example_set : mqueue_t := mkQueue 2 4 2 3 1.
Definition example_mem : ostate :=
  mkShared (mkGlobals 2 2) (created zeroed (fun a => mkDesc a 0) (fun a => mkDesc a 0) 3).
Definition thread (i : nat) (s : seeds_t) : tls windows := mkTls i windows0 0 s stats0.
Definition example_threads : list (tls windows) := [thread 0 (mkSeeds 3 5 7); thread 1 (mkSeeds 1 2 3)].
Definition example_ops : list op :=
  ((fun k => Enqueue k (10 * k)) <$> [1; 2; 3; 4; 5; 6; 7; 8; 9]) ++ replicate 10 Dequeue.

Lemma queue2Dd_opt_k_relaxed_witness :
  exists n rs g l q,
    (forall m, (n <= m)%nat ->
       run m (ds_thread_init example_set ;;; run_ops (exec_op example_set) example_ops) example_mem
         (thread 0 (mkSeeds 3 5 7)) = Finished rs g l) /\
    length rs = 19%nat /\ kq_run (2 * (3 - 1)) (zip example_ops rs) q /\
    (args_ok 1 16 16 1 3 2 4 -> 1 <= 1 <= 3 -> 2 * (3 - 1) <= 4 <= 4) /\
    exists n' g' l', forall m, (n' <= m)%nat ->
      run m (queue_size example_set) g l = Finished (Z.of_nat (length q)) g' l'.
Proof.
  apply (queue2Dd_opt_k_relaxed zeroed 1 3 2 1 4 example_set example_mem example_ops (thread 0 (mkSeeds 3 5 7)) eq_refl).
  - unfold set_ok, example_set. cbn. lia.
  - reflexivity.
  - reflexivity.
  - vm_compute. reflexivity.
Defined.

Lemma queue2Dd_opt_linearizable_witness :
  ~ faulty (exec (mkCfg example_mem (clients_from (exec_op example_set) (ds_thread_init example_set)
      [[Enqueue 1 10; Dequeue; Enqueue 2 20]; [Enqueue 3 30; Dequeue; Dequeue]] example_threads))
    (concat (replicate 60 [0; 0; 1; 0; 1; 1; 1]%nat))).
Proof.
  refine (proj1 (queue2Dd_opt_linearizable zeroed 1 3 2 1 4 example_set example_mem _ example_threads _ eq_refl _ _ _)).
  - unfold set_ok, example_set. cbn. lia.
  - intros [|[|i]] l Hl; cbn in Hl; [| |done]; by injection Hl as <-.
  - vm_compute. reflexivity.
Defined.
End examples.
