(* ===== verification/Lateral.v ===== *)
(** The lateral queues of the elastic queues (lateral_queue.c, .h): a linked
    list of nodes that each describe a stretch of rows, with a [tail] pointer,
    which may lag one node behind, and a [head] pointer.  What the two versions
    have in common: the memory, the steps on it and their rules. *)
From S2P Require Import Prelude Conc StackHeap Shared.

(** [linfo]: everything in the node but [next]. *)
Record lnode (X : Type) := mkLnode { lnext : Z; linfo : X }.
Arguments mkLnode {X}.
Arguments lnext {X}.
Arguments linfo {X}.

(** [lpriv] (nodes not yet linked, with their owner), [chain] (the linked nodes
    in order) and [infos] (what they hold) are history variables. *)
Record lateral (X : Type) := mkLateral {
  lnodes : gmap Z (lnode X);
  ltail : Z;
  lhead : Z;
  lpriv : gmap Z nat;
  chain : list Z;
  infos : list X;
}.
Arguments mkLateral {X}.
Arguments lnodes {X}.
Arguments ltail {X}.
Arguments lhead {X}.
Arguments lpriv {X}.
Arguments chain {X}.
Arguments infos {X}.

(** The part of the shared memory that is not in the arrays: the lateral queue
    and the rest. *)
Record elastic (X R : Type) := mkElastic { lat : lateral X; rest : R }.
Arguments mkElastic {X R}.
Arguments lat {X R}.
Arguments rest {X R}.

Definition set_lat {X R SS} (m : lateral X) (g : shared (elastic X R) SS) : shared (elastic X R) SS :=
  set_window (mkElastic m (rest (window g))) g.
Definition set_rest {X R SS} (r : R) (g : shared (elastic X R) SS) : shared (elastic X R) SS :=
  set_window (mkElastic (lat (window g)) r) g.

Section code.
Context {X R SS V : Type} {A : Allocator (lnode X)}.
Notation M := (prog (shared (elastic X R) SS) (tls V)).
Notation latof g := (lat (window g)).

Definition lookup_lnode (a : Z) (m : lateral X) : option (lnode X) := lnodes m !! a.

Definition load_ltail : M Z := load_var (fun g => ltail (latof g)).
Definition load_lhead : M Z := load_var (fun g => lhead (latof g)).
Definition load_lnode {B} (f : lnode X -> B) (a : Z) : M B :=
  load (fun g => f <$> lookup_lnode a (latof g)).
Definition load_lnext (a : Z) : M Z := load_lnode lnext a.
Definition load_info {B} (f : X -> B) (a : Z) : M B := load_lnode (fun n => f (linfo n)) a.

(** An allocation with the fields set, [next] to NULL. *)
Definition lalloc (t : nat) (a : Z) (x : X) (m : lateral X) : lateral X :=
  mkLateral (<[a := mkLnode 0 x]> (lnodes m)) (ltail m) (lhead m) (<[a := t]> (lpriv m)) (chain m) (infos m).
Definition alloc_lnode (x : X) : M Z :=
  Act (fun g l =>
    let m := latof g in
    let a := alloc_addr (lnodes m) in
    Some (a, set_lat (lalloc (thread_id l) a x m) g, l)) Ret.

(** [CAE(&a->next, NULL, b)]. *)
Definition llink (a b : Z) (m : lateral X) : lateral X :=
  mkLateral (alter (fun n => mkLnode b (linfo n)) a (lnodes m)) (ltail m) (lhead m)
    (delete b (lpriv m)) (chain m ++ [b])
    (infos m ++ from_option (fun n => [linfo n]) [] (lookup_lnode b m)).
Definition cas_lnext (a b : Z) : M bool :=
  update (fun g _ =>
    n ← lookup_lnode a (latof g);
    if decide (lnext n = 0) then Some (true, set_lat (llink a b (latof g)) g)
    else Some (false, g)).

(** [CAE(&lateral->tail, a, b)], [CAE(&lateral->head, a, b)]. *)
Definition lset_tail (b : Z) (m : lateral X) : lateral X :=
  mkLateral (lnodes m) b (lhead m) (lpriv m) (chain m) (infos m).
Definition lset_head (b : Z) (m : lateral X) : lateral X :=
  mkLateral (lnodes m) (ltail m) b (lpriv m) (chain m) (infos m).
Definition cae_ltail (a b : Z) : M bool :=
  update (fun g _ =>
    if decide (ltail (latof g) = a) then Some (true, set_lat (lset_tail b (latof g)) g)
    else Some (false, g)).
Definition cae_lhead (a b : Z) : M bool :=
  update (fun g _ =>
    if decide (lhead (latof g) = a) then Some (true, set_lat (lset_head b (latof g)) g)
    else Some (false, g)).
End code.

(** ** Protocol *)

Section protocol.
Context {X : Type}.
Implicit Types (m : lateral X).

(** Node [a] is the [k]-th, and holds [x]. *)
Definition lat_at m (k : nat) (a : Z) (x : X) : Prop := chain m !! k = Some a /\ infos m !! k = Some x.

(** The positions of the pointers. *)
Definition lpos m (a : Z) : nat := default 0%nat (fst <$> list_find (eq a) (chain m)).
Definition ltail_pos m : nat := lpos m (ltail m).
Definition lhead_pos m : nat := lpos m (lhead m).

Record lat_inv m : Prop := mkLatInv {
  li_null : lnodes m !! 0 = None;
  li_priv : forall a t, lpriv m !! a = Some t -> is_Some (lnodes m !! a);
  li_infos : length (infos m) = length (chain m);
  li_nodup : NoDup (chain m);
  li_chain : forall k a, chain m !! k = Some a ->
    a <> 0 /\ lpriv m !! a = None /\
    exists x, infos m !! k = Some x /\ lnodes m !! a = Some (mkLnode (default 0 (chain m !! S k)) x);
  li_tail : chain m !! ltail_pos m = Some (ltail m);
  li_head : chain m !! lhead_pos m = Some (lhead m);
  li_lag : (length (chain m) <= ltail_pos m + 2)%nat;
}.

Record lat_evolves m m' : Prop := mkLatEvolves {
  le_chain : chain m `prefix_of` chain m';
  le_infos : infos m `prefix_of` infos m';
  le_tail : (ltail_pos m <= ltail_pos m')%nat;
  le_head : (lhead_pos m <= lhead_pos m')%nat;
}.
Definition lat_untouched (t : nat) m m' : Prop :=
  forall a n, lnodes m !! a = Some n -> lpriv m !! a = Some t ->
    lnodes m' !! a = Some n /\ lpriv m' !! a = Some t.

Lemma lat_evolves_refl m : lat_evolves m m.
Proof. by split. Qed.
Lemma lat_evolves_trans m1 m2 m3 : lat_evolves m1 m2 -> lat_evolves m2 m3 -> lat_evolves m1 m3.
Proof. intros [] []. split; [by etrans|by etrans|lia|lia]. Qed.

Lemma lat_at_evolves m m' k a x : lat_evolves m m' -> lat_at m k a x -> lat_at m' k a x.
Proof. intros [] [H1 H2]. split; by eapply prefix_lookup_Some. Qed.

Lemma lpos_lookup m k a : NoDup (chain m) -> chain m !! k = Some a -> lpos m a = k.
Proof.
  intros Hnd Hk. unfold lpos. destruct (list_find (eq a) (chain m)) as [[j b]|] eqn:E.
  - apply list_find_Some in E as (Hj & <- & _). cbn. by eapply NoDup_lookup.
  - apply list_find_None in E. rewrite Forall_forall in E.
    destruct (E a); [by eapply list_elem_of_lookup_2|done].
Qed.

Lemma lat_pos_inj m k k' a : lat_inv m -> chain m !! k = Some a -> chain m !! k' = Some a -> k = k'.
Proof. intros [] H H'. by eapply NoDup_lookup. Qed.

Lemma lat_at_exists m k : lat_inv m -> (k < length (chain m))%nat -> exists a x, lat_at m k a x.
Proof.
  intros [] Hk. destruct (lookup_lt_is_Some_2 (chain m) k Hk) as [a Ea].
  destruct (lookup_lt_is_Some_2 (infos m) k ltac:(lia)) as [x Ex]. by exists a, x.
Qed.

Lemma lat_node m k a x : lat_inv m -> lat_at m k a x ->
  a <> 0 /\ lnodes m !! a = Some (mkLnode (default 0 (chain m !! S k)) x).
Proof.
  intros [] [Hk Hx]. destruct (li_chain0 k a Hk) as (? & _ & x' & Ex & En).
  split; [done|]. by assert (x' = x) as -> by congruence.
Qed.

(** The protocol of the lateral queue and that of the rest. *)
Definition lat_prot : protocol (lateral X) :=
  {| p_inv := lat_inv;
     p_rely t m m' := lat_evolves m m' /\ lat_untouched t m m';
     p_guar t m m' := lat_evolves m m' /\ (forall u, u <> t -> lat_untouched u m m') /\
       (length (chain m') <= length (chain m) + 1)%nat;
     p_ok _ := True;
     p_total := false |}.

#[export] Instance lat_prot_laws : ProtocolLaws lat_prot.
Proof.
  split; cbn.
  - intros t m. split; [apply lat_evolves_refl|by intros a n].
  - intros t m1 m2 m3 [E1 O1] [E2 O2]. split; [by eapply lat_evolves_trans|].
    intros a n En Pn. destruct (O1 a n En Pn). by apply O2.
  - intros t m. split; [apply lat_evolves_refl|]. split; [by intros u _ a n|lia].
  - intros t u m1 m2 Htu _ (? & H & _). split; [done|by apply H].
Qed.

(** *** The steps *)

Lemma lalloc_step t a x m :
  lat_inv m -> a <> 0 -> lnodes m !! a = None ->
  lat_inv (lalloc t a x m) /\ p_guar lat_prot t m (lalloc t a x m).
Proof.
  intros HI Ha Hf. pose proof HI as [].
  assert (Hne : forall k b, chain m !! k = Some b -> a <> b).
  { intros k b Hk ->. destruct (li_chain0 k b Hk) as (_ & _ & x' & _ & E). congruence. }
  split.
  - split; cbn; try done.
    + by rewrite lookup_insert_ne.
    + intros b u Pb. destruct (decide (a = b)) as [->|Hab]; [rewrite lookup_insert_eq; eauto|].
      rewrite lookup_insert_ne in Pb by done. rewrite lookup_insert_ne by done. by eapply li_priv0.
    + intros k b Hk. rewrite !lookup_insert_ne by (by eapply Hne). by apply li_chain0.
  - split; [by split|]. split; [|cbn; lia]. intros u Hu b n En Pn. cbn.
    assert (a <> b) by congruence. by rewrite !lookup_insert_ne.
Qed.

Lemma llink_step t a b k x m :
  lat_inv m -> chain m !! k = Some a -> length (chain m) = S k -> (k <= ltail_pos m)%nat ->
  lnodes m !! b = Some (mkLnode 0 x) -> lpriv m !! b = Some t ->
  lat_inv (llink a b m) /\ p_guar lat_prot t m (llink a b m) /\
  chain (llink a b m) = chain m ++ [b] /\ infos (llink a b m) = infos m ++ [x].
Proof.
  intros HI Ha Hlen Htl Eb Pb. pose proof HI as [].
  assert (Hnot : b ∉ chain m).
  { intros [j Hj]%list_elem_of_lookup. destruct (li_chain0 j b Hj) as (_ & P & _). congruence. }
  assert (Hab : a <> b) by (intros <-; apply Hnot; by eapply list_elem_of_lookup_2).
  assert (Hinf : infos (llink a b m) = infos m ++ [x]) by (cbn; unfold lookup_lnode; rewrite Eb; done).
  assert (Hpos : forall c j, chain m !! j = Some c -> lpos (llink a b m) c = lpos m c).
  { intros c j Hj. rewrite (lpos_lookup m j c li_nodup0 Hj). apply lpos_lookup.
    - cbn. apply NoDup_app. split; [done|]. split; [|apply NoDup_singleton].
      intros y Hy ->%list_elem_of_singleton. done.
    - cbn. by apply lookup_app_l_Some. }
  assert (Ht : ltail_pos (llink a b m) = ltail_pos m) by (by eapply Hpos).
  assert (Hh : lhead_pos (llink a b m) = lhead_pos m) by (by eapply Hpos).
  split; [|split; [|done]].
  - split; rewrite ?Ht, ?Hh, ?Hinf; cbn [chain llink ltail lhead lpriv lnodes].
    + destruct (decide (a = 0)) as [->|]; [rewrite lookup_alter_eq, li_null0; done|by rewrite lookup_alter_ne].
    + intros c u Pc. apply lookup_delete_Some in Pc as [_ Pc]. apply li_priv0 in Pc.
      rewrite lookup_alter. destruct (decide _); [subst; by apply fmap_is_Some|done].
    + rewrite !length_app, li_infos0. done.
    + apply NoDup_app. split; [done|]. split; [|apply NoDup_singleton].
      intros y Hy ->%list_elem_of_singleton. done.
    + intros j c Hj. apply lookup_app_Some in Hj as [Hj|[Hge Hj]].
      * assert (c <> b) by (intros ->; apply Hnot; by eapply list_elem_of_lookup_2).
        destruct (li_chain0 j c Hj) as (Hc0 & Pc & y & Ey & En).
        split; [done|]. split; [by rewrite lookup_delete_ne|]. exists y.
        split; [by apply lookup_app_l_Some|]. destruct (decide (a = c)) as [<-|Hne].
        -- assert (j = k) as -> by (by eapply NoDup_lookup).
           rewrite lookup_alter_eq, En. cbn [fmap option_fmap option_map linfo].
           by rewrite lookup_app_r, Hlen, Nat.sub_diag by lia.
        -- assert (j <> k) by (intros ->; congruence). pose proof (lookup_lt_Some _ _ _ Hj).
           rewrite lookup_alter_ne, En by done. by rewrite lookup_app_l by lia.
      * apply list_lookup_singleton_Some in Hj as [Hj <-].
        split; [intros ->; congruence|]. split; [by rewrite lookup_delete_eq|]. exists x.
        assert (j = S k) as -> by lia. split.
        -- rewrite lookup_app_r by lia. by rewrite li_infos0, Hlen, Nat.sub_diag.
        -- rewrite lookup_alter_ne, Eb by done. do 2 f_equal.
           rewrite lookup_ge_None_2; [done|]. rewrite length_app; cbn; lia.
    + by apply lookup_app_l_Some.
    + by apply lookup_app_l_Some.
    + rewrite length_app; cbn. pose proof (lookup_lt_Some _ _ _ li_tail0). lia.
  - split; [|split; [|cbn; rewrite length_app; cbn; lia]].
    + split; rewrite ?Ht, ?Hh; [by apply prefix_app_r|by apply prefix_app_r|done|done].
    + intros u Hu c n En Pn. cbn. assert (c <> b) by congruence.
      assert (c <> a) by (intros ->; destruct (li_chain0 k a Ha) as (_ & P & _); congruence).
      by rewrite lookup_alter_ne, lookup_delete_ne.
Qed.

Lemma lset_tail_step t b k m :
  lat_inv m -> chain m !! k = Some b -> (ltail_pos m <= k)%nat ->
  lat_inv (lset_tail b m) /\ p_guar lat_prot t m (lset_tail b m) /\ ltail_pos (lset_tail b m) = k.
Proof.
  intros HI Hb Hk. pose proof HI as [].
  assert (Ht : ltail_pos (lset_tail b m) = k) by (by apply lpos_lookup).
  split; [|split; [|done]].
  - split; rewrite ?Ht; try done. cbn. lia.
  - split; [split; try done; by rewrite Ht|]. split; [by intros u Hu a n|cbn; lia].
Qed.

Lemma lset_head_step t b k m :
  lat_inv m -> chain m !! k = Some b -> (lhead_pos m <= k)%nat ->
  lat_inv (lset_head b m) /\ p_guar lat_prot t m (lset_head b m) /\ lhead_pos (lset_head b m) = k.
Proof.
  intros HI Hb Hk. pose proof HI as [].
  assert (Hh : lhead_pos (lset_head b m) = k) by (by apply lpos_lookup).
  split; [|split; [|done]].
  - by split; rewrite ?Hh.
  - split; [split; try done; by rewrite Hh|]. split; [by intros u Hu a n|cbn; lia].
Qed.
End protocol.

(** The protocol of both parts; [OK]: what executions are restricted to. *)
Definition elastic_prot {X R} (RP : protocol R) (OK : elastic X R -> Prop) : protocol (elastic X R) :=
  {| p_inv e := lat_inv (lat e) /\ p_inv RP (rest e);
     p_rely t e e' := p_rely lat_prot t (lat e) (lat e') /\ p_rely RP t (rest e) (rest e');
     p_guar t e e' := p_guar lat_prot t (lat e) (lat e') /\ p_guar RP t (rest e) (rest e');
     p_ok := OK;
     p_total := false |}.

#[export] Instance elastic_prot_laws {X R} (RP : protocol R) (OK : elastic X R -> Prop) :
  ProtocolLaws RP -> ProtocolLaws (elastic_prot RP OK).
Proof.
  intros HR. split; cbn -[lat_prot].
  - intros t e. split; apply rely_refl.
  - intros t e1 e2 e3 [] []. split; by eapply rely_trans.
  - intros t e. split; apply guar_refl.
  - intros t u e1 e2 Htu [] []. split; by eapply guar_rely.
Qed.

(** ** Rules *)

Section rules.
Context {X R SS V : Type} {A : Allocator (lnode X)} (RP : protocol R) {rlaws : ProtocolLaws RP}.
Context (OK : elastic X R -> Prop) (SP : protocol SS) {slaws : ProtocolLaws SP}.
Notation G := (shared (elastic X R) SS).
Notation B := (joint (elastic_prot RP OK) SP).
Notation latof g := (lat (window g)).
Context (P : protocol G) (t : nat) (C : G -> Prop) {couples : Couples P B C t}.
#[local] Instance lreads : Reads P B t := couples_reads (C := C).
#[local] Instance llaws : ProtocolLaws P := reads_laws (B := B) (t := t).
Implicit Types (g : G) (l : tls V).

Lemma linv g : p_inv P g -> lat_inv (latof g).
Proof. intros HI. by apply (reads_inv (B := B) g HI). Qed.
Lemma levolves g g' : p_rely P t g g' -> lat_evolves (latof g) (latof g').
Proof. intros H. by apply (reads_rely (B := B)) in H as [[[? _] _] _]. Qed.
Lemma lrely_at g g' k a x : p_rely P t g g' -> lat_at (latof g) k a x -> lat_at (latof g') k a x.
Proof. intros H. apply lat_at_evolves. by apply levolves. Qed.

(** A node the thread has not linked yet. *)
Definition lowned (a : Z) (x : X) g : Prop :=
  lpriv (latof g) !! a = Some t /\ lnodes (latof g) !! a = Some (mkLnode 0 x).
Lemma lowned_rely a x g g' : p_rely P t g g' -> lowned a x g -> lowned a x g'.
Proof.
  intros H [Pa Ea]. apply (reads_rely (B := B)) in H as [[[_ H] _] _]. by destruct (H a _ Ea Pa).
Qed.

(** A change of the lateral queue only, and of the rest only. *)
Lemma lstep g m :
  p_inv P g -> lat_inv m -> p_guar lat_prot t (latof g) m -> C (set_lat m g) ->
  p_guar P t g (set_lat m g) /\ p_inv P (set_lat m g).
Proof.
  intros HI Hm Hg HC. pose proof (reads_inv (B := B) g HI) as [[_ HR] HS]. split.
  - apply (couples_guar (B := B) (C := C)). split; [split; [exact Hg|apply guar_refl]|apply guar_refl].
  - apply (couples_back (B := B) (C := C)); [by split|done].
Qed.

Lemma rstep g r :
  p_inv P g -> p_inv RP r -> p_guar RP t (rest (window g)) r -> C (set_rest r g) ->
  p_guar P t g (set_rest r g) /\ p_inv P (set_rest r g).
Proof.
  intros HI Hr Hg HC. pose proof (reads_inv (B := B) g HI) as [[Hm _] HS]. split.
  - apply (couples_guar (B := B) (C := C)).
    split; [split; [apply (guar_refl (P := lat_prot))|exact Hg]|apply guar_refl].
  - apply (couples_back (B := B) (C := C)); [by split|done].
Qed.

Lemma wp_load_ltail (Q : Z -> G -> tls V -> Prop) g l :
  (forall g' a x, p_rely P t g g' -> p_inv P g' -> p_ok P g' -> a = ltail (latof g') ->
     lat_at (latof g') (ltail_pos (latof g')) a x -> Q a g' l) ->
  wp P t load_ltail Q g l.
Proof.
  intros HQ. apply wp_load_var; [apply _|]. intros g1 R1 I1 O1. pose proof (linv g1 I1) as HI. pose proof HI as [].
  destruct (lat_at_exists (latof g1) (ltail_pos (latof g1)) HI) as (a & x & Ha); [by eapply lookup_lt_Some|].
  eapply (HQ g1 _ x); [done|done|done|done|]. destruct Ha as [Ha Hx]. by split.
Qed.

Lemma wp_load_lhead (Q : Z -> G -> tls V -> Prop) g l :
  (forall g' a x, p_rely P t g g' -> p_inv P g' -> a = lhead (latof g') ->
     lat_at (latof g') (lhead_pos (latof g')) a x -> Q a g' l) ->
  wp P t load_lhead Q g l.
Proof.
  intros HQ. apply wp_load_var; [apply _|]. intros g1 R1 I1 O1. pose proof (linv g1 I1) as HI. pose proof HI as [].
  destruct (lat_at_exists (latof g1) (lhead_pos (latof g1)) HI) as (a & x & Ha); [by eapply lookup_lt_Some|].
  eapply (HQ g1 _ x); [done|done|done|]. destruct Ha as [Ha Hx]. by split.
Qed.

Lemma wp_load_info {U} (f : X -> U) k a x (Q : U -> G -> tls V -> Prop) g l :
  lat_at (latof g) k a x ->
  (forall g', p_rely P t g g' -> p_inv P g' -> Q (f x) g' l) ->
  wp P t (load_info f a) Q g l.
Proof.
  intros Ha HQ. apply wp_load; [apply _|]. intros g1 R1 I1 _.
  destruct (lat_node _ k a x (linv g1 I1) (lrely_at g g1 k a x R1 Ha)) as [_ En].
  exists (f x). unfold lookup_lnode. rewrite En. split; [done|by apply HQ].
Qed.

Lemma wp_load_lnext k a x (Q : Z -> G -> tls V -> Prop) g l :
  lat_at (latof g) k a x ->
  (forall g', p_rely P t g g' -> p_inv P g' -> length (chain (latof g')) = S k -> Q 0 g' l) ->
  (forall g' b y, p_rely P t g g' -> p_inv P g' -> b <> 0 -> lat_at (latof g') (S k) b y -> Q b g' l) ->
  wp P t (load_lnext a) Q g l.
Proof.
  intros Ha HQ0 HQ. apply wp_load; [apply _|]. intros g1 R1 I1 _. pose proof (linv g1 I1) as HI.
  pose proof (lrely_at g g1 k a x R1 Ha) as Ha1. destruct (lat_node _ k a x HI Ha1) as [_ En].
  eexists. unfold lookup_lnode. rewrite En. split; [done|]. cbn [lnext].
  destruct (chain (latof g1) !! S k) as [b|] eqn:Eb; cbn [default].
  - assert (Hlt : (S k < length (chain (latof g1)))%nat) by (by eapply lookup_lt_Some).
    destruct (lat_at_exists _ (S k) HI Hlt) as (b' & y & Hb).
    assert (b' = b) as -> by (destruct Hb; congruence).
    apply (HQ g1 b y); [done|done|by eapply (lat_node _ (S k) b y HI)|done].
  - apply HQ0; [done..|]. apply lookup_ge_None in Eb. destruct Ha1 as [Hk _].
    apply lookup_lt_Some in Hk. lia.
Qed.

(** Loading [next] when it is known to be there. *)
Lemma wp_load_lnext_known k a x b y (Q : Z -> G -> tls V -> Prop) g l :
  lat_at (latof g) k a x -> lat_at (latof g) (S k) b y ->
  (forall g', p_rely P t g g' -> p_inv P g' -> Q b g' l) ->
  wp P t (load_lnext a) Q g l.
Proof.
  intros Ha Hb HQ. apply (wp_load_lnext k a x); [done| |].
  - intros g' R1 I1 Hlen. destruct (lrely_at g g' _ _ _ R1 Hb) as [Hk _]. apply lookup_lt_Some in Hk. lia.
  - intros g' b' y' R1 I1 _ [Hb' _]. destruct (lrely_at g g' _ _ _ R1 Hb) as [Hk _].
    assert (b' = b) as -> by congruence. by apply HQ.
Qed.

Lemma wp_alloc_lnode x (Q : Z -> G -> tls V -> Prop) g l :
  thread_id l = t ->
  (forall g1 m, p_inv P g1 -> chain m = chain (latof g1) -> infos m = infos (latof g1) ->
     ltail m = ltail (latof g1) -> lhead m = lhead (latof g1) -> C (set_lat m g1)) ->
  (forall a g1 m, p_rely P t g g1 -> p_inv P g1 -> let g2 := set_lat m g1 in p_inv P g2 ->
     lat_evolves (latof g1) m -> chain m = chain (latof g1) -> infos m = infos (latof g1) ->
     ltail m = ltail (latof g1) -> lhead m = lhead (latof g1) -> lowned a x g2 -> Q a g2 l) ->
  wp P t (alloc_lnode x) Q g l.
Proof.
  intros Ht HC HQ g1 R1 I1 _. rewrite Ht. cbv zeta.
  set (a := alloc_addr (lnodes (latof g1))).
  destruct (alloc_addr_ok (lnodes (latof g1))) as [Ha Hfresh]. fold a in Ha, Hfresh.
  destruct (lalloc_step t a x _ (linv g1 I1) Ha Hfresh) as [Hm Hg].
  destruct (lstep g1 _ I1 Hm Hg) as [HG HI]; [by apply HC|].
  split; [exact HG|split; [exact HI|]]. eapply HQ; [exact R1|exact I1|exact HI|apply Hg|done..|].
  split; cbn; apply lookup_insert_eq.
Qed.

(** The link of the own node [b] after the [k]-th. *)
Lemma wp_cas_lnext k a x b y (Q : bool -> G -> tls V -> Prop) g l :
  lat_at (latof g) k a x -> (k <= ltail_pos (latof g))%nat -> lowned b y g ->
  (forall g1 m, p_rely P t g g1 -> p_inv P g1 -> p_ok P g1 -> length (chain (latof g1)) = S k ->
     ltail_pos (latof g1) = k -> chain m = chain (latof g1) ++ [b] -> infos m = infos (latof g1) ++ [y] ->
     ltail m = ltail (latof g1) -> lhead m = lhead (latof g1) -> lat_inv m -> C (set_lat m g1)) ->
  (forall g1 m, p_rely P t g g1 -> p_inv P g1 -> let g2 := set_lat m g1 in p_inv P g2 ->
     length (chain (latof g1)) = S k -> lat_at m (S k) b y -> lat_evolves (latof g1) m ->
     infos m = infos (latof g1) ++ [y] -> ltail_pos m = ltail_pos (latof g1) ->
     lhead_pos m = lhead_pos (latof g1) -> Q true g2 l) ->
  (forall g1, p_rely P t g g1 -> p_inv P g1 -> (S k < length (chain (latof g1)))%nat -> Q false g1 l) ->
  wp P t (cas_lnext a b) Q g l.
Proof.
  intros Ha Hk Ho HC HQ HQ' g1 R1 I1 O1. pose proof (linv g1 I1) as HI. pose proof HI as [].
  pose proof (lrely_at g g1 k a x R1 Ha) as Ha1. destruct (lat_node _ k a x HI Ha1) as [_ En].
  destruct (lowned_rely b y g g1 R1 Ho) as [Pb Eb].
  pose proof (le_tail _ _ (levolves g g1 R1)) as Htl.
  unfold lookup_lnode at 1. rewrite En. cbn [mbind option_bind lnext].
  assert (Hkl : (k < length (chain (latof g1)))%nat) by (destruct Ha1; by eapply lookup_lt_Some).
  destruct (decide (default 0 (chain (latof g1) !! S k) = 0)) as [E0|Hnz].
  - assert (Hlen : length (chain (latof g1)) = S k).
    { destruct (chain (latof g1) !! S k) as [c|] eqn:Ec.
      - cbn in E0. subst c. by destruct (li_chain0 _ _ Ec).
      - apply lookup_ge_None in Ec. lia. }
    destruct (llink_step t a b k y _ HI (proj1 Ha1) Hlen ltac:(lia) Eb Pb) as (Hm & Hg & Hc & Hi).
    pose proof (lookup_lt_Some _ _ _ li_tail0).
    destruct (lstep g1 _ I1 Hm Hg) as [HG HI2]; [apply HC; try done; lia|].
    split; [exact HG|split; [exact HI2|]].
    pose proof (li_tail _ Hm) as Ht2. pose proof (li_head _ Hm) as Hh2. cbn [ltail lhead llink] in Ht2, Hh2.
    eapply (HQ g1); [done|done|exact HI2|done| |apply Hg|exact Hi|..].
    + split; rewrite ?Hc, ?Hi, lookup_app_r by lia; rewrite ?li_infos0, Hlen, Nat.sub_diag; done.
    + eapply lat_pos_inj; [exact Hm|exact Ht2|]. rewrite Hc. by apply lookup_app_l_Some.
    + eapply lat_pos_inj; [exact Hm|exact Hh2|]. rewrite Hc. by apply lookup_app_l_Some.
  - split; [apply (guar_refl (P := P))|split; [done|]]. apply HQ'; [done..|].
    destruct (chain (latof g1) !! S k) as [c|] eqn:Ec; [by eapply lookup_lt_Some|done].
Qed.

Lemma wp_cae_ltail k a x b y (Q : bool -> G -> tls V -> Prop) g l :
  lat_at (latof g) k a x -> lat_at (latof g) (S k) b y ->
  (forall g1 m, p_rely P t g g1 -> p_inv P g1 -> ltail_pos (latof g1) = k ->
     chain m = chain (latof g1) -> infos m = infos (latof g1) -> ltail_pos m = S k ->
     lhead m = lhead (latof g1) -> lat_inv m -> C (set_lat m g1)) ->
  (forall g1 m, p_rely P t g g1 -> p_inv P g1 -> let g2 := set_lat m g1 in p_inv P g2 ->
     ltail_pos (latof g1) = k -> chain m = chain (latof g1) -> infos m = infos (latof g1) ->
     ltail_pos m = S k -> lhead_pos m = lhead_pos (latof g1) -> lat_evolves (latof g1) m -> Q true g2 l) ->
  (forall g1, p_rely P t g g1 -> p_inv P g1 -> ltail_pos (latof g1) <> k -> Q false g1 l) ->
  wp P t (cae_ltail a b) Q g l.
Proof.
  intros Ha Hb HC HQ HQ' g1 R1 I1 _. pose proof (linv g1 I1) as HI. pose proof HI as [].
  destruct (lrely_at g g1 k a x R1 Ha) as [Hk _]. destruct (lrely_at g g1 (S k) b y R1 Hb) as [Hb1 _].
  destruct (decide (ltail (latof g1) = a)) as [<-|Hne].
  - assert (Ht : ltail_pos (latof g1) = k) by (by eapply lat_pos_inj).
    destruct (lset_tail_step t b (S k) _ HI Hb1 ltac:(lia)) as (Hm & Hg & Hp).
    destruct (lstep g1 _ I1 Hm Hg) as [HG HI2]; [by apply HC|].
    split; [exact HG|split; [exact HI2|]]. eapply (HQ g1); try done. apply Hg.
  - split; [apply (guar_refl (P := P))|split; [done|]]. apply HQ'; [done..|].
    intros E. apply Hne. rewrite E in li_tail0. congruence.
Qed.

(** The head pointer moved forward, from the [k]-th to the [j]-th. *)
Lemma wp_cae_lhead k a x j b y (Q : bool -> G -> tls V -> Prop) g l :
  lat_at (latof g) k a x -> lat_at (latof g) j b y -> (k <= j)%nat ->
  (forall g1 m, p_rely P t g g1 -> p_inv P g1 -> lhead_pos (latof g1) = k ->
     chain m = chain (latof g1) -> infos m = infos (latof g1) -> ltail m = ltail (latof g1) ->
     lhead_pos m = j -> lat_inv m -> C (set_lat m g1)) ->
  (forall g1 m, p_rely P t g g1 -> p_inv P g1 -> let g2 := set_lat m g1 in p_inv P g2 ->
     lhead_pos (latof g1) = k -> chain m = chain (latof g1) -> infos m = infos (latof g1) ->
     ltail_pos m = ltail_pos (latof g1) -> lhead_pos m = j -> lat_evolves (latof g1) m -> Q true g2 l) ->
  (forall g1, p_rely P t g g1 -> p_inv P g1 -> lhead_pos (latof g1) <> k -> Q false g1 l) ->
  wp P t (cae_lhead a b) Q g l.
Proof.
  intros Ha Hb Hkj HC HQ HQ' g1 R1 I1 _. pose proof (linv g1 I1) as HI. pose proof HI as [].
  destruct (lrely_at g g1 k a x R1 Ha) as [Hk _]. destruct (lrely_at g g1 j b y R1 Hb) as [Hb1 _].
  destruct (decide (lhead (latof g1) = a)) as [<-|Hne].
  - assert (Ht : lhead_pos (latof g1) = k) by (by eapply lat_pos_inj).
    destruct (lset_head_step t b j _ HI Hb1 ltac:(lia)) as (Hm & Hg & Hp).
    destruct (lstep g1 _ I1 Hm Hg) as [HG HI2]; [by apply HC|].
    split; [exact HG|split; [exact HI2|]]. eapply (HQ g1); try done. apply Hg.
  - split; [apply (guar_refl (P := P))|split; [done|]]. apply HQ'; [done..|].
    intros E. apply Hne. rewrite E in li_head0. congruence.
Qed.
End rules.
