(* ===== verification/Rows.v ===== *)
(** Rows and windows of the elastic 2Dd queues: the invariant that relates the
    sub-queues to the sequence of put windows, and what each step needs to
    preserve it.  Nothing here is about programs; the queue with the lateral
    queue as window (LaW) and the one with the lateral queue beside the windows
    (LpW) both use it. *)
From S2P Require Import Prelude StackHeap QueueHeap Shared SubQueues.

(** A put window: the rows above [lmax - ldepth] up to [lmax], over the
    sub-queues below [lwidth]. *)
Record win := mkWin { lmax : Z; lwidth : Z; ldepth : Z }.

(** An entry of the arrays: a node and the row it is in. *)
Record descriptor_t := mkDesc { dnode : Z; dcount : Z }.

#[export] Instance descriptor_eq_dec : EqDecision descriptor_t.
Proof. solve_decision. Defined.
#[export] Instance descriptor_desc : QDesc descriptor_t :=
  {| qd_node := dnode; qd_put_ok _ _ := True; qd_get_ok _ _ := True |}.

Notation eq_state := (queues descriptor_t unit).

(** ** Windows *)

(** The rows of window [x] are those above [bottom x] up to [lmax x]. *)
Definition bottom (x : win) : Z := lmax x - ldepth x.

(** The windows lie on top of each other, from the row 0 on. *)
Record windows_ok (max_width : Z) (ws : list win) : Prop := mkWindowsOk {
  wo_first : forall x, ws !! 0%nat = Some x -> lmax x = 0 /\ ldepth x = 0;
  wo_width : forall k x, ws !! k = Some x -> 1 <= lwidth x <= max_width;
  wo_next : forall k x y, ws !! k = Some x -> ws !! S k = Some y ->
    1 <= ldepth y < 2 ^ 16 /\ bottom y = lmax x;
}.

(** No window is narrower than the one before. *)
Definition grows (ws : list win) : Prop :=
  forall k x y, ws !! k = Some x -> ws !! S k = Some y -> lwidth x <= lwidth y.

Section windows.
Context (max_width : Z).
Implicit Types (ws : list win) (x y : win).
Notation windows_ok := (windows_ok max_width).

Lemma windows_bottom ws j k x y :
  windows_ok ws -> ws !! j = Some x -> ws !! k = Some y -> (j < k)%nat ->
  lmax x <= bottom y < lmax y.
Proof.
  intros [] Hj. revert y. induction k as [|k IH]; intros y Hk Hlt; [lia|].
  destruct (lookup_lt_is_Some_2 ws k) as [z Hz]; [apply lookup_lt_Some in Hk; lia|].
  destruct (wo_next0 k z y Hz Hk) as [Hd Hb]. assert (bottom y < lmax y) by (unfold bottom; lia).
  destruct (decide (j = k)) as [->|].
  - assert (z = x) as -> by congruence. lia.
  - specialize (IH z Hz ltac:(lia)). lia.
Qed.

Lemma windows_bottom_le ws j k x y :
  windows_ok ws -> ws !! j = Some x -> ws !! k = Some y -> (j <= k)%nat -> bottom x <= bottom y.
Proof.
  intros Ho Hj Hk Hle. destruct (decide (j = k)) as [->|]; [by assert (y = x) as -> by congruence|].
  pose proof (windows_bottom ws j k x y Ho Hj Hk ltac:(lia)).
  destruct j as [|j].
  - destruct (wo_first _ _ Ho x Hj). unfold bottom in *. lia.
  - destruct (lookup_lt_is_Some_2 ws j) as [z Hz]; [apply lookup_lt_Some in Hj; lia|].
    pose proof (windows_bottom ws j (S j) z x Ho Hz Hj ltac:(lia)). lia.
Qed.

Lemma windows_max ws j k x y :
  windows_ok ws -> ws !! j = Some x -> ws !! k = Some y -> (j <= k)%nat -> lmax x <= lmax y.
Proof.
  intros Ho Hj Hk Hle. destruct (decide (j = k)) as [->|]; [by assert (y = x) as -> by congruence|].
  pose proof (windows_bottom ws j k x y Ho Hj Hk ltac:(lia)). lia.
Qed.

Lemma windows_bound ws k x :
  windows_ok ws -> ws !! k = Some x -> 0 <= bottom x <= lmax x /\ lmax x <= Z.of_nat k * 2 ^ 16.
Proof.
  intros Ho. pose proof Ho as []. revert x. induction k as [|k IH]; intros x Hk.
  - destruct (wo_first0 x Hk). unfold bottom. lia.
  - destruct (lookup_lt_is_Some_2 ws k) as [z Hz]; [apply lookup_lt_Some in Hk; lia|].
    destruct (wo_next0 k z x Hz Hk). specialize (IH z Hz). unfold bottom in *. lia.
Qed.

(** Every window but the first, which has no rows, is at least one row high. *)
Lemma windows_room ws k x : windows_ok ws -> ws !! k = Some x -> 0 < lmax x -> bottom x < lmax x.
Proof.
  intros Ho Hk Hm. destruct k as [|k]; [destruct (wo_first _ _ Ho x Hk); lia|].
  destruct (lookup_lt_is_Some_2 ws k) as [z Hz]; [apply lookup_lt_Some in Hk; lia|].
  pose proof (windows_bottom ws k (S k) z x Ho Hz Hk ltac:(lia)). lia.
Qed.

Lemma windows_snoc ws x y :
  windows_ok ws -> last ws = Some x -> 1 <= lwidth y <= max_width -> 1 <= ldepth y < 2 ^ 16 ->
  bottom y = lmax x -> windows_ok (ws ++ [y]).
Proof.
  intros [] Hlast Hw Hd Hb. rewrite last_lookup in Hlast.
  assert (Hpos : (0 < length ws)%nat) by (destruct ws; [done|cbn; lia]). split.
  - intros z Hz. rewrite lookup_app_l in Hz by done. by apply wo_first0.
  - intros k z [Hk|[_ Hk]]%lookup_app_Some; [by eapply wo_width0|].
    apply list_lookup_singleton_Some in Hk as [_ <-]. done.
  - intros k z z' Hz Hz'. pose proof (lookup_lt_Some _ _ _ Hz') as Hlt.
    rewrite length_app in Hlt. cbn in Hlt. rewrite lookup_app_l in Hz by lia.
    apply lookup_app_Some in Hz' as [Hz'|[Hge Hz']]; [by eapply wo_next0|].
    apply list_lookup_singleton_Some in Hz' as [_ <-].
    replace (pred (length ws)) with k in Hlast by lia. by assert (z = x) as -> by congruence.
Qed.

Lemma grows_le ws j k x y :
  grows ws -> ws !! j = Some x -> ws !! k = Some y -> (j <= k)%nat -> lwidth x <= lwidth y.
Proof.
  intros Hg Hj. revert y. induction k as [|k IH]; intros y Hk Hle.
  - replace j with 0%nat in Hj by lia. assert (y = x) as -> by congruence. lia.
  - destruct (decide (j = S k)) as [->|]; [assert (y = x) as -> by congruence; lia|].
    destruct (lookup_lt_is_Some_2 ws k) as [z Hz]; [apply lookup_lt_Some in Hk; lia|].
    specialize (IH z Hz ltac:(lia)). specialize (Hg k z y Hz Hk). lia.
Qed.
End windows.

(** ** Rows *)

(** The row of the [k]-th node of sub-queue [i], and the counts in the arrays. *)
Definition row (s : eq_state) (i : Z) (k : nat) : Z := from_option dcount 0 (puts_of s i !! k).
Definition put_row (s : eq_state) (i : Z) : Z := row s i (tail_pos s i).
Definition get_row (s : eq_state) (i : Z) : Z := from_option dcount 0 (get_array s !! Z.to_nat i).

(** In sub-queue [i] the node after one in row [r] is in row [r']: the next row
    of the first window that still has one for the sub-queue. *)
Definition row_step (ws : list win) (i r r' : Z) : Prop :=
  exists n x, ws !! n = Some x /\ i < lwidth x /\ r < lmax x /\ r' = Z.max r (bottom x) + 1 /\
  forall m y, (m < n)%nat -> ws !! m = Some y -> i < lwidth y -> lmax y <= r.

Lemma row_step_app ws ws' i r r' : ws `prefix_of` ws' -> row_step ws i r r' -> row_step ws' i r r'.
Proof.
  intros Hp (n & x & Hn & Hi & Hr & E & Hm). exists n, x.
  split; [by eapply prefix_lookup_Some|]. do 3 (split; [done|]). intros m y Hlt Hy. apply (Hm m y Hlt).
  destruct Hp as [ws'' ->]. apply lookup_lt_Some in Hn. by rewrite lookup_app_l in Hy by lia.
Qed.

(** [ws]: the windows; [T], [H]: the positions of the lateral queue's tail and
    head.  A sub-queue whose tail pointer lags is one the last window still has
    room in; a window that is not the last is full. *)
Record law_ok (max_width : Z) (ws : list win) (T H : nat) (s : eq_state) : Prop := mkLawOk {
  lw_windows : windows_ok max_width ws;
  lw_tail : (T < length ws)%nat;
  lw_head : (H < T)%nat;
  lw_full : forall k x i, ws !! k = Some x -> (S k < length ws)%nat -> 0 <= i < lwidth x ->
    lmax x <= put_row s i;
  lw_top : forall i x, 0 <= i < max_width -> ws !! T = Some x -> put_row s i <= lmax x;
  lw_lag : forall i, 0 <= i < max_width -> length (links_of s i) = (tail_pos s i + 2)%nat ->
    exists x, length ws = S T /\ ws !! T = Some x /\ i < lwidth x /\ put_row s i < lmax x;
  lw_start : forall i, 0 <= i < max_width -> row s i 0 = 0;
  lw_rows : forall i k, 0 <= i < max_width -> (k < tail_pos s i)%nat ->
    row_step ws i (row s i k) (row s i (S k));
  lw_get : forall i, 0 <= i < max_width ->
    row s i (head_pos s i) <= get_row s i <= Z.of_nat (length ws) * 2 ^ 16 + Z.of_nat (length (hist s));
}.

(** The get window is the one after the [H]-th.  Without interference the
    counts of [get_array] are exact, and what is left is above the windows that
    have been passed. *)
Definition drained (max_width : Z) (ws : list win) (H : nat) (s : eq_state) : Prop :=
  (forall i, 0 <= i < max_width -> get_row s i = row s i (head_pos s i)) /\
  (forall i k x, 0 <= i < max_width -> ws !! H = Some x ->
     (head_pos s i < k <= tail_pos s i)%nat -> lmax x < row s i k).

(** No operation is half done. *)
Definition settled (max_width : Z) (s : eq_state) : Prop :=
  forall i, 0 <= i < max_width -> length (links_of s i) = S (tail_pos s i).

Section law.
Context (mw : Z).
Notation law_ok := (law_ok mw).
Notation inv := (queues_inv mw).
Implicit Types (ws : list win) (s : eq_state).

Lemma put_row_eq s i d :
  inv s -> 0 <= i < mw -> put_array s !! Z.to_nat i = Some d -> put_row s i = dcount d.
Proof.
  intros (_&_&_&_&_&_&_&H) Hi E. destruct (H i Hi) as (dp & dg & []).
  unfold put_row, row. rewrite sa_putlast. cbn. by assert (dp = d) as -> by congruence.
Qed.

Lemma get_row_eq s i d : get_array s !! Z.to_nat i = Some d -> get_row s i = dcount d.
Proof. unfold get_row. by intros ->. Qed.

Lemma puts_length s i : inv s -> 0 <= i < mw -> length (puts_of s i) = S (tail_pos s i).
Proof. intros (_&_&_&_&_&_&_&H) Hi. by destruct (H i Hi) as (dp & dg & []). Qed.

Lemma row_evolves s s' i k :
  inv s -> 0 <= i < mw -> evolves s s' -> (k <= tail_pos s i)%nat -> row s' i k = row s i k.
Proof.
  intros HI Hi [] Hk. unfold row. pose proof (puts_length s i HI Hi).
  destruct (lookup_lt_is_Some_2 (puts_of s i) k ltac:(lia)) as [d E]. rewrite E.
  by rewrite (prefix_lookup_Some _ _ _ _ E (ev_puts i)).
Qed.

(** *** What the invariant says of one sub-queue *)

Section facts.
Context ws T H s (HL : law_ok ws T H s) (HI : inv s).

Lemma rows_next i k : 0 <= i < mw -> (k < tail_pos s i)%nat -> row s i k + 1 <= row s i (S k).
Proof. intros Hi Hk. destruct (lw_rows _ _ _ _ _ HL i k Hi Hk) as (n & x & _ & _ & _ & -> & _). lia. Qed.

Lemma rows_mono i j k :
  0 <= i < mw -> (j <= k <= tail_pos s i)%nat -> row s i j + Z.of_nat (k - j) <= row s i k.
Proof.
  intros Hi. induction k as [|k IH]; intros Hjk.
  - replace j with 0%nat by lia. cbn. lia.
  - destruct (decide (j = S k)) as [->|]; [rewrite Nat.sub_diag; lia|].
    pose proof (rows_next i k Hi ltac:(lia)). specialize (IH ltac:(lia)). lia.
Qed.

Lemma put_row_range i : 0 <= i < mw -> 0 <= put_row s i < Z.of_nat (length ws) * 2 ^ 16.
Proof.
  intros Hi. pose proof (rows_mono i 0 (tail_pos s i) Hi ltac:(lia)) as Hm.
  rewrite (lw_start _ _ _ _ _ HL i Hi) in Hm. unfold put_row at 1. split; [lia|].
  pose proof (lw_tail _ _ _ _ _ HL) as HT. destruct (lookup_lt_is_Some_2 ws T HT) as [x Hx].
  pose proof (lw_top _ _ _ _ _ HL i x Hi Hx).
  pose proof (windows_bound _ _ _ _ (lw_windows _ _ _ _ _ HL) Hx). lia.
Qed.

(** A position whose row is below another sub-queue position's is before it. *)
Lemma rows_before i j k :
  0 <= i < mw -> (j <= tail_pos s i)%nat -> row s i j < row s i k -> (j < k)%nat \/ (tail_pos s i < k)%nat.
Proof.
  intros Hi Hj Hlt. destruct (decide (k <= j)%nat); [|lia].
  pose proof (rows_mono i k j Hi ltac:(lia)). lia.
Qed.

(** A window that the tail has reached and that still has room for a sub-queue
    is the last one. *)
Lemma window_last n x i :
  ws !! n = Some x -> (n <= T)%nat -> 0 <= i < lwidth x -> put_row s i < lmax x ->
  T = n /\ length ws = S n.
Proof.
  intros Hn HnT Hi Hlt. pose proof (lookup_lt_Some _ _ _ Hn). pose proof HL as [].
  destruct (decide (S n < length ws)%nat) as [Hm|]; [|lia].
  specialize (lw_full0 n x i Hn Hm Hi). lia.
Qed.

(** The row that an element taken through window [x] is given is at least its
    own, unless the window is exhausted and later ones have left it out. *)
Lemma row_taken n x i k c :
  ws !! n = Some x -> 0 <= i < lwidth x -> (k < tail_pos s i)%nat -> row s i k <= c ->
  c < lmax x \/ grows ws -> row s i (S k) <= Z.max (c + 1) (bottom x + 1).
Proof.
  intros Hn Hi Hk Hc Hor. pose proof HL as []. pose proof (wo_width _ _ lw_windows0 n x Hn).
  destruct (lw_rows0 i k ltac:(lia) Hk) as (n' & x' & Hn' & Hi' & Hr & -> & Hmin).
  destruct (decide (n' <= n)%nat) as [Hle|Hgt].
  - pose proof (windows_bottom_le _ _ _ _ _ _ lw_windows0 Hn' Hn Hle). lia.
  - specialize (Hmin n x ltac:(lia) Hn ltac:(lia)) as Hx. destruct Hor as [|Hg]; [lia|].
    destruct n' as [|n']; [lia|].
    destruct (lookup_lt_is_Some_2 ws n') as [y Hy]; [apply lookup_lt_Some in Hn'; lia|].
    pose proof (grows_le _ _ _ _ _ Hg Hn Hy ltac:(lia)).
    specialize (Hmin n' y ltac:(lia) Hy ltac:(lia)).
    destruct (wo_next _ _ lw_windows0 n' y x' Hy Hn'). lia.
Qed.

(** Below the put window every sub-queue of a window is filled up to its top. *)
Lemma below_put_window n x i k c :
  ws !! n = Some x -> (S n < length ws)%nat -> 0 <= i < lwidth x -> row s i k <= c -> c < lmax x ->
  (k <= tail_pos s i)%nat -> (k < tail_pos s i)%nat.
Proof.
  intros Hn Hlt Hi Hk Hc Hle. pose proof (lw_full _ _ _ _ _ HL n x i Hn Hlt Hi) as Hf.
  destruct (decide (k = tail_pos s i)) as [->|]; [unfold put_row in Hf; lia|lia].
Qed.

(** The window of a row. *)
Lemma row_window i k :
  0 <= i < mw -> (k < tail_pos s i)%nat ->
  exists n x, ws !! n = Some x /\ i < lwidth x /\ bottom x < row s i (S k) <= lmax x.
Proof.
  intros Hi Hk. destruct (lw_rows _ _ _ _ _ HL i k Hi Hk) as (n & x & Hn & Hix & Hr & E & _).
  exists n, x. split; [done|split; [done|]]. rewrite E. destruct n as [|n].
  - destruct (wo_first _ _ (lw_windows _ _ _ _ _ HL) x Hn) as [E0 E1].
    pose proof (rows_mono i 0 k Hi ltac:(lia)) as Hm. rewrite (lw_start _ _ _ _ _ HL i Hi) in Hm. lia.
  - destruct (lookup_lt_is_Some_2 ws n) as [y Hy]; [apply lookup_lt_Some in Hn; lia|].
    pose proof (windows_bottom _ _ _ _ _ _ (lw_windows _ _ _ _ _ HL) Hy Hn ltac:(lia)). lia.
Qed.

(** Past a window that is exhausted. *)
Lemma drained_shift x :
  drained mw ws H s -> ws !! S H = Some x -> (forall j, 0 <= j < lwidth x -> lmax x <= get_row s j) ->
  drained mw ws (S H) s.
Proof.
  intros [Hexact Hpass] Hx Hall. split; [done|]. intros i k y Hi Hy Hk. assert (y = x) as -> by congruence.
  pose proof (lookup_lt_Some _ _ _ Hx). destruct (lookup_lt_is_Some_2 ws H) as [z Hz]; [lia|].
  specialize (Hpass i k z Hi Hz Hk). pose proof (lw_windows _ _ _ _ _ HL) as Ho.
  destruct (decide (i < lwidth x)) as [|Hix].
  - specialize (Hall i ltac:(lia)). rewrite Hexact in Hall by done.
    pose proof (rows_mono i (head_pos s i) k Hi ltac:(lia)). lia.
  - destruct k as [|k]; [lia|]. destruct (row_window i k Hi ltac:(lia)) as (n & y & Hn & Hiy & Hr).
    destruct (decide (lmax x < row s i (S k))); [done|]. exfalso.
    destruct (decide (n <= H)%nat) as [Hle|].
    + pose proof (windows_max _ _ _ _ _ _ Ho Hn Hz Hle). lia.
    + destruct (decide (n = S H)) as [->|]; [assert (y = x) as -> by congruence; lia|].
      pose proof (windows_bottom _ _ _ _ _ _ Ho Hx Hn ltac:(lia)). lia.
Qed.

(** The next row to be taken through a window that is not exhausted. *)
Lemma drained_next_row x i :
  drained mw ws H s -> ws !! S H = Some x -> 0 <= i < lwidth x -> (head_pos s i < tail_pos s i)%nat ->
  row s i (head_pos s i) < lmax x ->
  row s i (S (head_pos s i)) = Z.max (row s i (head_pos s i)) (bottom x) + 1 /\
  row s i (S (head_pos s i)) <= lmax x.
Proof.
  intros [_ Hpass] Hx Hi Hlt Hr. pose proof (lw_windows _ _ _ _ _ HL) as Ho.
  pose proof (wo_width _ _ Ho _ x Hx). pose proof (lookup_lt_Some _ _ _ Hx).
  destruct (lookup_lt_is_Some_2 ws H) as [z Hz]; [lia|].
  specialize (Hpass i (S (head_pos s i)) z ltac:(lia) Hz ltac:(lia)).
  destruct (lw_rows _ _ _ _ _ HL i (head_pos s i) ltac:(lia) Hlt) as (n & y & Hn & Hiy & Hry & E & Hmin).
  assert (Hn1 : (n <= S H)%nat).
  { destruct (decide (n <= S H)%nat); [done|]. specialize (Hmin (S H) x ltac:(lia) Hx ltac:(lia)). lia. }
  assert (Hroom : bottom y < lmax y).
  { apply (windows_room mw ws n); [done|done|].
    pose proof (rows_mono i 0 (head_pos s i) ltac:(lia) ltac:(lia)) as Hm.
    rewrite (lw_start _ _ _ _ _ HL i ltac:(lia)) in Hm. lia. }
  destruct (decide (n = S H)) as [->|Hne]; [assert (y = x) as -> by congruence; lia|].
  pose proof (windows_max _ _ _ _ _ _ Ho Hn Hz ltac:(lia)). lia.
Qed.

(** Nothing is left when the get window is the last and none of its sub-queues
    has anything. *)
Lemma drained_empty x :
  drained mw ws H s -> S H = T -> length ws = S T -> ws !! T = Some x ->
  (forall j, 0 <= j < lwidth x -> put_row s j <= row s j (head_pos s j)) ->
  forall j, 0 <= j < mw -> tail_pos s j = head_pos s j.
Proof.
  intros [_ Hpass] HT Hlen Hx Hall j Hj. pose proof (lw_windows _ _ _ _ _ HL) as Ho.
  destruct (sub_positions mw s j HI Hj) as [[Hle _] _].
  destruct (decide (head_pos s j = tail_pos s j)) as [|Hne]; [done|]. exfalso.
  destruct (lookup_lt_is_Some_2 ws H) as [z Hz]; [lia|].
  destruct (decide (j < lwidth x)) as [|Hjw].
  - specialize (Hall j ltac:(lia)). pose proof (rows_mono j (head_pos s j) (tail_pos s j) Hj ltac:(lia)).
    unfold put_row in Hall. lia.
  - destruct (tail_pos s j) as [|k] eqn:Ek; [lia|].
    specialize (Hpass j (S k) z Hj Hz ltac:(lia)).
    destruct (row_window j k Hj ltac:(lia)) as (n & y & Hn & Hjy & Hr).
    pose proof (lookup_lt_Some _ _ _ Hn). destruct (decide (n = T)) as [->|]; [assert (y = x) as -> by congruence; lia|].
    pose proof (windows_max _ _ _ _ _ _ Ho Hn Hz ltac:(lia)). lia.
Qed.
End facts.

(** *** The steps of the lateral queue *)

Lemma law_link ws T H s x y :
  law_ok ws T H s -> ws !! T = Some x -> length ws = S T ->
  (forall i, 0 <= i < lwidth x -> lmax x <= put_row s i) ->
  1 <= lwidth y <= mw -> 1 <= ldepth y < 2 ^ 16 -> bottom y = lmax x ->
  law_ok (ws ++ [y]) T H s.
Proof.
  intros [] HT Hlen Hfull Hw Hd Hb.
  assert (Hl : forall k z, (k < length ws)%nat -> (ws ++ [y]) !! k = Some z -> ws !! k = Some z).
  { intros k z Hk. by rewrite lookup_app_l by done. }
  split; try done.
  - eapply windows_snoc; [done| |done..]. rewrite last_lookup. by replace (pred (length ws)) with T by lia.
  - rewrite length_app. lia.
  - intros k z i Hz Hk Hi. rewrite length_app in Hk. cbn in Hk. apply Hl in Hz; [|lia].
    destruct (decide (k = T)) as [->|]; [assert (z = x) as -> by congruence; by apply Hfull|].
    eapply lw_full0; [exact Hz|lia|done].
  - intros i z Hi Hz. apply Hl in Hz; [|lia]. by apply lw_top0.
  - intros i Hi Hlag. destruct (lw_lag0 i Hi Hlag) as (z & _ & Hz & Hiz & Hlt).
    assert (z = x) as -> by congruence. specialize (Hfull i ltac:(lia)). lia.
  - intros i k Hi Hk. eapply row_step_app; [by apply prefix_app_r|]. by apply lw_rows0.
  - intros i Hi. specialize (lw_get0 i Hi). rewrite length_app. cbn. lia.
Qed.

Lemma law_tail ws T H s : law_ok ws T H s -> length ws = S (S T) -> law_ok ws (S T) H s.
Proof.
  intros [] Hlen. split; try done; try lia.
  - intros i y Hi Hy. destruct (lookup_lt_is_Some_2 ws T lw_tail0) as [x Hx].
    pose proof (windows_max _ _ _ _ _ _ lw_windows0 Hx Hy ltac:(lia)). specialize (lw_top0 i x Hi Hx). lia.
  - intros i Hi Hlag. destruct (lw_lag0 i Hi Hlag) as (z & ? & _). lia.
Qed.

Lemma law_head ws T H H' s : law_ok ws T H s -> (H' < T)%nat -> law_ok ws T H' s.
Proof. intros [] ?. by split. Qed.

(** *** The steps of the sub-queues *)

(** Nothing but the nodes and the history has changed. *)
Lemma law_same ws T H s s' :
  law_ok ws T H s ->
  get_array s' = get_array s -> links s' = links s -> tails s' = tails s -> puts s' = puts s ->
  (forall i, head_pos s' i = head_pos s i) -> (length (hist s) <= length (hist s'))%nat ->
  law_ok ws T H s'.
Proof.
  intros [] Eg El Et Ep Eh Hh.
  assert (Er : forall i k, row s' i k = row s i k) by (intros; unfold row, puts_of; by rewrite Ep).
  assert (Etl : forall i, tail_pos s' i = tail_pos s i) by (intros; unfold tail_pos; by rewrite Et).
  assert (Eli : forall i, links_of s' i = links_of s i) by (intros; unfold links_of; by rewrite El).
  assert (Epr : forall i, put_row s' i = put_row s i) by (intros; unfold put_row; by rewrite Er, Etl).
  assert (Egr : forall i, get_row s' i = get_row s i) by (intros; unfold get_row; by rewrite Eg).
  split; try done; intros i; rewrite ?Eli, ?Etl, ?Epr, ?Egr, ?Eh; auto.
  - intros x i'. rewrite Epr. by apply lw_full0.
  - intros Hi. rewrite Er. auto.
  - intros k Hi Hk. rewrite !Er. auto.
  - intros Hi. rewrite Er. specialize (lw_get0 i Hi). lia.
Qed.

Lemma law_heap ws T H s m : law_ok ws T H s -> law_ok ws T H (with_heap m s).
Proof. intros HL. by apply (law_same ws T H s). Qed.

Lemma law_nothing ws T H s t i : law_ok ws T H s -> law_ok ws T H (with_event (t, Nothing i) s).
Proof. intros HL. apply (law_same ws T H s); try done. cbn. lia. Qed.

(** The link of a node in a window that has room for it. *)
Lemma law_linked ws T H s t i a b nb n x :
  law_ok ws T H s -> inv s -> length (links_of s i) = S (tail_pos s i) ->
  ws !! n = Some x -> (n <= T)%nat -> 0 <= i < lwidth x -> put_row s i < lmax x ->
  law_ok ws T H (linked t i a b nb s).
Proof.
  intros HL HI Hlen Hn HnT Hi Hlt. destruct (window_last ws T H s HL n x i Hn HnT Hi Hlt) as [<- Hws].
  pose proof HL as []. pose proof (wo_width _ _ lw_windows0 T x Hn).
  split; try done.
  - intros j Hj Hlag. rewrite (links_of_linked mw) in Hlag by (done || lia).
    change (tail_pos (linked t i a b nb s) j) with (tail_pos s j) in Hlag.
    destruct (decide (Z.to_nat i = Z.to_nat j)) as [E|]; [|by apply lw_lag0].
    assert (i = j) as <- by lia. exists x. split; [done|split; [done|split; [lia|exact Hlt]]].
  - intros j Hj. specialize (lw_get0 j Hj). cbn [linked hist length].
    change (get_row (linked t i a b nb s) j) with (get_row s j).
    change (head_pos (linked t i a b nb s) j) with (head_pos s j).
    change (row (linked t i a b nb s) j) with (row s j). lia.
Qed.

Lemma row_with_put s i new j k :
  inv s -> 0 <= i < mw -> 0 <= j < mw -> (k <= S (tail_pos s j))%nat ->
  row (with_put i new s) j k =
    if decide (i = j /\ k = S (tail_pos s j)) then dcount new
    else if decide (k <= tail_pos s j)%nat then row s j k else 0.
Proof.
  intros HI Hi Hj Hk. unfold row. rewrite (puts_of_with_put mw) by done.
  pose proof (puts_length s j HI Hj) as Hlj. destruct (decide (Z.to_nat i = Z.to_nat j)) as [E|Hne].
  - assert (i = j) as -> by lia. destruct (decide (k = S (tail_pos s j))) as [->|].
    + rewrite decide_True by done. unfold puts_of in *. rewrite <- Hlj. by rewrite list_lookup_middle.
    + rewrite decide_False by (by intros [_ ?]). rewrite decide_True by lia.
      by rewrite lookup_app_l by lia.
  - rewrite decide_False by (intros [-> _]; done). destruct (decide _); [done|].
    by rewrite lookup_ge_None_2 by lia.
Qed.

(** The tail pointer follows a linked node. *)
Lemma law_put ws T H s i d new n x :
  law_ok ws T H s -> inv s -> put_array s !! Z.to_nat i = Some d ->
  (S (tail_pos s i) < length (links_of s i))%nat ->
  ws !! n = Some x -> (n <= T)%nat -> 0 <= i < lwidth x -> dcount d < lmax x ->
  dcount new = Z.max (dcount d) (bottom x) + 1 ->
  law_ok ws T H (with_put i new s).
Proof.
  intros HL HI Ed Hlen Hn HnT Hix Hlt Enew. pose proof HL as [].
  pose proof (wo_width _ _ lw_windows0 n x Hn) as Hw. assert (Hi : 0 <= i < mw) by lia.
  pose proof (put_row_eq s i d HI Hi Ed) as Epr.
  destruct (window_last ws T H s HL n x i Hn HnT Hix ltac:(lia)) as [<- Hws].
  assert (Htl := fun j => tail_pos_with_put mw i new s j HI Hi).
  assert (Hrow := fun j k => row_with_put s i new j k HI Hi).
  assert (Hold : forall j k, 0 <= j < mw -> (k <= tail_pos s j)%nat -> row (with_put i new s) j k = row s j k).
  { intros j k Hj Hk. rewrite Hrow by (done || lia). rewrite decide_False by (intros [_ ?]; lia).
    by rewrite decide_True. }
  assert (Hnew : row (with_put i new s) i (S (tail_pos s i)) = dcount new).
  { rewrite Hrow by (done || lia). by rewrite decide_True. }
  assert (Hpr : forall j, 0 <= j < mw ->
    put_row (with_put i new s) j = if decide (i = j) then dcount new else put_row s j).
  { intros j Hj. unfold put_row. rewrite Htl. destruct (decide (i = j)) as [<-|].
    - by rewrite decide_True.
    - rewrite decide_False by lia. by apply Hold. }
  assert (Hrange : dcount d < dcount new <= lmax x).
  { assert (bottom x < lmax x); [|lia]. destruct T as [|T']; [lia|].
    destruct (lookup_lt_is_Some_2 ws T') as [z Hz]; [lia|].
    destruct (windows_bottom mw ws T' (S T') z x lw_windows0 Hz Hn ltac:(lia)). done. }
  split; try done.
  - intros k y j Hy Hk Hj. pose proof (wo_width _ _ lw_windows0 k y Hy).
    rewrite Hpr by lia. specialize (lw_full0 k y j Hy Hk Hj).
    destruct (decide (i = j)) as [<-|]; lia.
  - intros j y Hj Hy. assert (y = x) as -> by congruence. rewrite Hpr by done.
    destruct (decide _); [lia|]. by apply lw_top0.
  - intros j Hj. change (links_of (with_put i new s) j) with (links_of s j). rewrite Htl.
    destruct (sub_positions mw s j HI Hj) as (_ & Hp2 & _).
    destruct (decide (Z.to_nat i = Z.to_nat j)) as [E|Hne].
    + assert (i = j) as <- by lia. lia.
    + intros Hlag. rewrite Hpr, decide_False by (done || (intros ->; done)). by apply lw_lag0.
  - intros j Hj. rewrite Hold by (done || lia). by apply lw_start0.
  - intros j k Hj. rewrite Htl. intros Hk. destruct (decide (Z.to_nat i = Z.to_nat j)) as [E|Hne].
    + assert (i = j) as <- by lia. destruct (decide (k = tail_pos s i)) as [->|].
      * rewrite Hnew, Hold by (done || lia). exists T, x. split; [done|]. split; [lia|].
        change (row s i (tail_pos s i)) with (put_row s i). rewrite Epr. split; [lia|].
        split; [done|]. intros m y Hm Hy Hiy. rewrite <- Epr. apply (lw_full0 m y); [done|lia|lia].
      * rewrite !Hold by (done || lia). apply lw_rows0; [done|lia].
    + rewrite !Hold by (done || lia). by apply lw_rows0.
  - intros j Hj. change (get_row (with_put i new s) j) with (get_row s j).
    change (head_pos (with_put i new s) j) with (head_pos s j). rewrite Hold; [by apply lw_get0|done|].
    destruct (sub_positions mw s j HI Hj). lia.
Qed.

(** The head pointer moves to the next node. *)
Lemma law_taken ws T H s t i d new v n x :
  law_ok ws T H s -> inv s -> get_array s !! Z.to_nat i = Some d ->
  ws !! n = Some x -> 0 <= i < lwidth x -> (head_pos s i < tail_pos s i)%nat ->
  dcount new = Z.max (dcount d + 1) (bottom x + 1) -> dcount d < lmax x \/ grows ws ->
  law_ok ws T H (taken t i (head_pos s i) new v s).
Proof.
  intros HL HI Ed Hn Hix Hlt Enew Hor. pose proof HL as [].
  pose proof (wo_width _ _ lw_windows0 n x Hn). assert (Hi : 0 <= i < mw) by lia.
  pose proof (lw_get0 i Hi) as Hg. rewrite (get_row_eq s i d Ed) in Hg.
  pose proof (row_taken ws T H s HL n x i (head_pos s i) (dcount d) Hn Hix Hlt ltac:(lia) Hor) as Hnew.
  split; try done. intros j Hj. rewrite head_pos_taken. cbn [taken hist length].
  change (row (taken t i (head_pos s i) new v s) j) with (row s j).
  unfold get_row. cbn [taken get_array]. destruct (decide (i = j)) as [<-|Hne].
  - rewrite list_lookup_insert_eq by (eapply lookup_lt_Some; exact Ed). cbn [from_option].
    destruct (windows_bound _ _ _ _ lw_windows0 Hn). pose proof (lookup_lt_Some _ _ _ Hn). lia.
  - rewrite list_lookup_insert_ne by lia. pose proof (lw_get0 j Hj) as Hgj. unfold get_row in Hgj. lia.
Qed.

(** *** Without interference *)

Lemma drained_prefix ws ws' H s :
  drained mw ws H s -> ws `prefix_of` ws' -> (H < length ws)%nat -> drained mw ws' H s.
Proof.
  intros [He Hp] Hpre HH. split; [done|]. intros i k x Hi Hx. apply Hp; [done|].
  destruct (lookup_lt_is_Some_2 ws H HH) as [y Hy].
  pose proof (prefix_lookup_Some _ _ _ _ Hy Hpre). congruence.
Qed.

(** A new row above the windows that have been passed. *)
Lemma drained_put ws H s i new :
  drained mw ws H s -> inv s -> 0 <= i < mw -> (forall x, ws !! H = Some x -> lmax x < dcount new) ->
  drained mw ws H (with_put i new s).
Proof.
  intros [He Hp] HI Hi Hnew.
  assert (Hold : forall j k, 0 <= j < mw -> (k <= tail_pos s j)%nat -> row (with_put i new s) j k = row s j k).
  { intros j k Hj Hk. rewrite row_with_put by (done || lia). rewrite decide_False by (by intros [_ ?]; lia).
    by rewrite decide_True. }
  split.
  - intros j Hj. change (get_row (with_put i new s) j) with (get_row s j).
    change (head_pos (with_put i new s) j) with (head_pos s j). rewrite Hold; [by apply He|done|].
    destruct (sub_positions mw s j HI Hj) as [[? _] _]. done.
  - intros j k x Hj Hx. change (head_pos (with_put i new s) j) with (head_pos s j).
    rewrite (tail_pos_with_put mw) by done. intros Hk.
    destruct (decide (k <= tail_pos s j)%nat); [rewrite Hold by done; apply Hp; [done|done|lia]|].
    destruct (decide (Z.to_nat i = Z.to_nat j)) as [E|]; [|lia]. assert (i = j) as <- by lia.
    rewrite row_with_put by (done || lia). rewrite decide_True by lia. by apply Hnew.
Qed.

(** A take with the count of the node taken. *)
Lemma drained_taken ws H s t i new v :
  drained mw ws H s -> inv s -> 0 <= i < mw -> (head_pos s i < tail_pos s i)%nat ->
  dcount new = row s i (S (head_pos s i)) ->
  drained mw ws H (taken t i (head_pos s i) new v s).
Proof.
  intros [He Hp] (_ & Hlg & _) Hi Hlt Hnew. split.
  - intros j Hj. rewrite head_pos_taken. change (row (taken t i (head_pos s i) new v s) j) with (row s j).
    unfold get_row. cbn [taken get_array]. destruct (decide (i = j)) as [<-|].
    + by rewrite list_lookup_insert_eq by lia.
    + rewrite list_lookup_insert_ne by lia. by apply He.
  - intros j k x Hj Hx. rewrite head_pos_taken. intros Hk. apply Hp; [done|done|].
    change (tail_pos (taken t i (head_pos s i) new v s) j) with (tail_pos s j) in Hk.
    destruct (decide (i = j)); lia.
Qed.
End law.
