(* ===== verification/RowOrder.v ===== *)
(** The order of the elements of an elastic 2Dd queue used by one thread: the
    elements of an earlier put window are older, and a dequeue from the get
    window overtakes few of them.  Like Rows.v it is about the sub-queues and
    the sequence of put windows only, so that it serves both elastic queues. *)
From S2P Require Import Prelude StackHeap QueueHeap FifoOrder Shared SubQueues Rows.

(** The number of the window of a row.  Window 0 of the specification is the one
    after the first, which has no rows. *)
Definition window_index (ws : list win) (r : Z) : nat :=
  length (filter (fun x => lmax x < r) (tail ws)).

(** The window of the [p.2]-th element of sub-queue [p.1]. *)
Definition place_window (ws : list win) (s : eq_state) (p : Z * Z) : nat :=
  window_index ws (row s p.1 (Z.to_nat p.2)).

(** The state of the specification: width and depth of the windows; the elements,
    the oldest first, with the numbers of their windows. *)
Definition spec_windows (ws : list win) : list (Z * Z) := (fun x => (lwidth x, ldepth x)) <$> tail ws.
Definition elem (ws : list win) (s : eq_state) (x : Z * Z * Z) : nat * Z := (place_window ws s x.1, x.2).
Definition spec_elems (ws : list win) (s : eq_state) : list (nat * Z) := elem ws s <$> fifo (hist s).

Lemma spec_windows_snoc ws x : (0 < length ws)%nat ->
  spec_windows (ws ++ [x]) = spec_windows ws ++ [(lwidth x, ldepth x)].
Proof. unfold spec_windows. destruct ws; cbn; [lia|]. by rewrite fmap_app. Qed.

(** So many elements have been enqueued into window [x]; [filled_last] is about the
    last one. *)
Definition filled (x : win) (s : eq_state) : Z :=
  sum_upto (fun j => Z.max (put_row s j) (bottom x) - bottom x) (lwidth x).
Definition filled_last (ws : list win) (s : eq_state) : Z := from_option (fun x => filled x s) 0 (last ws).

Lemma spec_windows_length ws : length (spec_windows ws) = pred (length ws).
Proof. unfold spec_windows. rewrite length_fmap. by destruct ws. Qed.

Lemma spec_windows_last ws x T :
  length ws = S T -> (0 < T)%nat -> ws !! T = Some x -> last (spec_windows ws) = Some (lwidth x, ldepth x).
Proof.
  intros El HT Hx. rewrite last_lookup, spec_windows_length, El. unfold spec_windows.
  rewrite list_lookup_fmap, lookup_tail. cbn [pred]. rewrite Nat.succ_pred by lia. by rewrite Hx.
Qed.

Section order.
Context (mw : Z).
Notation law_ok := (law_ok mw).
Notation inv := (queues_inv mw).
Notation drained := (drained mw).
Notation settled := (settled mw).
Implicit Types (ws : list win) (s : eq_state).

Lemma window_index_eq ws n x r :
  windows_ok mw ws -> ws !! S n = Some x -> bottom x < r <= lmax x -> window_index ws r = n.
Proof.
  intros Ho Hx Hr. unfold window_index. destruct ws as [|x0 ws]; [done|]. cbn [tail].
  rewrite <- (take_drop n ws), filter_app, length_app.
  rewrite filter_all, filter_none.
  - cbn. rewrite length_take. apply lookup_lt_Some in Hx. cbn in *. lia.
  - intros y [j Hy]%list_elem_of_lookup. rewrite lookup_drop in Hy.
    pose proof (windows_max mw (x0 :: ws) (S n) (S (n + j)) x y Ho Hx Hy ltac:(lia)). lia.
  - intros y [j Hy]%list_elem_of_lookup. apply lookup_take_Some in Hy as [Hy Hj].
    pose proof (windows_bottom mw (x0 :: ws) (S j) (S n) y x Ho Hy Hx ltac:(lia)). lia.
Qed.

(** Between the operations of a thread alone: no operation is half done. *)
Record calm ws (T H : nat) s : Prop := mkCalm {
  cl_inv : inv s;
  cl_law : law_ok ws T H s;
  cl_last : length ws = S T;
  cl_settled : settled s;
  cl_drained : drained ws H s;
}.

Definition ordered ws s : Prop := fifo_ok (fun p => Z.of_nat (place_window ws s p)) mw (hist s).

Section facts.
Context ws T H s (HC : calm ws T H s).

Lemma settled_tail i : 0 <= i < mw -> tail_pos s i = length (enqs i (hist s)).
Proof.
  intros Hi. pose proof (cl_inv _ _ _ _ HC) as (_&_&_&_&_&_&_&Hall). destruct (Hall i Hi) as (dp & dg & Hsub).
  pose proof (sq_enqs _ _ _ _ _ _ (sa_subq _ _ _ _ Hsub)). pose proof (cl_settled _ _ _ _ HC i Hi). lia.
Qed.

Lemma place_ok i k v :
  0 <= i < mw -> (k, v) ∈ qcontents i (hist s) ->
  exists K, k = Z.of_nat (S K) /\ (head_pos s i <= K < tail_pos s i)%nat.
Proof.
  intros Hi [n Hn]%list_elem_of_lookup. rewrite settled_tail by done.
  pose proof (cl_inv _ _ _ _ HC) as (_&_&_&_&_&_&Hlg&Hall). destruct (Hall i Hi) as (dp & dg & Hsub).
  pose proof (sa_subq _ _ _ _ Hsub) as Hq.
  rewrite (qcontents_drop i _ Hlg), lookup_drop, (sq_deqs _ _ _ _ _ _ Hq) in Hn.
  pose proof (enqs_position i _ _ _ Hlg Hn) as Ek. cbn in Ek.
  apply lookup_lt_Some in Hn. exists (head_pos s i + n)%nat. lia.
Qed.

(** An element's window. *)
Lemma place_window_spec i K :
  0 <= i < mw -> (K < tail_pos s i)%nat ->
  let n := place_window ws s (i, Z.of_nat (S K)) in
  exists x, ws !! S n = Some x /\ i < lwidth x /\ bottom x < row s i (S K) <= lmax x.
Proof.
  intros Hi HK. unfold place_window. cbn [fst snd]. rewrite Nat2Z.id. pose proof (cl_law _ _ _ _ HC) as HL.
  destruct (row_window mw _ _ _ _ HL i K Hi HK) as (n & x & Hx & Hix & Hr).
  destruct n as [|n]; [destruct (wo_first _ _ (lw_windows _ _ _ _ _ HL) x Hx); unfold bottom in Hr; lia|].
  rewrite (window_index_eq ws n x) by (done || apply HL). by exists x.
Qed.

Lemma fifo_place i k v :
  ordered ws s -> (i, k, v) ∈ fifo (hist s) ->
  0 <= i < mw /\ exists K, k = Z.of_nat (S K) /\ (head_pos s i <= K < tail_pos s i)%nat.
Proof. intros [_ Hin] [Hi Hk]%Hin. split; [done|]. by eapply place_ok. Qed.

(** Later steps do not move an element to another window. *)
Lemma place_window_stable ws' T' H' s' i K :
  calm ws' T' H' s' -> evolves s s' -> ws `prefix_of` ws' ->
  0 <= i < mw -> (K < tail_pos s i)%nat ->
  place_window ws' s' (i, Z.of_nat (S K)) = place_window ws s (i, Z.of_nat (S K)).
Proof.
  intros HC' Hev Hpre Hi HK. destruct (place_window_spec i K Hi HK) as (x & Hx & _ & Hr).
  unfold place_window at 1. cbn [fst snd]. rewrite Nat2Z.id.
  rewrite (row_evolves mw s s' i (S K)); [|apply HC|done|done|lia].
  apply (window_index_eq _ _ x); [apply HC'|by eapply prefix_lookup_Some|done].
Qed.

Lemma elems_stable ws' T' H' s' (xs : list (Z * Z * Z)) :
  ordered ws s -> calm ws' T' H' s' -> evolves s s' -> ws `prefix_of` ws' ->
  (forall x, x ∈ xs -> x ∈ fifo (hist s)) ->
  (forall x, x ∈ xs -> place_window ws' s' x.1 = place_window ws s x.1) /\ elem ws' s' <$> xs = elem ws s <$> xs.
Proof.
  intros HO HC' Hev Hpre Hxs.
  assert (E : forall x, x ∈ xs -> place_window ws' s' x.1 = place_window ws s x.1).
  { intros [[i k] v] Hx. destruct (fifo_place i k v HO (Hxs _ Hx)) as (Hi & K & -> & HK).
    apply (place_window_stable ws' T' H'); try done. lia. }
  split; [done|]. apply list_fmap_ext. intros n x Hx. unfold elem. rewrite E; [done|].
  by eapply list_elem_of_lookup_2.
Qed.

(** Two elements of a window in the same row are in different sub-queues. *)
Lemma rows_strict i j k :
  0 <= i < mw -> (j <= tail_pos s i)%nat -> (k <= tail_pos s i)%nat -> row s i j = row s i k -> j = k.
Proof.
  intros Hi Hj Hk E. pose proof (cl_law _ _ _ _ HC) as HL.
  destruct (Nat.lt_trichotomy j k) as [Hlt|[|Hlt]]; [|done|].
  - pose proof (rows_mono mw _ _ _ _ HL i j k Hi ltac:(lia)). lia.
  - pose proof (rows_mono mw _ _ _ _ HL i k j Hi ltac:(lia)). lia.
Qed.

(** The elements up to the get window, the one after the [h]-th, are in it. *)
Lemma get_window_elem h x j K :
  drained ws h s -> ws !! S h = Some x -> 0 <= j < mw -> (head_pos s j <= K < tail_pos s j)%nat ->
  (place_window ws s (j, Z.of_nat (S K)) <= h)%nat \/ row s j (S K) <= lmax x ->
  place_window ws s (j, Z.of_nat (S K)) = h /\ j < lwidth x /\ bottom x < row s j (S K) <= lmax x.
Proof.
  intros [_ Hdr] Hx Hj HK Hle. destruct (place_window_spec j K Hj ltac:(lia)) as (y & Hy & Hjy & Hr).
  pose proof (lw_windows _ _ _ _ _ (cl_law _ _ _ _ HC)) as Ho.
  set (n := place_window ws s (j, Z.of_nat (S K))) in *.
  destruct (lookup_lt_is_Some_2 ws h) as [z Hz]; [apply lookup_lt_Some in Hx; lia|].
  specialize (Hdr j (S K) z Hj Hz ltac:(lia)).
  assert (n = h) as E.
  { destruct (Nat.lt_trichotomy n h) as [Hlt|[|Hgt]]; [|done|].
    - pose proof (windows_max mw _ _ _ _ _ Ho Hy Hz ltac:(lia)). lia.
    - destruct Hle as [|Hle]; [lia|].
      pose proof (windows_bottom mw _ _ _ _ _ Ho Hx Hy ltac:(lia)). lia. }
  rewrite E in Hy. assert (y = x) as -> by congruence. done.
Qed.

(** So few elements of a window are not in sub-queue [i]. *)
Lemma get_window_count h x i (xs : list (Z * Z)) :
  0 <= i < lwidth x -> 0 <= ldepth x -> NoDup xs ->
  (forall j k, (j, k) ∈ xs -> j <> i /\ 0 <= j < lwidth x /\ exists K, k = Z.of_nat (S K) /\
     (S K <= tail_pos s j)%nat /\ bottom x < row s j (S K) <= lmax x) ->
  lwidth x <= mw -> ws !! S h = Some x ->
  Z.of_nat (length xs) <= ldepth x * (lwidth x - 1).
Proof.
  intros Hi Hd Hnd Hxs Hw Hx.
  set (f (p : Z * Z) := (p.1, row s p.1 (Z.to_nat p.2))).
  rewrite <- (length_fmap f). apply (places_bound _ _ (bottom x) i); [done|done| |].
  - apply NoDup_fmap_2_strong; [|done]. intros [j k] [j' k'] H1 H2 [= <- E].
    destruct (Hxs j k H1) as (_ & Hj & K & -> & HK & _). destruct (Hxs j k' H2) as (_ & _ & K' & -> & HK' & _).
    rewrite !Nat2Z.id in E. by rewrite (rows_strict j (S K) (S K') ltac:(lia) HK HK' E).
  - intros j r ([j' k] & [= -> ->] & Hin)%list_elem_of_fmap. cbn [fst snd].
    destruct (Hxs j' k Hin) as (Hne & Hj & K & -> & _ & Hr). rewrite Nat2Z.id. unfold bottom in *. lia.
Qed.

(** The elements [xs] older than all but those of window [h], and not in
    sub-queue [i] of it. *)
Lemma get_window_before h x i (xs : list (Z * Z * Z)) :
  ordered ws s -> drained ws h s -> ws !! S h = Some x -> 0 <= i < lwidth x ->
  NoDup xs.*1 -> (forall y, y ∈ xs -> y ∈ fifo (hist s) /\ (place_window ws s y.1 <= h)%nat /\ y.1.1 <> i) ->
  Forall (fun y => y.1 = h) (elem ws s <$> xs) /\ Z.of_nat (length xs) <= ldepth x * (lwidth x - 1).
Proof.
  intros HO Hdr Hx Hi Hnd Hxs. pose proof (lw_windows _ _ _ _ _ (cl_law _ _ _ _ HC)) as Hwo.
  pose proof (wo_width _ _ Hwo _ x Hx) as Hwx.
  assert (Hin : forall y, y ∈ xs -> place_window ws s y.1 = h /\ y.1.1 <> i /\ 0 <= y.1.1 < lwidth x /\
    exists K, y.1.2 = Z.of_nat (S K) /\ (S K <= tail_pos s y.1.1)%nat /\
      bottom x < row s y.1.1 (S K) <= lmax x).
  { intros [[j k'] u] Hy. cbn [fst snd]. destruct (Hxs _ Hy) as (Hy1 & Hle & Hne). cbn [fst snd] in Hle, Hne.
    destruct (fifo_place j k' u HO Hy1) as (Hj & K & -> & HK).
    destruct (get_window_elem h x j K Hdr Hx Hj HK) as (Ej & Hjw & Hrj); [left; lia|].
    split; [done|split; [done|split; [lia|]]]. exists K. split; [done|split; [lia|done]]. }
  split.
  - apply Forall_fmap, Forall_forall. intros y Hy. by destruct (Hin y Hy).
  - rewrite <- (length_fmap fst xs). apply (get_window_count h x i); [done| |done| |lia|done].
    + destruct (lookup_lt_is_Some_2 ws h) as [z Hz]; [apply lookup_lt_Some in Hx; lia|].
      pose proof (wo_next _ _ Hwo h z x Hz Hx). lia.
    + intros j k' ([[j' k''] u] & [= -> ->] & Hy)%list_elem_of_fmap. by destruct (Hin _ Hy) as [_ ?].
Qed.

(** *** The operations *)

Lemma ordered_enqueue ws' T' H' s' t i k v x :
  ordered ws s -> calm ws' T' H' s' -> evolves s s' -> ws `prefix_of` ws' -> 0 <= i < mw ->
  hist s' = (t, Enq i k v) :: hist s -> k = Z.of_nat (tail_pos s' i) ->
  ws' !! T' = Some x -> bottom x < put_row s' i ->
  ordered ws' s' /\ spec_elems ws' s' = spec_elems ws s ++ [(pred T', v)].
Proof.
  intros HO HC' Hev Hpre Hi Eh -> Hx Hr. pose proof (cl_law _ _ _ _ HC') as HL'.
  destruct (elems_stable ws' T' H' s' (fifo (hist s)) HO HC' Hev Hpre) as [Est Eel]; [done|].
  pose proof (lw_top _ _ _ _ _ HL' i x Hi Hx) as Htop.
  assert (Hpos : (0 < tail_pos s' i)%nat).
  { destruct (tail_pos s' i) as [|p] eqn:E; [|lia]. exfalso. unfold put_row in Hr. rewrite E in Hr.
    rewrite (lw_start _ _ _ _ _ HL' i Hi) in Hr.
    destruct (windows_bound mw _ _ _ (lw_windows _ _ _ _ _ HL') Hx). lia. }
  assert (Ewin : place_window ws' s' (i, Z.of_nat (tail_pos s' i)) = pred T').
  { unfold place_window. cbn [fst snd]. rewrite Nat2Z.id. pose proof (lw_head _ _ _ _ _ HL').
    apply (window_index_eq _ _ x); [apply HL'|by rewrite Nat.succ_pred by lia|done]. }
  split.
  - unfold ordered. rewrite Eh. apply fifo_ok_snoc; [|done|].
    + apply (fifo_ok_ext (fun p => Z.of_nat (place_window ws s p))); [exact HO|]. intros y Hy. by rewrite Est.
    + intros [[j k'] v'] Hy. destruct (fifo_place j k' v' HO Hy) as (Hj & K & -> & HK). split.
      * rewrite Est by done. cbn [fst]. rewrite Ewin.
        destruct (place_window_spec j K Hj ltac:(lia)) as (z & Hz & _).
        apply lookup_lt_Some in Hz. apply prefix_length in Hpre. pose proof (cl_last _ _ _ _ HC'). lia.
      * cbn. intros ->. pose proof (ev_tail _ _ Hev i) as Hle.
        assert (tail_pos s' i = S (tail_pos s i)); [|lia]. destruct HC'. clear Hle.
        assert (Ht' : tail_pos s' i = length (enqs i (hist s'))).
        { destruct cl_inv0 as (_&_&_&_&_&_&_&Hall). destruct (Hall i Hi) as (dp & dg & Hsub).
          pose proof (sq_enqs _ _ _ _ _ _ (sa_subq _ _ _ _ Hsub)). pose proof (cl_settled0 i Hi). lia. }
        rewrite Ht', Eh. cbn. rewrite decide_True by done. rewrite length_app, <- settled_tail by done. cbn. lia.
  - unfold spec_elems. rewrite Eh. cbn [fifo]. rewrite fmap_app, Eel. do 2 f_equal.
    unfold elem. cbn [fst snd fmap list_fmap]. by rewrite Ewin.
Qed.

Lemma ordered_dequeue H' s' t i v x :
  ordered ws s -> calm ws T H' s' -> evolves s s' -> drained ws H' s -> 0 <= i < mw ->
  hist s' = (t, Deq i (Z.of_nat (S (head_pos s i))) v) :: hist s -> (head_pos s i < tail_pos s i)%nat ->
  ws !! S H' = Some x -> row s i (S (head_pos s i)) <= lmax x ->
  ordered ws s' /\
  exists pre n post wn dn, spec_elems ws s = pre ++ (n, v) :: post /\ spec_elems ws s' = pre ++ post /\
    Forall (fun x => x.1 = n) pre /\ spec_windows ws !! n = Some (wn, dn) /\
    Z.of_nat (length pre) <= dn * (wn - 1).
Proof.
  intros HO HC' Hev Hdr Hi Eh Hlt Hx Hrow. set (k := head_pos s i) in *.
  assert (Hhead : head (qcontents i (hist s)) = Some (Z.of_nat (S k), v)).
  { destruct (cl_inv _ _ _ _ HC') as (_&_&_&_&_&_&Hlg&_). rewrite Eh in Hlg. apply Hlg. }
  assert (Hlg : qlegal (hist s)) by apply HC.
  destruct (fifo_ok_remove _ mw _ t i _ v Hlg HO Hi Hhead) as (pre & post & E1 & E2 & Hold & Hnd & Hff').
  destruct (elems_stable ws T H' s' (pre ++ post) HO HC' Hev (reflexivity _)) as [Est Eel].
  { intros y Hy. rewrite E1. set_solver. }
  destruct (get_window_elem H' x i k Hdr Hx Hi ltac:(lia)) as (En & Hix & _); [by right|].
  destruct (get_window_before H' x i pre HO Hdr Hx) as [Hall Hcount]; [lia|done| |].
  { intros [[j k'] u] Hy. destruct (Hold _ Hy) as [Hle Hsame]. cbn [fst snd] in Hle, Hsame |- *.
    assert (Hin : (j, k', u) ∈ fifo (hist s)) by (rewrite E1; set_solver).
    split; [done|split; [lia|]]. intros ->. specialize (Hsame eq_refl).
    destruct (fifo_place i k' u HO Hin) as (_ & K & -> & HK). unfold k in *. lia. }
  split.
  - unfold ordered. rewrite Eh. apply (fifo_ok_ext (fun p => Z.of_nat (place_window ws s p))); [exact Hff'|].
    intros y Hy. rewrite E2 in Hy. by rewrite Est.
  - exists (elem ws s <$> pre), H', (elem ws s <$> post), (lwidth x), (ldepth x).
    unfold spec_elems at 1 2. rewrite Eh, E1, E2, Eel, !fmap_app. cbn [fmap list_fmap].
    assert (Ei : elem ws s (i, Z.of_nat (S k), v) = (H', v)) by (unfold elem; cbn [fst snd]; by rewrite En).
    rewrite Ei. split; [done|split; [done|split; [done|split]]].
    + unfold spec_windows. by rewrite list_lookup_fmap, lookup_tail, Hx.
    + by rewrite length_fmap.
Qed.

(** Nothing is left. *)
Lemma ordered_nothing :
  ordered ws s -> (forall j, 0 <= j < mw -> tail_pos s j = head_pos s j) -> spec_elems ws s = [].
Proof.
  intros HO Hall. unfold spec_elems. destruct (fifo (hist s)) as [|[[j k] v] xs] eqn:E; [done|]. exfalso.
  destruct (fifo_place j k v HO) as (Hj & K & -> & HK); [rewrite E; set_solver|].
  specialize (Hall j Hj). lia.
Qed.

(** The get window is the last one and its sub-queue [i] is empty. *)
Lemma ordered_few h x i :
  ordered ws s -> drained ws h s -> S h = T -> ws !! T = Some x -> 0 <= i < lwidth x -> tail_pos s i = head_pos s i ->
  Forall (fun y => y.1 = h) (spec_elems ws s) /\
  Z.of_nat (length (spec_elems ws s)) <= ldepth x * (lwidth x - 1).
Proof.
  intros HO Hdr HT Hx Hi Hemp. unfold spec_elems at 2. rewrite length_fmap.
  apply (get_window_before h x i); [done|done|by rewrite HT|done|by eapply sorted_nodup; apply HO|].
  intros [[j k] v] Hy. split; [done|]. cbn [fst snd].
  destruct (fifo_place j k v HO Hy) as (Hj & K & -> & HK). split; [|intros ->; lia].
  destruct (place_window_spec j K Hj ltac:(lia)) as (z & Hz & _). apply lookup_lt_Some in Hz.
  pose proof (cl_last _ _ _ _ HC). lia.
Qed.
End facts.

(** *** The windows are filled one after the other *)

Lemma tail_pos_enqueued ws T H s T' H' ws' s' t i k v j :
  calm ws T H s -> calm ws' T' H' s' -> hist s' = (t, Enq i k v) :: hist s -> 0 <= j < mw ->
  tail_pos s' j = if decide (j = i) then S (tail_pos s j) else tail_pos s j.
Proof.
  intros HC HC' Eh Hj. rewrite (settled_tail ws' T' H' s' HC' j Hj), (settled_tail ws T H s HC j Hj), Eh. cbn.
  destruct (decide (j = i)) as [->|].
  - rewrite decide_True by done. rewrite length_app. cbn. lia.
  - by rewrite decide_False by done.
Qed.

(** The row of the new element follows the one of the last before it. *)
Lemma put_row_enqueued ws T H s ws' T' H' s' t i k v x :
  calm ws T H s -> calm ws' T' H' s' -> evolves s s' -> 0 <= i < mw ->
  hist s' = (t, Enq i k v) :: hist s -> ws' !! T' = Some x -> bottom x < put_row s' i ->
  (forall j, 0 <= j < mw -> j <> i -> put_row s' j = put_row s j) /\
  i < lwidth x /\ put_row s i < lmax x /\ put_row s' i = Z.max (put_row s i) (bottom x) + 1 /\
  forall m y, (m < T')%nat -> ws' !! m = Some y -> i < lwidth y -> lmax y <= put_row s i.
Proof.
  intros HC HC' Hev Hi Eh Hx Hr.
  pose proof (fun j => tail_pos_enqueued _ _ _ _ _ _ _ _ t i k v j HC HC' Eh) as Htl.
  pose proof (cl_inv _ _ _ _ HC) as HI. pose proof (cl_law _ _ _ _ HC') as HL'.
  pose proof (lw_windows _ _ _ _ _ HL') as Ho.
  assert (Erow : forall j, 0 <= j < mw -> row s' j (tail_pos s j) = put_row s j)
    by (intros j Hj; by apply (row_evolves mw)).
  split.
  { intros j Hj Hne. unfold put_row at 1. by rewrite Htl, decide_False, Erow. }
  pose proof (Htl i Hi) as Ht. rewrite decide_True in Ht by done.
  destruct (lw_rows _ _ _ _ _ HL' i (tail_pos s i) Hi ltac:(lia)) as (n & y & Hy & Hiy & Hlt & E & Hm).
  rewrite Erow in Hlt, E, Hm by done. unfold put_row in Hr at 1. unfold put_row at 2. rewrite Ht in *.
  assert (n = T') as ->.
  { destruct (Nat.lt_trichotomy n T') as [Hn|[|Hn]]; [|done|].
    - pose proof (windows_bottom mw _ _ _ _ _ Ho Hy Hx Hn).
      assert (bottom y < lmax y).
      { destruct n as [|n]; [destruct (wo_first _ _ Ho y Hy);
          pose proof (put_row_range mw _ _ _ _ (cl_law _ _ _ _ HC) i Hi); lia|].
        destruct (lookup_lt_is_Some_2 ws' n) as [z Hz]; [apply lookup_lt_Some in Hy; lia|].
        destruct (wo_next _ _ Ho n z y Hz Hy). unfold bottom. lia. }
      lia.
    - pose proof (cl_last _ _ _ _ HC'). apply lookup_lt_Some in Hy. lia. }
  assert (y = x) as -> by congruence. done.
Qed.

Lemma last_window_depth ws T H s x : calm ws T H s -> ws !! T = Some x -> 1 <= ldepth x.
Proof.
  intros HC Hx. pose proof (cl_law _ _ _ _ HC) as HL. destruct T as [|T]; [pose proof (lw_head _ _ _ _ _ HL); lia|].
  destruct (lookup_lt_is_Some_2 ws T) as [z Hz]; [apply lookup_lt_Some in Hx; lia|].
  destruct (wo_next _ _ (lw_windows _ _ _ _ _ HL) T z x Hz Hx). lia.
Qed.

Lemma enqueue_fills ws T H s ws' T' H' s' t i k v x :
  calm ws T H s -> calm ws' T' H' s' -> evolves s s' -> 0 <= i < mw ->
  hist s' = (t, Enq i k v) :: hist s -> ws' !! T' = Some x -> bottom x < put_row s' i ->
  (ws' = ws -> filled_last ws s < lwidth x * ldepth x /\ filled_last ws' s' = filled_last ws s + 1) /\
  (forall y, ws' = ws ++ [x] -> ws !! T = Some y ->
     filled_last ws s = lwidth y * ldepth y /\ filled_last ws' s' = 1).
Proof.
  intros HC HC' Hev Hi Eh Hx Hr.
  destruct (put_row_enqueued _ _ _ _ _ _ _ _ t i k v x HC HC' Hev Hi Eh Hx Hr) as (Hother & Hix & Hlt & Erow & Hm).
  pose proof (cl_last _ _ _ _ HC) as Hl. pose proof (cl_last _ _ _ _ HC') as Hl'.
  pose proof (cl_law _ _ _ _ HC) as HL. pose proof (cl_law _ _ _ _ HC') as HL'.
  pose proof (lw_windows _ _ _ _ _ HL') as Ho. pose proof (wo_width _ _ Ho _ x Hx) as Hw.
  pose proof (last_window_depth _ _ _ _ _ HC' Hx) as Hdx.
  assert (El : forall us y n, length us = S n -> us !! n = Some y -> filled_last us = filled y).
  { intros us y n E Hy. unfold filled_last. rewrite last_lookup, E. cbn [pred]. by rewrite Hy. }
  assert (Hbump : filled x s' = filled x s + 1).
  { apply (sum_upto_bump _ _ i); [lia|]. intros j Hj. destruct (Z.eqb_spec j i) as [->|Hne].
    - rewrite Erow. lia.
    - rewrite Hother by lia. lia. }
  rewrite (El ws' x T' Hl' Hx). split.
  - intros ->. assert (T = T') as -> by congruence. rewrite (El _ _ _ Hl' Hx). split; [|done].
    assert (Hle : filled x s <= sum_upto (fun j => if j =? i then ldepth x - 1 else ldepth x) (lwidth x)).
    { apply sum_upto_le. intros j Hj. pose proof (lw_top _ _ _ _ _ HL j x ltac:(lia) Hx).
      unfold bottom. destruct (Z.eqb_spec j i) as [->|]; lia. }
    enough (sum_upto (fun j => if j =? i then ldepth x - 1 else ldepth x) (lwidth x) = lwidth x * ldepth x + -1) by lia.
    rewrite <- (sum_upto_const (ldepth x) (lwidth x)) by lia. apply (sum_upto_bump _ _ i); [lia|].
    intros j Hj. destruct (j =? i); lia.
  - intros y -> Hy. rewrite (El _ _ _ Hl Hy). rewrite length_app in Hl'. cbn [length] in Hl'.
    assert (T' = S T) as -> by lia. assert (Hy' : (ws ++ [x]) !! T = Some y) by (by apply lookup_app_l_Some).
    destruct (wo_next _ _ Ho T y x Hy' Hx) as [_ Hb]. pose proof (wo_width _ _ Ho T y Hy') as Hwy.
    assert (Hfull : forall j, 0 <= j < lwidth y -> put_row s j = lmax y).
    { intros j Hj. pose proof (lw_top _ _ _ _ _ HL j y ltac:(lia) Hy).
      enough (lmax y <= put_row s j) by lia. destruct (decide (j = i)) as [->|Hne].
      - apply (Hm T y); [lia|done|lia].
      - rewrite <- (Hother j) by lia. apply (lw_full _ _ _ _ _ HL' T y); [done|rewrite length_app; cbn; lia|lia]. }
    split.
    + unfold filled. rewrite (sum_upto_ext _ (fun _ => ldepth y)), sum_upto_const; [done|lia|].
      intros j Hj. rewrite Hfull by done. unfold bottom.
      pose proof (last_window_depth _ _ _ _ _ HC Hy). lia.
    + rewrite Hbump. enough (filled x s = 0) by lia. unfold filled.
      rewrite (sum_upto_ext _ (fun _ => 0)), sum_upto_const; [lia|lia|].
      intros j Hj. pose proof (lw_top _ _ _ _ _ HL j y ltac:(lia) Hy). cbv beta. lia.
Qed.

(** A dequeue does not change that. *)
Lemma dequeue_fills ws T H s H' s' t i k v :
  calm ws T H s -> calm ws T H' s' -> evolves s s' -> hist s' = (t, Deq i k v) :: hist s ->
  filled_last ws s' = filled_last ws s.
Proof.
  intros HC HC' Hev Eh. unfold filled_last. destruct (last ws) as [x|] eqn:E; [|done]. cbn.
  rewrite last_lookup in E. pose proof (wo_width _ _ (lw_windows _ _ _ _ _ (cl_law _ _ _ _ HC)) _ x E).
  apply sum_upto_ext. intros j Hj. do 2 f_equal. unfold put_row.
  assert (tail_pos s' j = tail_pos s j) as ->.
  { rewrite (settled_tail ws T H' s' HC' j), (settled_tail ws T H s HC j) by lia. by rewrite Eh. }
  apply (row_evolves mw); [apply HC|lia|done|lia].
Qed.

Lemma filled_same ws s s' : (forall j, put_row s' j = put_row s j) -> filled_last ws s' = filled_last ws s.
Proof.
  intros E. unfold filled_last. destruct (last ws); [|done]. apply sum_upto_ext. intros j _. by rewrite E.
Qed.

Lemma filled_start ws T H s x :
  calm ws T H s -> hist s = [] -> ws !! T = Some x -> 0 <= bottom x -> filled_last ws s = 0.
Proof.
  intros HC Eh Hx Hb. pose proof (cl_law _ _ _ _ HC) as HL. unfold filled_last.
  rewrite last_lookup, (cl_last _ _ _ _ HC). cbn [pred]. rewrite Hx. cbn.
  pose proof (wo_width _ _ (lw_windows _ _ _ _ _ HL) _ x Hx). unfold filled.
  rewrite (sum_upto_ext _ (fun _ => 0)), sum_upto_const; [lia|lia|].
  intros j Hj. unfold put_row. rewrite (settled_tail ws T H s HC), Eh by lia. cbn.
  rewrite (lw_start _ _ _ _ _ HL) by lia. lia.
Qed.

Lemma ordered_same ws s s' :
  ordered ws s -> fifo (hist s') = fifo (hist s) -> (forall i, qcontents i (hist s') = qcontents i (hist s)) ->
  (forall i k, row s' i k = row s i k) -> ordered ws s'.
Proof.
  intros HO E1 E2 E3.
  destruct (fifo_ok_ext _ (fun p => Z.of_nat (place_window ws s' p)) mw _ HO) as [Hs Hin].
  { intros x _. unfold place_window. by rewrite E3. }
  unfold ordered, fifo_ok. rewrite E1. split; [done|]. intros i k v. rewrite E2. apply Hin.
Qed.

Lemma ordered_created ws s : hist s = [] -> ordered ws s.
Proof. unfold ordered. intros ->. apply fifo_ok_nil. Qed.

(** *** Whole operations of a thread alone *)

(** The new node's row is above all windows before the last. *)
Lemma calm_enqueued ws T H s t i a b nb d new x :
  calm ws T H s -> put_array s !! Z.to_nat i = Some d -> ws !! T = Some x -> 0 <= i < lwidth x -> dcount d < lmax x ->
  dcount new = Z.max (dcount d) (bottom x) + 1 ->
  let s1 := linked t i a b nb s in let s' := with_put i new s1 in
  inv s1 -> inv s' ->
  calm ws T H s' /\ tail_pos s' i = S (tail_pos s i) /\ bottom x < put_row s' i.
Proof.
  intros [HI HL Hlast Hse Hdr] Hd Hx Hix Hlt Enew s1 s' HI1 HI'.
  pose proof (lw_windows _ _ _ _ _ HL) as Ho. pose proof (wo_width _ _ Ho T x Hx) as Hw. assert (Hi : 0 <= i < mw) by lia.
  pose proof (put_row_eq mw s i d HI Hi Hd) as Er.
  assert (HL1 : law_ok ws T H s1) by (apply (law_linked mw _ _ _ _ _ _ _ _ _ T x); try done; [by apply Hse|lia]).
  assert (Hlinks : forall j, 0 <= j < mw -> length (links_of s1 j) = (tail_pos s j + if decide (i = j) then 2 else 1)%nat).
  { intros j Hj. unfold s1. rewrite (links_of_linked mw) by done. specialize (Hse j Hj). destruct (decide (i = j)) as [<-|].
    - rewrite decide_True by done. rewrite length_app. cbn. lia.
    - rewrite decide_False by lia. lia. }
  assert (Htl : forall j, 0 <= j < mw -> tail_pos s' j = if decide (i = j) then S (tail_pos s i) else tail_pos s j).
  { intros j Hj. unfold s'. rewrite (tail_pos_with_put mw) by done. change (tail_pos s1) with (tail_pos s).
    destruct (decide (i = j)) as [<-|]; [by rewrite decide_True|by rewrite decide_False by lia]. }
  split; [split; [done| |done| |]|].
  - apply (law_put mw _ _ _ _ i d new T x); try done. rewrite (Hlinks i Hi), decide_True by done.
    change (tail_pos s1 i) with (tail_pos s i). lia.
  - intros j Hj. change (links_of s' j) with (links_of s1 j). rewrite Hlinks, Htl by done.
    destruct (decide (i = j)) as [<-|]; lia.
  - apply drained_put; [exact Hdr|done|done|]. intros y Hy. pose proof (lw_head _ _ _ _ _ HL).
    pose proof (windows_bottom mw _ _ _ _ _ Ho Hy Hx ltac:(lia)). lia.
  - split; [rewrite Htl, decide_True by done; done|]. unfold put_row. rewrite Htl, decide_True by done.
    unfold s'. change (tail_pos s i) with (tail_pos s1 i). rewrite (row_with_put mw) by (done || lia).
    rewrite decide_True by done. lia.
Qed.

Lemma calm_dequeued ws T H s t i d new v x :
  calm ws T H s -> get_array s !! Z.to_nat i = Some d -> ws !! S H = Some x -> 0 <= i < lwidth x -> dcount d < lmax x ->
  (head_pos s i < tail_pos s i)%nat -> dcount new = Z.max (dcount d + 1) (bottom x + 1) ->
  let s' := taken t i (head_pos s i) new v s in
  inv s' -> calm ws T H s' /\ row s i (S (head_pos s i)) <= lmax x.
Proof.
  intros [HI HL Hlast Hse Hdr] Hd Hx Hix Hlt Hht Enew s' HI'.
  pose proof (wo_width _ _ (lw_windows _ _ _ _ _ HL) _ x Hx) as Hw. assert (Hi : 0 <= i < mw) by lia.
  pose proof (get_row_eq s i d Hd) as Er. pose proof (proj1 Hdr i Hi) as Eg. rewrite Er in Eg.
  destruct (drained_next_row mw ws T H s HL x i Hdr Hx Hix Hht) as [Hrow Hle]; [by rewrite <- Eg|].
  split; [split; [done| |done|exact Hse|]|done].
  - apply (law_taken mw _ _ _ _ _ _ d _ _ (S H) x); try done. by left.
  - apply drained_taken; [done|done|done|done|]. lia.
Qed.

(** *** Creation: a window without rows, and the first one. *)
Lemma calm_created {A : Allocator (qnode_of unit)} junk w d :
  1 <= w <= mw -> 1 <= d < 2 ^ 16 ->
  calm [mkWin 0 w 0; mkWin d w d] 1 0 (created junk (fun a => mkDesc a 0) (fun a => mkDesc a 0) (Z.to_nat mw)).
Proof.
  intros Hw Hd. set (s := created _ _ _ _). set (ws := [_; _]).
  assert (Hat : forall i, 0 <= i < mw -> hist s = [] /\ (forall k, row s i k = 0) /\
    get_row s i = 0 /\ tail_pos s i = 0%nat /\ length (links_of s i) = 1%nat).
  { intros i Hi. destruct (created_at junk (fun a => mkDesc a 0) (fun a => mkDesc a 0) (Z.to_nat mw) i)
      as (Eh & a & Ep & Eg & Et & El); [lia|]. fold s in Eh, Ep, Eg, Et, El.
    unfold row, get_row. rewrite Ep, Eg, Et, El. split; [done|split; [|done]]. by intros [|k]. }
  assert (Hx : forall k x, ws !! k = Some x -> (k = 0%nat /\ x = mkWin 0 w 0) \/ (k = 1%nat /\ x = mkWin d w d)).
  { intros [|[|k]] x Hx; cbn in Hx; [left|right|done]; by injection Hx as <-. }
  split; [|split|done| |].
  - apply (created_inv junk); [lia|by intros a|done].
  - split.
    + intros x [[_ ->]|[? _]]%Hx; done.
    + intros k x [[_ ->]|[_ ->]]%Hx; done.
    + intros k x y [[-> ->]|[-> ->]]%Hx [[? ->]|[? ->]]%Hx; try lia. unfold bottom. cbn. lia.
  - cbn. lia.
  - lia.
  - intros k x i Hk Hlt Hi. destruct (Hx k x Hk) as [[-> ->]|[-> ->]]; [|cbn in Hlt; lia]. cbn in Hi |- *.
    unfold put_row. destruct (Hat i) as (_ & -> & _); lia.
  - intros i x Hi [[? _]|[_ ->]]%Hx; [done|]. unfold put_row. destruct (Hat i Hi) as (_ & -> & _). cbn. lia.
  - intros i Hi Hlen. destruct (Hat i Hi) as (_ & _ & _ & E1 & E2). lia.
  - intros i Hi. by destruct (Hat i Hi) as (_ & -> & _).
  - intros i k Hi Hk. destruct (Hat i Hi) as (_ & _ & _ & E1 & _). lia.
  - intros i Hi. destruct (Hat i Hi) as (_ & E1 & E2 & _). rewrite E1, E2. cbn. lia.
  - intros i Hi. destruct (Hat i Hi) as (_ & _ & _ & E1 & E2). by rewrite E1, E2.
  - split.
    + intros i Hi. destruct (Hat i Hi) as (_ & E1 & -> & _). by rewrite E1.
    + intros i k x Hi _ Hk. destruct (Hat i Hi) as (_ & _ & _ & E1 & _). lia.
Qed.
End order.
