(* ===== verification/ElasticLaw.v ===== *)
(** src/2Dd-queue_elastic-law: the elastic 2Dd queue with the lateral queue as
    window (2Dd-queue_elastic.c, 2Dd-window_elastic.c, lateral_queue.c).  The
    put window is the tail of the lateral queue, the get window the node after
    its head; a window has its own width and depth, which [update_width] and
    [update_depth] change for the windows to come. *)
From S2P Require Import Prelude Conc Random Thread Params StackHeap QueueHeap Shared SubQueues Lateral Rows.

(** ** State *)

(** [lateral_node_t] without [next] is [Rows.win]; [descriptor_t] is in Rows. *)
Notation lateral_node_t := win.

(** The fields of [mqueue_t] that do not change, without the arrays. *)
Record mqueue_t := mkQueue { random_hops : Z; max_width : Z; relaxation_bound : Z; k_mode : Z }.

(** The fields that do; [put_depth] is the same memory as [depth]. *)
Record dims := mkDims { depth : Z; get_depth : Z; width : Z }.

(** The thread-local variables of the windows. *)
Record windows := mkWindows {
  thread_put_window : Z;
  thread_get_window : Z;
  thread_lhead_pointer : Z;
  thread_ltail_pointer : Z;
  thread_put_index : Z;
  thread_get_index : Z;
}.

Notation equeues := (queues descriptor_t unit).
Notation estate := (shared (elastic lateral_node_t dims) equeues).
Notation ME := (prog estate (tls windows)).

Definition set_put_window (p : Z) (w : windows) : windows :=
  mkWindows p (thread_get_window w) (thread_lhead_pointer w) p (thread_put_index w) (thread_get_index w).
Definition set_get_window (h p : Z) (w : windows) : windows :=
  mkWindows (thread_put_window w) p h (thread_ltail_pointer w) (thread_put_index w) (thread_get_index w).
Definition set_put_index (i : Z) (w : windows) : windows :=
  mkWindows (thread_put_window w) (thread_get_window w) (thread_lhead_pointer w) (thread_ltail_pointer w)
    i (thread_get_index w).
Definition set_get_index (i : Z) (w : windows) : windows :=
  mkWindows (thread_put_window w) (thread_get_window w) (thread_lhead_pointer w) (thread_ltail_pointer w)
    (thread_put_index w) i.
Definition upd (f : windows -> windows) (l : tls windows) : tls windows :=
  set_thread_Window (f (thread_Window l)) l.

(** ** Operations *)

Section code.
Context {A : Allocator (qnode_of unit)} {LA : Allocator (lnode lateral_node_t)}.

Definition my (f : windows -> Z) : ME Z := get (fun l => f (thread_Window l)).
Definition load_depth : ME Z := load_var (fun g => depth (rest (window g))).
Definition load_width : ME Z := load_var (fun g => width (rest (window g))).

(** *** lateral_queue.c *)

Definition create_lateral_node (max width depth : Z) : ME Z := alloc_lnode (mkWin max width depth).

Definition shift_put (tail_pointer max depth width : Z) : ME unit :=
  let* t := load_ltail in
  if t =? tail_pointer then
    let* next := load_lnext tail_pointer in
    (if next =? 0 then
       let* next := create_lateral_node max width depth in
       let* _ := cas_lnext tail_pointer next in
       Ret tt
     else Ret tt) ;;;
    let* next := load_lnext tail_pointer in
    let* _ := cae_ltail tail_pointer next in
    Ret tt
  else Ret tt.

Definition shift_get (head_pointer : Z) : ME unit :=
  let* next := load_lnext head_pointer in
  assert_ (negb (next =? 0)) ;;;
  let* next := load_lnext head_pointer in
  let* _ := cae_lhead head_pointer next in
  Ret tt.

Definition create_lateral_queue (depth width : Z) : lateral lateral_node_t :=
  let head := alloc_addr ∅ in
  let nodes := <[head := mkLnode 0 (mkWin 0 width 0)]> ∅ in
  let tail := alloc_addr nodes in
  mkLateral (<[head := mkLnode tail (mkWin 0 width 0)]> (<[tail := mkLnode 0 (mkWin depth width depth)]> nodes))
    tail head ∅ [head; tail] [mkWin 0 width 0; mkWin depth width depth].

(** *** 2Dd-window_elastic.c *)

Definition random_index (w : Z) : ME Z := Shared.random_index 16 w.

(** Returns the new index, [random] and [hops]. *)
Definition hop (set : mqueue_t) (index random hops w : Z) : ME (Z * Z * Z) :=
  put (count_stat inc_hop) ;;;
  if random <? random_hops set then
    let* index := random_index w in
    Ret (index, u16 (random + 1), hops)
  else
    let hops := u16 (hops + 1) in
    let index := u16 (index + 1) in
    Ret (if w <=? index then 0 else index, random, hops).

(** [if (index >= window->width) index = 0], for either index. *)
Definition clip_index (index : windows -> Z) (set_index : Z -> windows -> windows) (win : Z) : ME unit :=
  let* w := load_info lwidth win in
  let* i := my index in
  if w <=? i then put (upd (set_index 0)) else Ret tt.

(** [if (other && get->width == put->width) other_index = index], for either. *)
Definition sync_index (other : windows -> Z) (index : windows -> Z) (set_other : Z -> windows -> windows) : ME unit :=
  let* ow := my other in
  if negb (ow =? 0) then
    let* gw := my thread_get_window in
    let* w := load_info lwidth gw in
    let* pw := my thread_put_window in
    let* w' := load_info lwidth pw in
    if w =? w' then
      let* i := my index in put (upd (set_other i))
    else Ret tt
  else Ret tt.

(** The copy of a descriptor is not atomic. *)
Definition read_put (i : Z) : ME descriptor_t :=
  let* n := load_put dnode i in
  let* c := load_put dcount i in
  Ret (mkDesc n c).
Definition read_get (i : Z) : ME descriptor_t :=
  let* n := load_get dnode i in
  let* c := load_get dcount i in
  Ret (mkDesc n c).

(** [thread_put_window = thread_ltail_pointer = lateral->tail]. *)
Definition sync_tail : ME unit :=
  let* t := load_ltail in put (upd (set_put_window t)).

Definition put_window_body (set : mqueue_t) '((hops, random) : Z * Z) : ME (Z * Z + descriptor_t) :=
  let* index := my thread_put_index in
  let* descriptor := read_put index in
  let* lat_tail := load_ltail in
  let* ptr := my thread_ltail_pointer in
  if negb (lat_tail =? ptr) then
    put (upd (set_put_window lat_tail)) ;;;
    clip_index thread_put_index set_put_index lat_tail ;;;
    continue (0, random)
  else
    let* pw := my thread_put_window in
    let* max := load_info lmax pw in
    if dcount descriptor <? max then
      let* w := load_info lwidth pw in
      assert_ (index <? w) ;;;
      sync_index thread_get_window thread_put_index set_get_index ;;;
      break descriptor
    else
      let* w := load_info lwidth pw in
      if hops <? w then
        let* (index, random, hops) := hop set index random hops w in
        put (upd (set_put_index index)) ;;;
        continue (hops, random)
      else
        (let* t := load_ltail in
         if ptr =? t then
           let* d := load_depth in
           let* max := load_info lmax pw in
           let* w := load_width in
           shift_put ptr (u64 (max + d)) d w
         else Ret tt) ;;;
        sync_tail ;;;
        let* pw := my thread_put_window in
        clip_index thread_put_index set_put_index pw ;;;
        continue (0, random).

Definition put_window (set : mqueue_t) (contention : bool) : ME descriptor_t :=
  sync_tail ;;;
  let* pw := my thread_put_window in
  (let* redraw := (if contention then Ret true
     else let* i := my thread_put_index in
          let* w := load_info lwidth pw in Ret (w <=? i)) in
   if (redraw : bool) then
     let* w := load_info lwidth pw in
     let* r := random_index w in put (upd (set_put_index r))
   else Ret tt) ;;;
  while (put_window_body set) (0, 0).

(** [thread_lhead_pointer = lat_head; thread_get_window = lat_head->next]. *)
Definition sync_head (lat_head : Z) : ME unit :=
  let* gw := load_lnext lat_head in
  put (upd (set_get_window lat_head gw)).

Definition get_window_body (set : mqueue_t) '((hops, random) : Z * Z) : ME (Z * Z + descriptor_t) :=
  let* index := my thread_get_index in
  let* descriptor := read_get index in
  let* pw := my thread_put_window in
  let* gw := my thread_get_window in
  let* pmax := load_info lmax pw in
  let* gmax := load_info lmax gw in
  let* put_count := (if gmax <? pmax then
      let* pmax := load_info lmax pw in
      let* pdepth := load_info ldepth pw in
      Ret (u64 (pmax - pdepth))
    else load_put dcount index) in
  let* lat_head := load_lhead in
  let* ptr := my thread_lhead_pointer in
  if negb (lat_head =? ptr) then
    let* next := load_lnext lat_head in
    if next =? 0 then break descriptor
    else
      sync_head lat_head ;;;
      let* gw := my thread_get_window in
      clip_index thread_get_index set_get_index gw ;;;
      continue (hops, random)
  else
    let* gmax := load_info lmax gw in
    if (dcount descriptor <? gmax) && (dcount descriptor <? put_count) then break descriptor
    else
      let* w := load_info lwidth gw in
      if negb (hops =? w) then
        let* (index, random, hops) := hop set index random hops w in
        put (upd (set_get_index index)) ;;;
        continue (hops, random)
      else
        let* t := load_ltail in
        if negb (gw =? t) then
          let* next := load_lnext gw in
          assert_ (negb (next =? 0)) ;;;
          shift_get ptr ;;;
          let* lat_head := load_lhead in
          sync_head lat_head ;;;
          let* gw := my thread_get_window in
          assert_ (negb (gw =? 0)) ;;;
          clip_index thread_get_index set_get_index gw ;;;
          continue (0, random)
        else break descriptor.

Definition get_window (set : mqueue_t) (contention : bool) : ME descriptor_t :=
  (if contention then
     let* gw := my thread_get_window in
     let* w := load_info lwidth gw in
     let* r := random_index w in put (upd (set_get_index r))
   else Ret tt) ;;;
  (let* lat_head := load_lhead in
   let* ptr := my thread_lhead_pointer in
   if negb (lat_head =? ptr) then
     let* next := load_lnext lat_head in
     if negb (next =? 0) then
       sync_head lat_head ;;;
       let* gw := my thread_get_window in
       clip_index thread_get_index set_get_index gw
     else Ret tt
   else Ret tt) ;;;
  let* descriptor := while (get_window_body set) (0, 0) in
  sync_index thread_put_window thread_get_index set_put_index ;;;
  Ret descriptor.

(** Called by each thread before its first operation. *)
Definition init_thread_windows : ME unit :=
  let* h := load_lhead in
  let* t := load_ltail in
  let* gw := load_lnext h in
  put (upd (fun w => mkWindows t gw h t (thread_put_index w) (thread_get_index w))).

(** *** 2Dd-queue_elastic.c *)

Definition create_node (key val next : Z) : ME Z := alloc_node (mkQnode next key val).

Definition enq_cae (i tail new_node : Z) : ME bool := cas_next i tail new_node.
Definition deq_cae (i : Z) (d new : descriptor_t) : ME bool := cae_get i d new.

(** The count of the node after [descriptor]'s, for the put window [win]. *)
Definition next_put_count (count win : Z) : ME Z :=
  let* max := load_info lmax win in
  let* depth := load_info ldepth win in
  if u64 (max - depth) <=? count then Ret (u64 (count + 1))
  else Ret (u64 (max - depth + 1)).

Definition enqueue_body (set : mqueue_t) (new_node : Z) (contention : bool)
    : ME (bool + descriptor_t * descriptor_t) :=
  let* descriptor := put_window set contention in
  assert_ (negb (dnode descriptor =? 0)) ;;;
  let* pw := my thread_put_window in
  let* max := load_info lmax pw in
  assert_ (dcount descriptor <? max) ;;;
  let tail := dnode descriptor in
  let* index := my thread_put_index in
  let* c := load_put dcount index in
  let* max := load_info lmax pw in
  if max <=? c then continue contention
  else
    assert_ (negb (new_node =? 0)) ;;;
    let* count := next_put_count (dcount descriptor) pw in
    let* next := load_next tail in
    if next =? 0 then
      let* ok := enq_cae index tail new_node in
      if ok then
        let* w := load_info lwidth pw in
        assert_ (index <=? w) ;;;
        break (descriptor, mkDesc new_node count)
      else put (count_stat inc_put_cas_fail) ;;; continue true
    else
      let* next := load_next tail in
      let* ok := cae_put index descriptor (mkDesc next count) in
      if ok then
        let* max := load_info lmax pw in
        assert_ (count <=? max) ;;;
        put (count_stat inc_put_cas_fail) ;;; continue contention
      else put (count_stat inc_put_cas_fail) ;;; continue true.

Definition enqueue (set : mqueue_t) (key val : Z) : ME Z :=
  let* new_node := create_node key val 0 in
  let* (descriptor, new_descriptor) := while (enqueue_body set new_node) false in
  assert_ (negb (dnode new_descriptor =? 0)) ;;;
  let* index := my thread_put_index in
  let* _ := cae_put index descriptor new_descriptor in
  Ret 1.

(** [safe_deq]: dequeue without looking at the tail. *)
Definition safe_deq (index : Z) (descriptor : descriptor_t) : ME (bool + Z) :=
  let head := dnode descriptor in
  let* next := load_next head in
  let* gw := my thread_get_window in
  let* max := load_info lmax gw in
  let* depth := load_info ldepth gw in
  let count := u64 (dcount descriptor + 1) in
  let min := u64 (max - depth + 1) in
  let* ok := deq_cae index descriptor (mkDesc next (if count <? min then min else count)) in
  if ok then
    let* val := load_val next in
    break val
  else put (count_stat inc_get_cas_fail) ;;; continue true.

Definition dequeue_body (set : mqueue_t) (contention : bool) : ME (bool + Z) :=
  let* descriptor := get_window set contention in
  let head := dnode descriptor in
  let* index := my thread_get_index in
  let* pw := my thread_put_window in
  let* pmax := load_info lmax pw in
  let* gw := my thread_get_window in
  let* gmax := load_info lmax gw in
  if gmax <? pmax then safe_deq index descriptor
  else
    let* enq_descriptor := read_put index in
    if head =? dnode enq_descriptor then
      let* next := load_head_next index head in
      if next =? 0 then
        put (count_stat inc_null) ;;; break 0
      else
        let* next := load_next (dnode enq_descriptor) in
        let* lat_tail := load_ltail in
        let* count := next_put_count (dcount enq_descriptor) lat_tail in
        let* ok := cae_put index enq_descriptor (mkDesc next count) in
        continue (if ok then contention else true)
    else safe_deq index descriptor.

Definition dequeue (set : mqueue_t) : ME Z :=
  sync_tail ;;;
  while (dequeue_body set) false.

Definition queue_size (set : mqueue_t) : ME Z :=
  queues_span (max_width set).

(** [SWP(&set->field, v)]: returns the old value. *)
Definition swap_dim (f : dims -> Z) (set_f : Z -> dims -> dims) (v : Z) : ME Z :=
  update (fun g _ => let d := rest (window g) in Some (f d, set_rest (set_f v d) g)).
Definition set_depth (v : Z) (d : dims) : dims := mkDims v (get_depth d) (width d).
Definition update_depth (v : Z) : ME Z := swap_dim depth set_depth v.
Definition update_put_depth (v : Z) : ME Z := swap_dim depth set_depth v.
Definition update_get_depth (v : Z) : ME Z :=
  swap_dim get_depth (fun v d => mkDims (depth d) v (width d)) v.
Definition update_width (v : Z) : ME Z :=
  swap_dim width (fun v d => mkDims (depth d) (get_depth d) v) v.
Definition get_depth_now : ME Z := load_depth.
Definition get_width : ME Z := load_width.
Definition get_put_width : ME Z := let* pw := my thread_put_window in load_info lwidth pw.
Definition get_get_width : ME Z := let* gw := my thread_get_window in load_info lwidth gw.

(** [create_queue]; [None]: signed overflow or division by zero. *)
Definition create_queue (junk : nat -> qnode_of unit)
    (num_threads width depth max_width k_mode relaxation_bound : Z) : option (mqueue_t * estate) :=
  p ← calculate 1 16 16 (product_int 1) num_threads width depth k_mode relaxation_bound;
  let max_width := if max_width <? p_width p then p_width p else max_width in
  Some (mkQueue 2 max_width (p_bound p) k_mode,
    mkShared
      (mkElastic (create_lateral_queue (p_depth p) (p_width p)) (mkDims (p_depth p) (p_depth p) (p_width p)))
      (created junk (fun a => mkDesc a 0) (fun a => mkDesc a 0) (Z.to_nat max_width))).

(** A client's calls. *)
Inductive eop := QueueOp (o : op) | UpdateDepth (v : Z) | UpdateWidth (v : Z).

Definition exec_op (set : mqueue_t) (o : eop) : ME Z :=
  match o with
  | QueueOp (Enqueue k v) => enqueue set k v
  | QueueOp Dequeue => dequeue set
  | UpdateDepth v => update_depth v
  | UpdateWidth v => update_width v
  end.
End code.
