(* ===== verification/LawWindow.v ===== *)
(** The windows of the elastic queue (LaW): what [put_window] and [get_window]
    promise to the operations, for a thread among others and for a thread that
    runs alone. *)
From S2P Require Import Prelude Conc Random Thread StackHeap QueueHeap Shared SubQueues Lateral ElasticLaw Rows.

(** ** Protocol *)

Section protocol.
Context (set : mqueue_t).
Notation mw := (max_width set).

(** What [update_depth] and [update_width] are called with. *)
Definition dims_ok (d : dims) : Prop := 1 <= depth d < 2 ^ 16 /\ 1 <= width d <= mw.
Definition dims_prot : protocol dims :=
  {| p_inv := dims_ok; p_rely _ _ _ := True; p_guar _ _ _ := True; p_ok _ := True; p_total := false |}.
#[export] Instance dims_prot_laws : ProtocolLaws dims_prot.
Proof. by split. Qed.

(** The bounds of the executions considered, whose windows do not shrink. *)
Definition law_limits (e : elastic lateral_node_t dims) : Prop :=
  Z.of_nat (length (infos (lat e))) < 2 ^ 40 /\ grows (infos (lat e)).
Definition law_base : protocol estate := joint (elastic_prot dims_prot law_limits) (qprot mw (2 ^ 62)).

Definition law (g : estate) : Prop :=
  law_ok mw (infos (lat (window g))) (ltail_pos (lat (window g))) (lhead_pos (lat (window g))) (subs g).

Definition set_ok : Prop := 1 <= mw < 2 ^ 16 /\ 0 <= random_hops set < 2 ^ 16 - 1.
End protocol.

Section windows.
Context {A : Allocator (qnode_of unit)} {LA : Allocator (lnode lateral_node_t)}.
Context (set : mqueue_t) (Hset : set_ok set).
Notation mw := (max_width set).
Notation base := (law_base set).
Notation law := (law set).
Context (P : protocol estate) (t : nat) {couples : Couples P base law t}.
Implicit Types (g : estate) (l : tls windows).
Notation latof g := (lat (window g)).
Notation ws g := (infos (lat (window g))).
Notation Tail g := (ltail_pos (lat (window g))).
Notation Head g := (lhead_pos (lat (window g))).
Notation still := (forall g g', p_rely P t g g' -> g' = g).
Context (alone_still : p_total P = true -> still).

(** The numbers are far from overflowing. *)
Definition sized g : Prop := Z.of_nat (length (ws g)) * 2 ^ 16 + Z.of_nat (length (hist (subs g))) < 2 ^ 63.
(** Among others this is part of what the thread may assume, and also that the
    windows do not shrink; alone it has to be shown. *)
Context (Hmode : still \/ forall g, p_ok P g -> p_ok base g).

#[local] Instance creads : Reads P base t := couples_reads (C := law).
#[local] Instance claws : ProtocolLaws P := reads_laws (B := base) (t := t).

(** The rules of Lateral.v and SubQueues.v at these protocols. *)
Notation lat_rule f := (f (dims_prot set) law_limits (qprot mw (2 ^ 62)) P t law) (only parsing).
Notation lat_step f := (f (dims_prot set) _ law_limits (qprot mw (2 ^ 62)) _ P t law) (only parsing).
Notation sub_rule f := (f (elastic_prot (dims_prot set) law_limits) mw (2 ^ 62) P t) (only parsing).
Notation sub_rule_c f := (f (elastic_prot (dims_prot set) law_limits) mw (2 ^ 62) P t law) (only parsing).

Lemma inv_law g : p_inv P g -> law g.
Proof. apply (couples_inv (B := base) (C := law)). Qed.
Lemma law_inv_subs g : p_inv P g -> queues_inv mw (subs g).
Proof. intros HI. by apply (reads_inv (B := base) g HI). Qed.
Lemma inv_lat g : p_inv P g -> lat_inv (latof g).
Proof. apply (lat_rule linv). Qed.
Lemma inv_rest g : p_inv P g -> dims_ok set (rest (window g)).
Proof. intros HI. by apply (reads_inv (B := base) g HI). Qed.

Lemma sized_rely g g' : (still -> sized g) -> p_rely P t g g' -> p_ok P g' -> sized g'.
Proof.
  intros Hs R O. destruct Hmode as [Hst|Hok]; [rewrite (Hst g g' R); by apply Hs|].
  destruct (Hok g' O) as [[Hw _] Hh]. cbn in Hh. unfold sized. lia.
Qed.

Lemma grows_rely g g' : p_rely P t g g' -> p_ok P g' -> still \/ grows (ws g').
Proof.
  intros R O. destruct Hmode as [Hst|Hok]; [by left|right]. by destruct (Hok g' O) as [[_ ?] _].
Qed.

(** *** What happens meanwhile *)

(** From [g] to [g'] there were steps of the others and own steps other than
    operations on the sub-queues' contents. *)
Record leads g g' : Prop := mkLeads {
  ld_inv : p_inv P g';
  ld_subs : evolves (subs g) (subs g');
  ld_mine : untouched t (subs g) (subs g');
  ld_lat : lat_evolves (latof g) (latof g');
}.

Lemma leads_rely g g' : p_rely P t g g' -> p_inv P g' -> leads g g'.
Proof.
  intros R I. apply (reads_rely (B := base)) in R as [[[El _] _] [Es Eu]]. by split.
Qed.
Lemma leads_trans g1 g2 g3 : leads g1 g2 -> leads g2 g3 -> leads g1 g3.
Proof.
  intros [I1 E1 [O1 Q1] L1] [I2 E2 [O2 Q2] L2]. split; [done|by eapply evolves_trans| |by eapply lat_evolves_trans].
  split; [|by rewrite Q2]. intros a n En Pn. destruct (O1 a n En Pn). by apply O2.
Qed.
Lemma leads_then g1 g2 g3 : leads g1 g2 -> p_rely P t g2 g3 -> p_inv P g3 -> leads g1 g3.
Proof. intros L R I. eapply leads_trans; [exact L|by apply leads_rely]. Qed.

(** An own step on the lateral queue. *)
Lemma leads_lat g m : p_inv P (set_lat m g) -> lat_evolves (latof g) m -> leads g (set_lat m g).
Proof. intros HI He. split; [done|apply evolves_refl|apply untouched_refl|done]. Qed.

Lemma leads_lat_at g g' k a x : leads g g' -> lat_at (latof g) k a x -> lat_at (latof g') k a x.
Proof. intros []. by apply lat_at_evolves. Qed.
Lemma leads_at_pos g g' i k a : leads g g' -> at_pos (subs g) i k a -> at_pos (subs g') i k a.
Proof. intros []. by apply at_pos_evolves. Qed.
Lemma leads_tail g g' : leads g g' -> (Tail g <= Tail g')%nat.
Proof. by intros [_ _ _ []]. Qed.
Lemma leads_tail_pos g g' i : leads g g' -> (tail_pos (subs g) i <= tail_pos (subs g') i)%nat.
Proof. intros []. by apply ev_tail. Qed.
Lemma leads_row g g' i k :
  p_inv P g -> leads g g' -> 0 <= i < mw -> (k <= tail_pos (subs g) i)%nat ->
  row (subs g') i k = row (subs g) i k.
Proof. intros HI [] Hi Hk. apply (row_evolves mw); [by apply law_inv_subs|done..]. Qed.
Lemma leads_put_row g g' i :
  p_inv P g -> leads g g' -> 0 <= i < mw -> put_row (subs g) i <= put_row (subs g') i.
Proof.
  intros HI L Hi. pose proof (ld_inv _ _ L) as HI'. unfold put_row.
  rewrite <- (leads_row g g' i _ HI L Hi) by done.
  pose proof (rows_mono mw _ _ _ _ (inv_law g' HI') i (tail_pos (subs g) i) (tail_pos (subs g') i) Hi) as Hm.
  pose proof (leads_tail_pos g g' i L). lia.
Qed.
Lemma leads_owned g g' a n : leads g g' -> owned t a n g -> owned t a n g'.
Proof. intros [_ _ [Ho _] _] [Pa Ea]. by destruct (Ho a n Ea Pa). Qed.
Lemma leads_window g g' k x : leads g g' -> ws g !! k = Some x -> ws g' !! k = Some x.
Proof. intros [_ _ _ []] Hk. by eapply prefix_lookup_Some. Qed.

(** *** The thread-local variables *)

(** The put window is the [k]-th, [x]; the get window the one after the [h]-th. *)
Definition put_at g l (k : nat) (x : lateral_node_t) : Prop :=
  let w := thread_Window l in
  lat_at (latof g) k (thread_put_window w) x /\ thread_ltail_pointer w = thread_put_window w /\ (k <= Tail g)%nat.
Definition get_at g l (h : nat) (z x : lateral_node_t) : Prop :=
  let w := thread_Window l in
  lat_at (latof g) h (thread_lhead_pointer w) z /\ lat_at (latof g) (S h) (thread_get_window w) x /\
  (S h <= Tail g)%nat /\ (h <= Head g)%nat /\ 0 <= thread_get_index w < lwidth x.
Definition put_index_ok l : Prop := 0 <= thread_put_index (thread_Window l) < mw.
Definition thread_ok g l : Prop :=
  thread_id l = t /\ put_index_ok l /\ (exists k x, put_at g l k x) /\ exists h z x, get_at g l h z x.

Lemma put_at_leads g g' l k x : leads g g' -> put_at g l k x -> put_at g' l k x.
Proof.
  intros L (Ha & E & Hk). pose proof (leads_tail g g' L).
  split; [by eapply leads_lat_at|split; [done|lia]].
Qed.
Lemma get_at_leads g g' l h z x : leads g g' -> get_at g l h z x -> get_at g' l h z x.
Proof.
  intros L (Ha & Hb & Hk & Hh & Hi). pose proof (leads_tail g g' L). pose proof (ld_lat _ _ L) as [_ _ _ ?].
  split; [by eapply leads_lat_at|]. split; [by eapply leads_lat_at|]. split; [lia|]. split; [lia|done].
Qed.
Lemma thread_ok_leads g g' l : leads g g' -> thread_ok g l -> thread_ok g' l.
Proof.
  intros L (Ht & Hi & (k & x & Hp) & (h & z & y & Hg)).
  split; [done|split; [done|split]]; [exists k, x; by eapply put_at_leads|exists h, z, y; by eapply get_at_leads].
Qed.

Lemma window_width g k x : p_inv P g -> ws g !! k = Some x -> 1 <= lwidth x <= mw.
Proof. intros HI Hx. by apply (wo_width _ _ (lw_windows _ _ _ _ _ (inv_law g HI)) k). Qed.

(** *** The parts of the two functions *)

Lemma info_wp {U} (f : lateral_node_t -> U) k a x (Q : U -> estate -> tls windows -> Prop) g l :
  lat_at (latof g) k a x -> (forall g', p_rely P t g g' -> p_inv P g' -> Q (f x) g' l) ->
  wp P t (load_info f a) Q g l.
Proof. apply ((lat_rule wp_load_info) f k a x). Qed.

Lemma my_wp f (Q : Z -> estate -> tls windows -> Prop) g l :
  Q (f (thread_Window l)) g l -> wp P t (my f) Q g l.
Proof. done. Qed.

Lemma sync_tail_wp (Q : unit -> estate -> tls windows -> Prop) g l :
  (forall g' a x, p_rely P t g g' -> p_inv P g' -> lat_at (latof g') (Tail g') a x ->
     Q tt g' (upd (set_put_window a) l)) ->
  wp P t sync_tail Q g l.
Proof.
  intros HQ. unfold sync_tail. wp_local. apply (lat_rule wp_load_ltail).
  intros g1 a x R1 I1 O1 _ Ha. wp_locals. by eapply HQ.
Qed.

Lemma sync_head_wp h a z (Q : unit -> estate -> tls windows -> Prop) g l :
  p_inv P g -> lat_at (latof g) h a z -> (h <= Head g)%nat ->
  (forall g' b x, p_rely P t g g' -> p_inv P g' -> lat_at (latof g') (S h) b x -> b <> 0 ->
     Q tt g' (upd (set_get_window a b) l)) ->
  wp P t (sync_head a) Q g l.
Proof.
  intros HI Ha Hh HQ. unfold sync_head. wp_local. pose proof (inv_law g HI) as [].
  destruct (lat_at_exists (latof g) (S h) (inv_lat g HI)) as (b & x & Hb).
  { rewrite <- (li_infos _ (inv_lat g HI)). lia. }
  apply ((lat_rule wp_load_lnext_known) h a z b x); [done|done|].
  intros g1 R1 I1. wp_locals. pose proof ((lat_rule lrely_at) g g1 (S h) b x R1 Hb) as Hb1.
  eapply HQ; [done|done|done|]. by destruct (lat_node _ _ _ _ (inv_lat g1 I1) Hb1).
Qed.

Lemma clip_wp index set_index k a x (Q : unit -> estate -> tls windows -> Prop) g l :
  lat_at (latof g) k a x ->
  (forall g', p_rely P t g g' -> p_inv P g' ->
     Q tt g' (if lwidth x <=? index (thread_Window l) then upd (set_index 0) l else l)) ->
  wp P t (clip_index index set_index a) Q g l.
Proof.
  intros Ha HQ. unfold clip_index. wp_local. apply (info_wp lwidth k a x); [done|].
  intros g1 R1 I1. wp_local. apply my_wp. specialize (HQ g1 R1 I1). destruct (lwidth x <=? _); wp_locals; done.
Qed.

Lemma random_wp w (Q : Z -> estate -> tls windows -> Prop) g l :
  1 <= w <= mw -> (forall r s, 0 <= r < w -> Q r g (with_rng s (stats l) l)) ->
  wp P t (random_index w) Q g l.
Proof. destruct Hset as [? _]. intros Hw HQ. apply wp_shared_random; [lia|]. intros r s Hr. by apply HQ. Qed.

Lemma hop_wp index random hops w (Q : Z * Z * Z -> estate -> tls windows -> Prop) g l :
  1 <= w <= mw -> 0 <= index < w -> 0 <= random <= random_hops set ->
  (forall r s st, 0 <= r < w -> random < random_hops set -> Q (r, random + 1, hops) g (with_rng s st l)) ->
  (forall s st, random = random_hops set -> Q (next_index w index, random, u16 (hops + 1)) g (with_rng s st l)) ->
  wp P t (hop set index random hops w) Q g l.
Proof.
  destruct Hset as [Hmw Hrh]. intros Hw Hi Hr HQ HQ'. unfold hop. wp_locals.
  destruct (Z.ltb_spec random (random_hops set)) as [Hlt|Hge].
  - wp_local. apply random_wp; [done|]. intros r s Hrw. wp_locals.
    rewrite (wrap_small 16 (random + 1)) by lia. by apply HQ.
  - wp_locals. rewrite (wrap_small 16 (index + 1)) by lia. apply HQ'. lia.
Qed.

(** What a shift does when no other thread shifts: the window [y] is linked,
    then the tail moves on to it. *)
Definition link_only g k (y : lateral_node_t) g' : Prop :=
  subs g' = subs g /\ rest (window g') = rest (window g) /\ Head g' = Head g /\ Tail g' = k /\
  (length (ws g) = S k -> ws g' = ws g ++ [y]).
Definition shifted g k (y : lateral_node_t) g' : Prop :=
  subs g' = subs g /\ rest (window g') = rest (window g) /\ Head g' = Head g /\
  (length (ws g) = S k -> ws g' = ws g ++ [y] /\ Tail g' = S k).

(** The tail moves on, whoever moves it. *)
Lemma shift_advance_wp g0 y k a x b y2 (Q : unit -> estate -> tls windows -> Prop) g l :
  p_inv P g -> lat_at (latof g) k a x -> lat_at (latof g) (S k) b y2 -> (still -> link_only g0 k y g) ->
  (forall g', leads g g' -> (k < Tail g')%nat -> (still -> shifted g0 k y g') -> Q tt g' l) ->
  wp P t (let* next := load_lnext a in let* _ := cae_ltail a next in Ret tt) Q g l.
Proof.
  intros HI Ha Hb Hst HQ. wp_local.
  apply ((lat_rule wp_load_lnext_known) k a x b y2); [done|done|]. intros g1 R1 I1. wp_local.
  pose proof (leads_rely g g1 R1 I1) as L1.
  apply ((lat_step wp_cae_ltail) k a x b y2); [by apply (leads_lat_at g)|by apply (leads_lat_at g)|..].
  - intros g2 m R2 I2 HT Ec Ei Etl Ehd Hm. unfold law. cbn [set_lat window lat subs set_window].
    assert (Hl : length (ws g2) = S (S k)).
    { destruct (leads_lat_at _ _ _ _ _ (leads_then _ _ _ L1 R2 I2) Hb) as [Hb2 _].
      rewrite (li_infos _ (inv_lat g2 I2)). apply lookup_lt_Some in Hb2. pose proof (li_lag _ (inv_lat g2 I2)). lia. }
    rewrite Ei, Etl. replace (lhead_pos m) with (Head g2) by (unfold lhead_pos, lpos; by rewrite Ec, Ehd).
    apply law_tail; [|done]. pose proof (inv_law g2 I2) as HL. unfold law in HL. by rewrite HT in HL.
  - intros g2 m R2 I2 g3 I3 HT Ec Ei Et3 Eh3 He. wp_locals.
    apply HQ; [eapply leads_trans; [by eapply leads_then|by apply leads_lat]|cbn; lia|].
    intros Hs. unfold shifted. cbn [set_lat window lat rest subs set_window g3]. rewrite Ei, Et3, Eh3.
    rewrite (Hs _ _ R2), (Hs _ _ R1). destruct (Hst Hs) as (E1 & Er & E2 & _ & E3). eauto 6.
  - intros g2 R2 I2 Hne. wp_locals. pose proof (leads_then _ _ _ L1 R2 I2) as L2. apply HQ; [done| |].
    + pose proof (leads_tail _ _ L2). pose proof (li_lag _ (inv_lat g HI)). destruct Hb as [Hb _].
      apply lookup_lt_Some in Hb. lia.
    + intros Hs. destruct Hne. rewrite (Hs _ _ R2), (Hs _ _ R1). by apply Hst.
Qed.

(** A new window is linked, or another thread has linked one. *)
Lemma shift_link_wp k a x max depth width (Q : unit -> estate -> tls windows -> Prop) g l :
  let y := mkWin max width depth in
  thread_id l = t -> p_inv P g -> lat_at (latof g) k a x -> (k <= Tail g)%nat ->
  (forall i, 0 <= i < lwidth x -> lmax x <= put_row (subs g) i) ->
  1 <= width <= mw -> 1 <= depth < 2 ^ 16 ->
  (forall g', leads g g' -> p_ok P g' -> (still -> ws g' = ws g) -> bottom y = lmax x) ->
  (forall g' b y2, leads g g' -> lat_at (latof g') (S k) b y2 ->
     (still -> Tail g = k -> length (ws g) = S k -> link_only g k y g') -> Q tt g' l) ->
  wp P t (let* next := create_lateral_node max width depth in let* _ := cas_lnext a next in Ret tt) Q g l.
Proof.
  intros y Ht HI Ha Hk Hfull Hw Hd Hb HQ. unfold create_lateral_node. wp_local.
  apply (lat_step wp_alloc_lnode); [done|..].
  { intros g1 m I1 Ec Ei Et Eh. pose proof (inv_law g1 I1) as HL. unfold law.
    cbn [set_lat window lat subs set_window]. unfold ltail_pos, lhead_pos, lpos. by rewrite Ei, Ec, Et, Eh. }
  intros b g1 m R1 I1 g2 I2 He2 Ec Ei Et Eh Ho. wp_locals.
  assert (E2 : subs g2 = subs g1 /\ rest (window g2) = rest (window g1) /\ ws g2 = ws g1 /\ Tail g2 = Tail g1 /\ Head g2 = Head g1).
  { unfold g2, ltail_pos, lhead_pos, lpos. cbn. by rewrite Ec, Ei, Et, Eh. }
  assert (L2 : leads g g2) by (eapply leads_trans; [by apply (leads_rely g g1)|by apply leads_lat]).
  apply ((lat_step wp_cas_lnext) k a x b y);
    [by apply (leads_lat_at g)|pose proof (leads_tail _ _ L2); lia|exact Ho|..].
  - intros g3 m3 R3 I3 O3 Hlen HT Ec3 Ei3 Et3 Eh3 Hm3. pose proof (leads_then _ _ _ L2 R3 I3) as L3.
    assert (Hpos : forall pos c, chain (latof g3) !! pos = Some c -> chain m3 !! pos = Some c).
    { intros pos c Hc. rewrite Ec3. by apply lookup_app_l_Some. }
    assert (Ep : ltail_pos m3 = Tail g3).
    { eapply lat_pos_inj; [exact Hm3|apply (li_tail _ Hm3)|]. rewrite Et3. apply Hpos, (li_tail _ (inv_lat g3 I3)). }
    assert (Eq : lhead_pos m3 = Head g3).
    { eapply lat_pos_inj; [exact Hm3|apply (li_head _ Hm3)|]. rewrite Eh3. apply Hpos, (li_head _ (inv_lat g3 I3)). }
    unfold law. cbn [set_lat window lat subs set_window]. rewrite Ep, Eq, Ei3.
    apply (law_link mw _ _ _ _ x y (inv_law g3 I3)).
    + rewrite HT. by apply (leads_lat_at _ _ _ _ _ L3 Ha).
    + rewrite (li_infos _ (inv_lat g3 I3)). lia.
    + intros i Hi. pose proof (window_width g k x HI (proj2 Ha)).
      specialize (Hfull i Hi). pose proof (leads_put_row g g3 i HI L3). lia.
    + exact Hw.
    + exact Hd.
    + apply (Hb g3); [done|done|]. intros Hs. destruct E2 as (_ & _ & Ew & _). by rewrite (Hs _ _ R3), Ew, (Hs _ _ R1).
  - intros g3 m3 R3 I3 g4 I4 Hlen Hb4 He4 Ei4 Et4 Eh4. wp_locals. apply (HQ g4 b y).
    + eapply leads_trans; [by eapply leads_then|by apply leads_lat].
    + exact Hb4.
    + intros Hs HT HL. unfold link_only. cbn [set_lat window lat rest subs set_window g4]. rewrite Ei4, Et4, Eh4.
      destruct E2 as (Es & Er & Ew & Etl & Ehd).
      by rewrite (Hs _ _ R3), Es, Er, Ew, Etl, Ehd, (Hs _ _ R1).
  - intros g3 R3 I3 Hlt. wp_locals. pose proof (leads_then _ _ _ L2 R3 I3) as L3.
    destruct (lat_at_exists (latof g3) (S k) (inv_lat g3 I3) Hlt) as (c & z & Hc).
    apply (HQ g3 c z); [done|done|]. intros Hs HT HL. exfalso. destruct E2 as (_ & _ & Ew & _).
    pose proof (li_infos _ (inv_lat g3 I3)) as E3. rewrite (Hs _ _ R3) in E3, Hlt. rewrite Ew, (Hs _ _ R1) in E3. lia.
Qed.

(** A shift adds the window [y] unless another thread has shifted. *)
Lemma shift_put_wp k a x max depth width (Q : unit -> estate -> tls windows -> Prop) g l :
  let y := mkWin max width depth in
  thread_id l = t -> p_inv P g -> lat_at (latof g) k a x -> (k <= Tail g)%nat ->
  (forall i, 0 <= i < lwidth x -> lmax x <= put_row (subs g) i) ->
  1 <= width <= mw -> 1 <= depth < 2 ^ 16 ->
  (forall g', leads g g' -> p_ok P g' -> (still -> ws g' = ws g) -> bottom y = lmax x) ->
  (forall g', leads g g' -> (k < Tail g')%nat -> (still -> shifted g k y g') -> Q tt g' l) ->
  wp P t (shift_put a max depth width) Q g l.
Proof.
  intros y Ht HI Ha Hk Hfull Hw Hd Hb HQ. unfold shift_put. wp_local.
  apply (lat_rule wp_load_ltail). intros g1 b x1 R1 I1 O1 Eb Hb1.
  pose proof (leads_rely g g1 R1 I1) as L1. pose proof (leads_lat_at _ _ _ _ _ L1 Ha) as Ha1.
  pose proof (leads_tail _ _ L1).
  destruct (Z.eqb_spec b a) as [->|Hne].
  2: { wp_local. apply HQ; [done| |].
    - destruct (decide (k = Tail g1)) as [->|]; [|lia]. destruct Ha1, Hb1; congruence.
    - intros Hs. rewrite (Hs g g1 R1) in *. do 3 (split; [done|]). intros Hlen. exfalso.
      pose proof (lw_tail _ _ _ _ _ (inv_law g HI)). assert (k = Tail g) as -> by lia.
      destruct Ha, Hb1; congruence. }
  assert (HTk : Tail g1 = k) by (eapply lat_pos_inj; [apply (inv_lat g1 I1)|apply Hb1|apply Ha1]).
  assert (Hadvance : forall g2 b y2, leads g1 g2 -> lat_at (latof g2) (S k) b y2 ->
    (still -> link_only g k y g2) ->
    wp P t (let* next := load_lnext a in let* _ := cae_ltail a next in Ret tt) Q g2 l).
  { intros g2 c y2 L2 Hc Hs2.
    apply (shift_advance_wp g y k a x c y2); [apply L2|by apply (leads_lat_at g1)|done|done|].
    intros g3 L3. apply HQ. exact (leads_trans _ _ _ L1 (leads_trans _ _ _ L2 L3)). }
  wp_local. apply ((lat_rule wp_load_lnext) k a x); [done|..].
  - intros g2 R2 I2 Hlen2. cbn [Z.eqb]. wp_local. pose proof (leads_rely g1 g2 R2 I2) as L2.
    pose proof (leads_trans _ _ _ L1 L2) as L02. pose proof (leads_tail _ _ L2).
    apply (shift_link_wp k a x max depth width); [done|done|by apply (leads_lat_at g)|lia| |done|done|..].
    + intros i Hi. pose proof (window_width g k x HI (proj2 Ha)).
      specialize (Hfull i Hi). pose proof (leads_put_row g g2 i HI L02). lia.
    + intros g3 L3 O3 Hs. apply (Hb g3); [exact (leads_trans _ _ _ L02 L3)|done|].
      intros Hs'. by rewrite (Hs Hs'), (Hs' _ _ R2), (Hs' _ _ R1).
    + intros g3 c y2 L3 Hc Hs3. apply (Hadvance g3 c y2); [exact (leads_trans _ _ _ L2 L3)|done|]. intros Hs.
      pose proof (li_infos _ (inv_lat g2 I2)) as Ei. rewrite Hlen2 in Ei.
      rewrite (Hs _ _ R2), (Hs _ _ R1) in *. by apply Hs3.
  - intros g2 b y2 R2 I2 Hb0 Hb2. rewrite (proj2 (Z.eqb_neq _ _) Hb0). wp_locals.
    apply (Hadvance g2 b y2); [by apply leads_rely|done|].
    intros Hs. rewrite (Hs _ _ R2), (Hs _ _ R1) in *. do 4 (split; [done|]).
    intros Hlen. exfalso. destruct Hb2 as [Hb2 _]. apply lookup_lt_Some in Hb2.
    pose proof (li_infos _ (inv_lat g HI)). lia.
Qed.

(** *** Reading a descriptor *)

(** [d] was read from [put_array], [k] is the position of its node; the count
    may belong to a later one. *)
Definition put_read g (i : Z) (k : nat) (d : descriptor_t) : Prop :=
  at_pos (subs g) i k (dnode d) /\ (k <= tail_pos (subs g) i)%nat /\
  (tail_pos (subs g) i = k -> lookup_put i g = Some d) /\
  row (subs g) i k <= dcount d <= put_row (subs g) i.
(** The same for [get_array]. *)
Definition get_read g (i : Z) (k : nat) (d : descriptor_t) : Prop :=
  at_pos (subs g) i k (dnode d) /\ (k <= head_pos (subs g) i)%nat /\ row (subs g) i k <= dcount d.

Lemma sub_at_of g i : p_inv P g -> 0 <= i < mw -> exists dp dg, sub_at (subs g) i dp dg.
Proof. intros HI Hi. by apply (law_inv_subs g HI). Qed.

Lemma head_before_tail g i : p_inv P g -> 0 <= i < mw -> (head_pos (subs g) i <= tail_pos (subs g) i)%nat.
Proof. intros HI Hi. by destruct (sub_positions mw (subs g) i (law_inv_subs g HI) Hi) as [[? _] _]. Qed.

Lemma put_read_leads g g' i k d :
  p_inv P g -> 0 <= i < mw -> leads g g' -> put_read g i k d -> put_read g' i k d.
Proof.
  intros HI Hi L (Hk & Hle & Hd & Hr). pose proof (leads_tail_pos g g' i L).
  split; [by eapply leads_at_pos|split; [lia|split]].
  - intros Ht. specialize (Hd ltac:(lia)).
    destruct (sub_at_of g i HI Hi) as (dp & dg & Hs). destruct (sub_at_of g' i (ld_inv _ _ L) Hi) as (dp' & dg' & Hs').
    pose proof (prefix_lookup_Some _ _ _ _ (sa_putlast _ _ _ _ Hs) (ev_puts _ _ (ld_subs _ _ L) i)) as E.
    replace (tail_pos (subs g) i) with (tail_pos (subs g') i) in E by lia.
    rewrite (sa_putlast _ _ _ _ Hs') in E. unfold lookup_put in *. rewrite (sa_put _ _ _ _ Hs) in Hd.
    rewrite (sa_put _ _ _ _ Hs'). congruence.
  - rewrite (leads_row g g' i k HI L Hi Hle). pose proof (leads_put_row g g' i HI L Hi). lia.
Qed.

Lemma get_read_leads g g' i k d :
  p_inv P g -> 0 <= i < mw -> leads g g' -> get_read g i k d -> get_read g' i k d.
Proof.
  intros HI Hi L (Hk & Hle & Hr). pose proof (ev_head _ _ i (ld_subs _ _ L)).
  pose proof (head_before_tail g i HI Hi).
  split; [by eapply leads_at_pos|split; [lia|]]. by rewrite (leads_row g g' i k HI L Hi) by lia.
Qed.

Lemma put_read_wp i (Q : descriptor_t -> estate -> tls windows -> Prop) g l :
  0 <= i < mw ->
  (forall g' k d, p_rely P t g g' -> p_inv P g' -> put_read g' i k d -> (tail_pos (subs g) i <= k)%nat ->
     Q d g' l) ->
  wp P t (read_put i) Q g l.
Proof.
  intros Hi HQ. unfold read_put. wp_local. apply ((sub_rule wp_qload_put) dnode i); [done|].
  intros g1 d1 R1 I1 E1 Hk1 _. wp_local. apply ((sub_rule wp_qload_put) dcount i); [done|].
  intros g2 d2 R2 I2 E2 Hk2 _. wp_locals. pose proof (leads_rely g1 g2 R2 I2) as L2.
  apply (HQ g2 (tail_pos (subs g1) i)); [by apply (rely_trans (P := P) t g g1 g2)|done| |].
  2: { apply (leads_tail_pos g g1 i). by apply leads_rely. }
  pose proof (put_row_eq mw _ i d2 (law_inv_subs g2 I2) Hi E2) as Er2.
  pose proof (put_row_eq mw _ i d1 (law_inv_subs g1 I1) Hi E1) as Er1.
  pose proof (leads_put_row g1 g2 i I1 L2 Hi). pose proof (leads_tail_pos g1 g2 i L2).
  pose proof (leads_at_pos _ _ _ _ _ L2 Hk1) as Hk12. cbn [dnode].
  split; [done|split; [done|split]]; cbn [dcount].
  - intros Et. rewrite Et in Hk2. unfold at_pos in *. rewrite E2. f_equal.
    destruct d2 as [n2 c2]. cbn [qd_node descriptor_desc dnode dcount] in *. congruence.
  - rewrite (leads_row g1 g2 i _ I1 L2 Hi) by done. unfold put_row in *. lia.
Qed.

Lemma get_read_wp i (Q : descriptor_t -> estate -> tls windows -> Prop) g l :
  0 <= i < mw ->
  (forall g' k d, p_rely P t g g' -> p_inv P g' -> get_read g' i k d ->
     (still -> lookup_get i g' = Some d) -> Q d g' l) ->
  wp P t (read_get i) Q g l.
Proof.
  intros Hi HQ. unfold read_get. wp_local. apply ((sub_rule wp_qload_get) dnode i); [done|].
  intros g1 d1 R1 I1 E1 Hk1 _. wp_local. apply ((sub_rule wp_qload_get) dcount i); [done|].
  intros g2 d2 R2 I2 E2 Hk2 _. wp_locals. pose proof (leads_rely g1 g2 R2 I2) as L2.
  pose proof (ev_head _ _ i (ld_subs _ _ L2)) as Hh. pose proof (head_before_tail g1 i I1 Hi).
  apply (HQ g2 (head_pos (subs g1) i)); [by apply (rely_trans (P := P) t g g1 g2)|done|..].
  - split; [by apply (leads_at_pos g1 g2)|split; [done|]]. cbn [dcount].
    pose proof (head_before_tail g2 i I2 Hi).
    pose proof (rows_mono mw _ _ _ _ (inv_law g2 I2) i (head_pos (subs g1) i) (head_pos (subs g2) i) Hi).
    pose proof (lw_get _ _ _ _ _ (inv_law g2 I2) i Hi) as Hg. rewrite (get_row_eq _ i d2 E2) in Hg. lia.
  - intros Hs. rewrite (Hs _ _ R2) in *. assert (d2 = d1) as -> by congruence. by destruct d1.
Qed.

(** The count of the entry of [put_array]. *)
Lemma put_count_wp i (Q : Z -> estate -> tls windows -> Prop) g l :
  0 <= i < mw ->
  (forall g', p_rely P t g g' -> p_inv P g' -> Q (put_row (subs g') i) g' l) ->
  wp P t (load_put dcount i) Q g l.
Proof.
  intros Hi HQ. apply ((sub_rule wp_qload_put) dcount i); [done|]. intros g1 d R1 I1 E1 _ _.
  rewrite <- (put_row_eq mw _ i d (law_inv_subs g1 I1) Hi E1). by apply HQ.
Qed.

(** *** [put_window] *)

(** For a thread alone the dimensions do not change, and the windows are the
    same or there is a new one of these dimensions. *)
Definition unchanged g0 g : Prop := rest (window g) = rest (window g0) /\ ws g = ws g0.
Definition added g0 g : Prop :=
  rest (window g) = rest (window g0) /\
  exists y, ws g = ws g0 ++ [y] /\ lwidth y = width (rest (window g0)) /\ ldepth y = depth (rest (window g0)).
Definition grown g0 g : Prop := unchanged g0 g \/ added g0 g.

Lemma grown_prefix g0 g : grown g0 g -> ws g0 `prefix_of` ws g /\ (length (ws g) <= S (length (ws g0)))%nat.
Proof.
  intros [[_ ->]|(_ & y & -> & _)]; [split; [done|lia]|]. split; [by apply prefix_app_r|].
  rewrite length_app. cbn. lia.
Qed.

Lemma unchanged_grown g0 g g' : unchanged g0 g -> grown g g' -> grown g0 g'.
Proof.
  intros [Er Ew] [[Er' Ew']|(Er' & y & Ew' & Hy)]; [left|right].
  - split; congruence.
  - split; [congruence|]. exists y. by rewrite <- Er, <- Ew.
Qed.

(** A thread alone shifts at most once: after that the current sub-queue has
    room.  Before, [n] bounds the hops to come. *)
Definition put_alone g0 (n : nat) (k : nat) (x : lateral_node_t) (hops random : Z) g l : Prop :=
  subs g = subs g0 /\ Head g = Head g0 /\ k = Tail g /\ length (ws g) = S k /\
  (unchanged g0 g /\ (Z.to_nat (lwidth x - hops + random_hops set - random) < n)%nat \/
   added g0 g /\ put_row (subs g) (thread_put_index (thread_Window l)) < lmax x).

Definition put_loop_at g0 (n : nat) k x (hops random : Z) g l : Prop :=
  put_at g l k x /\ 0 <= thread_put_index (thread_Window l) < lwidth x /\
  0 <= hops <= lwidth x /\ 0 <= random <= random_hops set /\ (0 < hops -> random = random_hops set) /\
  seen (lwidth x) (thread_put_index (thread_Window l)) hops (fun j => lmax x <= put_row (subs g) j) /\
  (still -> put_alone g0 n k x hops random g l).
Definition put_loop g0 (n : nat) '((hops, random) : Z * Z) g l : Prop :=
  thread_id l = t /\ leads g0 g /\ (exists h z y, get_at g l h z y) /\
  exists k x, put_loop_at g0 n k x hops random g l.

(** What [put_window] returns: an entry of the thread's put window with room. *)
Definition put_window_post g0 (d : descriptor_t) g l : Prop :=
  leads g0 g /\ thread_ok g l /\
  exists p k x, put_at g l k x /\ put_read g (thread_put_index (thread_Window l)) p d /\
    0 <= thread_put_index (thread_Window l) < lwidth x /\ dcount d < lmax x /\
    (still -> tail_pos (subs g) (thread_put_index (thread_Window l)) = p /\
       subs g = subs g0 /\ Head g = Head g0 /\ k = Tail g /\ length (ws g) = S k /\ grown g0 g).

Lemma sync_index_wp other index set_other h z y k x (Q : unit -> estate -> tls windows -> Prop) g l :
  get_at g l h z y -> put_at g l k x -> p_inv P g ->
  (forall g', leads g g' -> (still -> g' = g) -> Q tt g' l) ->
  (forall g', leads g g' -> (still -> g' = g) -> lwidth y = lwidth x ->
     Q tt g' (upd (set_other (index (thread_Window l))) l)) ->
  wp P t (sync_index other index set_other) Q g l.
Proof.
  intros (_ & Hy & _) (Hx & _) HI HQ HQ'. unfold sync_index. wp_local. apply my_wp.
  assert (Lr : leads g g) by (apply leads_rely; [apply (rely_refl (P := P))|done]).
  destruct (_ =? 0); cbn [negb]; [wp_locals; by apply HQ|].
  wp_local. apply my_wp. wp_local. apply (info_wp lwidth (S h) _ y); [done|]. intros g1 R1 I1.
  wp_local. apply my_wp. wp_local. apply (info_wp lwidth k _ x); [by apply ((lat_rule lrely_at) g g1)|].
  intros g2 R2 I2. pose proof (leads_then _ _ _ (leads_rely _ _ R1 I1) R2 I2) as L2.
  assert (Hst : still -> g2 = g) by (intros Hs; by rewrite (Hs _ _ R2), (Hs _ _ R1)).
  destruct (Z.eqb_spec (lwidth y) (lwidth x)); [|wp_locals; by apply HQ].
  wp_local. apply my_wp. wp_locals. by apply HQ'.
Qed.

(** Looking at a new put window. *)
Lemma put_loop_sync g0 n k a x random g l :
  thread_id l = t -> leads g0 g -> (exists h z y, get_at g l h z y) ->
  lat_at (latof g) k a x -> (k <= Tail g)%nat -> put_index_ok l -> 0 <= random <= random_hops set ->
  let i := thread_put_index (thread_Window l) in
  let l1 := upd (set_put_window a) l in
  let l2 := if lwidth x <=? i then upd (set_put_index 0) l1 else l1 in
  (still -> put_alone g0 n k x 0 random g l2) ->
  put_loop g0 n (0, random) g l2.
Proof.
  intros Ht L Hg Ha Hk Hi Hr i l1 l2 Hst. pose proof (window_width g k x (ld_inv _ _ L) (proj2 Ha)) as Hw.
  assert (E : thread_id l2 = t /\ thread_Window l2 = set_put_index (if lwidth x <=? i then 0 else i) (set_put_window a (thread_Window l))).
  { unfold l2. by destruct (lwidth x <=? i). }
  destruct E as [E1 E2]. split; [done|split; [done|split]].
  - destruct Hg as (h & z & y & Hg). exists h, z, y. unfold get_at in *. rewrite E2. exact Hg.
  - exists k, x. unfold put_loop_at, put_at. rewrite E2. cbn [set_put_index set_put_window thread_put_window thread_ltail_pointer thread_put_index].
    split; [done|]. split; [|split; [lia|split; [done|split; [lia|split]]]].
    + unfold put_index_ok in Hi. fold i in Hi. destruct (Z.leb_spec (lwidth x) i); lia.
    + apply seen_none. lia.
    + done.
Qed.

Lemma put_loop_leads g0 n k x hops random g g' l :
  p_inv P g -> put_loop_at g0 n k x hops random g l -> leads g g' -> (still -> g' = g) ->
  put_loop_at g0 n k x hops random g' l.
Proof.
  intros HI (Hp & Hi & Hh & Hr & Hhr & Hseen & Hst) L' Hs.
  pose proof (window_width g k x HI (proj2 (proj1 Hp))).
  split; [by eapply put_at_leads|]. do 4 (split; [done|]). split.
  - intros j Hj Hc. specialize (Hseen j Hj Hc). cbv beta in *.
    pose proof (leads_put_row g g' j HI L' ltac:(lia)). lia.
  - intros Hs'. rewrite (Hs Hs'). by apply Hst.
Qed.

(** A hop from a sub-queue that is full. *)
Lemma put_hop_wp g0 n k x hops random (Q : Z * Z + descriptor_t -> estate -> tls windows -> Prop) g l :
  thread_id l = t -> leads g0 g -> (exists h z y, get_at g l h z y) ->
  put_loop_at g0 n k x hops random g l -> hops < lwidth x ->
  lmax x <= put_row (subs g) (thread_put_index (thread_Window l)) ->
  (forall m c g' l', put_loop g0 m c g' l' -> (p_total P = true -> (m < n)%nat) -> Q (inl c) g' l') ->
  wp P t (let* (index, random, hops) := hop set (thread_put_index (thread_Window l)) random hops (lwidth x) in
          put (upd (set_put_index index)) ;;; continue (hops, random)) Q g l.
Proof.
  intros Ht L Hg HJ Hlt Hfull HQ. pose proof HJ as (Hp & Hi & Hh & Hr & Hhr & Hseen & Hst).
  pose proof (window_width g k x (ld_inv _ _ L) (proj2 (proj1 Hp))) as Hw. destruct Hset as [Hmw _].
  assert (Hend : forall m r hops' random' s st, 0 <= r < lwidth x -> 0 <= hops' <= lwidth x ->
    0 <= random' <= random_hops set -> (0 < hops' -> random' = random_hops set) ->
    seen (lwidth x) r hops' (fun j => lmax x <= put_row (subs g) j) ->
    (still -> (Z.to_nat (lwidth x - hops' + random_hops set - random') < m < n)%nat) ->
    Q (inl (hops', random')) g (upd (set_put_index r) (with_rng s st l))).
  { intros m r hops' random' s st Hr' Hh' Hrr Hhr' Hs' Hm. apply (HQ m).
    - split; [done|split; [done|split; [exact Hg|]]]. exists k, x.
      split; [exact Hp|]. do 5 (split; [done|]). intros Hs.
      destruct (Hst Hs) as (E1 & E2 & E3 & E4 & [[E5 _]|[_ Hlt']]); [|lia].
      do 4 (split; [done|]). left. split; [done|]. by apply Hm.
    - intros Htot. by apply Hm, alone_still. }
  wp_local. apply hop_wp; [done|done|done|..].
  - intros r s st Hrw Hlt'. wp_locals.
    assert (hops = 0) as -> by (destruct (decide (0 < hops)); [specialize (Hhr ltac:(lia))|]; lia).
    apply (Hend (Nat.pred n)); [done|lia|lia|lia|apply seen_none; lia|].
    intros Hs. destruct (Hst Hs) as (_ & _ & _ & _ & [[_ Hn]|[_ ?]]); lia.
  - intros s st Er. wp_locals. rewrite wrap_small by lia.
    apply (Hend (Nat.pred n)); [apply next_index_range; lia|lia|lia|lia|by apply seen_next|].
    intros Hs. destruct (Hst Hs) as (_ & _ & _ & _ & [[_ Hn]|[_ ?]]); lia.
Qed.

(** The end of the iteration after a shift. *)
Lemma put_resync_wp g0 n k x random (Q : Z * Z + descriptor_t -> estate -> tls windows -> Prop) g g1 l :
  thread_id l = t -> leads g0 g -> leads g g1 -> (exists h z y, get_at g l h z y) -> put_index_ok l ->
  lat_at (latof g) k (thread_put_window (thread_Window l)) x -> 0 <= random <= random_hops set ->
  (still -> subs g = subs g0 /\ (k < Tail g1)%nat /\ k = Tail g /\ subs g1 = subs g0 /\ Head g1 = Head g0 /\
     length (ws g1) = S (Tail g1) /\ added g0 g1) ->
  (forall g' l', put_loop g0 n (0, random) g' l' -> Q (inl (0, random)) g' l') ->
  wp P t (sync_tail ;;; let* pw := my thread_put_window in
          clip_index thread_put_index set_put_index pw ;;; continue (0, random)) Q g1 l.
Proof.
  intros Ht L L1 Hg Hpi Ha Hr Hst HQ. pose proof (ld_inv _ _ L) as HI. unfold put_index_ok in Hpi.
  wp_local. apply sync_tail_wp. intros g2 b y R2 I2 Hb. wp_local. apply my_wp. wp_local.
  apply (clip_wp thread_put_index set_put_index (Tail g2) _ y); [done|]. intros g3 R3 I3. wp_locals.
  pose proof (leads_then _ _ _ L1 R2 I2) as L2. pose proof (leads_rely g2 g3 R3 I3) as L3.
  pose proof (leads_trans _ _ _ L2 L3) as L13. apply HQ.
  apply (put_loop_sync g0 n (Tail g2) b y random g3 l); [done| | | | |done|done|].
  - by eapply leads_trans.
  - destruct Hg as (h & z & y' & Hg). exists h, z, y'. by eapply get_at_leads.
  - by apply (leads_lat_at g2).
  - by apply leads_tail.
  - intros Hs. rewrite (Hs _ _ R3), (Hs _ _ R2) in *.
    destruct (Hst Hs) as (E0 & Hgt & -> & E1 & E2 & E3 & E4).
    split; [done|split; [done|split; [done|split; [done|right]]]]. split; [done|].
    set (i := thread_put_index _). assert (Hi' : 0 <= i < mw).
    { unfold i. destruct (lwidth y <=? _); cbn; lia. }
    pose proof (leads_window g g1 _ x L1 (proj2 Ha)) as Hx1.
    pose proof (lw_top _ _ _ _ _ (inv_law g HI) i x Hi' (proj2 Ha)) as Htop.
    pose proof (windows_bottom mw _ _ _ _ _ (lw_windows _ _ _ _ _ (inv_law g1 I2)) Hx1 (proj2 Hb) Hgt) as Hb'.
    rewrite E1, <- E0. lia.
Qed.

(** The shift from a window that is full. *)
Lemma put_shift_wp g0 n k x random (Q : Z * Z + descriptor_t -> estate -> tls windows -> Prop) g l :
  thread_id l = t -> leads g0 g -> (exists h z y, get_at g l h z y) -> (still -> sized g0) ->
  put_loop_at g0 n k x (lwidth x) random g l ->
  lmax x <= put_row (subs g) (thread_put_index (thread_Window l)) ->
  (forall m c g' l', put_loop g0 m c g' l' -> (p_total P = true -> (m < n)%nat) -> Q (inl c) g' l') ->
  let w := thread_Window l in
  wp P t ((let* t := load_ltail in
           if thread_put_window w =? t then
             let* d := load_depth in
             let* max := load_info lmax (thread_put_window w) in
             let* w' := load_width in
             shift_put (thread_put_window w) (u64 (max + d)) d w'
           else Ret tt) ;;;
          sync_tail ;;;
          let* pw := my thread_put_window in
          clip_index thread_put_index set_put_index pw ;;;
          continue (0, random)) Q g l.
Proof.
  intros Ht L Hg Hsz HJ Hfull HQ w. pose proof HJ as (Hp & Hi & Hh & Hr & Hhr & Hseen & Hst).
  pose proof Hp as (Ha & Eptr & Hk). pose proof (ld_inv _ _ L) as HI.
  pose proof (window_width g k x HI (proj2 Ha)) as Hw.
  assert (Hall : forall j, 0 <= j < lwidth x -> lmax x <= put_row (subs g) j).
  { intros j Hj. by apply (seen_all _ _ _ _ Hseen (Z.le_refl _) j Hj). }
  assert (Hbefore : still -> subs g = subs g0 /\ Head g = Head g0 /\ k = Tail g /\ length (ws g) = S k /\
    unchanged g0 g /\ (0 < n)%nat).
  { intros Hs. destruct (Hst Hs) as (E1 & E2 & E3 & E4 & [[E5 ?]|[_ ?]]); [|lia].
    do 5 (split; [done|]). lia. }
  assert (Hend : forall g1, leads g g1 ->
    (still -> (k < Tail g1)%nat /\ subs g1 = subs g0 /\ Head g1 = Head g0 /\ length (ws g1) = S (Tail g1) /\ added g0 g1) ->
    wp P t (sync_tail ;;; let* pw := my thread_put_window in
            clip_index thread_put_index set_put_index pw ;;; continue (0, random)) Q g1 l).
  { intros g1 L1 Hs1. apply (put_resync_wp g0 (Nat.pred n) k x random Q g g1 l); [done|done|done|done| |done|done|..].
    - unfold put_index_ok. lia.
    - intros Hs. destruct (Hbefore Hs) as (E1 & _ & E3 & _). by destruct (Hs1 Hs).
    - intros g' l' HJ'. apply (HQ (Nat.pred n)); [done|].
      intros Htot. destruct (Hbefore (alone_still Htot)) as (_ & _ & _ & _ & _ & ?). lia. }
  wp_local. wp_local. apply (lat_rule wp_load_ltail). intros g1 a x1 R1 I1 O1 Ea Hx1.
  pose proof (leads_rely g g1 R1 I1) as L1. pose proof (leads_lat_at _ _ _ _ _ L1 Ha) as Ha1.
  assert (Hst1 : still -> g1 = g) by (intros Hs; by rewrite (Hs _ _ R1)).
  fold w in Ha, Ha1. destruct (Z.eqb_spec (thread_put_window w) a) as [<-|Hne].
  2: { wp_local. apply Hend; [done|]. intros Hs. exfalso. rewrite (Hst1 Hs) in *.
    destruct (Hbefore Hs) as (_ & _ & -> & _). destruct Hx1 as [Hx1 _]. destruct Ha as [Ha _]. congruence. }
  wp_local. unfold load_depth, load_width. apply wp_load_var; [apply _|]. intros g2 R2 I2 _.
  destruct (inv_rest g2 I2) as [Hd _]. wp_local.
  apply (info_wp lmax k _ x); [by apply ((lat_rule lrely_at) g1 g2)|]. intros g3 R3 I3.
  wp_local. apply wp_load_var; [apply _|]. intros g4 R4 I4 _. destruct (inv_rest g4 I4) as [_ Hw4].
  assert (R14 : p_rely P t g1 g4).
  { apply (rely_trans (P := P) t g1 g2 g4); [done|]. by apply (rely_trans (P := P) t g2 g3 g4). }
  pose proof (leads_then _ _ _ L1 R14 I4) as L4. pose proof (leads_tail _ _ L4).
  apply (shift_put_wp k _ x); [done|done|by apply (leads_lat_at g)|lia| |done|done|..].
  - intros i Hi'. specialize (Hall i Hi'). pose proof (leads_put_row g g4 i HI L4 ltac:(lia)). lia.
  - intros g5 L5 O5 Hws. pose proof (leads_window _ _ k x L5 (proj2 (leads_lat_at _ _ _ _ _ L4 Ha))) as Hx5.
    assert (Hb : Z.of_nat (length (ws g5)) * 2 ^ 16 < 2 ^ 63).
    { destruct Hmode as [Hs|Hok]; [|destruct (Hok g5 O5) as [[? _] _]; lia].
      destruct (Hbefore Hs) as (_ & _ & _ & _ & [_ E5] & _).
      rewrite (Hws Hs), (Hs _ _ R14), (Hst1 Hs), E5. specialize (Hsz Hs). unfold sized in Hsz. lia. }
    destruct (windows_bound _ _ _ _ (lw_windows _ _ _ _ _ (inv_law g5 (ld_inv _ _ L5))) Hx5) as [? Hb'].
    apply lookup_lt_Some in Hx5. unfold bottom in *. cbn [lmax ldepth]. rewrite wrap_small by lia. lia.
  - intros g5 L5 Hgt Hs5. apply Hend; [by eapply leads_trans|]. intros Hs.
    destruct (Hbefore Hs) as (E1 & E2 & E3 & E4 & [Er Ew] & _). destruct (Hs5 Hs) as (F1 & F2 & F3 & F4).
    rewrite (Hs _ _ R4), (Hs _ _ R3), (Hs _ _ R2), (Hst1 Hs) in *. destruct (F4 E4) as [F5 F6].
    split; [done|split; [congruence|split; [congruence|split]]].
    + rewrite F5, F6, length_app. cbn. lia.
    + split; [congruence|]. eexists. by rewrite F5, Ew, <- Er.
Qed.

Lemma law_put_window_body_wp g0 n hops random (Q : Z * Z + descriptor_t -> estate -> tls windows -> Prop) g l :
  (still -> sized g0) -> put_loop g0 n (hops, random) g l ->
  (forall d g' l', put_window_post g0 d g' l' -> Q (inr d) g' l') ->
  (forall m c g' l', put_loop g0 m c g' l' -> (p_total P = true -> (m < n)%nat) -> Q (inl c) g' l') ->
  wp P t (put_window_body set (hops, random)) Q g l.
Proof.
  intros Hsz (Ht & L & Hg & k & x & HJ) HQ HQ'. pose proof (ld_inv _ _ L) as HI.
  pose proof HJ as (Hp & Hi & Hh & Hr & Hhr & Hseen & Hst). pose proof Hp as (Ha & Eptr & Hk).
  pose proof (window_width g k x HI (proj2 Ha)) as Hw. set (i := thread_put_index (thread_Window l)) in *.
  unfold put_window_body. wp_local. apply my_wp. wp_local. apply put_read_wp; [lia|].
  intros g1 p d R1 I1 Hd1 Hdp. wp_local. apply (lat_rule wp_load_ltail). intros g2 a z R2 I2 _ _ Hz.
  wp_local. apply my_wp.
  pose proof (leads_rely g1 g2 R2 I2) as L12. pose proof (leads_trans _ _ _ (leads_rely g g1 R1 I1) L12) as L2.
  assert (Hst2 : still -> g2 = g) by (intros Hs; by rewrite (Hs _ _ R2), (Hs _ _ R1)).
  pose proof (leads_lat_at _ _ _ _ _ L2 Ha) as Ha2. pose proof (leads_trans _ _ _ L L2) as L02.
  rewrite Eptr. destruct (Z.eqb_spec a (thread_put_window (thread_Window l))) as [->|Hne]; cbn [negb].
  2: { wp_local. wp_local. wp_local. apply (clip_wp thread_put_index set_put_index (Tail g2) _ z); [done|].
    intros g3 R3 I3. wp_locals. pose proof (leads_rely g2 g3 R3 I3) as L3.
    apply (HQ' (Nat.pred n)).
    - apply (put_loop_sync g0 _ (Tail g2) a z random g3 l); [done|by eapply leads_trans| | | | |lia|].
      + destruct Hg as (h & z' & y & Hg). exists h, z', y. eapply get_at_leads; [|exact Hg]. by eapply leads_trans.
      + by apply (leads_lat_at g2).
      + by apply leads_tail.
      + unfold put_index_ok. lia.
      + intros Hs. destruct Hne. rewrite (Hst2 Hs) in *. destruct (Hst Hs) as (_ & _ & E3 & _).
        rewrite E3 in Ha. destruct Ha, Hz; congruence.
    - intros Htot. destruct Hne. rewrite (Hst2 (alone_still Htot)) in *.
      destruct (Hst (alone_still Htot)) as (_ & _ & E3 & _). rewrite E3 in Ha. destruct Ha, Hz; congruence. }
  wp_local. apply my_wp. wp_local. apply (info_wp lmax k _ x); [done|]. intros g3 R3 I3.
  pose proof (leads_rely g2 g3 R3 I3) as L3. pose proof (leads_trans _ _ _ L2 L3) as L13.
  assert (Hst3 : still -> g3 = g) by (intros Hs; by rewrite (Hs _ _ R3), (Hst2 Hs)).
  pose proof (put_read_leads g1 g3 i p d I1 ltac:(lia) (leads_trans _ _ _ L12 L3) Hd1) as Hd3.
  destruct (Z.ltb_spec (dcount d) (lmax x)) as [Hlt|Hge].
  - wp_local. apply (info_wp lwidth k _ x); [by apply (leads_lat_at g)|]. intros g4 R4 I4. wp_local.
    apply wp_assert; [lia|]. wp_local.
    pose proof (leads_then _ _ _ L13 R4 I4) as L4.
    assert (Hst4 : still -> g4 = g) by (intros Hs; by rewrite (Hs _ _ R4), (Hst3 Hs)).
    pose proof (put_read_leads g3 g4 i p d I3 ltac:(lia) (leads_rely _ _ R4 I4) Hd3) as Hd4.
    destruct Hg as (h & z' & y & Hg). pose proof (get_at_leads _ _ _ _ _ _ L4 Hg) as Hg4.
    pose proof (put_at_leads _ _ _ _ _ L4 Hp) as Hp4.
    assert (Hend : forall g5 l5, leads g4 g5 -> (still -> g5 = g4) -> thread_id l5 = t ->
      put_at g5 l5 k x -> thread_put_index (thread_Window l5) = i -> get_at g5 l5 h z' y -> Q (inr d) g5 l5).
    { intros g5 l5 L5 Hst5 Ht5 Hp5 Hi5 Hg5. apply HQ. split; [exact (leads_trans _ _ _ L (leads_trans _ _ _ L4 L5))|]. split.
      - split; [done|]. unfold put_index_ok. rewrite Hi5. split; [lia|]. split; [by exists k, x|by exists h, z', y].
      - exists p, k, x. rewrite Hi5. split; [done|]. split; [by apply (put_read_leads g4 g5); [|lia|..]|].
        split; [done|split; [done|]]. intros Hs. rewrite (Hst5 Hs), (Hst4 Hs).
        destruct (Hst Hs) as (E1 & E2 & E3 & E4 & E5).
        split; [|do 4 (split; [done|])]. { destruct Hd1 as (_ & Hd1 & _). rewrite (Hs _ _ R1) in Hd1. fold i in Hd1, Hdp. lia. }
        destruct E5 as [[? _]|[? _]]; [by left|by right]. }
    apply (sync_index_wp _ _ _ h z' y k x); [done|done|done|..].
    + intros g5 L5 Hst5. wp_locals. apply Hend; try done; [by eapply put_at_leads|by eapply get_at_leads].
    + intros g5 L5 Hst5 Ew. wp_locals. apply Hend; try done; [by eapply put_at_leads|].
      destruct (get_at_leads _ _ _ _ _ _ L5 Hg4) as (? & ? & ? & ? & _).
      do 4 (split; [done|]). cbn. fold i. lia.
  - wp_local. apply (info_wp lwidth k _ x); [by apply (leads_lat_at g)|]. intros g4 R4 I4.
    pose proof (leads_then _ _ _ L13 R4 I4) as L4.
    assert (Hst4 : still -> g4 = g) by (intros Hs; by rewrite (Hs _ _ R4), (Hst3 Hs)).
    pose proof (put_loop_leads g0 n k x hops random g g4 l HI HJ L4 Hst4) as HJ4.
    assert (Hfull : lmax x <= put_row (subs g4) i).
    { destruct (put_read_leads g3 g4 i p d I3 ltac:(lia) (leads_rely _ _ R4 I4) Hd3) as (_ & _ & _ & ?). lia. }
    assert (Hg4 : exists h z y, get_at g4 l h z y).
    { destruct Hg as (h & z' & y & Hg). exists h, z', y. by eapply get_at_leads. }
    pose proof (leads_trans _ _ _ L L4) as L04.
    destruct (Z.ltb_spec hops (lwidth x)) as [Hlt|Hge'].
    + by apply (put_hop_wp g0 n k x hops random).
    + assert (hops = lwidth x) as -> by lia.
      by apply (put_shift_wp g0 n k x random).
Qed.

(** The thread-local variables after the put window was synchronised. *)
Lemma law_put_loop_start g0 g l k x :
  p_inv P g -> thread_id l = t -> leads g0 g -> (exists h z y, get_at g l h z y) -> put_at g l k x ->
  0 <= thread_put_index (thread_Window l) < lwidth x ->
  (still -> g = g0 /\ k = Tail g /\ length (ws g) = S k) ->
  put_loop g0 (S (Z.to_nat (lwidth x + random_hops set))) (0, 0) g l.
Proof.
  intros HI Ht L Hg Hp Hi Hs. pose proof (window_width g k x HI (proj2 (proj1 Hp))). destruct Hset.
  split; [done|split; [done|split; [done|]]]. exists k, x. split; [done|]. split; [done|].
  split; [lia|split; [lia|split; [lia|split]]]; [apply seen_none; lia|].
  intros Hst. destruct (Hs Hst) as (-> & E1 & E2). do 2 (split; [done|]). split; [done|split; [done|]].
  left. split; [done|lia].
Qed.

Lemma law_put_window_wp contention (Q : descriptor_t -> estate -> tls windows -> Prop) g l :
  p_inv P g -> thread_ok g l -> (still -> sized g /\ length (ws g) = S (Tail g)) ->
  (forall d g' l', put_window_post g d g' l' -> Q d g' l') ->
  wp P t (put_window set contention) Q g l.
Proof.
  intros HI (Ht & Hpi & _ & Hg) Hs HQ. unfold put_window. wp_local. apply sync_tail_wp.
  intros g1 a x R1 I1 Hx. wp_local. apply my_wp. wp_local.
  pose proof (window_width g1 _ x I1 (proj2 Hx)) as Hw.
  set (l1 := upd (set_put_window a) l). set (i := thread_put_index (thread_Window l)) in *.
  (* The loop, from any index of the window. *)
  assert (Hloop : forall g2 r s st, p_rely P t g1 g2 -> p_inv P g2 -> 0 <= r < lwidth x ->
    wp P t (while (put_window_body set) (0, 0)) Q g2 (upd (set_put_index r) (with_rng s st l1))).
  { intros g2 r s st R2 I2 Hr. pose proof (leads_then _ _ _ (leads_rely g g1 R1 I1) R2 I2) as L2.
    pose proof (leads_rely g1 g2 R2 I2) as L12.
    eapply (wp_while P t _ _ _ _ (fun n c => put_loop g n c)).
    - apply (law_put_loop_start g g2 _ (Tail g1) x); [done|done|done| | |done|].
      + destruct Hg as (h & z & y & Hg). exists h, z, y. exact (get_at_leads _ _ _ _ _ _ L2 Hg).
      + split; [by apply (leads_lat_at g1)|split; [done|by apply leads_tail]].
      + intros Hst. rewrite (Hst _ _ R2), (Hst _ _ R1). split; [done|split; [done|]]. by apply Hs.
    - intros n [hops random] g3 l3 HJ. apply (law_put_window_body_wp g n hops random); [by intros; apply Hs|done|..].
      + intros d g4 l4 Hp. wp_locals. by apply HQ.
      + intros m c g4 l4 HJ4 Hm. by exists m. }
  assert (Hkeep : forall g2, p_rely P t g1 g2 -> p_inv P g2 -> i < lwidth x ->
    wp P t (while (put_window_body set) (0, 0)) Q g2 l1).
  { intros g2 R2 I2 Hlt. unfold put_index_ok in Hpi. fold i in Hpi.
    specialize (Hloop g2 i (seeds l) (stats l) R2 I2 ltac:(lia)).
    replace (upd (set_put_index i) (with_rng (seeds l) (stats l) l1)) with l1 in Hloop; [done|].
    unfold l1, upd, i. destruct l as [? [] ???]. reflexivity. }
  assert (Hredraw : forall g2, p_rely P t g1 g2 -> p_inv P g2 ->
    wp P t (let* w := load_info lwidth a in let* r := random_index w in put (upd (set_put_index r)))
      (fun _ g l => wp P t (while (put_window_body set) (0, 0)) Q g l) g2 l1).
  { intros g2 R2 I2. wp_local. apply (info_wp lwidth (Tail g1) a x); [by apply ((lat_rule lrely_at) g1)|].
    intros g3 R3 I3. wp_local. apply random_wp; [done|]. intros r s Hr. wp_locals.
    apply Hloop; [|done|done]. by apply (rely_trans (P := P) t g1 g2 g3). }
  destruct contention.
  - wp_locals. apply Hredraw; [apply (rely_refl (P := P))|done].
  - wp_local. wp_local. apply my_wp. fold i. change (thread_put_index (thread_Window l1)) with i.
    change (thread_put_window (set_put_window a (thread_Window l))) with a.
    wp_local. apply (info_wp lwidth (Tail g1) a x); [done|]. intros g2 R2 I2. wp_local.
    destruct (Z.leb_spec (lwidth x) i); [by apply Hredraw|]. wp_locals. by apply Hkeep.
Qed.

(** *** [get_window] *)

Lemma shift_get_wp h a z b x (Q : unit -> estate -> tls windows -> Prop) g l :
  p_inv P g -> lat_at (latof g) h a z -> lat_at (latof g) (S h) b x -> (S h < Tail g)%nat -> (h <= Head g)%nat ->
  (forall g', leads g g' -> (h < Head g')%nat ->
     (still -> subs g' = subs g /\ unchanged g g' /\ Tail g' = Tail g /\ (Head g = h -> Head g' = S h)) ->
     Q tt g' l) ->
  wp P t (shift_get a) Q g l.
Proof.
  intros HI Ha Hb Hlt Hh HQ. unfold shift_get. wp_local.
  apply ((lat_rule wp_load_lnext_known) h a z b x); [done|done|]. intros g1 R1 I1. wp_local.
  pose proof (leads_rely g g1 R1 I1) as L1. pose proof (leads_lat_at _ _ _ _ _ L1 Hb) as Hb1.
  destruct (lat_node _ _ _ _ (inv_lat g1 I1) Hb1) as [Hb0 _].
  apply wp_assert; [by rewrite (proj2 (Z.eqb_neq _ _) Hb0)|]. wp_local.
  apply ((lat_rule wp_load_lnext_known) h a z b x); [by apply (leads_lat_at g)|done|]. intros g2 R2 I2. wp_local.
  pose proof (leads_then _ _ _ L1 R2 I2) as L2.
  apply ((lat_step wp_cae_lhead) h a z (S h) b x); [by apply (leads_lat_at g)|by apply (leads_lat_at g)|lia|..].
  - intros g3 m R3 I3 Eh Ec Ei Et Eh' Hm. pose proof (leads_then _ _ _ L2 R3 I3) as L3.
    pose proof (leads_tail _ _ L3). unfold law. cbn [set_lat window lat subs set_window]. rewrite Ei, Eh'.
    replace (ltail_pos m) with (Tail g3) by (unfold ltail_pos, lpos; by rewrite Ec, Et).
    apply (law_head mw _ _ (Head g3)); [by apply inv_law|lia].
  - intros g3 m R3 I3 g4 I4 Eh Ec Ei Et Eh' He. wp_locals. pose proof (leads_then _ _ _ L2 R3 I3) as L3.
    apply HQ.
    + eapply leads_trans; [exact L3|]. by apply leads_lat.
    + cbn. lia.
    + intros Hs. unfold unchanged. cbn [set_lat window lat rest subs set_window g4]. rewrite Ei, Et, Eh'.
      by rewrite (Hs _ _ R3), (Hs _ _ R2), (Hs _ _ R1).
  - intros g3 R3 I3 Hne. wp_locals. pose proof (leads_then _ _ _ L2 R3 I3) as L3.
    pose proof (ld_lat _ _ L3) as [_ _ _ Hle]. apply HQ; [done|lia|]. intros Hs.
    rewrite (Hs _ _ R3), (Hs _ _ R2), (Hs _ _ R1) in *. done.
Qed.

(** Nothing to take from sub-queue [j] in the get window [x], the one after
    the [h]-th. *)
Definition get_stuck g (h : nat) (x : lateral_node_t) (j : Z) : Prop :=
  lmax x <= get_row (subs g) j \/ S h = Tail g /\ put_row (subs g) j <= get_row (subs g) j.

(** For a thread alone only the head of the lateral queue moves. *)
Definition get_frame g0 g (h kp : nat) : Prop :=
  subs g = subs g0 /\ unchanged g0 g /\ Tail g = Tail g0 /\ h = Head g /\ kp = Tail g /\
  (drained mw (ws g0) (Head g0) (subs g0) -> drained mw (ws g) (Head g) (subs g)).

(** [n] bounds the iterations to come. *)
Definition get_left g (h : nat) (x : lateral_node_t) (hops random : Z) : nat :=
  Z.to_nat ((Z.of_nat (Tail g) - Z.of_nat (S h)) * (mw + random_hops set + 1) +
    (lwidth x - hops + random_hops set - random)).

Definition get_loop_at g0 (n kp h : nat) (xp z x : lateral_node_t) (hops random : Z) g l : Prop :=
  put_at g l kp xp /\ get_at g l h z x /\ 0 <= hops < 2 ^ 16 /\ 0 <= random <= random_hops set /\
  (still -> get_frame g0 g h kp /\ hops <= lwidth x /\ (0 < hops -> random = random_hops set) /\
     seen (lwidth x) (thread_get_index (thread_Window l)) hops (get_stuck g h x) /\
     (get_left g h x hops random < n)%nat).
Definition get_loop g0 (n : nat) '((hops, random) : Z * Z) g l : Prop :=
  thread_id l = t /\ leads g0 g /\ put_index_ok l /\
  exists kp h xp z x, get_loop_at g0 n kp h xp z x hops random g l.

(** What [get_window] returns: an entry that may have something for the get
    window, or, when the get window is the put window, any. *)
Definition get_window_post g0 (d : descriptor_t) g l : Prop :=
  leads g0 g /\ thread_ok g l /\
  exists p kp h xp z x, put_at g l kp xp /\ get_at g l h z x /\
    get_read g (thread_get_index (thread_Window l)) p d /\
    (dcount d < lmax x \/ (kp <= S h)%nat) /\
    (still -> get_frame g0 g h kp /\ lookup_get (thread_get_index (thread_Window l)) g = Some d /\
       (dcount d < lmax x /\
          (S h = Tail g -> dcount d < put_row (subs g) (thread_get_index (thread_Window l))) \/
        S h = Tail g /\ forall j, 0 <= j < lwidth x -> get_stuck g h x j)).

(** The thread's get window after a synchronisation. *)
Definition synced_get (a b : Z) (x : lateral_node_t) l : tls windows :=
  let l1 := upd (set_get_window a b) l in
  if lwidth x <=? thread_get_index (thread_Window l1) then upd (set_get_index 0) l1 else l1.

Lemma synced_get_ok g a b h z x l :
  p_inv P g -> lat_at (latof g) h a z -> lat_at (latof g) (S h) b x -> (h <= Head g)%nat ->
  0 <= thread_get_index (thread_Window l) -> thread_id l = t -> put_index_ok l ->
  let l' := synced_get a b x l in
  thread_id l' = t /\ put_index_ok l' /\ get_at g l' h z x /\ forall k y, put_at g l k y -> put_at g l' k y.
Proof.
  intros HI Ha Hb Hh Hi Ht Hpi l'. pose proof (window_width g (S h) x HI (proj2 Hb)) as Hw.
  pose proof (lw_head _ _ _ _ _ (inv_law g HI)).
  assert (E : thread_id l' = t /\ thread_Window l' =
    set_get_index (if lwidth x <=? thread_get_index (thread_Window l) then 0 else thread_get_index (thread_Window l))
      (set_get_window a b (thread_Window l))).
  { unfold l', synced_get. cbn. by destruct (lwidth x <=? _). }
  destruct E as [E1 E2]. split; [done|split; [unfold put_index_ok in *; by rewrite E2|split]].
  - unfold get_at. rewrite E2. cbn. split; [done|split; [done|split; [lia|split; [done|]]]].
    destruct (Z.leb_spec (lwidth x) (thread_get_index (thread_Window l))); lia.
  - intros k y Hp. unfold put_at in *. by rewrite E2.
Qed.

(** Looking at a new get window. *)
Lemma get_loop_sync g0 n kp xp h a b z x hops random g l :
  thread_id l = t -> leads g0 g -> put_index_ok l -> put_at g l kp xp ->
  lat_at (latof g) h a z -> lat_at (latof g) (S h) b x -> (h <= Head g)%nat ->
  0 <= thread_get_index (thread_Window l) -> 0 <= hops < 2 ^ 16 -> 0 <= random <= random_hops set ->
  (still -> get_frame g0 g h kp /\ hops = 0 /\ (get_left g h x 0 random < n)%nat) ->
  get_loop g0 n (hops, random) g (synced_get a b x l).
Proof.
  intros Ht L Hpi Hp Ha Hb Hh Hi Hhops Hr Hst. pose proof (ld_inv _ _ L) as HI.
  pose proof (window_width g (S h) x HI (proj2 Hb)) as Hw.
  destruct (synced_get_ok g a b h z x l HI Ha Hb Hh Hi Ht Hpi) as (E1 & E2 & E3 & E4).
  split; [done|split; [done|split; [done|]]]. exists kp, h, xp, z, x.
  split; [by apply E4|split; [done|split; [done|split; [done|]]]].
  intros Hs. destruct (Hst Hs) as (Hf & -> & Hn). split; [done|split; [lia|split; [lia|]]].
  split; [apply seen_none; lia|done].
Qed.

Lemma get_hop_wp g0 n kp h xp z x hops random (Q : Z * Z + descriptor_t -> estate -> tls windows -> Prop) g l :
  thread_id l = t -> leads g0 g -> put_index_ok l -> get_loop_at g0 n kp h xp z x hops random g l ->
  hops <> lwidth x -> (still -> get_stuck g h x (thread_get_index (thread_Window l))) ->
  (forall m c g' l', get_loop g0 m c g' l' -> (p_total P = true -> (m < n)%nat) -> Q (inl c) g' l') ->
  wp P t (let* (index, random, hops) := hop set (thread_get_index (thread_Window l)) random hops (lwidth x) in
          put (upd (set_get_index index)) ;;; continue (hops, random)) Q g l.
Proof.
  intros Ht L Hpi HJ Hne Hstuck HQ. pose proof HJ as (Hp & Hg & Hh & Hr & Hst).
  pose proof Hg as (Ha & Hb & HhT & HhH & Hi). pose proof (window_width g _ x (ld_inv _ _ L) (proj2 Hb)) as Hw.
  destruct Hset as [Hmw _].
  assert (Hend : forall m r hops' random' s st, 0 <= r < lwidth x -> 0 <= hops' < 2 ^ 16 ->
    0 <= random' <= random_hops set ->
    (still -> hops' <= lwidth x /\ (0 < hops' -> random' = random_hops set) /\
       seen (lwidth x) r hops' (get_stuck g h x) /\ (get_left g h x hops' random' < m < n)%nat) ->
    Q (inl (hops', random')) g (upd (set_get_index r) (with_rng s st l))).
  { intros m r hops' random' s st Hr' Hh' Hrr Hst'. apply (HQ m).
    - split; [done|split; [done|split; [done|]]]. exists kp, h, xp, z, x. split; [exact Hp|].
      split; [split; [done|split; [done|split; [done|split; [done|exact Hr']]]]|].
      split; [done|split; [done|]]. intros Hs. destruct (Hst Hs) as (Hf & _).
      destruct (Hst' Hs) as (? & ? & ? & ? & _). done.
    - intros Htot. by destruct (Hst' (alone_still Htot)) as (_ & _ & _ & _ & ?). }
  assert (Hleft : forall hops' random', hops <= lwidth x -> hops' <= lwidth x ->
    random <= random_hops set -> random' <= random_hops set ->
    (hops' = hops /\ random' = random + 1 \/ hops' = hops + 1 /\ random' = random) ->
    (get_left g h x hops random < n)%nat -> (get_left g h x hops' random' < Nat.pred n < n)%nat).
  { intros hops' random' ? ? ? ? Hor. unfold get_left.
    set (A' := (Z.of_nat (Tail g) - Z.of_nat (S h)) * (mw + random_hops set + 1)).
    assert (0 <= A') by (unfold A'; apply Z.mul_nonneg_nonneg; lia). lia. }
  wp_local. apply hop_wp; [done|done|done|..].
  - intros r s st Hrw Hlt'. wp_locals. apply (Hend (Nat.pred n)); [done|done|lia|]. intros Hs.
    destruct (Hst Hs) as (_ & Hhw & Hhr & _ & Hn).
    assert (hops = 0) as -> by (destruct (decide (0 < hops)); [specialize (Hhr ltac:(lia))|]; lia).
    split; [done|split; [lia|split; [apply seen_none; lia|]]].
    apply Hleft; [lia|lia|lia|lia|by left|done].
  - intros s st Er. wp_locals. apply (Hend (Nat.pred n)); [apply next_index_range; lia|by apply wrap_range|lia|].
    intros Hs. destruct (Hst Hs) as (_ & Hhw & Hhr & Hseen & Hn). rewrite wrap_small by lia.
    split; [lia|split; [lia|split; [apply seen_next; [done|by apply Hstuck|done]|]]].
    apply Hleft; [lia|lia|lia|lia|by right|done].
Qed.

(** The end of the iteration after the get window has changed. *)
Lemma get_resync_wp g0 n kp xp hops random (Q : Z * Z + descriptor_t -> estate -> tls windows -> Prop) k a z g l :
  thread_id l = t -> leads g0 g -> put_index_ok l -> put_at g l kp xp ->
  lat_at (latof g) k a z -> (k <= Head g)%nat ->
  0 <= thread_get_index (thread_Window l) -> 0 <= hops < 2 ^ 16 -> 0 <= random <= random_hops set ->
  (forall x, ws g !! S k = Some x -> still -> get_frame g0 g k kp /\ hops = 0 /\ (get_left g k x 0 random < n)%nat) ->
  (forall c g' l', get_loop g0 n c g' l' -> Q (inl c) g' l') ->
  forall checked : bool,
  wp P t (sync_head a ;;;
          let* gw := my thread_get_window in
          (if checked then assert_ (negb (gw =? 0)) else Ret tt) ;;;
          clip_index thread_get_index set_get_index gw ;;;
          continue (hops, random)) Q g l.
Proof.
  intros Ht L Hpi Hp Ha Hk Hi Hhops Hr Hst HQ checked. pose proof (ld_inv _ _ L) as HI. wp_local.
  apply (sync_head_wp k a z); [done|done|done|]. intros g1 b x R1 I1 Hb Hb0. wp_local. apply my_wp. wp_local.
  pose proof (leads_rely g g1 R1 I1) as L1. change (thread_get_window (thread_Window (upd (set_get_window a b) l))) with b.
  assert (Hclip : wp P t (clip_index thread_get_index set_get_index b ;;; continue (hops, random)) Q g1
    (upd (set_get_window a b) l)).
  { wp_local. apply (clip_wp thread_get_index set_get_index (S k) b x); [done|]. intros g2 R2 I2. wp_locals.
    pose proof (leads_then _ _ _ L1 R2 I2) as L2. pose proof (leads_rely _ _ R2 I2) as L12. apply HQ.
    apply (get_loop_sync g0 n kp xp k a b z x hops random g2 l); [done|exact (leads_trans _ _ _ L L2)|done|exact (put_at_leads _ _ _ _ _ L2 Hp)| | | |done|done|done|].
    - by apply (leads_lat_at g).
    - by apply (leads_lat_at g1).
    - pose proof (ld_lat _ _ L2) as [_ _ _ ?]. lia.
    - intros Hs. rewrite (Hs _ _ R2), (Hs _ _ R1). apply Hst; [|done].
      rewrite <- (Hs _ _ R1). exact (proj2 Hb). }
  destruct checked; [|by wp_local]. apply wp_assert; [by rewrite (proj2 (Z.eqb_neq _ _) Hb0)|]. exact Hclip.
Qed.

(** Nothing found in the whole of the get window. *)
Lemma law_get_shift_wp g0 n kp h xp z x random d (Q : Z * Z + descriptor_t -> estate -> tls windows -> Prop) g l :
  thread_id l = t -> leads g0 g -> put_index_ok l -> get_loop_at g0 n kp h xp z x (lwidth x) random g l ->
  (still -> get_stuck g h x (thread_get_index (thread_Window l))) ->
  (forall g', leads g g' -> (still -> g' = g) -> (kp <= S h)%nat ->
     (still -> S h = Tail g /\ forall j, 0 <= j < lwidth x -> get_stuck g h x j) -> Q (inr d) g' l) ->
  (forall m c g' l', get_loop g0 m c g' l' -> (p_total P = true -> (m < n)%nat) -> Q (inl c) g' l') ->
  let w := thread_Window l in
  wp P t (let* t := load_ltail in
          if negb (thread_get_window w =? t) then
            let* next := load_lnext (thread_get_window w) in
            assert_ (negb (next =? 0)) ;;;
            shift_get (thread_lhead_pointer w) ;;;
            let* lat_head := load_lhead in
            sync_head lat_head ;;;
            let* gw := my thread_get_window in
            assert_ (negb (gw =? 0)) ;;;
            clip_index thread_get_index set_get_index gw ;;;
            continue (0, random)
          else break d) Q g l.
Proof.
  intros Ht L Hpi (Hp & Hg & Hh & Hr & Hst) Hstuck HQ HQ' w.
  pose proof Hg as (Ha & Hb & HhT & HhH & Hi). pose proof (ld_inv _ _ L) as HI. fold w in Ha, Hb, Hi.
  assert (Hall : still -> forall j, 0 <= j < lwidth x -> get_stuck g h x j).
  { intros Hs j Hj. destruct (Hst Hs) as (_ & _ & _ & Hseen & _).
    exact (seen_all _ _ _ _ Hseen (Z.le_refl _) j Hj). }
  wp_local. apply (lat_rule wp_load_ltail). intros g1 a y R1 I1 _ _ Hy.
  pose proof (leads_rely g g1 R1 I1) as L1. pose proof (leads_tail _ _ L1) as HT1.
  pose proof (leads_lat_at _ _ _ _ _ L1 Hb) as Hb1. pose proof (leads_lat_at _ _ _ _ _ L1 Ha) as Ha1.
  assert (Hst1 : still -> g1 = g) by (intros Hs; by rewrite (Hs _ _ R1)).
  destruct (Z.eqb_spec (thread_get_window w) a) as [<-|Hne]; cbn [negb].
  - wp_local. pose proof (lat_pos_inj _ _ _ _ (inv_lat g1 I1) (proj1 Hb1) (proj1 Hy)) as E.
    apply HQ; [done|done| |].
    + destruct Hp as (_ & _ & Hp). lia.
    + intros Hs. rewrite (Hst1 Hs) in E. split; [done|by apply Hall].
  - assert (Hlt : (S h < Tail g1)%nat).
    { destruct (decide (S h = Tail g1)) as [E|]; [|lia]. rewrite <- E in Hy. destruct Hy, Hb1; congruence. }
    wp_local. pose proof (lw_tail _ _ _ _ _ (inv_law g1 I1)) as Hlen1.
    destruct (lat_at_exists (latof g1) (S (S h)) (inv_lat g1 I1)) as (c & y' & Hc).
    { rewrite <- (li_infos _ (inv_lat g1 I1)). lia. }
    apply ((lat_rule wp_load_lnext_known) (S h) _ x c y'); [done|done|]. intros g2 R2 I2. wp_local.
    pose proof (leads_rely g1 g2 R2 I2) as L2. pose proof (leads_lat_at _ _ _ _ _ L2 Hc) as Hc2.
    destruct (lat_node _ _ _ _ (inv_lat g2 I2) Hc2) as [Hc0 _].
    apply wp_assert; [by rewrite (proj2 (Z.eqb_neq _ _) Hc0)|]. wp_local.
    pose proof (leads_tail _ _ L2) as HT2. pose proof (ld_lat _ _ (leads_trans _ _ _ L1 L2)) as [_ _ _ HH2].
    apply (shift_get_wp h (thread_lhead_pointer w) z (thread_get_window w) x); [done|by apply (leads_lat_at g1)|by apply (leads_lat_at g1)|lia|lia|].
    intros g3 L3 Hgt Hs3. wp_local. apply (lat_rule wp_load_lhead). intros g4 b y4 R4 I4 _ Hb4.
    pose proof (leads_then _ _ _ L3 R4 I4) as L4.
    pose proof (leads_trans _ _ _ L1 (leads_trans _ _ _ L2 L4)) as L14.
    apply (get_resync_wp g0 (Nat.pred n) kp xp 0 random Q (Head g4) b y4 g4 l)
      with (checked := true);
      [done|exact (leads_trans _ _ _ L L14)|done|exact (put_at_leads _ _ _ _ _ L14 Hp)|done|done|apply Hi|done|done|..].
    + intros x5 Hx5 Hs. destruct (Hst Hs) as ((E1 & [Er E2] & E3 & E4 & E5 & E6) & _ & _ & _ & Hn).
      destruct (Hs3 Hs) as (F1 & [Fr F2] & F3 & F4). rewrite (Hs _ _ R2), (Hst1 Hs) in *. rewrite (Hs _ _ R4) in *.
      specialize (F4 (eq_sym E4)). rewrite F4 in *. split; [|split; [done|]].
      * split; [congruence|split; [split; congruence|split; [congruence|split; [done|split; [congruence|]]]]].
        intros Hd. rewrite F4, F1, F2, E4. specialize (E6 Hd).
        apply (drained_shift mw _ _ _ _ (inv_law g HI)) with x; [done| |].
        -- rewrite <- E4. exact (proj2 Hb).
        -- intros j Hj. destruct (Hall Hs j Hj) as [|[? _]]; lia.
      * unfold get_left in *. rewrite F3.
        pose proof (window_width g3 _ x5 I4 Hx5). pose proof (window_width g _ x HI (proj2 Hb)). nia.
    + intros c5 g5 l5 HJ5. apply (HQ' (Nat.pred n)); [done|].
      intros Htot. destruct (Hst (alone_still Htot)) as (_ & _ & _ & _ & Hn). lia.
Qed.

(** The bound on what may be taken: alone, everything below the put window, and
    the tail's row otherwise. *)
Lemma get_bound_wp {R} kp h xp z x (K : Z -> ME R) (Q : R -> estate -> tls windows -> Prop) g l :
  (still -> sized g) -> p_inv P g -> put_at g l kp xp -> get_at g l h z x ->
  (forall g' v, leads g g' -> (still -> g' = g) ->
     (still -> if lmax x <? lmax xp then lmax x <= v
               else v = put_row (subs g) (thread_get_index (thread_Window l))) -> wp P t (K v) Q g' l) ->
  let w := thread_Window l in
  wp P t (let* pmax := load_info lmax (thread_put_window w) in
          let* gmax := load_info lmax (thread_get_window w) in
          let* put_count := (if gmax <? pmax then
              let* pmax := load_info lmax (thread_put_window w) in
              let* pdepth := load_info ldepth (thread_put_window w) in
              Ret (u64 (pmax - pdepth))
            else load_put dcount (thread_get_index w)) in
          K put_count) Q g l.
Proof.
  intros Hsz HI (Ha & _) (_ & Hb & _ & _ & Hi) HQ w. fold w in Ha, Hb, Hi.
  pose proof (window_width g _ x HI (proj2 Hb)).
  wp_local. apply (info_wp lmax kp _ xp); [done|]. intros g1 R1 I1. wp_local.
  pose proof (leads_rely g g1 R1 I1) as L1.
  apply (info_wp lmax (S h) _ x); [by apply (leads_lat_at g)|]. intros g2 R2 I2.
  pose proof (leads_then _ _ _ L1 R2 I2) as L2. wp_local.
  destruct (Z.ltb_spec (lmax x) (lmax xp)) as [Hlt|Hge].
  - wp_local. apply (info_wp lmax kp _ xp); [by apply (leads_lat_at g)|]. intros g3 R3 I3. wp_local.
    pose proof (leads_then _ _ _ L2 R3 I3) as L3.
    apply (info_wp ldepth kp _ xp); [by apply (leads_lat_at g)|]. intros g4 R4 I4. wp_local.
    apply HQ.
    + by eapply leads_then.
    + intros Hs. by rewrite (Hs _ _ R4), (Hs _ _ R3), (Hs _ _ R2), (Hs _ _ R1).
    + intros Hs. pose proof (lw_windows _ _ _ _ _ (inv_law g HI)) as Ho.
      destruct (windows_bound _ _ _ _ Ho (proj2 Ha)) as [? ?]. specialize (Hsz Hs). unfold sized in Hsz.
      pose proof (lookup_lt_Some _ _ _ (proj2 Ha)). fold (bottom xp). rewrite wrap_small by lia.
      destruct (decide (kp <= S h)%nat) as [Hle|].
      * pose proof (windows_max _ _ _ _ _ _ Ho (proj2 Ha) (proj2 Hb) Hle). lia.
      * pose proof (windows_bottom _ _ _ _ _ _ Ho (proj2 Hb) (proj2 Ha) ltac:(lia)). lia.
  - apply put_count_wp; [lia|]. intros g3 R3 I3. apply HQ.
    + by eapply leads_then.
    + intros Hs. by rewrite (Hs _ _ R3), (Hs _ _ R2), (Hs _ _ R1).
    + intros Hs. by rewrite (Hs _ _ R3), (Hs _ _ R2), (Hs _ _ R1).
Qed.

Lemma get_loop_leads g0 n kp h xp z x hops random g g' l :
  get_loop_at g0 n kp h xp z x hops random g l -> leads g g' -> (still -> g' = g) ->
  get_loop_at g0 n kp h xp z x hops random g' l.
Proof.
  intros (Hp & Hg & Hh & Hr & Hst) L Hs. split; [by eapply put_at_leads|split; [by eapply get_at_leads|]].
  split; [done|split; [done|]]. intros Hs'. rewrite (Hs Hs'). by apply Hst.
Qed.

Lemma law_get_window_body_wp g0 n hops random (Q : Z * Z + descriptor_t -> estate -> tls windows -> Prop) g l :
  (still -> sized g0) -> get_loop g0 n (hops, random) g l ->
  (forall d g' l', get_window_post g0 d g' l' -> Q (inr d) g' l') ->
  (forall m c g' l', get_loop g0 m c g' l' -> (p_total P = true -> (m < n)%nat) -> Q (inl c) g' l') ->
  wp P t (get_window_body set (hops, random)) Q g l.
Proof.
  intros Hsz (Ht & L & Hpi & kp & h & xp & z & x & HJ) HQ HQ'. pose proof (ld_inv _ _ L) as HI.
  pose proof HJ as (Hp & Hg & Hh & Hr & Hst). pose proof Hg as (Ha & Hb & HhT & HhH & Hi).
  pose proof (window_width g _ x HI (proj2 Hb)) as Hw. set (i := thread_get_index (thread_Window l)) in *.
  assert (Hsz' : still -> sized g).
  { intros Hs. destruct (Hst Hs) as ((E1 & [_ E2] & _) & _). specialize (Hsz Hs). unfold sized in *. by rewrite E1, E2. }
  unfold get_window_body. wp_local. apply my_wp. wp_local. apply get_read_wp; [fold i; lia|].
  intros g1 p d R1 I1 Hd1 Hl1. fold i in Hd1, Hl1. pose proof (leads_rely g g1 R1 I1) as L1.
  assert (Hst1 : still -> g1 = g) by (intros Hs; by rewrite (Hs _ _ R1)).
  assert (Hg1 : get_at g1 l h z x) by (by eapply get_at_leads).
  assert (Hp1 : put_at g1 l kp xp) by (by eapply put_at_leads).
  wp_local. apply my_wp. wp_local. apply my_wp.
  apply (get_bound_wp kp h xp z x); [by intros Hs; rewrite (Hst1 Hs); apply Hsz'|done|done|done|].
  intros g2 pc L12 Hst2 Hpc. pose proof (leads_trans _ _ _ L1 L12) as L2.
  wp_local. apply (lat_rule wp_load_lhead). intros g3 a y R3 I3 _ Hy. wp_local. apply my_wp.
  pose proof (leads_then _ _ _ L2 R3 I3) as L3.
  assert (Hst3 : still -> g3 = g) by (intros Hs; by rewrite (Hs _ _ R3), (Hst2 Hs), (Hst1 Hs)).
  destruct (Z.eqb_spec a (thread_lhead_pointer (thread_Window l))) as [->|Hne]; cbn [negb].
  2: { pose proof (inv_law g3 I3) as HL3.
    assert (Hne' : still -> False).
    { intros Hs. apply Hne. rewrite (Hst3 Hs) in Hy. destruct (Hst Hs) as ((_ & _ & _ & E4 & _) & _).
      rewrite <- E4 in Hy. destruct Hy, Ha; congruence. }
    wp_local. apply ((lat_rule wp_load_lnext) (Head g3) a y); [done|..].
    - intros g4 R4 I4 Hlen. exfalso. pose proof (lw_tail _ _ _ _ _ HL3). pose proof (lw_head _ _ _ _ _ HL3).
      pose proof (li_infos _ (inv_lat g4 I4)). pose proof (ld_lat _ _ (leads_rely _ _ R4 I4)) as [_ Hpre _ _].
      apply prefix_length in Hpre. lia.
    - intros g4 b y4 R4 I4 Hb0 Hb4. rewrite (proj2 (Z.eqb_neq _ _) Hb0).
      pose proof (leads_then _ _ _ L3 R4 I4) as L4. pose proof (leads_rely g3 g4 R4 I4) as L34.
      apply (get_resync_wp g0 (Nat.pred n) kp xp hops random Q (Head g3) a y g4 l) with (checked := false);
        [done|exact (leads_trans _ _ _ L L4)|done|exact (put_at_leads _ _ _ _ _ L4 Hp)| | |apply Hi|done|done|..].
      + by apply (leads_lat_at g3).
      + by destruct (ld_lat _ _ L34).
      + intros ? _ Hs. destruct (Hne' Hs).
      + intros c g5 l5 HJ5. apply (HQ' (Nat.pred n)); [done|]. intros Htot. destruct (Hne' (alone_still Htot)). }
  wp_local. apply (info_wp lmax (S h) _ x); [by apply (leads_lat_at g)|]. intros g4 R4 I4.
  pose proof (leads_then _ _ _ L3 R4 I4) as L4.
  assert (Hst4 : still -> g4 = g) by (intros Hs; by rewrite (Hs _ _ R4), (Hst3 Hs)).
  (* The end of the function. *)
  assert (Hend : forall g', leads g4 g' -> (still -> g' = g4) ->
    (dcount d < lmax x \/ (kp <= S h)%nat) ->
    (still -> dcount d < lmax x /\ (S h = Tail g -> dcount d < put_row (subs g) i) \/
        S h = Tail g /\ forall j, 0 <= j < lwidth x -> get_stuck g h x j) -> Q (inr d) g' l).
  { intros g' L' Hst' Hor Hs'. pose proof (leads_trans _ _ _ L4 L') as LL. apply HQ.
    split; [exact (leads_trans _ _ _ L LL)|]. split.
    - apply (thread_ok_leads g); [done|]. split; [done|split; [done|]]. split; [by exists kp, xp|by exists h, z, x].
    - exists p, kp, h, xp, z, x. split; [exact (put_at_leads _ _ _ _ _ LL Hp)|].
      split; [exact (get_at_leads _ _ _ _ _ _ LL Hg)|]. fold i. split; [|split; [done|]].
      + apply (get_read_leads g1); [done|lia| |done].
        exact (leads_trans _ _ _ (leads_trans _ _ _ L12 (leads_rely _ _ R3 I3)) (leads_trans _ _ _ (leads_rely _ _ R4 I4) L')).
      + intros Hs. rewrite (Hst' Hs), (Hst4 Hs). destruct (Hst Hs) as (Hf & _). split; [done|].
        split; [|by apply Hs']. specialize (Hl1 Hs). by rewrite (Hst1 Hs) in Hl1. }
  destruct (_ && _) eqn:E.
  - apply andb_prop in E as [Ec%Z.ltb_lt Epc%Z.ltb_lt]. wp_locals. apply Hend.
    + apply leads_rely; [apply (rely_refl (P := P))|done].
    + done.
    + by left.
    + intros Hs. left. split; [done|]. intros HT. specialize (Hpc Hs). rewrite (Hst1 Hs) in Hpc. fold i in Hpc.
      destruct (Z.ltb_spec (lmax x) (lmax xp)) as [Hlt|_]; [|lia]. exfalso.
      destruct (Hst Hs) as ((_ & _ & _ & _ & -> & _) & _). destruct Hp as [Hp _]. rewrite <- HT in Hp.
      destruct Hp as [_ Hxp], Hb as [_ Hx]. assert (xp = x) as -> by congruence. lia.
  - wp_local. apply (info_wp lwidth (S h) _ x); [by apply (leads_lat_at g)|]. intros g5 R5 I5.
    pose proof (leads_then _ _ _ L4 R5 I5) as L5.
    assert (Hst5 : still -> g5 = g) by (intros Hs; by rewrite (Hs _ _ R5), (Hst4 Hs)).
    pose proof (get_loop_leads g0 n kp h xp z x hops random g g5 l HJ L5 Hst5) as HJ5.
    pose proof (leads_trans _ _ _ L L5) as L05.
    assert (Hstuck : still -> get_stuck g5 h x i).
    { intros Hs. rewrite (Hst5 Hs). specialize (Hpc Hs). specialize (Hl1 Hs). rewrite (Hst1 Hs) in Hpc, Hl1.
      pose proof (get_row_eq _ _ _ Hl1) as Eg. unfold get_stuck. rewrite Eg. fold i in Hpc.
      destruct (Z.ltb_spec (dcount d) (lmax x)) as [Hlt|]; [|by left]. cbn [andb] in E. apply Z.ltb_ge in E.
      destruct (Z.ltb_spec (lmax x) (lmax xp)) as [|Hge]; [lia|]. right. split; [|lia].
      destruct (Hst Hs) as ((_ & _ & _ & _ & E5 & _) & _). destruct Hp as ([_ Hxp] & _ & _).
      destruct (decide (S h = Tail g)) as [|Hne']; [done|]. destruct Hb as [_ Hb].
      pose proof (windows_bottom _ _ _ _ _ _ (lw_windows _ _ _ _ _ (inv_law g HI)) Hb Hxp ltac:(lia)). lia. }
    destruct (Z.eqb_spec hops (lwidth x)) as [->|Hnw]; cbn [negb].
    + apply (law_get_shift_wp g0 n kp h xp z x random d); try done.
      intros g6 L6 Hst6 Hkp Hs6. apply Hend.
      * by eapply leads_trans; [apply leads_rely|].
      * intros Hs. by rewrite (Hst6 Hs), (Hst5 Hs), (Hst4 Hs).
      * by right.
      * intros Hs. right. rewrite (Hst5 Hs) in Hs6. by apply Hs6.
    + by apply (get_hop_wp g0 n kp h xp z x hops random).
Qed.

(** The thread's put index may follow the get index. *)
Lemma get_window_post_sync g0 d g l (Q : descriptor_t -> estate -> tls windows -> Prop) :
  get_window_post g0 d g l -> (forall d g' l', get_window_post g0 d g' l' -> Q d g' l') ->
  wp P t (sync_index thread_put_window thread_get_index set_put_index ;;; Ret d) Q g l.
Proof.
  intros (L & (Ht & Hpi & Hpe & Hge) & p & kp & h & xp & z & x & Hp & Hg & Hd & Hor & Hst) HQ.
  pose proof (ld_inv _ _ L) as HI. pose proof Hg as (_ & Hb & _ & _ & Hi).
  pose proof (window_width g _ x HI (proj2 Hb)).
  assert (Hend : forall g' l', leads g g' -> (still -> g' = g) -> thread_id l' = t -> put_index_ok l' ->
    (forall g k x, put_at g l k x -> put_at g l' k x) -> (forall g h z x, get_at g l h z x -> get_at g l' h z x) ->
    thread_get_index (thread_Window l') = thread_get_index (thread_Window l) -> Q d g' l').
  { intros g' l' L' Hs Ht' Hpi' Hp' Hg' Ei. apply HQ. split; [by eapply leads_trans|split].
    - split; [done|split; [done|split]].
      + exists kp, xp. apply Hp'. by eapply put_at_leads.
      + exists h, z, x. apply Hg'. by eapply get_at_leads.
    - exists p, kp, h, xp, z, x. rewrite Ei. split; [apply Hp'; by eapply put_at_leads|].
      split; [apply Hg'; by eapply get_at_leads|]. split; [apply (get_read_leads g); [done|lia|done|done]|].
      split; [done|]. intros Hs'. rewrite (Hs Hs'). by apply Hst. }
  wp_local. apply (sync_index_wp _ _ _ h z x kp xp); [done|done|done|..].
  - intros g' L' Hs. wp_locals. by apply Hend.
  - intros g' L' Hs Ew. wp_locals. apply Hend; try done. unfold put_index_ok. cbn. lia.
Qed.

Lemma law_get_window_wp contention (Q : descriptor_t -> estate -> tls windows -> Prop) g l :
  p_inv P g -> thread_ok g l ->
  (still -> sized g /\ exists x, put_at g l (Tail g) x) ->
  (forall d g' l', get_window_post g d g' l' -> Q d g' l') ->
  wp P t (get_window set contention) Q g l.
Proof.
  intros HI (Ht & Hpi & (kp & xp & Hp) & (h0 & z0 & x0 & Hg0)) Hs HQ. unfold get_window.
  assert (Lr : leads g g) by (apply leads_rely; [apply (rely_refl (P := P))|done]).
  assert (Hkp : still -> kp = Tail g).
  { intros Hst. destruct (Hs Hst) as [_ (x & Hp')].
    exact (lat_pos_inj _ _ _ _ (inv_lat g HI) (proj1 (proj1 Hp)) (proj1 (proj1 Hp'))). }
  (* The loop, with the get window up to date. *)
  assert (Hloop : forall g2 l2 h z x, leads g g2 -> (still -> g2 = g /\ h = Head g) -> thread_id l2 = t ->
    put_index_ok l2 -> put_at g2 l2 kp xp -> get_at g2 l2 h z x ->
    wp P t (let* descriptor := while (get_window_body set) (0, 0) in
            sync_index thread_put_window thread_get_index set_put_index ;;; Ret descriptor) Q g2 l2).
  { intros g2 l2 h z x L2 Hs2 Ht2 Hpi2 Hp2 Hg2. pose proof Hg2 as (_ & Hb & _ & _ & Hi).
    pose proof (window_width g2 _ x (ld_inv _ _ L2) (proj2 Hb)). destruct Hset as [Hmw Hrh]. wp_local.
    eapply (wp_while P t _ _ _ _ (fun n c => get_loop g n c) (S (get_left g2 h x 0 0))).
    - split; [done|split; [done|split; [done|]]]. exists kp, h, xp, z, x. split; [done|split; [done|]].
      split; [lia|split; [lia|]]. intros Hst. destruct (Hs2 Hst) as [-> ->]. split.
      + do 3 (split; [done|]). split; [done|split; [by apply Hkp|done]].
      + split; [lia|split; [lia|split; [apply seen_none; lia|lia]]].
    - intros n [hops random] g3 l3 HJ.
      apply (law_get_window_body_wp g n hops random); [by intros; apply Hs|done|..].
      + intros d g4 l4 Hpost. wp_local. by apply (get_window_post_sync g).
      + intros m c g4 l4 HJ4 Hm. by exists m. }
  (* The synchronisation before it. *)
  assert (Hsync : forall g1 l1, leads g g1 -> (still -> g1 = g) -> thread_id l1 = t ->
    put_index_ok l1 -> put_at g1 l1 kp xp -> get_at g1 l1 h0 z0 x0 ->
    wp P t ((let* lat_head := load_lhead in
             let* ptr := my thread_lhead_pointer in
             if negb (lat_head =? ptr) then
               let* next := load_lnext lat_head in
               if negb (next =? 0) then
                 sync_head lat_head ;;;
                 let* gw := my thread_get_window in
                 clip_index thread_get_index set_get_index gw
               else Ret tt
             else Ret tt) ;;;
            let* descriptor := while (get_window_body set) (0, 0) in
            sync_index thread_put_window thread_get_index set_put_index ;;; Ret descriptor) Q g1 l1).
  { intros g1 l1 L1 Hs1 Ht1 Hpi1 Hp1 Hg1. wp_local. wp_local. apply (lat_rule wp_load_lhead).
    intros g2 a y R2 I2 _ Hy. wp_local. apply my_wp. pose proof (leads_then _ _ _ L1 R2 I2) as L2.
    pose proof (leads_rely g1 g2 R2 I2) as L12.
    assert (Hs2 : still -> g2 = g) by (intros Hst; by rewrite (Hst _ _ R2), (Hs1 Hst)).
    pose proof (get_at_leads _ _ _ _ _ _ L12 Hg1) as Hg2. pose proof Hg2 as (Ha2 & Hb2 & _ & _ & Hi2).
    destruct (Z.eqb_spec a (thread_lhead_pointer (thread_Window l1))) as [->|Hne]; cbn [negb].
    - wp_local. apply (Hloop g2 l1 h0 z0 x0); [done| |done|done|by eapply put_at_leads|done].
      intros Hst. split; [by apply Hs2|]. rewrite <- (Hs2 Hst).
      exact (lat_pos_inj _ _ _ _ (inv_lat g2 I2) (proj1 Ha2) (proj1 Hy)).
    - pose proof (inv_law g2 I2) as HL2. wp_local. apply ((lat_rule wp_load_lnext) (Head g2) a y); [done|..].
      + intros g3 R3 I3 Hlen. exfalso. pose proof (lw_tail _ _ _ _ _ HL2). pose proof (lw_head _ _ _ _ _ HL2).
        pose proof (li_infos _ (inv_lat g3 I3)). pose proof (ld_lat _ _ (leads_rely _ _ R3 I3)) as [_ Hpre _ _].
        apply prefix_length in Hpre. lia.
      + intros g3 b y3 R3 I3 Hb0 Hb3. rewrite (proj2 (Z.eqb_neq _ _) Hb0). cbn [negb].
        pose proof (leads_rely g2 g3 R3 I3) as L23. pose proof (ld_lat _ _ L23) as [_ _ _ HH]. wp_local.
        apply (sync_head_wp (Head g2) a y); [done|by apply (leads_lat_at g2)|done|].
        intros g4 c x4 R4 I4 Hc Hc0. wp_local. apply my_wp.
        apply (clip_wp thread_get_index set_get_index (S (Head g2)) _ x4); [done|]. intros g5 R5 I5.
        pose proof (leads_then _ _ _ (leads_then _ _ _ L23 R4 I4) R5 I5) as L25.
        pose proof (leads_rely g4 g5 R5 I5) as L45.
        pose proof (leads_lat_at _ _ _ _ _ L25 Hy) as Hy5. pose proof (leads_lat_at _ _ _ _ _ L45 Hc) as Hc5.
        pose proof (ld_lat _ _ L25) as [_ _ _ HH5].
        destruct (synced_get_ok g5 a c (Head g2) y x4 l1 I5 Hy5 Hc5 HH5 (proj1 Hi2) Ht1 Hpi1) as (E1 & E2 & E3 & E4).
        apply (Hloop g5 (synced_get a c x4 l1) (Head g2) y x4); [exact (leads_trans _ _ _ L2 L25)| |done|done| |done].
        -- intros Hst. rewrite (Hst _ _ R5), (Hst _ _ R4), (Hst _ _ R3), (Hs2 Hst). done.
        -- apply E4. exact (put_at_leads _ _ _ _ _ (leads_trans _ _ _ L12 L25) Hp1). }
  wp_local. destruct contention; [|wp_local; by apply Hsync].
  wp_local. apply my_wp. pose proof Hg0 as (Ha0 & Hb0 & HhT & HhH & Hi0). wp_local.
  apply (info_wp lwidth (S h0) _ x0); [done|]. intros g1 R1 I1. wp_local.
  pose proof (leads_rely g g1 R1 I1) as L1.
  apply random_wp; [exact (window_width g (S h0) x0 HI (proj2 Hb0))|]. intros r s Hr. wp_local.
  apply Hsync; [done|by intros Hst; rewrite (Hst _ _ R1)|done|done|exact (put_at_leads _ _ _ _ _ L1 Hp)|].
  destruct (get_at_leads _ _ _ _ _ _ L1 Hg0) as (? & ? & ? & ? & _). do 4 (split; [done|]). exact Hr.
Qed.
End windows.
