(* ===== verification/LawQueue.v ===== *)
(** The operations of the elastic queue (LaW), for a thread among others and for
    a thread that runs alone. *)
From S2P Require Import Prelude Conc Random Thread StackHeap QueueHeap Shared SubQueues Lateral ElasticLaw Rows LawWindow.

Section operations.
Context {A : Allocator (qnode_of unit)} {LA : Allocator (lnode lateral_node_t)}.
Context (set : mqueue_t) (Hset : set_ok set).
Notation mw := (max_width set).
Notation base := (law_base set).
Notation law := (law set).
Context (P : protocol estate) (t : nat) {couples : Couples P base law t}.
Implicit Types (g : estate) (l : tls windows).
Notation latof g := (lat (window g)).
Notation ws g := (infos (lat (window g))).
Notation Tail g := (ltail_pos (lat (window g))).
Notation Head g := (lhead_pos (lat (window g))).
Notation still := (forall g g', p_rely P t g g' -> g' = g).
Context (alone_still : p_total P = true -> still).
Context (Hmode : still \/ forall g, p_ok P g -> p_ok base g).

#[local] Instance qreads : Reads P base t := couples_reads (C := law).
#[local] Instance qlaws : ProtocolLaws P := reads_laws (B := base) (t := t).

Notation lat_rule f := (f (dims_prot set) law_limits (qprot mw (2 ^ 62)) P t law) (only parsing).
Notation sub_rule f := (f (elastic_prot (dims_prot set) law_limits) mw (2 ^ 62) P t) (only parsing).
Notation sub_step f := (f (elastic_prot (dims_prot set) law_limits) _ mw (2 ^ 62) P t law) (only parsing).
Notation leads := (leads P t).
Notation thread_ok := (thread_ok set t).
Notation inv_law := (inv_law set P t).
Notation law_inv_subs := (law_inv_subs set P t).
Notation inv_lat := (inv_lat set P t).

(** *** The coupling does not look at the nodes and the observations *)

Lemma law_with_heap g m : law g -> law (set_subs (with_heap m (subs g)) g).
Proof. intros HL. by apply law_heap. Qed.
Lemma law_with_nothing g i : law g -> law (set_subs (with_event (t, Nothing i) (subs g)) g).
Proof. intros HL. by apply law_nothing. Qed.

Lemma leads_did g g' : leads g g' -> (still -> hist (subs g') = hist (subs g)) -> did_op P t [] g g'.
Proof. intros [I E [_ Em] _] Hs. split; [by split|done]. Qed.

(** *** Counts *)

(** The count of a node linked after one in row [c], in window [x]. *)
Definition next_count (c : Z) (x : lateral_node_t) : Z :=
  if u64 (lmax x - ldepth x) <=? c then u64 (c + 1) else u64 (lmax x - ldepth x + 1).

Lemma next_count_eq c x :
  0 <= bottom x <= lmax x -> lmax x < 2 ^ 63 -> 0 <= c < 2 ^ 63 -> next_count c x = Z.max c (bottom x) + 1.
Proof.
  intros Hb Hm Hc. unfold next_count, bottom in *. rewrite (wrap_small 64 (lmax x - ldepth x)) by lia.
  destruct (Z.leb_spec (lmax x - ldepth x) c); rewrite wrap_small by lia; lia.
Qed.

Lemma next_put_count_wp c k a x (Q : Z -> estate -> tls windows -> Prop) g l :
  lat_at (latof g) k a x ->
  (forall g', p_rely P t g g' -> p_inv P g' -> Q (next_count c x) g' l) ->
  wp P t (next_put_count c a) Q g l.
Proof.
  intros Ha HQ. unfold next_put_count. wp_local. apply (info_wp set P t lmax k a x); [done|].
  intros g1 R1 I1. wp_local.
  apply (info_wp set P t ldepth k a x); [by apply (leads_lat_at P t g); [apply (leads_rely set)|]|].
  intros g2 R2 I2. specialize (HQ g2 (rely_trans (P := P) t g g1 g2 R1 R2) I2). unfold next_count in HQ.
  destruct (_ <=? c); wp_locals; exact HQ.
Qed.

(** Where the numbers are known to be small. *)
Lemma sized_ok g : p_ok P g -> p_inv P g -> (still -> sized g) -> sized g.
Proof.
  intros O HI Hs. destruct Hmode as [Hst|Hok]; [by apply Hs|]. destruct (Hok g O) as [[Hw _] Hh].
  cbn in Hh. unfold sized. lia.
Qed.

Lemma sized_window g k x :
  sized g -> p_inv P g -> ws g !! k = Some x -> 0 <= bottom x <= lmax x /\ lmax x < 2 ^ 63.
Proof.
  intros Hs HI Hx. destruct (windows_bound _ _ _ _ (lw_windows _ _ _ _ _ (inv_law g HI)) Hx).
  pose proof (lookup_lt_Some _ _ _ Hx). unfold sized in Hs. lia.
Qed.

Lemma sized_put_row g i : sized g -> p_inv P g -> 0 <= i < mw -> 0 <= put_row (subs g) i < 2 ^ 63.
Proof.
  intros Hs HI Hi. pose proof (put_row_range mw _ _ _ _ (inv_law g HI) i Hi). unfold sized in Hs. lia.
Qed.

Lemma sized_get_row g i : sized g -> p_inv P g -> 0 <= i < mw -> 0 <= get_row (subs g) i < 2 ^ 63.
Proof.
  intros Hs HI Hi. pose proof (lw_get _ _ _ _ _ (inv_law g HI) i Hi) as Hg.
  pose proof (rows_mono mw _ _ _ _ (inv_law g HI) i 0 (head_pos (subs g) i) Hi) as Hm.
  pose proof (head_before_tail set P t g i HI Hi). rewrite (lw_start _ _ _ _ _ (inv_law g HI) i Hi) in Hm.
  unfold sized in Hs. lia.
Qed.

(** Room for [n] more windows or operations. *)
Definition room (n : Z) g : Prop :=
  (Z.of_nat (length (ws g)) + n) * 2 ^ 16 + Z.of_nat (length (hist (subs g))) < 2 ^ 63.

(** *** [enqueue] *)

(** Between the operations of a thread alone. *)
Definition quiet g : Prop :=
  length (ws g) = S (Tail g) /\ settled mw (subs g) /\ drained mw (ws g) (Head g) (subs g).

(** While the new node is the thread's own. *)
Definition enqueue_loop (key v a : Z) g0 g l : Prop :=
  thread_ok g l /\ leads g0 g /\ owned t a (mkQnode 0 key v) g /\
  (still -> quiet g /\ room 2 g /\ unchanged g0 g /\ Head g = Head g0 /\ hist (subs g) = hist (subs g0)).

(** After the link. *)
Definition enqueued (v a : Z) g0 (d new : descriptor_t) g l : Prop :=
  let i := thread_put_index (thread_Window l) in
  thread_ok g l /\ exists p k x, put_at g l k x /\ 0 <= i < lwidth x /\
  did_op P t [Enq i (Z.of_nat (S p)) v] g0 g /\
  at_pos (subs g) i p (dnode d) /\ at_pos (subs g) i (S p) a /\
  (p <= tail_pos (subs g) i)%nat /\ row (subs g) i p < lmax x /\ dcount d < lmax x /\
  new = mkDesc a (next_count (dcount d) x) /\
  (still -> sized g /\ lookup_put i g = Some d /\ k = Tail g /\ length (ws g) = S k /\
     Head g = Head g0 /\ grown g0 g /\
     drained mw (ws g) (Head g) (subs g) /\
     forall j, 0 <= j < mw -> length (links_of (subs g) j) =
       (tail_pos (subs g) j + if decide (i = j) then 2 else 1)%nat).

(** The link of the new node. *)
Lemma enqueue_link_wp key v a g0 p k x d (Q : bool -> estate -> tls windows -> Prop) g l :
  let i := thread_put_index (thread_Window l) in
  thread_ok g l -> leads g0 g -> owned t a (mkQnode 0 key v) g -> put_at g l k x -> 0 <= i < lwidth x ->
  put_read g i p d -> dcount d < lmax x ->
  (still -> length (links_of (subs g) i) = S p /\ quiet g /\ room 1 g /\ Head g = Head g0 /\
     grown g0 g /\ hist (subs g) = hist (subs g0) /\ k = Tail g) ->
  (forall g', enqueued v a g0 d (mkDesc a (next_count (dcount d) x)) g' l -> Q true g' l) ->
  (forall g', thread_ok g' l -> leads g0 g' -> owned t a (mkQnode 0 key v) g' -> (still -> False) -> Q false g' l) ->
  wp P t (enq_cae i (dnode d) a) Q g l.
Proof.
  intros i Hok L Ho Hp Hi Hd Hlt Hst HQ HQ'. pose proof (ld_inv _ _ _ _ L) as HI.
  pose proof (window_width set P t g k x HI (proj2 (proj1 Hp))) as Hw. pose proof Hok as [Ht _].
  destruct Hd as (Hk & Hkt & Hd & Hr). pose proof (conj Hk (conj Hkt (conj Hd Hr)) : put_read g i p d) as Hdr.
  unfold enq_cae. apply ((sub_step wp_cas_next_c) i p (dnode d) a (mkQnode 0 key v)); try done; [lia|..].
  - intros g1 R1 I1 O1 Hlen Htl. pose proof (leads_rely set P t g g1 R1 I1) as L1.
    destruct (put_read_leads set P t g g1 i p d HI ltac:(lia) L1 Hdr) as (_ & _ & Hd1 & _).
    pose proof (put_at_leads P t _ _ _ _ _ L1 Hp) as ([_ Hx1] & _ & Hk1).
    specialize (Hd1 Htl). pose proof (put_row_eq mw _ i d (law_inv_subs g1 I1) ltac:(lia) Hd1) as Epr.
    unfold law. cbn [set_subs window subs].
    apply (law_linked mw _ _ _ _ _ _ _ _ _ k x); [by apply inv_law|by apply law_inv_subs|lia|done|done|done|lia].
  - intros g1 g2 R1 I1 D E2 Hlen Ha2 Htl. pose proof (leads_rely set P t g g1 R1 I1) as L1.
    destruct (put_read_leads set P t g g1 i p d HI ltac:(lia) L1 Hdr) as (Hk1 & _ & Hd1 & _).
    destruct D as (I2 & He2 & Em2). apply HQ.
    assert (Hl2 : lat_evolves (latof g1) (latof g2)) by (rewrite E2; apply lat_evolves_refl).
    assert (Hok1 : thread_ok g1 l) by (by apply (thread_ok_leads set P t g)).
    split; [|exists p, k, x].
    + rewrite E2. exact Hok1.
    + pose proof (put_at_leads P t _ _ _ _ _ L1 Hp) as Hp1.
      split; [rewrite E2; exact Hp1|]. split; [done|]. split; [|split; [|split; [done|split; [|split; [|split; [done|split; [done|]]]]]]].
      * apply (did_op_step (elastic_prot (dims_prot set) law_limits) mw (2 ^ 62) P t
          [Enq i (Z.of_nat (S p)) v] [] g0 g g1 g2); [|done|by split|].
        -- apply leads_did; [done|]. intros Hs. by apply Hst.
        -- intros _. rewrite E2. cbn [subs set_subs linked hist]. fold i. by rewrite Hlen.
      * rewrite E2 in He2 |- *. by apply (at_pos_evolves (subs g1)).
      * rewrite E2. cbn [subs set_subs]. fold i. change (tail_pos (linked _ _ _ _ _ _) i) with (tail_pos (subs g1) i). lia.
      * rewrite E2. cbn [subs set_subs]. fold i. change (row (linked _ _ _ _ _ _) i p) with (row (subs g1) i p).
        rewrite (leads_row set P t g g1 i p HI L1 ltac:(lia) Hkt). lia.
      * intros Hs. destruct (Hst Hs) as (E & (Hq1 & Hq2 & Hq3) & Hsz & EH & Ews & Eh & Ek).
        rewrite (Hs _ _ R1) in *. rewrite E2. specialize (Hd1 Htl). split; [|split; [exact Hd1|]].
        -- unfold sized, room in *. cbn [set_subs window subs linked hist length]. lia.
        -- cbn [set_subs window subs]. split; [done|split; [by rewrite Ek|split; [done|split; [done|]]]].
           split; [exact Hq3|]. intros j Hj. rewrite (links_of_linked mw) by (by apply law_inv_subs || lia).
           change (tail_pos (linked t i (dnode d) a (mkQnode 0 key v) (subs g)) j) with (tail_pos (subs g) j).
           specialize (Hq2 j Hj). fold i. destruct (decide (i = j)) as [<-|].
           ++ rewrite decide_True by done. rewrite length_app. cbn. lia.
           ++ rewrite decide_False by lia. lia.
  - intros g1 R1 I1 Hlt1. pose proof (leads_rely set P t g g1 R1 I1) as L1. apply HQ'.
    + by apply (thread_ok_leads set P t g).
    + by eapply leads_trans.
    + by apply (leads_owned P t g).
    + intros Hs. rewrite (Hs _ _ R1) in Hlt1. destruct (Hst Hs) as (E & _). lia.
Qed.

(** The tail pointer of sub-queue [i] moves on, with the count for window [x]. *)
Lemma cae_put_wp i d b p k x (Q : bool -> estate -> tls windows -> Prop) g l :
  p_inv P g -> (still -> sized g) -> ws g !! k = Some x -> (k <= Tail g)%nat -> 0 <= i < mw ->
  at_pos (subs g) i p (dnode d) -> at_pos (subs g) i (S p) b ->
  (tail_pos (subs g) i = p -> i < lwidth x /\ row (subs g) i p < lmax x) ->
  let new := mkDesc b (next_count (dcount d) x) in
  (forall g1, p_rely P t g g1 -> p_inv P g1 -> lookup_put i g1 = Some d -> tail_pos (subs g1) i = p ->
     dcount new = Z.max (dcount d) (bottom x) + 1 -> dcount d < lmax x ->
     let g2 := set_subs (with_put i new (subs g1)) g1 in
     leads g g2 -> tail_pos (subs g2) i = S p -> Q true g2 l) ->
  (forall g1, p_rely P t g g1 -> p_inv P g1 -> lookup_put i g1 <> Some d -> Q false g1 l) ->
  wp P t (cae_put i d new) Q g l.
Proof.
  intros HI Hsz Hx Hk Hi Hp Hb Hlt new HQ HQ'.
  assert (Hpt : (p <= tail_pos (subs g) i)%nat).
  { destruct (sub_positions mw (subs g) i (law_inv_subs g HI) ltac:(lia)) as (_ & ? & _).
    apply lookup_lt_Some in Hb. lia. }
  assert (Hnew : forall g1, p_rely P t g g1 -> p_inv P g1 -> p_ok P g1 -> lookup_put i g1 = Some d ->
    tail_pos (subs g1) i = p ->
    leads g g1 /\ ws g1 !! k = Some x /\ (k <= Tail g1)%nat /\ i < lwidth x /\ dcount d < lmax x /\
    dcount new = Z.max (dcount d) (bottom x) + 1).
  { intros g1 R1 I1 O1 E1 Htl. pose proof (leads_rely set P t g g1 R1 I1) as L1.
    pose proof (leads_window P t _ _ _ _ L1 Hx) as Hx1. pose proof (leads_tail P t _ _ L1).
    assert (Hsz1 : sized g1).
    { apply sized_ok; [done|done|]. intros Hs. rewrite (Hs _ _ R1). by apply Hsz. }
    destruct (sized_window g1 k x Hsz1 I1 Hx1) as [? ?].
    pose proof (put_row_eq mw _ i d (law_inv_subs g1 I1) ltac:(lia) E1) as Er.
    pose proof (sized_put_row g1 i Hsz1 I1 ltac:(lia)).
    assert (Epr : put_row (subs g1) i = row (subs g) i p).
    { unfold put_row. rewrite Htl. apply (leads_row set P t g g1); [done|done|lia|done]. }
    pose proof (leads_tail_pos P t g g1 i L1). destruct Hlt as [Hix Hlt]; [lia|].
    split; [done|split; [done|split; [lia|split; [done|split; [lia|]]]]]. apply next_count_eq; lia. }
  apply ((sub_step wp_cae_put_c) i p d new); try done.
  - intros g1 R1 I1 O1 E1 Htl Hb1. destruct (Hnew g1 R1 I1 O1 E1 Htl) as (L1 & Hx1 & Hk1 & Hix & Hlt1 & En).
    unfold law. cbn [set_subs window subs].
    apply (law_put mw _ _ _ _ i d new k x); try done; [by apply inv_law|by apply law_inv_subs| |lia].
    apply lookup_lt_Some in Hb1. by rewrite Htl.
  - intros g1 R1 I1 O1 E1 Htl g2 I2 He2 Htl2. destruct (Hnew g1 R1 I1 O1 E1 Htl) as (L1 & _ & _ & _ & Hlt1 & En).
    apply HQ; try done. eapply leads_trans; [exact L1|]. split; [done|done|by split|apply lat_evolves_refl].
Qed.

Lemma enqueued_rely v a g0 d new g g' l :
  p_inv P g -> enqueued v a g0 d new g l -> p_rely P t g g' -> p_inv P g' -> enqueued v a g0 d new g' l.
Proof.
  intros HI (Hok & p & k & x & Hp & Hi & D & Hk & Ha & Hpt & Hrow & Hlt & En & Hst) R I.
  pose proof (leads_rely set P t g g' R I) as L. split; [exact (thread_ok_leads set P t _ _ _ L Hok)|].
  exists p, k, x. split; [exact (put_at_leads P t _ _ _ _ _ L Hp)|]. split; [done|].
  split; [by apply ((sub_rule did_op_rely) _ g0 g g')|].
  split; [by apply (leads_at_pos P t g)|split; [by apply (leads_at_pos P t g)|]].
  pose proof (window_width set P t g k x HI (proj2 (proj1 Hp))).
  split; [pose proof (leads_tail_pos P t g g' (thread_put_index (thread_Window l)) L); lia|].
  split; [rewrite (leads_row set P t g g' _ _ HI L) by (done || lia); done|]. do 2 (split; [done|]).
  intros Hs. rewrite (Hs _ _ R). by apply Hst.
Qed.

(** A new window leaves a quiet queue quiet. *)
Lemma quiet_grown g g' :
  p_inv P g -> quiet g -> room 2 g -> subs g' = subs g -> Head g' = Head g -> length (ws g') = S (Tail g') ->
  grown g g' -> quiet g' /\ room 1 g'.
Proof.
  intros HI (Q1 & Q2 & Q3) Hr Es EH Hlen Hg. destruct (grown_prefix g g' Hg) as [Hpre Hle]. split.
  - split; [done|split; [unfold settled; by rewrite Es|]]. rewrite Es, EH.
    apply (drained_prefix mw (ws g)); [done|done|]. pose proof (lw_head _ _ _ _ _ (inv_law g HI)). lia.
  - unfold room in *. rewrite Es. lia.
Qed.

Lemma law_enqueue_body_wp key v a g0 contention m
    (Q : bool + descriptor_t * descriptor_t -> estate -> tls windows -> Prop) g l :
  enqueue_loop key v a g0 g l -> a <> 0 ->
  (forall d new g' l', enqueued v a g0 d new g' l' -> Q (inr (d, new)) g' l') ->
  (forall c g' l', enqueue_loop key v a g0 g' l' -> (p_total P = true -> m < m)%nat -> Q (inl c) g' l') ->
  wp P t (enqueue_body set a contention) Q g l.
Proof.
  intros (Hok & L & Ho & Hst) Ha HQ HQ'. pose proof (ld_inv _ _ _ _ L) as HI. unfold enqueue_body. wp_local.
  apply (law_put_window_wp set Hset P t alone_still Hmode); [done|done| |].
  { intros Hs. destruct (Hst Hs) as ((? & _) & Hr & _). split; [unfold sized, room in *; lia|done]. }
  intros d g1 l1 (L1 & Hok1 & p & k & x & Hp1 & Hd1 & Hi1 & Hlt & Hs1). pose proof (ld_inv _ _ _ _ L1) as I1.
  set (i := thread_put_index (thread_Window l1)) in *.
  pose proof (window_width set P t g1 k x I1 (proj2 (proj1 Hp1))) as Hw. assert (Hi : 0 <= i < mw) by lia.
  assert (Hquiet : still -> tail_pos (subs g1) i = p /\ quiet g1 /\ room 1 g1 /\ Head g1 = Head g0 /\
    grown g0 g1 /\ hist (subs g1) = hist (subs g0) /\ k = Tail g1).
  { intros Hs. destruct (Hs1 Hs) as (Etl & Es & EH & Ek & Elen & Ews). destruct (Hst Hs) as (Hq & Hr & Hun & F2 & F3).
    destruct (quiet_grown g g1 HI) as [Hq1 Hr1]; [done|done|done|done|by rewrite <- Ek|done|].
    split; [done|split; [done|split; [done|split; [congruence|split; [by eapply unchanged_grown|split; [congruence|done]]]]]]. }
  (* Going round again. *)
  assert (Hretry : forall c g2 l2, leads g1 g2 -> thread_id l2 = t -> thread_Window l2 = thread_Window l1 ->
    (still -> False) -> Q (inl c) g2 l2).
  { intros c g2 l2 L2 Ht2 El Hno. apply HQ'.
    - destruct (thread_ok_leads set P t _ _ _ L2 Hok1) as (_ & Hok2). split.
      { split; [done|]. unfold put_index_ok, put_at, get_at in *. by rewrite El. }
      split; [exact (leads_trans P t _ _ _ L (leads_trans P t _ _ _ L1 L2))|].
      split; [exact (leads_owned P t _ _ _ _ (leads_trans P t _ _ _ L1 L2) Ho)|]. intros Hs. destruct (Hno Hs).
    - intros Htot. destruct (Hno (alone_still Htot)). }
  wp_local. destruct Hd1 as (Hk1 & Hkt1 & Hd1 & Hr1).
  pose proof (conj Hk1 (conj Hkt1 (conj Hd1 Hr1)) : put_read g1 i p d) as Hdr1.
  destruct (at_pos_node mw _ _ _ _ (law_inv_subs g1 I1) Hi Hk1) as (Hnz & _).
  apply wp_assert; [by rewrite (proj2 (Z.eqb_neq _ _) Hnz)|]. wp_local. apply (my_wp P t). wp_local.
  pose proof Hp1 as (Hx1 & _). apply (info_wp set P t lmax k _ x); [done|]. intros g2 R2 I2. wp_local.
  apply wp_assert; [by apply Z.ltb_lt|]. wp_local. apply (my_wp P t). fold i. wp_local.
  pose proof (leads_rely set P t g1 g2 R2 I2) as L2.
  apply (put_count_wp set P t i); [done|]. intros g3 R3 I3. wp_local.
  pose proof (leads_then set P t _ _ _ L2 R3 I3) as L3.
  apply (info_wp set P t lmax k _ x); [by apply (leads_lat_at P t g1)|]. intros g4 R4 I4.
  pose proof (leads_then set P t _ _ _ L3 R4 I4) as L4.
  destruct (Z.leb_spec (lmax x) (put_row (subs g3) i)) as [Hfull|Hroom].
  { wp_local. apply Hretry; [done|apply Hok1|done|]. intros Hs. destruct (Hs1 Hs) as (Etl & _).
    rewrite (Hs _ _ R3), (Hs _ _ R2) in Hfull.
    rewrite (put_row_eq mw _ i d (law_inv_subs g1 I1) Hi (Hd1 Etl)) in Hfull. lia. }
  wp_local. apply wp_assert; [by rewrite (proj2 (Z.eqb_neq _ _) Ha)|]. wp_local.
  apply (next_put_count_wp _ k _ x); [by apply (leads_lat_at P t g1)|]. intros g5 R5 I5. wp_local.
  pose proof (leads_then set P t _ _ _ L4 R5 I5) as L5.
  apply ((sub_rule wp_qload_next) i p); [done|by apply (leads_at_pos P t g1)|..].
  - intros g6 R6 I6 Hlen6. cbn [Z.eqb]. wp_local. pose proof (leads_then set P t _ _ _ L5 R6 I6) as L6.
    apply (enqueue_link_wp key v a g0 p k x d _ g6 l1).
    + exact (thread_ok_leads set P t _ _ _ L6 Hok1).
    + exact (leads_trans P t _ _ _ L (leads_trans P t _ _ _ L1 L6)).
    + exact (leads_owned P t _ _ _ _ (leads_trans P t _ _ _ L1 L6) Ho).
    + exact (put_at_leads P t _ _ _ _ _ L6 Hp1).
    + done.
    + exact (put_read_leads set P t _ _ _ _ _ I1 Hi L6 Hdr1).
    + done.
    + intros Hs. destruct (Hquiet Hs) as (Etl & Hq). rewrite (Hs _ _ R6), (Hs _ _ R5), (Hs _ _ R4), (Hs _ _ R3), (Hs _ _ R2).
      split; [|exact Hq]. fold i. destruct Hq as ((_ & Hse & _) & _). rewrite (Hse i Hi). by rewrite Etl.
    + intros g7 HE. pose proof HE as (Hok7 & p7 & k7 & x7 & (Hx7 & _) & Hi7 & (D7 & _) & _). wp_local.
      apply (info_wp set P t lwidth k7 _ x7); [done|]. intros g8 R8 I8. wp_local.
      apply wp_assert; [apply Z.leb_le; fold i in Hi7; lia|]. wp_locals. apply HQ.
      apply (enqueued_rely v a g0 d _ g7 g8); [by destruct D7|exact HE|done|done].
    + intros g7 Hok7 L7 Ho7 Hno. wp_locals. apply HQ'; [|by intros Htot; destruct (Hno (alone_still Htot))].
      split; [exact Hok7|split; [done|split; [done|]]]. intros Hs. destruct (Hno Hs).
  - intros b g6 R6 I6 Hb0 Hb6. rewrite (proj2 (Z.eqb_neq _ _) Hb0). wp_local.
    pose proof (leads_then set P t _ _ _ L5 R6 I6) as L6.
    apply ((sub_rule wp_qload_next_known) i p _ b); [done|by apply (leads_at_pos P t g1)|done|].
    intros g7 R7 I7. wp_local. pose proof (leads_then set P t _ _ _ L6 R7 I7) as L7.
    pose proof (put_at_leads P t _ _ _ _ _ L7 Hp1) as ([_ Hx7] & _ & Hk7).
    assert (Hno : still -> False).
    { intros Hs. destruct (Hquiet Hs) as (Etl & (_ & Hse & _) & _). specialize (Hse i Hi). apply lookup_lt_Some in Hb6.
      rewrite (Hs _ _ R6), (Hs _ _ R5), (Hs _ _ R4), (Hs _ _ R3), (Hs _ _ R2) in Hb6. lia. }
    apply (cae_put_wp i d b p k x); [done|by intros Hs; destruct (Hno Hs)|done|done|done| | | |..].
    + by apply (leads_at_pos P t g1).
    + by apply (leads_at_pos P t g6); [apply (leads_rely set)|].
    + intros _. rewrite (leads_row set P t g1 g7 i p I1 L7 Hi Hkt1). split; lia.
    + intros g8 R8 I8 E8 Htl8 Ec Hlt8 g9 L9 Htl9. wp_local.
      pose proof (leads_trans P t _ _ _ L7 L9) as L19. pose proof (ld_inv _ _ _ _ L9) as I9.
      apply (info_wp set P t lmax k _ x); [by apply (leads_lat_at P t g1)|]. intros g10 R10 I10. wp_local.
      apply wp_assert.
      { cbn [dcount] in Ec. rewrite Ec. apply Z.leb_le.
        pose proof (windows_room mw _ _ _ (lw_windows _ _ _ _ _ (inv_law g7 I7)) Hx7) as Hroom7.
        pose proof (rows_mono mw _ _ _ _ (inv_law g1 I1) i 0 p Hi ltac:(lia)) as Hm.
        rewrite (lw_start _ _ _ _ _ (inv_law g1 I1) i Hi) in Hm. lia. }
      wp_locals. apply Hretry; [exact (leads_then set P t _ _ _ L19 R10 I10)|apply Hok1|done|done].
    + intros g8 R8 I8 Hne. wp_locals. apply Hretry; [exact (leads_then set P t _ _ _ L7 R8 I8)|apply Hok1|done|done].
Qed.

(** For a thread alone: the element is the last one, in the last window. *)
Definition enqueued_alone g0 g (i k : Z) : Prop :=
  quiet g /\ Head g = Head g0 /\ grown g0 g /\
  k = Z.of_nat (tail_pos (subs g) i) /\
  exists x, ws g !! Tail g = Some x /\ i < lwidth x /\ bottom x < put_row (subs g) i.

(** The tail pointer follows the new node. *)
Lemma enqueue_finish_wp v a g0 d new (Q : Z -> estate -> tls windows -> Prop) g l :
  enqueued v a g0 d new g l -> p_inv P g ->
  (forall i k g' l', thread_ok g' l' -> 0 <= i < mw -> did_op P t [Enq i k v] g0 g' ->
     (still -> enqueued_alone g0 g' i k) -> Q 1 g' l') ->
  wp P t (assert_ (negb (dnode new =? 0)) ;;;
          let* index := my thread_put_index in
          let* _ := cae_put index d new in
          Ret 1) Q g l.
Proof.
  intros (Hok & p & k & x & Hp & Hi & D & Hk & Ha & Hpt & Hrow & Hlt & -> & Hst) HI HQ.
  set (i := thread_put_index (thread_Window l)) in *. pose proof Hp as ([_ Hx] & _ & HkT).
  pose proof (window_width set P t g k x HI Hx) as Hw. assert (Hi' : 0 <= i < mw) by lia.
  destruct (at_pos_node mw _ _ _ _ (law_inv_subs g HI) Hi' Ha) as (Hnz & _).
  wp_local. apply wp_assert; [cbn; by rewrite (proj2 (Z.eqb_neq _ _) Hnz)|]. wp_local. apply (my_wp P t). fold i.
  wp_local.
  apply (cae_put_wp i d a p k x); [done|by intros Hs; apply Hst|done|done|done|done|done|by intros _; split; [lia|]|..].
  - intros g1 R1 I1 E1 Htl1 Ec Hlt1 g2 L2 Htl2. wp_locals. apply (HQ i (Z.of_nat (S p))).
    + exact (thread_ok_leads set P t _ _ _ L2 Hok).
    + done.
    + apply (did_op_then P t _ [] g0 g g2 D). apply leads_did; [done|]. intros Hs. by rewrite <- (Hs _ _ R1).
    + intros Hs. pose proof (Hs _ _ R1) as Eg. subst g1. destruct (Hst Hs) as (Hsz & Ed & -> & Ek & EH & Ews & Hdr & Hse).
      pose proof (law_inv_subs g HI) as HIs. cbn [dcount] in Ec.
      assert (Hr : put_row (with_put i (mkDesc a (next_count (dcount d) x)) (subs g)) i = Z.max (dcount d) (bottom x) + 1).
      { unfold put_row. rewrite (tail_pos_with_put mw) by done. rewrite decide_True by done.
        rewrite (row_with_put mw) by (done || lia). rewrite decide_True by done. exact Ec. }
      unfold g2 in *. cbn [set_subs window subs] in *. split; [split; [exact Ek|split]|].
      * intros j Hj. cbn [set_subs subs]. change (links_of (with_put _ _ (subs g)) j) with (links_of (subs g) j).
        rewrite Hse by done. rewrite (tail_pos_with_put mw _ _ _ j HIs Hi'). destruct (decide (i = j)) as [<-|].
        -- rewrite decide_True by done. lia.
        -- rewrite decide_False by lia. lia.
      * apply drained_put; [done|done|done|]. intros y Hy. cbn [dcount]. rewrite Ec.
        pose proof (windows_bottom mw _ _ _ _ _ (lw_windows _ _ _ _ _ (inv_law g HI)) Hy Hx
          (lw_head _ _ _ _ _ (inv_law g HI))). lia.
      * split; [done|split; [done|split; [f_equal; symmetry; exact Htl2|]]]. exists x.
        split; [done|split; [lia|]]. cbn [set_subs subs]. rewrite Hr. lia.
  - intros g1 R1 I1 Hne. wp_locals. apply (HQ i (Z.of_nat (S p))).
    + exact (thread_ok_leads set P t _ _ _ (leads_rely set P t g g1 R1 I1) Hok).
    + done.
    + by apply ((sub_rule did_op_rely) _ g0 g g1).
    + intros Hs. destruct Hne. rewrite (Hs _ _ R1). by apply Hst.
Qed.

Lemma law_enqueue_wp key v (Q : Z -> estate -> tls windows -> Prop) g l :
  p_inv P g -> thread_ok g l -> (still -> quiet g /\ room 2 g) ->
  (forall i k g' l', thread_ok g' l' -> 0 <= i < mw -> did_op P t [Enq i k v] g g' ->
     (still -> enqueued_alone g g' i k) -> Q 1 g' l') ->
  wp P t (enqueue set key v) Q g l.
Proof.
  intros HI Hok Hst HQ. pose proof Hok as [Ht _]. unfold enqueue, create_node. wp_local.
  apply ((sub_step wp_qalloc_c) law_with_heap); [done|]. intros a g1 m R1 I1 g2 I2 He2 Hu2 Ho2. wp_local.
  destruct (law_inv_subs g2 I2) as (_&_&_&_&[Hnull _]&_).
  assert (Ha : a <> 0) by (intros ->; destruct Ho2 as [_ Eo]; unfold lookup_node in Eo; congruence).
  assert (L2 : leads g g2).
  { eapply leads_trans; [by apply (leads_rely set)|]. by split; [| | |apply lat_evolves_refl]. }
  eapply (wp_while P t _ _ _ _ (fun _ _ => enqueue_loop key v a g) 0%nat).
  - split; [exact (thread_ok_leads set P t _ _ _ L2 Hok)|split; [done|split; [done|]]].
    intros Hs. destruct (Hst Hs) as (Hq & Hr). unfold g2. rewrite (Hs _ _ R1). cbn. done.
  - intros n c g3 l3 HJ. apply (law_enqueue_body_wp key v a g c n); [done|done|..].
    + intros d new g4 l4 HE. wp_local. cbv beta iota. apply (enqueue_finish_wp v a g d new); [done| |done].
      by destruct HE as (_ & p & k & x & _ & _ & ((? & _) & _) & _).
    + intros c' g4 l4 HJ4 Hn. by exists n.
Qed.

(** *** [dequeue] *)

(** The count that goes with a node taken through window [x]. *)
Definition deq_count (c : Z) (x : lateral_node_t) : Z :=
  let count := u64 (c + 1) in
  let min := u64 (lmax x - ldepth x + 1) in
  if count <? min then min else count.

Lemma deq_count_eq c x :
  0 <= bottom x <= lmax x -> lmax x < 2 ^ 63 -> 0 <= c < 2 ^ 63 -> deq_count c x = Z.max (c + 1) (bottom x + 1).
Proof.
  intros Hb Hm Hc. unfold deq_count, bottom in *. rewrite !wrap_small by lia.
  destruct (Z.ltb_spec (c + 1) (lmax x - ldepth x + 1)); lia.
Qed.

Lemma safe_deq_wp g0 p d h z x (Q : bool + Z -> estate -> tls windows -> Prop) g l :
  let i := thread_get_index (thread_Window l) in
  thread_ok g l -> leads g0 g -> get_at g l h z x -> get_read g i p d -> (p < tail_pos (subs g) i)%nat ->
  (still -> sized g /\ hist (subs g) = hist (subs g0) /\ lookup_get i g = Some d) ->
  dcount d < lmax x \/ (still -> False) ->
  (forall v g' l', thread_ok g' l' -> did_op P t [Deq i (Z.of_nat (S p)) v] g0 g' ->
     (still -> exists new, g' = set_subs (taken t i p new v (subs g)) g /\ head_pos (subs g) i = p /\
        dcount new = Z.max (dcount d + 1) (bottom x + 1)) -> Q (inr v) g' l') ->
  (forall g' l', thread_ok g' l' -> leads g0 g' -> (still -> False) -> Q (inl true) g' l') ->
  wp P t (safe_deq i d) Q g l.
Proof.
  intros i Hok L Hg Hd Hpt Hst Hor HQ HQ'. pose proof (ld_inv _ _ _ _ L) as HI.
  pose proof Hg as (_ & Hb & _ & _ & Hi). pose proof (window_width set P t g _ x HI (proj2 Hb)) as Hw.
  fold i in Hi. assert (Hi' : 0 <= i < mw) by lia. pose proof Hok as [Ht _].
  destruct Hd as (Hk & Hkh & Hr).
  destruct (lookup_lt_is_Some_2 (links_of (subs g) i) (S p)) as [b Hkb].
  { destruct (sub_positions mw _ i (law_inv_subs g HI) Hi') as ([_ ?] & _). lia. }
  unfold safe_deq. wp_local. apply ((sub_rule wp_qload_next_known) i p _ b); [done|done|done|].
  intros g1 R1 I1. wp_local. apply (my_wp P t). wp_local. pose proof (leads_rely set P t g g1 R1 I1) as L1.
  apply (info_wp set P t lmax (S h) _ x); [by apply (leads_lat_at P t g)|]. intros g2 R2 I2. wp_local.
  pose proof (leads_then set P t _ _ _ L1 R2 I2) as L2.
  apply (info_wp set P t ldepth (S h) _ x); [by apply (leads_lat_at P t g)|]. intros g3 R3 I3. wp_local.
  pose proof (leads_then set P t _ _ _ L2 R3 I3) as L3.
  assert (Hst3 : still -> g3 = g) by (intros Hs; by rewrite (Hs _ _ R3), (Hs _ _ R2), (Hs _ _ R1)).
  set (new := mkDesc b (deq_count (dcount d) x)).
  assert (Hnew : forall g4, leads g g4 -> sized g4 -> lookup_get i g4 = Some d ->
    dcount new = Z.max (dcount d + 1) (bottom x + 1)).
  { intros g4 L4 Hsz4 E4. pose proof (ld_inv _ _ _ _ L4) as I4.
    destruct (sized_window g4 _ x Hsz4 I4 (leads_window P t _ _ _ _ L4 (proj2 Hb))) as [? ?].
    pose proof (sized_get_row g4 i Hsz4 I4 Hi') as Hgr. rewrite (get_row_eq _ i d E4) in Hgr.
    by apply deq_count_eq. }
  cbv zeta.
  unfold deq_cae. apply ((sub_step wp_cae_get_c) i p d new); [done|done|by apply (leads_at_pos P t g)|..].
  - intros g4 R4 I4 O4 E4 Hp4. pose proof (leads_then set P t _ _ _ L3 R4 I4) as L4.
    pose proof (leads_tail_pos P t _ _ i L4).
    split; [lia|split; [exact (leads_at_pos P t _ _ _ _ _ L4 Hkb)|split; [done|]]]. intros v.
    unfold law. cbn [set_subs window subs]. rewrite <- Hp4.
    apply (law_taken mw _ _ _ _ t i d new v (S h) x); try done; [by apply inv_law|by apply law_inv_subs|..].
    + exact (leads_window P t _ _ _ _ L4 (proj2 Hb)).
    + lia.
    + apply (Hnew g4); [done| |done]. apply sized_ok; [done|done|]. intros Hs. rewrite (Hs _ _ R4), (Hst3 Hs). by apply Hst.
    + destruct Hor as [|Hno]; [by left|right]. destruct Hmode as [Hs|Hok']; [destruct (Hno Hs)|].
      by destruct (Hok' g4 O4) as [[_ ?] _].
  - intros g4 g5 n R4 I4 E4 Hp4 En D E5. wp_local. pose proof (leads_then set P t _ _ _ L3 R4 I4) as L4.
    pose proof D as (I5 & He5 & _).
    apply ((sub_rule wp_qload_val) i (S p) b n); [done|done| | |].
    + rewrite E5. exact (leads_at_pos P t _ _ _ _ _ L4 Hkb).
    + by rewrite E5.
    + intros g6 R6 I6. wp_locals. apply HQ.
      * assert (Hok4 : thread_ok g4 l) by exact (thread_ok_leads set P t _ _ _ L4 Hok).
        apply (thread_ok_leads set P t g5 g6); [by apply (leads_rely set)|]. rewrite E5. exact Hok4.
      * apply ((sub_rule did_op_rely) _ g0 g5 g6); [|done|done].
        apply ((sub_rule did_op_step) [Deq i (Z.of_nat (S p)) (qval n)] [] g0 g4 g4 g5); [|apply (rely_refl (P := P))|exact D|].
        -- apply leads_did; [exact (leads_trans P t _ _ _ L L4)|]. intros Hs. rewrite (Hs _ _ R4), (Hst3 Hs). by apply Hst.
        -- intros _. by rewrite E5.
      * intros Hs. rewrite (Hs _ _ R6), E5, (Hs _ _ R4), (Hst3 Hs). exists new. split; [done|].
        rewrite (Hs _ _ R4), (Hst3 Hs) in Hp4. split; [done|]. destruct (Hst Hs) as (? & _ & ?).
        apply (Hnew g); [|done|done]. apply (leads_rely set P t); [apply (rely_refl (P := P))|done].
  - intros g4 R4 I4 Hne. wp_locals. pose proof (leads_then set P t _ _ _ L3 R4 I4) as L4. apply HQ'.
    + exact (thread_ok_leads set P t _ _ _ L4 Hok).
    + exact (leads_trans P t _ _ _ L L4).
    + intros Hs. apply Hne. rewrite (Hs _ _ R4), (Hst3 Hs). by apply Hst.
Qed.

(** For a thread alone: the element is the first of its sub-queue, in the first
    window that is not exhausted. *)
Definition dequeued_alone g0 g (i v : Z) : Prop :=
  let k := head_pos (subs g0) i in
  quiet g /\ unchanged g0 g /\ Tail g = Tail g0 /\ drained mw (ws g0) (Head g) (subs g0) /\
  (k < tail_pos (subs g0) i)%nat /\ (exists new, subs g = taken t i k new v (subs g0)) /\
  exists x, ws g0 !! S (Head g) = Some x /\ i < lwidth x /\ row (subs g0) i (S k) <= lmax x.
Definition empty_alone g0 g (i : Z) : Prop :=
  quiet g /\ unchanged g0 g /\ Tail g = Tail g0 /\ subs g = with_event (t, Nothing i) (subs g0) /\
  forall j, 0 <= j < mw -> tail_pos (subs g0) j = head_pos (subs g0) j.

(** What a thread alone knows between two iterations of [dequeue]. *)
Definition dequeue_alone g0 g : Prop :=
  quiet g /\ sized g /\ subs g = subs g0 /\ unchanged g0 g /\ Tail g = Tail g0.

(** The head pointer read is where it was read. *)
Lemma get_position g i p d :
  p_inv P g -> 0 <= i < mw -> lookup_get i g = Some d -> at_pos (subs g) i p (dnode d) ->
  head_pos (subs g) i = p.
Proof.
  intros HI Hi E Hk. destruct (sub_at_of set P t g i HI Hi) as (dp & dg & Hs).
  pose proof (sa_geta _ _ _ _ Hs) as Hg. pose proof (sa_get _ _ _ _ Hs) as E'. unfold lookup_get in E.
  assert (dg = d) as -> by congruence.
  exact (at_pos_inj mw _ _ _ _ _ (law_inv_subs g HI) Hi Hg Hk).
Qed.

Lemma dequeued_alone_intro g0 g i d x new v :
  p_inv P g -> dequeue_alone g0 g -> ws g !! S (Head g) = Some x -> 0 <= i < lwidth x ->
  (head_pos (subs g) i < tail_pos (subs g) i)%nat -> lookup_get i g = Some d -> dcount d < lmax x ->
  dcount new = Z.max (dcount d + 1) (bottom x + 1) ->
  dequeued_alone g0 (set_subs (taken t i (head_pos (subs g) i) new v (subs g)) g) i v.
Proof.
  intros HI ((Q1 & Q2 & Q3) & _ & Es & [Erest Ews] & ET) Hx Hi Hlt Ed Hc En.
  pose proof (window_width set P t g _ x HI Hx). pose proof Q3 as [Hexact _].
  pose proof (get_row_eq _ i d Ed) as Eg. rewrite Hexact in Eg by lia.
  destruct (drained_next_row mw _ _ _ _ (inv_law g HI) x i Q3 Hx Hi Hlt) as [Er Hr]; [lia|].
  unfold dequeued_alone, unchanged. cbn [set_subs window subs]. rewrite <- Es, <- Ews. split; [|split; [done|split; [done|split; [exact Q3|split; [done|split]]]]].
  - split; [done|split; [exact Q2|]]. apply drained_taken; [done|by apply law_inv_subs|lia|done|lia].
  - by exists new.
  - exists x. split; [done|split; [lia|done]].
Qed.

Lemma empty_alone_intro g0 g i x :
  p_inv P g -> dequeue_alone g0 g -> S (Head g) = Tail g -> ws g !! S (Head g) = Some x ->
  (forall j, 0 <= j < lwidth x -> get_stuck g (Head g) x j) ->
  (forall j, 0 <= j < mw -> tail_pos (subs g) j = head_pos (subs g) j) /\
  empty_alone g0 (set_subs (with_event (t, Nothing i) (subs g)) g) i.
Proof.
  intros HI ((Q1 & Q2 & Q3) & _ & Es & [Erest Ews] & ET) HT Hx Hall.
  assert (He : forall j, 0 <= j < mw -> tail_pos (subs g) j = head_pos (subs g) j).
  { apply (drained_empty mw _ _ _ _ (inv_law g HI) (law_inv_subs g HI) x); try done; [by rewrite <- HT|].
    intros j Hj. pose proof (window_width set P t g _ x HI Hx). pose proof Q3 as [Hexact _].
    rewrite <- Hexact by lia. rewrite HT in Hx.
    pose proof (lw_top _ _ _ _ _ (inv_law g HI) j x ltac:(lia) Hx).
    destruct (Hall j Hj) as [|[_ ?]]; lia. }
  split; [done|]. unfold empty_alone, unchanged. cbn [set_subs window subs]. rewrite <- Es.
  split; [|done]. split; [done|split; [exact Q2|]]. destruct Q3 as [Q3 Q4]. split; [exact Q3|exact Q4].
Qed.

Definition dequeue_loop g0 g l : Prop :=
  thread_ok g l /\ leads g0 g /\ (still -> dequeue_alone g0 g /\ exists x, put_at g l (Tail g) x).

Lemma law_dequeue_body_wp g0 contention m (Q : bool + Z -> estate -> tls windows -> Prop) g l :
  dequeue_loop g0 g l ->
  (forall i k v g' l', thread_ok g' l' -> 0 <= i < mw -> did_op P t [Deq i k v] g0 g' ->
     (still -> dequeued_alone g0 g' i v) -> Q (inr v) g' l') ->
  (forall i g' l', thread_ok g' l' -> 0 <= i < mw -> did_op P t [Nothing i] g0 g' ->
     (still -> empty_alone g0 g' i) -> Q (inr 0) g' l') ->
  (forall c g' l', dequeue_loop g0 g' l' -> (p_total P = true -> m < m)%nat -> Q (inl c) g' l') ->
  wp P t (dequeue_body set contention) Q g l.
Proof.
  intros (Hok & L & Hst) HQ HQ0 HQ'. pose proof (ld_inv _ _ _ _ L) as HI. unfold dequeue_body. wp_local.
  apply (law_get_window_wp set Hset P t alone_still); [done|done| |].
  { intros Hs. destruct (Hst Hs) as ((_ & ? & _) & ?). done. }
  intros d g1 l1 (L1 & Hok1 & p & kp & h & xp & z & x & Hp1 & Hg1 & Hd1 & Hor & Hs1).
  pose proof (ld_inv _ _ _ _ L1) as I1. set (i := thread_get_index (thread_Window l1)) in *.
  pose proof Hg1 as (_ & Hb & _ & _ & Hi1). fold i in Hi1.
  pose proof (window_width set P t g1 _ x I1 (proj2 Hb)) as Hw. assert (Hi : 0 <= i < mw) by lia.
  assert (Hquiet : still -> dequeue_alone g0 g1 /\ h = Head g1 /\ kp = Tail g1 /\ lookup_get i g1 = Some d /\
    head_pos (subs g1) i = p).
  { intros Hs. destruct (Hst Hs) as (((Q1 & Q2 & Q3) & Hsz & E1 & [Er E2] & E3) & _).
    destruct (Hs1 Hs) as ((F1 & [Fr F2] & F3 & F4 & F5 & F6) & Ed & _). split; [|split; [done|split; [done|split; [done|]]]].
    - split; [split; [by rewrite F2, F3|split; [unfold settled; by rewrite F1|rewrite <- F1 in Q3; rewrite F1 in Q3; by apply F6]]|].
      unfold sized, unchanged in *. rewrite F1, F2, F3, Fr. done.
    - apply (get_position g1 i p d); [done|done|done|]. by destruct Hd1. }
  assert (Hretry : forall c g2 l2, thread_ok g2 l2 -> leads g1 g2 -> (still -> False) -> Q (inl c) g2 l2).
  { intros c g2 l2 Hok2 L2 Hno. apply HQ'; [|by intros Htot; destruct (Hno (alone_still Htot))].
    split; [done|split; [exact (leads_trans P t _ _ _ L (leads_trans P t _ _ _ L1 L2))|]]. intros Hs. destruct (Hno Hs). }
  (* The dequeue itself, when there is a next node. *)
  assert (Hsafe : forall g3, leads g1 g3 -> (still -> g3 = g1) -> (p < tail_pos (subs g3) i)%nat ->
    dcount d < lmax x \/ (still -> False) -> wp P t (safe_deq i d) Q g3 l1).
  { intros g3 L3 Hst3 Hlt Hor3. apply (safe_deq_wp g0 p d h z x).
    - exact (thread_ok_leads set P t _ _ _ L3 Hok1).
    - exact (leads_trans P t _ _ _ L (leads_trans P t _ _ _ L1 L3)).
    - exact (get_at_leads P t _ _ _ _ _ _ L3 Hg1).
    - exact (get_read_leads set P t _ _ _ _ _ I1 Hi L3 Hd1).
    - done.
    - intros Hs. rewrite (Hst3 Hs). destruct (Hquiet Hs) as ((_ & Hsz & Es & _) & _ & _ & Ed & _).
      split; [done|split; [by rewrite Es|done]].
    - done.
    - intros v g4 l4 Hok4 D4 Hs4. apply (HQ i (Z.of_nat (S p)) v); [done|done|done|]. intros Hs.
      destruct (Hs4 Hs) as (new & -> & Hp & En). rewrite (Hst3 Hs) in *.
      destruct (Hquiet Hs) as (Ha & -> & _ & Ed & <-).
      apply (dequeued_alone_intro g0 g1 i d x); try done; [exact (proj2 Hb)|].
      destruct Hor3 as [|Hno]; [done|destruct (Hno Hs)].
    - intros g4 l4 Hok4 L4 Hno. apply HQ'; [|by intros Htot; destruct (Hno (alone_still Htot))].
      split; [done|split; [done|]]. intros Hs. destruct (Hno Hs). }
  wp_local. apply (my_wp P t). fold i. wp_local. apply (my_wp P t). wp_local. pose proof Hp1 as ([Hxp1 Hxp] & _ & HkT).
  apply (info_wp set P t lmax kp _ xp); [by split|]. intros g2 R2 I2. wp_local. apply (my_wp P t). wp_local.
  pose proof (leads_rely set P t g1 g2 R2 I2) as L2.
  apply (info_wp set P t lmax (S h) _ x); [by apply (leads_lat_at P t g1)|]. intros g3 R3 I3.
  pose proof (leads_then set P t _ _ _ L2 R3 I3) as L3.
  assert (Hst3 : still -> g3 = g1) by (intros Hs; by rewrite (Hs _ _ R3), (Hs _ _ R2)).
  pose proof (lw_windows _ _ _ _ _ (inv_law g1 I1)) as Ho.
  pose proof (get_read_leads set P t _ _ _ _ _ I1 Hi L3 Hd1) as (Hk3 & Hkh3 & Hr3).
  pose proof (head_before_tail set P t g3 i I3 Hi) as Hht3.
  destruct (Z.ltb_spec (lmax x) (lmax xp)) as [Hlt|Hge].
  - assert (Hgt : (S h < kp)%nat).
    { destruct (decide (kp <= S h)%nat) as [Hle|]; [|lia].
      pose proof (windows_max _ _ _ _ _ _ Ho Hxp (proj2 Hb) Hle). lia. }
    assert (Hc : dcount d < lmax x) by (destruct Hor; [done|lia]).
    apply Hsafe; [done|done| |by left].
    pose proof (leads_tail P t _ _ L3). pose proof (lw_tail _ _ _ _ _ (inv_law g3 I3)).
    apply (below_put_window mw _ _ _ _ (inv_law g3 I3) (S h) x i p (dcount d)); try done; [|lia|lia].
    exact (leads_window P t _ _ _ _ L3 (proj2 Hb)).
  - wp_local. apply (put_read_wp set P t i); [done|]. intros g4 q e R4 I4 (Hq4 & Hqt4 & He4 & Hre4) Htq.
    pose proof (leads_then set P t _ _ _ L3 R4 I4) as L4. pose proof (leads_at_pos P t _ _ _ _ _ (leads_rely set P t g3 g4 R4 I4) Hk3) as Hk4.
    assert (Hst4 : still -> g4 = g1) by (intros Hs; by rewrite (Hs _ _ R4), (Hst3 Hs)).
    destruct (Z.eqb_spec (dnode d) (dnode e)) as [En|Hne].
    + rewrite En in Hk4. pose proof (at_pos_inj mw _ _ _ _ _ (law_inv_subs g4 I4) Hi Hk4 Hq4) as <-.
      assert (Hph4 : (p <= head_pos (subs g4) i)%nat).
      { pose proof (ev_head _ _ i (ld_subs _ _ _ _ (leads_rely set P t g3 g4 R4 I4))). lia. }
      pose proof (thread_ok_leads set P t _ _ _ L4 Hok1) as Hok4. wp_local.
      apply ((sub_step wp_load_head_next_c) law_with_nothing i p); [done|apply Hok1|by rewrite En|done|..].
      * intros g5 g6 R5 I5 D6 E6 Hc6 Hlen6. cbn [Z.eqb]. wp_locals.
        pose proof (leads_then set P t _ _ _ L4 R5 I5) as L5. pose proof (leads_trans P t _ _ _ L (leads_trans P t _ _ _ L1 L5)) as L05.
        apply (HQ0 i); [|done| |].
        -- rewrite E6. exact (thread_ok_leads set P t _ _ _ L5 Hok1).
        -- apply ((sub_rule did_op_step) [Nothing i] [] g0 g5 g5 g6); [|apply (rely_refl (P := P))|exact D6|by intros _; rewrite E6].
           apply leads_did; [done|]. intros Hs. destruct (Hquiet Hs) as ((_ & _ & Es & _) & _).
           by rewrite (Hs _ _ R5), (Hst4 Hs), Es.
        -- intros Hs. destruct (Hquiet Hs) as (Ha & -> & Ekp & Ed & Hph). rewrite E6, (Hs _ _ R5), (Hst4 Hs).
           assert (HT : S (Head g1) = Tail g1).
           { destruct Hg1 as (_ & _ & HhT & _). destruct (decide (S (Head g1) = Tail g1)) as [|Hne]; [done|].
             pose proof (windows_bottom _ _ _ _ _ _ Ho (proj2 Hb) Hxp ltac:(lia)). lia. }
           destruct (Hs1 Hs) as (_ & _ & [[_ Hlt]|[_ Hall]]).
           ++ exfalso. specialize (Hlt HT). fold i in Hlt. rewrite (Hst3 Hs) in Htq. rewrite (Hst4 Hs) in Hqt4.
              destruct Ha as ((_ & _ & Hexact & _) & _). pose proof (get_row_eq _ i d Ed) as Eg.
              rewrite Hexact in Eg by done. unfold put_row in Hlt. rewrite Hph in Eg.
              assert (Et : tail_pos (subs g1) i = p) by lia. rewrite Et in Hlt. lia.
           ++ by destruct (empty_alone_intro g0 g1 i x I1 Ha HT (proj2 Hb) Hall) as [_ ?].
      * intros b g5 R5 I5 Hb0 Hb5. rewrite (proj2 (Z.eqb_neq _ _) Hb0). wp_local.
        pose proof (leads_then set P t _ _ _ L4 R5 I5) as L5. rewrite En in *.
        apply ((sub_rule wp_qload_next_known) i p _ b); [done|exact (leads_at_pos P t _ _ _ _ _ (leads_rely set P t g4 g5 R5 I5) Hq4)|done|].
        intros g6 R6 I6. wp_local. pose proof (leads_then set P t _ _ _ L5 R6 I6) as L6.
        apply (lat_rule wp_load_ltail). intros g7 a y R7 I7 _ _ Hy. wp_local.
        pose proof (leads_then set P t _ _ _ L6 R7 I7) as L7.
        apply (next_put_count_wp _ (Tail g7) a y); [done|]. intros g8 R8 I8. wp_local.
        pose proof (leads_then set P t _ _ _ L7 R8 I8) as L8. pose proof (leads_rely set P t g7 g8 R8 I8) as L78.
        assert (L57 : leads g5 g7).
        { eapply leads_trans; [by apply (leads_rely set P t g5 g6)|by apply (leads_rely set P t g6 g7)]. }
        assert (L48 : leads g4 g8).
        { eapply leads_trans; [by apply (leads_rely set P t g4 g5)|]. by eapply leads_trans. }
        pose proof (leads_at_pos P t _ _ _ _ _ L57 Hb5) as Hb7.
        assert (Hno : still -> False).
        { intros Hs. destruct (Hquiet Hs) as (((_ & Hse & _) & _) & _). specialize (Hse i Hi).
          apply lookup_lt_Some in Hb5. rewrite (Hs _ _ R5), (Hst4 Hs) in Hb5.
          rewrite (Hst3 Hs) in Htq. lia. }
        assert (Hlag : tail_pos (subs g8) i = p -> i < lwidth y /\ row (subs g8) i p < lmax y).
        { intros Htl8. pose proof (leads_tail_pos P t _ _ i L78).
          assert (Hp7 : (p < length (links_of (subs g7) i))%nat).
          { apply lookup_lt_Some in Hb7. lia. }
          destruct (sub_positions mw _ i (law_inv_subs g7 I7) Hi) as (_ & Hlen7 & _). apply lookup_lt_Some in Hb7.
          assert (Htl7 : tail_pos (subs g7) i = p) by lia.
          destruct (lw_lag _ _ _ _ _ (inv_law g7 I7) i Hi) as (y' & _ & Hy' & Hiy & Hlt); [lia|].
          assert (y' = y) as -> by (destruct Hy; congruence). split; [done|].
          rewrite (leads_row set P t g7 g8 i p I7 L78 Hi) by lia. unfold put_row in Hlt. by rewrite Htl7 in Hlt. }
        apply (cae_put_wp i e b p (Tail g7) y); try done.
        -- exact (proj2 (leads_lat_at P t _ _ _ _ _ L78 Hy)).
        -- exact (leads_tail P t _ _ L78).
        -- exact (leads_at_pos P t _ _ _ _ _ L48 Hq4).
        -- exact (leads_at_pos P t _ _ _ _ _ L78 Hb7).
        -- intros g9 R9 I9 _ _ _ _ g10 L10 _. wp_locals. apply Hretry; [|exact (leads_trans P t _ _ _ L8 L10)|done].
           exact (thread_ok_leads set P t _ _ _ (leads_trans P t _ _ _ L8 L10) Hok1).
        -- intros g9 R9 I9 _. wp_locals. pose proof (leads_then set P t _ _ _ L8 R9 I9) as L9.
           apply Hretry; [exact (thread_ok_leads set P t _ _ _ L9 Hok1)|done|done].
    + apply Hsafe; [done|done| |].
      * assert (p <> q) by (intros <-; unfold at_pos in *; congruence). lia.
      * destruct (decide (dcount d < lmax x)); [by left|right]. intros Hs.
        destruct (Hquiet Hs) as (Ha & -> & _ & Ed & Hph). destruct (Hs1 Hs) as (_ & _ & [[? _]|[HT Hall]]); [lia|].
        destruct (empty_alone_intro g0 g1 i x I1 Ha HT (proj2 Hb) Hall) as [He _]. specialize (He i Hi).
        assert (p <> q) by (intros <-; unfold at_pos in *; congruence).
        rewrite (Hst4 Hs) in Hqt4. rewrite (Hst3 Hs) in Htq. lia.
Qed.

Lemma law_dequeue_wp (Q : Z -> estate -> tls windows -> Prop) g l :
  p_inv P g -> thread_ok g l -> (still -> quiet g /\ sized g) ->
  (forall i k v g' l', thread_ok g' l' -> 0 <= i < mw -> did_op P t [Deq i k v] g g' ->
     (still -> dequeued_alone g g' i v) -> Q v g' l') ->
  (forall i g' l', thread_ok g' l' -> 0 <= i < mw -> did_op P t [Nothing i] g g' ->
     (still -> empty_alone g g' i) -> Q 0 g' l') ->
  wp P t (dequeue set) Q g l.
Proof.
  intros HI (Ht & Hpi & _ & Hge) Hst HQ HQ0. unfold dequeue. wp_local. apply (sync_tail_wp set P t).
  intros g1 a x R1 I1 Hx. pose proof (leads_rely set P t g g1 R1 I1) as L1.
  assert (Hput : put_at g1 (upd (set_put_window a) l) (Tail g1) x) by done.
  eapply (wp_while P t _ _ _ _ (fun _ _ => dequeue_loop g) 0%nat).
  - split; [|split; [done|]].
    + split; [done|split; [done|split; [by exists (Tail g1), x|]]].
      destruct Hge as (h & z & y & Hg). exists h, z, y. exact (get_at_leads P t _ _ _ _ _ _ L1 Hg).
    + intros Hs. rewrite (Hs _ _ R1) in *. split; [|by exists x]. by destruct (Hst Hs).
  - intros n c g2 l2 HJ. apply (law_dequeue_body_wp g c n); [done|..].
    + intros i k v g3 l3 ? ? ? ?. wp_local. by apply (HQ i k v).
    + intros i g3 l3 ? ? ? ?. wp_local. by apply (HQ0 i).
    + intros c' g3 l3 HJ3 Hn. by exists n.
Qed.
End operations.
