(* ===== verification/LawRuns.v ===== *)
(** The elastic queue (LaW): whole executions, from [create_queue] on. *)
From S2P Require Import Prelude Conc Random Thread Params StackHeap QueueHeap Shared SubQueues Lateral ElasticLaw.
From S2P Require Import Rows RowOrder LawWindow LawQueue.

(** ** Creation and the other operations *)

Section operations.
Context {A : Allocator (qnode_of unit)} {LA : Allocator (lnode lateral_node_t)}.
Context (set : mqueue_t) (Hset : set_ok set).
Notation mw := (max_width set).
Notation base := (law_base set).
Notation law := (law set).
Notation ws g := (infos (lat (window g))).
Notation Tail g := (ltail_pos (lat (window g))).
Notation Head g := (lhead_pos (lat (window g))).
Implicit Types (g : estate) (l : tls windows).

(** The arguments of the client's calls that the queue is prepared for. *)
Definition op_ok (o : eop) : Prop :=
  match o with
  | QueueOp _ => True
  | UpdateDepth v => 1 <= v < 2 ^ 16
  | UpdateWidth v => 1 <= v <= mw
  end.

Section rules.
Context (P : protocol estate) (t : nat) {couples : Couples P base law t}.
Notation still := (forall g g', p_rely P t g g' -> g' = g).
#[local] Instance rreads : Reads P base t := couples_reads (C := law).
#[local] Instance rlaws : ProtocolLaws P := reads_laws (B := base) (t := t).

Lemma swap_dim_wp f set_f v (Q : Z -> estate -> tls windows -> Prop) g l :
  p_inv P g -> (forall d, dims_ok set d -> dims_ok set (set_f v d)) ->
  (forall r g', leads P t g g' ->
     (still -> r = f (rest (window g)) /\ g' = set_rest (set_f v (rest (window g))) g) -> Q r g' l) ->
  wp P t (swap_dim f set_f v) Q g l.
Proof.
  intros HI Hd HQ g1 R1 I1 _. cbn -[set_rest].
  destruct (rstep (dims_prot set) law_limits (qprot mw (2 ^ 62)) P t law g1 (set_f v (rest (window g1))) I1) as [HG HI'];
    [apply Hd; exact (inv_rest set P t g1 I1)|done|exact (inv_law set P t g1 I1)|].
  split; [exact HG|split; [exact HI'|]]. apply HQ.
  - apply (leads_trans P t g g1); [by apply (leads_rely set)|].
    split; [done|apply evolves_refl|apply untouched_refl|apply lat_evolves_refl].
  - intros Hs. by rewrite (Hs _ _ R1).
Qed.

(** The thread-local variables are zero when a thread starts. *)
Definition windows0 : windows := mkWindows 0 0 0 0 0 0.

Lemma init_wp (Q : unit -> estate -> tls windows -> Prop) g l :
  thread_id l = t -> thread_Window l = windows0 ->
  (forall g' l', p_rely P t g g' -> p_inv P g' -> thread_ok set t g' l' -> Q tt g' l') ->
  wp P t init_thread_windows Q g l.
Proof.
  intros Ht E HQ. destruct Hset as [Hmw _]. unfold init_thread_windows. wp_local.
  apply (wp_load_lhead (dims_prot set) law_limits (qprot mw (2 ^ 62)) P t law). intros g1 a z R1 I1 _ Ha. wp_local.
  apply (wp_load_ltail (dims_prot set) law_limits (qprot mw (2 ^ 62)) P t law). intros g2 b y R2 I2 _ _ Hb. wp_local.
  pose proof (leads_rely set P t g1 g2 R2 I2) as L2.
  pose proof (inv_law set P t g1 I1) as HL1. pose proof (lw_tail _ _ _ _ _ HL1). pose proof (lw_head _ _ _ _ _ HL1).
  destruct (lat_at_exists (lat (window g1)) (S (Head g1)) (inv_lat set P t g1 I1)) as (c & x & Hc).
  { rewrite <- (li_infos _ (inv_lat set P t g1 I1)). lia. }
  pose proof (leads_lat_at P t _ _ _ _ _ L2 Ha) as Ha2. pose proof (leads_lat_at P t _ _ _ _ _ L2 Hc) as Hc2.
  apply ((wp_load_lnext_known (dims_prot set) law_limits (qprot mw (2 ^ 62)) P t law) (Head g1) a z c x); [done|done|].
  intros g3 R3 I3. wp_locals. pose proof (leads_rely set P t g2 g3 R3 I3) as L3.
  pose proof (leads_trans P t _ _ _ L2 L3) as L13. pose proof (leads_tail P t _ _ L13). pose proof (leads_tail P t _ _ L3).
  apply HQ; [|done|].
  - apply (rely_trans (P := P) t g g1 g3); [done|]. by apply (rely_trans (P := P) t g1 g2 g3).
  - split; [done|split; [|split]].
    + unfold put_index_ok. cbn. rewrite E. cbn. lia.
    + exists (Tail g2), y. split; [exact (leads_lat_at P t _ _ _ _ _ L3 Hb)|done].
    + exists (Head g1), z, x. split; [exact (leads_lat_at P t _ _ _ _ _ L3 Ha2)|].
      pose proof (leads_lat_at P t _ _ _ _ _ L3 Hc2) as Hc3. split; [exact Hc3|]. split; [lia|].
      pose proof (ld_lat _ _ _ _ L13) as [_ _ _ ?]. split; [done|]. cbn. rewrite E. cbn.
      pose proof (window_width set P t g3 _ x I3 (proj2 Hc3)). lia.
Qed.
End rules.

(** *** [create_queue] *)

Lemma two_nodes_inv (a b : Z) (x y : lateral_node_t) :
  a <> 0 -> b <> 0 -> a <> b ->
  let m := mkLateral (<[a := mkLnode b x]> (<[b := mkLnode 0 y]> (<[a := mkLnode 0 x]> ∅))) b a ∅ [a; b] [x; y] in
  lat_inv m /\ ltail_pos m = 1%nat /\ lhead_pos m = 0%nat.
Proof.
  intros Ha Hb Hab m.
  assert (Ht : ltail_pos m = 1%nat).
  { unfold ltail_pos, lpos. cbn. rewrite decide_False by done. cbn. by rewrite decide_True by done. }
  assert (Hh : lhead_pos m = 0%nat).
  { unfold lhead_pos, lpos. cbn. by rewrite decide_True by done. }
  split; [|done]. split; rewrite ?Ht, ?Hh; cbn; try done; try lia.
  - by rewrite !lookup_insert_ne by done.
  - constructor; [by intros ->%list_elem_of_singleton|apply NoDup_singleton].
  - intros [|[|k]] c Hk; cbn in Hk; [| |done]; injection Hk as <-; (split; [done|split; [done|]]); eexists; (split; [done|]).
    + by rewrite lookup_insert_eq.
    + rewrite lookup_insert_ne by done. by rewrite lookup_insert_eq.
Qed.

Lemma create_lateral_inv d w :
  let m := create_lateral_queue d w in
  lat_inv m /\ ltail_pos m = 1%nat /\ lhead_pos m = 0%nat /\ infos m = [mkWin 0 w 0; mkWin d w d].
Proof.
  cbv zeta. unfold create_lateral_queue.
  destruct (alloc_addr_ok (∅ : gmap Z (lnode lateral_node_t))) as [Ha _].
  generalize (alloc_addr (∅ : gmap Z (lnode lateral_node_t))) Ha. clear Ha. intros a Ha.
  destruct (alloc_addr_ok (<[a := mkLnode 0 (mkWin 0 w 0)]> ∅)) as [Hb Hf].
  destruct (two_nodes_inv a _ (mkWin 0 w 0) (mkWin d w d) Ha Hb) as (? & ? & ?); [|done].
  intros E. by rewrite <- E, lookup_insert_eq in Hf.
Qed.

(** What [create_queue] returns satisfies the invariant of the executions. *)
Lemma created_law m w d :
  1 <= w <= mw -> 1 <= d < 2 ^ 16 -> ltail_pos m = 1%nat -> lhead_pos m = 0%nat ->
  infos m = [mkWin 0 w 0; mkWin d w d] ->
  forall junk r,
  let g := mkShared (mkElastic m r) (created junk (fun a => mkDesc a 0) (fun a => mkDesc a 0) (Z.to_nat mw)) in
  law g /\ hist (subs g) = [] /\ quiet set g.
Proof.
  intros Hw Hd Ht Hh Ei junk r g.
  destruct (calm_created mw junk w d Hw Hd) as [_ HL Hlast Hse Hdr].
  destruct (created_at junk (fun a => mkDesc a 0) (fun a => mkDesc a 0) (Z.to_nat mw) 0) as [Eh _]; [lia|].
  unfold LawWindow.law, quiet, g. cbn [window lat subs]. by rewrite Ht, Hh, Ei.
Qed.
End operations.

Lemma create_queue_law {A : Allocator (qnode_of unit)} {LA : Allocator (lnode lateral_node_t)}
    junk n w d m k b set g :
  create_queue junk n w d m k b = Some (set, g) -> set_ok set -> dims_ok set (rest (window g)) ->
  p_inv (coupled (law_base set) (law set)) g /\ hist (subs g) = [] /\ quiet set g /\
  (let w' := width (rest (window g)) in let d' := depth (rest (window g)) in
   infos (lat (window g)) = [mkWin 0 w' 0; mkWin d' w' d'] /\ rest (window g) = mkDims d' d' w' /\
   (args_ok 1 16 16 n w d b -> 1 <= k <= 3 -> d' * (w' - 1) <= relaxation_bound set <= b)).
Proof.
  unfold create_queue. destruct (calculate _ _ _ _ _ _ _ _ _) as [p|] eqn:Ecalc; [|done]. cbn [mbind option_bind].
  intros [= <- <-] Hset [Hd Hw]. cbn [window rest depth width] in *.
  destruct (create_lateral_inv (p_depth p) (p_width p)) as (HL & Ht & Hh & Ei).
  set (mq := mkQueue _ _ _ _) in *.
  destruct (created_law mq _ (p_width p) (p_depth p) Hw Hd Ht Hh Ei junk
    (mkDims (p_depth p) (p_depth p) (p_width p))) as (HW & Eh & Hq).
  split; [|split; [exact Eh|split; [exact Hq|]]].
  - split; [|exact HW]. split; [split; [exact HL|split; [exact Hd|exact Hw]]|].
    destruct Hset as [Hmw _]. apply (created_inv junk); [|by intros a|done]. cbn in *. lia.
  - cbn [window lat rest depth width relaxation_bound]. rewrite Ei. do 2 (split; [done|]). intros Hargs Hk.
    destruct (calculate_bound 1 16 16 (product_int 1) n w d k b Hargs Hk) as (p' & E & Hp).
    assert (p' = p) as -> by congruence. unfold mq. cbn [relaxation_bound]. lia.
Qed.

(** ** Concurrent executions *)

(** The calls of [enqueue] and [dequeue] among a thread's calls. *)
Definition queue_calls (done : list (eop * Z)) : list (op * Z) :=
  omap (fun '(o, r) => match o with QueueOp o => Some (o, r) | _ => None end) done.

Lemma queue_calls_snoc done o r :
  queue_calls (done ++ [(o, r)]) =
  queue_calls done ++ match o with QueueOp o => [(o, r)] | _ => [] end.
Proof. unfold queue_calls. rewrite omap_app. by destruct o. Qed.

Section runs.
Context {A : Allocator (qnode_of unit)} {LA : Allocator (lnode lateral_node_t)}.
Context (set : mqueue_t) (Hset : set_ok set).
Notation mw := (max_width set).
Notation base := (law_base set).
Notation law := (law set).
Notation B := (coupled base law).

(** What is known of a thread among others between its calls. *)
Definition explained (t : nat) (done : list (eop * Z)) (g : estate) (l : tls windows) : Prop :=
  p_inv B g /\ thread_ok set t g l /\ explains mw (queue_calls done) (qevents_of t (hist (subs g))).

Lemma explained_op t done o g l :
  op_ok set o -> explained t done g l ->
  wp B t (exec_op set o) (fun r g l => explained t (done ++ [(o, r)]) g l) g l.
Proof.
  intros Ho (HI & Hok & HJ). unfold explained.
  assert (Hp : p_total B = true -> forall g g', p_rely B t g g' -> g' = g) by done.
  assert (Hmode : (forall g g', p_rely B t g g' -> g' = g) \/ forall g, p_ok B g -> p_ok base g) by (by right).
  assert (Hno : ~ forall g g', p_rely B t g g' -> g' = g).
  { intros Hs. assert (E : set_rest (mkDims 0 0 0) g = set_rest (mkDims 1 0 0) g); [|discriminate E].
    transitivity g; [|symmetry]; apply Hs; (split; [split|]; [split; [apply lat_evolves_refl|by intros a n]|done|apply (rely_refl (P := qprot mw (2 ^ 62)))]). }
  assert (Hdim : forall r g', leads B t g g' ->
    p_inv B g' /\ thread_ok set t g' l /\ explains mw (queue_calls (done ++ [(o, r)])) (qevents_of t (hist (subs g'))) \/
    (exists o', o = QueueOp o')).
  { intros r g' L. destruct o as [o| |]; [right; by exists o|left..]; rewrite queue_calls_snoc, app_nil_r;
    (split; [apply L|split; [exact (thread_ok_leads set B t _ _ _ L Hok)|]]);
    destruct L as [_ _ [_ ->] _]; exact HJ. }
  destruct o as [[k v|]|v|v]; cbn [exec_op].
  - apply (law_enqueue_wp set Hset B t Hp Hmode k v); [done|done|by intros ?%Hno|].
    intros i p g' l' Hok' Hi [(HI' & _ & He) _] _. split; [done|split; [done|]].
    rewrite He, queue_calls_snoc. by constructor.
  - apply (law_dequeue_wp set Hset B t Hp Hmode); [done|done|by intros ?%Hno|..].
    + intros i p v g' l' Hok' Hi [(HI' & _ & He) _] _. split; [done|split; [done|]].
      rewrite He, queue_calls_snoc. by constructor.
    + intros i g' l' Hok' Hi [(HI' & _ & He) _] _. split; [done|split; [done|]].
      rewrite He, queue_calls_snoc. by constructor.
  - apply (swap_dim_wp set B t); [done| |].
    + intros d [_ Hw]. by split.
    + intros r g' L _. by destruct (Hdim r g' L) as [|[? ?]].
  - apply (swap_dim_wp set B t); [done| |].
    + intros d [Hd _]. by split.
    + intros r g' L _. by destruct (Hdim r g' L) as [|[? ?]].
Qed.

(** The measure that grows with the steps. *)
Lemma law_measure t g g' :
  p_guar B t g g' ->
  Z.of_nat (length (chain (lat (window g')))) + Z.of_nat (length (hist (subs g'))) <=
  Z.of_nat (length (chain (lat (window g)))) + Z.of_nat (length (hist (subs g))) + 2.
Proof. intros [[(_ & _ & Hl) _] (_ & _ & Hh)]. lia. Qed.

Section concurrent.
Context (g0 : estate) (opss : list (list eop)) (ls : list (tls windows)) (schedule : list nat).
Let state n : cfg estate (tls windows) (list Z) :=
  exec (mkCfg g0 (clients_from (exec_op set) init_thread_windows opss ls)) (take n schedule).
Let final := exec (mkCfg g0 (clients_from (exec_op set) init_thread_windows opss ls)) schedule.

Lemma elastic_law_run :
  p_inv B g0 -> hist (subs g0) = [] -> length (infos (lat (window g0))) = 2%nat ->
  (forall i l, ls !! i = Some l -> thread_id l = i /\ thread_Window l = windows0) ->
  Forall (Forall (op_ok set)) opss ->
  (forall n, (n <= length schedule)%nat -> grows (infos (lat (window (mem (state n)))))) ->
  Z.of_nat (length schedule) < 2 ^ 39 - 1 ->
  p_inv B (mem final) /\ ~ faulty final /\
  (forall i rs l os, pool final !! i = Some (Ret rs, l) -> opss !! i = Some os ->
     length rs = length os /\
     explains mw (queue_calls (zip os rs)) (qevents_of i (hist (subs (mem final))))).
Proof.
  intros HI Hh Hw Hls Hops Hg Hb. pose proof (li_infos _ (proj1 (proj1 (proj1 HI)))) as Hc.
  destruct (clients_soundness_along (exec_op set) B (op_ok set) explained
    (fun g => Z.of_nat (length (chain (lat (window g)))) + Z.of_nat (length (hist (subs g))))
    2 (2 ^ 40 - 1) init_thread_windows (fun g => grows (infos (lat (window g)))) g0 opss ls schedule)
    as (HI' & HF & HQ).
  - intros t done o g l. apply explained_op.
  - lia.
  - intros t g g' _. apply law_measure.
  - intros g [[[HL _] _] _] Hm Hgr. pose proof (li_infos _ HL). split; [split; [lia|done]|]. cbn. lia.
  - intros n. destruct (decide (n <= length schedule)%nat) as [Hle|Hgt]; [by apply Hg|].
    rewrite take_ge by lia. specialize (Hg (length schedule) (le_n _)). unfold state in Hg. by rewrite take_ge in Hg.
  - done.
  - rewrite Hh. cbn [length]. lia.
  - intros i l Hl. destruct (Hls i l Hl) as [Ht E].
    apply (init_wp set Hset B i); [done|done|]. intros g' l' R' I' Hok'. split; [done|split; [done|]].
    destruct R' as [_ (_ & _ & ->)]. rewrite Hh. constructor.
  - done.
  - split; [exact HI'|split; [exact HF|]]. intros i rs l os Hp Ho.
    destruct (HQ i rs l os Hp Ho) as (Hlen & g1 & [_ (_ & _ & E)] & (_ & _ & HJ)). split; [done|].
    rewrite <- E in HJ. exact HJ.
Qed.
End concurrent.
End runs.

(** C31. The elastic queue (LaW): in every interleaved execution in which the windows
    do not shrink, whatever the calls of [update_depth] and [update_width] in
    it, no access is invalid and no assertion fails, every sub-queue is a FIFO
    queue whose elements are the nodes behind its head, every thread's results
    are those of its events, and the rows of each sub-queue's elements are
    consecutive rows of the windows that reach it. *)
Theorem elastic_law_linearizable {A : Allocator (qnode_of unit)} {LA : Allocator (lnode lateral_node_t)}
    junk n w d m k b set g0 opss ls schedule :
  create_queue junk n w d m k b = Some (set, g0) -> set_ok set -> dims_ok set (rest (window g0)) ->
  (forall i l, ls !! i = Some l -> thread_id l = i /\ thread_Window l = windows0) ->
  Forall (Forall (op_ok set)) opss ->
  let state n := exec (mkCfg g0 (clients_from (exec_op set) init_thread_windows opss ls)) (take n schedule) in
  (forall n, (n <= length schedule)%nat -> grows (infos (lat (window (mem (state n)))))) ->
  Z.of_nat (length schedule) < 2 ^ 39 - 1 ->
  let final := exec (mkCfg g0 (clients_from (exec_op set) init_thread_windows opss ls)) schedule in
  ~ faulty final /\ qreplayed (max_width set) (subs (mem final)) /\
  windows_ok (max_width set) (infos (lat (window (mem final)))) /\
  (forall i k, 0 <= i < max_width set -> (k < tail_pos (subs (mem final)) i)%nat ->
     row_step (infos (lat (window (mem final)))) i (row (subs (mem final)) i k) (row (subs (mem final)) i (S k))) /\
  (forall i rs l os, pool final !! i = Some (Ret rs, l) -> opss !! i = Some os ->
     length rs = length os /\
     explains (max_width set) (queue_calls (zip os rs)) (qevents_of i (hist (subs (mem final))))).
Proof.
  intros Hc Hset Hd Hls Hops state Hg Hb final.
  destruct (create_queue_law _ _ _ _ _ _ _ _ _ Hc Hset Hd) as (HI & Hh & _ & Hw & _).
  apply (f_equal length) in Hw.
  destruct (elastic_law_run set Hset g0 opss ls schedule HI Hh Hw Hls Hops Hg Hb) as ([[_ HQ] HL] & HF & HR).
  split; [exact HF|split; [by apply queues_replayed|split; [apply HL|split; [apply HL|exact HR]]]].
Qed.

(** ** Examples *)

Section examples.
#[local] Instance node_allocator : Allocator (qnode_of unit) := bump_allocator _.
#[local] Instance window_allocator : Allocator (lnode lateral_node_t) := bump_allocator _.

(** Two sub-queues; windows of depth 1 to start with. *)
Definition example_set : mqueue_t := mkQueue 2 2 0 4.
Definition example_mem : estate :=
  mkShared (mkElastic (create_lateral_queue 1 2) (mkDims 1 1 2))
    (created (fun _ => mkQnode 0 0 0) (fun a => mkDesc a 0) (fun a => mkDesc a 0) 2).
Definition enq (k : Z) : eop := QueueOp (Enqueue k (10 * k)).
Definition deq : eop := QueueOp Dequeue.
Definition thread (i : nat) (s : seeds_t) : tls windows := mkTls i windows0 0 s stats0.
Definition start (opss : list (list eop)) : cfg estate (tls windows) (list Z) :=
  mkCfg example_mem (clients_from (exec_op example_set) init_thread_windows opss
    [thread 0 (mkSeeds 3 5 7); thread 1 (mkSeeds 1 2 3)]).

Definition example_ops : list (list eop) :=
  [[enq 1; UpdateDepth 2; enq 2; enq 3; deq]; [deq; UpdateWidth 2; enq 4; deq]].
Definition example_schedule : list nat := concat (replicate 60 [0; 0; 0; 1; 1; 0; 1; 1])%nat.

Lemma grows_compute ws : forallb (fun p => lwidth p.1 <=? lwidth p.2) (zip ws (tail ws)) = true -> grows ws.
Proof.
  intros H k x y Hx Hy. rewrite forallb_forall in H. specialize (H (x, y)).
  rewrite Z.leb_le in H. apply H. rewrite <- list_elem_of_In. apply list_elem_of_lookup. exists k.
  apply lookup_zip_Some. split; [done|]. by rewrite lookup_tail.
Qed.

Lemma elastic_law_linearizable_witness :
  ~ faulty (exec (start example_ops) example_schedule).
Proof.
  refine (proj1 (elastic_law_linearizable (fun _ => mkQnode 0 0 0) 1 2 1 2 4 0 example_set example_mem example_ops
    [thread 0 (mkSeeds 3 5 7); thread 1 (mkSeeds 1 2 3)] example_schedule eq_refl _ _ _ _ _ _)).
  - unfold set_ok, example_set. cbn. lia.
  - unfold dims_ok, example_set. cbn. lia.
  - intros [|[|i]] l Hl; cbn in Hl; [| |done]; by injection Hl as <-.
  - repeat constructor; unfold example_set; cbn; lia.
  - intros n Hn. apply grows_compute. revert n Hn. apply prefixes_compute. vm_compute. reflexivity.
  - vm_compute. reflexivity.
Defined.

(** The windows must not shrink.  Here one window of width 1 lies between two
    of width 2, and thread 1 has been suspended in a [dequeue] from sub-queue 1
    while they were added.  Its [safe_deq] gives the node of row 3 the count 2
    of the row after the one it has read; when the window of row 4 is the put
    window, thread 0 finds a count below the bottom of it, takes the sub-queue
    for one that is not empty, sets its node to [NULL] and reads the value of
    that. *)
Example elastic_law_shrink_crashes :
  let final := exec (start [[enq 1; enq 2; deq; deq; UpdateWidth 1; enq 3; UpdateWidth 2; enq 4; enq 5; enq 6;
        deq; deq; deq]; [deq]])
    (replicate 222 0 ++ replicate 94 1 ++ replicate 266 0 ++ replicate 200 1 ++ replicate 1000 0)%nat in
  faulty final /\
  infos (lat (window (mem final))) = [mkWin 0 2 0; mkWin 1 2 1; mkWin 2 1 1; mkWin 3 2 1; mkWin 4 2 1] /\
  (dnode <$> get_array (subs (mem final)) !! 1%nat) = Some 0.
Proof.
  split; [|vm_compute; split; reflexivity].
  exists 0%nat. eexists _, _. split; vm_compute; reflexivity.
Qed.
End examples.
