(* ===== verification/LawSeq.v ===== *)
(** The elastic queue (LaW) used by one thread: a queue that is k-out-of-order
    with a [k] that follows the changes of width and depth. *)
From S2P Require Import Prelude Conc Random Thread Params StackHeap QueueHeap FifoOrder Shared SubQueues Lateral.
From S2P Require Import Rows RowOrder ElasticLaw LawWindow LawQueue LawRuns.

(** ** The specification *)

(** [elastic_run w d done ws fill q dims]: the calls and results [done] of a queue
    created with one window of width [w] and depth [d] have led to the windows
    [ws] (width and depth, the oldest first), [fill] enqueues into the last of
    them, the elements [q] with the numbers of their windows (the oldest first)
    and the dimensions [dims] for the next window.  A window takes
    [width * depth] elements: an enqueue opens a new one, which has the
    dimensions last set, exactly when the last is full.  A dequeue takes an
    element of the oldest window that has any, overtaking at most
    [depth * (width - 1)] older ones, where these are the dimensions of that
    window. *)
Inductive elastic_run (w d : Z) : list (eop * Z) -> list (Z * Z) -> Z -> list (nat * Z) -> dims -> Prop :=
| er_create : elastic_run w d [] [(w, d)] 0 [] (mkDims d d w)
| er_enqueue done ws wn dn fill q dm key v :
    elastic_run w d done ws fill q dm -> last ws = Some (wn, dn) -> fill < wn * dn ->
    elastic_run w d (done ++ [(QueueOp (Enqueue key v), 1)]) ws (fill + 1) (q ++ [(pred (length ws), v)]) dm
| er_enqueue_new done ws wn dn fill q dm key v :
    elastic_run w d done ws fill q dm -> last ws = Some (wn, dn) -> fill = wn * dn ->
    elastic_run w d (done ++ [(QueueOp (Enqueue key v), 1)])
      (ws ++ [(width dm, depth dm)]) 1 (q ++ [(length ws, v)]) dm
| er_dequeue done ws fill pre n v post dm wn dn :
    elastic_run w d done ws fill (pre ++ (n, v) :: post) dm -> Forall (fun x => x.1 = n) pre ->
    ws !! n = Some (wn, dn) -> Z.of_nat (length pre) <= dn * (wn - 1) ->
    elastic_run w d (done ++ [(QueueOp Dequeue, v)]) ws fill (pre ++ post) dm
| er_empty done ws fill dm :
    elastic_run w d done ws fill [] dm ->
    elastic_run w d (done ++ [(QueueOp Dequeue, 0)]) ws fill [] dm
| er_depth done ws fill q dm v :
    elastic_run w d done ws fill q dm ->
    elastic_run w d (done ++ [(UpdateDepth v, depth dm)]) ws fill q (mkDims v (get_depth dm) (width dm))
| er_width done ws fill q dm v :
    elastic_run w d done ws fill q dm ->
    elastic_run w d (done ++ [(UpdateWidth v, width dm)]) ws fill q (mkDims (depth dm) (get_depth dm) v).

(** ** The state between the operations *)

Section sequential.
Context {A : Allocator (qnode_of unit)} {LA : Allocator (lnode lateral_node_t)}.
Context (set : mqueue_t) (Hset : set_ok set).
Notation mw := (max_width set).
Notation base := (law_base set).
Notation law := (law set).
Notation B := (coupled base law).
Notation ws g := (infos (lat (window g))).
Notation Tail g := (ltail_pos (lat (window g))).
Notation Head g := (lhead_pos (lat (window g))).
Notation history g := (hist (subs g)).
Implicit Types (g : estate) (l : tls windows).

Notation spec_windows g := (spec_windows (ws g)).
Notation spec_elems g := (spec_elems (ws g) (subs g)).
Notation fill g := (filled_last (ws g) (subs g)).

Definition seq_ok g : Prop := p_inv B g /\ quiet set g /\ ordered mw (ws g) (subs g).

Lemma calm_of g : p_inv B g -> quiet set g -> calm mw (ws g) (Tail g) (Head g) (subs g).
Proof. intros [[_ HI] HL] (? & ? & ?). by split. Qed.

(** A new window has the dimensions last set. *)
Lemma spec_windows_grown g g' :
  p_inv B g -> grown g g' ->
  rest (window g') = rest (window g) /\
  (ws g' = ws g \/
   exists y, ws g' = ws g ++ [y] /\ lwidth y = width (rest (window g)) /\ ldepth y = depth (rest (window g))).
Proof.
  intros [_ HL] [[Er Ew]|(Er & y & Ew & E1 & E2)]; (split; [done|]); rewrite Ew; [by left|right].
  by exists y.
Qed.

Lemma created_fill g w d :
  p_inv B g -> quiet set g -> history g = [] -> ws g = [mkWin 0 w 0; mkWin d w d] -> fill g = 0.
Proof.
  intros HI Hq Eh Ew. pose proof (calm_of g HI Hq) as HC. pose proof (cl_last _ _ _ _ _ HC) as Hl.
  rewrite Ew in Hl. injection Hl as Hl. apply (filled_start mw _ _ _ _ (mkWin d w d) HC Eh).
  - rewrite Ew, <- Hl. done.
  - unfold bottom. cbn. lia.
Qed.

(** *** The steps *)

Lemma spec_enqueue g g' i k v :
  seq_ok g -> p_inv B g' -> evolves (subs g) (subs g') -> 0 <= i < mw ->
  history g' = (0%nat, Enq i k v) :: history g -> enqueued_alone set g g' i k ->
  seq_ok g' /\ rest (window g') = rest (window g) /\
  spec_elems g' = spec_elems g ++ [(pred (length (spec_windows g')), v)] /\
  exists wn dn, last (spec_windows g) = Some (wn, dn) /\
    ((spec_windows g' = spec_windows g /\ fill g < wn * dn /\ fill g' = fill g + 1) \/
     (spec_windows g' = spec_windows g ++ [(width (rest (window g)), depth (rest (window g)))] /\
      fill g = wn * dn /\ fill g' = 1)).
Proof.
  intros (HI & Hq0 & HO) HI' Hev Hi Eh (Hq & _ & Hgr & Ek & x & Hx & _ & Hr).
  destruct (grown_prefix g g' Hgr) as [Hpre _]. pose proof (calm_of g' HI' Hq) as HC'.
  pose proof (calm_of g HI Hq0) as HC. pose proof (lw_head _ _ _ _ _ (cl_law _ _ _ _ _ HC)) as HT.
  destruct (ordered_enqueue mw _ _ _ _ HC _ _ _ _ _ i k v x HO HC' Hev Hpre Hi Eh Ek Hx) as [HO' Eel]; [lia|].
  destruct (enqueue_fills mw _ _ _ _ _ _ _ _ _ i k v x HC HC' Hev Hi Eh Hx) as [Hsame Hnew]; [lia|].
  destruct (lookup_lt_is_Some_2 (ws g) (Tail g)) as [y Hy]; [rewrite (cl_last _ _ _ _ _ HC); lia|].
  destruct (spec_windows_grown g g' HI Hgr) as [Er Ew].
  split; [done|split; [done|split]].
  { rewrite Eel, spec_windows_length, (cl_last _ _ _ _ _ HC'). done. }
  exists (lwidth y), (ldepth y). split; [apply (spec_windows_last _ _ (Tail g)); [apply HC|lia|done]|].
  destruct Ew as [Ew|(z & Ew & E1 & E2)].
  - left. destruct (Hsame Ew) as [H1 H2]. rewrite Ew in Hx, H2 |- *.
    assert (x = y) as ->.
    { pose proof (cl_last _ _ _ _ _ HC'). rewrite Ew, (cl_last _ _ _ _ _ HC) in *. congruence. }
    done.
  - right. rewrite Ew. rewrite spec_windows_snoc by (rewrite (cl_last _ _ _ _ _ HC); lia). rewrite E1, E2.
    assert (z = x) as ->.
    { pose proof (cl_last _ _ _ _ _ HC') as Hl'. rewrite Ew in Hl', Hx. rewrite length_app in Hl'. cbn in Hl'.
      rewrite lookup_app_r in Hx by lia. replace (Tail g' - length (ws g))%nat with 0%nat in Hx by lia.
      by injection Hx. }
    rewrite <- Ew. by destruct (Hnew y Ew Hy).
Qed.

Lemma spec_dequeue g g' i v :
  seq_ok g -> p_inv B g' -> evolves (subs g) (subs g') -> 0 <= i < mw ->
  history g' = (0%nat, Deq i (Z.of_nat (S (head_pos (subs g) i))) v) :: history g -> dequeued_alone set 0 g g' i v ->
  seq_ok g' /\ spec_windows g' = spec_windows g /\ fill g' = fill g /\
  exists pre n post wn dn, spec_elems g = pre ++ (n, v) :: post /\ spec_elems g' = pre ++ post /\
    Forall (fun x => x.1 = n) pre /\ spec_windows g !! n = Some (wn, dn) /\
    Z.of_nat (length pre) <= dn * (wn - 1).
Proof.
  intros (HI & Hq0 & HO) HI' Hev Hi Eh (Hq & [_ Ew] & ET & Hdr & Hlt & _ & x & Hx & _ & Hrow).
  pose proof (calm_of g' HI' Hq) as HC'. rewrite Ew, ET in HC'.
  destruct (ordered_dequeue mw _ _ _ _ (calm_of g HI Hq0) _ _ _ i v x HO HC' Hev Hdr Hi Eh Hlt Hx Hrow) as [HO' H].
  unfold seq_ok. rewrite Ew. split; [done|split; [done|split; [|exact H]]].
  exact (dequeue_fills mw _ _ _ _ _ _ _ _ _ _ (calm_of g HI Hq0) HC' Hev Eh).
Qed.

Lemma spec_empty g g' i :
  seq_ok g -> p_inv B g' -> empty_alone set 0 g g' i -> 0 <= i < mw ->
  seq_ok g' /\ spec_windows g' = spec_windows g /\ fill g' = fill g /\ spec_elems g' = [] /\ spec_elems g = [].
Proof.
  intros (HI & Hq0 & HO) HI' (Hq & [_ Ew] & ET & Es & Hall) Hi.
  assert (HO' : ordered mw (ws g') (subs g')).
  { rewrite Ew, Es. by apply (ordered_same mw _ (subs g)). }
  split; [done|]. pose proof (ordered_nothing mw _ _ _ _ (calm_of g HI Hq0) HO Hall) as E.
  split; [by rewrite Ew|split; [by rewrite Ew, Es|split; [|exact E]]].
  apply (ordered_nothing mw _ _ _ _ (calm_of g' HI' Hq)); [done|]. rewrite Es. intros j Hj. by apply Hall.
Qed.

(** *** [queue_size] *)

Notation alone_rely := (p_rely (alone B) 0%nat).
#[local] Instance sreads : Reads (alone B) base 0 := couples_reads (C := law).

Lemma queue_size_alone (Q : Z -> estate -> tls windows -> Prop) g l :
  p_inv B g -> settled mw (subs g) -> Z.of_nat (length (history g)) < 2 ^ 62 ->
  Q (queues_total (history g) mw) g l -> wp (alone B) 0 (queue_size set) Q g l.
Proof.
  intros HI Hse Hlim HQ. pose proof Hset as [Hmw _].
  apply (queues_span_wp (elastic_prot (dims_prot set) law_limits) mw (2 ^ 62) (alone B) 0%nat);
    [by intros g1 g2 R; apply R|lia|done..].
Qed.

(** *** Whole runs *)

Section run.
Context (w0 d0 : Z).

Definition seq_account (done : list (eop * Z)) g l : Prop :=
  elastic_run w0 d0 done (spec_windows g) (fill g) (spec_elems g) (rest (window g)) /\
  Z.of_nat (length (spec_elems g)) = queues_total (history g) mw /\
  seq_ok g /\ thread_ok set 0 g l /\
  (length (ws g) <= 2 + length done)%nat /\ (length (history g) <= length done)%nat.

Notation still P := (forall g g', p_rely P 0%nat g g' -> g' = g) (only parsing).
Lemma alone_is_still : forall g g', alone_rely g g' -> g' = g.
Proof. intros g g' R. by apply R. Qed.

(** What an operation that made one event did, alone. *)
Lemma alone_event e g g' :
  did_op (alone B) 0 [e] g g' -> p_inv B g' /\ evolves (subs g) (subs g') /\ history g' = (0%nat, e) :: history g.
Proof. intros D. by apply did_op_event in D; [|exact alone_is_still]. Qed.

Lemma seq_account_enqueue done g l key v i k g' l' :
  seq_account done g l -> thread_ok set 0 g' l' -> 0 <= i < mw -> did_op (alone B) 0 [Enq i k v] g g' ->
  enqueued_alone set g g' i k -> seq_account (done ++ [(QueueOp (Enqueue key v), 1)]) g' l'.
Proof.
  intros (Hrun & Htot & HS & _ & Hw & Hh) Hok Hi (HI & Hev & Eh)%alone_event He.
  destruct (spec_enqueue g g' i k v HS HI Hev Hi Eh He) as (HS' & Er & Eel & wn & dn & Hlast & Ew).
  destruct He as (_ & _ & Hgr & _). destruct (grown_prefix g g' Hgr) as [_ Hlen].
  split; [|split; [|split; [done|split; [done|split]]]].
  - rewrite Eel, Er. destruct Ew as [(-> & Hf & ->)|(-> & Hf & ->)]; [by eapply er_enqueue|].
    rewrite length_app. cbn [length]. rewrite Nat.add_comm. cbn [pred Nat.add]. by eapply er_enqueue_new.
  - rewrite Eel, Eh, queues_total_enq by done. rewrite length_app. cbn [length]. lia.
  - rewrite length_app. cbn. lia.
  - rewrite Eh, length_app. cbn. lia.
Qed.

Lemma seq_account_dequeue done g l i k v g' l' :
  seq_account done g l -> thread_ok set 0 g' l' -> 0 <= i < mw -> did_op (alone B) 0 [Deq i k v] g g' ->
  dequeued_alone set 0 g g' i v -> seq_account (done ++ [(QueueOp Dequeue, v)]) g' l'.
Proof.
  intros (Hrun & Htot & HS & _ & Hw & Hh) Hok Hi (HI & Hev & Eh)%alone_event Hd.
  assert (Ek : k = Z.of_nat (S (head_pos (subs g) i))).
  { destruct Hd as (_ & _ & _ & _ & _ & (new & Es) & _). rewrite Es in Eh. cbn in Eh. congruence. }
  subst k. destruct (spec_dequeue g g' i v HS HI Hev Hi Eh Hd)
    as (HS' & Ew & Ef & pre & n & post & wn & dn & E1 & E2 & Hpre & Hn & Hle).
  destruct Hd as (_ & [Er Ewin] & _).
  assert (Hne : qcontents i (history g) <> []).
  { destruct HI as [[_ HI] _]. cbn in HI. destruct HI as (_&_&_&_&_&_&Hlg&_). rewrite Eh in Hlg. destruct Hlg as [Hhd _].
    intros E. by rewrite E in Hhd. }
  split; [|split; [|split; [done|split; [done|split]]]].
  - rewrite Er, Ew, Ef, E2. eapply er_dequeue; [|exact Hpre|exact Hn|done]. by rewrite <- E1.
  - rewrite Eh, queues_total_deq by done. rewrite E2. rewrite E1 in Htot. rewrite length_app in *. cbn [length] in *. lia.
  - rewrite Ewin, length_app. cbn. lia.
  - rewrite Eh, length_app. cbn. lia.
Qed.

Lemma seq_account_empty done g l i g' l' :
  seq_account done g l -> thread_ok set 0 g' l' -> 0 <= i < mw -> did_op (alone B) 0 [Nothing i] g g' ->
  empty_alone set 0 g g' i -> seq_account (done ++ [(QueueOp Dequeue, 0)]) g' l'.
Proof.
  intros (Hrun & Htot & HS & _ & Hw & Hh) Hok Hi (HI & Hev & Eh)%alone_event Hd.
  destruct (spec_empty g g' i HS HI Hd Hi) as (HS' & Ew & Ef & E1 & E2). destruct Hd as (_ & [Er Ewin] & _).
  split; [|split; [|split; [done|split; [done|split]]]].
  - rewrite Er, Ew, Ef, E1. rewrite E2 in Hrun. by apply er_empty.
  - rewrite Eh, E1. rewrite E2 in Htot. exact Htot.
  - rewrite Ewin, length_app. cbn. lia.
  - rewrite Eh, length_app. cbn. lia.
Qed.

Lemma seq_account_dims done g l o r d :
  seq_account done g l -> dims_ok set d ->
  (forall ws fill q, elastic_run w0 d0 done ws fill q (rest (window g)) ->
     elastic_run w0 d0 (done ++ [(o, r)]) ws fill q d) ->
  leads (alone B) 0 g (set_rest d g) -> seq_account (done ++ [(o, r)]) (set_rest d g) l.
Proof.
  intros (Hrun & Htot & (HI & Hq & Hff) & Hok & Hw & Hh) Hd Hrun' L.
  split; [by apply Hrun'|split; [exact Htot|split; [|split; [|split]]]].
  - split; [apply L|done].
  - exact (thread_ok_leads set (alone B) 0 _ _ _ L Hok).
  - rewrite length_app. cbn in *. lia.
  - rewrite length_app. cbn in *. lia.
Qed.

Lemma seq_account_op done o g l :
  op_ok set o -> Z.of_nat (length done) < 2 ^ 46 -> seq_account done g l ->
  wp (alone B) 0 (exec_op set o) (fun r g l => seq_account (done ++ [(o, r)]) g l) g l.
Proof.
  intros Ho Hlim HJ. pose proof HJ as (Hrun & _ & (HI & Hq & _) & Hok & Hw & Hh).
  assert (Hroom : room 2 g) by (unfold room; lia).
  assert (Hsz : sized g) by (unfold sized, room in *; lia).
  pose proof (fun _ : p_total (alone B) = true => alone_is_still) as Hst.
  assert (Hmode : (forall g g', alone_rely g g' -> g' = g) \/ forall g, p_ok (alone B) g -> p_ok base g)
    by (left; apply alone_is_still).
  destruct o as [[key v|]|v|v]; cbn [exec_op].
  - apply (law_enqueue_wp set Hset (alone B) 0 Hst Hmode key v); [done|done|done|].
    intros i k g' l' Hok' Hi D He. eapply seq_account_enqueue; eauto using alone_is_still.
  - apply (law_dequeue_wp set Hset (alone B) 0 Hst Hmode); [done|done|done|..].
    + intros i k v g' l' Hok' Hi D Hd. eapply seq_account_dequeue; eauto using alone_is_still.
    + intros i g' l' Hok' Hi D Hd. eapply seq_account_empty; eauto using alone_is_still.
  - apply (swap_dim_wp set (alone B) 0); [done|by intros d [_ ?]|].
    intros r g' L E. destruct (E alone_is_still) as [-> ->].
    apply seq_account_dims; [done| |by intros; apply er_depth|done].
    destruct HI as [[[_ [_ ?]] _] _]. by split.
  - apply (swap_dim_wp set (alone B) 0); [done|by intros d [? _]|].
    intros r g' L E. destruct (E alone_is_still) as [-> ->].
    apply seq_account_dims; [done| |by intros; apply er_width|done].
    destruct HI as [[[_ [? _]] _] _]. by split.
Qed.
End run.
End sequential.

(** ** Whole runs *)

Notation windows_of g := (spec_windows (infos (lat (window g)))).
Notation elements_of g := (spec_elems (infos (lat (window g))) (subs g)).
Notation fill_of g := (filled_last (infos (lat (window g))) (subs g)).

(** C2. For one thread the elastic queue (LaW), whatever its calls of
    [update_depth] and [update_width] with arguments in range: every run
    terminates; the windows of the lateral queue in memory are those that the
    calls determine, a new one, with the width and depth last set, being opened
    exactly when [width * depth] elements were enqueued into the last one; a
    dequeue returns an element of the oldest window that has any, overtaking at
    most [depth * (width - 1)] elements for the dimensions of that window, and 0
    only when the queue is empty; the bound of the first window is within the
    relaxation bound the queue was created for in the modes 1, 2 and 3;
    [queue_size] is the number of elements. *)
Theorem elastic_law_k_relaxed {A : Allocator (qnode_of unit)} {LA : Allocator (lnode lateral_node_t)}
    junk nt w d m k b set g0 ops l0 :
  create_queue junk nt w d m k b = Some (set, g0) -> set_ok set -> dims_ok set (rest (window g0)) ->
  thread_id l0 = 0%nat -> thread_Window l0 = windows0 -> Forall (op_ok set) ops ->
  Z.of_nat (length ops) < 2 ^ 46 ->
  let w0 := width (rest (window g0)) in
  let d0 := depth (rest (window g0)) in
  exists n rs g l,
    (forall m, (n <= m)%nat ->
       run m (init_thread_windows ;;; run_ops (exec_op set) ops) g0 l0 = Finished rs g l) /\
    length rs = length ops /\
    elastic_run w0 d0 (zip ops rs) (windows_of g) (fill_of g) (elements_of g) (rest (window g)) /\
    (args_ok 1 16 16 nt w d b -> 1 <= k <= 3 -> d0 * (w0 - 1) <= relaxation_bound set <= b) /\
    exists n' g' l', forall m, (n' <= m)%nat ->
      run m (queue_size set) g l = Finished (Z.of_nat (length (elements_of g))) g' l'.
Proof.
  intros Hc Hset Hd Ht0 Hw0 Hops Hlim w0 d0.
  destruct (create_queue_law _ _ _ _ _ _ _ _ _ Hc Hset Hd) as (HI & Hh & Hq & Ew & Er & Hbound).
  set (B := coupled (law_base set) (law set)).
  destruct (alone_run B (init_thread_windows ;;; run_ops (exec_op set) ops) (fun rs g l =>
      length rs = length ops /\ seq_account set w0 d0 ([] ++ zip ops rs) g l) g0 l0 HI)
    as (n & rs & g & l & Hrun & (Hlen & Hacc) & _).
  { apply wp_bind. apply (init_wp set Hset (alone B) 0); [done|done|]. intros g1 l1 R1 I1 Hok1.
    assert (g1 = g0) as -> by (by apply R1).
    apply (wp_run_ops_where (alone B) 0 (exec_op set) (op_ok set) (length ops) (seq_account set w0 d0)) with (done := []).
    - intros done o g l Hlt Ho HJ. apply (seq_account_op set Hset); [done|lia|done].
    - done.
    - cbn. lia.
    - assert (E : elements_of g0 = []) by (unfold spec_elems; by rewrite Hh).
      split; [|split; [|split; [|split; [done|split]]]].
      + rewrite E, Er, (created_fill set g0 _ _ HI Hq Hh Ew), Ew. apply er_create.
      + rewrite E, Hh. unfold queues_total. destruct Hset. cbn. rewrite sum_upto_const by lia. lia.
      + split; [done|split; [done|]]. by apply ordered_created.
      + rewrite Ew. cbn. lia.
      + rewrite Hh. cbn. lia. }
  exists n, rs, g, l.
  destruct Hacc as (Hr & Htot & (HI' & (_ & Hse & _) & _) & _ & _ & Hhl).
  split; [done|split; [done|split; [done|split; [done|]]]].
  destruct (alone_run B (queue_size set) (fun r _ _ => r = queues_total (hist (subs g)) (max_width set)) g l HI')
    as (n' & r & g' & l' & Hrun' & -> & _).
  { apply (queue_size_alone set Hset); [done|done| |done].
    cbn [app] in Hhl. rewrite length_zip_with in Hhl. lia. }
  exists n', g', l'. intros m' Hm. rewrite Htot. by apply Hrun'.
Qed.

(** The width and the depth are changed between the operations. *)
Definition example_calls : list eop :=
  [enq 1; UpdateDepth 2; enq 2; enq 3; UpdateWidth 1; enq 4; deq; enq 5; enq 6; enq 7; deq; deq; UpdateWidth 2;
   enq 8; deq; deq; deq; deq; deq].

Lemma elastic_law_k_relaxed_witness :
  exists n rs g l,
    (forall m, (n <= m)%nat ->
       run m (init_thread_windows ;;;
         run_ops (exec_op (A := bump_allocator _) (LA := bump_allocator _) example_set) example_calls)
         example_mem (thread 0 (mkSeeds 3 5 7)) = Finished rs g l) /\
    length rs = 19%nat /\ elastic_run 2 1 (zip example_calls rs) (windows_of g) (fill_of g) (elements_of g) (rest (window g)) /\
    (args_ok 1 16 16 1 2 1 0 -> 1 <= 4 <= 3 -> 1 * (2 - 1) <= 0 <= 0) /\
    exists n' g' l', forall m, (n' <= m)%nat ->
      run m (queue_size example_set) g l = Finished (Z.of_nat (length (elements_of g))) g' l'.
Proof.
  apply (elastic_law_k_relaxed (fun _ => mkQnode 0 0 0) 1 2 1 2 4 0 example_set example_mem example_calls
    (thread 0 (mkSeeds 3 5 7)) eq_refl).
  - unfold set_ok, example_set. cbn. lia.
  - unfold dims_ok, example_set. cbn. lia.
  - reflexivity.
  - reflexivity.
  - repeat constructor; unfold example_set; cbn; lia.
  - vm_compute. reflexivity.
Defined.
