(* ===== verification/ElasticLpw.v ===== *)
(** src/2Dd-queue_elastic-lpw: the elastic 2Dd queue with the lateral queue
    beside the windows (2Dd-queue_elastic.c, 2Dd-window_elastic.c,
    lateral_queue.c).  The two windows are variables of two words; a node of the
    lateral queue marks a row from which on the width is another.
    [update_width] and [update_depth] change the put windows to come. *)
From S2P Require Import Prelude Conc Random Thread Params StackHeap QueueHeap Shared SubQueues Lateral Rows.

(** ** State *)

(** [lateral_node_t] without [next]. *)
Record lateral_node_t := mkLat { lat_count : Z; lat_width : Z }.

(** [put_window_t], [get_window_t]; [word1] is [max], [word2] all the rest. *)
Record put_window_t := mkPwin { pmax : Z; pdepth : Z; pwidth : Z; pnext_width : Z }.
Record get_window_t := mkGwin { gmax : Z; gdepth : Z; gwidth : Z }.

#[export] Instance put_window_eq_dec : EqDecision put_window_t.
Proof. solve_decision. Defined.
#[export] Instance get_window_eq_dec : EqDecision get_window_t.
Proof. solve_decision. Defined.

(** The fields of [mqueue_t] that do not change, without the arrays. *)
Record mqueue_t := mkQueue { random_hops : Z; max_width : Z; relaxation_bound : Z; k_mode : Z }.

(** [global_PWindow], [global_GWindow] and the fields of [mqueue_t] that change;
    [put_depth] is the same memory as [depth].  [widths], the widths of all put
    windows so far, is a history variable. *)
Record globals := mkGlobals {
  global_PWindow : put_window_t;
  global_GWindow : get_window_t;
  depth : Z;
  get_depth : Z;
  width : Z;
  widths : list Z;
}.

(** The thread-local variables of the windows. *)
Record windows := mkWindows {
  thread_PWindow : put_window_t;
  thread_GWindow : get_window_t;
  thread_put_index : Z;
  thread_get_index : Z;
}.

Notation lqueues := (queues descriptor_t unit).
Notation lstate := (shared (elastic lateral_node_t globals) lqueues).
Notation ML := (prog lstate (tls windows)).

Definition set_PWindow (v : put_window_t) (w : windows) : windows :=
  mkWindows v (thread_GWindow w) (thread_put_index w) (thread_get_index w).
Definition set_GWindow (v : get_window_t) (w : windows) : windows :=
  mkWindows (thread_PWindow w) v (thread_put_index w) (thread_get_index w).
Definition set_put_index (i : Z) (w : windows) : windows :=
  mkWindows (thread_PWindow w) (thread_GWindow w) i (thread_get_index w).
Definition set_get_index (i : Z) (w : windows) : windows :=
  mkWindows (thread_PWindow w) (thread_GWindow w) (thread_put_index w) i.
Definition upd (f : windows -> windows) (l : tls windows) : tls windows :=
  set_thread_Window (f (thread_Window l)) l.

(** ** Operations *)

Section code.
Context {A : Allocator (qnode_of unit)} {LA : Allocator (lnode lateral_node_t)}.

Definition my {B} (f : windows -> B) : ML B := get (fun l => f (thread_Window l)).
Definition myP {B} (f : put_window_t -> B) : ML B := my (fun w => f (thread_PWindow w)).
Definition myG {B} (f : get_window_t -> B) : ML B := my (fun w => f (thread_GWindow w)).
Definition load_rest {B} (f : globals -> B) : ML B := load_var (fun g => f (rest (window g))).
Definition load_P {B} (f : put_window_t -> B) : ML B := load_rest (fun r => f (global_PWindow r)).
Definition load_G {B} (f : get_window_t -> B) : ML B := load_rest (fun r => f (global_GWindow r)).
Definition put_depth : ML Z := load_rest depth.

(** *** lateral_queue.c *)

Definition create_lateral_node (count width : Z) : ML Z := alloc_lnode (mkLat count width).

Definition try_enq_lateral (count width : Z) : ML unit :=
  let* read_tail := load_ltail in
  let* c := load_info lat_count read_tail in
  if c <? count then
    let* next_tail := load_lnext read_tail in
    let* next_tail := (if next_tail =? 0 then
        let* new_node := create_lateral_node count width in
        let* ok := cas_lnext read_tail new_node in
        if (ok : bool) then Ret new_node else load_lnext read_tail
      else Ret next_tail) in
    assert_ (negb (next_tail =? 0)) ;;;
    let* _ := cae_ltail read_tail next_tail in
    Ret tt
  else Ret tt.

Definition maybe_enq_lateral (window_max width next_width : Z) : ML unit :=
  if negb (width =? next_width) then try_enq_lateral (u64 (window_max + 1)) next_width
  else Ret tt.

(** The loop "Find the first node above prev max": the last node at or below
    [prev_max + 1], and the one after it. *)
Definition find_lateral (prev_max current lookahead : Z) : ML (Z * Z) :=
  while (fun '(current, lookahead) =>
    if negb (lookahead =? 0) then
      let* c := load_info lat_count lookahead in
      if c <=? u64 (prev_max + 1) then
        let* next := load_lnext lookahead in
        continue (lookahead, next)
      else break (current, lookahead)
    else break (current, lookahead)) (current, lookahead).

(** Returns the width and the possibly lowered [next_max]. *)
Definition get_next_window_lateral (prev_max next_max : Z) : ML (Z * Z) :=
  let* current := load_lhead in
  let* lookahead := load_lnext current in
  assert_ (negb (current =? 0)) ;;;
  let* c := load_info lat_count current in
  assert_ (c <=? next_max) ;;;
  let* (current, lookahead) := find_lateral prev_max current lookahead in
  let* next_max := (if negb (lookahead =? 0) then
      let* c := load_info lat_count lookahead in
      if c <=? next_max then
        let* c := load_info lat_count lookahead in Ret (u64 (c - 1))
      else Ret next_max
    else Ret next_max) in
  let* width := load_info lat_width current in
  assert_ (negb (width =? 0)) ;;;
  Ret (width, next_max).

Definition deq_lateral (max : Z) : ML unit :=
  let* read_head := load_lhead in
  let* probe := load_lnext read_head in
  let* new_head := while (fun '(new_head, probe) =>
      if negb (probe =? 0) then
        let* c := load_info lat_count probe in
        if c <=? max then
          let* next := load_lnext probe in
          continue (probe, next)
        else break new_head
      else break new_head) (read_head, probe) in
  if negb (read_head =? new_head) then
    let* _ := cae_lhead read_head new_head in Ret tt
  else Ret tt.

Definition create_lateral_queue (width : Z) : lateral lateral_node_t :=
  let a := alloc_addr ∅ in
  mkLateral (<[a := mkLnode 0 (mkLat 0 width)]> ∅) a a ∅ [a] [mkLat 0 width].

(** *** 2Dd-window_elastic.c *)

Definition random_index (w : Z) : ML Z := Shared.random_index 16 w.

(** Returns the new index, [random] and [hops]. *)
Definition hop (set : mqueue_t) (index random hops w : Z) : ML (Z * Z * Z) :=
  put (count_stat inc_hop) ;;;
  if random <? random_hops set then
    let* index := random_index w in
    Ret (index, u16 (random + 1), hops)
  else
    let hops := u16 (hops + 1) in
    let index := u16 (index + 1) in
    Ret (if w <=? index then 0 else index, random, hops).

(** [thread_GWindow.max] plus the depth, at most the put window's [max]. *)
Definition get_shift_max : ML Z :=
  let* m := myG gmax in
  let* d := put_depth in
  let max := u64 (m + d) in
  let* tp := myP pmax in
  let* gp := (if tp <? max then Ret true else let* gp := load_P pmax in Ret (gp <? max)) in
  if (gp : bool) then load_P pmax else Ret max.

(** The copy of a descriptor is not atomic. *)
Definition read_put (i : Z) : ML descriptor_t :=
  let* n := load_put dnode i in
  let* c := load_put dcount i in
  Ret (mkDesc n c).
Definition read_get (i : Z) : ML descriptor_t :=
  let* n := load_get dnode i in
  let* c := load_get dcount i in
  Ret (mkDesc n c).

(** [thread_PWindow.word1 = word1; thread_PWindow.word2 = global.word2]: the
    other fields may be newer than [word1]. *)
Definition sync_P (word1 : Z) : ML unit :=
  let* p := load_P id in
  put (upd (set_PWindow (mkPwin word1 (pdepth p) (pwidth p) (pnext_width p)))).
Definition sync_G (word1 : Z) : ML unit :=
  let* p := load_G id in
  put (upd (set_GWindow (mkGwin word1 (gdepth p) (gwidth p)))).

(** [if (thread_put_index >= thread_PWindow.width) thread_put_index = 0]. *)
Definition clip_put_index : ML unit :=
  put (upd (fun w => if pwidth (thread_PWindow w) <=? thread_put_index w then set_put_index 0 w else w)).
Definition clip_get_index : ML unit :=
  put (upd (fun w => if gwidth (thread_GWindow w) <=? thread_get_index w then set_get_index 0 w else w)).

(** [CAE(&global_PWindow.content, &thread_PWindow, &new)]: on failure the
    thread's copy is overwritten with the real window; and what follows a
    success. *)
Definition cae_PWindow (new : put_window_t) : ML bool :=
  Act (fun g l =>
    let r := rest (window g) in
    if decide (global_PWindow r = thread_PWindow (thread_Window l)) then
      Some (true,
        set_rest (mkGlobals new (global_GWindow r) (depth r) (get_depth r) (width r) (widths r ++ [pwidth new])) g, l)
    else Some (false, g, upd (set_PWindow (global_PWindow r)) l)) Ret.
Definition cae_GWindow (new : get_window_t) : ML bool :=
  Act (fun g l =>
    let r := rest (window g) in
    if decide (global_GWindow r = thread_GWindow (thread_Window l)) then
      Some (true, set_rest (mkGlobals (global_PWindow r) new (depth r) (get_depth r) (width r) (widths r)) g, l)
    else Some (false, g, upd (set_GWindow (global_GWindow r)) l)) Ret.

(** The branch "shift window" of [put_window]. *)
Definition shift_put_window : ML unit :=
  (let* m := myP pmax in
   let* gm := load_P pmax in
   if m =? gm then
     let* w := myP pwidth in
     let* nw := myP pnext_width in
     maybe_enq_lateral m w nw ;;;
     let* d := put_depth in
     let* next := load_rest width in
     let new := mkPwin (u64 (m + d)) d nw next in
     let* ok := cae_PWindow new in
     if (ok : bool) then put (count_stat inc_slide) ;;; put (upd (set_PWindow new)) else Ret tt
   else Ret tt) ;;;
  clip_put_index.

Definition put_window_body (set : mqueue_t) '((hops, random) : Z * Z) : ML (Z * Z + descriptor_t) :=
  let* index := my thread_put_index in
  let* descriptor := read_put index in
  let* word1 := load_P pmax in
  let* m := myP pmax in
  if negb (m =? word1) then
    sync_P word1 ;;; clip_put_index ;;; continue (0, random)
  else if dcount descriptor <? m then
    let* w := myP pwidth in
    assert_ (index <? w) ;;;
    let* gw := myG gwidth in
    (if gw =? w then put (upd (set_get_index index)) else Ret tt) ;;;
    break descriptor
  else
    let* w := myP pwidth in
    if hops <? w then
      let* (index, random, hops) := hop set index random hops w in
      put (upd (set_put_index index)) ;;;
      continue (hops, random)
    else
      shift_put_window ;;; continue (0, random).

Definition put_window (set : mqueue_t) (contention : bool) : ML descriptor_t :=
  (let* word1 := load_P pmax in
   let* m := myP pmax in
   if negb (m =? word1) then
     sync_P word1 ;;;
     let* d := myP pdepth in
     assert_ (negb (d =? 0))
   else Ret tt) ;;;
  (let* i := my thread_put_index in
   let* w := myP pwidth in
   if contention || (w <=? i) then
     let* r := random_index w in put (upd (set_put_index r))
   else Ret tt) ;;;
  while (put_window_body set) (0, 0).

(** The branch "Shift window" of [get_window]. *)
Definition shift_get_window : ML unit :=
  let* new_max := get_shift_max in
  let* m := myG gmax in
  let* (new_width, new_max) := get_next_window_lateral m new_max in
  let new := mkGwin new_max (u16 (new_max - m)) new_width in
  (let* gm := load_G gmax in
   if m =? gm then
     assert_ (m <=? new_max) ;;;
     let* ok := cae_GWindow new in
     if (ok : bool) then
       put (count_stat inc_slide) ;;;
       deq_lateral new_max ;;;
       put (upd (set_GWindow new))
     else Ret tt
   else Ret tt) ;;;
  clip_get_index.

Definition get_window_body (set : mqueue_t) (lower_bound : Z) '((hops, random, notempty) : Z * Z * bool)
    : ML (Z * Z * bool + descriptor_t) :=
  let* index := my thread_get_index in
  let* descriptor := read_get index in
  let* put_count := (if dcount descriptor <=? lower_bound then Ret lower_bound
    else load_put dcount index) in
  let* word1 := load_G gmax in
  let* m := myG gmax in
  if negb (m =? word1) then
    sync_G word1 ;;; clip_get_index ;;; continue (0, random, false)
  else if (dcount descriptor <? m) && (dcount descriptor <? put_count) then break descriptor
  else
    let* w := myG gwidth in
    if negb (hops =? w) then
      let notempty := if dcount descriptor <? put_count then true else notempty in
      let* (index, random, hops) := hop set index random hops w in
      put (upd (set_get_index index)) ;;;
      continue (hops, random, notempty)
    else
      let* shift := (if (notempty : bool) then Ret true
        else let* gp := load_P pmax in Ret (negb (m =? gp))) in
      if (shift : bool) then shift_get_window ;;; continue (0, random, false)
      else break descriptor.

Definition get_window (set : mqueue_t) (contention : bool) : ML descriptor_t :=
  (if contention then
     let* w := myG gwidth in
     let* r := random_index w in put (upd (set_get_index r))
   else Ret tt) ;;;
  (let* word1 := load_G gmax in
   let* m := myG gmax in
   if negb (m =? word1) then sync_G word1 ;;; clip_get_index else Ret tt) ;;;
  let* m := myP pmax in
  let* d := myP pdepth in
  let* descriptor := while (get_window_body set (u64 (m - d))) (0, 0, false) in
  put (upd (fun w => if gwidth (thread_GWindow w) =? pwidth (thread_PWindow w)
                     then set_put_index (thread_get_index w) w else w)) ;;;
  Ret descriptor.

(** *** 2Dd-queue_elastic.c *)

Definition create_node (key val next : Z) : ML Z := alloc_node (mkQnode next key val).

Definition enq_cae (i tail new_node : Z) : ML bool := cas_next i tail new_node.
Definition deq_cae (i : Z) (d new : descriptor_t) : ML bool := cae_get i d new.

(** The count of the node after the one with [count], above [bottom]. *)
Definition next_count (count bottom : Z) : Z :=
  if bottom <=? count then u64 (count + 1) else u64 (bottom + 1).

Definition enqueue_body (set : mqueue_t) (new_node : Z) (contention : bool)
    : ML (bool + descriptor_t * descriptor_t) :=
  let* descriptor := put_window set contention in
  let* m := myP pmax in
  let* gm := myG gmax in
  assert_ (gm <=? m) ;;;
  assert_ (dcount descriptor <? m) ;;;
  let tail := dnode descriptor in
  let* index := my thread_put_index in
  let* c := load_put dcount index in
  if m <=? c then continue contention
  else
    let* d := myP pdepth in
    let count := next_count (dcount descriptor) (u64 (m - d)) in
    let* next := load_next tail in
    if next =? 0 then
      let* ok := enq_cae index tail new_node in
      if ok then
        let* w := myP pwidth in
        assert_ (index <=? w) ;;;
        break (descriptor, mkDesc new_node count)
      else put (count_stat inc_put_cas_fail) ;;; continue true
    else
      let* next := load_next tail in
      let* ok := cae_put index descriptor (mkDesc next count) in
      if ok then
        assert_ (count <=? m) ;;;
        put (count_stat inc_put_cas_fail) ;;; continue contention
      else put (count_stat inc_put_cas_fail) ;;; continue true.

Definition enqueue (set : mqueue_t) (key val : Z) : ML Z :=
  let* new_node := create_node key val 0 in
  let* (descriptor, new_descriptor) := while (enqueue_body set new_node) false in
  let* index := my thread_put_index in
  let* _ := cae_put index descriptor new_descriptor in
  Ret 1.

(** From the label [non_overlap] on. *)
Definition non_overlap (index : Z) (descriptor : descriptor_t) : ML (bool + Z) :=
  let head := dnode descriptor in
  let* next := load_next head in
  let* max := myG gmax in
  let* depth := myG gdepth in
  let count := u64 (dcount descriptor + 1) in
  let min := u64 (u64 (max - depth) + 1) in
  let* ok := deq_cae index descriptor (mkDesc next (if count <? min then min else count)) in
  if ok then
    let* val := load_val next in
    break val
  else put (count_stat inc_get_cas_fail) ;;; continue true.

Definition dequeue_body (set : mqueue_t) (contention : bool) : ML (bool + Z) :=
  let* descriptor := get_window set contention in
  let head := dnode descriptor in
  let* index := my thread_get_index in
  let* pm := myP pmax in
  let* pd := myP pdepth in
  let* gm := myG gmax in
  if u64 (pm - pd) <? gm then
    let* enq_descriptor := read_put index in
    if head =? dnode enq_descriptor then
      let* next := load_head_next index head in
      if next =? 0 then
        put (count_stat inc_null) ;;; break 0
      else
        let* next := load_next (dnode enq_descriptor) in
        let* m := load_P pmax in
        let* d := load_P pdepth in
        let count := next_count (dcount enq_descriptor) (u64 (m - d)) in
        let* ok := cae_put index enq_descriptor (mkDesc next count) in
        continue (if ok then contention else true)
    else non_overlap index descriptor
  else non_overlap index descriptor.

Definition dequeue (set : mqueue_t) : ML Z :=
  let* word1 := load_P pmax in
  sync_P word1 ;;;
  while (dequeue_body set) false.

Definition queue_size (set : mqueue_t) : ML Z :=
  queues_span (max_width set).

(** [SWP(&set->field, v)]: returns the old value. *)
Definition swap_field (f : globals -> Z) (set_f : Z -> globals -> globals) (v : Z) : ML Z :=
  update (fun g _ => let r := rest (window g) in Some (f r, set_rest (set_f v r) g)).
Definition set_depth (v : Z) (r : globals) : globals :=
  mkGlobals (global_PWindow r) (global_GWindow r) v (get_depth r) (width r) (widths r).
Definition set_get_depth (v : Z) (r : globals) : globals :=
  mkGlobals (global_PWindow r) (global_GWindow r) (depth r) v (width r) (widths r).
Definition set_width (v : Z) (r : globals) : globals :=
  mkGlobals (global_PWindow r) (global_GWindow r) (depth r) (get_depth r) v (widths r).
Definition update_depth (v : Z) : ML Z := swap_field depth set_depth v.
Definition update_put_depth (v : Z) : ML Z := swap_field depth set_depth v.
Definition update_get_depth (v : Z) : ML Z := swap_field get_depth set_get_depth v.
Definition update_width (v : Z) : ML Z := swap_field width set_width v.
Definition get_depth_now : ML Z := load_rest depth.
Definition get_width : ML Z := load_rest width.
Definition get_put_width : ML Z := myP pwidth.
Definition get_get_width : ML Z := myG gwidth.

Definition initialize_global_window (depth width : Z) : option (put_window_t * get_window_t) :=
  if depth =? 0 then None
  else Some (mkPwin depth depth width width, mkGwin depth depth width).

(** [create_queue]; [None]: signed overflow, division by zero or a failed
    assertion. *)
Definition create_queue (junk : nat -> qnode_of unit)
    (num_threads width depth max_width k_mode relaxation_bound : Z) : option (mqueue_t * lstate) :=
  p ← calculate 1 16 16 (product_int 1) num_threads width depth k_mode relaxation_bound;
  let max_width := if max_width <? p_width p then p_width p else max_width in
  '(pw, gw) ← initialize_global_window (p_depth p) (p_width p);
  Some (mkQueue 2 max_width (p_bound p) k_mode,
    mkShared
      (mkElastic (create_lateral_queue (p_width p))
        (mkGlobals pw gw (p_depth p) (p_depth p) (p_width p) [p_width p]))
      (created junk (fun a => mkDesc a 0) (fun a => mkDesc a 0) (Z.to_nat max_width))).

(** A client's calls. *)
Inductive lop := QueueOp (o : op) | UpdateDepth (v : Z) | UpdateWidth (v : Z).

Definition exec_op (set : mqueue_t) (o : lop) : ML Z :=
  match o with
  | QueueOp (Enqueue k v) => enqueue set k v
  | QueueOp Dequeue => dequeue set
  | UpdateDepth v => update_depth v
  | UpdateWidth v => update_width v
  end.
End code.

(** A thread's variables are zero when it starts. *)
Definition windows0 : windows := mkWindows (mkPwin 0 0 0 0) (mkGwin 0 0 0) 0 0.
