(* ===== verification/LpwWindow.v ===== *)
(** The windows of the elastic queue (LpW) for a thread that runs alone while the
    depth stays the same: which window of the sequence of put windows the get
    window is, and what [put_window] and [get_window] return. *)
From S2P Require Import Prelude Conc Random Thread StackHeap QueueHeap Shared SubQueues Lateral Rows RowOrder ElasticLpw.

(** ** The sequence of put windows *)

(** Windows of depth [d] with the widths [ws], after the one that has no rows. *)
Definition wins (d : Z) (ws : list Z) : list win :=
  mkWin 0 (default 1 (ws !! 0%nat)) 0 :: imap (fun n w => mkWin (Z.of_nat (S n) * d) w d) ws.

Section wins.
Context (d : Z) (Hd : 1 <= d < 2 ^ 16).

Lemma wins_length ws : length (wins d ws) = S (length ws).
Proof. cbn. by rewrite length_imap. Qed.

Lemma wins_lookup ws n : wins d ws !! S n = (fun w => mkWin (Z.of_nat (S n) * d) w d) <$> ws !! n.
Proof. apply (list_lookup_imap (fun n w => mkWin (Z.of_nat (S n) * d) w d) ws n). Qed.

Lemma wins_snoc ws w : ws <> [] ->
  wins d (ws ++ [w]) = wins d ws ++ [mkWin (Z.of_nat (S (length ws)) * d) w d].
Proof.
  intros Hne. unfold wins. rewrite imap_app. cbn [imap app].
  rewrite Nat.add_0_r. rewrite lookup_app_l; [done|]. destruct ws; [done|cbn; lia].
Qed.

Lemma spec_windows_wins ws : spec_windows (wins d ws) = (fun w => (w, d)) <$> ws.
Proof.
  unfold spec_windows, wins. cbn [tail]. apply list_eq. intros n.
  rewrite !list_lookup_fmap, list_lookup_imap. by destruct (ws !! n).
Qed.

(** What the lateral queue says of the widths: a node is at a row where the width
    changes, and the width of a window is that of the last node up to its first
    row. *)
Record lat_ok (ws : list Z) (xs : list lateral_node_t) : Prop := mkLatOk {
  la_incr : forall j k x y, xs !! j = Some x -> xs !! k = Some y -> (j < k)%nat -> lat_count x < lat_count y;
  la_count : forall j x, xs !! j = Some x ->
    exists n, (n < length ws)%nat /\ lat_count x = if decide (n = 0%nat) then 0 else Z.of_nat n * d + 1;
  la_width : forall n w, ws !! n = Some w -> exists j x, xs !! j = Some x /\ lat_width x = w /\
    lat_count x <= Z.of_nat n * d + 1 /\ forall y, xs !! S j = Some y -> Z.of_nat n * d + 1 < lat_count y;
}.

Lemma lat_ok_created w : lat_ok [w] [mkLat 0 w].
Proof.
  split.
  - intros [|j] [|k] x y Hx Hy; cbn in *; lia || done.
  - intros [|j] x Hx; [|done]. injection Hx as <-. exists 0%nat. by split; [cbn; lia|].
  - intros [|n] v Hv; [|done]. injection Hv as <-. exists 0%nat, (mkLat 0 w). cbn.
    do 2 (split; [done|]). split; [lia|done].
Qed.

Lemma lat_ok_bound ws xs j x : lat_ok ws xs -> xs !! j = Some x -> 0 <= lat_count x <= Z.of_nat (pred (length ws)) * d + 1.
Proof. intros [] Hx. destruct (la_count0 j x Hx) as (n & Hn & ->). destruct (decide _); nia. Qed.

(** The last node up to a row. *)
Lemma lat_ok_last ws xs j k x y c :
  lat_ok ws xs -> xs !! j = Some x -> lat_count x <= c -> (forall z, xs !! S j = Some z -> c < lat_count z) ->
  xs !! k = Some y -> lat_count y <= c -> (forall z, xs !! S k = Some z -> c < lat_count z) -> j = k.
Proof.
  intros HL. revert j k x y. assert (Hlt : forall j k x y, xs !! j = Some x -> lat_count x <= c ->
    (forall z, xs !! S j = Some z -> c < lat_count z) -> xs !! k = Some y -> lat_count y <= c -> (k <= j)%nat).
  { intros j k x y Hj Hx Hn Hk Hy. destruct (decide (k <= j)%nat) as [|Hgt]; [done|]. exfalso.
    destruct (lookup_lt_is_Some_2 xs (S j)) as [z Hz]; [apply lookup_lt_Some in Hk; lia|].
    specialize (Hn z Hz). destruct (decide (S j = k)) as [<-|]; [assert (z = y) as -> by congruence; lia|].
    pose proof (la_incr _ _ HL (S j) k z y Hz Hk ltac:(lia)). lia. }
  intros j k x y Hj Hx Hn Hk Hy Hn'. pose proof (Hlt j k x y Hj Hx Hn Hk Hy).
  pose proof (Hlt k j y x Hk Hy Hn' Hj Hx). lia.
Qed.

(** The last node is not above the last window's first row. *)
Lemma lat_ok_end ws xs w : lat_ok ws xs -> last ws = Some w -> exists j x, xs !! j = Some x /\ lat_width x = w /\
  lat_count x <= Z.of_nat (pred (length ws)) * d + 1 /\ xs !! S j = None.
Proof.
  intros HL Hw. rewrite last_lookup in Hw.
  destruct (la_width _ _ HL _ w Hw) as (j & x & Hx & Ew & Hle & Hn). exists j, x.
  do 3 (split; [done|]). destruct (xs !! S j) as [y|] eqn:Hy; [|done]. specialize (Hn y eq_refl).
  pose proof (lat_ok_bound ws xs (S j) y HL Hy). lia.
Qed.

(** A new window of the same width, and of another one. *)
Lemma lat_ok_same ws xs w : lat_ok ws xs -> last ws = Some w -> lat_ok (ws ++ [w]) xs.
Proof.
  intros HL Hw. pose proof HL as []. split; [done|..].
  - intros j x Hx. destruct (la_count0 j x Hx) as (n & Hn & E). exists n. rewrite length_app. split; [lia|done].
  - intros n v [Hv|[Hge Hv]]%lookup_app_Some; [by apply la_width0|].
    apply list_lookup_singleton_Some in Hv as [En <-].
    destruct (lat_ok_end ws xs w HL Hw) as (j & x & Hx & Ew & Hle & Hn). exists j, x.
    split; [done|split; [done|]]. split; [nia|]. rewrite Hn. done.
Qed.

Lemma lat_ok_new ws xs w0 w :
  lat_ok ws xs -> last ws = Some w0 -> lat_ok (ws ++ [w]) (xs ++ [mkLat (Z.of_nat (length ws) * d + 1) w]).
Proof.
  intros HL Hw0. pose proof HL as []. destruct (lat_ok_end ws xs w0 HL Hw0) as (jl & xl & Hxl & _ & _ & Hend).
  assert (Hlen : (0 < length ws)%nat) by (destruct ws; [done|cbn; lia]).
  assert (Hold : forall j x, (xs ++ [mkLat (Z.of_nat (length ws) * d + 1) w]) !! j = Some x ->
    xs !! j = Some x \/ j = length xs /\ x = mkLat (Z.of_nat (length ws) * d + 1) w).
  { intros j x [?|[Hge Hx]]%lookup_app_Some; [by left|right].
    apply list_lookup_singleton_Some in Hx as [? <-]. split; [lia|done]. }
  split.
  - intros j k x y [Hx|[-> ->]]%Hold [Hy|[-> ->]]%Hold Hjk; [by eapply la_incr0| | |lia].
    + pose proof (lat_ok_bound ws xs j x HL Hx). cbn [lat_count]. nia.
    + apply lookup_lt_Some in Hy. lia.
  - intros j x [Hx|[-> ->]]%Hold.
    + destruct (la_count0 j x Hx) as (n & Hn & E). exists n. rewrite length_app. split; [lia|done].
    + exists (length ws). rewrite length_app. cbn [length lat_count]. split; [lia|]. by rewrite decide_False by lia.
  - intros n v [Hv|[Hge Hv]]%lookup_app_Some.
    + destruct (la_width0 n v Hv) as (j & x & Hx & Ew & Hle & Hn). apply lookup_lt_Some in Hv.
      exists j, x. split; [by apply lookup_app_l_Some|]. do 2 (split; [done|]).
      intros y [Hy|[_ ->]]%Hold; [by apply Hn|cbn [lat_count]; nia].
    + apply list_lookup_singleton_Some in Hv as [En <-]. exists (length xs), (mkLat (Z.of_nat (length ws) * d + 1) w).
      split; [by rewrite lookup_app_r, Nat.sub_diag by lia|]. split; [done|]. cbn [lat_count]. split; [nia|].
      intros y [Hy|[? _]]%Hold; [apply lookup_lt_Some in Hy; lia|lia].
Qed.

(** The next node is not among the rows of the next window. *)
Lemma lat_ok_next ws xs j y H :
  lat_ok ws xs -> xs !! j = Some y -> Z.of_nat (S H) * d + 1 < lat_count y -> Z.of_nat (S (S H)) * d < lat_count y.
Proof.
  intros HL Hy Hlt. destruct (la_count _ _ HL j y Hy) as (n & _ & E). rewrite E in *.
  destruct (decide (n = 0%nat)); [nia|]. assert (S H < n)%nat by (apply Nat.lt_nge; intros ?; nia). nia.
Qed.
End wins.

(** ** The protocol of a thread alone *)

Definition set_ok (set : mqueue_t) : Prop := 1 <= max_width set < 2 ^ 16 /\ 0 <= random_hops set < 2 ^ 16 - 1.

Section alone.
Context {A : Allocator (qnode_of unit)} {LA : Allocator (lnode lateral_node_t)}.
Context (set : mqueue_t) (Hset : set_ok set) (d : Z) (Hd : 1 <= d < 2 ^ 16).
Notation mw := (max_width set).
Definition lpw_base : protocol lstate := joint (elastic_prot no_window (fun _ => True)) (qprot mw (2 ^ 62)).
Notation B := lpw_base.
Notation P := (alone B).
Implicit Types (g : lstate) (l : tls windows).
Notation latof g := (lat (window g)).

(** The rules of Lateral.v and SubQueues.v at this protocol. *)
Notation lat_rule f := (f (no_window (W := globals)) (fun _ => True) (qprot mw (2 ^ 62)) P 0%nat (fun _ => True)) (only parsing).
Notation lat_step f := (f (no_window (W := globals)) _ (fun _ => True) (qprot mw (2 ^ 62)) _ P 0%nat (fun _ => True)) (only parsing).
Notation sub_rule f := (f (elastic_prot (no_window (W := globals)) (fun _ => True)) mw (2 ^ 62) P 0%nat) (only parsing).

Lemma alone_rely g g' : p_rely P 0%nat g g' -> g' = g.
Proof. intros R. by apply R. Qed.
Lemma lpw_lat g : p_inv B g -> lat_inv (latof g).
Proof. intros HI. apply HI. Qed.
Lemma lpw_subs g : p_inv B g -> queues_inv mw (subs g).
Proof. intros HI. apply HI. Qed.

Lemma alone_load_var {U} (f : lstate -> U) (Q : U -> lstate -> tls windows -> Prop) g l :
  Q (f g) g l -> wp P 0 (load_var f) Q g l.
Proof. intros HQ. apply wp_load_var; [apply _|]. intros g1 R1 _ _. by rewrite (alone_rely _ _ R1). Qed.

Lemma alone_my {U} (f : windows -> U) (Q : U -> lstate -> tls windows -> Prop) g l :
  Q (f (thread_Window l)) g l -> wp P 0 (my f) Q g l.
Proof. done. Qed.

Lemma alone_rest r g : p_inv B g -> p_inv B (set_rest r g) /\ p_guar P 0%nat g (set_rest r g).
Proof. intros HI. by destruct (rstep (no_window (W := globals)) (fun _ => True) (qprot mw (2 ^ 62)) P 0%nat (fun _ => True) g r HI I I I). Qed.

Lemma alone_info {U} (f : lateral_node_t -> U) k a x (Q : U -> lstate -> tls windows -> Prop) g l :
  lat_at (latof g) k a x -> Q (f x) g l -> wp P 0 (load_info f a) Q g l.
Proof. intros Ha HQ. apply ((lat_rule wp_load_info) f k a x); [done|]. intros g1 R1 _. by rewrite (alone_rely _ _ R1). Qed.

(** The [next] of the [k]-th node: the [k+1]-th, or [NULL]. *)
Definition lat_after (m : lateral lateral_node_t) (k : nat) (b : Z) : Prop :=
  (b = 0 /\ length (chain m) = S k) \/ (b <> 0 /\ exists y, lat_at m (S k) b y).

Lemma alone_lnext k a x (Q : Z -> lstate -> tls windows -> Prop) g l :
  lat_at (latof g) k a x -> (forall b, lat_after (latof g) k b -> Q b g l) -> wp P 0 (load_lnext a) Q g l.
Proof.
  intros Ha HQ. apply ((lat_rule wp_load_lnext) k a x); [done|..].
  - intros g1 R1 _. rewrite (alone_rely _ _ R1). intros Hlen. apply HQ. by left.
  - intros g1 b y R1 _ Hb. rewrite (alone_rely _ _ R1). intros Hy. apply HQ. right. eauto.
Qed.

Lemma lat_after_none (m : lateral lateral_node_t) k : lat_inv m -> length (chain m) = S k -> infos m !! S k = None.
Proof. intros [] E. apply lookup_ge_None_2. lia. Qed.

(** *** lateral_queue.c *)

Lemma try_enq_alone count w (Q : unit -> lstate -> tls windows -> Prop) g l :
  thread_id l = 0%nat -> p_inv B g -> length (chain (latof g)) = S (ltail_pos (latof g)) ->
  (forall x, infos (latof g) !! ltail_pos (latof g) = Some x -> lat_count x < count) ->
  (forall m, p_inv B (set_lat m g) -> infos m = infos (latof g) ++ [mkLat count w] ->
     lhead_pos m = lhead_pos (latof g) -> length (chain m) = S (ltail_pos m) -> Q tt (set_lat m g) l) ->
  wp P 0 (try_enq_lateral count w) Q g l.
Proof.
  intros Ht HI Hlen Hc HQ. unfold try_enq_lateral. wp_local.
  apply (lat_rule wp_load_ltail). intros g1 a x R1 _ _ _ Ha. rewrite (alone_rely _ _ R1) in *. wp_local.
  apply (alone_info lat_count (ltail_pos (latof g)) a x); [done|].
  rewrite (proj2 (Z.ltb_lt _ _) (Hc x (proj2 Ha))). wp_local.
  apply (alone_lnext (ltail_pos (latof g)) a x); [done|].
  intros b [[-> _]|[_ (y & Hb)]]; [|apply proj1, lookup_lt_Some in Hb; lia]. cbn [Z.eqb]. wp_local. wp_local.
  unfold create_lateral_node. apply (lat_step wp_alloc_lnode); [done|done|].
  intros b g2 m R2 _ g3 I3 He Ec Ei Et Eh Ho. unfold g3 in *. rewrite (alone_rely _ _ R2) in *. wp_local.
  assert (Etl : ltail_pos m = ltail_pos (latof g)) by (unfold ltail_pos, lpos; by rewrite Ec, Et).
  assert (Ehd : lhead_pos m = lhead_pos (latof g)) by (unfold lhead_pos, lpos; by rewrite Ec, Eh).
  apply ((lat_step wp_cas_lnext) (ltail_pos (latof g)) a x b (mkLat count w)); [by apply (lat_at_evolves (latof g))| |exact Ho|done|..].
  { cbn. lia. }
  2: { intros g4 R4 _. rewrite (alone_rely _ _ R4). cbn. rewrite Ec. lia. }
  intros g4 m4 R4 _ g5 I5 _ Hb He5 Ei5 Et5 Eh5. unfold g5 in *. rewrite (alone_rely _ _ R4) in *.
  assert (Hb0 : b <> 0) by apply (lat_node _ _ _ _ (lpw_lat _ I5) Hb).
  wp_local. wp_local. apply wp_assert; [by rewrite (proj2 (Z.eqb_neq _ _) Hb0)|]. wp_local.
  assert (Ha5 : lat_at m4 (ltail_pos (latof g)) a x).
  { apply (lat_at_evolves (latof (set_lat m g))); [exact He5|]. by apply (lat_at_evolves (latof g)). }
  cbn [latof set_lat set_window window lat] in *.
  apply ((lat_step wp_cae_ltail) (ltail_pos (latof g)) a x b (mkLat count w)); [exact Ha5|exact Hb|done|..].
  - intros g6 m6 R6 _ g7 I7 _ Ec7 Ei7 Et7 Eh7 _. unfold g7 in *. rewrite (alone_rely _ _ R6) in *. wp_locals.
    cbn [set_lat set_window window lat] in *.
    apply (HQ m6); [exact I7|by rewrite Ei7, Ei5, Ei|by rewrite Eh7, Eh5|].
    rewrite Et7, Ec7. pose proof (li_infos _ (lpw_lat _ I5)) as El. cbn in El. rewrite <- El, Ei5, Ei, length_app.
    pose proof (li_infos _ (lpw_lat _ HI)). cbn. lia.
  - intros g6 R6 _. rewrite (alone_rely _ _ R6). cbn. lia.
Qed.

Lemma maybe_enq_alone m w nw (Q : unit -> lstate -> tls windows -> Prop) g l :
  thread_id l = 0%nat -> p_inv B g -> length (chain (latof g)) = S (ltail_pos (latof g)) ->
  (forall x, infos (latof g) !! ltail_pos (latof g) = Some x -> lat_count x < m + 1) -> 0 <= m < 2 ^ 64 - 1 ->
  (forall m', p_inv B (set_lat m' g) ->
     infos m' = infos (latof g) ++ (if decide (w = nw) then [] else [mkLat (m + 1) nw]) ->
     lhead_pos m' = lhead_pos (latof g) -> length (chain m') = S (ltail_pos m') -> Q tt (set_lat m' g) l) ->
  wp P 0 (maybe_enq_lateral m w nw) Q g l.
Proof.
  intros Ht HI Hlen Hc Hm HQ. unfold maybe_enq_lateral. destruct (decide (w = nw)) as [->|Hne].
  - rewrite Z.eqb_refl. cbn [negb]. wp_local. specialize (HQ (latof g)).
    replace (set_lat (latof g) g) with g in HQ by (by destruct g as [[]]). apply HQ; [done|by rewrite app_nil_r|done|done].
  - rewrite (proj2 (Z.eqb_neq _ _) Hne). cbn [negb]. rewrite wrap_small by lia. by apply try_enq_alone.
Qed.

(** Where the loops over the nodes stop: at the last node up to row [c]. *)
Definition last_upto (m : lateral lateral_node_t) (c : Z) (j : nat) (a : Z) (x : lateral_node_t) : Prop :=
  lat_at m j a x /\ lat_count x <= c /\ forall y, infos m !! S j = Some y -> c < lat_count y.

Lemma lat_after_stop m j a x c b :
  lat_inv m -> lat_at m j a x -> lat_count x <= c -> lat_after m j b ->
  b = 0 \/ (exists y, lat_at m (S j) b y /\ c < lat_count y) -> last_upto m c j a x.
Proof.
  intros HI Ha Hle Hb Hor. split; [done|split; [done|]]. intros y Hy. destruct Hor as [->|(y' & [_ Hy'] & Hlt)].
  - destruct Hb as [[_ Hlen]|[? _]]; [|done]. by rewrite (lat_after_none m j HI Hlen) in Hy.
  - by assert (y' = y) as <- by congruence.
Qed.

Lemma find_lateral_alone prev j a x b (Q : Z * Z -> lstate -> tls windows -> Prop) g l :
  p_inv B g -> 0 <= prev < 2 ^ 64 - 1 -> lat_at (latof g) j a x -> lat_count x <= prev + 1 ->
  lat_after (latof g) j b ->
  (forall k c y n, last_upto (latof g) (prev + 1) k c y -> lat_after (latof g) k n -> Q (c, n) g l) ->
  wp P 0 (find_lateral prev a b) Q g l.
Proof.
  intros HI Hp Ha Hle Hb HQ. unfold find_lateral. pose proof (lpw_lat g HI) as HL.
  apply (wp_while P 0%nat _ _ _ _ (fun n '(a, b) g1 l1 => g1 = g /\ l1 = l /\ exists j x,
    lat_at (latof g) j a x /\ lat_count x <= prev + 1 /\ lat_after (latof g) j b /\
    n = (length (chain (latof g)) - j)%nat) (length (chain (latof g)) - j)%nat).
  - split; [done|split; [done|]]. by exists j, x.
  - clear j a x b Ha Hle Hb. intros n [a b] g1 l1 (-> & -> & j & x & Ha & Hle & Hb & ->).
    destruct Hb as [[-> Hlen]|[Hne (y & Hy)]].
    + cbn [Z.eqb negb]. wp_locals. eapply (HQ j a x); [|by left].
      apply (lat_after_stop _ j a x (prev + 1) 0 HL Ha Hle); [by left|by left].
    + rewrite (proj2 (Z.eqb_neq _ _) Hne). cbn [negb]. wp_local.
      apply (alone_info lat_count (S j) b y); [done|]. rewrite wrap_small by lia.
      destruct (Z.leb_spec (lat_count y) (prev + 1)).
      * wp_local. apply (alone_lnext (S j) b y); [done|]. intros c Hc. wp_locals.
        exists (length (chain (latof g)) - S j)%nat. destruct Hy as [Hy Hy']. apply lookup_lt_Some in Hy as Hlt.
        split; [lia|]. split; [done|split; [done|]]. by exists (S j), y.
      * wp_locals. apply (HQ j a x); [|right; eauto].
        apply (lat_after_stop _ j a x (prev + 1) b HL Ha Hle); [right; eauto|right; eauto].
Qed.

Lemma get_next_window_alone ws H w (Q : Z * Z -> lstate -> tls windows -> Prop) g l :
  p_inv B g -> lat_ok d ws (infos (latof g)) -> ws !! S H = Some w -> w <> 0 ->
  (forall y, infos (latof g) !! lhead_pos (latof g) = Some y -> lat_count y <= Z.of_nat (S H) * d) ->
  Z.of_nat (S (S H)) * d < 2 ^ 64 ->
  Q (w, Z.of_nat (S (S H)) * d) g l ->
  wp P 0 (get_next_window_lateral (Z.of_nat (S H) * d) (Z.of_nat (S (S H)) * d)) Q g l.
Proof.
  intros HI HL Hw Hnz Hhead Hlim HQ. unfold get_next_window_lateral. wp_local.
  assert (Hmax : Z.of_nat (S (S H)) * d = Z.of_nat (S H) * d + d) by lia.
  assert (0 <= Z.of_nat (S H) * d) by nia.
  apply (lat_rule wp_load_lhead). intros g1 a x R1 _ _ Ha. rewrite (alone_rely _ _ R1) in *. wp_local.
  specialize (Hhead x (proj2 Ha)). destruct (lat_node _ _ _ _ (lpw_lat g HI) Ha) as [Ha0 _].
  apply (alone_lnext (lhead_pos (latof g)) a x); [done|]. intros b Hb. wp_local.
  apply wp_assert; [by rewrite (proj2 (Z.eqb_neq _ _) Ha0)|]. wp_local.
  apply (alone_info lat_count (lhead_pos (latof g)) a x); [done|]. wp_local.
  apply wp_assert; [apply Z.leb_le; lia|]. wp_local.
  apply (find_lateral_alone _ (lhead_pos (latof g)) a x); [done|lia|done|lia|done|].
  intros k c y n (Hc & Hle & Hnext) Hn. cbv beta iota. wp_local.
  (* The node found gives the width of the next window. *)
  destruct (la_width d _ _ HL (S H) w Hw) as (j & x' & Hx' & Ew & Hle' & Hnext').
  assert (k = j) as <- by (by eapply (lat_ok_last d ws _ k j y x' (Z.of_nat (S H) * d + 1) HL); [apply Hc|..]).
  assert (x' = y) as -> by (destruct Hc; congruence).
  assert (Hrest : wp P 0 (let* width := load_info lat_width c in
      assert_ (negb (width =? 0)) ;;; Ret (width, Z.of_nat (S (S H)) * d)) Q g l).
  { wp_local. apply (alone_info lat_width k c y); [done|]. rewrite Ew. wp_local.
    apply wp_assert; [by rewrite (proj2 (Z.eqb_neq _ _) Hnz)|]. wp_locals. exact HQ. }
  destruct Hn as [[-> _]|[Hn0 (z & Hz)]]; [cbn [Z.eqb negb]; wp_local; exact Hrest|].
  rewrite (proj2 (Z.eqb_neq _ _) Hn0). cbn [negb]. wp_local.
  apply (alone_info lat_count (S k) n z); [done|].
  rewrite (proj2 (Z.leb_gt _ _)); [wp_locals; exact Hrest|].
  apply (lat_ok_next d Hd ws _ (S k) z H HL); [apply Hz|]. apply Hnext'. apply Hz.
Qed.

Lemma deq_lateral_alone max (Q : unit -> lstate -> tls windows -> Prop) g l :
  p_inv B g -> (forall y, infos (latof g) !! lhead_pos (latof g) = Some y -> lat_count y <= max) ->
  (forall m, p_inv B (set_lat m g) -> chain m = chain (latof g) -> infos m = infos (latof g) ->
     ltail_pos m = ltail_pos (latof g) ->
     (forall y, infos m !! lhead_pos m = Some y -> lat_count y <= max) -> Q tt (set_lat m g) l) ->
  wp P 0 (deq_lateral max) Q g l.
Proof.
  intros HI Hhead HQ. unfold deq_lateral. wp_local. pose proof (lpw_lat g HI) as HL.
  apply (lat_rule wp_load_lhead). intros g1 a x R1 _ _ Ha. rewrite (alone_rely _ _ R1) in *. wp_local.
  apply (alone_lnext (lhead_pos (latof g)) a x); [done|]. intros b Hb. wp_local.
  apply (wp_while P 0%nat _ _ _ _ (fun n '(c, b) g1 l1 => g1 = g /\ l1 = l /\ exists j y,
    (lhead_pos (latof g) <= j)%nat /\ lat_at (latof g) j c y /\ lat_count y <= max /\ lat_after (latof g) j b /\
    n = (length (chain (latof g)) - j)%nat) (length (chain (latof g)) - lhead_pos (latof g))%nat).
  { split; [done|split; [done|]]. exists (lhead_pos (latof g)), x. split; [done|]. split; [done|].
    split; [apply Hhead, Ha|done]. }
  clear b Hb. intros n [c b] g2 l2 (-> & -> & j & y & Hj & Hc & Hle & Hb & ->).
  (* The end of the loop. *)
  assert (Hend : wp P 0 (if negb (a =? c) then let* _ := cae_lhead a c in Ret tt else Ret tt) Q g l).
  { destruct (Z.eqb_spec a c) as [->|Hne]; cbn [negb].
    - wp_local. specialize (HQ (latof g)). replace (set_lat (latof g) g) with g in HQ by (by destruct g as [[]]).
      by apply HQ.
    - wp_local. apply ((lat_step wp_cae_lhead) (lhead_pos (latof g)) a x j c y); [done|done|done|done|..].
      + intros g3 m R3 _ g4 I4 _ Ec Ei Et Eh _. unfold g4 in *. rewrite (alone_rely _ _ R3) in *. wp_locals.
        apply HQ; [done..|]. intros z Hz. rewrite Ei, Eh in Hz. by assert (z = y) as -> by (destruct Hc; congruence).
      + intros g3 R3 _. by rewrite (alone_rely _ _ R3). }
  destruct Hb as [[-> Hlen]|[Hb0 (z & Hz)]]; [cbn [Z.eqb negb]; wp_locals; exact Hend|].
  rewrite (proj2 (Z.eqb_neq _ _) Hb0). cbn [negb]. wp_local.
  apply (alone_info lat_count (S j) b z); [done|]. destruct (Z.leb_spec (lat_count z) max); [|wp_locals; exact Hend].
  wp_local. apply (alone_lnext (S j) b z); [done|]. intros e He. wp_locals.
  exists (length (chain (latof g)) - S j)%nat. pose proof (lookup_lt_Some _ _ _ (proj1 Hz)).
  split; [lia|]. split; [done|split; [done|]]. exists (S j), z. split; [lia|done].
Qed.

(** ** Between the operations *)

Notation Widths g := (widths (rest (window g))).
Notation Wins g := (wins d (widths (rest (window g)))).
Notation N g := (length (widths (rest (window g)))).
Notation PWindow g := (global_PWindow (rest (window g))).
Notation GWindow g := (global_GWindow (rest (window g))).

(** The put window is the last of the windows, the get window the one after the
    [H]-th of [wins]. *)
Record lpw_ok g (H : nat) : Prop := mkLpwOk {
  lk_inv : p_inv B g;
  lk_calm : calm mw (Wins g) (N g) H (subs g);
  lk_put : exists w nw, last (Widths g) = Some w /\ 1 <= nw <= mw /\ PWindow g = mkPwin (Z.of_nat (N g) * d) d w nw;
  lk_get : exists w, Widths g !! H = Some w /\ GWindow g = mkGwin (Z.of_nat (S H) * d) d w;
  lk_dims : depth (rest (window g)) = d /\ 1 <= width (rest (window g)) <= mw;
  lk_lat : lat_ok d (Widths g) (infos (latof g));
  lk_chain : length (chain (latof g)) = S (ltail_pos (latof g));
  lk_head : forall y, infos (latof g) !! lhead_pos (latof g) = Some y -> lat_count y <= Z.of_nat (S H) * d;
}.

(** The thread's copies are up to date, or are those of a thread that has just
    started. *)
Definition put_known g l : Prop :=
  thread_PWindow (thread_Window l) = PWindow g \/ pmax (thread_PWindow (thread_Window l)) = 0.
Definition get_known g l : Prop :=
  (thread_GWindow (thread_Window l) = GWindow g /\ thread_get_index (thread_Window l) < gwidth (GWindow g)) \/
  (gmax (thread_GWindow (thread_Window l)) = 0 /\ gwidth (thread_GWindow (thread_Window l)) = 0).
Definition thread_ok g l : Prop :=
  thread_id l = 0%nat /\ 0 <= thread_put_index (thread_Window l) /\ 0 <= thread_get_index (thread_Window l) /\
  put_known g l /\ get_known g l.

(** The numbers are far from overflowing, also with [n] more windows. *)
Definition small (n : Z) g : Prop := (Z.of_nat (N g) + n) * 2 ^ 16 + Z.of_nat (length (hist (subs g))) < 2 ^ 63.

(** What [put_window] may have changed: there is one more window, of the width
    that was waiting. *)
Definition one_more g0 g : Prop :=
  subs g = subs g0 /\ width (rest (window g)) = width (rest (window g0)) /\
  (Widths g = Widths g0 /\ PWindow g = PWindow g0 \/
   Widths g = Widths g0 ++ [pnext_width (PWindow g0)] /\ pnext_width (PWindow g) = width (rest (window g0))).

Lemma widths_pos g H : lpw_ok g H -> (0 < N g)%nat /\ Widths g <> [].
Proof. intros []. destruct lk_put0 as (w & _ & Hw & _). by destruct (Widths g); [|split; [cbn; lia|]]. Qed.

Lemma wins_bound g H n w : lpw_ok g H -> Widths g !! n = Some w -> 1 <= w <= mw.
Proof.
  intros HK Hw. apply (wo_width _ _ (lw_windows _ _ _ _ _ (cl_law _ _ _ _ _ (lk_calm _ _ HK))) (S n) (mkWin (Z.of_nat (S n) * d) w d)).
  by rewrite wins_lookup, Hw.
Qed.

Lemma last_width g H w : lpw_ok g H -> last (Widths g) = Some w -> 1 <= w <= mw.
Proof. rewrite last_lookup. apply wins_bound. Qed.

(** The put window of [wins]. *)
Lemma wins_last g H w : lpw_ok g H -> last (Widths g) = Some w -> Wins g !! N g = Some (mkWin (Z.of_nat (N g) * d) w d).
Proof.
  intros HK Hw. destruct (widths_pos g H HK) as [Hpos _]. rewrite last_lookup in Hw.
  destruct (N g) as [|n] eqn:En; [lia|]. rewrite wins_lookup. cbn [pred] in Hw. by rewrite Hw.
Qed.

Lemma put_top g H i : lpw_ok g H -> 0 <= i < mw -> put_row (subs g) i <= Z.of_nat (N g) * d.
Proof.
  intros HK Hi. destruct (lk_put _ _ HK) as (w & _ & Hw & _).
  apply (lw_top _ _ _ _ _ (cl_law _ _ _ _ _ (lk_calm _ _ HK)) i _ Hi (wins_last g H w HK Hw)).
Qed.

Lemma pmax_range n g H : lpw_ok g H -> 0 <= n -> small n g -> 0 < pmax (PWindow g) /\ pmax (PWindow g) + d * n < 2 ^ 63.
Proof.
  intros HK Hn Hs. destruct (widths_pos g H HK) as [Hpos _].
  destruct (lk_put _ _ HK) as (w & nw & _ & _ & ->). cbn [pmax]. unfold small in Hs. nia.
Qed.

(** *** Reading *)

Lemma load_put_alone {U} (f : descriptor_t -> U) i (Q : U -> lstate -> tls windows -> Prop) g l :
  p_inv B g -> 0 <= i < mw ->
  (forall e, lookup_put i g = Some e -> at_pos (subs g) i (tail_pos (subs g) i) (dnode e) ->
     put_row (subs g) i = dcount e -> Q (f e) g l) ->
  wp P 0 (load_put f i) Q g l.
Proof.
  intros HI Hi HQ. apply ((sub_rule wp_qload_put) f i); [done|]. intros g1 e R1 _ He Hk _.
  rewrite (alone_rely _ _ R1) in *. apply HQ; [done|done|]. by apply (put_row_eq mw); [apply lpw_subs| |].
Qed.

Lemma load_get_alone {U} (f : descriptor_t -> U) i (Q : U -> lstate -> tls windows -> Prop) g l :
  p_inv B g -> 0 <= i < mw ->
  (forall e, lookup_get i g = Some e -> at_pos (subs g) i (head_pos (subs g) i) (dnode e) ->
     get_row (subs g) i = dcount e -> Q (f e) g l) ->
  wp P 0 (load_get f i) Q g l.
Proof.
  intros HI Hi HQ. apply ((sub_rule wp_qload_get) f i); [done|]. intros g1 e R1 _ He Hk _.
  rewrite (alone_rely _ _ R1) in *. apply HQ; [done|done|]. by apply get_row_eq.
Qed.

Lemma read_put_alone i (Q : descriptor_t -> lstate -> tls windows -> Prop) g l :
  p_inv B g -> 0 <= i < mw ->
  (forall e, lookup_put i g = Some e -> at_pos (subs g) i (tail_pos (subs g) i) (dnode e) ->
     put_row (subs g) i = dcount e -> Q e g l) ->
  wp P 0 (read_put i) Q g l.
Proof.
  intros HI Hi HQ. unfold read_put. wp_local. apply load_put_alone; [done|done|]. intros e He Hk Er. wp_local.
  apply load_put_alone; [done|done|]. intros e' He' _ _. wp_locals.
  assert (e' = e) as -> by congruence. destruct e. by apply HQ.
Qed.

Lemma read_get_alone i (Q : descriptor_t -> lstate -> tls windows -> Prop) g l :
  p_inv B g -> 0 <= i < mw ->
  (forall e, lookup_get i g = Some e -> at_pos (subs g) i (head_pos (subs g) i) (dnode e) ->
     get_row (subs g) i = dcount e -> Q e g l) ->
  wp P 0 (read_get i) Q g l.
Proof.
  intros HI Hi HQ. unfold read_get. wp_local. apply load_get_alone; [done|done|]. intros e He Hk Er. wp_local.
  apply load_get_alone; [done|done|]. intros e' He' _ _. wp_locals.
  assert (e' = e) as -> by congruence. destruct e. by apply HQ.
Qed.

Lemma sync_P_alone (Q : unit -> lstate -> tls windows -> Prop) g l :
  Q tt g (upd (set_PWindow (PWindow g)) l) -> wp P 0 (sync_P (pmax (PWindow g))) Q g l.
Proof.
  intros HQ. unfold sync_P. wp_local. apply alone_load_var. wp_locals. by destruct (PWindow g).
Qed.
Lemma sync_G_alone (Q : unit -> lstate -> tls windows -> Prop) g l :
  Q tt g (upd (set_GWindow (GWindow g)) l) -> wp P 0 (sync_G (gmax (GWindow g))) Q g l.
Proof.
  intros HQ. unfold sync_G. wp_local. apply alone_load_var. wp_locals. by destruct (GWindow g).
Qed.

Lemma random_alone w (Q : Z -> lstate -> tls windows -> Prop) g l :
  1 <= w <= mw -> (forall r s, 0 <= r < w -> Q r g (with_rng s (stats l) l)) ->
  wp P 0 (random_index w) Q g l.
Proof. destruct Hset as [? _]. intros Hw HQ. apply wp_shared_random; [lia|]. intros r s Hr. by apply HQ. Qed.

Lemma hop_alone index random hops w (Q : Z * Z * Z -> lstate -> tls windows -> Prop) g l :
  1 <= w <= mw -> 0 <= index < w -> 0 <= random <= random_hops set ->
  (forall r s st, 0 <= r < w -> random < random_hops set -> Q (r, random + 1, hops) g (with_rng s st l)) ->
  (forall s st, random = random_hops set -> Q (next_index w index, random, u16 (hops + 1)) g (with_rng s st l)) ->
  wp P 0 (hop set index random hops w) Q g l.
Proof.
  destruct Hset as [Hmw Hrh]. intros Hw Hi Hr HQ HQ'. unfold hop. wp_locals.
  destruct (Z.ltb_spec random (random_hops set)) as [Hlt|Hge].
  - wp_local. apply random_alone; [done|]. intros r s Hrw. wp_locals.
    rewrite (wrap_small 16 (random + 1)) by lia. by apply HQ.
  - wp_locals. rewrite (wrap_small 16 (index + 1)) by lia. apply HQ'. lia.
Qed.

(** *** [put_window] *)

Lemma one_more_refl g : one_more g g.
Proof. split; [done|split; [done|by left]]. Qed.

(** A shift of the put window, after the lateral queue has been told. *)
Definition shifted_rest (r : globals) (nw next : Z) : globals :=
  mkGlobals (mkPwin (pmax (global_PWindow r) + d) d nw next) (global_GWindow r) (depth r) (get_depth r) (width r)
    (widths r ++ [nw]).

Lemma lpw_shifted g H w nw m :
  lpw_ok g H -> last (Widths g) = Some w -> pnext_width (PWindow g) = nw -> pwidth (PWindow g) = w ->
  (forall i, 0 <= i < w -> pmax (PWindow g) <= put_row (subs g) i) ->
  p_inv B (set_lat m g) ->
  infos m = infos (latof g) ++ (if decide (w = nw) then [] else [mkLat (pmax (PWindow g) + 1) nw]) ->
  lhead_pos m = lhead_pos (latof g) -> length (chain m) = S (ltail_pos m) ->
  let g' := set_rest (shifted_rest (rest (window g)) nw (width (rest (window g)))) (set_lat m g) in
  lpw_ok g' H /\ one_more g g' /\ forall i, 0 <= i < mw -> put_row (subs g') i < pmax (PWindow g').
Proof.
  intros HK Hlast Enw Epw Hfull Hm Ei Eh Ec g'. destruct (widths_pos g H HK) as [Hpos Hne].
  pose proof (wins_last g H w HK Hlast) as Hwl. pose proof (fun i => put_top g H i HK) as Htop.
  pose proof HK as [HI HC (w' & nw' & Hw' & Hnw' & EP) HG [Edep Hwid] HL HCh HHd].
  assert (w' = w) as -> by congruence. rewrite EP in Enw, Hfull, Ei. cbn [pnext_width pmax] in *. subst nw'.
  pose proof (last_width g H w HK Hlast) as Hw.
  assert (EW : Wins g' = Wins g ++ [mkWin (Z.of_nat (S (N g)) * d) nw d]) by (by apply wins_snoc).
  assert (EN : N g' = S (N g)) by (cbn; rewrite length_app; cbn; lia).
  split; [|split].
  - split.
    + by apply alone_rest.
    + rewrite EW, EN. destruct HC as [C1 C2 C3 C4 C5]. change (subs g') with (subs g). split; [done| | |done|].
      * apply law_tail; [|rewrite length_app, C3; cbn; lia].
        apply (law_link mw _ _ _ _ (mkWin (Z.of_nat (N g) * d) w d)); [done|done|done| |done|done|].
        -- intros i Hi. apply Hfull. exact Hi.
        -- unfold bottom. cbn. lia.
      * rewrite length_app, C3. cbn. lia.
      * apply (drained_prefix mw (Wins g)); [done|by apply prefix_app_r|].
        pose proof (lw_head _ _ _ _ _ C2). lia.
    + exists nw, (width (rest (window g))). split; [cbn; by rewrite last_snoc|]. split; [done|]. rewrite EN.
      cbn. unfold shifted_rest. cbn. rewrite EP. cbn [pmax]. f_equal. lia.
    + destruct HG as (v & Hv & EG). exists v. split; [|done]. cbn. by apply lookup_app_l_Some.
    + done.
    + cbn [set_rest set_lat set_window window lat rest g' shifted_rest widths]. rewrite Ei. destruct (decide (w = nw)) as [<-|].
      * rewrite app_nil_r. by apply lat_ok_same.
      * by eapply lat_ok_new.
    + exact Ec.
    + cbn. intros y Hy. rewrite Ei, Eh in Hy. apply HHd. pose proof (lpw_lat g HI) as [].
      apply lookup_lt_Some in li_head. rewrite lookup_app_l in Hy by lia. exact Hy.
  - split; [done|split; [done|right]]. cbn. rewrite EP. done.
  - intros i Hi. specialize (Htop i Hi). cbn. rewrite EP. cbn [pmax]. lia.
Qed.

(** What the thread has and knows after [put_window], but for the descriptor. *)
Definition put_ready g0 (H : nat) g l : Prop :=
  lpw_ok g H /\ one_more g0 g /\ thread_ok g l /\ thread_PWindow (thread_Window l) = PWindow g /\
  thread_put_index (thread_Window l) < pwidth (PWindow g).

Lemma cae_P_alone new (Q : bool -> lstate -> tls windows -> Prop) g l :
  p_inv B g -> thread_PWindow (thread_Window l) = PWindow g ->
  (let r := rest (window g) in
   Q true (set_rest (mkGlobals new (global_GWindow r) (depth r) (get_depth r) (width r) (widths r ++ [pwidth new])) g) l) ->
  wp P 0 (cae_PWindow new) Q g l.
Proof.
  intros HI E HQ g1 R1 _ _. rewrite (alone_rely _ _ R1). rewrite decide_True by done.
  destruct (alone_rest (mkGlobals new (GWindow g) (depth (rest (window g))) (get_depth (rest (window g)))
    (width (rest (window g))) (Widths g ++ [pwidth new])) g HI) as [HI' Hg].
  split; [exact Hg|split; [exact HI'|exact HQ]].
Qed.

Lemma clip_put_alone g0 H (Q : unit -> lstate -> tls windows -> Prop) g l :
  lpw_ok g H -> one_more g0 g -> thread_ok g l -> thread_PWindow (thread_Window l) = PWindow g ->
  (forall l', put_ready g0 H g l' -> Q tt g l') -> wp P 0 clip_put_index Q g l.
Proof.
  intros HK Hm Hok EP HQ. unfold clip_put_index. wp_local. apply HQ. unfold upd, put_ready, thread_ok, put_known, get_known in *.
  destruct (lk_put _ _ HK) as (w & nw & Hw & _ & E). pose proof (last_width g H w HK Hw).
  assert (Hpos : 0 < pwidth (PWindow g)) by (rewrite E; cbn; lia). destruct Hok as (Ht & Hi & Hj & Hpk & Hgk).
  destruct (Z.leb_spec (pwidth (thread_PWindow (thread_Window l))) (thread_put_index (thread_Window l))); cbn; rewrite EP in *;
    by split_and!.
Qed.

Lemma shift_put_alone H (Q : unit -> lstate -> tls windows -> Prop) g l :
  lpw_ok g H -> small 2 g -> thread_ok g l -> thread_PWindow (thread_Window l) = PWindow g ->
  (forall i, 0 <= i < pwidth (PWindow g) -> pmax (PWindow g) <= put_row (subs g) i) ->
  (forall g' l', put_ready g H g' l' -> (forall i, 0 <= i < mw -> put_row (subs g') i < pmax (PWindow g')) ->
     Q tt g' l') ->
  wp P 0 shift_put_window Q g l.
Proof.
  intros HK Hsm Hok EP Hfull HQ. unfold shift_put_window. wp_local. wp_local. apply alone_my. rewrite EP. wp_local.
  apply alone_load_var. rewrite Z.eqb_refl. wp_local. apply alone_my. rewrite EP. wp_local. apply alone_my. rewrite EP.
  wp_local. pose proof HK as [HI HC (w & nw & Hw & Hnw & EPg) HG [Edep Hwid] HL HCh HHd].
  pose proof (pmax_range 2 g H HK ltac:(lia) Hsm) as Hpm. pose proof (last_width g H w HK Hw).
  assert (Epw : pwidth (PWindow g) = w) by (by rewrite EPg).
  assert (Enw : pnext_width (PWindow g) = nw) by (by rewrite EPg).
  apply maybe_enq_alone; [apply Hok|done|done| |lia|].
  { intros x Hx. pose proof (lat_ok_bound d Hd _ _ _ x HL Hx) as Hb. rewrite EPg. cbn [pmax].
    destruct (widths_pos g H HK) as [Hpos _]. nia. }
  intros m Hm Ei Eh Ec. wp_local. apply alone_load_var. wp_local. apply alone_load_var. wp_local.
  destruct (lpw_shifted g H w nw m HK Hw Enw Epw) as (HK' & Hmore & Hroom).
  { intros i Hi. apply Hfull. by rewrite Epw. }
  { exact Hm. } { by rewrite Ei, Epw, Enw. } { exact Eh. } { exact Ec. }
  set (g' := set_rest _ _) in *.
  apply cae_P_alone; [exact Hm|exact EP|]. cbv zeta. wp_locals.
  set (new := mkPwin (u64 _) _ _ _).
  assert (Enew : new = PWindow g').
  { unfold new. cbn. rewrite Edep, wrap_small by lia. by rewrite Enw. }
  match goal with |- wp _ _ _ _ ?x _ => assert (x = g') as -> end.
  { rewrite Enew. unfold g', shifted_rest, set_rest, set_lat. cbn. by rewrite EPg in *. }
  rewrite Enew. apply (clip_put_alone g H); [exact HK'|exact Hmore| |done|].
  - destruct Hok as (Ht & Hi & Hj & _ & Hgk). split; [done|split; [done|split; [done|split; [by left|exact Hgk]]]].
  - intros l' Hr. by apply HQ.
Qed.

(** The loop: until the window is shifted, the hops left; afterwards every
    sub-queue has room. *)
Definition put_loop g0 H (n : nat) '((hops, random) : Z * Z) g l : Prop :=
  put_ready g0 H g l /\ 0 <= hops <= pwidth (PWindow g) /\ 0 <= random <= random_hops set /\
  ((forall i, 0 <= i < mw -> put_row (subs g) i < pmax (PWindow g)) \/
   (g = g0 /\ n = S (Z.to_nat (random_hops set - random + (pwidth (PWindow g) - hops))) /\
    (hops = 0 \/ random = random_hops set) /\
    seen (pwidth (PWindow g)) (thread_put_index (thread_Window l)) hops
      (fun j => pmax (PWindow g) <= put_row (subs g) j))).

Definition put_post g0 H (e : descriptor_t) g l : Prop :=
  let i := thread_put_index (thread_Window l) in
  put_ready g0 H g l /\ lookup_put i g = Some e /\ at_pos (subs g) i (tail_pos (subs g) i) (dnode e) /\
  put_row (subs g) i = dcount e /\ dcount e < pmax (PWindow g).

Lemma pwidth_range g H : lpw_ok g H -> 1 <= pwidth (PWindow g) <= mw.
Proof. intros HK. destruct (lk_put _ _ HK) as (w & nw & Hw & _ & ->). by apply (last_width g H). Qed.

Lemma put_ready_index g0 H g l i s st :
  put_ready g0 H g l -> 0 <= i < pwidth (PWindow g) -> put_ready g0 H g (upd (set_put_index i) (with_rng s st l)).
Proof. intros (HK & Hm & (Ht & Hi & Hj & Hp & Hg) & EP & _) Hi'. unfold put_ready, thread_ok. split_and!; try done; cbn; lia. Qed.

Lemma put_hop_alone g0 H n hops random (Q : Z * Z + descriptor_t -> lstate -> tls windows -> Prop) g l :
  put_loop g0 H n (hops, random) g l -> hops < pwidth (PWindow g) ->
  let i := thread_put_index (thread_Window l) in
  pmax (PWindow g) <= put_row (subs g) i ->
  (forall c m g' l', put_loop g0 H m c g' l' -> (m < n)%nat -> Q (inl c) g' l') ->
  wp P 0 (let* (index, random, hops) := hop set i random hops (pwidth (PWindow g)) in
          put (upd (set_put_index index)) ;;; continue (hops, random)) Q g l.
Proof.
  intros (Hr & Hh & Hrand & Hor) Hlt i Hfull HQ. pose proof Hr as (HK & _ & (_ & Hi0 & _) & _ & Hi).
  pose proof (pwidth_range g H HK) as Hw. destruct Hset as [Hmw _].
  destruct Hor as [Hroom|(-> & -> & Hhr & Hseen)]; [specialize (Hroom i ltac:(lia)); lia|].
  wp_local. apply hop_alone; [lia|lia|done|..].
  - intros r s st Hrw Hlt'. wp_locals. destruct Hhr as [-> |?]; [|lia].
    apply (HQ _ (S (Z.to_nat (random_hops set - (random + 1) + (pwidth (PWindow g0) - 0))))); [|lia].
    split; [by apply put_ready_index|split; [lia|split; [lia|right]]].
    do 2 (split; [done|]). split; [by left|]. apply seen_none. lia.
  - intros s st ->. wp_locals. rewrite wrap_small by lia.
    apply (HQ _ (S (Z.to_nat (random_hops set - random_hops set + (pwidth (PWindow g0) - (hops + 1)))))); [|lia].
    split; [apply put_ready_index; [done|apply next_index_range; lia]|split; [lia|split; [lia|right]]].
    do 2 (split; [done|]). split; [by right|]. cbn. by apply seen_next.
Qed.

Lemma put_window_body_alone g0 H n c (Q : Z * Z + descriptor_t -> lstate -> tls windows -> Prop) g l :
  small 2 g0 -> put_loop g0 H n c g l ->
  (forall e g' l', put_post g0 H e g' l' -> Q (inr e) g' l') ->
  (forall c m g' l', put_loop g0 H m c g' l' -> (m < n)%nat -> Q (inl c) g' l') ->
  wp P 0 (put_window_body set c) Q g l.
Proof.
  intros Hsm HJ HQ HQ'. destruct c as [hops random]. pose proof HJ as (Hr & Hh & Hrand & Hor).
  pose proof Hr as (HK & Hm & Hok & EP & Hi). destruct Hok as (Ht & Hi0 & Hj0 & Hpk & Hgk).
  pose proof (pwidth_range g H HK) as Hw. unfold put_window_body. wp_local. apply alone_my. wp_local.
  set (i := thread_put_index (thread_Window l)) in *.
  apply read_put_alone; [apply HK|lia|]. intros e He Hk Er. wp_local. apply alone_load_var. wp_local.
  apply alone_my. rewrite EP, Z.eqb_refl. cbn [negb]. destruct (Z.ltb_spec (dcount e) (pmax (PWindow g))).
  - wp_local. apply alone_my. rewrite EP. wp_local. apply wp_assert; [by apply Z.ltb_lt|]. wp_local. apply alone_my.
    assert (Hdone : forall l', l' = l \/ (l' = upd (set_get_index i) l /\ gwidth (thread_GWindow (thread_Window l)) = pwidth (PWindow g)) ->
      put_post g0 H e g l').
    { intros l' [->|[-> Eg]]; [done|]. split; [|done]. do 2 (split; [done|]). split; [|done].
      split; [done|split; [done|split; [exact Hi0|split; [done|]]]]. destruct Hgk as [[EG _]|[_ EG]]; [left|lia].
      split; [exact EG|]. cbn. rewrite <- EG, Eg. done. }
    wp_local. destruct (Z.eqb_spec (gwidth (thread_GWindow (thread_Window l))) (pwidth (PWindow g))); wp_locals; apply HQ, Hdone; auto.
  - wp_local. apply alone_my. rewrite EP. destruct (Z.ltb_spec hops (pwidth (PWindow g))) as [Hlt|Hge].
    + apply (put_hop_alone g0 H n); [done|done|fold i; lia|done].
    + destruct Hor as [Hroom|(-> & -> & Hhr & Hseen)]; [specialize (Hroom i ltac:(lia)); lia|].
      wp_local. apply (shift_put_alone H); [done|done|by unfold thread_ok; split_and!|done|by eapply seen_all|].
      intros g' l' Hr' Hroom. wp_locals. apply (HQ' _ 0%nat); [|lia]. pose proof Hr' as (HK' & _).
      pose proof (pwidth_range g' H HK'). split; [done|split; [lia|split; [done|by left]]].
Qed.

Lemma lpw_put_window_alone H (Q : descriptor_t -> lstate -> tls windows -> Prop) g l :
  lpw_ok g H -> small 2 g -> thread_ok g l ->
  (forall e g' l', put_post g H e g' l' -> Q e g' l') ->
  wp P 0 (put_window set false) Q g l.
Proof.
  intros HK Hsm (Ht & Hi & Hj & Hpk & Hgk) HQ. unfold put_window. wp_local. wp_local. apply alone_load_var. wp_local.
  apply alone_my. pose proof (pmax_range 2 g H HK ltac:(lia) Hsm) as Hpm. pose proof (pwidth_range g H HK) as Hw.
  destruct Hset as [_ Hrh].
  assert (Hstart : forall l', thread_ok g l' -> thread_PWindow (thread_Window l') = PWindow g ->
    wp P 0 ((let* i := my thread_put_index in let* w := myP pwidth in
       if false || (w <=? i) then let* r := random_index w in put (upd (set_put_index r)) else Ret tt) ;;;
      while (put_window_body set) (0, 0)) Q g l').
  { intros l' (Ht' & Hi' & Hj' & Hpk' & Hgk') EP. wp_local. wp_local. apply alone_my. wp_local. apply alone_my. rewrite EP.
    assert (Hloop : forall l', put_ready g H g l' -> wp P 0 (while (put_window_body set) (0, 0)) Q g l').
    { intros l2 Hr. apply (wp_while P 0%nat _ _ _ _ (put_loop g H)
        (S (Z.to_nat (random_hops set - 0 + (pwidth (PWindow g) - 0))))).
      - split; [done|split; [lia|split; [lia|right]]]. do 2 (split; [done|]). split; [by left|]. apply seen_none. lia.
      - intros n c g1 l1 HJ. apply (put_window_body_alone g H n); [done|done|..].
        + intros e g2 l3 Hp. wp_locals. by apply HQ.
        + intros c' m g2 l3 HJ' Hlt. by exists m. }
    cbn [orb]. destruct (Z.leb_spec (pwidth (PWindow g)) (thread_put_index (thread_Window l'))).
    - wp_local. apply random_alone; [done|]. intros r s Hr. wp_locals. apply Hloop.
      split; [done|split; [apply one_more_refl|]]. split; [|split; [done|cbn; lia]]. unfold thread_ok; split_and!; try done. cbn. lia.
    - wp_locals. apply Hloop. split; [done|split; [apply one_more_refl|]]. split; [by unfold thread_ok; split_and!|done]. }
  destruct (Z.eqb_spec (pmax (thread_PWindow (thread_Window l))) (pmax (PWindow g))) as [E|Hne]; cbn [negb].
  - wp_local. apply Hstart; [by unfold thread_ok; split_and!|]. destruct Hpk as [?|?]; [done|lia].
  - wp_local. apply sync_P_alone. wp_local. apply alone_my.
    apply wp_assert; [|apply Hstart; [unfold thread_ok; split_and!; try done; by left|done]].
    destruct (lk_put _ _ HK) as (w & nw & _ & _ & E). cbn. rewrite E. cbn. apply negb_true_iff, Z.eqb_neq. lia.
Qed.

(** *** [get_window] *)

(** What [get_window] does not change. *)
Definition same_puts g0 g : Prop :=
  subs g = subs g0 /\ Widths g = Widths g0 /\ PWindow g = PWindow g0 /\ width (rest (window g)) = width (rest (window g0)).

Definition get_ready g0 H g l : Prop :=
  lpw_ok g H /\ same_puts g0 g /\ thread_ok g l /\ thread_PWindow (thread_Window l) = PWindow g /\
  thread_GWindow (thread_Window l) = GWindow g /\ thread_get_index (thread_Window l) < gwidth (GWindow g).

Definition passed_rest (r : globals) (H : nat) (w : Z) : globals :=
  mkGlobals (global_PWindow r) (mkGwin (Z.of_nat (S (S H)) * d) d w) (depth r) (get_depth r) (width r) (widths r).

Lemma get_win g H : lpw_ok g H -> exists w, Wins g !! S H = Some (mkWin (Z.of_nat (S H) * d) w d) /\
  Widths g !! H = Some w /\ GWindow g = mkGwin (Z.of_nat (S H) * d) d w /\ 1 <= w <= mw.
Proof.
  intros HK. destruct (lk_get _ _ HK) as (w & Hw & E). exists w. rewrite wins_lookup, Hw.
  split; [done|split; [done|split; [done|]]]. by apply (wins_bound g H H).
Qed.

Lemma lpw_passed g H w :
  lpw_ok g H -> Widths g !! S H = Some w ->
  (forall j, 0 <= j < gwidth (GWindow g) -> gmax (GWindow g) <= get_row (subs g) j) ->
  lpw_ok (set_rest (passed_rest (rest (window g)) H w) g) (S H).
Proof.
  intros HK Hw Hall. destruct (get_win g H HK) as (v & Hx & _ & EG & _). rewrite EG in Hall. cbn [gwidth gmax] in Hall.
  pose proof HK as [HI [C1 C2 C3 C4 C5] HP _ Hdim HL HCh HHd]. split; try done.
  - split; [done| |done|done|].
    + apply (law_head mw _ _ H); [done|]. apply lookup_lt_Some in Hw. exact Hw.
    + by apply (drained_shift mw _ _ _ _ C2 _ C5 Hx).
  - exists w. by split.
  - cbn. intros y Hy. specialize (HHd y Hy). lia.
Qed.

Lemma lpw_lat_moved g H m :
  lpw_ok g H -> p_inv B (set_lat m g) -> chain m = chain (latof g) -> infos m = infos (latof g) ->
  ltail_pos m = ltail_pos (latof g) ->
  (forall y, infos m !! lhead_pos m = Some y -> lat_count y <= Z.of_nat (S H) * d) -> lpw_ok (set_lat m g) H.
Proof.
  intros [HI HC HP HG Hdim HL HCh HHd] Hm Ec Ei Et Hhd. split; try done.
  - cbn. by rewrite Ei.
  - cbn. by rewrite Ec, Et.
Qed.

Lemma cae_G_alone new (Q : bool -> lstate -> tls windows -> Prop) g l :
  p_inv B g -> thread_GWindow (thread_Window l) = GWindow g ->
  (let r := rest (window g) in
   Q true (set_rest (mkGlobals (global_PWindow r) new (depth r) (get_depth r) (width r) (widths r)) g) l) ->
  wp P 0 (cae_GWindow new) Q g l.
Proof.
  intros HI E HQ g1 R1 _ _. rewrite (alone_rely _ _ R1). rewrite decide_True by done.
  destruct (alone_rest (mkGlobals (PWindow g) new (depth (rest (window g))) (get_depth (rest (window g)))
    (width (rest (window g))) (Widths g)) g HI) as [HI' Hg].
  split; [exact Hg|split; [exact HI'|exact HQ]].
Qed.

Lemma clip_get_alone g0 H (Q : unit -> lstate -> tls windows -> Prop) g l :
  lpw_ok g H -> same_puts g0 g -> thread_id l = 0%nat -> 0 <= thread_put_index (thread_Window l) ->
  0 <= thread_get_index (thread_Window l) -> thread_PWindow (thread_Window l) = PWindow g ->
  thread_GWindow (thread_Window l) = GWindow g ->
  (forall l', get_ready g0 H g l' -> Q tt g l') -> wp P 0 clip_get_index Q g l.
Proof.
  intros HK Hm Ht Hi Hj EP EG HQ. unfold clip_get_index. wp_local. apply HQ.
  unfold upd, get_ready, thread_ok, put_known, get_known in *.
  destruct (get_win g H HK) as (w & _ & _ & E & Hw).
  assert (Hpos : 0 < gwidth (GWindow g)) by (rewrite E; cbn; lia).
  destruct (Z.leb_spec (gwidth (thread_GWindow (thread_Window l))) (thread_get_index (thread_Window l))); cbn; rewrite EG in *;
    split_and!; try done; try (by left); try (left; by split).
Qed.

Lemma get_shift_max_alone H (Q : Z -> lstate -> tls windows -> Prop) g l :
  lpw_ok g H -> (S H < N g)%nat -> small 2 g -> thread_PWindow (thread_Window l) = PWindow g ->
  thread_GWindow (thread_Window l) = GWindow g -> Q (Z.of_nat (S (S H)) * d) g l -> wp P 0 get_shift_max Q g l.
Proof.
  intros HK Hlt Hsm EP EG HQ. unfold get_shift_max. wp_local. apply alone_my. rewrite EG. wp_local. apply alone_load_var.
  wp_local. apply alone_my. rewrite EP. pose proof (pmax_range 2 g H HK ltac:(lia) Hsm) as Hpm.
  destruct (get_win g H HK) as (w & _ & _ & -> & _). destruct (lk_dims _ _ HK) as [-> _]. cbn [gmax].
  destruct (lk_put _ _ HK) as (v & nw & _ & _ & E). rewrite E in *. cbn [pmax] in *.
  rewrite wrap_small by nia. replace (Z.of_nat (S H) * d + d) with (Z.of_nat (S (S H)) * d) by lia.
  assert (Hle : Z.of_nat (S (S H)) * d <= Z.of_nat (N g) * d) by nia.
  rewrite (proj2 (Z.ltb_ge _ _) Hle). wp_local. wp_local. apply alone_load_var. rewrite E. cbn [pmax].
  rewrite (proj2 (Z.ltb_ge _ _) Hle). by wp_locals.
Qed.

Lemma shift_get_alone g0 H (Q : unit -> lstate -> tls windows -> Prop) g l :
  get_ready g0 H g l -> (S H < N g)%nat -> small 2 g ->
  (forall j, 0 <= j < gwidth (GWindow g) -> gmax (GWindow g) <= get_row (subs g) j) ->
  (forall g' l', get_ready g0 (S H) g' l' -> Q tt g' l') -> wp P 0 shift_get_window Q g l.
Proof.
  intros (HK & Hsame & (Ht & Hi & Hj & _) & EP & EG & Hidx) Hlt Hsm Hall HQ. unfold shift_get_window. wp_local.
  apply (get_shift_max_alone H); [done..|]. wp_local. apply alone_my. rewrite EG. wp_local.
  destruct (get_win g H HK) as (v & _ & _ & EGw & _). pose proof (pmax_range 2 g H HK ltac:(lia) Hsm) as Hpm.
  destruct (lookup_lt_is_Some_2 (Widths g) (S H) Hlt) as [w Hw]. pose proof (wins_bound g H _ w HK Hw).
  destruct (lk_put _ _ HK) as (pw & nw & _ & _ & EPw). rewrite EPw in Hpm. cbn [pmax] in Hpm.
  assert (Hmax : Z.of_nat (S (S H)) * d <= Z.of_nat (N g) * d) by nia.
  replace (gmax (GWindow g)) with (Z.of_nat (S H) * d) in * by (by rewrite EGw).
  apply (get_next_window_alone (Widths g) H w); [apply HK|apply HK|done|lia|apply HK|lia|]. cbv beta iota. wp_local. wp_local.
  apply alone_load_var. rewrite EGw. cbn [gmax]. rewrite Z.eqb_refl. wp_local. apply wp_assert; [apply Z.leb_le; lia|].
  wp_local. rewrite wrap_small by lia. replace (Z.of_nat (S (S H)) * d - Z.of_nat (S H) * d) with d by lia.
  apply cae_G_alone; [apply HK|done|]. cbv zeta.
  assert (HK' : lpw_ok (set_rest (passed_rest (rest (window g)) H w) g) (S H)).
  { apply lpw_passed; [done|done|]. intros j Hjw. rewrite EGw. cbn [gmax]. by apply Hall. }
  wp_locals. apply deq_lateral_alone; [apply HK'|apply HK'|]. intros m Hm Ec Ei Et Hhd. wp_locals.
  apply (clip_get_alone g0 (S H)); try done; [by apply lpw_lat_moved|].
  intros l' Hr. by apply HQ.
Qed.

(** The loop: [notempty] is only set while the put window is further. *)
Definition get_stuck g H (j : Z) : Prop := (S H < N g)%nat -> gmax (GWindow g) <= get_row (subs g) j.
Definition get_left g H (hops random : Z) : nat :=
  Z.to_nat (Z.of_nat (N g - S H) * 2 ^ 18 + (random_hops set - random + (gwidth (GWindow g) - hops))).
Definition get_loop g0 (n : nat) '((hops, random, notempty) : Z * Z * bool) g l : Prop :=
  exists H, get_ready g0 H g l /\ 0 <= hops <= gwidth (GWindow g) /\ 0 <= random <= random_hops set /\
  (hops = 0 \/ random = random_hops set) /\ n = get_left g H hops random /\
  ((notempty : bool) = true -> (S H < N g)%nat) /\
  seen (gwidth (GWindow g)) (thread_get_index (thread_Window l)) hops (get_stuck g H).

Definition get_post g0 H (e : descriptor_t) g l : Prop :=
  let i := thread_get_index (thread_Window l) in
  get_ready g0 H g l /\ lookup_get i g = Some e /\ at_pos (subs g) i (head_pos (subs g) i) (dnode e) /\
  get_row (subs g) i = dcount e /\
  (dcount e < gmax (GWindow g) \/ S H = N g /\ tail_pos (subs g) i = head_pos (subs g) i).

Lemma gwidth_range g H : lpw_ok g H -> 1 <= gwidth (GWindow g) <= mw.
Proof. intros HK. by destruct (get_win g H HK) as (w & _ & _ & -> & ?). Qed.

Lemma get_ready_index g0 H g l i s st :
  get_ready g0 H g l -> 0 <= i < gwidth (GWindow g) -> get_ready g0 H g (upd (set_get_index i) (with_rng s st l)).
Proof.
  intros (HK & Hm & (Ht & Hi & Hj & Hp & Hg) & EP & EG & _) Hi'. unfold get_ready, thread_ok.
  split_and!; try done; try (cbn; lia). left. split; [exact EG|cbn; lia].
Qed.

Lemma get_hop_alone g0 H hops random notempty (Q : Z * Z * bool + descriptor_t -> lstate -> tls windows -> Prop) g l :
  get_ready g0 H g l -> 0 <= hops < gwidth (GWindow g) -> 0 <= random <= random_hops set ->
  (hops = 0 \/ random = random_hops set) -> ((notempty : bool) = true -> (S H < N g)%nat) ->
  let i := thread_get_index (thread_Window l) in
  seen (gwidth (GWindow g)) i hops (get_stuck g H) -> get_stuck g H i ->
  (forall c m g' l', get_loop g0 m c g' l' -> (m < get_left g H hops random)%nat -> Q (inl c) g' l') ->
  wp P 0 (let* (index, random, hops) := hop set i random hops (gwidth (GWindow g)) in
          put (upd (set_get_index index)) ;;; continue (hops, random, notempty)) Q g l.
Proof.
  intros Hr Hh Hrand Hhr Hne i Hseen Hstuck HQ. pose proof Hr as (HK & _ & (_ & _ & Hi0 & _) & _ & _ & Hi).
  pose proof (gwidth_range g H HK) as Hw. destruct Hset as [Hmw _].
  wp_local. apply hop_alone; [lia|fold i; lia|done|..].
  - intros r s st Hrw Hlt'. wp_locals. destruct Hhr as [-> |?]; [|lia].
    apply (HQ _ (get_left g H 0 (random + 1))); [|unfold get_left; lia]. exists H.
    split; [by apply get_ready_index|]. do 2 (split; [lia|]). split; [by left|]. split; [done|split; [done|]].
    apply seen_none. lia.
  - intros s st ->. wp_locals. rewrite wrap_small by lia.
    apply (HQ _ (get_left g H (hops + 1) (random_hops set))); [|unfold get_left; lia]. exists H.
    split; [apply get_ready_index; [done|apply next_index_range; lia]|]. do 2 (split; [lia|]). split; [by right|].
    split; [done|split; [done|]]. cbn. by apply seen_next.
Qed.

(** A sub-queue of the last window with nothing below its count. *)
Lemma last_window_empty g H i :
  lpw_ok g H -> S H = N g -> 0 <= i < mw -> Z.of_nat (N g) * d <= get_row (subs g) i \/ put_row (subs g) i <= get_row (subs g) i ->
  tail_pos (subs g) i = head_pos (subs g) i.
Proof.
  intros HK HT Hi Hor. pose proof HK as [HI [C1 C2 C3 C4 C5] HP _ Hdim HL HCh HHd].
  pose proof (put_top g H i HK Hi) as Htop. destruct (sub_positions mw (subs g) i C1 Hi) as [[Hle _] _].
  pose proof (rows_mono mw _ _ _ _ C2 i (head_pos (subs g) i) (tail_pos (subs g) i) Hi ltac:(lia)) as Hm.
  rewrite (proj1 C5 i Hi) in Hor. unfold put_row in *. lia.
Qed.

Lemma get_window_body_alone g0 n c lower (Q : Z * Z * bool + descriptor_t -> lstate -> tls windows -> Prop) g l :
  small 2 g -> lower = Z.of_nat (N g - 1) * d -> get_loop g0 n c g l ->
  (forall H e g' l', get_post g0 H e g' l' -> Q (inr e) g' l') ->
  (forall c m g' l', get_loop g0 m c g' l' -> (m < n)%nat -> Q (inl c) g' l') ->
  wp P 0 (get_window_body set lower c) Q g l.
Proof.
  intros Hsm -> HJ HQ HQ'. destruct c as [[hops random] notempty].
  destruct HJ as (H & Hr & Hh & Hrand & Hhr & -> & Hne & Hseen).
  pose proof Hr as (HK & Hm & (Ht & Hi0 & Hj0 & Hpk & Hgk) & EP & EG & Hi).
  pose proof (gwidth_range g H HK) as Hw. unfold get_window_body. wp_local. apply alone_my. wp_local.
  set (i := thread_get_index (thread_Window l)) in *. set (lower := Z.of_nat (N g - 1) * d).
  destruct (get_win g H HK) as (w & _ & _ & EGw & _). pose proof (lw_head _ _ _ _ _ (cl_law _ _ _ _ _ (lk_calm _ _ HK))).
  apply read_get_alone; [apply HK|lia|]. intros e He Hk Er. wp_local.
  (* The count of the puts, or a lower bound. *)
  assert (Hbody : forall pc, pc = (if dcount e <=? lower then lower else put_row (subs g) i) ->
    wp P 0 (let* word1 := load_G gmax in let* m := myG gmax in
      if negb (m =? word1) then sync_G word1 ;;; clip_get_index ;;; continue (0, random, false)
      else if (dcount e <? m) && (dcount e <? pc) then break e
      else let* w := myG gwidth in
        if negb (hops =? w) then
          let notempty := if dcount e <? pc then true else notempty in
          let* (index, random, hops) := hop set i random hops w in
          put (upd (set_get_index index)) ;;; continue (hops, random, notempty)
        else let* shift := (if (notempty : bool) then Ret true else let* gp := load_P pmax in Ret (negb (m =? gp))) in
          if (shift : bool) then shift_get_window ;;; continue (0, random, false) else break e) Q g l).
  2: { destruct (dcount e <=? lower); [wp_local; by apply Hbody|].
    apply load_put_alone; [apply HK|lia|]. intros e' _ _ <-. by apply Hbody. }
  intros pc Epc. wp_local. apply alone_load_var. wp_local. apply alone_my. rewrite EG, Z.eqb_refl. cbn [negb].
  assert (Hlower : (S H < N g)%nat -> gmax (GWindow g) <= lower).
  { intros Hlt. rewrite EGw. unfold lower. cbn [gmax]. apply Z.mul_le_mono_nonneg_r; lia. }
  pose proof (put_top g H i HK ltac:(lia)) as Htop.
  destruct ((dcount e <? gmax (GWindow g)) && (dcount e <? pc)) eqn:Eok.
  { apply andb_true_iff in Eok as [Hlt _]. apply Z.ltb_lt in Hlt. wp_local. apply (HQ H).
    split; [done|]. do 3 (split; [done|]). by left. }
  assert (Hstuck : get_stuck g H i).
  { intros HT. specialize (Hlower HT). rewrite Er. apply andb_false_iff in Eok. rewrite !Z.ltb_ge in Eok.
    rewrite Epc in Eok. destruct (Z.leb_spec (dcount e) lower); lia. }
  assert (Hne' : (if dcount e <? pc then true else notempty) = true -> (S H < N g)%nat).
  { destruct (Z.ltb_spec (dcount e) pc) as [Hlt|]; [intros _|done]. rewrite andb_true_r in Eok. apply Z.ltb_ge in Eok.
    destruct (decide (S H < N g)%nat) as [|HT]; [done|]. exfalso.
    assert (S H = N g) as ET by lia. rewrite EGw, ET in Eok. cbn [gmax] in Eok. rewrite Epc in Hlt. unfold lower in *.
    destruct (Z.leb_spec (dcount e) (Z.of_nat (N g - 1) * d)); nia. }
  wp_local. apply alone_my. rewrite EG. destruct (Z.eqb_spec hops (gwidth (GWindow g))) as [Ehops|Hhops]; cbn [negb].
  - (* All have been seen. *)
    destruct (lk_put _ _ HK) as (pw & nw & _ & _ & EPw).
    assert (Hshift : wp P 0 (let* shift := (if (notempty : bool) then Ret true else
        let* gp := load_P pmax in Ret (negb (gmax (GWindow g) =? gp))) in
        if (shift : bool) then shift_get_window ;;; continue (0, random, false) else break e) Q g l);
      [|exact Hshift].
    destruct (decide (S H < N g)%nat) as [HT|HT].
    + assert (Hgo : wp P 0 shift_get_window (fun _ g l => wp P 0 (continue (0, random, false)) Q g l) g l).
      { apply (shift_get_alone g0 H); [done|done|done| |].
        - intros j Hj. rewrite Ehops in Hseen. by apply (seen_all _ _ _ _ Hseen (Z.le_refl _) j Hj).
        - intros g' l' Hr'. wp_local. pose proof Hr' as (HK' & (_ & EW' & _) & _). pose proof Hm as (_ & EW & _).
          pose proof (gwidth_range g' (S H) HK'). destruct Hset as [Hmw Hrh].
          apply (HQ' _ (get_left g' (S H) 0 random)).
          + exists (S H). split; [done|]. do 2 (split; [lia|]). split; [by left|]. split; [done|split; [done|]].
            apply seen_none. lia.
          + unfold get_left. rewrite EW', EW in *. lia. }
      destruct notempty; [wp_locals; exact Hgo|]. wp_local. wp_local. apply alone_load_var. wp_local.
      rewrite EPw, EGw. cbn [pmax gmax]. rewrite (proj2 (Z.eqb_neq _ _)) by nia. cbn [negb]. wp_local. exact Hgo.
    + assert (ET : S H = N g) by lia. destruct notempty; [destruct HT; by apply Hne|]. wp_local. wp_local. apply alone_load_var.
      wp_local. rewrite EPw, EGw, ET. cbn [pmax gmax]. rewrite Z.eqb_refl. cbn [negb]. wp_local.
      apply (HQ H). split; [done|]. do 3 (split; [done|]). rewrite EGw, ET. cbn [gmax].
      destruct (Z.ltb_spec (dcount e) (Z.of_nat (N g) * d)); [by left|right]. split; [done|].
      fold i. apply (last_window_empty g H); [done|done|lia|left; lia].
  - apply (get_hop_alone g0 H); [done|lia|done|done|done|done|done|done].
Qed.

Lemma same_puts_refl g : same_puts g g.
Proof. by split_and!. Qed.

Lemma lpw_get_window_alone H0 (Q : descriptor_t -> lstate -> tls windows -> Prop) g l :
  lpw_ok g H0 -> small 2 g -> thread_ok g l -> thread_PWindow (thread_Window l) = PWindow g ->
  (forall H e g' l', get_post g H e g' l' -> Q e g' l') ->
  wp P 0 (get_window set false) Q g l.
Proof.
  intros HK Hsm (Ht & Hi & Hj & Hpk & Hgk) EP HQ. unfold get_window. wp_local. wp_local. wp_local.
  pose proof (pmax_range 2 g H0 HK ltac:(lia) Hsm) as Hpm. pose proof (gwidth_range g H0 HK) as Hw.
  destruct Hset as [_ Hrh].
  assert (Hstart : forall l', get_ready g H0 g l' ->
    wp P 0 (let* m := myP pmax in let* d := myP pdepth in
      let* descriptor := while (get_window_body set (u64 (m - d))) (0, 0, false) in
      put (upd (fun w => if gwidth (thread_GWindow w) =? pwidth (thread_PWindow w)
                         then set_put_index (thread_get_index w) w else w)) ;;;
      Ret descriptor) Q g l').
  { intros l' Hr. pose proof Hr as (_ & _ & _ & EP' & _). wp_local. apply alone_my. wp_local. apply alone_my. rewrite EP'.
    wp_local. destruct (lk_put _ _ HK) as (w & nw & _ & _ & E). rewrite E in *. cbn [pmax pdepth] in *.
    destruct (widths_pos g H0 HK) as [Hpos _].
    assert (El : u64 (Z.of_nat (N g) * d - d) = Z.of_nat (N g - 1) * d) by (rewrite wrap_small; nia). rewrite El.
    apply (wp_while P 0%nat _ _ _ _ (get_loop g) (get_left g H0 0 0)).
    - exists H0. split; [done|]. do 2 (split; [lia|]). split; [by left|]. split; [done|split; [done|]].
      apply seen_none. lia.
    - intros n c g1 l1 HJ. assert (Hsame : same_puts g g1 /\ small 2 g1 /\ N g1 = N g).
      { destruct c as [[? ?] ?], HJ as (H & (_ & Hs & _) & _). pose proof Hs as (E1 & E2 & _). split; [done|].
        unfold small. by rewrite E1, E2. }
      destruct Hsame as (Hsame & Hsm1 & EN). apply (get_window_body_alone g n); [done|by rewrite EN|done|..].
      + intros H e g2 l2 Hp. wp_locals. apply (HQ H). destruct Hp as (Hr2 & Hp). unfold upd.
        destruct (_ =? _); [|by split]. split; [|exact Hp]. destruct Hr2 as (? & ? & (? & ? & ? & ?) & ?).
        split; [done|split; [done|split; [|done]]]. split; [done|split; [done|split; done]].
      + intros c' m g2 l2 HJ' Hlt. by exists m. }
  assert (Hidx : forall l', thread_id l' = 0%nat -> 0 <= thread_put_index (thread_Window l') ->
    0 <= thread_get_index (thread_Window l') < gwidth (GWindow g) -> thread_PWindow (thread_Window l') = PWindow g ->
    thread_GWindow (thread_Window l') = GWindow g -> get_ready g H0 g l').
  { intros l' ? ? [? ?] ? ?. split; [done|split; [apply same_puts_refl|split; [|done]]].
    split; [done|split; [done|split; [done|split; [by left|by left]]]]. }
  wp_local. apply alone_load_var. wp_local. apply alone_my.
  destruct (get_win g H0 HK) as (w & _ & _ & EGw & _).
  destruct (Z.eqb_spec (gmax (thread_GWindow (thread_Window l))) (gmax (GWindow g))) as [E|Hne]; cbn [negb].
  - wp_local. apply Hstart. destruct Hgk as [[? ?]|[E0 _]]; [by apply Hidx|]. rewrite EGw in E. cbn in E. nia.
  - wp_local. apply sync_G_alone. by apply (clip_get_alone g H0).
Qed.
End alone.
