(* ===== verification/LpwSeq.v ===== *)
(** The elastic queue (LpW) used by one thread that changes the width but not the
    depth: a queue that is k-out-of-order with a [k] that follows the width, and
    what goes wrong where the depth changes. *)
From S2P Require Import Prelude Conc Random Thread Params StackHeap QueueHeap FifoOrder Shared SubQueues Lateral.
From S2P Require Import Rows RowOrder ElasticLpw LpwWindow.

(** ** The specification *)

(** [lpw_run w d done ws fill q next cur]: the calls and results [done] of a queue
    created with width [w] and depth [d] have led to put windows of the widths
    [ws], [fill] enqueues into the last of them, the elements [q] with the numbers
    of their windows (the oldest first), the width [next] of the next window and
    [cur], that of the one after it.  A window takes [d * width] elements: an
    enqueue opens a new one, of width [next], exactly when the last is full.  A
    dequeue takes an element of the oldest window that has any, overtaking at
    most [d * (width - 1)] older ones.  It may answer 0 when all that is left, not
    more than that, is in the last put window. *)
Inductive lpw_run (w d : Z) : list (lop * Z) -> list Z -> Z -> list (nat * Z) -> Z -> Z -> Prop :=
| lr_create : lpw_run w d [] [w] 0 [] w w
| lr_enqueue done ws wn fill q next cur key v :
    lpw_run w d done ws fill q next cur -> last ws = Some wn -> fill < wn * d ->
    lpw_run w d (done ++ [(QueueOp (Enqueue key v), 1)]) ws (fill + 1) (q ++ [(pred (length ws), v)]) next cur
| lr_enqueue_new done ws wn fill q next cur key v :
    lpw_run w d done ws fill q next cur -> last ws = Some wn -> fill = wn * d ->
    lpw_run w d (done ++ [(QueueOp (Enqueue key v), 1)]) (ws ++ [next]) 1 (q ++ [(length ws, v)]) cur cur
| lr_dequeue done ws fill pre n v post next cur wn :
    lpw_run w d done ws fill (pre ++ (n, v) :: post) next cur -> Forall (fun x => x.1 = n) pre ->
    ws !! n = Some wn -> Z.of_nat (length pre) <= d * (wn - 1) ->
    lpw_run w d (done ++ [(QueueOp Dequeue, v)]) ws fill (pre ++ post) next cur
| lr_empty done ws fill q next cur wn :
    lpw_run w d done ws fill q next cur -> Forall (fun x => x.1 = pred (length ws)) q ->
    last ws = Some wn -> Z.of_nat (length q) <= d * (wn - 1) ->
    lpw_run w d (done ++ [(QueueOp Dequeue, 0)]) ws fill q next cur
| lr_depth done ws fill q next cur :
    lpw_run w d done ws fill q next cur -> lpw_run w d (done ++ [(UpdateDepth d, d)]) ws fill q next cur
| lr_width done ws fill q next cur v :
    lpw_run w d done ws fill q next cur -> lpw_run w d (done ++ [(UpdateWidth v, cur)]) ws fill q next v.

Section sequential.
Context {A : Allocator (qnode_of unit)} {LA : Allocator (lnode lateral_node_t)}.
Context (set : mqueue_t) (Hset : set_ok set) (d : Z) (Hd : 1 <= d < 2 ^ 16).
Notation mw := (max_width set).
Notation B := (lpw_base set).
Notation P := (alone B).
Notation lpw_ok := (lpw_ok set d).
Notation small := (small).
Implicit Types (g : lstate) (l : tls windows).
Notation Widths g := (widths (rest (window g))).
Notation Wins g := (wins d (widths (rest (window g)))).
Notation N g := (length (widths (rest (window g)))).
Notation PWindow g := (global_PWindow (rest (window g))).
Notation GWindow g := (global_GWindow (rest (window g))).
Notation history g := (hist (subs g)).
Notation sub_rule f := (f (elastic_prot (no_window (W := globals)) (fun _ => True)) mw (2 ^ 62) P 0%nat) (only parsing).
Notation sub_step f := (f (elastic_prot (no_window (W := globals)) (fun _ => True)) _ mw (2 ^ 62) P 0%nat (fun _ => True)) (only parsing).

(** A change of the sub-queues that is one of [calm]. *)
Lemma lpw_subs_changed g H s :
  lpw_ok g H -> p_inv B (set_subs s g) -> calm mw (Wins g) (N g) H s -> lpw_ok (set_subs s g) H.
Proof. intros [] HI HC. by split. Qed.

Lemma thread_ok_same g g' l : rest (window g') = rest (window g) -> thread_ok g l -> thread_ok g' l.
Proof. unfold thread_ok, put_known, get_known. by intros ->. Qed.

(** Positions of the ends of a sub-queue. *)
Lemma ends_eq g H i a b :
  lpw_ok g H -> 0 <= i < mw -> at_pos (subs g) i (head_pos (subs g) i) a -> at_pos (subs g) i (tail_pos (subs g) i) b ->
  (a = b <-> tail_pos (subs g) i = head_pos (subs g) i).
Proof.
  intros HK Hi Ha Hb. unfold at_pos in *. split; [intros ->|intros E; rewrite E in Hb; congruence].
  eapply (at_pos_inj mw (subs g)); [apply HK|exact Hi|exact Hb|exact Ha].
Qed.

Lemma lpw_next_count_eq c b : 0 <= b < 2 ^ 63 -> 0 <= c < 2 ^ 63 -> next_count c b = Z.max c b + 1.
Proof. intros Hb Hc. unfold next_count. destruct (Z.leb_spec b c); rewrite wrap_small; lia. Qed.

Lemma load_next_end g H i a (Q : Z -> lstate -> tls windows -> Prop) l :
  lpw_ok g H -> 0 <= i < mw -> at_pos (subs g) i (tail_pos (subs g) i) a -> Q 0 g l -> wp P 0 (load_next a) Q g l.
Proof.
  intros HK Hi Ha HQ. apply ((sub_rule wp_qload_next) i (tail_pos (subs g) i)); [done|done|..].
  - intros g1 R1 _ _. by rewrite (alone_rely set _ _ R1).
  - intros b g1 R1 _ _ Hb. rewrite (alone_rely set _ _ R1) in *. apply lookup_lt_Some in Hb.
    pose proof (cl_settled _ _ _ _ _ (lk_calm _ _ _ _ HK) i Hi). lia.
Qed.

(** *** [enqueue] *)

(** What [enqueue] did: an enqueue to sub-queue [i], into the last window. *)
Definition enqueued (v : Z) g0 (H : nat) g l : Prop :=
  exists i x, lpw_ok g H /\ thread_ok g l /\ evolves (subs g0) (subs g) /\ 0 <= i < mw /\
  history g = (0%nat, Enq i (Z.of_nat (tail_pos (subs g) i)) v) :: history g0 /\
  Wins g !! N g = Some x /\ bottom x < put_row (subs g) i.
(** The put window may be a new one. *)
Definition grown g0 g : Prop :=
  width (rest (window g)) = width (rest (window g0)) /\
  (Widths g = Widths g0 /\ PWindow g = PWindow g0 \/
   Widths g = Widths g0 ++ [pnext_width (PWindow g0)] /\ pnext_width (PWindow g) = width (rest (window g0))).

(** The link, and the tail pointer that follows it. *)
Lemma enqueue_link_alone g0 H e a nb (Q : Z -> lstate -> tls windows -> Prop) g l :
  let i := thread_put_index (thread_Window l) in
  let new := mkDesc a (next_count (dcount e) (u64 (pmax (PWindow g) - d))) in
  put_post set d g0 H e g l -> small 1 g -> owned 0%nat a nb g -> qnext nb = 0 ->
  (forall g' l', enqueued (qval nb) g H g' l' -> rest (window g') = rest (window g) -> Q 1 g' l') ->
  wp P 0 (enq_cae i (dnode e) a) (fun ok g' l' => ok = true /\ l' = l /\
    wp P 0 (let* index := my thread_put_index in
            let* _ := cae_put index e new in Ret 1) Q g' l') g l.
Proof.
  intros i new ((HK & _ & Hok & EP & Hi) & He & Hk & Er & Hlt) Hsm Ho Hn0 HQ. fold i in He, Hk, Er, Hi.
  pose proof (pwidth_range set d g H HK) as Hw. pose proof Hok as Hok'. destruct Hok as (Ht & Hi0 & _). fold i in Hi0.
  destruct (lk_put _ _ _ _ HK) as (w & nw & Hlast & _ & EPw). pose proof (wins_last set d g H w HK Hlast) as Hx.
  rewrite EPw in Hi, Hlt, Hw. cbn [pwidth pmax] in *.
  pose proof (cl_settled _ _ _ _ _ (lk_calm _ _ _ _ HK) i ltac:(lia)) as Hse.
  set (x := mkWin (Z.of_nat (N g) * d) w d) in *.
  pose proof (put_row_range mw _ _ _ _ (cl_law _ _ _ _ _ (lk_calm _ _ _ _ HK)) i ltac:(lia)) as Hrow. rewrite Er in Hrow.
  unfold enq_cae. apply ((sub_step wp_cas_next_c) i (tail_pos (subs g) i) (dnode e) a nb); try done; [lia| |].
  2: { intros g1 R1 _ Hlen. rewrite (alone_rely set _ _ R1) in Hlen. lia. }
  intros g1 g2 R1 _ [I2 [He2 _]] E2 _ Ha2 _. rewrite (alone_rely set _ _ R1) in *. subst g2. split; [done|split; [done|]].
  cbn [set_subs window subs] in *.
  destruct (widths_pos set d g H HK) as [Hpos _].
  assert (Enew : dcount new = Z.max (dcount e) (bottom x) + 1).
  { unfold new, small, bottom in *. rewrite EPw. cbn [dcount pmax x lmax ldepth] in *.
    rewrite (wrap_small 64 (Z.of_nat (N g) * d - d)) by nia. apply lpw_next_count_eq; nia. }
  wp_local. apply (alone_my set). fold i. wp_local.
  apply ((sub_step wp_cae_put_c) i (tail_pos (subs g) i) e new); try done.
  - lia.
  - by apply (at_pos_evolves (subs g)).
  - intros g3 R3 I3 _ _ _ g4 I4 He4 Htl4. unfold g4 in *. clear g4. rewrite (alone_rely set _ _ R3) in *. wp_locals.
    cbn [set_subs window subs] in *. apply HQ; [|done].
    destruct (calm_enqueued mw _ _ _ _ 0%nat i (dnode e) a nb e new x (lk_calm _ _ _ _ HK) He Hx) as (HC & Htl & Hput);
      [cbn; lia|done|done|apply I2|apply I4|].
    exists i, x. split; [exact (lpw_subs_changed g H _ HK I4 HC)|]. split; [by apply (thread_ok_same g)|].
    split; [by eapply evolves_trans|]. split; [lia|]. split.
    { cbn [set_subs subs]. rewrite Htl. cbn [hist linked with_put]. by rewrite Hse. }
    by split.
  - intros g3 R3 _ Hne. rewrite (alone_rely set _ _ R3) in Hne. by destruct Hne.
Qed.

Lemma enqueue_alone H key v (Q : Z -> lstate -> tls windows -> Prop) g l :
  lpw_ok g H -> small 2 g -> thread_ok g l -> (forall g' l', enqueued v g H g' l' -> grown g g' -> Q 1 g' l') ->
  wp P 0 (enqueue set key v) Q g l.
Proof.
  intros HK Hsm Hok HQ. unfold enqueue. wp_local. unfold create_node.
  apply (sub_step wp_qalloc_c); [done|apply Hok|]. intros a g1 m R1 _ g2 I2 He2 _ Ho. unfold g2 in *. clear g2.
  rewrite (alone_rely set _ _ R1) in *. wp_local.
  assert (HK2 : lpw_ok (set_subs (with_heap m (subs g)) g) H).
  { apply lpw_subs_changed; [done|done|]. destruct (lk_calm _ _ _ _ HK) as [C1 C2 C3 C4 C5].
    split; [apply I2|by apply law_heap|done|exact C4|exact C5]. }
  set (g2 := set_subs _ g) in *.
  apply (wp_while P 0%nat _ _ _ _ (fun n c g' l' => n = 0%nat /\ c = false /\ g' = g2 /\ l' = l) 0%nat); [done|].
  intros n c g3 l3 (-> & -> & -> & ->). unfold enqueue_body. wp_local.
  apply (lpw_put_window_alone set Hset d Hd H); [done|done|by apply (thread_ok_same g)|].
  intros e g3 l3 Hpost. pose proof Hpost as ((HK3 & (Es & Ewid & Ews) & Hok3 & EP3 & Hi3) & He & Hk & Er & Hlt).
  set (i := thread_put_index (thread_Window l3)) in *. pose proof Hok3 as (_ & Hi0 & _ & _ & Hgk). fold i in Hi0.
  pose proof (pwidth_range set d g3 H HK3) as Hw.
  destruct (lk_put _ _ _ _ HK3) as (pw & nw & Hlast & Hnw & EPw).
  wp_local. apply (alone_my set). rewrite EP3. wp_local. apply (alone_my set). wp_local. apply wp_assert.
  { destruct (get_win set d g3 H HK3) as (w & _ & Hlen & EGw & _). apply lookup_lt_Some in Hlen. rewrite EPw. cbn [pmax].
    destruct Hgk as [[EG _]|[EG _]]; rewrite EG; apply Z.leb_le; [rewrite EGw; cbn [gmax]|]; nia. }
  wp_local. apply wp_assert; [by apply Z.ltb_lt|]. wp_local. apply (alone_my set). wp_local. fold i.
  apply (load_put_alone set); [apply HK3|lia|]. intros e' He' _ _. assert (e' = e) as -> by congruence.
  rewrite (proj2 (Z.leb_gt _ _) Hlt). wp_local. apply (alone_my set). rewrite EP3.
  replace (pdepth (PWindow g3)) with d by (by rewrite EPw). cbv zeta. wp_local.
  apply (load_next_end g3 H i); [done|lia|done|]. cbn [Z.eqb]. wp_local.
  assert (Hsm3 : small 1 g3).
  { unfold small in *. rewrite Es. cbn [g2 set_subs subs with_heap hist]. destruct Ews as [[-> _]|[-> _]]; cbn [g2 set_subs window];
      [|rewrite length_app; cbn [length]]; lia. }
  eapply wp_mono; [|apply (enqueue_link_alone g2 H e a (mkQnode 0 key v)); [exact Hpost|exact Hsm3| |done|]].
  - intros ok g4 l4 (-> & -> & HW). wp_local. apply (alone_my set). rewrite EP3. wp_local.
    apply wp_assert; [apply Z.leb_le; lia|]. wp_locals. exact HW.
  - destruct Ho as [Ho1 Ho2]. unfold owned, lookup_node in *. by rewrite Es.
  - intros g5 l5 (j & x & HK5 & Hok5 & He5 & Hj & Eh5 & Hx & Hput) Er5. apply HQ.
    + exists j, x. do 2 (split; [done|]). split; [by rewrite Es in He5; eapply evolves_trans|].
      split; [done|]. split; [by rewrite Eh5, Es|done].
    + unfold grown. rewrite Er5. by split.
Qed.

(** *** [dequeue] *)

(** What a successful [dequeue] did, the get window now being the one after the
    [H]-th, and one that answered 0. *)
Definition dequeued (v : Z) g0 (H : nat) g l : Prop :=
  exists i x, lpw_ok g H /\ thread_ok g l /\ evolves (subs g0) (subs g) /\ 0 <= i < mw /\
  drained mw (Wins g) H (subs g0) /\ (head_pos (subs g0) i < tail_pos (subs g0) i)%nat /\
  history g = (0%nat, Deq i (Z.of_nat (S (head_pos (subs g0) i))) v) :: history g0 /\
  Wins g !! S H = Some x /\ row (subs g0) i (S (head_pos (subs g0) i)) <= lmax x /\
  Widths g = Widths g0 /\ PWindow g = PWindow g0 /\ width (rest (window g)) = width (rest (window g0)).
Definition found_empty g0 (H : nat) g l : Prop :=
  exists i x, lpw_ok g H /\ thread_ok g l /\ S H = N g /\ Wins g !! N g = Some x /\ 0 <= i < lwidth x /\
  tail_pos (subs g0) i = head_pos (subs g0) i /\ drained mw (Wins g) H (subs g0) /\
  subs g = with_event (0%nat, Nothing i) (subs g0) /\
  Widths g = Widths g0 /\ PWindow g = PWindow g0 /\ width (rest (window g)) = width (rest (window g0)).

Lemma non_overlap_alone g0 H e (Q : bool + Z -> lstate -> tls windows -> Prop) g l :
  let i := thread_get_index (thread_Window l) in
  get_post set d g0 H e g l -> small 1 g -> (head_pos (subs g) i < tail_pos (subs g) i)%nat ->
  dcount e < gmax (GWindow g) ->
  (forall v g' l', dequeued v g0 H g' l' -> Q (inr v) g' l') ->
  wp P 0 (non_overlap i e) Q g l.
Proof.
  intros i ((HK & (Es & Ews & EP & Ewid) & Hok & EP' & EG & Hi) & He & Hk & Er & _) Hsm Hlt Hcount HQ. fold i in He, Hk, Er, Hi.
  destruct (get_win set d g H HK) as (w & Hx & _ & EGw & Hw). rewrite EGw in Hi, Hcount. cbn [gwidth gmax] in Hi, Hcount.
  pose proof Hok as (Ht & _ & Hj0 & _). fold i in Hj0. set (x := mkWin (Z.of_nat (S H) * d) w d) in *.
  pose proof (lk_inv _ _ _ _ HK) as HI. pose proof (lk_calm _ _ _ _ HK) as HC.
  destruct (sub_positions mw (subs g) i (lpw_subs set g HI) ltac:(lia)) as (_ & Hlen & _).
  destruct (lookup_lt_is_Some_2 (links_of (subs g) i) (S (head_pos (subs g) i))) as [b Hb].
  { pose proof (cl_settled _ _ _ _ _ HC i ltac:(lia)). lia. }
  unfold non_overlap. wp_local.
  apply ((sub_rule wp_qload_next_known) i (head_pos (subs g) i) _ b); [lia|done|done|].
  intros g1 R1 _. rewrite (alone_rely set _ _ R1). wp_local. apply (alone_my set). rewrite EG, EGw. wp_local.
  apply (alone_my set). rewrite EG, EGw. cbn [gmax gdepth]. cbv zeta. wp_local.
  set (c := if _ <? _ then _ else _).
  assert (Hget : 0 <= dcount e < 2 ^ 63).
  { pose proof (rows_mono mw _ _ _ _ (cl_law _ _ _ _ _ HC) i 0 (head_pos (subs g) i) ltac:(lia) ltac:(lia)) as Hm.
    rewrite (lw_start _ _ _ _ _ (cl_law _ _ _ _ _ HC) i ltac:(lia)), <- (proj1 (cl_drained _ _ _ _ _ HC) i ltac:(lia)), Er in Hm.
    destruct (widths_pos set d g H HK) as [Hpos _]. pose proof (lw_head _ _ _ _ _ (cl_law _ _ _ _ _ HC)).
    unfold small in Hsm. split; [lia|]. nia. }
  assert (Ec : c = Z.max (dcount e + 1) (bottom x + 1)).
  { unfold c, bottom, x. cbn [lmax ldepth]. pose proof (lw_head _ _ _ _ _ (cl_law _ _ _ _ _ HC)).
    unfold small in Hsm. assert (Hb0 : 0 <= Z.of_nat (S H) * d - d < 2 ^ 63) by nia.
    rewrite (wrap_small 64 (Z.of_nat (S H) * d - d)), !wrap_small by lia.
    destruct (Z.ltb_spec (dcount e + 1) (Z.of_nat (S H) * d - d + 1)); lia. }
  unfold deq_cae. apply ((sub_step wp_cae_get_c) i (head_pos (subs g) i) e (mkDesc b c)); try done; [lia| | |].
  - intros g2 R2 _ _ _ Hp. rewrite (alone_rely set _ _ R2) in *. split; [lia|]. by split.
  - intros g2 g3 n R2 _ _ _ En [I3 [He3 _]] E3. rewrite (alone_rely set _ _ R2) in *. subst g3. cbn [qd_node descriptor_desc dnode] in En.
    wp_local. apply ((sub_rule wp_qload_val) i (S (head_pos (subs g) i)) b n); [lia|exact I3|exact Hb|exact En|].
    intros g4 R4 _. rewrite (alone_rely set _ _ R4). wp_locals. apply HQ.
    cbn [set_subs window subs] in *.
    destruct (calm_dequeued mw _ _ _ _ 0%nat i e (mkDesc b c) (qval n) x HC He Hx) as [HC' Hrow]; [cbn; lia|done|done|done|apply I3|].
    exists i, x. split; [exact (lpw_subs_changed g H _ HK I3 HC')|]. split; [by apply (thread_ok_same g)|].
    cbn [set_subs window subs taken hist] in *. rewrite <- Es.
    split; [done|]. split; [lia|]. split; [apply HC|]. by split_and!.
  - intros g2 R2 _ Hne. rewrite (alone_rely set _ _ R2) in Hne. by destruct Hne.
Qed.

(** The observation that sub-queue [i] of the last window is empty. *)
Lemma observe_empty_alone g0 H e (Q : bool + Z -> lstate -> tls windows -> Prop) g l :
  let i := thread_get_index (thread_Window l) in
  get_post set d g0 H e g l -> S H = N g -> tail_pos (subs g) i = head_pos (subs g) i ->
  (forall g' l', found_empty g0 H g' l' -> Q (inr 0) g' l') ->
  wp P 0 (load_head_next i (dnode e)) (fun next g l => next = 0 /\
    wp P 0 (put (count_stat inc_null) ;;; break 0) Q g l) g l.
Proof.
  intros i ((HK & (Es & Ews & EP & Ewid) & Hok & EP' & EG & Hi) & He & Hk & Er & _) HT Hemp HQ. fold i in He, Hk, Er, Hi.
  destruct (get_win set d g H HK) as (w & Hx & _ & EGw & Hw). rewrite EGw in Hi. cbn [gwidth] in Hi.
  pose proof Hok as (Ht & _ & Hj0 & _). fold i in Hj0. pose proof (lk_calm _ _ _ _ HK) as HC.
  apply ((sub_step wp_load_head_next_c) (fun _ _ _ => I) i (head_pos (subs g) i)); [lia|done|done|lia|..].
  - intros g1 g2 R1 _ [I2 _] E2 _ _. rewrite (alone_rely set _ _ R1) in *. subst g2. split; [done|]. wp_locals. apply HQ.
    exists i, (mkWin (Z.of_nat (S H) * d) w d). cbn [set_subs window subs] in *.
    split; [|split; [by apply (thread_ok_same g)|]].
    { apply lpw_subs_changed; [done|done|]. destruct HC as [C1 C2 C3 C4 C5].
      split; [apply I2|by apply law_nothing|done|exact C4|exact C5]. }
    split; [done|]. rewrite <- HT. split; [done|]. split; [cbn; lia|]. rewrite <- Es. split; [done|]. split; [apply HC|done].
  - intros b g1 R1 _ _ Hb. rewrite (alone_rely set _ _ R1) in Hb. apply lookup_lt_Some in Hb.
    pose proof (cl_settled _ _ _ _ _ HC i ltac:(lia)). lia.
Qed.

(** Before the last window a count below its top is that of a sub-queue that is
    not empty. *)
Lemma before_last_nonempty g H i :
  lpw_ok g H -> (S H < N g)%nat -> 0 <= i < gwidth (GWindow g) -> get_row (subs g) i < gmax (GWindow g) ->
  (head_pos (subs g) i < tail_pos (subs g) i)%nat.
Proof.
  intros HK HT Hi Hlt. destruct (get_win set d g H HK) as (w & Hx & _ & EGw & Hw). rewrite EGw in Hi, Hlt.
  cbn [gwidth gmax] in *. destruct (lk_calm _ _ _ _ HK) as [C1 C2 C3 C4 C5].
  pose proof (lw_full _ _ _ _ _ C2 (S H) _ i Hx ltac:(lia) Hi) as Hf. cbn [lmax] in Hf.
  rewrite (proj1 C5 i ltac:(lia)) in Hlt. unfold put_row in Hf. destruct (sub_positions mw (subs g) i C1 ltac:(lia)) as [[Hle _] _].
  destruct (decide (head_pos (subs g) i = tail_pos (subs g) i)) as [E|]; [rewrite E in Hlt; lia|lia].
Qed.

Lemma dequeue_alone H0 (Q : Z -> lstate -> tls windows -> Prop) g l :
  lpw_ok g H0 -> small 2 g -> thread_ok g l ->
  (forall H v g' l', dequeued v g H g' l' -> Q v g' l') ->
  (forall H g' l', found_empty g H g' l' -> Q 0 g' l') ->
  wp P 0 (dequeue set) Q g l.
Proof.
  intros HK Hsm (Ht & Hi & Hj & Hpk & Hgk) HQ HQ0. unfold dequeue. wp_local. apply (alone_load_var set). wp_local.
  apply (sync_P_alone set). set (l1 := upd _ l).
  apply (wp_while P 0%nat _ _ _ _ (fun n c g' l' => n = 0%nat /\ c = false /\ g' = g /\ l' = l1) 0%nat); [done|].
  intros n c g1 l2 (-> & -> & -> & ->). unfold dequeue_body. wp_local.
  apply (lpw_get_window_alone set Hset d Hd H0); [done|done|split; [done|split; [done|split; [done|split; [by left|done]]]]|done|].
  intros H e g1 l2 Hpost. pose proof Hpost as ((HK1 & (Es & Ews & EP & Ewid) & Hok1 & EP1 & EG1 & Hi1) & He & Hk & Er & Hcase).
  cbv zeta. set (i := thread_get_index (thread_Window l2)) in *. pose proof Hok1 as (_ & _ & Hj1 & _). fold i in Hj1.
  assert (Hsm1 : small 1 g1) by (unfold small in *; rewrite Es, Ews; lia).
  destruct (get_win set d g1 H HK1) as (w & Hx & _ & EGw & Hw). pose proof Hi1 as Hiw. rewrite EGw in Hiw. cbn [gwidth] in Hiw.
  pose proof (lw_head _ _ _ _ _ (cl_law _ _ _ _ _ (lk_calm _ _ _ _ HK1))) as HHN.
  pose proof (ends_eq g1 H i) as Hends.
  (* Taking a node. *)
  assert (Hgo : (head_pos (subs g1) i < tail_pos (subs g1) i)%nat -> dcount e < gmax (GWindow g1) ->
    wp P 0 (non_overlap i e) (fun r g2 l3 => match r with
      | inl c' => exists m, (p_total P = true -> (m < 0)%nat) /\ m = 0%nat /\ c' = false /\ g2 = g /\ l3 = l1
      | inr b => wp P 0 (Ret b) Q g2 l3 end) g1 l2).
  { intros Hlt Hcnt. apply (non_overlap_alone g H); [done|done|done|done|]. intros v g2 l3 HD. wp_local. by apply (HQ H). }
  wp_local. apply (alone_my set). wp_local. apply (alone_my set). rewrite EP1. wp_local. apply (alone_my set). rewrite EP1. wp_local.
  apply (alone_my set). rewrite EG1. destruct (lk_put _ _ _ _ HK1) as (pw & nw & _ & _ & EPw). rewrite EPw. cbn [pmax pdepth].
  assert (El : u64 (Z.of_nat (N g1) * d - d) = Z.of_nat (N g1 - 1) * d) by (unfold small in Hsm1; rewrite wrap_small; nia).
  rewrite El. clear El. destruct (Z.ltb_spec (Z.of_nat (N g1 - 1) * d) (gmax (GWindow g1))) as [HT|HT];
    rewrite EGw in HT; cbn [gmax] in HT.
  - assert (ET : S H = N g1) by (apply Nat.le_antisymm; [lia|apply Nat.nlt_ge; intros ?; nia]).
    wp_local. apply (read_put_alone set); [apply HK1|lia|]. intros ep _ Hpk' _.
    specialize (Hends _ _ HK1 ltac:(lia) Hk Hpk'). destruct (Z.eqb_spec (dnode e) (dnode ep)) as [E|Hne].
    + wp_local. eapply wp_mono; [|apply (observe_empty_alone g H); [done|done|by apply Hends|]].
      * intros r g2 l3 [-> HW]. cbn [Z.eqb]. exact HW.
      * intros g2 l3 HD. exact (HQ0 H g2 l3 HD).
    + destruct (sub_positions mw (subs g1) i (lpw_subs set g1 (lk_inv _ _ _ _ HK1)) ltac:(lia)) as [[Hle _] _].
      assert (tail_pos (subs g1) i <> head_pos (subs g1) i) by (intros E; by apply Hne, Hends).
      apply Hgo; [lia|]. by destruct Hcase as [?|[_ ?]].
  - assert (ET : (S H < N g1)%nat) by (apply Nat.nle_gt; intros ?; nia).
    assert (Hcnt : dcount e < gmax (GWindow g1)) by (destruct Hcase as [?|[? _]]; [done|lia]).
    apply Hgo; [|done]. apply (before_last_nonempty g1 H); [done|done|lia|by rewrite Er].
Qed.

(** *** Whole runs *)

Definition op_ok (o : lop) : Prop :=
  match o with
  | QueueOp _ => True
  | UpdateDepth v => v = d
  | UpdateWidth v => 1 <= v <= mw
  end.

Section run.
Context (w0 : Z).

Definition seq_account (done : list (lop * Z)) g l : Prop :=
  lpw_run w0 d done (Widths g) (filled_last (Wins g) (subs g)) (spec_elems (Wins g) (subs g))
    (pnext_width (PWindow g)) (width (rest (window g))) /\
  Z.of_nat (length (spec_elems (Wins g) (subs g))) = queues_total (history g) mw /\
  ordered mw (Wins g) (subs g) /\ (exists H, lpw_ok g H) /\ thread_ok g l /\
  (N g <= 1 + length done)%nat /\ (length (history g) <= length done)%nat.

Lemma lpw_account_enqueue done g H l key v g' l' :
  seq_account done g l -> lpw_ok g H -> enqueued v g H g' l' -> grown g g' ->
  seq_account (done ++ [(QueueOp (Enqueue key v), 1)]) g' l'.
Proof.
  intros (Hrun & Htot & HO & _ & _ & Hw & Hh) HK (i & x & HK' & Hok & Hev & Hi & Eh & Hx & Hr) [Ewid Ews].
  destruct (widths_pos set d g H HK) as [Hpos Hne].
  assert (Hpre : Wins g `prefix_of` Wins g').
  { destruct Ews as [[-> _]|[-> _]]; [done|]. rewrite (wins_snoc d) by done. by apply prefix_app_r. }
  destruct (ordered_enqueue mw _ _ _ _ (lk_calm _ _ _ _ HK) _ _ _ _ 0%nat i _ v x HO (lk_calm _ _ _ _ HK') Hev Hpre Hi Eh
    eq_refl Hx Hr) as [HO' Eel].
  destruct (enqueue_fills mw _ _ _ _ _ _ _ _ 0%nat i _ v x (lk_calm _ _ _ _ HK) (lk_calm _ _ _ _ HK') Hev Hi Eh Hx Hr)
    as [Hsame Hnew].
  destruct (lk_put _ _ _ _ HK) as (wl & _ & Hlast & _). pose proof (wins_last set d g H wl HK Hlast) as Hy.
  split; [|split; [|split; [done|split; [by exists H|split; [done|split]]]]].
  - rewrite Eel, Ewid. destruct Ews as [[Ews ->]|[Ews ->]].
    + destruct (Hsame ltac:(by rewrite Ews)) as [Hf ->]. rewrite Ews in Hx |- *.
      eapply lr_enqueue; [exact Hrun|exact Hlast|]. by assert (x = mkWin (Z.of_nat (N g) * d) wl d) as -> by congruence.
    + assert (Ex : Wins g' = Wins g ++ [x]).
      { rewrite Ews in Hx |- *. rewrite (wins_snoc d) in Hx |- * by done. rewrite length_app in Hx. cbn [length] in Hx.
        rewrite lookup_app_r in Hx by (rewrite wins_length; lia). rewrite wins_length in Hx.
        replace (N g + 1 - S (N g))%nat with 0%nat in Hx by lia. by injection Hx as <-. }
      destruct (Hnew _ Ex Hy) as [Hf ->]. rewrite Ews.
      rewrite length_app. cbn [length]. rewrite Nat.add_1_r. cbn [pred]. by eapply lr_enqueue_new.
  - rewrite Eel, Eh, queues_total_enq by done. rewrite length_app. cbn [length]. lia.
  - rewrite length_app. destruct Ews as [[-> _]|[-> _]]; rewrite ?length_app; cbn; lia.
  - rewrite Eh, length_app. cbn. lia.
Qed.

Lemma lpw_account_dequeue done g H0 H l v g' l' :
  seq_account done g l -> lpw_ok g H0 -> dequeued v g H g' l' ->
  seq_account (done ++ [(QueueOp Dequeue, v)]) g' l'.
Proof.
  intros (Hrun & Htot & HO & _ & _ & Hw & Hh) HK
    (i & x & HK' & Hok & Hev & Hi & Hdr & Hlt & Eh & Hx & Hrow & Ews & EP & Ewid).
  pose proof (lk_calm _ _ _ _ HK') as HC'. rewrite Ews in HC', Hdr, Hx.
  destruct (ordered_dequeue mw _ _ _ _ (lk_calm _ _ _ _ HK) H _ 0%nat i v x HO HC' Hev Hdr Hi Eh Hlt Hx Hrow)
    as (HO' & pre & n & post & wn & dn & E1 & E2 & Hpre & Hn & Hle).
  rewrite spec_windows_wins, list_lookup_fmap in Hn. apply fmap_Some in Hn as (v' & Hn & [= -> ->]).
  assert (Hne : qcontents i (history g) <> []).
  { destruct (cl_inv _ _ _ _ _ HC') as (_&_&_&_&_&_&Hlg&_). rewrite Eh in Hlg. destruct Hlg as [Hhd _].
    intros E. by rewrite E in Hhd. }
  unfold seq_account. rewrite Ews, EP, Ewid.
  rewrite (dequeue_fills mw _ _ _ _ _ _ _ _ _ _ (lk_calm _ _ _ _ HK) HC' Hev Eh).
  split; [|split; [|split; [done|split; [by exists H|split; [done|split]]]]].
  - rewrite E2. eapply lr_dequeue; [|exact Hpre|exact Hn|done]. by rewrite <- E1.
  - rewrite Eh, queues_total_deq by done. rewrite E2. rewrite E1 in Htot. rewrite length_app in *. cbn [length] in *. lia.
  - rewrite length_app. cbn. lia.
  - rewrite Eh, length_app. cbn. lia.
Qed.

Lemma lpw_account_empty done g H0 H l g' l' :
  seq_account done g l -> lpw_ok g H0 -> found_empty g H g' l' ->
  seq_account (done ++ [(QueueOp Dequeue, 0)]) g' l'.
Proof.
  intros (Hrun & Htot & HO & _ & _ & Hw & Hh) HK
    (i & x & HK' & Hok & HT & Hx & Hi & Hemp & Hdr & Es & Ews & EP & Ewid).
  rewrite Ews in Hx, HT, Hdr.
  destruct (ordered_few mw _ _ _ _ (lk_calm _ _ _ _ HK) H x i HO Hdr HT Hx Hi Hemp) as [Hall Hle].
  destruct (lk_put _ _ _ _ HK) as (wl & _ & Hlast & _).
  pose proof (wins_last set d g H0 wl HK Hlast) as Hx'. assert (x = mkWin (Z.of_nat (N g) * d) wl d) as -> by congruence.
  unfold seq_account. rewrite Ews, EP, Ewid, Es.
  change (spec_elems (Wins g) (with_event (0%nat, Nothing i) (subs g))) with (spec_elems (Wins g) (subs g)).
  split; [|split; [exact Htot|split; [|split; [by exists H|split; [done|split]]]]].
  - eapply lr_empty; [exact Hrun| |exact Hlast|exact Hle]. rewrite <- HT. exact Hall.
  - by apply (ordered_same mw _ (subs g)).
  - rewrite length_app. cbn. lia.
  - rewrite length_app. cbn. lia.
Qed.

(** [SWP] of a dimension. *)
Lemma swap_field_alone f set_f v (Q : Z -> lstate -> tls windows -> Prop) g l :
  p_inv B g -> Q (f (rest (window g))) (set_rest (set_f v (rest (window g))) g) l -> wp P 0 (swap_field f set_f v) Q g l.
Proof.
  intros HI HQ g1 R1 _ _. rewrite (alone_rely set _ _ R1). cbn -[set_rest].
  destruct (alone_rest set (set_f v (rest (window g))) g HI) as [HI' Hg]. split; [exact Hg|by split].
Qed.

Lemma lpw_account_op done o g l :
  op_ok o -> Z.of_nat (length done) < 2 ^ 46 -> seq_account done g l ->
  wp P 0 (exec_op set o) (fun r g l => seq_account (done ++ [(o, r)]) g l) g l.
Proof.
  intros Ho Hlim HJ. pose proof HJ as (Hrun & Htot & HO & (H & HK) & Hok & Hw & Hh).
  assert (Hsm : small 2 g) by (unfold small; lia).
  destruct o as [[key v|]|v|v]; cbn [exec_op].
  - apply (enqueue_alone H); [done|done|done|]. intros g' l' HE HG. by apply (lpw_account_enqueue done g H l).
  - apply (dequeue_alone H); [done|done|done|..].
    + intros H' v g' l' HD. by apply (lpw_account_dequeue done g H H' l).
    + intros H' g' l' HD. by apply (lpw_account_empty done g H H' l).
  - cbn in Ho. subst v. apply swap_field_alone; [apply HK|]. destruct (lk_dims _ _ _ _ HK) as [Ed Hwid].
    assert (E : set_rest (set_depth d (rest (window g))) g = g).
    { destruct g as [[? []] ?]. cbn in *. by subst. }
    rewrite E, Ed. split; [by constructor|]. do 4 (split; [done || by exists H|]). rewrite length_app. cbn. lia.
  - apply swap_field_alone; [apply HK|]. split; [by apply (lr_width w0 d done _ _ _ _ _ v)|]. do 2 (split; [done|]).
    split; [|split; [exact Hok|rewrite length_app; cbn; lia]]. exists H. destruct HK as [K1 K2 K3 K4 K5 K6 K7 K8].
    split; try done. split; [apply K5|exact Ho].
Qed.

Lemma lpw_size_alone H (Q : Z -> lstate -> tls windows -> Prop) g l :
  lpw_ok g H -> Z.of_nat (length (history g)) < 2 ^ 62 ->
  Q (queues_total (history g) mw) g l -> wp P 0 (queue_size set) Q g l.
Proof.
  intros HK Hlim HQ. pose proof Hset as [Hmw _].
  apply (queues_span_wp (elastic_prot (no_window (W := globals)) (fun _ => True)) mw (2 ^ 62) P 0%nat);
    [by intros g1 g2 R; apply R|lia|apply HK|done|apply HK|done].
Qed.
End run.
End sequential.

(** ** Creation *)

Lemma create_lateral_lpw {LA : Allocator (lnode lateral_node_t)} w :
  let m := create_lateral_queue w in
  lat_inv m /\ ltail_pos m = 0%nat /\ lhead_pos m = 0%nat /\ infos m = [mkLat 0 w] /\ length (chain m) = 1%nat.
Proof.
  cbv zeta. unfold create_lateral_queue.
  destruct (alloc_addr_ok (∅ : gmap Z (lnode lateral_node_t))) as [Ha _].
  generalize (alloc_addr (∅ : gmap Z (lnode lateral_node_t))) Ha. clear Ha. intros a Ha.
  assert (Hp : lpos (mkLateral (<[a:=mkLnode 0 (mkLat 0 w)]> ∅) a a ∅ [a] [mkLat 0 w]) a = 0%nat).
  { unfold lpos. cbn. by rewrite decide_True. }
  unfold ltail_pos, lhead_pos. cbn [ltail lhead]. rewrite Hp. split; [|done].
  split; unfold ltail_pos, lhead_pos; cbn [ltail lhead]; rewrite ?Hp; cbn; try done; try lia.
  - by rewrite lookup_insert_ne.
  - apply NoDup_singleton.
  - intros [|k] b Hk; [|done]. injection Hk as <-. split; [done|split; [done|]]. exists (mkLat 0 w).
    split; [done|]. by rewrite lookup_insert_eq.
Qed.

Lemma create_queue_lpw {A : Allocator (qnode_of unit)} {LA : Allocator (lnode lateral_node_t)}
    junk n w d m k b set g :
  create_queue junk n w d m k b = Some (set, g) -> set_ok set ->
  1 <= depth (rest (window g)) < 2 ^ 16 -> 1 <= width (rest (window g)) <= max_width set ->
  let w' := width (rest (window g)) in let d' := depth (rest (window g)) in
  lpw_ok set d' g 0 /\ hist (subs g) = [] /\ widths (rest (window g)) = [w'] /\
  pnext_width (global_PWindow (rest (window g))) = w' /\
  (args_ok 1 16 16 n w d b -> 1 <= k <= 3 -> d' * (w' - 1) <= relaxation_bound set <= b).
Proof.
  unfold create_queue. destruct (calculate _ _ _ _ _ _ _ _ _) as [p|] eqn:Ecalc; [|done]. cbn [mbind option_bind].
  unfold initialize_global_window. destruct (p_depth p =? 0); [done|].
  intros [= <- <-] Hset Hd Hw. cbn [window rest depth width] in *. set (mq := mkQueue _ _ _ _) in *.
  destruct (create_lateral_lpw (p_width p)) as (HL & Ht & Hh & Ei & Hc).
  pose proof (calm_created (max_width mq) junk (p_width p) (p_depth p) Hw Hd) as HC.
  destruct (created_at junk (fun a => mkDesc a 0) (fun a => mkDesc a 0) (Z.to_nat (max_width mq)) 0) as [Eh _];
    [destruct Hset; lia|].
  split; [|split; [exact Eh|split; [done|split; [done|]]]].
  - split; cbn [window lat rest subs].
    + split; [by split|apply HC].
    + cbn [widths length]. unfold wins. cbn [lookup list_lookup default imap Nat.add].
      replace (Z.of_nat 1 * p_depth p) with (p_depth p) by lia. exact HC.
    + exists (p_width p), (p_width p). split; [done|split; [done|]]. cbn. f_equal. lia.
    + exists (p_width p). split; [done|]. cbn. f_equal. lia.
    + done.
    + rewrite Ei. by apply lat_ok_created.
    + by rewrite Ht, Hc.
    + intros y Hy. rewrite Ei, Hh in Hy. injection Hy as <-. cbn. lia.
  - intros Hargs Hk. destruct (calculate_bound 1 16 16 (product_int 1) n w d k b Hargs Hk) as (p' & E & Hp).
    assert (p' = p) as -> by congruence. unfold mq. cbn [relaxation_bound]. lia.
Qed.

Notation widths_of g := (widths (rest (window g))).
Notation elements_of d g := (spec_elems (wins d (widths (rest (window g)))) (subs g)).
Notation fill_of d g := (filled_last (wins d (widths (rest (window g)))) (subs g)).
Notation next_of g := (pnext_width (global_PWindow (rest (window g)))).

(** C3. For one thread the elastic queue (LpW), whatever its calls of
    [update_width] with arguments in range, while the depth is that of the
    creation: every run terminates; [global_PWindow] is the last of the windows
    that the calls determine, a new one, of the width that was set when the one
    before it was made, being opened exactly when [width * depth] elements were
    enqueued into the last one, and the lateral queue has the changes of the
    width; a dequeue returns an element of the oldest window that has any,
    overtaking at most [depth * (width - 1)] elements for the width of that
    window; it answers 0 only when all elements, not more than that, are in the
    last window; the bound of the first window is within the relaxation bound
    the queue was created for in the modes 1, 2 and 3; [queue_size] is the number
    of elements. *)
Theorem elastic_lpw_k_relaxed {A : Allocator (qnode_of unit)} {LA : Allocator (lnode lateral_node_t)}
    junk nt w d m k b set g0 ops l0 :
  create_queue junk nt w d m k b = Some (set, g0) -> set_ok set ->
  let w0 := width (rest (window g0)) in
  let d0 := depth (rest (window g0)) in
  1 <= d0 < 2 ^ 16 -> 1 <= w0 <= max_width set ->
  thread_id l0 = 0%nat -> thread_Window l0 = windows0 -> Forall (op_ok set d0) ops ->
  Z.of_nat (length ops) < 2 ^ 46 ->
  exists n rs g l,
    (forall m, (n <= m)%nat -> run m (run_ops (exec_op set) ops) g0 l0 = Finished rs g l) /\
    length rs = length ops /\
    lpw_run w0 d0 (zip ops rs) (widths_of g) (fill_of d0 g) (elements_of d0 g) (next_of g) (width (rest (window g))) /\
    (exists wl, last (widths_of g) = Some wl /\
       global_PWindow (rest (window g)) = mkPwin (Z.of_nat (length (widths_of g)) * d0) d0 wl (next_of g)) /\
    lat_ok d0 (widths_of g) (infos (lat (window g))) /\
    (args_ok 1 16 16 nt w d b -> 1 <= k <= 3 -> d0 * (w0 - 1) <= relaxation_bound set <= b) /\
    exists n' g' l', forall m, (n' <= m)%nat ->
      run m (queue_size set) g l = Finished (Z.of_nat (length (elements_of d0 g))) g' l'.
Proof.
  intros Hc Hset w0 d0 Hd Hw Ht0 Hw0 Hops Hlim.
  destruct (create_queue_lpw _ _ _ _ _ _ _ _ _ Hc Hset Hd Hw) as (HK & Hh & Ew & En & Hbound).
  fold w0 d0 in HK, Ew, En, Hbound.
  destruct (alone_run (lpw_base set) (run_ops (exec_op set) ops) (fun rs g l =>
      length rs = length ops /\ seq_account set d0 w0 ([] ++ zip ops rs) g l) g0 l0 (lk_inv _ _ _ _ HK))
    as (n & rs & g & l & Hrun & (Hlen & Hacc) & _).
  { apply (wp_run_ops_where (alone (lpw_base set)) 0 (exec_op set) (op_ok set d0) (length ops) (seq_account set d0 w0))
      with (done := []); [|done|cbn; lia|].
    - intros done o g l Hlt Ho HJ. apply (lpw_account_op set Hset d0 Hd); [done|lia|done].
    - assert (E : spec_elems (wins d0 (widths (rest (window g0)))) (subs g0) = []) by (unfold spec_elems; by rewrite Hh).
      assert (Ef : fill_of d0 g0 = 0).
      { apply (filled_start _ _ _ _ _ (mkWin (1 * d0) w0 d0) (lk_calm _ _ _ _ HK) Hh); [by rewrite Ew|].
        unfold bottom. cbn [lmax ldepth]. lia. }
      unfold seq_account. rewrite E, Ef, En, Ew, Hh. split; [apply lr_create|]. split.
      { unfold queues_total. destruct Hset. cbn. rewrite sum_upto_const by lia. lia. }
      split; [by apply ordered_created|]. split; [by exists 0%nat|]. split; [|split; cbn; lia].
      unfold thread_ok, put_known, get_known. rewrite Hw0. cbn. split_and!; [done|lia|lia|by right|by right]. }
  destruct Hacc as (Hr & Htot & _ & (H & HKg) & _ & _ & Hhl).
  exists n, rs, g, l. split; [done|split; [done|split; [done|split; [|split; [apply HKg|split; [done|]]]]]].
  { destruct (lk_put _ _ _ _ HKg) as (wl & nw & Hl & _ & E). exists wl. split; [done|]. by rewrite E. }
  destruct (alone_run (lpw_base set) (queue_size set) (fun r _ _ => r = queues_total (hist (subs g)) (max_width set)) g l
    (lk_inv _ _ _ _ HKg)) as (n' & r & g' & l' & Hrun' & -> & _).
  { apply (lpw_size_alone set Hset d0 H); [done| |done].
    cbn [app] in Hhl. rewrite length_zip_with in Hhl. lia. }
  exists n', g', l'. intros m' Hm. rewrite Htot. by apply Hrun'.
Qed.

(** ** Examples *)

Section examples.
#[local] Instance node_allocator : Allocator (qnode_of unit) := bump_allocator _.
#[local] Instance lateral_allocator : Allocator (lnode lateral_node_t) := bump_allocator _.

Definition example_set (m b : Z) : mqueue_t := mkQueue 2 m b 4.
(** Created with width [w], depth [d] and [m] sub-queues. *)
Definition example_mem (w d m : Z) : lstate :=
  mkShared (mkElastic (create_lateral_queue w) (mkGlobals (mkPwin d d w w) (mkGwin d d w) d d w [w]))
    (created (fun _ => mkQnode 0 0 0) (fun a => mkDesc a 0) (fun a => mkDesc a 0) (Z.to_nat m)).
Definition enq (k : Z) : lop := QueueOp (Enqueue k (10 * k)).
Definition deq : lop := QueueOp Dequeue.
Definition example_thread : tls windows := mkTls 0 windows0 0 (mkSeeds 3 5 7) stats0.

(** The width is changed between the operations. *)
Definition example_calls : list lop :=
  [enq 1; UpdateWidth 3; enq 2; enq 3; enq 4; enq 5; enq 6; deq; enq 7; UpdateWidth 1; enq 8; deq; deq; enq 9; UpdateDepth 1;
   enq 10; deq; deq; deq; deq; deq; deq; deq; deq].

Lemma elastic_lpw_k_relaxed_witness :
  exists n rs g l,
    (forall m, (n <= m)%nat ->
       run m (run_ops (exec_op (example_set 3 0)) example_calls) (example_mem 2 1 3) example_thread = Finished rs g l) /\
    length rs = 24%nat /\
    lpw_run 2 1 (zip example_calls rs) (widths_of g) (fill_of 1 g) (elements_of 1 g) (next_of g) (width (rest (window g))) /\
    (exists wl, last (widths_of g) = Some wl /\
       global_PWindow (rest (window g)) = mkPwin (Z.of_nat (length (widths_of g)) * 1) 1 wl (next_of g)) /\
    lat_ok 1 (widths_of g) (infos (lat (window g))) /\
    (args_ok 1 16 16 1 2 1 0 -> 1 <= 4 <= 3 -> 1 * (2 - 1) <= 0 <= 0) /\
    exists n' g' l', forall m, (n' <= m)%nat ->
      run m (queue_size (example_set 3 0)) g l = Finished (Z.of_nat (length (elements_of 1 g))) g' l'.
Proof.
  apply (elastic_lpw_k_relaxed (fun _ => mkQnode 0 0 0) 1 2 1 3 4 0 (example_set 3 0) (example_mem 2 1 3) example_calls
    example_thread eq_refl).
  - unfold set_ok, example_set. cbn. lia.
  - cbn. lia.
  - cbn. lia.
  - reflexivity.
  - reflexivity.
  - repeat constructor; unfold example_set; cbn; lia.
  - vm_compute. reflexivity.
Defined.

(** Four dequeues in a row answer 0 although the queue has an element: its
    sub-queue has the [get_count] 0, the bottom of the put window, and for a count
    that is not above the bottom [get_window] takes the bottom for the put count,
    and so the sub-queue for empty. *)
Example elastic_lpw_misses_element :
  match run 5000 (let* rs := run_ops (exec_op (example_set 2 0)) [enq 1; deq; deq; deq; deq] in
      let* n := queue_size (example_set 2 0) in Ret (rs, n)) (example_mem 2 2 2) example_thread with
  | Finished r _ _ => r = ([1; 0; 0; 0; 0], 1)
  | _ => False
  end.
Proof. vm_compute. reflexivity. Qed.

(** A lower depth: the get windows, of the present depth, are no longer the put
    windows, and the count of a dequeue overtakes that of the enqueues. *)
Example elastic_lpw_counts_overtake :
  match run 5000 (run_ops (exec_op (example_set 1 0))
      ([enq 1; enq 2; enq 3; enq 4; enq 5; UpdateDepth 1] ++ replicate 8 deq ++ [enq 6; deq; deq; deq; deq; enq 7; deq; deq; deq; deq]))
      (example_mem 1 4 1) example_thread with
  | Finished r g _ => dcount <$> put_array (subs g) = [7] /\ dcount <$> get_array (subs g) = [10]
  | _ => False
  end.
Proof. vm_compute. by split. Qed.
End examples.
