(* ===== verification/ElasticStack.v ===== *)
(** src/2Dc-stack_elastic-lpw: the 2Dc stack whose width and depth change at run
    time (2Dc-stack_elastic.c, 2Dc-window_elastic.c, lateral_stack.c).  One
    window serves pushes and pops; a stack of lateral nodes says up to which row
    the sub-stacks may have had another width.  [update_width] and
    [update_depth] change the windows to come. *)
From S2P Require Import Prelude Conc Random Thread Params StackHeap Shared SubStacks.

(** ** State *)

(** types.h: [row_t] has 32 bits, [depth_t], [width_t] and [version_t] 16. *)
Record window_t := mkWindow {
  max : Z;
  depth : Z;
  get_width : Z;
  put_width : Z;
  old_put_width : Z;
  version : Z;
  last_shift : Z;
}.

Record lateral_node_t := mkLat { lnext : Z; lnext_count : Z; lwidth : Z }.
Record lateral_descriptor_t := mkLdesc { lnode : Z; lcount : Z; lversion : Z }.

Record node_t := mkNode { next : Z; key : Z; val : Z; next_count : Z }.
Record descriptor_t := mkDesc { node : Z; count : Z }.

#[export] Instance window_eq_dec : EqDecision window_t.
Proof. solve_decision. Defined.
#[export] Instance lateral_descriptor_eq_dec : EqDecision lateral_descriptor_t.
Proof. solve_decision. Defined.
#[export] Instance edescriptor_eq_dec : EqDecision descriptor_t.
Proof. solve_decision. Defined.
#[export] Instance enode_ops : NodeOps node_t := {| n_val := val; n_next := next; n_pos _ _ := True |}.
#[export] Instance edescriptor_desc : Desc descriptor_t := {| d_node := node; d_ok _ _ := True |}.

(** The fields of [mstack_t] that do not change, without the array. *)
Record mstack_t := mkStack { random_hops : Z; relaxation_bound : Z; max_width : Z; k_mode : Z }.

(** [global_Window], the lateral stack with its nodes, and the fields [depth] and
    [width] of [mstack_t].  [wins], all the windows so far, the newest first, is
    a history variable. *)
Record globals := mkGlobals {
  global_Window : window_t;
  lateral : lateral_descriptor_t;
  lnodes : gmap Z lateral_node_t;
  sdepth : Z;
  swidth : Z;
  wins : list window_t;
}.

(** The thread-local variables of 2Dc-window_elastic.h. *)
Record windows := mkWindows {
  thread_Window : window_t;
  thread_put_index : Z;
  thread_get_index : Z;
}.

Notation estacks := (stacks descriptor_t node_t).
Notation estate := (shared globals estacks).
Notation ME := (prog estate (tls windows)).

Definition set_lateral (d : lateral_descriptor_t) (r : globals) : globals :=
  mkGlobals (global_Window r) d (lnodes r) (sdepth r) (swidth r) (wins r).
Definition set_lnodes (m : gmap Z lateral_node_t) (r : globals) : globals :=
  mkGlobals (global_Window r) (lateral r) m (sdepth r) (swidth r) (wins r).
Definition set_sdepth (v : Z) (r : globals) : globals :=
  mkGlobals (global_Window r) (lateral r) (lnodes r) v (swidth r) (wins r).
Definition set_swidth (v : Z) (r : globals) : globals :=
  mkGlobals (global_Window r) (lateral r) (lnodes r) (sdepth r) v (wins r).
Definition add_window (w : window_t) (r : globals) : globals :=
  mkGlobals w (lateral r) (lnodes r) (sdepth r) (swidth r) (w :: wins r).

Definition set_local_window (v : window_t) (w : windows) : windows :=
  mkWindows v (thread_put_index w) (thread_get_index w).
Definition set_put_index (i : Z) (w : windows) : windows :=
  mkWindows (thread_Window w) i (thread_get_index w).
Definition set_get_index (i : Z) (w : windows) : windows :=
  mkWindows (thread_Window w) (thread_put_index w) i.
Definition upd (f : windows -> windows) (l : tls windows) : tls windows :=
  set_thread_Window (f (Shared.thread_Window l)) l.

(** ** Operations *)

Section code.
Context {A : Allocator node_t} {LA : Allocator lateral_node_t}.
(** [junk]: what a shift finds in [new_window.last_shift], which nothing ever
    sets.  [padding i]: the padding of the array entries at the distance
    [16 * i + 8] from its start, see [substructures_count]. *)
Context (junk : tls windows -> Z) (padding : Z -> Z).

Definition my {B} (f : windows -> B) : ME B := get (fun l => f (Shared.thread_Window l)).
Definition load_g {B} (f : globals -> B) : ME B := load_var (fun g => f (window g)).
Definition load_version : ME Z := load_g (fun r => version (global_Window r)).
Definition read_desc (i : Z) : ME descriptor_t :=
  let* n := load_desc node i in
  let* c := load_desc count i in
  Ret (mkDesc n c).

(** *** lateral_stack.c *)

(** The fields of a lateral node do not change once it is in the lateral stack,
    so that one load of the node stands for loads of its fields. *)
Definition load_lat (a : Z) : ME lateral_node_t := load (fun g => lnodes (window g) !! a).

Definition create_lateral_node (nxt nxt_count width : Z) : ME Z :=
  Act (fun g l =>
    let a := alloc_addr (lnodes (window g)) in
    Some (a, set_window (set_lnodes (<[a := mkLat nxt nxt_count (u16 width)]> (lnodes (window g))) (window g)) g, l)) Ret.

(** The nodes from [node] to before [base_node], which are freed. *)
Definition free_nodes_until (node base_node : Z) : ME unit :=
  while (fun node =>
    if negb (node =? base_node) && negb (node =? 0) then
      let* n := load_lat node in continue (lnext n)
    else break tt) node.

(** [substructures[i].count]: [synchronize_lateral] is called with
    [set->set_array], an array of entries of 64 bytes, for its parameter of type
    [descriptor_t *], whose elements have 16 bytes. *)
Definition substructures_count (i : Z) : ME Z :=
  if i mod 4 =? 0 then load_desc count (i / 4) else Ret (padding i).

Definition push_wider_count (w : window_t) : ME Z :=
  while (fun '(i, max) =>
    if i <? old_put_width w then
      let* count := substructures_count i in
      continue (u16 (i + 1), if max <? u32 count then u32 count else max)
    else break max) (put_width w, 0).

Definition push_narrower_count (w : window_t) : Z := u32 (max w - depth w + 1).
Definition lower_narrower_count (w : window_t) : Z := u32 (max w - depth w + 1).

Definition lateral_new_count (w : window_t) (lateral_count lower_limit lateral_width put_width : Z) : Z :=
  if (put_width <? lateral_width) && negb (last_shift w =? 0) then
    let last_bottom := u32 (max w - Z.shiftr (depth w) 1) in
    if last_bottom <? lateral_count then last_bottom else lateral_count
  else if (lateral_width <=? put_width) && (lower_limit <? lateral_count) then lower_limit
  else lateral_count.

(** [update_tuple_t]. *)
Record update_tuple_t := mkTuple { tcount : Z; tnode : Z; tbase : Z }.

(** The recursion of [replace_lateral_node] down the lateral stack: the nodes
    passed, with their counts, the lowest first. *)
Definition replace_down (w : window_t) (node count : Z) : ME (Z * Z * list (Z * Z)) :=
  while (fun '(node, count, above) =>
    if count <? lower_narrower_count w then break (node, count, above)
    else
      let* n := load_lat node in
      continue (lnext n, lnext_count n, (node, count) :: above)) (node, count, []).

(** And after the recursive call has returned [next]. *)
Definition replace_node (w : window_t) (node count : Z) (next : update_tuple_t) : ME update_tuple_t :=
  let* n := load_lat node in
  let new_count := lateral_new_count w count (lower_narrower_count w) (lwidth n) (put_width w) in
  let same := (tnode next =? lnext n) && (tcount next =? lnext_count n) in
  if same && (new_count =? count) then Ret (mkTuple count node node)
  else if same && (new_count <=? lnext_count n) then Ret next
  else if same && (new_count <? count) then Ret (mkTuple new_count node node)
  else if new_count <=? lnext_count n then Ret next
  else
    let* a := create_lateral_node (tnode next) (tcount next) (lwidth n) in
    Ret (mkTuple new_count a (tbase next)).

Fixpoint replace_up (w : window_t) (above : list (Z * Z)) (next : update_tuple_t) : ME update_tuple_t :=
  match above with
  | [] => Ret next
  | (node, count) :: above =>
      let* r := replace_node w node count next in replace_up w above r
  end.

Definition replace_lateral_node (w : window_t) (node count : Z) : ME update_tuple_t :=
  let* (node, count, above) := replace_down w node count in
  replace_up w above (mkTuple count node node).

Definition push_lateral (node count new_count width : Z) : ME (Z * Z) :=
  let* a := create_lateral_node node count width in
  Ret (a, new_count).

Definition maybe_push_lateral (w : window_t) (node count : Z) : ME (Z * Z) :=
  if (old_put_width w <? put_width w) && (count <? push_narrower_count w) then
    push_lateral node count (push_narrower_count w) (old_put_width w)
  else if put_width w <? old_put_width w then
    let* upper_bound := push_wider_count w in
    if count <? upper_bound then push_lateral node count upper_bound (old_put_width w)
    else Ret (node, count)
  else Ret (node, count).

(** [CAE(&lateral->descriptor, &d, &new)]. *)
Definition cae_lateral (d new : lateral_descriptor_t) : ME bool :=
  update (fun g _ =>
    if decide (lateral (window g) = d) then Some (true, set_window (set_lateral new (window g)) g)
    else Some (false, g)).

(** The copy of the lateral descriptor is not atomic. *)
Definition synchronize_lateral : ME unit :=
  let* n := load_g (fun r => lnode (lateral r)) in
  let* c := load_g (fun r => lcount (lateral r)) in
  let* v := load_g (fun r => lversion (lateral r)) in
  let* gversion := load_version in
  let* w := my thread_Window in
  if negb (gversion =? version w) then Ret tt
  else if v =? version w then Ret tt
  else
    let* top := replace_lateral_node w n c in
    let* (node, count) :=
      (if negb (put_width w =? old_put_width w) then maybe_push_lateral w (tnode top) (tcount top)
       else Ret (tnode top, tcount top)) in
    if negb (count =? c) || negb (node =? n) then
      let* ok := cae_lateral (mkLdesc n c v) (mkLdesc node count (version w)) in
      if (ok : bool) then free_nodes_until n (tbase top) else free_nodes_until node (tbase top)
    else Ret tt.

(** [create_lateral_stack]: the address and the memory. *)
Definition create_lateral_stack (max_width : Z) : Z * gmap Z lateral_node_t :=
  let a := alloc_addr (∅ : gmap Z lateral_node_t) in
  (a, {[ a := mkLat 0 0 (u16 (max_width + 1)) ]}).

(** *** 2Dc-window_elastic.c *)

Definition random_index (w : Z) : ME Z := Shared.random_index 16 w.

Definition shift_width (bottom old_put_width new_put_width : Z) : ME Z :=
  let* n := load_g (fun r => lnode (lateral r)) in
  let* c := load_g (fun r => lcount (lateral r)) in
  let max_width := if old_put_width <=? new_put_width then new_put_width else old_put_width in
  while (fun '(nxt, nxt_count, max_width) =>
    if u32 (bottom + 1) <? nxt_count then
      let* n := load_lat nxt in
      continue (lnext n, lnext_count n, if max_width <? lwidth n then lwidth n else max_width)
    else break max_width) (n, c, max_width).

Definition put_shift_max (old_max new_depth : Z) : Z :=
  let shift := Z.shiftr (new_depth + 1) 1 in
  let new_max := u32 (old_max + shift) in
  if new_max <? new_depth then new_depth else new_max.

Definition get_shift_max (old_max new_depth old_depth : Z) : Z :=
  let shift := Z.shiftr (new_depth + 1) 1 in
  if old_depth =? new_depth then
    if shift + new_depth <=? old_max then u32 (old_max - shift) else new_depth
  else if old_depth + shift <=? old_max then u32 (old_max - old_depth - shift + new_depth)
  else new_depth.

(** Returns the new index, [random] and [hops]. *)
Definition hop (set : mstack_t) (index random hops width : Z) : ME (Z * Z * Z) :=
  put (count_stat inc_hop) ;;;
  if random <? random_hops set then
    let* index := random_index width in
    Ret (index, u8 (random + 1), hops)
  else
    let hops := u16 (hops + 1) in
    let index := u64 (index + 1) in
    Ret (if width <=? index then 0 else index, random, hops).

Definition sync_index (width index : Z) : Z := if u16 index <? width then u16 index else 0.
Definition sync_put_index : ME unit :=
  put (upd (fun w => set_put_index (sync_index (put_width (thread_Window w)) (thread_put_index w)) w)).
Definition sync_get_index : ME unit :=
  put (upd (fun w => set_get_index (sync_index (get_width (thread_Window w)) (thread_get_index w)) w)).

(** [__atomic_load] of the whole window. *)
Definition read_window : ME unit :=
  Act (fun g l => Some (tt, g, upd (set_local_window (global_Window (window g))) l)) Ret.

(** [CAE(&global_Window.content, &thread_Window, &new)]: on failure the thread's
    copy is overwritten with the global window. *)
Definition cae_window (new : window_t) : ME bool :=
  Act (fun g l =>
    if decide (global_Window (window g) = thread_Window (Shared.thread_Window l)) then
      Some (true, set_window (add_window new (window g)) g, l)
    else Some (false, g, upd (set_local_window (global_Window (window g))) l)) Ret.

(** The branch "shift window" of [put_window] and [get_window], which differ in
    the new maximum; without the synchronisation of the index. *)
Definition shift_window (shift_max : Z -> Z -> Z -> Z) : ME unit :=
  synchronize_lateral ;;;
  let* w := my thread_Window in
  let* new_put_width := load_g swidth in
  let* new_depth := load_g sdepth in
  let new_max := shift_max (max w) new_depth (depth w) in
  let* new_get_width := shift_width (u32 (new_max - new_depth)) (put_width w) new_put_width in
  let* j := get junk in
  let new_window := mkWindow new_max new_depth new_get_width new_put_width (put_width w) (u16 (version w + 1)) j in
  assert_ (new_depth <=? new_max) ;;;
  let* gversion := load_version in
  if version w =? gversion then
    let* ok := cae_window new_window in
    if (ok : bool) then
      put (upd (set_local_window new_window)) ;;; put (count_stat inc_slide)
    else
      read_window ;;; put (count_stat inc_slide_fail)
  else Ret tt.

Definition put_window_body (set : mstack_t) '((hops, random) : Z * Z) : ME (Z * Z + descriptor_t) :=
  let* index := my thread_put_index in
  let* descriptor := read_desc index in
  let* gversion := load_version in
  let* w := my thread_Window in
  if negb (gversion =? version w) then
    read_window ;;; sync_put_index ;;; continue (0, random)
  else if count descriptor <? max w then
    let* get_index := my thread_get_index in
    (if get_index <? put_width w then put (upd (set_get_index index)) else Ret tt) ;;;
    break descriptor
  else if negb (hops =? put_width w) then
    let* (index, random, hops) := hop set index random hops (put_width w) in
    put (upd (set_put_index index)) ;;;
    continue (hops, random)
  else
    shift_window (fun m d _ => put_shift_max m d) ;;;
    sync_put_index ;;;
    continue (0, random).

Definition put_window (set : mstack_t) (contention : bool) : ME descriptor_t :=
  (let* w := my thread_Window in
   let* gversion := load_version in
   if negb (version w =? gversion) then read_window ;;; sync_put_index else Ret tt) ;;;
  (let* index := my thread_put_index in
   let* w := my thread_Window in
   if contention || (put_width w <=? index) then
     let* r := random_index (put_width w) in put (upd (set_put_index r))
   else Ret tt) ;;;
  while (put_window_body set) (0, 0).

Definition get_window_body (set : mstack_t) '((hops, random, empty) : Z * Z * bool)
    : ME (Z * Z * bool + descriptor_t) :=
  let* index := my thread_get_index in
  let* descriptor := read_desc index in
  let* gversion := load_version in
  let* w := my thread_Window in
  if negb (gversion =? version w) then
    read_window ;;; sync_get_index ;;; continue (0, random, true)
  else if u32 (max w - depth w) <? count descriptor then
    break descriptor
  else if negb (hops =? get_width w) then
    let empty := if 0 <? count descriptor then false else empty in
    let* (index, random, hops) := hop set index random hops (get_width w) in
    put (upd (set_get_index index)) ;;;
    continue (hops, random, empty)
  else if (empty : bool) then
    break descriptor
  else
    shift_window get_shift_max ;;;
    sync_get_index ;;;
    continue (0, random, true).

Definition get_window (set : mstack_t) (contention : bool) : ME descriptor_t :=
  (let* w := my thread_Window in
   let* gversion := load_version in
   if negb (version w =? gversion) then read_window ;;; sync_get_index else Ret tt) ;;;
  (let* index := my thread_get_index in
   let* w := my thread_Window in
   if contention || (get_width w <=? index) then
     let* r := random_index (get_width w) in put (upd (set_get_index r))
   else Ret tt) ;;;
  let* descriptor := while (get_window_body set) (0, 0, true) in
  put (upd (fun w => if thread_get_index w <? put_width (thread_Window w)
                     then set_put_index (thread_get_index w) w else w)) ;;;
  Ret descriptor.

Definition initialize_global_window (depth width : Z) : window_t :=
  mkWindow depth depth width width width 1 0.

(** *** 2Dc-stack_elastic.c *)

(** [next_count] is not initialised here; [push] sets it. *)
Definition create_node (key val next : Z) : ME Z := alloc_node (mkNode next key val 0).

Definition stack_cae (i : Z) (d new : descriptor_t) (push : bool) : ME bool := cae_desc i d new push.

(** The count of a pushed node. *)
Definition push_count (w : window_t) (count : Z) : Z :=
  if max w <=? u64 (count + depth w) then u64 (count + 1) else u32 (max w - depth w).

Definition push_body (set : mstack_t) (new_node : Z) (contention : bool) : ME (bool + Z) :=
  let* descriptor := put_window set contention in
  store_node new_node (fun n => mkNode (node descriptor) (key n) (val n) (next_count n)) ;;;
  store_node new_node (fun n => mkNode (next n) (key n) (val n) (u32 (count descriptor))) ;;;
  let* w := my thread_Window in
  let* index := my thread_put_index in
  let* ok := stack_cae index descriptor (mkDesc new_node (push_count w (count descriptor))) true in
  if ok then break 1
  else put (count_stat inc_put_cas_fail) ;;; continue true.

Definition push (set : mstack_t) (key val : Z) : ME Z :=
  let* new_node := create_node key val 0 in
  while (push_body set new_node) false.

Definition pop_body (set : mstack_t) (contention : bool) : ME (bool + Z) :=
  let* descriptor := get_window set contention in
  if negb (node descriptor =? 0) then
    let* nxt := load_node next (node descriptor) in
    let* cnt := load_node next_count (node descriptor) in
    let* index := my thread_get_index in
    let* ok := stack_cae index descriptor (mkDesc nxt cnt) false in
    if ok then
      let* node_val := load_node val (node descriptor) in
      break node_val
    else put (count_stat inc_get_cas_fail) ;;; continue true
  else
    put (count_stat inc_null) ;;; break 0.

Definition pop (set : mstack_t) : ME Z := while (pop_body set) false.

Definition stack_size (set : mstack_t) : ME Z := stacks_size (max_width set).

(** A loop until the compare-and-exchange of the field succeeds. *)
Definition cae_field (f : globals -> Z) (set_f : Z -> globals -> globals) (old new : Z) : ME (bool * Z) :=
  update (fun g _ =>
    if decide (f (window g) = old) then Some ((true, old), set_window (set_f new (window g)) g)
    else Some ((false, f (window g)), g)).
Definition replace_field (f : globals -> Z) (set_f : Z -> globals -> globals) (old new : Z) : ME Z :=
  while (fun old =>
    let* (ok, old) := cae_field f set_f old new in
    if (ok : bool) then break old else continue old) old.

Definition update_depth (depth : Z) : ME Z :=
  let* old_depth := load_g sdepth in
  replace_field sdepth set_sdepth old_depth depth.

Definition update_width (set : mstack_t) (width : Z) : ME Z :=
  let* old_width := load_g swidth in
  assert_ (width <=? max_width set) ;;;
  replace_field swidth set_swidth old_width width.

(** [create_stack]; [None]: signed overflow or division by zero. *)
Definition create_stack (num_threads width depth max_width k_mode relaxation_bound : Z)
    : option (mstack_t * estate) :=
  p ← calculate 2 16 16 (product_int 2) num_threads width depth k_mode relaxation_bound;
  let max_width := if max_width <? p_width p then p_width p else max_width in
  let w := initialize_global_window (p_depth p) (p_width p) in
  let '(a, m) := create_lateral_stack max_width in
  Some (mkStack 2 (p_bound p) max_width k_mode,
    mkShared (mkGlobals w (mkLdesc a 0 0) m (p_depth p) (p_width p) [w])
      (mkStacks (replicate (Z.to_nat max_width) (mkDesc 0 0)) (mkMem ∅ ∅) [])).

(** A client's calls. *)
Inductive eop := StackOp (o : op) | UpdateDepth (v : Z) | UpdateWidth (v : Z).

Definition exec_op (set : mstack_t) (o : eop) : ME Z :=
  match o with
  | StackOp (DoPush k v) => push set k v
  | StackOp DoPop => pop set
  | UpdateDepth v => update_depth v
  | UpdateWidth v => update_width set v
  end.
End code.

(** A thread's variables are zero when it starts. *)
Definition window0 : window_t := mkWindow 0 0 0 0 0 0 0.
Definition windows0 : windows := mkWindows window0 0 0.
