(* ===== verification/ElasticStackRuns.v ===== *)
(** The elastic stack (src/2Dc-stack_elastic-lpw) among other threads: its
    window and its lateral stack, its operations, and whole executions. *)
From S2P Require Import Prelude Conc Random Thread Params StackHeap Shared SubStacks ElasticStack.

Section protocol.
Context (set : mstack_t).
Notation mw := (max_width set).

Definition set_ok : Prop := 1 <= mw < 2 ^ 16 - 1.

(** [get_width] can be one too large: the width of the node at the bottom of the
    lateral stack. *)
Record win_ok (w : window_t) : Prop := mkWinOk {
  wo_depth : 1 <= depth w < 2 ^ 16;
  wo_max : depth w <= max w;
  wo_get : 1 <= get_width w <= mw + 1;
  wo_put : 1 <= put_width w <= mw;
  wo_old : 1 <= old_put_width w <= mw;
}.

(** The windows are numbered; each lies less than [2^16] above the one before. *)
Fixpoint wins_ok (ws : list window_t) : Prop :=
  match ws with
  | [] => True
  | w :: ws => win_ok w /\ version w = Z.of_nat (S (length ws)) /\
      max w <= 2 ^ 16 * Z.of_nat (S (length ws)) /\ wins_ok ws
  end.

Lemma wins_ok_in ws w :
  wins_ok ws -> w ∈ ws ->
  win_ok w /\ 1 <= version w <= Z.of_nat (length ws) /\ max w <= 2 ^ 16 * Z.of_nat (length ws).
Proof.
  induction ws as [|x ws IH]; cbn [wins_ok length]; intros Hws Hin; [by apply elem_of_nil in Hin|].
  destruct Hws as (Hx & Hv & Hm & Hws). apply elem_of_cons in Hin as [->|Hin].
  - split; [done|]. lia.
  - destruct (IH Hws Hin) as (? & ? & ?). split; [done|]. lia.
Qed.

(** A link of the lateral stack: there is nothing below the last node. *)
Definition link_ok (m : gmap Z lateral_node_t) (a c : Z) : Prop :=
  is_Some (m !! a) \/ a = 0 /\ c = 0.
Definition lats_ok (m : gmap Z lateral_node_t) : Prop :=
  forall a n, m !! a = Some n -> link_ok m (lnext n) (lnext_count n) /\ 1 <= lwidth n <= mw + 1.

Lemma link_ok_subset m m' a c : m ⊆ m' -> link_ok m a c -> link_ok m' a c.
Proof. intros Hs [[n E]|?]; [left|by right]. exists n. by eapply lookup_weaken. Qed.

Lemma lats_ok_insert m a n :
  lats_ok m -> m !! a = None -> link_ok m (lnext n) (lnext_count n) -> 1 <= lwidth n <= mw + 1 ->
  lats_ok (<[a := n]> m).
Proof.
  intros Hm Ha Hl Hw b x Hb. assert (Hs : m ⊆ <[a := n]> m) by by apply insert_subseteq.
  apply lookup_insert_Some in Hb as [[<- <-]|[_ Hb]].
  - split; [by apply (link_ok_subset m)|done].
  - destruct (Hm b x Hb). split; [by apply (link_ok_subset m)|done].
Qed.

(** [fixed]: the width if nothing ever changes it. *)
Context (fixed : option Z).

Record globals_ok (r : globals) : Prop := mkGlobalsOk {
  go_last : head (wins r) = Some (global_Window r);
  go_wins : wins_ok (wins r);
  go_depth : 1 <= sdepth r < 2 ^ 16;
  go_width : 1 <= swidth r <= mw;
  go_lats : lats_ok (lnodes r);
  go_top : is_Some (lnodes r !! lnode (lateral r));
  go_fixed : forall w0, fixed = Some w0 -> swidth r = w0 /\ lcount (lateral r) = 0 /\
    forall w, w ∈ wins r -> get_width w = w0 /\ put_width w = w0 /\ old_put_width w = w0;
}.

(** No window reaches past the arrays, and the version of the window has not
    wrapped around. *)
Definition in_arrays (r : globals) : Prop :=
  Z.of_nat (length (wins r)) < 2 ^ 16 - 1 /\ Forall (fun w => get_width w <= mw) (wins r).

Definition wprot : protocol globals :=
  {| p_inv := globals_ok;
     p_rely _ r r' := wins r `suffix_of` wins r' /\ lnodes r ⊆ lnodes r';
     p_guar _ r r' := wins r `suffix_of` wins r' /\ lnodes r ⊆ lnodes r';
     p_ok := in_arrays;
     p_total := false |}.

#[export] Instance wprot_laws : ProtocolLaws wprot.
Proof.
  split; cbn; try done.
  intros _ r1 r2 r3 [] []. split; by etrans.
Qed.

Definition eprot : protocol estate := joint wprot (sprot mw (2 ^ 63)).

Lemma fixed_in_arrays r w0 :
  globals_ok r -> fixed = Some w0 -> Forall (fun w => get_width w <= mw) (wins r).
Proof.
  intros Hr E. apply Forall_forall. intros w Hw. destruct (go_fixed r Hr w0 E) as (Es & _ & H).
  destruct (H w Hw) as [-> _]. pose proof (go_width r Hr). lia.
Qed.
End protocol.
#[export] Existing Instance wprot_laws.

(** ** The window and the lateral stack *)

Section window.
Context {A : Allocator node_t} {LA : Allocator lateral_node_t}.
Context (junk : tls windows -> Z) (padding : Z -> Z).
Context (set : mstack_t) (Hset : set_ok set) (fixed : option Z) (t : nat).
Notation mw := (max_width set).
Notation B := (eprot set fixed).
Notation Wins g := (wins (window g)).
Notation Lats g := (lnodes (window g)).
Notation tw l := (thread_Window (Shared.thread_Window l)).
Notation put_index l := (thread_put_index (Shared.thread_Window l)).
Notation get_index l := (thread_get_index (Shared.thread_Window l)).
Notation mine g := (events_of t (hist (subs g))).
Implicit Types (g : estate) (l : tls windows) (w : window_t).

(** What a thread knows between its steps: its window is one of those so far. *)
Record thread_ok g l : Prop := mkThreadOk {
  to_id : thread_id l = t;
  to_in : tw l ∈ Wins g;
  to_win : win_ok set (tw l);
  to_put : 0 <= put_index l;
  to_get : 0 <= get_index l;
}.

Lemma rely_wins g g' w : p_rely B t g g' -> w ∈ Wins g -> w ∈ Wins g'.
Proof. intros [[[k ->] _] _] Hw. apply elem_of_app. by right. Qed.
Lemma rely_lats g g' : p_rely B t g g' -> Lats g ⊆ Lats g'.
Proof. by intros [[_ H] _]. Qed.
Lemma rely_mine g g' : p_rely B t g g' -> mine g' = mine g.
Proof. by intros [_ (_ & _ & ?)]. Qed.

Lemma thread_ok_rely g g' l : p_rely B t g g' -> thread_ok g l -> thread_ok g' l.
Proof. intros R []. split; try done. by apply (rely_wins g). Qed.

Lemma thread_ok_index g l i l' :
  thread_ok g l -> thread_id l' = thread_id l -> tw l' = tw l ->
  put_index l' = put_index l \/ put_index l' = i -> get_index l' = get_index l \/ get_index l' = i -> 0 <= i ->
  thread_ok g l'.
Proof. intros [H1 H2 H3 H4 H5] E1 E2 E3 E4 Hi. split; rewrite ?E1, ?E2; try done; lia. Qed.

Lemma current_in g : p_inv B g -> global_Window (window g) ∈ Wins g.
Proof.
  intros [H _]. pose proof (go_last _ _ _ H) as E. destruct (Wins g); [done|].
  injection E as ->. by left.
Qed.

(** What the bound says of a window. *)
Lemma win_bounds g w :
  p_inv B g -> p_ok B g -> w ∈ Wins g ->
  win_ok set w /\ get_width w <= mw /\ 1 <= version w < 2 ^ 16 - 1 /\ max w <= 2 ^ 16 * (2 ^ 16 - 2).
Proof.
  intros [HI _] [[Hlen Hf] _] Hin. destruct (wins_ok_in set _ w (go_wins _ _ _ HI) Hin) as (Hw & Hv & Hm).
  rewrite Forall_forall in Hf. split; [done|]. split; [by apply Hf|]. lia.
Qed.

(** A program that begins with an access may assume what holds at that access. *)
Lemma wp_peek {X Y} p f (k : Y -> ME X) (Q : X -> estate -> tls windows -> Prop) g l :
  p = Act f k ->
  (forall g1, p_rely B t g g1 -> p_inv B g1 -> p_ok B g1 -> wp B t p Q g1 l) -> wp B t p Q g l.
Proof. intros -> H g1 R I O. apply (H g1 R I O); [apply rely_refl|done|done]. Qed.

Lemma wp_load_g {X} (f : globals -> X) (Q : X -> estate -> tls windows -> Prop) g l :
  (forall g1, p_rely B t g g1 -> p_inv B g1 -> p_ok B g1 -> Q (f (window g1)) g1 l) -> wp B t (load_g f) Q g l.
Proof. intros H. apply wp_load_var; [apply _|]. intros. by apply H. Qed.

Lemma wp_my {X} (f : windows -> X) (Q : X -> estate -> tls windows -> Prop) g l :
  Q (f (Shared.thread_Window l)) g l -> wp B t (my f) Q g l.
Proof. done. Qed.

Lemma wp_load_lat a (Q : lateral_node_t -> estate -> tls windows -> Prop) g l :
  is_Some (Lats g !! a) ->
  (forall n g1, p_rely B t g g1 -> p_inv B g1 -> p_ok B g1 -> Lats g1 !! a = Some n -> Q n g1 l) ->
  wp B t (load_lat a) Q g l.
Proof.
  intros [n E] HQ. apply wp_load; [apply _|]. intros g1 R1 I1 O1.
  assert (E1 : Lats g1 !! a = Some n) by by eapply lookup_weaken, rely_lats.
  exists n. split; [done|]. by apply HQ.
Qed.

(** A change of the window's part of the memory. *)
Lemma win_step g r :
  p_inv B g -> globals_ok set fixed r -> Wins g `suffix_of` wins r -> Lats g ⊆ lnodes r ->
  p_guar B t g (set_window r g) /\ p_inv B (set_window r g).
Proof. intros [_ Hs] Hr Hw Hl. split; [split; [done|apply guar_refl]|by split]. Qed.

Lemma wp_create_lateral_node nxt c wd (Q : Z -> estate -> tls windows -> Prop) g l :
  link_ok (Lats g) nxt c -> 1 <= wd <= mw + 1 ->
  (forall a g1, p_rely B t g g1 -> p_inv B g1 -> is_Some (Lats g1 !! a) -> Q a g1 l) ->
  wp B t (create_lateral_node nxt c wd) Q g l.
Proof.
  intros Hl Hwd HQ g1 R1 I1 _. cbv zeta. destruct Hset.
  set (a := alloc_addr (Lats g1)). destruct (alloc_addr_ok (Lats g1)) as [_ Ha]. fold a in Ha.
  rewrite (wrap_small 16 wd) by lia. set (r := set_lnodes _ _).
  assert (Hr : globals_ok set fixed r).
  { destruct I1 as [[H1 H2 H3 H4 H5 H6 H7] _]. split; try done; cbn [set_lnodes lnodes lateral r].
    - apply lats_ok_insert; try done. eapply link_ok_subset; [by apply rely_lats|done].
    - destruct (decide (lnode (lateral (window g1)) = a)) as [->|];
        [rewrite lookup_insert_eq|rewrite lookup_insert_ne by done]; done. }
  assert (Hs : Lats g1 ⊆ lnodes r) by by apply insert_subseteq.
  destruct (win_step g1 r I1 Hr ltac:(done) Hs) as [HG HI].
  split; [exact HG|split; [exact HI|]]. apply HQ; [|exact HI|].
  - destruct R1 as [[? ?] R1]. split; [split; [done|]|exact R1]. cbn. by etrans.
  - cbn. rewrite lookup_insert_eq. by eexists.
Qed.

(** The memory has moved on from [g]. *)
Definition later g g' : Prop := p_rely B t g g' /\ p_inv B g'.
Lemma later_refl g : p_inv B g -> later g g.
Proof. split; [apply rely_refl|done]. Qed.
Lemma later_rely g g' g'' : later g g' -> p_rely B t g' g'' -> p_inv B g'' -> later g g''.
Proof. intros [R _] R' I'. split; [by eapply rely_trans|done]. Qed.
Lemma later_trans g g' g'' : later g g' -> later g' g'' -> later g g''.
Proof. intros H [R I]. by eapply later_rely. Qed.
Lemma later_lats g g' : later g g' -> Lats g ⊆ Lats g'.
Proof. intros [R _]. by apply rely_lats. Qed.
Lemma later_link g g' a c : later g g' -> link_ok (Lats g) a c -> link_ok (Lats g') a c.
Proof. intros H. apply link_ok_subset. by apply later_lats. Qed.
Lemma later_node g g' a : later g g' -> is_Some (Lats g !! a) -> is_Some (Lats g' !! a).
Proof. intros H [n E]. exists n. by eapply lookup_weaken, later_lats. Qed.
#[local] Hint Resolve later_refl later_rely later_trans : core.

Lemma lat_links g a n : p_inv B g -> Lats g !! a = Some n ->
  link_ok (Lats g) (lnext n) (lnext_count n) /\ 1 <= lwidth n <= mw + 1.
Proof. intros [H _] E. by apply (go_lats _ _ _ H a). Qed.

Lemma wp_read_desc i (Q : descriptor_t -> estate -> tls windows -> Prop) g l :
  (forall g1, later g g1 -> p_ok B g1 -> 0 <= i < mw) ->
  (forall d g1, later g g1 -> p_ok B g1 -> ptr_ok (heap (subs g1)) (node d) -> Q d g1 l) ->
  wp B t (read_desc i) Q g l.
Proof.
  intros Hi HQ. unfold read_desc. wp_local. eapply wp_peek; [reflexivity|]. intros g0 R0 I0 O0.
  specialize (Hi g0 (conj R0 I0) O0).
  apply (wp_desc_field (wprot set fixed) mw (2 ^ 63) B t); [done|]. intros g1 d1 R1 I1 _ E1. wp_local.
  apply (wp_desc_field (wprot set fixed) mw (2 ^ 63) B t); [done|]. intros g2 d2 R2 I2 O2 _. wp_local.
  apply HQ; [|done|].
  - split; [|done]. apply (rely_trans (P := B) t g g0); [done|]. by apply (rely_trans (P := B) t g0 g1).
  - eapply (ptr_ok_rely (wprot set fixed) mw (2 ^ 63) B t); [exact R2|].
    exact (top_ptr_ok (wprot set fixed) mw (2 ^ 63) B t g1 i d1 I1 (proj1 Hi) E1).
Qed.

Lemma wp_free_nodes a b (Q : unit -> estate -> tls windows -> Prop) g l :
  p_inv B g -> is_Some (Lats g !! a) \/ a = 0 -> (forall g1, later g g1 -> Q tt g1 l) ->
  wp B t (free_nodes_until a b) Q g l.
Proof.
  intros HI Ha HQ.
  apply (wp_while B t _ _ _ _ (fun _ a g' l' => l' = l /\ later g g' /\ (is_Some (Lats g' !! a) \/ a = 0)) 0%nat).
  - split; [done|split; [by apply later_refl|done]].
  - intros n c g1 l1 (-> & L1 & Hc). destruct (Z.eqb_spec c 0) as [E|E].
    { rewrite Bool.andb_false_r. wp_locals. by apply HQ. }
    destruct (Z.eqb_spec c b) as [Eb|Eb]; cbn [negb andb]; [wp_locals; by apply HQ|].
    wp_local. apply wp_load_lat; [by destruct Hc|]. intros x g2 R2 I2 _ Ex. wp_locals.
    exists 0%nat. split; [done|]. split; [done|split; [by eapply later_rely|]].
    destruct (lat_links g2 c x I2 Ex) as [[?|[? _]] _]; [by left|by right].
Qed.

Lemma wp_substructures i (Q : Z -> estate -> tls windows -> Prop) g l :
  p_inv B g -> 1 <= i < mw -> (forall c g1, later g g1 -> Q c g1 l) -> wp B t (substructures_count padding i) Q g l.
Proof.
  intros HI Hi HQ. unfold substructures_count. destruct (i mod 4 =? 0); [|wp_local; by apply HQ, later_refl].
  apply (wp_desc_field (wprot set fixed) mw (2 ^ 63) B t).
  - pose proof (Z.div_lt i 4). pose proof (Z.div_pos i 4). lia.
  - intros g1 d R1 I1 _ _. by apply HQ.
Qed.

Lemma wp_push_wider w (Q : Z -> estate -> tls windows -> Prop) g l :
  p_inv B g -> win_ok set w -> (forall c g1, later g g1 -> Q c g1 l) -> wp B t (push_wider_count padding w) Q g l.
Proof.
  intros HI [_ _ _ Hp Ho] HQ.
  destruct Hset as [_ Hmw].
  apply (wp_while B t _ _ _ _ (fun _ c g' l' => l' = l /\ later g g' /\ 1 <= c.1) 0%nat).
  - split; [done|split; [by apply later_refl|]]. cbn. lia.
  - intros n [i m] g1 l1 (-> & L1 & Hi). cbn [fst] in Hi. destruct (Z.ltb_spec i (old_put_width w)) as [Hlt|Hge].
    + wp_local. apply wp_substructures; [apply L1|lia|]. intros c g2 L2. wp_locals.
      exists 0%nat. split; [done|]. split; [done|split; [by eapply later_trans|]]. cbn [fst]. rewrite wrap_small by lia. lia.
    + wp_locals. by apply HQ.
Qed.

(** *** Replacing nodes of the lateral stack *)

Lemma lower_limit_pos w : win_ok set w -> max w < 2 ^ 32 - 1 -> 1 <= lower_narrower_count w.
Proof. intros [] Hm. unfold lower_narrower_count. rewrite wrap_small; lia. Qed.

Lemma new_count_pos w c lim lw pw :
  win_ok set w -> max w < 2 ^ 32 -> 1 <= c -> 1 <= lim -> 1 <= lateral_new_count w c lim lw pw.
Proof.
  intros [Hd Hx _ _ _] Hm Hc Hl. unfold lateral_new_count. rewrite Z.shiftr_div_pow2 by lia.
  change (2 ^ 1) with 2. pose proof (Z.div_lt (depth w) 2). pose proof (Z.div_pos (depth w) 2).
  rewrite (wrap_small 32 (max w - depth w / 2)) by lia.
  repeat match goal with |- context [if ?b then _ else _] => destruct b end; lia.
Qed.

(** What [replace_down] returns: the node below those passed is where the last
    of them points. *)
Definition passed (m : gmap Z lateral_node_t) (node0 count0 node count : Z) (above : list (Z * Z)) : Prop :=
  Forall (fun x => is_Some (m !! x.1) /\ 1 <= x.2) above /\
  match above with
  | [] => node = node0 /\ count = count0
  | (a, _) :: _ => exists n, m !! a = Some n /\ node = lnext n /\ count = lnext_count n
  end.

Lemma passed_subset m m' a0 c0 a c above : m ⊆ m' -> passed m a0 c0 a c above -> passed m' a0 c0 a c above.
Proof.
  intros Hs [H1 H2]. split.
  - eapply Forall_impl; [exact H1|]. intros [b k] [[n E] Hk]. split; [exists n; by eapply lookup_weaken|done].
  - destruct above as [|[b k] above]; [done|]. destruct H2 as (n & E & H2). exists n. split; [by eapply lookup_weaken|done].
Qed.

Lemma wp_replace_down w a0 c0 (Q : Z * Z * list (Z * Z) -> estate -> tls windows -> Prop) g l :
  p_inv B g -> 1 <= lower_narrower_count w -> is_Some (Lats g !! a0) ->
  (forall a c above g1, later g g1 -> passed (Lats g1) a0 c0 a c above ->
     (c0 < lower_narrower_count w -> above = []) -> Q (a, c, above) g1 l) ->
  wp B t (replace_down w a0 c0) Q g l.
Proof.
  intros HI Hlim Ha0 HQ.
  apply (wp_while B t _ _ _ _ (fun _ '(a, c, above) g' l' => l' = l /\ later g g' /\
    passed (Lats g') a0 c0 a c above /\ (c0 < lower_narrower_count w -> above = [])) 0%nat).
  - split; [done|split; [by apply later_refl|split; [by split|done]]].
  - intros n [[a c] above] g1 l1 (-> & L1 & Hp & Habove).
    destruct (Z.ltb_spec c (lower_narrower_count w)) as [Hlt|Hge]; [wp_locals; by apply HQ|].
    assert (Ha : is_Some (Lats g1 !! a)).
    { destruct Hp as [_ Hp]. destruct above as [|[b k] above].
      - destruct Hp as [-> ->]. by eapply later_node.
      - destruct Hp as (x & E & -> & ->). by destruct (lat_links g1 b x (proj2 L1) E) as [[?|[_ ?]] _]; [|lia]. }
    wp_local. apply wp_load_lat; [done|]. intros x g2 R2 I2 _ Ex. wp_locals.
    exists 0%nat. split; [done|]. split; [done|split; [by eapply later_rely|]]. split.
    + split; [constructor; [split; [by exists x|cbn; lia]|]|by exists x].
      eapply passed_subset in Hp; [apply Hp|]. by apply rely_lats.
    + intros Hlt. destruct Hp as [_ Hp]. rewrite (Habove Hlt) in Hp. lia.
Qed.

(** The tuple of the node below: its own address, or a node. *)
Definition tuple_ok (m : gmap Z lateral_node_t) (r : update_tuple_t) : Prop := is_Some (m !! tnode r).

Lemma wp_replace_node w a c nx (Q : update_tuple_t -> estate -> tls windows -> Prop) g l :
  p_inv B g -> win_ok set w -> max w < 2 ^ 32 - 1 -> is_Some (Lats g !! a) -> 1 <= c ->
  tuple_ok (Lats g) nx \/ (exists n, Lats g !! a = Some n /\ tnode nx = lnext n /\ tcount nx = lnext_count n) ->
  (forall r g1, later g g1 -> tuple_ok (Lats g1) r -> Q r g1 l) ->
  wp B t (replace_node w a c nx) Q g l.
Proof.
  intros HI Hw Hm Ha Hc Hnx HQ. unfold replace_node. wp_local. apply wp_load_lat; [done|].
  intros n g1 R1 I1 _ En. cbv zeta. pose proof (conj R1 I1 : later g g1) as L1.
  assert (Ha1 : tuple_ok (Lats g1) (mkTuple 0 a 0)) by by exists n.
  pose proof (lower_limit_pos w Hw Hm) as Hlim.
  pose proof (new_count_pos w c (lower_narrower_count w) (lwidth n) (put_width w) Hw ltac:(lia) Hc Hlim) as Hnew.
  set (nc := lateral_new_count _ _ _ _ _) in *. destruct (lat_links g1 a n I1 En) as [Hlink Hwd].
  assert (Hnl : link_ok (Lats g1) (tnode nx) (tcount nx) /\ (tuple_ok (Lats g1) nx \/
    (tnode nx =? lnext n) && (tcount nx =? lnext_count n) = true /\ lnext_count n = 0)).
  { destruct Hnx as [Hnx|(n' & En' & E1 & E2)].
    { apply (later_node g g1 _ L1) in Hnx. split; by left. }
    assert (n' = n) as -> by (eapply lookup_weaken in En'; [|by apply rely_lats]; congruence).
    rewrite E1, E2, !Z.eqb_refl. split; [done|].
    destruct Hlink as [Hl|[E0 E0']]; [left; unfold tuple_ok; by rewrite E1|by right]. }
  destruct Hnl as [Hnl Hcase]. clear Hnx.
  assert (Hret : nc <=? lnext_count n = true -> Q nx g1 l).
  { intros E. apply Z.leb_le in E. apply HQ; [done|]. destruct Hcase as [?|[_ ?]]; [done|lia]. }
  repeat match goal with |- context [if ?b then _ else _] =>
    destruct b eqn:?; [wp_locals; (by apply HQ) || (apply Hret; by destruct (andb_prop _ _ ltac:(eassumption))) || by apply Hret|] end.
  wp_local. apply wp_create_lateral_node; [done|done|]. intros b g2 R2 I2 Hb. wp_locals.
  apply HQ; [by eapply later_rely|done].
Qed.

Lemma wp_replace_up w above : forall nx (Q : update_tuple_t -> estate -> tls windows -> Prop) g l,
  p_inv B g -> win_ok set w -> max w < 2 ^ 32 - 1 -> Forall (fun x => is_Some (Lats g !! x.1) /\ 1 <= x.2) above ->
  tuple_ok (Lats g) nx \/ (exists a c above' n, above = (a, c) :: above' /\
    Lats g !! a = Some n /\ tnode nx = lnext n /\ tcount nx = lnext_count n) ->
  (forall r g1, later g g1 -> tuple_ok (Lats g1) r -> (above = [] -> r = nx) -> Q r g1 l) ->
  wp B t (replace_up w above nx) Q g l.
Proof.
  induction above as [|[a c] above IH]; intros nx Q g l HI Hw Hm Hall Hnx HQ; cbn [replace_up].
  - wp_local. apply HQ; [by apply later_refl| |done]. by destruct Hnx as [?|(?&?&?&?&?&_)].
  - apply Forall_cons in Hall as [[Ha Hc] Hall]. wp_local. apply wp_replace_node; try done.
    { destruct Hnx as [?|(a' & c' & above' & n & [= -> -> ->] & H)]; [by left|right; by exists n]. }
    intros r g1 L1 Hr. apply IH; [apply L1|done|done| |by left|].
    + eapply Forall_impl; [exact Hall|]. intros [b k] [Hb Hk]. split; [by eapply later_node|done].
    + intros r' g2 L2 Hr' _. apply HQ; [by eapply later_trans|done|done].
Qed.

(** The result is a node; a stack that lies too low is left as it is. *)
Lemma wp_replace_lateral w a0 c0 (Q : update_tuple_t -> estate -> tls windows -> Prop) g l :
  p_inv B g -> win_ok set w -> max w < 2 ^ 32 - 1 -> is_Some (Lats g !! a0) ->
  (forall r g1, later g g1 -> tuple_ok (Lats g1) r -> (c0 = 0 -> r = mkTuple c0 a0 a0) -> Q r g1 l) ->
  wp B t (replace_lateral_node w a0 c0) Q g l.
Proof.
  intros HI Hw Hm Ha0 HQ. pose proof (lower_limit_pos w Hw Hm) as Hlim. unfold replace_lateral_node. wp_local.
  apply wp_replace_down; [done|done|done|]. intros a c above g1 L1 [Hall Hp] Habove.
  apply wp_replace_up; [apply L1|done|done|done| |].
  - destruct above as [|[b k] above].
    + left. destruct Hp as [-> ->]. by eapply (later_node g).
    + right. destruct Hp as (n & ? & ? & ?). by exists b, k, above, n.
  - intros r g2 L2 Hr Hnil. apply HQ; [by eapply later_trans|done|]. intros E.
    rewrite (Hnil (Habove ltac:(lia))). rewrite (Habove ltac:(lia)) in Hp. by destruct Hp as [-> ->].
Qed.

Lemma wp_maybe_push w a c (Q : Z * Z -> estate -> tls windows -> Prop) g l :
  p_inv B g -> win_ok set w -> is_Some (Lats g !! a) ->
  (forall a' c' g1, later g g1 -> is_Some (Lats g1 !! a') -> Q (a', c') g1 l) ->
  wp B t (maybe_push_lateral padding w a c) Q g l.
Proof.
  intros HI Hw Ha HQ. pose proof Hw as [_ _ _ _ Ho].
  assert (Hpush : forall k g1, later g g1 ->
    wp B t (push_lateral a c k (old_put_width w)) Q g1 l).
  { intros k g1 L1. unfold push_lateral. wp_local. apply wp_create_lateral_node; [left; by eapply later_node|lia|].
    intros b g2 R2 I2 Hb. wp_locals. apply HQ; [by eapply later_rely|done]. }
  unfold maybe_push_lateral. destruct (_ && _); [by apply Hpush, later_refl|].
  destruct (put_width w <? old_put_width w); [|wp_locals; by apply HQ; [apply later_refl|]].
  wp_local. apply wp_push_wider; [done|done|]. intros k g1 L1.
  destruct (c <? k); [by apply Hpush|wp_locals; apply HQ; [done|by eapply later_node]].
Qed.

Lemma wp_cae_lateral d new (Q : bool -> estate -> tls windows -> Prop) g l :
  is_Some (Lats g !! lnode new) -> (fixed = None \/ lcount new = 0) ->
  (forall ok g1, later g g1 -> Q ok g1 l) -> wp B t (cae_lateral d new) Q g l.
Proof.
  intros Hn Hf HQ g1 R1 I1 _. cbn. destruct (decide (lateral (window g1) = d)); cbn.
  2: { split; [apply (guar_refl (P := B))|split; [done|]]. by apply HQ. }
  assert (Hr : globals_ok set fixed (set_lateral new (window g1))).
  { destruct I1 as [[H1 H2 H3 H4 H5 H6 H7] _]. split; try done; cbn [set_lateral lnodes lateral swidth wins].
    - destruct Hn as [x E]. exists x. by eapply lookup_weaken, rely_lats.
    - intros v0 E. destruct (H7 v0 E) as (? & _ & ?). destruct Hf as [Hf|Hf]; [congruence|done]. }
  destruct (win_step g1 _ I1 Hr) as [HG HI]; [done..|]. split; [exact HG|split; [exact HI|]].
  apply HQ. split; [|exact HI]. destruct R1 as [[? ?] R1]. by split.
Qed.

(** What is known of a thread's window when it starts a shift. *)
Lemma fixed_window g w v0 : p_inv B g -> w ∈ Wins g -> fixed = Some v0 ->
  put_width w = v0 /\ old_put_width w = v0 /\ swidth (window g) = v0 /\ lcount (lateral (window g)) = 0.
Proof.
  intros [H _] Hin E. destruct (go_fixed _ _ _ H v0 E) as (Es & Ec & Hw). by destruct (Hw w Hin) as (_ & -> & ->).
Qed.

Lemma wp_synchronize (Q : unit -> estate -> tls windows -> Prop) g l :
  thread_ok g l -> (forall g1, later g g1 -> Q tt g1 l) -> wp B t (synchronize_lateral padding) Q g l.
Proof.
  intros Hl HQ. unfold synchronize_lateral. wp_local. apply wp_load_g. intros g1 R1 I1 O1. wp_local.
  pose proof (conj R1 I1 : later g g1) as L1. pose proof (thread_ok_rely _ _ _ R1 Hl) as Hl1.
  destruct (win_bounds g1 (tw l) I1 O1 (to_in _ _ Hl1)) as (Hw & _ & _ & Hm).
  set (n := lnode (lateral (window g1))). assert (Hn : is_Some (Lats g1 !! n)) by apply I1.
  apply wp_load_g. intros g2 R2 I2 _. wp_local. set (c := lcount (lateral (window g2))).
  pose proof (later_rely _ _ _ L1 R2 I2) as L2.
  assert (Hc : fixed = None \/ c = 0).
  { destruct fixed as [v0|] eqn:E; [right|by left].
    destruct (fixed_window g2 (tw l) v0) as (_ & _ & _ & Hc); [by rewrite E|..]; try done.
    by apply (rely_wins g1), Hl1. }
  apply wp_load_g. intros g3 R3 I3 _. wp_local. pose proof (later_rely _ _ _ L2 R3 I3) as L3.
  apply wp_load_g. intros g4 R4 I4 _. wp_local. pose proof (later_rely _ _ _ L3 R4 I4) as L4.
  apply wp_my. assert (Hl4 := thread_ok_rely _ _ _ (proj1 L4) Hl).
  destruct (negb _); [wp_locals; by apply HQ|]. destruct (_ =? _); [wp_locals; by apply HQ|]. wp_local.
  assert (Hn4 : is_Some (Lats g4 !! n)).
  { eapply later_node; [|exact Hn]. eapply later_rely; [|exact R4|exact I4].
    eapply later_rely; [|exact R3|exact I3]. by split. }
  apply wp_replace_lateral; [done|exact Hw|lia|done|]. intros r g5 L5 Hr Hsame. wp_local.
  pose proof (later_trans _ _ _ L4 L5) as L45.
  assert (Hwork : forall a k g6, later g5 g6 -> is_Some (Lats g6 !! a) -> (fixed = None \/ k = 0) ->
    wp B t (if negb (k =? c) || negb (a =? n) then
      let* ok := cae_lateral (mkLdesc n c (lversion (lateral (window g3)))) (mkLdesc a k (version (tw l))) in
      if (ok : bool) then free_nodes_until n (tbase r) else free_nodes_until a (tbase r)
    else Ret tt) Q g6 l).
  { intros a k g6 L6 Ha Hk. destruct (_ || _); [|wp_locals; apply HQ; by eapply later_trans].
    wp_local. apply wp_cae_lateral; [done|done|]. intros ok g7 L7.
    destruct ok; apply wp_free_nodes; try apply L7.
    - left. eapply later_node; [|exact Hn4]. eapply later_trans; [|exact L7]. by eapply later_trans.
    - intros g8 L8. apply HQ. eapply later_trans; [|exact L8]. eapply later_trans; [|exact L7]. by eapply later_trans.
    - left. by eapply later_node.
    - intros g8 L8. apply HQ. eapply later_trans; [|exact L8]. eapply later_trans; [|exact L7]. by eapply later_trans. }
  destruct (Z.eqb_spec (put_width (tw l)) (old_put_width (tw l))) as [Epw|Epw]; cbn [negb].
  - wp_local. apply Hwork; [apply later_refl, L5|done|].
    destruct Hc as [?|Hc]; [by left|right]. by rewrite (Hsame Hc).
  - apply wp_maybe_push; [apply L5|exact Hw|done|]. intros a k g6 L6 Ha. apply Hwork; [done|done|].
    destruct fixed as [v0|] eqn:E; [|by left]. exfalso. apply Epw.
    destruct (fixed_window g4 (tw l) v0) as (-> & -> & _); [by rewrite E| |by rewrite E|done]. apply Hl4.
Qed.

(** *** Shifting the window *)

Lemma wp_shift_width bottom ow nw (Q : Z -> estate -> tls windows -> Prop) g l :
  p_inv B g -> 1 <= ow <= mw -> 1 <= nw <= mw -> (forall v0, fixed = Some v0 -> ow = v0 /\ nw = v0) ->
  (forall r g1, later g g1 -> 1 <= r <= mw + 1 -> (forall v0, fixed = Some v0 -> r = v0) -> Q r g1 l) ->
  wp B t (shift_width bottom ow nw) Q g l.
Proof.
  intros HI Ho Hn Hf HQ. unfold shift_width. wp_local. apply wp_load_g. intros g1 R1 I1 _. wp_local.
  apply wp_load_g. intros g2 R2 I2 _. pose proof (later_rely _ _ _ (conj R1 I1 : later g g1) R2 I2) as L2.
  set (a := lnode (lateral (window g1))).
  apply (wp_while B t _ _ _ _ (fun _ '(nxt, c, r) g' l' => l' = l /\ later g g' /\ link_ok (Lats g') nxt c /\
    1 <= r <= mw + 1 /\ forall v0, fixed = Some v0 -> r = v0 /\ c = 0) 0%nat).
  - split; [done|split; [done|split]].
    + left. destruct I1 as [I1 _]. destruct (go_top _ _ _ I1) as [x E]. exists x. by eapply lookup_weaken, rely_lats.
    + split; [destruct (ow <=? nw); lia|]. intros v0 E. destruct (Hf v0 E) as [-> ->].
      split; [by destruct (_ <=? _)|]. destruct I2 as [I2 _]. by destruct (go_fixed _ _ _ I2 v0 E) as (_ & ? & _).
  - intros n [[nxt c] r] g3 l3 (-> & L3 & Hl & Hr & Hfr). destruct (Z.ltb_spec (u32 (bottom + 1)) c) as [Hlt|Hge].
    2: { wp_locals. apply HQ; [done|done|]. intros v0 E. by destruct (Hfr v0 E). }
    pose proof (wrap_range 32 (bottom + 1)). wp_local. apply wp_load_lat; [destruct Hl as [?|[_ ?]]; [done|lia]|].
    intros x g4 R4 I4 _ Ex. wp_locals. destruct (lat_links g4 nxt x I4 Ex) as [Hlx Hwx].
    exists 0%nat. split; [done|]. split; [done|split; [by eapply later_rely|split; [done|]]].
    split; [destruct (r <? lwidth x); lia|]. intros v0 E. destruct (Hfr v0 E). lia.
Qed.

Lemma cae_window_wp new (Q : bool -> estate -> tls windows -> Prop) g l :
  thread_ok g l -> win_ok set new -> version new = u16 (version (tw l) + 1) -> max new <= max (tw l) + 2 ^ 16 ->
  (forall v0, fixed = Some v0 -> get_width new = v0 /\ put_width new = v0 /\ old_put_width new = v0) ->
  (forall g1, later g g1 -> new ∈ Wins g1 -> Q true g1 l) ->
  (forall g1 l1, later g g1 -> thread_ok g1 l1 -> put_index l1 = put_index l -> get_index l1 = get_index l ->
     Q false g1 l1) ->
  wp B t (cae_window new) Q g l.
Proof.
  intros Hl Hnew Hv Hm Hf Hyes Hno g1 R1 I1 O1. pose proof (thread_ok_rely _ _ _ R1 Hl) as Hl1.
  destruct (win_bounds g1 (tw l) I1 O1 (to_in _ _ Hl1)) as (Hw & _ & Hver & Hmax).
  destruct (decide (global_Window (window g1) = tw l)) as [E|Hne].
  - assert (Hr : globals_ok set fixed (add_window new (window g1))).
    { pose proof I1 as [[H1 H2 H3 H4 H5 H6 H7] _]. split; try done.
      - cbn [wins add_window]. destruct (Wins g1) as [|x ws] eqn:Ews; [done|].
        cbn in H1. injection H1 as ->. rewrite E in *. pose proof H2 as (_ & Hvw & Hmw & _).
        split; [done|]. split; [rewrite Hv, wrap_small; cbn [length] in *; lia|]. split; [cbn [length] in *; lia|done].
      - intros v0 Ef. cbn [add_window swidth lateral wins]. destruct (H7 v0 Ef) as (? & ? & Hall).
        split; [done|split; [done|]]. intros w [->|Hin]%elem_of_cons; [by apply Hf|by apply Hall]. }
    assert (Hs : Wins g1 `suffix_of` wins (add_window new (window g1))) by (by exists [new]).
    destruct (win_step g1 _ I1 Hr Hs ltac:(done)) as [HG HI].
    split; [exact HG|split; [exact HI|]]. apply Hyes; [|by left].
    split; [|exact HI]. destruct R1 as [[? ?] R1]. split; [|exact R1]. split; [by etrans|done].
  - split; [apply (guar_refl (P := B))|split; [done|]]. apply Hno; [by split| |done|done].
    destruct Hl1 as [X1 X2 X3 X4 X5]. split; try done; cbn; [by apply current_in|].
    by apply (win_bounds g1 _ I1 O1 (current_in g1 I1)).
Qed.

Lemma ewp_read_window (Q : unit -> estate -> tls windows -> Prop) g l :
  thread_id l = t -> 0 <= put_index l -> 0 <= get_index l ->
  (forall g1 l1, later g g1 -> thread_ok g1 l1 -> put_index l1 = put_index l -> get_index l1 = get_index l ->
     Q tt g1 l1) ->
  wp B t read_window Q g l.
Proof.
  intros H1 H2 H3 HQ g1 R1 I1 O1. split; [apply (guar_refl (P := B))|split; [done|]].
  apply HQ; [by split| |done|done]. pose proof (current_in g1 I1) as Hin.
  split; try done. by apply (win_bounds g1 _ I1 O1).
Qed.

(** What the new maximum has to satisfy. *)
Definition shift_ok (f : Z -> Z -> Z -> Z) : Prop := forall m d d0,
  1 <= d0 < 2 ^ 16 -> d0 <= m <= 2 ^ 16 * (2 ^ 16 - 2) -> 1 <= d < 2 ^ 16 -> d <= f m d d0 <= m + 2 ^ 16.

Lemma ewp_shift_window f (Q : unit -> estate -> tls windows -> Prop) g l :
  shift_ok f -> thread_ok g l ->
  (forall g1 l1, later g g1 -> thread_ok g1 l1 -> put_index l1 = put_index l -> get_index l1 = get_index l ->
     Q tt g1 l1) ->
  wp B t (shift_window junk padding f) Q g l.
Proof.
  intros Hshift Hl HQ. unfold shift_window. wp_local. apply wp_synchronize; [done|]. intros g1 L1.
  pose proof (thread_ok_rely _ _ _ (proj1 L1) Hl) as Hl1. wp_local. apply wp_my. wp_local.
  apply wp_load_g. intros g2 R2 I2 O2. pose proof (later_rely _ _ _ L1 R2 I2) as L2.
  pose proof (thread_ok_rely _ _ _ R2 Hl1) as Hl2.
  destruct (win_bounds g2 (tw l) I2 O2 (to_in _ _ Hl2)) as (Hw & _ & _ & Hmax).
  set (nw := swidth (window g2)). assert (Hnw : 1 <= nw <= mw) by apply I2.
  wp_local. apply wp_load_g. intros g3 R3 I3 O3. pose proof (later_rely _ _ _ L2 R3 I3) as L3.
  set (nd := sdepth (window g3)). assert (Hnd : 1 <= nd < 2 ^ 16) by apply I3. cbv zeta.
  pose proof Hw as [Hd Hdm _ Hpw _]. destruct (Hshift (max (tw l)) nd (depth (tw l))) as [Hm1 Hm2]; [lia..|].
  set (nm := f _ _ _) in *. wp_local.
  assert (Hfix : forall v0, fixed = Some v0 -> put_width (tw l) = v0 /\ nw = v0).
  { intros v0 E. by destruct (fixed_window g2 (tw l) v0 I2 (to_in _ _ Hl2) E) as (? & _ & ? & _). }
  apply wp_shift_width; [done|done|done|done|]. intros gw g4 L4 Hgw Hfgw. wp_local.
  pose proof (later_trans _ _ _ L3 L4) as L34. pose proof (thread_ok_rely _ _ _ (proj1 L34) Hl) as Hl4.
  apply wp_get. set (new := mkWindow _ _ _ _ _ _ _). wp_local. apply wp_assert; [by apply Z.leb_le|]. wp_local.
  apply wp_load_g. intros g5 R5 I5 _. pose proof (later_rely _ _ _ L34 R5 I5) as L5.
  pose proof (thread_ok_rely _ _ _ R5 Hl4) as Hl5. destruct (_ =? _); [|wp_locals; by apply HQ].
  wp_local. apply cae_window_wp; [done|by split|done|done| |..].
  - intros v0 E. destruct (Hfix v0 E) as [Eo En]. split; [by apply Hfgw|by split].
  - intros g6 L6 Hin. wp_locals. apply HQ; [by eapply later_trans| |done|done].
    destruct Hl as [X1 X2 X3 X4 X5]. by split.
  - intros g6 l6 L6 Hl6 Ep Eg. wp_local. apply ewp_read_window; [apply Hl6..|].
    intros g7 l7 L7 Hl7 Ep' Eg'. wp_locals. apply HQ; [by do 2 (eapply later_trans; [eassumption|])| |cbn; congruence..].
    destruct Hl7 as [X1 X2 X3 X4 X5]. by split.
Qed.

Lemma put_shift_ok : shift_ok (fun m d _ => put_shift_max m d).
Proof.
  intros m d d0 Hd0 Hm Hd. unfold put_shift_max. rewrite Z.shiftr_div_pow2 by lia. change (2 ^ 1) with 2.
  pose proof (Z.div_lt (d + 1) 2). pose proof (Z.div_pos (d + 1) 2). rewrite wrap_small by lia.
  destruct (Z.ltb_spec (m + (d + 1) / 2) d); lia.
Qed.

Lemma get_shift_ok : shift_ok get_shift_max.
Proof.
  intros m d d0 Hd0 Hm Hd. unfold get_shift_max. rewrite Z.shiftr_div_pow2 by lia. change (2 ^ 1) with 2.
  pose proof (Z.div_lt (d + 1) 2). pose proof (Z.div_pos (d + 1) 2).
  destruct (d0 =? d); [destruct (Z.leb_spec ((d + 1) / 2 + d) m)|destruct (Z.leb_spec (d0 + (d + 1) / 2) m)];
    rewrite ?wrap_small by lia; lia.
Qed.

(** *** Choosing a sub-stack *)

Lemma wp_ehop index random hops (w : Z) (Q : Z * Z * Z -> estate -> tls windows -> Prop) g l :
  1 <= w < 2 ^ 16 -> 0 <= index ->
  (forall i r h s st, 0 <= i < w -> Q (i, r, h) g (with_rng s st l)) ->
  wp B t (hop set index random hops w) Q g l.
Proof.
  intros Hw Hi HQ. unfold hop. wp_local. wp_local. destruct (random <? random_hops set).
  - wp_local. apply wp_shared_random; [lia|]. intros r s Hr. wp_locals. by apply (HQ _ _ _ s).
  - wp_locals. apply (HQ _ _ _ (seeds l)). pose proof (wrap_range 64 (index + 1)).
    destruct (Z.leb_spec w (u64 (index + 1))); lia.
Qed.

Lemma sync_index_range (w : Z) i : 1 <= w -> 0 <= sync_index w i < w.
Proof. intros Hw. unfold sync_index. pose proof (wrap_range 16 i). destruct (Z.ltb_spec (u16 i) w); lia. Qed.

(** Between its operations; a thread begins with a window of zeroes. *)
Definition idle g l : Prop :=
  thread_id l = t /\ 0 <= put_index l /\ 0 <= get_index l /\ (tw l = window0 \/ thread_ok g l).

Lemma idle_ok g l : thread_ok g l -> idle g l.
Proof. intros H. pose proof H as []. by split_and!; auto. Qed.
Lemma idle_rely g g' l : p_rely B t g g' -> idle g l -> idle g' l.
Proof. intros R (? & ? & ? & H). split_and!; try done. destruct H; [by left|right; by eapply thread_ok_rely]. Qed.

Lemma thread_ok_wins g g' l l' :
  Wins g' = Wins g -> thread_id l' = thread_id l -> Shared.thread_Window l' = Shared.thread_Window l ->
  thread_ok g l -> thread_ok g' l'.
Proof. intros E1 E2 E3 []. split; rewrite ?E1, ?E2, ?E3; done. Qed.
Lemma idle_wins g g' l : Wins g' = Wins g -> idle g l -> idle g' l.
Proof. intros E (? & ? & ? & H). split_and!; try done. destruct H; [by left|right; by eapply thread_ok_wins]. Qed.

(** The test of the version at the entry of both functions. *)
Lemma wp_enter sync g l (Q : unit -> estate -> tls windows -> Prop) :
  idle g l ->
  (forall g1 l1 (Q' : unit -> estate -> tls windows -> Prop), thread_ok g1 l1 ->
     (forall l2, thread_ok g1 l2 -> Q' tt g1 l2) -> wp B t sync Q' g1 l1) ->
  (forall g1 l1, later g g1 -> thread_ok g1 l1 -> Q tt g1 l1) ->
  wp B t (let* w := my thread_Window in
          let* gversion := load_version in
          if negb (version w =? gversion) then read_window ;;; sync else Ret tt) Q g l.
Proof.
  intros (Hid & Hpi & Hgi & Htw) Hsync HQ. wp_local. apply wp_my. wp_local.
  apply wp_load_g. intros g1 R1 I1 O1. pose proof (conj R1 I1 : later g g1) as L1.
  destruct (Z.eqb_spec (version (tw l)) (version (global_Window (window g1)))) as [E|E]; cbn [negb].
  - wp_locals. apply HQ; [done|]. destruct Htw as [Hz|Hok]; [exfalso|by eapply thread_ok_rely].
    destruct (win_bounds g1 _ I1 O1 (current_in g1 I1)) as (_ & _ & Hv & _).
    rewrite Hz in E. change (version window0) with 0 in E. lia.
  - wp_local. apply ewp_read_window; [done..|]. intros g2 l2 L2 Hl2 _ _. apply Hsync; [done|].
    intros l3 Hl3. apply HQ; [by eapply later_trans|done].
Qed.

Lemma wp_sync_put g1 l1 (Q : unit -> estate -> tls windows -> Prop) :
  thread_ok g1 l1 -> (forall l2, thread_ok g1 l2 -> put_index l2 < put_width (tw l2) -> Q tt g1 l2) ->
  wp B t sync_put_index Q g1 l1.
Proof.
  intros Hl HQ. pose proof (sync_index_range (put_width (tw l1)) (put_index l1) (proj1 (wo_put _ _ (to_win _ _ Hl)))) as Hs.
  unfold sync_put_index. wp_local. apply HQ; [|apply Hs]. destruct Hl. split; try done. apply Hs.
Qed.
Lemma wp_sync_get g1 l1 (Q : unit -> estate -> tls windows -> Prop) :
  thread_ok g1 l1 -> (forall l2, thread_ok g1 l2 -> get_index l2 < get_width (tw l2) -> Q tt g1 l2) ->
  wp B t sync_get_index Q g1 l1.
Proof.
  intros Hl HQ. pose proof (sync_index_range (get_width (tw l1)) (get_index l1) (proj1 (wo_get _ _ (to_win _ _ Hl)))) as Hs.
  unfold sync_get_index. wp_local. apply HQ; [|apply Hs]. destruct Hl. split; try done. apply Hs.
Qed.

Lemma thread_ok_put g l i s st :
  thread_ok g l -> 0 <= i -> thread_ok g (upd (set_put_index i) (with_rng s st l)).
Proof. intros []. by split. Qed.
Lemma thread_ok_get g l i s st :
  thread_ok g l -> 0 <= i -> thread_ok g (upd (set_get_index i) (with_rng s st l)).
Proof. intros []. by split. Qed.

Lemma wp_put_window c (Q : descriptor_t -> estate -> tls windows -> Prop) g l :
  idle g l ->
  (forall d g1 l1, later g g1 -> thread_ok g1 l1 -> put_index l1 < put_width (tw l1) -> Q d g1 l1) ->
  wp B t (put_window junk padding set c) Q g l.
Proof.
  intros Hl HQ. destruct Hset as [_ Hmw]. unfold put_window. wp_local. apply wp_enter; [done| |].
  { intros g1 l1 Q' H1 H2. apply wp_sync_put; [done|]. intros l2 Hl2 _. by apply H2. }
  intros g1 l1 L1 Hl1. wp_local. apply (wp_mono B t _ (fun _ g' l' => g' = g1 /\ thread_ok g1 l' /\ put_index l' < put_width (tw l'))).
  2: { wp_local. apply wp_my. wp_local. apply wp_my. pose proof Hl1 as [_ _ [_ _ _ Hpw _] _ _].
    destruct c; cbn [orb]; [|destruct (Z.leb_spec (put_width (tw l1)) (put_index l1))]; [| |wp_locals; by split].
    all: wp_local; apply wp_shared_random; [lia|]; intros r s Hr; wp_locals; split; [done|]; split; [|apply Hr];
      exact (thread_ok_put g1 l1 r s (stats l1) Hl1 (proj1 Hr)). }
  intros [] g2 l2 (-> & Hl2 & Hi2).
  apply (wp_while B t _ _ _ _ (fun _ _ g' l' => later g g' /\ thread_ok g' l' /\ put_index l' < put_width (tw l')) 0%nat);
    [done|].
  clear l2 Hl2 Hi2. intros n [hops random] g2 l2 (L2 & Hl2 & Hi2). pose proof Hl2 as [_ Hin2 [_ _ _ Hpw _] Hp2 Hg2].
  unfold put_window_body. wp_local. apply wp_my. wp_local. apply wp_read_desc; [intros; lia|].
  intros d g3 L3 O3 _. wp_local. apply wp_load_g. intros g4 R4 I4 O4. wp_local. apply wp_my.
  pose proof (later_rely _ _ _ L3 R4 I4) as L4. pose proof (thread_ok_rely _ _ _ (proj1 L4) Hl2) as Hl4.
  pose proof (later_trans _ _ _ L2 L4) as L24.
  destruct (negb _); [|destruct (count d <? _); [|destruct (negb _)]].
  - wp_local. apply ewp_read_window; [apply Hl4..|]. intros g5 l5 L5 Hl5 _ _. wp_local. apply wp_sync_put; [done|].
    intros l6 Hl6 Hi6. wp_locals. exists 0%nat. split; [done|]. split; [by eapply later_trans|done].
  - wp_local. apply wp_my. wp_local. destruct (_ <? _); wp_locals; apply HQ; try done.
    by apply (thread_ok_get g4 l2 (put_index l2) (seeds l2) (stats l2)).
  - wp_local. apply wp_ehop; [lia|lia|]. intros i r h s st Hi. wp_locals.
    exists 0%nat. split; [done|]. split; [done|]. split; [|apply Hi]. apply thread_ok_put; [done|lia].
  - wp_local. apply ewp_shift_window; [apply put_shift_ok|done|]. intros g5 l5 L5 Hl5 _ _. wp_local.
    apply wp_sync_put; [done|]. intros l6 Hl6 Hi6. wp_locals.
    exists 0%nat. split; [done|]. split; [by eapply later_trans|done].
Qed.

Lemma wp_get_window c (Q : descriptor_t -> estate -> tls windows -> Prop) g l :
  idle g l ->
  (forall d g1 l1, later g g1 -> thread_ok g1 l1 -> get_index l1 < get_width (tw l1) ->
     ptr_ok (heap (subs g1)) (node d) -> Q d g1 l1) ->
  wp B t (get_window junk padding set c) Q g l.
Proof.
  intros Hl HQ. destruct Hset as [_ Hmw]. unfold get_window. wp_local. apply wp_enter; [done| |].
  { intros g1 l1 Q' H1 H2. apply wp_sync_get; [done|]. intros l2 Hl2 _. by apply H2. }
  intros g1 l1 L1 Hl1. wp_local. apply (wp_mono B t _ (fun _ g' l' => g' = g1 /\ thread_ok g1 l' /\ get_index l' < get_width (tw l'))).
  2: { wp_local. apply wp_my. wp_local. apply wp_my. pose proof Hl1 as [_ _ [_ _ Hgw _ _] _ _].
    destruct c; cbn [orb]; [|destruct (Z.leb_spec (get_width (tw l1)) (get_index l1))]; [| |wp_locals; by split].
    all: wp_local; apply wp_shared_random; [lia|]; intros r s Hr; wp_locals; split; [done|]; split; [|apply Hr];
      exact (thread_ok_get g1 l1 r s (stats l1) Hl1 (proj1 Hr)). }
  intros [] g2 l2 (-> & Hl2 & Hi2). wp_local.
  apply (wp_while B t _ _ _ _ (fun _ _ g' l' => later g g' /\ thread_ok g' l' /\ get_index l' < get_width (tw l')) 0%nat);
    [done|].
  clear l2 Hl2 Hi2. intros n [[hops random] empty] g2 l2 (L2 & Hl2 & Hi2).
  pose proof Hl2 as [_ Hin2 [_ _ Hgw _ _] Hp2 Hg2].
  assert (Hend : forall d g3 L, g2 = g2 -> later g g3 -> thread_ok g3 L -> get_index L < get_width (tw L) ->
    ptr_ok (heap (subs g3)) (node d) ->
    wp B t (put (upd (fun v => if thread_get_index v <? put_width (thread_Window v)
      then set_put_index (thread_get_index v) v else v)) ;;; Ret d) Q g3 L).
  { intros d g3 L _ L3 H3 Hi3 Hp3. wp_locals. pose proof H3 as [X1 X2 X3 X4 X5].
    set (L' := upd _ L). assert (E : (tw L' = tw L /\ get_index L' = get_index L /\ thread_id L' = thread_id L) /\
      (put_index L' = put_index L \/ put_index L' = get_index L)).
    { unfold L', upd. cbn. destruct (_ <? _); split_and!; cbn; auto. }
    destruct E as ((E1 & E2 & E3) & E4). apply HQ; [done| |by rewrite E1, E2|done].
    split; rewrite ?E1, ?E2, ?E3; try done. destruct E4 as [-> | ->]; lia. }
  unfold get_window_body. wp_local. apply wp_my. wp_local. apply wp_read_desc.
  { intros g3 L3 O3. pose proof (thread_ok_rely _ _ _ (proj1 L3) Hl2) as Hl3.
    destruct (win_bounds g3 _ (proj2 L3) O3 (to_in _ _ Hl3)) as (_ & ? & _). lia. }
  intros d g3 L3 O3 Hptr. wp_local. apply wp_load_g. intros g4 R4 I4 O4. wp_local. apply wp_my.
  pose proof (later_rely _ _ _ L3 R4 I4) as L4. pose proof (thread_ok_rely _ _ _ (proj1 L4) Hl2) as Hl4.
  pose proof (later_trans _ _ _ L2 L4) as L24.
  assert (Hptr4 := ptr_ok_rely (wprot set fixed) mw (2 ^ 63) B t g3 g4 _ R4 Hptr).
  destruct (negb _); [|destruct (_ <? count d); [|destruct (negb _); [|destruct empty]]].
  - wp_local. apply ewp_read_window; [apply Hl4..|]. intros g5 l5 L5 Hl5 _ _. wp_local. apply wp_sync_get; [done|].
    intros l6 Hl6 Hi6. wp_locals. exists 0%nat. split; [done|]. split; [by eapply later_trans|done].
  - wp_local. by apply Hend.
  - wp_local. apply wp_ehop; [lia|lia|]. intros i r h s st Hi. wp_locals.
    exists 0%nat. split; [done|]. split; [done|]. split; [|apply Hi]. apply thread_ok_get; [done|lia].
  - wp_local. by apply Hend.
  - wp_local. apply ewp_shift_window; [apply get_shift_ok|done|]. intros g5 l5 L5 Hl5 _ _. wp_local.
    apply wp_sync_get; [done|]. intros l6 Hl6 Hi6. wp_locals.
    exists 0%nat. split; [done|]. split; [by eapply later_trans|done].
Qed.

(** *** The operations *)

Definition pushing (v a : Z) (evs : list event) g l : Prop :=
  idle g l /\ p_inv B g /\ mine g = evs /\ priv (heap (subs g)) !! a = Some t /\
  exists k q c, lookup_node a g = Some (mkNode q k v c).

Lemma epush_body_wp v a evs c (Q : Z -> estate -> tls windows -> Prop) g l :
  pushing v a evs g l ->
  (forall g' l' i, idle g' l' -> 0 <= i < mw -> mine g' = Push i v :: evs -> Q 1 g' l') ->
  wp B t (push_body junk padding set a c)
    (fun r g l => match r with inl _ => pushing v a evs g l | inr b => Q b g l end) g l.
Proof.
  intros (Hl & HI & Hm & Pa & k & q & nc & Ea) HQ. unfold push_body. wp_local.
  apply wp_put_window; [done|]. intros d g1 l1 [R1 I1] Hl1 Hi1. wp_local.
  destruct (own_rely (wprot set fixed) mw (2 ^ 63) B t g g1 a _ R1 Pa Ea) as [P1 E1].
  pose proof (rely_mine _ _ R1) as M1.
  eapply (wp_store_node (wprot set fixed) mw (2 ^ 63) B t); [exact P1|exact E1|].
  intros g2 R2 I2 _ g3 I3 K3 P3 E3. pose proof (rely_mine _ _ R2) as M2. wp_local.
  eapply (wp_store_node (wprot set fixed) mw (2 ^ 63) B t); [exact P3|exact E3|].
  intros g4 R4 I4 _ g5 I5 K5 P5 E5. pose proof (rely_mine _ _ R4) as M4. wp_local. apply wp_my.
  assert (Hl5 : thread_ok g5 l1).
  { apply (thread_ok_wins g4 _ l1); [done..|]. apply (thread_ok_rely g3 g4); [done|].
    apply (thread_ok_wins g2 _ l1); [done..|]. by apply (thread_ok_rely g1 g2). }
  wp_local. apply wp_my. wp_local. unfold stack_cae.
  assert (M5 : mine g5 = evs) by (change (mine g4 = evs); rewrite M4; change (mine g2 = evs); by rewrite M2, M1).
  pose proof Hl5 as [Ht _ [_ _ _ Hpw _] Hp0 _].
  apply (wp_cae_desc (wprot set fixed) mw (2 ^ 63) B t _ _ _ _ v); [lia|done|..].
  - intros g6 R6 I6 _ E6. destruct (own_rely (wprot set fixed) mw (2 ^ 63) B t g5 g6 a _ R6 P5 E5) as [P6 E6'].
    split; [|done]. eexists. split; [exact P6|]. split; [exact E6'|]. by split_and!.
  - intros g6 R6 _ _ g7 I7. wp_locals. apply (HQ _ _ (put_index l1)); [|lia|].
    + apply idle_ok, (thread_ok_wins g6 _ l1); [done..|]. exact (thread_ok_rely _ _ _ R6 Hl5).
    + unfold g7, after_cae. cbn [subs set_subs hist]. rewrite events_of_cons, decide_True by done.
      by rewrite (rely_mine _ _ R6), M5.
  - intros g6 R6 I6 _. destruct (own_rely (wprot set fixed) mw (2 ^ 63) B t g5 g6 a _ R6 P5 E5) as [P6 E6].
    wp_locals. split; [apply idle_ok, (thread_ok_wins g6 _ l1); [done..|]; exact (thread_ok_rely _ _ _ R6 Hl5)|].
    split; [done|]. split; [by rewrite (rely_mine _ _ R6)|]. split; [done|]. by eexists _, _, _.
Qed.

(** [push] returns 1 after exactly one [Push] of its value. *)
Lemma epush_wp k v (Q : Z -> estate -> tls windows -> Prop) g l :
  idle g l ->
  (forall g' l' i, idle g' l' -> 0 <= i < mw -> mine g' = Push i v :: mine g -> Q 1 g' l') ->
  wp B t (push junk padding set k v) Q g l.
Proof.
  intros Hl HQ. unfold push. wp_local.
  apply (wp_alloc_node (wprot set fixed) mw (2 ^ 63) B t); [apply Hl|].
  intros a g1 R1 I1 g2 I2 Hk P2 E2.
  apply (wp_while B t _ _ _ _ (fun _ _ => pushing v a (mine g)) 0%nat).
  - split; [apply (idle_wins g1); [done|exact (idle_rely _ _ _ R1 Hl)]|]. split; [done|]. split; [apply (rely_mine _ _ R1)|]. split; [done|]. by eexists _, _, _.
  - intros n c g3 l3 HJ. eapply wp_mono; [|by apply (epush_body_wp v a (mine g) c Q)].
    intros [c'|r] g4 l4 H4; [by exists 0%nat|exact H4].
Qed.

Lemma epop_body_wp evs c (Q : Z -> estate -> tls windows -> Prop) g l :
  idle g l -> mine g = evs ->
  (forall v g' l' i, idle g' l' -> 0 <= i < mw -> mine g' = Pop i v :: evs -> Q v g' l') ->
  (forall g' l', idle g' l' -> mine g' = evs -> Q 0 g' l') ->
  wp B t (pop_body junk padding set c)
    (fun r g l => match r with inl _ => idle g l /\ mine g = evs | inr b => Q b g l end) g l.
Proof.
  intros Hl Hm HQ HQ0. unfold pop_body. wp_local.
  apply wp_get_window; [done|]. intros d g1 l1 [R1 I1] Hl1 Hi1 Hptr. pose proof (rely_mine _ _ R1) as M1.
  destruct (Z.eqb_spec (node d) 0) as [Hz|Hnz]; cbn [negb]; wp_locals.
  { apply HQ0; [apply idle_ok; by apply (thread_ok_wins g1 _ l1)|]. by rewrite M1. }
  destruct (ptr_ok_node _ _ Hptr Hnz) as (nd & E1 & P1).
  eapply (wp_load_node (wprot set fixed) mw (2 ^ 63) B t); [exact P1|exact E1|]. intros g2 R2 I2 P2 E2.
  pose proof (rely_mine _ _ R2) as M2. wp_locals.
  eapply (wp_load_node (wprot set fixed) mw (2 ^ 63) B t); [exact P2|exact E2|]. intros g3 R3 I3 P3 E3.
  pose proof (rely_mine _ _ R3) as M3. pose proof (thread_ok_rely _ _ _ R3 (thread_ok_rely _ _ _ R2 Hl1)) as Hl3.
  wp_local. apply wp_my. wp_local. unfold stack_cae. eapply wp_peek; [reflexivity|]. intros g4 R4 I4 O4.
  pose proof (thread_ok_rely _ _ _ R4 Hl3) as Hl4. pose proof (rely_mine _ _ R4) as M4.
  destruct (published_rely (wprot set fixed) mw (2 ^ 63) B t g3 g4 _ _ R4 P3 E3) as [P4 E4].
  destruct (win_bounds g4 _ I4 O4 (to_in _ _ Hl4)) as (_ & Hgw & _). pose proof (to_get _ _ Hl4) as Hg0.
  apply (wp_cae_desc (wprot set fixed) mw (2 ^ 63) B t _ _ _ _ (val nd)); [lia|apply Hl4|..].
  - intros g5 R5 I5 _ _. destruct (published_rely (wprot set fixed) mw (2 ^ 63) B t g4 g5 _ _ R5 P4 E4) as [_ E5].
    split; [done|]. split; [|done]. exists nd. by split_and!.
  - intros g5 R5 I5 _ g6 I6. destruct (published_rely (wprot set fixed) mw (2 ^ 63) B t g4 g5 _ _ R5 P4 E4) as [P5 E5].
    wp_local. eapply (wp_load_node (wprot set fixed) mw (2 ^ 63) B t); [exact P5|exact E5|]. intros g7 R7 _ _ _.
    wp_locals. apply (HQ _ _ _ (get_index l1)); [|lia|].
    + apply idle_ok. refine (thread_ok_rely _ _ _ R7 _). apply (thread_ok_wins g5 _ l1); [done..|]. exact (thread_ok_rely _ _ _ R5 Hl4).
    + rewrite (rely_mine _ _ R7). unfold g6, after_cae. cbn [subs set_subs hist].
      rewrite events_of_cons, decide_True by done. by rewrite (rely_mine _ _ R5), M4, M3, M2, M1, Hm.
  - intros g5 R5 _ _. wp_locals. split; [apply idle_ok, (thread_ok_wins g5 _ l1); [done..|]; exact (thread_ok_rely _ _ _ R5 Hl4)|].
    by rewrite (rely_mine _ _ R5), M4, M3, M2, M1.
Qed.

(** [pop] takes exactly one value and returns it, or returns 0. *)
Lemma epop_wp (Q : Z -> estate -> tls windows -> Prop) g l :
  idle g l ->
  (forall v g' l' i, idle g' l' -> 0 <= i < mw -> mine g' = Pop i v :: mine g -> Q v g' l') ->
  (forall g' l', idle g' l' -> mine g' = mine g -> Q 0 g' l') ->
  wp B t (pop junk padding set) Q g l.
Proof.
  intros Hl HQ HQ0. unfold pop.
  apply (wp_while B t _ _ _ _ (fun _ _ g' l' => idle g' l' /\ mine g' = mine g) 0%nat); [done|].
  intros n c g2 l2 [Hl2 Hm2]. eapply wp_mono; [|by apply (epop_body_wp (mine g) c Q)].
  intros [c'|r] g3 l3 H3; [by exists 0%nat|exact H3].
Qed.

Lemma wp_replace_field f set_f old v (Q : Z -> estate -> tls windows -> Prop) g l :
  p_inv B g -> (forall g1, p_inv B g1 -> globals_ok set fixed (set_f v (window g1))) ->
  (forall r, wins (set_f v r) = wins r /\ lnodes (set_f v r) = lnodes r) ->
  (forall r g1, later g g1 -> Q r g1 l) -> wp B t (replace_field f set_f old v) Q g l.
Proof.
  intros HI Hok Hsame HQ. unfold replace_field.
  apply (wp_while B t _ _ _ _ (fun _ _ g' l' => l' = l /\ later g g') 0%nat); [split; [done|by apply later_refl]|].
  intros n old' g1 l1 [-> L1]. wp_local. intros g2 R2 I2 _. cbn. pose proof (later_rely _ _ _ L1 R2 I2) as L2.
  destruct (decide (f (window g2) = old')); cbn.
  - destruct (Hsame (window g2)) as [E1 E2].
    assert (Hs1 : Wins g2 `suffix_of` wins (set_f v (window g2))) by by rewrite E1.
    assert (Hs2 : Lats g2 ⊆ lnodes (set_f v (window g2))) by by rewrite E2.
    destruct (win_step g2 _ I2 (Hok g2 I2) Hs1 Hs2) as [HG HI2].
    split; [exact HG|split; [exact HI2|]]. apply HQ. split; [|exact HI2].
    destruct L2 as [[[? ?] [? ?]] _]. split; [split; cbn; by etrans|done].
  - split; [apply (guar_refl (P := B))|split; [done|]]. by exists 0%nat.
Qed.
End window.

(** ** Whole executions *)

(** The arguments of the client's calls that the stack is prepared for. *)
Definition op_ok (set : mstack_t) (o : eop) : Prop :=
  match o with
  | StackOp _ => True
  | UpdateDepth v => 1 <= v < 2 ^ 16
  | UpdateWidth v => 1 <= v <= max_width set
  end.
Definition keeps_width (o : eop) : Prop := match o with UpdateWidth _ => False | _ => True end.

(** The calls of [push] and [pop] among a thread's calls. *)
Definition stack_calls (done : list (eop * Z)) : list (op * Z) :=
  omap (fun x => match x.1 with StackOp o => Some (o, x.2) | _ => None end) done.

Lemma stack_calls_snoc done o r :
  stack_calls (done ++ [(o, r)]) = stack_calls done ++ match o with StackOp o => [(o, r)] | _ => [] end.
Proof. unfold stack_calls. rewrite omap_app. by destruct o. Qed.

Section runs.
Context {A : Allocator node_t} {LA : Allocator lateral_node_t}.
Context (junk : tls windows -> Z) (padding : Z -> Z) (set : mstack_t) (Hset : set_ok set) (fixed : option Z).
Notation mw := (max_width set).
Notation B := (eprot set fixed).

Definition explained (t : nat) (done : list (eop * Z)) (g : estate) (l : tls windows) : Prop :=
  idle set t g l /\ explains mw (stack_calls done) (events_of t (hist (subs g))).

Lemma eexplained_op t done o g l :
  op_ok set o /\ (fixed <> None -> keeps_width o) -> explained t done g l ->
  wp B t (exec_op junk padding set o) (fun r g l => explained t (done ++ [(o, r)]) g l) g l.
Proof.
  unfold explained. intros [Ho Hkeep] [Hl HJ]. destruct o as [[k v|]|v|v]; cbn [exec_op].
  - apply epush_wp; [done|done|]. intros g' l' i Hl' Hi ->. split; [done|].
    rewrite stack_calls_snoc. by constructor.
  - apply epop_wp; [done|done|..].
    + intros v g' l' i Hl' Hi ->. split; [done|]. rewrite stack_calls_snoc. by constructor.
    + intros g' l' Hl' ->. split; [done|]. rewrite stack_calls_snoc. by constructor.
  - unfold update_depth. wp_local. apply wp_load_g. intros g1 R1 I1 _.
    apply wp_replace_field; [done| |done|].
    + intros g2 [[H1 H2 H3 H4 H5 H6 H7] _]. by split.
    + intros r g2 L2. rewrite stack_calls_snoc, app_nil_r.
      pose proof (rely_trans (P := B) t _ _ _ R1 (proj1 L2)) as R.
      split; [exact (idle_rely set fixed t g g2 l R Hl)|]. by rewrite (rely_mine set fixed t g g2 R).
  - unfold update_width. wp_local. apply wp_load_g. intros g1 R1 I1 _. wp_local.
    apply wp_assert; [apply Z.leb_le; apply Ho|]. apply wp_replace_field; [done| |done|].
    + intros g2 [[H1 H2 H3 H4 H5 H6 H7] _]. split; try done. intros v0 E.
      destruct (Hkeep ltac:(by rewrite E)).
    + intros r g2 L2. rewrite stack_calls_snoc, app_nil_r.
      pose proof (rely_trans (P := B) t _ _ _ R1 (proj1 L2)) as R.
      split; [exact (idle_rely set fixed t g g2 l R Hl)|]. by rewrite (rely_mine set fixed t g g2 R).
Qed.

Section concurrent.
Context (g0 : estate) (opss : list (list eop)) (ls : list (tls windows)) (schedule : list nat).
Let state n : cfg estate (tls windows) (list Z) :=
  exec (mkCfg g0 (clients (exec_op junk padding set) opss ls)) (take n schedule).
Let final := exec (mkCfg g0 (clients (exec_op junk padding set) opss ls)) schedule.

Lemma elastic_stack_run :
  p_inv B g0 -> hist (subs g0) = [] ->
  (forall i l, ls !! i = Some l -> thread_id l = i /\ Shared.thread_Window l = windows0) ->
  Forall (Forall (fun o => op_ok set o /\ (fixed <> None -> keeps_width o))) opss ->
  (forall n, (n <= length schedule)%nat -> Z.of_nat (length (wins (window (mem (state n))))) < 2 ^ 16 - 1 /\
     (fixed = None -> Forall (fun w => get_width w <= mw) (wins (window (mem (state n)))))) ->
  Z.of_nat (length schedule) < 2 ^ 62 ->
  p_inv B (mem final) /\ ~ faulty final /\
  (forall i rs l os, pool final !! i = Some (Ret rs, l) -> opss !! i = Some os ->
     length rs = length os /\
     explains mw (stack_calls (zip os rs)) (events_of i (hist (subs (mem final))))).
Proof.
  intros HI Hh Hls Hops Hin Hb.
  set (extra (g : estate) := Z.of_nat (length (wins (window g))) < 2 ^ 16 - 1 /\
    (fixed = None -> Forall (fun w => get_width w <= mw) (wins (window g)))).
  assert (Hex : forall n, extra (mem (state n))).
  { intros n. destruct (decide (n <= length schedule)%nat) as [Hle|Hgt]; [by apply Hin|].
    specialize (Hin (length schedule) (le_n _)). unfold state in *. rewrite take_ge by lia. by rewrite take_ge in Hin by lia. }
  assert (Hrun : clients_from (exec_op junk padding set) (Ret tt) opss ls = clients (exec_op junk padding set) opss ls) by done.
  destruct (clients_soundness_along (exec_op junk padding set) B
    (fun o => op_ok set o /\ (fixed <> None -> keeps_width o)) explained
    (fun g : estate => Z.of_nat (length (hist (subs g)))) 1 (2 ^ 63 - 1) (Ret tt) extra g0 opss ls schedule)
    as (HI' & HF & HQ); rewrite ?Hrun in *; try done.
  - intros t done o g l. apply eexplained_op.
  - intros t g g' _ [_ (_ & _ & _ & Hlen)]. lia.
  - intros g [HI1 _] Hm [Hv He]. split; [split; [done|]|cbn; lia].
    destruct fixed as [v0|] eqn:E; [by apply (fixed_in_arrays set (Some v0) _ v0)|by apply He].
  - rewrite Hh. cbn [length]. lia.
  - intros i l Hl. destruct (Hls i l Hl) as [Ht Ew]. split; [|rewrite Hh; constructor].
    split; [done|]. rewrite Ew. cbn. split_and!; [lia..|by left].
  - split; [exact HI'|split; [exact HF|]]. intros i rs l os Hp Ho.
    destruct (HQ i rs l os Hp Ho) as (Hlen & g1 & R & _ & HJ). split; [done|].
    rewrite <- (rely_mine set fixed i g1 _ R) in HJ. exact HJ.
Qed.
End concurrent.
End runs.

(** What [create_stack] returns satisfies the invariant of the executions. *)
Lemma create_stack_ok {LA : Allocator lateral_node_t} nt w d m k rb set g fixed :
  create_stack nt w d m k rb = Some (set, g) -> set_ok set ->
  1 <= sdepth (window g) < 2 ^ 16 -> 1 <= swidth (window g) <= max_width set ->
  (fixed = None \/ fixed = Some (swidth (window g))) ->
  p_inv (eprot set fixed) g /\ hist (subs g) = [].
Proof.
  unfold create_stack. destruct (calculate _ _ _ _ _ _ _ _ _) as [p|] eqn:Ecalc; [|done]. cbn [mbind option_bind].
  unfold create_lateral_stack. intros [= <- <-] [Hm1 Hm2] Hd Hw Hf. cbn [window sdepth swidth max_width] in *.
  set (mwd := if _ <? _ then _ else _) in *.
  split; [|done]. split; [split|]; cbn [window subs wins head lnodes lateral lnode sdepth swidth global_Window].
  - done.
  - split; [split; cbn; lia|]. cbn. split; [done|split; [lia|done]].
  - done.
  - done.
  - intros a n Ha. apply lookup_singleton_Some in Ha as [<- <-]. cbn [lnext lnext_count lwidth max_width].
    rewrite wrap_small by lia. split; [by right|lia].
  - rewrite lookup_singleton_eq. by eexists.
  - intros v0 Ev. destruct Hf as [Hf|Hf]; [congruence|]. assert (p_width p = v0) as -> by congruence.
    split; [done|split; [done|]]. by intros x ->%list_elem_of_singleton.
  - split_and!; cbn; try done.
    + rewrite length_replicate. lia.
    + intros i x _ E. apply lookup_replicate in E as [-> _]. done.
Qed.

(** C5. The elastic stack: in every interleaved execution, whatever its calls of
    [update_depth] and [update_width] with arguments in range, no access is invalid and
    no assertion fails, every sub-stack is a LIFO stack, nothing is lost or
    duplicated, and every finished thread's results are those of its own events
    in program order; provided that the width is never changed or that no window
    reaches past the arrays, and that there are less than [2^16 - 1] windows. *)
Theorem elastic_stack_linearizable {A : Allocator node_t} {LA : Allocator lateral_node_t}
    junk padding nt w d m k rb set g0 opss ls schedule :
  create_stack nt w d m k rb = Some (set, g0) -> set_ok set ->
  1 <= sdepth (window g0) < 2 ^ 16 -> 1 <= swidth (window g0) <= max_width set ->
  (forall i l, ls !! i = Some l -> thread_id l = i /\ Shared.thread_Window l = windows0) ->
  Forall (Forall (op_ok set)) opss ->
  let state n := exec (mkCfg g0 (clients (exec_op junk padding set) opss ls)) (take n schedule) in
  (forall n, (n <= length schedule)%nat -> Z.of_nat (length (wins (window (mem (state n))))) < 2 ^ 16 - 1) ->
  (Forall (Forall keeps_width) opss \/
   forall n, (n <= length schedule)%nat ->
     Forall (fun w => get_width w <= max_width set) (wins (window (mem (state n))))) ->
  Z.of_nat (length schedule) < 2 ^ 62 ->
  let final := exec (mkCfg g0 (clients (exec_op junk padding set) opss ls)) schedule in
  ~ faulty final /\ replayed (max_width set) (subs (mem final)) /\
  (forall i rs l os, pool final !! i = Some (Ret rs, l) -> opss !! i = Some os ->
     length rs = length os /\
     explains (max_width set) (stack_calls (zip os rs)) (events_of i (hist (subs (mem final))))).
Proof.
  intros Hc Hset Hd Hw Hls Hops state Hv Hin Hb final.
  assert (Hcase : exists fixed, (fixed = None \/ fixed = Some (swidth (window g0))) /\
    Forall (Forall (fun o => op_ok set o /\ (fixed <> None -> keeps_width o))) opss /\
    (fixed = None -> forall n, (n <= length schedule)%nat ->
       Forall (fun w => get_width w <= max_width set) (wins (window (mem (state n)))))).
  { destruct Hin as [Hk|Hin]; [exists (Some (swidth (window g0)))|exists None].
    - split; [by right|]. split; [|done]. rewrite !Forall_forall in *. intros os Hos.
      specialize (Hops os Hos). specialize (Hk os Hos). rewrite !Forall_forall in *. intros o Ho. split; auto.
    - split; [by left|]. split; [|done]. eapply Forall_impl; [exact Hops|]. intros os Hos.
      eapply Forall_impl; [exact Hos|]. by intros o Ho. }
  destruct Hcase as (fixed & Hf & Hops' & Hin').
  destruct (create_stack_ok _ _ _ _ _ _ _ _ fixed Hc Hset Hd Hw Hf) as [HI Hh].
  destruct (elastic_stack_run junk padding set Hset fixed g0 opss ls schedule HI Hh Hls Hops') as (HI' & HF & HQ).
  - intros n Hn. split; [by apply Hv|]. intros E. by apply Hin'.
  - done.
  - split; [exact HF|split; [|exact HQ]]. apply stacks_replayed, HI'.
Qed.

(** ** Examples *)

Section examples.
#[local] Instance node_allocator : Allocator node_t := bump_allocator _.
#[local] Instance lateral_allocator : Allocator lateral_node_t := bump_allocator _.

Definition example_set (m : Z) : mstack_t := mkStack 2 0 m 4.
(** Created with width [w], depth [d] and [m] sub-stacks. *)
Definition example_mem (w d m : Z) : estate :=
  mkShared (mkGlobals (mkWindow d d w w w 1 0) (mkLdesc 1 0 0) {[ 1 := mkLat 0 0 (m + 1) ]} d w [mkWindow d d w w w 1 0])
    (mkStacks (replicate (Z.to_nat m) (mkDesc 0 0)) (mkMem ∅ ∅) []).
Definition example_thread (i : nat) (s : seeds_t) : tls windows := mkTls i windows0 0 s stats0.
Definition stk (k : Z) : eop := StackOp (DoPush k (10 * k)).
Definition pop1 : eop := StackOp DoPop.
Definition example_exec := exec_op (fun _ => 0) (fun _ => 0) (example_set 3).

Definition example_ops : list (list eop) :=
  [[stk 1; UpdateWidth 3; stk 2; stk 3; UpdateDepth 2; pop1; stk 4; UpdateWidth 1; pop1];
   [stk 5; pop1; stk 6; stk 7; pop1; pop1; stk 8; pop1]].
Definition example_threads : list (tls windows) := [example_thread 0 (mkSeeds 3 5 7); example_thread 1 (mkSeeds 1 2 3)].
Definition example_schedule : list nat := concat (replicate 90 [0; 0; 0; 1; 1; 0; 1; 1])%nat.
Definition example_state n : cfg estate (tls windows) (list Z) :=
  exec (mkCfg (example_mem 2 1 3) (clients example_exec example_ops example_threads)) (take n example_schedule).

Definition in_arrays_b (m : Z) (g : estate) : bool :=
  (Z.of_nat (length (wins (window g))) <? 2 ^ 16 - 1) && forallb (fun w => get_width w <=? m) (wins (window g)).
Lemma in_arrays_compute m g :
  in_arrays_b m g = true ->
  Z.of_nat (length (wins (window g))) < 2 ^ 16 - 1 /\ Forall (fun w => get_width w <= m) (wins (window g)).
Proof.
  intros [H1%Z.ltb_lt H2]%andb_prop. split; [done|]. rewrite forallb_forall in H2.
  apply Forall_forall. intros w Hw. apply Z.leb_le, H2. by apply list_elem_of_In.
Qed.

Lemma example_in_arrays n :
  (n <= length example_schedule)%nat -> in_arrays_b 3 (mem (example_state n)) = true.
Proof.
  revert n. apply (prefixes_compute (fun c => in_arrays_b 3 (mem c)) example_state). vm_compute. reflexivity.
Qed.

Lemma elastic_stack_linearizable_witness :
  ~ faulty (exec (mkCfg (example_mem 2 1 3) (clients example_exec example_ops example_threads)) example_schedule).
Proof.
  refine (proj1 (elastic_stack_linearizable (fun _ => 0) (fun _ => 0) 1 2 1 3 4 0 (example_set 3) (example_mem 2 1 3)
    example_ops example_threads example_schedule eq_refl _ _ _ _ _ _ _ _)).
  - unfold set_ok. cbn. lia.
  - cbn. lia.
  - cbn. lia.
  - intros [|[|i]] l Hl; cbn in Hl; [| |done]; by injection Hl as <-.
  - repeat constructor; cbn; lia.
  - intros n Hn. exact (proj1 (in_arrays_compute 3 _ (example_in_arrays n Hn))).
  - right. intros n Hn. exact (proj2 (in_arrays_compute 3 _ (example_in_arrays n Hn))).
  - vm_compute. reflexivity.
Defined.

(** Elements are lost when the width shrinks.  [synchronize_lateral] looks for
    them in the padding between the array entries, so that no lateral node is
    made for them: once the window has moved, the second sub-stack is out of
    reach and [pop] answers 0 as if the stack were empty. *)
Example elastic_stack_loses_element :
  match run 5000 (let* rs := run_ops example_exec [stk 1; stk 2; UpdateWidth 1; stk 3; stk 4; pop1; pop1; pop1; pop1; pop1] in
      let* n := stack_size (example_set 3) in Ret (rs, n)) (example_mem 2 1 3) (example_thread 0 (mkSeeds 3 5 7)) with
  | Finished r _ _ => r = ([1; 1; 2; 1; 1; 40; 30; 10; 0; 0], 1)
  | _ => False
  end.
Proof. vm_compute. reflexivity. Qed.
End examples.
