(* ===== verification/ElasticStackSeq.v ===== *)
(** The elastic stack (src/2Dc-stack_elastic-lpw) used by one thread that changes
    the depth at will and never lowers the width: a stack that is k-out-of-order
    with a [k] that follows the dimensions. *)
From S2P Require Import Prelude Conc Random Thread Params StackHeap LifoOrder Shared SubStacks ElasticStack ElasticStackRuns.
From Stdlib Require Import Sorted.

(** ** The specification *)

(** An element: its sub-stack and row, its value and the largest depth of the
    windows since it was pushed. *)
Notation elem := (Z * Z * (Z * Z))%type.

Definition bump (d : Z) (q : list elem) : list elem :=
  (fun x : elem => (x.1, (x.2.1, Z.max x.2.2 d))) <$> q.

(** The row of the newest element of sub-stack [i], 0 if it is empty. *)
Definition top (i : Z) (q : list elem) : Z := from_option (fun x : elem => x.1.2) 0 (head (on i q)).

(** [es_run d0 w0 done q (m, d, w) next]: the calls and results [done] have led to
    the elements [q], the newest first, a window of depth [d] and width [w] up to
    row [m], and the depth and width [next] that are set for the next window.
    The window moves up exactly when its sub-stacks are all full, and down exactly
    when none has an element above its bottom [m - d] but the stack is not empty;
    it then takes the dimensions that are set.  A push goes to a sub-stack of the
    window that has room, a pop takes the newest element of one that reaches into
    the window, overtaking at most [(D + d) * (w - 1)] newer ones for the largest
    depth [D] since the element was pushed. *)
Inductive es_run (d0 w0 : Z) : list (eop * Z) -> list elem -> Z * Z * Z -> Z * Z -> Prop :=
| er_create : es_run d0 w0 [] [] (d0, d0, w0) (d0, w0)
| er_up done q m d w d' w' :
    es_run d0 w0 done q (m, d, w) (d', w') -> (forall i, 0 <= i < w -> m <= top i q) ->
    es_run d0 w0 done (bump d' q) (Z.max d' (m + (d' + 1) / 2), d', w') (d', w')
| er_down done q m d w d' w' :
    es_run d0 w0 done q (m, d, w) (d', w') -> (forall i, 0 <= i < w -> top i q <= m - d) -> q <> [] ->
    es_run d0 w0 done (bump d' q) (Z.max 0 (m - d - (d' + 1) / 2) + d', d', w') (d', w')
| er_push done q m d w next k v i :
    es_run d0 w0 done q (m, d, w) next -> 0 <= i < w -> top i q < m ->
    es_run d0 w0 (done ++ [(StackOp (DoPush k v), 1)])
      ((i, Z.max (top i q + 1) (m - d), (v, d)) :: q) (m, d, w) next
| er_pop done pre i r v D post m d w next :
    es_run d0 w0 done (pre ++ (i, r, (v, D)) :: post) (m, d, w) next ->
    0 <= i < w -> (forall x, x ∈ pre -> x.1.1 <> i) -> m - d < r ->
    Z.of_nat (length pre) <= (D + d) * (w - 1) ->
    es_run d0 w0 (done ++ [(StackOp DoPop, v)]) (pre ++ post) (m, d, w) next
| er_empty done win next :
    es_run d0 w0 done [] win next -> es_run d0 w0 (done ++ [(StackOp DoPop, 0)]) [] win next
| er_depth done q win d w v :
    es_run d0 w0 done q win (d, w) -> es_run d0 w0 (done ++ [(UpdateDepth v, d)]) q win (v, w)
| er_width done q win d w v :
    es_run d0 w0 done q win (d, w) -> w <= v -> es_run d0 w0 (done ++ [(UpdateWidth v, w)]) q win (d, v).

(** ** The elements *)

Lemma bump_on d i q : on i (bump d q) = bump d (on i q).
Proof.
  unfold bump. induction q as [|x q IH]; [done|]. rewrite fmap_cons, !filter_cons, IH. cbn [fst].
  by destruct (decide (x.1.1 = i)).
Qed.

(** [x] is newer than [y] in another sub-stack: it lies not more than the depth of
    [y] below. *)
Definition above (x y : elem) : Prop := x.1.1 <> y.1.1 -> y.1.2 <= x.1.2 + y.2.2.

(** The elements are in order, for a window of depth [d], width [w] and maximum
    [m]. *)
Record ordered (d w m : Z) (q : list elem) : Prop := mkOrdered {
  or_sorted : StronglySorted above q;
  or_nodup : NoDup q.*1;
  or_index : forall x, x ∈ q -> 0 <= x.1.1 < w;
  or_row : forall x, x ∈ q -> 1 <= x.1.2 <= m;
  or_depth : forall x, x ∈ q -> d <= x.2.2;
}.

Lemma bump_fst d q : (bump d q).*1 = q.*1.
Proof. unfold bump. rewrite <- list_fmap_compose. by apply list_fmap_ext. Qed.

Lemma elem_bump d q x : x ∈ bump d q -> exists y, y ∈ q /\ x = (y.1, (y.2.1, Z.max y.2.2 d)).
Proof. intros (y & -> & Hy)%list_elem_of_fmap. by exists y. Qed.

(** A new window. *)
Lemma ordered_shift d w m d' w' m' q :
  ordered d w m q -> w <= w' -> (forall x, x ∈ q -> x.1.2 <= m') -> ordered d' w' m' (bump d' q).
Proof.
  intros [H1 H2 H3 H4 H5] Hw Hm. split.
  - clear H2 H3 H4 H5 Hm. unfold bump. induction H1 as [|x q Hs IH Hf]; [constructor|]. rewrite fmap_cons.
    constructor; [done|]. rewrite Forall_fmap. eapply Forall_impl; [exact Hf|]. intros y Hy Hne. cbn in *.
    specialize (Hy Hne). lia.
  - by rewrite bump_fst.
  - intros x (y & Hy & ->)%elem_bump. cbn. specialize (H3 y Hy). lia.
  - intros x (y & Hy & ->)%elem_bump. cbn. specialize (H4 y Hy). specialize (Hm y Hy). lia.
  - intros x (y & Hy & ->)%elem_bump. cbn. lia.
Qed.

Lemma ordered_push d w m q i r v :
  ordered d w m q -> 0 <= d -> 0 <= i < w -> m - d <= r <= m -> 1 <= r -> (forall x, x ∈ q -> x.1.1 = i -> x.1.2 < r) ->
  ordered d w m ((i, r, (v, d)) :: q).
Proof.
  intros [H1 H2 H3 H4 H5] Hd Hi Hr Hr1 Htop. split.
  - constructor; [done|]. apply Forall_forall. intros y Hy _. cbn. specialize (H4 y Hy). specialize (H5 y Hy). lia.
  - rewrite fmap_cons. constructor; [|done]. intros (y & E & Hy)%list_elem_of_fmap. cbn in E.
    specialize (Htop y Hy). rewrite <- E in Htop. cbn in Htop. specialize (Htop eq_refl). lia.
  - intros x [->|Hx]%elem_of_cons; [done|by apply H3].
  - intros x [->|Hx]%elem_of_cons; [cbn; lia|by apply H4].
  - intros x [->|Hx]%elem_of_cons; [cbn; lia|by apply H5].
Qed.

(** A pop of an element in the window. *)
Lemma ordered_pop d w m q i r v D rest :
  ordered d w m q -> on i q = (i, r, (v, D)) :: rest -> m - d < r ->
  ordered d w m (drop_top i q) /\
  exists pre post, q = pre ++ (i, r, (v, D)) :: post /\ drop_top i q = pre ++ post /\
    (forall x, x ∈ pre -> x.1.1 <> i) /\ Z.of_nat (length pre) <= (D + d) * (w - 1).
Proof.
  intros [H1 H2 H3 H4 H5] Eon Hr.
  destruct (drop_top_split i _ _ _ Eon) as (pre & post & -> & Hpre & ->).
  assert (Hin : (i, r, (v, D)) ∈ pre ++ (i, r, (v, D)) :: post) by set_solver.
  assert (Hsub : forall x, x ∈ pre ++ post -> x ∈ pre ++ (i, r, (v, D)) :: post) by set_solver.
  destruct (sorted_remove _ _ _ _ H1) as [Hs Hab]. split.
  - split; [done| | | |]; [|by intros x Hx; apply H3, Hsub|by intros x Hx; apply H4, Hsub|by intros x Hx; apply H5, Hsub].
    rewrite fmap_app in H2 |- *. cbn in H2. apply NoDup_app in H2 as (N1 & N2 & N3).
    apply NoDup_cons in N3 as [_ N3]. apply NoDup_app. split_and!; [done| |done]. intros x Hx Hx'. eapply N2; [exact Hx|by right].
  - exists pre, post. split; [done|split; [done|split; [exact Hpre|]]].
    rewrite <- (length_fmap fst pre). pose proof (H4 _ Hin) as Hrow. pose proof (H3 _ Hin) as Hi.
    pose proof (H5 _ Hin) as HD. cbn in Hrow, Hi, HD.
    destruct pre as [|y0 pre0] eqn:Epre; [cbn; nia|]. rewrite <- Epre in *.
    assert (0 <= D + d).
    { assert (Hy0 : y0 ∈ pre) by (rewrite Epre; set_solver).
      specialize (Hab y0 Hy0 (Hpre y0 Hy0)). cbn in Hab. specialize (H4 y0 ltac:(set_solver)). lia. }
    apply (places_bound w (D + d) (r - D - 1) i); [done|lia| |].
    + rewrite fmap_app in H2. by apply NoDup_app in H2 as [? _].
    + intros j k ([[j' k'] p] & [= -> ->] & Hy)%list_elem_of_fmap.
      assert (Hyq : (j', k', p) ∈ pre ++ (i, r, (v, D)) :: post) by set_solver.
      specialize (Hab _ Hy (Hpre _ Hy)). cbn in Hab. pose proof (H4 _ Hyq) as Hk. pose proof (H3 _ Hyq) as Hj. cbn in Hk, Hj.
      split; [done|split; [by apply (Hpre _ Hy)|]]. lia.
Qed.

(** ** The memory *)

(** The nodes from [p] on, whose first has the count [c], hold the elements [xs]. *)
Fixpoint holds (m : memory_of node_t) (p c : Z) (xs : list elem) : Prop :=
  match xs with
  | [] => p = 0 /\ c = 0
  | x :: xs => p <> 0 /\ priv m !! p = None /\ c = x.1.2 /\
      exists n, nodes m !! p = Some n /\ val n = x.2.1 /\ 0 <= next_count n < c /\ holds m (next n) (next_count n) xs
  end.

Lemma holds_keeps m m' p c xs : keeps m m' None -> holds m p c xs -> holds m' p c xs.
Proof.
  intros Hk. revert p c. induction xs as [|x xs IH]; intros p c; cbn; [done|].
  intros (? & P & ? & n & E & ? & ? & H). destruct (Hk p n E P). split_and!; try done.
  exists n. split_and!; try done; try lia. by apply IH.
Qed.

Lemma holds_bump m p c d xs : holds m p c xs -> holds m p c (bump d xs).
Proof.
  revert p c. induction xs as [|x xs IH]; intros p c; cbn; [done|].
  intros (? & ? & ? & n & ? & ? & ? & H). split_and!; try done. exists n. split_and!; try done; try lia. by apply IH.
Qed.

Lemma holds_count m p c xs : holds m p c xs -> 0 <= c /\ (c = 0 <-> xs = []) /\ (p = 0 <-> xs = []).
Proof.
  destruct xs as [|x xs]; cbn.
  - intros [-> ->]. split_and!; done.
  - intros (Hp & _ & _ & n & _ & _ & Hn & _). split; [lia|]. split; split; try done; lia.
Qed.

(** Every element lies at or below the count. *)
Lemma holds_rows m p c xs x : holds m p c xs -> x ∈ xs -> 1 <= x.1.2 <= c.
Proof.
  revert p c. induction xs as [|y xs IH]; intros p c; cbn; [by intros _ ?%elem_of_nil|].
  intros (_ & _ & -> & n & _ & _ & Hn & H) [->|Hx]%elem_of_cons; [lia|]. specialize (IH _ _ H Hx). lia.
Qed.

(** The lateral stack below [(a, c)] has [k] nodes; those that say anything about
    rows, the counts being positive, have widths up to [w]. *)
Fixpoint lchain (w : Z) (m : gmap Z lateral_node_t) (a c : Z) (k : nat) : Prop :=
  match k with
  | O => a = 0 /\ c = 0
  | S k => exists n, m !! a = Some n /\ a <> 0 /\ 0 <= c /\ (0 < c -> 1 <= lwidth n <= w) /\ 0 <= lwidth n < 2 ^ 16 /\
      lchain w m (lnext n) (lnext_count n) k
  end.

Lemma lchain_subset w w' m m' a c k : m ⊆ m' -> w <= w' -> lchain w m a c k -> lchain w' m' a c k.
Proof.
  intros Hs Hw. revert a c. induction k as [|k IH]; intros a c; cbn; [done|].
  intros (n & E & Ha & Hc & Hn & Hl & H). exists n. split; [by eapply lookup_weaken|]. split; [done|split; [done|]].
  split; [intros Hp; specialize (Hn Hp); lia|]. split; [done|by apply IH].
Qed.

Lemma lchain_node w m a c k : lchain w m a c k -> (0 < c \/ a <> 0) -> exists k' n, k = S k' /\ m !! a = Some n /\
  a <> 0 /\ 0 <= c /\ (0 < c -> 1 <= lwidth n <= w) /\ 0 <= lwidth n < 2 ^ 16 /\ lchain w m (lnext n) (lnext_count n) k'.
Proof.
  destruct k as [|k]; cbn; [intros [-> ->]; lia|]. intros (n & H) _. by exists k, n.
Qed.

Lemma lchain_count w m a c k : lchain w m a c k -> 0 <= c.
Proof. destruct k; cbn; [intros [_ ->]; done|]. by intros (n & _ & _ & ? & _). Qed.

Section alone.
Context {A : Allocator node_t} {LA : Allocator lateral_node_t}.
Context (junk : tls windows -> Z) (padding : Z -> Z).
Context (set : mstack_t) (Hset : set_ok set) (dm : Z) (Hdm : dm < 2 ^ 16).
Notation mw := (max_width set).
Notation SB := (joint no_window (sprot mw (2 ^ 63)) : protocol estate).
Notation P := (alone SB).
Notation Win g := (global_Window (window g)).
Notation Lats g := (lnodes (window g)).
Notation tw l := (thread_Window (Shared.thread_Window l)).
Notation put_index l := (thread_put_index (Shared.thread_Window l)).
Notation get_index l := (thread_get_index (Shared.thread_Window l)).
Implicit Types (g : estate) (l : tls windows) (w : window_t).

Lemma e_alone_rely g g' : p_rely P 0 g g' -> g' = g.
Proof. intros R. by apply R. Qed.

Lemma alone_load_g {X} (f : globals -> X) (Q : X -> estate -> tls windows -> Prop) g l :
  Q (f (window g)) g l -> wp P 0 (load_g f) Q g l.
Proof. intros HQ. apply wp_load_var; [apply _|]. intros g1 R1 _ _. by rewrite (e_alone_rely _ _ R1). Qed.

Lemma e_alone_my {X} (f : windows -> X) (Q : X -> estate -> tls windows -> Prop) g l :
  Q (f (Shared.thread_Window l)) g l -> wp P 0 (my f) Q g l.
Proof. done. Qed.

Lemma alone_lat a n (Q : lateral_node_t -> estate -> tls windows -> Prop) g l :
  Lats g !! a = Some n -> Q n g l -> wp P 0 (load_lat a) Q g l.
Proof. intros E HQ. apply wp_load; [apply _|]. intros g1 R1 _ _. rewrite (e_alone_rely _ _ R1). by exists n. Qed.

(** A change of the window's part of the memory. *)
Lemma alone_win g r : p_inv SB g -> p_guar P 0 g (set_window r g) /\ p_inv P (set_window r g).
Proof. intros [_ Hs]. split; [|by split]. split; [intros _; split; [done|apply guar_refl]|done]. Qed.

Lemma alone_read_desc i d (Q : descriptor_t -> estate -> tls windows -> Prop) g l :
  lookup_desc i g = Some d -> Q d g l -> wp P 0 (read_desc i) Q g l.
Proof.
  intros E HQ. unfold read_desc. wp_local. apply wp_load; [apply _|]. intros g1 R1 _ _. rewrite (e_alone_rely _ _ R1), E.
  exists (node d). split; [done|]. wp_local. apply wp_load; [apply _|]. intros g2 R2 _ _. rewrite (e_alone_rely _ _ R2), E.
  exists (count d). split; [done|]. wp_local. by destruct d.
Qed.

(** *** The lateral stack *)

(** Only the lateral stack has changed. *)
Record lat_moved g g' : Prop := mkLatMoved {
  lm_inv : p_inv SB g';
  lm_subs : subs g' = subs g;
  lm_win : Win g' = Win g;
  lm_depth : sdepth (window g') = sdepth (window g);
  lm_width : swidth (window g') = swidth (window g);
  lm_lats : Lats g ⊆ Lats g';
}.
Lemma lat_moved_refl g : p_inv SB g -> lat_moved g g.
Proof. by split. Qed.
Lemma lat_moved_trans g1 g2 g3 : lat_moved g1 g2 -> lat_moved g2 g3 -> lat_moved g1 g3.
Proof. intros [] []. split; try congruence. by etrans. Qed.
#[local] Hint Resolve lat_moved_refl lat_moved_trans : core.

Lemma alone_create nxt c wd (Q : Z -> estate -> tls windows -> Prop) g l :
  p_inv SB g -> 0 <= wd < 2 ^ 16 ->
  (forall a g', lat_moved g g' -> lateral (window g') = lateral (window g) -> a <> 0 ->
     Lats g' !! a = Some (mkLat nxt c wd) -> Q a g' l) ->
  wp P 0 (create_lateral_node nxt c wd) Q g l.
Proof.
  intros HI Hwd HQ g1 R1 _ _. rewrite (e_alone_rely _ _ R1). cbv zeta. rewrite (wrap_small 16 wd) by lia.
  destruct (alloc_addr_ok (Lats g)) as [Ha0 Ha]. set (a := alloc_addr (Lats g)) in *.
  set (r := set_lnodes _ _). destruct (alone_win g r HI) as [HG HI'].
  split; [exact HG|split; [exact HI'|]]. apply HQ; [|done|done|by cbn; rewrite lookup_insert_eq].
  split; try done. by apply insert_subseteq.
Qed.

Lemma alone_free (v : Z) a c k b (Q : unit -> estate -> tls windows -> Prop) g l :
  lchain v (Lats g) a c k -> Q tt g l -> wp P 0 (free_nodes_until a b) Q g l.
Proof.
  intros Hc HQ.
  apply (wp_while P 0 _ _ _ _ (fun n a g' l' => g' = g /\ l' = l /\ exists c, lchain v (Lats g) a c n) k).
  - split; [done|split; [done|by exists c]].
  - intros n a' g1 l1 (-> & -> & c' & Hc'). destruct (Z.eqb_spec a' 0) as [E|E].
    { rewrite Bool.andb_false_r. wp_locals. exact HQ. }
    destruct (Z.eqb_spec a' b) as [Eb|Eb]; cbn [negb andb]; [wp_locals; exact HQ|].
    destruct (lchain_node _ _ _ _ _ Hc' (or_intror E)) as (k' & x & -> & Ex & _ & _ & _ & _ & Hn).
    wp_local. apply (alone_lat _ x); [done|]. wp_locals. exists k'. split; [intros _; lia|].
    split; [done|split; [done|by exists (lnext_count x)]].
Qed.

(** A node passed by [replace_down]. *)
Definition passed_ok (w : Z) (m : gmap Z lateral_node_t) (x : Z * Z) : Prop :=
  1 <= x.2 /\ x.1 <> 0 /\ exists n, m !! x.1 = Some n /\ 1 <= lwidth n <= w /\ lwidth n < 2 ^ 16.

Lemma alone_replace_down (v : Z) w a c k (Q : Z * Z * list (Z * Z) -> estate -> tls windows -> Prop) g l :
  1 <= lower_narrower_count w -> lchain v (Lats g) a c k ->
  (forall a' c' above k', lchain v (Lats g) a' c' k' -> Forall (passed_ok v (Lats g)) above -> Q (a', c', above) g l) ->
  wp P 0 (replace_down w a c) Q g l.
Proof.
  intros Hlim Hc HQ.
  apply (wp_while P 0 _ _ _ _ (fun n '(a, c, above) g' l' => g' = g /\ l' = l /\ lchain v (Lats g) a c n /\
    Forall (passed_ok v (Lats g)) above) k).
  - by split_and!.
  - intros n [[a' c'] above] g1 l1 (-> & -> & Hc' & Hab).
    destruct (Z.ltb_spec c' (lower_narrower_count w)) as [Hlt|Hge]; [wp_locals; by eapply HQ|].
    destruct (lchain_node _ _ _ _ _ Hc') as (k' & x & -> & Ex & Ha & Hc0 & Hp & Hl & Hn); [lia|].
    wp_local. apply (alone_lat _ x); [done|]. wp_locals. exists k'. split; [intros _; lia|].
    split; [done|split; [done|split; [done|]]]. constructor; [|done]. split; [cbn; lia|split; [done|]].
    exists x. split; [done|]. split; [apply Hp; lia|lia].
Qed.

Lemma new_count_range w c lim lw pw :
  0 <= c -> 1 <= lim -> 0 <= lateral_new_count w c lim lw pw.
Proof.
  intros Hc Hl. unfold lateral_new_count. pose proof (wrap_range 32 (max w - Z.shiftr (depth w) 1)).
  repeat match goal with |- context [if ?b then _ else _] => destruct b end; lia.
Qed.

Lemma alone_replace_node (v : Z) w a c nx k (Q : update_tuple_t -> estate -> tls windows -> Prop) g l :
  p_inv SB g -> 1 <= lower_narrower_count w -> passed_ok v (Lats g) (a, c) -> lchain v (Lats g) (tnode nx) (tcount nx) k ->
  (forall r k' g', lat_moved g g' -> lateral (window g') = lateral (window g) ->
     lchain v (Lats g') (tnode r) (tcount r) k' -> Q r g' l) ->
  wp P 0 (replace_node w a c nx) Q g l.
Proof.
  intros HI Hlim (Hc & Ha & n & En & Hw & Hw') Hnx HQ. cbn [fst snd] in *. unfold replace_node. wp_local.
  apply (alone_lat _ n); [done|]. cbv zeta.
  pose proof (new_count_range w c (lower_narrower_count w) (lwidth n) (put_width w) ltac:(lia) Hlim) as Hnew.
  set (nc := lateral_new_count _ _ _ _ _) in *.
  set (same := (tnode nx =? lnext n) && (tcount nx =? lnext_count n)).
  assert (Hself : same = true -> forall c', 0 <= c' -> lchain v (Lats g) a c' (S k)).
  { intros Es c' Hc'. apply andb_prop in Es as [E1%Z.eqb_eq E2%Z.eqb_eq]. cbn. exists n. rewrite <- E1, <- E2. split_and!; try done; lia. }
  assert (Hret : Q nx g l) by (by apply (HQ nx k)).
  assert (Hkeep : forall c', 0 <= c' -> same = true -> Q (mkTuple c' a a) g l).
  { intros c' Hc' E. apply (HQ _ (S k)); [by apply lat_moved_refl|done|]. by apply Hself. }
  destruct same; cbn [andb].
  - destruct (_ =? _); [wp_locals; apply Hkeep; [lia|done]|]. destruct (_ <=? _); [by wp_locals|].
    destruct (_ <? _); [wp_locals; by apply Hkeep|].
    wp_local. apply alone_create; [done|lia|]. intros b g' L El Hb Eb. wp_locals. apply (HQ _ (S k)); [done|done|].
    exists (mkLat (tnode nx) (tcount nx) (lwidth n)). cbn [lwidth lnext lnext_count].
    split_and!; try done; try lia. eapply lchain_subset; [apply L|done|done].
  - destruct (_ <=? _); [by wp_locals|].
    wp_local. apply alone_create; [done|lia|]. intros b g' L El Hb Eb. wp_locals. apply (HQ _ (S k)); [done|done|].
    exists (mkLat (tnode nx) (tcount nx) (lwidth n)). cbn [lwidth lnext lnext_count].
    split_and!; try done; try lia. eapply lchain_subset; [apply L|done|done].
Qed.

Lemma passed_ok_subset (v : Z) m m' x : m ⊆ m' -> passed_ok v m x -> passed_ok v m' x.
Proof. intros Hs (? & ? & n & E & ?). split; [done|split; [done|]]. exists n. split; [by eapply lookup_weaken|done]. Qed.

Lemma alone_replace (v : Z) w a c k (Q : update_tuple_t -> estate -> tls windows -> Prop) g l :
  p_inv SB g -> 1 <= lower_narrower_count w -> lchain v (Lats g) a c k ->
  (forall r k' g', lat_moved g g' -> lateral (window g') = lateral (window g) ->
     lchain v (Lats g') (tnode r) (tcount r) k' -> Q r g' l) ->
  wp P 0 (replace_lateral_node w a c) Q g l.
Proof.
  intros HI Hlim Hc HQ. unfold replace_lateral_node. wp_local. apply (alone_replace_down v w a c k); [done|done|].
  intros a' c' above k' Hc' Hab.
  assert (Hup : forall above nx k g1, lat_moved g g1 -> lateral (window g1) = lateral (window g) ->
    Forall (passed_ok v (Lats g1)) above -> lchain v (Lats g1) (tnode nx) (tcount nx) k ->
    wp P 0 (replace_up w above nx) Q g1 l); [|by apply (Hup _ _ k')].
  clear a' c' above k' Hc' Hab. intros above. induction above as [|[a' c'] above IH]; intros nx k' g1 L E Hab Hnx; cbn [replace_up].
  - wp_local. by apply (HQ nx k').
  - apply Forall_cons_1 in Hab as [Hx Hab]. wp_local. apply (alone_replace_node v w a' c' nx k'); try done; [apply L|].
    intros r k2 g2 L2 E2 Hr. apply (IH r k2); [by eapply lat_moved_trans|congruence| |done].
    eapply Forall_impl; [exact Hab|]. intros x. apply passed_ok_subset, L2.
Qed.

(** *** The window *)

(** The window between the steps: it reaches all sub-stacks in use. *)
Record win_inv g : Prop := mkWinInv {
  vi_inv : p_inv SB g;
  vi_depth : 1 <= depth (Win g) <= dm;
  vi_max : depth (Win g) <= max (Win g) < 2 ^ 32 - 2 ^ 16;
  vi_get : get_width (Win g) = put_width (Win g);
  vi_put : 1 <= put_width (Win g) <= swidth (window g);
  vi_old : 1 <= old_put_width (Win g) <= put_width (Win g);
  vi_width : swidth (window g) <= mw;
  vi_sdepth : 1 <= sdepth (window g) <= dm;
  vi_lat : exists k, lchain (put_width (Win g)) (Lats g) (lnode (lateral (window g))) (lcount (lateral (window g))) k;
}.

(** The thread has the window. *)
Definition synced g l : Prop := thread_id l = 0%nat /\ tw l = Win g /\ 0 <= put_index l /\ 0 <= get_index l.

Lemma alone_limit g : win_inv g -> 1 <= lower_narrower_count (Win g).
Proof. intros []. unfold lower_narrower_count. rewrite wrap_small; lia. Qed.

Lemma alone_maybe_push v w a c k (Q : Z * Z -> estate -> tls windows -> Prop) g l :
  p_inv SB g -> put_width w = v -> 1 <= old_put_width w <= v -> v < 2 ^ 16 -> lchain v (Lats g) a c k ->
  (forall a' c' k' g', lat_moved g g' -> lateral (window g') = lateral (window g) ->
     lchain v (Lats g') a' c' k' -> Q (a', c') g' l) ->
  wp P 0 (maybe_push_lateral padding w a c) Q g l.
Proof.
  intros HI Ev Ho Hv Hc HQ. unfold maybe_push_lateral.
  destruct (_ && _).
  - unfold push_lateral. wp_local. apply alone_create; [done|lia|]. intros b g' L El Hb Eb. wp_locals.
    apply (HQ _ _ (S k)); [done|done|]. eexists. split; [exact Eb|]. cbn [lwidth lnext lnext_count].
    split; [done|]. split; [apply wrap_range; lia|]. split; [lia|]. split; [lia|].
    eapply lchain_subset; [apply L|done|done].
  - rewrite (proj2 (Z.ltb_ge _ _)) by lia. wp_locals. by apply (HQ _ _ k); [apply lat_moved_refl|..].
Qed.

Lemma alone_synchronize (Q : unit -> estate -> tls windows -> Prop) g l :
  win_inv g -> synced g l -> (forall g', lat_moved g g' -> win_inv g' -> Q tt g' l) ->
  wp P 0 (synchronize_lateral padding) Q g l.
Proof.
  intros HW (_ & Etw & _) HQ. unfold synchronize_lateral. pose proof HW as [HI Hd Hm Hg Hp Ho Hw Hsd (k & Hlat)].
  destruct Hset as [_ Hmw].
  wp_local. apply alone_load_g. wp_local. apply alone_load_g. wp_local. apply alone_load_g. wp_local. apply alone_load_g.
  wp_local. apply e_alone_my. rewrite Etw. destruct (negb _); [wp_locals; by apply HQ; [apply lat_moved_refl|]|].
  destruct (_ =? _); [wp_locals; by apply HQ; [apply lat_moved_refl|]|].
  set (v := put_width (Win g)) in *. set (n := lnode _) in *. set (c := lcount _) in *. wp_local.
  apply (alone_replace v _ _ _ k); [done|by apply alone_limit|done|]. intros r k1 g1 L1 E1 Hr. wp_local.
  (* The exchange. *)
  assert (Hwork : forall a k' c' g2, lat_moved g g2 -> lateral (window g2) = lateral (window g) ->
    lchain v (Lats g2) a c' k' ->
    wp P 0 (if negb (c' =? c) || negb (a =? n) then
      let* ok := cae_lateral (mkLdesc n c (lversion (lateral (window g)))) (mkLdesc a c' (version (Win g))) in
      if (ok : bool) then free_nodes_until n (tbase r) else free_nodes_until a (tbase r)
    else Ret tt) Q g2 l).
  { intros a k' c' g2 L2 E2 Ha. pose proof L2 as [M1 M2 M3 M4 M5 M6]. destruct (_ || _).
    2: { wp_locals. apply HQ; [done|]. split; rewrite ?M3, ?M4, ?M5; try done.
      exists k. rewrite E2. by eapply lchain_subset. }
    wp_local. intros g3 R3 _ _. rewrite (e_alone_rely _ _ R3). cbn.
    destruct (decide (lateral (window g2) = _)) as [Ed|Hne]; cbn.
    2: { destruct Hne. rewrite E2. unfold n, c. by destruct (lateral (window g)). }
    set (r' := set_lateral _ _). destruct (alone_win g2 r' M1) as [HG HI'].
    split; [exact HG|split; [exact HI'|]]. set (g3' := set_window r' g2) in *.
    assert (L3 : lat_moved g g3') by (by split).
    apply (alone_free v n c k); [by eapply lchain_subset; [apply L3|done|]|].
    apply HQ; [done|]. split; cbn [g3' set_window window r' set_lateral global_Window swidth sdepth lateral lnode lcount lnodes]; rewrite ?M3, ?M4, ?M5; try done.
    by exists k'. }
  destruct (Z.eqb_spec v (old_put_width (Win g))) as [Ev|Ev]; cbn [negb].
  - wp_local. by apply (Hwork _ k1).
  - apply (alone_maybe_push v _ _ _ k1); [apply L1|done|done|lia|done|]. intros a c' k2 g2 L2 E2 Ha.
    apply (Hwork _ k2); [by eapply lat_moved_trans|congruence|done].
Qed.

Lemma alone_shift_width bottom nw (Q : Z -> estate -> tls windows -> Prop) g l :
  win_inv g -> put_width (Win g) <= nw -> Q nw g l ->
  wp P 0 (shift_width bottom (put_width (Win g)) nw) Q g l.
Proof.
  intros HW Hnw HQ. destruct (vi_lat g HW) as (k & Hlat). unfold shift_width. wp_local. apply alone_load_g.
  wp_local. apply alone_load_g. rewrite (proj2 (Z.leb_le _ _) Hnw).
  apply (wp_while P 0 _ _ _ _ (fun k '(a, c, r) g' l' => g' = g /\ l' = l /\ r = nw /\
    lchain (put_width (Win g)) (Lats g) a c k) k); [by split_and!|].
  intros n [[a c] r] g1 l1 (-> & -> & -> & Hc). pose proof (wrap_range 32 (bottom + 1)).
  destruct (Z.ltb_spec (u32 (bottom + 1)) c) as [Hlt|Hge]; [|wp_locals; exact HQ].
  destruct (lchain_node _ _ _ _ _ Hc) as (k' & x & -> & Ex & _ & _ & Hw & _ & Hn); [lia|].
  wp_local. apply (alone_lat _ x); [done|]. wp_locals. exists k'. split; [intros _; lia|].
  rewrite (proj2 (Z.ltb_ge _ _)) by lia. by split_and!.
Qed.

(** A shift of the window; what it does to the dimensions. *)
Definition shifted (m : Z) g g' : Prop :=
  subs g' = subs g /\ swidth (window g') = swidth (window g) /\ sdepth (window g') = sdepth (window g) /\
  max (Win g') = m /\ depth (Win g') = sdepth (window g) /\ put_width (Win g') = swidth (window g).

Lemma alone_shift_window f (Q : unit -> estate -> tls windows -> Prop) g l :
  let m := f (max (Win g)) (sdepth (window g)) (depth (Win g)) in
  win_inv g -> synced g l -> sdepth (window g) <= m < 2 ^ 32 - 2 ^ 16 ->
  (forall g' l', shifted m g g' -> win_inv g' -> synced g' l' -> put_index l' = put_index l -> get_index l' = get_index l ->
     Q tt g' l') ->
  wp P 0 (shift_window junk padding f) Q g l.
Proof.
  intros m HW Hl Hm HQ. unfold shift_window. wp_local. apply alone_synchronize; [done|done|].
  intros g1 [M1 M2 M3 M4 M5 M6] HW1. pose proof HW1 as [HI Hd _ Hg Hp Ho Hw Hsd Hlat]. pose proof Hl as (Ht & Etw & Hpi & Hgi).
  wp_local. apply e_alone_my. rewrite Etw, <- M3. wp_local. apply alone_load_g. wp_local. apply alone_load_g. cbv zeta.
  wp_local. apply alone_shift_width; [done|lia|]. wp_local. apply wp_get.
  replace (f (max (Win g1)) (sdepth (window g1)) (depth (Win g1))) with m by (unfold m; by rewrite M3, M4).
  set (new := mkWindow _ _ _ _ _ _ _). wp_local. apply wp_assert; [apply Z.leb_le; lia|].
  wp_local. apply alone_load_g. rewrite Z.eqb_refl. wp_local. unfold cae_window.
  intros g2 R2 _ _. rewrite (e_alone_rely _ _ R2). rewrite decide_True by congruence.
  destruct (alone_win g1 (add_window new (window g1)) HI) as [HG HI2].
  split; [exact HG|split; [exact HI2|]]. wp_locals.
  apply HQ; [|split; cbn; try done; try lia|by split_and!|done|done].
  - split_and!; cbn; congruence.
  - destruct Hlat as (k & Hlat). exists k. apply (lchain_subset (put_width (Win g1)) _ (Lats g1)); [done| |exact Hlat]. lia.
Qed.

Lemma alone_read_window (Q : unit -> estate -> tls windows -> Prop) g l :
  Q tt g (upd (set_local_window (Win g)) l) -> wp P 0 read_window Q g l.
Proof.
  intros HQ g1 R1 I1 _. rewrite (e_alone_rely _ _ R1) in *. split; [apply (guar_refl (P := P))|by split].
Qed.

(** *** The stack *)

Definition bottom g : Z := max (Win g) - depth (Win g).

Record stack_inv (q : list elem) g : Prop := mkStackInv {
  si_win : win_inv g;
  si_sub : forall i d, 0 <= i -> lookup_desc i g = Some d -> holds (heap (subs g)) (node d) (count d) (on i q);
  si_vals : forall i, 0 <= i -> contents i (hist (subs g)) = (fun x => x.2.1) <$> on i q;
  si_ord : ordered (depth (Win g)) (put_width (Win g)) (max (Win g)) q;
}.

Lemma desc_exists g i : win_inv g -> 0 <= i < mw -> exists d, lookup_desc i g = Some d.
Proof. intros [[_ Hs] _ _ _ _ _ _ _ _] Hi. by apply (sub_lookup mw (subs g) i Hs). Qed.

(** The count of a sub-stack is the row of its newest element. *)
Lemma count_range q g i d : stack_inv q g -> 0 <= i -> lookup_desc i g = Some d -> 0 <= count d <= max (Win g).
Proof.
  intros [HW Hs _ Ho] Hi E. specialize (Hs i d Hi E). pose proof (holds_count _ _ _ _ Hs) as [H0 _].
  split; [done|]. destruct HW. destruct (on i q) as [|x xs] eqn:Eon; cbn in Hs; [lia|].
  destruct Hs as (_ & _ & -> & _). assert (Hx : x ∈ on i q) by (rewrite Eon; set_solver).
  apply list_elem_of_filter in Hx as [_ Hx]. apply (or_row _ _ _ _ Ho x Hx).
Qed.

Lemma top_count q g i d : stack_inv q g -> 0 <= i -> lookup_desc i g = Some d -> top i q = count d.
Proof.
  intros [_ Hs _ _] Hi E. specialize (Hs i d Hi E). unfold top. destruct (on i q); cbn in *; [by destruct Hs|].
  by destruct Hs as (_ & _ & -> & _).
Qed.

(** An element lies at or below the count of its sub-stack. *)
Lemma elem_count q g x d : stack_inv q g -> x ∈ q -> lookup_desc x.1.1 g = Some d -> 1 <= x.1.2 <= count d.
Proof.
  intros [_ Hs _ Ho] Hx E. pose proof (or_index _ _ _ _ Ho x Hx).
  apply (holds_rows _ _ _ _ x (Hs x.1.1 d ltac:(lia) E)). by apply list_elem_of_filter.
Qed.

Lemma elem_desc q g x : stack_inv q g -> x ∈ q ->
  exists d, lookup_desc x.1.1 g = Some d /\ 0 <= x.1.1 < put_width (Win g) /\ 1 <= x.1.2 <= count d.
Proof.
  intros HS Hx. pose proof (or_index _ _ _ _ (si_ord _ _ HS) x Hx) as Hi. pose proof (si_win _ _ HS) as HW.
  destruct (desc_exists g x.1.1 HW) as [d E]; [destruct HW; lia|]. exists d. split; [done|split; [done|]].
  by apply (elem_count q g).
Qed.

Lemma stack_shift m q g g' :
  stack_inv q g -> shifted m g g' -> win_inv g' -> (forall x, x ∈ q -> x.1.2 <= m) ->
  stack_inv (bump (sdepth (window g)) q) g'.
Proof.
  intros [HW Hs Hv Ho] (Es & Ew & Esd & Em & Ed & Ep) HW' Hm. split; [done| | |].
  - intros i d Hi E. unfold lookup_desc in E. rewrite Es in E |- *. rewrite bump_on. by apply holds_bump, Hs.
  - intros i Hi. rewrite Es, Hv, bump_on by done. unfold bump. rewrite <- list_fmap_compose. by apply list_fmap_ext.
  - rewrite Ed, Ep, Em. eapply ordered_shift; [exact Ho| |done]. destruct HW. lia.
Qed.

Section window_ops.
Context (d0 w0 : Z) (done : list (eop * Z)) (b : Z) (Hb : 0 <= b /\ b + 2 * dm < 2 ^ 32 - 2 ^ 16).
Context (Hrh : 0 <= random_hops set < 2 ^ 8) (S0 : estacks).

(** What holds in the middle of an operation. *)
Definition ready q g l : Prop :=
  es_run d0 w0 done q (max (Win g), depth (Win g), put_width (Win g)) (sdepth (window g), swidth (window g)) /\
  stack_inv q g /\ synced g l /\ subs g = S0.

Lemma ready_shift m q g l g' l' :
  ready q g l -> shifted m g g' -> win_inv g' -> synced g' l' -> (forall x, x ∈ q -> x.1.2 <= m) ->
  es_run d0 w0 done (bump (sdepth (window g)) q) (m, sdepth (window g), swidth (window g))
    (sdepth (window g), swidth (window g)) ->
  ready (bump (sdepth (window g)) q) g' l'.
Proof.
  intros (_ & HS & _ & Esub) Hsh HW' Hl' Hm Hrun. split; [|split; [by eapply stack_shift|split; [done|]]].
  - by destruct Hsh as (_ & -> & -> & -> & -> & ->).
  - by destruct Hsh as (-> & _).
Qed.

Lemma alone_hop index random hops (w : Z) (Q : Z * Z * Z -> estate -> tls windows -> Prop) g l :
  1 <= w < 2 ^ 16 -> 0 <= index < w -> 0 <= random <= random_hops set -> 0 <= hops < w ->
  (forall r s st, 0 <= r < w -> random < random_hops set -> Q (r, random + 1, hops) g (with_rng s st l)) ->
  (forall s st, random = random_hops set -> Q (next_index w index, random, hops + 1) g (with_rng s st l)) ->
  wp P 0 (hop set index random hops w) Q g l.
Proof.
  intros Hw Hi Hr Hh HQ HQ'. unfold hop. wp_locals. destruct (Z.ltb_spec random (random_hops set)) as [Hlt|Hge].
  - wp_local. apply wp_shared_random; [lia|]. intros r s Hrw. wp_locals. rewrite wrap_small by lia. by apply HQ.
  - wp_locals. rewrite !wrap_small by lia. apply (HQ' (seeds l)). lia.
Qed.

Lemma synced_put g l i s st : synced g l -> 0 <= i -> synced g (upd (set_put_index i) (with_rng s st l)).
Proof. by intros (? & ? & ? & ?). Qed.
Lemma synced_get g l i s st : synced g l -> 0 <= i -> synced g (upd (set_get_index i) (with_rng s st l)).
Proof. by intros (? & ? & ? & ?). Qed.
Lemma ready_synced q g l l' : ready q g l -> synced g l' -> ready q g l'.
Proof. by intros (? & ? & _ & ?) ?. Qed.

(** *** [put_window] *)

Definition put_left (hops random w : Z) : nat := S (Z.to_nat (random_hops set - random + (w - hops))).

(** Until the window is shifted, the sub-stacks seen are full; then all have
    room. *)
Definition put_loop (n : nat) '((hops, random) : Z * Z) g l : Prop :=
  (exists q, ready q g l) /\ put_index l < put_width (Win g) /\ 0 <= random <= random_hops set /\
  0 <= hops <= put_width (Win g) /\
  (bottom g <= b + dm /\ (forall i d, 0 <= i < put_width (Win g) -> lookup_desc i g = Some d -> count d < max (Win g)) \/
   bottom g <= b /\ n = put_left hops random (put_width (Win g)) /\ (hops = 0 \/ random = random_hops set) /\
   seen (put_width (Win g)) (put_index l) hops (fun j => forall d, lookup_desc j g = Some d -> max (Win g) <= count d)).

Definition put_post (d : descriptor_t) g l : Prop :=
  (exists q, ready q g l) /\ 0 <= put_index l < put_width (Win g) /\ lookup_desc (put_index l) g = Some d /\
  count d < max (Win g) /\ bottom g <= b + dm.

Lemma put_shift_value m d : 0 <= m < 2 ^ 32 - 2 ^ 16 -> 1 <= d < 2 ^ 16 ->
  d <= put_shift_max m d /\ m < put_shift_max m d <= m + d + d /\ put_shift_max m d - d <= m /\
  put_shift_max m d = Z.max d (m + (d + 1) / 2).
Proof.
  intros Hm Hd. unfold put_shift_max. rewrite Z.shiftr_div_pow2 by lia. change (2 ^ 1) with 2.
  pose proof (Z.div_lt (d + 1) 2). pose proof (Z.div_pos (d + 1) 2). pose proof (Z.div_le_lower_bound (d + 1) 2 1).
  rewrite wrap_small by lia. destruct (Z.ltb_spec (m + (d + 1) / 2) d); lia.
Qed.

(** Between two calls: the thread has the window, or a visibly older one. *)
Definition fresh g l : Prop :=
  thread_id l = 0%nat /\ (tw l = Win g \/ version (tw l) <> version (Win g)) /\ 0 <= put_index l /\ 0 <= get_index l.

Lemma synced_fresh g l : synced g l -> fresh g l.
Proof. intros (? & ? & ?). split; [done|]. split; [by left|done]. Qed.

Lemma alone_sync_index (w i : Z) : 1 <= w -> 0 <= sync_index w i < w.
Proof.
  intros Hw. unfold sync_index. pose proof (wrap_range 16 i). destruct (Z.ltb_spec (u16 i) w); lia.
Qed.

Lemma alone_sync_put (Q : unit -> estate -> tls windows -> Prop) g l :
  win_inv g -> synced g l -> (forall l', synced g l' -> 0 <= put_index l' < put_width (Win g) -> Q tt g l') ->
  wp P 0 sync_put_index Q g l.
Proof.
  intros HW (Ht & Ew & Hp & Hg) HQ. unfold sync_put_index. wp_locals. pose proof (vi_put _ HW).
  pose proof (alone_sync_index (put_width (tw l)) (put_index l) ltac:(rewrite Ew; lia)).
  apply HQ; cbn; [|rewrite Ew in *; lia]. split; [done|split; [done|]]. cbn. lia.
Qed.

Lemma alone_sync_get (Q : unit -> estate -> tls windows -> Prop) g l :
  win_inv g -> synced g l -> (forall l', synced g l' -> 0 <= get_index l' < get_width (Win g) -> Q tt g l') ->
  wp P 0 sync_get_index Q g l.
Proof.
  intros HW (Ht & Ew & Hp & Hg) HQ. unfold sync_get_index. wp_locals. pose proof (vi_put _ HW). pose proof (vi_get _ HW).
  pose proof (alone_sync_index (get_width (tw l)) (get_index l) ltac:(rewrite Ew; lia)).
  apply HQ; cbn; [|rewrite Ew in *; lia]. split; [done|split; [done|]]. cbn. lia.
Qed.

(** The first statement of [put_window] and [get_window]. *)
Lemma alone_enter sync (Q : unit -> estate -> tls windows -> Prop) g l :
  (forall l' (K : unit -> estate -> tls windows -> Prop),
     synced g l' -> (forall l2, synced g l2 -> K tt g l2) -> wp P 0 sync K g l') ->
  fresh g l -> (forall l', synced g l' -> Q tt g l') ->
  wp P 0 (let* w := my thread_Window in
          let* gversion := load_version in
          if negb (version w =? gversion) then read_window ;;; sync else Ret tt) Q g l.
Proof.
  intros Hsync (Ht & Hv & Hp & Hg) HQ. wp_local. apply e_alone_my. wp_local. apply alone_load_g.
  destruct (Z.eqb_spec (version (tw l)) (version (Win g))) as [E|E]; cbn [negb].
  - wp_local. apply HQ. destruct Hv as [Hv|Hv]; [|done]. by split_and!.
  - wp_local. apply alone_read_window. by apply Hsync.
Qed.

Lemma e_put_shift_alone q random (Q : Z * Z + descriptor_t -> estate -> tls windows -> Prop) g l :
  ready q g l -> 0 <= put_index l < put_width (Win g) -> 0 <= random <= random_hops set ->
  bottom g <= b -> seen (put_width (Win g)) (put_index l) (put_width (Win g)) (fun j => forall d, lookup_desc j g = Some d -> max (Win g) <= count d) ->
  (forall g' l', put_loop 0 (0, random) g' l' /\ 0 <= put_index l' -> Q (inl (0, random)) g' l') ->
  wp P 0 (shift_window junk padding (fun m d _ => put_shift_max m d) ;;; sync_put_index ;;; continue (0, random)) Q g l.
Proof.
  intros HR Hi Hr Hbot Hseen HQ. pose proof HR as (_ & HS & Hl & _). pose proof (si_win _ _ HS) as HW.
  pose proof HW as [_ Hd Hm _ Hp _ Hw Hsd _]. unfold bottom in Hbot.
  destruct (put_shift_value (max (Win g)) (sdepth (window g))) as (Hge & Hgt & Hle & Emax); [lia|lia|].
  wp_local. apply alone_shift_window; [done|done|lia|]. intros g1 l1 Hsh HW1 Hl1 _ _. pose proof Hsh as (Es & _ & _ & Em & Ed & _).
  wp_local. apply alone_sync_put; [done|done|]. intros l2 Hl2 Hi2. wp_locals. apply HQ. split; [|lia].
  split; [exists (bump (sdepth (window g)) q)|].
  - eapply ready_shift; [exact HR|exact Hsh|done|done| |].
    + intros x Hx. pose proof (or_row _ _ _ _ (si_ord _ _ HS) x Hx). lia.
    + rewrite Emax. eapply er_up; [apply HR|]. intros i Hi'. destruct (desc_exists g i HW) as [d E]; [lia|].
      rewrite (top_count _ _ _ _ HS (proj1 Hi') E). exact (seen_all _ _ _ _ Hseen ltac:(lia) i Hi' d E).
  - pose proof HW1 as [_ _ _ _ Hp1 _ _ _ _]. split; [lia|split; [done|split; [lia|]]]. left. unfold bottom. rewrite Em, Ed. split; [lia|].
    intros i d Hi' E. unfold lookup_desc in E. rewrite Es in E.
    pose proof (count_range q g i d HS (proj1 Hi') E). lia.
Qed.

Lemma put_loop_step n hops random g l :
  put_loop n (hops, random) g l -> 0 <= put_index l ->
  wp P 0 (put_window_body junk padding set (hops, random)) (fun r g l =>
    match r with
    | inl c => exists m, (p_total P = true -> (m < n)%nat) /\ put_loop m c g l /\ 0 <= put_index l
    | inr d => put_post d g l
    end) g l.
Proof.
  intros ([q HR] & Hi & Hr & Hh & Hcase) Hi0. pose proof HR as (_ & HS & Hl & _). pose proof (si_win _ _ HS) as HW.
  pose proof Hl as (Ht & Ew & _ & Hgi). pose proof HW as [_ Hd Hm _ Hp _ Hw Hsd _]. destruct Hset as [_ Hmw].
  unfold put_window_body. wp_local. apply e_alone_my. destruct (desc_exists g (put_index l) HW) as [d E]; [lia|].
  wp_local. apply (alone_read_desc _ d); [done|]. wp_local. apply alone_load_g. wp_local. apply e_alone_my.
  rewrite Ew, Z.eqb_refl. cbn [negb]. destruct (Z.ltb_spec (count d) (max (Win g))) as [Hlt|Hge].
  { assert (Hpost : forall l', synced g l' -> put_index l' = put_index l -> put_post d g l').
    { intros l' Hl' Ei. split; [exists q; by eapply ready_synced|]. rewrite Ei. split_and!; try done.
      destruct Hcase as [[? _]|[? _]]; lia. }
    wp_local. apply e_alone_my. destruct (_ <? _); wp_locals; [|by apply Hpost].
    apply Hpost; [|done]. by split_and!. }
  destruct Hcase as [[_ Hroom]|(Hbot & -> & Hlin & Hseen)]; [specialize (Hroom (put_index l) d ltac:(lia) E); lia|].
  destruct (Z.eqb_spec hops (put_width (Win g))) as [Eh|Hne]; cbn [negb].
  { eapply e_put_shift_alone; [exact HR|lia|done|done|by rewrite Eh in Hseen|].
    intros g' l' HJ. exists 0%nat. split; [intros _; unfold put_left; lia|exact HJ]. }
  assert (Hend : forall i' r' h' s st, 0 <= i' < put_width (Win g) -> 0 <= r' <= random_hops set ->
    0 <= h' <= put_width (Win g) -> h' = 0 \/ r' = random_hops set ->
    seen (put_width (Win g)) i' h' (fun j => forall d, lookup_desc j g = Some d -> max (Win g) <= count d) ->
    random_hops set - r' + (put_width (Win g) - h') < random_hops set - random + (put_width (Win g) - hops) ->
    exists m, (p_total P = true -> (m < put_left hops random (put_width (Win g)))%nat) /\
      put_loop m (h', r') g (upd (set_put_index i') (with_rng s st l)) /\ 0 <= i').
  { intros i' r' h' s st Hi' Hr' Hh' Hlin' Hseen' Hlt. exists (put_left h' r' (put_width (Win g))).
    split; [intros _; unfold put_left; lia|]. split; [|lia]. split; [exists q; eapply ready_synced; [exact HR|apply synced_put; [done|lia]]|].
    split; [cbn; lia|split; [done|split; [done|]]]. right. by split_and!. }
  wp_local. apply alone_hop; [lia|lia|done|lia| |].
  - intros r s st Hr' Hlt. wp_locals. destruct Hlin as [->|?]; [|lia]. apply Hend; try done; try lia; apply seen_none; lia.
  - intros s st Er. wp_locals. apply Hend; [apply next_index_range; lia|done|lia|by right| |lia].
    apply seen_next; [lia| |done]. intros d' E'. congruence.
Qed.

(** At the start of an operation. *)
Definition begins q g l : Prop :=
  es_run d0 w0 done q (max (Win g), depth (Win g), put_width (Win g)) (sdepth (window g), swidth (window g)) /\
  stack_inv q g /\ fresh g l /\ subs g = S0.

Lemma begins_ready q g l l' : begins q g l -> synced g l' -> ready q g l'.
Proof. by intros (? & ? & _ & ?) ?. Qed.

(** The choice of the first index. *)
Lemma alone_first_put (c : bool) (Q : unit -> estate -> tls windows -> Prop) g l :
  win_inv g -> synced g l -> (forall l', synced g l' -> 0 <= put_index l' < put_width (Win g) -> Q tt g l') ->
  wp P 0 (let* index := my thread_put_index in
          let* w := my thread_Window in
          if c || (put_width w <=? index) then
            let* r := random_index (put_width w) in put (upd (set_put_index r))
          else Ret tt) Q g l.
Proof.
  intros HW Hl HQ. pose proof Hl as (_ & Ew & Hi & _). pose proof HW as [_ _ _ _ Hp _ Hw _ _]. destruct Hset as [_ Hmw].
  wp_local. apply e_alone_my. wp_local. apply e_alone_my. rewrite Ew. destruct (c || _) eqn:E.
  - wp_local. apply wp_shared_random; [lia|]. intros r s Hr. wp_locals. apply HQ; [|done].
    destruct Hl as (? & ? & ? & ?). split_and!; try done; cbn; lia.
  - wp_local. apply HQ; [done|]. apply orb_false_elim in E as [_ E%Z.leb_gt]. lia.
Qed.

Lemma alone_first_get (c : bool) (Q : unit -> estate -> tls windows -> Prop) g l :
  win_inv g -> synced g l -> (forall l', synced g l' -> 0 <= get_index l' < get_width (Win g) -> Q tt g l') ->
  wp P 0 (let* index := my thread_get_index in
          let* w := my thread_Window in
          if c || (get_width w <=? index) then
            let* r := random_index (get_width w) in put (upd (set_get_index r))
          else Ret tt) Q g l.
Proof.
  intros HW Hl HQ. pose proof Hl as (_ & Ew & _ & Hi). pose proof HW as [_ _ _ Hg Hp _ Hw _ _]. destruct Hset as [_ Hmw].
  wp_local. apply e_alone_my. wp_local. apply e_alone_my. rewrite Ew. destruct (c || _) eqn:E.
  - wp_local. apply wp_shared_random; [lia|]. intros r s Hr. wp_locals. apply HQ; [|done].
    destruct Hl as (? & ? & ? & ?). split_and!; try done; cbn; lia.
  - wp_local. apply HQ; [done|]. apply orb_false_elim in E as [_ E%Z.leb_gt]. lia.
Qed.

Lemma e_put_window_alone q c (Q : descriptor_t -> estate -> tls windows -> Prop) g l :
  begins q g l -> bottom g <= b -> (forall d g' l', put_post d g' l' -> Q d g' l') ->
  wp P 0 (put_window junk padding set c) Q g l.
Proof.
  intros HB Hbot HQ. pose proof HB as (_ & HS & Hf & _). pose proof (si_win _ _ HS) as HW. unfold put_window.
  wp_local. apply alone_enter; [|done|].
  { intros l1 K Hl1 HK. apply alone_sync_put; [done|done|]. intros l2 Hl2 _. by apply HK. }
  intros l1 Hl1. wp_local. apply alone_first_put; [done|done|]. intros l2 Hl2 Hi2.
  pose proof HW as [_ Hd _ _ Hp _ _ _ _].
  apply (wp_while P 0 _ _ _ _ (fun n c g l => put_loop n c g l /\ 0 <= put_index l) (put_left 0 0 (put_width (Win g)))).
  - split; [|lia]. split; [exists q; by eapply begins_ready|]. split; [lia|split; [lia|split; [lia|]]].
    right. split; [done|split; [done|split; [by left|]]]. apply seen_none; lia.
  - intros n [hops random] g1 l3 [HJ Hi]. eapply wp_mono; [|by apply put_loop_step].
    intros [cc|d] g2 l4; [by intros (m & ? & ? & ?); exists m|]. intros Hd2. wp_local. by apply HQ.
Qed.

(** *** [get_window] *)

Definition none_above g (j : Z) : Prop := forall d, lookup_desc j g = Some d -> count d <= bottom g.
Definition all_low g : Prop := forall i d, 0 <= i < put_width (Win g) -> lookup_desc i g = Some d -> count d = 0.

Definition get_left (bot random hops w : Z) : nat :=
  S (Z.to_nat (bot * 2 ^ 18 + (random_hops set - random) + (w - hops))).

(** The sub-stacks seen have nothing in the window; [empty] tells whether they
    have anything at all. *)
Definition get_loop (n : nat) '((hops, random, empty) : Z * Z * bool) g l : Prop :=
  (exists q, ready q g l) /\ 0 <= get_index l < get_width (Win g) /\ 0 <= random <= random_hops set /\
  0 <= hops <= get_width (Win g) /\ bottom g <= b /\ n = get_left (bottom g) random hops (get_width (Win g)) /\
  (hops = 0 \/ random = random_hops set) /\
  seen (get_width (Win g)) (get_index l) hops (fun j => forall d, lookup_desc j g = Some d ->
    count d <= bottom g /\ (empty = true -> count d = 0)) /\
  (empty = false -> exists j d, 0 <= j < get_width (Win g) /\ lookup_desc j g = Some d /\ 0 < count d).

Definition get_post (d : descriptor_t) g l : Prop :=
  (exists q, ready q g l /\ (bottom g < count d \/ count d = 0 /\ q = [])) /\
  0 <= get_index l < get_width (Win g) /\ lookup_desc (get_index l) g = Some d /\ bottom g <= b.

(** If there is nothing in the window, but something below, the next window lies
    lower and holds all there is. *)
Lemma get_shift_value m d d' :
  1 <= d < 2 ^ 16 -> 1 <= d' < 2 ^ 16 -> d <= m -> m < 2 ^ 32 - 2 ^ 16 -> m - d + d' < 2 ^ 32 - 2 ^ 16 ->
  d' <= get_shift_max m d' d < 2 ^ 32 - 2 ^ 16 /\ m - d <= get_shift_max m d' d /\
  get_shift_max m d' d - d' <= m - d /\ (d < m -> get_shift_max m d' d - d' < m - d) /\
  get_shift_max m d' d = Z.max 0 (m - d - (d' + 1) / 2) + d'.
Proof.
  intros Hd Hd' Hm Hm' Hlim. unfold get_shift_max. rewrite Z.shiftr_div_pow2 by lia. change (2 ^ 1) with 2.
  pose proof (Z.div_lt (d' + 1) 2). pose proof (Z.div_pos (d' + 1) 2). pose proof (Z.div_le_lower_bound (d' + 1) 2 1).
  destruct (Z.eqb_spec d d') as [<-|Hne].
  - destruct (Z.leb_spec ((d + 1) / 2 + d) m); [rewrite wrap_small by lia|]; lia.
  - destruct (Z.leb_spec (d + (d' + 1) / 2) m); [rewrite wrap_small by lia|]; lia.
Qed.

(** The window as a sub-stack's count sees it, after the whole round. *)
Lemma all_low_empty q g l : ready q g l -> all_low g -> q = [].
Proof.
  intros (_ & HS & _) Hlow. destruct q as [|x q]; [done|]. exfalso.
  destruct (elem_desc _ _ x HS ltac:(set_solver)) as (d & E & Hi & Hr). specialize (Hlow _ d Hi E). lia.
Qed.

Lemma e_get_shift_alone q random (Q : Z * Z * bool + descriptor_t -> estate -> tls windows -> Prop) g l :
  ready q g l -> 0 <= random <= random_hops set -> bottom g <= b ->
  (forall j d, 0 <= j < put_width (Win g) -> lookup_desc j g = Some d -> count d <= bottom g) ->
  (exists j d, 0 <= j < put_width (Win g) /\ lookup_desc j g = Some d /\ 0 < count d) ->
  (forall n g' l', (n < get_left (bottom g) random (put_width (Win g)) (put_width (Win g)))%nat ->
     get_loop n (0, random, true) g' l' -> Q (inl (0, random, true)) g' l') ->
  wp P 0 (shift_window junk padding get_shift_max ;;; sync_get_index ;;; continue (0, random, true)) Q g l.
Proof.
  intros HR Hr Hbot Hlow (j & dj & Hj & Ej & Hpos) HQ. pose proof HR as (_ & HS & Hl & _). pose proof (si_win _ _ HS) as HW.
  pose proof HW as [_ Hd Hm _ Hp _ Hw Hsd _]. destruct Hset as [_ Hmw]. pose proof (Hlow j dj Hj Ej) as Hbpos. unfold bottom in *.
  destruct (get_shift_value (max (Win g)) (depth (Win g)) (sdepth (window g))) as (Hge & Hle & Hbot' & Hlt & Emax); [lia..|].
  wp_local. apply alone_shift_window; [done|done|lia|]. intros g1 l1 Hsh HW1 Hl1 _ _. pose proof Hsh as (Es & _ & _ & Em & Ed & _).
  wp_local. apply alone_sync_get; [done|done|]. intros l2 Hl2 Hi2. wp_locals. pose proof HW1 as [_ _ _ Hg1 Hp1 _ Hw1 _ _].
  eapply HQ; [|split; [exists (bump (sdepth (window g)) q)|]].
  2: { eapply ready_shift; [exact HR|exact Hsh|done|done| |].
    - intros x Hx. destruct (elem_desc _ _ x HS Hx) as (d & E & Hi & Hx'). specialize (Hlow _ d Hi E). lia.
    - rewrite Emax. eapply er_down; [apply HR| |].
      + intros i Hi. destruct (desc_exists g i HW) as [d E]; [lia|].
        rewrite (top_count _ _ _ _ HS (proj1 Hi) E). by apply (Hlow i).
      + intros ->. rewrite <- (top_count _ _ _ _ HS (proj1 Hj) Ej) in Hpos. done. }
  2: { split; [done|split; [done|split; [lia|]]]. unfold bottom. rewrite Em, Ed. split; [lia|split; [done|split; [by left|]]].
    split; [apply seen_none; lia|done]. }
  unfold get_left, bottom. lia.
Qed.

Lemma get_loop_step n c g l :
  get_loop n c g l ->
  wp P 0 (get_window_body junk padding set c) (fun r g l =>
    match r with
    | inl c => exists m, (p_total P = true -> (m < n)%nat) /\ get_loop m c g l
    | inr d => get_post d g l
    end) g l.
Proof.
  destruct c as [[hops random] empty].
  intros ([q HR] & Hi & Hr & Hh & Hbot & -> & Hlin & Hseen & Hempty). pose proof HR as (_ & HS & Hl & _).
  pose proof (si_win _ _ HS) as HW. pose proof Hl as (_ & Ew & _ & _). pose proof HW as [_ Hd Hm Hg Hp _ Hw Hsd _].
  destruct Hset as [_ Hmw]. unfold get_window_body. wp_local. apply e_alone_my.
  destruct (desc_exists g (get_index l) HW) as [d E]; [lia|].
  wp_local. apply (alone_read_desc _ d); [done|]. wp_local. apply alone_load_g. wp_local. apply e_alone_my.
  rewrite Ew, Z.eqb_refl. cbn [negb].
  replace (u32 (max (Win g) - depth (Win g))) with (bottom g) by (unfold bottom; rewrite wrap_small; lia).
  destruct (Z.ltb_spec (bottom g) (count d)) as [Hgt|Hle].
  { wp_locals. split; [exists q; split; [done|by left]|]. split; [exact Hi|by split]. }
  destruct (Z.eqb_spec hops (get_width (Win g))) as [Eh|Hne]; cbn [negb].
  { rewrite Eh in *. pose proof (seen_all _ _ _ _ Hseen ltac:(done)) as Hall. cbn beta in Hall. rewrite Hg in *.
    destruct empty.
    - wp_locals. split; [exists q; split; [done|right]|rewrite Hg; split; [exact Hi|by split]]. split; [by apply (Hall (get_index l))|].
      apply (all_low_empty q g l HR). intros i d' Hi' E'. by apply (Hall i).
    - eapply e_get_shift_alone; [exact HR|done|done|by intros; eapply Hall|by apply Hempty|].
      intros m g' l' Hm' HJ. exists m. split; [intros _; unfold get_left in *; lia|done]. }
  cbv zeta. set (empty' := if 0 <? count d then false else empty).
  assert (Hempty' : empty' = false -> exists j d, 0 <= j < get_width (Win g) /\ lookup_desc j g = Some d /\ 0 < count d).
  { unfold empty'. destruct (Z.ltb_spec 0 (count d)); [intros _; by exists (get_index l), d|done]. }
  assert (Hold : forall j, (forall d, lookup_desc j g = Some d -> count d <= bottom g /\ (empty = true -> count d = 0)) ->
    forall d, lookup_desc j g = Some d -> count d <= bottom g /\ (empty' = true -> count d = 0)).
  { intros j Hj d' Ed'. split; [by apply Hj|]. unfold empty'. destruct (0 <? _); [done|]. by apply Hj. }
  assert (Hnow : forall d', lookup_desc (get_index l) g = Some d' -> count d' <= bottom g /\ (empty' = true -> count d' = 0)).
  { intros d' Ed'. assert (d' = d) as -> by congruence. split; [done|]. unfold empty'.
    destruct (Z.ltb_spec 0 (count d)); [done|]. intros _. pose proof (count_range q g _ d HS (proj1 Hi) E). lia. }
  assert (Hend : forall i' r' h' s st, 0 <= i' < get_width (Win g) -> 0 <= r' <= random_hops set ->
    0 <= h' <= get_width (Win g) -> h' = 0 \/ r' = random_hops set ->
    seen (get_width (Win g)) i' h' (fun j => forall d, lookup_desc j g = Some d -> count d <= bottom g /\ (empty' = true -> count d = 0)) ->
    random_hops set - r' + (get_width (Win g) - h') < random_hops set - random + (get_width (Win g) - hops) ->
    exists m, (p_total P = true -> (m < get_left (bottom g) random hops (get_width (Win g)))%nat) /\
      get_loop m (h', r', empty') g (upd (set_get_index i') (with_rng s st l))).
  { intros i' r' h' s st Hi' Hr' Hh' Hlin' Hseen' Hlt. exists (get_left (bottom g) r' h' (get_width (Win g))).
    split; [intros _; unfold get_left, bottom; lia|]. split; [exists q; eapply ready_synced; [exact HR|apply synced_get; [done|lia]]|].
    do 7 (split; [done|]). done. }
  wp_local. apply alone_hop; [lia|lia|done|lia| |].
  - intros r s st Hr' Hlt. wp_locals. destruct Hlin as [->|?]; [|lia]. apply Hend; try done; try lia; apply seen_none; lia.
  - intros s st Er. wp_locals. apply Hend; [apply next_index_range; lia|done|lia|by right| |lia].
    apply seen_next; [lia|done|]. intros j Hj Hc. apply Hold. by apply Hseen.
Qed.

Lemma e_get_window_alone q c (Q : descriptor_t -> estate -> tls windows -> Prop) g l :
  begins q g l -> bottom g <= b -> (forall d g' l', get_post d g' l' -> Q d g' l') ->
  wp P 0 (get_window junk padding set c) Q g l.
Proof.
  intros HB Hbot HQ. pose proof HB as (_ & HS & Hf & _). pose proof (si_win _ _ HS) as HW. unfold get_window.
  wp_local. apply alone_enter; [|done|].
  { intros l1 K Hl1 HK. apply alone_sync_get; [done|done|]. intros l2 Hl2 _. by apply HK. }
  intros l1 Hl1. wp_local. apply alone_first_get; [done|done|]. intros l2 Hl2 Hi2.
  pose proof HW as [_ Hd _ Hg Hp _ _ _ _]. wp_local.
  apply (wp_while P 0 _ _ _ _ get_loop (get_left (bottom g) 0 0 (get_width (Win g)))).
  - split; [exists q; by eapply begins_ready|]. do 5 (split; [done || lia|]). split; [by left|].
    split; [apply seen_none; lia|done].
  - intros n cc g1 l3 HJ. eapply wp_mono; [|by apply get_loop_step].
    intros [c'|d] g2 l4; [done|]. intros ((q' & HR & Hd2) & Hi & E & Hb2). 
    assert (Hpost : forall l5, synced g2 l5 -> get_index l5 = get_index l4 -> Q d g2 l5).
    { intros l5 Hl5 E5. apply HQ. split; [exists q'; split; [by eapply ready_synced|done]|]. by rewrite E5. }
    destruct HR as (_ & _ & (? & ? & ? & ?) & _). wp_locals. apply Hpost; [|cbn; by destruct (_ <? _)].
    split; [done|]. cbn. by destruct (_ <? _).
Qed.
End window_ops.

(** *** The compare-and-exchange *)

Lemma win_inv_subs s g : win_inv g -> p_inv SB (set_subs s g) -> win_inv (set_subs s g).
Proof. intros [] HI. by split. Qed.

(** Only the nodes have changed, and not those that are reachable. *)
Lemma stack_inv_heap q m g :
  stack_inv q g -> p_inv SB (set_heap m g) -> keeps (heap (subs g)) m None -> stack_inv q (set_heap m g).
Proof.
  intros [HW Hs Hv Ho] HI Hk. split; [by apply win_inv_subs|..|done|done].
  intros i d Hi E. by apply (holds_keeps (heap (subs g))), Hs.
Qed.

Lemma lookup_after g t i new p v j d' :
  0 <= i < mw -> 0 <= j -> p_inv SB g ->
  lookup_desc j (set_subs (after_cae t i new p v (subs g)) g) = Some d' ->
  j = i /\ d' = new \/ j <> i /\ lookup_desc j g = Some d'.
Proof.
  intros Hi Hj [_ Hs] E. unfold lookup_desc in E. cbn [subs set_subs after_cae array] in E.
  rewrite list_lookup_insert in E. destruct Hs as [Hlen _]. destruct (decide (j = i)) as [->|Hne].
  - left. rewrite decide_True in E by (split; [done|lia]). by injection E as <-.
  - right. rewrite decide_False in E by (intros [? _]; lia). done.
Qed.

Lemma stack_inv_push q g i d a r n v :
  stack_inv q g -> 0 <= i < put_width (Win g) -> lookup_desc i g = Some d ->
  priv (heap (subs g)) !! a = Some 0%nat -> lookup_node a g = Some n -> val n = v -> next n = node d ->
  next_count n = count d -> count d < r -> max (Win g) - depth (Win g) <= r <= max (Win g) ->
  let g' := set_subs (after_cae 0 i (mkDesc a r) true v (subs g)) g in
  p_inv SB g' -> stack_inv ((i, r, (v, depth (Win g))) :: q) g'.
Proof.
  intros HS Hi E Pa En <- Hnext Hcount Hr Hwin g' HI'. pose proof HS as [HW Hs Hv Ho].
  pose proof (count_range q g i d HS (proj1 Hi) E) as Hc. pose proof HW as [HI Hd _ _ Hp _ Hw _ _].
  destruct (mem_publish_ok 0 a (heap (subs g))) as [_ [Hk _]]; [by apply HI|done|]. split.
  - by apply win_inv_subs.
  - intros j d' Hj E'. destruct (lookup_after g _ i _ _ _ j d' ltac:(lia) Hj HI E') as [[-> ->]|[Hne E1]].
    + rewrite filter_cons_True by done. cbn [holds subs set_subs g' after_cae heap node count]. split.
      { intros ->. destruct HI as [_ (_ & [H0 _] & _)]. unfold lookup_node in En. congruence. }
      split; [by apply lookup_delete_eq|split; [done|]]. exists n. split; [done|split; [done|split; [lia|]]].
      rewrite Hnext, Hcount. apply (holds_keeps (heap (subs g))); [done|]. by apply Hs.
    + rewrite filter_cons_False by (cbn; congruence). apply (holds_keeps (heap (subs g))); [done|]. by apply Hs.
  - intros j Hj. cbn [g' set_subs subs after_cae hist contents]. rewrite filter_cons. cbn [fst].
    case_decide; [rewrite fmap_cons; cbn; f_equal|]; by apply Hv.
  - apply ordered_push; [done|lia|done|done|lia|]. intros x Hx Hxi. cbn in *.
    rewrite <- Hxi in E. pose proof (elem_count q g x d HS Hx E). lia.
Qed.

Lemma stack_inv_pop q g i d n x xs :
  stack_inv q g -> 0 <= i < put_width (Win g) -> lookup_desc i g = Some d -> on i q = x :: xs ->
  lookup_node (node d) g = Some n -> bottom g < count d ->
  let g' := set_subs (after_cae 0 i (mkDesc (next n) (next_count n)) false (val n) (subs g)) g in
  p_inv SB g' ->
  stack_inv (drop_top i q) g' /\
  exists pre D post, q = pre ++ (i, count d, (val n, D)) :: post /\ drop_top i q = pre ++ post /\
    (forall x, x ∈ pre -> x.1.1 <> i) /\ Z.of_nat (length pre) <= (D + depth (Win g)) * (put_width (Win g) - 1).
Proof.
  intros HS Hi E Eon En Hbot g' HI'. pose proof HS as [HW Hs Hv Ho]. pose proof HW as [HI _ _ _ Hp _ Hw _ _].
  pose proof (Hs i d (proj1 Hi) E) as Hh. rewrite Eon in Hh. destruct Hh as (_ & _ & Hrow & n' & En' & Hval & _ & Hh).
  assert (n' = n) as -> by (unfold lookup_node in En; congruence).
  assert (Ex : x = (i, count d, (val n, x.2.2))).
  { assert (Hx : x ∈ on i q) by (rewrite Eon; set_solver). apply list_elem_of_filter in Hx as [Hxi _].
    destruct x as [[? ?] [? ?]]; cbn in *; congruence. }
  destruct (ordered_pop _ _ _ q i (count d) (val n) x.2.2 xs Ho) as [Ho' (pre & post & Epre & Epost & Hother & Hlen)];
    [by rewrite Eon, <- Ex|done|]. split; [|by exists pre, x.2.2, post]. split; [by apply win_inv_subs| | |done].
  - intros j d' Hj E'. destruct (lookup_after g _ i _ _ _ j d' ltac:(lia) Hj HI E') as [[-> ->]|[Hne E1]].
    + rewrite drop_top_same, Eon. exact Hh.
    + rewrite drop_top_other by done. by apply Hs.
  - intros j Hj. cbn [g' set_subs subs after_cae hist contents]. case_decide as Ej.
    + subst j. rewrite drop_top_same, Hv, Eon by lia. done.
    + rewrite drop_top_other by congruence. by apply Hv.
Qed.

Lemma push_count_range g d :
  win_inv g -> 0 <= count d < max (Win g) ->
  push_count (Win g) (count d) = Z.max (count d + 1) (max (Win g) - depth (Win g)).
Proof.
  intros [_ Hd Hm _ _ _ _ _ _] Hc. unfold push_count. rewrite !(wrap_small 64), wrap_small by lia.
  destruct (Z.leb_spec (max (Win g)) (count d + depth (Win g))); lia.
Qed.

(** *** The operations *)

Section operations.
Context (d0 w0 : Z) (Hrh : 0 <= random_hops set < 2 ^ 8).

(** What holds between two operations. *)
Definition account (done : list (eop * Z)) g l : Prop :=
  exists q, es_run d0 w0 done q (max (Win g), depth (Win g), put_width (Win g)) (sdepth (window g), swidth (window g)) /\
    stack_inv q g /\ fresh g l /\ bottom g <= Z.of_nat (length done) * dm /\
    Z.of_nat (length (hist (subs g))) <= Z.of_nat (length done).

Definition room (done : list (eop * Z)) : Prop := (Z.of_nat (length done) + 3) * dm < 2 ^ 32 - 2 ^ 16.

Lemma account_intro done o r q g l k :
  es_run d0 w0 (done ++ [(o, r)]) q (max (Win g), depth (Win g), put_width (Win g)) (sdepth (window g), swidth (window g)) ->
  stack_inv q g -> fresh g l -> bottom g <= Z.of_nat (length done) * dm + dm ->
  Z.of_nat (length (hist (subs g))) <= k + 1 -> k <= Z.of_nat (length done) ->
  account (done ++ [(o, r)]) g l.
Proof.
  intros Hr HS Hf Hb Hh Hk. exists q. rewrite length_app. cbn [length]. split; [done|split; [done|split; [done|]]]. lia.
Qed.

Lemma e_push_alone done k v (Q : Z -> estate -> tls windows -> Prop) g l :
  account done g l -> room done ->
  (forall g' l', account (done ++ [(StackOp (DoPush k v), 1)]) g' l' -> Q 1 g' l') ->
  wp P 0 (push junk padding set k v) Q g l.
Proof.
  intros (q & Hrun & HS & Hf & Hbot & Hlen) Hroom HQ. unfold room in Hroom. unfold push, create_node. wp_local.
  pose proof (si_win _ _ HS) as HW. assert (1 <= dm) by (destruct HW; lia).
  apply (wp_alloc_node no_window mw (2 ^ 63) P 0); [apply Hf|].
  intros a g1 R1 _ g2 I2 Hmem P2 E2. unfold g2 in *. rewrite (e_alone_rely _ _ R1) in *. clear g1 R1 g2. set (g2 := set_heap _ g) in *.
  assert (HS2 : stack_inv q g2) by (apply stack_inv_heap; [done|done|apply Hmem]).
  apply (wp_while P 0 _ _ _ _ (fun _ _ g' l' => g' = g2 /\ l' = l) 0%nat); [done|].
  intros n c g' l' [-> ->]. unfold push_body. wp_local.
  apply (e_put_window_alone d0 w0 done (Z.of_nat (length done) * dm) ltac:(lia) Hrh (subs g2) q); [by split_and!|exact Hbot|].
  intros d g3 l3 ([q3 (Hrun3 & HS3 & Hl3 & Es3)] & Hi & Ed & Hlt & Hb3). pose proof Hl3 as (Ht3 & Ew3 & _).
  pose proof (si_win _ _ HS3) as HW3. pose proof (count_range q3 g3 _ d HS3 (proj1 Hi) Ed) as Hc3.
  wp_local. apply (wp_store_node no_window mw (2 ^ 63) P 0 _ _ (mkNode 0 k v 0)); [by rewrite Es3|by unfold lookup_node; rewrite Es3|].
  intros g' R _ _ g4 I4 K4 P4 E4. unfold g4 in *. rewrite (e_alone_rely _ _ R) in *. clear g' R g4. set (g4 := set_heap _ g3) in *. cbn [key val next_count] in E4.
  pose proof (stack_inv_heap _ _ _ HS3 I4 K4) as HS4.
  wp_local. apply (wp_store_node no_window mw (2 ^ 63) P 0 _ _ (mkNode (node d) k v 0)); [done|done|].
  intros g' R _ _ g5 I5 K5 P5 E5. unfold g5 in *. rewrite (e_alone_rely _ _ R) in *. clear g' R g5. set (g5 := set_heap _ g4) in *. cbn [key val next] in E5.
  pose proof (stack_inv_heap _ _ _ HS4 I5 K5) as HS5.
  wp_local. apply e_alone_my. rewrite Ew3. wp_local. apply e_alone_my. wp_local.
  pose proof (push_count_range g3 d HW3 ltac:(lia)) as Er. pose proof (top_count q3 g3 _ d HS3 (proj1 Hi) Ed) as Etop.
  set (r := push_count (Win g3) (count d)) in *. pose proof HW3 as [_ Hd3 _ _ _ _ _ _ _].
  assert (Hcount : u32 (count d) = count d) by (apply wrap_small; destruct HW3; lia).
  apply (wp_cae_desc no_window mw (2 ^ 63) P 0 _ _ _ _ v); [destruct HW3; lia|done|..].
  - intros g' R _ _ _. rewrite (e_alone_rely _ _ R). split; [|done]. eexists. by split_and!.
  - intros g' R _ _ g6 I6. unfold g6 in *. rewrite (e_alone_rely _ _ R) in *. clear g' R g6. wp_locals. apply HQ.
    eapply (account_intro _ _ _ ((_, r, (v, depth (Win g3))) :: q3) _ _ (Z.of_nat (length (hist (subs g3))))); [| |by apply synced_fresh|exact Hb3|cbn; lia|rewrite Es3; exact Hlen].
    + rewrite Er, <- Etop. apply er_push; [exact Hrun3|exact Hi|rewrite Etop; exact Hlt].
    + apply (stack_inv_push q3 g5 _ d a r (mkNode (node d) k v (u32 (count d)))); try done;
        rewrite Er; cbn [g5 g4 set_heap window subs set_subs]; lia.
  - intros g' R _ Hne. rewrite (e_alone_rely _ _ R) in Hne. by destruct Hne.
Qed.

Lemma e_pop_alone done (Q : Z -> estate -> tls windows -> Prop) g l :
  account done g l -> room done ->
  (forall v g' l', account (done ++ [(StackOp DoPop, v)]) g' l' -> Q v g' l') ->
  wp P 0 (pop junk padding set) Q g l.
Proof.
  intros (q & Hrun & HS & Hf & Hbot & Hlen) Hroom HQ. unfold room in Hroom. unfold pop.
  pose proof (si_win _ _ HS) as HW. assert (1 <= dm) by (destruct HW; lia).
  apply (wp_while P 0 _ _ _ _ (fun _ _ g' l' => g' = g /\ l' = l) 0%nat); [done|].
  intros n c g' l' [-> ->]. unfold pop_body. wp_local.
  apply (e_get_window_alone d0 w0 done (Z.of_nat (length done) * dm) ltac:(lia) Hrh (subs g) q); [by split_and!|exact Hbot|].
  intros d g3 l3 ((q3 & (Hrun3 & HS3 & Hl3 & Es3) & Hcase) & Hi & Ed & Hb3). pose proof Hl3 as (Ht3 & Ew3 & _).
  pose proof (si_win _ _ HS3) as HW3. pose proof HW3 as [HI3 Hd3 Hm3 Hg3 Hp3 _ Hw3 _ _]. rewrite Hg3 in Hi.
  pose proof (si_sub _ _ HS3 _ d (proj1 Hi) Ed) as Hh. pose proof (holds_count _ _ _ _ Hh) as (Hc0 & Hcz & Hnz).
  destruct (Z.eqb_spec (node d) 0) as [Ez|Ez]; cbn [negb].
  { wp_locals. apply HQ. assert (q3 = []) as ->.
    { destruct Hcase as [Hgt|[_ ?]]; [|done]. unfold bottom in Hgt. apply Hnz, Hcz in Ez. lia. }
    apply (account_intro _ _ _ [] _ _ (Z.of_nat (length (hist (subs g3))))); [by apply er_empty|done|by apply synced_fresh|lia|lia|by rewrite Es3]. }
  destruct (on (get_index l3) q3) as [|x xs] eqn:Eon; [by destruct Hnz as [_ Hnz]; destruct Ez; apply Hnz|].
  pose proof Hh as (_ & Pn & _ & nd & En & _). assert (Hgt : bottom g3 < count d).
  { destruct Hcase as [?|[? _]]; [done|]. by apply Hcz in H0. }
  assert (Hload : forall X (f : node_t -> X) (K : X -> estate -> tls windows -> Prop) g1, keeps (heap (subs g3)) (heap (subs g1)) None ->
    K (f nd) g1 l3 -> wp P 0 (load_node f (node d)) K g1 l3).
  { intros X f K g1 Hk HK. destruct (Hk _ nd En Pn) as [En1 Pn1]. eapply (wp_load_node no_window mw (2 ^ 63) P 0); [exact Pn1|exact En1|].
    intros g' R _ _ _. by rewrite (e_alone_rely _ _ R). }
  wp_local. apply Hload; [apply keeps_refl|]. wp_local. apply Hload; [apply keeps_refl|]. wp_local. apply e_alone_my. wp_local.
  apply (wp_cae_desc no_window mw (2 ^ 63) P 0 _ _ _ _ (val nd)); [lia|done|..].
  - intros g' R _ _ _. rewrite (e_alone_rely _ _ R). split; [done|split; [by exists nd|done]].
  - intros g' R _ _ g6 I6. unfold g6 in *. rewrite (e_alone_rely _ _ R) in *. clear g' R g6. wp_local.
    apply Hload; [apply keeps_refl|]. wp_locals. apply HQ.
    destruct (stack_inv_pop q3 g3 _ d nd x xs HS3 Hi Ed Eon En Hgt I6) as (HS6 & pre & D & post & Epre & Epost & Hother & Hover).
    eapply (account_intro _ _ _ (drop_top _ q3) _ _ (Z.of_nat (length (hist (subs g3))))); [|exact HS6|by apply synced_fresh| |cbn; lia|rewrite Es3; exact Hlen].
    + rewrite Epost. rewrite Epre in Hrun3. by eapply er_pop.
    + unfold bottom in *. cbn [window set_subs]. lia.
  - intros g' R _ Hne. rewrite (e_alone_rely _ _ R) in Hne. by destruct Hne.
Qed.

(** The updates of the dimensions to come. *)
Lemma alone_replace_field f set_f v (Q : Z -> estate -> tls windows -> Prop) g l :
  p_inv SB g -> Q (f (window g)) (set_window (set_f v (window g)) g) l ->
  wp P 0 (replace_field f set_f (f (window g)) v) Q g l.
Proof.
  intros HI HQ. apply (wp_while P 0 _ _ _ _ (fun _ c g' l' => c = f (window g) /\ g' = g /\ l' = l) 0%nat); [done|].
  intros n c g' l' (-> & -> & ->). wp_local. intros g1 R1 _ _. rewrite (e_alone_rely _ _ R1).
  rewrite decide_True by done. destruct (alone_win g (set_f v (window g)) HI) as [HG HI'].
  split; [exact HG|split; [exact HI'|]]. wp_locals. exact HQ.
Qed.

Lemma update_depth_alone done v (Q : Z -> estate -> tls windows -> Prop) g l :
  account done g l -> room done -> 1 <= v <= dm ->
  (forall r g' l', account (done ++ [(UpdateDepth v, r)]) g' l' -> Q r g' l') -> wp P 0 (update_depth v) Q g l.
Proof.
  intros (q & Hrun & HS & Hf & Hbot & Hlen) Hroom Hv HQ. unfold room in Hroom. unfold update_depth. wp_local. apply alone_load_g.
  pose proof HS as [HW Hs Hvals Ho]. pose proof HW as [HI Hd Hm Hg Hp Hold Hw Hsd Hlat].
  apply alone_replace_field; [done|]. apply HQ.
  apply (account_intro _ _ _ q _ _ (Z.of_nat (length done))); [by apply er_depth| |done|change (bottom g <= Z.of_nat (length done) * dm + dm); lia|change (Z.of_nat (length (hist (subs g))) <= Z.of_nat (length done) + 1); lia|lia].
  by split.
Qed.

Lemma update_width_alone done v (Q : Z -> estate -> tls windows -> Prop) g l :
  account done g l -> room done -> swidth (window g) <= v <= mw ->
  (forall r g' l', account (done ++ [(UpdateWidth v, r)]) g' l' -> Q r g' l') ->
  wp P 0 (update_width set v) Q g l.
Proof.
  intros (q & Hrun & HS & Hf & Hbot & Hlen) Hroom Hv HQ. unfold room in Hroom. unfold update_width. wp_local. apply alone_load_g.
  pose proof HS as [HW Hs Hvals Ho]. pose proof HW as [HI Hd Hm Hg Hp Hold Hw Hsd Hlat].
  wp_local. apply wp_assert; [apply Z.leb_le; lia|].
  apply alone_replace_field; [done|]. apply HQ.
  apply (account_intro _ _ _ q _ _ (Z.of_nat (length done))); [apply er_width; [done|exact (proj1 Hv)]| |done|change (bottom g <= Z.of_nat (length done) * dm + dm); lia|change (Z.of_nat (length (hist (subs g))) <= Z.of_nat (length done) + 1); lia|lia].
  split; [|done..]. split; cbn; try done; lia.
Qed.
End operations.
End alone.

(** ** Whole runs *)

(** The arguments of the calls: depths up to [dm], and widths that do not
    shrink, up to [mw]. *)
Fixpoint grows (dm mw w : Z) (ops : list eop) : Prop :=
  match ops with
  | [] => True
  | StackOp _ :: ops => grows dm mw w ops
  | UpdateDepth v :: ops => 1 <= v <= dm /\ grows dm mw w ops
  | UpdateWidth v :: ops => w <= v <= mw /\ grows dm mw v ops
  end.

(** The width that is set after the calls [done]. *)
Definition set_width (w : Z) (done : list eop) : Z :=
  foldl (fun w o => match o with UpdateWidth v => v | _ => w end) w done.

Lemma grows_app dm mw w done ops : grows dm mw w (done ++ ops) -> grows dm mw (set_width w done) ops.
Proof.
  revert w. induction done as [|[o|v|v] done IH]; intros w; cbn; [done|apply IH|intros [_ ?]; by apply IH|intros [_ ?]; by apply IH].
Qed.

Lemma es_run_width d0 w0 done q now next : es_run d0 w0 done q now next -> next.2 = set_width w0 done.*1.
Proof.
  unfold set_width. induction 1; try done; rewrite ?fmap_app, ?foldl_app; cbn in *; congruence.
Qed.

Lemma es_run_length d0 w0 done q now next : es_run d0 w0 done q now next -> (length q <= length done)%nat.
Proof.
  induction 1; unfold bump in *; rewrite ?length_app, ?length_fmap in *; cbn [length] in *; lia.
Qed.

Section runs.
Context {A : Allocator node_t} {LA : Allocator lateral_node_t}.
Context (junk : tls windows -> Z) (padding : Z -> Z).
Context (set : mstack_t) (Hset : set_ok set) (dm : Z) (Hdm : dm < 2 ^ 16) (d0 w0 : Z).
Context (Hrh : 0 <= random_hops set < 2 ^ 8).
Notation SB := (joint no_window (sprot (max_width set) (2 ^ 63)) : protocol estate).

Lemma account_op ops done o rest g l :
  grows dm (max_width set) w0 ops -> ops = done.*1 ++ o :: rest -> (Z.of_nat (length ops) + 3) * dm < 2 ^ 32 - 2 ^ 16 ->
  account set dm d0 w0 done g l ->
  wp (alone SB) 0 (exec_op junk padding set o) (fun r g l => account set dm d0 w0 (done ++ [(o, r)]) g l) g l.
Proof.
  intros Hops -> Hlim HA. pose proof HA as (q & Hrun & HS & _). apply es_run_width in Hrun. cbn in Hrun.
  apply grows_app in Hops. rewrite <- Hrun in Hops.
  assert (1 <= dm) by (destruct (si_win _ _ _ _ HS); lia).
  assert (Hroom : room dm done) by (unfold room; rewrite length_app, length_fmap in Hlim; nia).
  destruct o as [[k v|]|v|v]; cbn [exec_op grows] in *.
  - by apply (e_push_alone junk padding set Hset dm Hdm d0 w0 Hrh done).
  - by apply (e_pop_alone junk padding set Hset dm Hdm d0 w0 Hrh done).
  - apply (update_depth_alone set dm d0 w0 done); [done|done|apply Hops|done].
  - apply (update_width_alone set dm d0 w0 done); [done|done|apply Hops|done].
Qed.
End runs.

(** The stack as [create_stack] makes it. *)
Lemma create_stack_alone {LA : Allocator lateral_node_t} nt w d m k rb set g l dm :
  create_stack nt w d m k rb = Some (set, g) -> set_ok set -> dm < 2 ^ 16 ->
  1 <= sdepth (window g) <= dm -> 1 <= swidth (window g) <= max_width set ->
  thread_id l = 0%nat -> Shared.thread_Window l = windows0 ->
  0 <= random_hops set < 2 ^ 8 /\
  account set dm (sdepth (window g)) (swidth (window g)) [] g l /\
  (args_ok 2 16 16 nt w d rb -> 1 <= k <= 3 ->
     2 * sdepth (window g) * (swidth (window g) - 1) <= relaxation_bound set <= rb).
Proof.
  intros Hc Hset Hdm Hd Hw Ht Hl. destruct (create_stack_ok _ _ _ _ _ _ _ _ None Hc Hset ltac:(lia) Hw (or_introl eq_refl)) as [[_ HI] _].
  revert Hc HI. unfold create_stack. destruct (calculate _ _ _ _ _ _ _ _ _) as [p|] eqn:Ecalc; [|done]. cbn [mbind option_bind].
  unfold create_lateral_stack. set (mwd := if _ <? _ then _ else _). set (a := alloc_addr _).
  intros [= <- <-] HI. cbn [window sdepth swidth max_width random_hops relaxation_bound] in *.
  split; [lia|split].
  - exists []. split; [constructor|]. split; [|split; [|unfold bottom; cbn; lia]].
    + split.
      * split; cbn; try lia; [by split|]. exists 1%nat. exists (mkLat 0 0 (u16 (mwd + 1))).
        rewrite lookup_singleton_eq. destruct (alloc_addr_ok (∅ : gmap Z lateral_node_t)).
        pose proof (wrap_range 16 (mwd + 1)). split_and!; cbn; try done; lia.
      * intros i d' _ E. apply lookup_replicate in E as [-> _]. by split.
      * done.
      * split; [apply SSorted_nil|apply NoDup_nil_2|by intros x ?%elem_of_nil..].
    + unfold fresh. rewrite Hl. cbn. split; [done|split; [by right|lia]].
  - intros Hargs Hk. destruct (calculate_bound 2 16 16 (product_int 2) nt w d k rb Hargs Hk) as (p' & E & Hp).
    assert (p' = p) as -> by congruence. lia.
Qed.

(** The window in memory, and that the sub-stacks in memory hold the elements [q]. *)
Notation window_of g :=
  (max (global_Window (window g)), depth (global_Window (window g)), put_width (global_Window (window g))).
Definition held (mw : Z) (q : list elem) (g : estate) : Prop :=
  forall i, 0 <= i < mw -> exists d, lookup_desc i g = Some d /\ holds (heap (subs g)) (node d) (count d) (on i q).

(** C4. For one thread the elastic stack, whatever its calls of [update_depth]
    and [update_width] with arguments in range that do not lower the width, as
    long as [(calls + 3) * dm < 2 ^ 32 - 2 ^ 16] for the largest depth [dm] (the
    counts and [global_Window.max] are 32-bit): every run terminates;
    [global_Window] is the window that the calls determine, which moves up only
    when full and down only when nothing reaches into it, and then takes the
    depth and width that were set; the sub-stacks in memory hold the elements in
    their rows; a pop returns an element of the window that is overtaken by at
    most [(D + depth) * (width - 1)] newer ones, for the depth and width of the
    window and the largest depth [D] since the element was pushed, and 0 for an
    empty stack only; the bound for the dimensions of the creation is within the
    relaxation bound the stack was created for in the modes 1, 2 and 3;
    [stack_size] is the number of elements. *)
Theorem elastic_stack_k_relaxed {A : Allocator node_t} {LA : Allocator lateral_node_t}
    junk padding nt w d m k rb set g0 ops l0 dm :
  create_stack nt w d m k rb = Some (set, g0) -> set_ok set ->
  let d0 := sdepth (window g0) in
  let w0 := swidth (window g0) in
  1 <= d0 <= dm -> dm < 2 ^ 16 -> 1 <= w0 <= max_width set ->
  thread_id l0 = 0%nat -> Shared.thread_Window l0 = windows0 -> grows dm (max_width set) w0 ops ->
  (Z.of_nat (length ops) + 3) * dm < 2 ^ 32 - 2 ^ 16 ->
  exists n rs g l q,
    (forall m, (n <= m)%nat ->
       run m (run_ops (exec_op junk padding set) ops) g0 l0 = Finished rs g l) /\
    length rs = length ops /\
    es_run d0 w0 (zip ops rs) q (window_of g) (sdepth (window g), swidth (window g)) /\
    held (max_width set) q g /\
    (args_ok 2 16 16 nt w d rb -> 1 <= k <= 3 -> 2 * d0 * (w0 - 1) <= relaxation_bound set <= rb) /\
    exists n' g' l', forall m, (n' <= m)%nat ->
      run m (stack_size set) g l = Finished (Z.of_nat (length q)) g' l'.
Proof.
  intros Hc Hset d0 w0 Hd Hdm Hw Ht Hl Hops Hlim.
  destruct (create_stack_alone _ _ _ _ _ _ _ _ l0 dm Hc Hset Hdm Hd Hw Ht Hl) as (Hrh & HA & Hbound).
  fold d0 w0 in HA, Hbound. set (SB := joint no_window (sprot (max_width set) (2 ^ 63)) : protocol estate).
  assert (HI : p_inv SB g0) by (destruct HA as (q & _ & HS & _); apply HS).
  destruct (alone_run SB (run_ops (exec_op junk padding set) ops) (fun rs g l =>
      length rs = length ops /\ account set dm d0 w0 ([] ++ zip ops rs) g l) g0 l0 HI)
    as (n & rs & g & l & Hrun & (Hlen & q & Hr & HS & Hf & _ & Hh) & HI').
  { apply (wp_run_ops_in (alone SB) 0 (exec_op junk padding set) (account set dm d0 w0) ops) with (done := []);
      [|done|done]. intros done o rest g l Hall HJ. by apply (account_op junk padding set Hset dm Hdm d0 w0 Hrh ops done o rest). }
  exists n, rs, g, l, q. split; [done|split; [done|split; [done|split; [|split; [done|]]]]].
  { intros i Hi. destruct (desc_exists set dm g i (si_win _ _ _ _ HS) Hi) as [d' E]. exists d'.
    split; [done|]. apply (si_sub _ _ _ _ HS); [lia|done]. }
  pose proof HS as [[_ _ _ _ Hp _ Hwd _ _] _ Hv Ho].
  assert (Et : stacks_total (hist (subs g)) (max_width set) = Z.of_nat (length q)).
  { rewrite <- (on_total (max_width set) q).
    - apply sum_upto_ext. intros i Hi. rewrite Hv, length_fmap by lia. done.
    - destruct Hset. lia.
    - intros x Hx. pose proof (or_index _ _ _ _ Ho x Hx). lia. }
  destruct (alone_run SB (stack_size set) (fun r _ _ => r = Z.of_nat (length q)) g l HI') as (n' & r & g' & l' & Hrun' & -> & _).
  { rewrite <- Et. destruct Hset. 
    apply (stacks_size_wp no_window (max_width set) (2 ^ 63) (alone SB) 0); [by intros ? ? R; apply R|lia|done| |done].
    rewrite Et. apply es_run_length in Hr. cbn [app] in Hr. rewrite length_zip_with in Hr. nia. }
  by exists n', g', l'.
Qed.

(** ** Examples *)

Section examples.
#[local] Instance node_allocator : Allocator node_t := bump_allocator _.
#[local] Instance lateral_allocator : Allocator lateral_node_t := bump_allocator _.

(** Both dimensions are changed between the operations. *)
Definition example_calls : list eop :=
  [stk 1; stk 2; UpdateDepth 3; stk 3; stk 4; UpdateWidth 3; stk 5; stk 6; pop1; stk 7; stk 8; stk 9; UpdateDepth 1;
   pop1; pop1; pop1; pop1; stk 10; pop1; pop1; pop1; pop1; pop1; pop1].

Lemma elastic_stack_k_relaxed_witness :
  exists n rs g l q,
    (forall m, (n <= m)%nat ->
       run m (run_ops (exec_op (fun _ => 0) (fun _ => 0) (example_set 3)) example_calls) (example_mem 2 1 3)
         (example_thread 0 (mkSeeds 3 5 7)) = Finished rs g l) /\
    length rs = 24%nat /\ es_run 1 2 (zip example_calls rs) q (window_of g) (sdepth (window g), swidth (window g)) /\
    held 3 q g /\ 
    (args_ok 2 16 16 1 2 1 0 -> 1 <= 4 <= 3 -> 2 * 1 * (2 - 1) <= 0 <= 0) /\
    exists n' g' l', forall m, (n' <= m)%nat ->
      run m (stack_size (example_set 3)) g l = Finished (Z.of_nat (length q)) g' l'.
Proof.
  apply (elastic_stack_k_relaxed (LA := lateral_allocator) (fun _ => 0) (fun _ => 0) 1 2 1 3 4 0 (example_set 3) (example_mem 2 1 3) example_calls
    (example_thread 0 (mkSeeds 3 5 7)) 3 eq_refl).
  - unfold set_ok, example_set. cbn. lia.
  - cbn. lia.
  - lia.
  - cbn. lia.
  - reflexivity.
  - reflexivity.
  - cbn. lia.
  - cbn. lia.
Defined.

Example example_results :
  match run 5000 (let* rs := run_ops example_exec example_calls in let* n := stack_size (example_set 3) in Ret (rs, n))
      (example_mem 2 1 3) (example_thread 0 (mkSeeds 3 5 7)) with
  | Finished r _ _ => r = ([1; 1; 1; 1; 1; 2; 1; 1; 60; 1; 1; 1; 3; 90; 80; 40; 70; 1; 100; 30; 50; 10; 20; 0], 0)
  | _ => False
  end.
Proof. vm_compute. reflexivity. Qed.
End examples.
