(* ===== verification/SubDeques.v ===== *)
(** An array of deques whose anchors (the two ends, a state and counts) are
    replaced by compare-and-exchange of a pointer: the part that src/2Dc-deque and
    src/2Dd-deque have in common.  The steps on it, their invariant and their
    rules are here; which deque an operation chooses is up to the structures. *)
From S2P Require Import Prelude Conc Random Thread StackHeap Shared.

(** ** Data *)

(** Each function of the code comes in a left and a right version, one the mirror
    image of the other; here the side is an argument. *)
Inductive side := Left | Right.
#[export] Instance side_eq_dec : EqDecision side.
Proof. solve_decision. Defined.
Definition opp (s : side) : side := match s with Left => Right | Right => Left end.

Record node_t := mkNode { val : Z; key : Z; right : Z; left : Z }.
Record anchor_t (C : Type) := mkAnchor { state : Z; aright : Z; aleft : Z; counts : C }.
Arguments mkAnchor {C}.
Arguments state {C}.
Arguments aright {C}.
Arguments aleft {C}.
Arguments counts {C}.

Definition STATE_STABLE : Z := 0.
Definition STATE_RPUSH : Z := 1.
Definition STATE_LPUSH : Z := 2.
Definition push_state (s : side) : Z := match s with Left => STATE_LPUSH | Right => STATE_RPUSH end.

Definition link (s : side) (n : node_t) : Z := match s with Left => left n | Right => right n end.
Definition set_link (s : side) (p : Z) (n : node_t) : node_t :=
  match s with
  | Left => mkNode (val n) (key n) (right n) p
  | Right => mkNode (val n) (key n) p (left n)
  end.
Definition end_ {C} (s : side) (a : anchor_t C) : Z := match s with Left => aleft a | Right => aright a end.
Definition set_end {C} (s : side) (p : Z) (a : anchor_t C) : anchor_t C :=
  match s with
  | Left => mkAnchor (state a) (aright a) p (counts a)
  | Right => mkAnchor (state a) p (aleft a) (counts a)
  end.
Definition set_state {C} (st : Z) (a : anchor_t C) : anchor_t C := mkAnchor st (aright a) (aleft a) (counts a).
Definition set_counts {C} (c : C) (a : anchor_t C) : anchor_t C := mkAnchor (state a) (aright a) (aleft a) c.

(** The history: pushes and pops of [(address, value)] at a side of deque [i]. *)
Inductive devent := DPush (s : side) (i : Z) (x : Z * Z) | DPop (s : side) (i : Z) (x : Z * Z).
Definition dindex (e : devent) : Z := match e with DPush _ i _ | DPop _ i _ => i end.

(** What a successful exchange of an anchor is. *)
Inductive change := Stabilized | Pushed (s : side) | Popped (s : side).

(** [anchors] is the array, [aheap] and [nheap] hold the anchors and nodes.
    History variables: [dhist], the events; [retired], the anchors that were
    replaced; [past], the overwritten values of published nodes' links. *)
Record deques (C : Type) := mkDeques {
  anchors : list Z;
  aheap : memory_of (anchor_t C);
  nheap : memory_of node_t;
  dhist : list (nat * devent);
  retired : list Z;
  past : list (side * Z * Z);
}.
Arguments mkDeques {C}.
Arguments anchors {C}.
Arguments aheap {C}.
Arguments nheap {C}.
Arguments dhist {C}.
Arguments retired {C}.
Arguments past {C}.

Definition set_aheap {C} (m : memory_of (anchor_t C)) (s : deques C) : deques C :=
  mkDeques (anchors s) m (nheap s) (dhist s) (retired s) (past s).
Definition set_nheap {C} (m : memory_of node_t) (s : deques C) : deques C :=
  mkDeques (anchors s) (aheap s) m (dhist s) (retired s) (past s).

(** The exchange of anchor [a] of deque [i] by [new], the event [e] it is, and the
    node it makes public. *)
Definition after_anchor {C} (t : nat) (i a new : Z) (pushed : option Z) (e : option devent) (s : deques C) : deques C :=
  mkDeques (<[Z.to_nat i := new]> (anchors s)) (mem_publish new (aheap s))
    (if pushed is Some p then mem_publish p (nheap s) else nheap s)
    (if e is Some e then (t, e) :: dhist s else dhist s) (a :: retired s) (past s).
(** The exchange of the link of the node [n] at [p]. *)
Definition after_link {C} (sd : side) (p new : Z) (n : node_t) (s : deques C) : deques C :=
  mkDeques (anchors s) (aheap s) (mem_write p (set_link sd new n) (nheap s)) (dhist s) (retired s)
    ((sd, p, link sd n) :: past s).

(** ** The steps *)

Section code.
Context {W V C : Type} {AN : Allocator node_t} {AA : Allocator (anchor_t C)}.
Notation M := (prog (shared W (deques C)) (tls V)).
Implicit Types (g : shared W (deques C)).

Definition lookup_ptr (i : Z) g : option Z := anchors (subs g) !! Z.to_nat i.
Definition lookup_anchor (a : Z) g : option (anchor_t C) := nodes (aheap (subs g)) !! a.
Definition lookup_dnode (p : Z) g : option node_t := nodes (nheap (subs g)) !! p.

(** [deque[i].anchor]. *)
Definition load_ptr (i : Z) : M Z := load (lookup_ptr i).
(** The fields of an anchor do not change once it is in the array, so that one
    load of the anchor stands for loads of its fields and for its copy. *)
Definition load_anchor (a : Z) : M (anchor_t C) := load (lookup_anchor a).
Definition load_link (s : side) (p : Z) : M Z := load (fun g => link s <$> lookup_dnode p g).
Definition load_val (p : Z) : M Z := load (fun g => val <$> lookup_dnode p g).

(** An allocation with the fields set; the node, or anchor, is private to the
    thread until it is pushed, or in the array. *)
Definition alloc_dnode (n : node_t) : M Z :=
  Act (fun g l =>
    let a := alloc_addr (nodes (nheap (subs g))) in
    Some (a, set_subs (set_nheap (mem_alloc (thread_id l) a n (nheap (subs g))) (subs g)) g, l)) Ret.
Definition alloc_anchor (n : anchor_t C) : M Z :=
  Act (fun g l =>
    let a := alloc_addr (nodes (aheap (subs g))) in
    Some (a, set_subs (set_aheap (mem_alloc (thread_id l) a n (aheap (subs g))) (subs g)) g, l)) Ret.
Definition store_dnode (p : Z) (f : node_t -> node_t) : M unit :=
  update (fun g _ =>
    n ← lookup_dnode p g;
    Some (tt, set_subs (set_nheap (mem_write p (f n) (nheap (subs g))) (subs g)) g)).
Definition store_anchor (a : Z) (n : anchor_t C) : M unit :=
  update (fun g _ =>
    _ ← lookup_anchor a g;
    Some (tt, set_subs (set_aheap (mem_write a n (aheap (subs g))) (subs g)) g)).

(** [CAS_BOOL(&prev->left, old, new)], or [&prev->right]. *)
Definition cas_link (s : side) (p old new : Z) : M bool :=
  update (fun g _ =>
    n ← lookup_dnode p g;
    if decide (link s n = old) then Some (true, set_subs (after_link s p new n (subs g)) g)
    else Some (false, g)).

(** The event of replacing [a] by [new], and the node pushed. *)
Definition event_of (i : Z) (a new : anchor_t C) (k : change) (m : memory_of node_t) : option devent :=
  match k with
  | Stabilized => None
  | Pushed s => Some (DPush s i (end_ s new, from_option val 0 (nodes m !! end_ s new)))
  | Popped s => Some (DPop s i (end_ s a, from_option val 0 (nodes m !! end_ s a)))
  end.
Definition pushed_node (new : anchor_t C) (k : change) : option Z :=
  match k with Pushed s => Some (end_ s new) | _ => None end.

(** [CAS_BOOL(&deque[i].anchor, old, new)]. *)
Definition cas_anchor (i old new : Z) (k : change) : M bool :=
  Act (fun g l =>
    cur ← lookup_ptr i g;
    if decide (cur = old) then
      a ← lookup_anchor old g; n ← lookup_anchor new g;
      Some (true, set_subs (after_anchor (thread_id l) i old new (pushed_node n k)
        (event_of i a n k (nheap (subs g))) (subs g)) g, l)
    else Some (false, g, l)) Ret.
End code.

(** ** Lists seen from a side *)

Definition view {X} (s : side) (xs : list X) : list X := match s with Left => xs | Right => reverse xs end.

Lemma view_view {X} s (xs : list X) : view s (view s xs) = xs.
Proof. destruct s; [done|apply reverse_involutive]. Qed.
Lemma view_opp {X} s (xs : list X) : view (opp s) xs = reverse (view s xs).
Proof. destruct s; [done|]. unfold view. cbn [opp]. by rewrite reverse_involutive. Qed.
Lemma view_fmap {X Y} s (f : X -> Y) (xs : list X) : view s (f <$> xs) = f <$> view s xs.
Proof. destruct s; [done|]. symmetry. apply fmap_reverse. Qed.
Lemma elem_of_view {X} s (xs : list X) x : x ∈ view s xs <-> x ∈ xs.
Proof. destruct s; [done|apply elem_of_reverse]. Qed.
Lemma view_length {X} s (xs : list X) : length (view s xs) = length xs.
Proof. destruct s; [done|apply length_reverse]. Qed.
Lemma view_nil {X} s (xs : list X) : view s xs = [] <-> xs = [].
Proof. by rewrite <- !length_zero_iff_nil, view_length. Qed.
Lemma view_perm {X} s (xs : list X) : view s xs ≡ₚ xs.
Proof. destruct s; [done|apply reverse_Permutation]. Qed.
Lemma opp_opp s : opp (opp s) = s.
Proof. by destruct s. Qed.
Lemma opp_ne s : opp s <> s.
Proof. by destruct s. Qed.
Lemma side_cases s s' : s' = s \/ s' = opp s.
Proof. destruct s, s'; auto. Qed.
Lemma push_state_inj s s' : push_state s = push_state s' -> s = s'.
Proof. by destruct s, s'. Qed.
Lemma push_state_stable s : push_state s <> STATE_STABLE.
Proof. by destruct s. Qed.

Lemma link_set s p n : link s (set_link s p n) = p.
Proof. by destruct s. Qed.
Lemma link_set_opp s p n : link (opp s) (set_link s p n) = link (opp s) n.
Proof. by destruct s. Qed.
Lemma val_set s p n : val (set_link s p n) = val n.
Proof. by destruct s. Qed.

(** ** Histories *)

Definition applies (e : devent) (xs : list (Z * Z)) : list (Z * Z) :=
  match e with
  | DPush s _ x => view s (x :: view s xs)
  | DPop s _ _ => view s (tail (view s xs))
  end.

(** The elements of deque [i], the leftmost first. *)
Fixpoint elems (i : Z) (h : list (nat * devent)) : list (Z * Z) :=
  match h with
  | [] => []
  | (_, e) :: h => if decide (dindex e = i) then applies e (elems i h) else elems i h
  end.

(** Pops take what is at their side. *)
Fixpoint dlegal (h : list (nat * devent)) : Prop :=
  match h with
  | [] => True
  | (_, DPush _ _ _) :: h => dlegal h
  | (_, DPop s i x) :: h => head (view s (elems i h)) = Some x /\ dlegal h
  end.

Definition devents_of (t : nat) (h : list (nat * devent)) : list devent := (filter (fun x => x.1 = t) h).*2.
Lemma devents_of_cons t u e h :
  devents_of t ((u, e) :: h) = if decide (u = t) then e :: devents_of t h else devents_of t h.
Proof. unfold devents_of. rewrite filter_cons. cbn. by destruct (decide (u = t)). Qed.

(** ** Public nodes *)

Section public.
Context {N : Type}.
Implicit Types (m : memory_of N).

(** What is not private to a thread. *)
Definition pub m : gmap Z N := filter (fun x => priv m !! x.1 = None) (nodes m).

Lemma pub_lookup m a n : pub m !! a = Some n <-> nodes m !! a = Some n /\ priv m !! a = None.
Proof. unfold pub. by rewrite map_lookup_filter_Some. Qed.

Lemma pub_alloc t a n m : nodes m !! a = None -> (forall u, priv m !! a <> Some u) -> pub (mem_alloc t a n m) = pub m.
Proof.
  intros E P. apply map_eq. intros b. apply option_eq. intros x. rewrite !pub_lookup. cbn.
  destruct (decide (a = b)) as [<-|]; [rewrite !lookup_insert_eq|rewrite !lookup_insert_ne by done; done].
  split; [by intros [_ ?]|]. intros [? _]. congruence.
Qed.

Lemma pub_write t a n m : priv m !! a = Some t -> pub (mem_write a n m) = pub m.
Proof.
  intros P. apply map_eq. intros b. apply option_eq. intros x. rewrite !pub_lookup. cbn.
  destruct (decide (a = b)) as [<-|]; [|by rewrite lookup_insert_ne].
  split; intros [_ ?]; congruence.
Qed.

Lemma pub_write_pub a n n' m : pub m !! a = Some n' -> pub (mem_write a n m) = <[a := n]> (pub m).
Proof.
  intros [E P]%pub_lookup. apply map_eq. intros b. apply option_eq. intros x. rewrite pub_lookup. cbn.
  destruct (decide (a = b)) as [<-|].
  - rewrite !lookup_insert_eq. split; [by intros [? _]|done].
  - by rewrite !lookup_insert_ne, pub_lookup by done.
Qed.

Lemma mem_write_some a n m : mem_ok m -> is_Some (nodes m !! a) -> mem_ok (mem_write a n m).
Proof.
  intros [H0 Hp] Ha. split; cbn.
  - rewrite lookup_insert_ne; [done|]. intros ->. rewrite H0 in Ha. by destruct Ha.
  - intros b t Hb. rewrite lookup_insert_is_Some'. right. by eapply Hp.
Qed.

Lemma pub_publish a n m : nodes m !! a = Some n -> pub (mem_publish a m) = <[a := n]> (pub m).
Proof.
  intros E. apply map_eq. intros b. apply option_eq. intros x. rewrite pub_lookup. cbn.
  destruct (decide (a = b)) as [<-|].
  - rewrite lookup_insert_eq, lookup_delete_eq. split; [by intros [? _]; congruence|]. intros [= <-]. done.
  - by rewrite lookup_insert_ne, lookup_delete_ne, pub_lookup by done.
Qed.
End public.

(** ** Following links *)

Implicit Types (m : gmap Z node_t) (ys : list Z).

(** Each of [ys] leads to the next by its link on the side [s]. *)
Fixpoint follows m (s : side) ys : Prop :=
  match ys with
  | [] => True
  | y :: ys =>
      match ys with
      | [] => True
      | y' :: _ => (exists n, m !! y = Some n /\ link s n = y') /\ follows m s ys
      end
  end.

Lemma follows_tail m s ys : follows m s ys -> follows m s (tail ys).
Proof. destruct ys as [|y [|y' ys]]; [done..|]. by intros [_ ?]. Qed.

Lemma follows_cons m s y ys :
  follows m s ys -> (forall y', head ys = Some y' -> exists n, m !! y = Some n /\ link s n = y') -> follows m s (y :: ys).
Proof. intros H Hy. cbn. destruct ys as [|y' ys]; [done|]. split; [by apply Hy|done]. Qed.

Lemma follows_head m s y y' ys : follows m s (y :: y' :: ys) -> exists n, m !! y = Some n /\ link s n = y'.
Proof. by intros [? _]. Qed.

Lemma follows_app m s ys y zs : follows m s (ys ++ y :: zs) <-> follows m s (ys ++ [y]) /\ follows m s (y :: zs).
Proof.
  induction ys as [|x ys IH]; [cbn; destruct zs; tauto|].
  destruct ys as [|x' ys]; [cbn; destruct zs; tauto|]. cbn [app] in *.
  change (((exists n, m !! x = Some n /\ link s n = x') /\ follows m s (x' :: ys ++ y :: zs)) <->
    ((exists n, m !! x = Some n /\ link s n = x') /\ follows m s (x' :: ys ++ [y])) /\ follows m s (y :: zs)).
  rewrite IH. tauto.
Qed.

(** The links of all but the last matter. *)
Lemma follows_keeps m m' s ys y :
  (forall x n, x ∈ ys -> m !! x = Some n -> exists n', m' !! x = Some n' /\ link s n' = link s n) ->
  follows m s (ys ++ [y]) -> follows m' s (ys ++ [y]).
Proof.
  intros Hk. induction ys as [|x ys IH]; [done|]. intros Hf.
  assert (Hf' : follows m s (ys ++ [y])) by exact (follows_tail _ _ _ Hf). cbn [app]. apply follows_cons.
  - apply IH; [|done]. intros z n Hz. apply Hk. by right.
  - intros y' Hy. destruct ys as [|x' ys]; cbn in Hy; injection Hy as <-;
      (destruct Hf as [(n & E & El) _]; destruct (Hk x n ltac:(by left) E) as (n' & E' & El'); exists n'; split; [done|congruence]).
Qed.

Lemma follows_subset m m' s ys :
  (forall x n, x ∈ ys -> m !! x = Some n -> exists n', m' !! x = Some n' /\ link s n' = link s n) ->
  follows m s ys -> follows m' s ys.
Proof.
  intros Hk. destruct ys as [|y ys _] using rev_ind; [done|]. apply follows_keeps. intros x n Hx. apply Hk. set_solver.
Qed.

(** ** One deque *)

Section deque.
Context {C : Type}.
Implicit Types (a : anchor_t C) (h : list (nat * devent)).

Definition first ys : Z := from_option id 0 (head ys).

(** The elements the links on the side [s] lead through, coming from the other
    side: the last link is missing while a push at side [s] is not stabilized. *)
Definition reach (s : side) (st : Z) ys : list Z :=
  reverse (if decide (st = push_state s) then tail (view s ys) else view s ys).

(** The anchor [a] in the array says what the deque [ys] is. *)
Record anchor_at m (ps : list (side * Z * Z)) a ys : Prop := mkAnchorAt {
  aa_end s : end_ s a = first (view s ys);
  aa_state : state a = STATE_STABLE \/ exists s, state a = push_state s /\ (2 <= length ys)%nat;
  aa_links s : follows m s (reach s (state a) ys);
  aa_pending s x p r : state a = push_state s -> view s ys = x :: p :: r -> (s, p, x) ∉ ps;
}.

(** The links as they are seen from the side [s]. *)
Lemma links_view m st ys s :
  (forall s, follows m s (reach s st ys)) <->
  follows m (opp s) (if decide (st = push_state (opp s)) then reverse (tail (reverse (view s ys))) else view s ys) /\
  follows m s (reverse (if decide (st = push_state s) then tail (view s ys) else view s ys)).
Proof.
  unfold reach. split.
  - intros H. split; [|apply H]. specialize (H (opp s)). rewrite view_opp in H.
    destruct (decide _); [exact H|by rewrite reverse_involutive in H].
  - intros [H1 H2] s'. destruct (side_cases s s') as [->| ->]; [done|]. rewrite view_opp.
    destruct (decide _); [exact H1|by rewrite reverse_involutive].
Qed.

(** A stable deque. *)
Lemma links_stable m ys s :
  (forall s, follows m s (reach s STATE_STABLE ys)) <-> follows m (opp s) (view s ys) /\ follows m s (reverse (view s ys)).
Proof. rewrite (links_view _ _ _ s). rewrite !decide_False by (by apply not_eq_sym, push_state_stable). done. Qed.
(** And one being pushed to at the side [s]. *)
Lemma links_pushed m ys s :
  (forall s', follows m s' (reach s' (push_state s) ys)) <->
  follows m (opp s) (view s ys) /\ follows m s (reverse (tail (view s ys))).
Proof.
  rewrite (links_view _ _ _ s). rewrite (decide_True (P := push_state s = push_state s)) by done.
  rewrite decide_False by (intros E%push_state_inj; by destruct s). done.
Qed.

Lemma ends_view a ys s :
  (forall s', end_ s' a = first (view s' ys)) <-> end_ s a = first (view s ys) /\ end_ (opp s) a = first (reverse (view s ys)).
Proof.
  rewrite <- view_opp. split; [done|]. intros [H1 H2] s'. by destruct (side_cases s s') as [->| ->].
Qed.

Lemma anchor_short m ps a ys : anchor_at m ps a ys -> (length ys < 2)%nat -> state a = STATE_STABLE.
Proof. intros [_ [?|(s & _ & ?)] _ _] Hlen; [done|lia]. Qed.

Lemma follows_short m s ys : (length ys < 2)%nat -> follows m s ys.
Proof. destruct ys as [|y [|y' ys]]; cbn; [done|done|lia]. Qed.

Lemma reach_length s st ys : (length (reach s st ys) <= length ys)%nat.
Proof.
  unfold reach. rewrite length_reverse. pose proof (view_length s ys). destruct (decide _); [|lia].
  destruct (view s ys); cbn in *; lia.
Qed.

(** A deque of at most one element. *)
Lemma anchor_single m ps a ys :
  state a = STATE_STABLE -> (length ys < 2)%nat -> (forall s, end_ s a = first ys) -> anchor_at m ps a ys.
Proof.
  intros Hst Hlen He. assert (Hv : forall s, view s ys = ys) by (intros s; destruct s; [done|]; by destruct ys as [|y [|]]; [| |cbn in Hlen; lia]).
  split; [by intros s; rewrite Hv|by left| |].
  - intros s. apply follows_short. pose proof (reach_length s (state a) ys). lia.
  - intros s x p r Es. rewrite Hst in Es. by destruct (push_state_stable s).
Qed.

Lemma anchor_push m m' ps ps' a a' ys s x :
  anchor_at m ps a ys -> state a = STATE_STABLE -> ys <> [] -> m ⊆ m' ->
  (exists n, m' !! x = Some n /\ link (opp s) n = end_ s a) ->
  end_ s a' = x -> end_ (opp s) a' = end_ (opp s) a -> state a' = push_state s -> (s, end_ s a, x) ∉ ps' ->
  anchor_at m' ps' a' (view s (x :: view s ys)).
Proof.
  intros [He _ Hl _] Hst Hne Hm Hn Ex Eo Es Hps. rewrite Hst in Hl. apply (links_stable _ _ s) in Hl as [Hl1 Hl2].
  pose proof (He s) as Hes. pose proof (He (opp s)) as Heo. rewrite view_opp in Heo.
  assert (Hv : view s ys <> []) by by rewrite view_nil. destruct (view s ys) as [|y r] eqn:Ev; [done|]. cbn in Hes.
  assert (Hk : forall z n, m !! z = Some n -> exists n', m' !! z = Some n' /\ forall s, link s n' = link s n).
  { intros z n Ez. exists n. split; [by eapply lookup_weaken|done]. }
  split.
  - apply (ends_view _ _ s). rewrite view_view. split; [done|]. rewrite Eo, Heo. unfold first.
    rewrite !reverse_cons. by destruct (reverse r) as [|].
  - right. exists s. rewrite view_length. split; [done|cbn; lia].
  - rewrite Es. apply links_pushed. rewrite view_view. cbn [tail]. split.
    + apply follows_cons; [|intros ? [= <-]; by rewrite <- Hes].
      eapply follows_subset; [|exact Hl1]. intros z n _ Ez. destruct (Hk z n Ez) as (n' & ? & ?). by exists n'.
    + eapply follows_subset; [|exact Hl2]. intros z n _ Ez. destruct (Hk z n Ez) as (n' & ? & ?). by exists n'.
  - intros s' x' p r' Es'. rewrite Es in Es'. apply push_state_inj in Es' as <-. rewrite view_view.
    intros [= <- <- <-]. by rewrite <- Hes.
Qed.

Lemma anchor_pop m ps ps' a a' ys s x p r :
  anchor_at m ps a ys -> state a = STATE_STABLE -> view s ys = x :: p :: r ->
  end_ s a' = p -> end_ (opp s) a' = end_ (opp s) a -> state a' = STATE_STABLE ->
  anchor_at m ps' a' (view s (p :: r)).
Proof.
  intros [He _ Hl _] Hst Ev Ep Eo Es. rewrite Hst in Hl. apply (links_stable _ _ s) in Hl as [Hl1 Hl2].
  pose proof (He (opp s)) as Heo. rewrite view_opp, Ev in Heo. rewrite Ev in Hl1, Hl2. split.
  - apply (ends_view _ _ s). rewrite view_view. split; [done|]. rewrite Eo, Heo. unfold first.
    rewrite !reverse_cons. by destruct (reverse r) as [|].
  - by left.
  - rewrite Es. apply (links_stable _ _ s). rewrite view_view. split; [exact (follows_tail _ _ _ Hl1)|].
    rewrite (reverse_cons _ x), (reverse_cons r p), <- app_assoc in Hl2. cbn [app] in Hl2.
    rewrite reverse_cons. by apply follows_app in Hl2 as [? _].
  - intros s' x' p' r' Es'. rewrite Es in Es'. by destruct (push_state_stable s').
Qed.

Lemma anchor_stabilize m ps ps' a a' ys s x p r :
  anchor_at m ps a ys -> state a = push_state s -> view s ys = x :: p :: r ->
  (exists n, m !! p = Some n /\ link s n = x) ->
  (forall s, end_ s a' = end_ s a) -> state a' = STATE_STABLE -> anchor_at m ps' a' ys.
Proof.
  intros [He _ Hl _] Hst Ev Hp Ee Es. rewrite Hst in Hl. apply links_pushed in Hl as [Hl1 Hl2]. split.
  - intros s'. by rewrite Ee.
  - by left.
  - rewrite Es. apply (links_stable _ _ s). split; [done|]. rewrite Ev in *. cbn [tail] in Hl2.
    rewrite reverse_cons in Hl2. rewrite (reverse_cons _ x), (reverse_cons r p), <- app_assoc. cbn [app].
    apply follows_app. split; [done|]. apply follows_cons; [done|]. by intros ? [= <-].
  - intros s' x' p' r' Es'. rewrite Es in Es'. by destruct (push_state_stable s').
Qed.

(** Another node's link, or the pending link of this deque, is written. *)
Lemma anchor_link m ps a ys s p n new :
  anchor_at m ps a ys -> NoDup ys -> m !! p = Some n ->
  (p ∈ ys -> state a = push_state s /\ exists x r, view s ys = x :: p :: r /\ link s n <> x) ->
  anchor_at (<[p := set_link s new n]> m) ((s, p, link s n) :: ps) a ys.
Proof.
  intros [He Hst Hl Hp] Hnd En Hin. split; [done|done| |].
  - intros s'. specialize (Hl s'). destruct (decide (s' = s)) as [->|Hne].
    + destruct (decide (p ∈ ys)) as [Hpy|Hpy].
      * destruct (Hin Hpy) as (Es & x & r & Ev & _). unfold reach in *. rewrite decide_True in * by done. rewrite Ev in *.
        cbn [tail] in *. rewrite reverse_cons in *. eapply follows_keeps; [|exact Hl]. intros z nz Hz Ez.
        exists nz. split; [|done]. rewrite lookup_insert_ne; [done|]. intros ->. rewrite elem_of_reverse in Hz.
        assert (Hndv : NoDup (view s ys)) by (rewrite view_perm; done). rewrite Ev in Hndv.
        apply NoDup_cons in Hndv as [_ Hndv]. by apply NoDup_cons in Hndv as [? _].
      * eapply follows_subset; [|exact Hl]. intros z nz Hz Ez. exists nz. split; [|done]. rewrite lookup_insert_ne; [done|].
        intros ->. apply Hpy. unfold reach in Hz. rewrite elem_of_reverse in Hz. rewrite <- (elem_of_view s).
        destruct (decide _); [|done]. destruct (view s ys); [done|]. by right.
    + eapply follows_subset; [|exact Hl]. intros z nz _ Ez. destruct (decide (p = z)) as [<-|Hpz].
      * exists (set_link s new n). rewrite lookup_insert_eq. split; [done|]. assert (nz = n) as -> by congruence.
        destruct (side_cases s s') as [->| ->]; [done|apply link_set_opp].
      * exists nz. by rewrite lookup_insert_ne.
  - intros s' x p' r' Es Ev. intros [E|E]%elem_of_cons; [|by apply (Hp s' x p' r' Es Ev)]. injection E as -> -> ->.
    destruct Hin as (Es' & x & r & Ev' & Hx); [rewrite <- (elem_of_view s), Ev; set_solver|].
    rewrite Ev in Ev'. injection Ev' as E1 _. congruence.
Qed.

Lemma anchor_mono m m' ps a ys : anchor_at m ps a ys -> m ⊆ m' -> anchor_at m' ps a ys.
Proof.
  intros [He Hst Hl Hp] Hm. split; [done|done| |done]. intros s. eapply follows_subset; [|apply Hl].
  intros z n _ Ez. exists n. split; [by eapply lookup_weaken|done].
Qed.
End deque.

(** ** The invariant *)

Definition addrs (i : Z) (h : list (nat * devent)) : list Z := (elems i h).*1.

Section protocol.
Context {C : Type} (cok : Z -> list (nat * devent) -> C -> Prop) (w : Z).
Implicit Types (s : deques C) (n : anchor_t C) (i a p x : Z) (sd : side).

(** The anchors and nodes point to public nodes; the anchors of the array fit the
    history; an overwritten value of a link never comes back. *)
Record deques_inv s : Prop := mkDequesInv {
  di_len : Z.of_nat (length (anchors s)) = w;
  di_aheap : mem_ok (aheap s);
  di_nheap : mem_ok (nheap s);
  di_legal : dlegal (dhist s);
  di_ends a n sd : pub (aheap s) !! a = Some n -> end_ sd n = 0 \/ is_Some (pub (nheap s) !! end_ sd n);
  di_valid a n : pub (aheap s) !! a = Some n ->
    (aleft n = 0 <-> aright n = 0) /\ (state n = STATE_STABLE \/ (exists sd, state n = push_state sd) /\ aleft n <> aright n);
  di_cur i a : 0 <= i -> anchors s !! Z.to_nat i = Some a -> a ∉ retired s /\
    exists n, pub (aheap s) !! a = Some n /\ anchor_at (pub (nheap s)) (past s) n (addrs i (dhist s)) /\
      cok i (dhist s) (counts n);
  di_retired a : a ∈ retired s -> is_Some (pub (aheap s) !! a);
  di_inj i j a : 0 <= i -> 0 <= j -> anchors s !! Z.to_nat i = Some a -> anchors s !! Z.to_nat j = Some a -> i = j;
  di_nodup i : NoDup (addrs i (dhist s));
  di_disj i j p : p ∈ addrs i (dhist s) -> p ∈ addrs j (dhist s) -> i = j;
  di_elem i (y : Z * Z) : y ∈ elems i (dhist s) -> exists nd, pub (nheap s) !! y.1 = Some nd /\ val nd = y.2;
  di_link p nd sd : pub (nheap s) !! p = Some nd ->
    (link sd nd = 0 \/ is_Some (pub (nheap s) !! link sd nd)) /\ (sd, p, link sd nd) ∉ past s;
  di_past sd p v : (sd, p, v) ∈ past s -> is_Some (pub (nheap s) !! p) /\ (v = 0 \/ is_Some (pub (nheap s) !! v));
}.

(** How the public part changes.  A replaced anchor was stabilized before. *)
Record plater s s' : Prop := mkPlater {
  pl_anchors : pub (aheap s) ⊆ pub (aheap s');
  pl_nodes p nd : pub (nheap s) !! p = Some nd -> exists nd', pub (nheap s') !! p = Some nd' /\ val nd' = val nd /\
    forall sd, link sd nd' = link sd nd \/ (sd, p, link sd nd) ∈ past s';
  pl_retired : retired s ⊆ retired s';
  pl_past : past s ⊆ past s';
  pl_cur i a : 0 <= i -> anchors s !! Z.to_nat i = Some a -> anchors s' !! Z.to_nat i = Some a \/ a ∈ retired s';
  pl_same i a : 0 <= i -> anchors s !! Z.to_nat i = Some a -> a ∉ retired s' -> elems i (dhist s') = elems i (dhist s);
  pl_settled i a n sd x p r np : 0 <= i -> a ∉ retired s -> anchors s !! Z.to_nat i = Some a -> pub (aheap s) !! a = Some n ->
    state n = push_state sd -> view sd (addrs i (dhist s)) = x :: p :: r -> a ∈ retired s' ->
    pub (nheap s) !! p = Some np -> link sd np <> x -> (sd, p, link sd np) ∈ past s';
}.

(** What a thread may rely on, and what it guarantees. *)
Record drely (t : nat) s s' : Prop := mkDrely {
  dr_pub : plater s s';
  dr_own_a : keeps (aheap s) (aheap s') (Some t);
  dr_own_n : keeps (nheap s) (nheap s') (Some t);
  dr_mine : devents_of t (dhist s') = devents_of t (dhist s);
}.
Record dguar (t : nat) s s' : Prop := mkDguar {
  dg_pub : plater s s';
  dg_a u : u <> t -> keeps (aheap s) (aheap s') (Some u);
  dg_n u : u <> t -> keeps (nheap s) (nheap s') (Some u);
  dg_others u : u <> t -> devents_of u (dhist s') = devents_of u (dhist s);
}.

Lemma list_decide_in (a : Z) (xs : list Z) : a ∈ xs \/ a ∉ xs.
Proof. destruct (decide (a ∈ xs)); auto. Qed.

Lemma plater_refl s : plater s s.
Proof.
  split; try done; try (by left).
  intros p nd E. exists nd. split; [done|split; [done|]]. by left.
Qed.

Lemma plater_trans s1 s2 s3 : plater s1 s2 -> plater s2 s3 -> plater s1 s3.
Proof.
  intros [A1 D1 R1 P1 C1 S1 L1] [A2 D2 R2 P2 C2 S2 L2]. split.
  - by etrans.
  - intros p n E. destruct (D1 p n E) as (n' & E' & V' & K'). destruct (D2 p n' E') as (n'' & E'' & V'' & K'').
    exists n''. split; [done|split; [congruence|]]. intros sd. destruct (K' sd) as [<-|?]; [apply K''|]. right. by apply P2.
  - by etrans.
  - by etrans.
  - intros i a Hi E. destruct (C1 i a Hi E) as [E'|?]; [by apply C2|]. right. by apply R2.
  - intros i a Hi E Hr. assert (Hr' : a ∉ retired s2) by (intros ?; apply Hr; by apply R2).
    destruct (C1 i a Hi E) as [E'|?]; [|done]. rewrite (S2 i a Hi E' Hr). by apply (S1 i a).
  - intros i a n sd x p r np Hi Hr0 E En Es Ev Hr Ep Hx. destruct (list_decide_in a (retired s2)) as [Hr'|Hr'].
    + by eapply P2, (L1 i a n sd x p r np).
    + destruct (C1 i a Hi E) as [E'|?]; [|done]. destruct (D1 p np Ep) as (n' & Ep' & _ & K').
      destruct (K' sd) as [Ek|?]; [|by apply P2]. rewrite <- Ek in Hx |- *.
      apply (L2 i a n sd x p r n'); try done; [by eapply lookup_weaken|]. unfold addrs. by rewrite (S1 i a Hi E Hr').
Qed.

Definition dprot : protocol (deques C) :=
  {| p_inv := deques_inv; p_rely := drely; p_guar := dguar; p_ok _ := True; p_total := false |}.

#[export] Instance dprot_laws : ProtocolLaws dprot.
Proof.
  split; cbn.
  - intros t s. split; [apply plater_refl|done..].
  - intros t s1 s2 s3 [] []. split; [by eapply plater_trans|by eapply keeps_trans..|congruence].
  - intros t s. split; [apply plater_refl|done..].
  - intros t u s1 s2 Htu _ [H1 H2 H3 H4]. split; [done|apply H2|apply H3|apply H4]; done.
Qed.

(** *** Private changes *)

Lemma inv_nheap t s (m : memory_of node_t) :
  deques_inv s -> mem_ok m -> pub m = pub (nheap s) -> (forall u, u <> t -> keeps (nheap s) m (Some u)) ->
  deques_inv (set_nheap m s) /\ p_guar dprot t s (set_nheap m s).
Proof.
  intros [] Hm Hp Hk. split.
  - split; cbn [set_nheap anchors aheap nheap dhist retired past]; rewrite ?Hp; done.
  - split; cbn [set_nheap aheap nheap dhist]; try done. destruct (plater_refl s).
    split; cbn [set_nheap anchors aheap nheap dhist retired past]; rewrite ?Hp; done.
Qed.

Lemma inv_aheap t s (m : memory_of (anchor_t C)) :
  deques_inv s -> mem_ok m -> pub m = pub (aheap s) -> (forall u, u <> t -> keeps (aheap s) m (Some u)) ->
  deques_inv (set_aheap m s) /\ p_guar dprot t s (set_aheap m s).
Proof.
  intros [] Hm Hp Hk. split.
  - split; cbn [set_aheap anchors aheap nheap dhist retired past]; rewrite ?Hp; done.
  - split; cbn [set_aheap aheap nheap dhist]; try done. destruct (plater_refl s).
    split; cbn [set_aheap anchors aheap nheap dhist retired past]; rewrite ?Hp; done.
Qed.

(** *** The exchange of a link *)

Lemma addrs_in i h y : y ∈ elems i h -> y.1 ∈ addrs i h.
Proof. intros H. unfold addrs. by apply list_elem_of_fmap_2. Qed.

Lemma addrs_pub s i p : deques_inv s -> p ∈ addrs i (dhist s) -> is_Some (pub (nheap s) !! p).
Proof. intros HI (y & -> & Hy)%list_elem_of_fmap. destruct (di_elem _ HI i y Hy) as (nd & E & _). by exists nd. Qed.

Lemma relink_step t s i a n sd x p r nd :
  deques_inv s -> 0 <= i -> anchors s !! Z.to_nat i = Some a -> pub (aheap s) !! a = Some n -> state n = push_state sd ->
  view sd (addrs i (dhist s)) = x :: p :: r -> pub (nheap s) !! p = Some nd -> link sd nd <> x ->
  deques_inv (after_link sd p x nd s) /\ p_guar dprot t s (after_link sd p x nd s).
Proof.
  intros HI Hi Ea En Es Ev Ep Hx. pose proof HI as [].
  pose proof (pub_write_pub p (set_link sd x nd) nd (nheap s) Ep) as Hpub.
  assert (Hxin : x ∈ addrs i (dhist s)) by (rewrite <- (elem_of_view sd), Ev; set_solver).
  assert (Hpin : p ∈ addrs i (dhist s)) by (rewrite <- (elem_of_view sd), Ev; set_solver).
  destruct (di_cur0 i a Hi Ea) as (Hret & n' & En' & Hat & _). assert (n' = n) as -> by congruence.
  pose proof (aa_pending _ _ _ _ Hat sd x p r Es Ev) as Hpend.
  assert (Hsome : forall q, is_Some (pub (nheap s) !! q) -> is_Some (pub (nheap (after_link sd p x nd s)) !! q)).
  { intros q Hq. cbn [after_link nheap]. rewrite Hpub, lookup_insert_is_Some'. by right. }
  assert (Hold : forall q nq, pub (nheap s) !! q = Some nq -> exists nq', pub (nheap (after_link sd p x nd s)) !! q = Some nq' /\
    val nq' = val nq /\ forall sd', link sd' nq' = link sd' nq \/ (sd', q, link sd' nq) ∈ past (after_link sd p x nd s)).
  { intros q nq Eq. cbn [after_link nheap past]. rewrite Hpub. destruct (decide (p = q)) as [<-|Hne].
    - rewrite lookup_insert_eq. exists (set_link sd x nd). split; [done|]. assert (nq = nd) as -> by congruence.
      split; [apply val_set|]. intros sd'. destruct (side_cases sd sd') as [->| ->]; [right; by left|left; apply link_set_opp].
    - rewrite lookup_insert_ne by done. exists nq. split; [done|split; [done|]]. by left. }
  split.
  - split; try done; cbn [after_link anchors aheap dhist retired].
    + apply mem_write_some; [done|]. apply pub_lookup in Ep as [Ep _]. by exists nd.
    + intros b nb sd' Eb. destruct (di_ends0 b nb sd' Eb); [by left|right]. by apply Hsome.
    + intros j b Hj Eb. destruct (di_cur0 j b Hj Eb) as (Hb & nb & Enb & Hatb & Hc). split; [done|]. exists nb.
      split; [done|split; [|done]]. cbn [after_link nheap past]. rewrite Hpub. apply anchor_link; [done|apply di_nodup0|done|].
      intros Hpj. assert (j = i) as -> by by apply (di_disj0 j i p). assert (nb = n) as -> by congruence.
      split; [done|]. by exists x, r.
    + intros j y Hy. destruct (di_elem0 j y Hy) as (ny & Ey & <-). destruct (Hold _ _ Ey) as (ny' & Ey' & Ev' & _). by exists ny'.
    + intros q nq sd' Eq. cbn [after_link nheap past] in *. rewrite Hpub in Eq. apply lookup_insert_Some in Eq as [[<- <-]|[Hne Eq]].
      * destruct (side_cases sd sd') as [->| ->].
        -- rewrite link_set. split; [right; apply Hsome; by apply (addrs_pub s i)|]. intros [[= ->]|?]%elem_of_cons; done.
        -- rewrite link_set_opp. destruct (di_link0 p nd (opp sd) Ep) as [H1 H2].
           split; [destruct H1; [by left|right; by apply Hsome]|]. intros [[= E _]|?]%elem_of_cons; [by destruct (opp_ne sd)|done].
      * destruct (di_link0 q nq sd' Eq) as [H1 H2]. split; [destruct H1; [by left|right; by apply Hsome]|].
        intros [[= _ <- _]|?]%elem_of_cons; done.
    + intros sd' q v [[= -> -> ->]|Hq]%elem_of_cons.
      * split; [apply Hsome; by exists nd|]. destruct (di_link0 p nd sd Ep) as [[?|?] _]; [by left|right; by apply Hsome].
      * destruct (di_past0 sd' q v Hq) as [H1 H2]. split; [by apply Hsome|]. destruct H2; [by left|right; by apply Hsome].
  - split; try done.
    + destruct (plater_refl s). split; try done; cbn [after_link past]. intros z Hz. by right.
    + intros u _ b nb Eb Pb. cbn. apply pub_lookup in Ep as [_ Pp]. rewrite lookup_insert_ne; [done|]. intros ->. congruence.
Qed.

(** *** The exchange of an anchor *)

Context (Hcok : forall i t e h c, dindex e <> i -> cok i h c -> cok i ((t, e) :: h) c).

Definition valid (n : anchor_t C) : Prop :=
  (aleft n = 0 <-> aright n = 0) /\ (state n = STATE_STABLE \/ (exists sd, state n = push_state sd) /\ aleft n <> aright n).

Definition events (t : nat) (e : option devent) (h : list (nat * devent)) : list (nat * devent) :=
  if e is Some e then (t, e) :: h else h.
Definition published (pushed : option Z) (m : memory_of node_t) : memory_of node_t :=
  if pushed is Some p then mem_publish p m else m.

(** The node pushed, if any, is private and its links are right. *)
Definition pushed_ok (t : nat) (pushed : option Z) (m : memory_of node_t) : Prop :=
  forall p, pushed = Some p -> priv m !! p = Some t /\ exists nd, nodes m !! p = Some nd /\
    forall sd, link sd nd = 0 \/ is_Some (pub m !! link sd nd).

(** [a] may be replaced: nothing is left to be stabilized. *)
Definition settled s i n : Prop :=
  forall sd x p r np, state n = push_state sd -> view sd (addrs i (dhist s)) = x :: p :: r ->
    pub (nheap s) !! p = Some np -> link sd np = x.

Lemma published_pub t pushed (m : memory_of node_t) :
  mem_ok m -> pushed_ok t pushed m ->
  mem_ok (published pushed m) /\ pub m ⊆ pub (published pushed m) /\ (forall u, u <> t -> keeps m (published pushed m) (Some u)) /\
  (forall p, pushed = Some p -> pub m !! p = None) /\
  forall p nd, pub (published pushed m) !! p = Some nd -> pub m !! p = Some nd \/
    pushed = Some p /\ forall sd, link sd nd = 0 \/ is_Some (pub m !! link sd nd).
Proof.
  intros Hm Hp. destruct pushed as [p|]; cbn [published]; [|by split_and!; auto].
  destruct (Hp p eq_refl) as (P & nd & E & Hl). destruct (mem_publish_ok t p m Hm P) as [Hm' [_ Hk]].
  assert (Hnone : pub m !! p = None).
  { destruct (pub m !! p) eqn:Ep; [|done]. apply pub_lookup in Ep as [_ ?]. congruence. }
  rewrite (pub_publish p nd m E). split_and!; [done|by apply insert_subseteq|done|by intros ? [= <-]|].
  intros q nq [[<- <-]|[_ Eq]]%lookup_insert_Some; [by right|by left].
Qed.

Lemma elems_other i j t e h : (forall e', e = Some e' -> dindex e' = i) -> j <> i -> elems j (events t e h) = elems j h.
Proof. intros He Hj. destruct e as [e|]; [|done]. cbn. rewrite decide_False; [done|]. rewrite (He e eq_refl). congruence. Qed.

Lemma anchor_step t s i a n new nw pushed e :
  deques_inv s -> 0 <= i -> anchors s !! Z.to_nat i = Some a -> pub (aheap s) !! a = Some n -> settled s i n ->
  priv (aheap s) !! new = Some t -> nodes (aheap s) !! new = Some nw ->
  pushed_ok t pushed (nheap s) -> (forall e', e = Some e' -> dindex e' = i) -> dlegal (events t e (dhist s)) ->
  (forall sd, end_ sd nw = 0 \/ is_Some (pub (published pushed (nheap s)) !! end_ sd nw)) -> valid nw ->
  anchor_at (pub (published pushed (nheap s))) (past s) nw (addrs i (events t e (dhist s))) ->
  cok i (events t e (dhist s)) (counts nw) ->
  NoDup (addrs i (events t e (dhist s))) ->
  (forall p, p ∈ addrs i (events t e (dhist s)) -> p ∈ addrs i (dhist s) \/ pushed = Some p) ->
  (forall y, y ∈ elems i (events t e (dhist s)) -> exists nd, pub (published pushed (nheap s)) !! y.1 = Some nd /\ val nd = y.2) ->
  deques_inv (after_anchor t i a new pushed e s) /\ p_guar dprot t s (after_anchor t i a new pushed e s).
Proof.
  intros HI Hi Ea En Hset Pnew Enew Hpush He Hleg Hends Hval Hat Hc Hnd Hin Helem. pose proof HI as [].
  destruct (published_pub t pushed (nheap s) di_nheap0 Hpush) as (Hm & Hsub & Hk & Hfresh & Hback).
  destruct (mem_publish_ok t new (aheap s) di_aheap0 Pnew) as [Hma [Hka Hku]].
  pose proof (pub_publish new nw (aheap s) Enew) as Hpa.
  assert (Hnone : pub (aheap s) !! new = None).
  { destruct (pub (aheap s) !! new) eqn:E; [|done]. apply pub_lookup in E as [_ ?]. congruence. }
  assert (Hsuba : pub (aheap s) ⊆ pub (mem_publish new (aheap s))) by (rewrite Hpa; by apply insert_subseteq).
  assert (Hother : forall j, j <> i -> elems j (events t e (dhist s)) = elems j (dhist s)) by (intros; by apply (elems_other i)).
  assert (Haddr : forall j, j <> i -> addrs j (events t e (dhist s)) = addrs j (dhist s)) by (intros; unfold addrs; by rewrite Hother).
  assert (Hlen : (Z.to_nat i < length (anchors s))%nat) by by eapply lookup_lt_Some.
  assert (Hcur : forall j b, 0 <= j -> <[Z.to_nat i := new]> (anchors s) !! Z.to_nat j = Some b ->
    j = i /\ b = new \/ j <> i /\ anchors s !! Z.to_nat j = Some b).
  { intros j b Hj. rewrite list_lookup_insert. destruct (decide (j = i)) as [->|Hne].
    - rewrite decide_True by done. intros [= <-]. by left.
    - rewrite decide_False by (intros [? _]; lia). by right. }
  assert (Hsome : forall q, is_Some (pub (nheap s) !! q) -> is_Some (pub (published pushed (nheap s)) !! q)).
  { intros q [x Hx]. exists x. by eapply lookup_weaken. }
  change (after_anchor t i a new pushed e s) with
    (mkDeques (<[Z.to_nat i := new]> (anchors s)) (mem_publish new (aheap s)) (published pushed (nheap s))
       (events t e (dhist s)) (a :: retired s) (past s)).
  split.
  - split; cbn [anchors aheap nheap dhist retired past]; try done.
    + by rewrite length_insert.
    + intros b nb sd. rewrite Hpa. intros [[<- <-]|[_ Eb]]%lookup_insert_Some; [apply Hends|].
      destruct (di_ends0 b nb sd Eb); [by left|right; by apply Hsome].
    + intros b nb. rewrite Hpa. intros [[<- <-]|[_ Eb]]%lookup_insert_Some; [apply Hval|by apply (di_valid0 b)].
    + intros j b Hj [[-> ->]|[Hne Eb]]%(Hcur j b Hj).
      * split; [|by exists nw; rewrite Hpa, lookup_insert_eq].
        intros [->|Hr]%elem_of_cons; [congruence|]. apply di_retired0 in Hr. rewrite Hnone in Hr. by destruct Hr.
      * destruct (di_cur0 j b Hj Eb) as (Hr & nb & Enb & Hatb & Hcb). split.
        { intros [->|?]%elem_of_cons; [|done]. destruct Hne. by apply (di_inj0 j i a). }
        exists nb. split; [by eapply lookup_weaken|]. rewrite Haddr by done. split; [by eapply anchor_mono|].
        destruct e as [e'|]; [|done]. cbn. apply Hcok; [|done]. rewrite (He e' eq_refl). congruence.
    + intros b [->|Hb]%elem_of_cons; [exists n; by eapply lookup_weaken|]. destruct (di_retired0 b Hb) as [nb Enb].
      exists nb. by eapply lookup_weaken.
    + intros j k b Hj Hk' E1 E2.
      destruct (Hcur j b Hj E1) as [[-> Eb]|[Hne Eb]], (Hcur k b Hk' E2) as [[-> Eb']|[Hne' Eb']]; try done.
      * subst b. destruct (di_cur0 k new Hk' Eb') as (_ & ? & E & _). congruence.
      * subst b. destruct (di_cur0 j new Hj Eb) as (_ & ? & E & _). congruence.
      * by apply (di_inj0 j k b).
    + intros j. destruct (decide (j = i)) as [->|]; [done|]. by rewrite Haddr.
    + intros j k p Hj Hk'. assert (Hp : forall j, p ∈ addrs j (events t e (dhist s)) -> p ∈ addrs j (dhist s) \/ j = i /\ pushed = Some p).
      { intros j' Hp. destruct (decide (j' = i)) as [->|]; [destruct (Hin p Hp); auto|]. left. by rewrite Haddr in Hp. }
      assert (Hno : forall j', p ∈ addrs j' (dhist s) -> pushed <> Some p).
      { intros j' Hp' E. apply (addrs_pub s _ _ HI) in Hp'. rewrite (Hfresh p E) in Hp'. by destruct Hp'. }
      destruct (Hp j Hj) as [Hj'|[-> Ep]], (Hp k Hk') as [Hk2|[Ek Ep']]; [by apply (di_disj0 j k p)| | |done].
      * by destruct (Hno j Hj').
      * by destruct (Hno k Hk2).
    + intros j y Hy. destruct (decide (j = i)) as [->|]; [by apply Helem|]. rewrite Hother in Hy by done.
      destruct (di_elem0 j y Hy) as (nd & E & Ev). exists nd. split; [by eapply lookup_weaken|done].
    + intros p nd sd Ep. destruct (Hback p nd Ep) as [E|[E Hl]].
      * destruct (di_link0 p nd sd E) as [H1 H2]. split; [destruct H1; [by left|right; by apply Hsome]|done].
      * split; [destruct (Hl sd); [by left|right; by apply Hsome]|]. intros [Hp _]%di_past0. rewrite (Hfresh p E) in Hp. by destruct Hp.
    + intros sd p v Hp. destruct (di_past0 sd p v Hp) as [H1 H2]. split; [by apply Hsome|]. destruct H2; [by left|right; by apply Hsome].
  - split; cbn [anchors aheap nheap dhist retired past]; try done.
    2: { intros u Hu. destruct e as [e'|]; [|done]. cbn [events]. rewrite devents_of_cons, decide_False by congruence. done. }
    split; cbn [anchors aheap nheap dhist retired past]; try done.
    + intros p nd Ep. exists nd. split; [by eapply lookup_weaken|split; [done|]]. by left.
    + intros z Hz. by right.
    + intros j b Hj Eb. destruct (decide (j = i)) as [->|Hne].
      * right. assert (b = a) as -> by congruence. by left.
      * left. rewrite list_lookup_insert, decide_False; [done|]. intros [? _]. lia.
    + intros j b Hj Eb Hr. apply Hother. intros ->. apply Hr. assert (b = a) as -> by congruence. by left.
    + intros j b nb sd x p r np Hj Hr0 Eb Enb Es Ev [->|?]%elem_of_cons Ep Hx; [|done].
      assert (j = i) as -> by by apply (di_inj0 j i a). assert (nb = n) as -> by congruence.
      destruct Hx. by apply (Hset sd x p r np).
Qed.

(** *** What the present anchor says *)

Lemma addrs_push i t sd (x : Z * Z) h : addrs i ((t, DPush sd i x) :: h) = view sd (x.1 :: view sd (addrs i h)).
Proof. unfold addrs. cbn. rewrite decide_True by done. rewrite <- view_fmap, fmap_cons. by rewrite view_fmap. Qed.
Lemma addrs_pop i t sd (x : Z * Z) h : addrs i ((t, DPop sd i x) :: h) = view sd (tail (view sd (addrs i h))).
Proof.
  unfold addrs. cbn. rewrite decide_True by done. rewrite <- view_fmap, (view_fmap sd fst (elems i h)).
  by destruct (view sd (elems i h)).
Qed.

Lemma addrs_nonzero s i p : deques_inv s -> p ∈ addrs i (dhist s) -> p <> 0.
Proof.
  intros HI [nd [E _]%pub_lookup]%(addrs_pub s i p HI) ->. destruct (di_nheap _ HI) as [H0 _]. congruence.
Qed.

Lemma cur_at s i a n :
  deques_inv s -> 0 <= i -> anchors s !! Z.to_nat i = Some a -> pub (aheap s) !! a = Some n ->
  anchor_at (pub (nheap s)) (past s) n (addrs i (dhist s)) /\ cok i (dhist s) (counts n).
Proof.
  intros HI Hi Ea En. destruct (di_cur _ HI i a Hi Ea) as (_ & n' & En' & ? & ?). assert (n' = n) as -> by congruence. done.
Qed.

Lemma cur_empty s i a n sd :
  deques_inv s -> 0 <= i -> anchors s !! Z.to_nat i = Some a -> pub (aheap s) !! a = Some n ->
  end_ sd n = 0 <-> addrs i (dhist s) = [].
Proof.
  intros HI Hi Ea En. destruct (cur_at s i a n HI Hi Ea En) as [Hat _]. rewrite (aa_end _ _ _ _ Hat sd).
  rewrite <- (view_nil sd). destruct (view sd (addrs i (dhist s))) as [|x r] eqn:Ev; [done|]. cbn. split; [|done].
  intros ->. by destruct (addrs_nonzero s i 0 HI ltac:(rewrite <- (elem_of_view sd), Ev; by left)).
Qed.

Lemma cur_single s i a n :
  deques_inv s -> 0 <= i -> anchors s !! Z.to_nat i = Some a -> pub (aheap s) !! a = Some n ->
  aright n = aleft n -> aleft n <> 0 -> addrs i (dhist s) = [aleft n].
Proof.
  intros HI Hi Ea En Eq Hne. destruct (cur_at s i a n HI Hi Ea En) as [Hat _].
  pose proof (di_nodup _ HI i) as Hnd. pose proof (aa_end _ _ _ _ Hat Left) as El. pose proof (aa_end _ _ _ _ Hat Right) as Er.
  cbn [end_ view] in El, Er. rewrite Eq in Er. destruct (addrs i (dhist s)) as [|x r] eqn:Ex; [done|]. cbn in El. subst x.
  destruct r as [|y r _] using rev_ind; [done|]. rewrite app_comm_cons, reverse_app in Er. cbn in Er. rewrite Er in Hnd. exfalso. apply NoDup_cons in Hnd as [Hnin _]. apply Hnin. set_solver.
Qed.

Lemma cur_many s i a n sd :
  deques_inv s -> 0 <= i -> anchors s !! Z.to_nat i = Some a -> pub (aheap s) !! a = Some n ->
  aright n <> aleft n -> exists x p r, view sd (addrs i (dhist s)) = x :: p :: r /\ end_ sd n = x.
Proof.
  intros HI Hi Ea En Hne. destruct (cur_at s i a n HI Hi Ea En) as [Hat _].
  pose proof (aa_end _ _ _ _ Hat sd) as El. pose proof (aa_end _ _ _ _ Hat (opp sd)) as Er. rewrite view_opp in Er.
  destruct (view sd (addrs i (dhist s))) as [|x [|p r]]; cbn in El, Er; [..|by exists x, p, r];
    destruct sd; cbn in El, Er; congruence.
Qed.

Lemma settled_stable s i n : state n = STATE_STABLE -> settled s i n.
Proof. intros E sd x p r np Es. rewrite E in Es. by destruct (push_state_stable sd). Qed.

Lemma end_state sd st n : end_ sd (set_state st n) = end_ sd n.
Proof. by destruct sd. Qed.

(** *** The changes of an anchor *)

Lemma stabilize_step t s i a n new sd x p r np :
  deques_inv s -> 0 <= i -> anchors s !! Z.to_nat i = Some a -> pub (aheap s) !! a = Some n ->
  priv (aheap s) !! new = Some t -> nodes (aheap s) !! new = Some (set_state STATE_STABLE n) ->
  state n = push_state sd -> view sd (addrs i (dhist s)) = x :: p :: r -> pub (nheap s) !! p = Some np -> link sd np = x ->
  deques_inv (after_anchor t i a new None None s) /\ p_guar dprot t s (after_anchor t i a new None None s).
Proof.
  intros HI Hi Ea En Pnew Enew Es Ev Ep Hx. destruct (cur_at s i a n HI Hi Ea En) as [Hat Hc].
  apply (anchor_step t s i a n new (set_state STATE_STABLE n)); cbn [events published]; try done.
  - intros sd' x' p' r' np' Es' Ev' Ep'. rewrite Es in Es'. apply push_state_inj in Es' as <-. congruence.
  - apply HI.
  - intros sd'. rewrite end_state. by apply (di_ends _ HI a).
  - split; [apply (di_valid _ HI a n En)|by left].
  - apply (anchor_stabilize _ (past s) _ n _ _ sd x p r); try (intros s'; apply end_state); try done. by exists np.
  - apply HI.
  - intros q Hq. by left.
  - intros y Hy. by apply (di_elem _ HI i).
Qed.

(** The elements after a push are public nodes, and there is no address twice. *)
Lemma pushed_elems t s i sd p nd :
  deques_inv s -> pushed_ok t (Some p) (nheap s) -> nodes (nheap s) !! p = Some nd ->
  let h := (t, DPush sd i (p, val nd)) :: dhist s in
  NoDup (addrs i h) /\ (forall q, q ∈ addrs i h -> q ∈ addrs i (dhist s) \/ Some p = Some q) /\
  forall y, y ∈ elems i h -> exists nd', pub (published (Some p) (nheap s)) !! y.1 = Some nd' /\ val nd' = y.2.
Proof.
  intros HI Hp E h. destruct (published_pub t (Some p) (nheap s) (di_nheap _ HI) Hp) as (_ & Hsub & _ & Hfresh & _).
  specialize (Hfresh p eq_refl). unfold h. rewrite addrs_push. split_and!.
  - rewrite view_perm. constructor; [|rewrite view_perm; apply HI]. intros Hin%elem_of_view%(addrs_pub s i p HI).
    rewrite Hfresh in Hin. by destruct Hin.
  - intros q. rewrite elem_of_view, elem_of_cons, elem_of_view. cbn. intros [->|?]; auto.
  - intros y. cbn. rewrite decide_True by done. rewrite elem_of_view, elem_of_cons, elem_of_view. intros [->|Hy].
    + exists nd. cbn. by rewrite (pub_publish p nd _ E), lookup_insert_eq.
    + destruct (di_elem _ HI i y Hy) as (nd' & E' & ?). exists nd'. split; [by eapply lookup_weaken|done].
Qed.

Lemma push_step t s i a n new nw sd p nd :
  deques_inv s -> 0 <= i -> anchors s !! Z.to_nat i = Some a -> pub (aheap s) !! a = Some n -> 
  priv (aheap s) !! new = Some t -> nodes (aheap s) !! new = Some nw ->
  priv (nheap s) !! p = Some t -> nodes (nheap s) !! p = Some nd ->
  (forall sd, link sd nd = 0 \/ is_Some (pub (nheap s) !! link sd nd)) ->
  (end_ sd n = 0 /\ (forall sd', end_ sd' nw = p) /\ state nw = state n \/
   end_ sd n <> 0 /\ state n = STATE_STABLE /\ link (opp sd) nd = end_ sd n /\
   end_ sd nw = p /\ end_ (opp sd) nw = end_ (opp sd) n /\ state nw = push_state sd) ->
  cok i ((t, DPush sd i (p, val nd)) :: dhist s) (counts nw) ->
  let s' := after_anchor t i a new (Some p) (Some (DPush sd i (p, val nd))) s in
  deques_inv s' /\ p_guar dprot t s s'.
Proof.
  intros HI Hi Ea En Pnew Enew Pp Ep Hl Hcase Hc s'. destruct (cur_at s i a n HI Hi Ea En) as [Hat _].
  assert (Hp : pushed_ok t (Some p) (nheap s)) by (intros q [= <-]; split; [done|by exists nd]).
  destruct (pushed_elems t s i sd p nd HI Hp Ep) as (Hnd & Hin & Hel).
  destruct (published_pub t (Some p) (nheap s) (di_nheap _ HI) Hp) as (_ & Hsub & _ & Hfresh & _). specialize (Hfresh p eq_refl).
  assert (Hpub : pub (published (Some p) (nheap s)) !! p = Some nd) by (cbn; by rewrite (pub_publish p nd _ Ep), lookup_insert_eq).
  assert (Hp0 : p <> 0) by (intros ->; destruct (di_nheap _ HI) as [H0 _]; congruence).
  assert (Hst : state n = STATE_STABLE).
  { destruct Hcase as [[E0 _]|(_ & ? & _)]; [|done]. apply (cur_empty s i a n sd HI Hi Ea En) in E0.
    apply (anchor_short _ _ _ _ Hat). rewrite E0. cbn. lia. }
  assert (Hends : forall sd', end_ sd' nw = 0 \/ is_Some (pub (published (Some p) (nheap s)) !! end_ sd' nw)).
  { intros sd'. destruct Hcase as [(_ & E & _)|(_ & _ & _ & E1 & E2 & _)].
    - right. rewrite E. by exists nd.
    - destruct (side_cases sd sd') as [->| ->]; [right; rewrite E1; by exists nd|]. rewrite E2.
      destruct (di_ends _ HI a n (opp sd) En) as [?|[z Hz]]; [by left|right; exists z; by eapply lookup_weaken]. }
  apply (anchor_step t s i a n new nw); try done.
  - by apply settled_stable.
  - by intros e' [= <-].
  - cbn. apply HI.
  - destruct Hcase as [(E0 & E & Es)|(Hne & _ & _ & E1 & E2 & Es)].
    + pose proof (E Left) as EL. pose proof (E Right) as ER. cbn in EL, ER. split; [rewrite EL, ER; done|left; congruence].
    + destruct (di_ends _ HI a n (opp sd) En) as [E0|Hsome].
      { destruct Hne. apply (cur_empty s i a n sd HI Hi Ea En). by apply (cur_empty s i a n (opp sd) HI Hi Ea En). }
      assert (Hq : end_ (opp sd) n <> p) by (intros E; rewrite E, Hfresh in Hsome; by destruct Hsome).
      assert (Hq0 : end_ (opp sd) n <> 0).
      { intros E0. destruct Hne. apply (cur_empty s i a n sd HI Hi Ea En). by apply (cur_empty s i a n (opp sd) HI Hi Ea En). }
      split; [|right; split; [by exists sd|]]; destruct sd; cbn in *; try congruence; split; congruence.
  - cbn [events]. rewrite addrs_push. cbn [fst]. destruct Hcase as [(E0 & E & Es)|(Hne & _ & Elink & E1 & E2 & Es)].
    + apply (cur_empty s i a n sd HI Hi Ea En) in E0. rewrite E0.
      assert (Hone : view sd (p :: view sd []) = [p]) by by destruct sd. rewrite Hone.
      apply anchor_single; [congruence|cbn; lia|intros s0; by rewrite E].
    + apply (anchor_push (pub (nheap s)) _ (past s) _ n); try done.
      * intros E0. apply Hne. by apply (cur_empty s i a n sd HI Hi Ea En).
      * by exists nd.
      * intros [_ Hps]%(di_past _ HI). rewrite Hfresh in Hps. destruct Hps as [?|[? ?]]; done.
Qed.

(** What is left after a pop. *)
Lemma popped_elems t s i sd (x : Z * Z) :
  deques_inv s -> let h := (t, DPop sd i x) :: dhist s in
  NoDup (addrs i h) /\ (forall q, q ∈ addrs i h -> q ∈ addrs i (dhist s)) /\
  forall y, y ∈ elems i h -> exists nd, pub (nheap s) !! y.1 = Some nd /\ val nd = y.2.
Proof.
  intros HI h. unfold h. rewrite addrs_pop. split_and!.
  - rewrite view_perm. assert (H : NoDup (view sd (addrs i (dhist s)))) by (rewrite view_perm; apply HI).
    destruct (view sd (addrs i (dhist s))); [done|]. by apply NoDup_cons in H as [_ ?].
  - intros q. rewrite elem_of_view, <- (elem_of_view sd (addrs i (dhist s))). destruct (view sd _); [done|]. by right.
  - intros y. cbn. rewrite decide_True, elem_of_view by done. intros Hy. apply (di_elem _ HI i).
    rewrite <- (elem_of_view sd). destruct (view sd (elems i (dhist s))); [done|]. by right.
Qed.

(** The node at the end [sd] is the first element seen from there. *)
Lemma head_cur s i a n sd nd :
  deques_inv s -> 0 <= i -> anchors s !! Z.to_nat i = Some a -> pub (aheap s) !! a = Some n ->
  aleft n <> 0 -> nodes (nheap s) !! end_ sd n = Some nd -> head (view sd (elems i (dhist s))) = Some (end_ sd n, val nd).
Proof.
  intros HI Hi Ea En Hne End. destruct (cur_at s i a n HI Hi Ea En) as [Hat _]. pose proof (aa_end _ _ _ _ Hat sd) as Hend.
  unfold addrs in Hend. rewrite view_fmap in Hend. destruct (view sd (elems i (dhist s))) as [|y r] eqn:Ev.
  - cbn in Hend. apply (cur_empty s i a n sd HI Hi Ea En) in Hend. destruct Hne. by apply (cur_empty s i a n Left HI Hi Ea En).
  - cbn in Hend. destruct (di_elem _ HI i y) as (nd' & [E _]%pub_lookup & Ev'); [rewrite <- (elem_of_view sd), Ev; by left|].
    destruct y as [y1 y2]. cbn in *. congruence.
Qed.

Lemma pop_step t s i a n new nw sd nd :
  deques_inv s -> 0 <= i -> anchors s !! Z.to_nat i = Some a -> pub (aheap s) !! a = Some n ->
  priv (aheap s) !! new = Some t -> nodes (aheap s) !! new = Some nw ->
  aleft n <> 0 -> nodes (nheap s) !! end_ sd n = Some nd ->
  (aright n = aleft n /\ (forall sd', end_ sd' nw = 0) /\ state nw = state n \/
   aright n <> aleft n /\ state n = STATE_STABLE /\ end_ sd nw = link (opp sd) nd /\
   end_ (opp sd) nw = end_ (opp sd) n /\ state nw = STATE_STABLE) ->
  cok i ((t, DPop sd i (end_ sd n, val nd)) :: dhist s) (counts nw) ->
  let s' := after_anchor t i a new None (Some (DPop sd i (end_ sd n, val nd))) s in
  deques_inv s' /\ p_guar dprot t s s' /\ head (view sd (elems i (dhist s))) = Some (end_ sd n, val nd).
Proof.
  intros HI Hi Ea En Pnew Enew Hne End Hcase Hc s'. destruct (cur_at s i a n HI Hi Ea En) as [Hat _].
  assert (Hst : state n = STATE_STABLE).
  { destruct Hcase as [[E _]|(_ & ? & _)]; [|done]. apply (anchor_short _ _ _ _ Hat).
    rewrite (cur_single s i a n HI Hi Ea En E Hne). cbn. lia. }
  pose proof (aa_end _ _ _ _ Hat sd) as Hend.
  pose proof (head_cur s i a n sd nd HI Hi Ea En Hne End) as Hhead.
  destruct (popped_elems t s i sd (end_ sd n, val nd) HI) as (Hnd & Hin & Hel).
  assert (Hmany : aright n <> aleft n -> exists x p r, view sd (addrs i (dhist s)) = x :: p :: r /\ end_ sd n = x /\ link (opp sd) nd = p /\ is_Some (pub (nheap s) !! p)).
  { intros Hd. destruct (cur_many s i a n sd HI Hi Ea En Hd) as (x & p & r & Ev & Ex). exists x, p, r.
    split; [done|split; [done|]]. pose proof (aa_links _ _ _ _ Hat) as Hl. rewrite Hst in Hl. apply (links_stable _ _ sd) in Hl as [Hl _].
    rewrite Ev in Hl. apply follows_head in Hl as (nd' & [E' _]%pub_lookup & El). subst x. split; [congruence|].
    apply (addrs_pub s i p HI). rewrite <- (elem_of_view sd), Ev. set_solver. }
  assert (H : deques_inv s' /\ p_guar dprot t s s'); [|by destruct H].
  apply (anchor_step t s i a n new nw); try done.
  - by apply settled_stable.
  - by intros e' [= <-].
  - split; [exact Hhead|apply HI].
  - intros sd'. cbn [published]. destruct Hcase as [(_ & E & _)|(Hd & _ & E1 & E2 & _)]; [by left|].
    destruct (side_cases sd sd') as [->| ->]; [right|rewrite E2; by apply (di_ends _ HI a)].
    destruct (Hmany Hd) as (x & p & r & _ & _ & Ep & Hp). rewrite E1, Ep. exact Hp.
  - destruct Hcase as [(_ & E & Es)|(Hd & _ & E1 & E2 & Es)].
    + pose proof (E Left) as EL. pose proof (E Right) as ER. cbn in EL, ER. split; [rewrite EL, ER; done|left; congruence].
    + split; [|by left]. destruct (Hmany Hd) as (x & p & r & Ev & _ & Ep & _).
      assert (Hp0 : end_ sd nw <> 0).
      { rewrite E1, Ep. apply (addrs_nonzero s i p HI). rewrite <- (elem_of_view sd), Ev. set_solver. }
      assert (Hq0 : end_ (opp sd) nw <> 0).
      { rewrite E2. intros E0. destruct Hne. apply (cur_empty s i a n Left HI Hi Ea En). by apply (cur_empty s i a n (opp sd) HI Hi Ea En). }
      destruct sd; cbn in Hp0, Hq0; done.
  - cbn [published events]. rewrite addrs_pop. destruct Hcase as [(Eq & E & Es)|(Hd & _ & E1 & E2 & Es)].
    + rewrite (cur_single s i a n HI Hi Ea En Eq Hne). assert (Hv : view sd (tail (view sd [aleft n])) = []) by by destruct sd.
      rewrite Hv. apply anchor_single; [congruence|cbn; lia|done].
    + destruct (Hmany Hd) as (x & p & r & Ev & _ & Ep & _). rewrite Ev. cbn [tail].
      apply (anchor_pop _ (past s) _ n _ (addrs i (dhist s)) sd x p r); try done. congruence.
  - intros q Hq. left. by apply Hin.
Qed.
End protocol.

(** ** Rules *)

Section rules.
Context {W V C : Type} {AN : Allocator node_t} {AA : Allocator (anchor_t C)}.
Context (WP : protocol W) {wlaws : ProtocolLaws WP} (cok : Z -> list (nat * devent) -> C -> Prop) (w : Z).
Context (Hcok : forall i t e h c, dindex e <> i -> cok i h c -> cok i ((t, e) :: h) c).
Notation B := (joint WP (dprot cok w)).
Context (P : protocol (shared W (deques C))) (t : nat) {runs : Runs P B t}.
Notation anchor_of i g := (anchors (subs g) !! Z.to_nat i).
Implicit Types (g : shared W (deques C)) (l : tls V) (i a p : Z) (sd : side) (n : anchor_t C) (nd : node_t).

Lemma inv_deques g : p_inv P g -> deques_inv cok w (subs g).
Proof. intros HI. apply (runs_inv (B := B) g HI). Qed.
Lemma rely_deques g g' : p_rely P t g g' -> drely t (subs g) (subs g').
Proof. intros R. by apply (runs_rely (B := B)) in R as [_ ?]. Qed.

(** A change of the deques only. *)
Lemma deques_step g s :
  p_inv P g -> deques_inv cok w s -> dguar t (subs g) s -> p_guar P t g (set_subs s g) /\ p_inv P (set_subs s g).
Proof.
  intros HI Hs Hg. pose proof (runs_inv (B := B) g HI) as [Hw _]. split.
  - apply (runs_guar (B := B)). split; [apply guar_refl|exact Hg].
  - apply (runs_inv_back (B := B)). by split.
Qed.

Lemma drely_trans (s1 s2 s3 : deques C) : drely t s1 s2 -> drely t s2 s3 -> drely t s1 s3.
Proof. apply (rely_trans (P := dprot cok w)). Qed.
Lemma drely_refl (s : deques C) : drely t s s.
Proof. apply (rely_refl (P := dprot cok w)). Qed.

Definition own_node g p nd : Prop := priv (nheap (subs g)) !! p = Some t /\ lookup_dnode p g = Some nd.
Definition own_anchor g a n : Prop := priv (aheap (subs g)) !! a = Some t /\ lookup_anchor a g = Some n.

Lemma own_node_rely g g' p nd : drely t (subs g) (subs g') -> own_node g p nd -> own_node g' p nd.
Proof. intros R [Pp E]. by destruct (dr_own_n _ _ _ R p nd E Pp). Qed.
Lemma own_anchor_rely g g' a n : drely t (subs g) (subs g') -> own_anchor g a n -> own_anchor g' a n.
Proof. intros R [Pa E]. by destruct (dr_own_a _ _ _ R a n E Pa). Qed.

Definition public_anchor g a n : Prop := pub (aheap (subs g)) !! a = Some n.
Definition public_node g p : Prop := is_Some (pub (nheap (subs g)) !! p).
Lemma public_anchor_later g g' a n : plater (subs g) (subs g') -> public_anchor g a n -> public_anchor g' a n.
Proof. intros R E. by eapply lookup_weaken, R. Qed.
Lemma public_node_later g g' p : plater (subs g) (subs g') -> public_node g p -> public_node g' p.
Proof. intros R [nd E]. destruct (pl_nodes _ _ R p nd E) as (nd' & E' & _). by exists nd'. Qed.

(** A change of memory that is private to a thread. *)
Record private_step g g' : Prop := mkPrivateStep {
  ps_window : window g' = window g;
  ps_anchors : anchors (subs g') = anchors (subs g);
  ps_dhist : dhist (subs g') = dhist (subs g);
  ps_retired : retired (subs g') = retired (subs g);
  ps_aheap : pub (aheap (subs g')) = pub (aheap (subs g));
  ps_nheap : pub (nheap (subs g')) = pub (nheap (subs g));
}.

Lemma wp_load_ptr i (Q : Z -> shared W (deques C) -> tls V -> Prop) g l :
  0 <= i < w ->
  (forall a n g', p_rely P t g g' -> p_inv P g' -> anchor_of i g' = Some a -> public_anchor g' a n -> Q a g' l) ->
  wp P t (load_ptr i) Q g l.
Proof.
  intros Hi HQ. apply wp_load; [apply _|]. intros g1 R1 I1 _. pose proof (inv_deques g1 I1) as HI.
  assert (Hlt : (Z.to_nat i < length (anchors (subs g1)))%nat) by (pose proof (di_len _ _ _ HI); lia).
  apply lookup_lt_is_Some_2 in Hlt as [a Ea]. exists a. split; [done|].
  destruct (di_cur _ _ _ HI i a (proj1 Hi) Ea) as (_ & n & En & _). by apply (HQ a n).
Qed.

Lemma wp_load_anchor a n (Q : anchor_t C -> shared W (deques C) -> tls V -> Prop) g l :
  public_anchor g a n -> (forall g', p_rely P t g g' -> p_inv P g' -> Q n g' l) -> wp P t (load_anchor a) Q g l.
Proof.
  intros E HQ. apply wp_load; [apply _|]. intros g1 R1 I1 _. exists n. split; [|by apply HQ].
  apply (public_anchor_later g g1 a n) in E; [|apply (rely_deques g g1 R1)]. by apply pub_lookup in E as [E _].
Qed.

Lemma wp_load_link sd p (Q : Z -> shared W (deques C) -> tls V -> Prop) g l :
  public_node g p ->
  (forall nd g', p_rely P t g g' -> p_inv P g' -> pub (nheap (subs g')) !! p = Some nd -> Q (link sd nd) g' l) ->
  wp P t (load_link sd p) Q g l.
Proof.
  intros E HQ. apply wp_load; [apply _|]. intros g1 R1 I1 _.
  destruct (public_node_later g g1 p (dr_pub _ _ _ (rely_deques g g1 R1)) E) as [nd En].
  exists (link sd nd). split; [|by apply (HQ nd)]. apply pub_lookup in En as [En _]. unfold lookup_dnode. by rewrite En.
Qed.

Lemma wp_load_val p nd (Q : Z -> shared W (deques C) -> tls V -> Prop) g l :
  pub (nheap (subs g)) !! p = Some nd -> (forall g', p_rely P t g g' -> p_inv P g' -> Q (val nd) g' l) ->
  wp P t (load_val p) Q g l.
Proof.
  intros E HQ. apply wp_load; [apply _|]. intros g1 R1 I1 _.
  destruct (pl_nodes _ _ (dr_pub _ _ _ (rely_deques g g1 R1)) p nd E) as (nd' & [En _]%pub_lookup & Ev & _).
  exists (val nd). split; [|by apply HQ]. unfold lookup_dnode. rewrite En. cbn. by rewrite Ev.
Qed.

Lemma alloc_fresh {N} {A : Allocator N} (m : memory_of N) u : mem_ok m -> priv m !! alloc_addr (nodes m) <> Some u.
Proof. intros [_ Hp] E. apply Hp in E. destruct (alloc_addr_ok (nodes m)) as [_ Hn]. rewrite Hn in E. by destruct E. Qed.

Lemma wp_alloc_dnode nd (Q : Z -> shared W (deques C) -> tls V -> Prop) g l :
  thread_id l = t ->
  (forall p g1 g2, p_rely P t g g1 -> private_step g1 g2 -> drely t (subs g) (subs g2) -> p_inv P g2 -> own_node g2 p nd ->
     Q p g2 l) ->
  wp P t (alloc_dnode nd) Q g l.
Proof.
  intros Ht HQ g1 R1 I1 _. rewrite Ht. cbv zeta. pose proof (inv_deques g1 I1) as HI.
  set (p := alloc_addr (nodes (nheap (subs g1)))). destruct (alloc_addr_ok (nodes (nheap (subs g1)))) as [Hp Hfresh]. fold p in Hp, Hfresh.
  destruct (mem_alloc_ok t p nd _ (di_nheap _ _ _ HI) Hp Hfresh) as (Hm & Hk & Hku).
  pose proof (pub_alloc t p nd _ Hfresh (fun u => alloc_fresh _ u (di_nheap _ _ _ HI))) as Hpub.
  destruct (inv_nheap cok w t (subs g1) _ HI Hm Hpub (fun u _ => Hku u)) as [Hs Hg].
  destruct (deques_step g1 _ I1 Hs Hg) as [HG HI2]. split; [exact HG|split; [exact HI2|]].
  apply (HQ p g1); [done|by split| |exact HI2|split; apply lookup_insert_eq]. apply (drely_trans _ (subs g1)); [by apply rely_deques|].
  split; [apply Hg|done|apply Hku|done].
Qed.

Lemma wp_alloc_anchor n (Q : Z -> shared W (deques C) -> tls V -> Prop) g l :
  thread_id l = t ->
  (forall a g1 g2, p_rely P t g g1 -> private_step g1 g2 -> drely t (subs g) (subs g2) ->
     (forall b nb, own_anchor g b nb -> b <> a) -> p_inv P g2 ->
     own_anchor g2 a n -> a <> 0 -> Q a g2 l) ->
  wp P t (alloc_anchor n) Q g l.
Proof.
  intros Ht HQ g1 R1 I1 _. rewrite Ht. cbv zeta. pose proof (inv_deques g1 I1) as HI.
  set (a := alloc_addr (nodes (aheap (subs g1)))). destruct (alloc_addr_ok (nodes (aheap (subs g1)))) as [Ha Hfresh]. fold a in Ha, Hfresh.
  destruct (mem_alloc_ok t a n _ (di_aheap _ _ _ HI) Ha Hfresh) as (Hm & Hk & Hku).
  pose proof (pub_alloc t a n _ Hfresh (fun u => alloc_fresh _ u (di_aheap _ _ _ HI))) as Hpub.
  destruct (inv_aheap cok w t (subs g1) _ HI Hm Hpub (fun u _ => Hku u)) as [Hs Hg].
  destruct (deques_step g1 _ I1 Hs Hg) as [HG HI2]. split; [exact HG|split; [exact HI2|]].
  apply (HQ a g1); [done|by split| | |exact HI2|split; apply lookup_insert_eq|done].
  - apply (drely_trans _ (subs g1)); [by apply rely_deques|]. split; [apply Hg|apply Hku|done|done].
  - intros b nb Hb ->. apply (own_anchor_rely g g1) in Hb as [_ Hb]; [|by apply rely_deques]. unfold lookup_anchor in Hb. congruence.
Qed.

Lemma wp_store_dnode p f nd (Q : unit -> shared W (deques C) -> tls V -> Prop) g l :
  own_node g p nd ->
  (forall g1 g2, p_rely P t g g1 -> private_step g1 g2 -> drely t (subs g) (subs g1) ->
     g2 = set_subs (set_nheap (mem_write p (f nd) (nheap (subs g1))) (subs g1)) g1 ->
     p_inv P g2 -> plater (subs g1) (subs g2) -> own_node g2 p (f nd) -> Q tt g2 l) ->
  wp P t (store_dnode p f) Q g l.
Proof.
  intros Hown HQ g1 R1 I1 _. apply (own_node_rely g g1 p nd (rely_deques g g1 R1)) in Hown as [Pp E].
  rewrite E. cbn [mbind option_bind]. pose proof (inv_deques g1 I1) as HI.
  destruct (mem_write_ok t p (f nd) _ (di_nheap _ _ _ HI) Pp) as [Hm [_ Hk]].
  destruct (inv_nheap cok w t (subs g1) _ HI Hm (pub_write t p _ _ Pp) Hk) as [Hs Hg].
  destruct (deques_step g1 _ I1 Hs Hg) as [HG HI2]. split; [exact HG|split; [exact HI2|]].
  match type of HI2 with p_inv _ ?g2 => assert (Hps : private_step g1 g2) by (split; try done; exact (pub_write t p _ _ Pp)) end.
  apply (HQ g1 _ R1 Hps (rely_deques g g1 R1) eq_refl HI2); [apply Hg|]. split; [done|]. apply lookup_insert_eq.
Qed.

Lemma wp_store_anchor a n n' (Q : unit -> shared W (deques C) -> tls V -> Prop) g l :
  own_anchor g a n ->
  (forall g1 g2, p_rely P t g g1 -> private_step g1 g2 -> drely t (subs g) (subs g1) ->
     g2 = set_subs (set_aheap (mem_write a n' (aheap (subs g1))) (subs g1)) g1 ->
     p_inv P g2 -> plater (subs g1) (subs g2) -> own_anchor g2 a n' -> Q tt g2 l) ->
  wp P t (store_anchor a n') Q g l.
Proof.
  intros Hown HQ g1 R1 I1 _. apply (own_anchor_rely g g1 a n (rely_deques g g1 R1)) in Hown as [Pa E].
  rewrite E. cbn [mbind option_bind]. pose proof (inv_deques g1 I1) as HI.
  destruct (mem_write_ok t a n' _ (di_aheap _ _ _ HI) Pa) as [Hm [_ Hk]].
  destruct (inv_aheap cok w t (subs g1) _ HI Hm (pub_write t a _ _ Pa) Hk) as [Hs Hg].
  destruct (deques_step g1 _ I1 Hs Hg) as [HG HI2]. split; [exact HG|split; [exact HI2|]].
  match type of HI2 with p_inv _ ?g2 => assert (Hps : private_step g1 g2) by (split; try done; exact (pub_write t a _ _ Pa)) end.
  apply (HQ g1 _ R1 Hps (rely_deques g g1 R1) eq_refl HI2); [apply Hg|]. split; [done|]. apply lookup_insert_eq.
Qed.

(** The link [sd] of [p] is exchanged to the end [x] that anchor [a] has, if it
    still is [old]. *)
Lemma wp_cas_link sd p old i a n x r (Q : bool -> shared W (deques C) -> tls V -> Prop) g l :
  0 <= i -> public_anchor g a n -> state n = push_state sd -> public_node g p -> old <> x ->
  (forall g' nd, p_rely P t g g' -> p_inv P g' -> pub (nheap (subs g')) !! p = Some nd -> link sd nd = old ->
     anchor_of i g' = Some a /\ view sd (addrs i (dhist (subs g'))) = x :: p :: r) ->
  (forall g1 g2 nd, p_rely P t g g1 -> p_inv P g1 -> pub (nheap (subs g1)) !! p = Some nd ->
     g2 = set_subs (after_link sd p x nd (subs g1)) g1 -> p_inv P g2 -> drely t (subs g1) (subs g2) ->
     pub (nheap (subs g2)) !! p = Some (set_link sd x nd) -> anchor_of i g2 = Some a ->
     view sd (addrs i (dhist (subs g2))) = x :: p :: r -> Q true g2 l) ->
  (forall g', p_rely P t g g' -> p_inv P g' -> Q false g' l) ->
  wp P t (cas_link sd p old x) Q g l.
Proof.
  intros Hi Hn Es Hp Hne Hcur Hok Hno g1 R1 I1 _. pose proof (inv_deques g1 I1) as HI.
  pose proof (rely_deques g g1 R1) as RD. destruct (public_node_later g g1 p (dr_pub _ _ _ RD) Hp) as [nd Ep].
  pose proof Ep as [Ep' _]%pub_lookup. unfold lookup_dnode. rewrite Ep'. cbn [mbind option_bind].
  destruct (decide (link sd nd = old)) as [El|El].
  - destruct (Hcur g1 nd R1 I1 Ep El) as [Ea Ev]. apply (public_anchor_later g g1 a n (dr_pub _ _ _ RD)) in Hn.
    destruct (relink_step cok w t (subs g1) i a n sd x p r nd HI Hi Ea Hn Es Ev Ep ltac:(congruence)) as [Hs Hg].
    destruct (deques_step g1 _ I1 Hs Hg) as [HG HI2]. split; [exact HG|split; [exact HI2|]].
    eapply (Hok g1 _ nd R1 I1 Ep eq_refl HI2); [| |exact Ea|exact Ev].
    + split; [apply Hg|done| |done]. intros b nb Eb Pb. cbn. apply pub_lookup in Ep as [_ Pp].
      rewrite lookup_insert_ne; [done|]. intros ->. congruence.
    + cbn [subs set_subs after_link nheap]. by rewrite (pub_write_pub p _ nd _ Ep), lookup_insert_eq.
  - split; [apply (guar_refl (P := P))|split; [done|]]. by apply Hno.
Qed.

(** The exchange of an anchor: what it needs is asked for where it succeeds. *)
Lemma wp_cas_anchor i a n new nw k (Q : bool -> shared W (deques C) -> tls V -> Prop) g l :
  0 <= i < w -> thread_id l = t -> public_anchor g a n -> own_anchor g new nw ->
  (forall g1, p_rely P t g g1 -> p_inv P g1 -> anchor_of i g1 = Some a -> public_anchor g1 a n -> own_anchor g1 new nw ->
     let s := after_anchor t i a new (pushed_node nw k) (event_of i n nw k (nheap (subs g1))) (subs g1) in
     deques_inv cok w s /\ dguar t (subs g1) s /\ (p_inv P (set_subs s g1) -> Q true (set_subs s g1) l)) ->
  (forall g1, p_rely P t g g1 -> p_inv P g1 -> Q false g1 l) ->
  wp P t (cas_anchor i a new k) Q g l.
Proof.
  intros Hi Ht Hn Hown Hok Hno g1 R1 I1 _. pose proof (inv_deques g1 I1) as HI. pose proof (rely_deques g g1 R1) as RD.
  assert (Hlt : (Z.to_nat i < length (anchors (subs g1)))%nat) by (pose proof (di_len _ _ _ HI); lia).
  apply lookup_lt_is_Some_2 in Hlt as [cur Ecur]. unfold lookup_ptr. rewrite Ecur. cbn [mbind option_bind].
  apply (public_anchor_later g g1 a n (dr_pub _ _ _ RD)) in Hn. apply (own_anchor_rely g g1 new nw RD) in Hown.
  destruct (decide (cur = a)) as [->|Hne].
  - pose proof Hn as [Ea _]%pub_lookup. change (lookup_anchor a g1 = Some n) in Ea. rewrite Ea. cbn [mbind option_bind].
    pose proof Hown as [_ Enew]. rewrite Enew. cbn [mbind option_bind]. rewrite Ht.
    destruct (Hok g1 R1 I1 Ecur Hn Hown) as (Hs & Hg & HQ).
    destruct (deques_step g1 _ I1 Hs Hg) as [HG HI2]. split; [exact HG|split; [exact HI2|]]. by apply HQ.
  - split; [apply (guar_refl (P := P))|split; [done|]]. by apply Hno.
Qed.
End rules.
