(* ===== verification/Deques.v ===== *)
(** The operations that src/2Dc-deque/2Dc-deque.c and src/2Dd-deque/2Dd-deque.c
    have in common, on the array of deques of SubDeques.v.  The two files differ in
    the counts that an anchor keeps and in the windows that choose a deque. *)
From S2P Require Import Prelude Conc Random Thread StackHeap Shared SubDeques.

(** The thread-local variables of 2Dc-window_maged.h and 2Dd-window_maged.h;
    [windows] are the thread's copies of the windows. *)
Record dlocal (T : Type) := mkDlocal {
  windows : T;
  anchor_ptr : Z;
  contention : Z;
  empty_check : Z;
  notempty : Z;
}.
Arguments mkDlocal {T}.
Arguments windows {T}.
Arguments anchor_ptr {T}.
Arguments contention {T}.
Arguments empty_check {T}.
Arguments notempty {T}.

Definition set_windows {T} (v : T) (d : dlocal T) : dlocal T :=
  mkDlocal v (anchor_ptr d) (contention d) (empty_check d) (notempty d).
Definition set_anchor_ptr {T} (v : Z) (d : dlocal T) : dlocal T :=
  mkDlocal (windows d) v (contention d) (empty_check d) (notempty d).
Definition set_contention {T} (v : Z) (d : dlocal T) : dlocal T :=
  mkDlocal (windows d) (anchor_ptr d) v (empty_check d) (notempty d).
Definition set_empty_check {T} (v : Z) (d : dlocal T) : dlocal T :=
  mkDlocal (windows d) (anchor_ptr d) (contention d) v (notempty d).
Definition set_notempty {T} (v : Z) (d : dlocal T) : dlocal T :=
  mkDlocal (windows d) (anchor_ptr d) (contention d) (empty_check d) v.

(** A client's calls: DS_ADD_L, DS_ADD_R, DS_REMOVE_L, DS_REMOVE_R, DS_SIZE. *)
Inductive dop := DoPush (s : side) (k v : Z) | DoPop (s : side) | DoSize.

(** What an anchor counts. *)
Class Counts (C : Type) := {
  zero_counts : C;
  put_count : side -> C -> C;
  get_count : side -> C -> C;
}.

(** The windows a deque is compiled with, and the statistics of a failed pop. *)
Class Windows (W T C : Type) := {
  window_put : side -> prog (shared W (deques C)) (tls (dlocal T)) unit;
  window_get : side -> prog (shared W (deques C)) (tls (dlocal T)) unit;
  inc_pop_fail : side -> stats_t -> stats_t;
}.

Section code.
Context {W T C : Type} {AN : Allocator node_t} {AA : Allocator (anchor_t C)} {cs : Counts C} {ws : Windows W T C}.
Notation M := (prog (shared W (deques C)) (tls (dlocal T))).

Definition my {B} (f : dlocal T -> B) : M B := get (fun l => f (thread_Window l)).
Definition upd (f : dlocal T -> dlocal T) : M unit := put (fun l => set_thread_Window (f (thread_Window l)) l).
(** [contention += 1]. *)
Definition inc_contention : M unit := upd (fun d => set_contention (i32 (contention d + 1)) d).

(** [set[thread_index].anchor] and the fields of the anchor. *)
Definition read_anchor : M (anchor_t C) :=
  let* i := get thread_index in
  let* a := load_ptr i in
  upd (set_anchor_ptr a) ;;;
  load_anchor a.

Definition create_node (k value : Z) : M Z := alloc_dnode (mkNode value k 0 0).
Definition create_anchor : M Z := alloc_anchor (mkAnchor STATE_STABLE 0 0 zero_counts).

(** [stabilize_left] and [stabilize_right]. *)
Definition stabilize_side (s : side) (anchor deque : Z) : M unit :=
  let* a := load_anchor anchor in
  let* cur := load_ptr deque in
  if negb (cur =? anchor) then Ret tt
  else
    let* prev := load_link (opp s) (end_ s a) in
    let* cur := load_ptr deque in
    if negb (cur =? anchor) then Ret tt
    else
      let* prevnext := load_link s prev in
      let* go :=
        (if negb (prevnext =? end_ s a) then
           let* cur := load_ptr deque in
           if negb (cur =? anchor) then Ret false
           else
             let* ok := cas_link s prev prevnext (end_ s a) in
             if (ok : bool) then Ret true else inc_contention ;;; Ret false
         else Ret true) in
      if (go : bool) then
        let* nextAnchor := create_anchor in
        store_anchor nextAnchor (set_state STATE_STABLE a) ;;;
        let* ok := cas_anchor deque anchor nextAnchor Stabilized in
        if (ok : bool) then Ret tt else inc_contention
      else Ret tt.

Definition stabilize (anchor deque : Z) : M unit :=
  let* a := load_anchor anchor in
  if state a =? STATE_RPUSH then stabilize_side Right anchor deque else stabilize_side Left anchor deque.

Definition maybe_create_anchor (nextAnchor : Z) : M Z := if nextAnchor =? 0 then create_anchor else Ret nextAnchor.

(** The inner loops of [push_left] and [push_right]: the anchor and the deque. *)
Definition find_put (s : side) : M (Z * Z) :=
  while (fun _ : unit =>
    window_put s ;;;
    let* anchor := my anchor_ptr in
    let* deque := get thread_index in
    let* cur := load_ptr deque in
    if anchor =? cur then break (anchor, deque) else continue tt) tt.

Definition push_body (s : side) (node nextAnchor : Z) : M (Z + Z) :=
  let* nextAnchor := maybe_create_anchor nextAnchor in
  let* (anchor, deque) := find_put s in
  let* a := load_anchor anchor in
  if end_ s a =? 0 then
    store_anchor nextAnchor (mkAnchor (state a) node node (put_count s (counts a))) ;;;
    let* ok := cas_anchor deque anchor nextAnchor (Pushed s) in
    if (ok : bool) then break 1
    else put (count_stat inc_put_cas_fail) ;;; inc_contention ;;; continue nextAnchor
  else if state a =? STATE_STABLE then
    store_dnode node (set_link (opp s) (end_ s a)) ;;;
    store_anchor nextAnchor (set_state (push_state s) (set_end s node (set_counts (put_count s (counts a)) a))) ;;;
    let* ok := cas_anchor deque anchor nextAnchor (Pushed s) in
    if (ok : bool) then stabilize_side s nextAnchor deque ;;; break 1
    else put (count_stat inc_put_cas_fail) ;;; inc_contention ;;; continue nextAnchor
  else
    stabilize anchor deque ;;; continue nextAnchor.

(** [push_left] and [push_right]. *)
Definition push (s : side) (key value : Z) : M Z :=
  let* node := create_node key value in
  upd (set_contention 0) ;;;
  while (push_body s node) 0.

(** The inner loops of [pop_left] and [pop_right]; [None]: the pop returns NULL. *)
Definition find_get (s : side) : M (option (Z * Z)) :=
  while (fun _ : unit =>
    window_get s ;;;
    let* e := my empty_check in
    if e =? 1 then put (count_stat inc_null) ;;; break None
    else
      let* anchor := my anchor_ptr in
      let* deque := get thread_index in
      let* cur := load_ptr deque in
      if anchor =? cur then break (Some (anchor, deque)) else continue tt) tt.

(** The rest of the pop after the exchange: the node's value. *)
Definition pop_cas (s : side) (deque anchor nextAnchor : Z) (a : anchor_t C) : M (Z + option Z) :=
  let* ok := cas_anchor deque anchor nextAnchor (Popped s) in
  if (ok : bool) then break (Some (end_ s a))
  else inc_contention ;;; put (count_stat (inc_pop_fail s)) ;;; continue nextAnchor.

Definition pop_body (s : side) (nextAnchor : Z) : M (Z + option Z) :=
  let* nextAnchor := maybe_create_anchor nextAnchor in
  let* found := find_get s in
  match found with
  | None => break None
  | Some (anchor, deque) =>
      let* a := load_anchor anchor in
      if aright a =? aleft a then
        store_anchor nextAnchor (mkAnchor (state a) 0 0 (get_count s (counts a))) ;;;
        pop_cas s deque anchor nextAnchor a
      else if state a =? STATE_STABLE then
        let* cur := load_ptr deque in
        if negb (cur =? anchor) then continue nextAnchor
        else
          let* prev := load_link (opp s) (end_ s a) in
          store_anchor nextAnchor (set_end s prev (set_counts (get_count s (counts a)) a)) ;;;
          pop_cas s deque anchor nextAnchor a
      else
        stabilize anchor deque ;;; continue nextAnchor
  end.

(** [pop_left] and [pop_right]. *)
Definition pop (s : side) : M Z :=
  upd (set_contention 0) ;;;
  let* node := while (pop_body s) 0 in
  match node with
  | None => Ret 0
  | Some node => load_val node
  end.

(** An anchor that is not being pushed to, if there is one. *)
Definition size_anchor (deque : Z) : M Z :=
  while (fun _ : unit =>
    let* anchor := load_ptr deque in
    let* a := load_anchor anchor in
    (if negb (state a =? STATE_STABLE) then stabilize anchor deque else Ret tt) ;;;
    let* cur := load_ptr deque in
    if anchor =? cur then break anchor else continue tt) tt.

(** [None]: the anchor has changed, [goto size_retry]. *)
Definition size_walk (deque anchor : Z) (a : anchor_t C) : M (option Z) :=
  while (fun '(node, size) =>
    if negb (node =? 0) then
      let* cur := load_ptr deque in
      if negb (anchor =? cur) then break None
      else
        let size := i32 (size + 1) in
        if aright a =? node then break (Some size)
        else
          let* node := load_link Right node in continue (node, size)
    else break (Some size)) (aleft a, 0).

Definition deque_size (deque : Z) : M Z :=
  while (fun _ : unit =>
    let* anchor := size_anchor deque in
    let* a := load_anchor anchor in
    let* r := size_walk deque anchor a in
    match r with Some size => break size | None => continue tt end) tt.

Definition deque_size_2D (width : Z) : M Z :=
  while (fun '(i, size) =>
    if i <? width then
      let* n := deque_size i in continue (i32 (i + 1), i32 (size + n))
    else break size) (0, 0).

Definition exec_op (width : Z) (o : dop) : M Z :=
  match o with DoPush s k v => push s k v | DoPop s => pop s | DoSize => deque_size_2D width end.
End code.

(** ** Creation *)

(** The division of two [int]s truncates; [None]: a division by zero or an overflow. *)
Definition idiv (a b : Z) : option Z := if b =? 0 then None else Some (Z.quot a b).
Definition int (x : Z) : option Z := if (- 2 ^ 31 <=? x) && (x <? 2 ^ 31) then Some x else None.

(** The width, depth and relaxation bound in use, from those of the command line. *)
Definition deque_params (width depth relaxation_bound : Z) : option (Z * Z * Z) :=
  let width := if width <? 2 then 2 else width in
  let depth := if depth <? 1 then 1 else depth in
  let relaxation_bound := if relaxation_bound <? 1 then 1 else relaxation_bound in
  d ← int (3 * (width - 1));
  depth ← idiv relaxation_bound d;
  let depth := if depth <? 1 then 1 else depth in
  d ← int (3 * depth);
  q ← idiv relaxation_bound d;
  width ← int (q + 1);
  let width := if width <? 1 then 1 else width in
  Some (width, depth, relaxation_bound).

(** The loop of [create_deque]: [n] anchors.  Their counts are not initialised;
    [junk i] is what the memory of the [i]th holds. *)
Fixpoint create_anchors {C} {AA : Allocator (anchor_t C)} (junk : Z -> C) (n : nat) : list Z * gmap Z (anchor_t C) :=
  match n with
  | O => ([], ∅)
  | S n =>
      let '(ptrs, m) := create_anchors junk n in
      let a := alloc_addr m in
      (ptrs ++ [a], <[a := mkAnchor STATE_STABLE 0 0 (junk (Z.of_nat n))]> m)
  end.

Definition empty_deques {C} {AA : Allocator (anchor_t C)} (junk : Z -> C) (w : Z) : deques C :=
  let '(ptrs, m) := create_anchors junk (Z.to_nat w) in
  mkDeques ptrs (mkMem m ∅) (mkMem ∅ ∅) [] [] [].

(** [thread_index=thread_id*(width/num_threads)], by a [size_t]. *)
Definition start_index (thread_id width num_threads : Z) : option Z :=
  if num_threads =? 0 then None else Some (i32 (u64 (thread_id * (width / num_threads)))).

Lemma start_index_ok i w n :
  0 <= i < n -> 1 <= w < 2 ^ 31 -> exists x, start_index i w n = Some x /\ 0 <= x < w.
Proof.
  intros Hi Hw. unfold start_index. destruct (Z.eqb_spec n 0); [lia|].
  assert (0 <= w / n) by (apply Z.div_pos; lia).
  pose proof (Z.mul_div_le w n ltac:(lia)). assert (i * (w / n) < w \/ w / n = 0) by nia.
  exists (i * (w / n)). rewrite wrap_small by nia. rewrite sign_small by (cbn; nia). split; [done|nia].
Qed.

Lemma deque_params_ok wd dp rb w d k :
  rb < 2 ^ 31 -> deque_params wd dp rb = Some (w, d, k) -> 1 <= w < 2 ^ 31 /\ 1 <= d < 2 ^ 31 /\ 1 <= k < 2 ^ 31.
Proof.
  intros Hrb. unfold deque_params, idiv, int. set (wd' := if wd <? 2 then 2 else wd). set (k' := if rb <? 1 then 1 else rb).
  assert (Hk : 1 <= k' < 2 ^ 31) by (unfold k'; destruct (Z.ltb_spec rb 1); lia).
  assert (Hwd : 2 <= wd') by (unfold wd'; destruct (Z.ltb_spec wd 2); lia). cbv zeta.
  destruct ((- 2 ^ 31 <=? 3 * (wd' - 1)) && (3 * (wd' - 1) <? 2 ^ 31)); [cbn [mbind option_bind]|done].
  destruct (Z.eqb_spec (3 * (wd' - 1)) 0); [lia|]. cbn [mbind option_bind].
  set (d' := if Z.quot k' (3 * (wd' - 1)) <? 1 then 1 else Z.quot k' (3 * (wd' - 1))).
  assert (Hd : 1 <= d' < 2 ^ 31).
  { unfold d'. rewrite Z.quot_div_nonneg by lia. pose proof (Z.div_le_upper_bound k' (3 * (wd' - 1)) k' ltac:(lia) ltac:(nia)).
    destruct (Z.ltb_spec (k' / (3 * (wd' - 1))) 1); lia. }
  destruct ((- 2 ^ 31 <=? 3 * d') && (3 * d' <? 2 ^ 31)); [cbn [mbind option_bind]|done].
  destruct (Z.eqb_spec (3 * d') 0); [lia|]. cbn [mbind option_bind].
  destruct ((- 2 ^ 31 <=? Z.quot k' (3 * d') + 1) && (Z.quot k' (3 * d') + 1 <? 2 ^ 31)) eqn:Eq; [cbn [mbind option_bind]|done].
  apply andb_prop in Eq as [_ Eq%Z.ltb_lt]. rewrite Z.quot_div_nonneg in * by lia. assert (0 <= k' / (3 * d')) by (apply Z.div_pos; lia).
  intros [= <- <- <-]. destruct (Z.ltb_spec (k' / (3 * d') + 1) 1); lia.
Qed.

(** The thread-local variables before [thread_init]. *)
Definition dlocal0 {T} (v : T) : dlocal T := mkDlocal v 0 0 0 0.
