(* ===== verification/DequeRuns.v ===== *)
(** The operations of the deques (Deques.v) among other threads, whatever windows
    choose the deque: each push and pop is one event, of the deque that the
    exchange of an anchor took place on. *)
From S2P Require Import Prelude Conc Random Thread StackHeap Shared SubDeques Deques.

Create HintDb deques.


(** What the counts of an anchor promise: they fit the history of the deque. *)
Class CountsOk (C : Type) {cs : Counts C} (cok : Z -> list (nat * devent) -> C -> Prop) : Prop := {
  cok_other i t e h c : dindex e <> i -> cok i h c -> cok i ((t, e) :: h) c;
  cok_put i t s x h c : cok i h c -> cok i ((t, DPush s i x) :: h) (put_count s c);
  cok_get i t s x h c : head (view s (elems i h)) = Some x -> cok i h c -> cok i ((t, DPop s i x) :: h) (get_count s c);
}.

(** What a thread's variables are between two steps; [tok] is about its windows. *)
Record local_ok {T} (tok : T -> Prop) (w : Z) (t : nat) (l : tls (dlocal T)) : Prop := mkLocalOk {
  lo_id : thread_id l = t;
  lo_index : 0 <= thread_index l < w;
  lo_windows : tok (windows (thread_Window l));
}.

(** The results of the operations [done] are exactly what the events say, the
    latest first: a pop that returns 0 may have found nothing, and a size is of no
    particular moment. *)
Inductive dexplains (w : Z) : list (dop * Z) -> list devent -> Prop :=
| dexplains_nil : dexplains w [] []
| dexplains_push done evs s k v i p :
    dexplains w done evs -> 0 <= i < w -> dexplains w (done ++ [(DoPush s k v, 1)]) (DPush s i (p, v) :: evs)
| dexplains_pop done evs s v i p :
    dexplains w done evs -> 0 <= i < w -> dexplains w (done ++ [(DoPop s, v)]) (DPop s i (p, v) :: evs)
| dexplains_empty done evs s :
    dexplains w done evs -> dexplains w (done ++ [(DoPop s, 0)]) evs
| dexplains_size done evs n :
    dexplains w done evs -> dexplains w (done ++ [(DoSize, n)]) evs.

(** The events are those of double-ended queues, and the memory holds what they leave:
    no node is in it twice, the anchors have its ends and counts, and where no push is
    unfinished the links lead from each node to the next. *)
Record replayed {C} (cok : Z -> list (nat * devent) -> C -> Prop) (w : Z) (s : deques C) : Prop := mkReplayed {
  re_legal : dlegal (dhist s);
  re_nodup i : NoDup (addrs i (dhist s));
  re_elem i (y : Z * Z) : y ∈ elems i (dhist s) -> exists nd, nodes (nheap s) !! y.1 = Some nd /\ val nd = y.2;
  re_anchor i : 0 <= i < w -> exists a n,
    anchors s !! Z.to_nat i = Some a /\ nodes (aheap s) !! a = Some n /\ cok i (dhist s) (counts n) /\
    forall sd, end_ sd n = first (view sd (addrs i (dhist s))) /\
      (state n = STATE_STABLE -> follows (nodes (nheap s)) (opp sd) (view sd (addrs i (dhist s))));
}.

(** What the operations need of the windows: the thread is left at a deque whose
    anchor it has read, of one that is not empty for a pop. *)
Class WindowsOk {W T C : Type} {AN : Allocator node_t} {AA : Allocator (anchor_t C)} {ws : Windows W T C}
    (WP : protocol W) (cok : Z -> list (nat * devent) -> C -> Prop) (tok : T -> Prop) (w : Z) : Prop := {
  put_spec t s (Q : unit -> shared W (deques C) -> tls (dlocal T) -> Prop) g l :
    local_ok tok w t l ->
    (forall n g' l', drely t (subs g) (subs g') -> local_ok tok w t l' ->
       public_anchor g' (anchor_ptr (thread_Window l')) n -> Q tt g' l') ->
    wp (joint WP (dprot cok w)) t (window_put s) Q g l;
  get_spec t s (Q : unit -> shared W (deques C) -> tls (dlocal T) -> Prop) g l :
    local_ok tok w t l ->
    (forall g' l', drely t (subs g) (subs g') -> local_ok tok w t l' ->
       (empty_check (thread_Window l') <> 1 ->
          exists n, public_anchor g' (anchor_ptr (thread_Window l')) n /\ aleft n <> 0) -> Q tt g' l') ->
    wp (joint WP (dprot cok w)) t (window_get s) Q g l;
}.

Section runs.
Context {W T C : Type} {AN : Allocator node_t} {AA : Allocator (anchor_t C)} {cs : Counts C} {ws : Windows W T C}.
Context (WP : protocol W) {wlaws : ProtocolLaws WP} (cok : Z -> list (nat * devent) -> C -> Prop) {cl : CountsOk C cok}.
Context (tok : T -> Prop) (w : Z) {wok : WindowsOk WP cok tok w} (t : nat).
Notation B := (joint WP (dprot cok w)).
Notation St := (shared W (deques C)).
Notation Lo := (tls (dlocal T)).
Notation anchor_of i g := (anchors (subs g) !! Z.to_nat i).
Notation later g g' := (drely t (subs g) (subs g')).
Notation mine g := (devents_of t (dhist (subs g))).
Notation lok := (local_ok tok w t).
Notation pnodes g := (pub (nheap (subs g))).
Notation addrs_of i g := (addrs i (dhist (subs g))).
Implicit Types (g : St) (l : Lo) (i a p : Z) (n : anchor_t C) (nd : node_t) (sd s : side).

Lemma rely_later g g' : p_rely B t g g' -> later g g'.
Proof. apply (rely_deques WP cok w B t). Qed.
Lemma dlater_refl g : later g g.
Proof. apply (drely_refl cok w t). Qed.
Lemma dlater_trans g1 g2 g3 : later g1 g2 -> later g2 g3 -> later g1 g3.
Proof. apply (drely_trans cok w t). Qed.
Lemma later_anchor g g' a n : later g g' -> public_anchor g a n -> public_anchor g' a n.
Proof. intros [R _ _ _]. by apply public_anchor_later. Qed.
Lemma dlater_node g g' p : later g g' -> public_node g p -> public_node g' p.
Proof. intros [R _ _ _]. by apply public_node_later. Qed.
Lemma later_own g g' a n : later g g' -> own_anchor t g a n -> own_anchor t g' a n.
Proof. apply own_anchor_rely. Qed.
Lemma later_mine g g' : later g g' -> mine g' = mine g.
Proof. by intros []. Qed.
Lemma inv_of g : p_inv B g -> deques_inv cok w (subs g).
Proof. apply (inv_deques WP cok w B t). Qed.
#[local] Hint Resolve rely_later dlater_refl : core.

(** *** An anchor while it is in the array *)

(** The anchor [a] of deque [i] has been replaced, or the deque is as it was. *)
Definition still g i a s x p r : Prop :=
  a ∈ retired (subs g) \/ anchor_of i g = Some a /\ view s (addrs_of i g) = x :: p :: r.

Lemma still_later g g' i a s x p r : 0 <= i -> later g g' -> still g i a s x p r -> still g' i a s x p r.
Proof.
  intros Hi [R _ _ _] [Hr|[Ea Ev]]; [left; by apply R|].
  destruct (decide (a ∈ retired (subs g'))) as [|Hn]; [by left|right].
  destruct (pl_cur _ _ R i a Hi Ea) as [Ea'|?]; [|done]. split; [done|]. unfold addrs. by rewrite (pl_same _ _ R i a Hi Ea Hn).
Qed.

Lemma still_current g i a s x p r :
  p_inv B g -> 0 <= i -> anchor_of i g = Some a -> still g i a s x p r -> view s (addrs_of i g) = x :: p :: r.
Proof.
  intros HI Hi Ea [Hr|[_ Ev]]; [|done]. destruct (di_cur _ _ _ (inv_of g HI) i a Hi Ea) as [? _]. done.
Qed.

(** The neighbour of the end of the deque at side [s]. *)
Lemma neighbour g i a n s nd :
  p_inv B g -> 0 <= i -> anchor_of i g = Some a -> public_anchor g a n -> aright n <> aleft n ->
  pnodes g !! end_ s n = Some nd -> (state n = STATE_STABLE \/ state n = push_state s) ->
  exists r, view s (addrs_of i g) = end_ s n :: link (opp s) nd :: r.
Proof.
  intros HI Hi Ea En Hne End Hst. pose proof (inv_of g HI) as Hd.
  destruct (cur_many cok w (subs g) i a n s Hd Hi Ea En Hne) as (x & p & r & Ev & <-).
  destruct (cur_at cok w (subs g) i a n Hd Hi Ea En) as [Hat _]. exists r. rewrite Ev.
  pose proof (aa_links _ _ _ _ Hat) as Hl. assert (Hf : follows (pnodes g) (opp s) (view s (addrs_of i g))).
  { destruct Hst as [E|E]; rewrite E in Hl; [by apply (links_stable _ _ s) in Hl as [? _]|by apply links_pushed in Hl as [? _]]. }
  rewrite Ev in Hf. apply follows_head in Hf as (nd' & E' & El). by assert (nd' = nd) as -> by congruence; rewrite El.
Qed.

(** What [anchor->state] and the ends say of each other. *)
Lemma anchor_ends g a n :
  p_inv B g -> public_anchor g a n ->
  (forall s, end_ s n = 0 <-> aleft n = 0) /\ (forall s, end_ s n <> 0 -> public_node g (end_ s n)) /\
  (state n = STATE_STABLE \/ exists s, state n = push_state s /\ aright n <> aleft n /\ end_ s n <> 0).
Proof.
  intros HI En. pose proof (inv_of g HI) as Hd. destruct (di_valid _ _ _ Hd a n En) as [H0 Hst].
  assert (He : forall s, end_ s n = 0 <-> aleft n = 0) by (intros []; cbn; tauto).
  split; [done|split].
  - intros s Hs. by destruct (di_ends _ _ _ Hd a n s En).
  - destruct Hst as [?|[[s Es] Hne]]; [by left|right]. exists s. split; [done|]. split; [congruence|].
    rewrite He. intros E0. apply Hne. rewrite E0. symmetry. by apply H0.
Qed.

(** *** [stabilize] *)

(** Since [g], only the anchor [new] has been added to those of the thread. *)
Record later_new new g g' : Prop := mkLaterNew {
  ln_pub : plater (subs g) (subs g');
  ln_own b nb : own_anchor t g b nb -> own_anchor t g' b nb /\ b <> new;
  ln_nodes : keeps (nheap (subs g)) (nheap (subs g')) (Some t);
  ln_mine : mine g' = mine g;
}.

Lemma later_new_later new g g' : later_new new g g' -> later g g'.
Proof. intros [H1 H2 H3 H4]. split; [done| |done|done]. intros b nb Eb Pb. by destruct (H2 b nb (conj Pb Eb)) as [[? ?] _]. Qed.

Lemma later_new_step new g g' g'' : later_new new g g' -> later g' g'' -> later_new new g g''.
Proof.
  intros [H1 H2 H3 H4] R. pose proof R as [R1 R2 R3 R4]. split.
  - by eapply plater_trans.
  - intros b nb Hb. destruct (H2 b nb Hb). split; [by apply (later_own g')|done].
  - by eapply keeps_trans.
  - congruence.
Qed.

Lemma later_new_store new n g g1 :
  later_new new g g1 -> plater (subs g1) (set_aheap (mem_write new n (aheap (subs g1))) (subs g1)) ->
  later_new new g (set_subs (set_aheap (mem_write new n (aheap (subs g1))) (subs g1)) g1).
Proof.
  intros [H1 H2 H3 H4] R. split; [by eapply plater_trans| |done|done].
  intros b nb Hb. destruct (H2 b nb Hb) as [[Pb Eb] Hne]. split; [|done]. split; [done|].
  unfold lookup_anchor in *. cbn. by rewrite lookup_insert_ne by done.
Qed.

Lemma later_new_publish new i a g g1 :
  later_new new g g1 -> let s := after_anchor t i a new None None (subs g1) in
  dguar t (subs g1) s -> later g (set_subs s g1).
Proof.
  intros [H1 H2 H3 H4] s [Hg _ _ _]. split; [by eapply plater_trans| |done|done].
  intros b nb Eb Pb. destruct (H2 b nb (conj Pb Eb)) as [[Pb' Eb'] Hne]. cbn. rewrite lookup_delete_ne by done. by split.
Qed.

Lemma lok_contention l : lok l -> lok (set_thread_Window (set_contention (i32 (contention (thread_Window l) + 1)) (thread_Window l)) l).
Proof. by intros []. Qed.

(** The link of [p] as the thread last read it. *)
Definition read_link g s p v i a x r : Prop :=
  (s, p, v) ∈ past (subs g) \/ (exists nd, pnodes g !! p = Some nd /\ link s nd = v) /\ anchor_of i g = Some a /\
    a ∉ retired (subs g) /\ view s (addrs_of i g) = x :: p :: r.

Lemma read_link_later g g' s p v i a n x r :
  0 <= i -> later g g' -> public_anchor g a n -> state n = push_state s -> v <> x ->
  read_link g s p v i a x r -> read_link g' s p v i a x r.
Proof.
  intros Hi R En Es Hv [Hp|((nd & Ep & El) & Ea & Hr & Ev)]; [left; by apply R|]. pose proof R as [Rp _ _ _].
  destruct (decide (a ∈ retired (subs g'))) as [Hr'|Hr'].
  - left. rewrite <- El. apply (pl_settled _ _ Rp i a n s x p r nd); try done. congruence.
  - destruct (still_later g g' i a s x p r Hi R) as [?|[Ea' Ev']]; [by right|done|].
    destruct (pl_nodes _ _ Rp p nd Ep) as (nd' & Ep' & _ & Hk). destruct (Hk s) as [Ek|Hk'].
    + right. split; [exists nd'; split; [done|congruence]|done].
    + left. by rewrite <- El.
Qed.

(** After the exchange: the link leads to the end while [a] is in the array. *)
Definition linked g s p i a x r : Prop :=
  a ∈ retired (subs g) \/ anchor_of i g = Some a /\ view s (addrs_of i g) = x :: p :: r /\
    exists nd, pnodes g !! p = Some nd /\ link s nd = x.

Lemma linked_later g g' s p i a n x r :
  0 <= i -> p_inv B g' -> later g g' -> public_anchor g a n -> state n = push_state s -> linked g s p i a x r -> linked g' s p i a x r.
Proof.
  intros Hi HI R En Es [Hr|(Ea & Ev & nd & Ep & El)]; [left; by apply R|]. pose proof R as [Rp _ _ _].
  destruct (still_later g g' i a s x p r Hi R) as [?|[Ea' Ev']]; [by right|by left|right].
  split; [done|split; [done|]]. destruct (pl_nodes _ _ Rp p nd Ep) as (nd' & Ep' & _ & Hk). exists nd'. split; [done|].
  destruct (Hk s) as [Ek|Hk']; [congruence|]. rewrite El in Hk'. apply (later_anchor g g' a n R) in En.
  destruct (cur_at cok w (subs g') i a n (inv_of g' HI) Hi Ea' En) as [Hat _]. by destruct (aa_pending _ _ _ _ Hat s x p r Es Ev').
Qed.

(** [deque->anchor] is loaded again. *)
Lemma wp_reload i (Q : Z -> St -> Lo -> Prop) g l :
  0 <= i < w -> (forall a g', later g g' -> p_inv B g' -> anchor_of i g' = Some a -> Q a g' l) -> wp B t (load_ptr i) Q g l.
Proof. intros Hi H. apply (wp_load_ptr WP cok w B t); [done|]. intros a n g1 R1 I1 Ea _. by apply H; [apply rely_later|..]. Qed.

Lemma wp_read_anchor (Q : anchor_t C -> St -> Lo -> Prop) g l :
  lok l ->
  (forall a n g' l', later g g' -> lok l' -> l' = set_thread_Window (set_anchor_ptr a (thread_Window l)) l -> public_anchor g' a n -> Q n g' l') ->
  wp B t read_anchor Q g l.
Proof.
  intros [H1 H2 H3] HQ. unfold read_anchor. wp_locals. apply (wp_load_ptr WP cok w B t); [done|]. intros a n g1 R1 I1 _ En.
  unfold upd. wp_locals. apply (wp_load_anchor WP cok w B t a n); [done|]. intros g2 R2 I2.
  apply (HQ a); [by apply (dlater_trans g g1); apply rely_later|by split|done|].
  apply (later_anchor g1 g2); [by apply rely_later|done].
Qed.

(** The neighbour of the end, read after the anchor was seen in the array. *)
Lemma neighbour_still g g' i a n s nd :
  p_inv B g' -> 0 <= i -> anchor_of i g = Some a -> later g g' -> public_anchor g a n -> aright n <> aleft n ->
  pnodes g' !! end_ s n = Some nd -> (state n = STATE_STABLE \/ state n = push_state s) ->
  exists r, still g' i a s (end_ s n) (link (opp s) nd) r.
Proof.
  intros HI Hi Ea R En Hne End Hst. pose proof R as [Rp _ _ _]. destruct (pl_cur _ _ Rp i a Hi Ea) as [Ea'|Hr]; [|exists []; by left].
  destruct (neighbour g' i a n s nd HI Hi Ea' (later_anchor g g' a n R En) Hne End Hst) as [r Ev]. exists r. by right.
Qed.

Lemma not_retired g i a : p_inv B g -> 0 <= i -> anchor_of i g = Some a -> a ∉ retired (subs g).
Proof. intros HI Hi Ea. by destruct (di_cur _ _ _ (inv_of g HI) i a Hi Ea). Qed.

(** The exchange of the link [s] of [p], after it was read. *)
Lemma wp_relink g l s p v i a n x r (Q : bool -> St -> Lo -> Prop) :
  0 <= i -> public_anchor g a n -> state n = push_state s -> public_node g p -> v <> x -> read_link g s p v i a x r ->
  (forall g', later g g' -> linked g' s p i a x r -> Q true g' l) -> (forall g', later g g' -> Q false g' l) ->
  wp B t (cas_link s p v x) Q g l.
Proof.
  intros Hi En Es Hp Hv Hread Hok Hno. apply (wp_cas_link WP cok w B t) with (i := i) (a := a) (n := n) (r := r); try done.
  - intros g' nd R I Ep El. destruct (read_link_later g g' s p v i a n x r Hi (rely_later _ _ R) En Es Hv Hread) as [Hpast|(_ & Ea & _ & Ev)]; [|done].
    destruct (di_link _ _ _ (inv_of g' I) p nd s Ep) as [_ Hn]. by rewrite El in Hn.
  - intros g1 g2 nd R1 I1 Ep Eg I2 R2 Ep2 Ea2 Ev2. apply Hok.
    + apply (dlater_trans g g1); [by apply rely_later|done].
    + right. split; [done|split; [done|]]. exists (set_link s x nd). split; [done|apply link_set].
  - intros g' R I. by apply Hno, rely_later.
Qed.

Lemma view_head_pub g i s x p r : p_inv B g -> view s (addrs_of i g) = x :: p :: r -> public_node g p.
Proof. intros HI Ev. apply (addrs_pub cok w (subs g) i p (inv_of g HI)). rewrite <- (elem_of_view s), Ev. set_solver. Qed.

(** The last part: the anchor is replaced by a stable one. *)
Lemma wp_stabilize_commit s a n i p x r (Q : unit -> St -> Lo -> Prop) g l :
  0 <= i < w -> lok l -> public_anchor g a n -> state n = push_state s -> linked g s p i a x r ->
  (forall g' l', later g g' -> lok l' -> Q tt g' l') ->
  wp B t (let* nextAnchor := create_anchor in
          store_anchor nextAnchor (set_state STATE_STABLE n) ;;;
          let* ok := cas_anchor i a nextAnchor Stabilized in
          if (ok : bool) then Ret tt else inc_contention) Q g l.
Proof.
  intros Hi Hl En Es Hlk HQ. wp_local. unfold create_anchor. apply (wp_alloc_anchor WP cok w B t); [by destruct Hl|].
  intros new g' g1 _ _ L1 Hfresh I1 Hnew _. assert (N1 : later_new new g g1).
  { split; [by destruct L1..| |by destruct L1|by destruct L1]. intros b nb Hb. split; [by apply (later_own g)|by apply (Hfresh b nb)]. }
  wp_local. eapply (wp_store_anchor WP cok w B t); [exact Hnew|]. intros g2 g3 _ _ L2 E3 I3 P3 Hnew3.
  assert (N3 : later_new new g g3).
  { subst g3. apply later_new_store; [|done]. by apply (later_new_step new g g1). }
  clear E3 P3. pose proof (later_new_later new g g3 N3) as L3. wp_local.
  apply (linked_later g g3 s p i a n x r (proj1 Hi) I3 L3) in Hlk; [|done..]. apply (later_anchor g g3 a n L3) in En.
  apply (wp_cas_anchor WP cok w B t) with (n := n) (nw := set_state STATE_STABLE n); try done; [by destruct Hl| |].
  - intros g4 R4 I4 Ea4 En4 Hown4. cbn [event_of pushed_node].
    apply (linked_later g3 g4 s p i a n x r (proj1 Hi) I4 (rely_later _ _ R4)) in Hlk; [|done|done].
    destruct Hlk as [Hr|(_ & Ev & np & Ep & El)]; [by destruct (not_retired g4 i a I4 (proj1 Hi) Ea4)|].
    destruct (stabilize_step cok w cok_other t (subs g4) i a n new s x p r np (inv_of g4 I4) (proj1 Hi) Ea4 En4
      (proj1 Hown4) (proj2 Hown4) Es Ev Ep El) as [Hs Hg].
    split; [done|split; [done|]]. intros I5. wp_locals. apply HQ; [|done].
    apply later_new_publish with (new := new); [|done]. apply (later_new_step new g g3); [done|by apply rely_later].
  - intros g4 R4 I4. wp_locals. apply HQ; [|by apply lok_contention]. apply (dlater_trans g g3); [done|by apply rely_later].
Qed.

(** The middle part: the link of the last but one node, if it is not yet there. *)
Lemma wp_stabilize_link s a n i p r (Q : bool -> St -> Lo -> Prop) g l nd :
  let x := end_ s n in
  0 <= i < w -> lok l -> public_anchor g a n -> state n = push_state s ->
  still g i a s x p r -> pnodes g !! p = Some nd ->
  (forall go g' l', later g g' -> lok l' -> (go = true -> linked g' s p i a x r) -> Q go g' l') ->
  wp B t (if negb (link s nd =? x) then
            let* cur := load_ptr i in
            if negb (cur =? a) then Ret false
            else
              let* ok := cas_link s p (link s nd) x in
              if (ok : bool) then Ret true else inc_contention ;;; Ret false
          else Ret true) Q g l.
Proof.
  intros x Hi Hl En Es Hstill End HQ. destruct (Z.eqb_spec (link s nd) x) as [Ex|Hx]; cbn [negb].
  - wp_locals. apply HQ; [done..|]. intros _. destruct Hstill as [?|[Ea Ev]]; [by left|right].
    split; [done|split; [done|]]. by exists nd.
  - wp_local. apply wp_reload; [done|]. intros cur g1 L1 I1 Ecur. pose proof (later_anchor g g1 a n L1 En) as En1.
    destruct (Z.eqb_spec cur a) as [->|_]; cbn [negb]; [|wp_locals; by apply HQ].
    assert (Hread : read_link g s p (link s nd) i a x r).
    { right. assert (Hnr : a ∉ retired (subs g)).
      { intros Hr. apply (not_retired g1 i a I1 (proj1 Hi) Ecur). by apply L1. }
      destruct Hstill as [?|[Ea Ev]]; [done|]. split; [by exists nd|done]. }
    apply (read_link_later g g1 s p (link s nd) i a n x r (proj1 Hi) L1) in Hread; [|done..].
    wp_local. apply (wp_relink g1 l s p (link s nd) i a n x r); try done; [lia|apply (dlater_node g g1); [done|by exists nd]| |].
    + intros g2 L2 Hlk. wp_locals. apply HQ; [by apply (dlater_trans g g1)|done|done].
    + intros g2 L2. wp_locals. apply HQ; [by apply (dlater_trans g g1)|by apply lok_contention|done].
Qed.

Lemma wp_stabilize_side s a n i (Q : unit -> St -> Lo -> Prop) g l :
  0 <= i < w -> lok l -> public_anchor g a n -> state n = push_state s ->
  (forall g' l', later g g' -> lok l' -> Q tt g' l') -> wp B t (stabilize_side s a i) Q g l.
Proof.
  intros Hi Hl En Es HQ. unfold stabilize_side. wp_local.
  apply (wp_load_anchor WP cok w B t a n); [done|]. intros g1 R1 I1. pose proof (rely_later _ _ R1) as L1.
  apply (later_anchor g g1 a n L1) in En. destruct (anchor_ends g1 a n I1 En) as (_ & Hpub & Hst).
  destruct Hst as [Est|(s' & Es' & Hne & He)]; [rewrite Es in Est; by destruct (push_state_stable s)|].
  assert (s' = s) as -> by (apply push_state_inj; congruence). specialize (Hpub s He).
  wp_local. apply wp_reload; [done|]. intros cur g2 L2 I2 Ecur.
  assert (L2' : later g g2) by by apply (dlater_trans g g1).
  destruct (Z.eqb_spec cur a) as [->|_]; cbn [negb]; [|wp_locals; by apply HQ].
  apply (later_anchor g1 g2 a n L2) in En. apply (dlater_node g1 g2 _ L2) in Hpub.
  wp_local. apply (wp_load_link WP cok w B t); [done|]. intros nd g3 R3 I3 End. pose proof (rely_later _ _ R3) as L3.
  destruct (neighbour_still g2 g3 i a n s nd I3 (proj1 Hi) Ecur L3 En Hne End ltac:(by right)) as [r Hstill].
  set (x := end_ s n) in *. set (p := link (opp s) nd) in *. apply (later_anchor g2 g3 a n L3) in En.
  wp_local. apply wp_reload; [done|]. intros cur4 g4 L4 I4 Ecur4.
  assert (L4' : later g g4) by (by apply (dlater_trans g g2), (dlater_trans g2 g3)).
  destruct (Z.eqb_spec cur4 a) as [->|_]; cbn [negb]; [|wp_locals; by apply HQ].
  apply (still_later g3 g4 i a s x p r (proj1 Hi) L4) in Hstill.
  pose proof (still_current g4 i a s x p r I4 (proj1 Hi) Ecur4 Hstill) as Ev4.
  pose proof (view_head_pub g4 i s x p r I4 Ev4) as Hp. apply (later_anchor g3 g4 a n L4) in En.
  wp_local. apply (wp_load_link WP cok w B t); [done|]. intros nd5 g5 R5 I5 End5. pose proof (rely_later _ _ R5) as L5.
  apply (still_later g4 g5 i a s x p r (proj1 Hi) L5) in Hstill. apply (later_anchor g4 g5 a n L5) in En.
  assert (L5' : later g g5) by by apply (dlater_trans g g4).
  wp_local. apply (wp_mono B t _ (fun go g' l' => lok l' /\ later g g' /\ public_anchor g' a n /\ (go = true -> linked g' s p i a x r))).
  { intros go g6 l6 (Hl6 & L6 & En6 & Hgo). destruct go; [|wp_locals; by apply HQ]. specialize (Hgo eq_refl).
    apply (wp_stabilize_commit s a n i p x r); try done. intros g7 l7 L7 Hl7. apply HQ; [by apply (dlater_trans g g6)|done]. }
  apply (wp_stabilize_link s a n i p r); try done. intros go g6 l6 L6 Hl6 Hgo. wp_locals.
  split; [done|split; [by apply (dlater_trans g g5)|split; [by apply (later_anchor g5 g6)|done]]].
Qed.

Lemma wp_stabilize a n i (Q : unit -> St -> Lo -> Prop) g l :
  0 <= i < w -> lok l -> public_anchor g a n -> state n <> STATE_STABLE ->
  (forall g' l', later g g' -> lok l' -> Q tt g' l') -> wp B t (stabilize a i) Q g l.
Proof.
  intros Hi Hl En Es HQ. unfold stabilize. wp_local. apply (wp_load_anchor WP cok w B t a n); [done|]. intros g1 R1 I1.
  pose proof (rely_later _ _ R1) as L1. apply (later_anchor g g1 a n L1) in En.
  destruct (anchor_ends g1 a n I1 En) as (_ & _ & [?|(s & Es' & _)]); [done|].
  destruct (Z.eqb_spec (state n) STATE_RPUSH) as [E|E].
  - apply (wp_stabilize_side Right a n i); try done. intros g2 l2 L2 Hl2. apply HQ; [by apply (dlater_trans g g1)|done].
  - assert (s = Left) as -> by by destruct s. apply (wp_stabilize_side Left a n i); try done.
    intros g2 l2 L2 Hl2. apply HQ; [by apply (dlater_trans g g1)|done].
Qed.

(** *** Pushes *)

(** The new node, and the anchor that is allocated for it, until they are in the deque. *)
Definition new_node g p (v : Z) : Prop :=
  exists nd, own_node t g p nd /\ val nd = v /\ forall s, link s nd = 0 \/ public_node g (link s nd).
Definition next_anchor g a : Prop := a = 0 \/ exists n, own_anchor t g a n.

Lemma new_node_later g g' p v : later g g' -> new_node g p v -> new_node g' p v.
Proof.
  intros R (nd & Hown & Ev & Hl). exists nd. split; [by apply (own_node_rely t g)|split; [done|]].
  intros s. destruct (Hl s); [by left|right; by apply (dlater_node g)].
Qed.
Lemma next_anchor_later g g' a : later g g' -> next_anchor g a -> next_anchor g' a.
Proof. intros R [?|[n ?]]; [by left|right]. exists n. by apply (later_own g). Qed.

Lemma wp_maybe_create a (Q : Z -> St -> Lo -> Prop) g l :
  lok l -> next_anchor g a -> (forall a' g', later g g' -> (exists n, own_anchor t g' a' n) -> Q a' g' l) ->
  wp B t (maybe_create_anchor a) Q g l.
Proof.
  intros Hl Ha HQ. unfold maybe_create_anchor. destruct (Z.eqb_spec a 0) as [_|Hne].
  - apply (wp_alloc_anchor WP cok w B t); [by destruct Hl|]. intros a' g' g1 _ _ L1 _ _ Ha1 _. apply HQ; [done|by eexists].
  - wp_locals. destruct Ha as [?|?]; [done|]. by apply HQ.
Qed.

Lemma wp_find_put s (Q : Z * Z -> St -> Lo -> Prop) g l :
  lok l -> (forall i a n g' l', 0 <= i < w -> later g g' -> p_inv B g' -> lok l' -> public_anchor g' a n -> Q (a, i) g' l') ->
  wp B t (find_put s) Q g l.
Proof.
  intros Hl HQ. unfold find_put. apply (wp_while B t _ _ _ _ (fun _ _ g' l' => later g g' /\ lok l') 0%nat); [by split|].
  intros n0 [] g1 l1 [L1 Hl1]. wp_local. apply (put_spec t s); [done|]. intros n g2 l2 L2 Hl2 En. wp_locals.
  apply wp_reload; [by destruct Hl2|]. intros cur g3 L3 I3 Ecur.
  assert (L3' : later g g3) by (apply (dlater_trans g g1); [done|by apply (dlater_trans g1 g2)]).
  destruct (Z.eqb_spec (anchor_ptr (thread_Window l2)) cur) as [<-|_]; wp_locals; [|by exists 0%nat].
  apply (HQ _ _ n); try done; [by destruct Hl2|]. by apply (later_anchor g2 g3).
Qed.

Lemma lok_stat l f : lok l -> lok (count_stat f l).
Proof. by intros []. Qed.

Lemma wp_inc_contention (Q : unit -> St -> Lo -> Prop) g l :
  lok l -> (forall l', lok l' -> Q tt g l') -> wp B t inc_contention Q g l.
Proof. intros Hl HQ. unfold inc_contention, upd. wp_locals. by apply HQ, lok_contention. Qed.


(** The anchor that a push puts in place of [n]. *)
Definition push_case s (n nw : anchor_t C) (node : Z) nd : Prop :=
  end_ s n = 0 /\ (forall s', end_ s' nw = node) /\ state nw = state n \/
  end_ s n <> 0 /\ state n = STATE_STABLE /\ link (opp s) nd = end_ s n /\
  end_ s nw = node /\ end_ (opp s) nw = end_ (opp s) n /\ state nw = push_state s.

Lemma wp_push_cas s i a n new nw node nd (Q : bool -> St -> Lo -> Prop) g l :
  0 <= i < w -> lok l -> public_anchor g a n -> own_anchor t g new nw -> own_node t g node nd ->
  (forall s, link s nd = 0 \/ public_node g (link s nd)) -> push_case s n nw node nd ->
  counts nw = put_count s (counts n) ->
  (forall g', public_anchor g' new nw -> mine g' = DPush s i (node, val nd) :: mine g -> Q true g' l) ->
  (forall g', later g g' -> Q false g' l) -> wp B t (cas_anchor i a new (Pushed s)) Q g l.
Proof.
  intros Hi Hl En Hnew Hnode Hlinks Hcase Hc Hok Hno.
  apply (wp_cas_anchor WP cok w B t) with (n := n) (nw := nw); try done; [by destruct Hl| |].
  - intros g1 R1 I1 Ea En1 [Pn1 En2]. pose proof (rely_later _ _ R1) as L1. cbn [event_of pushed_node].
    assert (Hend : end_ s nw = node) by (destruct Hcase as [(_ & H & _)|(_ & _ & _ & H & _)]; [apply H|exact H]).
    destruct (own_node_rely t g g1 node nd L1 Hnode) as [Pnd End]. unfold lookup_dnode in End. rewrite Hend, End. cbn [from_option].
    destruct (cur_at cok w (subs g1) i a n (inv_of g1 I1) (proj1 Hi) Ea En1) as [_ Hcur].
    destruct (push_step cok w cok_other t (subs g1) i a n new nw s node nd (inv_of g1 I1) (proj1 Hi) Ea En1 Pn1 En2 Pnd End)
      as [Hs Hg]; [|done| |].
    + intros s'. destruct (Hlinks s'); [by left|right; by apply (dlater_node g g1)].
    + rewrite Hc. by apply cok_put.
    + split; [done|split; [done|]]. intros _. apply Hok.
      * unfold public_anchor. cbn. by rewrite (pub_publish new nw _ En2), lookup_insert_eq.
      * cbn [subs set_subs after_anchor dhist]. rewrite devents_of_cons, decide_True by done. f_equal. by apply later_mine.
  - intros g1 R1 _. by apply Hno, rely_later.
Qed.

(** A failed exchange changes the statistics only. *)
Lemma wp_failed (f : stats_t -> stats_t) (Q : unit -> St -> Lo -> Prop) g l :
  lok l -> (forall l', lok l' -> Q tt g l') -> wp B t (put (count_stat f) ;;; inc_contention) Q g l.
Proof. intros Hl HQ. wp_locals. apply wp_inc_contention; [by apply lok_stat|done]. Qed.

(** The loop of a push: nothing is pushed until it ends. *)
Definition pushing g0 (node v : Z) (nextAnchor : Z) g l : Prop :=
  mine g = mine g0 /\ lok l /\ new_node g node v /\ next_anchor g nextAnchor.

Lemma wp_push_try s i a n next nw0 nw node nd (K : prog St Lo (Z + Z)) (Q : Z + Z -> St -> Lo -> Prop) g0 g l :
  0 <= i < w -> lok l -> mine g = mine g0 -> public_anchor g a n -> own_anchor t g next nw0 -> own_node t g node nd ->
  (forall s, link s nd = 0 \/ public_node g (link s nd)) -> push_case s n nw node nd -> counts nw = put_count s (counts n) ->
  (forall g', public_anchor g' next nw -> mine g' = DPush s i (node, val nd) :: mine g0 -> wp B t K Q g' l) ->
  (forall next g' l', pushing g0 node (val nd) next g' l' -> Q (inl next) g' l') ->
  wp B t (store_anchor next nw ;;;
          let* ok := cas_anchor i a next (Pushed s) in
          if (ok : bool) then K
          else put (count_stat inc_put_cas_fail) ;;; inc_contention ;;; continue next) Q g l.
Proof.
  intros Hi Hl Hm En Hnext Hnode Hlinks Hcase Hc Hok Hagain. wp_local.
  eapply (wp_store_anchor WP cok w B t); [exact Hnext|]. intros g1 g2 _ _ L1 E2 I2 P2 Hnext2.
  assert (En2 : public_anchor g2 a n) by (subst g2; apply (public_anchor_later g1 _ a n P2); by apply (later_anchor g g1)).
  assert (Hnode2 : own_node t g2 node nd) by (subst g2; exact (own_node_rely t g g1 node nd L1 Hnode)).
  assert (Hlinks2 : forall s, link s nd = 0 \/ public_node g2 (link s nd)).
  { intros s'. destruct (Hlinks s'); [by left|right]. subst g2. by apply (dlater_node g g1). }
  assert (Hm2 : mine g2 = mine g0) by (subst g2; rewrite <- Hm; exact (later_mine g g1 L1)).
  clear E2 P2 g1 L1 Hnode Hnext Hlinks En Hm I2. wp_local.
  apply (wp_push_cas s i a n next nw node nd); try done.
  - intros g3 En3 Hm3. apply Hok; [done|congruence].
  - intros g3 L3. wp_local. apply wp_put. wp_local. apply wp_inc_contention; [by apply lok_stat|].
    intros l' Hl'. wp_locals. apply Hagain. split; [by rewrite (later_mine g2 g3 L3)|split; [done|split]].
    + apply (new_node_later g2 g3); [done|]. by exists nd.
    + right. exists nw. by apply (later_own g2 g3).
Qed.

Lemma wp_push_body s node v nextAnchor (Q : Z + Z -> St -> Lo -> Prop) g0 g l :
  pushing g0 node v nextAnchor g l ->
  (forall next g' l', pushing g0 node v next g' l' -> Q (inl next) g' l') ->
  (forall i g' l', 0 <= i < w -> lok l' -> mine g' = DPush s i (node, v) :: mine g0 -> Q (inr 1) g' l') ->
  wp B t (push_body s node nextAnchor) Q g l.
Proof.
  intros (Hm & Hl & Hnode & Hnext) Hagain Hdone. unfold push_body. wp_local. apply wp_maybe_create; [done..|].
  clear Hnext. intros next g1 L1 [nw0 Hnext]. wp_local. apply wp_find_put; [done|]. intros i a n g2 l2 Hi L2 I2 Hl2 En.
  apply (later_own g1 g2 _ _ L2) in Hnext. apply (new_node_later g g1 node v L1), (new_node_later g1 g2 node v L2) in Hnode.
  assert (Hm2 : mine g2 = mine g0) by (rewrite (later_mine g1 g2 L2), (later_mine g g1 L1); done). clear Hm L1 L2.
  destruct Hnode as (nd & Hnode & Ev & Hlinks). wp_local.
  apply (wp_load_anchor WP cok w B t a n); [done|]. intros g3 R3 I3. pose proof (rely_later _ _ R3) as L3.
  apply (later_anchor g2 g3 a n L3) in En. apply (later_own g2 g3 _ _ L3) in Hnext.
  apply (own_node_rely t g2 g3 node nd L3) in Hnode. rewrite <- (later_mine g2 g3 L3) in Hm2.
  assert (Hlinks3 : forall s, link s nd = 0 \/ public_node g3 (link s nd)).
  { intros s'. destruct (Hlinks s'); [by left|right; by apply (dlater_node g2 g3)]. }
  clear Hlinks L3 R3. destruct (anchor_ends g3 a n I3 En) as (He & Hpub & _).
  destruct (Z.eqb_spec (end_ s n) 0) as [E0|E0]; [|destruct (Z.eqb_spec (state n) STATE_STABLE) as [Es|Es]].
  - apply (wp_push_try s i a n next nw0 _ node nd _ _ g0); try done.
    + left. split; [done|split; [|done]]. by intros [].
    + intros g4 _ Hm4. wp_locals. apply (Hdone i); [done..|]. by rewrite Hm4, Ev.
    + by rewrite Ev.
  - wp_local. eapply (wp_store_dnode WP cok w B t); [exact Hnode|]. intros g4 g5 _ _ L4 E5 I5 P5 Hnode5.
    assert (En5 : public_anchor g5 a n) by (subst g5; by apply (later_anchor g3 g4)).
    assert (Hnext5 : own_anchor t g5 next nw0) by (subst g5; by apply (later_own g3 g4)).
    assert (Hm5 : mine g5 = mine g0) by (subst g5; rewrite <- Hm2; exact (later_mine g3 g4 L4)).
    assert (Hpub5 : forall p, public_node g3 p -> public_node g5 p).
    { intros p Hp. subst g5. apply (public_node_later g4); [done|]. by apply (dlater_node g3 g4). }
    clear E5 P5.
    apply (wp_push_try s i a n next nw0 _ node (set_link (opp s) (end_ s n) nd) _ _ g0); try done.
    + intros s'. destruct (side_cases (opp s) s') as [->| ->]; [rewrite link_set; right; by apply Hpub5, Hpub|].
      rewrite link_set_opp. destruct (Hlinks3 (opp (opp s))); [by left|right; by apply Hpub5].
    + right. split; [done|split; [done|split; [apply link_set|]]]. by destruct s.
    + by destruct s.
    + intros g6 En6 Hm6. wp_local. eapply (wp_stabilize_side s next _ i); [done|done|exact En6|done|]. intros g7 l7 L7 Hl7. wp_locals.
      apply (Hdone i); [done..|]. by rewrite (later_mine g6 g7 L7), Hm6, val_set, Ev.
    + intros next' g' l' Hp. rewrite val_set, Ev in Hp. by apply Hagain.
  - wp_local. apply (wp_stabilize a n i); try done. intros g4 l4 L4 Hl4. wp_locals. apply Hagain.
    split; [by rewrite (later_mine g3 g4 L4)|split; [done|split]].
    + apply (new_node_later g3 g4); [done|]. by exists nd.
    + right. exists nw0. by apply (later_own g3 g4).
Qed.

Lemma wp_push s k v (Q : Z -> St -> Lo -> Prop) g l :
  lok l ->
  (forall i p g' l', 0 <= i < w -> lok l' -> mine g' = DPush s i (p, v) :: mine g -> Q 1 g' l') ->
  wp B t (push s k v) Q g l.
Proof.
  intros Hl HQ. unfold push. wp_local. apply (wp_alloc_dnode WP cok w B t); [by destruct Hl|].
  intros node g' g1 _ _ L1 _ Hnode. wp_local. unfold upd. wp_locals.
  apply (wp_while B t _ _ _ _ (fun _ next g' l' => pushing g node v next g' l') 0%nat).
  - split; [by apply later_mine|split; [by destruct Hl|split; [|by left]]]. exists (mkNode v k 0 0).
    split; [done|split; [done|]]. intros []; by left.
  - intros n next g2 l2 Hp. apply (wp_push_body s node v next _ g); [done| |].
    + intros next' g3 l3 Hp3. by exists 0%nat.
    + intros i g3 l3 Hi Hl3 Hm3. wp_locals. by apply (HQ i node).
Qed.

(** *** Pops *)

Lemma wp_find_get s (Q : option (Z * Z) -> St -> Lo -> Prop) g l :
  lok l ->
  (forall i a n g' l', 0 <= i < w -> later g g' -> p_inv B g' -> lok l' -> public_anchor g' a n -> aleft n <> 0 -> anchor_of i g' = Some a ->
     Q (Some (a, i)) g' l') ->
  (forall g' l', later g g' -> lok l' -> Q None g' l') ->
  wp B t (find_get s) Q g l.
Proof.
  intros Hl HQ HN. unfold find_get. apply (wp_while B t _ _ _ _ (fun _ _ g' l' => later g g' /\ lok l') 0%nat); [by split|].
  intros n0 [] g1 l1 [L1 Hl1]. wp_local. apply (get_spec t s); [done|]. intros g2 l2 L2 Hl2 Hn. unfold my. wp_locals.
  destruct (Z.eqb_spec (empty_check (thread_Window l2)) 1) as [E|E].
  - wp_locals. apply HN; [by apply (dlater_trans g g1)|by apply lok_stat].
  - destruct (Hn E) as (n & En & Hne). wp_locals. apply wp_reload; [by destruct Hl2|]. intros cur g3 L3 I3 Ecur.
    assert (L3' : later g g3) by (apply (dlater_trans g g1); [done|by apply (dlater_trans g1 g2)]).
    destruct (Z.eqb_spec (anchor_ptr (thread_Window l2)) cur) as [<-|_]; wp_locals; [|by exists 0%nat].
    apply (HQ _ _ n); try done; [by destruct Hl2|]. by apply (later_anchor g2 g3).
Qed.

(** The anchor that a pop puts in place of [n]; [prev], the neighbour of its end. *)
Definition pop_case s (n nw : anchor_t C) (prev : Z) : Prop :=
  aright n = aleft n /\ (forall s', end_ s' nw = 0) /\ state nw = state n \/
  aright n <> aleft n /\ state n = STATE_STABLE /\ end_ s nw = prev /\
  end_ (opp s) nw = end_ (opp s) n /\ state nw = STATE_STABLE.

(** [prev] is the neighbour while [a] is in the array. *)
Definition knows_prev g i a s n (prev : Z) : Prop := exists r, still g i a s (end_ s n) prev r.

Lemma wp_pop_cas s i a n next nw0 nw prev (Q : Z + option Z -> St -> Lo -> Prop) g0 g l :
  0 <= i < w -> lok l -> mine g = mine g0 -> public_anchor g a n -> aleft n <> 0 -> own_anchor t g next nw0 ->
  (aright n <> aleft n -> knows_prev g i a s n prev) -> pop_case s n nw prev -> counts nw = get_count s (counts n) ->
  (forall nd g', pub (nheap (subs g')) !! end_ s n = Some nd -> mine g' = DPop s i (end_ s n, val nd) :: mine g0 ->
     Q (inr (Some (end_ s n))) g' l) ->
  (forall g' l', lok l' -> mine g' = mine g0 -> next_anchor g' next -> Q (inl next) g' l') ->
  wp B t (store_anchor next nw ;;; pop_cas s i a next n) Q g l.
Proof.
  intros Hi Hl Hm En Hne Hnext Hprev Hcase Hc Hok Hagain. wp_local.
  eapply (wp_store_anchor WP cok w B t); [exact Hnext|]. intros g1 g2 _ _ L1 E2 I2 P2 Hnext2.
  assert (En2 : public_anchor g2 a n) by (subst g2; apply (public_anchor_later g1 _ a n P2); by apply (later_anchor g g1)).
  assert (Hprev2 : aright n <> aleft n -> knows_prev g2 i a s n prev).
  { intros Hd. destruct (Hprev Hd) as [r Hr]. exists r. subst g2. exact (still_later g g1 i a s _ prev r (proj1 Hi) L1 Hr). }
  assert (Hm2 : mine g2 = mine g0) by (subst g2; rewrite <- Hm; exact (later_mine g g1 L1)).
  clear E2 P2 g1 L1 Hnext Hprev En Hm I2. unfold pop_cas. wp_local.
  apply (wp_cas_anchor WP cok w B t) with (n := n) (nw := nw); try done; [by destruct Hl| |].
  - intros g3 R3 I3 Ea En3 [Pn1 En4]. pose proof (rely_later _ _ R3) as L3. cbn [event_of pushed_node].
    destruct (anchor_ends g3 a n I3 En3) as (He & Hpub & _). destruct (Hpub s ltac:(by rewrite He)) as [nd End].
    pose proof End as [End' _]%pub_lookup. rewrite End'. cbn [from_option].
    destruct (cur_at cok w (subs g3) i a n (inv_of g3 I3) (proj1 Hi) Ea En3) as [_ Hcur].
    assert (Hcase' : aright n = aleft n /\ (forall s', end_ s' nw = 0) /\ state nw = state n \/
      aright n <> aleft n /\ state n = STATE_STABLE /\ end_ s nw = link (opp s) nd /\
      end_ (opp s) nw = end_ (opp s) n /\ state nw = STATE_STABLE).
    { destruct Hcase as [?|(Hd & Est & E1 & E2)]; [by left|right]. split; [done|split; [done|split; [|done]]]. rewrite E1.
      destruct (Hprev2 Hd) as [r Hr]. apply (still_later g2 g3 i a s _ prev r (proj1 Hi) L3) in Hr.
      apply (still_current g3 i a s _ prev r I3 (proj1 Hi) Ea) in Hr.
      destruct (neighbour g3 i a n s nd I3 (proj1 Hi) Ea En3 Hd End ltac:(by left)) as [r' Hr']. congruence. }
    assert (Hhead : head (view s (elems i (dhist (subs g3)))) = Some (end_ s n, val nd)).
    { by apply (head_cur cok w (subs g3) i a n s nd (inv_of g3 I3) (proj1 Hi) Ea En3). }
    destruct (pop_step cok w cok_other t (subs g3) i a n next nw s nd (inv_of g3 I3) (proj1 Hi) Ea En3 Pn1 En4 Hne End' Hcase')
      as (Hs & Hg & _); [rewrite Hc; by apply cok_get|].
    split; [done|split; [done|]]. intros _. wp_locals. apply (Hok nd); [done|].
    cbn [subs set_subs after_anchor dhist]. rewrite devents_of_cons, decide_True by done. f_equal. rewrite <- Hm2. by apply later_mine.
  - intros g3 R3 _. pose proof (rely_later _ _ R3) as L3. wp_local. apply wp_inc_contention; [done|]. intros l' Hl'. wp_locals.
    apply Hagain; [by apply lok_stat|by rewrite (later_mine g2 g3 L3)|]. right. exists nw. by apply (later_own g2 g3).
Qed.

Definition popping g0 (nextAnchor : Z) g l : Prop := mine g = mine g0 /\ lok l /\ next_anchor g nextAnchor.

Lemma wp_pop_body s nextAnchor (Q : Z + option Z -> St -> Lo -> Prop) g0 g l :
  popping g0 nextAnchor g l ->
  (forall next g' l', popping g0 next g' l' -> Q (inl next) g' l') ->
  (forall g' l', mine g' = mine g0 -> lok l' -> Q (inr None) g' l') ->
  (forall i p nd g' l', 0 <= i < w -> lok l' -> pub (nheap (subs g')) !! p = Some nd ->
     mine g' = DPop s i (p, val nd) :: mine g0 -> Q (inr (Some p)) g' l') ->
  wp B t (pop_body s nextAnchor) Q g l.
Proof.
  intros (Hm & Hl & Hnext) Hagain Hempty Hdone. unfold pop_body. wp_local. apply wp_maybe_create; [done..|].
  clear Hnext. intros next g1 L1 [nw0 Hnext]. rewrite <- (later_mine g g1 L1) in Hm. wp_local. apply wp_find_get; [done| |].
  2: { intros g2 l2 L2 Hl2. wp_locals. apply Hempty; [by rewrite (later_mine g1 g2 L2)|done]. }
  intros i a n g2 l2 Hi L2 I2 Hl2 En Hne Ea. apply (later_own g1 g2 _ _ L2) in Hnext. rewrite <- (later_mine g1 g2 L2) in Hm. clear L1 L2.
  wp_local. apply (wp_load_anchor WP cok w B t a n); [done|]. intros g3 R3 I3. pose proof (rely_later _ _ R3) as L3.
  apply (later_anchor g2 g3 a n L3) in En. apply (later_own g2 g3 _ _ L3) in Hnext. rewrite <- (later_mine g2 g3 L3) in Hm.
  destruct (anchor_ends g3 a n I3 En) as (He & Hpub & _). clear R3 L3 Ea.
  destruct (Z.eqb_spec (aright n) (aleft n)) as [Eq|Hd]; [|destruct (Z.eqb_spec (state n) STATE_STABLE) as [Es|Es]].
  - apply (wp_pop_cas s i a n next nw0 _ 0 _ g0); try done.
    + left. split; [done|split; [|done]]. by intros [].
    + intros nd g' Epub Hmine. by apply (Hdone i _ nd).
    + intros g' l' Hl' Hm' Hn'. by apply Hagain.
  - wp_local. apply wp_reload; [done|]. intros cur g4 L4 I4 Ecur.
    apply (later_anchor g3 g4 a n L4) in En. apply (later_own g3 g4 _ _ L4) in Hnext. rewrite <- (later_mine g3 g4 L4) in Hm.
    destruct (Z.eqb_spec cur a) as [->|_]; cbn [negb].
    2: { wp_locals. apply Hagain. split; [done|split; [done|]]. right. by exists nw0. }
    wp_local. apply (wp_load_link WP cok w B t); [apply (dlater_node g3 g4); [done|]; by apply Hpub; rewrite He|].
    intros nd g5 R5 I5 End. pose proof (rely_later _ _ R5) as L5.
    destruct (neighbour_still g4 g5 i a n s nd I5 (proj1 Hi) Ecur L5 En Hd End ltac:(by left)) as [r Hstill].
    apply (later_anchor g4 g5 a n L5) in En. apply (later_own g4 g5 _ _ L5) in Hnext. rewrite <- (later_mine g4 g5 L5) in Hm.
    apply (wp_pop_cas s i a n next nw0 _ (link (opp s) nd) _ g0); try done.
    + intros _. by exists r.
    + right. split; [done|split; [done|]]. by destruct s.
    + by destruct s.
    + intros nd' g' Epub Hmine. by apply (Hdone i _ nd').
    + intros g' l' Hl' Hm' Hn'. by apply Hagain.
  - wp_local. apply (wp_stabilize a n i); try done. intros g4 l4 L4 Hl4. wp_locals. apply Hagain.
    split; [by rewrite (later_mine g3 g4 L4)|split; [done|]]. right. exists nw0. by apply (later_own g3 g4).
Qed.

Lemma wp_pop s (Q : Z -> St -> Lo -> Prop) g l :
  lok l ->
  (forall g' l', lok l' -> mine g' = mine g -> Q 0 g' l') ->
  (forall i p v g' l', 0 <= i < w -> lok l' -> mine g' = DPop s i (p, v) :: mine g -> Q v g' l') ->
  wp B t (pop s) Q g l.
Proof.
  intros Hl HE HQ. unfold pop. wp_local. unfold upd. wp_locals.
  apply (wp_while B t _ _ _ _ (fun _ next g' l' => popping g next g' l') 0%nat); [split; [done|split; [by destruct Hl|by left]]|].
  intros n next g1 l1 Hp. apply (wp_pop_body s next _ g); [done|..].
  - intros next' g2 l2 Hp2. by exists 0%nat.
  - intros g2 l2 Hm2 Hl2. wp_locals. by apply HE.
  - intros i p nd g2 l2 Hi Hl2 Ep Hm2. wp_locals. apply (wp_load_val WP cok w B t p nd); [done|]. intros g3 R3 _.
    apply (HQ i p); [done..|]. by rewrite (later_mine g2 g3 (rely_later _ _ R3)).
Qed.

(** *** Sizes *)

Lemma wp_size_anchor i (Q : Z -> St -> Lo -> Prop) g l :
  0 <= i < w -> lok l -> (forall a n g' l', later g g' -> p_inv B g' -> lok l' -> public_anchor g' a n -> Q a g' l') ->
  wp B t (size_anchor i) Q g l.
Proof.
  intros Hi Hl HQ. unfold size_anchor. apply (wp_while B t _ _ _ _ (fun _ _ g' l' => later g g' /\ lok l') 0%nat); [by split|].
  intros m [] g1 l1 [L1 Hl1]. wp_local. apply (wp_load_ptr WP cok w B t); [done|]. intros a n g2 R2 I2 Ea En.
  wp_local. apply (wp_load_anchor WP cok w B t a n); [done|]. intros g3 R3 I3. pose proof (rely_later _ _ R3) as L3.
  apply (later_anchor g2 g3 a n L3) in En. wp_local.
  assert (L3' : later g g3) by (apply (dlater_trans g g1); [done|by apply (dlater_trans g1 g2); [apply rely_later|]]).
  apply (wp_mono B t _ (fun _ g4 l4 => later g g4 /\ public_anchor g4 a n /\ lok l4)).
  - intros _ g4 l4 (L4 & En4 & Hl4). wp_local. apply wp_reload; [done|]. intros cur g5 L5 I5 _.
    assert (L5' : later g g5) by by apply (dlater_trans g g4).
    destruct (Z.eqb_spec a cur) as [<-|_]; wp_locals; [|by exists 0%nat].
    apply (HQ a n); try done. by apply (later_anchor g4 g5).
  - destruct (Z.eqb_spec (state n) STATE_STABLE) as [Es|Es]; cbn [negb]; [by wp_locals|].
    apply (wp_stabilize a n i); try done. intros g4 l4 L4 Hl4. split; [by apply (dlater_trans g g3)|]. split; [by apply (later_anchor g3 g4)|done].
Qed.

Lemma wp_deque_size i (Q : Z -> St -> Lo -> Prop) g l :
  0 <= i < w -> lok l -> (forall (sz : Z) g' l', later g g' -> lok l' -> Q sz g' l') -> wp B t (deque_size i) Q g l.
Proof.
  intros Hi Hl HQ. unfold deque_size. apply (wp_while B t _ _ _ _ (fun _ _ g' l' => later g g' /\ lok l') 0%nat); [by split|].
  intros m [] g1 l1 [L1 Hl1]. wp_local. apply wp_size_anchor; [done..|]. intros a n g2 l2 L2 I2 Hl2 En. wp_local.
  apply (wp_load_anchor WP cok w B t a n); [done|]. intros g3 R3 I3. pose proof (rely_later _ _ R3) as L3. wp_local.
  apply (later_anchor g2 g3 a n L3) in En. destruct (anchor_ends g3 a n I3 En) as (_ & Hpub & _). unfold size_walk.
  assert (L3' : later g g3) by (apply (dlater_trans g g1); [done|by apply (dlater_trans g1 g2)]).
  apply (wp_while B t _ _ _ _ (fun _ x g' l' => l' = l2 /\ later g g' /\ (x.1 = 0 \/ public_node g' x.1)) 0%nat).
  { split; [done|split; [done|]]. cbn [fst]. destruct (decide (aleft n = 0)) as [|Hn]; [by left|right]. by apply (Hpub Left). }
  intros m' [p sz] g4 l4 (-> & L4 & Hp). cbn [fst] in Hp. destruct (Z.eqb_spec p 0) as [|Hp0]; cbn [negb]; [wp_locals; by apply HQ|].
  destruct Hp as [?|Hp]; [done|]. wp_local. apply wp_reload; [done|]. intros cur g5 L5 I5 _.
  assert (L5' : later g g5) by by apply (dlater_trans g g4).
  destruct (Z.eqb_spec a cur) as [_|_]; cbn [negb]; [|wp_locals; by exists 0%nat].
  destruct (aright n =? p); [wp_locals; by apply HQ|]. wp_local.
  apply (wp_load_link WP cok w B t Right); [by apply (dlater_node g4 g5)|]. intros nd g6 R6 I6 End. wp_locals.
  exists 0%nat. split; [done|split; [done|split; [apply (dlater_trans g g5); [done|by apply rely_later]|]]].
  cbn [fst]. apply (di_link _ _ _ (inv_of g6 I6) p nd Right End).
Qed.

Lemma wp_deque_size_2D (Q : Z -> St -> Lo -> Prop) g l :
  w < 2 ^ 31 -> lok l -> (forall (sz : Z) g' l', later g g' -> lok l' -> Q sz g' l') -> wp B t (deque_size_2D w) Q g l.
Proof.
  intros Hw Hl HQ. unfold deque_size_2D.
  apply (wp_while B t _ _ _ _ (fun _ x g' l' => later g g' /\ lok l' /\ 0 <= x.1 <= w) 0%nat).
  { split; [done|split; [done|]]. destruct Hl as [_ ? _]. cbn. lia. }
  intros m [i sz] g1 l1 (L1 & Hl1 & Hi). cbn [fst] in Hi. destruct (Z.ltb_spec i w) as [Hlt|]; [|wp_locals; by apply HQ].
  wp_local. apply wp_deque_size; [lia|done|]. intros n g2 l2 L2 Hl2. wp_locals. exists 0%nat.
  split; [done|split; [by apply (dlater_trans g g1)|split; [done|]]]. cbn [fst]. rewrite sign_small by (cbn; lia). lia.
Qed.

Lemma wp_exec_op done o (J := fun done g l => lok l /\ dexplains w done (mine g)) g l :
  w < 2 ^ 31 -> J done g l -> wp B t (exec_op w o) (fun r => J (done ++ [(o, r)])) g l.
Proof.
  intros Hw [Hl Hex]. destruct o as [s k v|s|]; cbn [exec_op].
  3: { apply wp_deque_size_2D; [done..|]. intros n g' l' L Hl'. split; [done|]. rewrite (later_mine g g' L). by constructor. }
  - apply wp_push; [done|]. intros i p g' l' Hi Hl' Hm. split; [done|]. rewrite Hm. by constructor.
  - apply wp_pop; [done|..].
    + intros g' l' Hl' Hm. split; [done|]. rewrite Hm. by constructor.
    + intros i p v g' l' Hi Hl' Hm. split; [done|]. rewrite Hm. by constructor.
Qed.
End runs.

(** ** Code that leaves the deques alone *)

Section quiet.
Context {W T C : Type} {AN : Allocator node_t} {AA : Allocator (anchor_t C)}.
Context (cok : Z -> list (nat * devent) -> C -> Prop) (tok : T -> Prop) (w : Z) (t : nat).
Notation B := (joint no_window (dprot cok w)).
Notation St := (shared W (deques C)).
Notation Lo := (tls (dlocal T)).
Notation later g g' := (drely t (subs g) (subs g')).
Notation lok := (local_ok tok w t).
Implicit Types (g : St) (l : Lo).

(** [p] may change the window and the thread's variables, but for [anchor_ptr]; its
    result has [R]. *)
Notation ptr l := (anchor_ptr (thread_Window l)).
Definition quiet {X} (p : prog St Lo X) (R : X -> Prop) : Prop :=
  forall (Q : X -> St -> Lo -> Prop) g l, lok l ->
    (forall x g' l', R x -> later g g' -> lok l' -> ptr l' = ptr l -> Q x g' l') -> wp B t p Q g l.

Lemma quiet_ret {X} (x : X) (R : X -> Prop) : R x -> quiet (Ret x) R.
Proof. intros Hx Q g l Hl HQ. wp_local. apply HQ; [done|apply (drely_refl cok w)|done|done]. Qed.

Lemma quiet_bind {X Y} (p : prog St Lo X) (k : X -> prog St Lo Y) R R' :
  quiet p R -> (forall x, R x -> quiet (k x) R') -> quiet (bind p k) R'.
Proof.
  intros Hp Hk Q g l Hl HQ. wp_local. apply Hp; [done|]. intros x g1 l1 Hx L1 Hl1 E1. apply (Hk x Hx); [done|].
  intros y g2 l2 Hy L2 Hl2 E2. apply HQ; [done| |done|congruence]. by apply (drely_trans cok w t _ (subs g1)).
Qed.

Lemma quiet_get {X} (f : Lo -> X) (R : X -> Prop) : (forall l, lok l -> R (f l)) -> quiet (get f) R.
Proof. intros Hf Q g l Hl HQ. wp_local. apply HQ; [by apply Hf|apply (drely_refl cok w)|done|done]. Qed.
Lemma quiet_put f : (forall l, lok l -> lok (f l)) -> (forall l, ptr (f l) = ptr l) -> quiet (put f) (fun _ => True).
Proof. intros Hf Hp Q g l Hl HQ. wp_local. apply HQ; [done|apply (drely_refl cok w)|by apply Hf|apply Hp]. Qed.
Lemma quiet_load {X} (f : W -> X) : quiet (load_var (fun g => f (window g))) (fun _ => True).
Proof. intros Q g l Hl HQ. apply wp_load_var; [apply _|]. intros g1 [_ R] _ _. by apply HQ. Qed.

Lemma quiet_act {X} (f : St -> Lo -> option (X * St * Lo)) :
  (forall g l, lok l -> exists x g' l', f g l = Some (x, g', l') /\ subs g' = subs g /\ lok l' /\ ptr l' = ptr l) ->
  quiet (Act f Ret) (fun _ => True).
Proof.
  intros Hf Q g l Hl HQ g1 [_ R] [_ I] _. destruct (Hf g1 l Hl) as (x & g2 & l2 & E & Es & Hl2 & Ep). rewrite E.
  split; [split; [done|rewrite Es; apply guar_refl]|split; [split; [done|by rewrite Es]|]]. apply HQ; [done|by rewrite Es|done|done].
Qed.

Lemma quiet_random : 1 <= w < 2 ^ 31 -> quiet (Shared.random_index 64 w) (fun r => 0 <= r < w).
Proof.
  intros Hw Q g l Hl HQ. apply wp_shared_random; [lia|]. intros r s Hr. apply HQ; [done|apply (drely_refl cok w)| |done].
  by destruct Hl.
Qed.

Lemma quiet_any {X} (p : prog St Lo X) (R : X -> Prop) : quiet p R -> quiet p (fun _ => True).
Proof. intros Hp Q g l Hl HQ. apply Hp; [done|]. intros x g' l' _. by apply HQ. Qed.
End quiet.

(** The updates that keep the thread's variables well-formed. *)
Section local_ok.
Context {T : Type} (tok : T -> Prop) (w : Z) (t : nat).
Implicit Types (l : tls (dlocal T)).
Lemma lok_anchor l a : local_ok tok w t l -> local_ok tok w t (set_thread_Window (set_anchor_ptr a (thread_Window l)) l).
Proof. by intros []. Qed.
Lemma lok_empty l v : local_ok tok w t l -> local_ok tok w t (set_thread_Window (set_empty_check v (thread_Window l)) l).
Proof. by intros []. Qed.
Lemma lok_notempty l v : local_ok tok w t l -> local_ok tok w t (set_thread_Window (set_notempty v (thread_Window l)) l).
Proof. by intros []. Qed.
Lemma lok_windows l v : tok v -> local_ok tok w t l -> local_ok tok w t (set_thread_Window (set_windows v (thread_Window l)) l).
Proof. by intros Hv []. Qed.
Lemma lok_index l i : 0 <= i < w -> local_ok tok w t l -> local_ok tok w t (set_thread_index i l).
Proof. by intros Hi []. Qed.
Lemma lok_count l f : local_ok tok w t l -> local_ok tok w t (count_stat f l).
Proof. by intros []. Qed.
End local_ok.

(** Straight-line code. *)
Ltac quiet_step :=
  match goal with
  | |- quiet _ _ _ _ (bind _ _) _ => apply (quiet_bind _ _ _ _ _ _ (fun _ => True)); [|intros ? _]
  | |- quiet _ _ _ _ (Ret _) _ => by apply quiet_ret
  | |- quiet _ _ _ _ (continue _) _ => by apply quiet_ret
  | |- quiet _ _ _ _ (break _) _ => by apply quiet_ret
  | |- quiet _ _ _ _ (get _) _ => by apply quiet_get
  | |- quiet _ _ _ _ (my _) _ => by apply quiet_get
  | |- quiet _ _ _ _ (upd _) _ => apply quiet_put; [auto with deques|done]
  | |- quiet _ _ _ _ (put _) _ => apply quiet_put; [auto with deques|done]
  | |- quiet _ _ _ _ (load_var _) _ => apply quiet_load
  | |- quiet _ _ _ _ (if ?b then _ else _) _ => destruct b
  end.

#[export] Hint Resolve lok_anchor lok_empty lok_notempty lok_windows lok_index lok_count : deques.

(** ** Whole executions *)

Section executions.
Context {W T C : Type} {AN : Allocator node_t} {AA : Allocator (anchor_t C)} {cs : Counts C} {ws : Windows W T C}.
Context (WP : protocol W) {wlaws : ProtocolLaws WP} (cok : Z -> list (nat * devent) -> C -> Prop) {cl : CountsOk C cok}.
Context (tok : T -> Prop) (w : Z) {wok : WindowsOk WP cok tok w} (Hok : forall g, p_inv WP g -> p_ok WP g) (Hw : w < 2 ^ 31).

Lemma deques_replayed s : deques_inv cok w s -> replayed cok w s.
Proof.
  intros HI. split.
  - apply HI.
  - intros i. apply HI.
  - intros i y Hy. destruct (di_elem _ _ _ HI i y Hy) as (nd & [E _]%pub_lookup & Ev). by exists nd.
  - intros i Hi. assert (Hlt : (Z.to_nat i < length (anchors s))%nat) by (pose proof (di_len _ _ _ HI); lia).
    apply lookup_lt_is_Some_2 in Hlt as [a Ea]. destruct (di_cur _ _ _ HI i a (proj1 Hi) Ea) as (_ & n & En & Hat & Hc).
    exists a, n. pose proof En as [E _]%pub_lookup. split; [done|split; [done|split; [done|]]]. intros sd. split; [apply Hat|].
    intros Hst. pose proof (aa_links _ _ _ _ Hat) as Hl. rewrite Hst in Hl. apply (links_stable _ _ sd) in Hl as [Hl _].
    eapply follows_subset; [|exact Hl]. intros p nd _ [Ep _]%pub_lookup. by exists nd.
Qed.

Lemma deques_run init g0 opss ls schedule :
  p_inv (joint WP (dprot cok w)) g0 -> dhist (subs g0) = [] ->
  (forall i l, ls !! i = Some l ->
     wp (joint WP (dprot cok w)) i init (fun _ g' l' => g' = g0 /\ local_ok tok w i l') g0 l) ->
  let final := exec (mkCfg g0 (clients_from (exec_op w) init opss ls)) schedule in
  ~ faulty final /\ replayed cok w (subs (mem final)) /\
  (forall i rs l os, pool final !! i = Some (Ret rs, l) -> opss !! i = Some os ->
     length rs = length os /\ dexplains w (zip os rs) (devents_of i (dhist (subs (mem final))))).
Proof.
  intros HI Hh Hls final.
  destruct (clients_soundness_along (exec_op w) (joint WP (dprot cok w)) (fun _ => True)
    (fun t done g l => local_ok tok w t l /\ dexplains w done (devents_of t (dhist (subs g))))
    (fun _ => 0) 0 0 init (fun _ => True) g0 opss ls schedule) as (HI' & HF & HQ); try done.
  - intros t done o g l _ H. by apply (wp_exec_op WP cok tok w t done o g l Hw).
  - intros g [? ?] _ _. split; [by apply Hok|done].
  - lia.
  - intros i l Hl. eapply wp_mono; [|by apply Hls]. intros [] g' l' [-> Hl']. split; [done|]. rewrite Hh. constructor.
  - rewrite Forall_forall. intros os _. by apply Forall_true.
  - split; [done|split; [apply deques_replayed, HI'|]]. intros i rs l os Hp Ho.
    destruct (HQ i rs l os Hp Ho) as (Hlen & g1 & R1 & _ & Hex). split; [done|].
    apply (rely_deques WP cok w (joint WP (dprot cok w)) i) in R1 as [_ _ _ Hm]. rewrite <- Hm in Hex. exact Hex.
Qed.
End executions.

(** The deques that [create_deque] leaves. *)
Lemma create_anchors_ok {C} {AA : Allocator (anchor_t C)} (junk : Z -> C) n ptrs m :
  create_anchors junk n = (ptrs, m) ->
  length ptrs = n /\ NoDup ptrs /\ m !! 0 = None /\ (forall a, a ∈ ptrs <-> is_Some (m !! a)) /\
  forall i a, ptrs !! i = Some a -> m !! a = Some (mkAnchor STATE_STABLE 0 0 (junk (Z.of_nat i))).
Proof.
  revert ptrs m. induction n as [|n IH]; cbn [create_anchors]; intros ptrs m.
  - intros [= <- <-]. split; [done|split; [constructor|split; [done|split; [|done]]]]. intros a.
    rewrite lookup_empty. split; [by intros ?%elem_of_nil|by intros [? ?]].
  - destruct (create_anchors junk n) as [ptrs' m'] eqn:E. destruct (IH _ _ eq_refl) as (Hlen & Hnd & H0 & Hin & Hat).
    destruct (alloc_addr_ok m') as [Ha Hfresh]. set (a := alloc_addr m') in *. intros [= <- <-].
    assert (Hnin : a ∉ ptrs') by (rewrite Hin, Hfresh; by intros [? ?]).
    split; [|split; [|split; [|split]]].
    + rewrite length_app. cbn. lia.
    + apply NoDup_app. split; [done|split; [|by apply NoDup_singleton]]. set_solver.
    + by rewrite lookup_insert_ne.
    + intros b. rewrite lookup_insert_is_Some', <- Hin. set_solver.
    + intros i b Hb. apply lookup_app_Some in Hb as [Hb|[Hi Hb]].
      * rewrite lookup_insert_ne; [by apply Hat|]. intros <-. apply Hnin. by apply list_elem_of_lookup_2 in Hb.
      * apply list_lookup_singleton_Some in Hb as [Hi' <-]. rewrite lookup_insert_eq. do 3 f_equal. lia.
Qed.

Lemma empty_deques_inv {C} {AA : Allocator (anchor_t C)} cok (junk : Z -> C) w :
  0 <= w -> (forall i, 0 <= i < w -> cok i [] (junk i)) -> deques_inv cok w (empty_deques junk w).
Proof.
  intros Hw Hc. unfold empty_deques. destruct (create_anchors junk (Z.to_nat w)) as [ptrs m] eqn:E.
  destruct (create_anchors_ok junk _ ptrs m E) as (Hlen & Hnd & H0 & Hin & Hat).
  assert (Hpub : forall a n, pub (mkMem m ∅) !! a = Some n <-> m !! a = Some n) by (intros a n; rewrite pub_lookup; cbn; tauto).
  assert (Hval : forall a n, m !! a = Some n -> exists c, n = mkAnchor STATE_STABLE 0 0 c).
  { intros a n Ea. assert (Ha : a ∈ ptrs) by (apply Hin; by exists n). apply list_elem_of_lookup in Ha as [i Ha].
    apply Hat in Ha. exists (junk (Z.of_nat i)). congruence. }
  split; cbn [anchors aheap nheap dhist retired past]; try done.
  - rewrite Hlen. lia.
  - intros a n sd Ea%Hpub. apply Hval in Ea as [c ->]. left. by destruct sd.
  - intros a n Ea%Hpub. apply Hval in Ea as [c ->]. split; [done|by left].
  - intros i a Hi Ea. split; [apply not_elem_of_nil|]. pose proof (lookup_lt_Some _ _ _ Ea) as Hlt.
    exists (mkAnchor STATE_STABLE 0 0 (junk i)). apply Hat in Ea. rewrite Z2Nat.id in Ea by done.
    split; [by apply Hpub|split; [|apply Hc; lia]]. apply anchor_single; [done|cbn; lia|by intros []].
  - intros a Ha. by apply elem_of_nil in Ha.
  - intros i j a Hi Hj E1 E2. assert (Z.to_nat i = Z.to_nat j); [by eapply NoDup_lookup|lia].
  - intros i. constructor.
  - intros i j p Hp. by apply elem_of_nil in Hp.
  - intros i y Hy. by apply elem_of_nil in Hy.
  - intros sd p v Hp. by apply elem_of_nil in Hp.
Qed.

Lemma empty_deques_hist {C} {AA : Allocator (anchor_t C)} (junk : Z -> C) w : dhist (empty_deques junk w) = [].
Proof. unfold empty_deques. by destruct (create_anchors junk (Z.to_nat w)). Qed.
