(* ===== verification/Deque2Dc.v ===== *)
(** src/2Dc-deque: the relaxed deque whose anchors count their elements and whose
    single window bounds the counts (2Dc-window_maged.c), with its [create_deque],
    and whole executions of it. *)
From S2P Require Import Prelude Conc Random Thread StackHeap Shared SubDeques Deques DequeRuns.

(** ** Data *)

Record window_t := mkWindow { max : Z; version : Z }.
#[export] Instance window_eq_dec : EqDecision window_t.
Proof. solve_decision. Defined.

(** The global variables that nothing changes after [create_deque]. *)
Record conf := mkConf { width : Z; depth : Z; shift_up : Z; shift_down : Z; relaxation_bound : Z }.

(** An anchor's [count], a [uint64_t]. *)
#[export] Instance count_counts : Counts Z :=
  {| zero_counts := 0;
     put_count := fun _ c => u64 (c + 1);
     get_count := fun _ c => u64 (c - 1) |}.

(** ** The window *)

Section code.
Context {AN : Allocator node_t} {AA : Allocator (anchor_t Z)} (set : conf).
Notation state := (shared window_t (deques Z)).
Notation local := (tls (dlocal window_t)).
Notation MD := (prog state local).

(** [memcpy(&thread_Window->max, &global_Window->max, sizeof(uint128_t))]. *)
Definition copy_window : MD unit :=
  let* m := load_var (fun g => max (window g)) in
  let* v := load_var (fun g => version (window g)) in
  upd (set_windows (mkWindow m v)).

(** [thread_Window->version == global_Window->version]. *)
Definition same_version : MD bool :=
  let* tv := my (fun d => version (windows d)) in
  let* gv := load_var (fun g => version (window g)) in
  Ret (tv =? gv).

(** [CAE(global_Window, thread_Window, new_window)]: a failing one loads the window. *)
Definition cae_window (new_window : window_t) : MD bool :=
  Act (fun g l =>
    let d := thread_Window l in
    if decide (window g = windows d) then Some (true, set_window new_window g, l)
    else Some (false, g, set_thread_Window (set_windows (window g) d) l)) Ret.

(** [new_window] is the thread's window moved by [shift]. *)
Definition shift_window (shift : Z) : MD unit :=
  let* w := my windows in
  let* ok := cae_window (mkWindow (u64 (max w + shift)) (u64 (version w + 1))) in
  if (ok : bool) then put (count_stat inc_slide) else Ret tt.

(** [random_index]. *)
Definition random_index : MD Z := Shared.random_index 64 (width set).

(** The statement [thread_index==random_index();] draws an index and compares. *)
Definition contended : MD unit :=
  let* c := my contention in
  if c =? 1 then
    let* _ := random_index in put (count_stat inc_hop)
  else Ret tt.

Definition enter_window : MD unit :=
  contended ;;;
  let* same := same_version in
  if negb (same : bool) then copy_window else Ret tt.

(** "change index (hop)". *)
Definition change_index (hops random : Z) : MD (Z * Z) :=
  if random <? 2 then
    let* i := random_index in
    put (set_thread_index i) ;;;
    put (count_stat inc_hop) ;;;
    Ret (hops, i32 (random + 1))
  else
    let* i := get thread_index in
    put (set_thread_index (if i =? i32 (width set - 1) then 0 else i32 (i + 1))) ;;;
    Ret (i32 (hops + 1), random).

Definition put_window_body '((hops, random) : Z * Z) : MD (Z * Z + unit) :=
  let* hops :=
    (if hops =? width set then
       let* same := same_version in
       (if (same : bool) then shift_window (shift_up set) else Ret tt) ;;;
       copy_window ;;; Ret 0
     else Ret hops) in
  let* n := read_anchor in
  let* gmax := load_var (fun g => max (window g)) in
  if counts n <? gmax then break tt
  else
    let* same := same_version in
    if (same : bool) then
      let* (hops, random) := change_index hops random in
      put (count_stat inc_hop) ;;;
      continue (hops, random)
    else copy_window ;;; continue (0, random).

(** [window_put]. *)
Definition put_window : MD unit :=
  upd (set_anchor_ptr 0) ;;;
  enter_window ;;;
  while put_window_body (0, 0).

Definition get_window_body '((hops, random) : Z * Z) : MD (Z * Z + unit) :=
  let* shifted :=
    (if hops =? width set then
       let* notempty := my notempty in
       if notempty =? 0 then upd (set_empty_check 1) ;;; Ret None
       else
         let* same := same_version in
         (if (same : bool) then shift_window (- shift_down set) else Ret tt) ;;;
         copy_window ;;;
         upd (set_notempty 0) ;;; Ret (Some 0)
     else Ret (Some hops)) in
  match shifted with
  | None => break tt
  | Some hops =>
      let* n := read_anchor in
      let* gmax := load_var (fun g => max (window g)) in
      if (u64 (gmax - depth set) <? counts n) && negb (aleft n =? 0) then break tt
      else
        let* same := same_version in
        if (same : bool) then
          let* (hops, random) := change_index hops random in
          let* a := my anchor_ptr in
          (if negb (a =? 0) && negb (aleft n =? 0) then upd (set_notempty 1) else Ret tt) ;;;
          put (count_stat inc_hop) ;;;
          continue (hops, random)
        else
          copy_window ;;;
          upd (set_notempty 0) ;;;
          continue (0, random)
  end.

(** [window_get]. *)
Definition get_window : MD unit :=
  upd (set_empty_check 0) ;;;
  upd (set_anchor_ptr 0) ;;;
  upd (set_notempty 0) ;;;
  enter_window ;;;
  while get_window_body (0, 0).

(** Both sides use the one window.  [pop_right] counts its failures as those of a push. *)
#[export] Instance windows_2Dc : Windows window_t window_t Z :=
  {| window_put := fun _ => put_window;
     window_get := fun _ => get_window;
     inc_pop_fail := fun s => match s with Left => inc_get_cas_fail | Right => inc_put_cas_fail end |}.
End code.

(** ** Creation *)

(** [create_deque]; [None]: signed overflow.  [junk] is what the memory of the first
    anchors' counts holds, which are not initialised. *)
Definition create_deque {AA : Allocator (anchor_t Z)} (junk : Z -> Z) (width depth relaxation_bound : Z) :
    option (conf * shared window_t (deques Z)) :=
  '(width, depth, relaxation_bound) ← deque_params width depth relaxation_bound;
  let shift := if 2 <=? depth then Z.quot depth 2 else 1 in
  Some (mkConf width depth shift shift relaxation_bound,
    mkShared (mkWindow (u64 depth) 1) (empty_deques junk width)).

(** [thread_init]. *)
Definition thread_init (set : conf) (num_threads : Z) : prog (shared window_t (deques Z)) (tls (dlocal window_t)) unit :=
  put (fun l => set_thread_Window (set_windows (mkWindow (u64 (depth set)) 0) (thread_Window l)) l) ;;;
  Loc (fun l => i ← start_index (Z.of_nat (thread_id l)) (width set) num_threads; Some (tt, set_thread_index i l)) Ret.

(** ** Among other threads *)

Definition conf_ok (set : conf) : Prop := 1 <= width set < 2 ^ 31.

(** The count of an anchor: what was there first and the number of elements. *)
Definition count_ok (junk : Z -> Z) (i : Z) (h : list (nat * devent)) (c : Z) : Prop :=
  c = u64 (junk i + Z.of_nat (length (elems i h))).

#[export] Instance count_counts_ok junk : CountsOk Z (count_ok junk).
Proof.
  split; unfold count_ok.
  - intros i t e h c Hne ->. cbn [elems]. by rewrite decide_False.
  - intros i t s x h c ->. cbn [elems dindex put_count count_counts applies]. rewrite decide_True by done.
    rewrite view_length. cbn [length]. rewrite view_length. unfold wrap. rewrite Zplus_mod_idemp_l. f_equal. lia.
  - intros i t s x h c Hh ->. cbn [elems dindex get_count count_counts applies]. rewrite decide_True by done.
    rewrite view_length. pose proof (view_length s (elems i h)) as Hl. destruct (view s (elems i h)) as [|y r]; [done|].
    cbn [tail length] in *. unfold wrap. rewrite Zminus_mod_idemp_l. f_equal. lia.
Qed.

Section among.
Context {AN : Allocator node_t} {AA : Allocator (anchor_t Z)} (set : conf) (Hset : conf_ok set) (junk : Z -> Z) (t : nat).
Notation B := (joint no_window (dprot (count_ok junk) (width set))).
Notation St := (shared window_t (deques Z)).
Notation Lo := (tls (dlocal window_t)).
Notation later g g' := (drely t (subs g) (subs g')).
Notation lok := (local_ok (fun _ : window_t => True) (width set) t).
Implicit Types (g : St) (l : Lo).

Notation quiet p R := (quiet (count_ok junk) (fun _ : window_t => True) (width set) t p R).

Lemma quiet_copy_window : quiet copy_window (fun _ => True).
Proof. unfold copy_window. repeat quiet_step. Qed.
Lemma quiet_same_version : quiet same_version (fun _ => True).
Proof. unfold same_version. repeat quiet_step. Qed.

Lemma quiet_cae_window v : quiet (cae_window v) (fun _ => True).
Proof.
  apply quiet_act. intros g l Hl. cbv zeta. case_decide; [by eauto 10|].
  do 3 eexists. split; [done|split; [done|split; [auto with deques|done]]].
Qed.

Lemma quiet_shift_window d : quiet (shift_window d) (fun _ => True).
Proof. unfold shift_window. quiet_step; [quiet_step|]. quiet_step; [apply quiet_cae_window|]. repeat quiet_step. Qed.

Lemma quiet_random_index : quiet (random_index set) (fun i => 0 <= i < width set).
Proof. by apply quiet_random. Qed.

Lemma quiet_contended : quiet (contended set) (fun _ => True).
Proof.
  unfold contended. quiet_step; [quiet_step|]. quiet_step; [|quiet_step].
  eapply quiet_bind; [apply quiet_random_index|intros i _; quiet_step].
Qed.

Lemma quiet_enter_window : quiet (enter_window set) (fun _ => True).
Proof.
  unfold enter_window. quiet_step; [apply quiet_contended|]. quiet_step; [apply quiet_same_version|].
  quiet_step; [apply quiet_copy_window|quiet_step].
Qed.

Lemma quiet_change_index hops random : quiet (change_index set hops random) (fun _ => True).
Proof.
  unfold change_index. quiet_step.
  - eapply quiet_bind; [apply quiet_random_index|intros i Hi; repeat quiet_step].
  - apply (quiet_bind _ _ _ _ _ _ (fun i => 0 <= i < width set)); [apply quiet_get; by intros l []|]. intros i Hi.
    assert (Hnext : 0 <= (if i =? i32 (width set - 1) then 0 else i32 (i + 1)) < width set).
    { unfold conf_ok in Hset. rewrite (sign_small 32 (width set - 1)) by (cbn; lia).
      destruct (Z.eqb_spec i (width set - 1)); [lia|]. rewrite sign_small by (cbn; lia). lia. }
    repeat quiet_step.
Qed.

Lemma later_trans2 g1 g2 g3 : later g1 g2 -> later g2 g3 -> later g1 g3.
Proof. apply (drely_trans (count_ok junk) (width set) t). Qed.

(** The anchor that was read, and the window's limit. *)
Lemma wp_look (Q : anchor_t Z -> Z -> prog St Lo (Z * Z + unit)) (Q' : Z * Z + unit -> St -> Lo -> Prop) g l :
  lok l ->
  (forall n gmax g' l', later g g' -> lok l' -> public_anchor g' (anchor_ptr (thread_Window l')) n -> wp B t (Q n gmax) Q' g' l') ->
  wp B t (let* n := read_anchor in let* gmax := load_var (fun g => max (window g)) in Q n gmax) Q' g l.
Proof.
  intros Hl HQ. wp_local. apply (wp_read_anchor no_window (count_ok junk) (fun _ => True) (width set) t); [done|].
  intros a n g1 l1 L1 Hl1 E1 En. wp_local. apply wp_load_var; [apply _|]. intros g2 [_ L2] _ _. cbn [p_rely dprot] in L2.
  apply HQ; [by apply (later_trans2 g g1)|done|]. subst l1. by apply (later_anchor t g1 g2 a n L2).
Qed.

(** A change of the index or of the thread's window, and the next iteration. *)
Definition next {X} (x : Z * Z + X) : Prop := exists y, x = inl y.

Lemma wp_put_window_body x (Q : Z * Z + unit -> St -> Lo -> Prop) g l :
  lok l ->
  (forall y g' l', later g g' -> lok l' -> Q (inl y) g' l') ->
  (forall n g' l', later g g' -> lok l' -> public_anchor g' (anchor_ptr (thread_Window l')) n -> Q (inr tt) g' l') ->
  wp B t (put_window_body set x) Q g l.
Proof.
  destruct x as [hops random]. intros Hl Hagain Hdone. unfold put_window_body. wp_local.
  assert (H1 : quiet (if hops =? width set then
       let* same := same_version in
       (if (same : bool) then shift_window (shift_up set) else Ret tt) ;;; copy_window ;;; Ret 0
     else Ret hops) (fun _ => True)).
  { quiet_step; [|quiet_step]. quiet_step; [apply quiet_same_version|]. quiet_step; [quiet_step; [apply quiet_shift_window|quiet_step]|].
    quiet_step; [apply quiet_copy_window|quiet_step]. }
  apply H1; [done|]. clear H1. intros hops' g1 l1 _ L1 Hl1 _.
  apply wp_look; [done|]. intros n gmax g2 l2 L2 Hl2 En.
  assert (L2' : later g g2) by by apply (later_trans2 g g1).
  destruct (counts n <? gmax); [wp_locals; by apply (Hdone n)|].
  assert (H2 : quiet (let* same := same_version in
      if (same : bool) then
        let* (hops, random) := change_index set hops' random in put (count_stat inc_hop) ;;; continue (hops, random)
      else copy_window ;;; continue (0, random) : prog _ _ (Z * Z + unit)) next).
  { quiet_step; [apply quiet_same_version|]. quiet_step.
    - quiet_step; [apply quiet_change_index|]. destruct x as [h r]. quiet_step; [quiet_step|]. apply quiet_ret. by eexists.
    - quiet_step; [apply quiet_copy_window|]. apply quiet_ret. by eexists. }
  apply H2; [done|]. intros x' g4 l4 [y ->] L4 Hl4 _. apply Hagain; [|done]. by apply (later_trans2 g g2).
Qed.

Lemma wp_get_window_body x (Q : Z * Z + unit -> St -> Lo -> Prop) g l :
  lok l ->
  (forall y g' l', later g g' -> lok l' -> Q (inl y) g' l') ->
  (forall g' l', later g g' -> lok l' ->
     (empty_check (thread_Window l') <> 1 -> exists n, public_anchor g' (anchor_ptr (thread_Window l')) n /\ aleft n <> 0) ->
     Q (inr tt) g' l') ->
  wp B t (get_window_body set x) Q g l.
Proof.
  destruct x as [hops random]. intros Hl Hagain Hdone. unfold get_window_body. wp_local.
  apply (wp_mono B t _ (fun r g1 l1 => later g g1 /\ lok l1 /\ (r = None -> empty_check (thread_Window l1) = 1))).
  - intros [hops'|] g1 l1 (L1 & Hl1 & He); [|wp_locals; apply Hdone; [done..|]; intros []; by apply He].
    apply wp_look; [done|]. intros n gmax g2 l2 L2 Hl2 En.
    assert (L2' : later g g2) by by apply (later_trans2 g g1).
    destruct ((u64 (gmax - depth set) <? counts n) && negb (aleft n =? 0)) eqn:E.
    + wp_locals. apply andb_prop in E as [_ E]. destruct (Z.eqb_spec (aleft n) 0) as [|Hne]; [done|].
      apply Hdone; [done..|]. intros _. by exists n.
    + assert (H2 : quiet (let* same := same_version in
        if (same : bool) then
          let* (hops, random) := change_index set hops' random in
          let* a := my anchor_ptr in
          (if negb (a =? 0) && negb (aleft n =? 0) then upd (set_notempty 1) else Ret tt) ;;;
          put (count_stat inc_hop) ;;; continue (hops, random)
        else copy_window ;;; upd (set_notempty 0) ;;; continue (0, random) : prog _ _ (Z * Z + unit)) next).
      { quiet_step; [apply quiet_same_version|]. quiet_step.
        - quiet_step; [apply quiet_change_index|]. destruct x as [h r]. repeat quiet_step. apply quiet_ret. by eexists.
        - quiet_step; [apply quiet_copy_window|]. quiet_step; [quiet_step|]. apply quiet_ret. by eexists. }
      apply H2; [done|]. intros x' g4 l4 [y ->] L4 Hl4 _. apply Hagain; [|done]. by apply (later_trans2 g g2).
  - destruct (hops =? width set); [|wp_locals; split; [apply (drely_refl (count_ok junk) (width set))|done]].
    wp_local. unfold my. wp_locals. destruct (notempty (thread_Window l) =? 0).
    + wp_local. unfold upd. wp_locals. split; [apply (drely_refl (count_ok junk) (width set))|split; [auto with deques|done]].
    + assert (H1 : quiet (let* same := same_version in
          (if (same : bool) then shift_window (- shift_down set) else Ret tt) ;;;
          copy_window ;;; upd (set_notempty 0) ;;; Ret (Some 0)) (fun r => r = Some 0)).
      { quiet_step; [apply quiet_same_version|]. quiet_step; [quiet_step; [apply quiet_shift_window|quiet_step]|].
        quiet_step; [apply quiet_copy_window|]. quiet_step; [quiet_step|]. by apply quiet_ret. }
      apply H1; [done|]. by intros r g1 l1 -> L1 Hl1 _.
Qed.
End among.

#[export] Instance windows_2Dc_ok {AN : Allocator node_t} {AA : Allocator (anchor_t Z)} set junk :
  conf_ok set -> WindowsOk (ws := windows_2Dc set) no_window (count_ok junk) (fun _ => True) (width set).
Proof.
  intros Hset. split; cbn [window_put window_get windows_2Dc]; intros t s Q g l Hl HQ.
  - unfold put_window. wp_local. unfold upd. wp_locals.
    apply (quiet_enter_window set Hset junk t); [auto with deques|]. intros [] g1 l1 _ L1 Hl1 _.
    apply (wp_while _ t _ _ _ _ (fun _ _ g' l' => drely t (subs g) (subs g') /\ local_ok (fun _ => True) (width set) t l') 0%nat); [done|].
    intros m x g2 l2 [L2 Hl2]. apply (wp_put_window_body set Hset junk t); [done| |].
    + intros y g3 l3 L3 Hl3. exists 0%nat. split; [done|split; [|done]]. by apply (later_trans2 set junk t g g2).
    + intros n g3 l3 L3 Hl3 En. wp_locals. apply (HQ n); [|done|done]. by apply (later_trans2 set junk t g g2).
  - unfold get_window. wp_local. unfold upd. wp_locals.
    apply (quiet_enter_window set Hset junk t); [auto with deques|]. intros [] g1 l1 _ L1 Hl1 _.
    apply (wp_while _ t _ _ _ _ (fun _ _ g' l' => drely t (subs g) (subs g') /\ local_ok (fun _ => True) (width set) t l') 0%nat); [done|].
    intros m x g2 l2 [L2 Hl2]. apply (wp_get_window_body set Hset junk t); [done| |].
    + intros y g3 l3 L3 Hl3. exists 0%nat. split; [done|split; [|done]]. by apply (later_trans2 set junk t g g2).
    + intros g3 l3 L3 Hl3 En. wp_locals. apply HQ; [|done|done]. by apply (later_trans2 set junk t g g2).
Qed.

Lemma create_deque_ok {AA : Allocator (anchor_t Z)} junk wd dp rb set g :
  create_deque junk wd dp rb = Some (set, g) -> rb < 2 ^ 31 -> (forall i, 0 <= junk i < 2 ^ 64) ->
  conf_ok set /\ deques_inv (count_ok junk) (width set) (subs g) /\ dhist (subs g) = [].
Proof.
  unfold create_deque. intros Hc Hrb Hj. destruct (deque_params wd dp rb) as [[[w d] k]|] eqn:E; [|done].
  apply deque_params_ok in E as (Hw & Hd & Hk); [|done]. injection Hc as <- <-. cbn [width subs].
  split; [done|split; [|apply empty_deques_hist]]. apply empty_deques_inv; [lia|]. intros i Hi.
  unfold count_ok. cbn [elems length]. rewrite wrap_small; [lia|]. specialize (Hj i). lia.
Qed.

Lemma thread_init_ok set n t (P : protocol (shared window_t (deques Z))) g l :
  conf_ok set -> 0 <= Z.of_nat t < n -> thread_id l = t ->
  wp P t (thread_init set n) (fun _ g' l' => g' = g /\ local_ok (fun _ => True) (width set) t l' /\
    version (windows (thread_Window l')) = 0) g l.
Proof.
  intros Hset Hn Ht. unfold thread_init. wp_locals. cbn [wp]. rewrite <- Ht in Hn.
  destruct (start_index_ok (Z.of_nat (thread_id l)) (width set) n Hn Hset) as (x & E & Hx). cbn [thread_id set_thread_Window].
  rewrite E. cbn. by split.
Qed.

(** C11. The 2Dc deque: in every interleaving of pushes, pops and sizes by any number of
    threads no access is invalid, each deque is a double-ended queue whose nodes and
    anchor hold what its events left, its count is that of its elements, nothing is
    lost or duplicated, and every finished thread's results are those of its own
    events in program order. *)
Theorem deque2dc_linearizable {AN : Allocator node_t} {AA : Allocator (anchor_t Z)} junk wd dp rb set g0 num_threads opss ls schedule :
  create_deque junk wd dp rb = Some (set, g0) -> rb < 2 ^ 31 -> (forall i, 0 <= junk i < 2 ^ 64) ->
  Z.of_nat (length ls) <= num_threads -> (forall i l, ls !! i = Some l -> thread_id l = i) ->
  let final := exec (mkCfg g0 (clients_from (exec_op (ws := windows_2Dc set) (width set)) (thread_init set num_threads) opss ls)) schedule in
  ~ faulty final /\ replayed (count_ok junk) (width set) (subs (mem final)) /\
  (forall i rs l os, pool final !! i = Some (Ret rs, l) -> opss !! i = Some os ->
     length rs = length os /\ dexplains (width set) (zip os rs) (devents_of i (dhist (subs (mem final))))).
Proof.
  intros Hc Hrb Hj Hn Hls. destruct (create_deque_ok junk wd dp rb set g0 Hc Hrb Hj) as (Hset & HI & Hh).
  pose proof (windows_2Dc_ok set junk Hset) as Hw.
  eapply (deques_run no_window (count_ok junk) (fun _ => True) (width set)); [done|apply Hset|by split|done|].
  intros i l Hl. eapply wp_mono; [|apply thread_init_ok; [done| |by apply Hls]].
  - by intros [] g' l' (-> & Hl' & _).
  - apply lookup_lt_Some in Hl. lia.
Qed.

(** *** An example: two threads, one step each in turn *)

#[local] Instance example_nodes : Allocator node_t := bump_allocator _.
#[local] Instance example_anchors : Allocator (anchor_t Z) := bump_allocator _.

Definition example_conf : conf := mkConf 2 2 1 1 6.
Definition example_mem : shared window_t (deques Z) := mkShared (mkWindow 2 1) (empty_deques (fun _ => 0) 2).
Definition example_ops : list (list dop) :=
  [[DoPush Left 1 10; DoPush Right 2 20; DoPop Left; DoSize]; [DoPush Right 3 30; DoPop Right; DoPop Left]].
Definition example_tls : list (tls (dlocal window_t)) := tls0 (dlocal0 (mkWindow 0 0)) <$> seq 0 2.
Definition example_schedule : list nat := mjoin (replicate 400 [0%nat; 1%nat]).
Notation example_final := (exec (mkCfg example_mem (clients_from (exec_op (ws := windows_2Dc example_conf) 2)
  (thread_init example_conf 2) example_ops example_tls)) example_schedule).

Lemma deque2dc_linearizable_witness :
  dexplains 2 [(DoPush Right 3 30, 1); (DoPop Right, 30); (DoPop Left, 20)] (devents_of 1 (dhist (subs (mem example_final)))).
Proof.
  refine (proj2 (proj2 (proj2 (deque2dc_linearizable (fun _ => 0) 2 1 6 example_conf example_mem 2 example_ops example_tls
    example_schedule eq_refl _ _ _ _)) 1%nat [1; 30; 20] _ [DoPush Right 3 30; DoPop Right; DoPop Left] _ _)).
  - reflexivity.
  - intros i. lia.
  - cbn. lia.
  - intros i l Hl. by apply tls0_lookup in Hl as ->.
  - vm_compute. reflexivity.
  - reflexivity.
Defined.
