(* ===== verification/Deque2Dd.v ===== *)
(** src/2Dd-deque: the relaxed deque whose anchors count the pushes and pops of each
    side, and whose four windows bound those counts (2Dd-window_maged.c), with its
    [create_deque], and whole executions of it. *)
From S2P Require Import Prelude Conc Random Thread StackHeap Shared SubDeques Deques DequeRuns.

(** ** Data *)

(** Something for each of the operations: put left, put right, get left, get right. *)
Record four (X : Type) := mkFour { PL : X; PR : X; GL : X; GR : X }.
Arguments mkFour {X}.
Arguments PL {X}.
Arguments PR {X}.
Arguments GL {X}.
Arguments GR {X}.

(** Which of them an operation is. *)
Definition sel {X} (put : bool) (s : side) (x : four X) : X :=
  match put, s with true, Left => PL x | true, Right => PR x | false, Left => GL x | false, Right => GR x end.
Definition upd4 {X} (put : bool) (s : side) (f : X -> X) (x : four X) : four X :=
  match put, s with
  | true, Left => mkFour (f (PL x)) (PR x) (GL x) (GR x)
  | true, Right => mkFour (PL x) (f (PR x)) (GL x) (GR x)
  | false, Left => mkFour (PL x) (PR x) (f (GL x)) (GR x)
  | false, Right => mkFour (PL x) (PR x) (GL x) (f (GR x))
  end.

(** An anchor's counts, [uint64_t] each. *)
#[export] Instance four_counts : Counts (four Z) :=
  {| zero_counts := mkFour 0 0 0 0;
     put_count := fun s c => upd4 true s (fun x => u64 (x + 1)) c;
     get_count := fun s c => upd4 false s (fun x => u64 (x + 1)) c |}.

(** The thread's copy of a window, the map of the counts that were too large for it,
    and how many there are.  The map's elements are [int]s. *)
Record window_t := mkWindow { max : Z; map_array : list Z; full : Z }.
Definition set_max (v : Z) (x : window_t) : window_t := mkWindow v (map_array x) (full x).
Definition set_map (v : list Z) (x : window_t) : window_t := mkWindow (max x) v (full x).
Definition set_full (v : Z) (x : window_t) : window_t := mkWindow (max x) (map_array x) v.

(** The global variables that nothing changes after [create_deque]. *)
Record conf := mkConf { width : Z; depth : Z; relaxation_bound : Z }.

(** ** The windows *)

Section code.
Context {AN : Allocator node_t} {AA : Allocator (anchor_t (four Z))} (set : conf).
Notation state := (shared (four Z) (deques (four Z))).
Notation local := (tls (dlocal (four window_t))).
Notation MD := (prog state local).

Section window.
(** The functions are four times the same, but for the names. *)
Context (put : bool) (s : side).

Definition mine {X} (f : window_t -> X) : MD X := my (fun d => f (sel put s (windows d))).
Definition upd_mine (f : window_t -> window_t) : MD unit := upd (fun d => set_windows (upd4 put s f (windows d)) d).
Definition load_global : MD Z := load_var (fun g => sel put s (window g)).

(** [if(contention) { thread_index==random_index(); ... }]: the index is not changed. *)
Definition random_index : MD Z := Shared.random_index 64 (width set).
Definition contended : MD unit :=
  let* c := my contention in
  if negb (c =? 0) then
    let* _ := random_index in Conc.put (count_stat inc_hop)
  else Ret tt.

(** [thread_Window->max = global_Window->max; full = 0]. *)
Definition copy_window : MD unit :=
  let* m := load_global in
  upd_mine (fun x => set_full 0 (set_max m x)).

Definition same_max : MD bool :=
  let* m := mine max in
  let* gm := load_global in
  Ret (m =? gm).

(** [CAS_BOOL(&global_Window->max, thread_Window->max, new_window->max)]. *)
Definition cas_window (old new : Z) : MD bool :=
  Act (fun g l =>
    if sel put s (window g) =? old then Some (true, set_window (upd4 put s (fun _ => new) (window g)) g, l)
    else Some (false, g, l)) Ret.

Definition shift_window : MD unit :=
  let* m := mine max in
  let* ok := cas_window m (u64 (m + depth set)) in
  if (ok : bool) then Conc.put (count_stat inc_slide) else Ret tt.

(** [Map_array[thread_index] < thread_Window->max], an [int] and a [uint64_t]. *)
Definition maybe_room : MD bool :=
  let* i := get thread_index in
  let* c := mine (fun x => map_array x !! Z.to_nat i) in
  match c with
  | Some c => let* m := mine max in Ret (u64 c <? m)
  | None => fail
  end.

(** [full+=1; Map_array[thread_index]=count]. *)
Definition mark_full (count : Z) : MD unit :=
  let* i := get thread_index in
  upd_mine (fun x => set_map (<[Z.to_nat i := i32 count]> (map_array x)) (set_full (i32 (full x + 1)) x)).

(** "change index (hop)". *)
Definition change_index (hops random : Z) : MD (Z * Z) :=
  if random <? 2 then
    let* i := random_index in
    Conc.put (set_thread_index i) ;;;
    Ret (hops, i32 (random + 1))
  else
    let* i := get thread_index in
    Conc.put (set_thread_index (if i =? i32 (width set - 1) then 0 else i32 (i + 1))) ;;;
    Ret (i32 (hops + 1), random).

Definition at_end (hops : Z) : MD bool :=
  let* f := mine full in
  Ret ((hops =? width set) || (f =? width set)).
End window.

(** [put_left_window] and [put_right_window]. *)
Definition put_window_body (s : side) '((hops, random) : Z * Z) : MD (Z * Z + unit) :=
  let* shift := at_end true s hops in
  let* hops :=
    (if (shift : bool) then
       let* same := same_max true s in
       (if (same : bool) then shift_window true s else Ret tt) ;;;
       copy_window true s ;;;
       Ret 0
     else Ret hops) in
  let* room := maybe_room true s in
  let* found :=
    (if (room : bool) then
       let* n := read_anchor in
       let* gm := load_global true s in
       if sel true s (counts n) <? gm then Ret true
       else mark_full true s (sel true s (counts n)) ;;; Ret false
     else Ret false) in
  if (found : bool) then break tt
  else
    let* same := same_max true s in
    if (same : bool) then
      let* (hops, random) := change_index hops random in
      Conc.put (count_stat inc_hop) ;;;
      continue (hops, random)
    else copy_window true s ;;; continue (0, random).

Definition put_window (s : side) : MD unit :=
  upd (set_anchor_ptr 0) ;;;
  contended ;;;
  let* same := same_max true s in
  (if negb (same : bool) then copy_window true s else Ret tt) ;;;
  while (put_window_body s) (0, 0).

(** [get_left_window] and [get_right_window]; [None]: they return with [empty_check]. *)
Definition get_window_body (s : side) '((hops, random) : Z * Z) : MD (Z * Z + unit) :=
  let* shift := at_end false s hops in
  let* shifted :=
    (if (shift : bool) then
       let* notempty := my notempty in
       if notempty =? 0 then upd (set_empty_check 1) ;;; Ret None
       else
         let* same := same_max false s in
         (if (same : bool) then shift_window false s else Ret tt) ;;;
         copy_window false s ;;;
         upd (set_notempty 0) ;;;
         Ret (Some 0)
     else Ret (Some hops)) in
  match shifted with
  | None => break tt
  | Some hops =>
      let* room := maybe_room false s in
      let* found :=
        (if (room : bool) then
           let* n := read_anchor in
           let* gm := load_global false s in
           if sel false s (counts n) <? gm then Ret (negb (end_ s n =? 0))
           else mark_full false s (sel false s (counts n)) ;;; Ret false
         else Ret false) in
      if (found : bool) then break tt
      else
        let* same := same_max false s in
        if (same : bool) then
          let* (hops, random) := change_index hops random in
          let* a := my anchor_ptr in
          (if negb (a =? 0) then
             let* n := load_anchor a in
             if negb (end_ s n =? 0) then upd (set_notempty 1) else Ret tt
           else Ret tt) ;;;
          Conc.put (count_stat inc_hop) ;;;
          continue (hops, random)
        else
          copy_window false s ;;;
          upd (set_notempty 0) ;;;
          continue (0, random)
  end.

Definition get_window (s : side) : MD unit :=
  upd (set_empty_check 0) ;;;
  upd (set_anchor_ptr 0) ;;;
  contended ;;;
  let* same := same_max false s in
  (if negb (same : bool) then copy_window false s ;;; upd (set_notempty 0) else Ret tt) ;;;
  while (get_window_body s) (0, 0).

#[export] Instance windows_2Dd : Windows (four Z) (four window_t) (four Z) :=
  {| window_put := put_window;
     window_get := get_window;
     inc_pop_fail := fun _ => inc_get_cas_fail |}.
End code.

(** ** Creation *)

(** [create_deque]; [None]: signed overflow.  [junk] is what the memory of the first
    anchors' counts holds, which are not initialised. *)
Definition create_deque {AA : Allocator (anchor_t (four Z))} (junk : Z -> four Z) (width depth relaxation_bound : Z) :
    option (conf * shared (four Z) (deques (four Z))) :=
  '(width, depth, relaxation_bound) ← deque_params width depth relaxation_bound;
  let max := u64 depth in
  Some (mkConf width depth relaxation_bound, mkShared (mkFour max max max max) (empty_deques junk width)).

(** [thread_init].  The maps are all zero. *)
Definition thread_init (set : conf) (num_threads : Z) : prog (shared (four Z) (deques (four Z))) (tls (dlocal (four window_t))) unit :=
  let w := mkWindow (u64 (depth set)) (replicate (Z.to_nat (width set)) 0) 0 in
  put (fun l => set_thread_Window (set_windows (mkFour w w w w) (thread_Window l)) l) ;;;
  Loc (fun l => i ← start_index (Z.of_nat (thread_id l)) (width set) num_threads; Some (tt, set_thread_index i l)) Ret.

(** ** Among other threads *)

Definition conf_ok (set : conf) : Prop := 1 <= width set < 2 ^ 31.

(** Pushes and pops at a side of deque [i]. *)
Definition e_put (e : devent) : bool := match e with DPush _ _ _ => true | DPop _ _ _ => false end.
Definition e_side (e : devent) : side := match e with DPush s _ _ | DPop s _ _ => s end.
Fixpoint tally (put : bool) (s : side) (i : Z) (h : list (nat * devent)) : Z :=
  match h with
  | [] => 0
  | (_, e) :: h => (if decide (dindex e = i /\ e_put e = put /\ e_side e = s) then 1 else 0) + tally put s i h
  end.

(** The counts of an anchor: what was there first and how often. *)
Definition count_ok (junk : Z -> four Z) (i : Z) (h : list (nat * devent)) (c : four Z) : Prop :=
  forall put s, sel put s c = u64 (sel put s (junk i) + tally put s i h).

Lemma sel_upd {X} put s put' s' (f : X -> X) x :
  sel put s (upd4 put' s' f x) = if decide (put = put' /\ s = s') then f (sel put s x) else sel put s x.
Proof. destruct put, s, put', s'; case_decide; cbn; naive_solver. Qed.

Lemma u64_succ x : u64 (u64 x + 1) = u64 (1 + x).
Proof. unfold wrap. rewrite Zplus_mod_idemp_l. f_equal. lia. Qed.

#[export] Instance four_counts_ok junk : CountsOk (four Z) (count_ok junk).
Proof.
  split; unfold count_ok; cbn [put_count get_count four_counts].
  - intros i t e h c Hne Hc put s. cbn [tally]. rewrite decide_False by tauto. apply Hc.
  - intros i t s x h c Hc put s'. cbn [tally dindex e_put e_side]. rewrite sel_upd, Hc.
    repeat case_decide; try naive_solver. rewrite u64_succ. f_equal. lia.
  - intros i t s x h c _ Hc put s'. cbn [tally dindex e_put e_side]. rewrite sel_upd, Hc.
    repeat case_decide; try naive_solver. rewrite u64_succ. f_equal. lia.
Qed.

(** The maps have an element for each deque. *)
Definition maps_ok (w : Z) (x : four window_t) : Prop := forall put s, Z.of_nat (length (map_array (sel put s x))) = w.

Lemma maps_ok_upd w put s f x :
  (forall y, length (map_array (f y)) = length (map_array y)) -> maps_ok w x -> maps_ok w (upd4 put s f x).
Proof. intros Hf Hx put' s'. rewrite sel_upd. case_decide; [rewrite Hf|]; apply Hx. Qed.

Section among.
Context {AN : Allocator node_t} {AA : Allocator (anchor_t (four Z))} (set : conf) (Hset : conf_ok set) (junk : Z -> four Z) (t : nat).
Notation B := (joint no_window (dprot (count_ok junk) (width set))).
Notation St := (shared (four Z) (deques (four Z))).
Notation Lo := (tls (dlocal (four window_t))).
Notation later g g' := (drely t (subs g) (subs g')).
Notation lok := (local_ok (maps_ok (width set)) (width set) t).
Notation ptr l := (anchor_ptr (thread_Window l)).
Notation quiet p R := (quiet (count_ok junk) (maps_ok (width set)) (width set) t p R).
Implicit Types (g : St) (l : Lo) (put : bool) (s : side).

Lemma later4_trans g1 g2 g3 : later g1 g2 -> later g2 g3 -> later g1 g3.
Proof. apply (drely_trans (count_ok junk) (width set) t). Qed.
Lemma later_refl2 g : later g g.
Proof. apply (drely_refl (count_ok junk) (width set) t). Qed.

Lemma quiet_mine {X} put s (f : window_t -> X) : quiet (mine put s f) (fun _ => True).
Proof. unfold mine. repeat quiet_step. Qed.
Lemma quiet_load_global put s : quiet (load_global put s) (fun _ => True).
Proof. unfold load_global. repeat quiet_step. Qed.

Lemma lok_upd l put s f :
  (forall y, length (map_array (f y)) = length (map_array y)) -> lok l ->
  lok (set_thread_Window (set_windows (upd4 put s f (windows (thread_Window l))) (thread_Window l)) l).
Proof. intros Hf []. split; [done|done|]. by apply maps_ok_upd. Qed.

Lemma quiet_upd_mine put s f :
  (forall y, length (map_array (f y)) = length (map_array y)) -> quiet (upd_mine put s f) (fun _ => True).
Proof. intros Hf. apply quiet_put; [|done]. intros l Hl. by apply lok_upd. Qed.

Lemma quiet4_copy_window put s : quiet (copy_window put s) (fun _ => True).
Proof. unfold copy_window. quiet_step; [apply quiet_load_global|]. by apply quiet_upd_mine. Qed.
Lemma quiet_same_max put s : quiet (same_max put s) (fun _ => True).
Proof. unfold same_max. quiet_step; [apply quiet_mine|]. quiet_step; [apply quiet_load_global|quiet_step]. Qed.
Lemma quiet_cas_window put s old new : quiet (cas_window put s old new) (fun _ => True).
Proof. apply quiet_act. intros g l Hl. destruct (_ =? _); eauto 10. Qed.
Lemma quiet4_shift_window put s : quiet (shift_window set put s) (fun _ => True).
Proof. unfold shift_window. quiet_step; [apply quiet_mine|]. quiet_step; [apply quiet_cas_window|]. repeat quiet_step. Qed.
Lemma quiet4_random_index : quiet (random_index set) (fun i => 0 <= i < width set).
Proof. by apply quiet_random. Qed.

Lemma quiet4_contended : quiet (contended set) (fun _ => True).
Proof.
  unfold contended. quiet_step; [quiet_step|]. quiet_step; [|quiet_step].
  eapply quiet_bind; [apply quiet4_random_index|intros i _; quiet_step].
Qed.

Lemma quiet4_change_index hops random : quiet (change_index set hops random) (fun _ => True).
Proof.
  unfold change_index. quiet_step.
  - eapply quiet_bind; [apply quiet4_random_index|intros i Hi; repeat quiet_step].
  - apply (quiet_bind _ _ _ _ _ _ (fun i => 0 <= i < width set)); [apply quiet_get; by intros l []|]. intros i Hi.
    assert (Hnext : 0 <= (if i =? i32 (width set - 1) then 0 else i32 (i + 1)) < width set).
    { unfold conf_ok in Hset. rewrite (sign_small 32 (width set - 1)) by (cbn; lia).
      destruct (Z.eqb_spec i (width set - 1)); [lia|]. rewrite sign_small by (cbn; lia). lia. }
    repeat quiet_step.
Qed.

Lemma quiet_at_end put s hops : quiet (at_end set put s hops) (fun _ => True).
Proof. unfold at_end. quiet_step; [apply quiet_mine|quiet_step]. Qed.

(** The thread's index is one of the map. *)
Lemma quiet_maybe_room put s : quiet (maybe_room put s) (fun _ => True).
Proof.
  intros Q g l Hl HQ. unfold maybe_room. wp_locals. unfold mine, my. wp_locals. destruct Hl as [H1 H2 H3].
  assert (Hlt : (Z.to_nat (thread_index l) < length (map_array (sel put s (windows (thread_Window l)))))%nat) by (specialize (H3 put s); lia).
  apply lookup_lt_is_Some_2 in Hlt as [c Ec]. rewrite Ec. wp_locals. apply HQ; [done|apply later_refl2|by split|done].
Qed.

Lemma quiet_mark_full put s c : quiet (mark_full put s c) (fun _ => True).
Proof. unfold mark_full. quiet_step; [quiet_step|]. apply quiet_upd_mine. intros y. apply length_insert. Qed.

(** [anchor_ptr] is null, or an anchor that has been read. *)
Definition ptr_ok g l : Prop := ptr l = 0 \/ exists n, public_anchor g (ptr l) n.

Lemma ptr_ok_later g g' l l' : later g g' -> ptr l' = ptr l -> ptr_ok g l -> ptr_ok g' l'.
Proof. intros L E [H|[n En]]; [left; congruence|right]. exists n. rewrite E. by apply (later_anchor t g). Qed.

(** What a window function knows of the memory between its accesses. *)
Definition at_rest g0 g l : Prop := later g0 g /\ lok l /\ ptr_ok g l.

Lemma wp_quiet {X} (p : prog St Lo X) R g0 (Q : X -> St -> Lo -> Prop) g l :
  quiet p R -> at_rest g0 g l -> (forall x g' l', R x -> at_rest g0 g' l' -> Q x g' l') -> wp B t p Q g l.
Proof.
  intros Hp (L & Hl & Ha) HQ. apply Hp; [done|]. intros x g' l' Hx L' Hl' E. apply HQ; [done|].
  split; [by apply (later4_trans g0 g)|split; [done|by apply (ptr_ok_later g g' l l')]].
Qed.

(** The deque at the thread's index is looked at if it may have room. *)
Lemma wp_search {X} put s (F : anchor_t (four Z) -> bool) (K : bool -> prog St Lo X) g0 (Q : X -> St -> Lo -> Prop) g l :
  at_rest g0 g l ->
  (forall n g' l', later g0 g' -> p_inv B g' -> lok l' -> public_anchor g' (ptr l') n -> F n = true -> wp B t (K true) Q g' l') ->
  (forall g' l', at_rest g0 g' l' -> wp B t (K false) Q g' l') ->
  wp B t (let* room := maybe_room put s in
          let* found :=
            (if (room : bool) then
               let* n := read_anchor in
               let* gm := load_global put s in
               if sel put s (counts n) <? gm then Ret (F n)
               else mark_full put s (sel put s (counts n)) ;;; Ret false
             else Ret false) in K found) Q g l.
Proof.
  intros H Hyes Hno. wp_local. apply (wp_quiet _ _ g0 _ _ _ (quiet_maybe_room put s) H). intros room g1 l1 _ H1. wp_local.
  destruct room; [|wp_locals; by apply Hno]. destruct H1 as (L1 & Hl1 & _). wp_local.
  apply (wp_read_anchor no_window (count_ok junk) (maps_ok (width set)) (width set) t); [done|].
  intros a n g2 l2 L2 Hl2 E2 En. wp_local. apply wp_load_var; [apply _|]. intros g3 [_ L3] I3 _. cbn [p_rely dprot] in L3.
  apply (later_anchor t g2 g3 a n L3) in En.
  assert (L3' : later g0 g3) by (apply (later4_trans g0 g1); [done|by apply (later4_trans g1 g2)]).
  assert (Ep : ptr l2 = a) by by subst l2. rewrite <- Ep in En. clear E2 Ep.
  assert (H3 : at_rest g0 g3 l2) by (split; [done|split; [done|right; by exists n]]).
  destruct (sel put s (counts n) <? sel put s (window g3)).
  - wp_locals. destruct (F n) eqn:EF; [by apply (Hyes n)|by apply Hno].
  - wp_local. apply (wp_quiet _ _ g0 _ _ _ (quiet_mark_full put s _) H3). intros [] g4 l4 _ H4. wp_locals. by apply Hno.
Qed.

Lemma wp_put_window4_body s x g0 (Q : Z * Z + unit -> St -> Lo -> Prop) g l :
  at_rest g0 g l ->
  (forall y g' l', at_rest g0 g' l' -> Q (inl y) g' l') ->
  (forall n g' l', later g0 g' -> lok l' -> public_anchor g' (ptr l') n -> Q (inr tt) g' l') ->
  wp B t (put_window_body set s x) Q g l.
Proof.
  destruct x as [hops random]. intros H Hagain Hdone. unfold put_window_body. wp_local.
  apply (wp_quiet _ _ g0 _ _ _ (quiet_at_end true s hops) H). clear H g l. intros shift g l _ H. wp_local.
  assert (H1 : quiet (if (shift : bool) then
       let* same := same_max true s in
       (if (same : bool) then shift_window set true s else Ret tt) ;;; copy_window true s ;;; Ret 0
     else Ret hops) (fun _ => True)).
  { quiet_step; [|quiet_step]. quiet_step; [apply quiet_same_max|]. quiet_step; [quiet_step; [apply quiet4_shift_window|quiet_step]|].
    quiet_step; [apply quiet4_copy_window|quiet_step]. }
  apply (wp_quiet _ _ g0 _ _ _ H1 H). clear H1 H g l. intros hops' g l _ H.
  apply (wp_search true s (fun _ => true) _ g0); [done| |].
  - intros n g1 l1 L1 _ Hl1 En _. wp_locals. by apply (Hdone n).
  - intros g1 l1 H1. assert (H2 : quiet (let* same := same_max true s in
      if (same : bool) then
        let* (hops, random) := change_index set hops' random in Conc.put (count_stat inc_hop) ;;; continue (hops, random)
      else copy_window true s ;;; continue (0, random) : prog _ _ (Z * Z + unit)) (fun x => exists y, x = inl y)).
    { quiet_step; [apply quiet_same_max|]. quiet_step.
      - quiet_step; [apply quiet4_change_index|]. destruct x as [h r]. quiet_step; [quiet_step|]. apply quiet_ret. by eexists.
      - quiet_step; [apply quiet4_copy_window|]. apply quiet_ret. by eexists. }
    apply (wp_quiet _ _ g0 _ _ _ H2 H1). intros x' g4 l4 [y ->] H4. by apply Hagain.
Qed.

(** [notempty] is set if the anchor read last has elements. *)
Lemma wp_note_nonempty s {X} (K : prog St Lo X) g0 (Q : X -> St -> Lo -> Prop) g l :
  at_rest g0 g l -> (forall g' l', at_rest g0 g' l' -> wp B t K Q g' l') ->
  wp B t (let* a := my anchor_ptr in
          (if negb (a =? 0) then
             let* n := load_anchor a in
             if negb (end_ s n =? 0) then upd (set_notempty 1) else Ret tt
           else Ret tt) ;;; K) Q g l.
Proof.
  intros H HK. pose proof H as (L & Hl & Ha). wp_local. unfold my. wp_locals.
  destruct (Z.eqb_spec (ptr l) 0) as [E|E]; cbn [negb]; [wp_locals; by apply HK|].
  destruct Ha as [?|[n En]]; [done|]. wp_local. apply (wp_load_anchor no_window (count_ok junk) (width set) B t _ n); [done|].
  intros g1 [_ L1] _. cbn [p_rely dprot] in L1. assert (L1' : later g0 g1) by by apply (later4_trans g0 g).
  assert (Ha1 : ptr_ok g1 l) by (right; exists n; by apply (later_anchor t g)).
  destruct (negb (end_ s n =? 0)); [unfold upd|]; wp_locals; apply HK; (split; [done|split; [auto with deques|done]]).
Qed.

Lemma wp_get_window4_body s x g0 (Q : Z * Z + unit -> St -> Lo -> Prop) g l :
  at_rest g0 g l ->
  (forall y g' l', at_rest g0 g' l' -> Q (inl y) g' l') ->
  (forall g' l', later g0 g' -> lok l' ->
     (empty_check (thread_Window l') <> 1 -> exists n, public_anchor g' (ptr l') n /\ aleft n <> 0) -> Q (inr tt) g' l') ->
  wp B t (get_window_body set s x) Q g l.
Proof.
  destruct x as [hops random]. intros H Hagain Hdone. unfold get_window_body. wp_local.
  apply (wp_quiet _ _ g0 _ _ _ (quiet_at_end false s hops) H). clear H g l. intros shift g l _ H. wp_local.
  apply (wp_mono B t _ (fun r g1 l1 => at_rest g0 g1 l1 /\ (r = None -> empty_check (thread_Window l1) = 1))).
  - clear g l H. intros [hops'|] g l [H He]; [|wp_locals; apply Hdone; [apply H..|]; intros []; by apply He].
    apply (wp_search false s (fun n => negb (end_ s n =? 0)) _ g0); [done| |].
    + intros n g1 l1 L1 I1 Hl1 En EF. wp_locals. apply Hdone; [done..|]. intros _. exists n. split; [done|].
      destruct (Z.eqb_spec (end_ s n) 0) as [|Hne]; [done|]. intros E0. apply Hne.
      by apply (anchor_ends no_window (count_ok junk) (width set) t g1 _ n I1 En).
    + clear He g l H. intros g l H. wp_local. apply (wp_quiet _ _ g0 _ _ _ (quiet_same_max false s) H). clear H g l.
      intros same g l _ H. destruct same.
      * wp_local. apply (wp_quiet _ _ g0 _ _ _ (quiet4_change_index hops' random) H). clear H g l. intros [h r] g l _ H.
        apply (wp_note_nonempty s _ g0); [done|]. clear H g l. intros g l (L & Hl & Ha). wp_locals. apply Hagain.
        split; [done|split; [auto with deques|done]].
      * wp_local. apply (wp_quiet _ _ g0 _ _ _ (quiet4_copy_window false s) H). clear H g l. intros [] g l _ (L & Hl & Ha).
        wp_local. unfold upd. wp_locals. apply Hagain. split; [done|split; [auto with deques|done]].
  - destruct shift; [|by wp_locals]. wp_local. unfold my. wp_locals. destruct (notempty (thread_Window l) =? 0).
    + destruct H as (L & Hl & Ha). wp_local. unfold upd. wp_locals. split; [|done]. split; [done|split; [auto with deques|done]].
    + assert (H1 : quiet (let* same := same_max false s in
          (if (same : bool) then shift_window set false s else Ret tt) ;;;
          copy_window false s ;;; upd (set_notempty 0) ;;; Ret (Some 0)) (fun r => r = Some 0)).
      { quiet_step; [apply quiet_same_max|]. quiet_step; [quiet_step; [apply quiet4_shift_window|quiet_step]|].
        quiet_step; [apply quiet4_copy_window|]. quiet_step; [quiet_step|]. by apply quiet_ret. }
      apply (wp_quiet _ _ g0 _ _ _ H1 H). by intros r g1 l1 ->.
Qed.
End among.

#[export] Instance windows_2Dd_ok {AN : Allocator node_t} {AA : Allocator (anchor_t (four Z))} set junk :
  conf_ok set -> WindowsOk (ws := windows_2Dd set) no_window (count_ok junk) (maps_ok (width set)) (width set).
Proof.
  intros Hset. split; cbn [window_put window_get windows_2Dd]; intros t s Q g l Hl HQ.
  - unfold put_window. wp_local. unfold upd. wp_locals.
    assert (H : at_rest set t g g (set_thread_Window (set_anchor_ptr 0 (thread_Window l)) l)).
    { split; [apply (later_refl2 set junk)|split; [auto with deques|by left]]. }
    apply (wp_quiet set junk t _ _ g _ _ _ (quiet4_contended set Hset junk t) H). intros [] g1 l1 _ H1. wp_local.
    apply (wp_quiet set junk t _ _ g _ _ _ (quiet_same_max set junk t true s) H1). intros same g2 l2 _ H2. wp_local.
    assert (H0 : quiet (count_ok junk) (maps_ok (width set)) (width set) t (if negb same then copy_window true s else Ret tt) (fun _ => True)).
    { quiet_step; [apply quiet4_copy_window|quiet_step]. }
    apply (wp_quiet set junk t _ _ g _ _ _ H0 H2). intros [] g3 l3 _ H3.
    apply (wp_while _ t _ _ _ _ (fun _ _ g' l' => at_rest set t g g' l') 0%nat); [done|].
    intros m x g4 l4 H4. apply (wp_put_window4_body set Hset junk t s x g); [done| |].
    + intros y g5 l5 H5. by exists 0%nat.
    + intros n g5 l5 L5 Hl5 En. wp_locals. by apply (HQ n).
  - unfold get_window. wp_local. unfold upd. wp_locals.
    assert (H : at_rest set t g g (set_thread_Window (set_anchor_ptr 0 (set_empty_check 0 (thread_Window l))) l)).
    { split; [apply (later_refl2 set junk)|split; [|by left]]. by destruct Hl. }
    apply (wp_quiet set junk t _ _ g _ _ _ (quiet4_contended set Hset junk t) H). intros [] g1 l1 _ H1. wp_local.
    apply (wp_quiet set junk t _ _ g _ _ _ (quiet_same_max set junk t false s) H1). intros same g2 l2 _ H2. wp_local.
    assert (H0 : quiet (count_ok junk) (maps_ok (width set)) (width set) t
      (if negb same then copy_window false s ;;; upd (set_notempty 0) else Ret tt) (fun _ => True)).
    { quiet_step; [quiet_step; [apply quiet4_copy_window|quiet_step]|quiet_step]. }
    apply (wp_quiet set junk t _ _ g _ _ _ H0 H2). intros [] g3 l3 _ H3.
    apply (wp_while _ t _ _ _ _ (fun _ _ g' l' => at_rest set t g g' l') 0%nat); [done|].
    intros m x g4 l4 H4. apply (wp_get_window4_body set Hset junk t s x g); [done| |].
    + intros y g5 l5 H5. by exists 0%nat.
    + intros g5 l5 L5 Hl5 En. wp_locals. by apply HQ.
Qed.

Lemma create_deque_2Dd_ok {AA : Allocator (anchor_t (four Z))} junk wd dp rb set g :
  create_deque junk wd dp rb = Some (set, g) -> rb < 2 ^ 31 -> (forall i put s, 0 <= sel put s (junk i) < 2 ^ 64) ->
  conf_ok set /\ deques_inv (count_ok junk) (width set) (subs g) /\ dhist (subs g) = [].
Proof.
  unfold create_deque. intros Hc Hrb Hj. destruct (deque_params wd dp rb) as [[[w d] k]|] eqn:E; [|done].
  apply deque_params_ok in E as (Hw & Hd & Hk); [|done]. injection Hc as <- <-. cbn [width subs].
  split; [done|split; [|apply empty_deques_hist]]. apply empty_deques_inv; [lia|]. intros i Hi put s.
  cbn [tally]. specialize (Hj i put s). rewrite wrap_small; lia.
Qed.

Lemma thread_init_2Dd_ok set n t (P : protocol (shared (four Z) (deques (four Z)))) g l :
  conf_ok set -> 0 <= Z.of_nat t < n -> thread_id l = t ->
  wp P t (thread_init set n) (fun _ g' l' => g' = g /\ local_ok (maps_ok (width set)) (width set) t l') g l.
Proof.
  intros Hset Hn Ht. unfold thread_init. wp_locals. cbn [wp]. rewrite <- Ht in Hn.
  destruct (start_index_ok (Z.of_nat (thread_id l)) (width set) n Hn Hset) as (x & E & Hx). cbn [thread_id set_thread_Window].
  rewrite E. cbn. split; [done|split; [done|done|]]. unfold conf_ok in Hset.
  intros put s. destruct put, s; cbn; rewrite length_replicate; lia.
Qed.

(** C10. The 2Dd deque: in every interleaving of pushes, pops and sizes by any number of
    threads no access is invalid, each deque is a double-ended queue whose nodes and
    anchor hold what its events left, its counts are those of the pushes and pops at
    each side, nothing is lost or duplicated, and every finished thread's results are
    those of its own events in program order. *)
Theorem deque2dd_linearizable {AN : Allocator node_t} {AA : Allocator (anchor_t (four Z))} junk wd dp rb set g0 num_threads opss ls schedule :
  create_deque junk wd dp rb = Some (set, g0) -> rb < 2 ^ 31 -> (forall i put s, 0 <= sel put s (junk i) < 2 ^ 64) ->
  Z.of_nat (length ls) <= num_threads -> (forall i l, ls !! i = Some l -> thread_id l = i) ->
  let final := exec (mkCfg g0 (clients_from (exec_op (ws := windows_2Dd set) (width set)) (thread_init set num_threads) opss ls)) schedule in
  ~ faulty final /\ replayed (count_ok junk) (width set) (subs (mem final)) /\
  (forall i rs l os, pool final !! i = Some (Ret rs, l) -> opss !! i = Some os ->
     length rs = length os /\ dexplains (width set) (zip os rs) (devents_of i (dhist (subs (mem final))))).
Proof.
  intros Hc Hrb Hj Hn Hls. destruct (create_deque_2Dd_ok junk wd dp rb set g0 Hc Hrb Hj) as (Hset & HI & Hh).
  pose proof (windows_2Dd_ok set junk Hset) as Hw.
  eapply (deques_run no_window (count_ok junk) (maps_ok (width set)) (width set)); [done|apply Hset|by split|done|].
  intros i l Hl. apply thread_init_2Dd_ok; [done| |by apply Hls]. apply lookup_lt_Some in Hl. lia.
Qed.

(** *** Examples *)

#[local] Instance example_nodes : Allocator node_t := bump_allocator _.
#[local] Instance example_anchors : Allocator (anchor_t (four Z)) := bump_allocator _.

Definition four_of {X} (x : X) : four X := mkFour x x x x.
Definition example_conf : conf := mkConf 2 1 3.
Definition example_mem : shared (four Z) (deques (four Z)) := mkShared (four_of 1) (empty_deques (fun _ => four_of 0) 2).
Definition example_tls (n : nat) : list (tls (dlocal (four window_t))) := tls0 (dlocal0 (four_of (mkWindow 0 [] 0))) <$> seq 0 n.
Definition example_ops : list (list dop) :=
  [[DoPush Left 1 10; DoPush Right 2 20; DoPop Left; DoSize]; [DoPush Right 3 30; DoPop Right; DoPop Left]].
Definition example_schedule : list nat := mjoin (replicate 400 [0%nat; 1%nat]).
Notation example_final := (exec (mkCfg example_mem (clients_from (exec_op (ws := windows_2Dd example_conf) 2)
  (thread_init example_conf 2) example_ops (example_tls 2))) example_schedule).

Lemma deque2dd_linearizable_witness :
  dexplains 2 [(DoPush Right 3 30, 1); (DoPop Right, 30); (DoPop Left, 20)] (devents_of 1 (dhist (subs (mem example_final)))).
Proof.
  refine (proj2 (proj2 (proj2 (deque2dd_linearizable (fun _ => four_of 0) 2 1 3 example_conf example_mem 2 example_ops (example_tls 2)
    example_schedule eq_refl _ _ _ _)) 1%nat [1; 30; 20] _ [DoPush Right 3 30; DoPop Right; DoPop Left] _ _)).
  - reflexivity.
  - intros i [] []; cbn; lia.
  - cbn. lia.
  - intros i l Hl. by apply tls0_lookup in Hl as ->.
  - vm_compute. reflexivity.
  - reflexivity.
Defined.

(** A thread that runs alone can be told that there is nothing to pop when there is:
    [notempty] is reset by a pop at the other side, while the deques that were full for
    the window of this side are not looked at again. *)
Example deque2dd_false_empty :
  match run (Z.to_nat 20000) (thread_init example_conf 1 ;;; run_ops (exec_op (ws := windows_2Dd example_conf) 2)
      ([DoPush Left 1 101; DoPush Left 2 102; DoPush Right 1 201; DoPush Right 2 202; DoPush Right 3 203; DoPush Right 4 204] ++
       [DoPop Left; DoPop Left; DoPop Right; DoPop Right; DoPop Left; DoPop Right]))
      example_mem (tls0 (dlocal0 (four_of (mkWindow 0 [] 0))) 0) with
  | Finished rs g l => last rs = Some 0 /\ empty_check (thread_Window l) = 1 /\ elems 1 (dhist (subs g)) <> []
  | _ => False
  end.
Proof. vm_compute. split_and!; done. Qed.
