(* ===== verification/DequeSolo.v ===== *)
(** The operations of the deques (Deques.v) by a thread that runs alone, whatever
    windows choose the deque: no exchange fails, each operation ends, and no push
    is left unfinished. *)
From S2P Require Import Prelude Conc Random Thread StackHeap Shared SubDeques Deques DequeRuns.

Section solo.
Context {W T C : Type} {AN : Allocator node_t} {AA : Allocator (anchor_t C)} {cs : Counts C} {ws : Windows W T C}.
Context (cok : Z -> list (nat * devent) -> C -> Prop) {cl : CountsOk C cok} (tok : T -> Prop) (w : Z).
Notation B := (joint no_window (dprot cok w)).
Notation P := (alone B).
Notation St := (shared W (deques C)).
Notation Lo := (tls (dlocal T)).
Notation anchor_of i g := (anchors (subs g) !! Z.to_nat i).
Notation lok := (local_ok tok w 0).
Notation pnodes g := (pub (nheap (subs g))).
Notation addrs_of i g := (addrs i (dhist (subs g))).
Notation hist g := (dhist (subs g)).
Implicit Types (g : St) (l : Lo) (i a p : Z) (n : anchor_t C) (nd : node_t) (sd s : side).

Lemma alone_eq g g' : p_rely P 0 g g' -> g' = g.
Proof. intros H. by apply H. Qed.
Lemma solo_inv g : p_inv B g -> deques_inv cok w (subs g).
Proof. by intros []. Qed.

(** *** Private changes *)

Lemma private_refl g : private_step g g.
Proof. done. Qed.
Lemma private_trans g1 g2 g3 : private_step g1 g2 -> private_step g2 g3 -> private_step g1 g3.
Proof. intros [] []. split; congruence. Qed.
Lemma private_anchor g g' a n : private_step g g' -> public_anchor g a n -> public_anchor g' a n.
Proof. intros []. unfold public_anchor. congruence. Qed.

(** No push is unfinished, but for one of deque [i]. *)
Definition calm_but (ok : Z -> Prop) g : Prop :=
  p_inv B g /\ forall i a n, 0 <= i -> ok i -> anchor_of i g = Some a -> public_anchor g a n -> state n = STATE_STABLE.
Notation calm g := (calm_but (fun _ => True) g).

Lemma calm_private ok g g' : private_step g g' -> p_inv B g' -> calm_but ok g -> calm_but ok g'.
Proof.
  intros [] HI [_ Hst]. split; [done|]. intros i a n Hi Hok Ea En. apply (Hst i a n); try done; [congruence|].
  unfold public_anchor in *. congruence.
Qed.

(** The anchor of a deque, and the ends that it has. *)
Lemma cur_anchor g i : p_inv B g -> 0 <= i < w -> exists a n, anchor_of i g = Some a /\ public_anchor g a n.
Proof.
  intros HI Hi. pose proof (solo_inv g HI) as Hd.
  assert (Hlt : (Z.to_nat i < length (anchors (subs g)))%nat) by (pose proof (di_len _ _ _ Hd); lia).
  apply lookup_lt_is_Some_2 in Hlt as [a Ea]. destruct (di_cur _ _ _ Hd i a (proj1 Hi) Ea) as (_ & n & En & _). by exists a, n.
Qed.

(** *** Rules *)

Lemma solo_load {X} (f : St -> option X) x (Q : X -> St -> Lo -> Prop) g l :
  f g = Some x -> Q x g l -> wp P 0 (load f) Q g l.
Proof. intros E HQ. apply wp_load; [apply _|]. intros g1 R1 _ _. rewrite (alone_eq _ _ R1). by exists x. Qed.

Lemma solo_ptr i a (Q : Z -> St -> Lo -> Prop) g l : anchor_of i g = Some a -> Q a g l -> wp P 0 (load_ptr i) Q g l.
Proof. apply (solo_load (lookup_ptr i)). Qed.
Lemma solo_anchor a n (Q : anchor_t C -> St -> Lo -> Prop) g l : public_anchor g a n -> Q n g l -> wp P 0 (load_anchor a) Q g l.
Proof. intros [E _]%pub_lookup. by apply (solo_load (lookup_anchor a)). Qed.
Lemma solo_link s p nd (Q : Z -> St -> Lo -> Prop) g l : pnodes g !! p = Some nd -> Q (link s nd) g l -> wp P 0 (load_link s p) Q g l.
Proof. intros [E _]%pub_lookup. apply (solo_load (fun g => link s <$> lookup_dnode p g)). unfold lookup_dnode. by rewrite E. Qed.
Lemma solo_val p nd (Q : Z -> St -> Lo -> Prop) g l : pnodes g !! p = Some nd -> Q (val nd) g l -> wp P 0 (load_val p) Q g l.
Proof. intros [E _]%pub_lookup. apply (solo_load (fun g => val <$> lookup_dnode p g)). unfold lookup_dnode. by rewrite E. Qed.

Lemma solo_alloc_anchor n (Q : Z -> St -> Lo -> Prop) g l :
  thread_id l = 0%nat ->
  (forall a g', private_step g g' -> p_inv B g' -> own_anchor 0 g' a n -> a <> 0 ->
     (forall p nd, own_node 0 g p nd -> own_node 0 g' p nd) -> Q a g' l) ->
  wp P 0 (alloc_anchor n) Q g l.
Proof.
  intros Ht HQ. apply (wp_alloc_anchor no_window cok w P 0); [done|]. intros a g1 g2 R1 Hp L _ HI Hown Ha.
  rewrite (alone_eq _ _ R1) in Hp. apply HQ; [done..|]. intros p nd. by apply own_node_rely.
Qed.
Lemma solo_alloc_dnode nd (Q : Z -> St -> Lo -> Prop) g l :
  thread_id l = 0%nat ->
  (forall p g', private_step g g' -> p_inv B g' -> own_node 0 g' p nd -> Q p g' l) -> wp P 0 (alloc_dnode nd) Q g l.
Proof.
  intros Ht HQ. apply (wp_alloc_dnode no_window cok w P 0); [done|]. intros p g1 g2 R1 Hp L HI Hown.
  rewrite (alone_eq _ _ R1) in Hp. by apply HQ.
Qed.
Lemma solo_store_anchor a n n' (Q : unit -> St -> Lo -> Prop) g l :
  own_anchor 0 g a n ->
  (forall g', private_step g g' -> p_inv B g' -> own_anchor 0 g' a n' -> (forall p nd, own_node 0 g p nd -> own_node 0 g' p nd) -> Q tt g' l) ->
  wp P 0 (store_anchor a n') Q g l.
Proof.
  intros Hown HQ. eapply (wp_store_anchor no_window cok w P 0); [exact Hown|]. intros g1 g2 R1 Hp _ E2 HI _ Hown2.
  rewrite (alone_eq _ _ R1) in *. apply HQ; [done..|]. intros p nd. subst g2. done.
Qed.
Lemma solo_store_dnode p f nd (Q : unit -> St -> Lo -> Prop) g l :
  own_node 0 g p nd ->
  (forall g', private_step g g' -> p_inv B g' -> own_node 0 g' p (f nd) -> (forall a n, own_anchor 0 g a n -> own_anchor 0 g' a n) -> Q tt g' l) ->
  wp P 0 (store_dnode p f) Q g l.
Proof.
  intros Hown HQ. eapply (wp_store_dnode no_window cok w P 0); [exact Hown|]. intros g1 g2 R1 Hp _ E2 HI _ Hown2.
  rewrite (alone_eq _ _ R1) in *. apply HQ; [done..|]. intros a n. subst g2. done.
Qed.

(** An exchange of the anchor that was read. *)
Lemma solo_cas_anchor i a n new nw k (Q : bool -> St -> Lo -> Prop) g l :
  0 <= i < w -> thread_id l = 0%nat -> p_inv B g -> anchor_of i g = Some a -> public_anchor g a n -> own_anchor 0 g new nw ->
  let s := after_anchor 0 i a new (pushed_node nw k) (event_of i n nw k (nheap (subs g))) (subs g) in
  deques_inv cok w s -> dguar 0 (subs g) s -> (p_inv B (set_subs s g) -> Q true (set_subs s g) l) ->
  wp P 0 (cas_anchor i a new k) Q g l.
Proof.
  intros Hi Ht HI Ea En [Pn Enew] s Hs Hg HQ g1 R1 I1 _. rewrite (alone_eq _ _ R1). unfold lookup_ptr. rewrite Ea.
  cbn [mbind option_bind]. rewrite decide_True by done. apply pub_lookup in En as [En _].
  change (lookup_anchor a g = Some n) in En. rewrite En. cbn [mbind option_bind]. rewrite Enew. cbn [mbind option_bind]. rewrite Ht.
  destruct (deques_step no_window cok w P 0 g s HI Hs Hg) as [HG HI2]. split; [exact HG|split; [exact HI2|]]. by apply HQ.
Qed.

(** What such an exchange leaves: the new anchor in the place of the old. *)
Lemma after_anchor_calm i a new nw pushed e g :
  let g' := set_subs (after_anchor 0 i a new pushed e (subs g)) g in
  0 <= i < w -> calm_but (fun j => j <> i) g -> p_inv B g' -> own_anchor 0 g new nw ->
  anchor_of i g' = Some new /\ public_anchor g' new nw /\ calm_but (fun j => j <> i) g' /\ (state nw = STATE_STABLE -> calm g').
Proof.
  intros g' Hi [HI Hst] HI' [Pn Enew].
  assert (Hlt : (Z.to_nat i < length (anchors (subs g)))%nat) by (pose proof (di_len _ _ _ (solo_inv g HI)); lia).
  assert (Ei : anchor_of i g' = Some new) by (apply list_lookup_insert_eq; done).
  assert (Hpa : pub (aheap (subs g')) = <[new := nw]> (pub (aheap (subs g)))) by by apply pub_publish.
  assert (Hnone : pub (aheap (subs g)) !! new = None).
  { destruct (pub (aheap (subs g)) !! new) eqn:E; [|done]. apply pub_lookup in E as [_ ?]. congruence. }
  assert (En : public_anchor g' new nw) by (unfold public_anchor; by rewrite Hpa, lookup_insert_eq).
  assert (Hj : forall j b n, 0 <= j -> j <> i -> anchor_of j g' = Some b -> public_anchor g' b n -> state n = STATE_STABLE).
  { intros j b n Hj Hne Eb Enb. cbn in Eb. rewrite list_lookup_insert_ne in Eb by lia.
    destruct (di_cur _ _ _ (solo_inv g HI) j b Hj Eb) as (_ & n' & En' & _). apply (Hst j b n); try done.
    unfold public_anchor in *. rewrite Hpa in Enb. rewrite lookup_insert_ne in Enb; [done|]. intros ->. congruence. }
  split; [done|split; [done|split]].
  - split; [done|]. intros j b n Hj0 Hne. by apply Hj.
  - intros Es. split; [done|]. intros j b n Hj0 _ Eb Enb. destruct (decide (j = i)) as [->|Hne]; [|by apply (Hj j b n)].
    assert (b = new) as -> by congruence. unfold public_anchor in *. congruence.
Qed.

(** *** [stabilize] *)

(** Deque [i] is being pushed to at [s], its anchor is [a]. *)
Record unfinished g i a n s x p r : Prop := mkUnfinished {
  uf_calm : calm_but (fun j => j <> i) g;
  uf_cur : anchor_of i g = Some a;
  uf_anchor : public_anchor g a n;
  uf_state : state n = push_state s;
  uf_end : end_ s n = x;
  uf_view : view s (addrs_of i g) = x :: p :: r;
}.

Lemma unfinished_private g g' i a n s x p r :
  private_step g g' -> p_inv B g' -> unfinished g i a n s x p r -> unfinished g' i a n s x p r.
Proof.
  intros Hp HI [H1 H2 H3 H4 H5 H6]. pose proof Hp as []. split; try done.
  - by apply (calm_private _ g).
  - congruence.
  - by apply (private_anchor g).
  - congruence.
Qed.

Lemma wp_commit_solo s a n i x p r np (Q : unit -> St -> Lo -> Prop) g l :
  0 <= i < w -> thread_id l = 0%nat -> unfinished g i a n s x p r -> pnodes g !! p = Some np -> link s np = x ->
  (forall g', calm g' -> window g' = window g -> hist g' = hist g -> Q tt g' l) ->
  wp P 0 (let* nextAnchor := create_anchor in
          store_anchor nextAnchor (set_state STATE_STABLE n) ;;;
          let* ok := cas_anchor i a nextAnchor Stabilized in
          if (ok : bool) then Ret tt else inc_contention) Q g l.
Proof.
  intros Hi Ht Hu Ep El HQ. wp_local. unfold create_anchor. apply solo_alloc_anchor; [done|].
  intros new g1 P1 I1 Hnew _ _. apply (unfinished_private g g1) in Hu; [|done..]. wp_local.
  eapply solo_store_anchor; [exact Hnew|]. intros g2 P2 I2 Hnew2 _. apply (unfinished_private g1 g2) in Hu; [|done..].
  pose proof (private_trans _ _ _ P1 P2) as P12. clear P1 P2 Hnew I1. wp_local. pose proof Hu as [Hc Ea En Es Ee Ev].
  assert (Ep2 : pnodes g2 !! p = Some np) by (destruct P12; congruence).
  destruct (stabilize_step cok w cok_other 0 (subs g2) i a n new s x p r np (solo_inv g2 I2) (proj1 Hi) Ea En
    (proj1 Hnew2) (proj2 Hnew2) Es Ev Ep2 El) as [Hs Hg].
  apply (solo_cas_anchor i a n new (set_state STATE_STABLE n)); try done. intros I3. wp_locals.
  destruct (after_anchor_calm i a new _ None None g2 Hi Hc I3 Hnew2) as (_ & _ & _ & Hcalm).
  apply HQ; [by apply Hcalm|by destruct P12|by destruct P12].
Qed.

Lemma wp_stabilize_solo s a n i x p r (Q : unit -> St -> Lo -> Prop) g l :
  0 <= i < w -> thread_id l = 0%nat -> unfinished g i a n s x p r -> aright n <> aleft n ->
  (forall g', calm g' -> window g' = window g -> hist g' = hist g -> Q tt g' l) -> wp P 0 (stabilize_side s a i) Q g l.
Proof.
  intros Hi Ht Hu Hd HQ. pose proof Hu as [Hc Ea En Es Ee Ev]. pose proof Hc as [HI _]. unfold stabilize_side.
  wp_local. apply (solo_anchor a n); [done|]. wp_local. apply (solo_ptr i a); [done|]. rewrite Z.eqb_refl. cbn [negb].
  assert (Hx : public_node g (end_ s n)).
  { apply (addrs_pub cok w (subs g) i _ (solo_inv g HI)). rewrite <- (elem_of_view s), Ev, Ee. by left. }
  destruct Hx as [nd End]. wp_local. apply (solo_link _ _ nd); [done|].
  destruct (neighbour no_window cok w 0 g i a n s nd HI (proj1 Hi) Ea En Hd End ltac:(by right)) as [r' Ev'].
  rewrite Ev in Ev'. injection Ev' as _ Hp _. rewrite <- Hp. clear Hp nd End. rewrite Ee.
  wp_local. apply (solo_ptr i a); [done|]. rewrite Z.eqb_refl. cbn [negb].
  assert (Hp : public_node g p).
  { apply (addrs_pub cok w (subs g) i _ (solo_inv g HI)). rewrite <- (elem_of_view s), Ev. set_solver. }
  destruct Hp as [np Ep]. wp_local. apply (solo_link _ _ np); [done|]. wp_local.
  destruct (Z.eqb_spec (link s np) x) as [El|El]; cbn [negb].
  - wp_locals. by apply (wp_commit_solo s a n i x p r np).
  - wp_local. apply (solo_ptr i a); [done|]. rewrite Z.eqb_refl. cbn [negb]. wp_local.
    intros g1 R1 I1 _. rewrite (alone_eq _ _ R1). pose proof Ep as [Ep' Pp]%pub_lookup. unfold lookup_dnode. rewrite Ep'.
    cbn [mbind option_bind]. rewrite decide_True by done.
    destruct (relink_step cok w 0 (subs g) i a n s x p r np (solo_inv g HI) (proj1 Hi) Ea En Es Ev Ep El) as [Hs Hg].
    destruct (deques_step no_window cok w P 0 g _ HI Hs Hg) as [HG HI2]. split; [exact HG|split; [exact HI2|]].
    set (g2 := set_subs _ g). wp_locals. apply (wp_commit_solo s a n i x p r (set_link s x np)); try done.
    + split; try done. split; [exact HI2|]. apply Hc.
    + cbn. by rewrite (pub_write_pub p _ np _ Ep), lookup_insert_eq.
    + apply link_set.
Qed.

(** *** Pushes *)

Lemma calm_subs ok g g' : subs g' = subs g -> calm_but ok g -> calm_but ok g'.
Proof. intros E [[_ HI] Hst]. split; [split; [done|by rewrite E]|]. unfold public_anchor in *. by rewrite E. Qed.

(** Where a window function leaves a thread that runs alone: at deque [i], [R] holds
    of the window and of the thread's variables. *)
Definition arrived (R : W -> Lo -> Prop) g0 g l : Prop :=
  subs g = subs g0 /\ lok l /\ R (window g) l /\ anchor_of (thread_index l) g = Some (anchor_ptr (thread_Window l)).

Lemma wp_find_put_solo s R (Q : Z * Z -> St -> Lo -> Prop) g l :
  wp P 0 (window_put s) (fun _ g' l' => arrived R g g' l') g l ->
  (forall g' l', arrived R g g' l' -> Q (anchor_ptr (thread_Window l'), thread_index l') g' l') -> wp P 0 (find_put s) Q g l.
Proof.
  intros Hput HQ. unfold find_put. apply (wp_while P 0 _ _ _ _ (fun _ _ g' l' => g' = g /\ l' = l) 0%nat); [done|].
  intros m [] g1 l1 [-> ->]. wp_local. eapply wp_mono; [|exact Hput]. intros [] g1 l1 Ha. unfold my. wp_locals.
  pose proof Ha as (_ & _ & _ & Ea). apply (solo_ptr _ (anchor_ptr (thread_Window l1))); [done|]. rewrite Z.eqb_refl. wp_locals. by apply HQ.
Qed.

(** The exchange that pushes. *)
Lemma wp_push_cas_solo s i a n next nw node nd (Q : bool -> St -> Lo -> Prop) g l :
  0 <= i < w -> thread_id l = 0%nat -> calm g -> anchor_of i g = Some a -> public_anchor g a n ->
  own_anchor 0 g next nw -> own_node 0 g node nd -> (forall s, link s nd = 0 \/ public_node g (link s nd)) ->
  push_case s n nw node nd -> counts nw = put_count s (counts n) ->
  (forall g', p_inv B g' -> window g' = window g -> hist g' = (0%nat, DPush s i (node, val nd)) :: hist g ->
     anchor_of i g' = Some next -> public_anchor g' next nw -> calm_but (fun j => j <> i) g' -> (state nw = STATE_STABLE -> calm g') ->
     Q true g' l) ->
  wp P 0 (cas_anchor i a next (Pushed s)) Q g l.
Proof.
  intros Hi Ht Hc Ea En Hnext [Pnd End] Hlinks Hcase Hcount HQ. pose proof Hc as [HI _].
  assert (Hend : end_ s nw = node) by (destruct Hcase as [(_ & H & _)|(_ & _ & _ & H & _)]; [apply H|exact H]).
  assert (Hev : event_of i n nw (Pushed s) (nheap (subs g)) = Some (DPush s i (node, val nd))).
  { cbn [event_of]. rewrite Hend. unfold lookup_dnode in End. by rewrite End. }
  destruct (cur_at cok w (subs g) i a n (solo_inv g HI) (proj1 Hi) Ea En) as [_ Hcur].
  destruct (push_step cok w cok_other 0 (subs g) i a n next nw s node nd (solo_inv g HI) (proj1 Hi) Ea En
    (proj1 Hnext) (proj2 Hnext) Pnd End Hlinks Hcase ltac:(rewrite Hcount; by apply cok_put)) as [Hs Hg].
  apply (solo_cas_anchor i a n next nw); try done; rewrite Hev; cbn [pushed_node]; rewrite Hend; [done..|].
  intros I2. assert (Hc' : calm_but (fun j => j <> i) g).
  { split; [done|]. intros j b m Hj _. by apply Hc. }
  destruct (after_anchor_calm i a next nw (Some node) (Some (DPush s i (node, val nd))) g Hi Hc' I2 Hnext) as (H1 & H2 & H3 & H4).
  by apply HQ.
Qed.

Lemma wp_push_solo s k v R (Q : Z -> St -> Lo -> Prop) g l :
  calm g -> thread_id l = 0%nat ->
  (forall g1, private_step g g1 -> calm g1 ->
     let l1 := set_thread_Window (set_contention 0 (thread_Window l)) l in
     wp P 0 (window_put s) (fun _ g' l' => arrived R g1 g' l') g1 l1) ->
  (forall i p g' l', 0 <= i < w -> thread_index l' = i -> calm g' -> lok l' -> R (window g') l' -> hist g' = (0%nat, DPush s i (p, v)) :: hist g -> Q 1 g' l') ->
  wp P 0 (push s k v) Q g l.
Proof.
  intros Hc Ht Hput HQ. unfold push. wp_local. unfold create_node. apply solo_alloc_dnode; [done|].
  intros node g1 P1 I1 Hnode. apply (calm_private _ g g1 P1 I1) in Hc. wp_local. unfold upd. wp_locals.
  apply (wp_while P 0 _ _ _ _ (fun _ next g' l' => next = 0 /\ g' = g1 /\ l' = set_thread_Window (set_contention 0 (thread_Window l)) l) 0%nat); [done|].
  intros m next0 g1' l1' (-> & -> & ->). unfold push_body. wp_local. unfold maybe_create_anchor. cbn [Z.eqb].
  unfold create_anchor. apply solo_alloc_anchor; [done|]. intros next g2 P2 I2 Hnext Hn0 Hkeep.
  apply Hkeep in Hnode. clear Hkeep. apply (calm_private _ g1 g2 P2 I2) in Hc. pose proof (private_trans _ _ _ P1 P2) as P12. clear P1 P2 I1 I2.
  wp_local. eapply wp_find_put_solo; [by apply Hput|]. intros g3 l3 (E3 & Hl3 & HR & Ea). set (i := thread_index l3) in *. set (a := anchor_ptr _) in *.
  apply (calm_subs _ g2 g3 E3) in Hc. assert (Hnode3 : own_node 0 g3 node (mkNode v k 0 0)) by (unfold own_node, lookup_dnode; by rewrite E3).
  assert (Hnext3 : own_anchor 0 g3 next (mkAnchor STATE_STABLE 0 0 zero_counts)) by (unfold own_anchor, lookup_anchor; by rewrite E3).
  assert (Hh3 : hist g3 = hist g) by (rewrite E3; by destruct P12).
  assert (Hi : 0 <= i < w) by (by destruct Hl3). assert (Ht3 : thread_id l3 = 0%nat) by (by destruct Hl3).
  destruct (cur_anchor g3 i (proj1 Hc) Hi) as (a' & n & Ea' & En). assert (a' = a) as -> by congruence. clear Ea' E3 Hnode Hnext.
  pose proof (proj2 Hc i a n (proj1 Hi) Logic.I Ea En) as Hstable.
  wp_local. apply (solo_anchor a n); [done|]. destruct (Z.eqb_spec (end_ s n) 0) as [E0|E0].
  - wp_local. eapply solo_store_anchor; [exact Hnext3|]. intros g4 P4 I4 Hnext4 Hk4. apply Hk4 in Hnode3. wp_local.
    apply (calm_private _ g3 g4 P4 I4) in Hc. destruct P4 as [W4 A4 D4 _ H4 N4].
    apply (wp_push_cas_solo s i a n next (mkAnchor (state n) node node (put_count s (counts n))) node (mkNode v k 0 0)); try done; try congruence.
    + intros []; by left.
    + left. split; [done|split; [by intros []|done]].
    + intros g5 I5 W5 D5 _ _ _ Hc5. wp_locals. apply (HQ i node); try done; [by apply Hc5|congruence|]. rewrite D5, D4, Hh3. done.
  - rewrite Hstable, Z.eqb_refl. wp_local. eapply solo_store_dnode; [exact Hnode3|]. intros g4 P4 I4 Hnode4 Hk4. apply Hk4 in Hnext3. wp_local.
    eapply solo_store_anchor; [exact Hnext3|]. intros g5 P5 I5 Hnext5 Hk5. apply Hk5 in Hnode4. clear Hk4 Hk5 Hnext3.
    pose proof (private_trans _ _ _ P4 P5) as P45. clear P4 P5 I4. apply (calm_private _ g3 g5 P45 I5) in Hc.
    destruct (anchor_ends no_window cok w 0 g5 a n I5 ltac:(by apply (private_anchor g3))) as (He & Hpub & _).
    pose proof P45 as [W5 A5 D5 _ H5 N5]. wp_local.
    apply (wp_push_cas_solo s i a n next (set_state (push_state s) (set_end s node (set_counts (put_count s (counts n)) n)))
      node (set_link (opp s) (end_ s n) (mkNode v k 0 0))); try done; [congruence|by apply (private_anchor g3)|..].
    + intros s'. destruct s, s'; cbn; [by left|right; by apply (Hpub Left)|right; by apply (Hpub Right)|by left].
    + right. split; [done|split; [done|split; [apply link_set|]]]. by destruct s.
    + by destruct s.
    + intros g6 I6 W6 D6 Ea6 En6 Hc6 _. wp_local.
      assert (Ev : view s (addrs_of i g6) = node :: end_ s n :: tail (view s (addrs_of i g5))).
      { rewrite D6, addrs_push, view_view. cbn [fst]. f_equal. destruct (cur_at cok w (subs g5) i a n (solo_inv g5 I5) (proj1 Hi)
          ltac:(congruence) ltac:(by apply (private_anchor g3))) as [Hat _].
        rewrite (aa_end _ _ _ _ Hat s) in E0 |- *. by destruct (view s (addrs_of i g5)). }
      assert (Hends : aright (set_state (push_state s) (set_end s node (set_counts (put_count s (counts n)) n))) <>
        aleft (set_state (push_state s) (set_end s node (set_counts (put_count s (counts n)) n)))).
      { destruct (anchor_ends no_window cok w 0 g6 next _ I6 En6) as (_ & _ & [Es|(s' & _ & Hd & _)]); [|done].
        cbn in Es. by destruct (push_state_stable s). }
      eapply (wp_stabilize_solo s next _ i node (end_ s n)); [done|done| |exact Hends|].
      * split; [exact Hc6|done|exact En6|done|by destruct s|exact Ev].
      * intros g7 Hc7 W7 D7. wp_locals. apply (HQ i node); try done; [congruence|]. by rewrite D7, D6, D5, Hh3, val_set.
Qed.

(** *** Pops *)

(** A window function for a pop says that there is nothing, or leaves the thread at a
    deque that is not empty. *)
Definition arrived_get (R E : W -> Lo -> Prop) g0 g l : Prop :=
  subs g = subs g0 /\ lok l /\
  (empty_check (thread_Window l) = 1 /\ E (window g) l \/
   empty_check (thread_Window l) <> 1 /\ arrived R g0 g l /\ elems (thread_index l) (hist g) <> []).

Lemma wp_find_get_solo s R E (Q : option (Z * Z) -> St -> Lo -> Prop) g l :
  wp P 0 (window_get s) (fun _ g' l' => arrived_get R E g g' l') g l ->
  (forall g' l', subs g' = subs g -> lok l' -> E (window g') l' -> Q None g' (count_stat inc_null l')) ->
  (forall g' l', arrived R g g' l' -> elems (thread_index l') (hist g') <> [] ->
     Q (Some (anchor_ptr (thread_Window l'), thread_index l')) g' l') -> wp P 0 (find_get s) Q g l.
Proof.
  intros Hget HE HQ. unfold find_get. apply (wp_while P 0 _ _ _ _ (fun _ _ g' l' => g' = g /\ l' = l) 0%nat); [done|].
  intros m [] g1 l1 [-> ->]. wp_local. eapply wp_mono; [|exact Hget]. intros [] g1 l1 (E1 & Hl1 & Hcase). unfold my. wp_locals.
  destruct Hcase as [[-> HE1]|(Hne & Ha & Hel)]; [cbn [Z.eqb]; wp_locals; by apply HE|].
  destruct (Z.eqb_spec (empty_check (thread_Window l1)) 1) as [|_]; [done|]. wp_locals.
  pose proof Ha as (_ & _ & _ & Ea). apply (solo_ptr _ (anchor_ptr (thread_Window l1))); [done|]. rewrite Z.eqb_refl. wp_locals. by apply HQ.
Qed.

Lemma wp_pop_cas_solo s i a n next nw0 nw prev (Q : Z + option Z -> St -> Lo -> Prop) g l :
  0 <= i < w -> thread_id l = 0%nat -> calm g -> anchor_of i g = Some a -> public_anchor g a n -> aleft n <> 0 ->
  own_anchor 0 g next nw0 -> pop_case s n nw prev ->
  (aright n <> aleft n -> exists nd, pnodes g !! end_ s n = Some nd /\ link (opp s) nd = prev) ->
  counts nw = get_count s (counts n) ->
  (forall nd g', calm g' -> window g' = window g -> pnodes g' !! end_ s n = Some nd ->
     head (view s (elems i (hist g))) = Some (end_ s n, val nd) -> hist g' = (0%nat, DPop s i (end_ s n, val nd)) :: hist g ->
     Q (inr (Some (end_ s n))) g' l) ->
  wp P 0 (store_anchor next nw ;;; pop_cas s i a next n) Q g l.
Proof.
  intros Hi Ht Hc Ea En Hne Hnext Hcase Hprev Hcount HQ. wp_local. eapply solo_store_anchor; [exact Hnext|].
  intros g2 P2 I2 Hnext2 _. apply (calm_private _ g g2 P2 I2) in Hc. apply (private_anchor g g2 a n P2) in En.
  pose proof P2 as [W2 A2 D2 _ H2 N2]. rewrite <- A2 in Ea. rewrite <- N2 in Hprev. rewrite <- W2, <- D2 in HQ. clear W2 A2 D2 H2 N2 Hnext P2 g.
  destruct (anchor_ends no_window cok w 0 g2 a n I2 En) as (He & Hpub & _). destruct (Hpub s ltac:(by rewrite He)) as [nd End].
  pose proof (proj2 Hc i a n (proj1 Hi) Logic.I Ea En) as Hstable. pose proof End as [End' Pnd]%pub_lookup.
  assert (Hcase' : aright n = aleft n /\ (forall s', end_ s' nw = 0) /\ state nw = state n \/
      aright n <> aleft n /\ state n = STATE_STABLE /\ end_ s nw = link (opp s) nd /\
      end_ (opp s) nw = end_ (opp s) n /\ state nw = STATE_STABLE).
  { destruct Hcase as [?|(Hd & Es & E1 & E2)]; [by left|right]. destruct (Hprev Hd) as (nd' & E' & El).
    assert (nd' = nd) as -> by congruence. split; [done|split; [done|split; [congruence|done]]]. }
  destruct (cur_at cok w (subs g2) i a n (solo_inv g2 I2) (proj1 Hi) Ea En) as [_ Hcur].
  pose proof (head_cur cok w (subs g2) i a n s nd (solo_inv g2 I2) (proj1 Hi) Ea En Hne End') as Hhead.
  destruct (pop_step cok w cok_other 0 (subs g2) i a n next nw s nd (solo_inv g2 I2) (proj1 Hi) Ea En (proj1 Hnext2) (proj2 Hnext2)
    Hne End' Hcase' ltac:(rewrite Hcount; by eapply cok_get)) as (Hs & Hg & _).
  assert (Hev : event_of i n nw (Popped s) (nheap (subs g2)) = Some (DPop s i (end_ s n, val nd))) by (cbn [event_of]; by rewrite End').
  unfold pop_cas. wp_local. apply (solo_cas_anchor i a n next nw); try done; rewrite Hev; cbn [pushed_node]; [done..|].
  intros I3. wp_locals. assert (Hc' : calm_but (fun j => j <> i) g2) by (split; [done|]; intros j b m Hj _; by apply Hc).
  destruct (after_anchor_calm i a next nw None (Some (DPop s i (end_ s n, val nd))) g2 Hi Hc' I3 Hnext2) as (_ & _ & _ & H4).
  apply (HQ nd); try done. apply H4. destruct Hcase as [(_ & _ & Es)|(_ & _ & _ & _ & Es)]; congruence.
Qed.

Lemma wp_pop_solo s R E (Q : Z -> St -> Lo -> Prop) g l :
  calm g -> thread_id l = 0%nat ->
  (forall g1, private_step g g1 -> calm g1 ->
     let l1 := set_thread_Window (set_contention 0 (thread_Window l)) l in
     wp P 0 (window_get s) (fun _ g' l' => arrived_get R E g1 g' l') g1 l1) ->
  (forall g' l', calm g' -> lok l' -> E (window g') l' -> hist g' = hist g -> Q 0 g' (count_stat inc_null l')) ->
  (forall i p v g' l', 0 <= i < w -> thread_index l' = i -> calm g' -> lok l' -> R (window g') l' ->
     head (view s (elems i (hist g))) = Some (p, v) -> hist g' = (0%nat, DPop s i (p, v)) :: hist g -> Q v g' l') ->
  wp P 0 (pop s) Q g l.
Proof.
  intros Hc Ht Hget HE HQ. unfold pop. wp_local. unfold upd. wp_locals.
  apply (wp_while P 0 _ _ _ _ (fun _ next g' l' => next = 0 /\ g' = g /\ l' = set_thread_Window (set_contention 0 (thread_Window l)) l) 0%nat); [done|].
  intros m next0 g1' l1' (-> & -> & ->). unfold pop_body. wp_local. unfold maybe_create_anchor. cbn [Z.eqb].
  unfold create_anchor. apply solo_alloc_anchor; [done|]. intros next g2 P2 I2 Hnext Hn0 _.
  apply (calm_private _ g g2 P2 I2) in Hc. wp_local. eapply wp_find_get_solo; [by apply Hget| |].
  { intros g3 l3 E3 Hl3 HE3. wp_locals. apply HE; try done; [by apply (calm_subs _ g2)|]. rewrite E3. by destruct P2. }
  intros g3 l3 (E3 & Hl3 & HR & Ea) Hel. set (i := thread_index l3) in *. set (a := anchor_ptr _) in *.
  apply (calm_subs _ g2 g3 E3) in Hc. assert (Hh3 : hist g3 = hist g) by (rewrite E3; by destruct P2).
  assert (Hnext3 : own_anchor 0 g3 next (mkAnchor STATE_STABLE 0 0 zero_counts)) by (unfold own_anchor, lookup_anchor; by rewrite E3).
  assert (Hi : 0 <= i < w) by (by destruct Hl3). assert (Ht3 : thread_id l3 = 0%nat) by (by destruct Hl3).
  destruct (cur_anchor g3 i (proj1 Hc) Hi) as (a' & n & Ea' & En). assert (a' = a) as -> by congruence. clear Ea' E3 Hnext.
  pose proof (proj2 Hc i a n (proj1 Hi) Logic.I Ea En) as Hstable. pose proof (solo_inv g3 (proj1 Hc)) as Hd3.
  assert (Hne : aleft n <> 0).
  { intros E0. apply (cur_empty cok w (subs g3) i a n Left Hd3 (proj1 Hi) Ea En) in E0. unfold addrs in E0. by apply fmap_nil_inv in E0. }
  destruct (anchor_ends no_window cok w 0 g3 a n (proj1 Hc) En) as (He & Hpub & _). destruct (Hpub s ltac:(by rewrite He)) as [nd0 End].
  assert (Hdone : forall nd g', calm g' -> window g' = window g3 -> pnodes g' !! end_ s n = Some nd ->
     head (view s (elems i (hist g3))) = Some (end_ s n, val nd) -> hist g' = (0%nat, DPop s i (end_ s n, val nd)) :: hist g3 ->
     wp P 0 (load_val (end_ s n)) Q g' l3).
  { intros nd g' Hc' W' Ep Hh D'. apply (solo_val _ nd); [done|]. apply (HQ i (end_ s n)); try done; congruence. }
  wp_local. apply (solo_anchor a n); [done|]. destruct (Z.eqb_spec (aright n) (aleft n)) as [Eq|Hd].
  - eapply (wp_pop_cas_solo s i a n next _ _ 0); try done.
    left. split; [done|split; [by intros []|done]].
  - rewrite Hstable, Z.eqb_refl. wp_local. apply (solo_ptr i a); [done|]. rewrite Z.eqb_refl. cbn [negb]. wp_local.
    apply (solo_link _ _ nd0); [done|]. eapply (wp_pop_cas_solo s i a n next _ _ (link (opp s) nd0)); try done.
    + right. split; [done|split; [done|]]. by destruct s.
    + intros _. by exists nd0.
    + by destruct s.
Qed.

(** *** Sizes *)

Notation size_of i g := (Z.of_nat (length (elems i (hist g)))).

Lemma last_end g i a n ys y :
  p_inv B g -> 0 <= i -> anchor_of i g = Some a -> public_anchor g a n -> addrs_of i g = ys ++ [y] -> aright n = y.
Proof.
  intros HI Hi Ea En E. destruct (cur_at cok w (subs g) i a n (solo_inv g HI) Hi Ea En) as [Hat _].
  pose proof (aa_end _ _ _ _ Hat Right) as H. cbn [end_ view] in H. rewrite E, reverse_app in H. exact H.
Qed.

(** The nodes are counted from the left end to the right one. *)
Lemma wp_size_walk_solo i a n (Q : option Z -> St -> Lo -> Prop) g l :
  0 <= i < w -> calm g -> anchor_of i g = Some a -> public_anchor g a n -> size_of i g < 2 ^ 31 ->
  Q (Some (size_of i g)) g l -> wp P 0 (size_walk i a n) Q g l.
Proof.
  intros Hi Hc Ea En Hsz HQ. pose proof Hc as [HI _]. pose proof (solo_inv g HI) as Hd. pose proof (proj2 Hc i a n (proj1 Hi) Logic.I Ea En) as Hst.
  destruct (cur_at cok w (subs g) i a n Hd (proj1 Hi) Ea En) as [Hat _]. pose proof (aa_end _ _ _ _ Hat Left) as Hleft. cbn [end_ view] in Hleft.
  pose proof (aa_links _ _ _ _ Hat) as Hl. rewrite Hst in Hl. apply (links_stable _ _ Left) in Hl as [Hl _]. cbn [view opp] in Hl.
  assert (Hlen : size_of i g = Z.of_nat (length (addrs_of i g))) by (unfold addrs; by rewrite length_fmap). rewrite Hlen in *.
  unfold size_walk. destruct (addrs_of i g) as [|y0 ys0] eqn:E0.
  - apply (wp_while P 0 _ _ _ _ (fun _ x g' l' => x = (0, 0) /\ g' = g /\ l' = l) 0%nat); [by rewrite Hleft|].
    intros m x g' l' (-> & -> & ->). cbn [Z.eqb negb]. wp_locals. done.
  - cbn in Hleft. rewrite <- E0 in *. rewrite Hleft.
    apply (wp_while P 0 _ _ _ _ (fun m x g' l' => g' = g /\ l' = l /\ exists pre rest, addrs_of i g = pre ++ x.1 :: rest /\
      x.2 = Z.of_nat (length pre) /\ m = length rest) (length ys0)).
    { split; [done|split; [done|]]. by exists [], ys0. }
    intros m [y sz] g' l' (-> & -> & pre & rest & E & Es & ->). cbn [fst snd] in *.
    assert (Hy : y <> 0) by (apply (addrs_nonzero cok w (subs g) i y Hd); rewrite E; set_solver).
    destruct (Z.eqb_spec y 0) as [|_]; [done|]. cbn [negb]. wp_local. apply (solo_ptr i a); [done|]. rewrite Z.eqb_refl. cbn [negb].
    assert (Hll : length (addrs_of i g) = (length pre + S (length rest))%nat) by (rewrite E, length_app; done).
    subst sz. rewrite sign_small by (cbn; lia). destruct (Z.eqb_spec (aright n) y) as [Er|Er].
    + wp_locals. replace (Z.of_nat (length pre) + 1) with (Z.of_nat (length (addrs_of i g))); [done|].
      destruct rest as [|z rest _] using rev_ind; [cbn in Hll; lia|]. exfalso.
      assert (Hz : aright n = z) by (apply (last_end g i a n (pre ++ y :: rest) z HI (proj1 Hi) Ea En); by rewrite E, <- app_assoc).
      pose proof (di_nodup _ _ _ Hd i) as Hnd. rewrite E in Hnd. apply NoDup_app in Hnd as (_ & _ & Hnd).
      apply NoDup_cons in Hnd as [Hnd _]. apply Hnd. rewrite <- Er, Hz. set_solver.
    + destruct rest as [|z rest]; [by destruct Er; apply (last_end g i a n pre y HI (proj1 Hi) Ea En)|].
      rewrite E in Hl. apply follows_app in Hl as [_ Hl]. apply follows_head in Hl as (nd & Ey & Ez).
      wp_local. apply (solo_link _ _ nd); [done|]. wp_locals. rewrite Ez. exists (length rest). split; [intros _; cbn; lia|].
      split; [done|split; [done|]]. exists (pre ++ [y]), rest. cbn [fst snd]. rewrite <- app_assoc, length_app. cbn [length].
      split; [exact E|split; [lia|done]].
Qed.

Lemma wp_deque_size_solo i (Q : Z -> St -> Lo -> Prop) g l :
  0 <= i < w -> calm g -> size_of i g < 2 ^ 31 -> Q (size_of i g) g l -> wp P 0 (deque_size i) Q g l.
Proof.
  intros Hi Hc Hsz HQ. unfold deque_size. destruct (cur_anchor g i (proj1 Hc) Hi) as (a & n & Ea & En).
  pose proof (proj2 Hc i a n (proj1 Hi) Logic.I Ea En) as Hst.
  apply (wp_while P 0 _ _ _ _ (fun _ _ g' l' => g' = g /\ l' = l) 0%nat); [done|]. intros m [] g' l' [-> ->].
  wp_local. unfold size_anchor. apply (wp_while P 0 _ _ _ _ (fun _ _ g' l' => g' = g /\ l' = l) 0%nat); [done|]. intros m' [] g' l' [-> ->].
  wp_local. apply (solo_ptr i a); [done|]. wp_local. apply (solo_anchor a n); [done|]. rewrite Hst, Z.eqb_refl. cbn [negb]. wp_locals.
  apply (solo_ptr i a); [done|]. rewrite Z.eqb_refl. wp_locals. apply (solo_anchor a n); [done|]. wp_local.
  apply wp_size_walk_solo; [done..|]. by wp_locals.
Qed.

Lemma wp_deque_size_2D_solo (Q : Z -> St -> Lo -> Prop) g l :
  0 <= w < 2 ^ 31 -> calm g -> sum_upto (fun i => size_of i g) w < 2 ^ 31 -> Q (sum_upto (fun i => size_of i g) w) g l -> wp P 0 (deque_size_2D w) Q g l.
Proof.
  intros Hw Hc Hsz HQ. unfold deque_size_2D.
  apply (wp_while P 0 _ _ _ _ (fun m x g' l' => g' = g /\ l' = l /\ 0 <= x.1 <= w /\ x.2 = sum_upto (fun i => size_of i g) x.1 /\
    m = Z.to_nat (w - x.1)) (Z.to_nat w)).
  { split; [done|split; [done|cbn [fst snd]; split; [lia|split; [done|lia]]]]. }
  intros m [i sz] g' l' (-> & -> & Hi & Hs & ->). cbn [fst snd] in *. subst sz. destruct (Z.ltb_spec i w) as [Hlt|Hge].
  - pose proof (sum_upto_mono (fun i => size_of i g) (i + 1) w ltac:(lia) ltac:(intros; cbn; lia)) as Hpart.
    rewrite (sum_upto_succ _ i) in Hpart by lia.
    assert (H0 : 0 <= sum_upto (fun i => size_of i g) i) by (apply sum_upto_nonneg; [lia|intros; cbn; lia]).
    wp_local. apply wp_deque_size_solo; [lia|done|lia|]. wp_locals. exists (Z.to_nat (w - (i + 1))). cbn [fst snd].
    rewrite !sign_small by (cbn; lia). split; [intros _; lia|]. split; [done|split; [done|split; [lia|]]].
    split; [by rewrite sum_upto_succ by lia|done].
  - wp_locals. by assert (i = w) as -> by lia.
Qed.
End solo.
