(* ===== verification/Deque2DcSeq.v ===== *)
(** The 2Dc deque (Deque2Dc.v) for a thread that runs alone: every operation ends,
    a pop finds nothing only if every deque is empty, sizes are exact, and the window
    keeps the sizes of the deques within [depth] of each other. *)
From S2P Require Import Prelude Conc Random Thread StackHeap Shared SubDeques Deques DequeRuns Deque2Dc DequeSolo.

(** ** Specification: deques that are kept balanced *)

(** What each deque holds, the leftmost first. *)
Notation dstate := (Z -> list Z).

Inductive deques_do (w : Z) : dop -> Z -> dstate -> dstate -> Prop :=
| do_push s k v i d d' :
    0 <= i < w -> (forall j, d' j = if decide (j = i) then view s (v :: view s (d j)) else d j) ->
    deques_do w (DoPush s k v) 1 d d'
| do_pop s v i r d d' :
    0 <= i < w -> view s (d i) = v :: r -> (forall j, d' j = if decide (j = i) then view s r else d j) ->
    deques_do w (DoPop s) v d d'
| do_empty s d : (forall i, 0 <= i < w -> d i = []) -> deques_do w (DoPop s) 0 d d
| do_size d : deques_do w DoSize (sum_upto (fun i => Z.of_nat (length (d i))) w) d d.

Definition balanced (w depth : Z) (d : dstate) : Prop :=
  forall i j, 0 <= i < w -> 0 <= j < w -> Z.of_nat (length (d i)) <= Z.of_nat (length (d j)) + depth.

(** The operations done so far and their results; the deques are balanced throughout. *)
Inductive deques_run (w depth : Z) : list (dop * Z) -> dstate -> Prop :=
| run_nil d : (forall i, d i = []) -> deques_run w depth [] d
| run_snoc done o r d d' :
    deques_run w depth done d -> deques_do w o r d d' -> balanced w depth d' -> deques_run w depth (done ++ [(o, r)]) d'.

(** ** The window *)

Section window.
Context {AN : Allocator node_t} {AA : Allocator (anchor_t Z)} (set : conf).
Notation cok := (count_ok (fun _ => 0)).
Notation w := (width set).
Notation B := (joint no_window (dprot cok w)).
Notation P := (alone B).
Notation St := (shared window_t (deques Z)).
Notation Lo := (tls (dlocal window_t)).
Notation lok := (local_ok (fun _ : window_t => True) w 0).
Notation hist g := (dhist (subs g)).
Notation size_of i h := (Z.of_nat (length (elems i h))).
Notation copy l := (windows (thread_Window l)).
Notation anchor_of i g := (anchors (subs g) !! Z.to_nat i).
Implicit Types (g : St) (l : Lo) (h : list (nat * devent)).

(** What [create_deque] makes of the parameters. *)
Record sizes_ok : Prop := mkSizesOk {
  so_width : 1 <= w < 2 ^ 31;
  so_depth : 1 <= depth set < 2 ^ 31;
  so_shift : 1 <= shift_up set <= depth set;
  so_down : shift_down set = shift_up set;
}.
Context (Hset : sizes_ok).

(** The window stops at [depth], [depth + shift], ..., and the sizes are inside it. *)
Record inside h (v : window_t) : Prop := mkInside {
  in_row : exists k, 0 <= k /\ max v = depth set + k * shift_up set;
  in_sizes i : 0 <= i < w -> max v - depth set <= size_of i h <= max v;
}.

(** The number of events bounds everything. *)
Definition few h : Prop := Z.of_nat (length h) < 2 ^ 31.

Lemma elems_length i h : (length (elems i h) <= length h)%nat.
Proof.
  induction h as [|[u e] h IH]; cbn; [done|]. destruct (decide (dindex e = i)); [|lia].
  destruct e as [s ? x|s ? x]; cbn [applies]; rewrite view_length; cbn [length]; [rewrite view_length; lia|].
  pose proof (view_length s (elems i h)). destruct (view s (elems i h)); cbn in *; lia.
Qed.

Lemma inside_max h v : inside h v -> few h -> depth set <= max v < 2 ^ 32.
Proof.
  intros [(k & Hk & E) Hs] Hf. destruct Hset as [H1 H2 H3 _]. specialize (Hs 0 ltac:(lia)). pose proof (elems_length 0 h).
  unfold few in Hf. nia.
Qed.

Lemma inside_up h v ver :
  inside h v -> (forall i, 0 <= i < w -> max v <= size_of i h) -> inside h (mkWindow (max v + shift_up set) ver).
Proof.
  intros [(k & Hk & E) Hs] Hall. destruct Hset as [_ _ H3 _]. split; cbn [max].
  - exists (k + 1). lia.
  - intros i Hi. specialize (Hs i Hi). specialize (Hall i Hi). lia.
Qed.

Lemma inside_down h v ver j :
  inside h v -> 0 <= j < w -> elems j h <> [] -> (forall i, 0 <= i < w -> elems i h <> [] -> size_of i h <= max v - depth set) ->
  (forall i, 0 <= i < w -> size_of i h = max v - depth set /\ elems i h <> []) /\ depth set + shift_up set <= max v /\
  inside h (mkWindow (max v - shift_up set) ver).
Proof.
  intros [(k & Hk & E) Hs] Hj Hne Hall. destruct Hset as [_ _ H3 _].
  assert (Hpos : 1 <= size_of j h) by (destruct (elems j h); [done|cbn; lia]). pose proof (Hall j Hj Hne) as Hj'.
  assert (Heq : forall i, 0 <= i < w -> size_of i h = max v - depth set /\ elems i h <> []).
  { intros i Hi. specialize (Hs i Hi). assert (Hi' : elems i h <> []) by (intros E'; rewrite E' in Hs; cbn in Hs; lia).
    specialize (Hall i Hi Hi'). split; [lia|done]. }
  split; [done|]. assert (1 <= k) by nia. split; [nia|]. split; cbn [max].
  - exists (k - 1). lia.
  - intros i Hi. destruct (Heq i Hi) as [-> _]. lia.
Qed.

Lemma inside_push h v t s i x : inside h v -> size_of i h < max v -> inside ((t, DPush s i x) :: h) v.
Proof.
  intros [Hr Hs] Hlt. split; [done|]. intros j Hj. specialize (Hs j Hj). cbn. destruct (decide (i = j)) as [<-|]; [|done].
  rewrite view_length. cbn [length]. rewrite view_length. lia.
Qed.
Lemma inside_pop h v t s i x : inside h v -> max v - depth set < size_of i h -> inside ((t, DPop s i x) :: h) v.
Proof.
  intros [Hr Hs] Hlt. split; [done|]. intros j Hj. specialize (Hs j Hj). cbn. destruct (decide (i = j)) as [<-|]; [|done].
  rewrite view_length. pose proof (view_length s (elems i h)). destruct (view s (elems i h)); cbn in *; lia.
Qed.

(** *** A thread that runs alone *)

Lemma seq_eq g g' : p_rely P 0 g g' -> g' = g.
Proof. intros H. by apply H. Qed.

Lemma seq_load {X} (f : window_t -> X) (Q : X -> St -> Lo -> Prop) g l :
  Q (f (window g)) g l -> wp P 0 (load_var (fun g => f (window g))) Q g l.
Proof. intros HQ. apply wp_load_var; [apply _|]. intros g1 R1 _ _. by rewrite (seq_eq _ _ R1). Qed.

Lemma seq_same_version (Q : bool -> St -> Lo -> Prop) g l :
  Q (version (copy l) =? version (window g)) g l -> wp P 0 same_version Q g l.
Proof. intros HQ. unfold same_version, my. wp_locals. apply seq_load. by wp_locals. Qed.

Lemma seq_copy_window (Q : unit -> St -> Lo -> Prop) g l :
  Q tt g (set_thread_Window (set_windows (window g) (thread_Window l)) l) -> wp P 0 copy_window Q g l.
Proof.
  intros HQ. unfold copy_window, upd. wp_local. apply seq_load. wp_local. apply seq_load. wp_locals. by destruct (window g).
Qed.

(** The thread's copy is the window, so that the exchange succeeds. *)
Lemma seq_shift_window d (Q : unit -> St -> Lo -> Prop) g l :
  copy l = window g -> p_inv B g ->
  (forall l', thread_Window l' = thread_Window l -> thread_id l' = thread_id l -> thread_index l' = thread_index l ->
     Q tt (set_window (mkWindow (u64 (max (window g) + d)) (u64 (version (window g) + 1))) g) l') ->
  wp P 0 (shift_window d) Q g l.
Proof.
  intros Ec HI HQ. unfold shift_window, my. wp_locals. intros g1 R1 I1 _. rewrite (seq_eq _ _ R1). cbv zeta.
  rewrite decide_True by done. split; [split; [intros _; split; [done|apply guar_refl]|done]|split; [by destruct HI|]].
  wp_locals. rewrite Ec. by apply HQ.
Qed.

Lemma seq_enter_window (Q : unit -> St -> Lo -> Prop) g l :
  contention (thread_Window l) = 0 ->
  (version (copy l) = version (window g) -> copy l = window g) ->
  Q tt g (set_thread_Window (set_windows (window g) (thread_Window l)) l) -> wp P 0 (enter_window set) Q g l.
Proof.
  intros Hc Hv HQ. unfold enter_window, contended, my. wp_locals. rewrite Hc. cbn [Z.eqb]. wp_locals. apply seq_same_version.
  destruct (Z.eqb_spec (version (copy l)) (version (window g))) as [E|E]; cbn [negb]; [|by apply seq_copy_window].
  wp_locals. rewrite <- (Hv E) in HQ. by destruct l as [? [] ? ? ?].
Qed.

Lemma seq_read_anchor (Q : anchor_t Z -> St -> Lo -> Prop) g l :
  p_inv B g -> lok l ->
  (forall a n, anchor_of (thread_index l) g = Some a -> public_anchor g a n ->
     Q n g (set_thread_Window (set_anchor_ptr a (thread_Window l)) l)) ->
  wp P 0 read_anchor Q g l.
Proof.
  intros HI Hl HQ. destruct (cur_anchor cok w g (thread_index l) HI ltac:(by destruct Hl)) as (a & n & Ea & En).
  unfold read_anchor, upd. wp_locals. apply (solo_ptr cok w _ a); [done|]. wp_locals. apply (solo_anchor cok w a n); [done|]. by apply HQ.
Qed.

(** The count of the anchor is the size of the deque. *)
Lemma count_size g i a n :
  p_inv B g -> few (hist g) -> 0 <= i -> anchor_of i g = Some a -> public_anchor g a n -> counts n = size_of i (hist g).
Proof.
  intros [_ HI] Hf Hi Ea En. destruct (cur_at cok w (subs g) i a n HI Hi Ea En) as [_ ->]. unfold few in Hf.
  pose proof (elems_length i (hist g)). rewrite wrap_small; lia.
Qed.

(** What the search for a deque knows; [h] is the history throughout. *)
Record searching (p : Z -> Prop) h g0 hops random g l : Prop := mkSearching {
  se_mem : g = g0;
  se_local : lok l;
  se_copy : copy l = window g;
  se_hops : 0 <= hops <= w;
  se_random : 0 <= random <= 2;
  se_first : random < 2 -> hops = 0;
  se_seen : seen w (thread_index l) hops p;
}.

(** Steps left until each deque was looked at. *)
Definition steps_left (hops random : Z) : nat := Z.to_nat (2 - random + (w - hops)).

Lemma seq_change_index (p : Z -> Prop) h g0 hops random (Q : Z * Z -> St -> Lo -> Prop) g l :
  searching p h g0 hops random g l -> hops < w -> p (thread_index l) ->
  (forall hops' random' l', searching p h g0 hops' random' g l' -> (steps_left hops' random' < steps_left hops random)%nat ->
     thread_Window l' = thread_Window l -> Q (hops', random') g l') ->
  wp P 0 (change_index set hops random) Q g l.
Proof.
  intros [H1 H2 H3 H4 H5 H6 H7] Hlt Hp HQ. destruct Hset as [Hw _ _ _]. unfold change_index, steps_left in *.
  destruct (Z.ltb_spec random 2) as [Hr|Hr].
  - wp_local. unfold random_index. apply wp_shared_random; [lia|]. intros r sd Hrr. wp_locals. rewrite sign_small by (cbn; lia).
    apply HQ; [|lia|done]. split; try done; cbn [thread_index set_thread_index count_stat]; [by destruct H2|lia|lia|].
    rewrite (H6 Hr). apply seen_none. lia.
  - wp_locals. pose proof (lo_index _ _ _ _ H2) as Hidx. rewrite (sign_small 32 (w - 1)) by (cbn; lia). rewrite (sign_small 32 (hops + 1)) by (cbn; lia).
    assert (E : (if thread_index l =? w - 1 then 0 else i32 (thread_index l + 1)) = next_index w (thread_index l)).
    { unfold next_index. destruct (Z.eqb_spec (thread_index l) (w - 1)), (Z.leb_spec w (thread_index l + 1)); try lia.
      apply sign_small; cbn; lia. }
    rewrite E. pose proof (next_index_range w (thread_index l) ltac:(lia) Hidx).
    apply HQ; [|lia|done]. split; try done; cbn [thread_index set_thread_index]; [by destruct H2|lia|lia|].
    by apply seen_next.
Qed.

Definition put_ready h (v : window_t) l : Prop := copy l = v /\ inside h v /\ size_of (thread_index l) h < max v.

Notation calm g := (calm_but cok w (fun _ => True) g).
Notation tok := (fun _ : window_t => True).

(** The deque looked at has room: the search is over. *)
Lemma seq_put_look (Q : Z * Z + unit -> St -> Lo -> Prop) g0 (K : prog St Lo (Z * Z + unit)) g l :
  subs g = subs g0 -> calm g -> lok l -> few (hist g) -> inside (hist g) (window g) -> copy l = window g ->
  (forall l', arrived tok w (put_ready (hist g)) g0 g l' -> Q (inr tt) g l') ->
  (forall a, max (window g) <= size_of (thread_index l) (hist g) ->
     wp P 0 K Q g (set_thread_Window (set_anchor_ptr a (thread_Window l)) l)) ->
  wp P 0 (let* n := read_anchor in
          let* gmax := load_var (fun g => max (window g)) in
          if counts n <? gmax then break tt else K) Q g l.
Proof.
  intros Es Hc Hl Hf Hin Ec Hyes Hno. wp_local. apply seq_read_anchor; [apply Hc|done|]. intros a n Ea En.
  wp_local. apply seq_load. rewrite (count_size g _ a n (proj1 Hc) Hf (proj1 (lo_index _ _ _ _ Hl)) Ea En).
  destruct (Z.ltb_spec (size_of (thread_index l) (hist g)) (max (window g))).
  - wp_locals. apply Hyes. split; [done|split; [by destruct Hl|split; [by split|done]]].
  - by apply Hno.
Qed.

Lemma seq_put_window s g l :
  calm g -> lok l -> few (hist g) -> inside (hist g) (window g) -> contention (thread_Window l) = 0 ->
  (version (copy l) = version (window g) -> copy l = window g) ->
  wp P 0 (window_put (Windows := windows_2Dc set) s) (fun _ g' l' => arrived tok w (put_ready (hist g)) g g' l') g l.
Proof.
  intros Hc Hl Hf Hin Hcont Hv. cbn [window_put windows_2Dc]. unfold put_window, upd. wp_locals. apply seq_enter_window; [done|done|].
  set (p := fun i => max (window g) <= size_of i (hist g)). pose proof Hset as [Hw _ _ _].
  apply (wp_while P 0 _ _ _ _ (fun m x g' l' => searching p (hist g) g x.1 x.2 g' l' /\ (steps_left x.1 x.2 <= m)%nat) (steps_left 0 0)).
  { split; [|done]. cbn [fst snd]. split; try done; [by destruct Hl|lia|apply seen_none; lia]. }
  intros m [hops random] g' l' [Hs Hm]. cbn [fst snd] in *. pose proof Hs as [-> Hl' Ec Hh Hr Hr0 Hseen]. unfold put_window_body. wp_local.
  destruct (Z.eqb_spec hops w) as [->|Hne].
  - assert (Hall : forall i, 0 <= i < w -> max (window g) <= size_of i (hist g)) by exact (seen_all _ _ _ _ Hseen ltac:(lia)).
    wp_local. apply seq_same_version. rewrite Ec, Z.eqb_refl. wp_local. apply seq_shift_window; [done|apply Hc|].
    intros l1 E1 E2 E3. wp_local. apply seq_copy_window. wp_locals.
    pose proof (inside_max (hist g) (window g) Hin Hf) as Hmax. destruct Hset as [_ Hd Hsh _].
    rewrite (wrap_small 64 (max (window g) + shift_up set)) by lia.
    set (g1 := set_window _ g). set (l2 := set_thread_Window _ l1).
    assert (Hin1 : inside (hist g) (window g1)) by by apply inside_up.
    apply (seq_put_look _ g); try done.
    + destruct Hl'. by split; unfold l2; cbn; rewrite ?E2, ?E3.
    + intros a Hge. exfalso. cbn in Hge. pose proof (in_sizes _ _ Hin (thread_index l1)) as Hsz. rewrite E3 in *.
      specialize (Hsz (lo_index _ _ _ _ Hl')). lia.
  - wp_local. apply (seq_put_look _ g); try done.
    intros a Hge. wp_local. apply seq_same_version. cbn [windows set_anchor_ptr thread_Window set_thread_Window]. rewrite Ec, Z.eqb_refl.
    wp_local. apply (seq_change_index p (hist g) g hops random); [|lia|done|].
    + split; try done. by destruct Hl'.
    + intros hops' random' l2 Hs2 Hlt E2. wp_locals. exists (steps_left hops' random'). split; [intros _; lia|]. split; [|done].
      destruct Hs2 as [? [] ? ? ? ? ?]. by split.
Qed.

Definition get_ready h (v : window_t) l : Prop := copy l = v /\ inside h v /\ max v - depth set < size_of (thread_index l) h.
Definition get_empty h (v : window_t) l : Prop := copy l = v /\ inside h v /\ forall i, 0 <= i < w -> elems i h = [].

(** Nothing to pop in the deque [i]; [notempty] says whether any deque seen holds something. *)
Definition unfit h (v : window_t) (notempty i : Z) : Prop :=
  (elems i h <> [] -> size_of i h <= max v - depth set) /\ (notempty = 0 -> elems i h = []).

Lemma searching_mono (p p' : Z -> Prop) h g0 hops random g l :
  (forall i, p i -> p' i) -> searching p h g0 hops random g l -> searching p' h g0 hops random g l.
Proof. intros Hp []. split; try done. intros j Hj Hc. by apply Hp, se_seen0. Qed.

(** The anchor says whether the deque is empty; it is not at address 0. *)
Lemma anchor_empty g i a n :
  p_inv B g -> 0 <= i -> anchor_of i g = Some a -> public_anchor g a n -> a <> 0 /\ (aleft n = 0 <-> elems i (hist g) = []).
Proof.
  intros [_ HI] Hi Ea En. split.
  - intros ->. apply pub_lookup in En as [En _]. destruct (di_aheap _ _ _ HI) as [H0 _]. congruence.
  - rewrite (cur_empty cok w (subs g) i a n Left HI Hi Ea En). unfold addrs. split; [apply fmap_nil_inv|by intros ->].
Qed.

Lemma seq_get_look (Q : Z * Z + unit -> St -> Lo -> Prop) g0 (K : anchor_t Z -> prog St Lo (Z * Z + unit)) g l :
  subs g = subs g0 -> calm g -> lok l -> few (hist g) -> inside (hist g) (window g) -> copy l = window g ->
  empty_check (thread_Window l) <> 1 ->
  (forall l', arrived_get tok w (get_ready (hist g)) (get_empty (hist g)) g0 g l' -> Q (inr tt) g l') ->
  (forall a n, a <> 0 -> (aleft n = 0 <-> elems (thread_index l) (hist g) = []) ->
     (elems (thread_index l) (hist g) <> [] -> size_of (thread_index l) (hist g) <= max (window g) - depth set) ->
     wp P 0 (K n) Q g (set_thread_Window (set_anchor_ptr a (thread_Window l)) l)) ->
  wp P 0 (let* n := read_anchor in
          let* gmax := load_var (fun g => max (window g)) in
          if (u64 (gmax - depth set) <? counts n) && negb (aleft n =? 0) then break tt else K n) Q g l.
Proof.
  intros Es Hc Hl Hf Hin Ec He Hyes Hno. wp_local. apply seq_read_anchor; [apply Hc|done|]. intros a n Ea En.
  pose proof (lo_index _ _ _ _ Hl) as Hidx. destruct (anchor_empty g _ a n (proj1 Hc) (proj1 Hidx) Ea En) as [Ha Hempty].
  pose proof (inside_max (hist g) (window g) Hin Hf) as Hmax. destruct Hset as [_ Hd _ _].
  wp_local. apply seq_load. rewrite (count_size g _ a n (proj1 Hc) Hf (proj1 Hidx) Ea En).
  rewrite (wrap_small 64) by lia.
  destruct (Z.ltb_spec (max (window g) - depth set) (size_of (thread_index l) (hist g))), (Z.eqb_spec (aleft n) 0); cbn [negb andb].
  - apply Hno; [done|done|]. intros Hne. destruct Hne. by apply Hempty.
  - wp_locals. apply Hyes. split; [done|split; [by destruct Hl|right]]. split; [done|split].
    + split; [done|split; [by destruct Hl|split; [by split|done]]].
    + intros E. by apply Hempty in E.
  - apply Hno; [done|done|]. lia.
  - apply Hno; [done|done|]. lia.
Qed.

Lemma seq_get_window s g l :
  calm g -> lok l -> few (hist g) -> inside (hist g) (window g) -> contention (thread_Window l) = 0 ->
  (version (copy l) = version (window g) -> copy l = window g) ->
  wp P 0 (window_get (Windows := windows_2Dc set) s)
    (fun _ g' l' => arrived_get tok w (get_ready (hist g)) (get_empty (hist g)) g g' l') g l.
Proof.
  intros Hc Hl Hf Hin Hcont Hv. cbn [window_get windows_2Dc]. unfold get_window, upd. wp_locals. apply seq_enter_window; [done|done|].
  pose proof Hset as [Hw _ _ _].
  apply (wp_while P 0 _ _ _ _ (fun m x g' l' => searching (unfit (hist g) (window g) (notempty (thread_Window l'))) (hist g) g x.1 x.2 g' l' /\
    empty_check (thread_Window l') <> 1 /\
    (notempty (thread_Window l') <> 0 -> exists j, 0 <= j < w /\ elems j (hist g) <> []) /\ (steps_left x.1 x.2 <= m)%nat) (steps_left 0 0)).
  { split; [|done]. cbn [fst snd]. split; try done; [by destruct Hl|lia|apply seen_none; lia]. }
  intros m [hops random] g' l' (Hs & He & Hex & Hm). cbn [fst snd] in *. pose proof Hs as [-> Hl' Ec Hh Hr Hr0 Hseen]. unfold get_window_body. wp_local.
  destruct (Z.eqb_spec hops w) as [->|Hne].
  - pose proof (seen_all _ _ _ _ Hseen ltac:(lia)) as Hall. wp_local. unfold my. wp_locals.
    destruct (Z.eqb_spec (notempty (thread_Window l')) 0) as [E0|E0].
    + wp_local. unfold upd. wp_locals. split; [done|split; [by destruct Hl'|left]]. split; [done|]. split; [done|split; [done|]].
      intros i Hi. destruct (Hall i Hi) as [_ Hi']. by apply Hi'.
    + destruct (Hex E0) as (j & Hj & Hjne). pose proof (inside_max (hist g) (window g) Hin Hf) as Hmax. pose proof Hset as [_ Hd Hsh Hdn].
      destruct (inside_down (hist g) (window g) (u64 (version (window g) + 1)) j Hin Hj Hjne) as (Heq & Hge & Hin1).
      { intros i Hi. by apply Hall. }
      wp_local. apply seq_same_version. rewrite Ec, Z.eqb_refl. wp_local. apply seq_shift_window; [done|apply Hc|].
      intros l1 E1 E2 E3. wp_local. apply seq_copy_window. wp_local. unfold upd. wp_locals.
      rewrite Hdn. rewrite (wrap_small 64 (max (window g) + - shift_up set)) by lia.
      set (g1 := set_window _ g). set (l2 := set_thread_Window _ _).
      assert (Hl2 : lok l2) by (destruct Hl'; by split; unfold l2; cbn; rewrite ?E2, ?E3).
      apply (seq_get_look _ g); try done.
      * unfold l2. cbn. by rewrite E1.
      * intros a n _ _ Hle. exfalso. unfold l2 in Hle. cbn in Hle. rewrite E3 in Hle.
        destruct (Heq (thread_index l') (lo_index _ _ _ _ Hl')) as [Hsz Hne']. specialize (Hle Hne'). lia.
  - wp_local. apply (seq_get_look _ g); try done. intros a n Ha Hempty Hle. wp_local. apply seq_same_version.
    cbn [windows set_anchor_ptr thread_Window set_thread_Window]. rewrite Ec, Z.eqb_refl. wp_local.
    set (ne := if aleft n =? 0 then notempty (thread_Window l') else 1).
    assert (Hne0 : ne = 0 -> aleft n = 0 /\ notempty (thread_Window l') = 0) by (unfold ne; destruct (Z.eqb_spec (aleft n) 0); [done|lia]).
    apply (seq_change_index (unfit (hist g) (window g) ne) (hist g) g hops random); [|lia| |].
    + apply (searching_mono (unfit (hist g) (window g) (notempty (thread_Window l')))).
      * intros i [H1 H2]. split; [done|]. intros E. apply H2. by apply Hne0.
      * split; try done. by destruct Hl'.
    + split; [exact Hle|]. intros E. apply Hempty. by apply Hne0.
    + intros hops' random' l2 Hs2 Hlt E2. unfold my. wp_locals. rewrite E2. cbn [anchor_ptr set_anchor_ptr thread_Window set_thread_Window].
      destruct (Z.eqb_spec a 0) as [|_]; [done|]. cbn [negb andb].
      assert (Hex' : ne <> 0 -> exists j, 0 <= j < w /\ elems j (hist g) <> []).
      { unfold ne. destruct (Z.eqb_spec (aleft n) 0) as [E|E]; [apply Hex|]. intros _. exists (thread_index l').
        split; [by destruct Hl'|]. intros E'. by apply Hempty in E'. }
      destruct Hs2 as [S1 [S2 S3 S4] S5 S6 S7 S8 S9]. unfold upd, ne in *. destruct (Z.eqb_spec (aleft n) 0) as [E|E]; cbn [negb]; wp_locals;
        exists (steps_left hops' random'); (split; [intros _; lia|]); cbn; rewrite ?E2; cbn; (split; [|split; [done|split; [done|done]]]).
      * by split.
      * by split.
Qed.

(** ** Operations *)

Definition contents (h : list (nat * devent)) : dstate := fun i => (elems i h).*2.

Lemma inside_balanced h v : inside h v -> balanced w (depth set) (contents h).
Proof.
  intros [_ Hs] i j Hi Hj. unfold contents. rewrite !length_fmap. pose proof (Hs i Hi). pose proof (Hs j Hj). lia.
Qed.

Lemma sum_le_length h : 0 <= w -> sum_upto (fun i => size_of i h) w <= Z.of_nat (length h).
Proof.
  intros Hw. induction h as [|[u e] h IH].
  - cbn [elems length]. rewrite (sum_upto_ext _ (fun _ => 0)) by done. rewrite sum_upto_const by done. lia.
  - cbn [length]. assert (Hle : sum_upto (fun i => size_of i ((u, e) :: h)) w <=
      sum_upto (fun i => size_of i h + (if i =? dindex e then 1 else 0)) w).
    { apply sum_upto_le. intros i Hi. cbn [elems]. destruct (decide (dindex e = i)) as [<-|Hne]; [rewrite Z.eqb_refl|destruct (i =? dindex e); lia].
      destruct e as [s ? x|s ? x]; cbn [applies dindex]; rewrite view_length; cbn [length]; [rewrite view_length; lia|].
      match goal with |- context [view s ?xs] => pose proof (view_length s xs); destruct (view s xs); cbn in *; lia end. }
    rewrite sum_upto_add in Hle. destruct (decide (0 <= dindex e < w)) as [Hd|Hd].
    + rewrite sum_upto_single in Hle by done. lia.
    + rewrite (sum_upto_ext (fun i => if i =? dindex e then 1 else 0) (fun _ => 0)) in Hle.
      * rewrite sum_upto_const in Hle by done. lia.
      * intros i Hi. destruct (Z.eqb_spec i (dindex e)); [lia|done].
Qed.

(** What holds between two operations. *)
Record account (done : list (dop * Z)) g l : Prop := mkAccount {
  ac_calm : calm g;
  ac_local : lok l;
  ac_copy : version (copy l) = version (window g) -> copy l = window g;
  ac_inside : inside (hist g) (window g);
  ac_run : deques_run w (depth set) done (contents (hist g));
  ac_few : (length (hist g) <= length done)%nat;
}.

Lemma contents_push t s i p v h j : contents ((t, DPush s i (p, v)) :: h) j = if decide (j = i) then view s (v :: view s (contents h j)) else contents h j.
Proof.
  unfold contents. cbn. destruct (decide (i = j)) as [->|Hne]; [rewrite decide_True by done|by rewrite decide_False by congruence].
  by rewrite <- (view_fmap s snd ((p, v) :: _)), fmap_cons, <- view_fmap.
Qed.
Lemma contents_pop t s i x h j : contents ((t, DPop s i x) :: h) j = if decide (j = i) then view s (tail (view s (contents h j))) else contents h j.
Proof.
  unfold contents. cbn. destruct (decide (i = j)) as [->|Hne]; [rewrite decide_True by done|by rewrite decide_False by congruence].
  rewrite (view_fmap s snd (elems j h)), <- (view_fmap s snd (tail _)). by destruct (view s (elems j h)).
Qed.

Lemma deque_account_op done o g l :
  account done g l -> Z.of_nat (length done) < 2 ^ 31 - 1 ->
  wp P 0 (exec_op (ws := windows_2Dc set) w o) (fun r g' l' => account (done ++ [(o, r)]) g' l') g l.
Proof.
  intros [Hc Hl Hv Hin Hrun Hfew] Hlen. assert (Hf : few (hist g)) by (unfold few; lia). pose proof (lo_id _ _ _ _ Hl) as Ht.
  pose proof Hset as [Hw _ _ _].
  destruct o as [s k v|s|]; cbn [exec_op].
  - apply (wp_push_solo cok tok w s k v (put_ready (hist g))); [done|done| |].
    + intros g1 P1 Hc1 l1. pose proof P1 as [W1 _ D1 _ _ _]. rewrite <- D1. apply seq_put_window; try done; rewrite ?D1, ?W1; try done. by destruct Hl.
    + intros i p g' l' Hi <- Hc' Hl' (E1 & E2 & E3) Eh. split; try done.
      * rewrite Eh. by apply inside_push.
      * eapply run_snoc; [exact Hrun| |].
        -- apply (do_push w s k v (thread_index l')); [done|]. intros j. rewrite Eh. apply contents_push.
        -- apply (inside_balanced _ (window g')). rewrite Eh. by apply inside_push.
      * rewrite Eh, length_app. cbn. lia.
  - apply (wp_pop_solo cok tok w s (get_ready (hist g)) (get_empty (hist g))); [done|done| | |].
    + intros g1 P1 Hc1 l1. pose proof P1 as [W1 _ D1 _ _ _]. rewrite <- D1. apply seq_get_window; try done; rewrite ?D1, ?W1; try done. by destruct Hl.
    + intros g' l' Hc' Hl' (E1 & E2 & E3) Eh. split; try done.
      * by destruct Hl'.
      * by rewrite Eh.
      * rewrite Eh. eapply run_snoc; [exact Hrun| |by apply (inside_balanced _ (window g'))].
        apply do_empty. intros i Hi. unfold contents. by rewrite E3.
      * rewrite Eh, length_app. cbn. lia.
    + intros i p v g' l' Hi <- Hc' Hl' (E1 & E2 & E3) Hhead Eh. split; try done.
      * rewrite Eh. by apply inside_pop.
      * eapply run_snoc; [exact Hrun| |].
        -- apply (do_pop w s v (thread_index l') (tail (view s (contents (hist g) (thread_index l'))))); [done| |].
           ++ unfold contents. rewrite view_fmap. destruct (view s (elems (thread_index l') (hist g))) as [|y r]; [done|].
              injection Hhead as ->. done.
           ++ intros j. rewrite Eh, contents_pop. by case_decide; [subst j|].
        -- apply (inside_balanced _ (window g')). rewrite Eh. by apply inside_pop.
      * rewrite Eh, length_app. cbn. lia.
  - pose proof (sum_le_length (hist g) ltac:(lia)). apply (wp_deque_size_2D_solo cok w); [lia|done|lia|].
    split; try done; [|rewrite length_app; cbn; lia]. eapply run_snoc; [exact Hrun| |by apply (inside_balanced _ (window g))].
    rewrite (sum_upto_ext _ (fun i => Z.of_nat (length (contents (hist g) i)))); [apply do_size|].
    intros i Hi. unfold contents. by rewrite length_fmap.
Qed.
End window.

(** ** Whole runs *)

Lemma create_deque_sizes {AA : Allocator (anchor_t Z)} junk wd dp rb set g :
  create_deque junk wd dp rb = Some (set, g) -> rb < 2 ^ 31 ->
  sizes_ok set /\ window g = mkWindow (depth set) 1 /\ forall i a n,
    anchors (subs g) !! Z.to_nat i = Some a -> public_anchor g a n -> state n = STATE_STABLE.
Proof.
  unfold create_deque. intros Hc Hrb. destruct (deque_params wd dp rb) as [[[w d] k]|] eqn:E; [|done].
  apply deque_params_ok in E as (Hw & Hd & Hk); [|done]. injection Hc as <- <-. split; [|split].
  - split; cbn; try done. destruct (Z.leb_spec 2 d); [|lia]. rewrite Z.quot_div_nonneg by lia.
    pose proof (Z.div_le_upper_bound d 2 d ltac:(lia) ltac:(lia)). pose proof (Z.div_le_lower_bound d 2 1 ltac:(lia) ltac:(lia)). lia.
  - cbn. by rewrite wrap_small by lia.
  - intros i a n Ea En. cbn [subs] in *. unfold empty_deques, public_anchor in *. destruct (create_anchors junk (Z.to_nat w)) as [ptrs m] eqn:Ec.
    destruct (create_anchors_ok junk _ ptrs m Ec) as (_ & _ & _ & _ & Hat). cbn in Ea, En. apply Hat in Ea.
    apply pub_lookup in En as [En _]. cbn in En. by assert (n = mkAnchor STATE_STABLE 0 0 (junk (Z.of_nat (Z.to_nat i)))) as -> by congruence.
Qed.

(** C12. The 2Dc deque for one thread, if the counts of the anchors, which
    [create_deque] does not initialise, happen to be 0 (the parameter [junk] is
    constantly 0), and for fewer than [2 ^ 31] calls: every run terminates; each
    push and each pop works on the right end of one deque, a pop answers 0 without
    an element only if all deques are empty, sizes are exact and the sizes of the
    deques stay within [depth] of each other; the contents of which all this is
    said are those that the nodes and anchors in memory hold, and at the end the
    size of each deque is inside [global_Window]. *)
Theorem deque2dc_sequential {AN : Allocator node_t} {AA : Allocator (anchor_t Z)} wd dp rb set g0 num_threads ops l :
  create_deque (fun _ => 0) wd dp rb = Some (set, g0) -> rb < 2 ^ 31 -> 1 <= num_threads -> thread_id l = 0%nat ->
  Z.of_nat (length ops) < 2 ^ 31 ->
  exists n rs g l',
    (forall m, (n <= m)%nat ->
       run m (thread_init set num_threads ;;; run_ops (exec_op (ws := windows_2Dc set) (width set)) ops) g0 l = Finished rs g l') /\
    length rs = length ops /\ deques_run (width set) (depth set) (zip ops rs) (contents (dhist (subs g))) /\
    replayed (count_ok (fun _ => 0)) (width set) (subs g) /\ inside set (dhist (subs g)) (window g).
Proof.
  intros Hc Hrb Hnt Ht Hops. destruct (create_deque_ok (fun _ => 0) wd dp rb set g0 Hc Hrb ltac:(intros; lia)) as (Hconf & HI & Hh).
  destruct (create_deque_sizes _ wd dp rb set g0 Hc Hrb) as (Hset & Hwin & Hst).
  destruct (alone_run (joint no_window (dprot (count_ok (fun _ => 0)) (width set)))
    (thread_init set num_threads ;;; run_ops (exec_op (ws := windows_2Dc set) (width set)) ops)
    (fun rs g l' => length rs = length ops /\ account set (zip ops rs) g l') g0 l) as (n & rs & g & l' & Hrun & [Hlen Hacc] & _).
  - by split.
  - wp_local. eapply wp_mono; [|apply (thread_init_ok set num_threads 0 _ g0 l); [done|lia|done]]. intros [] g l1 (-> & Hl1 & Hv).
    apply (wp_run_ops_where _ 0 _ (fun _ => True) (length ops) (account set)) with (done := []); [|by apply Forall_true|done|].
    + intros done o g l2 Hlen _ Hacc. apply deque_account_op; [done|done|lia].
    + split; try done.
      * split; [by split|]. intros i a n Hi _. by apply Hst.
      * rewrite Hv, Hwin. done.
      * rewrite Hh, Hwin. split; [exists 0; cbn; lia|]. destruct Hset. intros i Hi. cbn. lia.
      * rewrite Hh. constructor. done.
      * by rewrite Hh.
  - exists n, rs, g, l'. destruct Hacc as [[[_ HI'] _] _ _ Hin Hdr _].
    split; [done|split; [done|split; [done|split; [by apply deques_replayed|done]]]].
Qed.

(** *** Examples *)

#[local] Instance seq_nodes : Allocator node_t := bump_allocator _.
#[local] Instance seq_anchors : Allocator (anchor_t Z) := bump_allocator _.

Definition seq_conf : conf := mkConf 2 1 1 1 3.
Definition seq_mem : shared window_t (deques Z) := mkShared (mkWindow 1 1) (empty_deques (fun _ => 0) 2).
Definition seq_ops : list dop := [DoPush Left 1 10; DoPush Right 2 20; DoPush Left 3 30; DoSize; DoPop Right; DoPop Left; DoPop Left; DoPop Left].
Notation seq_run ops := (run (Z.to_nat 20000) (thread_init seq_conf 1 ;;; run_ops (exec_op (ws := windows_2Dc seq_conf) 2) ops)
  seq_mem (tls0 (dlocal0 (mkWindow 0 0)) 0)).

Lemma deque2dc_sequential_witness :
  exists rs (g : shared window_t (deques Z)), length rs = 8%nat /\
    deques_run 2 1 (zip seq_ops rs) (contents (dhist (subs g))) /\ inside seq_conf (dhist (subs g)) (window g).
Proof.
  destruct (deque2dc_sequential 2 1 3 seq_conf seq_mem 1 seq_ops (tls0 (dlocal0 (mkWindow 0 0)) 0)) as (_ & rs & g & _ & _ & Hlen & Hrun & _ & Hin).
  - reflexivity.
  - reflexivity.
  - lia.
  - reflexivity.
  - cbn. lia.
  - exists rs, g. split; [exact Hlen|split; [exact Hrun|exact Hin]].
Defined.

(** The window balances the sizes, but not the ends: used as a queue, the deque lets a
    value overtake more than the relaxation bound of 3 older ones.  After ten pushes at
    the left, and twelve pops at the right with a push at the left after each, the last
    pop takes the value 117 and leaves the older 102, 103, 106, 107 and 109. *)
Definition queue_ops : list dop :=
  ((fun i => DoPush Left i (100 + i)) <$> [1; 2; 3; 4; 5; 6; 7; 8; 9; 10]) ++
  mjoin ((fun i => [DoPop Right; DoPush Left i (100 + i)]) <$> [11; 12; 13; 14; 15; 16; 17; 18; 19; 20; 21; 22]).
Example deque2dc_overtakes :
  match seq_run queue_ops with
  | Finished rs g _ =>
      last (take 33 rs) = Some 117 /\ (elems 1 (dhist (subs g))).*2 = [109; 107; 106; 103; 102]
  | _ => False
  end.
Proof. vm_compute. done. Qed.
