(* ===== verification/TopStack.v ===== *)
(** One stack of linked nodes with a top pointer, as src/stack-treiber and
    src/stack-elimination have it (stack-lockfree.c), and the elimination array of
    the latter: the memory, the steps on it, their protocol and their rules. *)
From S2P Require Import Prelude Conc Random Thread StackHeap Shared.

(** ** Data *)

(** The history: a push, a pop, and a pop that found the stack empty. *)
Inductive sevent := SPush (v : Z) | SPop (v : Z) | SEmpty.

(** [elimination_array] is indexed by thread; it has no entries in the Treiber stack.
    [mhist] is a history variable. *)
Record mstack_t := mkMstack {
  top : Z;
  elimination_array : list Z;
  mheap : memory;
  mhist : list (nat * sevent);
}.

Definition set_mheap (m : memory) (s : mstack_t) : mstack_t := mkMstack (top s) (elimination_array s) m (mhist s).
Definition record_event (t : nat) (e : sevent) (s : mstack_t) : mstack_t :=
  mkMstack (top s) (elimination_array s) (mheap s) ((t, e) :: mhist s).
Definition val_at (a : Z) (s : mstack_t) : Z := from_option val 0 (nodes (mheap s) !! a).

(** The exchange of the top: a push of the node [new], or a pop of [old]. *)
Definition after_top (t : nat) (old new : Z) (push : bool) (s : mstack_t) : mstack_t :=
  mkMstack new (elimination_array s) (if push then mem_publish new (mheap s) else mheap s)
    ((t, if push then SPush (val_at new s) else SPop (val_at old s)) :: mhist s).

(** The exchange of entry [i] of the array.  A node that another thread takes out
    has been pushed by its owner [i] and popped by that thread, at once. *)
Definition after_slot (t : nat) (i old new : Z) (s : mstack_t) : mstack_t :=
  let entries := <[Z.to_nat i := new]> (elimination_array s) in
  if i =? Z.of_nat t then mkMstack (top s) entries (mheap s) (mhist s)
  else mkMstack (top s) entries (mem_publish old (mheap s))
    ((t, SPop (val_at old s)) :: (Z.to_nat i, SPush (val_at old s)) :: mhist s).

(** ** The steps *)

Notation state := (shared unit mstack_t).
Notation local := (tls unit).
Notation MS := (prog state local).

Section code.
Context {A : Allocator node_t}.
Implicit Types (g : state).

Definition lookup_mnode (a : Z) g : option node_t := nodes (mheap (subs g)) !! a.

(** [qu->top], in a push. *)
Definition load_top : MS Z := load_var (fun g => top (subs g)).
(** The same in a pop, which answers that the stack is empty if it is NULL. *)
Definition load_top_pop : MS Z :=
  Act (fun g l =>
    let p := top (subs g) in
    Some (p, if p =? 0 then set_subs (record_event (thread_id l) SEmpty (subs g)) g else g, l)) Ret.

Definition load_mnode {B} (f : node_t -> B) (a : Z) : MS B := load (fun g => f <$> lookup_mnode a g).
Definition alloc_mnode (n : node_t) : MS Z :=
  Act (fun g l =>
    let a := alloc_addr (nodes (mheap (subs g))) in
    Some (a, set_subs (set_mheap (mem_alloc (thread_id l) a n (mheap (subs g))) (subs g)) g, l)) Ret.
Definition store_next (a p : Z) : MS unit :=
  update (fun g _ =>
    n ← lookup_mnode a g;
    Some (tt, set_subs (set_mheap (mem_write a (mkNode (key n) (val n) p) (mheap (subs g))) (subs g)) g)).

(** [CAS_PTR(&qu->top, old, new) == old]. *)
Definition cas_top (old new : Z) (push : bool) : MS bool :=
  Act (fun g l =>
    if top (subs g) =? old then Some (true, set_subs (after_top (thread_id l) old new push (subs g)) g, l)
    else Some (false, g, l)) Ret.

Definition load_slot (i : Z) : MS Z := load (fun g => elimination_array (subs g) !! Z.to_nat i).
(** [CAS_PTR(&elimination_array[i].node, old, new) == old]. *)
Definition cas_slot (i old new : Z) : MS bool :=
  Act (fun g l =>
    cur ← elimination_array (subs g) !! Z.to_nat i;
    if cur =? old then Some (true, set_subs (after_slot (thread_id l) i old new (subs g)) g, l)
    else Some (false, g, l)) Ret.
End code.

(** ** What the history says *)

(** The values in the stack, the top first. *)
Fixpoint items (h : list (nat * sevent)) : list Z :=
  match h with
  | [] => []
  | (_, SPush v) :: h => v :: items h
  | (_, SPop _) :: h => tail (items h)
  | (_, SEmpty) :: h => items h
  end.

(** It is a history of a stack: a pop takes the top, and empty is only answered when
    there is nothing. *)
Fixpoint slegal (h : list (nat * sevent)) : Prop :=
  match h with
  | [] => True
  | (_, SPush _) :: h => slegal h
  | (_, SPop v) :: h => head (items h) = Some v /\ slegal h
  | (_, SEmpty) :: h => items h = [] /\ slegal h
  end.

Definition sevents_of (t : nat) (h : list (nat * sevent)) : list sevent := (filter (fun x => x.1 = t) h).*2.

Lemma sevents_of_cons t u e h :
  sevents_of t ((u, e) :: h) = if decide (u = t) then e :: sevents_of t h else sevents_of t h.
Proof. unfold sevents_of. rewrite filter_cons. cbn. by destruct (decide (u = t)). Qed.

(** ** Protocol *)

Implicit Types (s : mstack_t) (t u : nat).

Definition slot t s : Z := default 0 (elimination_array s !! t).
Definition own t s (a : Z) (n : node_t) : Prop := priv (mheap s) !! a = Some t /\ nodes (mheap s) !! a = Some n.

Record mstack_inv (w : Z) s : Prop := mkMstackInv {
  mi_length : Z.of_nat (length (elimination_array s)) = w;
  mi_heap : mem_ok (mheap s);
  mi_legal : slegal (mhist s);
  mi_chain : chain (mheap s) (top s) (items (mhist s));
  (** A node in the array belongs to the thread of the entry. *)
  mi_slots t : slot t s <> 0 -> priv (mheap s) !! slot t s = Some t;
}.

(** What thread [t] relies on: only the node in its entry of the array can be taken
    from it, and is then pushed in its name. *)
Record srely t s s' : Prop := mkSrely {
  sr_nodes : keeps (mheap s) (mheap s') None;
  sr_hist : mhist s `suffix_of` mhist s';
  sr_own a n : a <> 0 -> a <> slot t s -> own t s a n -> own t s' a n;
  sr_slot :
    (slot t s' = slot t s /\ sevents_of t (mhist s') = sevents_of t (mhist s) /\
     forall n, own t s (slot t s) n -> own t s' (slot t s) n) \/
    (slot t s <> 0 /\ slot t s' = 0 /\
     forall n, own t s (slot t s) n -> sevents_of t (mhist s') = SPush (val n) :: sevents_of t (mhist s));
}.

Definition mprot (w : Z) : protocol mstack_t :=
  {| p_inv := mstack_inv w;
     p_rely := srely;
     p_guar t s s' := forall u, u <> t -> srely u s s';
     p_ok _ := True;
     p_total := false |}.

Lemma srely_refl t s : srely t s s.
Proof. split; [done..|by left]. Qed.

Lemma srely_trans t s1 s2 s3 : srely t s1 s2 -> srely t s2 s3 -> srely t s1 s3.
Proof.
  intros [K1 H1 O1 S1] [K2 H2 O2 S2]. split; [by eapply keeps_trans|by etrans| |].
  - intros a n Ha Hne Ho. apply O2; [done| |by apply O1].
    destruct S1 as [(E & _)|(_ & E & _)]; by rewrite E.
  - destruct S1 as [(E & Ev & Hk)|(Hz & E & Hp)].
    + destruct S2 as [(E2 & Ev2 & Hk2)|(Hz2 & E2 & Hp2)]; rewrite ?E in *.
      * left. split; [done|split; [by rewrite Ev2|]]. intros n Ho. by apply Hk2, Hk.
      * right. split; [done|split; [done|]]. intros n Ho. rewrite <- Ev. by apply Hp2, Hk.
    + destruct S2 as [(E2 & Ev2 & _)|(Hz2 & _)]; [|by rewrite E in Hz2].
      right. split; [done|split; [by rewrite E2|]]. intros n Ho. rewrite Ev2. by apply Hp.
Qed.

#[export] Instance mprot_laws w : ProtocolLaws (mprot w).
Proof.
  split; cbn; [apply srely_refl|apply srely_trans|intros; apply srely_refl|]. intros t u s s' Hne _ H. by apply H.
Qed.

(** A step that leaves the entries, and other threads' nodes and events, alone. *)
Lemma srely_quiet u s s' :
  keeps (mheap s) (mheap s') None -> mhist s `suffix_of` mhist s' -> keeps (mheap s) (mheap s') (Some u) ->
  slot u s' = slot u s -> sevents_of u (mhist s') = sevents_of u (mhist s) -> srely u s s'.
Proof.
  intros Hk Hh Hu Es Ev. split; [done..| |].
  - intros a n _ _ [Pa En]. by destruct (Hu a n En Pa).
  - left. split; [done|split; [done|]]. intros n [Pa En]. by destruct (Hu _ n En Pa).
Qed.

(** ** The steps keep the invariant *)

(** A change of the heap by thread [t], to its own nodes. *)
Lemma mheap_step w t s m :
  mstack_inv w s -> mem_ok m -> mem_guar t (mheap s) m ->
  (slot t s <> 0 -> priv m !! slot t s = Some t) ->
  mstack_inv w (set_mheap m s) /\ p_guar (mprot w) t s (set_mheap m s).
Proof.
  intros [Hlen Hm Hl Hc Hs] Hm' [Hk Hku] Ht. split.
  - split; try done; [by eapply chain_keeps|]. intros u Hu. destruct (decide (u = t)) as [->|Hne]; [by apply Ht|].
    specialize (Hs u Hu). destruct (proj2 Hm _ _ Hs) as [n En]. by destruct (Hku u Hne _ n En Hs).
  - intros u Hne. apply srely_quiet; try done. by apply Hku.
Qed.

(** The answer that the stack is empty. *)
Lemma empty_step w t s :
  mstack_inv w s -> top s = 0 ->
  mstack_inv w (record_event t SEmpty s) /\ p_guar (mprot w) t s (record_event t SEmpty s).
Proof.
  intros [Hlen Hm Hl Hc Hs] Ht. split.
  - split; try done. split; [|done]. rewrite Ht in Hc. destruct (items (mhist s)); [done|by destruct Hc].
  - intros u Hne. apply srely_quiet; try done; [by exists [(t, SEmpty)]|].
    cbn [record_event mhist]. rewrite sevents_of_cons. by rewrite decide_False.
Qed.

(** What justifies the exchange of the top [old] by [new]. *)
Definition top_allowed (t : nat) (old new : Z) (push : bool) (v : Z) s : Prop :=
  if push then exists n, own t s new n /\ new <> slot t s /\ val n = v /\ next n = old
  else old <> 0 /\ exists n, nodes (mheap s) !! old = Some n /\ val n = v /\ next n = new.

Lemma top_allowed_val t old new push v s :
  top_allowed t old new push v s ->
  (if push then SPush (val_at new s) else SPop (val_at old s)) = if push then SPush v else SPop v.
Proof.
  unfold val_at. destruct push.
  - intros (n & [_ En] & _ & Hv & _). rewrite En. cbn. by rewrite Hv.
  - intros (_ & n & En & Hv & _). rewrite En. cbn. by rewrite Hv.
Qed.

Lemma top_step w t old new push v s :
  mstack_inv w s -> top s = old -> top_allowed t old new push v s ->
  mstack_inv w (after_top t old new push s) /\ p_guar (mprot w) t s (after_top t old new push s).
Proof.
  intros [Hlen Hm Hl Hc Hs] <- Hal. pose proof (top_allowed_val _ _ _ _ _ _ Hal) as Ev.
  unfold after_top. rewrite Ev. destruct push.
  - destruct Hal as (n & [Pa En] & Hns & <- & Hnx). destruct (mem_publish_ok t new _ Hm Pa) as [Hm' [Hk Hku]]. split.
    + split; try done.
      * rewrite <- Hnx in Hc. exact (chain_publish (mheap s) new n _ Hm (ex_intro _ t Pa) En Hc I).
      * intros u Hu. change (slot u s <> 0) in Hu. change (delete new (priv (mheap s)) !! slot u s = Some u).
        specialize (Hs u Hu). rewrite lookup_delete_ne; [done|]. intros ->.
        rewrite Pa in Hs. injection Hs as <-. by apply Hns.
    + intros u Hne. apply srely_quiet; try done; [by exists [(t, SPush (val n))]|by apply Hku|].
      cbn [mhist]. rewrite sevents_of_cons. by rewrite decide_False.
  - destruct Hal as (Hz & n & En & <- & <-). destruct (chain_cons (mheap s) (top s) n _ Hc Hz En) as (vs & Evs & Hc'). split.
    + split; try done; cbn [mheap mhist items slegal top]; rewrite Evs; [by split|done].
    + intros u Hne. apply srely_quiet; try done; [by exists [(t, SPop (val n))]|].
      cbn [mhist]. rewrite sevents_of_cons. by rewrite decide_False.
Qed.

Lemma slot_insert t u a s :
  (t < length (elimination_array s))%nat ->
  default 0 (<[t := a]> (elimination_array s) !! u) = if decide (u = t) then a else slot u s.
Proof.
  intros Ht. rewrite list_lookup_insert. unfold slot. destruct (decide (u = t)) as [->|Hne]; [by rewrite decide_True|]. rewrite decide_False; [done|]. by intros [-> _].
Qed.

(** The owner puts a node [a] into its entry, or takes it out ([a = 0]). *)
Lemma own_slot_step w t s a :
  mstack_inv w s -> (t < length (elimination_array s))%nat -> (a <> 0 -> priv (mheap s) !! a = Some t) ->
  let s' := after_slot t (Z.of_nat t) (slot t s) a s in
  mstack_inv w s' /\ p_guar (mprot w) t s s' /\ slot t s' = a.
Proof.
  intros [Hlen Hm Hl Hc Hs] Ht Ha. unfold after_slot. rewrite Z.eqb_refl, Nat2Z.id. cbv zeta.
  pose proof (fun u => slot_insert t u a s Ht) as Hins. split; [|split].
  - split; try done; [cbn; by rewrite length_insert|]. intros u. unfold slot at 1 2. cbn [elimination_array mheap]. rewrite Hins.
    case_decide as E; [subst u; apply Ha|apply Hs].
  - intros u Hne. apply srely_quiet; try done. unfold slot at 1. cbn [elimination_array]. by rewrite Hins, decide_False.
  - unfold slot. cbn [elimination_array]. by rewrite Hins, decide_True.
Qed.

(** Another thread takes the node out of entry [i]. *)
Lemma take_slot_step w t i s n :
  mstack_inv w s -> i <> t -> slot i s <> 0 -> nodes (mheap s) !! slot i s = Some n ->
  let s' := after_slot t (Z.of_nat i) (slot i s) 0 s in
  mstack_inv w s' /\ p_guar (mprot w) t s s' /\ mhist s' = (t, SPop (val n)) :: (i, SPush (val n)) :: mhist s /\
  priv (mheap s') !! slot i s = None /\ nodes (mheap s') !! slot i s = Some n /\ slot t s' = slot t s.
Proof.
  intros [Hlen Hm Hl Hc Hs] Hne Hz En.
  assert (Hi : (i < length (elimination_array s))%nat).
  { unfold slot in Hz. destruct (elimination_array s !! i) eqn:E; [by eapply lookup_lt_Some|done]. }
  pose proof (Hs i Hz) as Pa. destruct (mem_publish_ok i (slot i s) _ Hm Pa) as [Hm' [Hk Hku]].
  pose proof (fun u => slot_insert i u 0 s Hi) as Hins.
  unfold after_slot. destruct (Z.eqb_spec (Z.of_nat i) (Z.of_nat t)); [lia|]. rewrite Nat2Z.id. cbv zeta.
  assert (Ev : val_at (slot i s) s = val n) by (unfold val_at; by rewrite En). rewrite Ev. split; [|split; [|split; [done|split; [|split]]]].
  - split; try done; [cbn; by rewrite length_insert|cbn; by eapply chain_keeps|].
    intros u. change (default 0 (<[i := 0]> (elimination_array s) !! u) <> 0 ->
      delete (slot i s) (priv (mheap s)) !! default 0 (<[i := 0]> (elimination_array s) !! u) = Some u).
    rewrite Hins. case_decide as E; [done|]. intros Hu. specialize (Hs u Hu).
    rewrite lookup_delete_ne; [done|]. intros Eq. rewrite Eq in Pa. congruence.
  - intros u Hut. destruct (decide (u = i)) as [->|Hui].
    + split; [done|by exists [(t, SPop (val n)); (i, SPush (val n))]| |].
      * intros a na Ha Hna [Pna Ena]. split; [|done]. cbn. by rewrite lookup_delete_ne.
      * right. split; [done|]. split; [unfold slot; cbn [elimination_array]; by rewrite Hins, decide_True|]. cbn [mhist].
        intros n' [_ En']. rewrite !sevents_of_cons, decide_False, decide_True by done. congruence.
    + apply srely_quiet; try done; [by exists [(t, SPop (val n)); (i, SPush (val n))]|by apply Hku| |].
      * unfold slot at 1. cbn [elimination_array]. rewrite Hins. by rewrite decide_False.
      * cbn [mhist]. by rewrite !sevents_of_cons, !decide_False.
  - cbn. apply lookup_delete_eq.
  - done.
  - unfold slot at 1. cbn [elimination_array]. rewrite Hins. by rewrite decide_False.
Qed.

(** ** Rules *)

Section rules.
Context {A : Allocator node_t} (w : Z) (P : protocol state) (t : nat).
Context {runs : Runs P (joint (no_window (W := unit)) (mprot w)) t}.
Notation B := (joint (no_window (W := unit)) (mprot w)).
Implicit Types (g : state) (l : local).

Definition still : Prop := forall g g', p_rely P t g g' -> g' = g.
Definition owns g (a : Z) (n : node_t) : Prop := own t (subs g) a n.
Definition public g (a : Z) (n : node_t) : Prop := priv (mheap (subs g)) !! a = None /\ lookup_mnode a g = Some n.

Lemma minv g : p_inv P g -> mstack_inv w (subs g).
Proof. intros HI. apply (runs_inv (B := B) g HI). Qed.
Lemma mrely g g' : p_rely P t g g' -> srely t (subs g) (subs g').
Proof. intros R. apply (runs_rely (B := B) g g' R). Qed.
Lemma mstep g s : p_inv P g -> mstack_inv w s -> p_guar (mprot w) t (subs g) s ->
  p_guar P t g (set_subs s g) /\ p_inv P (set_subs s g).
Proof.
  intros HI Hs Hg. split; [apply (runs_guar (B := B))|apply (runs_inv_back (B := B))]; by split.
Qed.

Lemma owns_nonzero g a n : p_inv P g -> owns g a n -> a <> 0.
Proof. intros HI [_ En] ->. pose proof (proj1 (mi_heap w _ (minv g HI))). congruence. Qed.
Lemma owns_rely g g' a n : p_inv P g -> p_rely P t g g' -> a <> slot t (subs g) -> owns g a n -> owns g' a n.
Proof. intros HI R Hne Ho. apply (sr_own t _ _ (mrely g g' R)); [by eapply owns_nonzero|done|done]. Qed.
Lemma public_rely g g' a n : p_rely P t g g' -> public g a n -> public g' a n.
Proof. intros R [Pa En]. by destruct (sr_nodes t _ _ (mrely g g' R) a n En Pa). Qed.

(** The thread has nothing in the array, and its events since [g] are [evs]. *)
Record did (evs : list sevent) g g' : Prop := mkDid {
  did_inv : p_inv P g';
  did_slot : slot t (subs g') = 0;
  did_events : sevents_of t (mhist (subs g')) = evs ++ sevents_of t (mhist (subs g));
  did_still : still -> mhist (subs g') = (pair t <$> evs) ++ mhist (subs g);
}.

Lemma did_nil g : p_inv P g -> slot t (subs g) = 0 -> did [] g g.
Proof. by split. Qed.

Lemma sdid_rely evs g g1 g2 : did evs g g1 -> p_rely P t g1 g2 -> p_inv P g2 -> did evs g g2.
Proof.
  intros [HI Hs Hev Hst] R I2. destruct (sr_slot t _ _ (mrely g1 g2 R)) as [(Es & Ev & _)|(Hz & _)]; [|by rewrite Hs in Hz].
  split; [done|by rewrite Es|by rewrite Ev|]. intros Hstill. rewrite (Hstill _ _ R). by apply Hst.
Qed.

Lemma sdid_then evs evs' g g1 g2 g3 :
  did evs g g1 -> p_rely P t g1 g2 -> did evs' g2 g3 -> p_inv P g2 -> did (evs' ++ evs) g g3.
Proof.
  intros D R [HI Hs Hev Hst] I2. destruct (sdid_rely evs g g1 g2 D R I2) as [_ _ Hev2 Hst2].
  split; [done|done|by rewrite Hev, Hev2, app_assoc|]. intros H. by rewrite Hst, Hst2, fmap_app, app_assoc by done.
Qed.

(** A step whose history is [evs] and that leaves the thread's entry empty. *)
Lemma did_step evs g s :
  p_inv P (set_subs s g) -> slot t s = 0 -> mhist s = (pair t <$> evs) ++ mhist (subs g) -> did evs g (set_subs s g).
Proof.
  intros HI Hs Hh. split; [done|done| |done]. cbn [set_subs subs]. rewrite Hh. clear Hh. induction evs as [|e evs IH]; [done|].
  cbn [fmap list_fmap app]. rewrite sevents_of_cons. by rewrite decide_True, IH.
Qed.

Lemma wp_load_top (Q : Z -> state -> local -> Prop) g l :
  (forall g', p_rely P t g g' -> p_inv P g' -> Q (top (subs g')) g' l) -> wp P t load_top Q g l.
Proof. intros HQ. apply wp_load_var; [apply _|]. intros g1 R1 I1 _. by apply HQ. Qed.

Lemma wp_load_top_pop (Q : Z -> state -> local -> Prop) g l :
  thread_id l = t ->
  (forall g1 g2, p_rely P t g g1 -> p_inv P g1 -> (slot t (subs g1) = 0 -> did [SEmpty] g1 g2) -> Q 0 g2 l) ->
  (forall g1 n, p_rely P t g g1 -> p_inv P g1 -> top (subs g1) <> 0 -> public g1 (top (subs g1)) n -> Q (top (subs g1)) g1 l) ->
  wp P t load_top_pop Q g l.
Proof.
  intros Ht H0 HQ g1 R1 I1 _. pose proof (minv g1 I1) as Hi. destruct (Z.eqb_spec (top (subs g1)) 0) as [E|Hne].
  - destruct (empty_step w t _ Hi E) as [Hi' Hg']. destruct (mstep g1 _ I1 Hi' Hg') as [HG HI]. rewrite Ht, E.
    split; [done|split; [done|]]. apply (H0 g1); [done..|]. intros Hs. by apply did_step.
  - cbv zeta. rewrite (proj2 (Z.eqb_neq _ _) Hne). split; [apply (guar_refl (P := P))|split; [done|]].
    destruct (ptr_ok_node _ _ (chain_ptr_ok _ _ _ (mi_chain w _ Hi)) Hne) as (n & En & Pn). by apply (HQ g1 n).
Qed.

Lemma wp_load_public {R} (f : node_t -> R) a n (Q : R -> state -> local -> Prop) g l :
  public g a n -> (forall g', p_rely P t g g' -> p_inv P g' -> public g' a n -> Q (f n) g' l) ->
  wp P t (load_mnode f a) Q g l.
Proof.
  intros Hp HQ. apply wp_load; [apply _|]. intros g1 R1 I1 _. pose proof (public_rely g g1 a n R1 Hp) as Hp1.
  exists (f n). rewrite (proj2 Hp1). split; [done|]. by apply HQ.
Qed.

Lemma wp_alloc_mnode n (Q : Z -> state -> local -> Prop) g l :
  thread_id l = t ->
  (forall a g1 g2, p_rely P t g g1 -> p_inv P g1 -> (slot t (subs g1) = 0 -> did [] g1 g2) -> owns g2 a n -> Q a g2 l) ->
  wp P t (alloc_mnode n) Q g l.
Proof.
  intros Ht HQ g1 R1 I1 _. rewrite Ht. cbv zeta. set (m := mheap (subs g1)). set (a := alloc_addr (nodes m)).
  destruct (alloc_addr_ok (nodes m)) as [Ha Hfresh]. fold a in Ha, Hfresh. pose proof (minv g1 I1) as Hi.
  destruct (mem_alloc_ok t a n m (mi_heap w _ Hi) Ha Hfresh) as (Hm & Hk & Hku).
  destruct (mheap_step w t (subs g1) (mem_alloc t a n m) Hi Hm) as [Hi' Hg']; [by split| |].
  { intros Hz. pose proof (mi_slots w _ Hi t Hz) as Hp. destruct (proj2 (mi_heap w _ Hi) _ _ Hp) as [n' En'].
    apply (Hku t _ n' En' Hp). }
  destruct (mstep g1 _ I1 Hi' Hg') as [HG HI]. split; [done|split; [done|]].
  apply (HQ a g1 _ R1 I1); [intros Hs; by apply did_step|]. split; apply lookup_insert_eq.
Qed.

Lemma wp_store_mnext a p n (Q : unit -> state -> local -> Prop) g l :
  p_inv P g -> owns g a n -> a <> slot t (subs g) ->
  (forall g1 g2, p_rely P t g g1 -> p_inv P g1 -> (slot t (subs g1) = 0 -> did [] g1 g2) ->
     top (subs g2) = top (subs g1) -> owns g2 a (mkNode (key n) (val n) p) -> Q tt g2 l) ->
  wp P t (store_next a p) Q g l.
Proof.
  intros I0 Ho Hne HQ g1 R1 I1 _. destruct (owns_rely g g1 a n I0 R1 Hne Ho) as [Pa En].
  unfold lookup_mnode. rewrite En. cbn [mbind option_bind]. pose proof (minv g1 I1) as Hi. set (n' := mkNode (key n) (val n) p).
  destruct (mem_write_ok t a n' _ (mi_heap w _ Hi) Pa) as [Hm Hg].
  destruct (mheap_step w t (subs g1) _ Hi Hm Hg) as [Hi' Hg']; [apply (mi_slots w _ Hi)|].
  destruct (mstep g1 _ I1 Hi' Hg') as [HG HI]. split; [done|split; [done|]].
  apply (HQ g1 _ R1 I1); [intros Hs; by apply did_step|done|]. split; [done|apply lookup_insert_eq].
Qed.

(** The exchange of the top. *)
Lemma wp_cas_top old new push v (Q : bool -> state -> local -> Prop) g l :
  thread_id l = t ->
  (forall g', p_rely P t g g' -> p_inv P g' -> top (subs g') = old -> top_allowed t old new push v (subs g')) ->
  (forall g1 g2, p_rely P t g g1 -> p_inv P g1 ->
     (slot t (subs g1) = 0 -> did [if push then SPush v else SPop v] g1 g2) ->
     (forall a n, public g1 a n -> public g2 a n) -> Q true g2 l) ->
  (forall g1, p_rely P t g g1 -> p_inv P g1 -> top (subs g1) <> old -> Q false g1 l) ->
  wp P t (cas_top old new push) Q g l.
Proof.
  intros Ht Hal Hok Hno g1 R1 I1 _. destruct (Z.eqb_spec (top (subs g1)) old) as [E|Hne].
  - specialize (Hal g1 R1 I1 E). destruct (top_step w t old new push v _ (minv g1 I1) E Hal) as [Hi' Hg'].
    destruct (mstep g1 _ I1 Hi' Hg') as [HG HI]. rewrite Ht. split; [done|split; [done|]].
    apply (Hok g1 _ R1 I1).
    + intros Hs. apply did_step; [done|done|]. cbn [after_top mhist fmap list_fmap app]. by rewrite (top_allowed_val _ _ _ _ _ _ Hal).
    + intros a n [Pa En]. destruct push; [|done]. split; [|done]. cbn. apply lookup_delete_None. by right.
  - split; [apply (guar_refl (P := P))|split; [done|]]. by apply Hno.
Qed.

(** *** The elimination array, which is used only when there are other threads *)

Context (others : ~ still).

Lemma slot_lookup i g : p_inv P g -> 0 <= i < w -> elimination_array (subs g) !! Z.to_nat i = Some (slot (Z.to_nat i) (subs g)).
Proof.
  intros HI Hi. pose proof (mi_length w _ (minv g HI)) as Hlen. unfold slot.
  destruct (lookup_lt_is_Some_2 (elimination_array (subs g)) (Z.to_nat i)) as [a Ea]; [lia|]. by rewrite Ea.
Qed.

Lemma wp_load_slot i (Q : Z -> state -> local -> Prop) g l :
  0 <= i < w -> (forall a g', p_rely P t g g' -> p_inv P g' -> Q a g' l) -> wp P t (load_slot i) Q g l.
Proof.
  intros Hi HQ. apply wp_load; [apply _|]. intros g1 R1 I1 _. eexists. split; [by apply slot_lookup|by apply HQ].
Qed.

(** The node [a] is the thread's and in its entry. *)
Record offered (a : Z) (n : node_t) g g' : Prop := mkOffered {
  of_inv : p_inv P g';
  of_slot : slot t (subs g') = a;
  of_owns : owns g' a n;
  of_events : sevents_of t (mhist (subs g')) = sevents_of t (mhist (subs g));
}.

Lemma wp_offer a n (Q : bool -> state -> local -> Prop) g0 g l :
  thread_id l = t -> Z.of_nat t < w -> did [] g0 g -> owns g a n ->
  (forall g', offered a n g0 g' -> Q true g' l) -> wp P t (cas_slot (Z.of_nat t) 0 a) Q g l.
Proof.
  intros Ht Hw D Ho HQ g1 R1 I1 _. destruct (sdid_rely [] g0 g g1 D R1 I1) as [_ Hs Hev _].
  pose proof (owns_nonzero g a n (did_inv _ _ _ D) Ho) as Ha.
  destruct (owns_rely g g1 a n (did_inv _ _ _ D) R1 ltac:(by rewrite (did_slot _ _ _ D)) Ho) as [Pa En].
  rewrite (slot_lookup (Z.of_nat t) g1 I1) by lia. cbn [mbind option_bind]. rewrite Nat2Z.id, Hs, Ht, Z.eqb_refl.
  pose proof (mi_length w _ (minv g1 I1)).
  destruct (own_slot_step w t (subs g1) a (minv g1 I1) ltac:(lia) ltac:(done)) as (Hi' & Hg' & Hs'). rewrite Hs in Hi', Hg', Hs'.
  destruct (mstep g1 _ I1 Hi' Hg') as [HG HI]. split; [done|split; [done|]]. apply HQ.
  assert (E : mheap (after_slot t (Z.of_nat t) 0 a (subs g1)) = mheap (subs g1) /\
    mhist (after_slot t (Z.of_nat t) 0 a (subs g1)) = mhist (subs g1)) by (unfold after_slot; by rewrite Z.eqb_refl).
  destruct E as [Em Eh]. split; [done|done| |].
  - unfold owns, own. cbn [set_subs subs]. by rewrite Em.
  - cbn [set_subs subs]. by rewrite Eh.
Qed.

(** Either nobody took it, and it is out again, or somebody did, and it is pushed. *)
Lemma wp_withdraw a n (Q : bool -> state -> local -> Prop) g0 g l :
  thread_id l = t -> Z.of_nat t < w -> offered a n g0 g ->
  (forall g', did [] g0 g' -> owns g' a n -> Q true g' l) ->
  (forall g', did [SPush (val n)] g0 g' -> Q false g' l) ->
  wp P t (cas_slot (Z.of_nat t) a 0) Q g l.
Proof.
  intros Ht Hw [HI Hs Ho Hev] HQ HQ' g1 R1 I1 _. pose proof (owns_nonzero g a n HI Ho) as Ha.
  rewrite (slot_lookup (Z.of_nat t) g1 I1) by lia. cbn [mbind option_bind]. rewrite Nat2Z.id.
  destruct (sr_slot t _ _ (mrely g g1 R1)) as [(Es & Ev & Hk)|(Hz & Es & Hp)]; rewrite ?Hs in *.
  - rewrite Es, Z.eqb_refl, Ht. pose proof (mi_length w _ (minv g1 I1)).
    destruct (own_slot_step w t (subs g1) 0 (minv g1 I1) ltac:(lia) ltac:(done)) as (Hi' & Hg' & Hs'). rewrite Es in Hi', Hg', Hs'.
    destruct (mstep g1 _ I1 Hi' Hg') as [HG HI']. split; [done|split; [done|]].
    assert (E : mheap (after_slot t (Z.of_nat t) a 0 (subs g1)) = mheap (subs g1) /\
      mhist (after_slot t (Z.of_nat t) a 0 (subs g1)) = mhist (subs g1)) by (unfold after_slot; by rewrite Z.eqb_refl).
    destruct E as [Em Eh]. apply HQ.
    + split; [done|done| |done]. cbn [set_subs subs]. by rewrite Eh, Ev.
    + unfold owns, own. cbn [set_subs subs]. rewrite Em. by apply Hk.
  - rewrite Es. destruct (Z.eqb_spec 0 a); [congruence|]. split; [apply (guar_refl (P := P))|split; [done|]].
    apply HQ'. split; [done|done| |done]. rewrite (Hp n Ho). cbn [app]. by rewrite Hev.
Qed.

(** The node of another thread. *)
Lemma wp_take i a (Q : bool -> state -> local -> Prop) g0 g l :
  thread_id l = t -> 0 <= i < w -> i <> Z.of_nat t -> a <> 0 -> did [] g0 g ->
  (forall n g', did [SPop (val n)] g0 g' -> public g' a n -> Q true g' l) ->
  (forall g', did [] g0 g' -> Q false g' l) ->
  wp P t (cas_slot i a 0) Q g l.
Proof.
  intros Ht Hi Hne Ha D HQ HQ' g1 R1 I1 _. pose proof (sdid_rely [] g0 g g1 D R1 I1) as D1. pose proof D1 as [_ Hs Hev _].
  rewrite (slot_lookup i g1 I1 Hi). cbn [mbind option_bind]. destruct (Z.eqb_spec (slot (Z.to_nat i) (subs g1)) a) as [E|Hn].
  - rewrite <- E in Ha. pose proof (mi_slots w _ (minv g1 I1) _ Ha) as Pa.
    destruct (proj2 (mi_heap w _ (minv g1 I1)) _ _ Pa) as [n En].
    destruct (take_slot_step w t (Z.to_nat i) (subs g1) n (minv g1 I1) ltac:(lia) Ha En) as (Hi' & Hg' & Hh & Pn & En' & Hs').
    rewrite Z2Nat.id, E in * by lia. rewrite Ht. destruct (mstep g1 _ I1 Hi' Hg') as [HG HI]. split; [done|split; [done|]].
    apply (HQ n); [|by split]. split; [done|cbn [set_subs subs]; by rewrite Hs', Hs| |done].
    cbn [set_subs subs]. rewrite Hh, !sevents_of_cons. rewrite decide_True by done. rewrite decide_False by lia. cbn [app]. by rewrite Hev.
  - split; [apply (guar_refl (P := P))|split; [done|]]. by apply HQ'.
Qed.
End rules.
