(* ===== verification/StrictStacks.v ===== *)
(** src/stack-treiber and src/stack-elimination (stack-lockfree.c, stack-treiber.c,
    stack-elimination.c, intset.c): the stacks that the relaxed ones are compared
    with, and their executions. *)
From S2P Require Import Prelude Conc Random Thread StackHeap Shared TopStack.

(** A client's calls. *)
Inductive op := DoPush (k v : Z) | DoPop.

(** ** Operations *)

Section code.
Context {A : Allocator node_t}.

(** stack-lockfree.c. *)
Definition mstack_new_node (key val next : Z) : MS Z := alloc_mnode (mkNode key val next).

Definition mstack_size : MS Z :=
  let* node := load_top in
  while (fun '(node, size) =>
    if negb (node =? 0) then
      let* nxt := load_mnode next node in
      continue (nxt, i32 (size + 1))
    else break size) (node, 0).

(** [mstack_treiber_find] and [mstack_elimination_find]: not implemented. *)
Definition mstack_find (key : Z) : MS Z := Ret 1.

(** stack-treiber.c. *)
Definition treiber_insert_body (node : Z) (_ : unit) : MS (unit + unit) :=
  let* top := load_top in
  store_next node top ;;;
  let* ok := cas_top top node true in
  if (ok : bool) then break tt
  else put (count_stat inc_put_cas_fail) ;;; continue tt.

Definition mstack_treiber_insert (key val : Z) : MS Z :=
  let* node := mstack_new_node key val 0 in
  while (treiber_insert_body node) tt ;;;
  Ret 1.

(** Leaving the loop: 0 is returned, or the node was taken. *)
Definition treiber_delete_body (_ : unit) : MS (unit + option Z) :=
  let* top := load_top_pop in
  if top =? 0 then put (count_stat inc_null) ;;; break None
  else
    let* nxt := load_mnode next top in
    let* ok := cas_top top nxt false in
    if (ok : bool) then break (Some top)
    else put (count_stat inc_get_cas_fail) ;;; continue tt.

Definition mstack_treiber_delete : MS Z :=
  let* r := while treiber_delete_body tt in
  match r with
  | None => Ret 0
  | Some top => load_mnode val top
  end.

(** stack-elimination.c; [thread_index] is [pop_slot]. *)
Section elimination.
Context (num_threads push_wait pop_wait : Z).

(** The waiting loops.  [wait_array[thread_id]] is used by this thread alone. *)
Definition wait (limit : Z) : MS unit :=
  while (fun count => if count <? limit then continue (u32 (count + 1)) else break tt) 0.

Definition random_slot : MS Z := Shared.random_index 64 num_threads.

Definition me : MS Z := get (fun l => Z.of_nat (thread_id l)).

Definition push_node_body (node : Z) (_ : unit) : MS (unit + Z) :=
  let* top := load_top in
  store_next node top ;;;
  let* ok := cas_top top node true in
  if (ok : bool) then break 1
  else
    let* thread_id := me in
    let* ok := cas_slot thread_id 0 node in
    if (ok : bool) then
      put (count_stat inc_put_cas_fail) ;;;
      wait push_wait ;;;
      if negb (node =? 0) then
        let* ok := cas_slot thread_id node 0 in
        if (ok : bool) then continue tt else break 1
      else break 1
    else continue tt.

Definition mstack_elimination_push_node (node : Z) : MS Z := while (push_node_body node) tt.

Definition mstack_elimination_insert (key val : Z) : MS Z :=
  let* node := mstack_new_node key val 0 in
  mstack_elimination_push_node node.

Definition mstack_elimination_delete_node (node : Z) : MS Z := load_mnode val node.

(** The search of the array: [inl v] is returned by the pop; [inr i]: nothing found.
    [i] is an [int] and [num_threads] a [size_t]. *)
Definition eliminate_body (i : Z) : MS (Z + (Z + Z)) :=
  if u64 i <? num_threads then
    let* slot := random_slot in
    put (set_thread_index slot) ;;;
    let* thread_id := me in
    if negb (slot =? thread_id) then
      let* node := load_slot slot in
      if negb (node =? 0) then
        let* ok := cas_slot slot node 0 in
        if (ok : bool) then
          put (count_stat inc_get_cas_fail) ;;;
          let* v := mstack_elimination_delete_node node in break (inl v)
        else continue (i32 (i + 1))
      else continue (i32 (i + 1))
    else continue (i32 (i + 1))
  else break (inr i).

Definition elimination_delete_body (i : Z) : MS (Z + Z) :=
  let* top := load_top_pop in
  if top =? 0 then put (count_stat inc_null) ;;; break 0
  else
    let* nxt := load_mnode next top in
    let* ok := cas_top top nxt false in
    if (ok : bool) then
      let* v := mstack_elimination_delete_node top in break v
    else
      let* r := while eliminate_body i in
      match r with
      | inl v => break v
      | inr i => wait pop_wait ;;; continue i
      end.

Definition mstack_elimination_delete : MS Z := while elimination_delete_body 0.
End elimination.

(** intset.c: [mstack_add] and [mstack_remove]; with [None] of the Treiber stack, with
    [num_threads], [push_wait] and [pop_wait] of the elimination stack. *)
Definition exec_op (e : option (Z * Z * Z)) (o : op) : MS Z :=
  match e, o with
  | None, DoPush k v => mstack_treiber_insert k v
  | None, DoPop => mstack_treiber_delete
  | Some (_, push_wait, _), DoPush k v => mstack_elimination_insert push_wait k v
  | Some (num_threads, _, pop_wait), DoPop => mstack_elimination_delete num_threads pop_wait
  end.
End code.

(** [mstack_new], and the elimination array of [main]. *)
Definition mstack_new (e : option (Z * Z * Z)) : state :=
  let entries := match e with Some (num_threads, _, _) => replicate (Z.to_nat num_threads) 0 | None => [] end in
  mkShared tt (mkMstack 0 entries (mkMem ∅ ∅) []).

(** ** The operations, for a thread among others and for one alone *)

Section operations.
Context {A : Allocator node_t} (w : Z) (P : protocol state) (t : nat).
Context {runs : Runs P (joint (no_window (W := unit)) (mprot w)) t}.
Notation still := (still P t).
Notation did := (did P t).
Notation owns := (owns t).
Context (alone_still : p_total P = true -> still).
Implicit Types (g : state) (l : local).

(** While the new node is the thread's own. *)
Definition pushing (node k v : Z) g0 g l : Prop :=
  thread_id l = t /\ did [] g0 g /\ exists p, owns g node (mkNode k v p).

Lemma wp_new_node k v (Q : Z -> state -> local -> Prop) g l :
  thread_id l = t -> p_inv P g -> slot t (subs g) = 0 ->
  (forall node g', pushing node k v g g' l -> Q node g' l) -> wp P t (mstack_new_node k v 0) Q g l.
Proof.
  intros Ht HI Hs HQ. apply (wp_alloc_mnode w P t); [done|]. intros a g1 g2 R1 I1 D Ho. apply HQ.
  pose proof (sdid_rely w P t [] g g g1 (did_nil P t g HI Hs) R1 I1) as D1.
  split; [done|split; [|by exists 0]]. apply (sdid_then w P t [] [] g g g1 g2 (did_nil P t g HI Hs) R1); [|done]. apply D, D1.
Qed.

(** One attempt to push. *)
Lemma wp_try_push {R} (K : bool -> MS R) node k v (Q : R -> state -> local -> Prop) g0 g l :
  pushing node k v g0 g l ->
  (forall g', did [SPush v] g0 g' -> wp P t (K true) Q g' l) ->
  (forall g', ~ still -> pushing node k v g0 g' l -> wp P t (K false) Q g' l) ->
  wp P t (let* top := load_top in store_next node top ;;; let* ok := cas_top top node true in K ok) Q g l.
Proof.
  intros (Ht & D & p & Ho) Htrue Hfalse. wp_local. apply (wp_load_top w P t). intros g1 R1 I1.
  pose proof (sdid_rely w P t [] g0 g g1 D R1 I1) as D1.
  assert (Hnz : node <> 0) by exact (owns_nonzero w P t g node _ (did_inv _ _ _ _ _ D) Ho).
  assert (Ho1 : owns g1 node (mkNode k v p)).
  { apply (owns_rely w P t g g1); [apply D|done| |done]. by rewrite (did_slot _ _ _ _ _ D). }
  wp_local. eapply (wp_store_mnext w P t); [done|exact Ho1|by rewrite (did_slot _ _ _ _ _ D1)|].
  intros g2 g3 R2 I2 D3 Htop Ho3. cbn [key val] in Ho3.
  pose proof (sdid_rely w P t [] g0 g1 g2 D1 R2 I2) as D2. specialize (D3 (did_slot _ _ _ _ _ D2)).
  assert (D03 : did [] g0 g3) by (by apply (sdid_then w P t [] [] g0 g1 g2 g3)).
  assert (Hkeep : forall g4, p_rely P t g3 g4 -> p_inv P g4 -> did [] g0 g4 /\ owns g4 node (mkNode k v (top (subs g1)))).
  { intros g4 R4 I4. split; [by apply (sdid_rely w P t _ _ g3)|].
    apply (owns_rely w P t g3 g4); [apply D3|done| |done]. by rewrite (did_slot _ _ _ _ _ D3). }
  wp_local. apply (wp_cas_top w P t _ _ true v); [done|..].
  - intros g4 R4 I4 Et. destruct (Hkeep g4 R4 I4) as [D4 Ho4]. exists (mkNode k v (top (subs g1))).
    by rewrite (did_slot _ _ _ _ _ D4).
  - intros g4 g5 R4 I4 D5 _. apply Htrue. destruct (Hkeep g4 R4 I4) as [D4 _].
    apply (sdid_then w P t [] [SPush v] g0 g3 g4 g5 D03 R4); [|done]. apply D5, D4.
  - intros g4 R4 I4 Hne. apply Hfalse.
    + intros Hst. apply Hne. by rewrite (Hst _ _ R4), Htop, (Hst _ _ R2).
    + destruct (Hkeep g4 R4 I4) as [D4 Ho4]. split; [done|split; [done|by eexists]].
Qed.

(** One attempt to pop. *)
Lemma wp_try_pop {R} (E : MS R) (K : Z -> bool -> MS R) (Q : R -> state -> local -> Prop) g0 g l :
  thread_id l = t -> did [] g0 g ->
  (forall g', did [SEmpty] g0 g' -> wp P t E Q g' l) ->
  (forall a n g', did [SPop (val n)] g0 g' -> public g' a n -> wp P t (K a true) Q g' l) ->
  (forall a g', ~ still -> did [] g0 g' -> wp P t (K a false) Q g' l) ->
  wp P t (let* top := load_top_pop in
          if top =? 0 then E
          else let* nxt := load_mnode next top in let* ok := cas_top top nxt false in K top ok) Q g l.
Proof.
  intros Ht D HE Htrue Hfalse. wp_local. apply (wp_load_top_pop w P t); [done|..].
  - intros g1 g2 R1 I1 D2. cbn [Z.eqb]. apply HE. pose proof (sdid_rely w P t [] g0 g g1 D R1 I1) as D1.
    apply (sdid_then w P t [] [SEmpty] g0 g g1 g2 D R1); [|done]. apply D2, D1.
  - intros g1 n R1 I1 Hnz Hpub. pose proof (sdid_rely w P t [] g0 g g1 D R1 I1) as D1. rewrite (proj2 (Z.eqb_neq _ _) Hnz).
    set (a := top (subs g1)) in *. wp_local. apply (wp_load_public w P t next a n); [done|]. intros g2 R2 I2 Hpub2.
    pose proof (sdid_rely w P t [] g0 g1 g2 D1 R2 I2) as D2.
    wp_local. apply (wp_cas_top w P t _ _ false (val n)); [done|..].
    + intros g3 R3 I3 _. split; [done|]. exists n. by destruct (public_rely w P t g2 g3 a n R3 Hpub2).
    + intros g3 g4 R3 I3 D4 Hp. apply (Htrue a n); [|by apply Hp, (public_rely w P t g2 g3)].
      pose proof (sdid_rely w P t [] g0 g2 g3 D2 R3 I3) as D3.
      apply (sdid_then w P t [] [SPop (val n)] g0 g2 g3 g4 D2 R3); [|done]. apply D4, D3.
    + intros g3 R3 I3 Hne. apply Hfalse; [|by apply (sdid_rely w P t [] g0 g2 g3)].
      intros Hst. apply Hne. by rewrite (Hst _ _ R3), (Hst _ _ R2).
Qed.

(** The value of a node that was popped. *)
Lemma wp_popped_value evs a n (Q : Z -> state -> local -> Prop) g0 g l :
  did evs g0 g -> public g a n -> (forall g', did evs g0 g' -> Q (val n) g' l) -> wp P t (load_mnode val a) Q g l.
Proof.
  intros D Hp HQ. apply (wp_load_public w P t val a n); [done|]. intros g' R' I' _. apply HQ. by apply (sdid_rely w P t _ _ g).
Qed.

(** A loop whose body only repeats if other threads have interfered. *)
Lemma wp_retry {X R S} (body : X -> MS (X + R)) (k : R -> MS S) (J : X -> state -> local -> Prop) x (Q : S -> state -> local -> Prop) g l :
  J x g l ->
  (forall x g l, J x g l ->
     wp P t (body x) (fun r g l => match r with inl x => ~ still /\ J x g l | inr b => wp P t (k b) Q g l end) g l) ->
  wp P t (While body x k) Q g l.
Proof.
  intros H0 HJ. apply (wp_while P t _ _ _ _ (fun _ => J) 0%nat); [done|]. intros n y g' l' Hy.
  eapply wp_mono; [|apply HJ, Hy]. intros [z|b] g2 l2; [|done]. intros [Hns HJ2]. exists 0%nat. split; [|done].
  intros Htot. by destruct (Hns (alone_still Htot)).
Qed.

Lemma treiber_insert_wp k v (Q : Z -> state -> local -> Prop) g l :
  thread_id l = t -> p_inv P g -> slot t (subs g) = 0 ->
  (forall g' l', thread_id l' = t -> did [SPush v] g g' -> Q 1 g' l') -> wp P t (mstack_treiber_insert k v) Q g l.
Proof.
  intros Ht HI Hs HQ. unfold mstack_treiber_insert. wp_local. apply wp_new_node; [done..|]. intros node g1 HJ.
  wp_local. apply (wp_retry _ _ (fun _ => pushing node k v g)); [done|]. intros [] g2 l2 HJ2. unfold treiber_insert_body.
  apply (wp_try_push _ node k v _ g); [done|..].
  - intros g3 D3. wp_locals. apply HQ; [by destruct HJ2|done].
  - intros g3 Hns HJ3. wp_locals. by split.
Qed.

Lemma treiber_delete_wp (Q : Z -> state -> local -> Prop) g l :
  thread_id l = t -> p_inv P g -> slot t (subs g) = 0 ->
  (forall g' l', thread_id l' = t -> did [SEmpty] g g' -> Q 0 g' l') ->
  (forall v g' l', thread_id l' = t -> did [SPop v] g g' -> Q v g' l') -> wp P t mstack_treiber_delete Q g l.
Proof.
  intros Ht HI Hs HQ0 HQ. unfold mstack_treiber_delete. wp_local.
  apply (wp_retry _ _ (fun _ g' l' => thread_id l' = t /\ did [] g g')); [split; [done|by apply did_nil]|].
  intros [] g2 l2 [Ht2 D2]. unfold treiber_delete_body. apply (wp_try_pop _ _ _ g); [done|done|..].
  - intros g3 D3. wp_locals. by apply HQ0.
  - intros a n g3 D3 Hp. wp_locals. apply (wp_popped_value _ a n _ g _ _ D3 Hp). intros g4 D4. by apply HQ.
  - intros a g3 Hns D3. wp_locals. by split.
Qed.

(** *** The elimination stack *)

Lemma wp_wait limit (Q : unit -> state -> local -> Prop) g l :
  limit < 2 ^ 32 -> Q tt g l -> wp P t (wait limit) Q g l.
Proof.
  intros Hlim HQ. apply (wp_while P t _ _ _ _ (fun n c g1 l1 => g1 = g /\ l1 = l /\ 0 <= c < 2 ^ 32 /\ n = Z.to_nat (limit - c)) (Z.to_nat (limit - 0))).
  - split_and!; done.
  - intros n c g1 l1 (-> & -> & Hc & ->). destruct (Z.ltb_spec c limit) as [Hlt|Hge]; wp_locals; [|done].
    rewrite wrap_small by lia. eexists. split; [|split_and!; try done]; lia.
Qed.

Section array.
Context (push_wait pop_wait : Z) (Hpush : push_wait < 2 ^ 32) (Hpop : pop_wait < 2 ^ 32) (Hw : Z.of_nat t < w < 2 ^ 64).

Lemma elimination_insert_wp k v (Q : Z -> state -> local -> Prop) g l :
  thread_id l = t -> p_inv P g -> slot t (subs g) = 0 ->
  (forall g' l', thread_id l' = t -> did [SPush v] g g' -> Q 1 g' l') ->
  wp P t (mstack_elimination_insert push_wait k v) Q g l.
Proof.
  intros Ht HI Hs HQ. unfold mstack_elimination_insert. wp_local. apply wp_new_node; [done..|]. intros node g1 HJ.
  apply (wp_retry _ _ (fun _ => pushing node k v g)); [done|]. intros [] g2 l2 HJ2. unfold push_node_body.
  apply (wp_try_push _ node k v _ g); [done|..].
  - intros g3 D3. wp_locals. apply HQ; [by destruct HJ2|done].
  - intros g3 Hns (Ht3 & D3 & p & Ho3). unfold me. wp_locals. rewrite Ht3.
    apply (wp_offer w P t node _ _ g g3 l2 Ht3 (proj1 Hw) D3 Ho3). intros g4 Hof. wp_locals.
    apply wp_wait; [done|]. pose proof (owns_nonzero w P t g4 node _ (of_inv _ _ _ _ _ _ Hof) (of_owns _ _ _ _ _ _ Hof)) as Hnz.
    rewrite (proj2 (Z.eqb_neq _ _) Hnz). cbn [negb]. wp_locals.
    apply (wp_withdraw w P t Hns node (mkNode k v p) _ g g4); [done|lia|done|..].
    + intros g5 D5 Ho5. wp_locals. split; [done|]. split; [done|split; [done|by eexists]].
    + intros g5 D5. wp_locals. apply HQ; [done|exact D5].
Qed.

(** The search: a node was taken, or nothing has happened. *)
Lemma eliminate_wp i g0 (Q : Z + Z -> state -> local -> Prop) g l :
  ~ still -> thread_id l = t -> did [] g0 g ->
  (forall v g' l', thread_id l' = t -> did [SPop v] g0 g' -> Q (inl v) g' l') ->
  (forall j g' l', thread_id l' = t -> did [] g0 g' -> Q (inr j) g' l') ->
  wp P t (while (eliminate_body w) i) Q g l.
Proof.
  intros Hns Ht D HQ HQ'. apply (wp_retry _ _ (fun _ g' l' => thread_id l' = t /\ did [] g0 g')); [by split|].
  intros j g2 l2 [Ht2 D2]. unfold eliminate_body. destruct (u64 j <? w); [|wp_locals; by apply HQ'].
  unfold random_slot. wp_local. apply wp_shared_random; [lia|]. intros r s Hr. unfold me. wp_locals. cbn [thread_id set_thread_index set_seeds].
  rewrite Ht2. destruct (Z.eqb_spec r (Z.of_nat t)) as [|Hne]; cbn [negb]; [wp_locals; by split|].
  wp_local. apply (wp_load_slot w P t); [done|]. intros a g3 R3 I3. pose proof (sdid_rely w P t [] g0 g2 g3 D2 R3 I3) as D3.
  destruct (Z.eqb_spec a 0) as [|Hnz]; cbn [negb]; [wp_locals; by split|].
  wp_local. apply (wp_take w P t Hns r a _ g0); [done..|by intros ?|done| |].
  - intros n g4 D4 Hp. wp_locals. unfold mstack_elimination_delete_node. apply (wp_popped_value _ a n _ g0 _ _ D4 Hp).
    intros g5 D5. wp_locals. by apply HQ.
  - intros g4 D4. wp_locals. by split.
Qed.

Lemma elimination_delete_wp (Q : Z -> state -> local -> Prop) g l :
  thread_id l = t -> p_inv P g -> slot t (subs g) = 0 ->
  (forall g' l', thread_id l' = t -> did [SEmpty] g g' -> Q 0 g' l') ->
  (forall v g' l', thread_id l' = t -> did [SPop v] g g' -> Q v g' l') ->
  wp P t (mstack_elimination_delete w pop_wait) Q g l.
Proof.
  intros Ht HI Hs HQ0 HQ. unfold mstack_elimination_delete.
  apply (wp_retry _ _ (fun _ g' l' => thread_id l' = t /\ did [] g g')); [split; [done|by apply did_nil]|].
  intros i g2 l2 [Ht2 D2]. unfold elimination_delete_body. apply (wp_try_pop _ _ _ g); [done|done|..].
  - intros g3 D3. wp_locals. by apply HQ0.
  - intros a n g3 D3 Hp. wp_locals. unfold mstack_elimination_delete_node. apply (wp_popped_value _ a n _ g _ _ D3 Hp).
    intros g4 D4. wp_locals. by apply HQ.
  - intros a g3 Hns D3. wp_locals. apply (eliminate_wp i g); [done..| |].
    + intros v g4 l4 Ht4 D4. wp_locals. by apply HQ.
    + intros j g4 l4 Ht4 D4. wp_locals. apply wp_wait; [done|]. wp_locals. by split.
Qed.
End array.

(** The call [o] with the answer [r] is the event. *)
Inductive answered : op * Z -> sevent -> Prop :=
| answered_push k v : answered (DoPush k v, 1) (SPush v)
| answered_pop v : answered (DoPop, v) (SPop v)
| answered_empty : answered (DoPop, 0) SEmpty.

(** The array of the elimination stack has an entry for each of the threads. *)
Definition entries (e : option (Z * Z * Z)) : Z := match e with Some (num_threads, _, _) => num_threads | None => 0 end.
Definition settings_ok (e : option (Z * Z * Z)) (threads : nat) : Prop :=
  match e with
  | Some (num_threads, push_wait, pop_wait) =>
      Z.of_nat threads <= num_threads < 2 ^ 64 /\ push_wait < 2 ^ 32 /\ pop_wait < 2 ^ 32
  | None => True
  end.

(** Every call is one event. *)
Lemma exec_op_wp e o (Q : Z -> state -> local -> Prop) g l :
  entries e = w -> settings_ok e (S t) -> thread_id l = t -> p_inv P g -> slot t (subs g) = 0 ->
  (forall ev r g' l', thread_id l' = t -> did [ev] g g' -> answered (o, r) ev -> Q r g' l') ->
  wp P t (exec_op e o) Q g l.
Proof.
  intros He Hok Ht HI Hs HQ. destruct e as [[[num_threads push_wait] pop_wait]|]; cbn in He, Hok.
  - destruct Hok as (Hn & Hpu & Hpo). subst num_threads. destruct o as [k v|]; cbn [exec_op].
    + apply elimination_insert_wp; [done|lia|done..|]. intros g' l' Ht' D. eapply HQ; [done|exact D|constructor].
    + apply elimination_delete_wp; [done|lia|done..|intros g' l' Ht' D|intros v g' l' Ht' D]; (eapply HQ; [done|exact D|constructor]).
  - destruct o as [k v|]; cbn [exec_op].
    + apply treiber_insert_wp; [done..|]. intros g' l' Ht' D. eapply HQ; [done|exact D|constructor].
    + apply treiber_delete_wp; [done..|intros g' l' Ht' D|intros v g' l' Ht' D]; (eapply HQ; [done|exact D|constructor]).
Qed.

(** [mstack_size], for a thread alone. *)
Lemma mstack_size_wp (Q : Z -> state -> local -> Prop) g l :
  still -> p_inv P g -> Z.of_nat (length (items (mhist (subs g)))) < 2 ^ 31 ->
  Q (Z.of_nat (length (items (mhist (subs g))))) g l -> wp P t mstack_size Q g l.
Proof.
  intros Hst HI Hlim HQ. unfold mstack_size. wp_local. apply (wp_load_top w P t). intros g1 R1 I1. rewrite (Hst _ _ R1).
  set (vs := items (mhist (subs g))) in *. pose proof (mi_chain w _ (minv w P t g HI)) as Hc. fold vs in Hc.
  apply (wp_while P t _ _ _ _ (fun n '(p, size) g1 l1 => g1 = g /\ l1 = l /\ exists ws, chain (mheap (subs g)) p ws /\
    n = length ws /\ 0 <= size /\ size + Z.of_nat (length ws) = Z.of_nat (length vs)) (length vs)).
  - split; [done|split; [done|]]. by exists vs.
  - intros n [p size] g2 l2 (-> & -> & ws & Hws & -> & Hsz & Hlen). destruct ws as [|x ws].
    + cbn [chain] in Hws. subst p. cbn [negb Z.eqb]. wp_locals. cbn [length] in Hlen. by replace size with (Z.of_nat (length vs)) by lia.
    + destruct Hws as (Hp & Pp & nd & En & _ & _ & Hws). rewrite (proj2 (Z.eqb_neq _ _) Hp). cbn [negb]. wp_local.
      apply (wp_load_public w P t next p nd); [done|]. intros g3 R3 I3 _. rewrite (Hst _ _ R3). wp_locals. cbn [length] in *.
      rewrite sign_small by lia. exists (length ws). split; [lia|]. split_and!; try done. exists ws. split_and!; try done; lia.
Qed.
End operations.

(** ** Creation *)

Lemma slot_new e t : slot t (subs (mstack_new e)) = 0.
Proof.
  unfold slot. destruct e as [[[n ?] ?]|]; [|done]. cbn. destruct (replicate (Z.to_nat n) 0 !! t) eqn:E; [|done].
  by apply lookup_replicate in E as [-> _].
Qed.

Lemma mstack_new_inv e :
  0 <= entries e -> p_inv (joint (no_window (W := unit)) (mprot (entries e))) (mstack_new e).
Proof.
  intros He. split; [done|]. split; try done.
  - destruct e as [[[n ?] ?]|]; [|done]. cbn in *. rewrite length_replicate. lia.
  - intros t Hz. by rewrite slot_new in Hz.
Qed.

(** ** The sequential stack *)

Definition lifo_step (q : list Z) (o : op) : Z * list Z :=
  match o, q with
  | DoPush _ v, _ => (1, v :: q)
  | DoPop, [] => (0, [])
  | DoPop, v :: q => (v, q)
  end.

Fixpoint lifo (q : list Z) (ops : list op) : list Z * list Z :=
  match ops with
  | [] => ([], q)
  | o :: ops => let '(r, q) := lifo_step q o in let '(rs, q) := lifo q ops in (r :: rs, q)
  end.

Lemma lifo_snoc ops o : forall q,
  lifo q (ops ++ [o]) = let '(rs, q1) := lifo q ops in let '(r, q2) := lifo_step q1 o in (rs ++ [r], q2).
Proof.
  induction ops as [|o1 ops IH]; intros q; cbn [app lifo]; [by destruct (lifo_step q o)|].
  destruct (lifo_step q o1) as [r1 q1]. rewrite IH. destruct (lifo q1 ops) as [rs q2]. by destruct (lifo_step q2 o).
Qed.

(** An event of a legal history is what the sequential stack does. *)
Lemma answered_lifo t o r e h : slegal ((t, e) :: h) -> answered (o, r) e -> lifo_step (items h) o = (r, items ((t, e) :: h)).
Proof.
  intros Hl Ha. inversion Ha; subst; cbn in *; [done|..].
  - destruct Hl as [Hh _]. destruct (items h); [done|]. cbn in *. congruence.
  - destruct Hl as [-> _]. done.
Qed.

(** Conservation. *)
Definition pushes (h : list (nat * sevent)) : list Z := omap (fun x => match x.2 with SPush v => Some v | _ => None end) h.
Definition pops (h : list (nat * sevent)) : list Z := omap (fun x => match x.2 with SPop v => Some v | _ => None end) h.

Lemma items_permutation h : slegal h -> Permutation (pushes h) (items h ++ pops h).
Proof.
  induction h as [|[t e] h IH]; [done|]. destruct e as [v|v|]; cbn [slegal items]; unfold pushes, pops; cbn [omap list_omap snd].
  - intros Hl. cbn [app]. constructor. by apply IH.
  - intros [Hv Hl]. fold (pushes h) (pops h). rewrite (IH Hl). destruct (items h) as [|x q]; [done|]. cbn in Hv |- *.
    injection Hv as ->. apply Permutation_middle.
  - intros [_ Hl]. by apply IH.
Qed.

(** ** Theorems *)

Section theorems.
Context {A : Allocator node_t} (e : option (Z * Z * Z)).
Notation B := (joint (no_window (W := unit)) (mprot (entries e))).
Context (opss : list (list op)) (ls : list local) (schedule : list nat).
Context (Hls : forall i l, ls !! i = Some l -> thread_id l = i) (He : settings_ok e (length ls)).

Let final := exec (mkCfg (mstack_new e) (clients (exec_op e) opss ls)) schedule.
Let h := mhist (subs (mem final)).

Lemma entries_nonneg : 0 <= entries e.
Proof. destruct e as [[[n ?] ?]|]; cbn in *; lia. Qed.

(** A thread between two calls. *)
Definition between (t : nat) (calls : list (op * Z)) (g : state) (l : local) : Prop :=
  (t < length ls)%nat /\ thread_id l = t /\ p_inv B g /\ slot t (subs g) = 0 /\
  Forall2 answered calls (reverse (sevents_of t (mhist (subs g)))).

Lemma between_rely t calls g g' l : between t calls g l -> p_rely B t g g' -> p_inv B g' -> between t calls g' l.
Proof.
  intros (Hlt & Ht & HI & Hs & Hf) [_ R] I'. destruct (sr_slot t _ _ R) as [(Es & Ev & _)|(Hz & _)]; [|by rewrite Hs in Hz].
  split; [done|split; [done|split; [done|split; [by rewrite Es|by rewrite Ev]]]].
Qed.

Lemma settings_ok_at t : (t < length ls)%nat -> settings_ok e (S t).
Proof. intros Ht. unfold settings_ok in *. destruct e as [[[n ?] ?]|]; [|done]. lia. Qed.

Lemma strict_stacks_run :
  p_inv B (mem final) /\ ~ faulty final /\
  (forall i rs l os, pool final !! i = Some (Ret rs, l) -> opss !! i = Some os ->
     length rs = length os /\ between i (zip os rs) (mem final) l).
Proof.
  destruct (clients_soundness (exec_op e) B between) with (meas := fun _ : state => 0) (delta := 0) (limit := 0)
    (g0 := mstack_new e) (opss := opss) (ls := ls) (schedule := schedule) as (HI & HF & HQ); try done.
  - intros t calls o g l (Hlt & Ht & HI & Hs & Hf).
    apply (exec_op_wp (entries e) B t); [done|done|by apply settings_ok_at|done..|]. intros ev r g' l' Ht' D Hans.
    split; [done|split; [done|split; [apply D|split; [apply (did_slot _ _ _ _ _ D)|]]]]. rewrite (did_events _ _ _ _ _ D).
    cbn [app]. rewrite reverse_cons. apply Forall2_app; [done|by constructor].
  - apply mstack_new_inv, entries_nonneg.
  - cbn. lia.
  - intros i l Hl. split; [by eapply lookup_lt_Some|split; [by apply Hls|split; [by apply mstack_new_inv, entries_nonneg|]]].
    split; [apply slot_new|constructor].
  - split; [done|split; [done|]]. intros i rs l os Hp Ho. destruct (HQ i rs l os Hp Ho) as (Hlen & g1 & R1 & HJ1).
    split; [done|]. by apply (between_rely i _ g1).
Qed.

(** C29. The Treiber stack ([e = None]) and the elimination stack are linearizable: in every
    interleaving no access is invalid; the history, in which a push that another
    thread's pop took from the elimination array comes right before that pop, is
    one of a stack, the nodes behind the top hold what it leaves and nothing is
    lost or duplicated; each call of a finished thread is one event of the history
    with the call's result, in program order, and empty is only answered when the
    stack is empty. *)
Theorem strict_stacks_linearizable :
  ~ faulty final /\ slegal h /\ chain (mheap (subs (mem final))) (top (subs (mem final))) (items h) /\
  Permutation (pushes h) (items h ++ pops h) /\
  (forall i rs l os, pool final !! i = Some (Ret rs, l) -> opss !! i = Some os ->
     length rs = length os /\ Forall2 answered (zip os rs) (reverse (sevents_of i h))).
Proof.
  destruct strict_stacks_run as ([_ HI] & HF & HQ). split; [done|]. split; [apply HI|split; [apply HI|split]].
  - apply items_permutation, HI.
  - intros i rs l os Hp Ho. destruct (HQ i rs l os Hp Ho) as (Hlen & _ & _ & _ & _ & Hf). by split.
Qed.

(** C30. Obstruction freedom: from the memory that any interleaving has reached, other
    threads' calls half done included, thread 0 when it is between two calls and
    runs alone finishes any calls, with the results of the sequential stack on the
    values behind the top; and [mstack_size] is exact. *)
Theorem strict_stacks_obstruction_free ops rs0 os0 l0 :
  pool final !! 0%nat = Some (Ret rs0, l0) -> opss !! 0%nat = Some os0 ->
  exists n g l,
    (forall m, (n <= m)%nat -> run m (run_ops (exec_op e) ops) (mem final) l0 = Finished (lifo (items h) ops).1 g l) /\
    (Z.of_nat (length (lifo (items h) ops).2) < 2 ^ 31 ->
     exists n' g' l', forall m, (n' <= m)%nat ->
       run m mstack_size g l = Finished (Z.of_nat (length (lifo (items h) ops).2)) g' l').
Proof.
  intros Hp Ho. destruct strict_stacks_run as (HI0 & _ & HQ). destruct (HQ _ _ _ _ Hp Ho) as (_ & Hlt & Ht & _ & Hs & _).
  assert (Hst : still (alone B) 0) by (intros g1 g2 R; by apply R).
  destruct (alone_run B (run_ops (exec_op e) ops) (fun rs g l =>
      length rs = length ops /\ thread_id l = 0%nat /\ p_inv B g /\ slot 0 (subs g) = 0 /\
      lifo (items h) (([] : list (op * Z)) ++ zip ops rs).*1 = ((([] : list (op * Z)) ++ zip ops rs).*2, items (mhist (subs g))))
      (mem final) l0) as (n & rs & g & l & Hrun & (Hlen & Hl & _ & Hs' & Hf) & HI); [done| |].
  - apply (wp_run_ops (alone B) 0%nat (exec_op e) (fun calls g l => thread_id l = 0%nat /\ p_inv B g /\ slot 0 (subs g) = 0 /\
      lifo (items h) calls.*1 = (calls.*2, items (mhist (subs g))))); [|done].
    intros calls o g l (Hl & HI & Hs' & Hf). apply (exec_op_wp (entries e) (alone B) 0); [done|done|by apply settings_ok_at|done..|].
    intros ev r g' l' Hl' D Hans. split; [done|split; [apply (did_inv _ _ _ _ _ D)|split; [apply (did_slot _ _ _ _ _ D)|]]].
    pose proof (did_still _ _ _ _ _ D Hst) as Hh. cbn [fmap list_fmap app] in Hh.
    rewrite !fmap_app. cbn [fmap list_fmap fst snd]. rewrite lifo_snoc, Hf, Hh. rewrite (answered_lifo 0 o r ev); [done| |done].
    rewrite <- Hh. apply (mi_legal (entries e)), (did_inv _ _ _ _ _ D).
  - cbn [app] in Hf. rewrite fst_zip, snd_zip in Hf by lia. rewrite Hf. cbn [fst snd]. exists n, g, l. split; [done|]. intros Hsz.
    destruct (alone_run B mstack_size (fun r _ _ => r = Z.of_nat (length (items (mhist (subs g))))) g l)
      as (n' & r & g' & l' & Hrun' & -> & _); [done| |by exists n', g', l'].
    by apply (mstack_size_wp (entries e) (alone B) 0).
Qed.
End theorems.

(** ** A concrete execution: three threads, where thread 0 takes the node of thread 2
    from the elimination array *)

#[local] Instance example_allocator : Allocator node_t := bump_allocator node_t.
Definition example_settings : option (Z * Z * Z) := Some (3, 4, 1).
Definition example_ops : list (list op) := [[DoPush 1 10; DoPop; DoPush 4 40]; [DoPop; DoPop]; [DoPush 3 30; DoPop; DoPush 2 20]].
Definition example_start : list nat :=
  [0; 2; 0; 0; 2; 0; 1; 0; 0; 2; 1; 2; 1; 0; 0; 1; 1; 2; 2; 0; 1; 2; 0; 2; 2; 0; 0; 0; 1; 0; 0]%nat.
Definition example_final (n : nat) : cfg state local (list Z) :=
  exec (mkCfg (mstack_new example_settings) (clients (exec_op example_settings) example_ops (tls0 tt <$> seq 0 3)))
    (example_start ++ mjoin (replicate n [0; 1; 2]%nat)).

Example strict_stacks_example :
  (elimination_array (subs (mem (example_final 0))), mhist (subs (mem (example_final 0)))) =
    ([0; 0; 0], [(0%nat, SPop 30); (2%nat, SPush 30); (1%nat, SEmpty); (1%nat, SPop 10); (0%nat, SPush 10)]) /\
  (fun pl => match pl.1 with Ret rs => Some rs | _ => None end) <$> pool (example_final 40) =
    [Some [1; 30; 1]; Some [10; 0]; Some [1; 40; 1]].
Proof. vm_compute. by split. Qed.

Lemma strict_stacks_linearizable_witness :
  Forall2 answered [(DoPush 3 30, 1); (DoPop, 40); (DoPush 2 20, 1)] (reverse (sevents_of 2 (mhist (subs (mem (example_final 40)))))).
Proof.
  destruct (strict_stacks_linearizable example_settings example_ops (tls0 tt <$> seq 0 3)
    (example_start ++ mjoin (replicate 40 [0; 1; 2]%nat))) as (_ & _ & _ & _ & Hex).
  - intros i l H. by apply tls0_lookup in H as ->.
  - cbn. lia.
  - refine (proj2 (Hex 2%nat [1; 40; 1] _ [DoPush 3 30; DoPop; DoPush 2 20] _ _)); vm_compute; reflexivity.
Defined.

(** Thread 2 has stopped in the middle of a call. *)
Lemma strict_stacks_obstruction_free_witness :
  exists n g l, forall m, (n <= m)%nat ->
    run m (run_ops (exec_op example_settings) [DoPop; DoPop; DoPush 5 50; DoPop])
      (mem (exec (mkCfg (mstack_new example_settings) (clients (exec_op example_settings) [[DoPush 1 10]; []; [DoPush 2 20; DoPush 3 30]]
         (tls0 tt <$> seq 0 3))) (replicate 20 0 ++ replicate 8 2)%nat)) (tls0 tt 0) = Finished [20; 10; 1; 50] g l.
Proof.
  destruct (strict_stacks_obstruction_free example_settings [[DoPush 1 10]; []; [DoPush 2 20; DoPush 3 30]] (tls0 tt <$> seq 0 3)
    (replicate 20 0 ++ replicate 8 2)%nat) with (ops := [DoPop; DoPop; DoPush 5 50; DoPop]) (rs0 := [1]) (os0 := [DoPush 1 10]) (l0 := tls0 (W := unit) tt 0)
    as (n & g & l & Hrun & _).
  - intros i l H. by apply tls0_lookup in H as ->.
  - cbn. lia.
  - vm_compute. reflexivity.
  - reflexivity.
  - exists n, g, l. exact Hrun.
Defined.
