(* ===== verification/RelaxAnalysis.v ===== *)
(** include/relaxation_analysis_queue.c: the measurement of how relaxed a
    structure is.  Next to the structure a plain linked list, [linear_clone],
    holds the elements in the order of their linearization points; a removal
    takes its element out of that list and records in [error_dists] how many
    elements it skipped.

    All functions are called with [relaxation_list_lock] held, from the
    insertion or the removal that the lock makes one step with its
    compare-and-exchange, so they are modelled as functions on the state of the
    analysis, in a monad of state and faults. *)
From S2P Require Import Prelude StackHeap QueueHeap FifoOrder Queue2Dd Queue2DdSeq SubStacks Stack2DcSeq.
From Stdlib Require Import QArith.Qcanon.
#[local] Open Scope Z_scope.

(** ** The state *)

Record linear_node_t := mkLinearNode { ln_val : Z; ln_next : Z }.
Record linear_list_t := mkLinearList { ll_size : Z; ll_head : Z; ll_tail : Z }.

(** The heap of the nodes, the two global lists and the [static] counter of
    [gen_relaxation_count]. *)
Record analysis := mkAnalysis {
  lin_heap : gmap Z linear_node_t;
  linear_clone : linear_list_t;
  error_dists : linear_list_t;
  relax_count : Z;
}.

Definition analysis0 : analysis := mkAnalysis ∅ (mkLinearList 0 0 0) (mkLinearList 0 0 0) 0.

(** ** The monad *)

(** [BadAccess]: a NULL or unallocated pointer is followed; [BadEnd]: the call
    [error("Choose a valid end...")], a function no file of the program
    declares; [OutOfFuel]: a loop did not end in the given number of rounds. *)
Inductive fault := AssertFailed | BadAccess | BadEnd | OutOfFuel.

Inductive outcome (A : Type) :=
| Ok (a : A) (s : analysis)
| Err (f : fault).
Arguments Ok {A}.
Arguments Err {A}.

Definition M (A : Type) : Type := analysis -> outcome A.
#[export] Instance M_ret : MRet M := fun _ a s => Ok a s.
#[export] Instance M_bind : MBind M := fun _ _ f m s =>
  match m s with Ok a s' => f a s' | Err e => Err e end.

Definition throw {A} (f : fault) : M A := fun _ => Err f.
Definition get : M analysis := fun s => Ok s s.
Definition load (a : Z) : M linear_node_t := fun s =>
  match lin_heap s !! a with Some n => Ok n s | None => Err BadAccess end.
Definition store (a : Z) (n : linear_node_t) : M unit := fun s =>
  match lin_heap s !! a with
  | Some _ => Ok tt (mkAnalysis (<[a := n]> (lin_heap s)) (linear_clone s) (error_dists s) (relax_count s))
  | None => Err BadAccess
  end.
Definition set_val (a v : Z) : M unit := n ← load a; store a (mkLinearNode v (ln_next n)).
Definition set_next (a x : Z) : M unit := n ← load a; store a (mkLinearNode (ln_val n) x).
Definition set_clone (L : linear_list_t) : M unit := fun s =>
  Ok tt (mkAnalysis (lin_heap s) L (error_dists s) (relax_count s)).
Definition set_dists (L : linear_list_t) : M unit := fun s =>
  Ok tt (mkAnalysis (lin_heap s) (linear_clone s) L (relax_count s)).

Section functions.
Context {A : Allocator linear_node_t}.
(** Whether the asserts are compiled (no [-DNDEBUG]). *)
Context (asserts : bool).

Definition ASSERT (b : bool) : M unit := if asserts && negb b then throw AssertFailed else mret tt.

(** A new node, zeroed. *)
Definition calloc : M Z := fun s =>
  let a := alloc_addr (lin_heap s) in
  Ok a (mkAnalysis (<[a := mkLinearNode 0 0]> (lin_heap s)) (linear_clone s) (error_dists s) (relax_count s)).

Definition add_linear (v end_ : Z) : M unit :=
  count_node ← calloc;
  set_val count_node v;;
  s ← get;
  let L := linear_clone s in
  set_clone (mkLinearList (u64 (ll_size L + 1)) (ll_head L) (ll_tail L));;
  s ← get;
  let L := linear_clone s in
  if ll_head L =? 0 then
    set_clone (mkLinearList (ll_size L) count_node count_node)
  else if end_ =? 1 then
    set_next count_node (ll_head L);;
    set_clone (mkLinearList (ll_size L) count_node (ll_tail L))
  else if end_ =? 0 then
    set_next (ll_tail L) count_node;;
    set_clone (mkLinearList (ll_size L) (ll_head L) count_node)
  else throw BadEnd.

Definition add_relaxed_dist (dist_node : Z) : M unit :=
  s ← get;
  let L := error_dists s in
  set_dists (mkLinearList (u64 (ll_size L + 1)) (ll_head L) (ll_tail L));;
  s ← get;
  let L := error_dists s in
  set_next dist_node 0;;
  if ll_head L =? 0 then
    set_dists (mkLinearList (ll_size L) dist_node dist_node)
  else
    set_next (ll_tail L) dist_node;;
    set_dists (mkLinearList (ll_size L) (ll_head L) dist_node).

(** The loop "Search list for node". *)
Fixpoint search_linear (fuel : nat) (v skipped last_node : Z) : M (Z * Z) :=
  l ← load last_node;
  n ← load (ln_next l);
  if ln_val n =? v then mret (skipped, last_node)
  else match fuel with
  | O => throw OutOfFuel
  | S fuel =>
    let skipped := u64 (skipped + 1) in
    l ← load last_node;
    let last_node := ln_next l in
    l ← load last_node;
    ASSERT (negb (ln_next l =? 0));;
    search_linear fuel v skipped last_node
  end.

Definition remove_linear (fuel : nat) (v : Z) : M unit :=
  s ← get;
  let L := linear_clone s in
  ASSERT (negb (ll_head L =? 0));;
  set_clone (mkLinearList (u64 (ll_size L - 1)) (ll_head L) (ll_tail L));;
  s ← get;
  let L := linear_clone s in
  h ← load (ll_head L);
  if ln_val h =? v then
    let found_node := ll_head L in
    (if ll_head L =? ll_tail L then
       ASSERT (ln_next h =? 0);;
       ASSERT (ll_size L =? 0);;
       set_clone (mkLinearList (ll_size L) (ll_head L) 0)
     else mret tt);;
    s ← get;
    let L := linear_clone s in
    set_clone (mkLinearList (ll_size L) (ln_next h) (ll_tail L));;
    set_val found_node 0;;
    add_relaxed_dist found_node
  else
    p ← search_linear fuel v 1 (ll_head L);
    let '(skipped, last_node) := p in
    l ← load last_node;
    let found_node := ln_next l in
    f ← load found_node;
    set_next last_node (ln_next f);;
    (if found_node =? ll_tail L then
       set_clone (mkLinearList (ll_size L) (ll_head L) last_node)
     else mret tt);;
    set_val found_node (i64 skipped);;
    add_relaxed_dist found_node.

Definition gen_relaxation_count : M Z := fun s =>
  let count := u64 (relax_count s + 1) in
  Ok count (mkAnalysis (lin_heap s) (linear_clone s) (error_dists s) count).

(** What an insertion does under the lock after its compare-and-exchange
    succeeded, with the element's number for its value; [end_] is 0 in the
    queues and 1 in the stacks. *)
Definition count_insert (end_ : Z) : M Z :=
  count ← gen_relaxation_count;
  add_linear (i64 count) end_;;
  mret (i64 count).

(** An element is inserted or [v] is removed, both with the lock held. *)
Inductive analysis_op := Inserted | Removed (v : Z).

Definition analyse_op (fuel : nat) (end_ : Z) (o : analysis_op) : M unit :=
  match o with
  | Inserted => _ ← count_insert end_; mret tt
  | Removed v => remove_linear fuel v
  end.

Fixpoint analyse (fuel : nat) (end_ : Z) (os : list analysis_op) : M unit :=
  match os with
  | [] => mret tt
  | o :: os => analyse_op fuel end_ o;; analyse fuel end_ os
  end.
End functions.

(** ** The measurements

    A [long double] is a rational, or [None] for an infinity or NaN, from which
    none of the operations below leads back to a number; [rnd] is the rounding
    of the result of an operation or conversion. *)
Section measurements.
Context (asserts : bool) (rnd : Qc -> Qc).

Definition long_double : Type := option Qc.
Definition ld_of_int (z : Z) : long_double := Some (rnd (Qc_of_Z z)).
Definition ld_add (x y : long_double) : long_double := a ← x; b ← y; Some (rnd (a + b)%Qc).
Definition ld_sub (x y : long_double) : long_double := a ← x; b ← y; Some (rnd (a - b)%Qc).
Definition ld_mul (x y : long_double) : long_double := a ← x; b ← y; Some (rnd (a * b)%Qc).
Definition ld_div (x y : long_double) : long_double :=
  a ← x; b ← y; if decide (b = 0%Qc) then None else Some (rnd (a / b)%Qc).

(** The loop "Find mean and maximum": the sum and the maximum. *)
Fixpoint sum_max (fuel : nat) (node : Z) (sum : long_double) (max : Z) : M (long_double * Z) :=
  if node =? 0 then mret (sum, max)
  else match fuel with
  | O => throw OutOfFuel
  | S fuel =>
    n ← load node;
    let val := ln_val n in
    let sum := ld_add sum (ld_of_int val) in
    let max := if max <? val then val else max in
    sum_max fuel (ln_next n) sum max
  end.

(** The loop "Find variance". *)
Fixpoint sum_squares (fuel : nat) (node : Z) (mean sum : long_double) : M long_double :=
  if node =? 0 then mret sum
  else match fuel with
  | O => throw OutOfFuel
  | S fuel =>
    n ← load node;
    let val := ld_of_int (ln_val n) in
    let sum := ld_add sum (ld_mul (ld_sub val mean) (ld_sub val mean)) in
    sum_squares fuel (ln_next n) mean sum
  end.

(** The loop "Print all individually" of SAVE_FULL. *)
Fixpoint print_all (fuel : nat) (node : Z) : M (list Z) :=
  if node =? 0 then mret []
  else match fuel with
  | O => throw OutOfFuel
  | S fuel =>
    n ← load node;
    vs ← print_all fuel (ln_next n);
    mret (ln_val n :: vs)
  end.

Record measurements_t := mkMeasurements {
  mean_relaxation : long_double;
  max_relaxation : Z;
  variance_relaxation : long_double;
  relaxation_distances : list Z;
}.

Definition print_relaxation_measurements (fuel : nat) : M measurements_t :=
  s ← get;
  let L := error_dists s in
  ASSERT asserts (negb (ll_head L =? 0));;
  p ← sum_max fuel (ll_head L) (ld_of_int 0) 0;
  let '(sum, max) := p in
  let mean := ld_div sum (ld_of_int (ll_size L)) in
  sum ← sum_squares fuel (ll_head L) mean (ld_of_int 0);
  let variance := ld_div sum (ld_of_int (ll_size L)) in
  vs ← print_all fuel (ll_head L);
  mret (mkMeasurements mean max variance vs).
End measurements.

(** ** The lists in the heap *)

(** The nodes [xs], addresses and values, from [a] to the link [b]. *)
Fixpoint lseg (h : gmap Z linear_node_t) (a : Z) (xs : list (Z * Z)) (b : Z) : Prop :=
  match xs with
  | [] => a = b
  | (p, v) :: xs => a = p /\ exists n, h !! p = Some (mkLinearNode v n) /\ lseg h n xs b
  end.

Definition list_rep (h : gmap Z linear_node_t) (L : linear_list_t) (xs : list (Z * Z)) : Prop :=
  lseg h (ll_head L) xs 0 /\ ll_tail L = default 0 (last xs.*1) /\
  ll_size L = u64 (Z.of_nat (length xs)).

Definition rep (s : analysis) (xs ys : list (Z * Z)) : Prop :=
  list_rep (lin_heap s) (linear_clone s) xs /\ list_rep (lin_heap s) (error_dists s) ys /\
  NoDup (xs ++ ys).*1 /\ lin_heap s !! 0 = None.

(** The analysis holds the elements [q], in order, and the distances [ds]. *)
Definition holds (s : analysis) (q ds : list Z) : Prop :=
  exists xs ys, rep s xs ys /\ xs.*2 = q /\ ys.*2 = ds.

Lemma holds_analysis0 : holds analysis0 [] [].
Proof. exists [], []. split; [|done]. split_and!; [done..|constructor|done]. Qed.

Lemma lseg_app h a xs ys b :
  lseg h a (xs ++ ys) b <-> exists c, lseg h a xs c /\ lseg h c ys b.
Proof.
  revert a. induction xs as [|[p v] xs IH]; intros a; cbn.
  - split; [by exists a|]. by intros (c & -> & H).
  - setoid_rewrite IH. split.
    + intros (-> & n & E & c & H1 & H2). eauto 10.
    + intros (c & (-> & n & E & H1) & H2). eauto 10.
Qed.

Lemma lseg_frame h h' a xs b :
  lseg h a xs b -> (forall p, p ∈ xs.*1 -> h' !! p = h !! p) -> lseg h' a xs b.
Proof.
  revert a. induction xs as [|[p v] xs IH]; intros a; cbn; [done|].
  intros (-> & n & E & H) Hs. split; [done|]. exists n. split; [rewrite Hs; [done|set_solver]|].
  apply IH; [done|]. intros q Hq. apply Hs. set_solver.
Qed.

Lemma lseg_lookup h a xs b p : lseg h a xs b -> p ∈ xs.*1 -> is_Some (h !! p).
Proof.
  revert a. induction xs as [|[q v] xs IH]; intros a; cbn; [set_solver|].
  intros (_ & n & E & H) [->|Hp]%elem_of_cons; [by eexists|by eapply IH].
Qed.

Lemma lseg_head h a xs : h !! 0 = None -> lseg h a xs 0 -> (a =? 0) = bool_decide (xs = []).
Proof.
  intros H0. destruct xs as [|[p v] xs]; cbn.
  - by intros ->.
  - intros (-> & n & E & _). by destruct (Z.eqb_spec p 0) as [->|]; [congruence|].
Qed.

(** Taking the node [f] out from between [t] and [post]. *)
Lemma lseg_unlink h a xs t w f v post b :
  lseg h a (xs ++ (t, w) :: (f, v) :: post) b -> NoDup (xs ++ (t, w) :: (f, v) :: post).*1 ->
  exists n, h !! t = Some (mkLinearNode w f) /\ h !! f = Some (mkLinearNode v n) /\
    lseg (<[t := mkLinearNode w n]> h) a (xs ++ (t, w) :: post) b.
Proof.
  rewrite lseg_app, fmap_app. intros (c & Hx & -> & f' & Et & -> & n & Ef & Hp) (_ & Hd & Hnd)%NoDup_app.
  cbn in Hnd. apply NoDup_cons in Hnd as [Ht _]. exists n. split_and!; [done|done|].
  apply lseg_app. exists t. split.
  - eapply lseg_frame; [done|]. intros p Hpx. apply lookup_insert_ne. intros ->.
    apply (Hd _ Hpx). set_solver.
  - split; [done|]. exists n. split; [apply lookup_insert_eq|].
    eapply lseg_frame; [done|]. intros p Hpp. apply lookup_insert_ne. set_solver.
Qed.

Lemma nodup_middle (pre post ys : list (Z * Z)) x :
  NoDup ((pre ++ x :: post) ++ ys).*1 -> x.1 ∉ ((pre ++ post) ++ ys).*1 /\ NoDup ((pre ++ post) ++ ys).*1.
Proof. rewrite <- Permutation_middle. cbn. by intros ?%NoDup_cons. Qed.

(** Setting the [next] of the last node of [xs]. *)
Lemma lseg_relink h a xs t w b c :
  lseg h a (xs ++ [(t, w)]) b -> t ∉ xs.*1 ->
  lseg (<[t := mkLinearNode w c]> h) a (xs ++ [(t, w)]) c.
Proof.
  rewrite !lseg_app. intros (d & H1 & -> & n & E & _) Ht. exists t. split.
  - apply (lseg_frame h); [done|]. intros p Hp. rewrite lookup_insert_ne; [done|]. set_solver.
  - cbn. split; [done|]. exists c. by rewrite lookup_insert_eq.
Qed.

(** A list grows at its end by the node [p]. *)
Lemma list_rep_snoc h L xs p v :
  list_rep h L xs -> NoDup xs.*1 -> p ∉ xs.*1 -> h !! 0 = None ->
  h !! p = Some (mkLinearNode v 0) ->
  if ll_head L =? 0 then
    list_rep h (mkLinearList (u64 (ll_size L + 1)) p p) (xs ++ [(p, v)])
  else exists w n, ll_tail L ∈ xs.*1 /\ h !! ll_tail L = Some (mkLinearNode w n) /\
    list_rep (<[ll_tail L := mkLinearNode w p]> h) (mkLinearList (u64 (ll_size L + 1)) (ll_head L) p)
      (xs ++ [(p, v)]).
Proof.
  intros (Hs & Ht & Hn) Hnd Hp H0 E. rewrite (lseg_head _ _ _ H0 Hs).
  assert (Hsize : u64 (ll_size L + 1) = u64 (Z.of_nat (length (xs ++ [(p, v)])))).
  { rewrite Hn, <- (wrap_add 64), wrap_wrap, wrap_add, length_app by lia. cbn [length]. f_equal. lia. }
  destruct (decide (xs = [])) as [->|Hne].
  { rewrite bool_decide_true by done. split_and!; [|done|done]. cbn. split; [done|]. by exists 0. }
  rewrite bool_decide_false by done.
  destruct xs as [|[t w] xs _] using rev_ind; [done|]. clear Hne.
  rewrite fmap_app in *. cbn in *. rewrite last_snoc in Ht. cbn in Ht. rewrite Ht in *.
  apply NoDup_app in Hnd as (_ & Ht' & _). apply not_elem_of_app in Hp as [Hp Hpt].
  assert (Htx : t ∉ xs.*1) by (intros Hin; apply (Ht' _ Hin); set_solver).
  assert (Htp : t <> p) by set_solver.
  pose proof Hs as (b & _ & -> & n & Et & _)%lseg_app. exists w, n.
  split_and!; [set_solver|done|]. split_and!; cbn.
  - rewrite lseg_app. exists p. split; [by eapply lseg_relink|].
    cbn. split; [done|]. exists 0. by rewrite lookup_insert_ne.
  - rewrite fmap_app. cbn. by rewrite last_snoc.
  - done.
Qed.

(** ** The operations *)

(** [m] ends without a fault in a state and with a result that satisfy [Q]. *)
Definition runs {B} (m : M B) (s : analysis) (Q : B -> analysis -> Prop) : Prop :=
  exists b s', m s = Ok b s' /\ Q b s'.

Lemma runs_ret {B} (b : B) s (Q : B -> analysis -> Prop) : Q b s -> runs (mret b) s Q.
Proof. intros H. by exists b, s. Qed.
Lemma runs_bind {B C} (m : M B) (f : B -> M C) s Q :
  runs m s (fun b s' => runs (f b) s' Q) -> runs (m ≫= f) s Q.
Proof.
  intros (b & s1 & E1 & c & s2 & E2 & H). exists c, s2. split; [|done].
  unfold mbind, M_bind. by rewrite E1.
Qed.
Lemma runs_mono {B} (m : M B) s (Q Q' : B -> analysis -> Prop) :
  runs m s Q -> (forall b s', Q b s' -> Q' b s') -> runs m s Q'.
Proof. intros (b & s' & E & H) HQ. exists b, s'. auto. Qed.
Lemma runs_get s (Q : analysis -> analysis -> Prop) : Q s s -> runs get s Q.
Proof. intros H. by exists s, s. Qed.
Lemma runs_load a s n (Q : linear_node_t -> analysis -> Prop) :
  lin_heap s !! a = Some n -> Q n s -> runs (load a) s Q.
Proof. intros E H. exists n, s. unfold load. by rewrite E. Qed.
Lemma runs_assert asserts (b : bool) s (Q : unit -> analysis -> Prop) :
  b = true -> Q tt s -> runs (ASSERT asserts b) s Q.
Proof. intros -> H. exists tt, s. unfold ASSERT. by rewrite andb_false_r. Qed.
Lemma runs_set_clone L s (Q : unit -> analysis -> Prop) :
  Q tt (mkAnalysis (lin_heap s) L (error_dists s) (relax_count s)) -> runs (set_clone L) s Q.
Proof. intros H. by eexists _, _. Qed.
Lemma runs_set_dists L s (Q : unit -> analysis -> Prop) :
  Q tt (mkAnalysis (lin_heap s) (linear_clone s) L (relax_count s)) -> runs (set_dists L) s Q.
Proof. intros H. by eexists _, _. Qed.
Lemma runs_store a n n' s (Q : unit -> analysis -> Prop) :
  lin_heap s !! a = Some n' ->
  Q tt (mkAnalysis (<[a := n]> (lin_heap s)) (linear_clone s) (error_dists s) (relax_count s)) ->
  runs (store a n) s Q.
Proof. intros E H. eexists tt, _. split; [|done]. unfold store. by rewrite E. Qed.
Lemma runs_set_next a x n s (Q : unit -> analysis -> Prop) :
  lin_heap s !! a = Some n ->
  Q tt (mkAnalysis (<[a := mkLinearNode (ln_val n) x]> (lin_heap s))
    (linear_clone s) (error_dists s) (relax_count s)) ->
  runs (set_next a x) s Q.
Proof. intros E H. eapply runs_bind, runs_load, runs_store; [done..|]. done. Qed.
Lemma runs_set_val a v n s (Q : unit -> analysis -> Prop) :
  lin_heap s !! a = Some n ->
  Q tt (mkAnalysis (<[a := mkLinearNode v (ln_next n)]> (lin_heap s))
    (linear_clone s) (error_dists s) (relax_count s)) ->
  runs (set_val a v) s Q.
Proof. intros E H. eapply runs_bind, runs_load, runs_store; [done..|]. done. Qed.

(** Through the statements that cannot fail. *)
Ltac run_step :=
  match goal with
  | |- runs (_ ≫= _) _ _ => apply runs_bind
  | |- runs get _ _ => apply runs_get
  | |- runs (set_clone _) _ _ => apply runs_set_clone
  | |- runs (set_dists _) _ _ => apply runs_set_dists
  | |- runs (mret _) _ _ => apply runs_ret
  end.
Ltac run_steps := repeat (run_step; cbn [lin_heap linear_clone error_dists relax_count ll_size ll_head ll_tail]).

(** And a load or a failing step first in a sequence. *)
Lemma load_bind {B} a (f : linear_node_t -> M B) s n :
  lin_heap s !! a = Some n -> (load a ≫= f) s = f n s.
Proof. intros E. unfold load, mbind, M_bind. by rewrite E. Qed.

Lemma load_bad {B} a (f : linear_node_t -> M B) s :
  lin_heap s !! a = None -> (load a ≫= f) s = Err BadAccess.
Proof. intros E. unfold load, mbind, M_bind. by rewrite E. Qed.

Lemma assert_bind {B} asserts (b : bool) (f : unit -> M B) s :
  (ASSERT asserts b ≫= f) s = if asserts && negb b then Err AssertFailed else f tt s.
Proof. unfold ASSERT, mbind, M_bind. by destruct (asserts && negb b). Qed.

Lemma list_rep_frame h h' L xs :
  list_rep h L xs -> (forall p, p ∈ xs.*1 -> h' !! p = h !! p) -> list_rep h' L xs.
Proof. intros (H & ? & ?) Hs. split_and!; [by eapply lseg_frame|done|done]. Qed.

(** The node [p] is in neither list. *)
Definition detached (s : analysis) (p v : Z) (xs ys : list (Z * Z)) : Prop :=
  rep s xs ys /\ p ∉ (xs ++ ys).*1 /\ exists n, lin_heap s !! p = Some (mkLinearNode v n).

Lemma add_relaxed_dist_ok s p v xs ys :
  detached s p v xs ys ->
  runs (add_relaxed_dist p) s (fun _ s' => rep s' xs (ys ++ [(p, v)]) /\ relax_count s' = relax_count s).
Proof.
  intros ((Hx & Hy & Hnd & H0) & Hp & n & E).
  rewrite fmap_app in Hnd, Hp. apply not_elem_of_app in Hp as [Hpx Hpy].
  pose proof Hnd as (Hndx & Hdis & Hndy)%NoDup_app.
  assert (Hp0 : p <> 0) by congruence.
  assert (Hnd' : NoDup (xs ++ ys ++ [(p, v)]).*1).
  { rewrite !fmap_app. cbn. rewrite (assoc_L app). apply NoDup_app. split; [done|].
    split; [set_solver|apply NoDup_singleton]. }
  unfold add_relaxed_dist. run_steps. eapply runs_set_next; [done|]. cbn.
  set (h1 := <[p := mkLinearNode v 0]> (lin_heap s)).
  assert (H10 : h1 !! 0 = None) by (unfold h1; by rewrite lookup_insert_ne).
  assert (Hs1 : forall q, q ∈ xs.*1 \/ q ∈ ys.*1 -> h1 !! q = lin_heap s !! q).
  { intros q Hq. apply lookup_insert_ne. set_solver. }
  opose proof (list_rep_snoc h1 (error_dists s) ys p v _ _ _ _ _) as Happ;
    [eapply list_rep_frame; [done|]; auto|done|done|done|apply lookup_insert_eq|].
  destruct (Z.eqb_spec (ll_head (error_dists s)) 0) as [Eh|Eh].
  - run_steps. split; [|done]. split_and!; cbn; [eapply list_rep_frame; [done|]; auto|done..].
  - destruct Happ as (w & n' & Ht & Et & Hr). run_steps. eapply runs_set_next; [exact Et|]. cbn.
    run_steps. split; [|done]. split_and!; cbn; [|done|done|].
    + eapply list_rep_frame; [done|]. intros q Hq. rewrite lookup_insert_ne by set_solver. auto.
    + rewrite lookup_insert_ne; [done|]. intros E0. rewrite E0 in Et. congruence.
Qed.

Section operations.
Context {A : Allocator linear_node_t} (asserts : bool).

(** The order of the elements after an insertion. *)
Definition insert_linear (end_ v : Z) (q : list Z) : list Z := if end_ =? 1 then v :: q else q ++ [v].

Lemma runs_calloc s (Q : Z -> analysis -> Prop) :
  (forall p, p <> 0 -> lin_heap s !! p = None ->
    Q p (mkAnalysis (<[p := mkLinearNode 0 0]> (lin_heap s)) (linear_clone s) (error_dists s) (relax_count s))) ->
  runs calloc s Q.
Proof. intros H. destruct (alloc_addr_ok (lin_heap s)). eexists _, _. split; [done|]. by apply H. Qed.

Lemma add_linear_ok s q ds v end_ :
  holds s q ds -> (end_ = 0 \/ end_ = 1 \/ q = []) ->
  runs (add_linear v end_) s (fun _ s' =>
    holds s' (insert_linear end_ v q) ds /\ relax_count s' = relax_count s).
Proof.
  intros (xs & ys & (Hx & Hy & Hnd & H0) & <- & <-) He.
  unfold add_linear. run_steps. eapply runs_calloc. intros p Hp0 Hp. cbn.
  run_steps. eapply runs_set_val; [apply lookup_insert_eq|]. cbn. rewrite insert_insert_eq. run_steps.
  assert (Hin : forall q, q ∈ xs.*1 \/ q ∈ ys.*1 -> q <> p).
  { intros q [Hq|Hq] ->.
    - destruct (lseg_lookup _ _ _ _ _ (proj1 Hx) Hq). congruence.
    - destruct (lseg_lookup _ _ _ _ _ (proj1 Hy) Hq). congruence. }
  assert (Hfr : forall x q, q ∈ xs.*1 \/ q ∈ ys.*1 -> <[p := x]> (lin_heap s) !! q = lin_heap s !! q).
  { intros x q Hq. rewrite lookup_insert_ne; [done|]. by apply not_eq_sym, Hin. }
  rewrite fmap_app in Hnd. pose proof Hnd as (Hndx & Hdis & Hndy)%NoDup_app.
  assert (Hpx : p ∉ xs.*1) by (intros Hq; by eapply Hin; [by left|]).
  assert (Hpy : p ∉ ys.*1) by (intros Hq; by eapply Hin; [by right|]).
  opose proof (list_rep_snoc (<[p := mkLinearNode v 0]> (lin_heap s)) (linear_clone s) xs p v _ _ _ _ _) as Happ';
    [eapply list_rep_frame; [done|]; auto|done|done|by rewrite lookup_insert_ne|apply lookup_insert_eq|].
  destruct (Z.eqb_spec (ll_head (linear_clone s)) 0) as [Eh|Eh].
  { run_steps. split; [|done]. exists [(p, v)], ys.
    assert (xs = []) as ->.
    { apply Z.eqb_eq in Eh. rewrite (lseg_head _ _ _ H0 (proj1 Hx)) in Eh. by apply bool_decide_eq_true in Eh. }
    split; [|split; [|done]]; [|by (unfold insert_linear; case_match)].
    split_and!; cbn; [done|eapply list_rep_frame; [done|]; auto| |by rewrite lookup_insert_ne].
    by constructor. }
  assert (Hne : xs.*2 <> []).
  { intros E. apply Eh. destruct xs; [|done]. by destruct Hx as (? & _). }
  unfold insert_linear. destruct (Z.eqb_spec end_ 1) as [->|].
  - run_steps. eapply runs_set_next; [apply lookup_insert_eq|]. cbn. rewrite insert_insert_eq. run_steps.
    split; [|done]. exists ((p, v) :: xs), ys. split; [|done].
    destruct Hx as (Hs & Ht & Hn).
    split; [split_and!; cbn|split_and!; cbn; [|constructor; [|rewrite fmap_app; done]|by rewrite lookup_insert_ne]].
    + split; [done|]. exists (ll_head (linear_clone s)). split; [apply lookup_insert_eq|].
      eapply lseg_frame; [done|]. auto.
    + rewrite Ht. by destruct xs as [|[]]; [done|].
    + rewrite Hn, <- (wrap_add 64), wrap_wrap, wrap_add by lia. f_equal. lia.
    + eapply list_rep_frame; [done|]. auto.
    + by rewrite fmap_app, not_elem_of_app.
  - assert (end_ = 0) as -> by (destruct He as [|[|]]; done). cbn.
    destruct Happ' as (w & n' & Ht & Et & Hr). run_steps. eapply runs_set_next; [exact Et|]. cbn. run_steps.
    split; [|done]. exists (xs ++ [(p, v)]), ys.
    split; [|by rewrite fmap_app]. split_and!; cbn; [done|..].
    + eapply list_rep_frame; [done|]. intros q Hq. rewrite lookup_insert_ne by set_solver. auto.
    + rewrite !fmap_app. cbn. rewrite <- (assoc_L app). apply NoDup_app. split; [done|]. cbn.
      split; [intros q Hq [->|Hq']%elem_of_cons; [done|by eapply Hdis]|]. by constructor.
    + rewrite !lookup_insert_ne; [done..|]. intros E0. rewrite E0, lookup_insert_ne in Et; [congruence|done].
Qed.

Lemma add_linear_bad_end s q ds v end_ :
  holds s q ds -> q <> [] -> end_ <> 0 -> end_ <> 1 -> add_linear v end_ s = Err BadEnd.
Proof.
  intros (xs & ys & (Hx & _ & _ & H0) & <- & <-) Hq ? ?.
  unfold add_linear, calloc, get, set_clone, set_val, load, store, mbind, M_bind.
  cbn. rewrite lookup_insert_eq. cbn. rewrite lookup_insert_eq. cbn.
  destruct Hx as (Hs & _). rewrite (lseg_head _ _ _ H0 Hs).
  rewrite bool_decide_false by (by intros ->).
  destruct (Z.eqb_spec end_ 1), (Z.eqb_spec end_ 0); done.
Qed.

Lemma search_linear_ok fuel v k l w pre f post s :
  lseg (lin_heap s) l ((l, w) :: pre ++ (f, v) :: post) 0 -> v ∉ pre.*2 -> (length pre <= fuel)%nat ->
  lin_heap s !! 0 = None ->
  search_linear asserts fuel v (u64 k) l s =
    Ok (u64 (k + Z.of_nat (length pre)), default l (last pre.*1)) s.
Proof.
  intros Hs Hv Hf H0. revert fuel k l w Hs Hf.
  induction pre as [|[p x] pre IH]; intros fuel k l w (_ & n & E & Hs) Hf; cbn in Hs.
  - destruct Hs as (-> & n' & En & Hs).
    destruct fuel; cbn [search_linear]; rewrite (load_bind _ _ _ _ E); cbn [ln_next];
      rewrite (load_bind _ _ _ _ En); cbn [ln_val]; rewrite Z.eqb_refl; cbn; by rewrite Z.add_0_r.
  - destruct Hs as (-> & n' & En & Hs). destruct fuel as [|fuel]; [cbn in Hf; lia|]. cbn [search_linear].
    rewrite (load_bind _ _ _ _ E); cbn [ln_next]; rewrite (load_bind _ _ _ _ En); cbn [ln_val].
    apply not_elem_of_cons in Hv as [Hvx Hv]. rewrite (proj2 (Z.eqb_neq x v)) by (intros ->; by apply Hvx).
    rewrite (load_bind _ _ _ _ E); cbn [ln_next]; rewrite (load_bind _ _ _ _ En); cbn [ln_next].
    rewrite assert_bind, (lseg_head _ _ _ H0 Hs), bool_decide_false, andb_false_r by (by destruct pre).
    rewrite <- (wrap_add 64), wrap_wrap, wrap_add by lia.
    rewrite (IH Hv fuel (k + 1) p x); [|cbn; eauto|cbn in Hf; lia].
    f_equal. f_equal; [f_equal; cbn [length]; lia|]. rewrite fmap_cons, last_cons. by destruct (last pre.*1).
Qed.

(** Whether the search ends by a failed assertion or at a NULL pointer. *)
Lemma search_linear_absent fuel v k l w rest s :
  lseg (lin_heap s) l ((l, w) :: rest) 0 -> v ∉ rest.*2 -> (length rest <= fuel)%nat ->
  lin_heap s !! 0 = None ->
  search_linear asserts fuel v k l s =
    Err (if asserts && negb (bool_decide (rest = [])) then AssertFailed else BadAccess).
Proof.
  intros Hs Hv Hf H0. revert fuel k l w Hs Hf.
  induction rest as [|[p x] rest IH]; intros fuel k l w (_ & n & E & Hs) Hf; cbn in Hs.
  - subst n. rewrite andb_false_r.
    destruct fuel; cbn [search_linear]; rewrite (load_bind _ _ _ _ E); by apply load_bad.
  - destruct Hs as (-> & n' & En & Hs). destruct fuel as [|fuel]; [cbn in Hf; lia|]. cbn [search_linear].
    rewrite (load_bind _ _ _ _ E); cbn [ln_next]; rewrite (load_bind _ _ _ _ En); cbn [ln_val].
    apply not_elem_of_cons in Hv as [Hvx Hv]. rewrite (proj2 (Z.eqb_neq x v)) by (intros ->; by apply Hvx).
    rewrite (load_bind _ _ _ _ E); cbn [ln_next]; rewrite (load_bind _ _ _ _ En); cbn [ln_next].
    rewrite assert_bind, (lseg_head _ _ _ H0 Hs), negb_involutive.
    rewrite (bool_decide_false ((p, x) :: rest = [])), andb_true_r by done.
    rewrite (IH Hv fuel _ p x); [|cbn; eauto|cbn in Hf; lia].
    case_bool_decide; by destruct asserts.
Qed.

Lemma sign_wrap w x : 0 <= w -> sign w (wrap w x) = sign w x.
Proof. intros. unfold sign. by rewrite wrap_wrap. Qed.

Lemma size_pred n : 0 <= n -> u64 (u64 (n + 1) - 1) = u64 n.
Proof. intros. unfold Z.sub. rewrite <- (wrap_add 64), wrap_wrap, wrap_add by lia. f_equal. lia. Qed.

(** The end of both branches of [remove_linear]: the node that was taken out
    becomes the record of the distance [d]. *)
Lemma record_ok s f d xs ys n c :
  rep s xs ys -> f ∉ (xs ++ ys).*1 -> lin_heap s !! f = Some n -> relax_count s = c ->
  runs (set_val f d) s (fun _ s1 => runs (add_relaxed_dist f) s1 (fun _ s' =>
    rep s' xs (ys ++ [(f, d)]) /\ relax_count s' = c)).
Proof.
  intros (Hx & Hy & Hnd & H0) Hf E <-. eapply runs_set_val; [exact E|].
  assert (Hfr : forall L zs, list_rep (lin_heap s) L zs -> f ∉ zs.*1 ->
    list_rep (<[f := mkLinearNode d (ln_next n)]> (lin_heap s)) L zs).
  { intros L zs HL Hz. eapply list_rep_frame; [done|]. intros p Hp. apply lookup_insert_ne. by intros ->. }
  match goal with |- runs _ ?s1 _ => apply (add_relaxed_dist_ok s1 f d xs ys) end.
  split; [|split; [done|eexists; apply lookup_insert_eq]].
  rewrite fmap_app, not_elem_of_app in Hf. destruct Hf.
  split_and!; [by apply Hfr|by apply Hfr|done|]. cbn. rewrite lookup_insert_ne; [done|]. congruence.
Qed.

Lemma remove_head_ok s f v post ys fuel :
  rep s ((f, v) :: post) ys ->
  runs (remove_linear asserts fuel v) s (fun _ s' =>
    rep s' post (ys ++ [(f, 0)]) /\ relax_count s' = relax_count s).
Proof.
  intros (Hx & Hy & Hnd & H0). pose proof (nodup_middle [] post ys _ Hnd) as [Hf Hnd'].
  destruct Hx as ((Eh & n & E & Hs) & Ht & Hn). cbn in Hf.
  unfold remove_linear. run_steps. apply runs_assert; [apply negb_true_iff, Z.eqb_neq; congruence|].
  run_steps. rewrite Eh.
  eapply runs_load; [exact E|]. cbn [ln_val]. rewrite Z.eqb_refl. run_steps.
  assert (Hsize : u64 (ll_size (linear_clone s) - 1) = u64 (Z.of_nat (length post))).
  { rewrite Hn, <- (size_pred (Z.of_nat (length post))) by lia. do 3 f_equal. cbn [length]. lia. }
  assert (Htail : if f =? ll_tail (linear_clone s) then post = [] else ll_tail (linear_clone s) = default 0 (last post.*1)).
  { rewrite Ht, fmap_cons, last_cons. destruct (last post.*1) as [t|] eqn:El.
    - cbn. destruct (Z.eqb_spec f t) as [->|]; [|done].
      contradict Hf. rewrite fmap_app. apply elem_of_app. left. by apply last_Some_elem_of.
    - apply last_None, fmap_nil_inv in El. subst post. cbn. by rewrite Z.eqb_refl. }
  destruct (f =? ll_tail (linear_clone s)); run_steps.
  - subst post. cbn in Hs. subst n. apply runs_assert; [done|]. run_steps.
    apply runs_assert; [cbn in Hsize; by rewrite Hsize|]. run_steps. by eapply record_ok; [split_and!|..].
  - by eapply record_ok; [split_and!|..].
Qed.

Lemma remove_inner_ok s h0 w pre f v post ys fuel :
  rep s ((h0, w) :: pre ++ (f, v) :: post) ys -> v <> w -> v ∉ pre.*2 -> (length pre <= fuel)%nat ->
  runs (remove_linear asserts fuel v) s (fun _ s' =>
    rep s' ((h0, w) :: pre ++ post) (ys ++ [(f, i64 (1 + Z.of_nat (length pre)))]) /\
    relax_count s' = relax_count s).
Proof.
  intros (Hx & Hy & Hnd & H0) Hvw Hv Hfuel.
  pose proof (nodup_middle ((h0, w) :: pre) post ys _ Hnd) as [Hf Hnd'].
  pose proof Hx as ((Eh & n & E & Hs) & Ht & Hn).
  unfold remove_linear. run_steps. apply runs_assert; [apply negb_true_iff, Z.eqb_neq; congruence|].
  run_steps. rewrite Eh.
  eapply runs_load; [exact E|]. cbn [ln_val]. rewrite (proj2 (Z.eqb_neq w v)) by done. run_steps.
  destruct Hx as [Hseg _]. rewrite Eh in Hseg.
  eexists _, _. split; [by apply (search_linear_ok fuel v 1 h0 w pre f post)|].
  (* the node before it *)
  assert (exists pre' t x, (h0, w) :: pre = pre' ++ [(t, x)] /\ default h0 (last pre.*1) = t) as (pre' & t & x & Epre & El).
  { destruct pre as [|y pre _] using rev_ind; [by exists [], h0, w|].
    exists ((h0, w) :: pre), y.1, y.2. destruct y. rewrite fmap_app. cbn. by rewrite last_snoc. }
  assert (Eapp : forall zs, (h0, w) :: pre ++ zs = pre' ++ (t, x) :: zs).
  { intros zs. by rewrite app_comm_cons, Epre, <- (assoc_L app). }
  rewrite El. rewrite Eapp in Hseg.
  assert (Hndx : NoDup (pre' ++ (t, x) :: (f, v) :: post).*1).
  { rewrite fmap_app in Hnd. apply NoDup_app in Hnd as [Hnd _].
    by rewrite Eapp in Hnd. }
  destruct (lseg_unlink _ _ _ _ _ _ _ _ _ Hseg Hndx) as (n' & Et & Ef & Hseg').
  run_steps. eapply runs_load; [exact Et|]. cbn [ln_next]. run_steps. eapply runs_load; [exact Ef|]. cbn [ln_next].
  run_steps. eapply runs_set_next; [exact Et|]. cbn [ln_val lin_heap linear_clone error_dists relax_count].
  apply runs_bind.
  set (s1 := fun tl => mkAnalysis (<[t := mkLinearNode x n']> (lin_heap s))
    (mkLinearList (u64 (ll_size (linear_clone s) - 1)) h0 tl) (error_dists s) (relax_count s)).
  assert (Htail : (if f =? ll_tail (linear_clone s) then t else ll_tail (linear_clone s)) =
    default 0 (last ((h0, w) :: pre ++ post).*1)).
  { rewrite Ht, !Eapp.
    rewrite !fmap_app, !last_app. cbn [app fmap list_fmap fst]. rewrite !last_cons.
    rewrite fmap_app in Hndx. apply NoDup_app in Hndx as (_ & _ & Hndx). cbn in Hndx.
    destruct (last post.*1) as [z|] eqn:Ez; cbn; [|by rewrite Z.eqb_refl].
    destruct (Z.eqb_spec f z) as [->|]; [|done].
    apply NoDup_cons in Hndx as [_ [Hfp _]%NoDup_cons]. contradict Hfp. by apply last_Some_elem_of. }
  assert (Hfin : runs (set_val f (i64 (u64 (1 + Z.of_nat (length pre)))))
    (s1 (default 0 (last ((h0, w) :: pre ++ post).*1))) (fun _ s1 => runs (add_relaxed_dist f) s1 (fun _ s' =>
    rep s' ((h0, w) :: pre ++ post) (ys ++ [(f, i64 (1 + Z.of_nat (length pre)))]) /\
    relax_count s' = relax_count s))).
  { rewrite <- (sign_wrap 64 (1 + _)) by lia.
    assert (Htf : t <> f).
    { rewrite fmap_app in Hndx. apply NoDup_app in Hndx as (_ & _ & [Hndx _]%NoDup_cons). set_solver. }
    apply (record_ok (s1 _) f _ _ _ (mkLinearNode v n')); [|done|cbn; by rewrite lookup_insert_ne|done].
    rewrite <- Eapp in Hseg'.
    split_and!; cbn [lin_heap linear_clone error_dists s1]; [split_and!; [exact Hseg'|done|]| |done|].
    - cbn [ll_size]. rewrite Hn, <- (size_pred (Z.of_nat (length ((h0, w) :: pre ++ post)))) by lia.
      do 3 f_equal. cbn [length]. rewrite !length_app. cbn [length]. lia.
    - eapply list_rep_frame; [done|]. intros p Hp. apply lookup_insert_ne. intros ->.
      rewrite Eapp, !fmap_app in Hnd. apply NoDup_app in Hnd as (_ & Hd & _).
      eapply Hd; [|done]. set_solver.
    - rewrite lookup_insert_ne; [done|]. congruence. }
  destruct (f =? ll_tail (linear_clone s)); run_steps; rewrite <- Htail in Hfin; exact Hfin.
Qed.

(** Taking [v] out of the list of elements records its distance. *)
Lemma remove_linear_ok s pre v post ds fuel :
  holds s (pre ++ v :: post) ds -> v ∉ pre -> (length pre <= fuel)%nat ->
  runs (remove_linear asserts fuel v) s (fun _ s' =>
    holds s' (pre ++ post) (ds ++ [i64 (Z.of_nat (length pre))]) /\ relax_count s' = relax_count s).
Proof.
  intros (xs & ys & HR & Hx & <-) Hv Hf.
  apply fmap_app_inv in Hx as (xpre & [|[f v'] xpost] & -> & Hx & ->); [done|].
  cbn in Hx. injection Hx as <- ->. rewrite length_fmap in *.
  destruct xpre as [|[h0 w] xpre].
  - eapply runs_mono; [by apply (remove_head_ok s f v xpost ys fuel)|].
    intros _ s' [HR' Hc]. split; [|done]. exists xpost, (ys ++ [(f, 0)]). by rewrite fmap_app.
  - cbn in Hv. apply not_elem_of_cons in Hv as [Hvw Hv].
    eapply runs_mono; [apply (remove_inner_ok s h0 w xpre f v xpost ys fuel); [done..|cbn in Hf; lia]|].
    intros _ s' [HR' Hc]. split; [|done]. eexists _, _. split; [exact HR'|]. cbn. rewrite !fmap_app.
    split; [done|]. by replace (1 + Z.of_nat (length xpre)) with (Z.of_nat (S (length xpre))) by lia.
Qed.

(** What happens when [v] is not there. *)
Lemma remove_linear_absent s q v ds fuel :
  holds s q ds -> v ∉ q -> (length q <= fuel)%nat ->
  remove_linear asserts fuel v s =
    Err (if asserts && negb (bool_decide (length q = 1%nat)) then AssertFailed else BadAccess).
Proof.
  intros (xs & ys & (Hx & _ & _ & H0) & <- & <-) Hv Hf. rewrite length_fmap in *.
  destruct Hx as (Hs & _ & _). unfold remove_linear, get, set_clone, mbind at 1, M_bind at 1.
  rewrite assert_bind, (lseg_head _ _ _ H0 Hs), negb_involutive.
  destruct xs as [|[h0 w] xs].
  - cbn in Hs. rewrite Hs. cbn. rewrite !andb_true_r. destruct asserts; [done|]. by apply load_bad.
  - rewrite (bool_decide_false ((h0, w) :: xs = [])), andb_false_r by done.
    unfold mbind at 1, M_bind at 1, mbind at 1, M_bind at 1. cbn [linear_clone ll_head].
    cbn in Hv. apply not_elem_of_cons in Hv as [Hvw Hv]. pose proof Hs as (Eh & n & E & _).
    rewrite Eh. erewrite load_bind by exact E. cbn [ln_val]. rewrite (proj2 (Z.eqb_neq w v)) by done.
    unfold mbind at 1, M_bind at 1. rewrite Eh in Hs.
    rewrite (search_linear_absent fuel v 1 h0 w xs); [|done..|cbn in Hf; lia|done].
    rewrite (bool_decide_ext (xs = []) (length ((h0, w) :: xs) = 1%nat)); [done|].
    destruct xs; cbn; [done|]. split; [done|lia].
Qed.
End operations.

(** ** What is measured *)

(** The reference: the elements in the order of the strict structure, and for
    each removal the number of elements before it in that order. *)
Record measured := mkMeasured { m_count : Z; m_order : list Z; m_dists : list Z }.

Definition measure_step (end_ : Z) (o : analysis_op) (m : measured) : option measured :=
  match o with
  | Inserted =>
    Some (mkMeasured (m_count m + 1) (insert_linear end_ (m_count m + 1) (m_order m)) (m_dists m))
  | Removed v =>
    i ← fst <$> list_find (fun x => x = v) (m_order m);
    Some (mkMeasured (m_count m) (delete i (m_order m)) (m_dists m ++ [Z.of_nat i]))
  end.

Fixpoint measure (end_ : Z) (os : list analysis_op) (m : measured) : option measured :=
  match os with
  | [] => Some m
  | o :: os => m' ← measure_step end_ o m; measure end_ os m'
  end.

Lemma measure_app end_ os os' m :
  measure end_ (os ++ os') m = m' ← measure end_ os m; measure end_ os' m'.
Proof.
  revert m. induction os as [|o os IH]; intros m; cbn; [done|].
  destruct (measure_step end_ o m); cbn; [apply IH|done].
Qed.

Definition measured0 : measured := mkMeasured 0 [] [].

Section analyse.
Context {A : Allocator linear_node_t} (asserts : bool) (end_ : Z) (Hend : end_ = 0 \/ end_ = 1).

Definition analysed (s : analysis) (m : measured) : Prop :=
  holds s (m_order m) (m_dists m) /\ relax_count s = m_count m.

Lemma insert_linear_length v q : length (insert_linear end_ v q) = S (length q).
Proof. unfold insert_linear. case_match; [done|]. rewrite length_app. cbn. lia. Qed.

Lemma analyse_op_ok fuel o s m :
  analysed s m -> (length (m_order m) <= fuel)%nat -> 0 <= m_count m < 2 ^ 63 - 1 ->
  Z.of_nat (length (m_order m)) < 2 ^ 63 ->
  match measure_step end_ o m with
  | Some m' => runs (analyse_op asserts fuel end_ o) s (fun _ s' => analysed s' m')
  | None => exists f, analyse_op asserts fuel end_ o s = Err f /\ (f = AssertFailed \/ f = BadAccess)
  end.
Proof.
  intros [Hh Hc] Hf Hn Hl. destruct o as [|v]; cbn [measure_step analyse_op].
  - unfold count_insert. run_steps. eexists _, _. split; [done|]. rewrite Hc.
    run_steps.
    assert (E : i64 (u64 (m_count m + 1)) = m_count m + 1) by (rewrite sign_wrap, sign_small; lia).
    rewrite E. eapply runs_mono; [apply (add_linear_ok _ (m_order m) (m_dists m))|].
    + destruct Hh as (xs & ys & HR & ?). exists xs, ys. split; [exact HR|done].
    + destruct Hend; auto.
    + intros _ s' [Hh' Hc']. run_steps. split; [done|]. cbn in Hc' |- *. rewrite Hc', wrap_small; lia.
  - destruct (list_find (fun x => x = v) (m_order m)) as [[i x]|] eqn:El; cbn.
    + apply list_find_Some in El as (Ei & -> & Hlt).
      assert (Hi : length (take i (m_order m)) = i) by (rewrite length_take; apply lookup_lt_Some in Ei; lia).
      assert (Hv : v ∉ take i (m_order m)).
      { intros (j & Hj)%list_elem_of_lookup. apply lookup_take_Some in Hj as [Hj Hji]. by eapply Hlt. }
      rewrite <- (take_drop_middle _ _ _ Ei) in Hh.
      eapply runs_mono; [apply (remove_linear_ok asserts s _ v _ _ fuel Hh Hv)|].
      * apply lookup_lt_Some in Ei. lia.
      * intros _ s' [Hh' Hc']. split; [|cbn; congruence]. cbn. rewrite delete_take_drop.
        rewrite Hi, sign_small in Hh'; [done|lia|]. apply lookup_lt_Some in Ei. lia.
    + apply list_find_None in El. eexists. split; [eapply remove_linear_absent; [done| |done]|].
      * intros Hv. rewrite Forall_forall in El. by apply (El v Hv).
      * case_match; auto.
Qed.

Lemma analyse_ok fuel os s m :
  analysed s m -> 0 <= m_count m -> Z.of_nat (length (m_order m)) <= m_count m ->
  (Z.to_nat (m_count m) + length os <= fuel)%nat -> m_count m + Z.of_nat (length os) < 2 ^ 63 ->
  match measure end_ os m with
  | Some m' => runs (analyse asserts fuel end_ os) s (fun _ s' => analysed s' m')
  | None => exists f, analyse asserts fuel end_ os s = Err f /\ (f = AssertFailed \/ f = BadAccess)
  end.
Proof.
  revert s m. induction os as [|o os IH]; intros s m Hm Hn Hl Hf Hc; cbn [measure analyse length] in *.
  - by apply runs_ret.
  - pose proof (analyse_op_ok fuel o s m Hm ltac:(lia) ltac:(lia) ltac:(lia)) as Ho.
    destruct (measure_step end_ o m) as [m'|] eqn:Em; cbn [mbind option_bind].
    + destruct Ho as ([] & s' & E & Hm').
      assert (Hs : 0 <= m_count m' <= m_count m + 1 /\ Z.of_nat (length (m_order m')) <= m_count m').
      { destruct o as [|v]; cbn in Em.
        - injection Em as <-. cbn. rewrite insert_linear_length. lia.
        - destruct (list_find _ _) as [[i x]|] eqn:El; cbn in Em; [|done]. injection Em as <-. cbn.
          apply list_find_Some in El as (Ei & _). apply lookup_lt_Some in Ei.
          rewrite length_delete by (apply lookup_lt_is_Some; lia). lia. }
      unfold mbind, M_bind, runs. rewrite E.
      apply IH; [done|lia|lia|lia|lia].
    + destruct Ho as (f & E & Hfa). exists f. unfold mbind, M_bind. rewrite E. done.
Qed.
End analyse.

Section printing.
Context (asserts : bool) (rnd : Qc -> Qc).

(** The loops as folds. *)
Definition ld_sum (ds : list Z) : long_double :=
  foldl (fun sum d => ld_add rnd sum (ld_of_int rnd d)) (ld_of_int rnd 0) ds.
Definition ld_squares (mean : long_double) (ds : list Z) : long_double :=
  foldl (fun sum d => let val := ld_of_int rnd d in
    ld_add rnd sum (ld_mul rnd (ld_sub rnd val mean) (ld_sub rnd val mean))) (ld_of_int rnd 0) ds.
Definition sum_list (ds : list Z) : Z := foldr Z.add 0 ds.
Definition max_list (ds : list Z) : Z := foldr Z.max 0 ds.

Lemma sum_max_ok fuel s a ys sum mx (Q : long_double * Z -> analysis -> Prop) :
  lseg (lin_heap s) a ys 0 -> lin_heap s !! 0 = None -> (length ys <= fuel)%nat ->
  Q (foldl (fun sum d => ld_add rnd sum (ld_of_int rnd d)) sum ys.*2, foldl Z.max mx ys.*2) s ->
  runs (sum_max rnd fuel a sum mx) s Q.
Proof.
  intros Hs H0. revert fuel a sum mx Hs. induction ys as [|[p v] ys IH]; intros fuel a sum mx Hs Hf HQ.
  - cbn in Hs. subst a. destruct fuel; by apply runs_ret.
  - destruct fuel as [|fuel]; [cbn in Hf; lia|]. pose proof (lseg_head _ _ _ H0 Hs) as Ha.
    destruct Hs as (-> & n & E & Hs). cbn [sum_max]. rewrite Ha. cbn [bool_decide].
    apply runs_bind. eapply runs_load; [exact E|]. cbn [ln_val ln_next].
    apply IH; [done|cbn in Hf; lia|]. cbn in HQ.
    replace (if mx <? v then v else mx) with (mx `max` v); [done|]. destruct (Z.ltb_spec mx v); lia.
Qed.

Lemma sum_squares_ok fuel s a ys mean sum (Q : long_double -> analysis -> Prop) :
  lseg (lin_heap s) a ys 0 -> lin_heap s !! 0 = None -> (length ys <= fuel)%nat ->
  Q (foldl (fun sum d => let val := ld_of_int rnd d in
    ld_add rnd sum (ld_mul rnd (ld_sub rnd val mean) (ld_sub rnd val mean))) sum ys.*2) s ->
  runs (sum_squares rnd fuel a mean sum) s Q.
Proof.
  intros Hs H0. revert fuel a sum Hs. induction ys as [|[p v] ys IH]; intros fuel a sum Hs Hf HQ.
  - cbn in Hs. subst a. destruct fuel; by apply runs_ret.
  - destruct fuel as [|fuel]; [cbn in Hf; lia|]. pose proof (lseg_head _ _ _ H0 Hs) as Ha.
    destruct Hs as (-> & n & E & Hs). cbn [sum_squares]. rewrite Ha. cbn [bool_decide].
    apply runs_bind. eapply runs_load; [exact E|]. cbn [ln_val ln_next].
    apply IH; [done|cbn in Hf; lia|done].
Qed.

Lemma print_all_ok fuel s a ys (Q : list Z -> analysis -> Prop) :
  lseg (lin_heap s) a ys 0 -> lin_heap s !! 0 = None -> (length ys <= fuel)%nat ->
  Q ys.*2 s -> runs (print_all fuel a) s Q.
Proof.
  intros Hs H0. revert fuel a Q Hs. induction ys as [|[p v] ys IH]; intros fuel a Q Hs Hf HQ.
  - cbn in Hs. subst a. destruct fuel; by apply runs_ret.
  - destruct fuel as [|fuel]; [cbn in Hf; lia|]. pose proof (lseg_head _ _ _ H0 Hs) as Ha.
    destruct Hs as (-> & n & E & Hs). cbn [print_all]. rewrite Ha. cbn [bool_decide].
    apply runs_bind. eapply runs_load; [exact E|]. cbn [ln_val ln_next].
    apply runs_bind. apply IH; [done|cbn in Hf; lia|]. by apply runs_ret.
Qed.

Lemma foldl_max mx ds : 0 <= mx -> foldl Z.max mx ds = Z.max mx (max_list ds).
Proof.
  revert mx. induction ds as [|d ds IH]; intros mx Hm; cbn; [unfold max_list; cbn; lia|].
  rewrite IH by lia. unfold max_list. cbn. lia.
Qed.

Lemma max_list_nonneg ds : 0 <= max_list ds.
Proof. unfold max_list. induction ds; cbn; lia. Qed.

(** Sums below 2^64 are exact, [long double] having a significand of 64 bits. *)
Lemma ld_sum_exact ds :
  (forall z, Z.abs z <= 2 ^ 64 -> rnd (Qc_of_Z z) = Qc_of_Z z) ->
  Forall (Z.le 0) ds -> sum_list ds <= 2 ^ 64 -> ld_sum ds = Some (Qc_of_Z (sum_list ds)).
Proof.
  intros Hrnd Hds Hs. unfold ld_sum, ld_of_int. rewrite Hrnd by lia.
  assert (H : forall acc, 0 <= acc -> acc + sum_list ds <= 2 ^ 64 ->
    foldl (fun sum d => ld_add rnd sum (Some (rnd (Qc_of_Z d)))) (Some (Qc_of_Z acc)) ds =
    Some (Qc_of_Z (acc + sum_list ds))); [|by rewrite (H 0)].
  clear Hs. induction Hds as [|d ds Hd Hds IH]; intros acc Hacc Hs; cbn in *; [by rewrite Z.add_0_r|].
  assert (0 <= sum_list ds) by (clear -Hds; induction Hds; cbn; unfold sum_list in *; lia).
  rewrite (Hrnd d), <- Z2Qc_inj_add, Hrnd by (unfold sum_list in *; lia).
  rewrite IH by (unfold sum_list in *; lia). do 2 f_equal. unfold sum_list. lia.
Qed.

(** What is printed for the distances [ds]. *)
Definition measurements_of (ds : list Z) : measurements_t :=
  let n := ld_of_int rnd (Z.of_nat (length ds)) in
  let mean := ld_div rnd (ld_sum ds) n in
  mkMeasurements mean (max_list ds) (ld_div rnd (ld_squares mean ds) n) ds.

Lemma print_ok fuel s q ds :
  holds s q ds -> ds <> [] -> (length ds <= fuel)%nat -> Z.of_nat (length ds) < 2 ^ 64 ->
  runs (print_relaxation_measurements asserts rnd fuel) s (fun r _ => r = measurements_of ds).
Proof.
  intros (xs & ys & (_ & (Hs & _ & Hn) & _ & H0) & _ & <-) Hds Hf Hl. rewrite length_fmap in *.
  unfold print_relaxation_measurements. run_steps. apply runs_assert.
  { rewrite (lseg_head _ _ _ H0 Hs), bool_decide_false; [done|]. by intros ->. }
  run_steps. apply (sum_max_ok fuel s _ ys); [done..|]. run_steps.
  apply (sum_squares_ok fuel s _ ys); [done..|]. run_steps.
  apply (print_all_ok fuel s _ ys); [done..|]. run_steps.
  rewrite Hn, wrap_small by lia. unfold measurements_of. rewrite length_fmap, foldl_max by lia.
  by rewrite Z.max_r by apply max_list_nonneg.
Qed.
End printing.

Lemma measure_dists end_ os m m' :
  measure end_ os m = Some m' -> Forall (Z.le 0) (m_dists m) ->
  Forall (Z.le 0) (m_dists m') /\ (length (m_dists m') <= length (m_dists m) + length os)%nat.
Proof.
  revert m. induction os as [|o os IH]; intros m E Hm; cbn in E; [injection E as <-; split; [done|lia]|].
  destruct o as [|v]; cbn in E.
  - destruct (IH _ E Hm) as [? Hl]. split; [done|]. cbn in *. lia.
  - destruct (list_find _ _) as [[i x]|]; cbn in E; [|done].
    destruct (IH _ E) as [? Hl].
    + apply Forall_app. split; [done|]. constructor; [lia|done].
    + split; [done|]. cbn in *. rewrite length_app in Hl. cbn in Hl. lia.
Qed.

(** ** Relaxed executions *)

(** An execution with the numbers the analysis gives the elements, in which no
    removal skips more than [bound] elements. *)
Inductive relaxed_trace (end_ bound : Z) : list analysis_op -> Z -> list Z -> Prop :=
| rt_nil : relaxed_trace end_ bound [] 0 []
| rt_insert os n q :
    relaxed_trace end_ bound os n q ->
    relaxed_trace end_ bound (os ++ [Inserted]) (n + 1) (insert_linear end_ (n + 1) q)
| rt_remove os n pre v post :
    relaxed_trace end_ bound os n (pre ++ v :: post) -> Z.of_nat (length pre) <= bound ->
    relaxed_trace end_ bound (os ++ [Removed v]) n (pre ++ post).

Lemma relaxed_trace_order end_ bound os n q :
  relaxed_trace end_ bound os n q -> 0 <= n /\ NoDup q /\ Forall (fun v => 0 < v <= n) q.
Proof.
  induction 1 as [|os n q _ (Hn & Hnd & Hq)|os n pre v post _ (Hn & Hnd & Hq) _].
  - split_and!; [done|constructor|constructor].
  - assert (Hv : n + 1 ∉ q). { intros Hv. rewrite Forall_forall in Hq. specialize (Hq _ Hv). lia. }
    assert (Hq' : Forall (fun v => 0 < v <= n + 1) q) by (eapply Forall_impl; [exact Hq|]; cbn; lia).
    split; [lia|]. unfold insert_linear. case_match.
    + split; constructor; [done|done|lia|done].
    + split; [|apply Forall_app; split; [done|]; constructor; [lia|constructor]].
      apply NoDup_app. split; [done|]. split; [|apply NoDup_singleton]. set_solver.
  - rewrite <- Permutation_middle in Hnd, Hq. apply NoDup_cons in Hnd as [_ ?].
    apply Forall_cons in Hq as [_ ?]. done.
Qed.

Lemma relaxed_trace_measure end_ bound os n q :
  relaxed_trace end_ bound os n q ->
  exists ds, measure end_ os measured0 = Some (mkMeasured n q ds) /\ Forall (fun d => 0 <= d <= bound) ds.
Proof.
  induction 1 as [|os n q _ (ds & E & Hds)|os n pre v post Ht (ds & E & Hds) Hb].
  - by exists [].
  - exists ds. split; [|done]. by rewrite measure_app, E.
  - exists (ds ++ [Z.of_nat (length pre)]). split.
    + rewrite measure_app, E. cbn. apply relaxed_trace_order in Ht as (_ & Hnd & _).
      assert (El : list_find (fun x => x = v) (pre ++ v :: post) = Some (length pre, v)).
      { apply list_find_Some. split_and!; [by apply list_lookup_middle|done|].
        intros j y Hj Hlt ->. rewrite lookup_app_l in Hj by done.
        apply NoDup_app in Hnd as (_ & Hd & _). apply (Hd v); [by eapply list_elem_of_lookup_2|set_solver]. }
      rewrite El. cbn. by rewrite delete_middle.
    + apply Forall_app. split; [done|]. constructor; [lia|constructor].
Qed.

(** The insertions and removals of a history of calls; a removal that found the
    structure empty returned 0 and is not analysed. *)
Definition removed (v : Z) : option analysis_op := if v =? 0 then None else Some (Removed v).
Definition queue_events (done : list (QueueHeap.op * Z)) : list analysis_op :=
  omap (fun x => match x.1 with Enqueue _ _ => Some Inserted | Dequeue => removed x.2 end) done.
Definition stack_events (done : list (SubStacks.op * Z)) : list analysis_op :=
  omap (fun x => match x.1 with DoPush _ _ => Some Inserted | DoPop => removed x.2 end) done.
Definition enqueued (done : list (QueueHeap.op * Z)) : list Z :=
  omap (fun x => match x.1 with Enqueue _ v => Some v | Dequeue => None end) done.
Definition pushed (done : list (SubStacks.op * Z)) : list Z :=
  omap (fun x => match x.1 with DoPush _ v => Some v | DoPop => None end) done.

(** The elements' values are the numbers [gen_relaxation_count] gives them. *)
Definition numbered (vs : list Z) : Prop := vs = seqZ 1 (Z.of_nat (length vs)).

Lemma numbered_snoc vs v : numbered (vs ++ [v]) -> numbered vs /\ v = Z.of_nat (length vs) + 1.
Proof.
  unfold numbered. rewrite length_app. cbn [length].
  replace (Z.of_nat (length vs + 1)) with (Z.of_nat (length vs) + 1) by lia.
  rewrite seqZ_app by lia. intros [E1 E2]%app_inj_2; [|done]. split; [done|].
  injection E2. lia.
Qed.

Lemma queue_trace bound done q :
  kq_run bound done q -> numbered (enqueued done) ->
  relaxed_trace 0 bound (queue_events done) (Z.of_nat (length (enqueued done))) q.
Proof.
  unfold queue_events, enqueued.
  induction 1 as [|done q key v Hr IH|done pre v post Hr IH Hb|done Hr IH]; intros Hv;
    rewrite ?omap_app in *; cbn in *; rewrite ?app_nil_r in *.
  - constructor.
  - apply numbered_snoc in Hv as [Hv ->]. rewrite length_app. cbn [length].
    replace (Z.of_nat (_ + 1)) with (Z.of_nat (length (omap (fun x : QueueHeap.op * Z => match x.1 with Enqueue _ v => Some v | Dequeue => None end) done)) + 1) by lia.
    by apply (rt_insert 0), IH.
  - specialize (IH Hv). pose proof (relaxed_trace_order _ _ _ _ _ IH) as (_ & _ & Hq).
    unfold removed. apply Forall_app in Hq as [_ [Hv0 _]%Forall_cons].
    destruct (Z.eqb_spec v 0); [lia|]. cbn. by apply rt_remove.
  - by apply IH.
Qed.

Lemma stack_trace bound done q :
  ks_run bound done q -> numbered (pushed done) ->
  relaxed_trace 1 bound (stack_events done) (Z.of_nat (length (pushed done))) q.
Proof.
  unfold stack_events, pushed.
  induction 1 as [|done q key v Hr IH|done pre v post Hr IH Hb|done Hr IH]; intros Hv;
    rewrite ?omap_app in *; cbn in *; rewrite ?app_nil_r in *.
  - constructor.
  - apply numbered_snoc in Hv as [Hv ->]. rewrite length_app. cbn [length].
    replace (Z.of_nat (_ + 1)) with (Z.of_nat (length (omap (fun x : SubStacks.op * Z => match x.1 with DoPush _ v => Some v | DoPop => None end) done)) + 1) by lia.
    by apply (rt_insert 1), IH.
  - specialize (IH Hv). pose proof (relaxed_trace_order _ _ _ _ _ IH) as (_ & _ & Hq).
    unfold removed. apply Forall_app in Hq as [_ [Hv0 _]%Forall_cons].
    destruct (Z.eqb_spec v 0); [lia|]. cbn. by apply rt_remove.
  - by apply IH.
Qed.

Lemma max_list_bound ds bound :
  0 <= bound -> Forall (fun d => 0 <= d <= bound) ds -> 0 <= max_list ds <= bound.
Proof. intros Hb. unfold max_list. induction 1; cbn; lia. Qed.

Lemma measure_removed end_ os m m' v :
  measure end_ os m = Some m' -> Removed v ∈ os \/ m_dists m <> [] -> m_dists m' <> [].
Proof.
  revert m. induction os as [|o os IH]; intros m E Hv; cbn in E.
  - injection E as <-. destruct Hv as [Hv|]; [by apply elem_of_nil in Hv|done].
  - destruct o as [|v']; cbn in E.
    + apply (IH _ E). destruct Hv as [Hv|]; [|by right]. apply elem_of_cons in Hv as [|]; [done|by left].
    + destruct (list_find _ _) as [[i x]|]; cbn in E; [|done]. apply (IH _ E). right. cbn.
      intros H%eq_sym. by apply app_cons_not_nil in H.
Qed.

Section program.
Context {A : Allocator linear_node_t} (asserts : bool) (rnd : Qc -> Qc).

(** The operations with the analysis, then the printing. *)
Definition analyse_and_print (fuel : nat) (end_ : Z) (os : list analysis_op) : M measurements_t :=
  analyse asserts fuel end_ os;; print_relaxation_measurements asserts rnd fuel.

Lemma analyse_and_print_ok fuel end_ os :
  end_ = 0 \/ end_ = 1 -> Z.of_nat (length os) < 2 ^ 63 -> (length os <= fuel)%nat ->
  match measure end_ os measured0 with
  | Some m => m_dists m <> [] ->
    runs (analyse_and_print fuel end_ os) analysis0 (fun r _ => r = measurements_of rnd (m_dists m))
  | None => exists f, analyse_and_print fuel end_ os analysis0 = Err f /\ (f = AssertFailed \/ f = BadAccess)
  end.
Proof.
  intros Hend Hl Hf.
  pose proof (analyse_ok asserts end_ Hend fuel os analysis0 measured0) as Ha.
  specialize (Ha ltac:(split; [apply holds_analysis0|done]) ltac:(done) ltac:(done) ltac:(cbn; lia) ltac:(cbn; lia)).
  destruct (measure end_ os measured0) as [m|] eqn:Em.
  - intros Hds. destruct (measure_dists _ _ _ _ Em) as [_ Hlen]; [constructor|]. cbn in Hlen.
    apply runs_bind. eapply runs_mono; [exact Ha|]. intros _ s [Hh _].
    eapply print_ok; [done|done|lia|lia].
  - destruct Ha as (f & E & Hfa). exists f. unfold analyse_and_print, mbind, M_bind. by rewrite E.
Qed.
End program.

(** ** The theorems *)

(** C25. Running the analysis next to insertions and removals (at the tail for
    a queue, at the head for a stack) and printing its result gives the
    reference's distances exactly: for every removal the number of elements
    that a strict structure would have removed before, their maximum, and the
    mean of the exact sum; a removal of an element that is not there is
    reported by an assertion or ends at a NULL pointer. *)
Theorem relaxation_analysis_exact {A : Allocator linear_node_t} asserts rnd end_ os fuel :
  (forall z, Z.abs z <= 2 ^ 64 -> rnd (Qc_of_Z z) = Qc_of_Z z) ->
  end_ = 0 \/ end_ = 1 -> Z.of_nat (length os) < 2 ^ 63 -> (length os <= fuel)%nat ->
  match measure end_ os measured0 with
  | Some m =>
    let ds := m_dists m in
    let n := Z.of_nat (length ds) in
    ds <> [] ->
    exists r s, analyse_and_print asserts rnd fuel end_ os analysis0 = Ok r s /\
      relaxation_distances r = ds /\ max_relaxation r = max_list ds /\
      (sum_list ds <= 2 ^ 64 ->
       mean_relaxation r = Some (rnd (Qc_of_Z (sum_list ds) / Qc_of_Z n)%Qc)) /\
      variance_relaxation r = ld_div rnd (ld_squares rnd (mean_relaxation r) ds) (ld_of_int rnd n)
  | None => exists f, analyse_and_print asserts rnd fuel end_ os analysis0 = Err f /\
      (f = AssertFailed \/ f = BadAccess)
  end.
Proof.
  intros Hrnd Hend Hl Hf.
  pose proof (analyse_and_print_ok asserts rnd fuel end_ os Hend Hl Hf) as Hp.
  destruct (measure end_ os measured0) as [m|] eqn:Em; [|done].
  intros ds n Hds. destruct (Hp Hds) as (r & s & E & ->). exists (measurements_of rnd ds), s.
  split_and!; [exact E|done|done| |done].
  destruct (measure_dists _ _ _ _ Em) as [Hpos Hlen]; [constructor|]. cbn in Hlen.
  intros Hsum. cbn [mean_relaxation measurements_of]. rewrite ld_sum_exact by done.
  unfold ld_div, ld_of_int. rewrite Hrnd by (unfold ds; lia). cbn [mbind option_bind].
  rewrite decide_False; [done|]. rewrite <- Z2Qc_inj_0. intros Hz%Z2Qc_inj.
  destruct ds; [done|]. cbn in Hz. lia.
Qed.

(** C26. For an execution of a k-out-of-order queue or stack (such as those of
    the 2D structures) with the elements numbered by the analysis, the analysis
    runs without fault, and every distance it records and the maximum it prints
    are at most [k]. *)
Theorem measured_relaxation_bounded {A : Allocator linear_node_t} asserts rnd end_ bound os v fuel :
  (end_ = 0 /\ exists done q, kq_run bound done q /\ numbered (enqueued done) /\ os = queue_events done) \/
  (end_ = 1 /\ exists done q, ks_run bound done q /\ numbered (pushed done) /\ os = stack_events done) ->
  Removed v ∈ os -> Z.of_nat (length os) < 2 ^ 63 -> (length os <= fuel)%nat ->
  exists r s, analyse_and_print asserts rnd fuel end_ os analysis0 = Ok r s /\
    0 <= max_relaxation r <= bound /\ Forall (fun d => 0 <= d <= bound) (relaxation_distances r).
Proof.
  intros Hrun Hv Hl Hf.
  assert (exists n q, relaxed_trace end_ bound os n q) as (n & q & Ht).
  { destruct Hrun as [(-> & done & q & Hr & Hn & ->)|(-> & done & q & Hr & Hn & ->)];
      eexists _, q; [by apply queue_trace|by apply stack_trace]. }
  destruct (relaxed_trace_measure _ _ _ _ _ Ht) as (ds & Em & Hds).
  assert (Hend : end_ = 0 \/ end_ = 1) by (destruct Hrun as [[-> _]|[-> _]]; auto).
  pose proof (analyse_and_print_ok asserts rnd fuel end_ os Hend Hl Hf) as Hp. rewrite Em in Hp.
  assert (Hne : ds <> []) by (apply (measure_removed _ _ _ _ v Em); by left).
  destruct (Hp Hne) as (r & s & E & ->). exists (measurements_of rnd ds), s. split; [done|].
  split; [|done]. apply max_list_bound; [|done]. destruct Hds; [done|lia].
Qed.

Definition example_events : list analysis_op := [Inserted; Inserted; Inserted; Removed 2; Removed 3; Removed 1].

Lemma relaxation_analysis_exact_witness :
  let _ := bump_allocator linear_node_t in
  measure 0 example_events measured0 = Some (mkMeasured 3 [] [1; 1; 0]) /\
  exists r s, analyse_and_print true (fun q => q) 6 0 example_events analysis0 = Ok r s /\
    relaxation_distances r = [1; 1; 0] /\ max_relaxation r = 1.
Proof.
  split; [vm_compute; reflexivity|].
  destruct (relaxation_analysis_exact (A := bump_allocator linear_node_t) true (fun q => q) 0 example_events 6)
    as (r & s & E & Ed & Em & _).
  - intros z _. reflexivity.
  - left. reflexivity.
  - vm_compute. reflexivity.
  - vm_compute. lia.
  - discriminate.
  - exists r, s. split; [exact E|]. split; [exact Ed|]. rewrite Em. vm_compute. reflexivity.
Defined.

Lemma measured_relaxation_bounded_witness :
  let _ := bump_allocator linear_node_t in
  exists r s, analyse_and_print true (fun q => q) 3 0 [Inserted; Inserted; Removed 2] analysis0 = Ok r s /\
    0 <= max_relaxation r <= 1 /\ Forall (fun d => 0 <= d <= 1) (relaxation_distances r).
Proof.
  apply (measured_relaxation_bounded (A := bump_allocator linear_node_t) true (fun q => q) 0 1
    [Inserted; Inserted; Removed 2] 2 3).
  - left. split; [reflexivity|]. exists [(Enqueue 7 1, 1); (Enqueue 8 2, 1); (Dequeue, 2)], [1].
    split; [|split; [vm_compute; reflexivity|vm_compute; reflexivity]].
    apply (kq_deq 1 [(Enqueue 7 1, 1); (Enqueue 8 2, 1)] [1] 2 []); [|cbn; lia].
    apply (kq_enq 1 [(Enqueue 7 1, 1)] [1] 8 2). apply (kq_enq 1 [] [] 7 1). constructor.
  - set_solver.
  - vm_compute. reflexivity.
  - cbn. lia.
Defined.
